(* ===== verification/_CoqProject ===== *)
-Q . S2P
Prelude.v
F64.v
Types.v
Route.v
Samples.v
RouteProofs.v
Amounts.v
Quote.v
Exclusive.v
Allocation.v
PriceGuard.v
Fees.v
Ranking.v
RankingProofs.v
Dispatch.v
Encoding.v
Router.v
RouterProofs.v
Tracker.v
DerivedStore.v
SpotPriceComputation.v
Schedule.v
Manager.v
SpotPricePipeline.v
ComponentDepth.v
DepthPipeline.v
MarketData.v
MarketDataProofs.v
MarketInvariant.v
MarketProperties.v
TychoFeed.v
TychoFeedProofs.v
StableGraph.v
TokenGraph.v
RouteSearchProofs.v
TokenPaths.v
ExpandPath.v
TokenGraphManager.v
TokenGraphLaws.v
TokenGraphSync.v
TokenGraphProperties.v
GraphFollowsMarket.v
RouteSearch.v
PetgraphManager.v
SwapCache.v
Algorithm.v
PathScoring.v
Paths.v
MostLiquid.v
MostLiquidProofs.v
MostLiquidProperties.v
MostLiquidSamples.v
WorkerChecks.v
WeightRound.v
FallbackPools.v
Admission.v
SplitMath.v
Replay.v
SplitPlan.v
SplitPlanProofs.v
SplitReplay.v
BellmanFord.v
FallbackPricing.v
Replace.v
ReplaceProofs.v
ReplaceIndex.v
Replacers.v
PostProcessProperties.v
PostProcess.v
RouteSamples.v
Worker.v
WorkerProofs.v
BellmanFordProofs.v
FrankWolfe.v
FrankWolfeProofs.v
WaterFill.v
WaterFillProofs.v
TokenPrices.v
TokenPricesProofs.v
TokenPricesProperties.v
