(* ===== verification/Prelude.v ===== *)
(** * Fynd: a verification development of the route-finding engine

    Fynd answers swap requests. A request's orders go to worker pools that look for
    routes; the router collects their quotes, ranks them, overlays exclusive
    liquidity, checks prices and encodes the winner into calldata. Beside it a
    manager recomputes derived data (spot prices, token prices, pool depths) for every
    block, and the workers track when that data is ready. The development models the
    core crate, [fynd-core/src/], in these files (paths below are relative to it).

    Shared
    - [Prelude]: outcomes ([Ret] or [Panic]), results, their monads and notation, and
      lemmas on lists, sorting and integers. [F64]: Rust's [f64] as IEEE binary64.
    - [Types]: [types/quote.rs], [types/internal.rs] and the error types of
      [algorithm/mod.rs]. The class [Tycho] is the interface of the Tycho packages: pools,
      tokens and transfer types are its parameters. [Samples]: data for witnesses.

    From a request to a quote
    - [Route], [RouteProofs]: [Route::validate] of [types/quote.rs]. It never panics; a
      sequential route is accepted exactly when it is a simple chain; an accepted split
      route is an acyclic network from input to output with sound fractions.
    - [Amounts]: [bps.rs], [derived/types.rs]. [Quote]: the quote of an order and its setters.
    - [Exclusive]: [exclusive_route.rs]. The commitment never leaves the
      user worse off than the public reference and is payable from the route's output.
    - [Allocation]: [worker_pool_router/allocation.rs]. Without access no exclusive pool serves.
    - [Dispatch]: [solve_order] of [worker_pool_router/mod.rs] as a state machine over the
      answers of the pools and the deadline, in any interleaving. Every pool is accounted
      for once, an early return meets its gates, the loop ends.
    - [Fees]: [encoding/router_fees.rs] and the fee arithmetic of [encoding/encoder.rs].
    - [Ranking], [RankingProofs]: ranking, placeholders, gas refinement, the check of
      fallbacks and the exclusive overlay of [worker_pool_router/mod.rs].
    - [PriceGuard]: [price_guard/guard.rs] over any price providers.
    - [Encoding]: [encode_until] of [encoding/encoder.rs] and the retries of the router.
    - [Router], [RouterProofs]: [solve], [quote] and [finalize_quote], composed of all the
      above. They never panic on well-formed candidates and answer every order once.

    Derived data
    - [Tracker]: [derived/tracker.rs]. Its state is a function of the history of events.
    - [DerivedStore]: [derived/store.rs]. Slots and failure maps.
    - [SpotPriceComputation]: [derived/computations/spot_price.rs]. The incremental run
      equals a full recomputation.
    - [Schedule]: [build_schedule] of [derived/manager.rs]. It terminates for any
      requirements and respects them.
    - [Manager]: coalescing, registration and [compute_all] of [derived/manager.rs]. Every
      computation is reported once per block, every report has its reason, no worker is
      left waiting. The class [PersistsOwnSlot] is what the manager asks of a
      computation; the default persisters are instances.
    - [SpotPricePipeline]: spot prices registered with the manager follow the market.
    - [ComponentDepth], [DepthPipeline]: [derived/computations/component_depth.rs]. Target
      prices are exact, and depths that a run completes follow the market at the spot
      prices of the same block.
    - [TokenPrices], [TokenPricesProofs], [TokenPricesProperties]:
      [derived/computations/token_gas_price.rs], a solver's client: it buys tokens with the
      gas token along Bellman-Ford routes, sells them back, and flags the pools that
      answer badly. A price is backed by the routes its pass found and what their pools pay, a pass
      accounts for every token, the cap rotates over what arrivals leave of it, and the stored
      prices and dependencies agree.

    The market and its feed
    - [MarketData]: [feed/market_data.rs]. The market state with its indexes and
      synchronization status, subsets and batched snapshots, the overlays of labelled
      states, and the constraint cache of [worker_pool/worker.rs]. [MarketDataProofs],
      [MarketInvariant]: its laws and the invariant [market_ok]. [MarketProperties]: the
      invariant is kept, filters resolve exactly, snapshots equal one reading of a state.
    - [TychoFeed], [TychoFeedProofs]: the message handlers of [feed/tycho_feed.rs]. An event
      tells everything that changed, so spot prices and graphs that follow the events
      follow the market. [book_fits] says what the feed relies on in a venue's update.

    The graphs
    - [StableGraph]: the graph library as the class [DiGraph], with finite maps as an
      instance. The client theorems are proved against the class.
    - [TokenGraph]: [TopologyGraph] and the route search of [graph/token_graph.rs], search
      bounds and paths of [graph/mod.rs]. [RouteSearchProofs], [TokenPaths]: the half-walks,
      the join, and the circular search. [ExpandPath]: the odometer over pool picks.
      [RouteSearch]: the search returns the routes, each once, shortest first, when pools
      trade both ways, and misses a one-way route; expanded paths can be traded.
    - [TokenGraphManager]: [TopologyGraphManager] of the same file. [TokenGraphLaws],
      [TokenGraphSync], [TokenGraphProperties]: its representation
      invariant and the laws of its operations against the table of each component's
      directions. [GraphFollowsMarket]: it refines the table through any events, and
      follows the feed.
    - [PetgraphManager]: [graph/petgraph.rs], the graph with an edge per direction of a
      component. The two managers agree.

    The workers
    - [WorkerChecks]: what [worker_pool/worker.rs] checks of a route
      before it is quoted; the checks accept exactly the admissible routes.
    - [WeightRound]: [WeightInputsRound] of the same file: when a worker rebuilds the
      weights of its graph within a block.
    - [Admission]: [graph/component_filter.rs] and the admission of pAMMs
      in [worker.rs]. The graph holds the components of the worker's scope, a pAMM only
      while a pool backs it.
    - [FallbackPools], [FallbackPricing]: [fallback/mod.rs] and [fallback/user_data.rs]: the
      index of the pools that may stand in for a pAMM, the data the router reads, and the
      pricing of a route through them.
    - [Worker], [WorkerProofs]: [SolverWorker] of [worker_pool/worker.rs] and the price impact
      of a quote ([worker_pool/price_impact.rs], definitions), over the classes of
      its algorithm, its graph and its post-processors: the quote of an order, the events of
      the graph, the wait for derived data, and the loop as a choice among the arms that are
      ready. A quoted route passed the checks of the request; the state it names is read before
      the solve, whose own reading may be newer. Post-processing never takes a quote away, and
      through any turns the graph follows a market that is read in step with its events; a
      market that runs ahead can leave an excluded pool in the graph.

    The algorithms
    - [SwapCache]: [algorithm/swap_cache.rs] and the panic guard of [algorithm/sim_guard.rs].
      Against concave pools whose refusals are limits of size, no answer is better than the
      pool's.
    - [PathScoring]: [algorithm/path_scoring.rs], the ranking by edge
      weights and the walk that chooses a pool per leg. On gross output the walk loses
      nothing against any choice of pools that can take what it brings to each leg.
    - [Algorithm]: configuration, request and result ([algorithm/mod.rs], [request.rs],
      [types/quote.rs]). [Paths]: [algorithm/paths.rs].
    - [MostLiquid]: [algorithm/most_liquid.rs] from the request to the route.
      [MostLiquidProofs], [MostLiquidProperties]: its route can be executed, pays what the
      pools' states answer, and is the best of the candidates solved in time; it never
      panics. [MostLiquidSamples]: markets for witnesses, and two solves and a walk that
      differ from what the comments promise.
    - [BellmanFord], [BellmanFordProofs]: [algorithm/bellman_ford.rs], and its laws as a
      worker's algorithm. The predecessors stay a tree, so a solve never panics or diverges
      and its route is valid; the subgraph keeps every route of legal length when pools trade
      both ways; gross amounts bound what the route pays. Three solves differ from what
      the comments promise.
    - [FrankWolfe], [FrankWolfeProofs]: [algorithm/path_frank_wolfe.rs], and its laws as a
      worker's algorithm. A solve never panics and nets no less than the Bellman-Ford solve
      it starts from; a split it returns is a valid network that replays to the amount it
      is ranked by; without a price for the output token it never splits.
    - [WaterFill], [WaterFillProofs]: [algorithm/water_fill/], and its laws as a worker's
      algorithm. The marginals a pass remembers are those it would simulate again; with
      diminishing marginals no other way to hand out a whole number of chunks pays more; the exchange between
      paths ends, moves the order without losing any of it and never nets less. A solve never
      panics and nets no less than its best single path, and a split it returns takes the whole
      order and, where it is valid, replays to what it pays. The coarse split can be lost to the
      clock, which a comment denies.

    Split routes and replay
    - [SplitMath]: the arithmetic of [algorithm/split_primitives.rs]: splitting an amount by
      fractions is exact or answers its error. [SplitPlan], [SplitPlanProofs]: simulation
      of paths, merging of shared hops, the execution of a split plan token by token, its
      score and its route; it terminates and never panics.
    - [Replay]: [replay.rs]. A replay makes or loses no token.
    - [SplitReplay]: the route built from a split replays to the split's score.

    Post-processing
    - [Replace]: the search of [post_process/replace.rs] over any finder of replacements, a
      class; [ReplaceProofs]: its theorems from the laws of the class. [ReplaceIndex]: the
      index of the components a replacer may use follows the market.
    - [Replacers]: the RFQ and the exclusive finder ([rfq.rs],
      [exclusive.rs]), instances of the class. [PostProcessProperties]: a route they return
      nets more than the original, and an exclusive one commits to an amount that leaves the
      user at least the original's net.
    - [PostProcess]: the pipeline and the registry ([pipeline.rs], [registry.rs]).
      [RouteSamples]: markets for the witnesses of split, fallback and replaced routes.

    Conventions. [BigUint] is [N], machine integers are [N] with their bounds written out,
    hash maps are [gmap]s, and a hash map's iteration order is its key order where the
    result does not depend on it, or a parameter where it does; so are the readings of the
    clock. Code that can panic
    returns [outcome], fallible code [result] or [option]. Code outside the repository
    is a parameter: simulation states, calldata encoding, address parsing, price
    providers, gas estimators.

    Fuel. The breadth-first search of a split route, the recursion over the swaps
    after an exclusive leg, the retry rounds, the schedule's passes, the walk that avoids a
    required token, the loop of a split plan, the walks of a Bellman-Ford solve and the rounds of the
    water-fill exchange ([exchange_fuel]: the cap on trials and the halvings of the amount moved) carry
    fuel; each file says why its amount is enough, and a theorem proves that the result is never the
    out-of-fuel one.

    Not modelled: the task queue and the threads and channels around a worker's loop, calldata
    construction and simulation (they enter as parameters where the router uses them), and
    everything that is transport: the HTTP API, the clients, streams and tools. Metrics and
    logs are left out throughout. *)

From stdpp Require Import prelude gmap strings list sorting.
From Stdlib Require Import Ascii.
From Stdlib Require Import NArith ZArith Lia.

#[global] Open Scope N_scope.

(** ** Outcomes, results and their notation *)

(** A computation of the program that can panic: [BigUint] subtraction below
    zero, division by zero, an index out of range. *)
Inductive outcome (A : Type) : Type :=
| Ret (a : A)
| Panic.
Arguments Ret {A} _.
Arguments Panic {A}.

(** Rust's [Result<A, E>], the error type first. *)
Inductive result (E A : Type) : Type :=
| Ok (a : A)
| Err (e : E).
Arguments Ok {E A} _.
Arguments Err {E A} _.

#[export] Instance outcome_ret : MRet outcome := @Ret.
#[export] Instance outcome_bind : MBind outcome := fun A B f m =>
  match m with Ret a => f a | Panic => Panic end.
#[export] Instance outcome_fmap : FMap outcome := fun A B f m =>
  match m with Ret a => Ret (f a) | Panic => Panic end.
#[export] Instance result_ret {E} : MRet (result E) := @Ok E.
#[export] Instance result_bind {E} : MBind (result E) := fun A B f m =>
  match m with Ok a => f a | Err e => Err e end.

(** Panicking computations that also return a [Result], threaded with [?]. *)
Definition try_bind {E A B} (m : outcome (result E A))
    (f : A -> outcome (result E B)) : outcome (result E B) :=
  match m with
  | Ret (Ok a) => f a
  | Ret (Err e) => Ret (Err e)
  | Panic => Panic
  end.

Declare Scope fynd_scope.
Delimit Scope fynd_scope with fynd.
Notation "x <-? m ; k" := (try_bind m (fun x => k))
  (at level 20, m at level 100, k at level 200, right associativity,
   format "x  <-?  m ;  '/' k") : fynd_scope.
#[global] Open Scope fynd_scope.

Definition is_ret {A} (m : outcome A) : bool :=
  match m with Ret _ => true | Panic => false end.
Definition is_ok {E A} (r : result E A) : bool :=
  match r with Ok _ => true | Err _ => false end.

Lemma bind_Ret {A B} (m : outcome A) (f : A -> outcome B) b :
  m ≫= f = Ret b <-> exists a, m = Ret a /\ f a = Ret b.
Proof.
  destruct m; cbn; split; [eauto | by intros (? & [= ->] & ?) | done |].
  by intros (? & ? & ?).
Qed.

Lemma bind_Ok {E A B} (m : result E A) (f : A -> result E B) b :
  m ≫= f = Ok b <-> exists a, m = Ok a /\ f a = Ok b.
Proof.
  destruct m; cbn; split; [eauto | by intros (? & [= ->] & ?) | done |].
  by intros (? & ? & ?).
Qed.

Lemma try_bind_Ok {E A B} (m : outcome (result E A))
    (f : A -> outcome (result E B)) b :
  try_bind m f = Ret (Ok b) <-> exists a, m = Ret (Ok a) /\ f a = Ret (Ok b).
Proof.
  destruct m as [[a|e]|]; cbn; split; eauto; try done;
    intros (? & ? & ?); by simplify_eq.
Qed.

Lemma bind_not_Panic {A B} (m : outcome A) (f : A -> outcome B) :
  m <> Panic -> (forall a, m = Ret a -> f a <> Panic) -> m ≫= f <> Panic.
Proof. destruct m; cbn; eauto. Qed.

(** Splits hypotheses about successful monadic computations. *)
Ltac outcome_inv :=
  repeat match goal with
  | H : (_ ≫= _) = Ret _ |- _ =>
      apply bind_Ret in H; let a := fresh "a" in destruct H as (a & ? & H)
  | H : (_ ≫= _) = Ok _ |- _ =>
      apply bind_Ok in H; let a := fresh "a" in destruct H as (a & ? & H)
  | H : try_bind _ _ = Ret (Ok _) |- _ =>
      apply try_bind_Ok in H; let a := fresh "a" in destruct H as (a & ? & H)
  | H : Ret _ = Ret _ |- _ => injection H as H
  | H : Ok _ = Ok _ |- _ => injection H as H
  | H : mret _ = Ret _ |- _ => injection H as H
  | H : mret _ = Ok _ |- _ => injection H as H
  end.

(** ** Machine integers and [BigUint] *)

(** [BigUint] is [N]. Its subtraction panics below zero and its division
    panics on a zero divisor; [checked_sub] and [saturating_sub] do not. *)
Definition u16_MAX : N := 65535.
Definition u32_MAX : N := 4294967295.
Definition u64_MAX : N := 18446744073709551615.

Definition bsub (a b : N) : outcome N := if b <=? a then Ret (a - b) else Panic.
Definition bdiv (a b : N) : outcome N := if b =? 0 then Panic else Ret (a / b).
Definition checked_sub (a b : N) : option N := if b <=? a then Some (a - b) else None.

Lemma bsub_ge a b : b <= a -> bsub a b = Ret (a - b).
Proof. intros H. unfold bsub. by rewrite (proj2 (N.leb_le _ _) H). Qed.

Lemma bsub_Ret a b c : bsub a b = Ret c <-> b <= a /\ c = a - b.
Proof.
  unfold bsub. destruct (N.leb_spec b a); split; try done; try lia.
  - by intros [= <-].
  - by intros [_ ->].
Qed.

Lemma bdiv_nonzero a b : b <> 0 -> bdiv a b = Ret (a / b).
Proof. intros H. unfold bdiv. by rewrite (proj2 (N.eqb_neq _ _) H). Qed.

Lemma bdiv_Ret a b c : bdiv a b = Ret c <-> b <> 0 /\ c = a / b.
Proof.
  unfold bdiv. destruct (N.eqb_spec b 0); split; try done.
  - by intros [? _].
  - by intros [= <-].
  - by intros [_ ->].
Qed.

Lemma checked_sub_default a b : default 0 (checked_sub a b) = a - b.
Proof. unfold checked_sub. destruct (N.leb_spec b a); cbn; lia. Qed.

(** The bounds of floor and ceiling division that rounding arguments use. *)
Lemma div_mul_le a d : d <> 0 -> d * (a / d) <= a.
Proof. intros _. apply N.Div0.mul_div_le. Qed.

Lemma div_lt_mul_succ a d : d <> 0 -> a < d * (a / d + 1).
Proof.
  intros H. pose proof (N.div_mod a d H). pose proof (N.mod_lt a d H). nia.
Qed.

Lemma ceil_div_spec a d : d <> 0 ->
  a <= d * ((a + d - 1) / d) /\ d * ((a + d - 1) / d) < a + d.
Proof.
  intros H. pose proof (div_mul_le (a + d - 1) d H).
  pose proof (div_lt_mul_succ (a + d - 1) d H). nia.
Qed.

Lemma div_le_of_le_mul a d q : d <> 0 -> a <= d * q -> a / d <= q.
Proof. intros. apply N.Div0.div_le_upper_bound. lia. Qed.

(** ** Rust iterator and slice operations *)

Section iterators.
Context {A B : Type}.

Definition sum_by (f : A -> N) (l : list A) : N :=
  fold_left (fun acc x => acc + f x) l 0.

(** [Iterator::position]. *)
Fixpoint position (p : A -> bool) (l : list A) : option nat :=
  match l with
  | [] => None
  | x :: l' => if p x then Some O else S <$> position p l'
  end.

(** [Iterator::find]. *)
Fixpoint find_first (p : A -> bool) (l : list A) : option A :=
  match l with
  | [] => None
  | x :: l' => if p x then Some x else find_first p l'
  end.

(** [Vec::insert]: panics when the index is past the end. *)
Definition vec_insert (i : nat) (x : A) (l : list A) : outcome (list A) :=
  if (i <=? length l)%nat then Ret (take i l ++ x :: drop i l) else Panic.

(** [Iterator::max_by] keeps the last of the greatest elements, and
    [Iterator::min_by_key] the first of the least ones. *)
Definition max_by_N (key : A -> N) (l : list A) : option A :=
  fold_left (fun acc x =>
    match acc with
    | None => Some x
    | Some m => if key m <=? key x then Some x else Some m
    end) l None.

Definition min_by_key (key : A -> N) (l : list A) : option A :=
  fold_left (fun acc x =>
    match acc with
    | None => Some x
    | Some m => if key x <? key m then Some x else Some m
    end) l None.

(** [slice::sort_by] is a stable sort; here by a descending key. Insertion
    goes after every element whose key is at least as large. *)
Fixpoint insert_desc (key : A -> N) (x : A) (l : list A) : list A :=
  match l with
  | [] => [x]
  | y :: l' => if key y <? key x then x :: y :: l' else y :: insert_desc key x l'
  end.

Definition sort_desc (key : A -> N) (l : list A) : list A :=
  fold_left (fun acc x => insert_desc key x acc) l [].
End iterators.

(** The laws of the iterator operations. *)
Section iterator_laws.
Context {A : Type}.
Implicit Types (l : list A) (key : A -> N).

Lemma sum_by_acc (f : A -> N) l acc :
  fold_left (fun acc x => acc + f x) l acc = acc + sum_by f l.
Proof.
  unfold sum_by. revert acc. induction l as [|x l IH]; intros acc; cbn; [lia|].
  rewrite IH, (IH (0 + f x)). lia.
Qed.

Lemma sum_by_cons (f : A -> N) x l : sum_by f (x :: l) = f x + sum_by f l.
Proof. unfold sum_by at 1. cbn. apply sum_by_acc. Qed.

Lemma sum_by_app (f : A -> N) l1 l2 : sum_by f (l1 ++ l2) = sum_by f l1 + sum_by f l2.
Proof.
  induction l1 as [|x l1 IH]; [done|]. cbn [app]. rewrite !sum_by_cons, IH. lia.
Qed.

Lemma sum_by_elem (f : A -> N) x l : x ∈ l -> f x <= sum_by f l.
Proof.
  induction 1 as [x l|x y l _ IH]; rewrite sum_by_cons; lia.
Qed.

Lemma elem_of_filterb (p : A -> bool) x l :
  x ∈ List.filter p l <-> x ∈ l /\ p x = true.
Proof. by rewrite !list_elem_of_In, filter_In. Qed.

Lemma sublist_filterb (p : A -> bool) l : List.filter p l `sublist_of` l.
Proof.
  induction l as [|x l IH]; cbn; [done|].
  destruct (p x); [by apply sublist_skip|by apply sublist_cons].
Qed.

Lemma position_Some (p : A -> bool) l i :
  position p l = Some i ->
  exists x, l !! i = Some x /\ p x = true /\
    forall j y, (j < i)%nat -> l !! j = Some y -> p y = false.
Proof.
  revert i. induction l as [|x l IH]; intros i; cbn; [done|].
  destruct (p x) eqn:Hp.
  - intros [= <-]. exists x. split_and!; [done..|]. intros; lia.
  - destruct (position p l) as [k|] eqn:Hpos; cbn; [|done]. intros [= <-].
    destruct (IH k eq_refl) as (y & Hy & Hpy & Hlt).
    exists y. split_and!; [done..|]. intros [|j] z Hj Hz; cbn in Hz; [congruence|].
    apply (Hlt j); [lia|done].
Qed.

Lemma position_None (p : A -> bool) l x :
  position p l = None -> x ∈ l -> p x = false.
Proof.
  intros Hpos Hx. induction Hx as [x l|x y l _ IH]; cbn in Hpos.
  - by destruct (p x).
  - destruct (p y); [done|]. by destruct (position p l); [|apply IH].
Qed.

Lemma find_first_Some (p : A -> bool) l x :
  find_first p l = Some x -> x ∈ l /\ p x = true.
Proof.
  induction l as [|y l IH]; cbn; [done|]. destruct (p y) eqn:Hp.
  - intros [= <-]. split; [left|done].
  - intros [??]%IH. split; [by right|done].
Qed.

Lemma find_first_None (p : A -> bool) l x :
  find_first p l = None -> x ∈ l -> p x = false.
Proof.
  intros Hf Hx. induction Hx as [x l|x y l _ IH]; cbn in Hf.
  - by destruct (p x).
  - destruct (p y); [done|auto].
Qed.

Lemma insert_desc_perm key x l : insert_desc key x l ≡ₚ x :: l.
Proof.
  induction l as [|y l IH]; cbn; [done|]. destruct (_ <? _); [done|].
  rewrite IH. constructor.
Qed.

Lemma sort_desc_acc_perm key l acc :
  fold_left (fun acc x => insert_desc key x acc) l acc ≡ₚ l ++ acc.
Proof.
  revert acc. induction l as [|x l IH]; intros acc; cbn; [done|].
  rewrite IH, insert_desc_perm. symmetry. apply Permutation_middle.
Qed.

Lemma sort_desc_perm key l : sort_desc key l ≡ₚ l.
Proof. unfold sort_desc. by rewrite sort_desc_acc_perm, app_nil_r. Qed.

Definition ranked_by key : relation A := fun x y => key y <= key x.

Lemma insert_desc_sorted key x l :
  StronglySorted (ranked_by key) l -> StronglySorted (ranked_by key) (insert_desc key x l).
Proof.
  unfold ranked_by. induction 1 as [|y l Hs IH Hy]; cbn; [repeat constructor|].
  destruct (N.ltb_spec (key y) (key x)) as [Hlt|Hge].
  - constructor; [by constructor|]. constructor; [lia|].
    eapply Forall_impl; [exact Hy|]. cbn. lia.
  - constructor; [done|]. rewrite insert_desc_perm. by constructor.
Qed.

Lemma sort_desc_sorted key l : StronglySorted (ranked_by key) (sort_desc key l).
Proof.
  unfold sort_desc. cut (StronglySorted (ranked_by key) ([] : list A)); [|constructor].
  generalize ([] : list A). induction l as [|x l IH]; intros acc Hacc; cbn; [done|].
  by apply IH, insert_desc_sorted.
Qed.

(** Stability: elements of one key keep their order. *)
Lemma insert_desc_stable key x l k :
  StronglySorted (ranked_by key) l ->
  List.filter (fun y => key y =? k) (insert_desc key x l)
  = List.filter (fun y => key y =? k) (l ++ [x]).
Proof.
  induction 1 as [|y l Hs IH Hy]; cbn; [done|].
  destruct (N.ltb_spec (key y) (key x)) as [Hlt|Hge].
  - cbn. destruct (N.eqb_spec (key x) k) as [Hk|Hk].
    + destruct (N.eqb_spec (key y) k); [lia|].
      assert (List.filter (fun y => key y =? k) l = []) as Hnil.
      { clear IH Hs. induction Hy as [|z l Hz _ IH]; cbn; [done|].
        unfold ranked_by in Hz. destruct (N.eqb_spec (key z) k); [lia|done]. }
      rewrite List.filter_app, Hnil. cbn. by destruct (N.eqb_spec (key x) k).
    + rewrite List.filter_app. cbn. destruct (N.eqb_spec (key x) k); [done|].
      by rewrite app_nil_r.
  - cbn. rewrite IH. by destruct (_ =? _).
Qed.

Lemma sort_desc_stable key l k :
  List.filter (fun y => key y =? k) (sort_desc key l)
  = List.filter (fun y => key y =? k) l.
Proof.
  unfold sort_desc. change l with ([] ++ l) at 2.
  cut (StronglySorted (ranked_by key) ([] : list A)); [|constructor].
  generalize ([] : list A). induction l as [|x l IH]; intros acc Hacc; cbn.
  - by rewrite app_nil_r.
  - rewrite IH by (by apply insert_desc_sorted).
    rewrite List.filter_app, insert_desc_stable by done.
    by rewrite <- List.filter_app, <- app_assoc.
Qed.

Lemma max_by_N_app key l x :
  max_by_N key (l ++ [x])
  = match max_by_N key l with
    | None => Some x
    | Some m => if key m <=? key x then Some x else Some m
    end.
Proof. unfold max_by_N. by rewrite fold_left_app. Qed.

Lemma max_by_N_spec key l :
  match max_by_N key l with
  | None => l = []
  | Some m => m ∈ l /\ forall x, x ∈ l -> key x <= key m
  end.
Proof.
  induction l as [|x l IH] using rev_ind; [done|]. rewrite max_by_N_app.
  destruct (max_by_N key l) as [m|].
  - destruct IH as [Hm Hle]. destruct (N.leb_spec (key m) (key x)).
    + split; [set_solver|]. intros y [Hy|Hy%list_elem_of_singleton]%elem_of_app;
        [apply Hle in Hy; lia|subst; lia].
    + split; [set_solver|]. intros y [Hy|Hy%list_elem_of_singleton]%elem_of_app;
        [by apply Hle|subst; lia].
  - subst. cbn. split; [set_solver|]. intros y Hy%list_elem_of_singleton. subst. lia.
Qed.

Lemma max_by_N_Some key l m :
  max_by_N key l = Some m -> m ∈ l /\ forall x, x ∈ l -> key x <= key m.
Proof. intros H. pose proof (max_by_N_spec key l) as Hs. by rewrite H in Hs. Qed.

(** [min_by_key]: the chosen element is least, and every earlier one is greater. *)
Lemma min_by_key_spec key l :
  match min_by_key key l with
  | None => l = []
  | Some m => exists l1 l2, l = l1 ++ m :: l2 /\
      (forall x, x ∈ l1 -> key m < key x) /\ (forall x, x ∈ l2 -> key m <= key x)
  end.
Proof.
  induction l as [|x l IH] using rev_ind; [done|].
  unfold min_by_key in *. rewrite fold_left_app. cbn.
  destruct (fold_left _ l None) as [m|].
  - destruct IH as (l1 & l2 & -> & H1 & H2). destruct (N.ltb_spec (key x) (key m)).
    + exists (l1 ++ m :: l2), []. split; [done|]. split; [|set_solver].
      intros y [Hy%H1|[->|Hy%H2]%elem_of_cons]%elem_of_app; lia.
    + exists l1, (l2 ++ [x]). split; [by rewrite <- app_assoc|]. split; [done|].
      intros y [Hy%H2|Hy%list_elem_of_singleton]%elem_of_app; [done|by subst].
  - subst. exists [], []. split; [done|]. set_solver.
Qed.
End iterator_laws.

(** ** Parsing unsigned integers *)

Definition is_space (c : Ascii.ascii) : bool :=
  let n := Ascii.N_of_ascii c in (n =? 32) || ((9 <=? n) && (n <=? 13)).

Fixpoint trim_start (l : list Ascii.ascii) : list Ascii.ascii :=
  match l with
  | c :: l' => if is_space c then trim_start l' else l
  | [] => []
  end.

(** [str::trim] on ASCII text. *)
Definition trim (l : list Ascii.ascii) : list Ascii.ascii :=
  reverse (trim_start (reverse (trim_start l))).

Definition digit (c : Ascii.ascii) : option N :=
  let n := Ascii.N_of_ascii c in
  if (48 <=? n) && (n <=? 57) then Some (n - 48) else None.

(** Digits only, with an overflow check at every digit, as [from_str_radix] does. *)
Fixpoint parse_digits (max acc : N) (l : list Ascii.ascii) : option N :=
  match l with
  | [] => Some acc
  | c :: l' =>
      d ← digit c;
      let acc' := acc * 10 + d in
      if acc' <=? max then parse_digits max acc' l' else None
  end.

(** [str::parse] for an unsigned integer type: an optional [+], then at least one digit. *)
Definition parse_uint (max : N) (l : list Ascii.ascii) : option N :=
  let digits := match l with
                | c :: l' => if Ascii.eqb c "+"%char then l' else l
                | [] => []
                end in
  match digits with [] => None | _ => parse_digits max 0 digits end.

Lemma parse_digits_bound max l acc n :
  acc <= max -> parse_digits max acc l = Some n -> n <= max.
Proof.
  revert acc. induction l as [|c l IH]; intros acc Hacc; cbn; [by intros [= <-]|].
  destruct (digit c) as [d|]; cbn; [|done].
  destruct (N.leb_spec (acc * 10 + d) max); [|done]. by apply IH.
Qed.

(** ** Folds, filters and partial maps *)

Lemma fold_left_inv {A B} (P : A -> Prop) (f : A -> B -> A) l a :
  P a -> (forall a b, P a -> P (f a b)) -> P (fold_left f l a).
Proof. intros Hstart Hf. revert Hstart. revert a. induction l as [|b l IH]; intros a Ha; cbn; auto. Qed.

Lemma filterb_perm {A} (p : A -> bool) (l : list A) :
  List.filter (fun x => negb (p x)) l ++ List.filter p l ≡ₚ l.
Proof.
  induction l as [|x l IH]; cbn; [done|]. destruct (p x); cbn; [|by rewrite IH].
  by rewrite <- Permutation_middle, IH.
Qed.

Lemma omap_lookup_seq {A} (l : list A) : omap (fun i => l !! i) (seq 0 (length l)) = l.
Proof.
  induction l as [|x l IH]; [done|]. cbn. f_equal. rewrite <- fmap_S_seq.
  rewrite <- IH at 2. generalize (seq 0 (length l)). intros idxs.
  induction idxs as [|i idxs IHi]; cbn; [done|]. by rewrite IHi.
Qed.

Lemma omap_NoDup_inj {A B} (f : A -> option B) (l : list A) x y k :
  NoDup (omap f l) -> x ∈ l -> y ∈ l -> f x = Some k -> f y = Some k -> x = y.
Proof.
  intros Hnd Hx Hy Hfx Hfy. induction l as [|z l IH]; [by apply elem_of_nil in Hx|].
  cbn in Hnd. assert (NoDup (omap f l)) as Hnd'.
  { destruct (f z); [by apply NoDup_cons in Hnd as []|done]. }
  apply elem_of_cons in Hx as [->|Hx], Hy as [->|Hy]; [done|exfalso..|by apply IH].
  - rewrite Hfx in Hnd. apply NoDup_cons in Hnd as [Hk _]. apply Hk, list_elem_of_omap. by exists y.
  - rewrite Hfy in Hnd. apply NoDup_cons in Hnd as [Hk _]. apply Hk, list_elem_of_omap. by exists x.
Qed.

(** ** Hint databases *)

Create HintDb fynd.
#[export] Hint Resolve sort_desc_perm sort_desc_sorted : fynd.
#[export] Hint Resolve div_mul_le : fynd.
