(* ===== verification/F64.v ===== *)
(** * F64: Rust's [f64]

    A double is a [spec_float] of precision 53 and exponent bound 1024, the
    executable IEEE 754 binary64 model of the standard library. Comparisons are
    the IEEE ones: every comparison with a NaN is false, except [!=]. *)

From Stdlib Require Import Floats.SpecFloat.
From stdpp Require Import prelude.
From Stdlib Require Import NArith ZArith Lia.
From S2P Require Import Prelude.

Abbreviation f64 := spec_float.

Module F64.
Definition prec : Z := 53.
Definition emax : Z := 1024.

Definition nan : f64 := S754_nan.
Definition zero : f64 := S754_zero false.
Definition one : f64 := S754_finite false 4503599627370496 (-52).
Definition infinity : f64 := S754_infinity false.

Definition add : f64 -> f64 -> f64 := SFadd prec emax.
Definition sub : f64 -> f64 -> f64 := SFsub prec emax.
Definition mul : f64 -> f64 -> f64 := SFmul prec emax.
Definition div : f64 -> f64 -> f64 := SFdiv prec emax.

Definition eqb (a b : f64) : bool :=
  match SFcompare a b with Some Eq => true | _ => false end.
Definition neb (a b : f64) : bool := negb (eqb a b).
Definition ltb (a b : f64) : bool :=
  match SFcompare a b with Some Lt => true | _ => false end.
Definition leb (a b : f64) : bool :=
  match SFcompare a b with Some (Lt | Eq) => true | _ => false end.
Definition gtb (a b : f64) : bool := ltb b a.
Definition geb (a b : f64) : bool := leb b a.
Definition is_nan (a : f64) : bool :=
  match a with S754_nan => true | _ => false end.
Definition is_finite (a : f64) : bool :=
  match a with S754_zero _ | S754_finite _ _ _ => true | _ => false end.

(** [f64::min]: the other argument when one is a NaN. *)
Definition min (a b : f64) : f64 :=
  if is_nan a then b else if is_nan b then a else if ltb b a then b else a.

(** [f64::max]. *)
Definition max (a b : f64) : f64 :=
  if is_nan a then b else if is_nan b then a else if ltb a b then b else a.

Definition MAX : f64 := S754_finite false 9007199254740991 971.
Definition MIN : f64 := S754_finite true 9007199254740991 971.

(** [f64::total_cmp] compares the bit patterns as signed integers, a negative one with its
    magnitude turned around; this is that integer, shifted to be natural. The one NaN here
    is the positive quiet one. *)
Definition total_order (a : f64) : N :=
  let magnitude :=
    match a with
    | S754_zero _ => 0
    | S754_finite _ m e => Z.to_N (e + 1074) * 4503599627370496 + Npos m
    | S754_infinity _ => 2047 * 4503599627370496
    | S754_nan => 4095 * 2251799813685248
    end in
  match a with
  | S754_zero true | S754_finite true _ _ | S754_infinity true => 9223372036854775807 - magnitude
  | _ => 9223372036854775808 + magnitude
  end.

(** [x as f64] for an unsigned integer: round to nearest, ties to even. *)
Definition of_N (n : N) : f64 :=
  match n with
  | 0%N => zero
  | Npos p => binary_normalize prec emax (Zpos p) 0 false
  end.

Definition opp : f64 -> f64 := SFopp.
Definition sqrt : f64 -> f64 := SFsqrt prec emax.

(** [f64::clamp]; a NaN stays one. *)
Definition clamp (a lo hi : f64) : f64 :=
  let a := if ltb a lo then lo else a in
  if gtb a hi then hi else a.

(** [f64::round]: to the nearest integer, halves away from zero. *)
Definition round (a : f64) : f64 :=
  match a with
  | S754_finite s m e =>
      if (0 <=? e)%Z then a
      else binary_normalize prec emax
             ((if s then -1 else 1) * ((2 * Z.pos m + 2 ^ (- e)) / 2 ^ (1 - e)))%Z 0 s
  | _ => a
  end.

(** The integer a double truncates to, towards zero. *)
Definition to_Z (a : f64) : Z :=
  match a with
  | S754_finite s m e =>
      let v := if (0 <=? e)%Z then (Z.pos m * 2 ^ e)%Z else (Z.pos m / 2 ^ (- e))%Z in
      if s then (- v)%Z else v
  | _ => 0%Z
  end.

(** [x as u64]: truncates toward zero, saturates at both ends, NaN is 0. *)
Definition to_u64 (a : f64) : N :=
  match a with
  | S754_finite false m e =>
      let v := if (0 <=? e)%Z then (Z.pos m * 2 ^ e)%Z else (Z.pos m / 2 ^ (- e))%Z in
      N.min (Z.to_N v) u64_MAX
  | S754_infinity false => u64_MAX
  | _ => 0
  end.
End F64.

(** The order facts the callers use. *)
Lemma f64_ltb_geb_nonnan a b :
  F64.is_nan a = false -> F64.is_nan b = false -> F64.geb a b = negb (F64.ltb a b).
Proof.
  unfold F64.geb, F64.leb, F64.ltb.
  destruct a as [[]|[]| |[] ma ea], b as [[]|[]| |[] mb eb];
    cbn [F64.is_nan SFcompare]; intros ??; try discriminate; try reflexivity;
    rewrite (Z.compare_antisym ea eb); destruct (ea ?= eb)%Z; cbn; try reflexivity;
    fold (ma ?= mb)%positive; fold (mb ?= ma)%positive;
    change (Pos.compare_cont Eq) with Pos.compare;
    rewrite (Pos.compare_antisym ma mb); by destruct (ma ?= mb)%positive.
Qed.

Lemma f64_gtb_nan_l b : F64.gtb F64.nan b = false.
Proof. by destruct b as [[]|[]| |[]]. Qed.

Lemma f64_leb_nan_l b : F64.leb F64.nan b = false.
Proof. done. Qed.

Lemma f64_add_nan_l b : F64.add F64.nan b = F64.nan.
Proof. by destruct b as [[]|[]| |[]]. Qed.

Lemma f64_add_nan_r a : F64.add a F64.nan = F64.nan.
Proof. by destruct a as [[]|[]| |[]]. Qed.

(** [total_cmp] agrees with the order of the finite numbers in canonical form. *)
Definition canonical (a : f64) : bool := valid_binary F64.prec F64.emax a.

Lemma digits2_pos_bounds m : (2 ^ Z.pos (digits2_pos m) <= 2 * Z.pos m < 2 ^ (Z.pos (digits2_pos m) + 1))%Z.
Proof.
  induction m as [m IH|m IH|]; cbn [digits2_pos]; [| |done];
    rewrite Pos2Z.inj_succ, <- Z.add_1_r, !Z.pow_add_r in * by lia; lia.
Qed.

Lemma canonical_finite s m e : canonical (S754_finite s m e) = true ->
  (-1074 <= e <= 971)%Z /\ (Z.pos m < 9007199254740992)%Z /\ ((-1074 < e)%Z -> (4503599627370496 <= Z.pos m)%Z).
Proof.
  unfold canonical, valid_binary, bounded, canonical_mantissa, fexp, emin, F64.prec, F64.emax.
  intros [He%Z.eqb_eq Hm%Z.leb_le]%andb_true_iff. pose proof (digits2_pos_bounds m) as [Hlo Hhi].
  set (d := Z.pos (digits2_pos m)) in *. assert (d <= 53)%Z as Hd by lia. split; [lia|]. split.
  - assert (2 ^ (d + 1) <= 2 ^ 54)%Z by (apply Z.pow_le_mono_r; lia). lia.
  - intros Hn. assert (d = 53)%Z as Hd' by lia. rewrite Hd' in Hlo. lia.
Qed.

Lemma finite_magnitude s m e : canonical (S754_finite s m e) = true ->
  0 < Z.to_N (e + 1074) * 4503599627370496 + Npos m < 2047 * 4503599627370496.
Proof. intros (? & ? & ?)%canonical_finite. lia. Qed.

Lemma finite_magnitude_lt s m e s' m' e' :
  canonical (S754_finite s m e) = true -> canonical (S754_finite s' m' e') = true ->
  (e < e')%Z \/ e = e' /\ (m < m')%positive ->
  Z.to_N (e + 1074) * 4503599627370496 + Npos m < Z.to_N (e' + 1074) * 4503599627370496 + Npos m'.
Proof. intros (? & ? & ?)%canonical_finite (? & ? & ?)%canonical_finite [|[-> ?]]; lia. Qed.

Lemma ltb_finite m e m' e' : F64.ltb (S754_finite false m e) (S754_finite false m' e') = true ->
  (e < e')%Z \/ e = e' /\ (m < m')%positive.
Proof.
  unfold F64.ltb. cbn [SFcompare]. destruct (Z.compare_spec e e') as [->| |]; [|by left|done].
  change (Pos.compare_cont Eq) with Pos.compare. destruct (Pos.compare_spec m m'); [done|by right|done].
Qed.

Lemma ltb_finite_neg m e m' e' : F64.ltb (S754_finite true m e) (S754_finite true m' e') = true ->
  (e' < e)%Z \/ e' = e /\ (m' < m)%positive.
Proof.
  unfold F64.ltb. cbn [SFcompare]. destruct (Z.compare_spec e e') as [->| |]; [|done|by left].
  change (Pos.compare_cont Eq) with Pos.compare. destruct (Pos.compare_spec m m'); [done|done|by right].
Qed.

(** Adds the bound of a finite number's magnitude once. *)
Ltac learn_magnitude H :=
  match type of H with
  | canonical (S754_finite _ ?m ?e) = true =>
      match goal with
      | _ : 0 < Z.to_N (e + 1074) * 4503599627370496 + Npos m < _ |- _ => fail 1
      | _ => pose proof (finite_magnitude _ _ _ H)
      end
  end.

Lemma total_order_lt a b : canonical a = true -> canonical b = true -> F64.ltb a b = true ->
  F64.total_order a < F64.total_order b.
Proof.
  intros Ha Hb Hlt. destruct a as [[]|[]| |[] m e], b as [[]|[]| |[] m' e']; try discriminate Hlt;
    unfold F64.total_order;
    repeat match goal with H : canonical (S754_finite _ _ _) = true |- _ => learn_magnitude H end; try lia.
  - pose proof (finite_magnitude_lt _ _ _ _ _ _ Hb Ha (ltb_finite_neg _ _ _ _ Hlt)). lia.
  - pose proof (finite_magnitude_lt _ _ _ _ _ _ Ha Hb (ltb_finite _ _ _ _ Hlt)). lia.
Qed.
