(* ===== verification/Types.v ===== *)
(** * Types: the data of an order, a route and a quote

    Models [fynd-core/src/types/quote.rs], [fynd-core/src/types/internal.rs],
    [fynd-core/src/feed/exclusivity.rs] and the configuration record of
    [fynd-core/src/price_guard/config.rs]. [Address], [Bytes], [ComponentId] and
    [StateLabel] are byte strings, [BigUint] is [N], [f64] is [F64.f64]. What
    comes from the Tycho packages is the class [Tycho]. *)

From stdpp Require Import prelude gmap strings list.
From Stdlib Require Import NArith ZArith Lia.
From S2P Require Import Prelude F64.

Abbreviation Address := string (only parsing).
Abbreviation Bytes := string (only parsing).
Abbreviation ComponentId := string (only parsing).
Abbreviation StateLabel := string (only parsing).

(** ** The interface of the Tycho packages *)

(** The data the program receives from [tycho_simulation] and
    [tycho_execution]: a pool's component with its static attributes, its
    simulation state, a token, a transfer method, the prefix of a protocol that is
    executed through its fallback router. What later parts read beyond these is in classes
    over this one. *)
Class Tycho : Type := {
  ProtocolComponent : Type;
  static_attributes : ProtocolComponent -> gmap string Bytes;
  ProtocolSim : Type;
  Token : Type;
  token_symbol_of : Token -> string;
  token_address_of : Token -> Address;
  UserTransferType : Type;
  FALLBACK_PREFIX : string;
}.

(** A price of [tycho_core]: a fraction of two [BigUint]s, built and read by
    its two public fields. *)
Record Price := { price_numerator : N; price_denominator : N }.

Definition is_exclusive `{Tycho} (component : ProtocolComponent) : bool :=
  match static_attributes component !! "is_exclusive"%string with
  | Some _ => true
  | None => false
  end.

(** ** Errors and statuses *)

Inductive NoPathReason :=
| SourceTokenNotInGraph
| DestinationTokenNotInGraph
| NoGraphPath
| NoScorablePaths
| AmountTooSmall.

Inductive RouteRejection :=
| FallbackPoolMissing
| FallbackNotSimulatable
| FallbackExcluded
| FallbackBelowMinAmountOut.

Inductive SolveError :=
| SE_NoRouteFound (order_id : string) (reason : option NoPathReason)
| SE_RouteRejected (order_id : string) (reason : RouteRejection)
| SE_InsufficientLiquidity (required available : N)
| SE_Timeout (elapsed_ms : N)
| SE_AlgorithmError (msg : string)
| SE_MarketDataStale (age_ms : N)
| SE_QueueFull
| SE_InvalidOrder (msg : string)
| SE_Internal (msg : string)
| SE_InvalidWorkerPools (msg : string)
| SE_NotReady (msg : string)
| SE_ComputationFailed (msg : string)
| SE_FailedEncoding (msg : string)
| SE_EncodingUnavailable (msg : string)
| SE_PriceCheckFailed (order_id : string)
| SE_MaxGasExceeded
| SE_RequiredTokensNotSupported
| SE_MissingData (msg : string)
| SE_SimulationFailed (msg : string).

Inductive QuoteStatus :=
| Success
| NoRouteFound
| InsufficientLiquidity
| Timeout
| NotReady
| PriceCheckFailed
| EncodingFailed.

Inductive AlgorithmError :=
| AE_InvalidConfiguration (reason : string)
| AE_NoPath (from to : Address) (reason : NoPathReason)
| AE_InsufficientLiquidity
| AE_Timeout (elapsed_ms : N)
| AE_ExactOutNotSupported
| AE_SimulationFailed (component_id error : string)
| AE_DataNotFound (kind : string) (id : option string)
| AE_Other (msg : string).

#[export] Instance NoPathReason_eq_dec : EqDecision NoPathReason.
Proof. solve_decision. Defined.
#[export] Instance RouteRejection_eq_dec : EqDecision RouteRejection.
Proof. solve_decision. Defined.
#[export] Instance SolveError_eq_dec : EqDecision SolveError.
Proof. solve_decision. Defined.
#[export] Instance QuoteStatus_eq_dec : EqDecision QuoteStatus.
Proof. solve_decision. Defined.

(** [impl From<AlgorithmError> for QuoteStatus]. *)
Definition QuoteStatus_from (err : AlgorithmError) : QuoteStatus :=
  match err with
  | AE_NoPath _ _ _ => NoRouteFound
  | AE_InsufficientLiquidity => InsufficientLiquidity
  | AE_Timeout _ => Timeout
  | AE_ExactOutNotSupported => NoRouteFound
  | AE_Other _ => NoRouteFound
  | AE_InvalidConfiguration _ => NoRouteFound
  | AE_SimulationFailed _ _ => NoRouteFound
  | AE_DataNotFound _ _ => NoRouteFound
  end.

Definition SolveError_is_retryable (e : SolveError) : bool :=
  match e with
  | SE_Timeout _ | SE_MarketDataStale _ | SE_QueueFull => true
  | _ => false
  end.

(** ** Orders and options *)

Inductive OrderSide := Sell.

Inductive OrderValidationError := SameTokens | ZeroAmount.

Record Order := {
  order_id : string;
  order_token_in : Address;
  order_token_out : Address;
  order_amount : N;
  order_side : OrderSide;
  order_sender : Address;
  order_receiver : option Address;
}.

Definition Order_is_sell (o : Order) : bool :=
  match order_side o with Sell => true end.

Definition Order_effective_receiver (o : Order) : Address :=
  match order_receiver o with Some r => r | None => order_sender o end.

Definition Order_validate (o : Order) : result OrderValidationError unit :=
  if decide (order_token_in o = order_token_out o) then Err SameTokens
  else if order_amount o =? 0 then Err ZeroAmount
  else Ok tt.

Record ClientFeeParams := {
  cfp_bps : N;
  cfp_receiver : Bytes;
  cfp_max_contribution : N;
  cfp_deadline : N;
  cfp_signature : Bytes;
}.

Record PriceGuardConfig := {
  lower_tolerance_bps : N;
  upper_tolerance_bps : N;
  fail_on_provider_error : bool;
  fail_on_token_price_not_found : bool;
  pg_enabled : bool;
}.

Definition PriceGuardConfig_default : PriceGuardConfig := {|
  lower_tolerance_bps := 300;
  upper_tolerance_bps := 10000;
  fail_on_provider_error := false;
  fail_on_token_price_not_found := false;
  pg_enabled := false;
|}.

(** The options that quoting, ranking and fee arithmetic read. Permits,
    watermark and hooks act on calldata, which the model does not build. *)
Record EncodingOptions `{Tycho} := {
  eo_slippage : f64;
  eo_transfer_type : UserTransferType;
  eo_client_fee_params : option ClientFeeParams;
  eo_price_guard : PriceGuardConfig;
  eo_simulate : bool;
}.

Inductive EncodingOptionsError :=
| InvalidSlippage (slippage : f64)
| ClientFeeTooHigh (bps : N).

(** Legacy basis-points denominator of the fee configuration. *)
Definition LEGACY_BPS_DENOMINATOR : N := 10000.

(** [!(0.0..1.0).contains(&slippage)] rejects, then the client fee cap. *)
Definition EncodingOptions_validate `{Tycho} (o : EncodingOptions)
    : result EncodingOptionsError unit :=
  if negb (F64.leb F64.zero (eo_slippage o) && F64.ltb (eo_slippage o) F64.one)
  then Err (InvalidSlippage (eo_slippage o))
  else match eo_client_fee_params o with
       | Some params =>
           if LEGACY_BPS_DENOMINATOR <? cfp_bps params
           then Err (ClientFeeTooHigh (cfp_bps params)) else Ok tt
       | None => Ok tt
       end.

(** ** Route constraints *)

Record RouteConstraints := {
  rc_excluded_pools : gset ComponentId;
  rc_excluded_protocols : gset string;
  rc_excluded_tokens : gset Address;
  rc_required_tokens : gset Address;
}.

Inductive RouteConstraintsError := RequiredTokenExcluded (token : Address).

Definition RouteConstraints_is_empty (c : RouteConstraints) : bool :=
  bool_decide (rc_excluded_pools c = ∅) && bool_decide (rc_excluded_protocols c = ∅) &&
  bool_decide (rc_excluded_tokens c = ∅) && bool_decide (rc_required_tokens c = ∅).

(** The intersection's iteration order picks which token is reported. *)
Definition RouteConstraints_validate (c : RouteConstraints)
    : result RouteConstraintsError unit :=
  match elements (rc_required_tokens c ∩ rc_excluded_tokens c) with
  | token :: _ => Err (RequiredTokenExcluded token)
  | [] => Ok tt
  end.

Record ResolvedRouteConstraints := {
  rrc_excluded_pools : gset ComponentId;
  rrc_excluded_tokens : gset Address;
  rrc_required_tokens : gset Address;
  rrc_unsynced_pools : gset ComponentId;
}.

Definition excludes_token (c : ResolvedRouteConstraints) (token : Address) : bool :=
  bool_decide (token ∈ rrc_excluded_tokens c).

Definition allows_token (c : ResolvedRouteConstraints) (token : Address)
    (endpoints : Address * Address) : bool :=
  bool_decide (token = endpoints.1) || bool_decide (token = endpoints.2)
  || negb (excludes_token c token).

Definition ResolvedRouteConstraints_is_empty (c : ResolvedRouteConstraints) : bool :=
  bool_decide (rrc_excluded_pools c = ∅) && bool_decide (rrc_excluded_tokens c = ∅)
  && bool_decide (rrc_unsynced_pools c = ∅).

Definition is_unsynced_pool (c : ResolvedRouteConstraints) (component_id : ComponentId) : bool :=
  bool_decide (component_id ∈ rrc_unsynced_pools c).

Definition excludes_pool (c : ResolvedRouteConstraints) (component_id : ComponentId) : bool :=
  bool_decide (component_id ∈ rrc_excluded_pools c) || is_unsynced_pool c component_id.

Definition visits_all_required_tokens (c : ResolvedRouteConstraints)
    (path : list Address) : bool :=
  forallb (fun token => bool_decide (token ∈ path)) (elements (rrc_required_tokens c)).

Record QuoteOptions `{Tycho} := {
  qo_timeout_ms : option N;
  qo_min_responses : option nat;
  qo_max_gas : option N;
  qo_encoding_options : option EncodingOptions;
  qo_state_label : option StateLabel;
  qo_worker_pools : option (list string);
  qo_route_filter : RouteConstraints;
}.

Record QuoteRequest `{Tycho} := {
  qr_orders : list Order;
  qr_options : QuoteOptions;
}.
