(* ===== verification/Route.v ===== *)
(** * Route: swaps, routes and route validation

    Models the [Swap], [FallbackLeg] and [Route] types of
    [fynd-core/src/types/quote.rs] and the validator [Route::validate] with its
    helpers [branch_collections], [validate_sequential_route],
    [validate_split_amounts], [validate_bfs_connectivity], [validate_dead_ends]
    and [validate_cycles]. An accepted sequential route is a simple chain (up to
    closing on its first token); an accepted split route is a connected acyclic
    network in which every swap leads to the terminal token. *)

From stdpp Require Import prelude gmap strings list relations.
From Stdlib Require Import NArith ZArith Lia.
From S2P Require Import Prelude F64 Types.

(** ** Data *)

Record FallbackLeg `{Tycho} := {
  fl_protocol_component : ProtocolComponent;
  fl_protocol_state : ProtocolSim;
  fl_amount_out : N;
}.

Record Swap `{Tycho} := {
  sw_component_id : ComponentId;
  sw_protocol : string;
  sw_token_in : Address;
  sw_token_out : Address;
  sw_amount_in : N;
  sw_amount_out : N;
  sw_gas_estimate : N;
  sw_protocol_component : ProtocolComponent;
  sw_protocol_state : ProtocolSim;
  sw_split : f64;
  sw_committed_amount_out : option N;
  sw_fallback : option FallbackLeg;
}.

Record Route `{Tycho} := {
  rt_swaps : list Swap;
  rt_tokens : gmap Bytes Token;
  rt_fallback_amount_out : option N;
}.

(** [reason] of [InvalidSplit] as data instead of a formatted string. *)
Inductive InvalidSplitReason :=
| SingleSwapSplit (token_in : Address) (split : f64)
| BranchSplitRange (index : nat) (token_in : Address) (split : f64)
| LastBranchSplit (token_in : Address) (split : f64)
| SplitSum (token_in : Address) (sum : f64).

Inductive RouteValidationError :=
| EmptyRoute
| DisconnectedSwaps (first_out second_in : Address)
| UnsupportedCycle (token first last : Address)
| InvalidSplit (reason : InvalidSplitReason)
| DisconnectedSplitEnd (token_out terminal_token : Address)
| DisconnectedSplitStart (token_in start_token : Address).

Section route.
Context `{Tycho}.
Implicit Types (r : Route) (s : Swap) (swaps : list Swap).

(** ** Constructors and setters *)

Definition Swap_new component_id protocol token_in token_out amount_in amount_out
    gas_estimate protocol_component protocol_state : Swap := {|
  sw_component_id := component_id;
  sw_protocol := protocol;
  sw_token_in := token_in;
  sw_token_out := token_out;
  sw_amount_in := amount_in;
  sw_amount_out := amount_out;
  sw_gas_estimate := gas_estimate;
  sw_protocol_component := protocol_component;
  sw_protocol_state := protocol_state;
  sw_split := F64.zero;
  sw_committed_amount_out := None;
  sw_fallback := None;
|}.

Definition Swap_retarget s (token_in token_out : Address) (split : f64) : Swap :=
  let '(Build_Swap _ id p _ _ ai ao g pc ps _ c f) := s in
  Build_Swap _ id p token_in token_out ai ao g pc ps split c f.

Definition Swap_with_split s (split : f64) : Swap :=
  let '(Build_Swap _ id p ti to ai ao g pc ps _ c f) := s in
  Build_Swap _ id p ti to ai ao g pc ps split c f.

Definition Swap_set_fallback s (fallback : FallbackLeg) : Swap :=
  let '(Build_Swap _ id p ti to ai ao g pc ps sp c _) := s in
  Build_Swap _ id p ti to ai ao g pc ps sp c (Some fallback).

Definition Swap_set_committed_amount_out s (committed : N) : Swap :=
  let '(Build_Swap _ id p ti to ai ao g pc ps sp _ f) := s in
  Build_Swap _ id p ti to ai ao g pc ps sp (Some committed) f.

Definition Route_new swaps (tokens : list (Bytes * Token))
    : result RouteValidationError Route :=
  match swaps with
  | [] => Err EmptyRoute
  | _ => Ok {| rt_swaps := swaps;
               rt_tokens := fold_left (fun m kv => <[kv.1 := kv.2]> m) tokens ∅;
               rt_fallback_amount_out := None |}
  end.

Definition Route_set_fallback_amount_out r (amount_out : N) : Route := {|
  rt_swaps := rt_swaps r;
  rt_tokens := rt_tokens r;
  rt_fallback_amount_out := Some amount_out |}.

(** ** Accessors *)

Definition hop_count r : nat := length (rt_swaps r).

Definition token_symbol r (address : Address) : option string :=
  token_symbol_of <$> rt_tokens r !! address.

Definition input_token r : option Address := sw_token_in <$> head (rt_swaps r).

Definition output_token r : option Address := sw_token_out <$> last (rt_swaps r).

Definition intermediate_tokens r : list Address :=
  if (length (rt_swaps r) <=? 1)%nat then []
  else sw_token_out <$> take (length (rt_swaps r) - 1) (rt_swaps r).

Definition Route_amount_out r (token_out : Address) : N :=
  sum_by sw_amount_out
    (List.filter (fun s => bool_decide (sw_token_out s = token_out)) (rt_swaps r)).

Definition total_gas r : N := sum_by sw_gas_estimate (rt_swaps r).

Definition has_exclusive_leg r : bool :=
  existsb (fun s => bool_decide (is_Some (sw_committed_amount_out s))) (rt_swaps r).

Definition is_split r : bool :=
  existsb (fun s => F64.gtb (sw_split s) F64.zero) (rt_swaps r).

(** ** Branch collections *)

(** Swaps grouped by the token they take, in order of first appearance; the
    loop keeps the index of each token's group. *)
Definition collections_push (st : gmap Address nat * list (Address * list Swap)) s
    : gmap Address nat * list (Address * list Swap) :=
  let '(index_by_token, collections) := st in
  let token := sw_token_in s in
  match index_by_token !! token with
  | Some index =>
      (index_by_token, alter (fun c => (c.1, c.2 ++ [s])) index collections)
  | None =>
      (<[token := length collections]> index_by_token,
       collections ++ [(token, [s])])
  end.

Definition branch_collections swaps : list (Address * list Swap) :=
  (fold_left collections_push swaps (∅, [])).2.

Definition input_amount r : option N :=
  match branch_collections (rt_swaps r) with
  | (_, first_collection) :: _ => Some (sum_by sw_amount_in first_collection)
  | [] => None
  end.

(** ** Validation of a sequential route *)

Fixpoint check_windows swaps : result RouteValidationError unit :=
  match swaps with
  | a :: ((b :: _) as rest) =>
      if decide (sw_token_out a = sw_token_in b) then check_windows rest
      else Err (DisconnectedSwaps (sw_token_out a) (sw_token_in b))
  | _ => Ok tt
  end.

(** The loop over [enumerate()]: [i] is the index of the head of [swaps]. *)
Fixpoint check_seen (first_token last_token : Address) (last_idx i : nat)
    (seen : gset Address) swaps : result RouteValidationError unit :=
  match swaps with
  | [] => Ok tt
  | s :: rest =>
      if bool_decide (sw_token_out s ∈ seen)
         && negb ((i =? last_idx)%nat && bool_decide (sw_token_out s = first_token))
      then Err (UnsupportedCycle (sw_token_out s) first_token last_token)
      else check_seen first_token last_token last_idx (S i)
             ({[sw_token_out s]} ∪ seen) rest
  end.

Definition validate_sequential_route r : outcome (result RouteValidationError unit) :=
  match check_windows (rt_swaps r) with
  | Err e => Ret (Err e)
  | Ok _ =>
      match head (rt_swaps r), last (rt_swaps r) with
      | Some f, Some l =>
          Ret (check_seen (sw_token_in f) (sw_token_out l) (length (rt_swaps r) - 1) 0
                 {[sw_token_in f]} (rt_swaps r))
      | _, _ => Panic
      end
  end.

(** ** Validation of a split route *)

(** The branches of a collection of several swaps: all but the last carry a
    fraction, the last the remainder. Returns the sum of the fractions. *)
Fixpoint check_branches (token_in : Address) (last_idx i : nat) (sum : f64) swaps
    : result RouteValidationError f64 :=
  match swaps with
  | [] => Ok sum
  | s :: rest =>
      if (i <? last_idx)%nat then
        if F64.leb (sw_split s) F64.zero || F64.geb (sw_split s) F64.one
        then Err (InvalidSplit (BranchSplitRange i token_in (sw_split s)))
        else check_branches token_in last_idx (S i) (F64.add sum (sw_split s)) rest
      else if F64.neb (sw_split s) F64.zero
      then Err (InvalidSplit (LastBranchSplit token_in (sw_split s)))
      else check_branches token_in last_idx (S i) sum rest
  end.

Definition check_collection (c : Address * list Swap) : result RouteValidationError unit :=
  let '(token_in, branch_collection) := c in
  match branch_collection with
  | [s] =>
      if F64.neb (sw_split s) F64.zero
      then Err (InvalidSplit (SingleSwapSplit token_in (sw_split s)))
      else Ok tt
  | _ =>
      sum ← check_branches token_in (length branch_collection - 1) 0 F64.zero
              branch_collection;
      if F64.geb sum F64.one then Err (InvalidSplit (SplitSum token_in sum)) else Ok tt
  end.

(** [for item in items { check(item)?; }] *)
Fixpoint for_each {A E} (check : A -> result E unit) (items : list A) : result E unit :=
  match items with
  | [] => Ok tt
  | x :: rest => _ ← check x; for_each check rest
  end.

Definition validate_split_amounts (swaps_by_token_in : list (Address * list Swap))
    : result RouteValidationError unit :=
  for_each check_collection swaps_by_token_in.

(** Pushes the outputs of one collection that were not reachable before. *)
Fixpoint visit_outputs (reachable : gset Address) (tokens_to_visit : list Address) swaps
    : gset Address * list Address :=
  match swaps with
  | [] => (reachable, tokens_to_visit)
  | s :: rest =>
      if decide (sw_token_out s ∈ reachable)
      then visit_outputs reachable tokens_to_visit rest
      else visit_outputs ({[sw_token_out s]} ∪ reachable)
             (tokens_to_visit ++ [sw_token_out s]) rest
  end.

(** The breadth-first [while] loop; [None] when the fuel runs out or an index
    is out of range. *)
Fixpoint bfs (fuel : nat) (collections : list (Address * list Swap))
    (token_in_to_index : gmap Address nat)
    (reachable : gset Address) (tokens_to_visit : list Address) : option (gset Address) :=
  match tokens_to_visit with
  | [] => Some reachable
  | token :: rest =>
      match fuel with
      | O => None
      | S fuel' =>
          match token_in_to_index !! token with
          | Some idx =>
              match collections !! idx with
              | Some (_, swaps) =>
                  let '(reachable', queue') := visit_outputs reachable rest swaps in
                  bfs fuel' collections token_in_to_index reachable' queue'
              | None => None
              end
          | None => bfs fuel' collections token_in_to_index reachable rest
          end
      end
  end.

(** Every token enters the queue once, so one step per swap output and one
    for the start token are enough. *)
Definition bfs_fuel (collections : list (Address * list Swap)) : nat :=
  S (length (concat (snd <$> collections))).

Definition validate_bfs_connectivity (swaps_by_token_in : list (Address * list Swap))
    (token_in_to_index : gmap Address nat) : outcome (result RouteValidationError unit) :=
  match swaps_by_token_in with
  | [] => Panic
  | (first_token, _) :: _ =>
      match bfs (bfs_fuel swaps_by_token_in) swaps_by_token_in token_in_to_index
              {[first_token]} [first_token] with
      | None => Panic
      | Some reachable =>
          Ret (for_each (fun c : Address * list Swap =>
            if decide (c.1 ∈ reachable) then Ok tt
            else Err (DisconnectedSplitStart c.1 first_token)) swaps_by_token_in)
      end
  end.

Definition validate_dead_ends (swaps_by_token_in : list (Address * list Swap)) swaps
    : result RouteValidationError unit :=
  match last swaps with
  | None => Err EmptyRoute
  | Some l =>
      let terminal_token := sw_token_out l in
      let non_first_input_tokens : gset Address :=
        list_to_set (fst <$> drop 1 swaps_by_token_in) in
      for_each (fun s =>
        if bool_decide (sw_token_out s ∉ non_first_input_tokens)
           && bool_decide (sw_token_out s ≠ terminal_token)
        then Err (DisconnectedSplitEnd (sw_token_out s) terminal_token)
        else Ok tt) (concat (snd <$> swaps_by_token_in))
  end.

Fixpoint check_cycles (is_round_trip : bool) (first_token terminal_token : Address)
    (earlier_inputs : gset Address) (collections : list (Address * list Swap))
    : result RouteValidationError unit :=
  match collections with
  | [] => Ok tt
  | (token_in, branch_collection) :: rest =>
      let earlier_inputs := {[token_in]} ∪ earlier_inputs in
      _ ← for_each (fun s =>
            if bool_decide (sw_token_out s ∈ earlier_inputs)
               && negb (is_round_trip && bool_decide (sw_token_out s = first_token))
            then Err (UnsupportedCycle (sw_token_out s) first_token terminal_token)
            else Ok tt) branch_collection;
      check_cycles is_round_trip first_token terminal_token earlier_inputs rest
  end.

Definition validate_cycles (swaps_by_token_in : list (Address * list Swap)) swaps
    : outcome (result RouteValidationError unit) :=
  match last swaps with
  | None => Ret (Err EmptyRoute)
  | Some l =>
      let terminal_token := sw_token_out l in
      match swaps_by_token_in with
      | [] => Panic
      | (first_token, _) :: _ =>
          let is_round_trip := bool_decide (first_token = terminal_token) in
          if is_round_trip && (length swaps_by_token_in <=? 1)%nat
          then Ret (Err (UnsupportedCycle first_token first_token terminal_token))
          else Ret (check_cycles is_round_trip first_token terminal_token ∅
                      swaps_by_token_in)
      end
  end.

Definition token_index (swaps_by_token_in : list (Address * list Swap)) : gmap Address nat :=
  fold_left (fun m ic => <[ic.2.1 := ic.1]> m)
    (imap (fun i c => (i, c)) swaps_by_token_in) ∅.

Definition validate_split_route r : outcome (result RouteValidationError unit) :=
  let swaps_by_token_in := branch_collections (rt_swaps r) in
  let token_in_to_index := token_index swaps_by_token_in in
  _ <-? Ret (validate_split_amounts swaps_by_token_in);
  _ <-? validate_bfs_connectivity swaps_by_token_in token_in_to_index;
  _ <-? Ret (validate_dead_ends swaps_by_token_in (rt_swaps r));
  _ <-? validate_cycles swaps_by_token_in (rt_swaps r);
  Ret (Ok tt).

Definition Route_validate r : outcome (result RouteValidationError unit) :=
  match rt_swaps r with
  | [] => Ret (Err EmptyRoute)
  | _ => if is_split r then validate_split_route r else validate_sequential_route r
  end.
End route.
