(* ===== verification/Samples.v ===== *)
(** * Samples: concrete data for witnesses

    A [Tycho] instance in which a component is its attribute map, and builders
    of swaps over three tokens, so that every hypothesis of a theorem can be
    evaluated on a concrete route. *)

From stdpp Require Import prelude gmap strings list.
From Stdlib Require Import NArith ZArith.
From S2P Require Import Prelude F64 Types Route.

Module Sample.
Definition tycho : Tycho := {|
  ProtocolComponent := gmap string Bytes;
  static_attributes := fun c => c;
  ProtocolSim := unit;
  Token := string;
  token_symbol_of := fun t => t;
  token_address_of := fun token => token;
  UserTransferType := unit;
  FALLBACK_PREFIX := "fallback:";
|}.
#[local] Existing Instance tycho.

Definition A : Address := "A".
Definition B : Address := "B".
Definition C : Address := "C".
Definition D : Address := "D".

Definition public_component : gmap string Bytes := ∅.
Definition exclusive_component : gmap string Bytes :=
  {[ "is_exclusive"%string := "1"%string ]}.

Definition half : f64 := F64.div F64.one (F64.of_N 2).
Definition quarter : f64 := F64.div F64.one (F64.of_N 4).

Definition swap_on (component : gmap string Bytes) (token_in token_out : Address)
    (amount_in amount_out : N) (split : f64) : Swap :=
  Swap_with_split
    (Swap_new "pool" "uniswap_v2" token_in token_out amount_in amount_out 100
       (component : ProtocolComponent) tt) split.

Definition swap := swap_on public_component.
Definition exclusive_swap := swap_on exclusive_component.

Definition route (swaps : list Swap) : Route := {|
  rt_swaps := swaps;
  rt_tokens := ∅;
  rt_fallback_amount_out := None;
|}.

(** A -> B, then B -> C. *)
Definition chain : Route :=
  route [swap A B 100 200 F64.zero; swap B C 200 50 F64.zero].

(** A splits over B and D, which both lead to C. *)
Definition diamond : Route :=
  route [swap A B 50 100 half; swap A D 50 70 F64.zero;
         swap B C 100 40 F64.zero; swap D C 70 45 F64.zero].

(** Three branches from A to B, the first with a fraction that is not a number. *)
Definition nan_split : Route :=
  route [swap A B 50 100 F64.nan; swap A B 25 50 quarter; swap A B 25 50 F64.zero].
End Sample.
