(* ===== verification/RouteProofs.v ===== *)
(** * RouteProofs: what an accepted route guarantees

    The laws of [Route]: branch collections equal their reference grouping, the
    breadth-first search computes exactly the reachable tokens and never runs
    out of fuel, a sequential route is accepted exactly when it is a simple
    chain, and an accepted split route is a connected acyclic network. *)

From stdpp Require Import prelude gmap strings list relations.
From Stdlib Require Import NArith ZArith Lia.
From S2P Require Import Prelude F64 Types Route Samples.

(** ** Loops that check every item *)

Lemma for_each_Ok {A E} (check : A -> result E unit) items :
  for_each check items = Ok tt <-> Forall (fun x => check x = Ok tt) items.
Proof.
  induction items as [|x items IH]; cbn.
  - split; [constructor|done].
  - rewrite Forall_cons, <- IH. destruct (check x) as [[]|e]; cbn; (split; [by intros Hx; repeat split|by intros [? ?]]).
Qed.

(** ** Branch collections *)

(** Tokens in the order of their first appearance. *)
Definition first_seen (tokens : list Address) : list Address :=
  fold_left (fun acc t => if decide (t ∈ acc) then acc else acc ++ [t]) tokens [].

Section branch.
Context `{Tycho}.
Implicit Types (swaps : list Swap) (s : Swap) (keys : list Address).

Definition takes (token : Address) s : bool := bool_decide (sw_token_in s = token).

(** Reference grouping: every first-seen token with all swaps that take it. *)
Definition group_by_token_in swaps : list (Address * list Swap) :=
  (fun t => (t, List.filter (takes t) swaps)) <$> first_seen (sw_token_in <$> swaps).

Lemma first_seen_app tokens t :
  first_seen (tokens ++ [t])
  = if decide (t ∈ first_seen tokens) then first_seen tokens else first_seen tokens ++ [t].
Proof. unfold first_seen. by rewrite fold_left_app. Qed.

Lemma first_seen_spec tokens :
  NoDup (first_seen tokens) /\ forall t, t ∈ first_seen tokens <-> t ∈ tokens.
Proof.
  induction tokens as [|t tokens [IHnd IHin]] using rev_ind.
  - split; [constructor|done].
  - rewrite first_seen_app. case_decide as Ht.
    + split; [done|]. intros u. rewrite elem_of_app, list_elem_of_singleton, IHin.
      apply IHin in Ht. split; [by left|by intros [?| ->]].
    + split.
      * apply NoDup_app. split_and!; [done| |apply NoDup_singleton].
        intros u Hu ->%list_elem_of_singleton. done.
      * intros u. by rewrite !elem_of_app, IHin.
Qed.

Lemma first_seen_head t tokens : head (first_seen (t :: tokens)) = Some t.
Proof.
  induction tokens as [|u tokens IH] using rev_ind; [done|].
  rewrite app_comm_cons, first_seen_app. case_decide; [done|].
  by destruct (first_seen (t :: tokens)).
Qed.

Lemma group_keys swaps : fst <$> group_by_token_in swaps = first_seen (sw_token_in <$> swaps).
Proof.
  unfold group_by_token_in. rewrite <- list_fmap_compose.
  rewrite <- (list_fmap_id (first_seen _)) at 2. by apply list_fmap_ext.
Qed.

Lemma filter_takes_fresh swaps t :
  t ∉ sw_token_in <$> swaps -> List.filter (takes t) swaps = [].
Proof.
  induction swaps as [|s swaps IH]; cbn; [done|].
  intros [Hne Hin]%not_elem_of_cons. unfold takes at 1.
  rewrite bool_decide_eq_false_2 by congruence. auto.
Qed.

Lemma index_extend keys t0 (m : gmap Address nat) :
  t0 ∉ keys -> (forall t i, m !! t = Some i <-> keys !! i = Some t) ->
  forall t i, <[t0 := length keys]> m !! t = Some i <-> (keys ++ [t0]) !! i = Some t.
Proof.
  intros Hfresh Hidx t i. rewrite lookup_insert, lookup_app_Some. case_decide as Ht.
  - subst t. split.
    + intros [= <-]. right. by rewrite Nat.sub_diag.
    + intros [Hk|[Hge [? _]%list_lookup_singleton_Some]]; [|f_equal; lia].
      by destruct Hfresh; eapply list_elem_of_lookup_2.
  - rewrite Hidx. split; [by left|]. intros [?|[_ [_ ?]%list_lookup_singleton_Some]]; done.
Qed.

(** The state of the loop after any prefix of the swaps. *)
Lemma collections_loop swaps :
  exists m, fold_left collections_push swaps (∅, []) = (m, group_by_token_in swaps) /\
    forall t i, m !! t = Some i <-> first_seen (sw_token_in <$> swaps) !! i = Some t.
Proof.
  induction swaps as [|s swaps (m & Hm & Hidx)] using rev_ind.
  { exists ∅. split; [done|]. intros t i. rewrite lookup_empty. by split. }
  rewrite fold_left_app, Hm. cbn. rewrite fmap_app. cbn.
  destruct (first_seen_spec (sw_token_in <$> swaps)) as [Hnd Hin].
  set (keys := first_seen (sw_token_in <$> swaps)) in *.
  unfold group_by_token_in. rewrite fmap_app. cbn [fmap list_fmap]. rewrite first_seen_app.
  fold keys. destruct (m !! sw_token_in s) as [i|] eqn:Hi.
  - apply Hidx in Hi. exists m.
    rewrite decide_True by (by eapply list_elem_of_lookup_2). split; [|done]. f_equal.
    apply list_eq. intros j. rewrite list_lookup_alter, !list_lookup_fmap.
    case_decide as Hij; [subst j; rewrite Hi|destruct (keys !! j) as [t|] eqn:Hj; [|done]];
      cbn; rewrite List.filter_app; cbn; unfold takes at 3.
    + by rewrite bool_decide_eq_true_2.
    + rewrite bool_decide_eq_false_2; [by rewrite app_nil_r|].
      intros <-. by destruct (Hij (NoDup_lookup _ _ _ _ Hnd Hi Hj)).
  - assert (sw_token_in s ∉ keys) as Hfresh.
    { intros [i Hk]%list_elem_of_lookup_1. apply Hidx in Hk. congruence. }
    rewrite decide_False by done. eexists. split.
    + f_equal. rewrite fmap_app. f_equal.
      * apply list_fmap_ext. intros j t Ht. rewrite List.filter_app. cbn.
        unfold takes at 3. rewrite bool_decide_eq_false_2; [by rewrite app_nil_r|].
        intros <-. by apply Hfresh, list_elem_of_lookup_2 with j.
      * cbn. rewrite List.filter_app, filter_takes_fresh by (by rewrite <- Hin).
        cbn. unfold takes. by rewrite bool_decide_eq_true_2.
    + intros t i. rewrite length_fmap. by apply index_extend.
Qed.

Lemma branch_collections_group swaps : branch_collections swaps = group_by_token_in swaps.
Proof. unfold branch_collections. by destruct (collections_loop swaps) as (m & -> & _). Qed.

Lemma elem_of_group swaps t c :
  (t, c) ∈ group_by_token_in swaps
  <-> t ∈ sw_token_in <$> swaps /\ c = List.filter (takes t) swaps.
Proof.
  unfold group_by_token_in. rewrite list_elem_of_fmap.
  setoid_rewrite (proj2 (first_seen_spec _)). naive_solver.
Qed.

Lemma elem_of_takes t s swaps :
  s ∈ List.filter (takes t) swaps <-> s ∈ swaps /\ sw_token_in s = t.
Proof. unfold takes. by rewrite elem_of_filterb, bool_decide_eq_true. Qed.

Lemma elem_of_concat_group swaps s :
  s ∈ concat (snd <$> group_by_token_in swaps) <-> s ∈ swaps.
Proof.
  rewrite list_elem_of_In, in_concat. setoid_rewrite <- list_elem_of_In.
  setoid_rewrite list_elem_of_fmap. split.
  - intros (c & ([t c'] & -> & Hc) & Hs). apply elem_of_group in Hc as [_ ->].
    by apply elem_of_takes in Hs as [? _].
  - intros Hs. exists (List.filter (takes (sw_token_in s)) swaps). split.
    + eexists (_, _). split; [done|]. apply elem_of_group. split; [|done].
      apply list_elem_of_fmap. eauto.
    + by apply elem_of_takes.
Qed.

Lemma token_index_lookup (cs : list (Address * list Swap)) :
  NoDup (fst <$> cs) ->
  forall t i, token_index cs !! t = Some i <-> (fst <$> cs) !! i = Some t.
Proof.
  unfold token_index. induction cs as [|[t c] cs IH] using rev_ind; intros Hnd u i.
  - by split.
  - rewrite fmap_app in *. cbn in Hnd.
    rewrite imap_app, fold_left_app. cbn. rewrite Nat.add_0_r, <- (length_fmap fst cs).
    apply NoDup_app in Hnd as (Hnd & Hdisj & _). apply index_extend; [|by apply IH].
    intros Ht. by apply (Hdisj t Ht), list_elem_of_singleton.
Qed.

Lemma group_index_Some swaps t i :
  token_index (group_by_token_in swaps) !! t = Some i ->
  group_by_token_in swaps !! i = Some (t, List.filter (takes t) swaps).
Proof.
  rewrite token_index_lookup by (rewrite group_keys; apply first_seen_spec).
  rewrite group_keys. intros Hi. unfold group_by_token_in. by rewrite list_lookup_fmap, Hi.
Qed.

Lemma group_index_None swaps t :
  token_index (group_by_token_in swaps) !! t = None -> t ∉ sw_token_in <$> swaps.
Proof.
  intros Hi Ht. rewrite <- (proj2 (first_seen_spec _)), <- group_keys in Ht.
  apply list_elem_of_lookup_1 in Ht as [i Ht].
  apply token_index_lookup in Ht; [congruence|].
  rewrite group_keys. apply first_seen_spec.
Qed.

(** ** Reachability by breadth-first search *)

(** One swap of the route takes [a] and produces [b]. *)
Definition edge swaps (a b : Address) : Prop :=
  exists s, s ∈ swaps /\ sw_token_in s = a /\ sw_token_out s = b.

Lemma visit_outputs_spec (R : gset Address) Q ss :
  exists new, visit_outputs R Q ss = (list_to_set new ∪ R, Q ++ new) /\
    NoDup new /\ (forall t, t ∈ new <-> t ∈ sw_token_out <$> ss /\ t ∉ R).
Proof.
  revert R Q. induction ss as [|s ss IH]; intros R Q; cbn.
  - exists []. rewrite app_nil_r. split_and!; [f_equal; set_solver|constructor|set_solver].
  - case_decide as Hs.
    + destruct (IH R Q) as (new & -> & Hnd & Hnew). exists new. split_and!; [done..|].
      intros t. rewrite Hnew, elem_of_cons. naive_solver.
    + destruct (IH ({[sw_token_out s]} ∪ R) (Q ++ [sw_token_out s])) as (new & -> & Hnd & Hnew).
      exists (sw_token_out s :: new). split_and!.
      * f_equal; [set_solver|by rewrite <- app_assoc].
      * constructor; [|done]. rewrite Hnew, elem_of_union, elem_of_singleton. tauto.
      * intros t. cbn. rewrite !elem_of_cons, Hnew, elem_of_union, elem_of_singleton.
        destruct (decide (t = sw_token_out s)) as [->|]; [tauto|tauto].
Qed.

(** The loop invariant: [done] are the visited tokens. *)
Record bfs_inv swaps (start : Address) (done Q : list Address) (R : gset Address) : Prop := {
  bi_nodup : NoDup (done ++ Q);
  bi_reach : forall t, t ∈ R <-> t ∈ done ++ Q;
  bi_sound : forall t, t ∈ R -> rtc (edge swaps) start t;
  bi_closed : forall a b, a ∈ done -> edge swaps a b -> b ∈ R;
  bi_start : start ∈ R;
  bi_outs : forall t, t ∈ R -> t ∈ start :: (sw_token_out <$> swaps);
}.

Lemma bfs_inv_visit swaps start done t Q R new :
  bfs_inv swaps start done (t :: Q) R -> NoDup new ->
  (forall u, u ∈ new <-> u ∈ sw_token_out <$> List.filter (takes t) swaps /\ u ∉ R) ->
  bfs_inv swaps start (done ++ [t]) (Q ++ new) (list_to_set new ∪ R).
Proof.
  intros [Hnd Hreach Hsound Hclosed Hstart Houts] Hndnew Hnew.
  assert (forall u, u ∈ new -> exists s, s ∈ swaps /\ sw_token_in s = t /\ sw_token_out s = u)
    as Hedge.
  { intros u [(s & -> & [? ?]%elem_of_takes)%list_elem_of_fmap _]%Hnew. eauto. }
  split.
  - rewrite <- app_assoc. cbn. rewrite app_comm_cons, app_assoc. apply NoDup_app.
    split_and!; [done| |done]. intros u Hu [_ HuR]%Hnew. by apply HuR, Hreach.
  - intros u. rewrite elem_of_union, elem_of_list_to_set, Hreach. set_solver.
  - intros u [Hu%elem_of_list_to_set|Hu]%elem_of_union; [|by apply Hsound].
    apply rtc_r with t; [apply Hsound, Hreach; set_solver|]. by apply Hedge.
  - intros a b [Ha|Ha%list_elem_of_singleton]%elem_of_app He.
    + apply elem_of_union_r. by eapply Hclosed.
    + subst a. destruct He as (s & Hs & Hin & Hout).
      destruct (decide (b ∈ R)); [by apply elem_of_union_r|].
      apply elem_of_union_l, elem_of_list_to_set, Hnew. split; [|done].
      apply list_elem_of_fmap. exists s. split; [done|]. by apply elem_of_takes.
  - by apply elem_of_union_r.
  - intros u [Hu%elem_of_list_to_set|Hu]%elem_of_union; [|by apply Houts].
    right. destruct (Hedge u Hu) as (s & ? & _ & <-). apply list_elem_of_fmap. eauto.
Qed.

Lemma bfs_inv_length swaps start done Q R :
  bfs_inv swaps start done Q R ->
  (length done + length Q <= bfs_fuel (group_by_token_in swaps))%nat.
Proof.
  intros [Hnd Hreach _ _ _ Houts]. rewrite <- length_app. unfold bfs_fuel.
  set (outs := start :: (sw_token_out <$> concat (snd <$> group_by_token_in swaps))).
  replace (S _) with (length outs) by (unfold outs; cbn; by rewrite length_fmap).
  apply submseteq_length, NoDup_submseteq; [done|].
  intros t Ht%Hreach%Houts. unfold outs. rewrite elem_of_cons, list_elem_of_fmap in *.
  destruct Ht as [?|(s & -> & Hs)]; [by left|right].
  exists s. split; [done|]. by apply elem_of_concat_group.
Qed.

Lemma bfs_inv_final swaps start done R :
  bfs_inv swaps start done [] R -> forall t, t ∈ R <-> rtc (edge swaps) start t.
Proof.
  intros [_ Hreach Hsound Hclosed Hstart _]. rewrite app_nil_r in Hreach.
  intros t. split; [apply Hsound|]. intros Hrtc.
  refine (rtc_ind_r (.∈ R) start Hstart _ t Hrtc). intros a b _ Hab Ha.
  apply Hclosed with a; [by apply Hreach|done].
Qed.

Lemma bfs_correct fuel swaps start done Q R :
  bfs_inv swaps start done Q R ->
  (bfs_fuel (group_by_token_in swaps) <= fuel + length done)%nat ->
  exists R', bfs fuel (group_by_token_in swaps) (token_index (group_by_token_in swaps)) R Q
               = Some R' /\ forall t, t ∈ R' <-> rtc (edge swaps) start t.
Proof.
  revert done Q R. induction fuel as [|fuel IH]; intros done [|t Q] R Hinv Hfuel; cbn.
  1, 3: exists R; split; [done|by eapply bfs_inv_final].
  { apply bfs_inv_length in Hinv. cbn in Hinv. lia. }
  destruct (token_index _ !! t) as [i|] eqn:Hi.
  - apply group_index_Some in Hi as ->.
    destruct (visit_outputs_spec R Q (List.filter (takes t) swaps)) as (new & -> & Hnd & Hnew).
    apply IH with (done ++ [t]); [by apply bfs_inv_visit|].
    rewrite length_app. cbn. lia.
  - apply group_index_None, filter_takes_fresh in Hi.
    apply IH with (done ++ [t]); [|rewrite length_app; cbn; lia].
    rewrite <- (app_nil_r Q), <- (union_empty_l_L R).
    change (∅ : gset Address) with (list_to_set (C := gset Address) ([] : list Address)).
    apply bfs_inv_visit; [done|constructor|]. rewrite Hi. cbn. set_solver.
Qed.

Lemma bfs_reachable swaps start :
  exists R, bfs (bfs_fuel (group_by_token_in swaps)) (group_by_token_in swaps)
              (token_index (group_by_token_in swaps)) {[start]} [start] = Some R /\
    forall t, t ∈ R <-> rtc (edge swaps) start t.
Proof.
  apply bfs_correct with []; [|lia]. split.
  - apply NoDup_singleton.
  - intros t. cbn. by rewrite elem_of_singleton, list_elem_of_singleton.
  - intros t ->%elem_of_singleton. apply rtc_refl.
  - by intros a b []%not_elem_of_nil.
  - by apply elem_of_singleton.
  - intros t ->%elem_of_singleton. left.
Qed.

(** ** Sequential routes *)

(** The tokens a chain of swaps visits, and when the chain visits them once,
    up to closing on its first token. *)
Definition route_path swaps : list Address :=
  match swaps with
  | [] => []
  | s :: _ => sw_token_in s :: (sw_token_out <$> swaps)
  end.

Definition simple_path (p : list Address) : Prop :=
  NoDup p \/ NoDup (removelast p) /\ last p = head p.

Definition connected swaps : Prop :=
  forall i a b, swaps !! i = Some a -> swaps !! S i = Some b -> sw_token_out a = sw_token_in b.

Lemma check_windows_Ok swaps : check_windows swaps = Ok tt <-> connected swaps.
Proof.
  unfold connected. induction swaps as [|a [|b swaps] IH].
  - by split; [intros _ [] |].
  - split; [|done]. intros _ [|i] x y; cbn; done.
  - cbn [check_windows]. case_decide as Hab.
    + rewrite IH. split.
      * intros Hc [|i] x y; cbn; [by intros [= <-] [= <-]|apply Hc].
      * intros Hc i x y. apply (Hc (S i)).
    + split; [done|]. intros Hc. by destruct Hab; apply (Hc 0%nat).
Qed.

Lemma check_seen_Ok f l last_idx i seen pre z :
  (i + length pre = last_idx)%nat ->
  check_seen f l last_idx i seen (pre ++ [z]) = Ok tt <->
  NoDup (sw_token_out <$> pre) /\ (forall t, t ∈ sw_token_out <$> pre -> t ∉ seen) /\
  (sw_token_out z = f \/ (sw_token_out z ∉ seen) /\ (sw_token_out z ∉ sw_token_out <$> pre)).
Proof.
  revert i seen. induction pre as [|s pre IH]; intros i seen Hi; cbn [app check_seen length] in *.
  - rewrite (proj2 (Nat.eqb_eq i last_idx)) by lia. cbn.
    do 2 case_bool_decide; cbn; split; try done; try (intros _; split_and!; by auto using NoDup_nil_2);
      try (intros (_ & _ & [?|[? _]]); done).
    all: intros; split_and!; [constructor|by intros ? []%not_elem_of_nil|].
    all: (by left) || (right; split; [done|by intros []%not_elem_of_nil]).
  - rewrite (proj2 (Nat.eqb_neq i last_idx)) by lia. cbn. rewrite andb_true_r.
    rewrite NoDup_cons. case_bool_decide as Hs.
    + split; [done|]. intros (_ & Hd & _). by destruct (Hd (sw_token_out s)); [left|].
    + rewrite IH by lia. setoid_rewrite elem_of_union. setoid_rewrite elem_of_singleton.
      setoid_rewrite elem_of_cons. split.
      * intros (Hnd & Hd & Hz). split_and!; [|done| |].
        -- intros Hin. by destruct (Hd _ Hin); left.
        -- intros t [->|Ht]; [done|]. intros ?. by destruct (Hd _ Ht); right.
        -- destruct Hz as [?|[Hz1 Hz2]]; [by left|right]. naive_solver.
      * intros ([Hs1 Hnd] & Hd & Hz). split_and!; [done| |].
        -- intros t Ht [->|?]; [done|]. by apply (Hd t); [right|].
        -- destruct Hz as [?|[Hz1 Hz2]]; [by left|right]. naive_solver.
Qed.

Lemma removelast_snoc {A} (l : list A) x : removelast (l ++ [x]) = l.
Proof. apply removelast_last. Qed.

Lemma simple_path_snoc f p t :
  simple_path (f :: p ++ [t]) <->
  NoDup p /\ (forall u, u ∈ p -> u ∉ ({[f]} : gset Address)) /\
  (t = f \/ (t ∉ ({[f]} : gset Address)) /\ (t ∉ p)).
Proof.
  unfold simple_path. rewrite app_comm_cons, removelast_snoc, last_snoc. cbn [head].
  rewrite NoDup_app, NoDup_cons. setoid_rewrite elem_of_singleton.
  setoid_rewrite list_elem_of_singleton. setoid_rewrite elem_of_cons.
  assert (NoDup [t]) by apply NoDup_singleton.
  split.
  - intros [([Hf Hnd] & Hd & _)|[[Hf Hnd] [= ->]]]; split_and!; [done| | |done| |by left].
    1, 3: by intros u Hu ->.
    right. split; intros Ht; [by apply (Hd f); [left|]|by apply (Hd t); [right|]].
  - intros (Hnd & Hd & [->|[Htf Htp]]).
    + right. split; [|done]. split; [|done]. intros Hf. by apply (Hd f).
    + left. split_and!; [|done| |done]; [intros Hf; by apply (Hd f)|].
      intros u [->|Hu] ->; done.
Qed.

Lemma validate_sequential_Ok r :
  rt_swaps r <> [] ->
  validate_sequential_route r = Ret (Ok tt) <->
  connected (rt_swaps r) /\ simple_path (route_path (rt_swaps r)).
Proof.
  unfold validate_sequential_route. intros Hne.
  rewrite <- check_windows_Ok. destruct (check_windows _) as [[]|e]; [|naive_solver].
  destruct (rt_swaps r) as [|f rest] eqn:Hsw; [done|].
  destruct (exists_last Hne) as (pre & z & Hpz). cbn [head].
  replace (route_path (f :: rest)) with (sw_token_in f :: (sw_token_out <$> pre) ++ [sw_token_out z])
    by (cbn [route_path]; by rewrite Hpz, fmap_app).
  rewrite Hpz, last_snoc.
  rewrite simple_path_snoc, <- (check_seen_Ok _ (sw_token_out z) (length (pre ++ [z]) - 1) 0);
    [|rewrite length_app; cbn; lia].
  destruct (check_seen _ _ _ _ _ _) as [[]|e]; naive_solver.
Qed.

(** ** Split routes *)

Lemma check_cycles_Ok rt f term (E : gset Address) (cs : list (Address * list Swap)) :
  check_cycles rt f term E cs = Ok tt ->
  forall i t c s, cs !! i = Some (t, c) -> s ∈ c ->
    (rt = true /\ sw_token_out s = f) \/
    (sw_token_out s ∉ E) /\ (sw_token_out s ∉ take (S i) (fst <$> cs)).
Proof.
  revert E. induction cs as [|[t0 c0] cs IH]; intros E; cbn [check_cycles]; [done|].
  intros Hok. outcome_inv. rename H0 into Hc0. destruct a.
  rewrite for_each_Ok, Forall_forall in Hc0.
  intros [|i] t c s; cbn.
  - intros [= <- <-] Hs. specialize (Hc0 s Hs). cbn in Hc0. rewrite take_0.
    rewrite list_elem_of_singleton.
    do 2 case_bool_decide; destruct rt; cbn in Hc0; try done; set_solver.
  - intros Hi Hs. destruct (IH _ Hok i t c s Hi Hs) as [?|[HE Ht]]; [by left|right].
    rewrite elem_of_cons. set_solver.
Qed.

(** The facts [validate_split_route] establishes, for a route whose terminal
    token differs from its first one. *)
Record split_facts swaps (first terminal : Address) : Prop := {
  sf_reach : forall s, s ∈ swaps -> rtc (edge swaps) first (sw_token_in s);
  sf_end : forall s, s ∈ swaps ->
    sw_token_out s = terminal \/
    sw_token_out s ∈ drop 1 (first_seen (sw_token_in <$> swaps));
  sf_order : forall s i, s ∈ swaps ->
    first_seen (sw_token_in <$> swaps) !! i = Some (sw_token_in s) ->
    sw_token_out s ∉ take (S i) (first_seen (sw_token_in <$> swaps));
}.

Lemma validate_bfs_Ok swaps first rest :
  group_by_token_in swaps = first :: rest ->
  validate_bfs_connectivity (group_by_token_in swaps)
    (token_index (group_by_token_in swaps)) = Ret (Ok tt) <->
  forall s, s ∈ swaps -> rtc (edge swaps) first.1 (sw_token_in s).
Proof.
  intros Hg. destruct (bfs_reachable swaps first.1) as (R & HR & Hreach).
  unfold validate_bfs_connectivity. rewrite Hg at 1. destruct first as [t0 c0].
  cbn [fst] in *. rewrite HR.
  transitivity (forall t, t ∈ sw_token_in <$> swaps -> t ∈ R).
  - set (loop := for_each _ _).
    assert (loop = Ok tt <-> forall t, t ∈ sw_token_in <$> swaps -> t ∈ R) as <-;
      [|split; [by intros [= ->]|by intros ->]].
    unfold loop. rewrite for_each_Ok, Forall_forall. split.
    + intros Hall t Ht. specialize (Hall (t, List.filter (takes t) swaps)).
      cbn in Hall. case_decide; [done|]. by discriminate Hall; apply elem_of_group.
    + intros Hall [t c] [Ht _]%elem_of_group. cbn. by rewrite decide_True by auto.
  - setoid_rewrite list_elem_of_fmap. setoid_rewrite Hreach. naive_solver.
Qed.

Lemma validate_dead_ends_Ok swaps l :
  last swaps = Some l ->
  validate_dead_ends (group_by_token_in swaps) swaps = Ok tt <->
  forall s, s ∈ swaps ->
    sw_token_out s = sw_token_out l \/
    sw_token_out s ∈ drop 1 (first_seen (sw_token_in <$> swaps)).
Proof.
  intros Hl. unfold validate_dead_ends. rewrite Hl, for_each_Ok, Forall_forall.
  rewrite fmap_drop, group_keys. set (D := drop 1 _).
  assert (forall s, (if bool_decide (sw_token_out s ∉ (list_to_set D : gset Address))
                        && bool_decide (sw_token_out s ≠ sw_token_out l)
                     then Err (DisconnectedSplitEnd (sw_token_out s) (sw_token_out l))
                     else Ok tt) = Ok tt <->
                    sw_token_out s = sw_token_out l \/ sw_token_out s ∈ D) as Hpt.
  { intros s. rewrite <- (elem_of_list_to_set (C := gset Address) _ D).
    do 2 case_bool_decide; cbn; split; try done; tauto. }
  split; intros Hall s Hs; apply Hpt, Hall, elem_of_concat_group, Hs.
Qed.

Lemma group_cons swaps f : head swaps = Some f ->
  exists c rest, group_by_token_in swaps = (sw_token_in f, c) :: rest.
Proof.
  intros Hf. destruct swaps as [|f' swaps]; [done|]. injection Hf as ->.
  pose proof (first_seen_head (sw_token_in f) (sw_token_in <$> swaps)) as Hh.
  unfold group_by_token_in. cbn [fmap list_fmap].
  destruct (first_seen _) as [|t rest]; [done|]. injection Hh as ->. cbn. eauto.
Qed.

Lemma split_route_facts r f l :
  head (rt_swaps r) = Some f -> last (rt_swaps r) = Some l ->
  sw_token_in f <> sw_token_out l ->
  validate_split_route r = Ret (Ok tt) ->
  split_facts (rt_swaps r) (sw_token_in f) (sw_token_out l).
Proof.
  intros Hf Hl Hne Hok. unfold validate_split_route in Hok.
  rewrite branch_collections_group in Hok. set (swaps := rt_swaps r) in *.
  destruct (group_cons swaps f Hf) as (c0 & rest & Hg).
  apply try_bind_Ok in Hok as ([] & _ & Hok).
  apply try_bind_Ok in Hok as ([] & Hbfs & Hok).
  apply try_bind_Ok in Hok as ([] & [= Hends] & Hok).
  apply try_bind_Ok in Hok as ([] & Hcyc & _). split.
  - exact (proj1 (validate_bfs_Ok _ _ _ Hg) Hbfs).
  - exact (proj1 (validate_dead_ends_Ok _ _ Hl) Hends).
  - intros s i Hs Hi. unfold validate_cycles in Hcyc. rewrite Hl in Hcyc.
    rewrite Hg in Hcyc at 1. rewrite bool_decide_eq_false_2 in Hcyc by done.
    cbn [andb] in Hcyc. injection Hcyc as Hcyc.
    destruct (check_cycles_Ok _ _ _ _ _ Hcyc i (sw_token_in s)
      (List.filter (takes (sw_token_in s)) swaps) s) as [[? _]|[_ Ht]]; [| |done|].
    + unfold group_by_token_in. by rewrite list_lookup_fmap, Hi.
    + by apply elem_of_takes.
    + by rewrite group_keys in Ht.
Qed.
End branch.

(** ** The network of an accepted split route *)

Section network.
Context `{Tycho}.
Context (swaps : list Swap) (first terminal : Address).
Context (Hfacts : split_facts swaps first terminal).

Let keys := first_seen (sw_token_in <$> swaps).

(** The position of a token among the branch collections. *)
Definition token_rank (tokens : list Address) (t : Address) : nat :=
  match list_find (t =.) tokens with Some (i, _) => i | None => length tokens end.

Lemma token_rank_lookup i t : keys !! i = Some t -> token_rank keys t = i.
Proof.
  intros Hi. unfold token_rank.
  destruct (list_find (t =.) keys) as [[j u]|] eqn:Hfind.
  - apply list_find_Some in Hfind as (Hj & -> & _).
    eapply NoDup_lookup; [apply first_seen_spec|done..].
  - apply list_find_None in Hfind. rewrite Forall_forall in Hfind.
    by destruct (Hfind t); [eapply list_elem_of_lookup_2|].
Qed.

Lemma token_rank_take i t : t ∉ take (S i) keys -> (i < length keys)%nat ->
  (i < token_rank keys t)%nat.
Proof.
  intros Ht Hi. unfold token_rank.
  destruct (list_find (t =.) keys) as [[j u]|] eqn:Hfind; [|done].
  apply list_find_Some in Hfind as (Hj & -> & _).
  destruct (decide (i < j)%nat) as [|Hji]; [done|].
  destruct Ht. apply list_elem_of_lookup_2 with j. rewrite lookup_take_lt by lia. done.
Qed.

Lemma edge_rank a b : edge swaps a b ->
  (token_rank keys a < token_rank keys b)%nat /\ (token_rank keys a < length keys)%nat.
Proof.
  intros (s & Hs & <- & <-).
  assert (sw_token_in s ∈ keys) as [i Hi]%list_elem_of_lookup_1.
  { apply first_seen_spec, list_elem_of_fmap. eauto. }
  rewrite (token_rank_lookup i) by done. pose proof (lookup_lt_Some _ _ _ Hi).
  split; [|done]. apply token_rank_take; [|done]. by eapply sf_order.
Qed.

Lemma network_acyclic t : ~ tc (edge swaps) t t.
Proof.
  intros Htc. enough (forall a b, tc (edge swaps) a b ->
    (token_rank keys a < token_rank keys b)%nat) as Hr by (specialize (Hr t t Htc); lia).
  clear t Htc. induction 1 as [a b Hab|a b c Hab _ IH]; [by apply edge_rank|].
  apply edge_rank in Hab as [? _]. lia.
Qed.

Lemma network_terminates s : s ∈ swaps -> rtc (edge swaps) (sw_token_out s) terminal.
Proof.
  remember (length keys - token_rank keys (sw_token_in s))%nat as n eqn:Hn.
  revert s Hn. induction n as [n IH] using lt_wf_ind. intros s -> Hs.
  destruct (sf_end _ _ _ Hfacts s Hs) as [->|Hin]; [apply rtc_refl|].
  assert (sw_token_out s ∈ sw_token_in <$> swaps) as (s' & Heq & Hs')%list_elem_of_fmap.
  { apply first_seen_spec. apply list_elem_of_lookup_1 in Hin as [i Hi].
    rewrite lookup_drop in Hi. by eapply list_elem_of_lookup_2. }
  destruct (edge_rank (sw_token_in s) (sw_token_out s)) as [Hlt1 Hlt2]; [by exists s|].
  apply rtc_l with (sw_token_out s'); [exists s'; by rewrite Heq|].
  eapply IH; [|done..]. rewrite <- Heq. lia.
Qed.

Lemma network_terminal_sink s : s ∈ swaps -> sw_token_in s <> terminal.
Proof.
  intros Hs Heq. apply (network_acyclic terminal).
  apply tc_rtc_r with (sw_token_out s); [|by apply network_terminates].
  apply tc_once. by exists s.
Qed.

Lemma network_first_source s : s ∈ swaps -> sw_token_out s <> first.
Proof.
  intros Hs Heq. apply (network_acyclic first).
  apply tc_rtc_l with (sw_token_in s); [by eapply sf_reach|].
  apply tc_once. by exists s.
Qed.
End network.

(** ** Split fractions *)

Section fractions.
Context `{Tycho}.

Definition branch_in_range (s : Swap) : bool :=
  negb (F64.leb (sw_split s) F64.zero || F64.geb (sw_split s) F64.one).

Lemma check_branches_Ok t last_idx i sum pre z sum' :
  (i + length pre = last_idx)%nat ->
  check_branches t last_idx i sum (pre ++ [z]) = Ok sum' <->
  Forall (fun s => branch_in_range s = true) pre /\
  F64.eqb (sw_split z) F64.zero = true /\
  sum' = fold_left F64.add (sw_split <$> pre) sum.
Proof.
  revert i sum. induction pre as [|s pre IH]; intros i sum Hi; cbn [app check_branches length] in *.
  - rewrite (proj2 (Nat.ltb_ge i last_idx)) by lia. unfold F64.neb. cbn.
    destruct (F64.eqb _ _); cbn; split; try done; [|by intros (_ & _ & ->)|by intros (_ & ? & _)].
    intros [= <-]. split_and!; [constructor|done|done].
  - rewrite (proj2 (Nat.ltb_lt i last_idx)) by lia. rewrite Forall_cons.
    unfold branch_in_range at 1. destruct (_ || _).
    + cbn. split; [done|]. by intros ([? _] & _).
    + rewrite IH by lia. cbn. naive_solver.
Qed.

Lemma branch_in_range_nonnan s :
  F64.is_nan (sw_split s) = false -> branch_in_range s = true ->
  F64.ltb F64.zero (sw_split s) = true /\ F64.ltb (sw_split s) F64.one = true.
Proof.
  unfold branch_in_range. intros Hn. rewrite f64_ltb_geb_nonnan by done.
  change (F64.leb (sw_split s) F64.zero) with (F64.geb F64.zero (sw_split s)).
  rewrite f64_ltb_geb_nonnan by done. by do 2 destruct (F64.ltb _ _).
Qed.

Lemma check_collection_Ok t c :
  check_collection (t, c) = Ok tt -> forall pre z, c = pre ++ [z] ->
  Forall (fun s => branch_in_range s = true) pre /\
  F64.eqb (sw_split z) F64.zero = true /\
  F64.geb (fold_left F64.add (sw_split <$> pre) F64.zero) F64.one = false.
Proof.
  intros Hok pre z ->. destruct pre as [|s pre].
  - cbn in Hok. unfold F64.neb in Hok. destruct (F64.eqb _ _); [|done].
    split_and!; [constructor|done|done].
  - assert (exists sum, check_branches t (length ((s :: pre) ++ [z]) - 1) 0 F64.zero
        ((s :: pre) ++ [z]) = Ok sum /\ F64.geb sum F64.one = false) as (sum & Hb & Hs).
    { unfold check_collection in Hok. destruct ((s :: pre) ++ [z]) as [|a [|b l]] eqn:E;
        [done| |].
      - destruct pre; discriminate E.
      - rewrite <- E in *. outcome_inv. eexists. split; [done|]. by destruct (F64.geb _ _). }
    apply check_branches_Ok in Hb as (Hr & Hz & ->); [done|].
    rewrite length_app. cbn. lia.
Qed.
End fractions.

(** ** Properties *)

Section properties.
Context `{Tycho}.

(** [branch_collections], which keeps an index per token and appends in
    place, computes the reference grouping: one group per input token, in order
    of first appearance, holding every swap that takes the token in route order. *)
Theorem branch_collections_spec (swaps : list Swap) :
  branch_collections swaps
  = (fun t => (t, List.filter (takes t) swaps)) <$> first_seen (sw_token_in <$> swaps).
Proof. apply branch_collections_group. Qed.

Lemma sequential_valid (r : Route) :
  is_split r = false ->
  Route_validate r = Ret (Ok tt) <->
  rt_swaps r <> [] /\ connected (rt_swaps r) /\ simple_path (route_path (rt_swaps r)).
Proof.
  intros Hsp. unfold Route_validate. rewrite Hsp.
  destruct (rt_swaps r) as [|s0 rest0] eqn:Hsw; [split; [done|by intros [? _]]|].
  rewrite <- Hsw. rewrite validate_sequential_Ok by (by rewrite Hsw).
  rewrite Hsw. naive_solver.
Qed.

(** A route without split fractions is accepted exactly when it has a swap,
    consecutive swaps share a token, and no token repeats on its path except
    that the last may close on the first. *)
Theorem sequential_route_valid_iff (r : Route) :
  is_split r = false ->
  Route_validate r = Ret (Ok tt) <->
  rt_swaps r <> [] /\ connected (rt_swaps r) /\ simple_path (route_path (rt_swaps r)).
Proof. apply sequential_valid. Qed.

(** C36: an accepted split route whose input and output tokens differ is an
    acyclic network from its input to its output: every swap's input is reached
    from the route's input token, every swap's output leads to the route's
    output token, no token is on a cycle, no swap takes the output token and no
    swap produces the input token. *)
Theorem split_route_network (r : Route) (t_in t_out : Address) :
  is_split r = true -> input_token r = Some t_in -> output_token r = Some t_out ->
  t_in <> t_out -> Route_validate r = Ret (Ok tt) ->
  (forall s, s ∈ rt_swaps r -> rtc (edge (rt_swaps r)) t_in (sw_token_in s)) /\
  (forall s, s ∈ rt_swaps r -> rtc (edge (rt_swaps r)) (sw_token_out s) t_out) /\
  (forall t, ~ tc (edge (rt_swaps r)) t t) /\
  (forall s, s ∈ rt_swaps r -> sw_token_in s <> t_out /\ sw_token_out s <> t_in).
Proof.
  unfold input_token, output_token, Route_validate. intros Hsp Hin Hout Hne Hok.
  destruct (head (rt_swaps r)) as [f|] eqn:Hf; [|done]. injection Hin as <-.
  destruct (last (rt_swaps r)) as [l|] eqn:Hl; [|done]. injection Hout as <-.
  rewrite Hsp in Hok. destruct (rt_swaps r) as [|s0 rest0] eqn:Hsw; [done|]. rewrite <- Hsw in *.
  pose proof (split_route_facts r f l Hf Hl Hne Hok) as Hfacts.
  split_and!.
  - apply Hfacts.
  - exact (network_terminates _ _ _ Hfacts).
  - exact (network_acyclic _ _ _ Hfacts).
  - intros s Hs. split; [exact (network_terminal_sink _ _ _ Hfacts s Hs)|].
    exact (network_first_source _ _ _ Hfacts s Hs).
Qed.

Lemma route_validate_returns (r : Route) : exists v, Route_validate r = Ret v.
Proof.
  unfold Route_validate. destruct (rt_swaps r) as [|f rest] eqn:Hsw; [eauto|].
  destruct (is_split r).
  - unfold validate_split_route. rewrite branch_collections_group, Hsw.
    destruct (group_cons (f :: rest) f eq_refl) as (c0 & cs & Hg).
    destruct (bfs_reachable (f :: rest) (sw_token_in f)) as (R & HR & _).
    assert (exists v, validate_bfs_connectivity (group_by_token_in (f :: rest))
      (token_index (group_by_token_in (f :: rest))) = Ret v) as [v Hv].
    { eexists. unfold validate_bfs_connectivity. rewrite Hg at 1. by rewrite HR. }
    assert (exists v, validate_cycles (group_by_token_in (f :: rest)) (f :: rest) = Ret v)
      as [v' Hv'].
    { unfold validate_cycles. destruct (last (f :: rest)); [|eauto].
      rewrite Hg. by destruct (_ && _); eauto. }
    rewrite Hv, Hv'. unfold try_bind.
    repeat (case_match; simplify_eq; eauto).
  - unfold validate_sequential_route. rewrite Hsw.
    destruct (check_windows (f :: rest)); [|eauto]. cbn [head].
    destruct (last (f :: rest)) eqn:Hl; [eauto|]. by apply last_None in Hl.
Qed.

(** Validation is total. It never panics and its breadth-first search never
    runs out of fuel: every route gets a verdict. *)
Theorem route_validate_total (r : Route) : exists v, Route_validate r = Ret v.
Proof. apply route_validate_returns. Qed.

(** In an accepted split route without NaN fractions, every branch of a
    collection but the last takes a fraction strictly between 0 and 1, the last
    takes the remainder with fraction 0, and the fractions sum below 1. *)
Theorem split_fractions_sound (r : Route) :
  is_split r = true -> Route_validate r = Ret (Ok tt) ->
  (forall s, s ∈ rt_swaps r -> F64.is_nan (sw_split s) = false) ->
  forall t pre z, List.filter (takes t) (rt_swaps r) = pre ++ [z] ->
  Forall (fun s => F64.ltb F64.zero (sw_split s) = true /\
                   F64.ltb (sw_split s) F64.one = true) pre /\
  F64.eqb (sw_split z) F64.zero = true /\
  F64.geb (fold_left F64.add (sw_split <$> pre) F64.zero) F64.one = false.
Proof.
  unfold Route_validate. intros Hsp Hok Hnan t pre z Hc. rewrite Hsp in Hok.
  destruct (rt_swaps r) as [|s0 rest0] eqn:Hsw; [done|]. rewrite <- Hsw in *.
  unfold validate_split_route in Hok. rewrite branch_collections_group in Hok.
  apply try_bind_Ok in Hok as ([] & [= Hsplit] & _).
  unfold validate_split_amounts in Hsplit. rewrite for_each_Ok, Forall_forall in Hsplit.
  assert (z ∈ List.filter (takes t) (rt_swaps r)) as [Hz Hzt]%elem_of_takes
    by (rewrite Hc; set_solver).
  specialize (Hsplit (t, List.filter (takes t) (rt_swaps r))).
  destruct (check_collection_Ok t _ (Hsplit ltac:(apply elem_of_group; split;
    [apply list_elem_of_fmap; eauto|done])) pre z Hc) as (Hr & Hz0 & Hsum).
  split_and!; [|done|done]. rewrite Forall_forall in *. intros s Hs.
  apply branch_in_range_nonnan; [|by apply Hr]. apply Hnan.
  assert (s ∈ List.filter (takes t) (rt_swaps r)) as [? _]%elem_of_takes;
    [rewrite Hc; set_solver|done].
Qed.

(** [input_amount] is the total input of every swap that takes the route's
    input token, wherever it stands in the route. *)
Theorem input_amount_spec (r : Route) (t_in : Address) :
  input_token r = Some t_in ->
  input_amount r = Some (sum_by sw_amount_in (List.filter (takes t_in) (rt_swaps r))).
Proof.
  unfold input_token, input_amount. rewrite branch_collections_group.
  destruct (head (rt_swaps r)) as [f|] eqn:Hf; [|done]. intros [= <-].
  destruct (group_cons (rt_swaps r) f Hf) as (c & cs & Hg). rewrite Hg.
  assert ((sw_token_in f, c) ∈ group_by_token_in (rt_swaps r)) as [_ ->]%elem_of_group
    by (rewrite Hg; left). done.
Qed.
End properties.

(** The documented range [0.0 < split < 1.0] of a branch is not enforced for
    NaN: a three-branch route whose first fraction is NaN is accepted, because
    every comparison of the check with NaN is false and the NaN sum is not [>= 1]. *)
Theorem nan_split_accepted :
  Route_validate Sample.nan_split = Ret (Ok tt) /\
  exists s, s ∈ rt_swaps Sample.nan_split /\ F64.is_nan (sw_split s) = true /\
    F64.ltb F64.zero (sw_split s) = false.
Proof. split; [by vm_compute|]. eexists. split; [left|by split; vm_compute]. Qed.

(** ** Witnesses *)

Lemma sequential_route_valid_iff_witness :
  is_split Sample.chain = false /\
  (Route_validate Sample.chain = Ret (Ok tt) <->
   rt_swaps Sample.chain <> [] /\ connected (rt_swaps Sample.chain) /\
   simple_path (route_path (rt_swaps Sample.chain))).
Proof. split; [by vm_compute|]. apply (sequential_route_valid_iff Sample.chain). by vm_compute. Defined.

Lemma split_route_network_witness :
  rtc (edge (rt_swaps Sample.diamond)) Sample.B Sample.C /\
  ~ tc (edge (rt_swaps Sample.diamond)) Sample.A Sample.A.
Proof.
  destruct (split_route_network Sample.diamond Sample.A Sample.C) as (_ & Hend & Hacyc & _);
    [by vm_compute..|done|by vm_compute|].
  split; [|apply Hacyc]. apply (Hend (Sample.swap Sample.A Sample.B 50 100 Sample.half)). left.
Defined.

Lemma split_fractions_sound_witness :
  Forall (fun s => F64.ltb F64.zero (sw_split s) = true /\
                   F64.ltb (sw_split s) F64.one = true)
    [Sample.swap Sample.A Sample.B 50 100 Sample.half].
Proof.
  refine (proj1 (split_fractions_sound Sample.diamond _ _ _ Sample.A
    [Sample.swap Sample.A Sample.B 50 100 Sample.half]
    (Sample.swap Sample.A Sample.D 50 70 F64.zero) _));
    [by vm_compute..| |by vm_compute].
  intros s Hs. repeat (apply elem_of_cons in Hs as [->|Hs]; [by vm_compute|]).
  by apply not_elem_of_nil in Hs.
Defined.

Lemma input_amount_spec_witness :
  input_amount Sample.diamond
  = Some (sum_by sw_amount_in (List.filter (takes Sample.A) (rt_swaps Sample.diamond))).
Proof. apply (input_amount_spec Sample.diamond Sample.A). by vm_compute. Defined.
