(* ===== verification/Amounts.v ===== *)
(** * Amounts: integer arithmetic on token amounts and gas

    Models [fynd-core/src/bps.rs], the conversions of
    [fynd-core/src/derived/types.rs] and [refined_net_amount_out] of
    [fynd-core/src/worker_pool_router/mod.rs]. All amounts are [BigUint]s. *)

From stdpp Require Import prelude.
From Stdlib Require Import NArith ZArith Lia.
From S2P Require Import Prelude Types.

(** ** Operations *)

Module bps.
Definition DENOMINATOR : N := 10000.

Definition scale_truncating (amount rate_bps : N) : N := (amount * rate_bps) / DENOMINATOR.
End bps.

(** [scaled + denominator - 1] cannot go below zero: the denominator is at least 1. *)
Definition mul_div_ceil (value multiplier denominator : N) : option N :=
  if denominator =? 0 then None
  else let scaled := value * multiplier in
       Some ((scaled + denominator - 1) / denominator).

Definition gas_cost_in_token (gas gas_price_wei : N) (price : Price) : option N :=
  mul_div_ceil (gas * gas_price_wei) (price_numerator price) (price_denominator price).

Definition refined_net_amount_out (amount_out naive_net refined_gas naive_gas : N) : outcome N :=
  if naive_net =? 0 then Ret 0
  else
    naive_gas_cost ← bsub amount_out naive_net;
    match mul_div_ceil naive_gas_cost refined_gas naive_gas with
    | None => Ret 0
    | Some refined_gas_cost => Ret (default 0 (checked_sub amount_out refined_gas_cost))
    end.

(** ** Laws *)

Lemma scale_truncating_le amount rate :
  rate <= bps.DENOMINATOR -> bps.scale_truncating amount rate <= amount.
Proof.
  intros H. unfold bps.scale_truncating. apply div_le_of_le_mul; [done|]. nia.
Qed.

Lemma mul_div_ceil_Some value multiplier denominator :
  denominator <> 0 ->
  exists q, mul_div_ceil value multiplier denominator = Some q /\
    value * multiplier <= denominator * q /\ denominator * q < value * multiplier + denominator.
Proof.
  intros Hd. unfold mul_div_ceil. rewrite (proj2 (N.eqb_neq _ _) Hd).
  eexists. split; [done|]. by apply ceil_div_spec.
Qed.

Lemma mul_div_ceil_exact value denominator :
  denominator <> 0 -> mul_div_ceil value denominator denominator = Some value.
Proof.
  intros Hd. destruct (mul_div_ceil_Some value denominator denominator Hd) as (q & -> & ? & ?).
  f_equal. nia.
Qed.

Lemma mul_div_ceil_mono value m1 m2 denominator q1 q2 :
  m1 <= m2 -> mul_div_ceil value m1 denominator = Some q1 ->
  mul_div_ceil value m2 denominator = Some q2 -> q1 <= q2.
Proof.
  unfold mul_div_ceil. destruct (N.eqb_spec denominator 0); [done|].
  intros Hm [= <-] [= <-]. apply N.Div0.div_le_mono. nia.
Qed.

(** ** Properties *)

(** [mul_div_ceil] is the ceiling of [value * multiplier / denominator]: the
    least integer that covers the exact quotient; it is [None] only for a zero
    denominator. *)
Theorem mul_div_ceil_least (value multiplier denominator : N) :
  match mul_div_ceil value multiplier denominator with
  | None => denominator = 0
  | Some q => denominator <> 0 /\
      forall r, q <= r <-> value * multiplier <= denominator * r
  end.
Proof.
  destruct (N.eq_dec denominator 0) as [->|Hd]; [done|].
  destruct (mul_div_ceil_Some value multiplier denominator Hd) as (q & -> & Hlo & Hhi).
  split; [done|]. intros r. split; [nia|]. intros Hr. nia.
Qed.

(** Gas refinement never panics on a quote whose net output is at most its
    output. The refined net stays at most the output; an unchanged gas estimate
    keeps the net; a lower estimate never lowers it and a higher one never raises
    it; a net clamped to zero stays zero. *)
Theorem refined_net_amount_out_spec (amount_out naive_net refined_gas naive_gas : N) :
  naive_net <= amount_out -> naive_gas <> 0 ->
  exists net, refined_net_amount_out amount_out naive_net refined_gas naive_gas = Ret net /\
    net <= amount_out /\
    (naive_net = 0 -> net = 0) /\
    (refined_gas = naive_gas -> net = naive_net) /\
    (refined_gas <= naive_gas -> naive_net <> 0 -> naive_net <= net) /\
    (naive_gas <= refined_gas -> net <= naive_net).
Proof.
  intros Hnet Hgas. unfold refined_net_amount_out.
  destruct (N.eqb_spec naive_net 0) as [->|Hn]; [exists 0; split_and!; done || lia|].
  rewrite bsub_ge by done. cbn.
  destruct (mul_div_ceil_Some (amount_out - naive_net) refined_gas naive_gas Hgas)
    as (cost & Hcost & _). rewrite Hcost.
  pose proof (mul_div_ceil_exact (amount_out - naive_net) naive_gas Hgas) as Hexact.
  eexists. split; [done|]. rewrite checked_sub_default. split_and!; [lia|done| | |].
  - intros ->. rewrite Hcost in Hexact. injection Hexact as ->. lia.
  - intros Hle _. pose proof (mul_div_ceil_mono _ _ _ _ _ _ Hle Hcost Hexact). lia.
  - intros Hle. pose proof (mul_div_ceil_mono _ _ _ _ _ _ Hle Hexact Hcost). lia.
Qed.

(** ** Witnesses *)

Lemma refined_net_amount_out_spec_witness :
  exists net, refined_net_amount_out 1000 900 150 100 = Ret net /\ net <= 1000 /\
    (900 = 0 -> net = 0) /\ (150 = 100 -> net = 900) /\
    (150 <= 100 -> 900 <> 0 -> 900 <= net) /\ (100 <= 150 -> net <= 900).
Proof. apply (refined_net_amount_out_spec 1000 900 150 100); lia. Defined.
