(* ===== verification/Quote.v ===== *)
(** * Quote: the quote of one order and its updates

    Models [OrderQuote], [SurplusInfo], [Transaction], [FeeBreakdown],
    [SimulationResult], [BlockInfo], [Quote] and their setters in
    [fynd-core/src/types/quote.rs]. The invariant [quote_net_ok], the net output
    is at most the output, is what the router's subtractions rely on. *)

From stdpp Require Import prelude gmap strings list.
From Stdlib Require Import NArith ZArith Lia.
From S2P Require Import Prelude F64 Types Route Samples.

(** ** Data *)

Record BlockInfo := { block_number : N; block_hash : string; block_timestamp : N }.

Record SurplusInfo := { si_surplus_amount : N; si_committed_amount_out : N }.

Record FeeBreakdown := {
  fb_router_fee : N;
  fb_client_fee : N;
  fb_max_slippage : N;
  fb_min_amount_received : N;
  fb_swaps_hash : option Bytes;
}.

Definition FeeBreakdown_new (router_fee client_fee max_slippage min_amount_received : N)
    : FeeBreakdown := {|
  fb_router_fee := router_fee;
  fb_client_fee := client_fee;
  fb_max_slippage := max_slippage;
  fb_min_amount_received := min_amount_received;
  fb_swaps_hash := None;
|}.

Record Transaction := {
  tx_to : Bytes;
  tx_value : N;
  tx_data : Bytes;
  tx_client_fee_signature_offset : option nat;
}.

Record EventLog := { log_address : Bytes; log_topics : list Bytes; log_data : Bytes }.

Inductive SimulationResult :=
| SimSuccess (amount_out gas_used : N) (logs : list EventLog)
| SimReverted (reason : string)
| SimFailure (reason : string)
| SimBlockUnavailable (reason : string).

Record OrderQuote `{Tycho} := mkOrderQuote {
  oq_order_id : string;
  oq_status : QuoteStatus;
  oq_route : option Route;
  oq_amount_in : N;
  oq_amount_out : N;
  oq_gas_estimate : N;
  oq_price_impact_bps : option Z;
  oq_amount_out_net_gas : N;
  oq_block : BlockInfo;
  oq_algorithm : string;
  oq_worker_pool : string;
  oq_post_processed_by : list string;
  oq_gas_price : option N;
  oq_transaction : option Transaction;
  oq_fee_breakdown : option FeeBreakdown;
  oq_simulation_result : option SimulationResult;
  oq_sender : Bytes;
  oq_receiver : Bytes;
  oq_solved_against : StateLabel;
  oq_no_route_cause : option SolveError;
  oq_surplus : option SurplusInfo;
  oq_subsidy_amount : option N;
}.

Record Quote `{Tycho} := {
  quote_orders : list OrderQuote;
  quote_total_gas_estimate : N;
  quote_solve_time_ms : N;
}.

Section quote.
Context `{Tycho}.
Implicit Types q : OrderQuote.

(** ** Constructor and setters *)

Definition OrderQuote_new order_id status amount_in amount_out gas_estimate amount_out_net_gas
    block algorithm sender receiver solved_against : OrderQuote := {|
  oq_order_id := order_id;
  oq_status := status;
  oq_route := None;
  oq_amount_in := amount_in;
  oq_amount_out := amount_out;
  oq_gas_estimate := gas_estimate;
  oq_price_impact_bps := None;
  oq_amount_out_net_gas := amount_out_net_gas;
  oq_block := block;
  oq_algorithm := algorithm;
  oq_worker_pool := "";
  oq_post_processed_by := [];
  oq_gas_price := None;
  oq_transaction := None;
  oq_fee_breakdown := None;
  oq_simulation_result := None;
  oq_sender := sender;
  oq_receiver := receiver;
  oq_solved_against := solved_against;
  oq_no_route_cause := None;
  oq_surplus := None;
  oq_subsidy_amount := None;
|}.

Definition set_status q (status : QuoteStatus) : OrderQuote :=
  let '(mkOrderQuote _ id _ rt ai ao ge pi net blk alg wp pp gp tx fb sim se re sa cause sur sub) := q
  in mkOrderQuote _ id status rt ai ao ge pi net blk alg wp pp gp tx fb sim se re sa cause sur sub.

Definition with_route q (route : Route) : OrderQuote :=
  let '(mkOrderQuote _ id st _ ai ao ge pi net blk alg wp pp gp tx fb sim se re sa cause sur sub) := q
  in mkOrderQuote _ id st (Some route) ai ao ge pi net blk alg wp pp gp tx fb sim se re sa cause sur sub.

Definition with_gas_price q (gas_price : N) : OrderQuote :=
  let '(mkOrderQuote _ id st rt ai ao ge pi net blk alg wp pp _ tx fb sim se re sa cause sur sub) := q
  in mkOrderQuote _ id st rt ai ao ge pi net blk alg wp pp (Some gas_price) tx fb sim se re sa cause sur sub.

Definition with_price_impact_bps q (bps : Z) : OrderQuote :=
  let '(mkOrderQuote _ id st rt ai ao ge _ net blk alg wp pp gp tx fb sim se re sa cause sur sub) := q
  in mkOrderQuote _ id st rt ai ao ge (Some bps) net blk alg wp pp gp tx fb sim se re sa cause sur sub.

Definition with_surplus q (surplus : SurplusInfo) : OrderQuote :=
  let '(mkOrderQuote _ id st rt ai ao ge pi net blk alg wp pp gp tx fb sim se re sa cause _ sub) := q
  in mkOrderQuote _ id st rt ai ao ge pi net blk alg wp pp gp tx fb sim se re sa cause (Some surplus) sub.

Definition set_transaction q (tx : Transaction) : OrderQuote :=
  let '(mkOrderQuote _ id st rt ai ao ge pi net blk alg wp pp gp _ fb sim se re sa cause sur sub) := q
  in mkOrderQuote _ id st rt ai ao ge pi net blk alg wp pp gp (Some tx) fb sim se re sa cause sur sub.

Definition set_gas_estimate q (gas_estimate : N) : OrderQuote :=
  let '(mkOrderQuote _ id st rt ai ao _ pi net blk alg wp pp gp tx fb sim se re sa cause sur sub) := q
  in mkOrderQuote _ id st rt ai ao gas_estimate pi net blk alg wp pp gp tx fb sim se re sa cause sur sub.

Definition set_subsidy_amount q (subsidy_amount : option N) : OrderQuote :=
  let '(mkOrderQuote _ id st rt ai ao ge pi net blk alg wp pp gp tx fb sim se re sa cause sur _) := q
  in mkOrderQuote _ id st rt ai ao ge pi net blk alg wp pp gp tx fb sim se re sa cause sur subsidy_amount.

Definition set_amount_in q (value : N) : OrderQuote :=
  let '(mkOrderQuote _ id st rt _ ao ge pi net blk alg wp pp gp _ _ _ se re sa cause sur _) := q
  in mkOrderQuote _ id st rt value ao ge pi net blk alg wp pp gp None None None se re sa cause sur None.

Definition set_amount_out_net_gas q (value : N) : OrderQuote :=
  let '(mkOrderQuote _ id st rt ai ao ge pi _ blk alg wp pp gp tx fb sim se re sa cause sur sub) := q
  in mkOrderQuote _ id st rt ai ao ge pi value blk alg wp pp gp tx fb sim se re sa cause sur sub.

(** The net output follows the output's change, but a net of zero stays zero.
    Neither subtraction can go below zero: each is guarded by its branch. *)
Definition set_amount_out q (value : N) : OrderQuote :=
  let net :=
    if oq_amount_out q <=? value then
      if 0 <? oq_amount_out_net_gas q
      then oq_amount_out_net_gas q + (value - oq_amount_out q)
      else oq_amount_out_net_gas q
    else
      let lost := oq_amount_out q - value in
      if lost <? oq_amount_out_net_gas q then oq_amount_out_net_gas q - lost else 0 in
  let '(mkOrderQuote _ id st rt ai _ ge pi _ blk alg wp pp gp tx fb sim se re sa cause sur sub) := q
  in mkOrderQuote _ id st rt ai value ge pi net blk alg wp pp gp tx fb sim se re sa cause sur sub.

Definition set_route q (route : option Route) : OrderQuote :=
  let '(mkOrderQuote _ id st _ ai ao ge pi net blk alg wp pp gp tx fb sim se re sa cause sur sub) := q
  in mkOrderQuote _ id st route ai ao ge pi net blk alg wp pp gp tx fb sim se re sa cause sur sub.

Definition retract q (status : QuoteStatus) : OrderQuote :=
  let '(mkOrderQuote _ id _ _ ai _ _ _ _ blk alg wp pp gp _ _ _ se re sa cause _ _) := q
  in mkOrderQuote _ id status None ai 0 0 None 0 blk alg wp pp gp None None None se re sa cause None None.

Definition set_worker_pool q (worker_pool : string) : OrderQuote :=
  let '(mkOrderQuote _ id st rt ai ao ge pi net blk alg _ pp gp tx fb sim se re sa cause sur sub) := q
  in mkOrderQuote _ id st rt ai ao ge pi net blk alg worker_pool pp gp tx fb sim se re sa cause sur sub.

Definition set_post_processed_by q (post_processed_by : list string) : OrderQuote :=
  let '(mkOrderQuote _ id st rt ai ao ge pi net blk alg wp _ gp tx fb sim se re sa cause sur sub) := q
  in mkOrderQuote _ id st rt ai ao ge pi net blk alg wp post_processed_by gp tx fb sim se re sa cause sur sub.

Definition set_simulation_result q (result : SimulationResult) : OrderQuote :=
  let '(mkOrderQuote _ id st rt ai ao ge pi net blk alg wp pp gp tx fb _ se re sa cause sur sub) := q
  in mkOrderQuote _ id st rt ai ao ge pi net blk alg wp pp gp tx fb (Some result) se re sa cause sur sub.

Definition set_fee_breakdown q (fb : FeeBreakdown) : OrderQuote :=
  let '(mkOrderQuote _ id st rt ai ao ge pi net blk alg wp pp gp tx _ sim se re sa cause sur sub) := q
  in mkOrderQuote _ id st rt ai ao ge pi net blk alg wp pp gp tx (Some fb) sim se re sa cause sur sub.

Definition set_no_route_cause q (cause : option SolveError) : OrderQuote :=
  let '(mkOrderQuote _ id st rt ai ao ge pi net blk alg wp pp gp tx fb sim se re sa _ sur sub) := q
  in mkOrderQuote _ id st rt ai ao ge pi net blk alg wp pp gp tx fb sim se re sa cause sur sub.

Definition no_route_reason q : option NoPathReason :=
  match oq_no_route_cause q with
  | Some (SE_NoRouteFound _ reason) => reason
  | _ => None
  end.

(** ** The net-output invariant *)

Definition quote_net_ok q : Prop := oq_amount_out_net_gas q <= oq_amount_out q.

Lemma set_amount_out_fields q value :
  oq_amount_out (set_amount_out q value) = value /\
  oq_status (set_amount_out q value) = oq_status q /\
  oq_route (set_amount_out q value) = oq_route q /\
  oq_order_id (set_amount_out q value) = oq_order_id q /\
  oq_amount_in (set_amount_out q value) = oq_amount_in q /\
  oq_gas_estimate (set_amount_out q value) = oq_gas_estimate q.
Proof. by destruct q. Qed.

Lemma set_amount_out_net q value :
  oq_amount_out_net_gas (set_amount_out q value) =
    if oq_amount_out q <=? value then
      if 0 <? oq_amount_out_net_gas q
      then oq_amount_out_net_gas q + (value - oq_amount_out q)
      else oq_amount_out_net_gas q
    else
      let lost := oq_amount_out q - value in
      if lost <? oq_amount_out_net_gas q then oq_amount_out_net_gas q - lost else 0.
Proof. by destruct q. Qed.

(** Changing the output keeps the net output at most the output, keeps the gas
    cost [amount_out - amount_out_net_gas] of a quote whose net stays positive,
    never makes a zero net positive, and leaves every other field alone. *)
Theorem set_amount_out_spec q (value : N) :
  quote_net_ok q ->
  quote_net_ok (set_amount_out q value) /\
  oq_amount_out (set_amount_out q value) = value /\
  (oq_amount_out_net_gas q = 0 -> oq_amount_out_net_gas (set_amount_out q value) = 0) /\
  (oq_amount_out_net_gas (set_amount_out q value) <> 0 ->
   value - oq_amount_out_net_gas (set_amount_out q value)
   = oq_amount_out q - oq_amount_out_net_gas q) /\
  oq_route (set_amount_out q value) = oq_route q /\
  oq_status (set_amount_out q value) = oq_status q.
Proof.
  unfold quote_net_ok. intros Hok. rewrite set_amount_out_net.
  destruct (set_amount_out_fields q value) as (-> & -> & -> & _). cbv zeta.
  destruct (N.leb_spec (oq_amount_out q) value);
    [destruct (N.ltb_spec 0 (oq_amount_out_net_gas q))
    |destruct (N.ltb_spec (oq_amount_out q - value) (oq_amount_out_net_gas q))];
    split_and!; intros; try done; lia.
Qed.
End quote.

(** ** Witness *)

Definition sample_quote : @OrderQuote Sample.tycho :=
  @mkOrderQuote Sample.tycho "order" Success (Some Sample.chain) 100 1000 200 None 900
    {| block_number := 1; block_hash := ""; block_timestamp := 0 |}
    "bellman_ford" "pool" [] None None None None "sender" "receiver" "1" None None None.

Lemma set_amount_out_spec_witness :
  quote_net_ok sample_quote /\ quote_net_ok (set_amount_out sample_quote 50).
Proof.
  split; [by vm_compute|]. apply (set_amount_out_spec sample_quote 50). by vm_compute.
Defined.
