(* ===== verification/Exclusive.v ===== *)
(** * Exclusive: routes through exclusive liquidity and their commitment

    Models [fynd-core/src/exclusive_route.rs]: the shape of an exclusive route,
    the share of the route output a leg produces, the commitment against a public
    reference and the pinning of a commitment on a quote. Metrics are left out.
    The recursion over the swaps after a leg carries fuel; a path never repeats a
    token, so two steps more than the number of swaps are enough. The theorems: the
    bounds of the commitment against a public reference, the totality of the
    search for a leg's route output, and what pinning a commitment does to the
    quote and to each exclusive leg. *)

From stdpp Require Import prelude gmap strings list.
From Stdlib Require Import NArith ZArith Lia.
From S2P Require Import Prelude F64 Types Route Samples Amounts Quote.

Inductive ExclusiveRouteShape :=
| Valid
| NoExclusiveLeg
| MultipleLegs
| DoesNotReachOutput.

Record RouteOutput := { ro_amount_out : N; ro_amount_out_net_gas : N }.

Definition DEFAULT_USER_IMPROVEMENT_SHARE_BPS : N := 1000.

Definition parse_user_improvement_share_bps (raw : string) : option N :=
  match parse_uint u32_MAX (trim (String.list_ascii_of_string raw)) with
  | Some share => if share <=? bps.DENOMINATOR then Some share else None
  | None => None
  end.

(** [raw] is the environment variable, when it is set and is a string. *)
Definition user_improvement_share_bps_env (raw : option string) : N :=
  match raw with
  | None => DEFAULT_USER_IMPROVEMENT_SHARE_BPS
  | Some raw =>
      match parse_user_improvement_share_bps raw with
      | Some bps => bps
      | None => DEFAULT_USER_IMPROVEMENT_SHARE_BPS
      end
  end.

Definition user_improvement_amount (improvement user_share_bps : N) : N :=
  (improvement * user_share_bps + (bps.DENOMINATOR - 1)) / bps.DENOMINATOR.

Definition matched_commitment (public_reference exclusive_candidate : RouteOutput)
    (user_share_bps : N) : outcome (option N) :=
  let public_net_amount_out := ro_amount_out_net_gas public_reference in
  if ro_amount_out_net_gas exclusive_candidate <? public_net_amount_out then Ret None
  else
    improvement ← bsub (ro_amount_out_net_gas exclusive_candidate) public_net_amount_out;
    let required_net_amount_out :=
      public_net_amount_out + user_improvement_amount improvement user_share_bps in
    let public_amount_out := ro_amount_out public_reference in
    if ro_amount_out exclusive_candidate <? public_amount_out then Ret None
    else
      gas_cost ← bsub (ro_amount_out exclusive_candidate)
                      (ro_amount_out_net_gas exclusive_candidate);
      Ret (Some (N.max (required_net_amount_out + gas_cost) public_amount_out)).

Section exclusive.
Context `{Tycho}.
Implicit Types (swaps : list Swap) (s leg : Swap) (q : OrderQuote).

Definition is_exclusive_leg s : bool := is_exclusive (sw_protocol_component s).

Definition routes_through_exclusive swaps : bool := existsb is_exclusive_leg swaps.

Definition total_amount_in_for_token swaps (token : Address) : N :=
  sum_by sw_amount_in (List.filter (fun s => bool_decide (sw_token_in s = token)) swaps).

(** The loop over the swaps that take a token; [next] is the recursive call. *)
Fixpoint route_output_loop swaps (output_token : Address)
    (next : Address -> outcome (option (N * N))) (numerator denominator : N)
    (taking : list Swap) : outcome (option (N * N)) :=
  match taking with
  | [] => Ret (Some (numerator, denominator))
  | s :: rest =>
      fraction ←
        (if decide (sw_token_out s = output_token) then Ret (Some (sw_amount_out s, 1))
         else
           next_fraction ← next (sw_token_out s);
           Ret (match next_fraction with
                | None => None
                | Some (next_numerator, next_denominator) =>
                    Some (sw_amount_out s * next_numerator,
                          next_denominator * total_amount_in_for_token swaps (sw_token_out s))
                end));
      match fraction with
      | None => Ret None
      | Some (swap_numerator, swap_denominator) =>
          if swap_numerator =? 0
          then route_output_loop swaps output_token next numerator denominator rest
          else route_output_loop swaps output_token next
                 (numerator * swap_denominator + swap_numerator * denominator)
                 (denominator * swap_denominator) rest
      end
  end.

Fixpoint token_route_output (fuel : nat) swaps (token output_token : Address)
    (path : list Address) : outcome (option (N * N)) :=
  match fuel with
  | O => Panic
  | S fuel' =>
      if decide (token ∈ path) then Ret None
      else
        route_output_loop swaps output_token
          (fun t => token_route_output fuel' swaps t output_token (path ++ [token])) 0 1
          (List.filter (fun s => bool_decide (sw_token_in s = token)) swaps)
  end.

Definition leg_route_output swaps leg (output_token : Address) : outcome (option (N * N)) :=
  if decide (sw_token_out leg = output_token) then Ret (Some (sw_amount_out leg, 1))
  else
    let consumed := total_amount_in_for_token swaps (sw_token_out leg) in
    if consumed =? 0 then Ret (Some (0, 1))
    else
      fraction ← token_route_output (S (S (length swaps))) swaps (sw_token_out leg)
                   output_token [];
      Ret (match fraction with
           | None => None
           | Some (numerator, denominator) =>
               Some (sw_amount_out leg * numerator, denominator * consumed)
           end).

Definition exclusive_route_shape swaps (output_token : Address)
    : outcome ExclusiveRouteShape :=
  match List.filter is_exclusive_leg swaps with
  | [] => Ret NoExclusiveLeg
  | _ :: _ :: _ => Ret MultipleLegs
  | [leg] =>
      output ← leg_route_output swaps leg output_token;
      Ret (match output with
           | Some (numerator, _) => if 0 <? numerator then Valid else DoesNotReachOutput
           | None => DoesNotReachOutput
           end)
  end.

Definition RouteOutput_from_quote q : RouteOutput := {|
  ro_amount_out := oq_amount_out q;
  ro_amount_out_net_gas := oq_amount_out_net_gas q |}.

(** Captures the surplus at the exclusive legs, in route order. *)
Fixpoint capture_surplus (surplus : N) (legs : list (Swap * option (N * N)))
    : outcome (list Swap) :=
  match legs with
  | [] => Ret []
  | (s, output) :: rest =>
      match is_exclusive_leg s, output with
      | true, Some (numerator, denominator) =>
          if numerator =? 0 then rest' ← capture_surplus surplus rest; Ret (s :: rest')
          else
            leg_output ← bdiv numerator denominator;
            let captured := N.min surplus leg_output in
            captured_swap_amount_out ← bdiv (captured * sw_amount_out s * denominator) numerator;
            committed_swap_amount_out ← bsub (sw_amount_out s) captured_swap_amount_out;
            surplus' ← bsub surplus captured;
            rest' ← capture_surplus surplus' rest;
            Ret (Swap_set_committed_amount_out s committed_swap_amount_out :: rest')
      | _, _ => rest' ← capture_surplus surplus rest; Ret (s :: rest')
      end
  end.

(** The route output of every exclusive leg, [None] for the other swaps. *)
Definition leg_route_outputs (r : Route) : outcome (list (option (N * N))) :=
  foldr (fun s acc =>
    output ← (match output_token r with
              | Some t => if is_exclusive_leg s then leg_route_output (rt_swaps r) s t
                          else Ret None
              | None => Ret None
              end);
    outputs ← acc;
    Ret (output :: outputs)) (Ret []) (rt_swaps r).

Definition pin_commitment q (committed_amount_out : N) : outcome OrderQuote :=
  let exclusive_route_amount_out := oq_amount_out q in
  exclusive_gas_cost ← bsub exclusive_route_amount_out (oq_amount_out_net_gas q);
  surplus_amount ← bsub exclusive_route_amount_out committed_amount_out;
  route ← (match oq_route q with
           | None => Ret None
           | Some r =>
               outputs ← leg_route_outputs r;
               swaps ← capture_surplus surplus_amount (zip (rt_swaps r) outputs);
               Ret (Some {| rt_swaps := swaps; rt_tokens := rt_tokens r;
                            rt_fallback_amount_out := rt_fallback_amount_out r |})
           end);
  let surplus_quote := set_amount_out (set_route q route) committed_amount_out in
  net ← bsub committed_amount_out exclusive_gas_cost;
  Ret (with_surplus (set_amount_out_net_gas surplus_quote net)
         {| si_surplus_amount := surplus_amount;
            si_committed_amount_out := committed_amount_out |}).

Definition to_gas_token_wei q (amount : N) (token_prices : option (gmap Address Price))
    : option N :=
  route ← oq_route q;
  output_token ← output_token route;
  prices ← token_prices;
  price ← prices !! output_token;
  if (price_numerator price =? 0) || (price_denominator price =? 0) then None
  else Some (amount * price_denominator price / price_numerator price).
End exclusive.

(** ** The user's share *)

Lemma user_improvement_amount_bounds improvement share :
  share <= bps.DENOMINATOR ->
  improvement * share <= bps.DENOMINATOR * user_improvement_amount improvement share /\
  user_improvement_amount improvement share <= improvement.
Proof.
  intros Hs. unfold user_improvement_amount.
  replace (improvement * share + (bps.DENOMINATOR - 1))
    with (improvement * share + bps.DENOMINATOR - 1) by (unfold bps.DENOMINATOR; lia).
  destruct (ceil_div_spec (improvement * share) bps.DENOMINATOR) as [Hlo Hhi]; [done|].
  split; [done|]. unfold bps.DENOMINATOR in *. nia.
Qed.

Lemma share_bps_env_le raw : user_improvement_share_bps_env raw <= bps.DENOMINATOR.
Proof.
  unfold user_improvement_share_bps_env, parse_user_improvement_share_bps.
  destruct raw as [raw|]; [|done]. destruct (parse_uint _ _) as [n|]; [|done].
  by destruct (N.leb_spec n bps.DENOMINATOR).
Qed.

(** ** The route output of a leg *)

Section leg_output.
Context `{Tycho}.
Implicit Types (swaps : list Swap) (s : Swap).

(** A swap that takes nothing pays nothing. *)
Definition nothing_for_nothing swaps : Prop := forall s, s ∈ swaps -> sw_amount_in s = 0 -> sw_amount_out s = 0.

Lemma elem_of_taking swaps token s :
  s ∈ List.filter (fun s => bool_decide (sw_token_in s = token)) swaps
  <-> s ∈ swaps /\ sw_token_in s = token.
Proof. by rewrite elem_of_filterb, bool_decide_eq_true. Qed.

Lemma total_amount_in_zero swaps token s :
  nothing_for_nothing swaps -> total_amount_in_for_token swaps token = 0 ->
  s ∈ List.filter (fun s => bool_decide (sw_token_in s = token)) swaps -> sw_amount_out s = 0.
Proof.
  intros Hpay Htot Hs. pose proof (sum_by_elem sw_amount_in _ _ Hs). apply elem_of_taking in Hs as [Hs _].
  apply Hpay; [done|]. unfold total_amount_in_for_token in Htot. lia.
Qed.

Lemma route_output_loop_total swaps out next num den taking :
  (forall s, s ∈ taking -> next (sw_token_out s) <> Panic) ->
  route_output_loop swaps out next num den taking <> Panic.
Proof.
  revert num den. induction taking as [|s rest IH]; intros num den Hnext; cbn; [done|].
  assert (forall s', s' ∈ rest -> next (sw_token_out s') <> Panic) by set_solver.
  case_decide; cbn.
  - destruct (_ =? 0); by apply IH.
  - destruct (next (sw_token_out s)) as [[[n d]|]|] eqn:Hn; cbn; [|done|].
    + destruct (_ =? 0); by apply IH.
    + by destruct (Hnext s); [left|].
Qed.

Lemma token_route_output_total fuel swaps token out path start :
  NoDup path -> (forall t, t ∈ token :: path -> t ∈ start :: (sw_token_out <$> swaps)) ->
  (S (S (length swaps)) <= fuel + length path)%nat ->
  token_route_output fuel swaps token out path <> Panic.
Proof.
  revert token path. induction fuel as [|fuel IH]; intros token path Hnd Hin Hfuel.
  - assert (path ⊆+ start :: (sw_token_out <$> swaps)) as Hlen%submseteq_length.
    { apply NoDup_submseteq; [done|]. intros t Ht. apply Hin. by right. }
    cbn in Hlen. rewrite length_fmap in Hlen. lia.
  - cbn. case_decide as Hp; [done|]. apply route_output_loop_total.
    intros s [Hs _]%elem_of_taking. apply IH.
    + apply NoDup_app. split_and!; [done| |apply NoDup_singleton].
      by intros t Ht ->%list_elem_of_singleton.
    + intros t [->|[Ht|Ht%list_elem_of_singleton]%elem_of_app]%elem_of_cons.
      * right. apply list_elem_of_fmap. eauto.
      * apply Hin. by right.
      * subst. apply Hin. left.
    + rewrite length_app. cbn. lia.
Qed.

Lemma leg_route_output_total swaps leg out : leg_route_output swaps leg out <> Panic.
Proof.
  unfold leg_route_output. case_decide; [done|]. destruct (_ =? 0); [done|].
  pose proof (token_route_output_total (S (S (length swaps))) swaps (sw_token_out leg) out []
    (sw_token_out leg)) as Ht.
  destruct (token_route_output _ _ _ _ _) as [o|]; cbn; [done|].
  destruct Ht; [constructor| |cbn; lia|done].
  intros t [->|[]%not_elem_of_nil]%elem_of_cons. left.
Qed.

(** Swaps that pay nothing add nothing. *)
Lemma route_output_loop_nothing swaps out next num den taking n d :
  (forall s, s ∈ taking -> sw_amount_out s = 0) ->
  route_output_loop swaps out next num den taking = Ret (Some (n, d)) -> n = num.
Proof.
  revert num den. induction taking as [|s rest IH]; intros num den Hnone; cbn; [by intros [= <- _]|].
  rewrite (Hnone s) by left. assert (forall s', s' ∈ rest -> sw_amount_out s' = 0) as Hrest by set_solver.
  case_decide; cbn; [by apply IH|].
  destruct (next (sw_token_out s)) as [[[n' d']|]|]; cbn; [by apply IH|done|done].
Qed.

Lemma route_output_loop_den swaps out next num den taking n d :
  nothing_for_nothing swaps ->
  (forall t n d, next t = Ret (Some (n, d)) -> d <> 0 /\ (total_amount_in_for_token swaps t = 0 -> n = 0)) ->
  den <> 0 -> route_output_loop swaps out next num den taking = Ret (Some (n, d)) -> d <> 0.
Proof.
  intros Hpay Hnext. revert num den. induction taking as [|s rest IH]; intros num den Hden; cbn.
  { by intros [= _ <-]. }
  case_decide; cbn.
  - destruct (_ =? 0); intros Hr; eapply IH; try exact Hr; lia.
  - destruct (next (sw_token_out s)) as [[[n' d']|]|] eqn:Hn; cbn; [|done|done].
    destruct (Hnext _ _ _ Hn) as [Hd' Hn'].
    destruct (N.eqb_spec (sw_amount_out s * n') 0) as [|Hne].
    + intros Hr. by eapply IH; [|exact Hr].
    + intros Hr. eapply IH; [|exact Hr].
      enough (total_amount_in_for_token swaps (sw_token_out s) <> 0) by nia.
      intros Htot. specialize (Hn' Htot). nia.
Qed.

Lemma token_route_output_den fuel swaps token out path n d :
  nothing_for_nothing swaps -> token_route_output fuel swaps token out path = Ret (Some (n, d)) ->
  d <> 0 /\ (total_amount_in_for_token swaps token = 0 -> n = 0).
Proof.
  intros Hpay. revert token path n d. induction fuel as [|fuel IH]; intros token path n d; cbn; [done|].
  case_decide; [done|]. intros Hr. split.
  - refine (route_output_loop_den _ _ _ _ _ _ _ _ Hpay _ _ Hr); [|done].
    intros t n' d' Ht. by eapply IH.
  - intros Htot. eapply route_output_loop_nothing; [|exact Hr]. intros s. by apply total_amount_in_zero.
Qed.

Lemma leg_route_output_den swaps leg out n d :
  nothing_for_nothing swaps -> leg_route_output swaps leg out = Ret (Some (n, d)) -> d <> 0.
Proof.
  intros Hpos. unfold leg_route_output. case_decide; [by intros [= _ <-]|].
  destruct (N.eqb_spec (total_amount_in_for_token swaps (sw_token_out leg)) 0) as [|Hc];
    [by intros [= _ <-]|].
  destruct (token_route_output _ _ _ _ _) as [[[n' d']|]|] eqn:Ht; cbn; [|done|done].
  intros [= _ <-]. apply token_route_output_den in Ht as [? _]; [nia|done].
Qed.

(** ** Capturing the surplus *)

(** What capturing may change on a swap: nothing, or the committed output of an
    exclusive leg, which never exceeds the leg's output. *)
Definition captured_swap (s s' : Swap) : Prop :=
  s' = s \/
  is_exclusive_leg s = true /\
  exists c, s' = Swap_set_committed_amount_out s c /\ c <= sw_amount_out s.

Lemma captured_le surplus num den amount :
  den <> 0 -> num <> 0 ->
  N.min surplus (num / den) * amount * den / num <= amount.
Proof.
  intros Hd Hn. apply div_le_of_le_mul; [done|].
  pose proof (div_mul_le num den Hd). set (c := N.min _ _).
  assert (c * den <= num) by (assert (c <= num / den) by (unfold c; lia); nia).
  replace (c * amount * den) with (c * den * amount) by lia. by apply N.mul_le_mono_r.
Qed.

Lemma capture_surplus_total surplus legs :
  (forall s n d, (s, Some (n, d)) ∈ legs -> d <> 0) ->
  exists swaps, capture_surplus surplus legs = Ret swaps /\ Forall2 captured_swap legs.*1 swaps.
Proof.
  revert surplus. induction legs as [|[s output] legs IH]; intros surplus Hden; cbn.
  { exists []. split; [done|constructor]. }
  assert (forall s n d, (s, Some (n, d)) ∈ legs -> d <> 0) as Hden'.
  { intros s' n d Hin. eapply Hden. by right. }
  destruct (is_exclusive_leg s) eqn:Hex, output as [[num den]|].
  2-4: destruct (IH surplus Hden') as (swaps & -> & Hall); cbn; eexists; split; [done|];
       constructor; [by left|done].
  destruct (N.eqb_spec num 0) as [|Hnum].
  { destruct (IH surplus Hden') as (swaps & -> & Hall). cbn. eexists. split; [done|].
    constructor; [by left|done]. }
  assert (den <> 0) as Hd by (eapply Hden; left).
  rewrite (bdiv_nonzero num) by done. cbn. rewrite bdiv_nonzero by done. cbn.
  rewrite (bsub_ge (sw_amount_out s)) by (by apply captured_le).
  cbn. rewrite (bsub_ge surplus) by lia. cbn.
  destruct (IH (surplus - N.min surplus (num / den)) Hden') as (swaps & -> & Hall). cbn.
  eexists. split; [done|]. constructor; [|done]. right. split; [done|].
  eexists. split; [done|]. apply N.le_sub_l.
Qed.

Lemma leg_route_outputs_total r :
  nothing_for_nothing (rt_swaps r) ->
  exists outputs, leg_route_outputs r = Ret outputs /\ length outputs = length (rt_swaps r) /\
    forall s n d, (s, Some (n, d)) ∈ zip (rt_swaps r) outputs -> d <> 0.
Proof.
  intros Hpos. unfold leg_route_outputs.
  match goal with |- context [foldr ?F _ _] => set (step := F) end.
  generalize (rt_swaps r) as rest.
  induction rest as [|s rest (outputs & Hout & Hlen & Hden)]; cbn [foldr length].
  { exists []. split_and!; [done|done|]. by intros s n d []%not_elem_of_nil. }
  rewrite Hout. unfold step.
  destruct (output_token r) as [t|]; [destruct (is_exclusive_leg s)|]; cbn.
  - pose proof (leg_route_output_total (rt_swaps r) s t) as Ht.
    destruct (leg_route_output (rt_swaps r) s t) as [o|] eqn:Ho; [|done]. cbn.
    eexists. split_and!; [done|cbn; lia|].
    intros s' n d [[= -> <-]|Hin]%elem_of_cons; [by eapply leg_route_output_den|by eapply Hden].
  - eexists. split_and!; [done|cbn; lia|]. intros s' n d [[=]|Hin]%elem_of_cons. by eapply Hden.
  - eexists. split_and!; [done|cbn; lia|]. intros s' n d [[=]|Hin]%elem_of_cons. by eapply Hden.
Qed.
End leg_output.

(** ** Pinning *)

Section pinning.
Context `{Tycho}.

(** What pinning promises about the quote, given the commitment. *)
Record pinned (q : OrderQuote) (committed : N) (q' : OrderQuote) : Prop := {
  pin_amount_out : oq_amount_out q' = committed;
  pin_net : oq_amount_out_net_gas q' = committed - (oq_amount_out q - oq_amount_out_net_gas q);
  pin_surplus : oq_surplus q' = Some {| si_surplus_amount := oq_amount_out q - committed;
                                        si_committed_amount_out := committed |};
  pin_status : oq_status q' = oq_status q;
  pin_gas : oq_gas_estimate q' = oq_gas_estimate q;
  pin_swaps : match oq_route q, oq_route q' with
              | Some r, Some r' => Forall2 captured_swap (rt_swaps r) (rt_swaps r')
              | None, None => True
              | _, _ => False
              end;
}.

Lemma pin_commitment_pinned (q : OrderQuote) (committed : N) :
  quote_net_ok q -> committed <= oq_amount_out q ->
  oq_amount_out q - oq_amount_out_net_gas q <= committed ->
  (forall r, oq_route q = Some r -> nothing_for_nothing (rt_swaps r)) ->
  exists q', pin_commitment q committed = Ret q' /\ pinned q committed q'.
Proof.
  intros Hnet Hle Hgas Hpos. unfold pin_commitment, quote_net_ok in *.
  rewrite (bsub_ge (oq_amount_out q) (oq_amount_out_net_gas q)) by done. cbn.
  rewrite (bsub_ge (oq_amount_out q) committed) by done. cbn.
  assert (exists route,
    match oq_route q with
    | None => Ret None
    | Some r =>
        outputs ← leg_route_outputs r;
        swaps ← capture_surplus (oq_amount_out q - committed) (zip (rt_swaps r) outputs);
        Ret (Some {| rt_swaps := swaps; rt_tokens := rt_tokens r;
                     rt_fallback_amount_out := rt_fallback_amount_out r |})
    end = Ret route /\
    match oq_route q, route with
    | Some r, Some r' => Forall2 captured_swap (rt_swaps r) (rt_swaps r')
    | None, None => True
    | _, _ => False
    end) as (route & Hroute & Hswaps).
  { destruct (oq_route q) as [r|] eqn:Hr; [|by exists None].
    destruct (leg_route_outputs_total r (Hpos r eq_refl)) as (outputs & -> & Hlen & Hden). cbn.
    destruct (capture_surplus_total (oq_amount_out q - committed) _ Hden) as (swaps & -> & Hall).
    cbn. eexists. split; [done|]. cbn. rewrite fst_zip in Hall by lia. done. }
  rewrite Hroute. cbn. rewrite bsub_ge by done. cbn. eexists. split; [done|].
  destruct q; by split.
Qed.
End pinning.

(** ** Properties *)

(** The commitment against a public reference, on every branch. *)
Lemma matched_commitment_bounds (public exclusive : RouteOutput) (share : N) :
  share <= bps.DENOMINATOR ->
  ro_amount_out_net_gas exclusive <= ro_amount_out exclusive ->
  match matched_commitment public exclusive share with
  | Panic => False
  | Ret None =>
      ro_amount_out_net_gas exclusive < ro_amount_out_net_gas public \/
      ro_amount_out exclusive < ro_amount_out public
  | Ret (Some committed) =>
      let gas := ro_amount_out exclusive - ro_amount_out_net_gas exclusive in
      let improvement := ro_amount_out_net_gas exclusive - ro_amount_out_net_gas public in
      ro_amount_out_net_gas public <= ro_amount_out_net_gas exclusive /\
      ro_amount_out public <= committed /\ committed <= ro_amount_out exclusive /\
      gas <= committed /\
      bps.DENOMINATOR * ro_amount_out_net_gas public + share * improvement
        <= bps.DENOMINATOR * (committed - gas)
  end.
Proof.
  intros Hshare Hnet. unfold matched_commitment. cbv zeta.
  destruct (N.ltb_spec (ro_amount_out_net_gas exclusive) (ro_amount_out_net_gas public)) as [|Hge];
    [by left|].
  rewrite (bsub_ge (ro_amount_out_net_gas exclusive)) by done. cbn [mbind outcome_bind].
  destruct (N.ltb_spec (ro_amount_out exclusive) (ro_amount_out public)) as [|Hout];
    [by right|].
  rewrite bsub_ge by done. cbn [mbind outcome_bind].
  destruct (user_improvement_amount_bounds
    (ro_amount_out_net_gas exclusive - ro_amount_out_net_gas public) share Hshare) as [Hlo Hhi].
  unfold bps.DENOMINATOR in *. lia.
Qed.

(** The commitment against a public reference is [None] exactly when the
    exclusive route pays less than the public one, net of gas or in output.
    Otherwise, with a share of at most 100% and sound net outputs, it lies between
    the public output and what the exclusive route produces, and after the
    exclusive route's gas the user nets at least the public net plus the share of
    the improvement. *)
Theorem matched_commitment_spec (public exclusive : RouteOutput) (share : N) :
  share <= bps.DENOMINATOR ->
  ro_amount_out_net_gas exclusive <= ro_amount_out exclusive ->
  match matched_commitment public exclusive share with
  | Panic => False
  | Ret None =>
      ro_amount_out_net_gas exclusive < ro_amount_out_net_gas public \/
      ro_amount_out exclusive < ro_amount_out public
  | Ret (Some committed) =>
      let gas := ro_amount_out exclusive - ro_amount_out_net_gas exclusive in
      let improvement := ro_amount_out_net_gas exclusive - ro_amount_out_net_gas public in
      ro_amount_out_net_gas public <= ro_amount_out_net_gas exclusive /\
      ro_amount_out public <= committed /\ committed <= ro_amount_out exclusive /\
      gas <= committed /\
      bps.DENOMINATOR * ro_amount_out_net_gas public + share * improvement
        <= bps.DENOMINATOR * (committed - gas)
  end.
Proof. apply matched_commitment_bounds. Qed.

(** The share read from the environment is at most the whole improvement,
    whatever the variable holds, so the user's part never exceeds the improvement. *)
Theorem user_share_bounded (raw : option string) (improvement : N) :
  user_improvement_amount improvement (user_improvement_share_bps_env raw) <= improvement.
Proof. apply user_improvement_amount_bounds, share_bps_env_le. Qed.

(** The search for the route output of a leg always returns: it detects loops
    before its fuel runs out, whatever the swaps are. *)
Theorem leg_route_output_terminates `{Tycho} (swaps : list Swap) (leg : Swap) (out : Address) :
  exists output, leg_route_output swaps leg out = Ret output.
Proof.
  pose proof (leg_route_output_total swaps leg out).
  by destruct (leg_route_output swaps leg out); eauto.
Qed.

(** Pinning a commitment that the route can pay and that covers its gas never
    panics. The quote then promises exactly the commitment, nets the commitment
    less the gas, reports the rest as surplus, and keeps every swap except for the
    committed output of exclusive legs, which stays within the leg's output. *)
Theorem pin_commitment_spec `{Tycho} (q : OrderQuote) (committed : N) :
  quote_net_ok q -> committed <= oq_amount_out q ->
  oq_amount_out q - oq_amount_out_net_gas q <= committed ->
  (forall r, oq_route q = Some r -> nothing_for_nothing (rt_swaps r)) ->
  exists q', pin_commitment q committed = Ret q' /\ pinned q committed q'.
Proof. apply pin_commitment_pinned. Qed.

(** ** Witnesses *)

Definition sample_exclusive_quote : @OrderQuote Sample.tycho :=
  with_route sample_quote
    (Sample.route [Sample.swap Sample.A Sample.B 100 200 F64.zero;
                   Sample.exclusive_swap Sample.B Sample.C 200 1000 F64.zero]).

Lemma matched_commitment_spec_witness :
  match matched_commitment {| ro_amount_out := 900; ro_amount_out_net_gas := 850 |}
          {| ro_amount_out := 1000; ro_amount_out_net_gas := 900 |} 1000 with
  | Ret (Some committed) => committed = 955
  | _ => False
  end /\ 900 <= 955.
Proof.
  pose proof (matched_commitment_spec {| ro_amount_out := 900; ro_amount_out_net_gas := 850 |}
    {| ro_amount_out := 1000; ro_amount_out_net_gas := 900 |} 1000) as Hspec.
  split; [by vm_compute|]. vm_compute in Hspec.
  destruct Hspec as (_ & Hpub & _); [by vm_compute..|]. exact Hpub.
Defined.

Lemma pin_commitment_spec_witness :
  exists q', pin_commitment sample_exclusive_quote 950 = Ret q' /\
    pinned sample_exclusive_quote 950 q'.
Proof.
  apply (pin_commitment_spec sample_exclusive_quote 950); [by vm_compute..|].
  intros r Hr. injection Hr as <-. intros s Hs.
  repeat (apply elem_of_cons in Hs as [->|Hs]; [by vm_compute|]).
  by apply not_elem_of_nil in Hs.
Defined.
