(* ===== verification/Allocation.v ===== *)
(** * Allocation: which worker pools serve an order

    Models [fynd-core/src/worker_pool_router/allocation.rs] and the
    [LiquidityScope] and [SolverPoolHandle] types of
    [fynd-core/src/worker_pool_router/mod.rs]. A pool handle is its name and its
    configuration; the queue is a channel end, which [Dispatch] models. The
    theorems are the access-control contract of the router: without access no
    exclusive pool is selected, whatever the request asks for. *)

From stdpp Require Import prelude gmap strings list.
From Stdlib Require Import NArith ZArith Lia Ascii.
From S2P Require Import Prelude Types.

Inductive LiquidityScope := PublicOnly | IncludeExclusive.
#[export] Instance LiquidityScope_eq_dec : EqDecision LiquidityScope.
Proof. solve_decision. Defined.

Inductive ExclusiveAccess := Denied | Granted.
#[export] Instance ExclusiveAccess_eq_dec : EqDecision ExclusiveAccess.
Proof. solve_decision. Defined.

Record SolverPoolHandle := {
  sp_name : string;
  sp_liquidity_scope : LiquidityScope;
  sp_supports_required_tokens : bool;
}.

Definition SolverPoolHandle_new (name : string) : SolverPoolHandle := {|
  sp_name := name;
  sp_liquidity_scope := PublicOnly;
  sp_supports_required_tokens := false;
|}.

Record OrderClass := {
  oc_exclusive_access : ExclusiveAccess;
  oc_requires_tokens : bool;
}.

Definition without_required_tokens (c : OrderClass) : OrderClass := {|
  oc_exclusive_access := oc_exclusive_access c;
  oc_requires_tokens := false;
|}.

Definition serves (p : SolverPoolHandle) (class : OrderClass) : bool :=
  let scope_serves :=
    match sp_liquidity_scope p with
    | PublicOnly => true
    | IncludeExclusive => bool_decide (oc_exclusive_access class = Granted)
    end in
  scope_serves && (negb (oc_requires_tokens class) || sp_supports_required_tokens p).

Record Allocation := {
  al_worker_pools : list SolverPoolHandle;
  al_scopes : gmap string LiquidityScope;
  al_exclusive_routing_active : bool;
}.

Definition Allocation_is_exclusive (a : Allocation) (worker_pool_name : string) : bool :=
  bool_decide (al_scopes a !! worker_pool_name = Some IncludeExclusive).

Definition Allocation_is_empty (a : Allocation) : bool :=
  match al_worker_pools a with [] => true | _ => false end.

(** The message names the unknown pools; the debug quoting is left out. *)
Definition join_names (names : list string) : string :=
  foldr (fun n acc => (n +:+ ", " +:+ acc)%string) EmptyString names.

Definition validate_pool_allowlist (worker_pools : list SolverPoolHandle)
    (allowlist : list string) : result SolveError unit :=
  match allowlist with
  | [] => Err (SE_InvalidWorkerPools "worker pool allowlist is empty; omit it to use every pool that serves the request")
  | _ =>
      let unknown := List.filter
        (fun name => negb (existsb (fun p => bool_decide (sp_name p = name)) worker_pools))
        allowlist in
      match unknown with
      | [] => Ok tt
      | _ => Err (SE_InvalidWorkerPools ("unknown worker pool(s) " +:+ join_names unknown))
      end
  end.

(** [pool_allowlist.is_none_or(...)]. *)
Definition allowlisted (pool_allowlist : option (list string)) (p : SolverPoolHandle) : bool :=
  match pool_allowlist with
  | None => true
  | Some allowlist => existsb (fun n => bool_decide (n = sp_name p)) allowlist
  end.

Definition collect_scopes (worker_pools : list SolverPoolHandle) : gmap string LiquidityScope :=
  fold_left (fun m p => <[sp_name p := sp_liquidity_scope p]> m) worker_pools ∅.

Definition allocate (worker_pools : list SolverPoolHandle) (class : OrderClass)
    (pool_allowlist : option (list string)) : Allocation :=
  let worker_pools :=
    List.filter (allowlisted pool_allowlist)
      (List.filter (fun p => serves p class) worker_pools) in
  let scopes := collect_scopes worker_pools in
  {| al_worker_pools := worker_pools;
     al_scopes := scopes;
     al_exclusive_routing_active :=
       existsb (fun kv => bool_decide (kv.2 = IncludeExclusive)) (map_to_list scopes) |}.

(** ** Laws *)

Lemma collect_scopes_Some pools name scope :
  collect_scopes pools !! name = Some scope ->
  exists p, p ∈ pools /\ sp_name p = name /\ sp_liquidity_scope p = scope.
Proof.
  unfold collect_scopes. induction pools as [|p pools IH] using rev_ind; [done|].
  rewrite fold_left_app. cbn. rewrite lookup_insert. case_decide as Hn.
  - intros [= <-]. exists p. split_and!; [set_solver|done|done].
  - intros (p' & ? & ? & ?)%IH. exists p'. split_and!; [set_solver|done|done].
Qed.

Lemma collect_scopes_unique pools p :
  NoDup (sp_name <$> pools) -> p ∈ pools ->
  collect_scopes pools !! sp_name p = Some (sp_liquidity_scope p).
Proof.
  unfold collect_scopes. induction pools as [|p' pools IH] using rev_ind; [set_solver|].
  rewrite fmap_app, NoDup_app. cbn. intros (Hnd & Hdisj & _).
  rewrite fold_left_app. cbn. rewrite lookup_insert.
  intros [Hp|Hp%list_elem_of_singleton]%elem_of_app.
  - rewrite decide_False; [by apply IH|]. intros Heq.
    apply (Hdisj (sp_name p)); [by apply list_elem_of_fmap_2|]. rewrite Heq. left.
  - subst. by rewrite decide_True.
Qed.

Lemma elem_of_allocated pools class allowlist p :
  p ∈ al_worker_pools (allocate pools class allowlist) <->
  p ∈ pools /\ serves p class = true /\ allowlisted allowlist p = true.
Proof. cbn. rewrite !elem_of_filterb. tauto. Qed.

Lemma exclusive_active_iff pools class allowlist :
  al_exclusive_routing_active (allocate pools class allowlist) = true <->
  exists name, al_scopes (allocate pools class allowlist) !! name = Some IncludeExclusive.
Proof.
  cbn. rewrite existsb_exists. split.
  - intros ([n sc] & Hin & Hd). apply bool_decide_eq_true in Hd. cbn in Hd. subst sc.
    exists n. by apply elem_of_map_to_list, list_elem_of_In.
  - intros [n Hn]. exists (n, IncludeExclusive). split; [|done].
    by apply list_elem_of_In, elem_of_map_to_list.
Qed.

Lemma allocated_exclusive_granted pools class allowlist name :
  al_scopes (allocate pools class allowlist) !! name = Some IncludeExclusive ->
  oc_exclusive_access class = Granted.
Proof.
  intros (p & Hp & _ & Hscope)%collect_scopes_Some.
  apply (elem_of_allocated pools class allowlist) in Hp as (_ & Hserves & _).
  unfold serves in Hserves. rewrite Hscope in Hserves.
  apply andb_prop in Hserves as [Hs _]. by apply bool_decide_eq_true in Hs.
Qed.

(** ** Properties *)

(** A request without access to exclusive liquidity is never allocated an
    exclusive-scope worker pool, whatever its allowlist: no selected pool is
    exclusive, exclusive routing is inactive, and no pool name counts as exclusive
    for the later early-return and ranking decisions. *)
Theorem denied_never_exclusive (pools : list SolverPoolHandle) (class : OrderClass)
    (allowlist : option (list string)) :
  oc_exclusive_access class = Denied ->
  (forall p, p ∈ al_worker_pools (allocate pools class allowlist) ->
     sp_liquidity_scope p = PublicOnly) /\
  al_exclusive_routing_active (allocate pools class allowlist) = false /\
  forall name, Allocation_is_exclusive (allocate pools class allowlist) name = false.
Proof.
  intros Hden.
  assert (forall name, al_scopes (allocate pools class allowlist) !! name <> Some IncludeExclusive)
    as Hno by (intros name Hn; apply allocated_exclusive_granted in Hn; congruence).
  split_and!.
  - intros p (_ & Hs & _)%elem_of_allocated. unfold serves in Hs. rewrite Hden in Hs.
    by destruct (sp_liquidity_scope p).
  - apply not_true_is_false. rewrite exclusive_active_iff. by intros [n Hn%Hno].
  - intros name. by apply bool_decide_eq_false.
Qed.

(** Allocation selects exactly the configured pools that serve the order's
    class and are on the allowlist, in configuration order. With distinct pool
    names its scope table and its exclusive flag describe those pools exactly. *)
Theorem allocate_exact (pools : list SolverPoolHandle) (class : OrderClass)
    (allowlist : option (list string)) :
  NoDup (sp_name <$> pools) ->
  let a := allocate pools class allowlist in
  al_worker_pools a `sublist_of` pools /\
  (forall p, p ∈ al_worker_pools a <->
     p ∈ pools /\ serves p class = true /\ allowlisted allowlist p = true) /\
  (forall p, p ∈ al_worker_pools a ->
     Allocation_is_exclusive a (sp_name p) = bool_decide (sp_liquidity_scope p = IncludeExclusive)) /\
  (al_exclusive_routing_active a = true <->
     exists p, p ∈ al_worker_pools a /\ sp_liquidity_scope p = IncludeExclusive).
Proof.
  intros Hnd a.
  assert (al_worker_pools a `sublist_of` pools) as Hsub.
  { unfold a. cbn. etransitivity; apply sublist_filterb. }
  assert (NoDup (sp_name <$> al_worker_pools a)) as Hnd'
    by (eapply sublist_NoDup; [done|by apply fmap_sublist]).
  split_and!; [done|apply elem_of_allocated| |].
  - intros p Hp. unfold Allocation_is_exclusive.
    change (al_scopes a) with (collect_scopes (al_worker_pools a)).
    rewrite (collect_scopes_unique _ p Hnd' Hp). apply bool_decide_ext.
    split; [by intros [= ->]|by intros ->].
  - unfold a. rewrite exclusive_active_iff. split.
    + intros (n & (p & Hp & _ & Hs)%collect_scopes_Some). by exists p.
    + intros (p & Hp & Hs). exists (sp_name p). rewrite <- Hs.
      by apply collect_scopes_unique.
Qed.

(** An allowlist is accepted exactly when it is not empty and names configured
    pools only. *)
Theorem allowlist_valid_iff (pools : list SolverPoolHandle) (allowlist : list string) :
  validate_pool_allowlist pools allowlist = Ok tt <->
  allowlist <> [] /\ forall name, name ∈ allowlist -> exists p, p ∈ pools /\ sp_name p = name.
Proof.
  unfold validate_pool_allowlist. destruct allowlist as [|n0 allowlist];
    [by split; [|intros [? _]]|].
  set (known := fun name => existsb (fun p => bool_decide (sp_name p = name)) pools).
  assert (forall name, known name = true <-> exists p, p ∈ pools /\ sp_name p = name) as Hknown.
  { intros name. unfold known. rewrite existsb_exists. setoid_rewrite bool_decide_eq_true.
    by setoid_rewrite list_elem_of_In. }
  change (fun name => negb (existsb (fun p => bool_decide (sp_name p = name)) pools))
    with (fun name => negb (known name)). cbv zeta.
  destruct (List.filter (fun name => negb (known name)) (n0 :: allowlist)) as [|u us] eqn:Hu.
  - split; [|done]. intros _. split; [done|]. intros name Hname. apply Hknown.
    destruct (known name) eqn:Hk; [done|].
    assert (name ∈ @nil string) as []%not_elem_of_nil.
    rewrite <- Hu. apply elem_of_filterb. by rewrite Hk.
  - split; [done|]. intros [_ Hall]. exfalso.
    assert (u ∈ u :: us) as Hin by left. rewrite <- Hu in Hin.
    apply elem_of_filterb in Hin as [Hin Hneg]. apply Hall, Hknown in Hin. by rewrite Hin in Hneg.
Qed.

(** ** Witnesses *)

Definition sample_pools : list SolverPoolHandle := [
  {| sp_name := "public"; sp_liquidity_scope := PublicOnly; sp_supports_required_tokens := true |};
  {| sp_name := "exclusive"; sp_liquidity_scope := IncludeExclusive;
     sp_supports_required_tokens := false |} ].

Definition sample_class (a : ExclusiveAccess) : OrderClass :=
  {| oc_exclusive_access := a; oc_requires_tokens := false |}.

Lemma denied_never_exclusive_witness :
  al_exclusive_routing_active (allocate sample_pools (sample_class Denied) None) = false /\
  length (al_worker_pools (allocate sample_pools (sample_class Denied) None)) = 1%nat.
Proof.
  destruct (denied_never_exclusive sample_pools (sample_class Denied) None) as (_ & Hinactive & _);
    [reflexivity|]. split; [exact Hinactive|by vm_compute].
Defined.

Lemma allocate_exact_witness :
  al_exclusive_routing_active (allocate sample_pools (sample_class Granted) None) = true <->
  exists p, p ∈ al_worker_pools (allocate sample_pools (sample_class Granted) None) /\
    sp_liquidity_scope p = IncludeExclusive.
Proof.
  destruct (allocate_exact sample_pools (sample_class Granted) None) as (_ & _ & _ & Hactive);
    [|exact Hactive].
  apply (bool_decide_unpack _). by vm_compute.
Defined.
