(* ===== verification/PriceGuard.v ===== *)
(** * PriceGuard: validation against external prices

    Models [fynd-core/src/price_guard/guard.rs], the registry of
    [fynd-core/src/price_guard/provider_registry.rs] and the provider types of
    [fynd-core/src/price_guard/provider.rs]. A provider is a function from a token
    pair and an amount to a price or an error; the HTTP and websocket clients
    behind it are not modelled. *)

From stdpp Require Import prelude gmap strings list.
From Stdlib Require Import NArith ZArith Lia.
From S2P Require Import Prelude F64 Types Route Quote Samples.

Inductive PriceProviderError :=
| Unavailable (msg : string)
| TokenNotFound (address : string)
| PriceNotFound (token_in token_out : string)
| StaleData (age_ms : N).

Record ExternalPrice := { ep_expected_amount_out : N; ep_source : string; ep_timestamp_ms : N }.

Inductive PriceGuardError := NoProviders | EmptyQuoteCandidates.

(** [trait PriceProvider]: its one query. *)
Definition PriceProvider : Type :=
  Address -> Address -> N -> result PriceProviderError ExternalPrice.

Record PriceGuard := { providers : list PriceProvider }.

Definition get_all_expected_out (guard : PriceGuard) (token_in token_out : Address)
    (amount_in : N) : list (result PriceProviderError ExternalPrice) :=
  (fun p : PriceProvider => p token_in token_out amount_in) <$> providers guard.

Section guard.
Context `{Tycho}.
Implicit Types (q candidate : OrderQuote) (guard : PriceGuard) (config : PriceGuardConfig).

Definition price_within_tolerance q (provider_price : ExternalPrice) config : bool :=
  if ep_expected_amount_out provider_price =? 0 then false
  else
    let provider_amount_out := ep_expected_amount_out provider_price in
    let fynd_amount_out := oq_amount_out q in
    let '(diff, tolerance) :=
      if provider_amount_out <=? fynd_amount_out
      then (fynd_amount_out - provider_amount_out, upper_tolerance_bps config)
      else (provider_amount_out - fynd_amount_out, lower_tolerance_bps config) in
    let deviation := (diff * 10000) / provider_amount_out in
    let deviation_bps := if deviation <=? u32_MAX then deviation else u32_MAX in
    deviation_bps <=? tolerance.

(** The loop over the providers' answers, with its two flags. *)
Fixpoint check_results q config (price_out_of_tolerance has_provider_error : bool)
    (results : list (result PriceProviderError ExternalPrice)) : bool :=
  match results with
  | [] =>
      if price_out_of_tolerance then false
      else if has_provider_error then negb (fail_on_provider_error config)
      else negb (fail_on_token_price_not_found config)
  | Ok price :: rest =>
      if price_within_tolerance q price config then true
      else check_results q config true has_provider_error rest
  | Err (PriceNotFound _ _) :: rest =>
      check_results q config price_out_of_tolerance has_provider_error rest
  | Err _ :: rest => check_results q config price_out_of_tolerance true rest
  end.

Definition check_price guard q (token_in token_out : Address) config : bool :=
  check_results q config false false
    (get_all_expected_out guard token_in token_out (oq_amount_in q)).

Definition validated_token_pair q : option (Address * Address) :=
  match oq_route q with
  | None => None
  | Some route =>
      match input_token route, output_token route with
      | Some token_in, Some token_out => Some (token_in, token_out)
      | _, _ => None
      end
  end.

Definition passes guard config candidate : bool :=
  match validated_token_pair candidate with
  | Some (token_in, token_out) => check_price guard candidate token_in token_out config
  | None => false
  end.

(** The loop that fills [passing] and remembers the first rejected candidate. *)
Definition retain_step guard config (st : list OrderQuote * option OrderQuote) candidate
    : list OrderQuote * option OrderQuote :=
  let '(passing, best_rejected) := st in
  if passes guard config candidate then (passing ++ [candidate], best_rejected)
  else (passing, match best_rejected with Some b => Some b | None => Some candidate end).

Definition retain_valid guard (candidates : list OrderQuote) config
    : result PriceGuardError (list OrderQuote) :=
  match candidates with
  | first :: _ =>
      if negb (bool_decide (oq_status first = Success)) then Ok candidates
      else
        let '(passing, best_rejected) :=
          fold_left (retain_step guard config) candidates ([], None) in
        match passing, best_rejected with
        | _ :: _, _ => Ok passing
        | [], Some order_quote => Ok [set_status order_quote PriceCheckFailed]
        | [], None => Err EmptyQuoteCandidates
        end
  | [] => Err EmptyQuoteCandidates
  end.

Fixpoint validate_orders guard config (ranked_quotes : list (list OrderQuote))
    : result PriceGuardError (list (list OrderQuote)) :=
  match ranked_quotes with
  | [] => Ok []
  | candidates :: rest =>
      kept ← retain_valid guard candidates config;
      results ← validate_orders guard config rest;
      Ok (kept :: results)
  end.

Definition PriceGuard_validate guard (ranked_quotes : list (list OrderQuote)) config
    : result PriceGuardError (list (list OrderQuote)) :=
  if negb (pg_enabled config) then Ok ranked_quotes
  else match providers guard with
       | [] => Err NoProviders
       | _ => validate_orders guard config ranked_quotes
       end.

(** ** Laws *)

Lemma retain_loop guard config candidates passing rejected :
  fold_left (retain_step guard config) candidates (passing, rejected)
  = (passing ++ List.filter (passes guard config) candidates,
     match rejected with
     | Some b => Some b
     | None => head (List.filter (fun c => negb (passes guard config c)) candidates)
     end).
Proof.
  revert passing rejected. induction candidates as [|c cs IH]; intros passing rejected; cbn.
  { rewrite app_nil_r. by destruct rejected. }
  destruct (passes guard config c); cbn; rewrite IH; [by rewrite <- app_assoc|].
  by destruct rejected.
Qed.

(** What one order's candidates become. *)
Definition retained guard config (candidates : list OrderQuote) : list OrderQuote :=
  match candidates with
  | [] => []
  | first :: _ =>
      if bool_decide (oq_status first = Success) then
        match List.filter (passes guard config) candidates with
        | [] => [set_status first PriceCheckFailed]
        | kept => kept
        end
      else candidates
  end.

Lemma retain_valid_spec guard config candidates :
  candidates <> [] -> retain_valid guard candidates config = Ok (retained guard config candidates).
Proof.
  destruct candidates as [|first rest]; [done|]. intros _. unfold retain_valid, retained.
  case_bool_decide; cbn [negb]; [|done]. rewrite retain_loop. cbn [app].
  destruct (List.filter (passes guard config) (first :: rest)) eqn:Hf; [|done].
  cbn in *. by destruct (passes guard config first).
Qed.

Lemma retained_nonempty guard config candidates :
  candidates <> [] -> retained guard config candidates <> [].
Proof.
  destruct candidates as [|first rest]; [done|]. intros _. unfold retained.
  case_bool_decide; [|done]. by destruct (List.filter _ _).
Qed.

Lemma validate_orders_spec guard config ranked :
  Forall (fun cs => cs <> []) ranked ->
  validate_orders guard config ranked = Ok (retained guard config <$> ranked).
Proof.
  induction 1 as [|cs ranked Hcs _ IH]; cbn; [done|].
  rewrite retain_valid_spec by done. cbn. by rewrite IH.
Qed.

Lemma check_results_spec q config tol err results :
  check_results q config tol err results = true <->
  (exists price, Ok price ∈ results /\ price_within_tolerance q price config = true) \/
  (tol = false /\ (forall price, Ok price ∉ results) /\
   if err || existsb (fun r => match r with
                               | Ok _ | Err (PriceNotFound _ _) => false
                               | Err _ => true end) results
   then fail_on_provider_error config = false
   else fail_on_token_price_not_found config = false).
Proof.
  revert tol err. induction results as [|r results IH]; intros tol err; cbn [check_results existsb].
  - rewrite orb_false_r. setoid_rewrite elem_of_nil.
    destruct tol, err, (fail_on_provider_error config), (fail_on_token_price_not_found config);
      cbn; naive_solver.
  - destruct r as [price|e]; cbn.
    + destruct (price_within_tolerance q price config) eqn:Hp.
      * split; [|done]. intros _. left. exists price. split; [left|done].
      * rewrite IH. split.
        -- intros [(p & Hin & Hw)|(? & _)]; [|done]. left. exists p. split; [by right|done].
        -- intros [(p & [[= ->]|Hin]%elem_of_cons & Hw)|(_ & Hno & _)];
             [congruence|left; by exists p|].
           by destruct (Hno price); left.
    + assert (forall price : ExternalPrice, Ok price ∈ Err e :: results <-> Ok price ∈ results)
        as Heq by (intros price; rewrite elem_of_cons; naive_solver).
      setoid_rewrite Heq. destruct e; cbn; rewrite IH, ?orb_true_r, ?orb_true_l; done.
Qed.
End guard.

(** ** Properties *)

Section properties.
Context `{Tycho}.
Implicit Types (q : OrderQuote) (guard : PriceGuard) (config : PriceGuardConfig).

(** A candidate passes the price check exactly when some provider's price is
    within tolerance, or no provider has a price at all and the configuration lets
    quotes through for the errors seen: a provider fault under
    [fail_on_provider_error], only missing prices under
    [fail_on_token_price_not_found]. One price out of tolerance with none in
    tolerance always rejects. *)
Theorem price_check_iff guard q (token_in token_out : Address) config :
  check_price guard q token_in token_out config = true <->
  let answers := get_all_expected_out guard token_in token_out (oq_amount_in q) in
  (exists price, Ok price ∈ answers /\ price_within_tolerance q price config = true) \/
  (forall price, Ok price ∉ answers) /\
  if existsb (fun r => match r with
                       | Ok _ | Err (PriceNotFound _ _) => false
                       | Err _ => true end) answers
  then fail_on_provider_error config = false
  else fail_on_token_price_not_found config = false.
Proof. unfold check_price. rewrite check_results_spec. cbn. tauto. Qed.

(** A price is within tolerance exactly when it is positive and the quote's
    deviation, in whole basis points of the provider's amount, is at most the
    tolerance of its side: the upper one when the quote pays at least the
    provider's amount, the lower one when it pays less. *)
Theorem price_within_tolerance_iff q (price : ExternalPrice) config :
  upper_tolerance_bps config < u32_MAX -> lower_tolerance_bps config < u32_MAX ->
  price_within_tolerance q price config = true <->
  ep_expected_amount_out price <> 0 /\
  (ep_expected_amount_out price <= oq_amount_out q ->
     10000 * (oq_amount_out q - ep_expected_amount_out price)
     < (upper_tolerance_bps config + 1) * ep_expected_amount_out price) /\
  (oq_amount_out q < ep_expected_amount_out price ->
     10000 * (ep_expected_amount_out price - oq_amount_out q)
     < (lower_tolerance_bps config + 1) * ep_expected_amount_out price).
Proof.
  intros Hup Hlow. unfold price_within_tolerance.
  set (e := ep_expected_amount_out price). set (a := oq_amount_out q).
  destruct (N.eqb_spec e 0) as [He|He]; [by split; [|intros [? _]]|].
  assert (forall d t, t < u32_MAX ->
    ((if d * 10000 / e <=? u32_MAX then d * 10000 / e else u32_MAX) <=? t) = true <->
    10000 * d < (t + 1) * e) as Hdev.
  { intros d t Ht. pose proof (div_mul_le (d * 10000) e He).
    pose proof (div_lt_mul_succ (d * 10000) e He).
    rewrite N.leb_le. destruct (N.leb_spec (d * 10000 / e) u32_MAX); nia. }
  destruct (N.leb_spec e a); rewrite Hdev by done.
  - split; [intros ?; split_and!; [done|done|lia]|intros (_ & Hu & _); by apply Hu].
  - split; [intros ?; split_and!; [done|lia|done]|intros (_ & _ & Hl); by apply Hl].
Qed.

(** With the guard enabled, providers registered and a candidate for every
    order, validation succeeds and keeps one non-empty list per order: a
    placeholder list unchanged, otherwise every passing candidate in rank order,
    or only the best one marked [PriceCheckFailed] when none passes. *)
Theorem price_guard_validate_spec guard (ranked : list (list OrderQuote)) config :
  pg_enabled config = true -> providers guard <> [] -> Forall (fun cs => cs <> []) ranked ->
  exists kept, PriceGuard_validate guard ranked config = Ok kept /\
    Forall2 (fun cs ks =>
      ks <> [] /\
      match cs with
      | [] => False
      | best :: _ =>
          (oq_status best <> Success -> ks = cs) /\
          (oq_status best = Success ->
             ks = List.filter (passes guard config) cs \/
             List.filter (passes guard config) cs = [] /\
             ks = [set_status best PriceCheckFailed])
      end) ranked kept.
Proof.
  intros Hen Hprov Hne. unfold PriceGuard_validate. rewrite Hen. cbn [negb].
  destruct (providers guard) as [|p ps]; [done|].
  rewrite validate_orders_spec by done. eexists. split; [done|].
  apply Forall2_fmap_r. apply Forall_Forall2_diag.
  eapply Forall_impl; [exact Hne|]. cbn. intros cs Hcs.
  split; [by apply retained_nonempty|]. destruct cs as [|best rest]; [done|]. unfold retained.
  case_bool_decide; split; intros; try done.
  destruct (List.filter (passes guard config) (best :: rest)); [by right|by left].
Qed.
End properties.

(** An enabled guard can return more than one candidate for an order, against
    the comments of [WorkerPoolRouter::solve] and [encode_quotes] that every
    order's list then holds exactly one. *)
Theorem guard_keeps_several :
  exists kept, PriceGuard_validate
    {| providers := [fun _ _ _ => Ok {| ep_expected_amount_out := 1000; ep_source := "cex"; ep_timestamp_ms := 0 |}] |}
    [[sample_quote; set_amount_out sample_quote 990]]
    {| lower_tolerance_bps := 300; upper_tolerance_bps := 10000;
       fail_on_provider_error := false; fail_on_token_price_not_found := false;
       pg_enabled := true |} = Ok [kept] /\ length kept = 2%nat.
Proof. eexists. split; [by vm_compute|done]. Qed.

(** ** Witnesses *)

Definition sample_guard : PriceGuard :=
  {| providers := [fun _ _ _ => Ok {| ep_expected_amount_out := 1000; ep_source := "cex"; ep_timestamp_ms := 0 |}] |}.

Definition sample_guard_config : PriceGuardConfig :=
  {| lower_tolerance_bps := 300; upper_tolerance_bps := 10000;
     fail_on_provider_error := false; fail_on_token_price_not_found := false;
     pg_enabled := true |}.

Lemma price_within_tolerance_iff_witness :
  upper_tolerance_bps sample_guard_config < u32_MAX /\
  (price_within_tolerance sample_quote {| ep_expected_amount_out := 1030; ep_source := "cex"; ep_timestamp_ms := 0 |}
     sample_guard_config = true <->
   1030 <> 0 /\
   (1030 <= 1000 -> 10000 * (1000 - 1030) < (10000 + 1) * 1030) /\
   (1000 < 1030 -> 10000 * (1030 - 1000) < (300 + 1) * 1030)).
Proof.
  split; [by vm_compute|].
  apply (price_within_tolerance_iff sample_quote
    {| ep_expected_amount_out := 1030; ep_source := "cex"; ep_timestamp_ms := 0 |} sample_guard_config); by vm_compute.
Defined.

Lemma price_guard_validate_spec_witness :
  exists kept, PriceGuard_validate sample_guard [[sample_quote]] sample_guard_config = Ok kept.
Proof.
  destruct (price_guard_validate_spec sample_guard [[sample_quote]] sample_guard_config)
    as (kept & Hkept & _); [by vm_compute|done|by repeat constructor|].
  exists kept. exact Hkept.
Defined.
