(* ===== verification/Fees.v ===== *)
(** * Fees: router and client fees on the swap output

    Models [fynd-core/src/encoding/router_fees.rs] and the fee arithmetic of
    [fynd-core/src/encoding/encoder.rs]: [calculate_fees],
    [calculate_fee_breakdown], [fallback_clears_floor] and
    [fallback_clears_min_amount_out]. Fee rates are [u32], the precision and the
    scaled client fee are [u64]; their product and sum wrap as a release build
    does, and the theorems show when they cannot. *)

From stdpp Require Import prelude gmap strings list.
From Stdlib Require Import NArith ZArith Lia.
From S2P Require Import Prelude F64 Types Route Quote Samples.

Definition wrap64 (n : N) : N := n mod (u64_MAX + 1).

Lemma wrap64_small n : n <= u64_MAX -> wrap64 n = n.
Proof. intros Hn. apply N.mod_small. lia. Qed.

(** ** Rates *)

Record FeeRates := { fr_on_output : N; fr_on_client_fee : N; fr_max_fee_units : N }.

Definition fee_units_per_bps (r : FeeRates) : N := fr_max_fee_units r / LEGACY_BPS_DENOMINATOR.

Definition client_fee_units (r : FeeRates) (bps : N) : N := wrap64 (bps * fee_units_per_bps r).

Definition max_fee_units_squared (r : FeeRates) : N := fr_max_fee_units r * fr_max_fee_units r.

Record RouterFees := {
  rf_max_fee_units : N;
  rf_default_fee_on_output : N;
  rf_default_fee_on_client_fee : N;
  rf_custom_fees : gmap Bytes (N * N);
}.

Definition FALLBACK_MAX_FEE_UNITS : N := 100000000.
Definition FALLBACK_FEE_ON_OUTPUT : N := 1000.

Definition RouterFees_fallback : RouterFees := {|
  rf_max_fee_units := FALLBACK_MAX_FEE_UNITS;
  rf_default_fee_on_output := FALLBACK_FEE_ON_OUTPUT;
  rf_default_fee_on_client_fee := 0;
  rf_custom_fees := ∅;
|}.

Definition fees_for (fees : RouterFees) (client : Bytes) : FeeRates :=
  let '(on_output, on_client_fee) :=
    default (rf_default_fee_on_output fees, rf_default_fee_on_client_fee fees)
      (rf_custom_fees fees !! client) in
  {| fr_on_output := on_output; fr_on_client_fee := on_client_fee;
     fr_max_fee_units := rf_max_fee_units fees |}.

(** [EncodingError::FatalError] of [tycho_execution], the one this code builds. *)
Inductive EncodingError := FatalError (msg : string).

(** ** Fee arithmetic *)

Definition calculate_fees (swap_output client_fee_bps : N) (fee_rates : FeeRates)
    : outcome (result EncodingError (N * N)) :=
  let max_fee_units := fr_max_fee_units fee_rates in
  let scaled_client_fee := client_fee_units fee_rates client_fee_bps in
  let fee_on_output := fr_on_output fee_rates in
  let fee_on_client_fee := fr_on_client_fee fee_rates in
  if max_fee_units <=? wrap64 (scaled_client_fee + fee_on_output)
  then Ret (Err (FatalError "client fee plus router fee on output reach the fee-unit cap"))
  else if max_fee_units <? fee_on_client_fee
  then Ret (Err (FatalError "router fee on client fee exceeds the fee-unit cap"))
  else
    client_fees ←
      (if 0 <? scaled_client_fee then
         let client_fee_numerator := swap_output * scaled_client_fee in
         total_client_fee ← bdiv client_fee_numerator max_fee_units;
         router_fee_on_client ← bdiv (client_fee_numerator * fee_on_client_fee)
                                     (max_fee_units_squared fee_rates);
         client_portion ← bsub total_client_fee router_fee_on_client;
         Ret (router_fee_on_client, client_portion)
       else Ret (0, 0));
    let '(router_fee_on_client, client_portion) := client_fees in
    router_fee_on_output ← bdiv (swap_output * fee_on_output) max_fee_units;
    Ret (Ok (router_fee_on_client + router_fee_on_output, client_portion)).

(** [(slippage * 1_000_000.0) as u64]. *)
Definition slippage_units (slippage : f64) : N := F64.to_u64 (F64.mul slippage (F64.of_N 1000000)).

Definition calculate_fee_breakdown (swap_output client_fee_bps : N) (slippage : f64)
    (fee_rates : FeeRates) : outcome (result EncodingError FeeBreakdown) :=
  fees <-? calculate_fees swap_output client_fee_bps fee_rates;
  let '(router_fee, client_fee) := fees in
  after_client ← bsub swap_output client_fee;
  amount_after_fees ← bsub after_client router_fee;
  let precision := 1000000 in
  slippage_amount ← bdiv (amount_after_fees * slippage_units slippage) precision;
  min_amount_received ← bsub amount_after_fees slippage_amount;
  Ret (Ok (FeeBreakdown_new router_fee client_fee slippage_amount min_amount_received)).

Definition fallback_clears_floor (floor fallback_amount_out client_fee_bps : N)
    (fee_rates : FeeRates) : outcome (result EncodingError bool) :=
  fallback_fill <-? calculate_fee_breakdown fallback_amount_out client_fee_bps F64.zero fee_rates;
  Ret (Ok (floor <=? fb_min_amount_received fallback_fill)).

(** [impl From<EncodingError> for SolveError]. *)
Definition SolveError_from {A} (r : result EncodingError A) : result SolveError A :=
  match r with
  | Ok a => Ok a
  | Err (FatalError msg) => Err (SE_FailedEncoding msg)
  end.

Section encoder.
Context `{Tycho}.

Definition fee_client (encoding_options : EncodingOptions) (quote : OrderQuote) : Bytes :=
  match eo_client_fee_params encoding_options with
  | None => oq_sender quote
  | Some f => cfp_receiver f
  end.

Definition client_fee_bps_of (encoding_options : EncodingOptions) : N :=
  match eo_client_fee_params encoding_options with None => 0 | Some f => cfp_bps f end.

(** [fees] is the snapshot of the encoder's shared fee configuration. *)
Definition fallback_clears_min_amount_out (fees : RouterFees) (quote : OrderQuote)
    (encoding_options : EncodingOptions) : outcome (result SolveError bool) :=
  match oq_route quote ≫= rt_fallback_amount_out with
  | None => Ret (Ok true)
  | Some fallback_amount_out =>
      let client_fee_bps := client_fee_bps_of encoding_options in
      let fee_rates := fees_for fees (fee_client encoding_options quote) in
      floor <-? SolveError_from <$> calculate_fee_breakdown (oq_amount_out quote)
                  client_fee_bps (eo_slippage encoding_options) fee_rates;
      SolveError_from <$> fallback_clears_floor (fb_min_amount_received floor)
        fallback_amount_out client_fee_bps fee_rates
  end.
End encoder.

(** ** Laws *)

(** Widths of the configuration, and a client fee within 100%, as
    [EncodingOptions::validate] requires. The precision leaves room for a [u32]. *)
Record fee_widths (bps : N) (r : FeeRates) : Prop := {
  fw_bps : bps <= LEGACY_BPS_DENOMINATOR;
  fw_output : fr_on_output r <= u32_MAX;
  fw_units : fr_max_fee_units r + u32_MAX <= u64_MAX;
}.

Lemma client_fee_units_exact bps r :
  fee_widths bps r ->
  client_fee_units r bps = bps * (fr_max_fee_units r / 10000) /\
  client_fee_units r bps <= fr_max_fee_units r.
Proof.
  intros [Hb Ho Hu]. unfold client_fee_units, fee_units_per_bps, LEGACY_BPS_DENOMINATOR in *.
  pose proof (div_mul_le (fr_max_fee_units r) 10000 ltac:(done)).
  assert (bps * (fr_max_fee_units r / 10000) <= fr_max_fee_units r) by nia.
  unfold u32_MAX, u64_MAX in *. rewrite wrap64_small by (unfold u64_MAX; lia). done.
Qed.

(** The router's cut of the client fee is at most the client fee, and both
    fees together stay within the output. *)
Lemma nested_share_le S c g M : M <> 0 -> g <= M -> S * c * g / (M * M) <= S * c / M.
Proof.
  intros HM Hg. rewrite <- N.Div0.div_div.
  apply N.Div0.div_le_mono, div_le_of_le_mul; [done|nia].
Qed.

Lemma fees_within_output S c f M :
  c + f < M -> S * c / M + S * f / M <= S /\ (0 < S -> S * c / M + S * f / M < S).
Proof.
  intros Hcap. assert (M <> 0) as HM by lia.
  pose proof (div_mul_le (S * c) M HM). pose proof (div_mul_le (S * f) M HM). nia.
Qed.

(** What both fees take from an output of [S], and what is left. *)
Definition client_units (bps : N) (r : FeeRates) : N := bps * (fr_max_fee_units r / 10000).
Definition fees_on (S bps : N) (r : FeeRates) : N :=
  S * client_units bps r / fr_max_fee_units r + S * fr_on_output r / fr_max_fee_units r.

(** The two conditions under which the router accepts the rates. *)
Definition within_caps (bps : N) (r : FeeRates) : Prop :=
  client_units bps r + fr_on_output r < fr_max_fee_units r /\
  fr_on_client_fee r <= fr_max_fee_units r.

Lemma calculate_fees_ok S bps r :
  fee_widths bps r -> within_caps bps r ->
  let c := client_units bps r in
  let M := fr_max_fee_units r in
  let cut := S * c * fr_on_client_fee r / (M * M) in
  calculate_fees S bps r = Ret (Ok (cut + S * fr_on_output r / M, S * c / M - cut)).
Proof.
  intros Hw [Hcap Hg]; cbn zeta. destruct (client_fee_units_exact bps r Hw) as [Hc Hle].
  unfold calculate_fees. rewrite Hc. fold (client_units bps r) in *.
  assert (fr_max_fee_units r <> 0) as HM by lia. destruct Hw.
  rewrite wrap64_small by lia.
  rewrite (proj2 (N.leb_gt _ _) Hcap), (proj2 (N.ltb_ge _ _) Hg).
  unfold max_fee_units_squared. destruct (N.ltb_spec 0 (client_units bps r)) as [_|Hz].
  - rewrite !bdiv_nonzero by lia. cbn [mbind outcome_bind].
    rewrite bsub_ge by (by apply nested_share_le). done.
  - assert (client_units bps r = 0) as -> by lia. cbn [mbind outcome_bind].
    rewrite bdiv_nonzero by done. cbn [mbind outcome_bind].
    by rewrite N.mul_0_r, N.mul_0_l, !N.Div0.div_0_l, N.sub_0_l.
Qed.

Lemma calculate_fees_accepts S bps r :
  fee_widths bps r -> within_caps bps r ->
  exists router client, calculate_fees S bps r = Ret (Ok (router, client)) /\
    router + client = fees_on S bps r /\ fees_on S bps r <= S /\
    (0 < S -> fees_on S bps r < S).
Proof.
  intros Hw Hcaps. eexists _, _. split; [by apply calculate_fees_ok|].
  destruct Hcaps as [Hcap Hg]. pose proof (fees_within_output S _ _ _ Hcap) as [??].
  assert (fr_max_fee_units r <> 0) as HM by lia.
  pose proof (nested_share_le S (client_units bps r) _ _ HM Hg).
  unfold fees_on. lia.
Qed.

Lemma calculate_fees_rejects S bps r :
  fee_widths bps r -> ~ within_caps bps r -> exists e, calculate_fees S bps r = Ret (Err e).
Proof.
  intros Hw Hno. destruct (client_fee_units_exact bps r Hw) as [Hc Hle].
  unfold calculate_fees. rewrite Hc in *. fold (client_units bps r) in *.
  unfold within_caps in Hno. destruct Hw. rewrite wrap64_small by lia.
  destruct (N.leb_spec (fr_max_fee_units r) (client_units bps r + fr_on_output r)); [eauto|].
  destruct (N.ltb_spec (fr_max_fee_units r) (fr_on_client_fee r)); [eauto|].
  exfalso. lia.
Qed.

(** C37: with fee configurations of the declared widths, [calculate_fees] never
    panics. It accepts the rates exactly when the client fee and the router's
    output fee stay below 100% together and the router's cut of the client fee
    is at most 100%; then the router and the client together receive the two
    truncated fees, never more than the output, and strictly less when there is
    an output at all. Otherwise it returns an error. *)
Theorem calculate_fees_spec S bps r :
  fee_widths bps r ->
  (within_caps bps r ->
    exists router client, calculate_fees S bps r = Ret (Ok (router, client)) /\
      router + client = fees_on S bps r /\ fees_on S bps r <= S /\
      (0 < S -> fees_on S bps r < S)) /\
  (~ within_caps bps r -> exists e, calculate_fees S bps r = Ret (Err e)).
Proof.
  intros Hw. split; [by apply calculate_fees_accepts|by apply calculate_fees_rejects].
Qed.

Definition sample_rates : FeeRates :=
  {| fr_on_output := 1000; fr_on_client_fee := 20000000; fr_max_fee_units := 100000000 |}.

Lemma sample_widths : fee_widths 30 sample_rates.
Proof. by split; vm_compute. Qed.

Lemma calculate_fees_spec_witness :
  exists router client, calculate_fees 1000000 30 sample_rates = Ret (Ok (router, client)) /\
    router + client = 3010.
Proof.
  destruct (calculate_fees_spec 1000000 30 sample_rates sample_widths) as [Hok _].
  destruct Hok as (router & client & H1 & H2 & _); [by vm_compute|].
  exists router, client. split; [exact H1|]. exact H2.
Defined.

(** The breakdown, for a slippage of at most 100%. *)
Lemma calculate_fee_breakdown_ok S bps slippage r :
  fee_widths bps r -> within_caps bps r -> slippage_units slippage <= 1000000 ->
  exists fb, calculate_fee_breakdown S bps slippage r = Ret (Ok fb) /\
    fb_router_fee fb + fb_client_fee fb = fees_on S bps r /\
    fb_max_slippage fb = (S - fees_on S bps r) * slippage_units slippage / 1000000 /\
    fb_min_amount_received fb = S - fees_on S bps r - fb_max_slippage fb /\
    fees_on S bps r <= S /\ fb_max_slippage fb <= S - fees_on S bps r.
Proof.
  intros Hw Hcaps Hs. unfold calculate_fee_breakdown.
  destruct (calculate_fees_accepts S bps r Hw Hcaps)
    as (router & client & -> & Hsum & Hle & _). cbn [try_bind].
  rewrite bsub_ge by lia. cbn [mbind outcome_bind].
  rewrite (bsub_ge (S - client)) by lia. cbn [mbind outcome_bind].
  rewrite bdiv_nonzero by done. cbn [mbind outcome_bind].
  replace (S - client - router) with (S - fees_on S bps r) by lia.
  assert ((S - fees_on S bps r) * slippage_units slippage / 1000000 <= S - fees_on S bps r).
  { apply div_le_of_le_mul; [done|nia]. }
  rewrite bsub_ge by done. eexists. split; [done|]. cbn. lia.
Qed.

(** Without the caps the breakdown is an error, never a panic. *)
Lemma calculate_fee_breakdown_no_panic S bps slippage r :
  fee_widths bps r -> slippage_units slippage <= 1000000 ->
  calculate_fee_breakdown S bps slippage r <> Panic.
Proof.
  intros Hw Hs. destruct (N.lt_decidable (client_units bps r + fr_on_output r) (fr_max_fee_units r));
    [destruct (N.le_decidable (fr_on_client_fee r) (fr_max_fee_units r))|].
  1: by destruct (calculate_fee_breakdown_ok S bps slippage r) as (fb & -> & _).
  all: unfold calculate_fee_breakdown; destruct (calculate_fees_rejects S bps r) as [e ->]; try done;
    by intros [? ?].
Qed.

Lemma fallback_clears_no_panic `{Tycho} fees quote opts :
  fee_widths (client_fee_bps_of opts) (fees_for fees (fee_client opts quote)) ->
  slippage_units (eo_slippage opts) <= 1000000 ->
  fallback_clears_min_amount_out fees quote opts <> Panic.
Proof.
  intros Hw Hs. unfold fallback_clears_min_amount_out, fallback_clears_floor.
  destruct (oq_route quote ≫= rt_fallback_amount_out) as [fb|]; [|done].
  pose proof (calculate_fee_breakdown_no_panic (oq_amount_out quote) _ _ _ Hw Hs).
  pose proof (calculate_fee_breakdown_no_panic fb _ F64.zero _ Hw ltac:(by vm_compute)).
  destruct (calculate_fee_breakdown (oq_amount_out quote) _ _ _) as [[b|[msg]]|];
    cbn [fmap outcome_fmap SolveError_from try_bind]; try done.
  destruct (calculate_fee_breakdown fb _ _ _) as [[b'|[msg]]|];
    cbn [fmap outcome_fmap SolveError_from try_bind]; done.
Qed.

(** For rates within the caps and a slippage of at most 100%, the fee
    breakdown always exists and accounts for the whole output: router fee,
    client fee, slippage allowance and minimum received amount add up to it, so
    no subtraction underflows and the minimum never exceeds the output. *)
Theorem fee_breakdown_conserves S bps slippage r :
  fee_widths bps r -> within_caps bps r -> slippage_units slippage <= 1000000 ->
  exists fb, calculate_fee_breakdown S bps slippage r = Ret (Ok fb) /\
    fb_router_fee fb + fb_client_fee fb + fb_max_slippage fb + fb_min_amount_received fb = S.
Proof.
  intros Hw Hcaps Hs.
  destruct (calculate_fee_breakdown_ok S bps slippage r Hw Hcaps Hs) as (fb & Heq & Hfb).
  exists fb. split; [done|]. lia.
Qed.

(** Half a percent, [0.005], the closest binary64 value. *)
Definition half_percent : f64 := F64.div (F64.of_N 5) (F64.of_N 1000).

Lemma fee_breakdown_conserves_witness :
  exists fb, calculate_fee_breakdown 1000000 30 half_percent sample_rates = Ret (Ok fb) /\
    fb_router_fee fb + fb_client_fee fb + fb_max_slippage fb + fb_min_amount_received fb
    = 1000000.
Proof.
  apply (fee_breakdown_conserves 1000000 30 half_percent sample_rates sample_widths);
    by vm_compute.
Defined.

(** The decision on a fallback route. For rates within the caps and a
    slippage of at most 100%, [fallback_clears_min_amount_out] never fails, and
    it says yes exactly when the fallback's output after fees reaches the
    minimum the swap's calldata will enforce: the quoted output after fees, less
    the slippage allowance. A quote with no fallback always passes. *)
Theorem fallback_decision `{Tycho} fees quote opts :
  let r := fees_for fees (fee_client opts quote) in
  let bps := client_fee_bps_of opts in
  let net S := S - fees_on S bps r in
  let floor := net (oq_amount_out quote)
               - net (oq_amount_out quote) * slippage_units (eo_slippage opts) / 1000000 in
  fee_widths bps r -> within_caps bps r -> slippage_units (eo_slippage opts) <= 1000000 ->
  fallback_clears_min_amount_out fees quote opts
  = Ret (Ok (match oq_route quote ≫= rt_fallback_amount_out with
             | None => true
             | Some fallback => floor <=? net fallback
             end)).
Proof.
  cbn zeta. set (r := fees_for fees _). set (bps := client_fee_bps_of opts).
  intros Hw Hcaps Hs. unfold fallback_clears_min_amount_out. fold r bps.
  destruct (oq_route quote ≫= rt_fallback_amount_out) as [fallback|]; [|done].
  destruct (calculate_fee_breakdown_ok (oq_amount_out quote) bps _ r Hw Hcaps Hs)
    as (fb & -> & _ & Hslip & Hmin & _). cbn [fmap outcome_fmap SolveError_from try_bind].
  unfold fallback_clears_floor.
  destruct (calculate_fee_breakdown_ok fallback bps F64.zero r Hw Hcaps)
    as (ff & -> & _ & Hslip' & Hmin' & _); [by vm_compute|].
  cbn [fmap outcome_fmap SolveError_from try_bind]. do 3 f_equal; [by rewrite Hmin, Hslip|].
  assert (fb_max_slippage ff = 0) as Hz; [|by rewrite Hmin', Hz, N.sub_0_r].
  rewrite Hslip'. change (slippage_units F64.zero) with 0. by rewrite N.mul_0_r.
Qed.

Definition fallback_quote : @OrderQuote Sample.tycho :=
  @set_route Sample.tycho sample_quote
    (Some {| rt_swaps := @rt_swaps Sample.tycho Sample.chain;
       rt_tokens := @rt_tokens Sample.tycho Sample.chain;
       rt_fallback_amount_out := Some 995 |}).

Definition sample_options : @EncodingOptions Sample.tycho :=
  @Build_EncodingOptions Sample.tycho half_percent (tt : @UserTransferType Sample.tycho)
    None PriceGuardConfig_default false.

Lemma fallback_decision_witness :
  @fallback_clears_min_amount_out Sample.tycho RouterFees_fallback fallback_quote sample_options
  = Ret (Ok true).
Proof.
  rewrite (@fallback_decision Sample.tycho RouterFees_fallback fallback_quote sample_options);
    [by vm_compute|by split; vm_compute|by vm_compute|by vm_compute].
Defined.
