(* ===== verification/Ranking.v ===== *)
(** * Ranking: one ranked list of candidates per order

    Models the ranking half of [fynd-core/src/worker_pool_router/mod.rs]: gas
    refinement, the check of proprietary-AMM fallbacks, [rank_quotes] with the
    cause a placeholder reports, and the overlay of an exclusive candidate on the
    public ranking ([combine_with_surplus]). The conversion of a quote to an
    encoder solution and the gas estimator are [tycho_execution] code: they are
    parameters. Counters and log lines are left out. *)

From stdpp Require Import prelude gmap strings list sorting.
From Stdlib Require Import NArith ZArith Lia.
From S2P Require Import Prelude F64 Types Route Amounts Quote Exclusive.
From S2P Require Import Allocation Fees.

Record WorkerPoolQuote `{Tycho} := {
  wq_worker_pool : string;
  wq_quote : OrderQuote;
  wq_solve_time_ms : N;
}.

Record OrderResponses `{Tycho} := {
  or_order_id : string;
  or_quotes : list WorkerPoolQuote;
  or_failed_solvers : list (string * SolveError);
}.

(** ** The cause of an answer without a route *)

Definition cause_tier (error : SolveError) : N :=
  match error with
  | SE_NoRouteFound _ (Some reason) =>
      match reason with
      | SourceTokenNotInGraph | DestinationTokenNotInGraph => 0
      | AmountTooSmall => 1
      | NoScorablePaths => 2
      | NoGraphPath => 3
      end
  | SE_RouteRejected _ _ => 1
  | SE_InsufficientLiquidity _ _ | SE_MaxGasExceeded => 2
  | SE_MissingData _ | SE_MarketDataStale _ | SE_ComputationFailed _ | SE_NotReady _ => 3
  | SE_SimulationFailed _ | SE_AlgorithmError _ => 4
  | SE_Timeout _ | SE_QueueFull | SE_Internal _ | SE_InvalidWorkerPools _ | SE_InvalidOrder _
  | SE_FailedEncoding _ | SE_EncodingUnavailable _ | SE_PriceCheckFailed _ => 5
  | SE_NoRouteFound _ None => 6
  | SE_RequiredTokensNotSupported => 7
  end.

Definition lowest_tier_cause (causes : list SolveError) : option SolveError :=
  min_by_key cause_tier causes.

Definition aggregate_no_route_cause (failed_solvers : list (string * SolveError))
    : option SolveError := lowest_tier_cause failed_solvers.*2.

Definition is_timeout (e : SolveError) : bool :=
  match e with SE_Timeout _ => true | _ => false end.
Definition is_not_ready (e : SolveError) : bool :=
  match e with SE_NotReady _ => true | _ => false end.

Inductive Strategy := Single | Sequential | Split.

Section ranking.
Context `{Tycho}.
Implicit Types (q : OrderQuote) (wq : WorkerPoolQuote) (responses : OrderResponses)
  (options : QuoteOptions) (scopes : gmap string LiquidityScope).

Definition net_of q : N := oq_amount_out_net_gas q.
Definition wq_net wq : N := net_of (wq_quote wq).

Definition set_wq_quote wq q : WorkerPoolQuote := {|
  wq_worker_pool := wq_worker_pool wq;
  wq_quote := q;
  wq_solve_time_ms := wq_solve_time_ms wq |}.

Definition set_or_quotes responses (quotes : list WorkerPoolQuote) : OrderResponses := {|
  or_order_id := or_order_id responses;
  or_quotes := quotes;
  or_failed_solvers := or_failed_solvers responses |}.

Definition public_only scopes responses : OrderResponses :=
  set_or_quotes responses
    (List.filter (fun wq => negb (bool_decide (scopes !! wq_worker_pool wq = Some IncludeExclusive)))
       (or_quotes responses)).

(** ** Ranking *)

Definition within_max_gas options q : bool :=
  match qo_max_gas options with Some max => oq_gas_estimate q <=? max | None => true end.

Definition is_rankable options q : bool :=
  bool_decide (oq_status q = Success) && within_max_gas options q.

(** The answer built from a response that cannot be ranked. *)
Definition unranked_placeholder responses options (any_q : OrderQuote) : OrderQuote :=
  let fallback :=
    OrderQuote_new (or_order_id responses) NoRouteFound (oq_amount_in any_q) 0 0 0
      (oq_block any_q) "" (oq_sender any_q) (oq_receiver any_q) (oq_solved_against any_q) in
  let over_max_gas :=
    existsb (fun wq => match qo_max_gas options with
                       | Some max => max <? oq_gas_estimate (wq_quote wq)
                       | None => false
                       end) (or_quotes responses) in
  let max_gas_cause := if over_max_gas then [SE_MaxGasExceeded] else [] in
  let causes :=
    omap (fun wq => oq_no_route_cause (wq_quote wq)) (or_quotes responses)
    ++ (or_failed_solvers responses).*2 ++ max_gas_cause in
  set_no_route_cause fallback (lowest_tier_cause causes).

(** The answer when no pool returned a quote. *)
Definition failed_status (failed_solvers : list (string * SolveError)) : QuoteStatus :=
  match failed_solvers with
  | [] => NoRouteFound
  | _ =>
      if forallb (fun f => is_timeout f.2) failed_solvers then Timeout
      else if forallb (fun f => is_not_ready f.2) failed_solvers then NotReady
      else NoRouteFound
  end.

Definition failed_placeholder responses options : OrderQuote :=
  let label := default "0"%string (qo_state_label options) in
  set_no_route_cause
    (OrderQuote_new (or_order_id responses) (failed_status (or_failed_solvers responses)) 0 0 0 0
       {| block_number := 0; block_hash := ""; block_timestamp := 0 |} "" "" "" label)
    (aggregate_no_route_cause (or_failed_solvers responses)).

Definition rank_quotes responses options : list OrderQuote :=
  let valid_quotes :=
    sort_desc wq_net
      (List.filter (fun wq => is_rankable options (wq_quote wq)) (or_quotes responses)) in
  match valid_quotes with
  | _ :: _ => wq_quote <$> valid_quotes
  | [] =>
      [match or_quotes responses with
       | any :: _ => unranked_placeholder responses options (wq_quote any)
       | [] => failed_placeholder responses options
       end]
  end.

(** ** The exclusive overlay *)

Definition has_valid_exclusive_route q : outcome bool :=
  match oq_route q with
  | None => Ret false
  | Some route =>
      match output_token route with
      | None => Ret false
      | Some output_token =>
          shape ← exclusive_route_shape (rt_swaps route) output_token;
          Ret (match shape with Valid => true | _ => false end)
      end
  end.

(** [Iterator::filter] with a panicking predicate. *)
Fixpoint filter_valid_routes (quotes : list WorkerPoolQuote) : outcome (list WorkerPoolQuote) :=
  match quotes with
  | [] => Ret []
  | wq :: rest =>
      valid ← has_valid_exclusive_route (wq_quote wq);
      rest' ← filter_valid_routes rest;
      Ret (if (valid : bool) then wq :: rest' else rest')
  end.

Definition best_exclusive_candidate responses scopes options : outcome (option OrderQuote) :=
  candidates ← filter_valid_routes
    (List.filter (fun wq => within_max_gas options (wq_quote wq))
      (List.filter (fun wq => bool_decide (oq_status (wq_quote wq) = Success))
        (List.filter (fun wq => bool_decide (scopes !! wq_worker_pool wq = Some IncludeExclusive))
          (or_quotes responses))));
  Ret (wq_quote <$> max_by_N wq_net candidates).

Definition NO_PUBLIC_ROUTE_FEE_BPS : N := 5.

Definition default_fee_commitment q : outcome (option N) :=
  match oq_route q with
  | None => Ret None
  | Some route =>
      match find_first is_exclusive_leg (rt_swaps route), output_token route with
      | Some leg, Some out =>
          output ← leg_route_output (rt_swaps route) leg out;
          match output with
          | None => Ret None
          | Some (numerator, denominator) =>
              leg_amount ← bdiv numerator denominator;
              let fee := bps.scale_truncating leg_amount NO_PUBLIC_ROUTE_FEE_BPS in
              committed_amount_out ← bsub (oq_amount_out q) fee;
              gas_cost ← bsub (oq_amount_out q) (oq_amount_out_net_gas q);
              if committed_amount_out <=? gas_cost then Ret None
              else Ret (Some committed_amount_out)
          end
      | _, _ => Ret None
      end
  end.

Definition is_public_reference q : bool :=
  bool_decide (oq_status q = Success) &&
  match oq_route q with
  | None => false
  | Some route => negb (routes_through_exclusive (rt_swaps route))
  end.

Definition find_public_reference (ranked : list OrderQuote) : option OrderQuote :=
  find_first is_public_reference ranked.

(** The position of the pinned quote: before the first entry with an equal or lower net. *)
Definition insert_pinned (public_ranked : list OrderQuote) (pinned : OrderQuote)
    : outcome (list OrderQuote) :=
  let position :=
    default (length public_ranked)
      (position (fun q => net_of q <=? net_of pinned) public_ranked) in
  vec_insert position pinned public_ranked.

Definition combine_with_surplus responses scopes options (public_ranked : list OrderQuote)
    (user_share_bps : N) : outcome (list OrderQuote) :=
  candidate ← best_exclusive_candidate responses scopes options;
  match candidate with
  | None => Ret public_ranked
  | Some exclusive_candidate =>
      let public_reference := find_public_reference public_ranked in
      commitment ←
        (match public_reference with
         | Some public_reference =>
             matched_commitment (RouteOutput_from_quote public_reference)
               (RouteOutput_from_quote exclusive_candidate) user_share_bps
         | None => default_fee_commitment exclusive_candidate
         end);
      match commitment with
      | None => Ret public_ranked
      | Some committed_amount_out =>
          _ ← (match public_reference with
               | Some r => bsub committed_amount_out (oq_amount_out r)
               | None => Ret 0
               end);
          pinned ← pin_commitment exclusive_candidate committed_amount_out;
          insert_pinned public_ranked pinned
      end
  end.

(** ** Refinement before ranking *)

Definition derive_strategy q : Strategy :=
  match oq_route q with
  | None => Single
  | Some route =>
      if (length (rt_swaps route) =? 1)%nat then Single
      else if existsb (fun s => F64.gtb (sw_split s) F64.zero) (rt_swaps route) then Split
      else Sequential
  end.

(** [Solution::try_from] with the transfer type, and [estimate_gas_usage]. *)
Context {Solution : Type}
  (solution_of : OrderQuote -> UserTransferType -> result SolveError Solution)
  (estimate_gas_usage : Solution -> Strategy -> N).

Definition refine_quote (encoding_options : EncodingOptions) q
    : outcome (result SolveError OrderQuote) :=
  if negb (bool_decide (oq_status q = Success)) then Ret (Ok q)
  else
    solution <-? Ret (solution_of q (eo_transfer_type encoding_options));
    let refined_gas := estimate_gas_usage solution (derive_strategy q) in
    let naive_gas := oq_gas_estimate q in
    if 0 <? naive_gas then
      new_net ← refined_net_amount_out (oq_amount_out q) (oq_amount_out_net_gas q)
                  refined_gas naive_gas;
      Ret (Ok (set_gas_estimate (set_amount_out_net_gas q new_net) refined_gas))
    else Ret (Ok q).

(** A pass over every quote of every order that may fail. *)
Fixpoint map_quotes (f : OrderQuote -> outcome (result SolveError OrderQuote))
    (quotes : list WorkerPoolQuote) : outcome (result SolveError (list WorkerPoolQuote)) :=
  match quotes with
  | [] => Ret (Ok [])
  | wq :: rest =>
      q <-? f (wq_quote wq);
      rest' <-? map_quotes f rest;
      Ret (Ok (set_wq_quote wq q :: rest'))
  end.

Fixpoint map_responses (f : OrderQuote -> outcome (result SolveError OrderQuote))
    (all : list OrderResponses) : outcome (result SolveError (list OrderResponses)) :=
  match all with
  | [] => Ret (Ok [])
  | responses :: rest =>
      quotes <-? map_quotes f (or_quotes responses);
      rest' <-? map_responses f rest;
      Ret (Ok (set_or_quotes responses quotes :: rest'))
  end.

Definition refine_gas_estimates (order_responses : list OrderResponses)
    (encoding_options : EncodingOptions) : outcome (result SolveError (list OrderResponses)) :=
  map_responses (refine_quote encoding_options) order_responses.

Definition check_fallback_quote (fees : RouterFees) (encoding_options : EncodingOptions) q
    : outcome (result SolveError OrderQuote) :=
  if negb (bool_decide (oq_status q = Success)) then Ret (Ok q)
  else
    match oq_route q ≫= rt_fallback_amount_out with
    | None => Ret (Ok q)
    | Some _ =>
        clears <-? fallback_clears_min_amount_out fees q encoding_options;
        if (clears : bool) then Ret (Ok q)
        else
          Ret (Ok (set_no_route_cause (set_status q NoRouteFound)
                     (Some (SE_RouteRejected (oq_order_id q) FallbackBelowMinAmountOut))))
    end.

Definition drop_pamm_quotes_below_min_amount_out (fees : RouterFees)
    (order_responses : list OrderResponses) (encoding_options : EncodingOptions)
    : outcome (result SolveError (list OrderResponses)) :=
  map_responses (check_fallback_quote fees encoding_options) order_responses.
End ranking.
