(* ===== verification/RankingProofs.v ===== *)
(** * RankingProofs: what a ranked list of candidates guarantees

    The laws of [Ranking]: the ranked list is never empty, is sorted by net output
    and holds the rankable quotes only; a placeholder reports the most specific
    cause; the exclusive overlay keeps the public ranking and never makes the user
    worse off than the public reference; the passes before ranking keep the
    net-output invariant and drop the quotes whose fallback misses the minimum. *)

From stdpp Require Import prelude gmap strings list sorting.
From Stdlib Require Import NArith ZArith Lia.
From S2P Require Import Prelude F64 Types Route Amounts Quote Exclusive.
From S2P Require Import Allocation Fees Ranking Samples.

Section laws.
Context `{Tycho}.
Implicit Types (q : OrderQuote) (wq : WorkerPoolQuote) (responses : OrderResponses)
  (options : QuoteOptions) (scopes : gmap string LiquidityScope).

Definition rankable_quotes responses options : list WorkerPoolQuote :=
  List.filter (fun wq => is_rankable options (wq_quote wq)) (or_quotes responses).

Definition ranking_order : relation OrderQuote := ranked_by net_of.

Lemma sorted_fmap_quotes (l : list WorkerPoolQuote) :
  StronglySorted (ranked_by wq_net) l -> StronglySorted ranking_order (wq_quote <$> l).
Proof.
  induction 1 as [|wq l Hs IH Hall]; cbn; constructor; [done|]. by apply Forall_fmap.
Qed.

Lemma filter_fmap_quotes (p : OrderQuote -> bool) (l : list WorkerPoolQuote) :
  List.filter p (wq_quote <$> l) = wq_quote <$> List.filter (fun wq => p (wq_quote wq)) l.
Proof. induction l as [|wq l IH]; cbn; [done|]. destruct (p _); cbn; by rewrite IH. Qed.

Lemma sort_desc_nil {A} (key : A -> N) l : sort_desc key l = [] <-> l = [].
Proof.
  split; [|by intros ->]. intros Hs. pose proof (sort_desc_perm key l) as Hp.
  rewrite Hs in Hp. by apply Permutation_nil_l in Hp.
Qed.

Lemma rank_quotes_ranked responses options :
  rankable_quotes responses options <> [] ->
  rank_quotes responses options
  = wq_quote <$> sort_desc wq_net (rankable_quotes responses options).
Proof.
  intros Hne. unfold rank_quotes. fold (rankable_quotes responses options).
  destruct (sort_desc wq_net _) eqn:Hs; [|done]. by apply sort_desc_nil in Hs.
Qed.

Lemma rank_quotes_placeholder responses options :
  rankable_quotes responses options = [] ->
  rank_quotes responses options
  = [match or_quotes responses with
     | any :: _ => unranked_placeholder responses options (wq_quote any)
     | [] => failed_placeholder responses options
     end].
Proof. intros Hnil. unfold rank_quotes. fold (rankable_quotes responses options). by rewrite Hnil. Qed.

Lemma failed_status_not_success failed : failed_status failed <> Success.
Proof. unfold failed_status. destruct failed; [done|]. by repeat case_match. Qed.

Lemma placeholder_fields responses options :
  rankable_quotes responses options = [] ->
  exists p, rank_quotes responses options = [p] /\ oq_status p <> Success /\
    oq_route p = None /\ oq_amount_out p = 0 /\ oq_amount_out_net_gas p = 0 /\
    oq_order_id p = or_order_id responses.
Proof.
  intros Hnil. rewrite (rank_quotes_placeholder _ _ Hnil). eexists. split; [done|].
  destruct (or_quotes responses); cbn; split_and!; try done. apply failed_status_not_success.
Qed.

Lemma rank_quotes_sorted responses options :
  StronglySorted ranking_order (rank_quotes responses options).
Proof.
  destruct (decide (rankable_quotes responses options = [])) as [Hnil|Hne].
  - destruct (placeholder_fields _ _ Hnil) as (p & -> & _). repeat constructor.
  - rewrite rank_quotes_ranked by done. apply sorted_fmap_quotes, sort_desc_sorted.
Qed.

Lemma elem_of_rank_quotes responses options q :
  q ∈ rank_quotes responses options -> oq_status q = Success ->
  exists wq, wq ∈ or_quotes responses /\ wq_quote wq = q /\ is_rankable options q = true.
Proof.
  intros Hq Hs. destruct (decide (rankable_quotes responses options = [])) as [Hnil|Hne].
  - destruct (placeholder_fields _ _ Hnil) as (p & Hp & Hst & _). rewrite Hp in Hq.
    apply list_elem_of_singleton in Hq. by subst.
  - rewrite rank_quotes_ranked in Hq by done. apply list_elem_of_fmap in Hq as (wq & -> & Hin).
    rewrite sort_desc_perm in Hin. apply elem_of_filterb in Hin as [??]. by exists wq.
Qed.
End laws.

(** The ranking of an order is never empty. When some quote succeeded within the
    request's gas limit it is exactly those quotes, by decreasing net output, quotes
    of equal net in the order they arrived. Otherwise it is one placeholder for the
    order: not successful, without route and with zero output. *)
Theorem rank_quotes_spec `{Tycho} (responses : OrderResponses) (options : QuoteOptions) :
  let ranked := rank_quotes responses options in
  let valid := wq_quote <$> rankable_quotes responses options in
  ranked <> [] /\ StronglySorted ranking_order ranked /\
  (valid <> [] -> ranked ≡ₚ valid /\
     forall net, List.filter (fun q => net_of q =? net) ranked
               = List.filter (fun q => net_of q =? net) valid) /\
  (valid = [] -> exists p, ranked = [p] /\ oq_status p <> Success /\ oq_route p = None /\
     oq_amount_out p = 0 /\ oq_amount_out_net_gas p = 0 /\ oq_order_id p = or_order_id responses).
Proof.
  cbn zeta. destruct (decide (rankable_quotes responses options = [])) as [Hnil|Hne].
  - rewrite Hnil. destruct (placeholder_fields _ _ Hnil) as (p & Hp & Hrest).
    split_and!; [by rewrite Hp|apply rank_quotes_sorted|done|by exists p].
  - pose proof (rank_quotes_ranked _ _ Hne) as Heq.
    split_and!; [|apply rank_quotes_sorted| |by intros ?%fmap_nil_inv].
    + rewrite Heq. intros ?%fmap_nil_inv%sort_desc_nil. done.
    + intros _. rewrite Heq. split; [apply fmap_Permutation, sort_desc_perm|].
      intros net. rewrite !filter_fmap_quotes. f_equal. apply (sort_desc_stable wq_net).
Qed.

(** When no pool returned a quote, the placeholder says [Timeout] exactly when
    every pool timed out (and one did), and its cause is the first failure of the
    most specific tier: no failure has a lower tier and none before it an equal one. *)
Theorem failed_placeholder_cause `{Tycho} (responses : OrderResponses) (options : QuoteOptions) :
  let p := failed_placeholder responses options in
  let errors := (or_failed_solvers responses).*2 in
  (oq_status p = Timeout <-> errors <> [] /\ forall e, e ∈ errors -> is_timeout e = true) /\
  match oq_no_route_cause p with
  | None => errors = []
  | Some cause => exists before after, errors = before ++ cause :: after /\
      (forall e, e ∈ before -> cause_tier cause < cause_tier e) /\
      (forall e, e ∈ after -> cause_tier cause <= cause_tier e)
  end.
Proof.
  cbn zeta. split.
  - cbn. set (failed := or_failed_solvers responses). unfold failed_status.
    transitivity (failed <> [] /\ forallb (fun f => is_timeout f.2) failed = true).
    + destruct failed as [|f fs]; [by split; [|intros [??]]|].
      destruct (forallb (fun f => is_timeout f.2) (f :: fs)); [by split|].
      split; [by case_match|by intros [??]].
    + rewrite forallb_forall. setoid_rewrite <- list_elem_of_In.
      setoid_rewrite list_elem_of_fmap. split; intros [Hne Hall]; split.
      * by intros ?%fmap_nil_inv.
      * intros e (f & -> & Hf). by apply Hall.
      * by intros ->.
      * intros f Hf. apply Hall. by exists f.
  - cbn. apply min_by_key_spec.
Qed.

(** ** The exclusive overlay *)

Section overlay.
Context `{Tycho}.
Implicit Types (q : OrderQuote) (wq : WorkerPoolQuote) (responses : OrderResponses)
  (options : QuoteOptions) (scopes : gmap string LiquidityScope).

(** What an algorithm promises about a candidate: its gas is paid from its
    output, every swap consumes something, and no exclusive leg produces more
    of the output token than the route does. *)
Record candidate_ok q : Prop := {
  co_net : quote_net_ok q;
  co_inputs : forall r, oq_route q = Some r -> nothing_for_nothing (rt_swaps r);
  co_leg : forall r leg out n d, oq_route q = Some r -> leg ∈ rt_swaps r ->
    output_token r = Some out -> leg_route_output (rt_swaps r) leg out = Ret (Some (n, d)) -> n / d <= oq_amount_out q;
}.

Lemma has_valid_exclusive_route_total q : exists b, has_valid_exclusive_route q = Ret b.
Proof.
  unfold has_valid_exclusive_route. destruct (oq_route q) as [r|]; [|eauto].
  destruct (output_token r) as [out|]; [|eauto]. unfold exclusive_route_shape.
  destruct (List.filter _ _) as [|leg [|? ?]]; cbn; [eauto| |eauto].
  pose proof (leg_route_output_total (rt_swaps r) leg out).
  destruct (leg_route_output _ _ _); cbn; [eauto|done].
Qed.

Lemma filter_valid_routes_total (quotes : list WorkerPoolQuote) :
  exists kept, filter_valid_routes quotes = Ret kept /\ forall wq, wq ∈ kept <->
    wq ∈ quotes /\ has_valid_exclusive_route (wq_quote wq) = Ret true.
Proof.
  induction quotes as [|wq quotes (kept & Hk & IH)]; cbn.
  { exists []. split; [done|]. set_solver. }
  destruct (has_valid_exclusive_route_total (wq_quote wq)) as [b Hb]. rewrite Hb, Hk. cbn.
  eexists. split; [done|]. intros wq'. destruct b; rewrite !elem_of_cons, IH.
  - split; [intros [->|[??]]; auto|intros [[->|?] ?]; auto].
  - split; [intros [??]; auto|intros [[->|?] ?]; [congruence|auto]].
Qed.

(** The quotes the overlay may choose from. *)
Definition exclusive_candidate responses scopes options wq : Prop :=
  wq ∈ or_quotes responses /\ scopes !! wq_worker_pool wq = Some IncludeExclusive /\
  is_rankable options (wq_quote wq) = true /\ has_valid_exclusive_route (wq_quote wq) = Ret true.

Lemma best_exclusive_candidate_spec responses scopes options :
  exists best, best_exclusive_candidate responses scopes options = Ret best /\
  match best with
  | None => forall wq, ~ exclusive_candidate responses scopes options wq
  | Some c => exists wq, wq_quote wq = c /\ exclusive_candidate responses scopes options wq /\
      forall wq', exclusive_candidate responses scopes options wq' -> wq_net wq' <= net_of c
  end.
Proof.
  unfold best_exclusive_candidate.
  match goal with |- context [filter_valid_routes ?l] =>
    destruct (filter_valid_routes_total l) as (kept & -> & Hkept) end.
  cbn [mbind outcome_bind]. eexists. split; [done|].
  assert (forall wq, wq ∈ kept <-> exclusive_candidate responses scopes options wq) as Hmem.
  { intros wq. rewrite Hkept, !elem_of_filterb. unfold exclusive_candidate, is_rankable.
    rewrite andb_true_iff, !bool_decide_eq_true. tauto. }
  pose proof (max_by_N_spec wq_net kept) as Hmax. destruct (max_by_N wq_net kept) as [m|]; cbn.
  - destruct Hmax as [Hin Hle]. exists m. split_and!; [done|by apply Hmem|].
    intros wq' Hwq'. by apply Hle, Hmem.
  - subst. intros wq Hwq. by apply Hmem, not_elem_of_nil in Hwq.
Qed.

Lemma default_fee_commitment_bounds q :
  candidate_ok q ->
  exists c, default_fee_commitment q = Ret c /\
  forall committed, c = Some committed ->
    committed <= oq_amount_out q /\
    oq_amount_out q - oq_amount_out_net_gas q < committed /\
    bps.DENOMINATOR * (oq_amount_out q - committed) <= NO_PUBLIC_ROUTE_FEE_BPS * oq_amount_out q.
Proof.
  intros [Hnet Hpos Hleg]. unfold default_fee_commitment.
  destruct (oq_route q) as [r|] eqn:Hr; [|eauto with congruence].
  destruct (find_first is_exclusive_leg (rt_swaps r)) as [leg|] eqn:Hf; [|eauto with congruence].
  destruct (output_token r) as [out|] eqn:Ho; [|eauto with congruence].
  apply find_first_Some in Hf as [Hin _].
  pose proof (leg_route_output_total (rt_swaps r) leg out).
  destruct (leg_route_output (rt_swaps r) leg out) as [[[n d]|]|] eqn:Hlo; cbn [mbind outcome_bind];
    [|eauto with congruence|done].
  specialize (Hleg r leg out n d eq_refl Hin Ho Hlo).
  apply leg_route_output_den in Hlo; [|by apply Hpos].
  rewrite bdiv_nonzero by done. cbn [mbind outcome_bind].
  set (fee := bps.scale_truncating _ _).
  assert (bps.DENOMINATOR * fee <= NO_PUBLIC_ROUTE_FEE_BPS * oq_amount_out q) as Hfee.
  { unfold fee, bps.scale_truncating.
    etransitivity; [by apply div_mul_le|]. rewrite N.mul_comm. by apply N.mul_le_mono_l. }
  assert (fee <= oq_amount_out q) by (unfold bps.DENOMINATOR, NO_PUBLIC_ROUTE_FEE_BPS in *; lia).
  rewrite (bsub_ge _ fee) by done. cbn [mbind outcome_bind].
  rewrite (bsub_ge _ (oq_amount_out_net_gas q)) by done. cbn [mbind outcome_bind].
  destruct (N.leb_spec (oq_amount_out q - fee) (oq_amount_out q - oq_amount_out_net_gas q)).
  - eauto with congruence.
  - eexists. split; [done|]. intros ? [= <-].
    replace (oq_amount_out q - (oq_amount_out q - fee)) with fee by lia. lia.
Qed.

Lemma ranked_insert (l1 l2 : list OrderQuote) p :
  StronglySorted ranking_order (l1 ++ l2) -> (forall q, q ∈ l1 -> net_of p <= net_of q) ->
  (forall q, head l2 = Some q -> net_of q <= net_of p) ->
  StronglySorted ranking_order (l1 ++ p :: l2).
Proof.
  induction l1 as [|q l1 IH]; cbn; intros Hs Hhi Hlo.
  - constructor; [done|]. destruct l2 as [|q l2]; [constructor|].
    apply StronglySorted_inv in Hs as [_ Hall]. specialize (Hlo q ltac:(done)).
    constructor; [done|]. eapply Forall_impl; [exact Hall|].
    unfold ranking_order, ranked_by. lia.
  - apply StronglySorted_inv in Hs as [Hs Hall]. rewrite Forall_app in Hall.
    constructor; [apply IH; [done| |done]; intros; apply Hhi; by right|].
    destruct Hall as [Hall1 Hall2]. apply Forall_app. split; [done|].
    constructor; [apply Hhi; left|done].
Qed.

(** The pinned quote is inserted into the public ranking, which is otherwise
    unchanged; only quotes that net more stay before it. *)
Lemma insert_pinned_spec (ranked : list OrderQuote) p :
  exists before after, insert_pinned ranked p = Ret (before ++ p :: after) /\
    ranked = before ++ after /\ (forall q, q ∈ before -> net_of p < net_of q) /\
    (StronglySorted ranking_order ranked -> StronglySorted ranking_order (before ++ p :: after)).
Proof.
  unfold insert_pinned, vec_insert. set (test := fun q => net_of q <=? net_of p).
  set (i := default (length ranked) (position test ranked)).
  assert ((i <= length ranked)%nat /\
    (forall q, q ∈ take i ranked -> net_of p < net_of q) /\
    (forall q, head (drop i ranked) = Some q -> net_of q <= net_of p)) as (Hi & Hhi & Hlo).
  { unfold i. destruct (position test ranked) as [k|] eqn:Hpos; cbn.
    - apply position_Some in Hpos as (x & Hx & Hpx & Hbefore). split_and!.
      + apply lookup_lt_Some in Hx. lia.
      + intros q (j & Hj)%list_elem_of_lookup. apply lookup_take_Some in Hj as [Hj Hlt].
        by apply N.leb_gt, (Hbefore j).
      + intros q Hq. rewrite (drop_S _ _ _ Hx) in Hq. injection Hq as <-. by apply N.leb_le.
    - split_and!; [done| |by rewrite drop_all]. intros q Hq. rewrite take_ge in Hq by done.
      by apply N.leb_gt, (position_None _ _ _ Hpos). }
  exists (take i ranked), (drop i ranked). rewrite (proj2 (Nat.leb_le _ _) Hi).
  split_and!; [done|by rewrite take_drop|done|]. intros Hs.
  apply ranked_insert; [by rewrite take_drop| |done]. intros q Hq. by apply N.lt_le_incl, Hhi.
Qed.
End overlay.

(** The commitment the overlay makes, in both modes. *)
Definition overlay_commitment `{Tycho} (public_ranked : list OrderQuote) (c : OrderQuote)
    (share : N) : outcome (option N) :=
  match find_public_reference public_ranked with
  | Some r => matched_commitment (RouteOutput_from_quote r) (RouteOutput_from_quote c) share
  | None => default_fee_commitment c
  end.

Definition fair_commitment `{Tycho} (public_ranked : list OrderQuote) (c : OrderQuote)
    (committed : N) : Prop :=
  match find_public_reference public_ranked with
  | Some r => oq_amount_out r <= committed /\
      net_of r <= committed - (oq_amount_out c - oq_amount_out_net_gas c)
  | None => bps.DENOMINATOR * (oq_amount_out c - committed)
              <= NO_PUBLIC_ROUTE_FEE_BPS * oq_amount_out c
  end.

Lemma overlay_commitment_fair `{Tycho} public_ranked c share :
  share <= bps.DENOMINATOR -> candidate_ok c ->
  exists o, overlay_commitment public_ranked c share = Ret o /\
  forall committed, o = Some committed ->
    fair_commitment public_ranked c committed /\ committed <= oq_amount_out c /\
    oq_amount_out c - oq_amount_out_net_gas c <= committed.
Proof.
  intros Hshare Hok. unfold overlay_commitment, fair_commitment.
  destruct (find_public_reference public_ranked) as [r|].
  - pose proof (matched_commitment_bounds (RouteOutput_from_quote r) (RouteOutput_from_quote c)
      share Hshare (co_net _ Hok)) as Hm.
    destruct (matched_commitment _ _ _) as [o|]; [|done]. exists o. split; [done|].
    intros committed ->. cbn in Hm. unfold net_of, bps.DENOMINATOR in *. lia.
  - destruct (default_fee_commitment_bounds c Hok) as (o & Ho & Hb). exists o. split; [done|].
    intros committed Hc. apply Hb in Hc. lia.
Qed.

Lemma combine_with_surplus_overlay `{Tycho} (responses : OrderResponses)
    (scopes : gmap string LiquidityScope) (options : QuoteOptions)
    (public_ranked : list OrderQuote) (share : N) :
  share <= bps.DENOMINATOR -> StronglySorted ranking_order public_ranked ->
  (forall wq, wq ∈ or_quotes responses -> candidate_ok (wq_quote wq)) ->
  exists result,
    combine_with_surplus responses scopes options public_ranked share = Ret result /\
    StronglySorted ranking_order result /\
    (result = public_ranked \/
     exists wq committed p before after,
       exclusive_candidate responses scopes options wq /\
       pinned (wq_quote wq) committed p /\ committed <= oq_amount_out (wq_quote wq) /\
       fair_commitment public_ranked (wq_quote wq) committed /\
       public_ranked = before ++ after /\ result = before ++ p :: after).
Proof.
  intros Hshare Hsorted Hok. unfold combine_with_surplus.
  destruct (best_exclusive_candidate_spec responses scopes options) as (best & -> & Hbest).
  cbn [mbind outcome_bind]. destruct best as [c|]; [|eauto].
  destruct Hbest as (wq & <- & Hcand & _). specialize (Hok wq (proj1 Hcand)).
  fold (overlay_commitment public_ranked (wq_quote wq) share).
  destruct (overlay_commitment_fair public_ranked (wq_quote wq) share Hshare Hok)
    as (o & -> & Hfair).
  cbn [mbind outcome_bind]. destruct o as [committed|]; [|eauto].
  destruct (Hfair committed eq_refl) as (Hf & Hle & Hgas).
  assert (exists savings, match find_public_reference public_ranked with
            | Some r => bsub committed (oq_amount_out r) | None => Ret 0 end = Ret savings)
    as [savings ->].
  { unfold fair_commitment in Hf. destruct (find_public_reference public_ranked); [|eauto].
    rewrite bsub_ge by lia. eauto. }
  cbn [mbind outcome_bind].
  destruct (pin_commitment_pinned (wq_quote wq) committed (co_net _ Hok) Hle Hgas
    (co_inputs _ Hok)) as (p & -> & Hp). cbn [mbind outcome_bind].
  destruct (insert_pinned_spec public_ranked p) as (before & after & -> & Happ & _ & Hs).
  eexists. split; [done|]. split; [by apply Hs|]. right.
  exists wq, committed, p, before, after. split_and!; done.
Qed.

(** C3: overlaying the exclusive candidate never panics, keeps the public ranking
    in order and keeps the result sorted by net output. Either nothing changes, or
    one quote is added: the exclusive candidate pinned to a commitment its route can
    pay. Against a public reference the user is never worse off, in quoted output
    and net of gas; without one, the protocol withholds at most 5 bps of the output. *)
Theorem combine_with_surplus_spec `{Tycho} (responses : OrderResponses)
    (scopes : gmap string LiquidityScope) (options : QuoteOptions)
    (public_ranked : list OrderQuote) (share : N) :
  share <= bps.DENOMINATOR -> StronglySorted ranking_order public_ranked ->
  (forall wq, wq ∈ or_quotes responses -> candidate_ok (wq_quote wq)) ->
  exists result,
    combine_with_surplus responses scopes options public_ranked share = Ret result /\
    StronglySorted ranking_order result /\
    (result = public_ranked \/
     exists wq committed p before after,
       exclusive_candidate responses scopes options wq /\
       pinned (wq_quote wq) committed p /\ committed <= oq_amount_out (wq_quote wq) /\
       fair_commitment public_ranked (wq_quote wq) committed /\
       public_ranked = before ++ after /\ result = before ++ p :: after).
Proof. apply combine_with_surplus_overlay. Qed.

(** ** The passes before ranking *)

Section passes.
Context `{Tycho}.
Implicit Types (q : OrderQuote) (wq : WorkerPoolQuote).

(** Pools, order ids and failures are untouched by a pass over the quotes. *)
Definition quotes_related (R : relation OrderQuote) : relation (list OrderResponses) :=
  Forall2 (fun r r' =>
    or_order_id r' = or_order_id r /\ or_failed_solvers r' = or_failed_solvers r /\
    Forall2 (fun wq wq' => wq_worker_pool wq' = wq_worker_pool wq /\
                           wq_solve_time_ms wq' = wq_solve_time_ms wq /\
                           R (wq_quote wq) (wq_quote wq')) (or_quotes r) (or_quotes r')).

Definition all_quotes (P : OrderQuote -> Prop) (all : list OrderResponses) : Prop :=
  forall r wq, r ∈ all -> wq ∈ or_quotes r -> P (wq_quote wq).

(** A pass whose step never panics on [P], relates its input to its output by [R],
    and fails only with an error [E] explains. *)
Definition step_spec (P : OrderQuote -> Prop) (R : relation OrderQuote)
    (E : OrderQuote -> SolveError -> Prop) f : Prop :=
  forall q, P q -> match f q with
                   | Panic => False
                   | Ret (Ok q') => R q q'
                   | Ret (Err e) => E q e
                   end.

Lemma map_quotes_spec P R E f quotes :
  step_spec P R E f -> Forall (fun wq => P (wq_quote wq)) quotes ->
  match map_quotes f quotes with
  | Panic => False
  | Ret (Ok quotes') => Forall2 (fun wq wq' => wq_worker_pool wq' = wq_worker_pool wq /\
      wq_solve_time_ms wq' = wq_solve_time_ms wq /\ R (wq_quote wq) (wq_quote wq')) quotes quotes'
  | Ret (Err e) => exists wq, wq ∈ quotes /\ E (wq_quote wq) e
  end.
Proof.
  intros Hf. induction 1 as [|wq quotes Hwq _ IH]; cbn; [constructor|].
  specialize (Hf _ Hwq). destruct (f (wq_quote wq)) as [[q'|e]|]; cbn;
    [|exists wq; split; [left|done]|done].
  destruct (map_quotes f quotes) as [[quotes'|e]|]; cbn; [by constructor| |done].
  destruct IH as (wq' & ? & ?). exists wq'. split; [by right|done].
Qed.

Lemma map_responses_spec P R E f all :
  step_spec P R E f -> all_quotes P all ->
  match map_responses f all with
  | Panic => False
  | Ret (Ok all') => quotes_related R all all'
  | Ret (Err e) => exists r wq, r ∈ all /\ wq ∈ or_quotes r /\ E (wq_quote wq) e
  end.
Proof.
  intros Hf. induction all as [|r all IH]; cbn; intros Hall; [constructor|].
  assert (Forall (fun wq => P (wq_quote wq)) (or_quotes r)) as Hr.
  { apply Forall_forall. intros wq Hwq. eapply Hall; [left|done]. }
  pose proof (map_quotes_spec P R E f _ Hf Hr) as Hq.
  destruct (map_quotes f (or_quotes r)) as [[quotes|e]|]; cbn; [| |done].
  - assert (all_quotes P all) as Hall' by (intros r' wq ??; eapply Hall; [by right|done]).
    specialize (IH Hall'). destruct (map_responses f all) as [[all'|e]|]; cbn; [by constructor| |done].
    destruct IH as (r' & wq & ? & ? & ?). exists r', wq. split_and!; [by right|done|done].
  - destruct Hq as (wq & ? & ?). exists r, wq. split_and!; [left|done|done].
Qed.

Lemma quotes_related_elem R all all' r' wq' :
  quotes_related R all all' -> r' ∈ all' -> wq' ∈ or_quotes r' ->
  exists r wq, r ∈ all /\ wq ∈ or_quotes r /\ R (wq_quote wq) (wq_quote wq').
Proof.
  intros Hrel (i & Hi)%list_elem_of_lookup (j & Hj)%list_elem_of_lookup.
  destruct (Forall2_lookup_r _ _ _ _ _ Hrel Hi) as (r & Hr & _ & _ & Hqs).
  destruct (Forall2_lookup_r _ _ _ _ _ Hqs Hj) as (wq & Hwq & _ & _ & HR).
  exists r, wq. split_and!; [by eapply list_elem_of_lookup_2..|done].
Qed.

(** *** Gas refinement *)

Context {Solution : Type}
  (solution_of : OrderQuote -> UserTransferType -> result SolveError Solution)
  (estimate_gas_usage : Solution -> Strategy -> N).

(** Only the gas estimate and the net output change, the net stays within the
    output, and a positive estimate is replaced by the estimator's. *)
Record refined_quote (opts : EncodingOptions) q q' : Prop := {
  rq_net : quote_net_ok q';
  rq_frame : set_gas_estimate (set_amount_out_net_gas q' (oq_amount_out_net_gas q))
               (oq_gas_estimate q) = q;
  rq_skip : oq_status q <> Success \/ oq_gas_estimate q = 0 -> q' = q;
  rq_gas : oq_status q = Success -> oq_gas_estimate q <> 0 ->
    exists s, solution_of q (eo_transfer_type opts) = Ok s /\
      oq_gas_estimate q' = estimate_gas_usage s (derive_strategy q);
  rq_zero : oq_amount_out_net_gas q = 0 -> oq_amount_out_net_gas q' = 0;
}.

Lemma set_gas_net_frame q net gas :
  set_gas_estimate (set_amount_out_net_gas
    (set_gas_estimate (set_amount_out_net_gas q net) gas) (oq_amount_out_net_gas q))
    (oq_gas_estimate q) = q.
Proof. by destruct q. Qed.

Lemma refined_quote_refl opts q :
  quote_net_ok q -> oq_status q <> Success \/ oq_gas_estimate q = 0 -> refined_quote opts q q.
Proof.
  intros Hnet Hskip. split; [done|by destruct q|done| |done].
  intros ??. by destruct Hskip.
Qed.

Lemma refined_net_total amount net refined naive :
  net <= amount -> exists net', refined_net_amount_out amount net refined naive = Ret net' /\
    net' <= amount /\ (net = 0 -> net' = 0).
Proof.
  intros Hnet. unfold refined_net_amount_out. destruct (N.eqb_spec net 0); [exists 0; split; [done|lia]|].
  rewrite bsub_ge by done. cbn [mbind outcome_bind].
  destruct (mul_div_ceil _ _ _); [rewrite checked_sub_default|]; eexists; (split; [done|lia]).
Qed.

Lemma refine_quote_spec opts :
  step_spec quote_net_ok (refined_quote opts)
    (fun q e => oq_status q = Success /\ solution_of q (eo_transfer_type opts) = Err e)
    (refine_quote solution_of estimate_gas_usage opts).
Proof.
  intros q Hnet. unfold refine_quote. case_bool_decide as Hs; cbn [negb];
    [|apply refined_quote_refl; auto].
  destruct (solution_of q (eo_transfer_type opts)) as [s|e] eqn:Hsol; cbn [try_bind]; [|done].
  destruct (N.ltb_spec 0 (oq_gas_estimate q)) as [Hgas|]; [|apply refined_quote_refl; [done|right; lia]].
  destruct (refined_net_total (oq_amount_out q) (oq_amount_out_net_gas q)
    (estimate_gas_usage s (derive_strategy q)) (oq_gas_estimate q) Hnet) as (net & -> & Hle & Hz).
  cbn [mbind outcome_bind]. split.
  - by destruct q.
  - apply set_gas_net_frame.
  - intros [|]; [done|lia].
  - intros _ _. exists s. split; [done|]. by destruct q.
  - intros ?%Hz. by destruct q.
Qed.
End passes.

(** Gas refinement over all responses never panics when every net output is
    within its output, and then keeps that invariant. It changes only the gas
    estimate and the net output of successful quotes with a gas estimate, which
    becomes the estimator's; a net clamped to zero stays zero. It fails only when a
    successful quote has no encoder solution. *)
Theorem refine_gas_estimates_spec `{Tycho} {Solution : Type}
    (solution_of : OrderQuote -> UserTransferType -> result SolveError Solution)
    (estimate : Solution -> Strategy -> N) (all : list OrderResponses) (opts : EncodingOptions) :
  all_quotes quote_net_ok all ->
  match refine_gas_estimates solution_of estimate all opts with
  | Panic => False
  | Ret (Ok all') => quotes_related (refined_quote solution_of estimate opts) all all'
  | Ret (Err e) => exists r wq, r ∈ all /\ wq ∈ or_quotes r /\
      oq_status (wq_quote wq) = Success /\
      solution_of (wq_quote wq) (eo_transfer_type opts) = Err e
  end.
Proof.
  exact (map_responses_spec _ _ _ _ all (refine_quote_spec solution_of estimate opts)).
Qed.

(** *** Fallback check *)

Section fallback.
Context `{Tycho}.
Implicit Types q : OrderQuote.

(** A quote leaves the check unchanged and clearing the minimum (or with nothing to
    check), or marked as rejected. *)
Definition checked_quote (fees : RouterFees) (opts : EncodingOptions) q q' : Prop :=
  (q' = q /\ (oq_status q = Success -> fallback_clears_min_amount_out fees q opts = Ret (Ok true)))
  \/ (fallback_clears_min_amount_out fees q opts = Ret (Ok false) /\
      q' = set_no_route_cause (set_status q NoRouteFound)
             (Some (SE_RouteRejected (oq_order_id q) FallbackBelowMinAmountOut))).

Lemma checked_success fees opts q q' :
  checked_quote fees opts q q' -> oq_status q' = Success ->
  q' = q /\ fallback_clears_min_amount_out fees q' opts = Ret (Ok true).
Proof.
  intros [[-> Hc]|[_ ->]] Hs; [split; auto|]. by destruct q.
Qed.

Lemma map_responses_Ok f all all' :
  map_responses f all = Ret (Ok all') ->
  quotes_related (fun q q' => f q = Ret (Ok q')) all all'.
Proof.
  revert all'. induction all as [|r all IH]; intros all'; cbn.
  { intros [= <-]. constructor. }
  intros (quotes & Hq & Hrest)%try_bind_Ok.
  apply try_bind_Ok in Hrest as (rest & Hr & [= <-]). constructor; [|by apply IH].
  split_and!; [done|done|]. clear -Hq. revert quotes Hq.
  induction (or_quotes r) as [|wq l IHl]; intros quotes; cbn; [by intros [= <-]|].
  intros (q & Hf & Hl)%try_bind_Ok. apply try_bind_Ok in Hl as (l' & Hl & [= <-]).
  constructor; [done|by apply IHl].
Qed.

Lemma check_fallback_quote_spec fees opts q q' :
  check_fallback_quote fees opts q = Ret (Ok q') -> checked_quote fees opts q q'.
Proof.
  unfold check_fallback_quote, checked_quote. case_bool_decide as Hs; cbn [negb];
    [|intros [= <-]; by left].
  destruct (oq_route q ≫= rt_fallback_amount_out) as [fb|] eqn:Hfb.
  - intros (clears & Hc & Hr)%try_bind_Ok. destruct clears; injection Hr as <-; auto.
  - intros [= <-]. left. split; [done|]. intros _.
    unfold fallback_clears_min_amount_out. by rewrite Hfb.
Qed.
End fallback.

(** After the fallback check, every successful quote the ranking offers is one
    of the solvers' quotes, unchanged, whose fallback route reaches the minimum
    output that will be enforced on chain: a quote that may revert is never
    offered, and a rejected one is kept as evidence for the cause only. *)
Theorem ranked_fallbacks_clear `{Tycho} (fees : RouterFees) (opts : EncodingOptions)
    (options : QuoteOptions) (all all' : list OrderResponses) (r' : OrderResponses)
    (q : OrderQuote) :
  drop_pamm_quotes_below_min_amount_out fees all opts = Ret (Ok all') ->
  r' ∈ all' -> q ∈ rank_quotes r' options -> oq_status q = Success ->
  fallback_clears_min_amount_out fees q opts = Ret (Ok true) /\
  exists r wq, r ∈ all /\ wq ∈ or_quotes r /\ wq_quote wq = q.
Proof.
  intros Hrel%map_responses_Ok Hr' Hq Hs.
  destruct (elem_of_rank_quotes _ _ _ Hq Hs) as (wq' & Hwq' & <- & _).
  destruct (quotes_related_elem _ _ _ _ _ Hrel Hr' Hwq') as (r & wq & Hr & Hwq & HR).
  apply check_fallback_quote_spec, checked_success in HR as [Heq Hc]; [|done].
  split; [done|]. by exists r, wq.
Qed.

(** ** Witnesses *)

Section witnesses.
#[local] Existing Instance Sample.tycho.

Definition sample_wq (pool : string) (q : OrderQuote) : WorkerPoolQuote :=
  {| wq_worker_pool := pool; wq_quote := q; wq_solve_time_ms := 5 |}.

Definition sample_responses : OrderResponses := {|
  or_order_id := "order";
  or_quotes := [sample_wq "public" (set_amount_out sample_quote 950);
                sample_wq "exclusive" sample_exclusive_quote];
  or_failed_solvers := [];
|}.

Definition sample_query : QuoteOptions := {|
  qo_timeout_ms := None; qo_min_responses := None; qo_max_gas := None;
  qo_encoding_options := None; qo_state_label := None; qo_worker_pools := None;
  qo_route_filter := {| rc_excluded_pools := ∅; rc_excluded_protocols := ∅;
                        rc_excluded_tokens := ∅; rc_required_tokens := ∅ |};
|}.

Definition sample_scopes : gmap string LiquidityScope :=
  al_scopes (allocate sample_pools (sample_class Granted) None).

Definition sample_public : list OrderQuote :=
  rank_quotes (public_only sample_scopes sample_responses) sample_query.

Lemma sample_quote_ok : candidate_ok sample_quote.
Proof.
  split; [by vm_compute| |].
  - intros r [= <-]. cbn. intros s. rewrite !elem_of_cons, elem_of_nil.
    intros [->|[->|[]]]; done.
  - intros r leg out n d [= <-]. cbn [rt_swaps]. intros Hleg [= <-].
    cbn in Hleg. rewrite !elem_of_cons, elem_of_nil in Hleg.
    destruct Hleg as [->|[->|[]]]; vm_compute; intros [= <- <-]; done.
Qed.

Lemma sample_candidates_ok wq : wq ∈ or_quotes sample_responses -> candidate_ok (wq_quote wq).
Proof.
  intros Hwq. cbn in Hwq. rewrite !elem_of_cons, elem_of_nil in Hwq.
  destruct Hwq as [->|[->|[]]]; split; try by vm_compute.
  1,3: intros r [= <-]; cbn; intros s; rewrite !elem_of_cons, elem_of_nil;
       intros [->|[->|[]]]; done.
  all: intros r leg out n d [= <-]; cbn [rt_swaps]; intros Hleg [= <-];
       cbn in Hleg; rewrite !elem_of_cons, elem_of_nil in Hleg;
       destruct Hleg as [->|[->|[]]]; vm_compute; intros [= <- <-]; done.
Qed.

Lemma combine_with_surplus_spec_witness :
  exists result, combine_with_surplus sample_responses sample_scopes sample_query sample_public 1000
                 = Ret result /\
    StronglySorted ranking_order result /\ length result = 2%nat.
Proof.
  destruct (combine_with_surplus_spec sample_responses sample_scopes sample_query sample_public 1000)
    as (result & Heq & Hs & _); [by vm_compute|apply rank_quotes_sorted|apply sample_candidates_ok|].
  exists result. split; [exact Heq|]. split; [exact Hs|].
  vm_compute in Heq. injection Heq as <-. reflexivity.
Defined.

Lemma refine_gas_estimates_spec_witness :
  match refine_gas_estimates (fun _ _ => Ok tt) (fun _ _ => 300) [sample_responses] sample_options
  with
  | Panic => False
  | Ret (Ok all') => quotes_related
      (refined_quote (fun _ _ => Ok tt) (fun _ _ => 300) sample_options) [sample_responses] all'
  | Ret (Err e) => False
  end.
Proof.
  pose proof (refine_gas_estimates_spec (fun _ _ => Ok tt) (fun _ _ => 300)
    [sample_responses] sample_options) as Hspec.
  destruct (refine_gas_estimates _ _ _ _) as [[all'|e]|]; apply Hspec || destruct Hspec as (?&?&?&?&?&?).
  all: try done.
  all: intros r wq ->%list_elem_of_singleton Hwq; apply co_net, sample_candidates_ok, Hwq.
Defined.

Definition fallback_responses : OrderResponses := {|
  or_order_id := "order"; or_quotes := [sample_wq "public" fallback_quote];
  or_failed_solvers := [] |}.

Lemma ranked_fallbacks_clear_witness :
  fallback_clears_min_amount_out RouterFees_fallback fallback_quote sample_options
  = Ret (Ok true).
Proof.
  apply (ranked_fallbacks_clear RouterFees_fallback sample_options sample_query
    [fallback_responses] [fallback_responses] fallback_responses fallback_quote);
    [by vm_compute|left| |done].
  assert (rank_quotes fallback_responses sample_query = [fallback_quote]) as Heq
    by (by vm_compute).
  rewrite Heq. left.
Defined.
End witnesses.
