(* ===== verification/Dispatch.v ===== *)
(** * Dispatch: collecting the answers of the worker pools

    Models [WorkerPoolRouter::solve_order] of
    [fynd-core/src/worker_pool_router/mod.rs] as a state machine. The pools answer
    concurrently, so the state keeps the pools still in flight, and an event is
    what the biased [select!] returns: the deadline, an answer of some pool in
    flight, or the end of the stream of answers. [loop_step] is the loop body; a
    run is any sequence of events. The timed-out pools are drained from a hash
    set, so their order is part of the event. *)

From stdpp Require Import prelude gmap strings list.
From Stdlib Require Import NArith ZArith Lia.
From S2P Require Import Prelude F64 Types Route Quote Allocation Ranking Samples.

Record SingleOrderQuote `{Tycho} := {
  so_order : OrderQuote;
  so_solve_time_ms : N;
}.

(** The local variables of the collection loop, and the futures in flight. *)
Record Collecting `{Tycho} := {
  cl_pending : list string;
  cl_quotes : list WorkerPoolQuote;
  cl_failed : list (string * SolveError);
  cl_remaining : gset string;
  cl_has_public : bool;
  cl_has_exclusive : bool;
}.

Inductive Event `{Tycho} :=
| Deadline (elapsed_ms : N) (drained : list string)
| Answered (worker_pool : string) (answer : result SolveError SingleOrderQuote)
| Completed.

(** Why the loop ended. *)
Inductive Exit := TimedOut | EarlyReturn | AllAnswered.
Inductive Phase `{Tycho} :=
| Running (st : Collecting)
| Done (why : Exit) (st : Collecting).

(** One occurrence of a name leaves the futures in flight. *)
Fixpoint remove_one (name : string) (l : list string) : list string :=
  match l with
  | [] => []
  | n :: l' => if decide (n = name) then l' else n :: remove_one name l'
  end.

Section dispatch.
Context `{Tycho} (a : Allocation) (min_responses : nat).
Implicit Types st : Collecting.

Definition start : Collecting := {|
  cl_pending := sp_name <$> al_worker_pools a;
  cl_quotes := [];
  cl_failed := [];
  cl_remaining := list_to_set (sp_name <$> al_worker_pools a);
  cl_has_public := false;
  cl_has_exclusive := false;
|}.

Definition on_deadline st (elapsed_ms : N) (drained : list string) : Collecting := {|
  cl_pending := cl_pending st;
  cl_quotes := cl_quotes st;
  cl_failed := cl_failed st ++ ((fun name => (name, SE_Timeout elapsed_ms)) <$> drained);
  cl_remaining := ∅;
  cl_has_public := cl_has_public st;
  cl_has_exclusive := cl_has_exclusive st;
|}.

Definition on_quote st (name : string) (single : SingleOrderQuote) : Collecting :=
  let exclusive := Allocation_is_exclusive a name in
  {| cl_pending := remove_one name (cl_pending st);
     cl_quotes := cl_quotes st ++
       [{| wq_worker_pool := name;
           wq_quote := set_worker_pool (so_order single) name;
           wq_solve_time_ms := so_solve_time_ms single |}];
     cl_failed := cl_failed st;
     cl_remaining := cl_remaining st ∖ {[ name ]};
     cl_has_public := if exclusive then cl_has_public st else true;
     cl_has_exclusive := if exclusive then true else cl_has_exclusive st |}.

Definition on_failure st (name : string) (error : SolveError) : Collecting := {|
  cl_pending := remove_one name (cl_pending st);
  cl_quotes := cl_quotes st;
  cl_failed := cl_failed st ++ [(name, error)];
  cl_remaining := cl_remaining st ∖ {[ name ]};
  cl_has_public := cl_has_public st;
  cl_has_exclusive := if Allocation_is_exclusive a name then true else cl_has_exclusive st;
|}.

Definition scope_ready st : bool :=
  if al_exclusive_routing_active a then cl_has_public st && cl_has_exclusive st else true.

Definition early_return st : bool :=
  (0 <? min_responses)%nat && (min_responses <=? length (cl_quotes st))%nat && scope_ready st.

(** The loop body; [None] for an event the runtime cannot deliver in this state. *)
Definition loop_step st (ev : Event) : option Phase :=
  match ev with
  | Deadline elapsed_ms drained =>
      if decide (drained ≡ₚ elements (cl_remaining st))
      then Some (Done TimedOut (on_deadline st elapsed_ms drained)) else None
  | Answered name answer =>
      if decide (name ∈ cl_pending st) then
        match answer with
        | Ok single =>
            let st' := on_quote st name single in
            Some (if early_return st' then Done EarlyReturn st' else Running st')
        | Err e => Some (Running (on_failure st name e))
        end
      else None
  | Completed =>
      match cl_pending st with [] => Some (Done AllAnswered st) | _ => None end
  end.

Fixpoint collect st (events : list Event) : option Phase :=
  match events with
  | [] => Some (Running st)
  | ev :: rest =>
      match loop_step st ev with
      | Some (Running st') => collect st' rest
      | Some (Done why st') => match rest with [] => Some (Done why st') | _ => None end
      | None => None
      end
  end.

(** The phases a run can be in. *)
Inductive reachable : Phase -> Prop :=
| reachable_start : reachable (Running start)
| reachable_step st ev p : reachable (Running st) -> loop_step st ev = Some p -> reachable p.

Definition responses_of (order_id : string) st : OrderResponses := {|
  or_order_id := order_id;
  or_quotes := cl_quotes st;
  or_failed_solvers := cl_failed st |}.
End dispatch.

(** The whole of [solve_order] for a schedule of events that ends the loop. *)
Definition solve_order `{Tycho} (order : Order) (a : Allocation) (min_responses : nat)
    (events : list Event) : option OrderResponses :=
  match collect a min_responses (start a) events with
  | Some (Done _ st) => Some (responses_of (order_id order) st)
  | _ => None
  end.

(** ** Laws *)

Section laws.
Context `{Tycho} (a : Allocation) (min_responses : nat).
Implicit Types st : Collecting.

Definition pool_names : list string := sp_name <$> al_worker_pools a.

(** Every pool that answered, with a quote or an error. *)
Definition answered st : list string := (wq_worker_pool <$> cl_quotes st) ++ (cl_failed st).*1.

Lemma remove_one_perm name l : name ∈ l -> l ≡ₚ name :: remove_one name l.
Proof.
  induction 1 as [name l|name m l _ IH]; cbn; [by rewrite decide_True|].
  destruct (decide (m = name)) as [->|]; [done|]. rewrite IH at 1. constructor.
Qed.

(** Where every pool is: the answered ones and the ones in flight are the
    allocation, each once; the flags record which scopes have answered. *)
Record collecting_ok st : Prop := {
  ck_pools : answered st ++ cl_pending st ≡ₚ pool_names;
  ck_remaining : cl_remaining st = list_to_set (cl_pending st);
  ck_public : cl_has_public st = true <->
    exists wq, wq ∈ cl_quotes st /\ Allocation_is_exclusive a (wq_worker_pool wq) = false;
  ck_exclusive : cl_has_exclusive st = true <->
    exists name, name ∈ answered st /\ Allocation_is_exclusive a name = true;
  ck_pool_field : forall wq, wq ∈ cl_quotes st -> oq_worker_pool (wq_quote wq) = wq_worker_pool wq;
}.

Lemma start_ok : collecting_ok (start a).
Proof. by split; cbn; try set_solver; (split; [done|set_solver]). Qed.

Lemma answered_on_quote st name single :
  answered (on_quote a st name single) ≡ₚ name :: answered st.
Proof.
  unfold answered. cbn. rewrite fmap_app. cbn. rewrite <- app_assoc. cbn.
  symmetry. apply Permutation_middle.
Qed.

Lemma answered_on_failure st name e :
  answered (on_failure a st name e) ≡ₚ name :: answered st.
Proof.
  unfold answered. cbn. rewrite fmap_app. cbn. rewrite app_assoc.
  symmetry. apply Permutation_cons_append.
Qed.

(** The part of the invariant that concerns the pools in flight, for both kinds of answer. *)
Lemma answer_pools st st' name :
  NoDup pool_names -> collecting_ok st -> name ∈ cl_pending st ->
  answered st' ≡ₚ name :: answered st -> cl_pending st' = remove_one name (cl_pending st) ->
  cl_remaining st' = cl_remaining st ∖ {[name]} ->
  answered st' ++ cl_pending st' ≡ₚ pool_names /\ cl_remaining st' = list_to_set (cl_pending st').
Proof.
  intros Hnd Hok Hin Hans Hpend Hrem. pose proof (remove_one_perm _ _ Hin) as Hperm.
  rewrite Hans, Hpend, Hrem, (ck_remaining _ Hok). split.
  - rewrite <- (ck_pools _ Hok). cbn. rewrite Hperm at 2. apply Permutation_middle.
  - rewrite <- (ck_pools _ Hok) in Hnd. apply NoDup_app in Hnd as (_ & _ & Hnd).
    rewrite Hperm in Hnd. apply NoDup_cons in Hnd as [Hnot _].
    rewrite Hperm at 1. cbn [list_to_set]. rewrite set_eq. intros x.
    rewrite elem_of_difference, elem_of_union, !elem_of_singleton, elem_of_list_to_set.
    split; [tauto|]. intros Hx. split; [by right|]. by intros ->.
Qed.

Lemma exists_cons_name (P : string -> bool) name l l' :
  l' ≡ₚ name :: l ->
  (exists n, n ∈ l' /\ P n = true) <-> P name = true \/ exists n, n ∈ l /\ P n = true.
Proof.
  intros Hp. setoid_rewrite Hp. setoid_rewrite elem_of_cons. split.
  - intros (n & [->|Hn] & HP); [by left|right; by exists n].
  - intros [HP|(n & Hn & HP)]; [by exists name; auto|exists n; auto].
Qed.

Lemma on_quote_ok st name single :
  NoDup pool_names -> collecting_ok st -> name ∈ cl_pending st ->
  collecting_ok (on_quote a st name single).
Proof.
  intros Hnd Hok Hin.
  destruct (answer_pools st (on_quote a st name single) name) as [Hp Hr];
    [done..|apply answered_on_quote|done|done|].
  split; [exact Hp|exact Hr| | |].
  - cbn. destruct (Allocation_is_exclusive a name) eqn:Hx.
    + rewrite (ck_public _ Hok). split; intros (wq & Hwq & Hpub).
      * exists wq. split; [set_solver|done].
      * apply elem_of_app in Hwq as [Hwq|Hwq]; [by exists wq|apply list_elem_of_singleton in Hwq as ->].
        cbn in Hpub. congruence.
    + split; [intros _|done]. eexists. split; [apply elem_of_app; right; left|done].
  - rewrite (exists_cons_name _ _ _ _ (answered_on_quote _ _ _)), <- (ck_exclusive _ Hok).
    cbn. by destruct (Allocation_is_exclusive a name); [tauto|split; [auto|intros [|]]].
  - cbn. intros wq [Hwq| ->%list_elem_of_singleton]%elem_of_app;
      [by apply (ck_pool_field _ Hok)|]. cbn. by destruct (so_order single).
Qed.

Lemma on_failure_ok st name e :
  NoDup pool_names -> collecting_ok st -> name ∈ cl_pending st ->
  collecting_ok (on_failure a st name e).
Proof.
  intros Hnd Hok Hin.
  destruct (answer_pools st (on_failure a st name e) name) as [Hp Hr];
    [done..|apply answered_on_failure|done|done|].
  split; [exact Hp|exact Hr|apply (ck_public _ Hok)| |apply (ck_pool_field _ Hok)].
  rewrite (exists_cons_name _ _ _ _ (answered_on_failure _ _ _)), <- (ck_exclusive _ Hok).
  cbn. by destruct (Allocation_is_exclusive a name); [tauto|split; [auto|intros [|]]].
Qed.

(** What each way out of the loop guarantees. *)
Definition exit_ok (why : Exit) st : Prop :=
  match why with
  | TimedOut | AllAnswered => answered st ≡ₚ pool_names
  | EarlyReturn =>
      (0 < min_responses <= length (cl_quotes st))%nat /\ NoDup (answered st) /\
      (forall name, name ∈ answered st -> name ∈ pool_names) /\
      (al_exclusive_routing_active a = true ->
         (exists wq, wq ∈ cl_quotes st /\ Allocation_is_exclusive a (wq_worker_pool wq) = false) /\
         (exists name, name ∈ answered st /\ Allocation_is_exclusive a name = true))
  end /\ forall wq, wq ∈ cl_quotes st -> oq_worker_pool (wq_quote wq) = wq_worker_pool wq.

Lemma deadline_exit st elapsed drained :
  NoDup pool_names -> collecting_ok st -> drained ≡ₚ elements (cl_remaining st) ->
  exit_ok TimedOut (on_deadline st elapsed drained).
Proof.
  intros Hnd Hok Hd. split; [|apply (ck_pool_field _ Hok)].
  rewrite <- (ck_pools _ Hok) in *. unfold answered at 1. cbn.
  rewrite fmap_app, app_assoc. fold (answered st). apply Permutation_app; [done|].
  rewrite <- list_fmap_compose. cbn. rewrite list_fmap_id, Hd, (ck_remaining _ Hok).
  apply NoDup_app in Hnd as (_ & _ & Hnd). by apply elements_list_to_set.
Qed.

Lemma early_return_exit st :
  NoDup pool_names -> collecting_ok st -> early_return a min_responses st = true ->
  exit_ok EarlyReturn st.
Proof.
  intros Hnd Hok He. split; [|apply (ck_pool_field _ Hok)].
  apply andb_prop in He as [[Hm Hl]%andb_prop Hready].
  apply Nat.ltb_lt in Hm. apply Nat.leb_le in Hl.
  rewrite <- (ck_pools _ Hok) in Hnd. apply NoDup_app in Hnd as (Hnd & _).
  split_and!; [lia|lia|done| |].
  - intros name Hname. rewrite <- (ck_pools _ Hok). apply elem_of_app. by left.
  - intros Hact. unfold scope_ready in Hready. rewrite Hact in Hready.
    apply andb_prop in Hready as [Hpub Hex].
    split; [by apply (ck_public _ Hok)|by apply (ck_exclusive _ Hok)].
Qed.

Lemma reachable_ok p :
  NoDup pool_names -> reachable a min_responses p ->
  match p with Running st => collecting_ok st | Done why st => exit_ok why st end.
Proof.
  intros Hnd. induction 1 as [|st ev p _ IH Hstep]; [apply start_ok|].
  destruct ev as [elapsed drained|name [single|e]|]; cbn in Hstep.
  - case_decide as Hd; [|done]. injection Hstep as <-. by apply deadline_exit.
  - case_decide as Hin; [|done]. injection Hstep as <-.
    pose proof (on_quote_ok st name single Hnd IH Hin).
    destruct (early_return _ _ _) eqn:He; [by apply early_return_exit|done].
  - case_decide as Hin; [|done]. injection Hstep as <-. by apply on_failure_ok.
  - destruct (cl_pending st) eqn:Hpend; [|done]. injection Hstep as <-.
    split; [|apply (ck_pool_field _ IH)]. pose proof (ck_pools _ IH) as Hp.
    by rewrite Hpend, app_nil_r in Hp.
Qed.

(** Every answer shortens the list in flight. *)
Lemma loop_step_pending st ev st' :
  loop_step a min_responses st ev = Some (Running st') ->
  length (cl_pending st) = S (length (cl_pending st')).
Proof.
  assert (forall name, name ∈ cl_pending st ->
    length (cl_pending st) = S (length (remove_one name (cl_pending st)))) as Hlen.
  { intros name Hin. pose proof (remove_one_perm _ _ Hin) as Hp.
    by rewrite Hp at 1. }
  destruct ev as [elapsed drained|name [single|e]|]; cbn.
  - by case_decide.
  - case_decide; [|done]. destruct (early_return _ _ _); [done|]. intros [= <-]. by apply Hlen.
  - case_decide; [|done]. intros [= <-]. by apply Hlen.
  - by destruct (cl_pending st).
Qed.

Lemma collect_Running_length st events st' :
  collect a min_responses st events = Some (Running st') ->
  length (cl_pending st) = (length events + length (cl_pending st'))%nat.
Proof.
  revert st. induction events as [|ev events IH]; intros st; cbn; [by intros [= <-]|].
  destruct (loop_step _ _ _ _) as [[st1|why st1]|] eqn:Hstep; [|by destruct events|done].
  intros Hc%IH. apply loop_step_pending in Hstep. lia.
Qed.

Lemma collect_reachable st events p :
  reachable a min_responses (Running st) -> collect a min_responses st events = Some p ->
  reachable a min_responses p.
Proof.
  revert st. induction events as [|ev events IH]; intros st Hst; cbn; [by intros [= <-]|].
  destruct (loop_step _ _ _ _) as [[st1|why st1]|] eqn:Hstep; [| |done].
  - apply IH. by eapply reachable_step.
  - destruct events; [|done]. intros [= <-]. by eapply reachable_step.
Qed.
End laws.

(** ** Properties *)

(** C4: however the answers of the pools interleave, the collection loop keeps its
    books: a finished order accounts for every allocated pool exactly once, as a
    quote or a failure, when it ended by the deadline or because all answered; an
    early return happens only with a positive [min_responses], at least that many
    quotes and, when exclusive routing is active, a public quote and an answer from
    an exclusive pool. Every quote is labelled with the pool that answered. *)
Theorem solve_order_accounts `{Tycho} (a : Allocation) (min_responses : nat) (why : Exit)
    (st : Collecting) :
  NoDup (pool_names a) -> reachable a min_responses (Done why st) ->
  exit_ok a min_responses why st.
Proof. intros Hnd Hr. exact (reachable_ok _ _ _ Hnd Hr). Qed.

(** The collection loop terminates and never gets stuck: a run takes at most one
    event more than there are pools, while it runs the deadline can always end it,
    and when no pool is in flight the next event ends it. *)
Theorem solve_order_terminates `{Tycho} (a : Allocation) (min_responses : nat)
    (events : list Event) (st : Collecting) :
  collect a min_responses (start a) events = Some (Running st) ->
  (length events <= length (al_worker_pools a))%nat /\
  (forall elapsed, exists drained st', loop_step a min_responses st (Deadline elapsed drained)
                                       = Some (Done TimedOut st')) /\
  (length events = length (al_worker_pools a) ->
     loop_step a min_responses st Completed = Some (Done AllAnswered st)).
Proof.
  intros Hc%collect_Running_length. cbn in Hc. rewrite length_fmap in Hc. split_and!; [lia| |].
  - intros elapsed. exists (elements (cl_remaining st)). eexists. cbn. by rewrite decide_True.
  - intros Hlen. cbn. destruct (cl_pending st); cbn in *; [done|lia].
Qed.

(** ** Witnesses *)

Section witnesses.
#[local] Existing Instance Sample.tycho.

Definition sample_allocation : Allocation :=
  allocate sample_pools (sample_class Granted) None.

Definition sample_answer : SingleOrderQuote :=
  {| so_order := sample_quote; so_solve_time_ms := 3 |}.

Definition sample_events : list Event :=
  [Answered "exclusive" (Err SE_QueueFull); Answered "public" (Ok sample_answer)].

Definition sample_final : Collecting :=
  on_quote sample_allocation
    (on_failure sample_allocation (start sample_allocation) "exclusive" SE_QueueFull)
    "public" sample_answer.

Lemma solve_order_accounts_witness :
  exit_ok sample_allocation 1 EarlyReturn sample_final.
Proof.
  apply (solve_order_accounts sample_allocation 1 EarlyReturn sample_final).
  - apply (bool_decide_unpack _). by vm_compute.
  - apply (collect_reachable sample_allocation 1 (start sample_allocation) sample_events);
      [constructor|by vm_compute].
Defined.

Lemma solve_order_terminates_witness :
  exists drained st', loop_step sample_allocation 1 (start sample_allocation) (Deadline 7 drained)
                      = Some (Done TimedOut st').
Proof.
  destruct (solve_order_terminates sample_allocation 1 [] (start sample_allocation) eq_refl)
    as (_ & Hdeadline & _).
  exact (Hdeadline 7).
Defined.

(** A third, public pool that has not answered. *)
Definition slow_allocation : Allocation :=
  allocate (sample_pools ++ [SolverPoolHandle_new "slow"]) (sample_class Granted) None.

(** The early return is tested when a quote arrives, not when a pool fails: with one
    public quote in hand and the only exclusive pool failed, every gate of the early
    return holds, and the loop still waits for the slow pool or the deadline. *)
Theorem exclusive_failure_keeps_waiting :
  exists st, reachable slow_allocation 1 (Running st) /\
    early_return slow_allocation 1 st = true /\ cl_pending st = ["slow"%string].
Proof.
  exists (on_failure slow_allocation
    (on_quote slow_allocation (start slow_allocation) "public" sample_answer) "exclusive" SE_QueueFull).
  split; [|by split; vm_compute].
  apply (collect_reachable slow_allocation 1 (start slow_allocation)
    [Answered "public" (Ok sample_answer); Answered "exclusive" (Err SE_QueueFull)]);
    [constructor|by vm_compute].
Qed.
End witnesses.
