(* ===== verification/Encoding.v ===== *)
(** * Encoding: attaching transactions to quotes, with retries

    Models [Encoder::encode_until] and [encode_quotes] of
    [fynd-core/src/encoding/encoder.rs], the writes of [attach_transaction], and
    [encode_with_retries] of [fynd-core/src/worker_pool_router/mod.rs] with its
    protocol test in [fynd-core/src/feed/protocol_registry.rs]. Building calldata
    is [tycho_execution] code behind a blocking task: a task's result, per retry
    round, is a parameter, and so is whether the retry budget is spent when a round
    starts. A round consumes a candidate, so one round more than there are retry
    candidates is enough fuel. *)

From stdpp Require Import prelude gmap strings list.
From Stdlib Require Import NArith ZArith Lia.
From S2P Require Import Prelude F64 Types Route Quote Samples.

(** ** RFQ legs *)

Definition RFQ_PREFIX : string := "rfq:".

Definition strip_prefix (p s : string) : option string :=
  if String.prefix p s
  then Some (String.substring (String.length p) (String.length s - String.length p) s)
  else None.

Definition strip_fallback_prefix `{Tycho} (protocol_system : string) : string :=
  default protocol_system (strip_prefix FALLBACK_PREFIX protocol_system).

Definition is_rfq_protocol `{Tycho} (protocol_system : string) : bool :=
  String.prefix RFQ_PREFIX (strip_fallback_prefix protocol_system).

(** ** One encoding pass *)

(** What [attach_transaction] writes, taken from the prepared and the encoded solution. *)
Record EncodedCall := {
  ec_expected_amount_out : N;
  ec_estimated_gas : N;
  ec_subsidy_amount : option N;
  ec_transaction : Transaction;
  ec_fee_breakdown : FeeBreakdown;
}.

(** The end of one encoding task: it returned, its deadline passed first, or it
    died (a panic of the task). *)
Inductive TaskResult :=
| Joined (encoded : result SolveError EncodedCall)
| DeadlinePassed
| JoinError (msg : string).

Section encoding.
Context `{Tycho}.
Implicit Types (q : OrderQuote) (quotes : list OrderQuote).

Definition has_rfq_leg q : bool :=
  match oq_route q with
  | Some route => existsb (fun s => is_rfq_protocol (sw_protocol s)) (rt_swaps route)
  | None => false
  end.

Definition attach_transaction q (call : EncodedCall) : OrderQuote :=
  set_fee_breakdown
    (set_transaction
      (set_subsidy_amount
        (set_gas_estimate (set_amount_out q (ec_expected_amount_out call)) (ec_estimated_gas call))
        (ec_subsidy_amount call))
      (ec_transaction call))
    (ec_fee_breakdown call).

(** The task of the quote at [index], and [try_collect] over the tasks in quote order. *)
Definition encode_task (task : OrderQuote -> TaskResult) (index : nat) q
    : result SolveError (nat * result SolveError OrderQuote) :=
  match task q with
  | Joined (Ok call) => Ok (index, Ok (attach_transaction q call))
  | Joined (Err e) => Ok (index, Err e)
  | DeadlinePassed => Ok (index, Err (SE_FailedEncoding "the quote did not encode before the deadline"))
  | JoinError msg => Err (SE_FailedEncoding ("the encoding task failed: " +:+ msg))
  end.

Fixpoint encode_quotes (task : OrderQuote -> TaskResult) (index : nat) quotes
    : result SolveError (list (nat * result SolveError OrderQuote)) :=
  match quotes with
  | [] => Ok []
  | q :: rest =>
      if bool_decide (oq_status q = Success) then
        encoded ← encode_task task index q;
        others ← encode_quotes task (S index) rest;
        Ok (encoded :: others)
      else encode_quotes task (S index) rest
  end.

(** [quotes[index] = ...] and [quotes[index].set_status(...)]; the index is in range. *)
Definition write_encoded quotes (entry : nat * result SolveError OrderQuote) : list OrderQuote :=
  match entry with
  | (index, Ok encoded_quote) => <[index := encoded_quote]> quotes
  | (index, Err _) => alter (fun q => set_status q EncodingFailed) index quotes
  end.

(** [available] is the outcome of the checks before encoding: a Tycho encoder for the
    chain, and a JIT router when the options ask for one. *)
Definition encode_until (available : result SolveError unit) (task : OrderQuote -> TaskResult)
    quotes : result SolveError (list OrderQuote) :=
  available ≫= fun _ =>
  encoded_quotes ← encode_quotes task 0 quotes;
  Ok (fold_left write_encoded encoded_quotes quotes).

(** ** Retries *)

Definition retry_candidates (candidates : list OrderQuote) : list OrderQuote :=
  List.filter (fun c => bool_decide (oq_status c = Success) && negb (has_rfq_leg c))
    (tail candidates).

(** One round: every order without calldata takes its next candidate. *)
Fixpoint plan_round (index : nat) quotes (retries : list (list OrderQuote))
    : list nat * list OrderQuote * list (list OrderQuote) :=
  match quotes, retries with
  | q :: quotes', candidates :: retries' =>
      let '(orders, batch, rest) := plan_round (S index) quotes' retries' in
      match bool_decide (oq_status q = EncodingFailed), candidates with
      | true, c :: candidates' => (index :: orders, c :: batch, candidates' :: rest)
      | _, _ => (orders, batch, candidates :: rest)
      end
  | _, _ => ([], [], retries)
  end.

Definition write_retried quotes (entry : nat * OrderQuote) : list OrderQuote :=
  let '(index, retried_quote) := entry in
  if bool_decide (oq_status retried_quote = Success)
  then <[index := retried_quote]> quotes else quotes.

Context (available : result SolveError unit).
(** The task results of a round, and whether the budget is spent when it starts. *)
Context (task : nat -> OrderQuote -> TaskResult) (budget_spent : nat -> bool).

Fixpoint retry_loop (fuel round : nat) quotes (retries : list (list OrderQuote))
    : option (result SolveError (list OrderQuote)) :=
  match fuel with
  | O => None
  | S fuel' =>
      let '(orders, batch, retries') := plan_round 0 quotes retries in
      match batch with
      | [] => Some (Ok quotes)
      | _ =>
          if budget_spent round then Some (Ok quotes)
          else
            match encode_until available (task round) batch with
            | Err e => Some (Err e)
            | Ok retried_quotes =>
                retry_loop fuel' (S round)
                  (fold_left write_retried (zip orders retried_quotes) quotes) retries'
            end
      end
  end.

Definition retry_count (retries : list (list OrderQuote)) : nat :=
  length (concat retries).

Definition encode_with_retries (ranked : list (list OrderQuote))
    : option (result SolveError (list OrderQuote)) :=
  let best_candidate_per_order := omap head ranked in
  let retries := retry_candidates <$> ranked in
  match encode_until available (task 0) best_candidate_per_order with
  | Err e => Some (Err e)
  | Ok quote_per_order => retry_loop (S (retry_count retries)) 1 quote_per_order retries
  end.
End encoding.

(** ** Laws *)

Section laws.
Context `{Tycho}.
Implicit Types (q c : OrderQuote) (quotes : list OrderQuote).

(** What an encoding pass makes of one quote. *)
Definition encode_one (task : OrderQuote -> TaskResult) q : OrderQuote :=
  if bool_decide (oq_status q = Success) then
    match task q with
    | Joined (Ok call) => attach_transaction q call
    | _ => set_status q EncodingFailed
    end
  else q.

Lemma attach_transaction_fields q call :
  oq_status (attach_transaction q call) = oq_status q /\
  oq_route (attach_transaction q call) = oq_route q /\
  oq_order_id (attach_transaction q call) = oq_order_id q /\
  oq_transaction (attach_transaction q call) = Some (ec_transaction call) /\
  oq_amount_out (attach_transaction q call) = ec_expected_amount_out call.
Proof. by destruct q. Qed.

Lemma encode_quotes_writes task pre quotes encoded :
  encode_quotes task (length pre) quotes = Ok encoded ->
  fold_left write_encoded encoded (pre ++ quotes) = pre ++ (encode_one task <$> quotes).
Proof.
  revert pre encoded. induction quotes as [|q quotes IH]; intros pre encoded; cbn.
  { by intros [= <-]. }
  assert (forall q' encoded', encode_quotes task (S (length pre)) quotes = Ok encoded' ->
    fold_left write_encoded encoded' (pre ++ q' :: quotes)
    = pre ++ q' :: (encode_one task <$> quotes)) as Hrest.
  { intros q' encoded' He. specialize (IH (pre ++ [q']) encoded').
    rewrite length_app, Nat.add_1_r, <- !app_assoc in IH. by apply IH. }
  unfold encode_one at 1. case_bool_decide as Hs; [|by apply Hrest].
  intros ([i r] & Ht & (others & Ho & [= <-])%bind_Ok)%bind_Ok. cbn [fold_left].
  unfold encode_task in Ht. destruct (task q) as [[call|e]| |msg]; [| | |done];
    injection Ht as <- <-; unfold write_encoded at 2; [rewrite insert_app_r_alt, Nat.sub_diag by lia
                               |rewrite alter_app_r_alt, Nat.sub_diag by lia..];
    by apply Hrest.
Qed.

(** An encoding pass acts on every quote alone. *)
Lemma encode_until_Ok available task quotes quotes' :
  encode_until available task quotes = Ok quotes' -> quotes' = encode_one task <$> quotes.
Proof.
  unfold encode_until. intros (u & _ & (encoded & He & [= <-])%bind_Ok)%bind_Ok.
  exact (encode_quotes_writes task [] quotes encoded He).
Qed.

Definition no_join_error (task : OrderQuote -> TaskResult) : Prop :=
  forall q msg, task q <> JoinError msg.

Lemma encode_until_total task quotes :
  no_join_error task -> exists quotes', encode_until (Ok tt) task quotes = Ok quotes'.
Proof.
  intros Hj. unfold encode_until. cbn [mbind result_bind].
  cut (forall index, exists encoded, encode_quotes task index quotes = Ok encoded).
  { intros Hc. destruct (Hc O) as [encoded ->]. cbn. eauto. }
  induction quotes as [|q quotes IH]; intros index; cbn; [eauto|].
  destruct (IH (S index)) as [others ->]. case_bool_decide; [|eauto].
  unfold encode_task. specialize (Hj q). destruct (task q) as [[?|?]| |msg]; cbn; eauto.
  by destruct (Hj msg).
Qed.

(** *** One retry round *)

Definition advance (f : OrderQuote -> OrderQuote) q (candidates : list OrderQuote)
    : OrderQuote * list OrderQuote :=
  match bool_decide (oq_status q = EncodingFailed), candidates with
  | true, c :: rest => (if bool_decide (oq_status (f c) = Success) then f c else q, rest)
  | _, _ => (q, candidates)
  end.

Definition advance_quotes f quotes retries := zip_with (fun q cs => (advance f q cs).1) quotes retries.
Definition advance_retries f quotes retries := zip_with (fun q cs => (advance f q cs).2) quotes retries.

Lemma plan_round_advance f pre quotes retries orders batch retries' :
  length quotes = length retries ->
  plan_round (length pre) quotes retries = (orders, batch, retries') ->
  fold_left write_retried (zip orders (f <$> batch)) (pre ++ quotes)
    = pre ++ advance_quotes f quotes retries /\
  retries' = advance_retries f quotes retries /\
  retry_count retries = (length batch + retry_count retries')%nat /\
  (batch = [] -> Forall2 (fun q cs => oq_status q = EncodingFailed -> cs = []) quotes retries).
Proof.
  revert pre retries orders batch retries'. unfold retry_count.
  induction quotes as [|q quotes IH]; intros pre [|cs retries] orders batch retries' Hlen; try done.
  { intros [= <- <- <-]. by split_and!. }
  cbn. injection Hlen as Hlen.
  destruct (plan_round (S (length pre)) quotes retries) as [[o b] r] eqn:Hplan.
  assert (forall q', plan_round (length (pre ++ [q'])) quotes retries = (o, b, r)) as Hplan'.
  { intros q'. by rewrite length_app, Nat.add_1_r. }
  assert (forall q', fold_left write_retried (zip o (f <$> b)) (pre ++ q' :: quotes)
    = pre ++ q' :: advance_quotes f quotes retries) as Hfold.
  { intros q'. destruct (IH (pre ++ [q']) _ _ _ _ Hlen (Hplan' q')) as [Hf _].
    by rewrite <- !app_assoc in Hf. }
  destruct (IH (pre ++ [q]) _ _ _ _ Hlen (Hplan' q)) as (_ & Hr & Hc & Hb). clear IH.
  unfold advance. case_bool_decide as Hs; [destruct cs as [|c cs]|]; intros [= <- <- <-].
  - split_and!; [apply Hfold|by f_equal|done|]. intros Hnil. constructor; [done|by apply Hb].
  - split_and!; [|by f_equal|cbn; rewrite !length_app; lia|done]. cbn.
    case_bool_decide; rewrite ?insert_app_r_alt, ?Nat.sub_diag by lia; apply Hfold.
  - split_and!; [apply Hfold|by f_equal|cbn; rewrite !length_app; lia|].
    intros Hnil. constructor; [done|by apply Hb].
Qed.
End laws.

(** *** The retry invariant *)

Section retries.
Context `{Tycho} (available : result SolveError unit).
Context (task : nat -> OrderQuote -> TaskResult) (budget_spent : nat -> bool).
Implicit Types (q c : OrderQuote) (quotes candidates : list OrderQuote).

(** A retried candidate replaced the best one: it is a lower-ranked, successful
    candidate without an RFQ leg, and it encoded in some round. *)
Definition replaced_by (others : list OrderQuote) q : Prop :=
  exists c round call, c ∈ others /\ oq_status c = Success /\ has_rfq_leg c = false /\
    task (S round) c = Joined (Ok call) /\ q = attach_transaction c call.

Definition first_answer candidates : option OrderQuote :=
  encode_one (task 0) <$> head candidates.

(** The answer of an order whose candidates from [rest] on are untried. *)
Definition order_ok candidates q (rest : list OrderQuote) : Prop :=
  exists best tried, first_answer candidates = Some best /\
    retry_candidates candidates = tried ++ rest /\
    ((q = best /\ forall c, c ∈ tried -> exists round,
        oq_status (encode_one (task (S round)) c) <> Success) \/
     (oq_status best = EncodingFailed /\ replaced_by (tail candidates) q)).

Lemma elem_of_retry_candidates candidates c :
  c ∈ retry_candidates candidates <->
  c ∈ tail candidates /\ oq_status c = Success /\ has_rfq_leg c = false.
Proof.
  unfold retry_candidates. rewrite elem_of_filterb, andb_true_iff, bool_decide_eq_true.
  by rewrite negb_true_iff.
Qed.

Lemma encode_one_success (f : OrderQuote -> TaskResult) c :
  oq_status c = Success -> oq_status (encode_one f c) = Success ->
  exists call, f c = Joined (Ok call) /\ encode_one f c = attach_transaction c call.
Proof.
  unfold encode_one. intros Hs. rewrite bool_decide_true by done.
  destruct (f c) as [[call|e]| |msg]; [by exists call|by destruct c..].
Qed.

Lemma order_ok_advance round candidates q rest :
  order_ok candidates q rest ->
  let '(q', rest') := advance (encode_one (task (S round))) q rest in
  order_ok candidates q' rest'.
Proof.
  intros (best & tried & Hbest & Hretry & Hq). unfold advance.
  case_bool_decide as Hfailed; [destruct rest as [|c rest]|]; try by exists best, tried.
  exists best, (tried ++ [c]). split; [done|]. split; [by rewrite <- app_assoc|].
  assert (c ∈ retry_candidates candidates) as Hc.
  { rewrite Hretry. apply elem_of_app. right. left. }
  apply elem_of_retry_candidates in Hc as (Hin & Hs & Hrfq).
  destruct Hq as [[-> Htried]|[Hb Hrep]].
  - case_bool_decide as Henc.
    + destruct (encode_one_success _ _ Hs Henc) as (call & Hcall & ->).
      right. split; [done|]. by exists c, round, call.
    + left. split; [done|].
      intros c' [Hc'|Hc']%elem_of_app; [by apply Htried|].
      apply list_elem_of_singleton in Hc' as ->. by exists round.
  - right. split; [done|]. case_bool_decide as Henc; [|done].
    destruct (encode_one_success _ _ Hs Henc) as (call & Hcall & ->).
    by exists c, round, call.
Qed.

Lemma Forall3_advance round ranked quotes retries :
  Forall3 order_ok ranked quotes retries ->
  Forall3 order_ok ranked (advance_quotes (encode_one (task (S round))) quotes retries)
    (advance_retries (encode_one (task (S round))) quotes retries).
Proof.
  induction 1 as [|candidates q rest ranked quotes retries Hok _ IH]; cbn; constructor; [|done].
  pose proof (order_ok_advance round _ _ _ Hok) as Ha. by destruct (advance _ _ _).
Qed.

Lemma Forall3_lengths {A B C} (R : A -> B -> C -> Prop) la lb lc :
  Forall3 R la lb lc -> length la = length lb /\ length lb = length lc.
Proof. induction 1 as [|????????[??]]; cbn; lia. Qed.

(** The loop ends within its fuel and keeps the invariant. Without a cut-off, an
    order that is still without calldata has no candidate left. *)
Definition retries_done ranked (r : result SolveError (list OrderQuote)) : Prop :=
  match r with
  | Ok quotes => exists retries, Forall3 order_ok ranked quotes retries /\
      ((forall round, budget_spent round = false) ->
       Forall2 (fun q cs => oq_status q = EncodingFailed -> cs = []) quotes retries)
  | Err e => (forall round, no_join_error (task round)) -> available = Err e
  end.

Lemma retry_loop_done fuel round ranked quotes retries :
  Forall3 order_ok ranked quotes retries -> (retry_count retries < fuel)%nat ->
  exists r, retry_loop available task budget_spent fuel (S round) quotes retries = Some r /\
    retries_done ranked r.
Proof.
  revert round quotes retries. induction fuel as [|fuel IH]; intros round quotes retries Hok Hfuel;
    [lia|]. cbn [retry_loop].
  destruct (plan_round 0 quotes retries) as [[orders batch] retries'] eqn:Hplan.
  destruct (Forall3_lengths _ _ _ _ Hok) as [_ Hlen].
  destruct (plan_round_advance (encode_one (task (S round))) [] _ _ _ _ _ Hlen Hplan)
    as (Hquotes & Hretries & Hcount & Hempty).
  destruct batch as [|c batch].
  { eexists. split; [done|]. exists retries. split; [done|]. intros _. by apply Hempty. }
  destruct (budget_spent (S round)) eqn:Hspent.
  { eexists. split; [done|]. exists retries. split; [done|]. congruence. }
  destruct (encode_until available (task (S round)) (c :: batch)) as [retried|e] eqn:He.
  - apply encode_until_Ok in He. subst retried. rewrite !app_nil_l in Hquotes. rewrite Hquotes. apply IH.
    + rewrite Hretries. by apply Forall3_advance.
    + cbn in Hcount. lia.
  - eexists. split; [done|]. intros Hj. destruct available as [[]|e'].
    + destruct (encode_until_total (task (S round)) (c :: batch) (Hj _)) as [? He'].
      by rewrite He' in He.
    + by injection He as <-.
Qed.

Lemma encode_with_retries_done ranked :
  Forall (fun candidates => candidates <> []) ranked ->
  exists r, encode_with_retries available task budget_spent ranked = Some r /\
    retries_done ranked r.
Proof.
  intros Hne. unfold encode_with_retries.
  destruct (encode_until available (task 0) (omap head ranked)) as [first|e] eqn:He.
  - apply encode_until_Ok in He. subst first. apply retry_loop_done; [|lia].
    induction Hne as [|[|best others] ranked Hc _ IH]; cbn; [constructor|done|].
    constructor; [|done]. exists (encode_one (task 0) best), [].
    split_and!; [done..|]. left. split; [done|]. by intros ? ?%not_elem_of_nil.
  - eexists. split; [done|]. intros Hj. destruct available as [[]|e'].
    + destruct (encode_until_total (task 0) (omap head ranked) (Hj _)) as [? He'].
      by rewrite He' in He.
    + by injection He as <-.
Qed.
End retries.

(** ** Properties *)

(** What an order's answer can be: its encoded best candidate (or that candidate
    marked as failed, or unencodable), or the encoding of a lower-ranked candidate. *)
Definition order_answer `{Tycho} (task : nat -> OrderQuote -> TaskResult)
    (candidates : list OrderQuote) (q : OrderQuote) : Prop :=
  exists best, first_answer task candidates = Some best /\
    (q = best \/ oq_status best = EncodingFailed /\ replaced_by task (tail candidates) q).

(** C35: encoding with retries always ends, and answers every order once, in request
    order: with its best candidate as encoded, or, only when that failed to encode,
    with a lower-ranked successful candidate that did and that has no RFQ leg. It
    fails as a whole only when encoding is unavailable or a task dies. *)
Theorem encode_retries_sound `{Tycho} (available : result SolveError unit)
    (task : nat -> OrderQuote -> TaskResult) (budget_spent : nat -> bool)
    (ranked : list (list OrderQuote)) :
  Forall (fun candidates => candidates <> []) ranked ->
  exists r, encode_with_retries available task budget_spent ranked = Some r /\
  match r with
  | Ok quotes => Forall2 (order_answer task) ranked quotes
  | Err e => (forall round, no_join_error (task round)) -> available = Err e
  end.
Proof.
  intros Hne. destruct (encode_with_retries_done available task budget_spent ranked Hne)
    as (r & Hr & Hdone). exists r. split; [done|]. destruct r as [quotes|e]; [|done].
  destruct Hdone as (retries & Hok & _). clear -Hok.
  induction Hok as [|candidates q rest ranked quotes retries Ho _ IH]; constructor; [|done].
  destruct Ho as (best & tried & Hbest & _ & [[-> _]|[??]]); exists best; auto.
Qed.

(** With a budget that is never spent, no order is given up early: one that is
    returned without calldata has seen every retry candidate, and every one of them
    failed to encode in some round. *)
Theorem encode_retries_exhaustive `{Tycho} (task : nat -> OrderQuote -> TaskResult)
    (ranked : list (list OrderQuote)) :
  Forall (fun candidates => candidates <> []) ranked ->
  (forall round, no_join_error (task round)) ->
  exists quotes, encode_with_retries (Ok tt) task (fun _ => false) ranked = Some (Ok quotes) /\
  Forall2 (fun candidates q => oq_status q = EncodingFailed ->
    forall c, c ∈ tail candidates -> oq_status c = Success -> has_rfq_leg c = false ->
    exists round, oq_status (encode_one (task (S round)) c) <> Success) ranked quotes.
Proof.
  intros Hne Hj. destruct (encode_with_retries_done (Ok tt) task (fun _ => false) ranked Hne)
    as (r & Hr & Hdone). destruct r as [quotes|e]; [|by apply Hdone in Hj].
  exists quotes. split; [done|]. destruct Hdone as (retries & Hok & Hexh).
  specialize (Hexh (fun _ => eq_refl)). clear -Hok Hexh.
  induction Hok as [|candidates q rest ranked quotes retries Ho _ IH]; [constructor|].
  apply Forall2_cons in Hexh as [Hrest Hexh]. constructor; [|by apply IH].
  intros Hfailed c Hc Hs Hrfq. rewrite (Hrest Hfailed) in Ho.
  destruct Ho as (best & tried & _ & Hretry & Hq). rewrite app_nil_r in Hretry.
  assert (c ∈ tried) by (rewrite <- Hretry; by apply elem_of_retry_candidates).
  destruct Hq as [[_ Htried]|[_ (c' & rd & call & _ & Hs' & _ & _ & ->)]]; [by apply Htried|].
  destruct (attach_transaction_fields c' call) as (Hst & _). congruence.
Qed.

(** A spent budget turns retrying off: the answers are one encoding pass over the
    best candidates. *)
Theorem spent_budget_disables_retries `{Tycho} (available : result SolveError unit)
    (task : nat -> OrderQuote -> TaskResult) (budget_spent : nat -> bool)
    (ranked : list (list OrderQuote)) :
  budget_spent 1%nat = true ->
  encode_with_retries available task budget_spent ranked
  = Some (encode_until available (task 0%nat) (omap head ranked)).
Proof.
  intros Hspent. unfold encode_with_retries.
  destruct (encode_until available (task 0%nat) (omap head ranked)) as [quotes|e]; [|done].
  cbn [retry_loop]. destruct (plan_round 0 quotes _) as [[orders batch] retries].
  rewrite Hspent. by destruct batch.
Qed.

(** ** Witnesses *)

Section witnesses.
#[local] Existing Instance Sample.tycho.

Definition sample_call : EncodedCall := {|
  ec_expected_amount_out := 1000; ec_estimated_gas := 210; ec_subsidy_amount := None;
  ec_transaction := {| tx_to := "router"; tx_value := 0; tx_data := "data";
                       tx_client_fee_signature_offset := None |};
  ec_fee_breakdown := FeeBreakdown_new 0 0 5 995 |}.

(** The best candidate fails, the retries encode. *)
Definition sample_task (round : nat) (q : @OrderQuote Sample.tycho) : TaskResult :=
  match round with O => Joined (Err SE_QueueFull) | S _ => Joined (Ok sample_call) end.

Definition sample_ranked : list (list OrderQuote) :=
  [[sample_quote; set_amount_out sample_quote 990]].

Lemma sample_ranked_ne : Forall (fun candidates => candidates <> []) sample_ranked.
Proof. by repeat constructor. Qed.

Lemma sample_no_join_error round : no_join_error (sample_task round).
Proof. by intros q msg; destruct round. Qed.

Lemma encode_retries_sound_witness :
  exists quotes,
    encode_with_retries (Ok tt) sample_task (fun _ => false) sample_ranked = Some (Ok quotes) /\
    Forall2 (order_answer sample_task) sample_ranked quotes.
Proof.
  destruct (encode_retries_sound (Ok tt) sample_task (fun _ => false) sample_ranked
    sample_ranked_ne) as (r & Hr & Hok).
  destruct r as [quotes|e]; [exists quotes; split; [exact Hr|exact Hok]|].
  vm_compute in Hr. discriminate Hr.
Defined.

Lemma encode_retries_exhaustive_witness :
  exists quotes,
    encode_with_retries (Ok tt) sample_task (fun _ => false) sample_ranked = Some (Ok quotes).
Proof.
  destruct (encode_retries_exhaustive sample_task sample_ranked sample_ranked_ne
    sample_no_join_error) as (quotes & Hq & _).
  exists quotes. exact Hq.
Defined.

Lemma spent_budget_disables_retries_witness :
  encode_with_retries (Ok tt) sample_task (fun _ => true) sample_ranked
  = Some (Ok [set_status sample_quote EncodingFailed]).
Proof.
  rewrite (spent_budget_disables_retries (Ok tt) sample_task (fun _ => true) sample_ranked);
    [by vm_compute|reflexivity].
Defined.
End witnesses.
