(* ===== verification/Router.v ===== *)
(** * Router: from a request to its quote

    Models [RankedQuotes], [WorkerPoolRouter::solve], [quote],
    [simulate_quotes_for] and [finalize_quote] of
    [fynd-core/src/worker_pool_router/mod.rs], composed of [Allocation],
    [Dispatch], [Ranking], [PriceGuard], [Encoding] and [Exclusive] as the code
    composes them. The environment of a request is a record: the events of every
    order's collection loop, the gas estimator, the results of the encoding tasks.
    The clock appears as the elapsed time; metrics are left out. *)

From stdpp Require Import prelude gmap strings list sorting.
From Stdlib Require Import NArith ZArith Lia.
From S2P Require Import Prelude F64 Types Route Quote Exclusive Allocation PriceGuard Fees.
From S2P Require Import Ranking RankingProofs Dispatch Encoding Exclusive Samples.

(** ** The router and its environment *)

Record WorkerPoolRouterConfig := {
  wc_default_timeout_ms : N;
  wc_min_responses : nat;
  wc_encoding_retry_budget_ms : N;
}.

Record WorkerPoolRouter `{Tycho} := {
  wr_solver_pools : list SolverPoolHandle;
  wr_config : WorkerPoolRouterConfig;
  wr_fees : RouterFees;
  wr_price_guard : option PriceGuard;
  wr_simulator : option (OrderQuote -> option ClientFeeParams -> SimulationResult);
  wr_user_share_bps : N;
}.

(** What a request meets outside the router. *)
Record Environment `{Tycho} := {
  ev_solution : Type;
  ev_solution_of : OrderQuote -> UserTransferType -> result SolveError ev_solution;
  ev_estimate_gas : ev_solution -> Strategy -> N;
  ev_schedules : list (list Event);
  ev_encoder_available : result SolveError unit;
  ev_task : nat -> OrderQuote -> TaskResult;
  ev_budget_spent : nat -> bool;
  ev_elapsed_ms : N;
}.

(** [RankedQuotes]: the candidates per order; the clock and the prices are for metrics. *)
Record RankedQuotes `{Tycho} := { rk_per_order : list (list OrderQuote) }.

Section router.
Context `{Tycho}.
Implicit Types (router : WorkerPoolRouter) (request : QuoteRequest) (options : QuoteOptions)
  (env : Environment).

Definition is_nil {A} (l : list A) : bool := match l with [] => true | _ => false end.

Definition started_at (per_order : list (list OrderQuote)) : result SolveError RankedQuotes :=
  if existsb is_nil per_order
  then Err (SE_Internal "order has no candidates: represent an order without a quote by a non-Success OrderQuote")
  else Ok {| rk_per_order := per_order |}.

Fixpoint into_best (per_order : list (list OrderQuote)) : outcome (list OrderQuote) :=
  match per_order with
  | [] => Ret []
  | [] :: _ => Panic
  | (best :: _) :: rest => others ← into_best rest; Ret (best :: others)
  end.

Definition effective_timeout router options : N :=
  default (wc_default_timeout_ms (wr_config router)) (qo_timeout_ms options).

Definition effective_min_responses router options : nat :=
  default (wc_min_responses (wr_config router)) (qo_min_responses options).

Definition order_class request (access : ExclusiveAccess) : OrderClass := {|
  oc_exclusive_access := access;
  oc_requires_tokens :=
    negb (bool_decide (rc_required_tokens (qo_route_filter (qr_options request)) = ∅)) |}.

(** The checks before any pool is asked, and the allocation of every order. *)
Definition allocate_orders router request (access : ExclusiveAccess)
    : result SolveError (list Allocation) :=
  match wr_solver_pools router with
  | [] => Err (SE_Internal "no solver pools configured")
  | _ =>
      let class := order_class request access in
      let pool_allowlist := qo_worker_pools (qr_options request) in
      _ ← (match pool_allowlist with
           | Some allowlist => validate_pool_allowlist (wr_solver_pools router) allowlist
           | None => Ok tt
           end);
      let allocations :=
        (fun _ : Order => allocate (wr_solver_pools router) class pool_allowlist)
          <$> qr_orders request in
      if existsb Allocation_is_empty allocations then
        let serves_without_required_tokens :=
          negb (Allocation_is_empty
                  (allocate (wr_solver_pools router) (without_required_tokens class) pool_allowlist)) in
        if oc_requires_tokens class && serves_without_required_tokens
        then Err SE_RequiredTokensNotSupported
        else Err (SE_Internal "no solver pool serves this request")
      else Ok allocations
  end.

(** [join_all] of the collection loops; [None] for a schedule that does not end one. *)
Fixpoint solve_orders (min_responses : nat) (orders : list Order) (allocations : list Allocation)
    (schedules : list (list Event)) : option (list OrderResponses) :=
  match orders, allocations, schedules with
  | order :: orders', a :: allocations', events :: schedules' =>
      responses ← solve_order order a min_responses events;
      rest ← solve_orders min_responses orders' allocations' schedules';
      Some (responses :: rest)
  | [], _, _ => Some []
  | _, _, _ => None
  end.

(** The passes on every response when the request asks for encoding. *)
Definition refine_responses router env options (all : list OrderResponses)
    : outcome (result SolveError (list OrderResponses)) :=
  match qo_encoding_options options with
  | Some encoding_options =>
      refined <-? refine_gas_estimates (ev_solution_of env) (ev_estimate_gas env) all encoding_options;
      drop_pamm_quotes_below_min_amount_out (wr_fees router) refined encoding_options
  | None => Ret (Ok all)
  end.

Definition rank_order router options (responses : OrderResponses) (a : Allocation)
    : outcome (list OrderQuote) :=
  if al_exclusive_routing_active a then
    let public_ranked := rank_quotes (public_only (al_scopes a) responses) options in
    combine_with_surplus responses (al_scopes a) options public_ranked (wr_user_share_bps router)
  else Ret (rank_quotes responses options).

Fixpoint rank_orders router options (all : list OrderResponses) (allocations : list Allocation)
    : outcome (list (list OrderQuote)) :=
  match all, allocations with
  | responses :: all', a :: allocations' =>
      ranked ← rank_order router options responses a;
      rest ← rank_orders router options all' allocations';
      Ret (ranked :: rest)
  | _, _ => Ret []
  end.

Definition guard_ranked router options (ranked_quotes : list (list OrderQuote))
    : result SolveError (list (list OrderQuote)) :=
  let price_guard_config :=
    match qo_encoding_options options with
    | Some e => if pg_enabled (eo_price_guard e) then Some (eo_price_guard e) else None
    | None => None
    end in
  match wr_price_guard router, price_guard_config with
  | Some guard, Some config =>
      match PriceGuard_validate guard ranked_quotes config with
      | Ok kept => Ok kept
      | Err NoProviders => Err (SE_Internal "price guard is enabled but no providers are registered")
      | Err EmptyQuoteCandidates => Err (SE_Internal "received empty candidates list")
      end
  | None, Some _ =>
      Err (SE_Internal "price guard config provided but price guard is not enabled on this server")
  | _, None => Ok ranked_quotes
  end.

(** [None]: the schedules are not complete runs of the collection loops. *)
Definition solve router env request (access : ExclusiveAccess)
    : option (outcome (result SolveError RankedQuotes)) :=
  let options := qr_options request in
  match allocate_orders router request access with
  | Err e => Some (Ret (Err e))
  | Ok allocations =>
      order_responses ← solve_orders (effective_min_responses router options)
                          (qr_orders request) allocations (ev_schedules env);
      Some (refined <-? refine_responses router env options order_responses;
            ranked_quotes ← rank_orders router options refined allocations;
            ranked_per_order <-? Ret (guard_ranked router options ranked_quotes);
            Ret (started_at ranked_per_order))
  end.

(** ** Simulation and assembly *)

Definition simulate_quotes_for router (order_quotes : list OrderQuote)
    (encoding_options : EncodingOptions) : result SolveError (list OrderQuote) :=
  if negb (eo_simulate encoding_options) then Ok order_quotes
  else match wr_simulator router with
       | None => Err (SE_Internal "simulation requested but simulation is not enabled on this server")
       | Some simulate =>
           Ok ((fun q => if bool_decide (oq_status q = Success)
                         then set_simulation_result q
                                (simulate q (eo_client_fee_params encoding_options))
                         else q) <$> order_quotes)
       end.

Definition finalize_quote (order_quotes : list OrderQuote) (solve_time_ms : N) : Quote := {|
  quote_orders := order_quotes;
  quote_total_gas_estimate := sum_by oq_gas_estimate order_quotes;
  quote_solve_time_ms := solve_time_ms |}.

(** The stages after solving. [None] only if the retry loop had no fuel. *)
Definition answer_ranked router env options (ranked : RankedQuotes)
    : option (outcome (result SolveError (list OrderQuote))) :=
  match qo_encoding_options options with
  | Some encoding_options =>
      encoded ← encode_with_retries (ev_encoder_available env) (ev_task env)
                  (ev_budget_spent env) (rk_per_order ranked);
      Some (Ret (encoded ≫= fun quotes => simulate_quotes_for router quotes encoding_options))
  | None => Some (best ← into_best (rk_per_order ranked); Ret (Ok best))
  end.

Definition quote router env request (access : ExclusiveAccess)
    : option (outcome (result SolveError Quote)) :=
  solved ← solve router env request access;
  match solved with
  | Panic => Some Panic
  | Ret (Err e) => Some (Ret (Err e))
  | Ret (Ok ranked) =>
      answered ← answer_ranked router env (qr_options request) ranked;
      Some (order_quotes <-? answered;
            Ret (Ok (finalize_quote order_quotes (ev_elapsed_ms env))))
  end.
End router.
