(* ===== verification/RouterProofs.v ===== *)
(** * RouterProofs: the contract of the router

    The theorems of the composed pipeline of [Router]: one non-empty ranking per
    order, no panic on well-formed candidates, no exclusive liquidity without
    access, and one answer per order in the assembled quote. *)

From stdpp Require Import prelude gmap strings list sorting.
From Stdlib Require Import NArith ZArith Lia.
From S2P Require Import Prelude F64 Types Route Amounts Quote Exclusive.
From S2P Require Import Allocation PriceGuard Fees Ranking RankingProofs Dispatch Encoding Router.
From S2P Require Import Samples.

Section stages.
Context `{Tycho}.
Implicit Types (router : WorkerPoolRouter) (request : QuoteRequest) (options : QuoteOptions)
  (env : Environment).

Definition nonempty_lists : list (list OrderQuote) -> Prop := Forall (fun cs => cs <> []).

(** ** Allocation and collection *)

Lemma allocate_orders_Ok router request access allocations :
  allocate_orders router request access = Ok allocations ->
  length allocations = length (qr_orders request) /\
  forall a, a ∈ allocations -> a = allocate (wr_solver_pools router)
    (order_class request access) (qo_worker_pools (qr_options request)).
Proof.
  unfold allocate_orders. destruct (wr_solver_pools router) as [|p ps] eqn:Hp; [done|].
  rewrite <- Hp. intros ([] & _ & Hr)%bind_Ok.
  destruct (existsb Allocation_is_empty _); [by destruct (_ && _)|].
  injection Hr as <-. split; [by rewrite length_fmap|].
  by intros a (_ & -> & _)%list_elem_of_fmap.
Qed.

Lemma solve_orders_Some min_responses orders allocations schedules all :
  solve_orders min_responses orders allocations schedules = Some all ->
  length all = length orders /\
  forall i responses, all !! i = Some responses -> exists order a events,
    orders !! i = Some order /\ allocations !! i = Some a /\
    solve_order order a min_responses events = Some responses.
Proof.
  revert allocations schedules all.
  induction orders as [|order orders IH]; intros allocations schedules all; cbn.
  { intros [= <-]. by split; [|intros i r]. }
  destruct allocations as [|a allocations]; [done|]. destruct schedules as [|events schedules]; [done|].
  destruct (solve_order order a min_responses events) as [r|] eqn:Hr; cbn; [|done].
  destruct (solve_orders _ _ _ _) as [rest|] eqn:Hrest; cbn; [|done]. intros [= <-].
  apply IH in Hrest as [Hlen Hall]. split; [cbn; lia|].
  intros [|i] responses; cbn; [|apply Hall]. intros [= <-]. by exists order, a, events.
Qed.

Lemma quotes_related_length R all all' : quotes_related R all all' -> length all = length all'.
Proof. apply Forall2_length. Qed.

Lemma refine_responses_related router env options all all' :
  refine_responses router env options all = Ret (Ok all') ->
  exists mid, quotes_related (fun q q' => q' = q \/
      exists opts, refine_quote (ev_solution_of env) (ev_estimate_gas env) opts q = Ret (Ok q')) all mid /\
    quotes_related (fun q q' => q' = q \/
      exists opts, check_fallback_quote (wr_fees router) opts q = Ret (Ok q')) mid all'.
Proof.
  assert (forall (R R' : relation OrderQuote) l l', (forall q q', R q q' -> R' q q') ->
    quotes_related R l l' -> quotes_related R' l l') as Hmono.
  { intros R R' l l' HR Hl. eapply Forall2_impl; [exact Hl|]. intros r r' (? & ? & Hq).
    split_and!; [done..|]. eapply Forall2_impl; [exact Hq|]. cbn. naive_solver. }
  assert (forall (R : relation OrderQuote) l, (forall q, R q q) -> quotes_related R l l) as Hrefl.
  { intros R l HR. apply Forall_Forall2_diag, Forall_forall. intros r _.
    split_and!; [done..|]. apply Forall_Forall2_diag, Forall_forall. done. }
  unfold refine_responses. destruct (qo_encoding_options options) as [opts|].
  - intros (mid & Href%map_responses_Ok & Hdrop%map_responses_Ok)%try_bind_Ok. exists mid.
    split; (eapply Hmono; [|eassumption]); cbn; eauto.
  - intros [= <-]. exists all. split; apply Hrefl; auto.
Qed.

(** ** Ranking and price guard *)

Lemma combine_nonempty responses scopes options public share result :
  public <> [] -> combine_with_surplus responses scopes options public share = Ret result ->
  result <> [].
Proof.
  intros Hpub. unfold combine_with_surplus.
  intros (candidate & _ & Hc)%bind_Ret. destruct candidate as [c|]; [|by injection Hc as <-].
  apply bind_Ret in Hc as (commitment & _ & Hc).
  destruct commitment as [committed|]; [|by injection Hc as <-].
  apply bind_Ret in Hc as (savings & _ & Hc). apply bind_Ret in Hc as (p & _ & Hc).
  destruct (insert_pinned_spec public p) as (before & after & Hins & _). rewrite Hins in Hc.
  injection Hc as <-. by destruct before.
Qed.

Lemma rank_quotes_nonempty responses options : rank_quotes responses options <> [].
Proof.
  destruct (decide (rankable_quotes responses options = [])) as [Hnil|Hne].
  - destruct (placeholder_fields _ _ Hnil) as (p & -> & _). done.
  - rewrite rank_quotes_ranked by done. by intros ?%fmap_nil_inv%sort_desc_nil.
Qed.

Lemma rank_orders_Ret router options all allocations ranked :
  length all = length allocations -> rank_orders router options all allocations = Ret ranked ->
  length ranked = length all /\ nonempty_lists ranked /\
  forall i candidates, ranked !! i = Some candidates -> exists responses a,
    all !! i = Some responses /\ allocations !! i = Some a /\
    rank_order router options responses a = Ret candidates.
Proof.
  revert allocations ranked. induction all as [|r all IH]; intros [|a allocations] ranked; cbn; try done.
  { intros _ [= <-]. split_and!; [done|constructor|done]. }
  intros [= Hlen] (candidates & Hc & (rest & Hr & [= <-])%bind_Ret)%bind_Ret.
  destruct (IH _ _ Hlen Hr) as (Hl & Hne & Hall). split_and!; [cbn; lia| |].
  - constructor; [|done]. unfold rank_order in Hc. destruct (al_exclusive_routing_active a).
    + eapply combine_nonempty; [|done]. apply rank_quotes_nonempty.
    + injection Hc as <-. apply rank_quotes_nonempty.
  - intros [|i] cs; cbn; [|apply Hall]. intros [= <-]. by exists r, a.
Qed.

(** What the guard may make of a ranking: it keeps candidates and may mark one. *)
Definition guarded_from (cs ks : list OrderQuote) : Prop :=
  ks <> [] /\ forall k, k ∈ ks -> oq_status k = Success -> k ∈ cs.

Lemma guard_ranked_Ok router options ranked kept :
  nonempty_lists ranked -> guard_ranked router options ranked = Ok kept ->
  Forall2 guarded_from ranked kept.
Proof.
  intros Hne. unfold guard_ranked.
  assert (Forall2 guarded_from ranked ranked) as Hrefl.
  { apply Forall_Forall2_diag. eapply Forall_impl; [exact Hne|]. by intros cs Hcs. }
  destruct (wr_price_guard router) as [guard|], (match qo_encoding_options options with
    | Some e => _ | None => None end) as [config|]; try done; try by intros [= <-].
  unfold PriceGuard_validate. destruct (negb (pg_enabled config)); [by intros [= <-]|].
  destruct (providers guard); [done|]. rewrite validate_orders_spec by done. intros [= <-].
  apply Forall2_fmap_r, Forall_Forall2_diag. eapply Forall_impl; [exact Hne|]. cbn.
  intros cs Hcs. split; [by apply retained_nonempty|]. intros k.
  destruct cs as [|first rest]; [done|]. unfold retained. case_bool_decide; [|done].
  destruct (List.filter _ _) as [|k0 ks] eqn:Hf.
  - intros ->%list_elem_of_singleton. by destruct first.
  - rewrite <- Hf. by intros [??]%elem_of_filterb.
Qed.

Lemma started_at_Ok per_order ranked :
  started_at per_order = Ok ranked -> rk_per_order ranked = per_order.
Proof. unfold started_at. destruct (existsb _ _); [done|]. by intros [= <-]. Qed.

Lemma started_at_nonempty per_order :
  nonempty_lists per_order -> started_at per_order = Ok {| rk_per_order := per_order |}.
Proof.
  intros Hne. unfold started_at. destruct (existsb is_nil per_order) eqn:He; [|done].
  apply existsb_exists in He as (cs & Hin & Hnil). unfold nonempty_lists in Hne. rewrite Forall_forall in Hne.
  apply list_elem_of_In, Hne in Hin. by destruct cs.
Qed.

Lemma solve_stages router env request access ranked :
  solve router env request access = Some (Ret (Ok ranked)) ->
  let options := qr_options request in
  exists allocations all refined per_order,
    allocate_orders router request access = Ok allocations /\
    solve_orders (effective_min_responses router options) (qr_orders request) allocations
      (ev_schedules env) = Some all /\
    refine_responses router env options all = Ret (Ok refined) /\
    rank_orders router options refined allocations = Ret per_order /\
    length refined = length allocations /\ length allocations = length (qr_orders request) /\
    Forall2 guarded_from per_order (rk_per_order ranked).
Proof.
  unfold solve. destruct (allocate_orders router request access) as [allocations|e] eqn:Ha; [|done].
  destruct (solve_orders _ _ _ _) as [all|] eqn:Hall; cbn [mbind option_bind]; [|done].
  intros [= Hs]. apply try_bind_Ok in Hs as (refined & Href & Hs).
  apply bind_Ret in Hs as (per_order & Hrank & Hs).
  destruct (guard_ranked router _ per_order) as [kept|e] eqn:Hkept; [|done].
  injection Hs as Hs. apply started_at_Ok in Hs as ->.
  exists allocations, all, refined, per_order.
  destruct (allocate_orders_Ok _ _ _ _ Ha) as [Hla _].
  destruct (solve_orders_Some _ _ _ _ _ Hall) as [Hlall _].
  destruct (refine_responses_related _ _ _ _ _ Href) as
    (mid & Hl1%quotes_related_length & Hl2%quotes_related_length).
  assert (length refined = length allocations) as Hlen by lia.
  destruct (rank_orders_Ret _ _ _ _ _ Hlen Hrank) as (_ & Hne & _).
  split_and!; try done. by eapply guard_ranked_Ok.
Qed.

Lemma solve_lists router env request access ranked :
  solve router env request access = Some (Ret (Ok ranked)) ->
  length (rk_per_order ranked) = length (qr_orders request) /\ nonempty_lists (rk_per_order ranked).
Proof.
  intros (allocations & all & refined & per_order & _ & _ & _ & Hrank & Hl1 & Hl2 & Hg)%solve_stages.
  destruct (rank_orders_Ret _ _ _ _ _ Hl1 Hrank) as (Hl & _).
  pose proof (Forall2_length _ _ _ Hg) as Hlen. split; [lia|].
  eapply Forall2_Forall_r; [exact Hg|]. apply Forall_forall. by intros cs _ ks [? _].
Qed.

Lemma into_best_total (per_order : list (list OrderQuote)) :
  nonempty_lists per_order ->
  exists best, into_best per_order = Ret best /\ length best = length per_order.
Proof.
  induction 1 as [|[|b cs] l Hc _ (best & IH & Hlen)]; cbn; [by exists []|done|].
  rewrite IH. cbn. eexists. split; [done|]. cbn. lia.
Qed.

Lemma encode_retries_length available task budget_spent ranked quotes :
  nonempty_lists ranked ->
  encode_with_retries available task budget_spent ranked = Some (Ok quotes) ->
  length quotes = length ranked.
Proof.
  intros Hne Heq. destruct (encode_with_retries_done available task budget_spent ranked Hne)
    as (r & Hr & Hdone). rewrite Heq in Hr. injection Hr as <-.
  destruct Hdone as (retries & Hok & _). apply Forall3_lengths in Hok. lia.
Qed.

Lemma simulate_quotes_length router quotes opts quotes' :
  simulate_quotes_for router quotes opts = Ok quotes' -> length quotes' = length quotes.
Proof.
  unfold simulate_quotes_for. destruct (negb _); [by intros [= <-]|].
  destruct (wr_simulator router); [|done]. intros [= <-]. apply length_fmap.
Qed.
End stages.

(** ** Properties *)

(** A solved request has one ranking per order, in request order, and none of
    them is empty, with or without a price guard: taking the best candidate of every
    order cannot panic. *)
Theorem solve_one_ranking_per_order `{Tycho} (router : WorkerPoolRouter) (env : Environment)
    (request : QuoteRequest) (access : ExclusiveAccess) (ranked : RankedQuotes) :
  solve router env request access = Some (Ret (Ok ranked)) ->
  length (rk_per_order ranked) = length (qr_orders request) /\
  Forall (fun candidates => candidates <> []) (rk_per_order ranked) /\
  exists best, into_best (rk_per_order ranked) = Ret best /\
    length best = length (qr_orders request).
Proof.
  intros [Hlen Hne]%solve_lists. split_and!; [done|exact Hne|].
  destruct (into_best_total _ Hne) as (best & Hbest & Hl). exists best. split; [done|lia].
Qed.

Section denied.
Context `{Tycho}.

(** The pool a quote came from never changes after collection. *)
Lemma refine_keeps_pool {S} (f : OrderQuote -> UserTransferType -> result SolveError S) g opts q q' :
  refine_quote f g opts q = Ret (Ok q') -> oq_worker_pool q' = oq_worker_pool q.
Proof.
  unfold refine_quote. destruct (negb _); [by intros [= <-]|].
  intros (s & _ & Hr)%try_bind_Ok. destruct (0 <? _); [|by injection Hr as <-].
  apply bind_Ret in Hr as (net & _ & [= <-]). by destruct q.
Qed.

Lemma check_fallback_keeps_pool fees opts q q' :
  check_fallback_quote fees opts q = Ret (Ok q') -> oq_worker_pool q' = oq_worker_pool q.
Proof.
  intros [[-> _]|[_ ->]]%check_fallback_quote_spec; [done|by destruct q].
Qed.

Lemma solve_order_pools order a min_responses events responses wq :
  NoDup (pool_names a) -> solve_order order a min_responses events = Some responses ->
  wq ∈ or_quotes responses ->
  oq_worker_pool (wq_quote wq) = wq_worker_pool wq /\ wq_worker_pool wq ∈ pool_names a.
Proof.
  intros Hnd. unfold solve_order.
  destruct (collect _ _ _ _) as [[|why st]|] eqn:Hc; [done| |done]. intros [= <-] Hwq.
  apply collect_reachable in Hc; [|constructor].
  pose proof (reachable_ok _ _ _ Hnd Hc) as Hok. cbn in Hwq, Hok.
  assert (wq_worker_pool wq ∈ answered st) as Hin.
  { apply elem_of_app. left. by apply list_elem_of_fmap_2. }
  destruct Hok as [Hexit Hpool]. split; [by apply Hpool|].
  destruct why; cbn in Hexit; [by rewrite <- Hexit| |by rewrite <- Hexit].
  destruct Hexit as (_ & _ & Hsub & _). by apply Hsub.
Qed.

Lemma allocated_names_NoDup pools class allowlist :
  NoDup (sp_name <$> pools) -> NoDup (pool_names (allocate pools class allowlist)).
Proof.
  intros Hnd. eapply sublist_NoDup; [exact Hnd|]. apply fmap_sublist. cbn.
  etransitivity; apply sublist_filterb.
Qed.

(** A successful ranked quote of a request without exclusive routing is the refined
    quote of a pool that was allocated. *)
Lemma public_rank_pool router env options a all refined i responses candidates q :
  al_exclusive_routing_active a = false ->
  refine_responses router env options all = Ret (Ok refined) ->
  refined !! i = Some responses -> rank_order router options responses a = Ret candidates ->
  q ∈ candidates -> oq_status q = Success ->
  exists r wq, r ∈ all /\ wq ∈ or_quotes r /\ oq_worker_pool (wq_quote wq) = oq_worker_pool q.
Proof.
  intros Hact Href Hi Hrank Hq Hs. unfold rank_order in Hrank. rewrite Hact in Hrank.
  injection Hrank as <-. destruct (elem_of_rank_quotes _ _ _ Hq Hs) as (wq & Hwq & <- & _).
  destruct (refine_responses_related _ _ _ _ _ Href) as (mid & Hr1 & Hr2).
  apply list_elem_of_lookup_2 in Hi.
  destruct (quotes_related_elem _ _ _ _ _ Hr2 Hi Hwq) as (r1 & wq1 & Hr & Hwq1 & Hrel1).
  destruct (quotes_related_elem _ _ _ _ _ Hr1 Hr Hwq1) as (r0 & wq0 & Hr0 & Hwq0 & Hrel0).
  exists r0, wq0. split_and!; [done..|]. transitivity (oq_worker_pool (wq_quote wq1)).
  - symmetry. destruct Hrel0 as [->|[opts Ho]]; [done|by eapply refine_keeps_pool].
  - symmetry. destruct Hrel1 as [->|[opts Ho]]; [done|by eapply check_fallback_keeps_pool].
Qed.

Lemma denied_class_public pools class allowlist name :
  oc_exclusive_access class = Denied -> name ∈ pool_names (allocate pools class allowlist) ->
  exists p, p ∈ pools /\ sp_name p = name /\ sp_liquidity_scope p = PublicOnly.
Proof.
  intros Hden (p & -> & Hp)%list_elem_of_fmap.
  apply elem_of_allocated in Hp as (Hp & Hserves & _). exists p. split_and!; [done..|].
  unfold serves in Hserves. rewrite Hden in Hserves. by destruct (sp_liquidity_scope p).
Qed.

Lemma denied_inactive pools class allowlist :
  oc_exclusive_access class = Denied ->
  al_exclusive_routing_active (allocate pools class allowlist) = false.
Proof.
  intros Hden. apply not_true_is_false. rewrite exclusive_active_iff.
  intros [name Hn%allocated_exclusive_granted]. congruence.
Qed.
End denied.

(** C2: a request without access to exclusive liquidity never gets a quote from an
    exclusive-scope pool: every successful candidate of every order, through
    dispatch, gas refinement, ranking and the price guard, comes from a configured
    pool that routes through public liquidity only. *)
Theorem denied_uses_public_pools `{Tycho} (router : WorkerPoolRouter) (env : Environment)
    (request : QuoteRequest) (ranked : RankedQuotes) (candidates : list OrderQuote)
    (q : OrderQuote) :
  NoDup (sp_name <$> wr_solver_pools router) ->
  solve router env request Denied = Some (Ret (Ok ranked)) ->
  candidates ∈ rk_per_order ranked -> q ∈ candidates -> oq_status q = Success ->
  exists p, p ∈ wr_solver_pools router /\ sp_name p = oq_worker_pool q /\
    sp_liquidity_scope p = PublicOnly.
Proof.
  intros Hnd (allocations & all & refined & per_order & Ha & Hall & Href & Hrank & Hl1 & _ & Hg)%solve_stages
    (i & Hi)%list_elem_of_lookup Hq Hs.
  destruct (Forall2_lookup_r _ _ _ _ _ Hg Hi) as (cs & Hcs & _ & Hkept).
  destruct (rank_orders_Ret _ _ _ _ _ Hl1 Hrank) as (_ & _ & Hro).
  destruct (Hro i cs Hcs) as (responses & a & Hresp & Hai & Hrank').
  destruct (allocate_orders_Ok _ _ _ _ Ha) as [_ Hsame].
  assert (a = _) as Haeq by (eapply Hsame, list_elem_of_lookup_2, Hai).
  destruct (public_rank_pool router env (qr_options request) a all refined i responses cs q)
    as (r & wq & (j & Hj)%list_elem_of_lookup & Hwq & Hpool); try done.
  { subst a. by apply denied_inactive. }
  { by apply Hkept. }
  destruct (solve_orders_Some _ _ _ _ _ Hall) as [_ Hso].
  destruct (Hso j r Hj) as (order & a' & events & _ & Haj & Hsolve).
  assert (a' = _) as Ha' by (eapply Hsame, list_elem_of_lookup_2, Haj). subst a'.
  destruct (solve_order_pools _ _ _ _ _ wq (allocated_names_NoDup _ _ _ Hnd) Hsolve Hwq)
    as [Hname Hin].
  rewrite <- Hpool, Hname. eapply denied_class_public; [|exact Hin]. done.
Qed.

(** ** No panic *)

Section no_panic.
Context `{Tycho}.

Lemma candidate_ok_transfer q q' :
  candidate_ok q -> oq_route q' = oq_route q -> oq_amount_out q' = oq_amount_out q ->
  quote_net_ok q' -> candidate_ok q'.
Proof.
  intros [_ Hin Hleg] Hr Ha Hn. split; [done|by rewrite Hr|]. rewrite Hr, Ha. exact Hleg.
Qed.

Lemma set_worker_pool_ok q name : candidate_ok q -> candidate_ok (set_worker_pool q name).
Proof.
  intros Hok. apply (candidate_ok_transfer q); [done|by destruct q|by destruct q|].
  pose proof (co_net _ Hok). by destruct q.
Qed.

Lemma set_rejected_ok q cause :
  candidate_ok q -> candidate_ok (set_no_route_cause (set_status q NoRouteFound) cause).
Proof.
  intros Hok. apply (candidate_ok_transfer q); [done|by destruct q|by destruct q|].
  pose proof (co_net _ Hok). by destruct q.
Qed.

(** The answers in a schedule. *)
Definition schedule_ok (events : list Event) : Prop :=
  forall name single, Answered name (Ok single) ∈ events -> candidate_ok (so_order single).

Lemma collect_quotes_ok a min_responses st events p :
  schedule_ok events -> Forall (fun wq => candidate_ok (wq_quote wq)) (cl_quotes st) ->
  collect a min_responses st events = Some p ->
  match p with Running st' | Done _ st' =>
    Forall (fun wq => candidate_ok (wq_quote wq)) (cl_quotes st') end.
Proof.
  revert st. induction events as [|ev events IH]; intros st Hev Hst; cbn; [by intros [= <-]|].
  assert (schedule_ok events) as Hev' by (intros name single ?; eapply Hev; by right).
  destruct (loop_step a min_responses st ev) as [ph|] eqn:Hstep; [|done].
  assert (match ph with Running st' | Done _ st' =>
    Forall (fun wq => candidate_ok (wq_quote wq)) (cl_quotes st') end) as Hph.
  { destruct ev as [elapsed drained|name [single|e]|]; cbn in Hstep.
    - case_decide; [|done]. by injection Hstep as <-.
    - case_decide; [|done]. injection Hstep as <-.
      assert (Forall (fun wq => candidate_ok (wq_quote wq)) (cl_quotes (on_quote a st name single))).
      { cbn. apply Forall_app. split; [done|]. constructor; [|done].
        apply set_worker_pool_ok, (Hev name). left. }
      by destruct (early_return _ _ _).
    - case_decide; [|done]. by injection Hstep as <-.
    - destruct (cl_pending st); [|done]. by injection Hstep as <-. }
  destruct ph as [st'|why st']; [by apply IH|]. destruct events; [|done]. by intros [= <-].
Qed.

Lemma solve_order_quotes_ok order a min_responses events responses :
  schedule_ok events -> solve_order order a min_responses events = Some responses ->
  forall wq, wq ∈ or_quotes responses -> candidate_ok (wq_quote wq).
Proof.
  intros Hev. unfold solve_order. destruct (collect _ _ _ _) as [[|why st]|] eqn:Hc; [done| |done].
  intros [= <-]. cbn. apply Forall_forall.
  exact (collect_quotes_ok a _ (start a) _ _ Hev (Forall_nil_2 _) Hc).
Qed.

Lemma solve_orders_quotes_ok min_responses orders allocations schedules all :
  Forall schedule_ok schedules -> solve_orders min_responses orders allocations schedules = Some all ->
  all_quotes candidate_ok all.
Proof.
  revert allocations schedules all.
  induction orders as [|order orders IH]; intros [|a allocations] schedules all Hs; cbn;
    try (intros [= <-]; by intros r wq ?%not_elem_of_nil); try done.
  destruct Hs as [|events schedules Hev Hs]; [done|].
  destruct (solve_order order a min_responses events) as [r|] eqn:Hr; cbn; [|done].
  destruct (solve_orders _ _ _ _) as [rest|] eqn:Hrest; cbn; [|done]. intros [= <-].
  intros r' wq [->|Hr']%elem_of_cons Hwq; [by eapply solve_order_quotes_ok|].
  by eapply (IH _ _ _ Hs Hrest).
Qed.

Lemma refined_candidate_ok {S} (f : OrderQuote -> UserTransferType -> result SolveError S) g opts q q' :
  candidate_ok q -> refined_quote f g opts q q' -> candidate_ok q'.
Proof.
  intros Hok [Hnet Hframe _ _ _]. apply (candidate_ok_transfer q); [done| | |done];
    rewrite <- Hframe; by destruct q'.
Qed.

(** Fee configurations and slippage the request may meet. *)
Definition fees_sane router options : Prop :=
  forall opts, qo_encoding_options options = Some opts ->
    slippage_units (eo_slippage opts) <= 1000000 /\
    forall client, fee_widths (client_fee_bps_of opts) (fees_for (wr_fees router) client).

Lemma check_fallback_step fees opts :
  slippage_units (eo_slippage opts) <= 1000000 ->
  (forall client, fee_widths (client_fee_bps_of opts) (fees_for fees client)) ->
  step_spec candidate_ok (fun _ q' => candidate_ok q') (fun _ _ => True)
    (check_fallback_quote fees opts).
Proof.
  intros Hs Hw q Hok. destruct (check_fallback_quote fees opts q) as [[q'|e]|] eqn:Hc; [|done|].
  - apply check_fallback_quote_spec in Hc as [[-> _]|[_ ->]]; [done|by apply set_rejected_ok].
  - unfold check_fallback_quote in Hc. destruct (negb _); [done|].
    destruct (oq_route q ≫= rt_fallback_amount_out); [|done].
    pose proof (fallback_clears_no_panic fees q opts (Hw _) Hs).
    destruct (fallback_clears_min_amount_out fees q opts) as [[[]|e]|]; done.
Qed.

Lemma all_quotes_related (P : OrderQuote -> Prop) (R : relation OrderQuote) all all' :
  (forall q q', P q -> R q q' -> P q') -> quotes_related R all all' ->
  all_quotes P all -> all_quotes P all'.
Proof.
  intros HR Hrel Hall r' wq' Hr' Hwq'.
  destruct (quotes_related_elem _ _ _ _ _ Hrel Hr' Hwq') as (r & wq & Hr & Hwq & HRq).
  eapply HR; [by eapply Hall|done].
Qed.

Lemma refine_responses_ok router env options all :
  fees_sane router options -> all_quotes candidate_ok all ->
  match refine_responses router env options all with
  | Panic => False
  | Ret (Ok all') => all_quotes candidate_ok all'
  | Ret (Err _) => True
  end.
Proof.
  intros Hfees Hall. unfold refine_responses.
  destruct (qo_encoding_options options) as [opts|] eqn:Ho; [|done].
  destruct (Hfees opts Ho) as [Hs Hw].
  pose proof (map_responses_spec _ _ _ _ all
    (refine_quote_spec (ev_solution_of env) (ev_estimate_gas env) opts)) as Href.
  unfold refine_gas_estimates. destruct (map_responses _ all) as [[mid|e]|]; cbn [try_bind]; [|done|].
  2: apply Href; intros r wq ??; by eapply co_net, Hall.
  assert (all_quotes candidate_ok mid) as Hmid.
  { eapply all_quotes_related; [|apply Href|exact Hall].
    - intros q q'. apply refined_candidate_ok.
    - intros r wq ??. by eapply co_net, Hall. }
  pose proof (map_responses_spec _ _ _ _ mid (check_fallback_step (wr_fees router) opts Hs Hw) Hmid)
    as Hdrop.
  unfold drop_pamm_quotes_below_min_amount_out.
  destruct (map_responses _ mid) as [[all'|e]|]; [|done|done].
  eapply all_quotes_related; [|exact Hdrop|exact Hmid]. done.
Qed.

Lemma rank_orders_total router options all allocations :
  wr_user_share_bps router <= bps.DENOMINATOR -> all_quotes candidate_ok all ->
  exists ranked, rank_orders router options all allocations = Ret ranked.
Proof.
  intros Hshare. revert allocations.
  induction all as [|r all IH]; intros [|a allocations] Hall; cbn; eauto.
  assert (exists c, rank_order router options r a = Ret c) as [c ->].
  { unfold rank_order. destruct (al_exclusive_routing_active a); [|eauto].
    destruct (combine_with_surplus_overlay r (al_scopes a) options
      (rank_quotes (public_only (al_scopes a) r) options) (wr_user_share_bps router))
      as (result & -> & _); eauto.
    - apply rank_quotes_sorted.
    - intros wq Hwq. eapply Hall; [left|done]. }
  destruct (IH allocations) as [rest ->]; [|cbn; eauto].
  intros r' wq ??. eapply Hall; [by right|done].
Qed.
End no_panic.

(** C1: solving never panics, whatever the request, the order in which the pools
    answer and the encoder: when every pool's quote is a well-formed candidate, the
    surplus share is at most 100% and the fee configuration has its declared widths,
    every subtraction, division and insertion of the pipeline is in range, so solving
    ends with rankings or with an error value. *)
Theorem solve_never_panics `{Tycho} (router : WorkerPoolRouter) (env : Environment)
    (request : QuoteRequest) (access : ExclusiveAccess) :
  wr_user_share_bps router <= bps.DENOMINATOR -> fees_sane router (qr_options request) ->
  Forall schedule_ok (ev_schedules env) -> solve router env request access <> Some Panic.
Proof.
  intros Hshare Hfees Hsched. unfold solve.
  destruct (allocate_orders router request access) as [allocations|e]; [|done].
  destruct (solve_orders _ _ _ _) as [all|] eqn:Hall; cbn [mbind option_bind]; [|done].
  apply solve_orders_quotes_ok in Hall; [|done].
  pose proof (refine_responses_ok router env (qr_options request) all Hfees Hall) as Href.
  destruct (refine_responses _ _ _ _) as [[refined|e]|]; cbn [try_bind]; [|done|done].
  destruct (rank_orders_total router (qr_options request) refined allocations Hshare Href)
    as [per_order ->]. cbn [mbind outcome_bind].
  by destruct (guard_ranked _ _ _).
Qed.

(** An answered request has exactly one quote per order, in request order, and
    reports the sum of their gas estimates; without encoding options the quotes are
    the best candidates of the rankings. *)
Theorem quote_one_answer_per_order `{Tycho} (router : WorkerPoolRouter) (env : Environment)
    (request : QuoteRequest) (access : ExclusiveAccess) (result : Quote) :
  quote router env request access = Some (Ret (Ok result)) ->
  length (quote_orders result) = length (qr_orders request) /\
  quote_total_gas_estimate result = sum_by oq_gas_estimate (quote_orders result) /\
  exists ranked, solve router env request access = Some (Ret (Ok ranked)) /\
    (qo_encoding_options (qr_options request) = None ->
     into_best (rk_per_order ranked) = Ret (quote_orders result)).
Proof.
  unfold quote. destruct (solve router env request access) as [[[ranked|e]|]|] eqn:Hsolve;
    cbn [mbind option_bind]; [|done..].
  destruct (solve_lists _ _ _ _ _ Hsolve) as [Hlen Hne].
  destruct (answer_ranked router env (qr_options request) ranked) as [answered|] eqn:Ha;
    cbn [mbind option_bind]; [|done].
  intros [= Hr]. apply try_bind_Ok in Hr as (quotes & -> & [= <-]). cbn.
  cut (length quotes = length (rk_per_order ranked) /\
       (qo_encoding_options (qr_options request) = None ->
        into_best (rk_per_order ranked) = Ret quotes)).
  { intros [Hl Hbest]. split_and!; [lia|done|by exists ranked]. }
  clear Hsolve. unfold answer_ranked in Ha.
  destruct (qo_encoding_options (qr_options request)) as [opts|].
  - destruct (encode_with_retries _ _ _ _) as [encoded|] eqn:Henc; cbn [mbind option_bind] in Ha; [|done].
    injection Ha as Ha. destruct encoded as [enc|e]; cbn in Ha; [|done].
    apply encode_retries_length in Henc; [|done]. apply simulate_quotes_length in Ha.
    split; [lia|done].
  - destruct (into_best_total _ Hne) as (best & Hbest & Hl). rewrite Hbest in *.
    cbn in Ha. injection Ha as <-. by split.
Qed.

(** ** Witnesses *)

Section witnesses.
#[local] Existing Instance Sample.tycho.

Definition sample_router : WorkerPoolRouter := {|
  wr_solver_pools := sample_pools;
  wr_config := {| wc_default_timeout_ms := 1000; wc_min_responses := 1;
                  wc_encoding_retry_budget_ms := 5 |};
  wr_fees := RouterFees_fallback;
  wr_price_guard := None;
  wr_simulator := None;
  wr_user_share_bps := DEFAULT_USER_IMPROVEMENT_SHARE_BPS;
|}.

Definition sample_order : Order := {|
  order_id := "order"; order_token_in := Sample.A; order_token_out := Sample.C;
  order_amount := 100; order_side := Sell; order_sender := "sender"; order_receiver := None |}.

Definition sample_request : QuoteRequest :=
  {| qr_orders := [sample_order]; qr_options := sample_query |}.

Definition sample_env (schedules : list (list Event)) : Environment := {|
  ev_solution := unit;
  ev_solution_of := fun _ _ => Ok tt;
  ev_estimate_gas := fun _ _ => 300;
  ev_schedules := schedules;
  ev_encoder_available := Ok tt;
  ev_task := sample_task;
  ev_budget_spent := fun _ => false;
  ev_elapsed_ms := 12;
|}.

Definition public_env : Environment := sample_env [[Answered "public" (Ok sample_answer)]].
Definition both_env : Environment := sample_env [sample_events].

Definition sample_ranking : RankedQuotes :=
  {| rk_per_order := [[set_worker_pool sample_quote "public"]] |}.

Lemma sample_solve_denied :
  solve sample_router public_env sample_request Denied = Some (Ret (Ok sample_ranking)).
Proof. by vm_compute. Qed.

Lemma solve_one_ranking_per_order_witness :
  length (rk_per_order sample_ranking) = 1%nat.
Proof.
  destruct (solve_one_ranking_per_order sample_router public_env sample_request Denied
    sample_ranking sample_solve_denied) as (Hlen & _).
  exact Hlen.
Defined.

Lemma denied_uses_public_pools_witness :
  exists p, p ∈ wr_solver_pools sample_router /\ sp_name p = "public"%string /\
    sp_liquidity_scope p = PublicOnly.
Proof.
  destruct (denied_uses_public_pools sample_router public_env sample_request sample_ranking
    [set_worker_pool sample_quote "public"] (set_worker_pool sample_quote "public"))
    as (p & Hin & Hname & Hscope).
  - apply (bool_decide_unpack _). by vm_compute.
  - exact sample_solve_denied.
  - left.
  - left.
  - reflexivity.
  - exists p. split; [exact Hin|]. split; [exact Hname|exact Hscope].
Defined.

Lemma solve_never_panics_witness :
  solve sample_router both_env sample_request Granted <> Some Panic.
Proof.
  apply (solve_never_panics sample_router both_env sample_request Granted);
    [by vm_compute|by intros opts [=]|].
  constructor; [|constructor].
  intros name single. unfold sample_events. rewrite !elem_of_cons, elem_of_nil.
  intros [[=]|[[= -> ->]|[]]].
  exact sample_quote_ok.
Defined.

Lemma quote_one_answer_per_order_witness :
  length (quote_orders (finalize_quote [set_worker_pool sample_quote "public"] 12)) = 1%nat.
Proof.
  destruct (quote_one_answer_per_order sample_router public_env sample_request Denied
    (finalize_quote [set_worker_pool sample_quote "public"] 12)) as (Hlen & _);
    [by vm_compute|exact Hlen].
Defined.
End witnesses.
