(* ===== verification/Tracker.v ===== *)
(** * Tracker: readiness of derived data

    Models [ReadinessTracker] of [fynd-core/src/derived/tracker.rs], the
    requirements of [fynd-core/src/derived/computation.rs] and the events of
    [fynd-core/src/derived/events.rs]. The abstract specification is the history of
    events: the block a worker tracks is the latest one announced, and what is
    ready, ever computed or failed is a set of events of that history. The theorems
    show that the tracker's four fields are exactly that, whatever the order of
    the events. *)

From stdpp Require Import prelude gmap sets strings list.
From Stdlib Require Import NArith ZArith Lia.
From S2P Require Import Prelude F64.

Abbreviation ComputationId := string (only parsing).

(** ** Requirements *)

Record ComputationRequirements := {
  req_fresh : gset ComputationId;
  req_stale : gset ComputationId;
}.

Record RequirementConflict := { conflict_id : ComputationId }.

Definition requirements_none : ComputationRequirements := {| req_fresh := ∅; req_stale := ∅ |}.

Definition requirements_fresh (ids : list ComputationId) : ComputationRequirements :=
  {| req_fresh := list_to_set ids; req_stale := ∅ |}.

Definition requirements_stale (ids : list ComputationId) : ComputationRequirements :=
  {| req_fresh := ∅; req_stale := list_to_set ids |}.

Definition require_fresh (r : ComputationRequirements) (id : ComputationId)
    : result RequirementConflict ComputationRequirements :=
  if decide (id ∈ req_stale r) then Err {| conflict_id := id |}
  else Ok {| req_fresh := {[ id ]} ∪ req_fresh r; req_stale := req_stale r |}.

Definition allow_stale (r : ComputationRequirements) (id : ComputationId)
    : result RequirementConflict ComputationRequirements :=
  if decide (id ∈ req_fresh r) then Err {| conflict_id := id |}
  else Ok {| req_fresh := req_fresh r; req_stale := {[ id ]} ∪ req_stale r |}.

Definition has_requirements (r : ComputationRequirements) : bool :=
  negb (bool_decide (req_fresh r = ∅)) || negb (bool_decide (req_stale r = ∅)).

Definition is_required (r : ComputationRequirements) (id : ComputationId) : bool :=
  bool_decide (id ∈ req_fresh r) || bool_decide (id ∈ req_stale r).

(** ** Events and the tracker *)

Inductive FailedItemError :=
| MissingSimulationState
| MissingTokenMetadata
| MissingSpotPrice
| InvalidTargetPrice (price : f64)
| ItemSimulationFailed (msg : string)
| MissingSellRoute (msg : string).

Record FailedItem := { fi_key : string; fi_error : FailedItemError }.

Inductive DerivedDataEvent :=
| NewBlock (block : N)
| ComputationComplete (computation_id : ComputationId) (block : N) (failed_items : list FailedItem)
| ComputationFailed (computation_id : ComputationId) (block : N).

Record ReadinessTracker := {
  current_block : option N;
  ready_for_block : gset ComputationId;
  ever_computed : gset ComputationId;
  failed_for_block : gset ComputationId;
  requirements : ComputationRequirements;
}.

Definition Tracker_new (r : ComputationRequirements) : ReadinessTracker := {|
  current_block := None;
  ready_for_block := ∅;
  ever_computed := ∅;
  failed_for_block := ∅;
  requirements := r;
|}.

(** [current.is_none_or(|b| block > b)]. *)
Definition is_newer (current : option N) (block : N) : bool :=
  match current with None => true | Some b => b <? block end.

Definition on_new_block (t : ReadinessTracker) (block : N) : ReadinessTracker :=
  if is_newer (current_block t) block then
    {| current_block := Some block;
       ready_for_block := ∅;
       ever_computed := ever_computed t;
       failed_for_block := ∅;
       requirements := requirements t |}
  else t.

Definition on_computation_failed (t : ReadinessTracker) (id : ComputationId) (block : N)
    : ReadinessTracker :=
  if bool_decide (id ∈ req_fresh (requirements t)) &&
     match current_block t with Some b => block =? b | None => false end then
    {| current_block := current_block t;
       ready_for_block := ready_for_block t;
       ever_computed := ever_computed t;
       failed_for_block := {[ id ]} ∪ failed_for_block t;
       requirements := requirements t |}
  else t.

Definition on_computation_complete (t : ReadinessTracker) (id : ComputationId) (block : N)
    : ReadinessTracker :=
  let t := {| current_block := current_block t;
              ready_for_block := ready_for_block t;
              ever_computed := {[ id ]} ∪ ever_computed t;
              failed_for_block := failed_for_block t;
              requirements := requirements t |} in
  if match current_block t with Some b => block <? b | None => false end then t
  else
    let t := if is_newer (current_block t) block then on_new_block t block else t in
    {| current_block := current_block t;
       ready_for_block := {[ id ]} ∪ ready_for_block t;
       ever_computed := ever_computed t;
       failed_for_block := failed_for_block t;
       requirements := requirements t |}.

Definition handle_event (t : ReadinessTracker) (ev : DerivedDataEvent) : ReadinessTracker :=
  match ev with
  | NewBlock block => on_new_block t block
  | ComputationComplete id block _ => on_computation_complete t id block
  | ComputationFailed id block => on_computation_failed t id block
  end.

Definition is_blocked_for_current_block (t : ReadinessTracker) : bool :=
  existsb (fun id => bool_decide (id ∈ failed_for_block t)) (elements (req_fresh (requirements t))).

Definition is_ready (t : ReadinessTracker) : bool :=
  forallb (fun id => bool_decide (id ∈ ready_for_block t)) (elements (req_fresh (requirements t)))
  && forallb (fun id => bool_decide (id ∈ ever_computed t)) (elements (req_stale (requirements t))).

Definition missing (t : ReadinessTracker) : gset ComputationId :=
  (req_fresh (requirements t) ∖ ready_for_block t)
  ∪ (req_stale (requirements t) ∖ ever_computed t).

(** ** The history *)

Definition tracked (r : ComputationRequirements) (events : list DerivedDataEvent)
    : ReadinessTracker := fold_left handle_event events (Tracker_new r).

(** The block an event announces. A failure announces none. *)
Definition announces (ev : DerivedDataEvent) : option N :=
  match ev with
  | NewBlock block | ComputationComplete _ block _ => Some block
  | ComputationFailed _ _ => None
  end.

Definition join (a b : option N) : option N :=
  match a, b with
  | Some x, Some y => Some (N.max x y)
  | Some x, None => Some x
  | None, o => o
  end.

(** The latest announced block. *)
Definition latest (events : list DerivedDataEvent) : option N :=
  fold_left (fun acc ev => join acc (announces ev)) events None.

Definition completed_at (events : list DerivedDataEvent) (id : ComputationId) (block : N) : Prop :=
  exists items, ComputationComplete id block items ∈ events.

(** A failure counts when it arrives while its block is the latest, and no later
    block has been announced since. *)
Definition failed_at (r : ComputationRequirements) (events : list DerivedDataEvent)
    (id : ComputationId) : Prop :=
  id ∈ req_fresh r /\ exists before after block,
    events = before ++ ComputationFailed id block :: after /\
    latest before = Some block /\ latest events = Some block.

(** The tracker as a function of the history. *)
Record represents (r : ComputationRequirements) (events : list DerivedDataEvent)
    (t : ReadinessTracker) : Prop := {
  rep_requirements : requirements t = r;
  rep_current : current_block t = latest events;
  rep_ready : forall id, id ∈ ready_for_block t <->
    exists block, latest events = Some block /\ completed_at events id block;
  rep_ever : forall id, id ∈ ever_computed t <-> exists block, completed_at events id block;
  rep_failed : forall id, id ∈ failed_for_block t <-> failed_at r events id;
}.

(** ** Laws *)

Lemma latest_snoc events ev : latest (events ++ [ev]) = join (latest events) (announces ev).
Proof. unfold latest. by rewrite fold_left_app. Qed.

Lemma completed_at_snoc events ev id block :
  completed_at (events ++ [ev]) id block <->
  completed_at events id block \/ exists items, ev = ComputationComplete id block items.
Proof.
  unfold completed_at. setoid_rewrite elem_of_app. setoid_rewrite list_elem_of_singleton.
  split.
  - intros (items & [Hin|<-]); eauto.
  - intros [(items & Hin)|(items & ->)]; eauto.
Qed.

(** No event of the history announces a block after the latest. *)
Lemma completed_le_latest events id block :
  completed_at events id block -> exists b, latest events = Some b /\ block <= b.
Proof.
  induction events as [|ev events IH] using rev_ind.
  { by intros (items & []%not_elem_of_nil). }
  rewrite latest_snoc. intros [Hc|(items & ->)]%completed_at_snoc.
  - destruct (IH Hc) as (b & -> & Hb). destruct (announces ev) as [x|]; cbn; eexists; (split; [done|lia]).
  - cbn. destruct (latest events) as [x|]; cbn; eexists; (split; [done|lia]).
Qed.

Lemma latest_app_le before after b :
  latest before = Some b -> exists b', latest (before ++ after) = Some b' /\ b <= b'.
Proof.
  intros Hb. induction after as [|ev after IH] using rev_ind.
  - rewrite app_nil_r. by exists b.
  - destruct IH as (b' & Hb' & Hle). rewrite app_assoc, latest_snoc, Hb'.
    destruct (announces ev) as [x|]; cbn; eexists; (split; [done|lia]).
Qed.

Lemma failed_at_snoc r events ev id :
  failed_at r (events ++ [ev]) id <->
  (failed_at r events id /\ latest (events ++ [ev]) = latest events) \/
  (id ∈ req_fresh r /\ exists block, ev = ComputationFailed id block /\ latest events = Some block).
Proof.
  unfold failed_at. split.
  - intros (Hreq & before & after & block & Heq & Hb & Hl).
    destruct after as [|ev' after _] using rev_ind.
    + apply app_inj_tail in Heq as [-> ->]. right. split; [done|]. by exists block.
    + rewrite app_comm_cons, app_assoc in Heq. apply app_inj_tail in Heq as [-> ->].
      left. assert (latest (before ++ ComputationFailed id block :: after) = Some block) as Hmid.
      { destruct (latest_app_le before (ComputationFailed id block :: after) block Hb)
          as (b1 & H1 & Hle1).
        destruct (latest_app_le _ [ev'] b1 H1) as (b2 & H2 & Hle2).
        rewrite Hl in H2. rewrite H1. f_equal. simplify_eq. lia. }
      split; [|congruence]. split; [done|]. by exists before, after, block.
  - intros [[(Hreq & before & after & block & -> & Hb & Hl) Hsame]|(Hreq & block & -> & Hl)].
    + split; [done|]. exists before, (after ++ [ev]), block. split_and!; [|done|congruence].
      by rewrite <- app_assoc.
    + split; [done|]. exists events, [], block. split_and!; [done|done|].
      by rewrite latest_snoc, Hl.
Qed.

Lemma new_represents r : represents r [] (Tracker_new r).
Proof.
  split; [done|done|..]; intros id; cbn; rewrite elem_of_empty; split; try done.
  - by intros (block & [=] & _).
  - by intros (block & items & []%not_elem_of_nil).
  - intros (_ & before & after & block & Heq & _). by destruct before.
Qed.

(** The history from an event that brings a newer block on: nothing has completed or
    failed for that block before. *)
Lemma newer_fresh r events ev block :
  is_newer (latest events) block = true -> announces ev = Some block ->
  latest (events ++ [ev]) = Some block /\
  (forall id, completed_at (events ++ [ev]) id block <->
     exists items, ev = ComputationComplete id block items) /\
  (forall id, ~ failed_at r (events ++ [ev]) id).
Proof.
  intros Hnew Hann. assert (latest (events ++ [ev]) = Some block) as Hl.
  { rewrite latest_snoc, Hann. destruct (latest events) as [c|]; cbn in *; [|done].
    apply N.ltb_lt in Hnew. f_equal. lia. }
  assert (latest events <> Some block) as Hne.
  { intros Heq. rewrite Heq in Hnew. cbn in Hnew. apply N.ltb_lt in Hnew. lia. }
  split_and!; [done| |].
  - intros id. rewrite completed_at_snoc. split; [|by right]. intros [Hc|?]; [|done].
    apply completed_le_latest in Hc as (b & Hb & Hle). rewrite Hb in Hnew. cbn in Hnew.
    apply N.ltb_lt in Hnew. lia.
  - intros id [[_ Hsame]|(_ & b & -> & _)]%failed_at_snoc; [congruence|done].
Qed.

(** An event of the tracked block or an older one leaves the block and the failures. *)
Lemma not_newer_same events ev block :
  is_newer (latest events) block = false -> announces ev = Some block ->
  latest (events ++ [ev]) = latest events.
Proof.
  intros Hold Hann. rewrite latest_snoc, Hann. destruct (latest events) as [c|]; cbn in *; [|done].
  apply N.ltb_ge in Hold. f_equal. lia.
Qed.

Lemma failed_at_keep r events ev id :
  latest (events ++ [ev]) = latest events -> (forall id b, ev <> ComputationFailed id b) ->
  failed_at r (events ++ [ev]) id <-> failed_at r events id.
Proof.
  intros Hl Hev. rewrite failed_at_snoc, Hl. split; [|by left].
  intros [[? _]|(_ & b & Heq & _)]; [done|]. by apply Hev in Heq.
Qed.

Lemma new_block_represents r events t block :
  represents r events t -> represents r (events ++ [NewBlock block]) (on_new_block t block).
Proof.
  intros [Hr Hc Hready Hever Hfailed]. unfold on_new_block. rewrite Hc.
  assert (forall id b, completed_at (events ++ [NewBlock block]) id b <-> completed_at events id b)
    as Hcomp.
  { intros id b. rewrite completed_at_snoc. split; [|by left]. by intros [?|(items & [=])]. }
  destruct (is_newer (latest events) block) eqn:Hn.
  - destruct (newer_fresh r events (NewBlock block) block Hn eq_refl) as (Hl & Hdone & Hnf).
    split; [done|done|..]; intros id; cbn; rewrite ?elem_of_empty, ?Hl.
    + split; [done|]. intros (b & [= <-] & (items & [=])%Hdone).
    + rewrite Hever. by setoid_rewrite Hcomp.
    + split; [done|]. intros Hf. by apply Hnf in Hf.
  - pose proof (not_newer_same events (NewBlock block) block Hn eq_refl) as Hl.
    split; [done|by rewrite Hl|..]; intros id; rewrite ?Hl.
    + rewrite Hready. by setoid_rewrite Hcomp.
    + rewrite Hever. by setoid_rewrite Hcomp.
    + rewrite Hfailed. by rewrite failed_at_keep.
Qed.

Lemma failed_represents r events t id block :
  represents r events t ->
  represents r (events ++ [ComputationFailed id block]) (on_computation_failed t id block).
Proof.
  intros [Hr Hc Hready Hever Hfailed]. set (ev := ComputationFailed id block).
  assert (latest (events ++ [ev]) = latest events) as Hl.
  { rewrite latest_snoc. by destruct (latest events). }
  assert (forall id b, completed_at (events ++ [ev]) id b <-> completed_at events id b) as Hcomp.
  { intros id' b. rewrite completed_at_snoc. split; [|by left]. by intros [?|(items & [=])]. }
  assert (forall id', failed_at r (events ++ [ev]) id' <-> failed_at r events id' \/
    id' = id /\ id ∈ req_fresh r /\ latest events = Some block) as Hf.
  { intros id'. rewrite failed_at_snoc, Hl. split.
    - intros [[? _]|(? & b & [= -> ->] & ?)]; auto.
    - intros [?|(-> & ? & ?)]; [by left|right]. split; [done|]. by exists block. }
  unfold on_computation_failed. rewrite Hr, Hc.
  assert (forall id', id' ∈ failed_for_block t <-> failed_at r events id') as Hfailed' by done.
  destruct (bool_decide (id ∈ req_fresh r) && _) eqn:Hcond.
  - apply andb_prop in Hcond as [Hreq%bool_decide_eq_true Hblock].
    destruct (latest events) as [c|] eqn:Hlat; [|done]. apply N.eqb_eq in Hblock. subst c.
    split; [done|by rewrite Hl|..]; intros id'; cbn; rewrite ?Hl.
    + rewrite Hready. by setoid_rewrite Hcomp.
    + rewrite Hever. by setoid_rewrite Hcomp.
    + rewrite elem_of_union, elem_of_singleton, Hfailed', Hf. tauto.
  - split; [done|by rewrite Hl|..]; intros id'; rewrite ?Hl.
    + rewrite Hready. by setoid_rewrite Hcomp.
    + rewrite Hever. by setoid_rewrite Hcomp.
    + rewrite Hfailed', Hf. split; [by left|]. intros [?|(-> & Hreq & Hlat)]; [done|].
      rewrite bool_decide_true, Hlat, N.eqb_refl in Hcond by done. done.
Qed.

Lemma complete_represents r events t id block items :
  represents r events t ->
  represents r (events ++ [ComputationComplete id block items]) (on_computation_complete t id block).
Proof.
  intros [Hr Hc Hready Hever Hfailed]. set (ev := ComputationComplete id block items).
  assert (forall id' b, completed_at (events ++ [ev]) id' b <->
    completed_at events id' b \/ id' = id /\ b = block) as Hcomp.
  { intros id' b. rewrite completed_at_snoc. split.
    - intros [?|(its & [= <- <- _])]; auto.
    - intros [?|[-> ->]]; [by left|right]. by exists items. }
  assert (forall id', id' ∈ {[ id ]} ∪ ever_computed t <->
    exists b, completed_at (events ++ [ev]) id' b) as Hever'.
  { intros id'. rewrite elem_of_union, elem_of_singleton, Hever. setoid_rewrite Hcomp.
    split; [intros [->|(b & ?)]; eauto|intros (b & [?|[-> ->]]); eauto]. }
  unfold on_computation_complete. cbn [current_block]. rewrite Hc.
  destruct (is_newer (latest events) block) eqn:Hn.
  - destruct (newer_fresh r events ev block Hn eq_refl) as (Hl & Hdone & Hnf).
    assert (match latest events with Some b => block <? b | None => false end = false) as ->.
    { destruct (latest events) as [c|]; [|done]. cbn in Hn. apply N.ltb_lt in Hn.
      apply N.ltb_ge. lia. }
    unfold on_new_block. cbn [current_block]. rewrite ?Hc, ?Hn. cbn.
    split; [done|done|..]; intros id'; cbn; [|apply Hever'|].
    + rewrite union_empty_r_L, elem_of_singleton, Hl. split.
      * intros ->. exists block. split; [done|]. apply Hdone. by exists items.
      * intros (b & [= <-] & (its & [= -> _])%Hdone). done.
    + rewrite elem_of_empty. split; [done|]. intros Hf. by apply Hnf in Hf.
  - pose proof (not_newer_same events ev block Hn eq_refl) as Hl.
    assert (forall id', failed_at r (events ++ [ev]) id' <-> failed_at r events id') as Hfk.
    { intros id'. by apply failed_at_keep. }
    destruct (latest events) as [c|] eqn:Hlat; [|done]. cbn in Hn. apply N.ltb_ge in Hn.
    destruct (N.ltb_spec block c) as [Hlt|Hge].
    + split; [done|by rewrite Hl|..]; intros id'; cbn; [|apply Hever'|by rewrite Hfk].
      rewrite Hready, Hl. setoid_rewrite Hcomp. split.
      * intros (b & ? & ?). exists b. auto.
      * intros (b & [= <-] & [?|[_ ->]]); [by exists c|lia].
    + assert (c = block) as -> by lia.
      split; [done|by rewrite Hl|..]; intros id'; cbn; [|apply Hever'|by rewrite Hfk].
      rewrite elem_of_union, elem_of_singleton, Hready, Hl. setoid_rewrite Hcomp. split.
      * intros [->|(b & ? & ?)]; [exists block|exists b]; auto.
      * intros (b & [= <-] & [?|[-> _]]); [right; by exists block|by left].
Qed.

Lemma tracked_represents r events : represents r events (tracked r events).
Proof.
  unfold tracked. induction events as [|ev events IH] using rev_ind; [apply new_represents|].
  rewrite fold_left_app. cbn. destruct ev; cbn.
  - by apply new_block_represents.
  - by apply complete_represents.
  - by apply failed_represents.
Qed.

Lemma forallb_elements (X : gset ComputationId) (p : ComputationId -> bool) :
  forallb p (elements X) = true <-> forall id, id ∈ X -> p id = true.
Proof.
  rewrite forallb_forall. setoid_rewrite <- list_elem_of_In. by setoid_rewrite elem_of_elements.
Qed.

Lemma missing_ready t : missing t = ∅ <-> is_ready t = true.
Proof.
  unfold is_ready, missing. rewrite andb_true_iff, !forallb_elements.
  setoid_rewrite bool_decide_eq_true. rewrite set_eq. setoid_rewrite elem_of_union.
  setoid_rewrite elem_of_difference. setoid_rewrite elem_of_empty. split.
  - intros Hm. split; intros id Hid; apply dec_stable; intros Hno; apply (Hm id); auto.
  - intros [Hf Hs] id. split; [|done]. intros [[??]|[??]]; auto.
Qed.

(** ** Properties *)

(** C38: the tracker refines its history. After any sequence of events, its current
    block is the latest one announced, the ready set is what completed for that
    block, the ever-computed set is what completed at all, and the failed set is the
    fresh requirements whose failure arrived while that block was the latest. Late,
    repeated and reordered events leave no other trace. *)
Theorem tracker_refines_history (r : ComputationRequirements) (events : list DerivedDataEvent) :
  represents r events (tracked r events).
Proof. apply tracked_represents. Qed.

(** A worker is ready exactly when every fresh requirement has completed for the
    latest announced block and every stale requirement has completed for some block,
    and that is when the set of missing computations is empty. *)
Theorem tracker_ready_iff (r : ComputationRequirements) (events : list DerivedDataEvent) :
  (is_ready (tracked r events) = true <->
   (forall id, id ∈ req_fresh r -> exists block,
      latest events = Some block /\ completed_at events id block) /\
   (forall id, id ∈ req_stale r -> exists block, completed_at events id block)) /\
  (missing (tracked r events) = ∅ <-> is_ready (tracked r events) = true).
Proof.
  split; [|apply missing_ready]. destruct (tracked_represents r events) as [Hr _ Hready Hever _].
  unfold is_ready. rewrite Hr, andb_true_iff, !forallb_elements.
  setoid_rewrite bool_decide_eq_true. setoid_rewrite Hready. by setoid_rewrite Hever.
Qed.

(** A new block invalidates fresh data at once: after an event that announces a
    block later than every earlier one, a worker with fresh requirements is not ready
    until they complete again, is not blocked, and keeps what stale requirements need. *)
Theorem new_block_resets (r : ComputationRequirements) (events : list DerivedDataEvent)
    (block : N) :
  is_newer (latest events) block = true ->
  let t := tracked r (events ++ [NewBlock block]) in
  (req_fresh r <> ∅ -> is_ready t = false) /\ is_blocked_for_current_block t = false /\
  ever_computed t = ever_computed (tracked r events).
Proof.
  intros Hn t. assert (t = on_new_block (tracked r events) block) as Ht.
  { unfold t, tracked. by rewrite fold_left_app. }
  destruct (tracked_represents r events) as [Hr Hc _ _ _].
  rewrite Ht. unfold on_new_block. rewrite Hc, Hn. split_and!; [| |done].
  - intros Hne. apply not_true_is_false. unfold is_ready. cbn.
    rewrite Hr, andb_true_iff, forallb_elements. intros [Hall _].
    apply set_choose_L in Hne as [id Hid]. by apply Hall, bool_decide_eq_true, elem_of_empty in Hid.
  - apply not_true_is_false. unfold is_blocked_for_current_block. cbn.
    rewrite existsb_exists. intros (id & _ & Hb%bool_decide_eq_true). by apply elem_of_empty in Hb.
Qed.

(** A requirement is never both fresh and stale: starting from no requirements,
    from fresh ones or from stale ones, adding requirements either keeps the two sets
    disjoint or is refused. *)
Theorem requirements_disjoint (r r' : ComputationRequirements) (id : ComputationId) :
  req_fresh r ## req_stale r ->
  require_fresh r id = Ok r' \/ allow_stale r id = Ok r' ->
  req_fresh r' ## req_stale r' /\ is_required r' id = true /\
  (forall other, is_required r other = true -> is_required r' other = true).
Proof.
  unfold require_fresh, allow_stale, is_required. setoid_rewrite orb_true_iff.
  setoid_rewrite bool_decide_eq_true.
  intros Hd [Heq|Heq]; case_decide; [done| |done|]; injection Heq as <-; cbn.
  - split_and!; [set_solver|set_solver|]. intros other [?|?]; [left; set_solver|by right].
  - split_and!; [set_solver|set_solver|]. intros other [?|?]; [by left|right; set_solver].
Qed.

(** ** Witnesses *)

Definition sample_requirements : ComputationRequirements :=
  {| req_fresh := {[ "spot_prices"%string ]}; req_stale := {[ "token_prices"%string ]} |}.

Lemma new_block_resets_witness :
  is_ready (tracked sample_requirements
    ([ComputationComplete "token_prices" 7 []; ComputationComplete "spot_prices" 8 []]
     ++ [NewBlock 9])) = false /\
  is_ready (tracked sample_requirements
    [ComputationComplete "token_prices" 7 []; ComputationComplete "spot_prices" 8 []]) = true.
Proof.
  split; [|by vm_compute].
  destruct (new_block_resets sample_requirements
    [ComputationComplete "token_prices" 7 []; ComputationComplete "spot_prices" 8 []] 9)
    as (Hready & _); [by vm_compute|].
  apply Hready. done.
Defined.

Lemma requirements_disjoint_witness :
  exists r', require_fresh sample_requirements "pool_depths" = Ok r' /\
    req_fresh r' ## req_stale r'.
Proof.
  eexists. split; [reflexivity|].
  apply (requirements_disjoint sample_requirements _ "pool_depths").
  - apply (bool_decide_unpack _). by vm_compute.
  - left. reflexivity.
Defined.
