(* ===== verification/DerivedStore.v ===== *)
(** * DerivedStore: typed storage of derived data

    Models [DerivedData] of [fynd-core/src/derived/store.rs], its types in
    [fynd-core/src/derived/types.rs] and [drop_unlisted_directions] of
    [fynd-core/src/derived/computations/mod.rs]. A type-erased slot is a sum over the
    output types; reading it at another type gives [None]. Instants are milliseconds.
    [Address::from_str] is library code: it is the parameter [parse_address]. *)

From stdpp Require Import prelude gmap sets strings list.
From Stdlib Require Import NArith ZArith Lia Ascii.
From S2P Require Import Prelude F64 Types Tracker.

(** ** Keys and outputs *)

Abbreviation PairKey := (ComponentId * Address * Address)%type.
Abbreviation SpotPrices := (gmap PairKey f64).
Abbreviation ComponentDepths := (gmap PairKey N).
Abbreviation TokenGasPrices := (gmap Address Price).

Record TokenPriceEntry := { tpe_price : Price; tpe_path_components : gset ComponentId }.
Abbreviation TokenPricesWithDeps := (gmap Address TokenPriceEntry).

(** A swap direction, and what the derived data reads of a component. *)
Abbreviation SwapDirection := (Address * Address)%type.
Record ComponentTopology := {
  tp_tokens : list Address;
  tp_swap_directions : list SwapDirection;
}.

(** The outputs of the registered computations; custom ones carry their own id. *)
Inductive Output :=
| OutTokenPrices (prices : TokenGasPrices)
| OutComponentDepths (depths : ComponentDepths)
| OutSpotPrices (prices : SpotPrices)
| OutCustom (id : ComputationId).

Record ComputationStatus := { cs_block : N; cs_updated_at : N }.
Record ComputedSlot := { slot_data : Output; slot_status : ComputationStatus }.
Record ComputedValue (T : Type) := { cv_data : T; cv_block : N }.
Arguments cv_data {T} _.
Arguments cv_block {T} _.

(** [age_ms_at]: saturating at both ends. *)
Definition age_ms_at (status : ComputationStatus) (now : N) : N :=
  N.min (now - cs_updated_at status) u64_MAX.

Abbreviation FailureMap K := (gmap K (N * FailedItemError)).

Record DerivedData := {
  slots : gmap ComputationId ComputedSlot;
  token_prices_failed : FailureMap Address;
  token_prices_deps : option (ComputedValue TokenPricesWithDeps);
  component_depths_failed : FailureMap PairKey;
  spot_prices_failed : FailureMap PairKey;
}.

Definition DerivedData_new : DerivedData := {|
  slots := ∅;
  token_prices_failed := ∅;
  token_prices_deps := None;
  component_depths_failed := ∅;
  spot_prices_failed := ∅;
|}.

Definition SPOT_PRICES_ID : ComputationId := "spot_prices".
Definition POOL_DEPTHS_ID : ComputationId := "pool_depths".
Definition TOKEN_PRICES_ID : ComputationId := "token_prices".

(** ** Failure keys *)

(** The part before and the part after the last slash. *)
Fixpoint rsplit_once (l : list ascii) : option (list ascii * list ascii) :=
  match l with
  | [] => None
  | c :: l' =>
      match rsplit_once l' with
      | Some (before, after) => Some (c :: before, after)
      | None => if Ascii.eqb c "/"%char then Some ([], l') else None
      end
  end.

Section store.
Context (parse_address : string -> option Address).

(** [rsplitn(3, '/')]: three parts need two slashes; the first part keeps any others. *)
Definition parse_pair_key (s : string) : option PairKey :=
  '(rest, token_out_str) ← rsplit_once (String.list_ascii_of_string s);
  '(component_id, token_in_str) ← rsplit_once rest;
  token_in ← parse_address (String.string_of_list_ascii token_in_str);
  token_out ← parse_address (String.string_of_list_ascii token_out_str);
  Some (String.string_of_list_ascii component_id, token_in, token_out).

(** ** Slots *)

Definition set_output_at (d : DerivedData) (id : ComputationId) (data : Output) (block now : N)
    : DerivedData := {|
  slots := <[id := {| slot_data := data;
                      slot_status := {| cs_block := block; cs_updated_at := now |} |}]> (slots d);
  token_prices_failed := token_prices_failed d;
  token_prices_deps := token_prices_deps d;
  component_depths_failed := component_depths_failed d;
  spot_prices_failed := spot_prices_failed d |}.

Definition output_status (d : DerivedData) (id : ComputationId) : option ComputationStatus :=
  slot_status <$> slots d !! id.

Definition output_block (d : DerivedData) (id : ComputationId) : option N :=
  cs_block <$> output_status d id.

Definition clear_output (d : DerivedData) (id : ComputationId) : DerivedData := {|
  slots := delete id (slots d);
  token_prices_failed := token_prices_failed d;
  token_prices_deps := token_prices_deps d;
  component_depths_failed := component_depths_failed d;
  spot_prices_failed := spot_prices_failed d |}.

Definition token_prices (d : DerivedData) : option TokenGasPrices :=
  slot ← slots d !! TOKEN_PRICES_ID;
  match slot_data slot with OutTokenPrices prices => Some prices | _ => None end.

Definition component_depths (d : DerivedData) : option ComponentDepths :=
  slot ← slots d !! POOL_DEPTHS_ID;
  match slot_data slot with OutComponentDepths depths => Some depths | _ => None end.

Definition spot_prices (d : DerivedData) : option SpotPrices :=
  slot ← slots d !! SPOT_PRICES_ID;
  match slot_data slot with OutSpotPrices prices => Some prices | _ => None end.

Definition token_prices_deps_block (d : DerivedData) : option N :=
  cv_block <$> token_prices_deps d.

Definition is_some {A} (o : option A) : bool := match o with Some _ => true | None => false end.

Definition derived_data_ready (d : DerivedData) : bool :=
  is_some (output_block d TOKEN_PRICES_ID) && is_some (token_prices_deps_block d) &&
  is_some (output_block d POOL_DEPTHS_ID) && is_some (output_block d SPOT_PRICES_ID).

(** ** Failure maps *)

(** The run's failures, a later item of one key replacing an earlier one. *)
Definition collect_failures {K} `{Countable K} (parse : string -> option K) (block : N)
    (failed_items : list FailedItem) : FailureMap K :=
  fold_left (fun m f => match parse (fi_key f) with
                        | Some k => <[k := (block, fi_error f)]> m
                        | None => m
                        end) failed_items ∅.

(** [retain(|k, _| !output.contains_key(k))], then [extend(new_failures)]. *)
Definition merge_failures {K V} `{Countable K} (output : gmap K V) (failed new : FailureMap K)
    : FailureMap K :=
  new ∪ filter (fun kv => output !! kv.1 = None) failed.

Definition set_token_prices (d : DerivedData) (prices : TokenGasPrices)
    (failed_items : list FailedItem) (block now : N) : DerivedData :=
  set_output_at {|
    slots := slots d;
    token_prices_failed := merge_failures prices (token_prices_failed d)
                             (collect_failures parse_address block failed_items);
    token_prices_deps := token_prices_deps d;
    component_depths_failed := component_depths_failed d;
    spot_prices_failed := spot_prices_failed d |} TOKEN_PRICES_ID (OutTokenPrices prices) block now.

Definition set_component_depths (d : DerivedData) (depths : ComponentDepths)
    (failed_items : list FailedItem) (block now : N) : DerivedData :=
  set_output_at {|
    slots := slots d;
    token_prices_failed := token_prices_failed d;
    token_prices_deps := token_prices_deps d;
    component_depths_failed := merge_failures depths (component_depths_failed d)
                                 (collect_failures parse_pair_key block failed_items);
    spot_prices_failed := spot_prices_failed d |} POOL_DEPTHS_ID (OutComponentDepths depths) block now.

Definition set_spot_prices (d : DerivedData) (prices : SpotPrices)
    (failed_items : list FailedItem) (block now : N) : DerivedData :=
  set_output_at {|
    slots := slots d;
    token_prices_failed := token_prices_failed d;
    token_prices_deps := token_prices_deps d;
    component_depths_failed := component_depths_failed d;
    spot_prices_failed := merge_failures prices (spot_prices_failed d)
                            (collect_failures parse_pair_key block failed_items) |}
    SPOT_PRICES_ID (OutSpotPrices prices) block now.

Definition retain_token_price_failures (d : DerivedData) (keep : Address -> bool) : DerivedData := {|
  slots := slots d;
  token_prices_failed := filter (fun kv => keep kv.1 = true) (token_prices_failed d);
  token_prices_deps := token_prices_deps d;
  component_depths_failed := component_depths_failed d;
  spot_prices_failed := spot_prices_failed d |}.

Definition clear_token_prices (d : DerivedData) : DerivedData :=
  let d := clear_output d TOKEN_PRICES_ID in {|
  slots := slots d;
  token_prices_failed := ∅;
  token_prices_deps := token_prices_deps d;
  component_depths_failed := component_depths_failed d;
  spot_prices_failed := spot_prices_failed d |}.

Definition clear_component_depths (d : DerivedData) : DerivedData :=
  let d := clear_output d POOL_DEPTHS_ID in {|
  slots := slots d;
  token_prices_failed := token_prices_failed d;
  token_prices_deps := token_prices_deps d;
  component_depths_failed := ∅;
  spot_prices_failed := spot_prices_failed d |}.

Definition clear_spot_prices (d : DerivedData) : DerivedData :=
  let d := clear_output d SPOT_PRICES_ID in {|
  slots := slots d;
  token_prices_failed := token_prices_failed d;
  token_prices_deps := token_prices_deps d;
  component_depths_failed := component_depths_failed d;
  spot_prices_failed := ∅ |}.

Definition set_token_prices_deps (d : DerivedData) (prices : TokenPricesWithDeps) (block : N)
    : DerivedData := {|
  slots := slots d;
  token_prices_failed := token_prices_failed d;
  token_prices_deps := Some {| cv_data := prices; cv_block := block |};
  component_depths_failed := component_depths_failed d;
  spot_prices_failed := spot_prices_failed d |}.

Definition edit_token_prices_deps (d : DerivedData) (block : N)
    (edit : TokenPricesWithDeps -> TokenPricesWithDeps) : DerivedData * bool :=
  match token_prices_deps d with
  | None => (d, false)
  | Some stored => (set_token_prices_deps d (edit (cv_data stored)) block, true)
  end.

Definition clear_all (d : DerivedData) : DerivedData := DerivedData_new.

(** ** Dropping stale entries *)

Definition drop_components {V} (removed : list ComponentId) (m : gmap PairKey V) : gmap PairKey V :=
  filter (fun kv : PairKey * V => kv.1.1.1 ∉ removed) m.

Definition drop_failures_of_removed (d : DerivedData) (removed : list ComponentId) : DerivedData :=
  match removed with
  | [] => d
  | _ => {|
      slots := slots d;
      token_prices_failed := token_prices_failed d;
      token_prices_deps := token_prices_deps d;
      component_depths_failed := drop_components removed (component_depths_failed d);
      spot_prices_failed := drop_components removed (spot_prices_failed d) |}
  end.

(** Whether an entry is of an added component and not one of its directions any more. *)
Definition listed (added : gmap ComponentId ComponentTopology) (k : PairKey) : Prop :=
  match added !! k.1.1 with
  | None => True
  | Some topology => (k.1.2, k.2) ∈ tp_swap_directions topology
  end.

#[export] Instance listed_dec added k : Decision (listed added k).
Proof. unfold listed. destruct (added !! k.1.1); apply _. Defined.

Definition drop_unlisted_directions {V} (entries : gmap PairKey V)
    (added : gmap ComponentId ComponentTopology) : gmap PairKey V :=
  filter (fun kv : PairKey * V => listed added kv.1) entries.

Definition drop_failures_of_unlisted_directions (d : DerivedData)
    (added : gmap ComponentId ComponentTopology) : DerivedData := {|
  slots := slots d;
  token_prices_failed := token_prices_failed d;
  token_prices_deps := token_prices_deps d;
  component_depths_failed := drop_unlisted_directions (component_depths_failed d) added;
  spot_prices_failed := drop_unlisted_directions (spot_prices_failed d) added |}.
End store.

(** ** Laws *)

Section laws.
Context (parse_address : string -> option Address).

Lemma merge_failures_lookup {K V} `{Countable K} (output : gmap K V) (failed new : FailureMap K) k :
  merge_failures output failed new !! k
  = match new !! k with
    | Some v => Some v
    | None => match output !! k with Some _ => None | None => failed !! k end
    end.
Proof.
  unfold merge_failures. destruct (new !! k) as [v|] eqn:Hn; [by apply lookup_union_Some_l|].
  rewrite lookup_union_r by done. destruct (failed !! k) as [v|] eqn:Hf.
  - destruct (output !! k) as [o|] eqn:Ho.
    + apply map_lookup_filter_None. right. intros x _. cbn. congruence.
    + by apply map_lookup_filter_Some.
  - rewrite map_lookup_filter_None_2 by (by left). by destruct (output !! k).
Qed.

(** A collected failure comes from an item of the run; a key without one has none. *)
Lemma collect_failures_lookup {K} `{Countable K} (parse : string -> option K) block items k :
  match collect_failures parse block items !! k with
  | Some (b, e) => b = block /\ exists f, f ∈ items /\ parse (fi_key f) = Some k /\ fi_error f = e
  | None => forall f, f ∈ items -> parse (fi_key f) <> Some k
  end.
Proof.
  unfold collect_failures. induction items as [|f items IH] using rev_ind.
  { cbn [fold_left]. rewrite lookup_empty. by intros f ?%not_elem_of_nil. }
  rewrite fold_left_app. cbn. destruct (parse (fi_key f)) as [k'|] eqn:Hp.
  - rewrite lookup_insert. case_decide as Hk.
    + subst k'. split; [done|]. exists f. split_and!; [set_solver|done|done].
    + destruct (fold_left _ items ∅ !! k) as [[b e]|].
      * destruct IH as (-> & f' & ? & ? & ?). split; [done|]. exists f'. set_solver.
      * intros f' [Hf'|Hf']%elem_of_app; [by apply IH|].
        apply list_elem_of_singleton in Hf' as ->. congruence.
  - destruct (fold_left _ items ∅ !! k) as [[b e]|].
    + destruct IH as (-> & f' & ? & ? & ?). split; [done|]. exists f'. set_solver.
    + intros f' [Hf'|Hf']%elem_of_app; [by apply IH|].
      apply list_elem_of_singleton in Hf' as ->. congruence.
Qed.

(** What a run leaves in a failure map. *)
Definition failures_after {K V} `{Countable K} (parse : string -> option K) (output : gmap K V)
    (items : list FailedItem) (block : N) (before after : FailureMap K) : Prop :=
  forall k, match after !! k with
  | Some (b, e) =>
      (b = block /\ exists f, f ∈ items /\ parse (fi_key f) = Some k /\ fi_error f = e) \/
      (before !! k = Some (b, e) /\ output !! k = None)
  | None => (forall f, f ∈ items -> parse (fi_key f) <> Some k) /\
      (output !! k = None -> before !! k = None)
  end.

Lemma merge_failures_after {K V} `{Countable K} (parse : string -> option K) (output : gmap K V)
    items block before :
  failures_after parse output items block before
    (merge_failures output before (collect_failures parse block items)).
Proof.
  intros k. rewrite merge_failures_lookup.
  pose proof (collect_failures_lookup parse block items k) as Hc.
  destruct (collect_failures parse block items !! k) as [[b e]|]; [by left|].
  destruct (output !! k) as [o|] eqn:Ho; [done|].
  destruct (before !! k) as [[b e]|]; [by right|done].
Qed.

Lemma rsplit_once_app before after :
  "/"%char ∉ after -> rsplit_once (before ++ "/"%char :: after) = Some (before, after).
Proof.
  intros Hno. assert (rsplit_once after = None) as Hnone.
  { induction after as [|c l IH]; [done|]. apply not_elem_of_cons in Hno as [Hc Hl]. cbn.
    rewrite IH by done. destruct (Ascii.eqb_spec c "/"%char); [by subst|done]. }
  induction before as [|c before IH]; cbn; [by rewrite Hnone|]. by rewrite IH.
Qed.
End laws.

(** The key of a failed item, as the computations format it. *)
Definition pair_key (show_address : Address -> string) (k : PairKey) : string :=
  let '(component_id, token_in, token_out) := k in
  (component_id +:+ "/" +:+ show_address token_in +:+ "/" +:+ show_address token_out)%string.

Lemma list_ascii_app (a b : string) :
  String.list_ascii_of_string (a +:+ b)
  = String.list_ascii_of_string a ++ String.list_ascii_of_string b.
Proof.
  induction a as [|c a IH]; [done|].
  change (String.String c a +:+ b) with (String.String c (a +:+ b)).
  cbn [String.list_ascii_of_string app]. by rewrite IH.
Qed.

(** ** Properties *)

(** C40: the key of a failed item survives its round trip through text: parsing what a
    computation formats gives the key back, even when the component id holds slashes,
    for addresses whose text holds none and parses back. *)
Theorem pair_key_roundtrip (show_address : Address -> string)
    (parse_address : string -> option Address) (k : PairKey) :
  (forall a, a = k.1.2 \/ a = k.2 -> parse_address (show_address a) = Some a /\
     "/"%char ∉ String.list_ascii_of_string (show_address a)) ->
  parse_pair_key parse_address (pair_key show_address k) = Some k.
Proof.
  destruct k as [[component_id token_in] token_out]. intros Haddr.
  destruct (Haddr token_in) as [Hin Hin']; [by left|].
  destruct (Haddr token_out) as [Hout Hout']; [by right|].
  unfold parse_pair_key, pair_key. rewrite !list_ascii_app.
  change (String.list_ascii_of_string "/") with ["/"%char]. cbn [app].
  rewrite (app_comm_cons _ _ "/"%char), app_assoc.
  rewrite rsplit_once_app by done. cbn [mbind option_bind].
  rewrite rsplit_once_app by done. cbn [mbind option_bind].
  rewrite !String.string_of_list_ascii_of_string, Hin. cbn [mbind option_bind]. by rewrite Hout.
Qed.

(** Storing the spot prices of a run makes them readable at the run's block and
    touches no other output. Its failure map then says of every key what it should:
    a failure of this run with this run's block, or an older failure of a key this run
    neither priced nor reported; a priced key has a failure only if the run reported
    one. *)
Theorem set_spot_prices_spec (parse_address : string -> option Address) (d : DerivedData)
    (prices : SpotPrices) (items : list FailedItem) (block now : N) :
  let d' := set_spot_prices parse_address d prices items block now in
  spot_prices d' = Some prices /\ output_block d' SPOT_PRICES_ID = Some block /\
  component_depths d' = component_depths d /\ token_prices d' = token_prices d /\
  component_depths_failed d' = component_depths_failed d /\
  token_prices_failed d' = token_prices_failed d /\
  failures_after (parse_pair_key parse_address) prices items block
    (spot_prices_failed d) (spot_prices_failed d').
Proof.
  cbn zeta. unfold spot_prices, component_depths, token_prices, output_block, output_status.
  cbn. rewrite lookup_insert_eq, !lookup_insert_ne by done.
  split_and!; try done. apply merge_failures_after.
Qed.

(** Dropping the failures of removed components and of swap directions that are no
    longer listed keeps exactly the failures that can still be retried, and touches no
    output and no token price failure. *)
Theorem drop_failures_spec (d : DerivedData) (removed : list ComponentId)
    (added : gmap ComponentId ComponentTopology) :
  let d' := drop_failures_of_unlisted_directions (drop_failures_of_removed d removed) added in
  let kept k := (k.1.1 ∉ removed) /\ listed added k in
  slots d' = slots d /\ token_prices_failed d' = token_prices_failed d /\
  (forall k v, spot_prices_failed d' !! k = Some v <-> spot_prices_failed d !! k = Some v /\ kept k) /\
  (forall k v, component_depths_failed d' !! k = Some v <->
     component_depths_failed d !! k = Some v /\ kept k).
Proof.
  cbn zeta. destruct removed as [|r removed].
  - cbn. split_and!; [done..| |]; intros k v; unfold drop_unlisted_directions;
      rewrite map_lookup_filter_Some; cbn; rewrite elem_of_nil; tauto.
  - cbn [drop_failures_of_removed drop_failures_of_unlisted_directions slots token_prices_failed
      spot_prices_failed component_depths_failed].
    split_and!; [done..| |]; intros k v; unfold drop_unlisted_directions, drop_components;
      rewrite !map_lookup_filter_Some; cbn [fst snd]; tauto.
Qed.

(** ** Witness *)

Lemma pair_key_roundtrip_witness :
  parse_pair_key Some (pair_key (fun a => a) ("pool/7", "0xa", "0xb")%string)
  = Some ("pool/7", "0xa", "0xb")%string.
Proof.
  apply (pair_key_roundtrip (fun a => a) Some ("pool/7", "0xa", "0xb")%string).
  intros a [-> | ->]; (split; [reflexivity|]); apply (bool_decide_unpack _); by vm_compute.
Defined.
