(* ===== verification/SpotPriceComputation.v ===== *)
(** * SpotPriceComputation: incremental spot prices

    Models [SpotPriceComputation::compute] of
    [fynd-core/src/derived/computations/spot_price.rs] and the [ChangedComponents] of
    [fynd-core/src/derived/manager.rs]. The market is read through the interface
    [Market]: what [MarketState] answers about a component and a token, and the spot
    price a pool's simulation state returns, which is [tycho_simulation] code. The
    theorem is that the incremental run equals a full recomputation of the market. *)

From stdpp Require Import prelude gmap sets strings list.
From Stdlib Require Import NArith ZArith Lia.
From S2P Require Import Prelude F64 Types Samples Tracker DerivedStore.

Record ChangedComponents := {
  added : gmap ComponentId ComponentTopology;
  removed : list ComponentId;
  updated : list ComponentId;
}.

(** The market as the computation reads it, under one lock. *)
Record Market `{Tycho} := {
  tokens_of : ComponentId -> option (list Address);
  swap_directions_of : ComponentId -> option (list SwapDirection);
  get_simulation_state : ComponentId -> option ProtocolSim;
  token_registry : Address -> option Token;
  spot_price : ProtocolSim -> Token -> Token -> result string f64;
}.

Section compute.
Context `{Tycho} (show_address : Address -> string) (market : Market).
Implicit Types (prices : SpotPrices) (component_id : ComponentId).

Definition failed_item (component_id : ComponentId) (d : SwapDirection) (error : FailedItemError)
    : FailedItem :=
  {| fi_key := pair_key show_address (component_id, d.1, d.2); fi_error := error |}.

(** One swap direction of a component with simulation state [sim]. *)
Definition compute_direction component_id (sim : ProtocolSim) (st : SpotPrices * list FailedItem)
    (d : SwapDirection) : SpotPrices * list FailedItem :=
  let '(prices, failed_items) := st in
  let key := (component_id, d.1, d.2) in
  match token_registry market d.1, token_registry market d.2 with
  | Some token_in, Some token_out =>
      match spot_price market sim token_in token_out with
      | Ok price => (<[key := price]> prices, failed_items)
      | Err e => (delete key prices,
                  failed_items ++ [failed_item component_id
                     (token_address_of token_in, token_address_of token_out) (ItemSimulationFailed e)])
      end
  | _, _ => (delete key prices, failed_items ++ [failed_item component_id d MissingTokenMetadata])
  end.

Definition directions_to_compute (changed : ChangedComponents) component_id
    : option (list SwapDirection) :=
  match added changed !! component_id with
  | Some topology => Some (tp_swap_directions topology)
  | None => swap_directions_of market component_id
  end.

Definition compute_component (changed : ChangedComponents) (st : SpotPrices * list FailedItem)
    component_id : SpotPrices * list FailedItem :=
  match directions_to_compute changed component_id with
  | None => st
  | Some directions =>
      match get_simulation_state market component_id with
      | None =>
          (drop_components [component_id] st.1,
           st.2 ++ ((fun d => failed_item component_id d MissingSimulationState) <$> directions))
      | Some sim => fold_left (compute_direction component_id sim) directions st
      end
  end.

(** The keys of the [added] map, in the map's order, then the updated components. *)
Definition components_to_compute (changed : ChangedComponents) : list ComponentId :=
  (map_to_list (added changed)).*1 ++ updated changed.

Definition compute (stored : option SpotPrices) (changed : ChangedComponents)
    : SpotPrices * list FailedItem :=
  let spot_prices := default ∅ stored in
  let spot_prices :=
    fold_left (fun prices component_id => drop_components [component_id] prices)
      (removed changed) spot_prices in
  let spot_prices := drop_unlisted_directions spot_prices (added changed) in
  fold_left (compute_component changed) (components_to_compute changed) (spot_prices, []).
End compute.

(** ** The specification: pricing every direction of the market *)

Section spec.
Context `{Tycho}.
Implicit Types (market : Market) (prices : SpotPrices) (component_id : ComponentId).

Definition direction_price market component_id (token_in token_out : Address) : option f64 :=
  sim ← get_simulation_state market component_id;
  t_in ← token_registry market token_in;
  t_out ← token_registry market token_out;
  match spot_price market sim t_in t_out with Ok price => Some price | Err _ => None end.

Definition full_price market (k : PairKey) : option f64 :=
  directions ← swap_directions_of market k.1.1;
  if decide ((k.1.2, k.2) ∈ directions) then direction_price market k.1.1 k.1.2 k.2 else None.

Definition is_full market prices : Prop := forall k, prices !! k = full_price market k.

(** [changed] describes the step from the market [old] to the market [new]: what it adds is
    tracked with those directions, what it removes is gone, what it updates keeps its
    directions, and anything else prices as before. *)
Record describes (changed : ChangedComponents) (old new : Market) : Prop := {
  ds_added : forall id topology, added changed !! id = Some topology ->
    swap_directions_of new id = Some (tp_swap_directions topology);
  ds_removed : forall id, id ∈ removed changed ->
    added changed !! id = None /\ swap_directions_of new id = None;
  ds_updated : forall id, id ∈ updated changed -> added changed !! id = None ->
    swap_directions_of new id = swap_directions_of old id \/ id ∈ removed changed;
  ds_others : forall k, added changed !! k.1.1 = None -> (k.1.1 ∉ removed changed) ->
    (k.1.1 ∉ updated changed) -> full_price new k = full_price old k;
}.

(** ** Laws *)

Lemma drop_components_lookup {V} (ids : list ComponentId) (m : gmap PairKey V) (k : PairKey) :
  drop_components ids m !! k = if decide (k.1.1 ∈ ids) then None else m !! k.
Proof.
  unfold drop_components. case_decide as Hin.
  - apply map_lookup_filter_None_2. right. intros v _. cbn. tauto.
  - destruct (m !! k) as [v|] eqn:Hk.
    + by apply map_lookup_filter_Some.
    + by apply map_lookup_filter_None_2; left.
Qed.

Lemma drop_removed_lookup {V} (ids : list ComponentId) (m : gmap PairKey V) (k : PairKey) :
  fold_left (fun m id => drop_components [id] m) ids m !! k
  = if decide (k.1.1 ∈ ids) then None else m !! k.
Proof.
  revert m. induction ids as [|id ids IH]; intros m; cbn [fold_left].
  { by rewrite decide_False by apply not_elem_of_nil. }
  rewrite IH, drop_components_lookup.
  destruct (decide (k.1.1 ∈ ids)) as [Hin|Hout].
  - by rewrite decide_True by (by right).
  - destruct (decide (k.1.1 = id)) as [->|Hne].
    + by rewrite !decide_True by left.
    + rewrite !decide_False; [done|..]; rewrite elem_of_cons, ?elem_of_nil; tauto.
Qed.

Lemma drop_unlisted_lookup {V} (m : gmap PairKey V) added (k : PairKey) :
  drop_unlisted_directions m added !! k = if decide (listed added k) then m !! k else None.
Proof.
  unfold drop_unlisted_directions. case_decide as Hl.
  - destruct (m !! k) as [v|] eqn:Hk.
    + by apply map_lookup_filter_Some.
    + by apply map_lookup_filter_None_2; left.
  - apply map_lookup_filter_None_2. right. intros v _. cbn. tauto.
Qed.

Context (show_address : Address -> string).

(** One component: its listed directions get their price, other keys keep theirs. *)
Lemma compute_direction_lookup market id sim st d (k : PairKey) :
  get_simulation_state market id = Some sim ->
  (compute_direction show_address market id sim st d).1 !! k
  = if decide (k = (id, d.1, d.2)) then direction_price market id d.1 d.2 else st.1 !! k.
Proof.
  intros Hsim. unfold compute_direction, direction_price. rewrite Hsim. destruct st as [prices items].
  cbn [mbind option_bind fst snd].
  destruct (token_registry market d.1) as [t_in|], (token_registry market d.2) as [t_out|];
    cbn [mbind option_bind fst snd].
  1: destruct (spot_price market sim t_in t_out) as [price|e]; cbn [fst snd].
  all: rewrite ?lookup_insert, ?lookup_delete; repeat case_decide; congruence.
Qed.

Lemma compute_directions_lookup market id sim ds st (k : PairKey) :
  get_simulation_state market id = Some sim ->
  (fold_left (compute_direction show_address market id sim) ds st).1 !! k
  = if decide (k.1.1 = id /\ (k.1.2, k.2) ∈ ds)
    then direction_price market id k.1.2 k.2 else st.1 !! k.
Proof.
  intros Hsim. revert st. induction ds as [|d ds IH]; intros st; cbn [fold_left].
  { rewrite decide_False; [done|]. intros [_ []%not_elem_of_nil]. }
  rewrite IH, compute_direction_lookup by done.
  destruct k as [[kid kin] kout], d as [din dout]. cbn [fst snd].
  destruct (decide (kid = id /\ (kin, kout) ∈ ds)) as [[-> Hin]|Hno].
  - rewrite decide_True; [done|]. split; [done|by right].
  - destruct (decide ((kid, kin, kout) = (id, din, dout))) as [[= -> -> ->]|Hne].
    + rewrite decide_True; [done|]. split; [done|left].
    + rewrite decide_False; [done|]. rewrite elem_of_cons. intros [-> [[= -> ->]|?]]; tauto.
Qed.

(** What a run makes of a key of a component it computes. *)
Definition computed_price market (changed : ChangedComponents) (k : PairKey)
    (before : option f64) : option f64 :=
  match directions_to_compute market changed k.1.1 with
  | None => before
  | Some ds =>
      match get_simulation_state market k.1.1 with
      | None => None
      | Some _ => if decide ((k.1.2, k.2) ∈ ds) then direction_price market k.1.1 k.1.2 k.2
                  else before
      end
  end.

Lemma compute_component_lookup market changed st id (k : PairKey) :
  (compute_component show_address market changed st id).1 !! k
  = if decide (k.1.1 = id) then computed_price market changed k (st.1 !! k) else st.1 !! k.
Proof.
  unfold compute_component, computed_price. destruct (decide (k.1.1 = id)) as [<-|Hne].
  - destruct (directions_to_compute market changed k.1.1) as [ds|]; [|done].
    destruct (get_simulation_state market k.1.1) as [sim|] eqn:Hsim.
    + rewrite compute_directions_lookup by done. repeat case_decide; naive_solver.
    + cbn [fst]. rewrite drop_components_lookup. by rewrite decide_True by left.
  - destruct (directions_to_compute market changed id) as [ds|]; [|done].
    destruct (get_simulation_state market id) as [sim|] eqn:Hsim.
    + rewrite compute_directions_lookup by done. rewrite decide_False; naive_solver.
    + cbn [fst]. rewrite drop_components_lookup.
      by rewrite decide_False by (by rewrite list_elem_of_singleton).
Qed.

Lemma computed_price_idem market changed k before :
  computed_price market changed k (computed_price market changed k before)
  = computed_price market changed k before.
Proof. unfold computed_price. by repeat case_match. Qed.

Lemma compute_components_lookup market changed ids st (k : PairKey) :
  (fold_left (compute_component show_address market changed) ids st).1 !! k
  = if decide (k.1.1 ∈ ids) then computed_price market changed k (st.1 !! k) else st.1 !! k.
Proof.
  revert st. induction ids as [|id ids IH]; intros st; cbn [fold_left].
  { by rewrite decide_False by apply not_elem_of_nil. }
  rewrite IH, compute_component_lookup. destruct (decide (k.1.1 = id)) as [Heq|Hne].
  - rewrite (decide_True (P := k.1.1 ∈ id :: ids)) by (rewrite Heq; left).
    destruct (decide (k.1.1 ∈ ids)); [apply computed_price_idem|done].
  - destruct (decide (k.1.1 ∈ ids)) as [Hin|Hout].
    + by rewrite decide_True by (by right).
    + rewrite decide_False; [done|]. by apply not_elem_of_cons.
Qed.

(** The stored prices after the drops, before anything is computed. *)
Lemma compute_lookup market stored changed (k : PairKey) :
  let base := if decide (listed (added changed) k /\ (k.1.1 ∉ removed changed))
              then default ∅ stored !! k else None in
  (compute show_address market stored changed).1 !! k
  = if decide (k.1.1 ∈ components_to_compute changed)
    then computed_price market changed k base else base.
Proof.
  cbn zeta. unfold compute. rewrite compute_components_lookup. cbn [fst].
  rewrite drop_unlisted_lookup, drop_removed_lookup. repeat case_decide; tauto.
Qed.

Lemma elem_of_to_compute changed id :
  id ∈ components_to_compute changed <->
  (exists topology, added changed !! id = Some topology) \/ id ∈ updated changed.
Proof.
  unfold components_to_compute. rewrite elem_of_app, list_elem_of_fmap. split.
  - intros [([i t] & -> & Hin)|?]; [|by right]. left. exists t. by apply elem_of_map_to_list.
  - intros [[t Ht]|?]; [|by right]. left. exists (id, t). split; [done|].
    by apply elem_of_map_to_list.
Qed.

(** The market's own price of a key, from the directions it tracks. *)
Lemma full_price_directions market (k : PairKey) ds :
  swap_directions_of market k.1.1 = Some ds ->
  full_price market k
  = if decide ((k.1.2, k.2) ∈ ds) then direction_price market k.1.1 k.1.2 k.2 else None.
Proof. intros Hds. unfold full_price. by rewrite Hds. Qed.

Lemma computed_price_full market changed (k : PairKey) ds before :
  directions_to_compute market changed k.1.1 = Some ds ->
  swap_directions_of market k.1.1 = Some ds -> ((k.1.2, k.2) ∉ ds -> before = None) ->
  computed_price market changed k before = full_price market k.
Proof.
  intros Hd Hm Hbefore. rewrite (full_price_directions _ _ _ Hm).
  unfold computed_price. rewrite Hd. unfold direction_price.
  destruct (get_simulation_state market k.1.1) as [sim|]; [|by case_decide].
  case_decide; [done|auto].
Qed.
End spec.

(** The same for any stored output; none counts as no prices. *)
Lemma incremental_full `{Tycho} (show_address : Address -> string)
    (old new : Market) (changed : ChangedComponents) (stored : option SpotPrices) :
  is_full old (default ∅ stored) -> describes changed old new ->
  is_full new (compute show_address new stored changed).1.
Proof.
  intros Hstored [Hadded Hremoved Hupdated Hothers] k. rewrite compute_lookup. rewrite (Hstored k).
  destruct (added changed !! k.1.1) as [topology|] eqn:Ha.
  { rewrite decide_True by (apply elem_of_to_compute; eauto).
    apply (computed_price_full _ _ _ (tp_swap_directions topology)).
    - unfold directions_to_compute. by rewrite Ha.
    - by apply Hadded.
    - intros Hno. rewrite decide_False; [done|]. unfold listed. rewrite Ha. tauto. }
  assert (listed (added changed) k) as Hlisted by (unfold listed; by rewrite Ha).
  destruct (decide (k.1.1 ∈ removed changed)) as [Hrem|Hkeep].
  { destruct (Hremoved _ Hrem) as [_ Hgone].
    assert (full_price new k = None) as -> by (unfold full_price; by rewrite Hgone).
    rewrite (decide_False (P := listed _ _ /\ _)) by tauto.
    unfold computed_price, directions_to_compute. rewrite Ha, Hgone. by case_decide. }
  rewrite (decide_True (P := listed _ _ /\ _)) by done.
  case_decide as Hcomp; [|symmetry; apply Hothers; [done|done|]].
  - apply elem_of_to_compute in Hcomp as [[t Ht]|Hupd]; [congruence|].
    destruct (Hupdated _ Hupd Ha) as [Hsame|?]; [|done].
    destruct (swap_directions_of new k.1.1) as [ds|] eqn:Hds.
    + apply (computed_price_full _ _ _ ds); [unfold directions_to_compute; by rewrite Ha|done|].
      intros Hno. rewrite (full_price_directions old k ds) by done. by rewrite decide_False.
    + unfold computed_price, directions_to_compute. rewrite Ha, Hds.
      unfold full_price. by rewrite Hds, <- Hsame.
  - intros Hupd. apply Hcomp, elem_of_to_compute. by right.
Qed.

(** ** Properties *)

(** Incremental spot prices equal full ones. If the stored prices price every
    direction of the market before an update, and the change set describes the update,
    then the run's prices price every direction of the market after it: nothing is
    missed, nothing stale stays, whatever was added, removed or updated. *)
Theorem incremental_equals_full `{Tycho} (show_address : Address -> string)
    (old new : Market) (changed : ChangedComponents) (stored : SpotPrices) :
  is_full old stored -> describes changed old new ->
  is_full new (compute show_address new (Some stored) changed).1.
Proof. apply (incremental_full show_address old new changed (Some stored)). Qed.

(** ** Failures *)

Section failures.
Context `{Tycho} (show_address : Address -> string) (market : Market).
(** Tokens are registered under their own address. *)
Hypothesis registered : forall a token, token_registry market a = Some token -> token_address_of token = a.
Implicit Types (st : SpotPrices * list FailedItem) (id : ComponentId).

Definition reported (items : list FailedItem) (k : PairKey) : Prop :=
  exists f, f ∈ items /\ fi_key f = pair_key show_address k.

Lemma compute_direction_failures id sim st d :
  get_simulation_state market id = Some sim ->
  st.2 ⊆ (compute_direction show_address market id sim st d).2 /\
  (direction_price market id d.1 d.2 = None ->
   reported (compute_direction show_address market id sim st d).2 (id, d.1, d.2)).
Proof.
  intros Hsim. unfold compute_direction, direction_price. rewrite Hsim. destruct st as [prices items].
  cbn [mbind option_bind fst snd].
  assert (forall d' e, d' = d -> reported (items ++ [failed_item show_address id d' e]) (id, d.1, d.2))
    as Hnew.
  { intros d' e ->. eexists. split; [apply elem_of_app; right; left|done]. }
  assert (forall d' e, items ⊆ items ++ [failed_item show_address id d' e]) as Hsub.
  { intros d' e f Hf. apply elem_of_app. by left. }
  destruct (token_registry market d.1) as [t_in|] eqn:Hin,
    (token_registry market d.2) as [t_out|] eqn:Hout;
    cbn [mbind option_bind fst snd]; try (split; [apply Hsub|intros _; by apply Hnew]).
  rewrite (registered _ _ Hin), (registered _ _ Hout), <- surjective_pairing.
  destruct (spot_price market sim t_in t_out) as [price|e]; cbn [fst snd]; [done|].
  split; [apply Hsub|intros _; by apply Hnew].
Qed.

Lemma reported_mono items items' k : items ⊆ items' -> reported items k -> reported items' k.
Proof. intros Hsub (f & Hf & Hk). exists f. auto. Qed.

Lemma compute_directions_failures id sim ds st :
  get_simulation_state market id = Some sim ->
  st.2 ⊆ (fold_left (compute_direction show_address market id sim) ds st).2 /\
  forall d, d ∈ ds -> direction_price market id d.1 d.2 = None ->
    reported (fold_left (compute_direction show_address market id sim) ds st).2 (id, d.1, d.2).
Proof.
  intros Hsim. revert st. induction ds as [|d0 ds IH]; intros st; cbn [fold_left].
  { split; [done|]. by intros d []%not_elem_of_nil. }
  destruct (compute_direction_failures id sim st d0 Hsim) as [Hsub Hd0].
  destruct (IH (compute_direction show_address market id sim st d0)) as [Hsub' Hds].
  split; [by etransitivity|]. intros d [->|Hd]%elem_of_cons Hnone; [|by apply Hds].
  eapply reported_mono; [exact Hsub'|]. by apply Hd0.
Qed.

Lemma compute_component_failures changed id st :
  st.2 ⊆ (compute_component show_address market changed st id).2 /\
  forall ds d, directions_to_compute market changed id = Some ds -> d ∈ ds ->
    direction_price market id d.1 d.2 = None ->
    reported (compute_component show_address market changed st id).2 (id, d.1, d.2).
Proof.
  unfold compute_component. destruct (directions_to_compute market changed id) as [ds|]; [|done].
  destruct (get_simulation_state market id) as [sim|] eqn:Hsim.
  - destruct (compute_directions_failures id sim ds st Hsim) as [Hsub Hds].
    split; [done|]. intros ds' d [= <-]. apply Hds.
  - cbn [snd]. split; [intros f Hf; apply elem_of_app; by left|].
    intros ds' d [= <-] Hd _. eexists.
    split; [apply elem_of_app; right; apply list_elem_of_fmap; by exists d|done].
Qed.

Lemma compute_components_failures changed ids st :
  st.2 ⊆ (fold_left (compute_component show_address market changed) ids st).2 /\
  forall id ds d, id ∈ ids -> directions_to_compute market changed id = Some ds -> d ∈ ds ->
    direction_price market id d.1 d.2 = None ->
    reported (fold_left (compute_component show_address market changed) ids st).2 (id, d.1, d.2).
Proof.
  revert st. induction ids as [|id0 ids IH]; intros st; cbn [fold_left].
  { split; [done|]. by intros id ds d []%not_elem_of_nil. }
  destruct (compute_component_failures changed id0 st) as [Hsub H0].
  destruct (IH (compute_component show_address market changed st id0)) as [Hsub' Hids].
  split; [by etransitivity|]. intros id ds d [->|Hin]%elem_of_cons Hds Hd Hnone; [|by eapply Hids].
  eapply reported_mono; [exact Hsub'|]. by eapply H0.
Qed.
End failures.

(** No swap direction is dropped silently: every direction of a computed component
    either has a price after the run or is reported as a failed item, when tokens are
    registered under their own address. *)
Theorem priced_or_reported `{Tycho} (show_address : Address -> string) (market : Market)
    (changed : ChangedComponents) (stored : option SpotPrices) (id : ComponentId)
    (ds : list SwapDirection) (d : SwapDirection) :
  (forall a token, token_registry market a = Some token -> token_address_of token = a) ->
  id ∈ components_to_compute changed -> directions_to_compute market changed id = Some ds ->
  d ∈ ds ->
  let run := compute show_address market stored changed in
  run.1 !! (id, d.1, d.2) = direction_price market id d.1 d.2 /\
  (run.1 !! (id, d.1, d.2) = None -> reported show_address run.2 (id, d.1, d.2)).
Proof.
  intros Hreg Hid Hds Hd. cbn zeta.
  assert ((compute show_address market stored changed).1 !! (id, d.1, d.2)
          = direction_price market id d.1 d.2) as Hprice.
  { rewrite compute_lookup. cbn [fst snd]. rewrite decide_True by done.
    unfold computed_price. cbn [fst snd]. rewrite Hds. destruct d as [din dout].
    cbn [fst snd]. rewrite decide_True by done.
    unfold direction_price. by destruct (get_simulation_state market id). }
  split; [done|]. rewrite Hprice. intros Hnone. unfold compute.
  by eapply compute_components_failures.
Qed.

(** ** Witnesses *)

Section witnesses.
#[local] Existing Instance Sample.tycho.

Definition market_of (pools : gmap ComponentId (list SwapDirection)) : Market := {|
  tokens_of := fun id => (fun ds => ds.*1 ++ ds.*2) <$> pools !! id;
  swap_directions_of := fun id => pools !! id;
  get_simulation_state := fun _ => Some (tt : @ProtocolSim Sample.tycho);
  token_registry := fun a => Some (a : @Token Sample.tycho);
  spot_price := fun _ token_in _ =>
    if decide (token_in = Sample.A) then Ok F64.one else Err "no price";
|}.

Definition sample_topology : ComponentTopology :=
  {| tp_tokens := [Sample.A; Sample.B];
     tp_swap_directions := [(Sample.A, Sample.B); (Sample.B, Sample.A)] |}.

Definition sample_changed : ChangedComponents :=
  {| added := {[ "pool"%string := sample_topology ]}; removed := []; updated := [] |}.

Definition sample_market : Market := market_of {[ "pool"%string := tp_swap_directions sample_topology ]}.

Lemma sample_describes : describes sample_changed (market_of ∅) sample_market.
Proof.
  split; cbn.
  - intros id topology. destruct (decide (id = "pool"%string)) as [->|Hne].
    + rewrite !lookup_singleton_eq. by intros [= <-].
    + by rewrite !lookup_singleton_ne.
  - by intros id []%not_elem_of_nil.
  - by intros id []%not_elem_of_nil.
  - intros [[id t_in] t_out]. unfold full_price. cbn [fst snd sample_market market_of
      swap_directions_of]. intros Hadd _ _. rewrite lookup_empty.
    destruct (decide (id = "pool"%string)) as [->|Hne]; [by rewrite lookup_singleton_eq in Hadd|].
    by rewrite lookup_singleton_ne.
Qed.

Lemma incremental_equals_full_witness :
  is_full sample_market
    (compute (fun a => a) sample_market (Some (∅ : SpotPrices)) sample_changed).1.
Proof.
  apply (incremental_equals_full (fun a => a) (market_of ∅) sample_market sample_changed ∅).
  - intros k. unfold full_price. cbn. by rewrite !lookup_empty.
  - exact sample_describes.
Defined.

Lemma priced_or_reported_witness :
  reported (fun a => a) (compute (fun a => a) sample_market None sample_changed).2
    ("pool"%string, Sample.B, Sample.A).
Proof.
  destruct (priced_or_reported (fun a => a) sample_market sample_changed None "pool"
    (tp_swap_directions sample_topology) (Sample.B, Sample.A)) as [Hprice Hrep].
  - by intros a token [= ->].
  - by apply (bool_decide_unpack _); vm_compute.
  - by vm_compute.
  - right. left.
  - apply Hrep. rewrite Hprice. by vm_compute.
Defined.
End witnesses.
