(* ===== verification/Schedule.v ===== *)
(** * Schedule: the dependency order of the computations

    Models [build_schedule] of [fynd-core/src/derived/manager.rs]. A pass assigns a
    stage to every node whose registered requirements have one, in place; passes
    repeat until one assigns nothing. Every progressing pass assigns a node, so one
    pass more than there are nodes is enough fuel. The requirement sets are read in
    their elements' order; the stage a node gets does not depend on it. *)

From stdpp Require Import prelude gmap sets strings list sorting.
From Stdlib Require Import NArith ZArith Lia.
From S2P Require Import Prelude F64 Tracker.

Local Open Scope nat_scope.

Abbreviation Node := (ComputationId * ComputationRequirements)%type.

Record ComputationSchedule := {
  stages : list (list nat);
  unscheduled : list nat;
}.

Definition dependencies (reqs : ComputationRequirements) : list ComputationId :=
  elements (req_fresh reqs) ++ elements (req_stale reqs).

(** The index of a requirement among the nodes. *)
Definition node_index (nodes : list Node) (dep : ComputationId) : option nat :=
  position (fun n : Node => bool_decide (n.1 = dep)) nodes.

(** The loop over the requirements of a node: its stage, or [None] if one has none yet. *)
Fixpoint ready_stage (nodes : list Node) (stage_of : list (option nat))
    (deps : list ComputationId) (stage : nat) : option nat :=
  match deps with
  | [] => Some stage
  | dep :: rest =>
      match node_index nodes dep with
      | None => ready_stage nodes stage_of rest stage
      | Some dep_idx =>
          match stage_of !! dep_idx with
          | Some (Some dep_stage) => ready_stage nodes stage_of rest (Nat.max stage (dep_stage + 1))
          | _ => None
          end
      end
  end.

(** One node of a pass. *)
Definition visit_node (nodes : list Node) (st : list (option nat) * bool) (idx : nat)
    : list (option nat) * bool :=
  let '(stage_of, progressed) := st in
  match stage_of !! idx, nodes !! idx with
  | Some None, Some (_, reqs) =>
      match ready_stage nodes stage_of (dependencies reqs) 0 with
      | Some stage => (<[idx := Some stage]> stage_of, true)
      | None => st
      end
  | _, _ => st
  end.

Definition schedule_pass (nodes : list Node) (stage_of : list (option nat))
    : list (option nat) * bool :=
  fold_left (visit_node nodes) (seq 0 (length nodes)) (stage_of, false).

Fixpoint schedule_loop (fuel : nat) (nodes : list Node) (stage_of : list (option nat))
    : option (list (option nat)) :=
  match fuel with
  | O => None
  | S fuel' =>
      let '(stage_of', progressed) := schedule_pass nodes stage_of in
      if (progressed : bool) then schedule_loop fuel' nodes stage_of' else Some stage_of'
  end.

Definition assigned_stages (stage_of : list (option nat)) : list nat := omap id stage_of.

Definition stage_count (stage_of : list (option nat)) : nat :=
  match assigned_stages stage_of with
  | [] => 0
  | s :: rest => fold_left Nat.max rest s + 1
  end.

(** The indices whose entry satisfies [p], in order. *)
Definition indices (p : option nat -> bool) (stage_of : list (option nat)) : list nat :=
  List.filter (fun idx => match stage_of !! idx with Some s => p s | None => false end)
    (seq 0 (length stage_of)).

Definition in_stage (stage : nat) (s : option nat) : bool := bool_decide (s = Some stage).
Definition no_stage (s : option nat) : bool := bool_decide (s = None).

Definition schedule_of (stage_of : list (option nat)) : ComputationSchedule := {|
  stages := (fun stage => indices (in_stage stage) stage_of) <$> seq 0 (stage_count stage_of);
  unscheduled := indices no_stage stage_of;
|}.

Definition build_schedule (nodes : list Node) : option ComputationSchedule :=
  schedule_of <$> schedule_loop (S (length nodes)) nodes (replicate (length nodes) None).

(** ** Laws *)

Section laws.
Context (nodes : list Node).
Implicit Types (stage_of : list (option nat)).

(** [idx] requires the node [dep_idx]. *)
Definition requires (idx dep_idx : nat) : Prop :=
  exists id reqs dep, nodes !! idx = Some (id, reqs) /\ dep ∈ dependencies reqs /\
    node_index nodes dep = Some dep_idx.

Lemma ready_stage_Some stage_of deps stage s :
  ready_stage nodes stage_of deps stage = Some s ->
  stage <= s /\ forall dep i, dep ∈ deps -> node_index nodes dep = Some i ->
    exists t, stage_of !! i = Some (Some t) /\ t < s.
Proof.
  revert stage. induction deps as [|dep deps IH]; intros stage; cbn.
  { intros [= <-]. split; [done|]. by intros dep i []%not_elem_of_nil. }
  destruct (node_index nodes dep) as [i|] eqn:Hi.
  - destruct (stage_of !! i) as [[t|]|] eqn:Ht; [|done..]. intros [Hle Hall]%IH.
    split; [lia|]. intros d j [->|Hd]%elem_of_cons Hj; [|by apply (Hall d)].
    rewrite Hi in Hj. injection Hj as <-. exists t. split; [done|lia].
  - intros [Hle Hall]%IH. split; [done|].
    intros d j [->|Hd]%elem_of_cons Hj; [congruence|by apply (Hall d)].
Qed.

Lemma ready_stage_None stage_of deps stage :
  ready_stage nodes stage_of deps stage = None ->
  exists dep i, dep ∈ deps /\ node_index nodes dep = Some i /\
    forall t, stage_of !! i <> Some (Some t).
Proof.
  revert stage. induction deps as [|dep deps IH]; intros stage; cbn; [done|].
  destruct (node_index nodes dep) as [i|] eqn:Hi.
  - destruct (stage_of !! i) as [[t|]|] eqn:Ht.
    + intros (d & j & Hd & ? & ?)%IH. exists d, j. split_and!; [by right|done|done].
    + intros _. exists dep, i. split_and!; [left|done|by intros t; rewrite Ht].
    + intros _. exists dep, i. split_and!; [left|done|by intros t; rewrite Ht].
  - intros (d & j & Hd & ? & ?)%IH. exists d, j. split_and!; [by right|done|done].
Qed.

(** Stages respect the requirements. *)
Definition stages_ok stage_of : Prop :=
  length stage_of = length nodes /\
  forall idx s dep_idx, stage_of !! idx = Some (Some s) -> requires idx dep_idx ->
    exists t, stage_of !! dep_idx = Some (Some t) /\ t < s.

(** A visit assigns its node or leaves the stages; an unassigned node has a reason. *)
Lemma visit_node_spec stage_of progressed idx stage_of' progressed' :
  stages_ok stage_of -> visit_node nodes (stage_of, progressed) idx = (stage_of', progressed') ->
  stages_ok stage_of' /\
  (forall i s, stage_of !! i = Some (Some s) -> stage_of' !! i = Some (Some s)) /\
  ((stage_of' = stage_of /\ progressed' = progressed /\
    (stage_of !! idx = Some None -> exists i, requires idx i /\
       forall t, stage_of !! i <> Some (Some t))) \/
   (progressed' = true /\ length (assigned_stages stage_of) < length (assigned_stages stage_of'))).
Proof.
  intros [Hlen Hok]. unfold visit_node.
  destruct (stage_of !! idx) as [[s|]|] eqn:Hidx.
  1,3: intros [= <- <-]; split_and!; [by split|done|left; split_and!; [done|done|congruence]].
  destruct (nodes !! idx) as [[id reqs]|] eqn:Hnode.
  2: { apply lookup_lt_Some in Hidx. apply lookup_ge_None in Hnode. lia. }
  destruct (ready_stage nodes stage_of (dependencies reqs) 0) as [stage|] eqn:Hready; intros [= <- <-].
  - apply ready_stage_Some in Hready as [_ Hdeps].
    assert (forall i s, stage_of !! i = Some (Some s) ->
      <[idx:=Some stage]> stage_of !! i = Some (Some s)) as Hkeep.
    { intros i s Hi. rewrite list_lookup_insert_ne; [done|]. intros <-. congruence. }
    split_and!; [|exact Hkeep|right; split; [done|]].
    + split; [by rewrite length_insert|]. intros i s j Hi (id' & reqs' & dep & Hn & Hdep & Hj).
      destruct (decide (i = idx)) as [->|Hne].
      * rewrite list_lookup_insert_eq in Hi by (by eapply lookup_lt_Some). injection Hi as <-.
        assert (reqs' = reqs) as -> by congruence.
        destruct (Hdeps dep j Hdep Hj) as (t & Ht & Hlt). exists t. split; [by apply Hkeep|done].
      * rewrite list_lookup_insert_ne in Hi by done.
        destruct (Hok i s j Hi) as (t & Ht & Hlt); [by exists id', reqs', dep|].
        exists t. split; [by apply Hkeep|done].
    + apply list_elem_of_split_length in Hidx as (l1 & l2 & -> & ->).
      rewrite insert_app_r_alt, Nat.sub_diag by lia. cbn. unfold assigned_stages.
      rewrite !omap_app. cbn. rewrite !length_app. cbn. lia.
  - apply ready_stage_None in Hready as (dep & i & Hdep & Hi & Hno).
    split_and!; [by split|done|left]. split_and!; [done..|]. intros _. exists i.
    split; [by exists id, reqs, dep|done].
Qed.

Lemma assigned_le_length stage_of : length (assigned_stages stage_of) <= length stage_of.
Proof. unfold assigned_stages. induction stage_of as [|[s|] l IH]; cbn in *; lia. Qed.

(** A pass over a range of indices. *)
Lemma visit_nodes_spec idxs stage_of progressed stage_of' progressed' :
  stages_ok stage_of ->
  fold_left (visit_node nodes) idxs (stage_of, progressed) = (stage_of', progressed') ->
  stages_ok stage_of' /\
  ((stage_of' = stage_of /\ progressed' = progressed /\
    (forall idx, idx ∈ idxs -> stage_of !! idx = Some None -> exists i, requires idx i /\
       forall t, stage_of !! i <> Some (Some t))) \/
   (progressed' = true /\ length (assigned_stages stage_of) < length (assigned_stages stage_of'))).
Proof.
  revert stage_of progressed.
  induction idxs as [|idx idxs IH]; intros stage_of progressed Hok; cbn [fold_left].
  { intros [= <- <-]. split; [done|]. left. split_and!; [done..|]. by intros idx []%not_elem_of_nil. }
  destruct (visit_node nodes (stage_of, progressed) idx) as [s1 p1] eqn:Hv.
  destruct (visit_node_spec _ _ _ _ _ Hok Hv) as (Hok1 & _ & Hcase). intros Hrest.
  destruct (IH _ _ Hok1 Hrest) as (Hok' & Hcase'). split; [done|].
  destruct Hcase as [(-> & -> & Hwhy)|[-> Hlt]].
  - destruct Hcase' as [(-> & -> & Hwhy')|[? ?]]; [left|right; split; [done|lia]].
    split_and!; [done..|]. intros i [->|Hi]%elem_of_cons; auto.
  - right. destruct Hcase' as [(-> & -> & _)|[? ?]]; split; try done; lia.
Qed.

(** A fixpoint of the passes: every unassigned node waits for an unassigned node. *)
Definition settled stage_of : Prop :=
  stages_ok stage_of /\
  forall idx, stage_of !! idx = Some None -> exists i, requires idx i /\
    forall t, stage_of !! i <> Some (Some t).

Lemma schedule_loop_settles fuel stage_of :
  stages_ok stage_of -> length nodes < fuel + length (assigned_stages stage_of) ->
  exists final, schedule_loop fuel nodes stage_of = Some final /\ settled final.
Proof.
  revert stage_of. induction fuel as [|fuel IH]; intros stage_of Hok Hfuel.
  { pose proof (assigned_le_length stage_of). destruct Hok. lia. }
  cbn [schedule_loop]. destruct (schedule_pass nodes stage_of) as [s1 p1] eqn:Hpass.
  destruct (visit_nodes_spec _ _ _ _ _ Hok Hpass) as (Hok1 & [(-> & -> & Hwhy)|[-> Hlt]]).
  - exists stage_of. split; [done|]. split; [done|]. intros idx Hidx. apply Hwhy; [|done].
    apply elem_of_seq. apply lookup_lt_Some in Hidx. destruct Hok. lia.
  - apply IH; [done|lia].
Qed.

Lemma empty_stages_ok : stages_ok (replicate (length nodes) None).
Proof.
  split; [apply length_replicate|]. intros idx s i Hs.
  apply lookup_replicate in Hs as [[=] _].
Qed.

Lemma stage_of_settles :
  exists final, schedule_loop (S (length nodes)) nodes (replicate (length nodes) None) = Some final /\
    settled final.
Proof. apply schedule_loop_settles; [apply empty_stages_ok|lia]. Qed.

(** *** From stages to the schedule *)

Lemma elem_of_indices p stage_of idx :
  idx ∈ indices p stage_of <-> exists s, stage_of !! idx = Some s /\ p s = true.
Proof.
  unfold indices. rewrite elem_of_filterb, elem_of_seq. split.
  - intros [_ Hp]. destruct (stage_of !! idx) as [s|]; [by exists s|done].
  - intros (s & Hs & Hp). rewrite Hs. apply lookup_lt_Some in Hs. split; [lia|done].
Qed.

Lemma fold_max_le l s : s <= fold_left Nat.max l s /\ forall x, x ∈ l -> x <= fold_left Nat.max l s.
Proof.
  revert s. induction l as [|y l IH]; intros s; cbn; [split; [done|by intros x []%not_elem_of_nil]|].
  destruct (IH (Nat.max s y)) as [Hle Hall]. split; [lia|].
  intros x [->|Hx]%elem_of_cons; [lia|by apply Hall].
Qed.

Lemma stage_lt_count stage_of idx s :
  stage_of !! idx = Some (Some s) -> s < stage_count stage_of.
Proof.
  intros Hs. assert (s ∈ assigned_stages stage_of) as Hin.
  { unfold assigned_stages. apply list_elem_of_omap. exists (Some s).
    split; [by eapply list_elem_of_lookup_2|done]. }
  unfold stage_count. destruct (assigned_stages stage_of) as [|x l]; [by apply elem_of_nil in Hin|].
  destruct (fold_max_le l x) as [Hle Hall].
  apply elem_of_cons in Hin as [->|Hin]; [|apply Hall in Hin]; lia.
Qed.

Lemma schedule_stage stage_of stage idxs :
  stages (schedule_of stage_of) !! stage = Some idxs -> idxs = indices (in_stage stage) stage_of.
Proof.
  cbn. rewrite list_lookup_fmap. intros (s & Hs & ->)%fmap_Some.
  by apply lookup_seq in Hs as [-> _].
Qed.

Lemma scheduled_iff stage_of stage idx :
  (exists idxs, stages (schedule_of stage_of) !! stage = Some idxs /\ idx ∈ idxs) <->
  stage_of !! idx = Some (Some stage).
Proof.
  split.
  - intros (idxs & Hidxs & Hin). apply schedule_stage in Hidxs as ->.
    apply elem_of_indices in Hin as (s & Hs & Hp%bool_decide_eq_true). by subst.
  - intros Hs. exists (indices (in_stage stage) stage_of). split.
    + cbn. rewrite list_lookup_fmap, lookup_seq_lt; [done|by eapply stage_lt_count].
    + apply elem_of_indices. exists (Some stage). split; [done|by apply bool_decide_eq_true].
Qed.

Lemma unscheduled_iff stage_of idx :
  idx ∈ unscheduled (schedule_of stage_of) <-> stage_of !! idx = Some None.
Proof.
  cbn. rewrite elem_of_indices. split.
  - by intros (s & Hs & ->%bool_decide_eq_true).
  - intros Hs. exists None. split; [done|by apply bool_decide_eq_true].
Qed.

Lemma indices_sorted p stage_of : StronglySorted lt (indices p stage_of).
Proof.
  unfold indices. generalize 0 (length stage_of). intros from n.
  revert from. induction n as [|n IH]; intros from; cbn; [constructor|].
  match goal with |- context [if ?c then _ else _] => destruct c end; [|apply IH].
  constructor; [apply IH|]. apply Forall_forall. intros x Hx.
  apply elem_of_filterb in Hx as [Hx _]. apply elem_of_seq in Hx. lia.
Qed.

Lemma indices_NoDup p stage_of : NoDup (indices p stage_of).
Proof. unfold indices. apply NoDup_ListNoDup, List.NoDup_filter, NoDup_ListNoDup, NoDup_seq. Qed.

(** The order in which a run reports: the unscheduled first, then stage by stage. *)
Definition run_order (sched : ComputationSchedule) : list nat :=
  unscheduled sched ++ (stages sched ≫= id).

Lemma elem_of_run_order sched idx :
  idx ∈ run_order sched <-> idx ∈ unscheduled sched \/
    exists stage idxs, stages sched !! stage = Some idxs /\ idx ∈ idxs.
Proof.
  unfold run_order. rewrite elem_of_app, list_elem_of_bind. split.
  - intros [?|(idxs & Hin & [stage Hs]%list_elem_of_lookup)]; [by left|right; by exists stage, idxs].
  - intros [?|(stage & idxs & Hs & Hin)]; [by left|right]. exists idxs.
    split; [done|by eapply list_elem_of_lookup_2].
Qed.

Lemma run_order_perm stage_of : run_order (schedule_of stage_of) ≡ₚ seq 0 (length stage_of).
Proof.
  apply NoDup_Permutation; [|apply NoDup_seq|].
  - assert (stages (schedule_of stage_of) ≫= id =
      seq 0 (stage_count stage_of) ≫= fun stage => indices (in_stage stage) stage_of) as Hb.
    { cbn. generalize (seq 0 (stage_count stage_of)). intros l.
      induction l as [|x l IH]; cbn; [done|]. by rewrite IH. }
    unfold run_order. rewrite Hb. apply NoDup_app.
    split_and!; [apply indices_NoDup| |apply NoDup_bind].
    + intros idx Hun%unscheduled_iff (stage & Hin & _)%list_elem_of_bind.
      apply elem_of_indices in Hin as (s & Hs & ->%bool_decide_eq_true). congruence.
    + intros s t idx _ _ (a & Ha & ->%bool_decide_eq_true)%elem_of_indices
        (b & Hb' & ->%bool_decide_eq_true)%elem_of_indices. congruence.
    + intros stage _. apply indices_NoDup.
    + apply NoDup_seq.
  - intros idx. rewrite elem_of_run_order, unscheduled_iff, elem_of_seq. split.
    + intros [Hs|(stage & Hex)].
      * apply lookup_lt_Some in Hs. lia.
      * apply scheduled_iff, lookup_lt_Some in Hex. lia.
    + intros [_ [[s|] Hs]%lookup_lt_is_Some]; [right|by left]. exists s. by apply scheduled_iff.
Qed.
End laws.

Lemma requires_lookup nodes idx dep_idx :
  requires nodes idx dep_idx -> dep_idx < length nodes.
Proof.
  intros (id & reqs & dep & _ & _ & Hdep). apply position_Some in Hdep as (x & Hx & _).
  by eapply lookup_lt_Some.
Qed.

Lemma settled_waits nodes stage_of idx :
  settled nodes stage_of -> stage_of !! idx = Some None ->
  exists dep_idx, requires nodes idx dep_idx /\ stage_of !! dep_idx = Some None.
Proof.
  intros [[Hlen _] Hwhy] Hidx. destruct (Hwhy idx Hidx) as (i & Hreq & Hno).
  exists i. split; [done|]. apply requires_lookup in Hreq. rewrite <- Hlen in Hreq.
  apply lookup_lt_is_Some in Hreq as [[s|] Hs]; [by destruct (Hno s)|done].
Qed.

(** What a run needs of the schedule. *)
Lemma build_schedule_order nodes :
  exists sched, build_schedule nodes = Some sched /\ run_order sched ≡ₚ seq 0 (length nodes).
Proof.
  destruct (stage_of_settles nodes) as (final & Hloop & [[Hlen _] _]).
  exists (schedule_of final). unfold build_schedule. rewrite Hloop. split; [done|].
  rewrite <- Hlen. apply run_order_perm.
Qed.

(** A computation without requirements is never left out. *)
Lemma independent_scheduled nodes sched idx id :
  build_schedule nodes = Some sched -> nodes !! idx = Some (id, requirements_none) ->
  idx ∉ unscheduled sched.
Proof.
  unfold build_schedule. destruct (stage_of_settles nodes) as (final & Hloop & Hsettled).
  rewrite Hloop. intros [= <-] Hidx Hun%unscheduled_iff.
  destruct (settled_waits nodes final idx Hsettled Hun) as (i & (id' & reqs & dep & Hn & Hdep & _) & _).
  rewrite Hidx in Hn. injection Hn as <- <-. unfold dependencies in Hdep. cbn in Hdep.
  rewrite elements_empty in Hdep. by apply elem_of_nil in Hdep.
Qed.

(** ** Properties *)

Definition in_stage_of (sched : ComputationSchedule) (idx stage : nat) : Prop :=
  exists idxs, stages sched !! stage = Some idxs /\ idx ∈ idxs.

(** Building the schedule terminates for any computations, cyclic ones included, and
    places every one exactly once: in one stage or among the unscheduled. Every
    registered requirement of a scheduled computation is in a strictly earlier stage;
    every unscheduled computation waits for another unscheduled one; within a stage
    the registration order is kept. *)
Theorem build_schedule_spec (nodes : list Node) :
  exists sched, build_schedule nodes = Some sched /\
  (forall idx, idx < length nodes <->
     idx ∈ unscheduled sched \/ exists stage, in_stage_of sched idx stage) /\
  (forall idx s t, in_stage_of sched idx s -> in_stage_of sched idx t -> s = t) /\
  (forall idx s, in_stage_of sched idx s -> idx ∉ unscheduled sched) /\
  (forall idx s dep_idx, in_stage_of sched idx s -> requires nodes idx dep_idx ->
     exists t, in_stage_of sched dep_idx t /\ t < s) /\
  (forall idx, idx ∈ unscheduled sched ->
     exists dep_idx, requires nodes idx dep_idx /\ dep_idx ∈ unscheduled sched) /\
  (forall stage idxs, stages sched !! stage = Some idxs -> StronglySorted lt idxs).
Proof.
  destruct (stage_of_settles nodes) as (final & Hloop & Hsettled).
  exists (schedule_of final). unfold build_schedule. rewrite Hloop. split; [done|].
  assert (forall idx s, in_stage_of (schedule_of final) idx s <-> final !! idx = Some (Some s))
    as Hin by (intros; apply scheduled_iff).
  pose proof (unscheduled_iff final) as Hun. destruct Hsettled as [[Hlen Hord] Hwhy].
  split_and!.
  - intros idx. setoid_rewrite Hin. rewrite Hun, <- Hlen, <- lookup_lt_is_Some. split.
    + intros [[s|] Hs]; [right; by exists s|by left].
    + intros [Hs|[s Hs]]; by eexists.
  - intros idx s t. rewrite !Hin. congruence.
  - intros idx s. rewrite Hin, Hun. congruence.
  - intros idx s dep_idx. rewrite Hin. intros Hs Hreq.
    destruct (Hord idx s dep_idx Hs Hreq) as (t & Ht & Hlt). exists t. by rewrite Hin.
  - intros idx. rewrite Hun. intros Hidx.
    destruct (settled_waits nodes final idx) as (i & ? & ?); [by split|done|].
    exists i. by rewrite Hun.
  - intros stage idxs ->%schedule_stage. apply indices_sorted.
Qed.

(** Acyclic requirements are always scheduled: when some rank decreases along the
    requirements, no computation is left out. *)
Theorem acyclic_all_scheduled (nodes : list Node) (rank : nat -> nat)
    (sched : ComputationSchedule) :
  (forall idx dep_idx, requires nodes idx dep_idx -> rank dep_idx < rank idx) ->
  build_schedule nodes = Some sched -> unscheduled sched = [].
Proof.
  intros Hrank. unfold build_schedule.
  destruct (stage_of_settles nodes) as (final & Hloop & Hsettled). rewrite Hloop.
  intros [= <-]. destruct (unscheduled (schedule_of final)) as [|idx rest] eqn:Hun; [done|].
  assert (final !! idx = Some None) as Hidx.
  { apply unscheduled_iff. rewrite Hun. left. }
  exfalso. clear Hun. remember (rank idx) as r eqn:Hr. revert idx Hidx Hr.
  induction (lt_wf r) as [r _ IH]. intros idx Hidx ->.
  destruct (settled_waits nodes final idx Hsettled Hidx) as (i & Hreq & Hi).
  exact (IH (rank i) (Hrank _ _ Hreq) i Hi eq_refl).
Qed.

(** ** Witness *)

(** The default computation set: spot prices, token prices and depths, which need
    fresh spot prices. *)
Definition sample_nodes : list Node := [
  ("pool_depths"%string, requirements_fresh ["spot_prices"%string]);
  ("spot_prices"%string, requirements_none)].

Lemma sample_requires idx dep_idx : requires sample_nodes idx dep_idx -> idx = 0 /\ dep_idx = 1.
Proof.
  intros (id & reqs & dep & Hn & Hdep & Hi).
  destruct idx as [|[|idx]]; cbn in Hn; [| |done]; injection Hn as <- <-.
  - assert (dependencies (requirements_fresh ["spot_prices"%string]) = ["spot_prices"%string]) as Heq
      by (by vm_compute).
    rewrite Heq in Hdep. apply list_elem_of_singleton in Hdep as ->.
    change (Some 1 = Some dep_idx) in Hi. split; [reflexivity|congruence].
  - assert (dependencies requirements_none = []) as Heq by (by vm_compute).
    rewrite Heq in Hdep. by apply elem_of_nil in Hdep.
Qed.

Lemma acyclic_all_scheduled_witness :
  unscheduled (schedule_of [Some 1; Some 0]) = [] /\
  stages (schedule_of [Some 1; Some 0]) = [[1]; [0]].
Proof.
  split; [|by vm_compute].
  apply (acyclic_all_scheduled sample_nodes (fun idx => 1 - idx)); [|by vm_compute].
  intros idx dep_idx [-> ->]%sample_requires. cbn. lia.
Defined.
