(* ===== verification/Manager.v ===== *)
(** * Manager: running the computations for a block

    Models [coalesce_market_events], the registration and [compute_all] of
    [ComputationManager] in [fynd-core/src/derived/manager.rs]. A computation is its
    id, its requirements and what it returns for a store and a change set; the market
    it reads is fixed during a run. The computations of a stage run concurrently; here
    each reads and edits the store in one piece, in stage order, and their outputs are
    persisted in stage order afterwards. The theorems relate the events of a run to the
    requirements, to the store and to the workers' trackers. *)

From stdpp Require Import prelude gmap sets strings list sorting.
From Stdlib Require Import NArith ZArith Lia.
From S2P Require Import Prelude F64 Types Tracker DerivedStore SpotPriceComputation Schedule.

(** ** Coalescing market events *)

Record MarketEvent := {
  added_components : gmap ComponentId ComponentTopology;
  removed_components : list ComponentId;
  updated_components : list ComponentId;
}.

(** The three collections the batch is folded into. *)
Record Batch := {
  b_added : gmap ComponentId ComponentTopology;
  b_removed : gset ComponentId;
  b_updated : gset ComponentId;
}.

Definition batch_empty : Batch := {| b_added := ∅; b_removed := ∅; b_updated := ∅ |}.

Definition batch_add (b : Batch) (entry : ComponentId * ComponentTopology) : Batch := {|
  b_added := <[entry.1 := entry.2]> (b_added b);
  b_removed := b_removed b ∖ {[ entry.1 ]};
  b_updated := b_updated b ∖ {[ entry.1 ]} |}.

Definition batch_remove (b : Batch) (id : ComponentId) : Batch := {|
  b_added := delete id (b_added b);
  b_removed := {[ id ]} ∪ b_removed b;
  b_updated := b_updated b ∖ {[ id ]} |}.

Definition batch_update (b : Batch) (id : ComponentId) : Batch :=
  match b_added b !! id with
  | Some _ => b
  | None =>
      if decide (id ∈ b_removed b) then b
      else {| b_added := b_added b; b_removed := b_removed b;
              b_updated := {[ id ]} ∪ b_updated b |}
  end.

Definition batch_event (b : Batch) (ev : MarketEvent) : Batch :=
  let b := fold_left batch_add (map_to_list (added_components ev)) b in
  let b := fold_left batch_remove (removed_components ev) b in
  fold_left batch_update (updated_components ev) b.

(** The collected sets are returned in their elements' order. *)
Definition coalesce_market_events (events : list MarketEvent) : option ChangedComponents :=
  let b := fold_left batch_event events batch_empty in
  if bool_decide (b_added b = ∅) && bool_decide (b_removed b = ∅) && bool_decide (b_updated b = ∅)
  then None
  else Some {| added := b_added b; removed := elements (b_removed b);
               updated := elements (b_updated b) |}.

(** ** The computations *)

Inductive ComputationError :=
| MissingDependency (id : ComputationId)
| InvalidDependencyData (dependency : ComputationId) (reason : string)
| TypeMismatch (id : ComputationId)
| DuplicateComputationId (id : ComputationId)
| ComputationTimeout (elapsed_ms : N)
| NoValidResult (reason : string)
| ComputationSimulationFailed (msg : string)
| ComputationInternal (msg : string)
| InvalidConfiguration (msg : string).

Record ComputationOutput := {
  co_data : Output;
  co_failed_items : list FailedItem;
}.

Record ComputedWrite := {
  cw_failed_items : list FailedItem;
  cw_persist : DerivedData -> DerivedData;
}.

(** The trait: an id, the requirements, the result on a store and a change set with the
    store as the computation leaves it (token prices edit their failures and
    dependencies while they compute), and how the result of a block is stored. *)
Record Computation := {
  comp_id : ComputationId;
  comp_requirements : ComputationRequirements;
  comp_compute : DerivedData -> ChangedComponents ->
    DerivedData * result ComputationError ComputationOutput;
  comp_persist : DerivedData -> ComputationOutput -> N -> DerivedData;
}.

(** The trait's default [persist], at time [now]. *)
Definition default_persist (id : ComputationId) (now : N) (store : DerivedData)
    (output : ComputationOutput) (block : N) : DerivedData :=
  set_output_at store id (co_data output) block now.

Definition compute_erased (c : Computation) (store : DerivedData) (changed : ChangedComponents)
    (block : N) : DerivedData * result ComputationError ComputedWrite :=
  let '(store, computed) := comp_compute c store changed in
  (store, match computed with
          | Err e => Err e
          | Ok output => Ok {|
              cw_failed_items := co_failed_items output;
              cw_persist := fun store => comp_persist c store output block |}
          end).

Definition register_boxed (computations : list Computation) (computation : Computation)
    : result ComputationError (list Computation) :=
  if existsb (fun existing => bool_decide (comp_id existing = comp_id computation)) computations
  then Err (DuplicateComputationId (comp_id computation))
  else Ok (computations ++ [computation]).

(** ** A run *)

Record Run := {
  run_store : DerivedData;
  run_succeeded : gset ComputationId;
  run_events : list DerivedDataEvent;
}.

Section run.
Context (changed : ChangedComponents) (block : N).
Implicit Types (st : Run) (c : Computation).

Definition send st (ev : DerivedDataEvent) : Run := {|
  run_store := run_store st;
  run_succeeded := run_succeeded st;
  run_events := run_events st ++ [ev] |}.

Definition is_runnable st c : bool :=
  let reqs := comp_requirements c in
  bool_decide (req_fresh reqs ⊆ run_succeeded st) &&
  forallb (fun id => bool_decide (id ∈ run_succeeded st) ||
                     is_some (output_block (run_store st) id)) (elements (req_stale reqs)).

Definition report_failed st c : Run := send st (ComputationFailed (comp_id c) block).

(** Persisting and reporting the result of one computation. *)
Definition report st (entry : Computation * result ComputationError ComputedWrite) : Run :=
  let '(c, r) := entry in
  match r with
  | Ok write =>
      {| run_store := cw_persist write (run_store st);
         run_succeeded := {[ comp_id c ]} ∪ run_succeeded st;
         run_events := run_events st ++
           [ComputationComplete (comp_id c) block (cw_failed_items write)] |}
  | Err _ => report_failed st c
  end.

(** The concurrent computations of a stage, in the order they are polled. *)
Fixpoint run_computations (runnable : list Computation) (store : DerivedData)
    : DerivedData * list (Computation * result ComputationError ComputedWrite) :=
  match runnable with
  | [] => (store, [])
  | c :: rest =>
      let '(store, r) := compute_erased c store changed block in
      let '(store, results) := run_computations rest store in
      (store, (c, r) :: results)
  end.

Definition set_store st (store : DerivedData) : Run := {|
  run_store := store; run_succeeded := run_succeeded st; run_events := run_events st |}.

Definition run_stage (computations : list Computation) st (stage : list nat) : Run :=
  let members := omap (fun idx => computations !! idx) stage in
  let runnable := List.filter (is_runnable st) members in
  let skipped := List.filter (fun c => negb (is_runnable st c)) members in
  let st := fold_left report_failed skipped st in
  let '(store, results) := run_computations runnable (run_store st) in
  fold_left report results (set_store st store).

Definition node_of (c : Computation) : Node := (comp_id c, comp_requirements c).

Definition clean_failures (store : DerivedData) : DerivedData :=
  if negb (bool_decide (removed changed = [])) || negb (bool_decide (added changed = ∅))
  then drop_failures_of_unlisted_directions (drop_failures_of_removed store (removed changed))
         (added changed)
  else store.

Definition run_schedule (computations : list Computation) (store : DerivedData)
    (sched : ComputationSchedule) : Run :=
  let start := {| run_store := clean_failures store; run_succeeded := ∅;
                  run_events := [NewBlock block] |} in
  let unordered := omap (fun idx => computations !! idx) (unscheduled sched) in
  fold_left (run_stage computations) (stages sched) (fold_left report_failed unordered start).
End run.

(** [last_updated] is the market's block; [None] from the schedule would be no fuel. *)
Definition compute_all (computations : list Computation) (last_updated : option N)
    (store : DerivedData) (changed : ChangedComponents)
    : option (DerivedData * list DerivedDataEvent) :=
  match last_updated with
  | None => Some (store, [])
  | Some block =>
      sched ← build_schedule (node_of <$> computations);
      let run := run_schedule changed block computations store sched in
      Some (run_store run, run_events run)
  end.

(** [handle_event] skips an update without changes; a lagged receiver's drained
    events are coalesced. *)
Definition handle_market_event (computations : list Computation) (last_updated : option N)
    (store : DerivedData) (ev : MarketEvent) : option (DerivedData * list DerivedDataEvent) :=
  if negb (bool_decide (added_components ev = ∅)) || negb (bool_decide (removed_components ev = []))
     || negb (bool_decide (updated_components ev = []))
  then compute_all computations last_updated store
         {| added := added_components ev; removed := removed_components ev;
            updated := updated_components ev |}
  else Some (store, []).

Definition recover_from_lag (computations : list Computation) (last_updated : option N)
    (store : DerivedData) (drained : list MarketEvent)
    : option (DerivedData * list DerivedDataEvent) :=
  match coalesce_market_events drained with
  | Some changed => compute_all computations last_updated store changed
  | None => Some (store, [])
  end.

(** ** Laws of coalescing *)

(** The components the market lists after an update: the added ones join, the removed
    ones leave. *)
Definition after_update (m added : gmap ComponentId ComponentTopology)
    (removed : list ComponentId) : gmap ComponentId ComponentTopology :=
  filter (fun kv => kv.1 ∉ removed) (added ∪ m).

Definition after_event (m : gmap ComponentId ComponentTopology) (ev : MarketEvent)
    : gmap ComponentId ComponentTopology :=
  after_update m (added_components ev) (removed_components ev).

(** An event concerns a component. *)
Definition mentions (ev : MarketEvent) (id : ComponentId) : Prop :=
  is_Some (added_components ev !! id) \/ id ∈ removed_components ev \/ id ∈ updated_components ev.

(** The net change of one component. *)
Inductive Net := Untouched | NetAdded (topology : ComponentTopology) | NetRemoved | NetUpdated.

Definition net_of_batch (b : Batch) (id : ComponentId) : Net :=
  match b_added b !! id with
  | Some topology => NetAdded topology
  | None => if decide (id ∈ b_removed b) then NetRemoved
            else if decide (id ∈ b_updated b) then NetUpdated else Untouched
  end.

Definition net_update (n : Net) : Net := match n with Untouched => NetUpdated | _ => n end.

Definition net_event (id : ComponentId) (n : Net) (ev : MarketEvent) : Net :=
  let n := match added_components ev !! id with Some topology => NetAdded topology | None => n end in
  let n := if decide (id ∈ removed_components ev) then NetRemoved else n in
  if decide (id ∈ updated_components ev) then net_update n else n.

(** What a net change does to the component's entry in the market. *)
Definition net_effect (n : Net) (entry : option ComponentTopology) : option ComponentTopology :=
  match n with Untouched | NetUpdated => entry | NetAdded topology => Some topology | NetRemoved => None end.

Record batch_ok (b : Batch) : Prop := {
  bo_added_removed : forall id, is_Some (b_added b !! id) -> id ∉ b_removed b;
  bo_added_updated : forall id, is_Some (b_added b !! id) -> id ∉ b_updated b;
  bo_removed_updated : forall id, id ∈ b_removed b -> id ∉ b_updated b;
}.

Lemma batch_event_ok b ev : batch_ok b -> batch_ok (batch_event b ev).
Proof.
  intros Hb. unfold batch_event. repeat apply fold_left_inv; [done| | |].
  - intros b' [i t] [Har Hau Hru]. split; cbn; intros id; rewrite ?lookup_insert;
      try case_decide; set_solver.
  - intros b' i [Har Hau Hru]. split; cbn; intros id; rewrite ?lookup_delete;
      try case_decide; try set_solver; by intros [].
  - intros b' i [Har Hau Hru]. unfold batch_update.
    destruct (b_added b' !! i) eqn:Ha; [by split|]. case_decide; [by split|].
    split; cbn; [done| |set_solver]. intros id Hid. apply not_elem_of_union.
    split; [|by apply Hau]. intros ->%elem_of_singleton. rewrite Ha in Hid. by destruct Hid.
Qed.

Lemma net_add_fold l b id :
  NoDup l.*1 -> net_of_batch (fold_left batch_add l b) id =
    match list_to_map (M := gmap _ _) l !! id with
    | Some topology => NetAdded topology
    | None => net_of_batch b id
    end.
Proof.
  revert b. induction l as [|[i t] l IH]; intros b Hnd; [done|]. cbn in *.
  apply NoDup_cons in Hnd as [Hi Hnd]. rewrite IH by done.
  destruct (decide (i = id)) as [->|Hne].
  - rewrite lookup_insert_eq, (not_elem_of_list_to_map_1 l id Hi). unfold net_of_batch. cbn.
    by rewrite lookup_insert_eq.
  - rewrite lookup_insert_ne by done. destruct (list_to_map l !! id); [done|].
    unfold net_of_batch. cbn. rewrite lookup_insert_ne by done.
    repeat case_decide; set_solver.
Qed.

Lemma net_remove_fold l b id :
  net_of_batch (fold_left batch_remove l b) id =
    if decide (id ∈ l) then NetRemoved else net_of_batch b id.
Proof.
  revert b. induction l as [|i l IH]; intros b; cbn.
  { rewrite decide_False; [done|]. apply not_elem_of_nil. }
  rewrite IH. destruct (decide (id ∈ l)).
  { rewrite decide_True; [done|]. by right. }
  destruct (decide (i = id)) as [->|Hne].
  - rewrite (decide_True (P := id ∈ id :: l)) by left. unfold net_of_batch. cbn.
    rewrite lookup_delete_eq, decide_True by set_solver. done.
  - rewrite (decide_False (P := id ∈ i :: l)) by (rewrite not_elem_of_cons; split; congruence).
    unfold net_of_batch. cbn. rewrite lookup_delete_ne by done.
    destruct (b_added b !! id); [done|]. repeat case_decide; set_solver.
Qed.

Lemma net_update_one b i id :
  net_of_batch (batch_update b i) id =
    if decide (i = id) then net_update (net_of_batch b id) else net_of_batch b id.
Proof.
  unfold batch_update. destruct (decide (i = id)) as [->|Hne].
  - unfold net_of_batch. destruct (b_added b !! id) eqn:Ha; [by rewrite Ha|].
    destruct (decide (id ∈ b_removed b)) as [Hr|Hr]; [by rewrite Ha, decide_True|].
    cbn. rewrite Ha, decide_False, decide_True by set_solver. by case_decide.
  - destruct (b_added b !! i); [done|]. destruct (decide (i ∈ b_removed b)); [done|].
    unfold net_of_batch. cbn. destruct (b_added b !! id); [done|].
    repeat case_decide; set_solver.
Qed.

Lemma net_update_fold l b id :
  net_of_batch (fold_left batch_update l b) id =
    if decide (id ∈ l) then net_update (net_of_batch b id) else net_of_batch b id.
Proof.
  revert b. induction l as [|i l IH]; intros b; cbn.
  { rewrite decide_False; [done|]. apply not_elem_of_nil. }
  rewrite IH, net_update_one. destruct (decide (i = id)) as [->|Hne].
  - rewrite (decide_True (P := id ∈ id :: l)) by left. case_decide; [|done].
    by destruct (net_of_batch b id).
  - apply decide_ext. rewrite elem_of_cons. split; [by right|]. by intros [->|?].
Qed.

Lemma net_batch_event b ev id :
  net_of_batch (batch_event b ev) id = net_event id (net_of_batch b id) ev.
Proof.
  unfold batch_event, net_event.
  rewrite net_update_fold, net_remove_fold, net_add_fold by apply NoDup_fst_map_to_list.
  by rewrite list_to_map_to_list.
Qed.

Lemma net_batch_events b events id :
  net_of_batch (fold_left batch_event events b) id =
  fold_left (net_event id) events (net_of_batch b id).
Proof.
  revert b. induction events as [|ev events IH]; intros b; cbn; [done|].
  by rewrite IH, net_batch_event.
Qed.

Lemma after_update_lookup m added removed id :
  after_update m added removed !! id =
    if decide (id ∈ removed) then None else (added ∪ m) !! id.
Proof.
  unfold after_update. rewrite map_lookup_filter. case_decide.
  - destruct ((added ∪ m) !! id); cbn; [|done]. by case_guard.
  - destruct ((added ∪ m) !! id); cbn; [|done]. by case_guard.
Qed.

Lemma net_event_effect id n ev (m m0 : gmap ComponentId ComponentTopology) :
  m !! id = net_effect n (m0 !! id) ->
  after_event m ev !! id = net_effect (net_event id n ev) (m0 !! id).
Proof.
  intros Hm. unfold after_event, net_event. rewrite after_update_lookup, lookup_union, Hm.
  destruct (added_components ev !! id); do 2 case_decide; cbn; try done;
    try by destruct n, (m0 !! id).
Qed.

Lemma net_events_effect id events m :
  fold_left after_event events m !! id =
  net_effect (fold_left (net_event id) events Untouched) (m !! id).
Proof.
  induction events as [|ev events IH] using rev_ind; [done|].
  rewrite !fold_left_app. cbn. by apply net_event_effect.
Qed.

(** A component is untouched exactly when no event mentions it, and updated only when
    no event adds or removes it. *)
Lemma net_event_Untouched id n ev :
  net_event id n ev = Untouched <-> n = Untouched /\ ~ mentions ev id.
Proof.
  unfold net_event, mentions.
  destruct (added_components ev !! id) as [t|] eqn:Ha;
    destruct (decide (id ∈ removed_components ev)) as [Hr|Hr];
    destruct (decide (id ∈ updated_components ev)) as [Hu|Hu]; cbn;
    (split; [try done; destruct n; try done|intros [-> Hm]; try done; exfalso; apply Hm; auto]).
  intros _. split; [done|]. by intros [[? [=]]|[?|?]].
Qed.

Lemma net_events_Untouched id events :
  fold_left (net_event id) events Untouched = Untouched <->
  forall ev, ev ∈ events -> ~ mentions ev id.
Proof.
  induction events as [|ev events IH] using rev_ind.
  { split; [by intros _ ev ?%not_elem_of_nil|done]. }
  rewrite fold_left_app. cbn. rewrite net_event_Untouched, IH.
  setoid_rewrite elem_of_app. setoid_rewrite list_elem_of_singleton. split.
  - intros [Hall Hev] ev' [?| ->]; auto.
  - intros Hall. split; [intros ev' ?|]; apply Hall; auto.
Qed.

Lemma net_events_Updated id events :
  fold_left (net_event id) events Untouched = NetUpdated ->
  forall ev, ev ∈ events -> added_components ev !! id = None /\ id ∉ removed_components ev.
Proof.
  induction events as [|ev events IH] using rev_ind.
  { by intros _ ev ?%not_elem_of_nil. }
  rewrite fold_left_app. cbn. set (n := fold_left (net_event id) events Untouched).
  intros Hn. assert (added_components ev !! id = None /\ (id ∉ removed_components ev) /\
    (n = NetUpdated \/ n = Untouched)) as (Ha & Hr & Hcase).
  { unfold net_event in Hn. destruct (added_components ev !! id), n;
      repeat case_decide; cbn in Hn; try done; auto. }
  assert (forall ev', ev' ∈ events -> added_components ev' !! id = None /\
    id ∉ removed_components ev') as Hall.
  { destruct Hcase as [Heq|Heq]; [by apply IH|]. intros ev' Hev'.
    pose proof (proj1 (net_events_Untouched id events) Heq ev' Hev') as Hm.
    unfold mentions in Hm. split; [|tauto]. destruct (added_components ev' !! id); [|done].
    exfalso. apply Hm. by left; eexists. }
  intros ev' [?| ->%list_elem_of_singleton]%elem_of_app; auto.
Qed.

Definition collected (b : Batch) (id : ComponentId) : Prop :=
  is_Some (b_added b !! id) \/ id ∈ b_removed b \/ id ∈ b_updated b.

Lemma not_collected_empty b :
  bool_decide (b_added b = ∅) && bool_decide (b_removed b = ∅) && bool_decide (b_updated b = ∅)
    = false -> exists id, collected b id.
Proof.
  unfold collected. intros [[Hne|Hne]%andb_false_iff|Hne]%andb_false_iff;
    apply bool_decide_eq_false in Hne.
  - apply map_choose in Hne as (id & t & Hid). exists id. left. by eexists.
  - apply set_choose_L in Hne as [id Hid]. exists id. auto.
  - apply set_choose_L in Hne as [id Hid]. exists id. auto.
Qed.

Lemma net_Untouched b id : net_of_batch b id = Untouched <-> ~ collected b id.
Proof.
  unfold net_of_batch, collected. destruct (b_added b !! id) as [t|].
  - split; [done|]. intros Hn. exfalso. apply Hn. by left; eexists.
  - rewrite is_Some_alt. repeat case_decide; split; try done; tauto.
Qed.

Lemma net_effect_of_batch b id (m : gmap ComponentId ComponentTopology) :
  batch_ok b ->
  after_update m (b_added b) (elements (b_removed b)) !! id = net_effect (net_of_batch b id) (m !! id).
Proof.
  intros [Har _ _]. rewrite after_update_lookup, lookup_union. unfold net_of_batch.
  assert (id ∈ elements (b_removed b) <-> id ∈ b_removed b) as He by apply elem_of_elements.
  destruct (b_added b !! id) as [t|] eqn:Ha.
  - rewrite decide_False; [by destruct (m !! id)|]. rewrite He. apply Har. by eexists.
  - destruct (decide (id ∈ b_removed b)) as [Hr|Hr].
    + by rewrite decide_True by (by apply He).
    + rewrite decide_False by (by rewrite He). case_decide; by destruct (m !! id).
Qed.

(** ** Laws of a run *)

(** A computation's [persist] writes its own slot, the output with the block, and no
    other slot; while it computes it writes none. *)
Class PersistsOwnSlot (c : Computation) : Prop := {
  compute_slots store changed : slots (comp_compute c store changed).1 = slots store;
  persist_own store output block : exists now,
    slots (comp_persist c store output block) !! comp_id c =
      Some {| slot_data := co_data output;
              slot_status := {| cs_block := block; cs_updated_at := now |} |};
  persist_other store output block id : id <> comp_id c ->
    slots (comp_persist c store output block) !! id = slots store !! id;
}.

Lemma persist_block c `{!PersistsOwnSlot c} store output block :
  output_block (comp_persist c store output block) (comp_id c) = Some block.
Proof.
  destruct (persist_own store output block) as [now Hnow].
  unfold output_block, output_status. by rewrite Hnow.
Qed.

#[export] Instance default_persists_own_slot id reqs compute now :
  PersistsOwnSlot {| comp_id := id; comp_requirements := reqs;
                     comp_compute := fun store changed => (store, compute store changed);
                     comp_persist := default_persist id now |}.
Proof.
  split; [done|..]; intros store output block; cbn.
  - exists now. by rewrite lookup_insert_eq.
  - intros id' Hne. by rewrite lookup_insert_ne.
Qed.

Lemma output_block_slots store store' id :
  slots store !! id = slots store' !! id -> output_block store id = output_block store' id.
Proof. unfold output_block, output_status. by intros ->. Qed.

(** The computation an event reports on. *)
Definition event_id (ev : DerivedDataEvent) : option ComputationId :=
  match ev with
  | NewBlock _ => None
  | ComputationComplete id _ _ | ComputationFailed id _ => Some id
  end.

Definition event_block (ev : DerivedDataEvent) : N :=
  match ev with
  | NewBlock block | ComputationComplete _ block _ | ComputationFailed _ block => block
  end.

Section run_laws.
Context (changed : ChangedComponents) (block : N) (computations : list Computation).
Implicit Types (st : Run) (c : Computation).

Abbreviation members stage := (omap (fun idx => computations !! idx) stage).

(** What the events of a run say, apart from the first. *)
Definition run_reports st (ids : list ComputationId) : Prop :=
  exists rest, run_events st = NewBlock block :: rest /\ omap event_id rest ≡ₚ ids /\
    Forall (fun ev => event_block ev = block /\ is_Some (event_id ev)) rest.

Lemma run_reports_snoc st st' ids ev id :
  run_events st' = run_events st ++ [ev] -> event_id ev = Some id -> event_block ev = block ->
  run_reports st ids -> run_reports st' (ids ++ [id]).
Proof.
  intros Hev Hid Hblock (rest & Hst & Hp & Hall). exists (rest ++ [ev]).
  rewrite Hev, Hst. split_and!; [done| |].
  - rewrite omap_app. cbn. by rewrite Hid, Hp.
  - apply Forall_app. split; [done|]. apply Forall_singleton. split; [done|by eexists].
Qed.

Lemma report_failed_reports st cs ids :
  run_reports st ids -> run_reports (fold_left (report_failed block) cs st) (ids ++ (comp_id <$> cs)).
Proof.
  revert st ids. induction cs as [|c cs IH]; intros st ids Hst; cbn; [by rewrite app_nil_r|].
  replace (ids ++ comp_id c :: (comp_id <$> cs)) with ((ids ++ [comp_id c]) ++ (comp_id <$> cs))
    by (by rewrite <- app_assoc).
  apply IH. by eapply run_reports_snoc.
Qed.

Lemma report_results_reports st results ids :
  run_reports st ids ->
  run_reports (fold_left (report block) results st) (ids ++ ((fun e => comp_id e.1) <$> results)).
Proof.
  revert st ids. induction results as [|[c r] results IH]; intros st ids Hst; cbn.
  { by rewrite app_nil_r. }
  replace (ids ++ comp_id c :: ((fun e => comp_id e.1) <$> results))
    with ((ids ++ [comp_id c]) ++ ((fun e => comp_id e.1) <$> results)) by (by rewrite <- app_assoc).
  apply IH. destruct r as [w|e]; by eapply run_reports_snoc.
Qed.

Lemma run_reports_perm st ids ids' : ids ≡ₚ ids' -> run_reports st ids -> run_reports st ids'.
Proof. intros Hp (rest & ? & Hr & ?). exists rest. by rewrite <- Hp. Qed.

Lemma run_computations_names cs store store' results :
  run_computations changed block cs store = (store', results) -> results.*1 = cs.
Proof.
  revert store results. induction cs as [|c cs IH]; intros store results; cbn; [by intros [= <- <-]|].
  destruct (compute_erased c store changed block) as [s1 r].
  destruct (run_computations changed block cs s1) as [s2 rs] eqn:Hrs. intros [= <- <-].
  cbn. f_equal. by eapply IH.
Qed.

Lemma set_store_reports st store ids : run_reports st ids -> run_reports (set_store st store) ids.
Proof. done. Qed.

Lemma run_stage_reports st stage ids :
  run_reports st ids ->
  run_reports (run_stage changed block computations st stage) (ids ++ (comp_id <$> members stage)).
Proof.
  intros Hst. unfold run_stage.
  destruct (run_computations _ _ _ _) as [store results] eqn:Hrun.
  apply run_computations_names in Hrun.
  eapply run_reports_perm; [|apply report_results_reports, set_store_reports,
    report_failed_reports, Hst].
  rewrite <- app_assoc. apply Permutation_app_head.
  change ((fun e => comp_id e.1) <$> results) with (comp_id ∘ fst <$> results).
  rewrite list_fmap_compose, Hrun, <- fmap_app. apply fmap_Permutation, filterb_perm.
Qed.

Lemma run_stages_reports st stages ids :
  run_reports st ids ->
  run_reports (fold_left (run_stage changed block computations) stages st)
    (ids ++ (comp_id <$> members (stages ≫= id))).
Proof.
  revert st ids. induction stages as [|stage stages IH]; intros st ids Hst; cbn.
  { by rewrite app_nil_r. }
  rewrite omap_app, fmap_app, app_assoc. by apply IH, run_stage_reports.
Qed.

Lemma run_schedule_reports store sched :
  run_order sched ≡ₚ seq 0 (length computations) ->
  run_reports (run_schedule changed block computations store sched) (comp_id <$> computations).
Proof.
  intros Hp. unfold run_schedule. eapply run_reports_perm; [|apply run_stages_reports,
    report_failed_reports; exists []; split_and!; [done|done|by constructor]].
  rewrite app_nil_l, <- fmap_app, <- omap_app. apply fmap_Permutation.
  change (unscheduled sched ++ (stages sched ≫= id)) with (run_order sched).
  rewrite Hp. by rewrite omap_lookup_seq.
Qed.

(** *** Why an event is sent *)

Context (sched : ComputationSchedule) (store0 : DerivedData).

Definition completed_in (events : list DerivedDataEvent) (id : ComputationId) : Prop :=
  exists items, ComputationComplete id block items ∈ events.

(** A completion: the computation returned the reported items for a store that holds the
    output of this block of every fresh requirement, completed before, and some output
    of every stale one. *)
Definition completion_justified (before : list DerivedDataEvent) (id : ComputationId)
    (items : list FailedItem) : Prop :=
  exists c store output, c ∈ computations /\ comp_id c = id /\
    (comp_compute c store changed).2 = Ok output /\ items = co_failed_items output /\
    (forall dep, dep ∈ req_fresh (comp_requirements c) ->
       completed_in before dep /\ output_block store dep = Some block) /\
    (forall dep, dep ∈ req_stale (comp_requirements c) -> is_Some (output_block store dep)).

(** A failure: a requirement cycle, a fresh requirement that did not complete, a stale
    one without any output, or an error of the computation. *)
Definition failure_justified (before : list DerivedDataEvent) (id : ComputationId) : Prop :=
  exists idx c, computations !! idx = Some c /\ comp_id c = id /\
    (idx ∈ unscheduled sched \/
     (exists dep, dep ∈ req_fresh (comp_requirements c) /\ ~ completed_in before dep) \/
     (exists dep, dep ∈ req_stale (comp_requirements c) /\ ~ completed_in before dep /\
        output_block store0 dep = None) \/
     (exists store e, (comp_compute c store changed).2 = Err e)).

Definition event_justified (before : list DerivedDataEvent) (ev : DerivedDataEvent) : Prop :=
  match ev with
  | NewBlock b => before = [] /\ b = block
  | ComputationComplete id b items => b = block /\ completion_justified before id items
  | ComputationFailed id b => b = block /\ failure_justified before id
  end.

Definition history_justified (events : list DerivedDataEvent) : Prop :=
  forall before ev after, events = before ++ ev :: after -> event_justified before ev.

Lemma history_snoc events ev :
  history_justified events -> event_justified events ev -> history_justified (events ++ [ev]).
Proof.
  intros Hev Hlast before ev' after Heq.
  destruct after as [|ev'' after _] using rev_ind.
  - by apply app_inj_tail in Heq as [-> ->].
  - rewrite app_comm_cons, app_assoc in Heq. apply app_inj_tail in Heq as [-> ->]. by eapply Hev.
Qed.

(** The succeeded set and the store agree with the events. *)
Record run_ok st : Prop := {
  ro_history : history_justified (run_events st);
  ro_succeeded : forall id, id ∈ run_succeeded st <-> completed_in (run_events st) id;
  ro_fresh : forall id, id ∈ run_succeeded st -> output_block (run_store st) id = Some block;
  ro_kept : forall id, id ∉ run_succeeded st -> slots (run_store st) !! id = slots store0 !! id;
}.

Lemma completed_in_snoc events ev id :
  completed_in (events ++ [ev]) id <->
  completed_in events id \/ exists items, ev = ComputationComplete id block items.
Proof.
  unfold completed_in. setoid_rewrite elem_of_app. setoid_rewrite list_elem_of_singleton. split.
  - intros (items & [?|<-]); eauto.
  - intros [[items ?]|(items & ->)]; eauto.
Qed.

Lemma report_failed_ok st c idx :
  run_ok st -> computations !! idx = Some c -> failure_justified (run_events st) (comp_id c) ->
  run_ok (report_failed block st c).
Proof.
  intros [Hh Hs Hf Hk] Hc Hj. split; cbn; [|..|done|done].
  - by apply history_snoc.
  - intros id. rewrite Hs, completed_in_snoc. split; [by left|]. by intros [?|(items & [=])].
Qed.

(** What a stage that starts with the slots of [st0] computes. *)
Definition computed_on st0 (e : Computation * result ComputationError ComputedWrite) : Prop :=
  exists store, slots store = slots (run_store st0) /\
    e.2 = (compute_erased e.1 store changed block).2.

Lemma run_computations_ok st0 cs store store' results :
  (forall c, c ∈ cs -> PersistsOwnSlot c) -> slots store = slots (run_store st0) ->
  run_computations changed block cs store = (store', results) ->
  slots store' = slots (run_store st0) /\ forall e, e ∈ results -> computed_on st0 e.
Proof.
  revert store results. induction cs as [|c cs IH]; intros store results Hcs Hslots; cbn.
  { intros [= <- <-]. split; [done|]. by intros e ?%not_elem_of_nil. }
  assert (slots (compute_erased c store changed block).1 = slots (run_store st0)) as Hnext.
  { unfold compute_erased. destruct (Hcs c) as [Hc _ _]; [left|].
    specialize (Hc store changed). destruct (comp_compute c store changed). cbn in *. congruence. }
  destruct (compute_erased c store changed block) as [s1 r] eqn:Hr.
  destruct (run_computations changed block cs s1) as [s2 rs] eqn:Hrs. intros [= <- <-].
  destruct (IH s1 rs) as [Hs Hall]; [intros; apply Hcs; by right|done|done|]. split; [done|].
  intros e [->|He]%elem_of_cons; [|by apply Hall]. exists store. cbn. by rewrite Hr.
Qed.

Lemma set_store_ok st store : slots store = slots (run_store st) -> run_ok st -> run_ok (set_store st store).
Proof.
  intros Heq [Hh Hs Hf Hk]. split; cbn; [done|done| |by rewrite Heq].
  intros id Hid. rewrite <- (Hf id Hid). apply output_block_slots. by rewrite Heq.
Qed.

Lemma report_ok st0 st c r :
  (forall c, c ∈ computations -> PersistsOwnSlot c) ->
  run_ok st0 -> run_ok st -> run_succeeded st0 ⊆ run_succeeded st -> c ∈ computations ->
  is_runnable st0 c = true -> computed_on st0 (c, r) ->
  run_ok (report block st (c, r)) /\ run_succeeded st ⊆ run_succeeded (report block st (c, r)).
Proof.
  intros Hpersist H0 Hst Hsub Hc Hrun (store & Hslots & Hr). cbn [fst snd] in Hr. subst r. unfold report, compute_erased. cbn [fst].
  apply andb_prop in Hrun as [Hfresh%bool_decide_eq_true Hstale].
  rewrite forallb_elements in Hstale.
  destruct (comp_compute c store changed) as [store1 computed] eqn:Hcomp. cbn [snd].
  assert ((comp_compute c store changed).2 = computed) as Hres by (by rewrite Hcomp).
  destruct computed as [output|e]; cbn.
  2:{ split; [|done]. pose proof Hc as [idx Hidx]%list_elem_of_lookup.
      apply (report_failed_ok st c idx Hst Hidx). exists idx, c. split_and!; [done|done|].
      do 3 right. by exists store, e. }
  split; [|set_solver]. destruct Hst as [Hh Hs Hf Hk], H0 as [Hh0 Hs0 Hf0 Hk0].
  assert (forall id, output_block store id = output_block (run_store st0) id) as Hblocks.
  { intros id. apply output_block_slots. by rewrite Hslots. }
  split; cbn.
  - apply history_snoc; [done|]. split; [done|]. exists c, store, output.
    split_and!; [done..| |].
    + intros dep Hdep%Hfresh. rewrite Hblocks. split; [by apply Hs, Hsub|by apply Hf0].
    + intros dep Hdep%Hstale. rewrite Hblocks. apply orb_prop in Hdep as [Hd%bool_decide_eq_true|Hd].
      * rewrite Hf0 by done. by eexists.
      * by destruct (output_block (run_store st0) dep).
  - intros id. rewrite elem_of_union, elem_of_singleton, Hs, completed_in_snoc. split.
    + intros [-> |?]; [right; by eexists|by left].
    + intros [?|(items & [= <- _])]; auto.
  - intros id Hid. destruct (decide (id = comp_id c)) as [->|Hne].
    + by apply persist_block, Hpersist.
    + rewrite <- (Hf id) by set_solver. apply output_block_slots.
      apply Hpersist in Hc as [_ _ Ho]. auto.
  - intros id Hid. rewrite <- (Hk id) by set_solver. apply Hpersist in Hc as [_ _ Ho].
    apply Ho. set_solver.
Qed.

Lemma not_runnable_why st c :
  is_runnable st c = false ->
  (exists dep, dep ∈ req_fresh (comp_requirements c) /\ (dep ∉ run_succeeded st)) \/
  (exists dep, dep ∈ req_stale (comp_requirements c) /\ (dep ∉ run_succeeded st) /\
     output_block (run_store st) dep = None).
Proof.
  intros [Hfresh%bool_decide_eq_false|Hstale]%andb_false_iff; [left|right].
  - assert (req_fresh (comp_requirements c) ∖ run_succeeded st <> ∅) as Hne.
    { intros Heq%empty_difference_subseteq_L. by apply Hfresh. }
    apply set_choose_L in Hne as [dep Hdep]. exists dep. set_solver.
  - apply not_true_iff_false in Hstale. rewrite forallb_forall in Hstale.
    destruct (decide (Exists (fun dep => (dep ∉ run_succeeded st) /\
      output_block (run_store st) dep = None) (elements (req_stale (comp_requirements c)))))
      as [(dep & Hdep%elem_of_elements & Hno)%Exists_exists|Hall]; [by exists dep|].
    exfalso. apply Hstale. intros dep Hdep%list_elem_of_In. apply orb_true_iff.
    destruct (decide (dep ∈ run_succeeded st)) as [Hin|Hin]; [left; by apply bool_decide_eq_true|right].
    destruct (output_block (run_store st) dep) eqn:Ho; [done|]. exfalso. apply Hall, Exists_exists.
    by exists dep.
Qed.

Lemma skip_fold_ok st0 cs st :
  run_ok st0 -> run_ok st -> run_succeeded st = run_succeeded st0 ->
  (forall c, c ∈ cs -> c ∈ computations /\ is_runnable st0 c = false) ->
  let st' := fold_left (report_failed block) cs st in
  run_ok st' /\ run_succeeded st' = run_succeeded st0.
Proof.
  intros H0. revert st. induction cs as [|c cs IH]; intros st Hst Hsame Hcs; cbn; [done|].
  apply IH; [|done|intros; apply Hcs; by right].
  destruct (Hcs c) as [Hc Hrun]; [left|]. pose proof Hc as [idx Hidx]%list_elem_of_lookup.
  apply (report_failed_ok st c idx Hst Hidx). exists idx, c. split_and!; [done|done|right].
  pose proof (ro_succeeded _ Hst) as Hs. pose proof (ro_kept _ H0) as Hk0. rewrite Hsame in Hs.
  destruct (not_runnable_why _ _ Hrun) as [(dep & Hdep & Hno)|(dep & Hdep & Hno & Hnone)].
  - left. exists dep. by rewrite <- Hs.
  - right; left. exists dep. split_and!; [done|by rewrite <- Hs|]. rewrite <- Hnone.
    by apply output_block_slots, eq_sym, Hk0.
Qed.

Lemma report_fold_ok st0 results st :
  (forall c, c ∈ computations -> PersistsOwnSlot c) ->
  run_ok st0 -> run_ok st -> run_succeeded st0 ⊆ run_succeeded st ->
  (forall e, e ∈ results -> e.1 ∈ computations /\ is_runnable st0 e.1 = true /\ computed_on st0 e) ->
  run_ok (fold_left (report block) results st).
Proof.
  intros Hpersist H0. revert st. induction results as [|[c r] results IH]; intros st Hst Hsub Hcs; [done|].
  destruct (Hcs (c, r)) as (Hc & Hrun & Hon); [left|].
  destruct (report_ok st0 st c r Hpersist H0 Hst Hsub Hc Hrun Hon) as [Hok Hgrow].
  apply IH; [done|set_solver|intros; apply Hcs; by right].
Qed.

Lemma report_failed_keeps cs st :
  run_succeeded (fold_left (report_failed block) cs st) = run_succeeded st /\
  run_store (fold_left (report_failed block) cs st) = run_store st.
Proof. by apply fold_left_inv. Qed.

(** The parts of a stage: the skipped computations, the results and what they are. *)
Lemma run_stage_parts st stage :
  (forall c, c ∈ computations -> PersistsOwnSlot c) -> run_ok st ->
  exists st' results,
    run_stage changed block computations st stage = fold_left (report block) results st' /\
    run_ok st' /\ run_succeeded st' = run_succeeded st /\
    slots (run_store st') = slots (run_store st) /\
    forall e, e ∈ results -> e.1 ∈ members stage /\ e.1 ∈ computations /\
      is_runnable st e.1 = true /\ computed_on st e.
Proof.
  intros Hpersist Hst. unfold run_stage.
  assert (forall c, c ∈ members stage -> c ∈ computations) as Hin.
  { intros c (idx & _ & Hidx)%list_elem_of_omap. by eapply list_elem_of_lookup_2. }
  set (skipped := fold_left (report_failed block) _ st).
  assert (run_ok skipped /\ run_succeeded skipped = run_succeeded st) as [Hok Hsame].
  { apply skip_fold_ok; [done|done|done|]. intros c [Hc Hn%negb_true_iff]%elem_of_filterb.
    split; [by apply Hin|done]. }
  assert (run_store skipped = run_store st) as Hstore by apply report_failed_keeps.
  destruct (run_computations _ _ _ _) as [store results] eqn:Hrun.
  pose proof (run_computations_names _ _ _ _ Hrun) as Hnames.
  apply (run_computations_ok st) in Hrun as [Hslots Hall];
    [|intros c [Hc _]%elem_of_filterb; by apply Hpersist, Hin|by rewrite Hstore].
  exists (set_store skipped store), results. split_and!; [done| |done|done|].
  - apply set_store_ok; [by rewrite Hslots, Hstore|done].
  - intros e He. assert (e.1 ∈ results.*1) as Hc by by apply list_elem_of_fmap_2.
    rewrite Hnames in Hc. apply elem_of_filterb in Hc as [Hc Hr].
    split_and!; [done|by apply Hin|done|by apply Hall].
Qed.

Lemma run_stage_ok st stage :
  (forall c, c ∈ computations -> PersistsOwnSlot c) ->
  run_ok st -> run_ok (run_stage changed block computations st stage).
Proof.
  intros Hpersist Hst.
  destruct (run_stage_parts st stage Hpersist Hst) as (st' & results & -> & Hok & Hsame & _ & Hall).
  apply (report_fold_ok st); [done|done|done|by rewrite Hsame|]. intros e He. by apply Hall in He as (_ & He).
Qed.

Lemma clean_failures_slots store : slots (clean_failures changed store) = slots store.
Proof. unfold clean_failures. by case_match; [destruct (removed changed)|]. Qed.

Lemma cycle_fold_ok idxs st :
  run_ok st -> (forall idx, idx ∈ idxs -> idx ∈ unscheduled sched) ->
  run_ok (fold_left (report_failed block) (members idxs) st).
Proof.
  revert st. induction idxs as [|idx idxs IH]; intros st Hst Hin; cbn; [done|].
  destruct (computations !! idx) as [c|] eqn:Hidx; cbn; [|apply IH; [done|intros; apply Hin; by right]].
  apply IH; [|intros; apply Hin; by right]. apply (report_failed_ok st c idx Hst Hidx).
  exists idx, c. split_and!; [done|done|]. left. apply Hin. left.
Qed.

Lemma run_start_ok :
  run_ok {| run_store := clean_failures changed store0; run_succeeded := ∅;
            run_events := [NewBlock block] |}.
Proof.
  split; cbn.
  - intros before ev after Heq. destruct before as [|? before]; [|by destruct before].
    injection Heq as <- _. done.
  - intros id. rewrite elem_of_empty. split; [done|].
    by intros (items & [=]%list_elem_of_singleton).
  - set_solver.
  - intros id _. by rewrite clean_failures_slots.
Qed.

Lemma run_schedule_ok :
  (forall c, c ∈ computations -> PersistsOwnSlot c) ->
  run_ok (run_schedule changed block computations store0 sched).
Proof.
  intros Hpersist. unfold run_schedule.
  apply fold_left_inv; [|intros; by apply run_stage_ok]. apply cycle_fold_ok; [apply run_start_ok|done].
Qed.

(** *** What a completed computation leaves in the store *)

(** What a completed computation computed: its result for a store that has its own slot
    as the run found it, and in the slot of every fresh requirement what that one
    produced in the run. *)
Inductive produced : ComputationId -> Output -> Prop :=
| produced_intro c store output :
    c ∈ computations -> (comp_compute c store changed).2 = Ok output ->
    slots store !! comp_id c = slots store0 !! comp_id c ->
    (forall dep, dep ∈ req_fresh (comp_requirements c) -> exists o,
       produced dep o /\ slot_data <$> slots store !! dep = Some o) ->
    produced (comp_id c) (co_data output).

Lemma produced_inv id o :
  produced id o -> exists c store output,
    c ∈ computations /\ comp_id c = id /\ (comp_compute c store changed).2 = Ok output /\
    o = co_data output /\ slots store !! id = slots store0 !! id /\
    (forall dep, dep ∈ req_fresh (comp_requirements c) -> exists o,
       produced dep o /\ slot_data <$> slots store !! dep = Some o).
Proof. intros [c store output ????]. by exists c, store, output. Qed.

Definition data_ok st : Prop :=
  forall id, id ∈ run_succeeded st -> exists o,
    produced id o /\ slot_data <$> slots (run_store st) !! id = Some o.

Lemma succeeded_reported st ids id :
  run_ok st -> run_reports st ids -> id ∈ run_succeeded st -> id ∈ ids.
Proof.
  intros Hok (rest & Hrest & Hids & _) Hin. apply (ro_succeeded _ Hok) in Hin as [items Hin].
  rewrite Hrest in Hin. apply elem_of_cons in Hin as [[=]|Hin]. rewrite <- Hids.
  apply list_elem_of_omap. by eexists.
Qed.

Lemma report_data st0 st c r :
  (forall c, c ∈ computations -> PersistsOwnSlot c) -> c ∈ computations ->
  run_ok st0 -> data_ok st0 -> comp_id c ∉ run_succeeded st0 -> is_runnable st0 c = true ->
  computed_on st0 (c, r) -> data_ok st -> data_ok (report block st (c, r)).
Proof.
  intros Hpersist Hc H0 Hd0 Hnew Hrun (store & Hslots & Hr) Hst. cbn [fst snd] in Hr. subst r.
  unfold report, compute_erased. cbn [fst].
  destruct (comp_compute c store changed) as [store1 computed] eqn:Hcomp. cbn [snd].
  destruct computed as [output|e]; [|done].
  intros id. cbn. destruct (decide (id = comp_id c)) as [->|Hne].
  - intros _. exists (co_data output). split.
    + apply (produced_intro c store output); [done|by rewrite Hcomp| |].
      * rewrite Hslots. by apply (ro_kept _ H0).
      * intros dep Hdep. rewrite Hslots. apply Hd0.
        apply andb_prop in Hrun as [Hfresh%bool_decide_eq_true _]. by apply Hfresh.
    + destruct (Hpersist c Hc) as [_ Hown _].
      destruct (Hown (run_store st) output block) as [now ->]. done.
  - intros [Hid%elem_of_singleton|Hid]%elem_of_union; [done|].
    destruct (Hpersist c Hc) as [_ _ Hother]. rewrite Hother by done. by apply Hst.
Qed.

Lemma report_fold_data st0 results st :
  (forall c, c ∈ computations -> PersistsOwnSlot c) -> run_ok st0 -> data_ok st0 -> data_ok st ->
  (forall e, e ∈ results -> e.1 ∈ computations /\ (comp_id e.1 ∉ run_succeeded st0) /\
     is_runnable st0 e.1 = true /\ computed_on st0 e) ->
  data_ok (fold_left (report block) results st).
Proof.
  intros Hpersist H0 Hd0. revert st. induction results as [|[c r] results IH]; intros st Hst Hcs; [done|].
  destruct (Hcs (c, r)) as (Hc & Hnew & Hrun & Hon); [left|].
  apply IH; [by eapply report_data|intros; apply Hcs; by right].
Qed.

Lemma run_stages_data st stages ids :
  (forall c, c ∈ computations -> PersistsOwnSlot c) ->
  run_ok st -> data_ok st -> run_reports st ids ->
  NoDup (ids ++ (comp_id <$> members (stages ≫= id))) ->
  data_ok (fold_left (run_stage changed block computations) stages st).
Proof.
  intros Hpersist. revert st ids. induction stages as [|stage stages IH];
    intros st ids Hst Hdata Hids Hnd; [done|]. cbn in Hnd |- *.
  rewrite omap_app, fmap_app, app_assoc in Hnd.
  apply (IH _ (ids ++ (comp_id <$> members stage))); [by apply run_stage_ok| |by apply run_stage_reports|done].
  destruct (run_stage_parts st stage Hpersist Hst)
    as (st' & results & -> & Hok & Hsame & Hslots & Hall).
  apply (report_fold_data st); [done|done|done| |].
  - intros id. rewrite Hsame, Hslots. apply Hdata.
  - intros e (Hm & Hc & Hr & Hon)%Hall. split_and!; [done| |done|done].
    intros Hin. apply NoDup_app in Hnd as [Hnd _]. apply NoDup_app in Hnd as (_ & Hdisj & _).
    apply (Hdisj (comp_id e.1)); [by apply (succeeded_reported st)|by apply (list_elem_of_fmap_2 comp_id)].
Qed.

Lemma run_schedule_data :
  (forall c, c ∈ computations -> PersistsOwnSlot c) -> NoDup (comp_id <$> computations) ->
  run_order sched ≡ₚ seq 0 (length computations) ->
  data_ok (run_schedule changed block computations store0 sched).
Proof.
  intros Hpersist Hnd Hp. unfold run_schedule.
  set (start := {| run_store := clean_failures changed store0; run_succeeded := ∅;
                   run_events := [NewBlock block] |}).
  assert (run_reports start []) as Hstart.
  { exists []. split_and!; [done|done|by constructor]. }
  eapply run_stages_data; [done|apply cycle_fold_ok; [apply run_start_ok|done]| | |].
  - intros id. destruct (report_failed_keeps (members (unscheduled sched)) start) as [-> _].
    cbn. set_solver.
  - by apply report_failed_reports.
  - rewrite app_nil_l, <- fmap_app, <- omap_app.
    change (unscheduled sched ++ (stages sched ≫= id)) with (run_order sched).
    by rewrite Hp, omap_lookup_seq.
Qed.
End run_laws.

(** ** Properties of coalescing *)

Definition changes (ch : ChangedComponents) (id : ComponentId) : Prop :=
  is_Some (added ch !! id) \/ id ∈ removed ch \/ id ∈ updated ch.

(** Coalescing a drained batch of market events keeps its net effect. Adding and
    removing what the coalesced change says brings any market to the state that the
    events bring it to one after the other; every component some event mentions is
    in exactly one of the three collections, an updated one was neither added nor
    removed in the batch, and there is no change exactly when no event mentions any
    component. *)
Theorem coalesce_net_effect (events : list MarketEvent) :
  match coalesce_market_events events with
  | None => forall ev id, ev ∈ events -> ~ mentions ev id
  | Some ch =>
      (forall m, after_update m (added ch) (removed ch) = fold_left after_event events m) /\
      (forall id, changes ch id <-> exists ev, ev ∈ events /\ mentions ev id) /\
      (exists id, changes ch id) /\
      (forall id ev, id ∈ updated ch -> ev ∈ events ->
         added_components ev !! id = None /\ id ∉ removed_components ev) /\
      NoDup (removed ch ++ updated ch) /\
      (forall id, is_Some (added ch !! id) -> id ∉ removed ch ++ updated ch)
  end.
Proof.
  unfold coalesce_market_events. set (b := fold_left batch_event events batch_empty).
  assert (batch_ok b) as [Har Hau Hru].
  { apply fold_left_inv; [|intros; by apply batch_event_ok]. split; cbn; set_solver. }
  assert (forall id, net_of_batch b id = fold_left (net_event id) events Untouched) as Hnet.
  { intros id. unfold b. rewrite net_batch_events. reflexivity. }
  assert (forall id, collected b id <-> exists ev, ev ∈ events /\ mentions ev id) as Hcol.
  { intros id. split; [|intros (ev & Hev & Hm)].
    - intros Hc. destruct (decide (Exists (fun ev => mentions ev id) events)) as [He|He].
      + apply Exists_exists in He. exact He.
      + exfalso. apply (proj1 (net_Untouched b id)); [|done]. rewrite Hnet.
        apply net_events_Untouched. intros ev Hev Hm. apply He, Exists_exists. by exists ev.
    - apply dec_stable. rewrite <- net_Untouched, Hnet, net_events_Untouched. intros Hno.
      by apply (Hno ev). }
  destruct (bool_decide (b_added b = ∅) && bool_decide (b_removed b = ∅) &&
    bool_decide (b_updated b = ∅)) eqn:Hempty.
  - apply andb_prop in Hempty as [[Ha Hr]%andb_prop Hu].
    apply bool_decide_eq_true in Ha, Hr, Hu. intros ev id Hev Hm.
    assert (collected b id) as Hc by (apply Hcol; by exists ev).
    destruct Hc as [[t Ht]|[Hc|Hc]]; [by rewrite Ha in Ht|set_solver..].
  - assert (forall id, collected b id <-> changes {| added := b_added b;
      removed := elements (b_removed b); updated := elements (b_updated b) |} id) as Hch.
    { intros id. unfold changes, collected. cbn. by rewrite !elem_of_elements. }
    cbn [added removed updated]. split_and!.
    + intros m. apply map_eq. intros id. rewrite net_effect_of_batch, Hnet by done.
      symmetry. apply net_events_effect.
    + intros id. by rewrite <- Hch.
    + apply not_collected_empty in Hempty as [id Hid]. exists id. by apply Hch.
    + intros id ev Hid%elem_of_elements Hev. apply (net_events_Updated id events); [|done].
      rewrite <- Hnet. unfold net_of_batch. destruct (b_added b !! id) eqn:Ha.
      { exfalso. apply (Hau id); [by eexists|done]. }
      rewrite decide_False, decide_True; [done|done|]. intros Hr. by apply (Hru id).
    + apply NoDup_app. split_and!; [apply NoDup_elements| |apply NoDup_elements].
      intros id Hr%elem_of_elements Hu%elem_of_elements. by apply (Hru id).
    + intros id Ha. rewrite elem_of_app, !elem_of_elements. intros [?|?];
        [by apply (Har id)|by apply (Hau id)].
Qed.

(** ** Properties of a run *)

(** The reports of [compute_all]. *)
Lemma compute_all_reports computations block store changed :
  exists store' events, compute_all computations (Some block) store changed = Some (store', events) /\
  exists rest, events = NewBlock block :: rest /\ omap event_id rest ≡ₚ comp_id <$> computations /\
    Forall (fun ev => event_block ev = block /\ is_Some (event_id ev)) rest.
Proof.
  destruct (build_schedule_order (node_of <$> computations)) as (sched & Hsched & Hperm).
  rewrite length_fmap in Hperm. unfold compute_all. rewrite Hsched. cbn [mbind option_bind].
  eexists _, _. split; [done|].
  apply (run_schedule_reports changed block computations store sched Hperm).
Qed.

Lemma id_unique computations c c' :
  NoDup (comp_id <$> computations) -> c' ∈ computations -> c ∈ computations ->
  comp_id c' = comp_id c -> c' = c.
Proof.
  intros Hnd [i Hi]%list_elem_of_lookup [j Hj]%list_elem_of_lookup Heq.
  assert (i = j) as -> by (eapply (NoDup_lookup _ i j (comp_id c) Hnd);
    rewrite list_lookup_fmap; [rewrite Hi|rewrite Hj]; cbn; congruence).
  congruence.
Qed.

(** What [compute_all] returns is the result of a run. *)
Lemma compute_all_run computations block store changed store' events :
  compute_all computations (Some block) store changed = Some (store', events) ->
  exists sched, build_schedule (node_of <$> computations) = Some sched /\
  run_order sched ≡ₚ seq 0 (length computations) /\
  store' = run_store (run_schedule changed block computations store sched) /\
  events = run_events (run_schedule changed block computations store sched).
Proof.
  destruct (build_schedule_order (node_of <$> computations)) as (sched & Hsched & Hperm).
  rewrite length_fmap in Hperm. unfold compute_all. rewrite Hsched. cbn [mbind option_bind].
  intros [= <- <-]. by exists sched.
Qed.

(** A registered computation without requirements that returns no error completes. *)
Lemma independent_succeeds computations block store changed sched c :
  NoDup (comp_id <$> computations) -> (forall c, c ∈ computations -> PersistsOwnSlot c) ->
  build_schedule (node_of <$> computations) = Some sched ->
  run_order sched ≡ₚ seq 0 (length computations) ->
  c ∈ computations -> comp_requirements c = requirements_none ->
  (forall store e, (comp_compute c store changed).2 <> Err e) ->
  comp_id c ∈ run_succeeded (run_schedule changed block computations store sched).
Proof.
  intros Hnd Hpersist Hsched Hp Hc Hreqs Hnoerr.
  set (run := run_schedule changed block computations store sched).
  pose proof (run_schedule_ok changed block computations sched store Hpersist) as Hok.
  fold run in Hok. apply (ro_succeeded _ _ _ _ _ _ Hok).
  destruct (run_schedule_reports changed block computations store sched Hp)
    as (rest & Hevents & Hids & Hrest). fold run in Hevents.
  assert (comp_id c ∈ omap event_id rest) as (ev & Hev & Hid)%list_elem_of_omap.
  { rewrite Hids. by apply list_elem_of_fmap_2. }
  apply list_elem_of_split in Hev as (l1 & l2 & Hl). rewrite Hl in Hevents. rewrite Hevents.
  pose proof (ro_history _ _ _ _ _ _ Hok (NewBlock block :: l1) ev l2 Hevents) as Hj.
  destruct ev as [b|i b items|i b]; [done|..]; cbn in Hid; injection Hid as ->.
  { destruct Hj as [-> _]. exists items. right. apply elem_of_app. right. left. }
  exfalso. destruct Hj as (_ & idx & c' & Hidx & Hsame & Hwhy).
  assert (c' = c) as -> by (eapply id_unique; [done|by eapply list_elem_of_lookup_2|done|done]).
  rewrite Hreqs in Hwhy. destruct Hwhy as [Hun|[(dep & Hdep & _)|[(dep & Hdep & _)|(s & e & He)]]].
  - apply (independent_scheduled _ sched idx (comp_id c) Hsched) in Hun; [done|].
    rewrite list_lookup_fmap, Hidx. cbn. unfold node_of. by rewrite Hreqs.
  - by apply elem_of_empty in Hdep.
  - by apply elem_of_empty in Hdep.
  - by apply (Hnoerr s e).
Qed.

(** What such a computation leaves in the store. *)
Lemma independent_completes computations block store changed store' events c :
  NoDup (comp_id <$> computations) -> (forall c, c ∈ computations -> PersistsOwnSlot c) ->
  c ∈ computations -> comp_requirements c = requirements_none ->
  (forall store e, (comp_compute c store changed).2 <> Err e) ->
  compute_all computations (Some block) store changed = Some (store', events) ->
  output_block store' (comp_id c) = Some block /\
  exists before output, (comp_compute c before changed).2 = Ok output /\
    slots before !! comp_id c = slots store !! comp_id c /\
    slot_data <$> slots store' !! comp_id c = Some (co_data output).
Proof.
  intros Hnd Hpersist Hc Hreqs Hnoerr (sched & Hsched & Hp & -> & _)%compute_all_run.
  pose proof (independent_succeeds computations block store changed sched c Hnd Hpersist Hsched Hp
    Hc Hreqs Hnoerr) as Hin.
  pose proof (run_schedule_ok changed block computations sched store Hpersist) as Hok.
  split; [by apply (ro_fresh _ _ _ _ _ _ Hok)|].
  destruct (run_schedule_data changed block computations sched store Hpersist Hnd Hp (comp_id c) Hin)
    as (o & (c' & before & output & Hc' & Heq & Hcomp & -> & Hslot & _)%produced_inv & Hdata).
  assert (c' = c) as -> by by eapply id_unique. by exists before, output.
Qed.

(** What a completed computation produced is in its slot. *)
Lemma completed_produced computations block store changed store' events id :
  NoDup (comp_id <$> computations) -> (forall c, c ∈ computations -> PersistsOwnSlot c) ->
  compute_all computations (Some block) store changed = Some (store', events) ->
  completed_in block events id ->
  exists o, produced changed computations store id o /\
    slot_data <$> slots store' !! id = Some o.
Proof.
  intros Hnd Hpersist (sched & Hsched & Hp & -> & ->)%compute_all_run Hdone.
  apply (run_schedule_data changed block computations sched store Hpersist Hnd Hp id).
  by apply (ro_succeeded _ _ _ _ _ _ (run_schedule_ok changed block computations sched store Hpersist)).
Qed.

(** A run over the computations for a block ends, whatever their requirements:
    cyclic, unknown or failing ones included. Its first event announces the block, and
    after it every registered computation is reported exactly once for that block, as
    complete or as failed. Without a block nothing runs. *)
Theorem compute_all_total (computations : list Computation) (block : N) (store : DerivedData)
    (changed : ChangedComponents) :
  compute_all computations None store changed = Some (store, []) /\
  exists store' rest,
    compute_all computations (Some block) store changed = Some (store', NewBlock block :: rest) /\
    omap event_id rest ≡ₚ comp_id <$> computations /\
    Forall (fun ev => event_block ev = block /\ is_Some (event_id ev)) rest.
Proof.
  split; [done|].
  destruct (compute_all_reports computations block store changed)
    as (store' & events & Hrun & rest & -> & ? & ?). by exists store', rest.
Qed.

(** How the tracker sees the events of a run for a newer block. *)
Section worker.
Context (block : N) (seen rest : list DerivedDataEvent) (r : ComputationRequirements).
Hypothesis Hnew : is_newer (latest seen) block = true.
Hypothesis Hrest : Forall (fun ev => event_block ev = block /\ is_Some (event_id ev)) rest.

Lemma latest_run before after :
  rest = before ++ after -> latest (seen ++ NewBlock block :: before) = Some block.
Proof.
  intros Heq. assert (Forall (fun ev => event_block ev = block) before) as Hb.
  { rewrite Heq in Hrest. apply Forall_app in Hrest as [Hb _]. eapply Forall_impl; [exact Hb|by intros ? []]. }
  clear Heq. induction before as [|ev before IH] using rev_ind.
  - destruct (newer_fresh r seen (NewBlock block) block Hnew eq_refl) as [Hl _]. exact Hl.
  - apply Forall_app in Hb as [Hb Hev]. apply Forall_cons in Hev as [Hev _].
    rewrite app_comm_cons, app_assoc, latest_snoc, IH by done.
    destruct ev; cbn in *; subst; by rewrite ?N.max_id.
Qed.

Lemma not_seen id items : ComputationComplete id block items ∉ seen.
Proof.
  intros Hin. destruct (completed_le_latest seen id block) as (b & Hb & Hle); [by exists items|].
  rewrite Hb in Hnew. cbn in Hnew. apply N.ltb_lt in Hnew. lia.
Qed.

Lemma run_completed_at id :
  completed_at (seen ++ NewBlock block :: rest) id block <->
  exists items, ComputationComplete id block items ∈ rest.
Proof.
  unfold completed_at. setoid_rewrite elem_of_app. setoid_rewrite elem_of_cons. split.
  - intros (items & [Hin|[[=]|Hin]]); [by apply not_seen in Hin|by exists items].
  - intros (items & Hin). exists items. auto.
Qed.

Lemma run_failed_at id :
  failed_at r (seen ++ NewBlock block :: rest) id <->
  id ∈ req_fresh r /\ ComputationFailed id block ∈ rest.
Proof.
  pose proof (latest_run rest [] (eq_sym (app_nil_r rest))) as Hl. unfold failed_at. split.
  - intros (Hreq & before & after & b & Heq & Hb & Hlast). split; [done|].
    rewrite Hl in Hlast. injection Hlast as <-.
    apply app_eq_inv in Heq as [(k & Hs & Hk)|(k & -> & Hk)].
    + destruct k as [|ev k]; cbn in Hk; [done|]. injection Hk as <- Hk.
      destruct (latest_app_le before (ComputationFailed id block :: k) block Hb) as (b' & Hb' & Hle).
      rewrite <- Hs in Hb'. rewrite Hb' in Hnew. cbn in Hnew. apply N.ltb_lt in Hnew. lia.
    + destruct k as [|ev k]; cbn in Hk; [done|]. injection Hk as _ Hk.
      rewrite Hk. apply elem_of_app. right. left.
  - intros (Hreq & (l1 & l2 & Heq)%list_elem_of_split). split; [done|].
    exists (seen ++ NewBlock block :: l1), l2, block. split_and!; [|by eapply latest_run|done].
    by rewrite Heq, <- app_assoc.
Qed.
End worker.

(** A run leaves no worker waiting. When the run's block is newer than all a worker has
    seen and its fresh requirements are registered, then after the run's events each of
    them is ready or has failed for the block, never both; so the worker is blocked for
    the block or has all the fresh data it requires. *)
Theorem run_settles_workers (computations : list Computation) (block : N)
    (store store' : DerivedData) (changed : ChangedComponents) (seen events : list DerivedDataEvent)
    (r : ComputationRequirements) :
  NoDup (comp_id <$> computations) ->
  is_newer (latest seen) block = true ->
  (forall id, id ∈ req_fresh r -> id ∈ comp_id <$> computations) ->
  compute_all computations (Some block) store changed = Some (store', events) ->
  let t := tracked r (seen ++ events) in
  current_block t = Some block /\
  (forall id, id ∈ req_fresh r -> id ∈ ready_for_block t \/ id ∈ failed_for_block t) /\
  (forall id, id ∈ ready_for_block t -> id ∉ failed_for_block t) /\
  (is_blocked_for_current_block t = false <-> forall id, id ∈ req_fresh r -> id ∈ ready_for_block t).
Proof.
  intros Hnd Hnew Hreg Hrun t.
  destruct (compute_all_reports computations block store changed)
    as (s' & evs & Hrun' & rest & Hevs & Hids & Hrest).
  rewrite Hrun in Hrun'. injection Hrun' as _ Heq. subst evs events.
  destruct (tracked_represents r (seen ++ NewBlock block :: rest)) as [Hr Hc Hready _ Hfailed].
  rewrite (latest_run block seen rest r Hnew Hrest rest []) in Hc, Hready by by rewrite app_nil_r.
  assert (forall id, id ∈ ready_for_block t <-> exists items, ComputationComplete id block items ∈ rest)
    as Hready'.
  { intros id. rewrite <- (run_completed_at block seen rest Hnew). unfold t. rewrite Hready. split.
    - by intros (b & [= <-] & Hdone).
    - intros Hdone. by exists block. }
  assert (forall id, id ∈ failed_for_block t <-> id ∈ req_fresh r /\ ComputationFailed id block ∈ rest)
    as Hfailed'.
  { intros id. unfold t. rewrite Hfailed. by apply run_failed_at. }
  assert (forall id, id ∈ req_fresh r -> id ∈ ready_for_block t \/ id ∈ failed_for_block t) as Hall.
  { intros id Hid. rewrite Hready', Hfailed'. pose proof (Hreg id Hid) as Hin.
    rewrite <- Hids in Hin. apply list_elem_of_omap in Hin as (ev & Hev & Hevid).
    rewrite Forall_forall in Hrest. destruct (Hrest ev Hev) as [Hb _].
    destruct ev as [b|i b items|i b]; cbn in Hevid, Hb; [done|..]; injection Hevid as ->; subst b.
    - left. by exists items.
    - by right. }
  assert (forall id, id ∈ ready_for_block t -> id ∉ failed_for_block t) as Hdisj.
  { intros id. rewrite Hready', Hfailed'. intros (items & Hdone) [_ Hfail].
    rewrite <- Hids in Hnd. by pose proof (omap_NoDup_inj event_id rest _ _ id Hnd Hdone Hfail eq_refl eq_refl). }
  split_and!; [done|done|done|]. unfold is_blocked_for_current_block.
  rewrite <- not_true_iff_false, existsb_exists. unfold t at 1 2. rewrite Hr. split.
  - intros Hno id Hid. destruct (Hall id Hid) as [?|Hf]; [done|]. exfalso. apply Hno. exists id.
    split; [by apply list_elem_of_In, elem_of_elements|by apply bool_decide_eq_true].
  - intros Hrd (id & Hid%list_elem_of_In%elem_of_elements & Hf%bool_decide_eq_true).
    by apply (Hdisj id); [apply Hrd|].
Qed.

(** C39: every event of a run is justified by what happened before it. A completion is
    the result for a store that holds the output of this block of every fresh
    requirement, each completed earlier in the run, and some output of every stale
    one; a failure is due to a cycle, to a fresh requirement that had not completed, to a
    stale one that never had an output, or to an error. At the end the slot of a completed
    computation carries the block and every other slot is as it was: so the slots that carry
    the block are exactly those of the computations that completed and those that carried it
    before the run, from an earlier run for the same block. *)
Theorem compute_all_justified (computations : list Computation) (block : N)
    (store store' : DerivedData) (changed : ChangedComponents) (events : list DerivedDataEvent) :
  (forall c, c ∈ computations -> PersistsOwnSlot c) ->
  compute_all computations (Some block) store changed = Some (store', events) ->
  exists sched, build_schedule (node_of <$> computations) = Some sched /\
  history_justified changed block computations sched store events /\
  (forall id, completed_in block events id -> output_block store' id = Some block) /\
  (forall id, ~ completed_in block events id -> slots store' !! id = slots store !! id) /\
  (forall id, output_block store' id = Some block <-> completed_in block events id \/ output_block store id = Some block).
Proof.
  intros Hpersist. unfold compute_all.
  destruct (build_schedule (node_of <$> computations)) as [sched|]; [|done]. cbn [mbind option_bind].
  intros [= <- <-]. exists sched. split; [done|].
  destruct (run_schedule_ok changed block computations sched store Hpersist) as [Hh Hs Hf Hk].
  split_and!; [done| | |].
  - intros id Hid. by apply Hf, Hs.
  - intros id Hid. apply Hk. by rewrite Hs.
  - intros id. rewrite <- Hs. destruct (decide (id ∈ run_succeeded (run_schedule changed block computations store sched))) as [Hid|Hid].
    + split; [by left|]. intros _. by apply Hf.
    + assert (output_block (run_store (run_schedule changed block computations store sched)) id = output_block store id) as -> by (unfold output_block, output_status; by rewrite (Hk _ Hid)). naive_solver.
Qed.

(** ** Witnesses *)

Definition no_changes : ChangedComponents := {| added := ∅; removed := []; updated := [] |}.

(** Depths need fresh spot prices; custom prices fail; a custom index needs them. *)
Definition sample_computation (id : ComputationId) (reqs : ComputationRequirements)
    (r : result ComputationError ComputationOutput) : Computation := {|
  comp_id := id; comp_requirements := reqs; comp_compute := fun store _ => (store, r);
  comp_persist := default_persist id 7 |}.

Definition sample_computations : list Computation := [
  sample_computation "pool_depths" (requirements_fresh ["spot_prices"%string])
    (Ok {| co_data := OutComponentDepths ∅; co_failed_items := [] |});
  sample_computation "spot_prices" requirements_none
    (Ok {| co_data := OutSpotPrices ∅; co_failed_items := [] |});
  sample_computation "custom" requirements_none (Err (ComputationTimeout 3));
  sample_computation "index" (requirements_fresh ["custom"%string])
    (Ok {| co_data := OutCustom "index"; co_failed_items := [] |})].

Definition sample_run : DerivedData * list DerivedDataEvent :=
  default (DerivedData_new, [])
    (compute_all sample_computations (Some 5%N) DerivedData_new no_changes).

Lemma sample_run_runs :
  compute_all sample_computations (Some 5%N) DerivedData_new no_changes =
    Some (sample_run.1, sample_run.2) /\
  sample_run.2 = [NewBlock 5; ComputationComplete "spot_prices" 5 [];
    ComputationFailed "custom" 5; ComputationFailed "index" 5;
    ComputationComplete "pool_depths" 5 []].
Proof. split; vm_compute; reflexivity. Qed.

Lemma compute_all_justified_witness : output_block sample_run.1 "pool_depths" = Some 5%N.
Proof.
  destruct (compute_all_justified sample_computations 5 DerivedData_new sample_run.1 no_changes
    sample_run.2) as (sched & _ & _ & _ & _ & Hblock).
  - intros c Hc. repeat (apply elem_of_cons in Hc as [->|Hc]; [apply default_persists_own_slot|]).
    by apply elem_of_nil in Hc.
  - apply sample_run_runs.
  - apply Hblock. left. exists []. rewrite (proj2 sample_run_runs). do 4 right. left.
Defined.

Lemma sample_fresh id :
  id ∈ req_fresh (requirements_fresh ["spot_prices"%string; "pool_depths"%string]) ->
  id = "spot_prices"%string \/ id = "pool_depths"%string.
Proof.
  change (id ∈ list_to_set (C := gset string) ["spot_prices"%string; "pool_depths"%string] -> 
    id = "spot_prices"%string \/ id = "pool_depths"%string). set_solver.
Qed.

Lemma run_settles_workers_witness :
  is_blocked_for_current_block
    (tracked (requirements_fresh ["spot_prices"%string; "pool_depths"%string])
       ([NewBlock 4] ++ sample_run.2)) = false.
Proof.
  apply (run_settles_workers sample_computations 5 DerivedData_new sample_run.1 no_changes
    [NewBlock 4] sample_run.2).
  - apply (bool_decide_unpack _). vm_compute. done.
  - done.
  - intros id [-> | ->]%sample_fresh; [right; left|left].
  - apply sample_run_runs.
  - rewrite (proj2 sample_run_runs).
    intros id [-> | ->]%sample_fresh; apply (bool_decide_unpack _); vm_compute; done.
Defined.
