(* ===== verification/SpotPricePipeline.v ===== *)
(** * SpotPricePipeline: spot prices through the manager

    Models [SpotPriceComputation] of [fynd-core/src/derived/computations/spot_price.rs]
    as a registered computation, and the persisters of the other two default
    computations. The theorem composes [SpotPriceComputation], [Manager] and
    [DerivedStore]: after any market event, whatever else is registered, the stored spot
    prices are those of the market. *)

From stdpp Require Import prelude gmap sets strings list.
From Stdlib Require Import NArith ZArith Lia.
From S2P Require Import Prelude F64 Types Samples Tracker DerivedStore SpotPriceComputation.
From S2P Require Import Schedule Manager.

Section computations.
Context (parse_address : string -> option Address) (now : N).
Implicit Types (store : DerivedData) (output : ComputationOutput).

(** The persisters of the default set. An output of another type cannot occur; its case
    is the trait's default. *)
Definition spot_price_persist store output (block : N) : DerivedData :=
  match co_data output with
  | OutSpotPrices prices => set_spot_prices parse_address store prices (co_failed_items output) block now
  | _ => default_persist SPOT_PRICES_ID now store output block
  end.

Definition component_depth_persist store output (block : N) : DerivedData :=
  match co_data output with
  | OutComponentDepths depths =>
      set_component_depths parse_address store depths (co_failed_items output) block now
  | _ => default_persist POOL_DEPTHS_ID now store output block
  end.

Definition token_price_persist store output (block : N) : DerivedData :=
  match co_data output with
  | OutTokenPrices prices =>
      set_token_prices parse_address store prices (co_failed_items output) block now
  | _ => default_persist TOKEN_PRICES_ID now store output block
  end.

Definition SpotPriceComputation_compute `{Tycho} (show_address : Address -> string) (market : Market)
    store (changed : ChangedComponents) : result ComputationError ComputationOutput :=
  let run := compute show_address market (spot_prices store) changed in
  Ok {| co_data := OutSpotPrices run.1; co_failed_items := run.2 |}.

Definition spot_price_computation `{Tycho} (show_address : Address -> string) (market : Market)
    : Computation := {|
  comp_id := SPOT_PRICES_ID;
  comp_requirements := requirements_none;
  comp_compute := fun store changed => (store, SpotPriceComputation_compute show_address market store changed);
  comp_persist := spot_price_persist |}.

(** ** Laws *)

#[export] Instance spot_price_persists_own_slot `{Tycho} show_address market :
  PersistsOwnSlot (spot_price_computation show_address market).
Proof.
  split; [done|..]; intros store output block; cbn; unfold spot_price_persist.
  - exists now. destruct (co_data output) eqn:Hd; cbn; by rewrite lookup_insert_eq, ?Hd.
  - intros id Hne. destruct (co_data output); cbn; by rewrite lookup_insert_ne.
Qed.

(** For the other two: whatever they compute, as long as computing writes no slot. *)
#[export] Instance component_depth_persists_own_slot reqs compute :
  (forall store changed, slots (compute store changed).1 = slots store) ->
  PersistsOwnSlot {| comp_id := POOL_DEPTHS_ID; comp_requirements := reqs; comp_compute := compute;
                     comp_persist := component_depth_persist |}.
Proof.
  intros Hc. split; [done|..]; intros store output block; cbn; unfold component_depth_persist.
  - exists now. destruct (co_data output) eqn:Hd; cbn; by rewrite lookup_insert_eq, ?Hd.
  - intros id Hne. destruct (co_data output); cbn; by rewrite lookup_insert_ne.
Qed.

#[export] Instance token_price_persists_own_slot reqs compute :
  (forall store changed, slots (compute store changed).1 = slots store) ->
  PersistsOwnSlot {| comp_id := TOKEN_PRICES_ID; comp_requirements := reqs; comp_compute := compute;
                     comp_persist := token_price_persist |}.
Proof.
  intros Hc. split; [done|..]; intros store output block; cbn; unfold token_price_persist.
  - exists now. destruct (co_data output) eqn:Hd; cbn; by rewrite lookup_insert_eq, ?Hd.
  - intros id Hne. destruct (co_data output); cbn; by rewrite lookup_insert_ne.
Qed.

Lemma spot_prices_slot store store' :
  slots store !! SPOT_PRICES_ID = slots store' !! SPOT_PRICES_ID -> spot_prices store = spot_prices store'.
Proof. unfold spot_prices. by intros ->. Qed.

Lemma spot_prices_data store prices :
  slot_data <$> slots store !! SPOT_PRICES_ID = Some (OutSpotPrices prices) ->
  spot_prices store = Some prices.
Proof. unfold spot_prices. destruct (slots store !! SPOT_PRICES_ID); cbn; by intros [= ->]. Qed.
End computations.

(** The change set of an event. *)
Definition changed_by (ev : MarketEvent) : ChangedComponents := {|
  added := added_components ev; removed := removed_components ev; updated := updated_components ev |}.

(** One event through the manager. *)
Lemma spot_prices_follow `{Tycho} (parse_address : string -> option Address)
    (show_address : Address -> string) (now block : N) (computations : list Computation)
    (old new : Market) (ev : MarketEvent) (store : DerivedData) :
  NoDup (comp_id <$> computations) ->
  (forall c, c ∈ computations -> PersistsOwnSlot c) ->
  spot_price_computation parse_address now show_address new ∈ computations ->
  is_full old (default ∅ (spot_prices store)) ->
  describes (changed_by ev) old new ->
  exists store' events,
    handle_market_event computations (Some block) store ev = Some (store', events) /\
    is_full new (default ∅ (spot_prices store')).
Proof.
  intros Hnd Hpersist Hin Hfull Hdesc. unfold handle_market_event.
  destruct (_ || _ || _) eqn:Hempty.
  - destruct (compute_all_reports computations block store (changed_by ev))
      as (store' & events & Hrun & _).
    exists store', events. split; [exact Hrun|].
    destruct (independent_completes computations block store (changed_by ev) store' events _
      Hnd Hpersist Hin eq_refl ltac:(done) Hrun) as (_ & before & output & Hcomp & Hslot & Hdata).
    cbn in Hcomp, Hslot, Hdata. injection Hcomp as <-. cbn in Hdata.
    rewrite (spot_prices_data _ _ Hdata). cbn.
    apply (incremental_full show_address old new); [|done].
    by rewrite (spot_prices_slot _ _ Hslot).
  - exists store, []. split; [done|]. intros k. rewrite (Hfull k). symmetry.
    apply orb_false_iff in Hempty as [[Ha Hr]%orb_false_iff Hu].
    apply negb_false_iff, bool_decide_eq_true in Ha, Hr, Hu.
    apply (ds_others _ _ _ Hdesc); cbn; rewrite ?Ha, ?Hr, ?Hu; [done|apply not_elem_of_nil..].
Qed.

(** ** Properties *)

(** The stored spot prices follow the market. If the store's spot prices price every
    direction of the market before an event, the event describes the update and the
    market has a block, then after the manager has handled the event they price every
    direction of the market after it, under any set of registered computations with
    distinct ids that includes the spot prices: requirement cycles and failures
    elsewhere do not disturb them. *)
Theorem spot_prices_follow_market `{Tycho} (parse_address : string -> option Address)
    (show_address : Address -> string) (now block : N) (computations : list Computation)
    (old new : Market) (ev : MarketEvent) (store : DerivedData) :
  NoDup (comp_id <$> computations) ->
  (forall c, c ∈ computations -> PersistsOwnSlot c) ->
  spot_price_computation parse_address now show_address new ∈ computations ->
  is_full old (default ∅ (spot_prices store)) ->
  describes (changed_by ev) old new ->
  exists store' events,
    handle_market_event computations (Some block) store ev = Some (store', events) /\
    is_full new (default ∅ (spot_prices store')).
Proof. apply spot_prices_follow. Qed.

(** ** Witness *)

Section witnesses.
#[local] Existing Instance Sample.tycho.

(** A pool joins an empty market; another computation fails and one waits for it. *)
Definition pool_event : MarketEvent := {|
  added_components := {[ "pool"%string := sample_topology ]};
  removed_components := []; updated_components := [] |}.

Definition registered_computations : list Computation := [
  spot_price_computation (fun s => Some s) 7 (fun a => a) sample_market;
  sample_computation "custom" requirements_none (Err (ComputationTimeout 3));
  sample_computation "index" (requirements_fresh ["custom"%string; "index"%string])
    (Ok {| co_data := OutCustom "index"; co_failed_items := [] |})].

Lemma spot_prices_follow_market_witness :
  exists store' events,
    handle_market_event registered_computations (Some 5%N) DerivedData_new pool_event
      = Some (store', events) /\
    is_full sample_market (default ∅ (spot_prices store')).
Proof.
  apply (spot_prices_follow_market (fun s => Some s) (fun a => a) 7 5 registered_computations
    (market_of ∅) sample_market pool_event DerivedData_new).
  - apply (bool_decide_unpack _). vm_compute. done.
  - intros c [->|Hc]%elem_of_cons; [apply _|].
    repeat (apply elem_of_cons in Hc as [->|Hc]; [apply default_persists_own_slot|]).
    by apply elem_of_nil in Hc.
  - left.
  - intros k. unfold full_price. cbn. by rewrite !lookup_empty.
  - exact sample_describes.
Defined.
End witnesses.
