(* ===== verification/ComponentDepth.v ===== *)
(** * ComponentDepth: incremental pool depths

    Models [ComponentDepthComputation] of
    [fynd-core/src/derived/computations/component_depth.rs] and the market snapshot it
    takes, [MarketState::extract_subset] of [fynd-core/src/feed/market_data.rs]. What a
    pool answers to a depth query is simulation code, [integer_decode] is [num_traits]
    code: they are parameters. The theorems are that the raw target price is exact and
    that the incremental run equals a full recomputation of the market. *)

From stdpp Require Import prelude gmap sets strings list.
From Stdlib Require Import NArith ZArith Lia.
From Stdlib Require Import Floats.SpecFloat.
From S2P Require Import Prelude F64 Types Samples Tracker DerivedStore SpotPriceComputation.

(** The part of the market that concerns [ids]: their components and states, and the
    registered tokens of those components. *)
Definition extract_subset `{Tycho} (market : Market) (ids : list ComponentId) : Market := {|
  tokens_of := fun id => if decide (id ∈ ids) then tokens_of market id else None;
  swap_directions_of := fun id => if decide (id ∈ ids) then swap_directions_of market id else None;
  get_simulation_state := fun id =>
    if decide (id ∈ ids) then get_simulation_state market id else None;
  token_registry := fun a =>
    if existsb (fun id => match tokens_of market id with
                          | Some tokens => bool_decide (a ∈ tokens)
                          | None => false
                          end) ids
    then token_registry market a else None;
  spot_price := spot_price market;
|}.

Section depth.
Context `{Tycho} (show_address : Address -> string) (decimals : Token -> N).
Context (integer_decode : f64 -> N * Z).
Context {SimulationError : Type}.
Context (fatal_message : SimulationError -> option string) (show_error : SimulationError -> string).
Context (sim_query generic_query : ProtocolSim -> Token -> Token -> Price -> result SimulationError N).
(** What the guarded swap of one unit and the swap limits answer, and how amounts print. *)
Context (amount_out_of_one : ProtocolSim -> Token -> Token -> result SimulationError N).
Context (limits_of : ProtocolSim -> Token -> Token -> result SimulationError (N * N)).
Context (show_amount : N -> string).
Implicit Types (prices : SpotPrices) (depths : ComponentDepths) (market snapshot : Market).

(** The price in smallest units, as an exact fraction. *)
Definition to_raw_price (price : f64) (decimals_in decimals_out : N) : Price :=
  let '(mantissa, exponent) := integer_decode price in
  let shift := Z.to_N (Z.abs exponent) in
  let '(numerator, denominator) :=
    if (0 <=? exponent)%Z then (N.shiftl mantissa shift, 1) else (mantissa, N.shiftl 1 shift) in
  if decimals_in <=? decimals_out
  then {| price_numerator := numerator * 10 ^ (decimals_out - decimals_in);
          price_denominator := denominator |}
  else {| price_numerator := numerator;
          price_denominator := denominator * 10 ^ (decimals_in - decimals_out) |}.

(** The lower of the forward price and the inverse of the reverse one; [look] reads a
    spot price. *)
Definition net_marginal_price (look : PairKey -> option f64) (key : PairKey) : option f64 :=
  spot ← look key;
  Some (match look (key.1.1, key.2, key.1.2) with
        | None => spot
        | Some reverse => F64.min spot (F64.div F64.one reverse)
        end).

Definition query_depth (sim : ProtocolSim) (token_in token_out : Token) (target_price : f64)
    : result SimulationError N :=
  let target := to_raw_price target_price (decimals token_in) (decimals token_out) in
  match sim_query sim token_in token_out target with
  | Err e =>
      if bool_decide (fatal_message e = Some "query_pool_swap not implemented"%string)
      then generic_query sim token_in token_out target
      else Err e
  | Ok amount_in => Ok amount_in
  end.

Definition describe_failed_query (sim : ProtocolSim) (token_in token_out : Token) : string * string :=
  (match amount_out_of_one sim token_in token_out with
   | Ok amount => String.concat "" ["amount_out="%string; show_amount amount]
   | Err e => String.concat "" ["sim_error="%string; show_error e]
   end,
   match limits_of sim token_in token_out with
   | Ok (max_in, max_out) =>
       String.concat "" ["max_in="%string; show_amount max_in; ", max_out="%string; show_amount max_out]
   | Err e => String.concat "" ["limits_error="%string; show_error e]
   end).

Definition depth_failure (sim : ProtocolSim) (token_in token_out : Token) (error : SimulationError)
    : FailedItemError :=
  let '(probe_info, limits_info) := describe_failed_query sim token_in token_out in
  ItemSimulationFailed (String.concat "" ["depth query failed: "%string; show_error error;
    ": "%string; probe_info; ", "%string; limits_info]).

Record ComponentDepthComputation := { marginal_price_drop : f64 }.

(** [None] is the invalid configuration. *)
Definition ComponentDepthComputation_new (drop : f64) : option ComponentDepthComputation :=
  if negb (F64.gtb drop F64.zero && F64.ltb drop F64.one) then None
  else Some {| marginal_price_drop := drop |}.

Section computation.
Context (self : ComponentDepthComputation).

Definition compute_pair_depth (sim : ProtocolSim) (key : PairKey) (token_in token_out : Token)
    (look : PairKey -> option f64) : result FailedItemError N :=
  match net_marginal_price look key with
  | None => Err MissingSpotPrice
  | Some marginal_price =>
      let target_price := F64.mul marginal_price (F64.sub F64.one (marginal_price_drop self)) in
      if negb (F64.is_finite target_price && F64.gtb target_price F64.zero)
      then Err (InvalidTargetPrice target_price)
      else match query_depth sim token_in token_out target_price with
           | Ok amount_in => Ok amount_in
           | Err error => Err (depth_failure sim token_in token_out error)
           end
  end.

Definition compute_component_depths (component_id : ComponentId) (directions : list SwapDirection)
    snapshot (look : PairKey -> option f64) : list (PairKey * result FailedItemError N) :=
  match get_simulation_state snapshot component_id with
  | None => (fun d : SwapDirection => ((component_id, d.1, d.2), Err MissingSimulationState)) <$> directions
  | Some sim =>
      (fun d : SwapDirection =>
         let key := (component_id, d.1, d.2) in
         match token_registry snapshot d.1, token_registry snapshot d.2 with
         | Some token_in, Some token_out => (key, compute_pair_depth sim key token_in token_out look)
         | _, _ => (key, Err MissingTokenMetadata)
         end) <$> directions
  end.

(** One computed direction enters the depths, or leaves them and is reported. *)
Definition record_depth (st : ComponentDepths * list FailedItem)
    (entry : PairKey * result FailedItemError N) : ComponentDepths * list FailedItem :=
  let '(key, depth) := entry in
  match depth with
  | Ok depth => (<[key := depth]> st.1, st.2)
  | Err error =>
      (delete key st.1, st.2 ++ [{| fi_key := pair_key show_address key; fi_error := error |}])
  end.

Definition depth_component (changed : ChangedComponents) snapshot prices
    (st : ComponentDepths * list FailedItem) (component_id : ComponentId)
    : ComponentDepths * list FailedItem :=
  match directions_to_compute snapshot changed component_id with
  | None => st
  | Some directions =>
      fold_left record_depth
        (compute_component_depths component_id directions snapshot (fun k => prices !! k)) st
  end.

(** [None] for the stored spot prices is the missing dependency. *)
Definition compute_depths market (spot_prices : option SpotPrices) (stored : option ComponentDepths)
    (changed : ChangedComponents) : option (ComponentDepths * list FailedItem) :=
  prices ← spot_prices;
  let depths := default ∅ stored in
  let depths := fold_left (fun depths id => drop_components [id] depths) (removed changed) depths in
  let depths := drop_unlisted_directions depths (added changed) in
  let ids := components_to_compute changed in
  let snapshot := extract_subset market ids in
  Some (fold_left (depth_component changed snapshot prices) ids (depths, [])).
End computation.

(** ** The specification *)

Section spec.
Context (self : ComponentDepthComputation).

(** The depth of a key, or why it has none. *)
Definition pair_result market (look : PairKey -> option f64) (k : PairKey)
    : result FailedItemError N :=
  match get_simulation_state market k.1.1 with
  | None => Err MissingSimulationState
  | Some sim =>
      match token_registry market k.1.2, token_registry market k.2 with
      | Some token_in, Some token_out => compute_pair_depth self sim k token_in token_out look
      | _, _ => Err MissingTokenMetadata
      end
  end.

Definition ok_depth (r : result FailedItemError N) : option N :=
  match r with Ok depth => Some depth | Err _ => None end.

(** The depth of every direction of a market, at the market's own spot prices. *)
Definition full_depth market (k : PairKey) : option N :=
  directions ← swap_directions_of market k.1.1;
  if decide ((k.1.2, k.2) ∈ directions)
  then ok_depth (pair_result market (full_price market) k) else None.

Definition is_full_depth market depths : Prop := forall k, depths !! k = full_depth market k.

(** Every component lists its tokens, and its directions are between them. *)
Definition directions_listed market : Prop :=
  forall id directions d, swap_directions_of market id = Some directions -> d ∈ directions ->
    exists tokens, tokens_of market id = Some tokens /\ d.1 ∈ tokens /\ d.2 ∈ tokens.

(** ** Laws *)

Lemma compute_pair_depth_ext sim k token_in token_out look look' :
  (forall k, look k = look' k) ->
  compute_pair_depth self sim k token_in token_out look =
  compute_pair_depth self sim k token_in token_out look'.
Proof. intros Heq. unfold compute_pair_depth, net_marginal_price. by rewrite !Heq. Qed.

Lemma pair_result_ext market look look' k :
  (forall k, look k = look' k) -> pair_result market look k = pair_result market look' k.
Proof.
  intros Heq. unfold pair_result. destruct (get_simulation_state market k.1.1); [|done].
  destruct (token_registry market k.1.2), (token_registry market k.2); try done.
  by apply compute_pair_depth_ext.
Qed.

Lemma component_depths_entries id directions snapshot look :
  compute_component_depths self id directions snapshot look =
  (fun d : SwapDirection => ((id, d.1, d.2), pair_result snapshot look (id, d.1, d.2))) <$> directions.
Proof.
  unfold compute_component_depths, pair_result. cbn [fst snd].
  destruct (get_simulation_state snapshot id) as [sim|]; apply list_fmap_ext; intros _ d _; [|done].
  by destruct (token_registry snapshot d.1), (token_registry snapshot d.2).
Qed.

(** Recording the directions of a component: a recorded key has its result, any other
    keeps its depth. *)
Lemma record_depths_lookup id (f : PairKey -> result FailedItemError N) directions st k :
  (fold_left record_depth
     ((fun d : SwapDirection => ((id, d.1, d.2), f (id, d.1, d.2))) <$> directions) st).1 !! k =
  if decide (k.1.1 = id /\ (k.1.2, k.2) ∈ directions) then ok_depth (f k) else st.1 !! k.
Proof.
  revert st. induction directions as [|d directions IH]; intros st; cbn [fmap list_fmap fold_left].
  { rewrite decide_False; [done|]. intros [_ Hin]. by apply elem_of_nil in Hin. }
  rewrite IH. destruct k as [[kid kin] kout], d as [din dout]. cbn [fst snd].
  destruct (decide (kid = id /\ (kin, kout) ∈ directions)) as [[-> Hin]|Hno].
  { rewrite decide_True; [done|]. split; [done|by right]. }
  assert ((record_depth st (id, din, dout, f (id, din, dout))).1 !! (kid, kin, kout) =
    if decide ((kid, kin, kout) = (id, din, dout)) then ok_depth (f (kid, kin, kout))
    else st.1 !! (kid, kin, kout)) as ->.
  { unfold record_depth. destruct (decide ((kid, kin, kout) = (id, din, dout))) as [[= -> -> ->]|Hne].
    - destruct (f (id, din, dout)); cbn;
        [by rewrite lookup_insert_eq|by rewrite lookup_delete_eq].
    - destruct (f (id, din, dout)); cbn; [by rewrite lookup_insert_ne|by rewrite lookup_delete_ne]. }
  apply decide_ext. rewrite elem_of_cons. split.
  - intros [= -> -> ->]. auto.
  - intros [-> [[= -> ->]|Hin]]; [done|]. exfalso. auto.
Qed.

(** Whether a run computes a key. *)
Definition computes snapshot (changed : ChangedComponents) (ids : list ComponentId) (k : PairKey) : bool :=
  bool_decide (k.1.1 ∈ ids) &&
  match directions_to_compute snapshot changed k.1.1 with
  | Some directions => bool_decide ((k.1.2, k.2) ∈ directions)
  | None => false
  end.

Lemma depth_component_lookup changed snapshot prices st id k :
  (depth_component self changed snapshot prices st id).1 !! k =
  if computes snapshot changed [id] k
  then ok_depth (pair_result snapshot (fun k => prices !! k) k) else st.1 !! k.
Proof.
  unfold depth_component, computes.
  destruct (decide (k.1.1 = id)) as [<-|Hne].
  - rewrite bool_decide_true by (by left). cbn [andb].
    destruct (directions_to_compute snapshot changed k.1.1) as [directions|]; [|done].
    rewrite component_depths_entries, record_depths_lookup.
    destruct (decide ((k.1.2, k.2) ∈ directions)) as [Hin|Hin].
    + by rewrite decide_True, bool_decide_true.
    + rewrite decide_False, bool_decide_false; [done|done|]. by intros [_ ?].
  - rewrite bool_decide_false by (by rewrite list_elem_of_singleton). cbn [andb].
    destruct (directions_to_compute snapshot changed id) as [directions|]; [|done].
    rewrite component_depths_entries, record_depths_lookup, decide_False; [done|]. by intros [? _].
Qed.

Lemma depth_components_lookup changed snapshot prices ids st k :
  (fold_left (depth_component self changed snapshot prices) ids st).1 !! k =
  if computes snapshot changed ids k
  then ok_depth (pair_result snapshot (fun k => prices !! k) k) else st.1 !! k.
Proof.
  revert st. induction ids as [|id ids IH]; intros st; cbn [fold_left].
  { unfold computes. rewrite bool_decide_false by apply not_elem_of_nil. done. }
  rewrite IH, depth_component_lookup. unfold computes.
  destruct (decide (k.1.1 ∈ ids)) as [Hin|Hin].
  - rewrite (bool_decide_true (k.1.1 ∈ ids)), (bool_decide_true (k.1.1 ∈ id :: ids)) by (done || by right).
    cbn [andb]. destruct (directions_to_compute snapshot changed k.1.1) as [directions|];
      [|by rewrite andb_false_r].
    destruct (bool_decide _); [done|]. by rewrite andb_false_r.
  - rewrite (bool_decide_false (k.1.1 ∈ ids)) by done. cbn [andb].
    by rewrite (bool_decide_ext (k.1.1 ∈ [id]) (k.1.1 ∈ id :: ids)) by set_solver.
Qed.

Lemma compute_depths_lookup market prices stored changed :
  let ids := components_to_compute changed in
  exists depths items, compute_depths self market (Some prices) stored changed = Some (depths, items) /\
  forall k, depths !! k =
    if computes (extract_subset market ids) changed ids k
    then ok_depth (pair_result (extract_subset market ids) (fun k => prices !! k) k)
    else if decide (listed (added changed) k)
         then if decide (k.1.1 ∈ removed changed) then None else default ∅ stored !! k
         else None.
Proof.
  cbn zeta. unfold compute_depths. cbn [mbind option_bind].
  eexists _, _. split; [apply f_equal, surjective_pairing|]. intros k.
  rewrite depth_components_lookup. cbn [fst]. by rewrite drop_unlisted_lookup, drop_removed_lookup.
Qed.

(** On the directions of the computed components the snapshot answers as the market. *)
Lemma subset_result market ids look directions k :
  directions_listed market -> k.1.1 ∈ ids -> swap_directions_of market k.1.1 = Some directions ->
  (k.1.2, k.2) ∈ directions ->
  pair_result (extract_subset market ids) look k = pair_result market look k.
Proof.
  intros Hlisted Hin Hd Hk. destruct (Hlisted _ _ _ Hd Hk) as (tokens & Htokens & H1 & H2).
  assert (forall a, a ∈ tokens -> token_registry (extract_subset market ids) a = token_registry market a)
    as Htok.
  { intros a Ha. cbn. destruct (existsb _ ids) eqn:Hex; [done|]. exfalso.
    apply not_true_iff_false in Hex. apply Hex, existsb_exists. exists k.1.1.
    split; [by apply list_elem_of_In|]. rewrite Htokens. by apply bool_decide_eq_true. }
  unfold pair_result. rewrite !Htok by done. cbn. by rewrite decide_True.
Qed.

(** The directions a run computes are the market's. *)
Lemma subset_directions changed old market id :
  describes changed old market -> id ∈ components_to_compute changed ->
  directions_to_compute (extract_subset market (components_to_compute changed)) changed id =
  swap_directions_of market id.
Proof.
  intros Hdesc Hin. unfold directions_to_compute.
  destruct (added changed !! id) as [topology|] eqn:Ha; [symmetry; by apply (ds_added _ _ _ Hdesc)|].
  cbn. by rewrite decide_True.
Qed.

(** A computed component: its listed directions have the market's depths. *)
Lemma computed_depth changed old market prices k :
  describes changed old market -> directions_listed market -> is_full market prices ->
  k.1.1 ∈ components_to_compute changed ->
  let subset := extract_subset market (components_to_compute changed) in
  computes subset changed (components_to_compute changed) k =
    match swap_directions_of market k.1.1 with
    | Some directions => bool_decide ((k.1.2, k.2) ∈ directions)
    | None => false
    end /\
  (computes subset changed (components_to_compute changed) k = true ->
   ok_depth (pair_result subset (fun k => prices !! k) k) = full_depth market k).
Proof.
  intros Hdesc Hlisted Hfull Hin. cbn zeta.
  assert (computes (extract_subset market (components_to_compute changed)) changed
    (components_to_compute changed) k =
    match swap_directions_of market k.1.1 with
    | Some directions => bool_decide ((k.1.2, k.2) ∈ directions)
    | None => false
    end) as Heq.
  { unfold computes. rewrite bool_decide_true by done. by rewrite (subset_directions _ old). }
  split; [done|]. rewrite Heq. unfold full_depth.
  destruct (swap_directions_of market k.1.1) as [directions|] eqn:Hd; [|done].
  intros Hk%bool_decide_eq_true. cbn [mbind option_bind]. rewrite decide_True by done.
  f_equal. rewrite (subset_result _ _ _ directions) by done. by apply pair_result_ext.
Qed.

Lemma incremental_depths old new changed prices stored :
  is_full new prices -> is_full_depth old (default ∅ stored) -> describes changed old new ->
  directions_listed new ->
  (forall k, added changed !! k.1.1 = None -> (k.1.1 ∉ removed changed) ->
     (k.1.1 ∉ updated changed) -> full_depth new k = full_depth old k) ->
  exists depths items,
    compute_depths self new (Some prices) stored changed = Some (depths, items) /\
    is_full_depth new depths.
Proof.
  intros Hprices Hstored Hdesc Hlisted Hothers.
  destruct (compute_depths_lookup new prices stored changed) as (depths & items & Hrun & Hlook).
  exists depths, items. split; [done|]. intros k. rewrite Hlook, (Hstored k). clear Hlook Hrun.
  destruct (decide (k.1.1 ∈ components_to_compute changed)) as [Hin|Hout].
  - destruct (computed_depth changed old new prices k Hdesc Hlisted Hprices Hin) as [Hc Hdepth].
    destruct (computes _ _ _ k); [by apply Hdepth|]. clear Hdepth. unfold full_depth at 2.
    destruct (swap_directions_of new k.1.1) as [directions|] eqn:Hd; cbn [mbind option_bind].
    + symmetry in Hc. apply bool_decide_eq_false in Hc. rewrite (decide_False (P := _ ∈ directions)) by done.
      repeat case_decide; try done.
      destruct (added changed !! k.1.1) as [t|] eqn:Ha.
      * exfalso. apply (ds_added _ _ _ Hdesc) in Ha as Hd'. rewrite Hd in Hd'. injection Hd' as ->.
        unfold listed in *. by rewrite Ha in *.
      * apply elem_of_to_compute in Hin as [[t Ht]|Hupd]; [congruence|].
        destruct (ds_updated _ _ _ Hdesc _ Hupd Ha) as [Hsame|?]; [|done].
        unfold full_depth. rewrite <- Hsame, Hd. cbn. by rewrite decide_False.
    + repeat case_decide; try done. destruct (added changed !! k.1.1) as [t|] eqn:Ha.
      { apply (ds_added _ _ _ Hdesc) in Ha. congruence. }
      apply elem_of_to_compute in Hin as [[t Ht]|Hupd]; [congruence|].
      destruct (ds_updated _ _ _ Hdesc _ Hupd Ha) as [Hsame|?]; [|done].
      unfold full_depth. by rewrite <- Hsame, Hd.
  - assert (computes (extract_subset new (components_to_compute changed)) changed
      (components_to_compute changed) k = false) as ->.
    { unfold computes. by rewrite bool_decide_false. }
    rewrite elem_of_to_compute in Hout.
    assert (added changed !! k.1.1 = None) as Ha by (destruct (added changed !! k.1.1); [|done];
      exfalso; apply Hout; eauto).
    rewrite decide_True by (unfold listed; by rewrite Ha).
    destruct (decide (k.1.1 ∈ removed changed)) as [Hr|Hr].
    + unfold full_depth. by destruct (ds_removed _ _ _ Hdesc _ Hr) as [_ ->].
    + symmetry. apply Hothers; [done|done|]. intros Hu. apply Hout. by right.
Qed.
End spec.
End depth.

(** A decoded float is its mantissa times two to its exponent: the documented contract
    of [integer_decode], for positive finite floats. *)
Definition decodes (integer_decode : f64 -> N * Z) : Prop :=
  forall m e, let '(mantissa, exponent) := integer_decode (S754_finite false m e) in
    mantissa * 2 ^ Z.to_N (Z.max exponent 0) * 2 ^ Z.to_N (Z.max (- e) 0) =
    Npos m * 2 ^ Z.to_N (Z.max e 0) * 2 ^ Z.to_N (Z.max (- exponent) 0).

Lemma scale_decimals (num den x y din dout : N) :
  num * x = den * y ->
  (if din <=? dout then num * 10 ^ (dout - din) else num) * x * 10 ^ din =
  (if din <=? dout then den else den * 10 ^ (din - dout)) * y * 10 ^ dout.
Proof.
  intros Heq. destruct (N.leb_spec din dout) as [Hle|Hlt].
  - replace (10 ^ dout) with (10 ^ (dout - din) * 10 ^ din) by
      (rewrite <- N.pow_add_r; f_equal; lia).
    transitivity (num * x * (10 ^ (dout - din) * 10 ^ din)); [ring|]. rewrite Heq. ring.
  - replace (10 ^ din) with (10 ^ (din - dout) * 10 ^ dout) by
      (rewrite <- N.pow_add_r; f_equal; lia).
    transitivity (num * x * (10 ^ (din - dout) * 10 ^ dout)); [ring|]. rewrite Heq. ring.
Qed.

(** The target price of a depth query is exact. The fraction of smallest units that a
    positive finite price of whole tokens becomes is that price times ten to the
    difference of the decimals, without rounding, and its denominator is not zero. *)
Theorem to_raw_price_exact (integer_decode : f64 -> N * Z) (m : positive) (e : Z)
    (decimals_in decimals_out : N) :
  decodes integer_decode ->
  let p := to_raw_price integer_decode (S754_finite false m e) decimals_in decimals_out in
  0 < price_denominator p /\
  price_numerator p * 2 ^ Z.to_N (Z.max (- e) 0) * 10 ^ decimals_in =
  price_denominator p * (Npos m * 2 ^ Z.to_N (Z.max e 0)) * 10 ^ decimals_out.
Proof.
  intros Hdec p. specialize (Hdec m e). unfold p, to_raw_price.
  destruct (integer_decode (S754_finite false m e)) as [mant ex].
  rewrite !N.shiftl_mul_pow2, N.mul_1_l. set (E := 2 ^ Z.to_N (Z.max (- e) 0)) in *.
  set (M := Npos m * 2 ^ Z.to_N (Z.max e 0)) in *.
  destruct (Z.leb_spec 0 ex) as [Hx|Hx].
  - rewrite (Z.max_l ex 0), (Z.max_r (- ex) 0), N.pow_0_r, N.mul_1_r in Hdec by lia.
    rewrite (Z.abs_eq ex) by done.
    pose proof (scale_decimals (mant * 2 ^ Z.to_N ex) 1 E M decimals_in decimals_out ltac:(lia)) as Hs.
    destruct (decimals_in <=? decimals_out); cbn [price_numerator price_denominator] in *; split;
      first [done|lia].
  - rewrite (Z.max_r ex 0), (Z.max_l (- ex) 0), N.pow_0_r, N.mul_1_r in Hdec by lia.
    rewrite (Z.abs_neq ex) by lia.
    pose proof (scale_decimals mant (2 ^ Z.to_N (- ex)) E M decimals_in decimals_out ltac:(lia)) as Hs.
    destruct (decimals_in <=? decimals_out); cbn [price_numerator price_denominator] in *; split;
      first [done|lia].
Qed.
