(* ===== verification/MarketData.v ===== *)
(** * MarketData: the shared market state

    Models [fynd-core/src/feed/market_data.rs], [fynd-core/src/types/topology.rs], the
    matching of protocol systems of [fynd-core/src/feed/component_filter.rs] and the
    constraint cache of [fynd-core/src/worker_pool/worker.rs]. A market state is the record
    the code keeps; its operations are those of [MarketState] and of [MarketData], whose
    two locks guard the base state and the overlays. The theorems (in [MarketDataProofs])
    are the state's invariant, what each index means, and when a cached or a batched
    reading equals a fresh one. *)

From stdpp Require Import prelude gmap sets strings list sorting pretty.
From Stdlib Require Import Ascii.
From Stdlib Require Import NArith ZArith Lia.
From S2P Require Import Prelude F64 Types Quote Tracker DerivedStore SpotPriceComputation.

(** What the market reads of a component beyond its attributes: its public fields, the
    attribute that lists swap directions and its decoder, and the type of a gas price. *)
Class TychoMarket `{Tycho} : Type := {
  component_id_of : ProtocolComponent -> ComponentId;
  protocol_system_of : ProtocolComponent -> string;
  component_tokens_of : ProtocolComponent -> list Address;
  SWAP_DIRECTIONS_ATTRIBUTE : string;
  decode_swap_directions : Bytes -> result string (list SwapDirection);
  BlockGasPrice : Type;
}.

(** The fields of a block header and the states of a synchronizer that the code matches
    on; a hash is held as it prints. *)
Record BlockHeader := {
  bh_number : N;
  bh_hash : string;
  bh_timestamp : N;
}.

Inductive SynchronizerState :=
| SS_Started
| SS_Ready (header : BlockHeader)
| SS_Delayed (header : BlockHeader)
| SS_Stale (header : BlockHeader)
| SS_Advanced (header : BlockHeader)
| SS_Ended (reason : string).

(** ** Swap directions *)

(** [Itertools::dedup] drops consecutive repetitions. *)
Fixpoint dedup (l : list Address) : list Address :=
  match l with
  | [] => []
  | x :: l' =>
      match l' with
      | [] => [x]
      | y :: _ => if decide (x = y) then dedup l' else x :: dedup l'
      end
  end.

(** [Itertools::tuple_combinations] of two. *)
Fixpoint pairs (l : list Address) : list (Address * Address) :=
  match l with
  | [] => []
  | x :: l' => ((fun y => (x, y)) <$> l') ++ pairs l'
  end.

Definition both_ways (p : Address * Address) : list SwapDirection := [(p.1, p.2); (p.2, p.1)].

Definition every_swap_direction (tokens : list Address) : list SwapDirection :=
  pairs (dedup (merge_sort String.le tokens)) ≫= both_ways.

Definition swap_directions `{TychoMarket} (component : ProtocolComponent) : list SwapDirection :=
  match static_attributes component !! SWAP_DIRECTIONS_ATTRIBUTE with
  | None => every_swap_direction (component_tokens_of component)
  | Some attribute =>
      match decode_swap_directions attribute with
      | Ok directions =>
          List.filter (fun d => bool_decide (d.1 ∈ component_tokens_of component)
                                && bool_decide (d.2 ∈ component_tokens_of component)) directions
      | Err _ => []
      end
  end.

(** ** Matching protocol systems *)

Fixpoint ends_with_colon (s : string) : bool :=
  match s with
  | EmptyString => false
  | String c EmptyString => Ascii.eqb c ":"%char
  | String _ s' => ends_with_colon s'
  end.

Definition protocol_matches (entry system : string) : bool :=
  if ends_with_colon entry then String.prefix entry system else bool_decide (system = entry).

Definition is_excluded_protocol `{TychoMarket} (exclude_protocols : list string)
    (component : ProtocolComponent) : bool :=
  existsb (fun entry => protocol_matches entry (protocol_system_of component)) exclude_protocols.

(** ** The market state *)

Record StoredComponent `{TychoMarket} := {
  sc_component : ProtocolComponent;
  sc_swap_directions : list SwapDirection;
}.

Definition topology `{TychoMarket} (stored : StoredComponent) : ComponentTopology := {|
  tp_tokens := component_tokens_of (sc_component stored);
  tp_swap_directions := sc_swap_directions stored |}.

Record UpsertedComponents := {
  up_new : list ComponentId;
  up_reshaped : list ComponentId;
}.

Record MarketState `{TychoMarket} := {
  label : StateLabel;
  components : gmap ComponentId StoredComponent;
  simulation_states : gmap ComponentId ProtocolSim;
  tokens : gmap Address Token;
  gas_price : option BlockGasPrice;
  protocol_sync_status : gmap string SynchronizerState;
  last_updated : option BlockInfo;
  unsynced_protocols : gset string;
  unsynced_pools : gset ComponentId;
  components_by_protocol : gmap string (gset ComponentId);
  constraint_generation : N;
}.

Section market_state.
Context `{TychoMarket}.
Implicit Types (st : MarketState) (id : ComponentId).

Definition MarketState_new : MarketState := {|
  label := EmptyString; components := ∅; simulation_states := ∅; tokens := ∅;
  gas_price := None; protocol_sync_status := ∅; last_updated := None;
  unsynced_protocols := ∅; unsynced_pools := ∅; components_by_protocol := ∅;
  constraint_generation := 0 |}.

(** [u64::wrapping_add(1)]. *)
Definition wrapping_succ (n : N) : N := (n + 1) mod (u64_MAX + 1).

(** The ids a protocol system holds; none for a system the market does not carry. *)
Definition system_components st (system : string) : gset ComponentId :=
  default ∅ (components_by_protocol st !! system).

(** ** Reading the state *)

Definition get_component st id : option ProtocolComponent := sc_component <$> components st !! id.
Definition market_swap_directions_of st id : option (list SwapDirection) :=
  sc_swap_directions <$> components st !! id.
Definition topology_of st id : option ComponentTopology := topology <$> components st !! id.
Definition component_topology st : gmap ComponentId ComponentTopology := topology <$> components st.
Definition component_counts_by_protocol st : gmap string nat := size <$> components_by_protocol st.
Definition MarketState_is_unsynced_pool st id : bool := bool_decide (id ∈ unsynced_pools st).

(** One entry of a filter's excluded protocols. *)
Definition excluded_by_entry st (pools : gset ComponentId) (entry : string) : gset ComponentId :=
  if ends_with_colon entry
  then fold_left (fun pools (kv : string * gset ComponentId) =>
         if protocol_matches entry kv.1 then pools ∪ kv.2 else pools)
       (map_to_list (components_by_protocol st)) pools
  else pools ∪ system_components st entry.

Definition resolve_route_filter st (filter : RouteConstraints) : ResolvedRouteConstraints := {|
  rrc_excluded_pools :=
    fold_left (excluded_by_entry st) (elements (rc_excluded_protocols filter))
      (rc_excluded_pools filter);
  rrc_excluded_tokens := rc_excluded_tokens filter;
  rrc_required_tokens := rc_required_tokens filter;
  rrc_unsynced_pools := unsynced_pools st |}.

(** ** Components, tokens and states *)

Definition upsert_component (acc : MarketState * UpsertedComponents) (component : ProtocolComponent)
    : MarketState * UpsertedComponents :=
  let '(st, upserted) := acc in
  let system := protocol_system_of component in
  let id := component_id_of component in
  let directions := swap_directions component in
  let '(is_new, upserted) :=
    match components st !! id with
    | None => (true, {| up_new := up_new upserted ++ [id]; up_reshaped := up_reshaped upserted |})
    | Some stored =>
        if decide (sc_swap_directions stored = directions) then (false, upserted)
        else (false, {| up_new := up_new upserted; up_reshaped := up_reshaped upserted ++ [id] |})
    end in
  ({| label := label st;
      components := <[id := {| sc_component := component; sc_swap_directions := directions |}]>
                      (components st);
      simulation_states := simulation_states st;
      tokens := tokens st;
      gas_price := gas_price st;
      protocol_sync_status := protocol_sync_status st;
      last_updated := last_updated st;
      unsynced_protocols := unsynced_protocols st;
      unsynced_pools :=
        if is_new && bool_decide (system ∈ unsynced_protocols st)
        then {[ id ]} ∪ unsynced_pools st else unsynced_pools st;
      components_by_protocol :=
        <[system := {[ id ]} ∪ system_components st system]> (components_by_protocol st);
      constraint_generation :=
        if is_new then wrapping_succ (constraint_generation st) else constraint_generation st |},
   upserted).

Definition upsert_components st (cs : list ProtocolComponent) : MarketState * UpsertedComponents :=
  fold_left upsert_component cs (st, {| up_new := []; up_reshaped := [] |}).

Definition set_tokens st (ts : gmap Address Token) : MarketState := {|
  label := label st; components := components st; simulation_states := simulation_states st;
  tokens := ts;
  gas_price := gas_price st; protocol_sync_status := protocol_sync_status st;
  last_updated := last_updated st; unsynced_protocols := unsynced_protocols st;
  unsynced_pools := unsynced_pools st; components_by_protocol := components_by_protocol st;
  constraint_generation := constraint_generation st |}.

Definition set_simulation_states st (sims : gmap ComponentId ProtocolSim) : MarketState := {|
  label := label st; components := components st;
  simulation_states := sims;
  tokens := tokens st;
  gas_price := gas_price st; protocol_sync_status := protocol_sync_status st;
  last_updated := last_updated st; unsynced_protocols := unsynced_protocols st;
  unsynced_pools := unsynced_pools st; components_by_protocol := components_by_protocol st;
  constraint_generation := constraint_generation st |}.

Definition upsert_tokens st (ts : list Token) : MarketState :=
  set_tokens st (fold_left (fun m token => <[token_address_of token := token]> m) ts (tokens st)).

Definition update_states st (states : list (ComponentId * ProtocolSim)) : MarketState :=
  set_simulation_states st
    (fold_left (fun m (kv : ComponentId * ProtocolSim) => <[kv.1 := kv.2]> m) states (simulation_states st)).

Definition update_gas_price st (price : BlockGasPrice) : MarketState := {|
  label := label st; components := components st; simulation_states := simulation_states st;
  tokens := tokens st;
  gas_price := Some price;
  protocol_sync_status := protocol_sync_status st;
  last_updated := last_updated st; unsynced_protocols := unsynced_protocols st;
  unsynced_pools := unsynced_pools st; components_by_protocol := components_by_protocol st;
  constraint_generation := constraint_generation st |}.

Definition set_label st (l : StateLabel) : MarketState := {|
  label := l;
  components := components st; simulation_states := simulation_states st; tokens := tokens st;
  gas_price := gas_price st; protocol_sync_status := protocol_sync_status st;
  last_updated := last_updated st; unsynced_protocols := unsynced_protocols st;
  unsynced_pools := unsynced_pools st; components_by_protocol := components_by_protocol st;
  constraint_generation := constraint_generation st |}.

Definition remove_component st id : MarketState :=
  match components st !! id with
  | None => set_simulation_states st (delete id (simulation_states st))
  | Some stored => {|
      label := label st;
      components := delete id (components st);
      simulation_states := delete id (simulation_states st);
      tokens := tokens st;
      gas_price := gas_price st;
      protocol_sync_status := protocol_sync_status st;
      last_updated := last_updated st;
      unsynced_protocols := unsynced_protocols st;
      unsynced_pools :=
        if bool_decide (id ∈ unsynced_pools st) then unsynced_pools st ∖ {[ id ]}
        else unsynced_pools st;
      components_by_protocol :=
        match components_by_protocol st !! protocol_system_of (sc_component stored) with
        | Some ids =>
            <[protocol_system_of (sc_component stored) := ids ∖ {[ id ]}]> (components_by_protocol st)
        | None => components_by_protocol st
        end;
      constraint_generation := wrapping_succ (constraint_generation st) |}
  end.

Definition remove_components st (ids : list ComponentId) : MarketState :=
  fold_left remove_component ids st.

(** ** Synchronization *)

(** [max_sync_lag] in nanoseconds. *)
Definition is_unsynced (status : SynchronizerState) (last_updated_timestamp : option N)
    (max_sync_lag : N) : bool :=
  match status with
  | SS_Started | SS_Ready _ | SS_Advanced _ => false
  | SS_Stale _ | SS_Ended _ => true
  | SS_Delayed header =>
      match last_updated_timestamp with
      | None => false
      | Some last_updated => max_sync_lag <? (last_updated - bh_timestamp header) * 1000000000
      end
  end.

Definition unsynced_systems st (max_sync_lag : N) : gset string :=
  dom (filter (fun kv : string * SynchronizerState =>
         is_unsynced kv.2 (block_timestamp <$> last_updated st) max_sync_lag = true)
       (protocol_sync_status st)).

Definition refresh_unsynced_protocols st (max_sync_lag : N) : MarketState :=
  let unsynced := unsynced_systems st max_sync_lag in
  if decide (unsynced = unsynced_protocols st) then st
  else {|
    label := label st; components := components st; simulation_states := simulation_states st;
    tokens := tokens st; gas_price := gas_price st;
    protocol_sync_status := protocol_sync_status st; last_updated := last_updated st;
    unsynced_protocols := unsynced;
    unsynced_pools :=
      fold_left (fun pools system => pools ∪ system_components st system) (elements unsynced) ∅;
    components_by_protocol := components_by_protocol st;
    constraint_generation := wrapping_succ (constraint_generation st) |}.

(** The newest [Ready] header of an update; the first one among equals. *)
Definition newer_ready (newest : option BlockInfo) (status : SynchronizerState) : option BlockInfo :=
  match status with
  | SS_Ready header =>
      let info := {| block_number := bh_number header; block_hash := bh_hash header;
                     block_timestamp := bh_timestamp header |} in
      match newest with
      | None => Some info
      | Some b => if block_number b <? bh_number header then Some info else Some b
      end
  | _ => newest
  end.

Definition set_sync st (status : gmap string SynchronizerState) (block : option BlockInfo)
    : MarketState := {|
  label := label st; components := components st; simulation_states := simulation_states st;
  tokens := tokens st; gas_price := gas_price st;
  protocol_sync_status := status;
  last_updated := block;
  unsynced_protocols := unsynced_protocols st; unsynced_pools := unsynced_pools st;
  components_by_protocol := components_by_protocol st;
  constraint_generation := constraint_generation st |}.

Definition update_sync_status st (sync_states : list (string * SynchronizerState))
    (max_sync_lag : N) : MarketState :=
  let newest_ready := fold_left (fun newest (kv : string * SynchronizerState) => newer_ready newest kv.2)
                        sync_states None in
  let status := fold_left (fun m (kv : string * SynchronizerState) => <[kv.1 := kv.2]> m)
                  sync_states (protocol_sync_status st) in
  match sync_states with
  | [] => st
  | _ => refresh_unsynced_protocols
           (set_sync st status (match newest_ready with
                                | Some block => Some block
                                | None => last_updated st
                                end)) max_sync_lag
  end.

(** ** Subsets *)

Definition index_component (index : gmap string (gset ComponentId)) (kv : ComponentId * StoredComponent)
    : gmap string (gset ComponentId) :=
  let system := protocol_system_of (sc_component kv.2) in
  <[system := {[ kv.1 ]} ∪ default ∅ (index !! system)]> index.

Definition index_by_protocol (cs : gmap ComponentId StoredComponent) : gmap string (gset ComponentId) :=
  fold_left index_component (map_to_list cs) ∅.

(** One component of the subset: itself, its state, and the addresses of its tokens. *)
Definition subset_component st
    (acc : gmap ComponentId StoredComponent * gmap ComponentId ProtocolSim * gset Address) id
    : gmap ComponentId StoredComponent * gmap ComponentId ProtocolSim * gset Address :=
  let '(cs, sims, addresses) := acc in
  let '(cs, addresses) :=
    match components st !! id with
    | Some stored =>
        (<[id := stored]> cs,
         addresses ∪ list_to_set (component_tokens_of (sc_component stored)))
    | None => (cs, addresses)
    end in
  (cs, match simulation_states st !! id with Some sim => <[id := sim]> sims | None => sims end, addresses).

Definition subset_token st (ts : gmap Address Token) (address : Address) : gmap Address Token :=
  match tokens st !! address with Some token => <[address := token]> ts | None => ts end.

Definition MarketState_extract_subset st (component_ids : gset ComponentId) : MarketState :=
  let '(cs, sims, addresses) :=
    fold_left (subset_component st) (elements component_ids) (∅, ∅, ∅) in {|
  label := label st;
  components := cs;
  simulation_states := sims;
  tokens := fold_left (subset_token st) (elements addresses) ∅;
  gas_price := gas_price st;
  protocol_sync_status := ∅;
  last_updated := last_updated st;
  unsynced_protocols := unsynced_protocols st;
  unsynced_pools := unsynced_pools st;
  components_by_protocol := index_by_protocol cs;
  constraint_generation := constraint_generation st |}.

(** [HashMap::extend]: the second map's entries win. *)
Definition merge_subset st (other : MarketState) : MarketState := {|
  label := label st;
  components := components other ∪ components st;
  simulation_states := simulation_states other ∪ simulation_states st;
  tokens := tokens other ∪ tokens st;
  gas_price := gas_price st; protocol_sync_status := protocol_sync_status st;
  last_updated := last_updated st; unsynced_protocols := unsynced_protocols st;
  unsynced_pools := unsynced_pools st; components_by_protocol := components_by_protocol st;
  constraint_generation := constraint_generation st |}.

(** [slice::chunks] of [S n] elements. *)
Fixpoint chunks_fuel (fuel n : nat) (l : list ComponentId) : list (list ComponentId) :=
  match fuel, l with
  | S fuel, x :: l' => (x :: take n l') :: chunks_fuel fuel n (drop n l')
  | _, _ => []
  end.

Definition chunks (n : nat) (l : list ComponentId) : list (list ComponentId) :=
  chunks_fuel (length l) n l.

(** One attempt: each batch takes its own guard, and the [i]-th guard of the run sees
    [reads i]. The result is the merged snapshot, or [None] when a label differs, and the
    next guard's index. *)
Fixpoint merge_batches (reads : nat -> MarketState) (i : nat) (merged : option MarketState)
    (batches : list (list ComponentId)) : option MarketState * nat :=
  match batches with
  | [] => (Some (default MarketState_new merged), i)
  | chunk :: batches =>
      let part := MarketState_extract_subset (reads i) (list_to_set chunk) in
      match merged with
      | None => merge_batches reads (S i) (Some part) batches
      | Some snapshot =>
          if decide (label part = label snapshot)
          then merge_batches reads (S i) (Some (merge_subset snapshot part)) batches
          else (None, S i)
      end
  end.

Fixpoint batched_attempts (reads : nat -> MarketState) (attempts i : nat)
    (batches : list (list ComponentId)) : option MarketState * nat :=
  match attempts with
  | O => (None, i)
  | S attempts =>
      match merge_batches reads i None batches with
      | (Some snapshot, i) => (Some snapshot, i)
      | (None, i) => batched_attempts reads attempts i batches
      end
  end.

(** [batch_size] is [S n]. *)
Definition extract_subset_in_batches (reads : nat -> MarketState) (component_ids : gset ComponentId)
    (n : nat) : MarketState :=
  if decide (component_ids = ∅) then MarketState_extract_subset (reads O) component_ids
  else match batched_attempts reads 3 O (chunks n (elements component_ids)) with
       | (Some snapshot, _) => snapshot
       | (None, i) => MarketState_extract_subset (reads i) component_ids
       end.

Definition extract_subset_batched (reads : nat -> MarketState) (component_ids : gset ComponentId)
    : MarketState := extract_subset_in_batches reads component_ids 511.
End market_state.

(** ** Overlays *)

Record OverlayEntry `{Tycho} := {
  oe_states : gmap ComponentId ProtocolSim;
  oe_valid_until : N;
}.

Record MarketData `{TychoMarket} := {
  md_data : MarketState;
  md_overlays : gmap StateLabel OverlayEntry;
}.

Record MarketDataView `{TychoMarket} := {
  view_guard : MarketState;
  view_overlay : option (StateLabel * gmap ComponentId ProtocolSim);
}.

Section market_data.
Context `{TychoMarket}.
Implicit Types (md : MarketData) (view : MarketDataView).

Definition set_overlays md (overlays : gmap StateLabel OverlayEntry) : MarketData :=
  {| md_data := md_data md; md_overlays := overlays |}.

Definition set_data md (st : MarketState) : MarketData :=
  {| md_data := st; md_overlays := md_overlays md |}.

Definition read md : MarketDataView := {| view_guard := md_data md; view_overlay := None |}.

(** The base guard is taken first; [overlays] is what the overlay lock shows while it is
    held. [None] is the label that is not found. *)
Definition view_of_label (guard : MarketState) (overlays : gmap StateLabel OverlayEntry)
    (l : StateLabel) : option MarketDataView :=
  match overlays !! l with
  | Some e => Some {| view_guard := guard; view_overlay := Some (l, oe_states e) |}
  | None => if decide (label guard = l) then Some {| view_guard := guard; view_overlay := None |}
            else None
  end.

Definition read_labeled md (l : StateLabel) : option MarketDataView :=
  view_of_label (md_data md) (md_overlays md) l.

Definition register_labeled_state md (l : StateLabel) (states : gmap ComponentId ProtocolSim)
    (valid_until : N) : MarketData :=
  set_overlays md (<[l := {| oe_states := states; oe_valid_until := valid_until |}]> (md_overlays md)).

Definition remove_labeled_state md (l : StateLabel) : MarketData :=
  set_overlays md (delete l (md_overlays md)).

Definition clear_labeled_states md : MarketData := set_overlays md ∅.

(** The two halves of [apply_block_update]: each runs under its own lock. *)
Definition evict_overlays md (new_block_number : N) : MarketData :=
  set_overlays md (filter (fun kv => new_block_number <= oe_valid_until kv.2) (md_overlays md)).

Definition commit_block md (new_block_number : N) (update : MarketState -> MarketState) : MarketData :=
  set_data md (update (set_label (md_data md) (pretty new_block_number))).

Definition apply_block_update md (new_block_number : N) (update : MarketState -> MarketState)
    : MarketData :=
  commit_block (evict_overlays md new_block_number) new_block_number update.

Definition view_get_simulation_state view (id : ComponentId) : option ProtocolSim :=
  match view_overlay view with
  | Some (_, states) =>
      match states !! id with
      | Some s => Some s
      | None => simulation_states (view_guard view) !! id
      end
  | None => simulation_states (view_guard view) !! id
  end.

Definition overlay_state (sims : gmap ComponentId ProtocolSim) (kv : ComponentId * ProtocolSim)
    : gmap ComponentId ProtocolSim :=
  match sims !! kv.1 with Some _ => <[kv.1 := kv.2]> sims | None => sims end.

Definition extract_subset_with_overlay view (component_ids : gset ComponentId) : MarketState :=
  let subset := MarketState_extract_subset (view_guard view) component_ids in
  match view_overlay view with
  | None => subset
  | Some (l, states) =>
      set_label (set_simulation_states subset
        (fold_left overlay_state (map_to_list states) (simulation_states subset))) l
  end.
End market_data.

(** ** The constraint cache of a request *)

Section constraint_cache.
Context `{TychoMarket}.

(** The cache holds a generation and what the filter resolved to at it. *)
Definition resolve_constraints (st : MarketState) (filter : RouteConstraints)
    (cache : option (N * ResolvedRouteConstraints))
    : ResolvedRouteConstraints * option (N * ResolvedRouteConstraints) :=
  let generation := constraint_generation st in
  match cache with
  | Some (cached_generation, constraints) =>
      if cached_generation =? generation then (constraints, cache)
      else let constraints := resolve_route_filter st filter in
           (constraints, Some (generation, constraints))
  | None => let constraints := resolve_route_filter st filter in
            (constraints, Some (generation, constraints))
  end.
End constraint_cache.

(** ** The market the derived computations read *)

Definition market_view `{TychoMarket}
    (price : ProtocolSim -> Token -> Token -> result string f64) (st : MarketState) : Market := {|
  tokens_of := fun id => component_tokens_of <$> get_component st id;
  SpotPriceComputation.swap_directions_of := market_swap_directions_of st;
  get_simulation_state := fun id => simulation_states st !! id;
  token_registry := fun a => tokens st !! a;
  spot_price := price |}.
