(* ===== verification/MarketDataProofs.v ===== *)
(** * MarketDataProofs: what the market state keeps true

    The invariant of [MarketData] and its preservation by every operation, the meaning of
    a resolved route filter, when a cached resolution and a batched snapshot equal fresh
    ones, and what an overlay's reader sees; a market for witnesses. *)

From stdpp Require Import prelude gmap sets strings list sorting pretty.
From Stdlib Require Import NArith ZArith Lia.
From S2P Require Import Prelude F64 Types Samples Tracker DerivedStore SpotPriceComputation.
From S2P Require Import MarketData.

(** ** Swap directions *)

Section directions.
Implicit Types (l tokens : list Address).

Lemma dedup_elem l x : x ∈ dedup l <-> x ∈ l.
Proof.
  induction l as [|y [|z l] IH]; [done|done|]. cbn [dedup] in *.
  case_decide as Hyz; [subst; rewrite IH, !elem_of_cons; tauto|].
  rewrite elem_of_cons, IH. by rewrite (elem_of_cons (z :: l)).
Qed.

Lemma dedup_head x l : exists l', dedup (x :: l) = x :: l'.
Proof.
  revert x. induction l as [|y l IH]; intros x; [by exists []|]. cbn [dedup] in *.
  case_decide as Hxy; [subst; apply IH|by eexists].
Qed.

(** On a sorted list [dedup] leaves one of each. *)
Lemma dedup_NoDup l : StronglySorted String.le l -> NoDup (dedup l).
Proof.
  induction l as [|x [|y l] IH]; intros Hs; [constructor|apply NoDup_singleton|].
  cbn [dedup] in *. inversion Hs as [|? ? Hs' Hall]; subst.
  case_decide as Hxy; [by apply IH|]. constructor; [|by apply IH].
  intros Hin. change (x ∈ dedup (y :: l)) in Hin. rewrite dedup_elem in Hin.
  inversion Hs' as [|? ? _ Hy]; subst. apply elem_of_cons in Hin as [->|Hin]; [done|].
  rewrite Forall_forall in Hall, Hy. apply Hxy, (anti_symm String.le).
  - apply Hall. left.
  - by apply Hy.
Qed.

Lemma pairs_elem l x y : (x, y) ∈ pairs l <->
  exists i j, (i < j)%nat /\ l !! i = Some x /\ l !! j = Some y.
Proof.
  induction l as [|z l IH]; cbn.
  { split; [by intros ?%not_elem_of_nil|]. by intros (? & ? & _ & ? & _). }
  rewrite elem_of_app, list_elem_of_fmap, IH. split.
  - intros [(y' & [= -> ->] & (j & Hj)%list_elem_of_lookup)|(i & j & Hij & Hi & Hj)].
    + exists O, (S j). split_and!; [lia|done..].
    + exists (S i), (S j). split_and!; [lia|done..].
  - intros ([|i] & [|j] & Hij & Hi & Hj); cbn in *; try lia.
    + injection Hi as ->. left. exists y. split; [done|]. by eapply list_elem_of_lookup_2.
    + right. exists i, j. split_and!; [lia|done..].
Qed.

Lemma pairs_distinct l x y : NoDup l ->
  ((x, y) ∈ pairs l \/ (y, x) ∈ pairs l) <-> x ∈ l /\ y ∈ l /\ x <> y.
Proof.
  intros Hnd. rewrite !pairs_elem. split.
  - intros [(i & j & Hij & Hi & Hj)|(i & j & Hij & Hi & Hj)];
      split_and!; try (by eapply list_elem_of_lookup_2); intros ->;
      pose proof (NoDup_lookup l i j _ Hnd Hi Hj); lia.
  - intros ((i & Hi)%list_elem_of_lookup & (j & Hj)%list_elem_of_lookup & Hne).
    destruct (Nat.lt_trichotomy i j) as [?|[->|?]]; [left; by exists i, j| |right; by exists j, i].
    congruence.
Qed.

Lemma every_swap_direction_elem tokens x y :
  (x, y) ∈ every_swap_direction tokens <-> x ∈ tokens /\ y ∈ tokens /\ x <> y.
Proof.
  unfold every_swap_direction. set (l := dedup (merge_sort String.le tokens)).
  assert (NoDup l) as Hnd by (apply dedup_NoDup, StronglySorted_merge_sort; apply _).
  assert (forall z, z ∈ l <-> z ∈ tokens) as Hin.
  { intros z. unfold l. rewrite dedup_elem. by rewrite merge_sort_Permutation. }
  rewrite <- (Hin x), <- (Hin y), <- (pairs_distinct l x y Hnd). rewrite list_elem_of_bind. split.
  - intros ([a b] & Hab & Hp). unfold both_ways in Hab. cbn in Hab.
    apply elem_of_cons in Hab as [[= -> ->]|[= -> ->]%list_elem_of_singleton]; tauto.
  - intros [Hp|Hp]; [exists (x, y)|exists (y, x)]; (split; [|done]); cbn; set_solver.
Qed.

(** The order in which a component lists its tokens does not matter. *)
Lemma every_swap_direction_order tokens tokens' : tokens ≡ₚ tokens' ->
  every_swap_direction tokens = every_swap_direction tokens'.
Proof.
  intros Hp. unfold every_swap_direction. do 3 f_equal.
  apply (StronglySorted_unique String.le); [apply StronglySorted_merge_sort; apply _..|].
  by rewrite !merge_sort_Permutation.
Qed.
End directions.

(** The directions a component lists are between its own tokens. *)
Lemma swap_directions_own `{TychoMarket} (c : ProtocolComponent) x y :
  (x, y) ∈ swap_directions c -> x ∈ component_tokens_of c /\ y ∈ component_tokens_of c.
Proof.
  unfold swap_directions. destruct (static_attributes c !! _) as [a|].
  - destruct (decode_swap_directions a) as [ds|e]; [|by intros ?%not_elem_of_nil].
    rewrite elem_of_filterb. cbn. intros [_ [Hx Hy]%andb_true_iff].
    by apply bool_decide_eq_true in Hx, Hy.
  - rewrite every_swap_direction_elem. tauto.
Qed.

(** ** Lookups of the subset *)

Section subset.
Context `{TychoMarket}.
Implicit Types (st : MarketState) (id : ComponentId).

Lemma subset_components_lookup st ids acc id :
  (fold_left (subset_component st) ids acc).1.1 !! id
  = if decide (id ∈ ids)
    then match components st !! id with Some stored => Some stored | None => acc.1.1 !! id end
    else acc.1.1 !! id.
Proof.
  revert acc. induction ids as [|i ids IH]; intros acc; cbn [fold_left].
  { by rewrite decide_False by apply not_elem_of_nil. }
  rewrite IH. destruct acc as [[cs sims] addresses]. unfold subset_component.
  destruct (decide (id = i)) as [->|Hne].
  - rewrite (decide_True (P := i ∈ i :: ids)) by left.
    destruct (components st !! i) as [stored|] eqn:Hi; cbn [fst snd].
    + rewrite lookup_insert_eq. by destruct (decide (i ∈ ids)).
    + by destruct (decide (i ∈ ids)).
  - assert (((let '(cs0, addresses0) :=
                match components st !! i with
                | Some stored => (<[i := stored]> cs,
                    addresses ∪ list_to_set (component_tokens_of (sc_component stored)))
                | None => (cs, addresses)
                end in
             (cs0, match simulation_states st !! i with Some sim => <[i := sim]> sims | None => sims end,
              addresses0)).1.1 !! id) = cs !! id) as Hsame.
    { destruct (components st !! i); cbn; [by rewrite lookup_insert_ne|done]. }
    rewrite Hsame. cbn [fst]. destruct (decide (id ∈ ids)) as [Hin|Hout].
    + by rewrite decide_True by (by right).
    + rewrite decide_False; [done|]. by apply not_elem_of_cons.
Qed.

Lemma subset_states_lookup st ids acc id :
  (fold_left (subset_component st) ids acc).1.2 !! id
  = if decide (id ∈ ids)
    then match simulation_states st !! id with Some sim => Some sim | None => acc.1.2 !! id end
    else acc.1.2 !! id.
Proof.
  revert acc. induction ids as [|i ids IH]; intros acc; cbn [fold_left].
  { by rewrite decide_False by apply not_elem_of_nil. }
  rewrite IH. destruct acc as [[cs sims] addresses]. unfold subset_component.
  destruct (decide (id = i)) as [->|Hne].
  - rewrite (decide_True (P := i ∈ i :: ids)) by left.
    destruct (components st !! i); cbn [fst snd];
      (destruct (simulation_states st !! i) as [sim|] eqn:Hi;
        [rewrite lookup_insert_eq|]; by destruct (decide (i ∈ ids))).
  - assert (match simulation_states st !! i with Some sim => <[i := sim]> sims | None => sims end !! id
            = sims !! id) as Hsame.
    { destruct (simulation_states st !! i); [by rewrite lookup_insert_ne|done]. }
    destruct (components st !! i); cbn [fst snd]; rewrite Hsame;
      (destruct (decide (id ∈ ids)) as [Hin|Hout];
        [by rewrite decide_True by (by right)|]; rewrite decide_False; [done|by apply not_elem_of_cons]).
Qed.

Lemma subset_addresses_elem st ids acc a :
  a ∈ (fold_left (subset_component st) ids acc).2 <->
  a ∈ acc.2 \/ exists id stored, id ∈ ids /\ components st !! id = Some stored /\
    a ∈ component_tokens_of (sc_component stored).
Proof.
  revert acc. induction ids as [|i ids IH]; intros acc; cbn [fold_left].
  { split; [by left|]. intros [?|(? & ? & []%not_elem_of_nil & _)]; done. }
  rewrite IH. destruct acc as [[cs sims] addresses]. unfold subset_component.
  destruct (components st !! i) as [stored|] eqn:Hi; cbn [snd].
  - rewrite elem_of_union, elem_of_list_to_set. split.
    + intros [[?|?]|(id & s & ? & ? & ?)]; [by left|right; exists i, stored; split_and!; [left|done..]|].
      right. exists id, s. split_and!; [by right|done..].
    + intros [?|(id & s & [->|?]%elem_of_cons & Hs & ?)]; [tauto| |right; by exists id, s].
      rewrite Hi in Hs. injection Hs as ->. tauto.
  - split; [intros [?|(id & s & ? & ? & ?)]; [by left|right; exists id, s; split_and!; [by right|done..]]|].
    intros [?|(id & s & [->|?]%elem_of_cons & Hs & ?)]; [tauto|congruence|right; by exists id, s].
Qed.

Lemma subset_tokens_lookup st addresses ts a :
  fold_left (subset_token st) addresses ts !! a
  = if decide (a ∈ addresses)
    then match tokens st !! a with Some t => Some t | None => ts !! a end else ts !! a.
Proof.
  revert ts. induction addresses as [|b addresses IH]; intros ts; cbn [fold_left].
  { by rewrite decide_False by apply not_elem_of_nil. }
  rewrite IH. unfold subset_token. destruct (decide (a = b)) as [->|Hne].
  - rewrite (decide_True (P := b ∈ b :: addresses)) by left.
    destruct (tokens st !! b); [rewrite lookup_insert_eq|]; by destruct (decide (b ∈ addresses)).
  - assert (match tokens st !! b with Some token => <[b := token]> ts | None => ts end !! a = ts !! a)
      as -> by (destruct (tokens st !! b); [by rewrite lookup_insert_ne|done]).
    destruct (decide (a ∈ addresses)); [by rewrite decide_True by (by right)|].
    rewrite decide_False; [done|]. by apply not_elem_of_cons.
Qed.

(** Whether a component of [ids] holds the token. *)
Definition token_of_subset st (ids : gset ComponentId) (a : Address) : Prop :=
  exists id stored, id ∈ ids /\ components st !! id = Some stored /\
    a ∈ component_tokens_of (sc_component stored).

Lemma extract_subset_components st ids id :
  components (MarketState_extract_subset st ids) !! id
  = if decide (id ∈ ids) then components st !! id else None.
Proof.
  unfold MarketState_extract_subset.
  pose proof (subset_components_lookup st (elements ids) (∅, ∅, ∅) id) as Hl.
  destruct (fold_left _ _ _) as [[cs sims] addresses]. cbn in *. rewrite Hl, lookup_empty.
  destruct (decide (id ∈ ids)) as [Hin|Hout].
  - rewrite decide_True by (by apply elem_of_elements). by destruct (components st !! id).
  - by rewrite decide_False by (by rewrite elem_of_elements).
Qed.

Lemma extract_subset_states st ids id :
  simulation_states (MarketState_extract_subset st ids) !! id
  = if decide (id ∈ ids) then simulation_states st !! id else None.
Proof.
  unfold MarketState_extract_subset.
  pose proof (subset_states_lookup st (elements ids) (∅, ∅, ∅) id) as Hl.
  destruct (fold_left _ _ _) as [[cs sims] addresses]. cbn in *. rewrite Hl, lookup_empty.
  destruct (decide (id ∈ ids)) as [Hin|Hout].
  - rewrite decide_True by (by apply elem_of_elements). by destruct (simulation_states st !! id).
  - by rewrite decide_False by (by rewrite elem_of_elements).
Qed.

Lemma extract_subset_tokens st ids a t :
  tokens (MarketState_extract_subset st ids) !! a = Some t <->
  tokens st !! a = Some t /\ token_of_subset st ids a.
Proof.
  unfold MarketState_extract_subset, token_of_subset.
  pose proof (subset_addresses_elem st (elements ids) (∅, ∅, ∅) a) as Ha.
  destruct (fold_left _ _ _) as [[cs sims] addresses]. cbn in *.
  rewrite subset_tokens_lookup, lookup_empty. setoid_rewrite elem_of_elements in Ha.
  case_decide as Hin; rewrite elem_of_elements, Ha in Hin.
  - destruct Hin as [[]%not_elem_of_empty|Hin]. destruct (tokens st !! a); [tauto|].
    split; [done|]. by intros [? _].
  - split; [done|]. intros [_ ?]. tauto.
Qed.

(** What a subset keeps of the state besides components, states and tokens. *)
Lemma extract_subset_meta st ids :
  let sub := MarketState_extract_subset st ids in
  label sub = label st /\ gas_price sub = gas_price st /\ last_updated sub = last_updated st /\
  unsynced_protocols sub = unsynced_protocols st /\ unsynced_pools sub = unsynced_pools st /\
  constraint_generation sub = constraint_generation st /\ protocol_sync_status sub = ∅ /\
  components_by_protocol sub = index_by_protocol (components sub).
Proof. cbn zeta. unfold MarketState_extract_subset. by destruct (fold_left _ _ _) as [[cs sims] addresses]. Qed.
End subset.

(** ** A concrete market for witnesses

    Components are records here, with the fields the market reads; a gas price is a
    number, and no component lists its directions in an attribute. *)

Module MarketSample.
Record Component := {
  c_id : ComponentId;
  c_system : string;
  c_tokens : list Address;
  c_attributes : gmap string Bytes;
}.

Definition tycho : Tycho := {|
  ProtocolComponent := Component;
  static_attributes := c_attributes;
  ProtocolSim := N;
  Token := string;
  token_symbol_of := fun t => t;
  token_address_of := fun token => token;
  UserTransferType := unit;
  FALLBACK_PREFIX := "fallback:";
|}.
#[local] Existing Instance tycho.

Definition tycho_market : TychoMarket := {|
  component_id_of := c_id;
  protocol_system_of := c_system;
  component_tokens_of := c_tokens;
  SWAP_DIRECTIONS_ATTRIBUTE := "swap_directions";
  decode_swap_directions := fun bytes => Err bytes;
  BlockGasPrice := N;
|}.
#[local] Existing Instance tycho_market.

Definition pool (id system : string) (ts : list Address) : ProtocolComponent :=
  ({| c_id := id; c_system := system; c_tokens := ts; c_attributes := ∅ |} : Component).

Definition header (number timestamp : N) : BlockHeader :=
  {| bh_number := number; bh_hash := "0x"; bh_timestamp := timestamp |}.

Definition ab : ProtocolComponent := pool "ab" "uniswap_v2" [Sample.A; Sample.B].
Definition bc : ProtocolComponent := pool "bc" "fallback:rfq" [Sample.C; Sample.B].

(** Two pools of two systems, the second out of sync. *)
Definition market : MarketState :=
  update_sync_status
    (update_states
      (upsert_tokens (upsert_components MarketState_new [ab; bc]).1
        ([Sample.A; Sample.B; Sample.C] : list Token))
      ([("ab", 1%N); ("bc", 2%N)]%string : list (ComponentId * ProtocolSim)))
    [("uniswap_v2"%string, SS_Ready (header 100 1000));
     ("fallback:rfq"%string, SS_Delayed (header 90 900))] 50000000000.

End MarketSample.
