(* ===== verification/MarketInvariant.v ===== *)
(** * MarketInvariant: what every operation on the market state keeps true

    [market_ok] says what the redundant parts of [MarketState] mean: components are stored
    under their own id, the index by protocol system is the component map grouped by
    system, the unsynced pools are the components of the unsynced systems, and those are
    the systems whose last status is out of sync. Every operation keeps it, and the
    constraint generation moves whenever what a route filter resolves to can change. *)

From stdpp Require Import prelude gmap sets strings list sorting pretty.
From Stdlib Require Import NArith ZArith Lia.
From S2P Require Import Prelude F64 Types Quote Tracker DerivedStore SpotPriceComputation.
From S2P Require Import MarketData MarketDataProofs.

Section invariant.
Context `{TychoMarket} (max_sync_lag : N).
Implicit Types (st : MarketState) (id : ComponentId) (c : ProtocolComponent).

(** [id] is a component of [system]. *)
Definition in_system st (system : string) id : Prop :=
  exists stored, components st !! id = Some stored /\
    protocol_system_of (sc_component stored) = system.

Record market_ok st : Prop := {
  mk_keys : forall id stored, components st !! id = Some stored ->
    component_id_of (sc_component stored) = id /\
    sc_swap_directions stored = swap_directions (sc_component stored);
  mk_index : forall system id, id ∈ system_components st system <-> in_system st system id;
  mk_pools : forall id, id ∈ unsynced_pools st <->
    exists system, system ∈ unsynced_protocols st /\ in_system st system id;
  mk_tokens : forall a t, tokens st !! a = Some t -> token_address_of t = a;
  mk_sync : unsynced_protocols st = unsynced_systems st max_sync_lag;
  mk_generation : constraint_generation st <= u64_MAX;
}.

(** An upsert that keeps the protocol system of a component the market holds. *)
Definition upsert_fits st c : Prop :=
  forall stored, components st !! component_id_of c = Some stored ->
    protocol_system_of (sc_component stored) = protocol_system_of c.

Definition upserts_fit st (cs : list ProtocolComponent) : Prop :=
  Forall (upsert_fits st) cs /\
  forall c c', c ∈ cs -> c' ∈ cs -> component_id_of c = component_id_of c' ->
    protocol_system_of c = protocol_system_of c'.

(** What a route filter resolves to, as far as the market decides it. *)
Definition same_constraints st st' : Prop :=
  (forall system, system_components st system = system_components st' system) /\
  unsynced_pools st = unsynced_pools st'.

#[export] Instance same_constraints_equivalence : Equivalence same_constraints.
Proof.
  split; [by split| |].
  - intros st st' [Hi Hp]. by split.
  - intros st1 st2 st3 [Hi Hp] [Hi' Hp']. split; [intros s; by rewrite Hi|congruence].
Qed.

(** The generation moves by at most [n], and the constraints only with it. *)
Definition advances (n : N) st st' : Prop :=
  exists k, k <= n /\
    constraint_generation st' = (constraint_generation st + k) mod (u64_MAX + 1) /\
    (k = 0 -> same_constraints st st').

Lemma advances_trans n m st st' st'' :
  advances n st st' -> advances m st' st'' -> advances (n + m) st st''.
Proof.
  intros (k & Hk & Hg & Hs) (k' & Hk' & Hg' & Hs'). exists (k + k'). split; [lia|]. split.
  - rewrite Hg', Hg. rewrite N.Div0.add_mod_idemp_l. f_equal. lia.
  - intros Hz. etransitivity; [apply Hs|apply Hs']; lia.
Qed.

(** ** The state after each operation *)

Lemma wrapping_succ_bound n : wrapping_succ n <= u64_MAX.
Proof. unfold wrapping_succ, u64_MAX. pose proof (N.mod_lt (n + 1) (18446744073709551615 + 1)). lia. Qed.

Lemma unsynced_systems_ext st st' :
  protocol_sync_status st = protocol_sync_status st' -> last_updated st = last_updated st' ->
  unsynced_systems st max_sync_lag = unsynced_systems st' max_sync_lag.
Proof. unfold unsynced_systems. by intros -> ->. Qed.

Definition upsert_state st c : MarketState :=
  (upsert_component (st, {| up_new := []; up_reshaped := [] |}) c).1.

Lemma upsert_component_state st u c : (upsert_component (st, u) c).1 = upsert_state st c.
Proof. unfold upsert_state, upsert_component. by repeat case_match. Qed.

(** The list an upsert reports a component in. *)
Lemma upsert_component_report st u c :
  let u' := (upsert_component (st, u) c).2 in
  match components st !! component_id_of c with
  | None => up_new u' = up_new u ++ [component_id_of c] /\ up_reshaped u' = up_reshaped u
  | Some stored =>
      up_new u' = up_new u /\
      up_reshaped u' = up_reshaped u ++
        (if decide (sc_swap_directions stored = swap_directions c) then [] else [component_id_of c])
  end.
Proof.
  cbn zeta. unfold upsert_component. destruct (components st !! component_id_of c) as [stored|]; [|done].
  by case_decide; cbn; rewrite ?app_nil_r.
Qed.

Lemma upsert_state_components st c id :
  components (upsert_state st c) !! id
  = if decide (id = component_id_of c)
    then Some {| sc_component := c; sc_swap_directions := swap_directions c |}
    else components st !! id.
Proof.
  unfold upsert_state, upsert_component.
  destruct (match components st !! component_id_of c with Some _ => _ | None => _ end) as [b u].
  cbn. case_decide; subst; [by rewrite lookup_insert_eq|by rewrite lookup_insert_ne].
Qed.

(** Everything an upsert leaves alone. *)
Lemma upsert_state_rest st c :
  let st' := upsert_state st c in
  label st' = label st /\ simulation_states st' = simulation_states st /\ tokens st' = tokens st /\
  protocol_sync_status st' = protocol_sync_status st /\ last_updated st' = last_updated st /\
  unsynced_protocols st' = unsynced_protocols st /\ gas_price st' = gas_price st.
Proof.
  cbn zeta. unfold upsert_state, upsert_component.
  by destruct (match components st !! component_id_of c with Some _ => _ | None => _ end) as [b u].
Qed.

Lemma system_components_insert_elem (m : gmap string (gset ComponentId)) system s id id' :
  id' ∈ default ∅ (<[system := {[ id ]} ∪ default ∅ (m !! system)]> m !! s) <->
  (s = system /\ id' = id) \/ id' ∈ default ∅ (m !! s).
Proof.
  destruct (decide (s = system)) as [->|Hne].
  - rewrite lookup_insert_eq. cbn. set_solver.
  - rewrite lookup_insert_ne by done. set_solver.
Qed.

Lemma upsert_state_index st c s id :
  id ∈ system_components (upsert_state st c) s <->
  (s = protocol_system_of c /\ id = component_id_of c) \/ id ∈ system_components st s.
Proof.
  unfold upsert_state, upsert_component.
  destruct (match components st !! component_id_of c with Some _ => _ | None => _ end) as [b u].
  unfold system_components. cbn. apply system_components_insert_elem.
Qed.

Lemma upsert_state_pools st c id :
  id ∈ unsynced_pools (upsert_state st c) <->
  (components st !! component_id_of c = None /\ protocol_system_of c ∈ unsynced_protocols st /\
   id = component_id_of c) \/ id ∈ unsynced_pools st.
Proof.
  unfold upsert_state, upsert_component.
  destruct (components st !! component_id_of c) as [stored|]; [case_decide|]; cbn.
  1, 2: split; [by right|]; by intros [[? _]|?].
  case_bool_decide; set_solver.
Qed.

Lemma upsert_in_system st c s id : upsert_fits st c ->
  in_system (upsert_state st c) s id <->
  (s = protocol_system_of c /\ id = component_id_of c) \/ in_system st s id.
Proof.
  intros Hfit. unfold in_system. setoid_rewrite upsert_state_components.
  case_decide as Hid; [subst id|split; [tauto|intros [[? ?]|?]; [done|done]]].
  split; [intros (? & [= <-] & <-); by left|].
  intros [[-> _]|(stored & Hs & <-)]; [by eexists|]. eexists. split; [done|]. by rewrite (Hfit _ Hs).
Qed.

Lemma upsert_state_ok st c : market_ok st -> upsert_fits st c -> market_ok (upsert_state st c).
Proof.
  intros Hok Hfit. destruct (upsert_state_rest st c) as (_ & _ & Ht & Hst & Hlu & Hup & _). split.
  - intros id stored. rewrite upsert_state_components. case_decide; [by intros [= <-]|apply (mk_keys _ Hok)].
  - intros s id. rewrite upsert_state_index, upsert_in_system, (mk_index _ Hok) by done. done.
  - intros id. rewrite upsert_state_pools, (mk_pools _ Hok), Hup.
    setoid_rewrite (upsert_in_system st c _ _ Hfit). split.
    + intros [(_ & Hs & ->)|(s & Hs & Hin)]; [by exists (protocol_system_of c); auto|by exists s; auto].
    + intros (s & Hs & [[-> ->]|Hin]); [|by right; exists s].
      destruct (components st !! component_id_of c) as [stored|] eqn:Hc; [right|by left].
      exists (protocol_system_of c). split; [done|]. exists stored. split; [done|]. by apply Hfit.
  - rewrite Ht. apply (mk_tokens _ Hok).
  - rewrite Hup, (mk_sync _ Hok). by apply unsynced_systems_ext.
  - unfold upsert_state, upsert_component.
    destruct (match components st !! component_id_of c with Some _ => _ | None => _ end) as [[] u]; cbn;
      [apply wrapping_succ_bound|apply (mk_generation _ Hok)].
Qed.

Lemma upsert_state_advances st c : market_ok st -> upsert_fits st c ->
  advances 1 st (upsert_state st c).
Proof.
  intros Hok Hfit. pose proof (mk_generation _ Hok) as Hg.
  destruct (components st !! component_id_of c) as [stored|] eqn:Hc.
  - exists 0. split; [lia|]. rewrite N.add_0_r, N.mod_small by lia. split.
    { unfold upsert_state, upsert_component. rewrite Hc. by case_decide. }
    intros _. split.
    + intros s. apply set_eq. intros id. rewrite upsert_state_index. split; [by right|].
      intros [[-> ->]|?]; [|done]. apply (mk_index _ Hok). exists stored. split; [done|]. by apply Hfit.
    + apply set_eq. intros id. rewrite upsert_state_pools, Hc. split; [by right|]. by intros [[? _]|?].
  - exists 1. split; [lia|]. split; [|lia]. unfold upsert_state, upsert_component. by rewrite Hc.
Qed.

(** A batch of upserts, one at a time. *)
Lemma upsert_keeps_fit st c c' : upsert_fits st c' ->
  (component_id_of c = component_id_of c' -> protocol_system_of c = protocol_system_of c') ->
  upsert_fits (upsert_state st c) c'.
Proof.
  intros Hfit Hsame stored. rewrite upsert_state_components.
  case_decide as Heq; [intros [= <-]; cbn; by apply Hsame|apply Hfit].
Qed.

Lemma upsert_components_cons st c cs :
  (upsert_components st (c :: cs)).1 = (upsert_components (upsert_state st c) cs).1.
Proof.
  unfold upsert_components. cbn [fold_left].
  assert (forall a a', a.1 = a'.1 ->
    (fold_left upsert_component cs a).1 = (fold_left upsert_component cs a').1) as Hfst.
  { induction cs as [|c' cs' IH]; intros a a' Ha; [done|]. cbn [fold_left]. apply IH.
    destruct a as [s u], a' as [s' u']. cbn in Ha. subst s'. by rewrite !upsert_component_state. }
  apply Hfst. by rewrite upsert_component_state.
Qed.

Lemma upserts_fit_cons st c cs :
  upserts_fit st (c :: cs) -> upsert_fits st c /\ upserts_fit (upsert_state st c) cs.
Proof.
  intros [Hf Hp]. apply Forall_cons in Hf as [Hc Hf]. split; [done|]. split.
  - rewrite Forall_forall in Hf |- *. intros c' Hc'. apply upsert_keeps_fit; [by apply Hf|].
    apply Hp; [left|by right].
  - intros c1 c2 H1 H2. apply Hp; by right.
Qed.

Lemma upsert_components_ok st cs : market_ok st -> upserts_fit st cs ->
  market_ok (upsert_components st cs).1 /\
  advances (N.of_nat (length cs)) st (upsert_components st cs).1.
Proof.
  revert st. induction cs as [|c cs IH]; intros st Hok Hfit.
  { split; [done|]. exists 0. cbn. pose proof (mk_generation _ Hok).
    rewrite N.add_0_r, N.mod_small by lia. done. }
  apply upserts_fit_cons in Hfit as [Hc Hcs]. rewrite upsert_components_cons.
  destruct (IH (upsert_state st c)) as [Hok' Hadv]; [by apply upsert_state_ok|done|].
  split; [done|]. replace (N.of_nat (length (c :: cs))) with (1 + N.of_nat (length cs)) by (cbn; lia).
  eapply advances_trans; [by apply upsert_state_advances|exact Hadv].
Qed.

(** Operations that leave components and synchronization alone. *)
Lemma advances_frame n st st' : market_ok st ->
  constraint_generation st' = constraint_generation st -> same_constraints st st' -> advances n st st'.
Proof.
  intros Hok Hg Hs. pose proof (mk_generation _ Hok). exists 0.
  rewrite N.add_0_r, N.mod_small by lia. split; [lia|done].
Qed.

Lemma advances_refl n st : constraint_generation st <= u64_MAX -> advances n st st.
Proof. intros Hg. exists 0. rewrite N.add_0_r, N.mod_small by lia. split; [lia|done]. Qed.

Lemma set_tokens_ok st ts : market_ok st ->
  (forall a t, ts !! a = Some t -> token_address_of t = a) -> market_ok (set_tokens st ts).
Proof. intros Hok Hts. destruct Hok. by split. Qed.

Lemma set_simulation_states_ok st sims : market_ok st -> market_ok (set_simulation_states st sims).
Proof. intros Hok. destruct Hok. by split. Qed.

Lemma set_label_ok st l : market_ok st -> market_ok (set_label st l).
Proof. intros Hok. destruct Hok. by split. Qed.

Lemma update_gas_price_ok st price : market_ok st -> market_ok (update_gas_price st price).
Proof. intros Hok. destruct Hok. by split. Qed.

Lemma upsert_tokens_ok st ts : market_ok st -> market_ok (upsert_tokens st ts).
Proof.
  intros Hok. apply set_tokens_ok; [done|].
  apply (fold_left_inv (fun m : gmap Address Token => forall a t, m !! a = Some t -> token_address_of t = a)).
  - apply (mk_tokens _ Hok).
  - intros m token Hm a t. destruct (decide (a = token_address_of token)) as [->|Hne].
    + rewrite lookup_insert_eq. by intros [= ->].
    + rewrite lookup_insert_ne by done. apply Hm.
Qed.

(** Removal. *)
Lemma remove_component_components st i id :
  components (remove_component st i) !! id = if decide (id = i) then None else components st !! id.
Proof.
  unfold remove_component. case_decide as Hid; [subst i|];
    (destruct (components st !! _) as [stored|] eqn:Hi; cbn; [|]).
  - by rewrite lookup_delete_eq.
  - done.
  - by rewrite lookup_delete_ne.
  - done.
Qed.

Lemma remove_component_rest st i :
  let st' := remove_component st i in
  label st' = label st /\ tokens st' = tokens st /\
  simulation_states st' = delete i (simulation_states st) /\
  protocol_sync_status st' = protocol_sync_status st /\ last_updated st' = last_updated st /\
  unsynced_protocols st' = unsynced_protocols st.
Proof. cbn zeta. unfold remove_component. by destruct (components st !! i). Qed.

Lemma remove_in_system st i s id :
  in_system (remove_component st i) s id <-> id <> i /\ in_system st s id.
Proof.
  unfold in_system. setoid_rewrite remove_component_components. case_decide as Hid.
  - split; [by intros (? & ? & _)|by intros [? _]].
  - split; [intros Hs; by split|by intros [_ ?]].
Qed.

Lemma remove_component_index st i s id : market_ok st ->
  id ∈ system_components (remove_component st i) s <-> id <> i /\ id ∈ system_components st s.
Proof.
  intros Hok. unfold remove_component. destruct (components st !! i) as [stored|] eqn:Hi.
  - assert (forall s', i ∈ system_components st s' -> s' = protocol_system_of (sc_component stored)) as Honly.
    { intros s' (stored' & Hs' & <-)%(mk_index _ Hok). congruence. }
    specialize (Honly s). unfold system_components in *. cbn [components_by_protocol].
    set (sys := protocol_system_of (sc_component stored)) in *.
    destruct (components_by_protocol st !! sys) as [ids|] eqn:Hsys.
    + destruct (decide (s = sys)) as [->|Hne].
      * rewrite lookup_insert_eq, Hsys. cbn. set_solver.
      * rewrite lookup_insert_ne by done. split; [|tauto]. intros Hin. split; [|done].
        intros ->. by apply Hne, Honly.
    + split; [|tauto]. intros Hin. split; [|done]. intros ->. rewrite (Honly Hin), Hsys in Hin.
      by apply not_elem_of_empty in Hin.
  - change (id ∈ system_components st s <-> id <> i /\ id ∈ system_components st s).
    split; [|tauto]. intros Hin. split; [|done]. intros ->.
    apply (mk_index _ Hok) in Hin as (stored & Hs & _). congruence.
Qed.

Lemma remove_component_pools st i id : market_ok st ->
  id ∈ unsynced_pools (remove_component st i) <-> id <> i /\ id ∈ unsynced_pools st.
Proof.
  intros Hok. unfold remove_component. destruct (components st !! i) as [stored|] eqn:Hi; cbn.
  - case_bool_decide; [set_solver|]. split; [|tauto]. intros ?. split; [|done]. by intros ->.
  - split; [|tauto]. intros Hin. split; [|done]. intros ->.
    apply (mk_pools _ Hok) in Hin as (s & _ & stored & Hs & _). congruence.
Qed.

Lemma remove_component_ok st i : market_ok st ->
  market_ok (remove_component st i) /\ advances 1 st (remove_component st i).
Proof.
  intros Hok. destruct (remove_component_rest st i) as (_ & Ht & _ & Hst & Hlu & Hup). split; [split|].
  - intros id stored. rewrite remove_component_components. case_decide; [done|apply (mk_keys _ Hok)].
  - intros s id. by rewrite remove_component_index, remove_in_system, (mk_index _ Hok).
  - intros id. rewrite remove_component_pools, (mk_pools _ Hok), Hup by done.
    setoid_rewrite remove_in_system. split.
    + intros [Hne (s & Hs & Hin)]. by exists s.
    + intros (s & Hs & Hne & Hin). split; [done|]. by exists s.
  - rewrite Ht. apply (mk_tokens _ Hok).
  - rewrite Hup, (mk_sync _ Hok). by apply unsynced_systems_ext.
  - unfold remove_component. destruct (components st !! i); cbn;
      [apply wrapping_succ_bound|apply (mk_generation _ Hok)].
  - unfold remove_component. destruct (components st !! i) as [stored|].
    + exists 1. split; [done|]. split; [done|lia].
    + exists 0. cbn. pose proof (mk_generation _ Hok). rewrite N.add_0_r, N.mod_small by lia.
      split; [lia|done].
Qed.

Lemma remove_components_ok st ids : market_ok st ->
  market_ok (remove_components st ids) /\
  advances (N.of_nat (length ids)) st (remove_components st ids).
Proof.
  unfold remove_components. revert st. induction ids as [|i ids IH]; intros st Hok; cbn [fold_left].
  { split; [done|]. apply advances_refl, (mk_generation _ Hok). }
  destruct (remove_component_ok st i Hok) as [Hok1 Hadv1], (IH _ Hok1) as [Hok2 Hadv2].
  split; [done|]. replace (N.of_nat (length (i :: ids))) with (1 + N.of_nat (length ids)) by (cbn; lia).
  by eapply advances_trans.
Qed.

(** Synchronization. *)
Lemma union_systems_elem st systems pools id :
  id ∈ fold_left (fun pools system => pools ∪ system_components st system) systems pools <->
  id ∈ pools \/ exists s, s ∈ systems /\ id ∈ system_components st s.
Proof.
  revert pools. induction systems as [|s systems IH]; intros pools; cbn [fold_left].
  { split; [by left|]. intros [?|(? & []%not_elem_of_nil & _)]; done. }
  rewrite IH, elem_of_union. setoid_rewrite elem_of_cons. split.
  - intros [[?|?]|(s' & ? & ?)]; [by left|right; by exists s; auto|right; by exists s'; auto].
  - intros [?|(s' & [->|?] & ?)]; [by left; left|by left; right|right; by exists s'].
Qed.

Lemma refresh_ok st :
  (forall id stored, components st !! id = Some stored ->
    component_id_of (sc_component stored) = id /\
    sc_swap_directions stored = swap_directions (sc_component stored)) ->
  (forall system id, id ∈ system_components st system <-> in_system st system id) ->
  (forall id, id ∈ unsynced_pools st <->
    exists system, system ∈ unsynced_protocols st /\ in_system st system id) ->
  (forall a t, tokens st !! a = Some t -> token_address_of t = a) ->
  constraint_generation st <= u64_MAX ->
  let st' := refresh_unsynced_protocols st max_sync_lag in market_ok st' /\ advances 1 st st'.
Proof.
  intros Hkeys Hindex Hpools Htokens Hg. cbn zeta. unfold refresh_unsynced_protocols.
  case_decide as Hsame; [by split; [split|apply advances_refl]|]. split.
  - split; [done|done| |done|done|apply wrapping_succ_bound]. intros id. cbn [unsynced_pools unsynced_protocols].
    rewrite union_systems_elem. setoid_rewrite elem_of_elements. setoid_rewrite Hindex. split.
    + by intros [[]%not_elem_of_empty|?].
    + by right.
  - exists 1. split; [done|]. split; [done|lia].
Qed.

Lemma update_sync_status_ok st sync_states : market_ok st ->
  let st' := update_sync_status st sync_states max_sync_lag in market_ok st' /\ advances 1 st st'.
Proof.
  intros Hok. cbn zeta. unfold update_sync_status.
  destruct sync_states as [|kv rest]; [split; [done|apply advances_refl, (mk_generation _ Hok)]|].
  match goal with |- market_ok (refresh_unsynced_protocols (set_sync _ ?status ?block) _) /\ _ =>
    exact (refresh_ok (set_sync st status block) (mk_keys _ Hok) (mk_index _ Hok) (mk_pools _ Hok)
             (mk_tokens _ Hok) (mk_generation _ Hok)) end.
Qed.

Lemma MarketState_new_ok : market_ok MarketState_new.
Proof.
  split.
  - intros id stored. cbn. by rewrite lookup_empty.
  - intros s id. unfold system_components, in_system. cbn. setoid_rewrite lookup_empty. cbn.
    split; [by intros ?%not_elem_of_empty|by intros (? & ? & _)].
  - intros id. cbn. split; [by intros ?%not_elem_of_empty|by intros (? & ?%not_elem_of_empty & _)].
  - intros a t. cbn. by rewrite lookup_empty.
  - cbn. apply (bool_decide_unpack _). by vm_compute.
  - done.
Qed.
End invariant.
