(* ===== verification/MarketProperties.v ===== *)
(** * MarketProperties: the properties of the market data

    The theorems of [MarketData], from the laws of [MarketDataProofs] and
    [MarketInvariant]: the invariant of every reachable state, the meaning of a resolved
    route filter, the soundness of its cache, batched snapshots, and overlays. *)

From stdpp Require Import prelude gmap sets strings list sorting pretty.
From Stdlib Require Import NArith ZArith Lia.
From S2P Require Import Prelude F64 Types Quote Tracker DerivedStore SpotPriceComputation ComponentDepth.
From S2P Require Import MarketData MarketDataProofs MarketInvariant Samples.

(** ** Reachable states *)

Section steps.
Context `{TychoMarket} (max_sync_lag : N).
Implicit Types (st : MarketState).

(** One call on the market state; the number bounds how often it moves the constraint
    generation. *)
Variant market_step : N -> MarketState -> MarketState -> Prop :=
| step_upsert st cs : upserts_fit st cs ->
    market_step (N.of_nat (length cs)) st (upsert_components st cs).1
| step_remove st ids : market_step (N.of_nat (length ids)) st (remove_components st ids)
| step_tokens st ts : market_step 0 st (upsert_tokens st ts)
| step_states st states : market_step 0 st (update_states st states)
| step_sync st sync_states : market_step 1 st (update_sync_status st sync_states max_sync_lag)
| step_gas st price : market_step 0 st (update_gas_price st price)
| step_label st l : market_step 0 st (set_label st l).

Inductive market_steps : N -> MarketState -> MarketState -> Prop :=
| steps_refl st : market_steps 0 st st
| steps_cons n m st st' st'' :
    market_step n st st' -> market_steps m st' st'' -> market_steps (n + m) st st''.

Lemma market_step_ok n st st' :
  market_ok max_sync_lag st -> market_step n st st' -> market_ok max_sync_lag st' /\ advances n st st'.
Proof.
  intros Hok. destruct 1 as [st cs Hfit|st ids|st ts|st states|st sync|st price|st l].
  - by apply upsert_components_ok.
  - by apply remove_components_ok.
  - split; [by apply upsert_tokens_ok|by apply (advances_frame _ _ _ _ Hok)].
  - split; [by apply set_simulation_states_ok|by apply (advances_frame _ _ _ _ Hok)].
  - by apply update_sync_status_ok.
  - split; [by apply update_gas_price_ok|by apply (advances_frame _ _ _ _ Hok)].
  - split; [by apply set_label_ok|by apply (advances_frame _ _ _ _ Hok)].
Qed.

Lemma market_steps_ok n st st' :
  market_ok max_sync_lag st -> market_steps n st st' -> market_ok max_sync_lag st' /\ advances n st st'.
Proof.
  intros Hok Hsteps. induction Hsteps as [st|n m st st' st'' Hstep _ IH].
  { split; [done|]. apply advances_refl, (mk_generation _ _ Hok). }
  destruct (market_step_ok _ _ _ Hok Hstep) as [Hok' Hadv], (IH Hok') as [Hok'' Hadv'].
  split; [done|]. by eapply advances_trans.
Qed.

(** ** Resolving a route filter *)

Lemma excluded_by_entry_elem st pools entry id :
  id ∈ excluded_by_entry st pools entry <->
  id ∈ pools \/ exists s, protocol_matches entry s = true /\ id ∈ system_components st s.
Proof.
  unfold excluded_by_entry. destruct (ends_with_colon entry) eqn:Hcolon.
  - assert (forall kvs pools', id ∈ fold_left (fun pools (kv : string * gset ComponentId) =>
        if protocol_matches entry kv.1 then pools ∪ kv.2 else pools) kvs pools' <->
      id ∈ pools' \/ exists kv, kv ∈ kvs /\ protocol_matches entry kv.1 = true /\ id ∈ kv.2) as Hfold.
    { induction kvs as [|kv kvs IH]; intros pools'; cbn [fold_left].
      { split; [by left|]. intros [?|(? & []%not_elem_of_nil & _)]; done. }
      rewrite IH. setoid_rewrite elem_of_cons.
      destruct (protocol_matches entry kv.1) eqn:Hm; rewrite ?elem_of_union; split.
      - intros [[?|?]|(kv' & ? & ?)]; [by left|right; by exists kv; auto|right; by exists kv'; auto].
      - intros [?|(kv' & [->|?] & ? & ?)]; [by left; left|by left; right|right; by exists kv'].
      - intros [?|(kv' & ? & ?)]; [by left|right; by exists kv'; auto].
      - intros [?|(kv' & [->|?] & ? & ?)]; [by left|congruence|right; by exists kv']. }
    rewrite Hfold. unfold system_components. apply or_iff_compat_l. split.
    + intros ([s ids] & Hkv%elem_of_map_to_list & Hm & Hid). exists s. split; [done|].
      cbn in *. by rewrite Hkv.
    + intros (s & Hm & Hid). destruct (components_by_protocol st !! s) as [ids|] eqn:Hs;
        cbn in Hid; [|by apply not_elem_of_empty in Hid].
      exists (s, ids). split; [by apply elem_of_map_to_list|done].
  - rewrite elem_of_union. apply or_iff_compat_l. split.
    + intros Hid. exists entry. split; [|done]. unfold protocol_matches. rewrite Hcolon.
      by apply bool_decide_eq_true.
    + intros (s & Hm & Hid). unfold protocol_matches in Hm. rewrite Hcolon in Hm.
      apply bool_decide_eq_true in Hm as ->. done.
Qed.

Lemma resolved_pools_elem st filter id :
  id ∈ rrc_excluded_pools (resolve_route_filter st filter) <->
  id ∈ rc_excluded_pools filter \/
  exists entry s, entry ∈ rc_excluded_protocols filter /\ protocol_matches entry s = true /\
    id ∈ system_components st s.
Proof.
  cbn [resolve_route_filter rrc_excluded_pools].
  enough (forall pools, id ∈ fold_left (excluded_by_entry st) (elements (rc_excluded_protocols filter)) pools
      <-> id ∈ pools \/ exists entry s, entry ∈ elements (rc_excluded_protocols filter) /\
            protocol_matches entry s = true /\ id ∈ system_components st s) as Hfold.
  { rewrite Hfold. by setoid_rewrite elem_of_elements. }
  induction (elements (rc_excluded_protocols filter)) as [|e es IH];
    intros pools; cbn [fold_left].
  { split; [by left|]. intros [?|(? & ? & []%not_elem_of_nil & _)]; done. }
  rewrite IH, excluded_by_entry_elem. setoid_rewrite elem_of_cons. split.
  - intros [[?|(s & ? & ?)]|(e' & s & ? & ?)]; [by left|right; exists e, s; auto|right; exists e', s; auto].
  - intros [?|(e' & s & [->|?] & ? & ?)]; [by left; left|left; right; by exists s|right; by exists e', s].
Qed.

(** A filter resolves to the same constraints in states that agree on them. *)
#[export] Instance resolve_route_filter_proper :
  Proper (same_constraints ==> eq ==> eq) resolve_route_filter.
Proof.
  intros st st' [Hindex Hpools] filter ? <-.
  assert (rrc_excluded_pools (resolve_route_filter st filter)
          = rrc_excluded_pools (resolve_route_filter st' filter)) as Hex.
  { apply set_eq. intros id. rewrite !resolved_pools_elem. by setoid_rewrite Hindex. }
  unfold resolve_route_filter in *. cbn in Hex. by rewrite Hex, Hpools.
Qed.

Lemma unsynced_systems_elem st s :
  s ∈ unsynced_systems st max_sync_lag <->
  exists status, protocol_sync_status st !! s = Some status /\
    is_unsynced status (block_timestamp <$> last_updated st) max_sync_lag = true.
Proof.
  unfold unsynced_systems. rewrite elem_of_dom. split.
  - intros (status & [Hs Hu]%map_lookup_filter_Some). by exists status.
  - intros (status & Hs & Hu). exists status. by apply map_lookup_filter_Some.
Qed.

(** ** Batched snapshots *)

Lemma chunks_concat fuel n (l : list ComponentId) :
  (length l <= fuel)%nat -> concat (chunks_fuel fuel n l) = l.
Proof.
  revert l. induction fuel as [|fuel IH]; intros [|x l] Hl; cbn in *; [done|lia|done|].
  rewrite IH; [by rewrite take_drop|]. rewrite length_drop. lia.
Qed.

(** [snapshot] is what one guard over [ids] in [st] gives, up to the index by protocol. *)
Record snapshot_of st (ids : gset ComponentId) (snapshot : MarketState) : Prop := {
  sn_components : components snapshot = components (MarketState_extract_subset st ids);
  sn_states : simulation_states snapshot = simulation_states (MarketState_extract_subset st ids);
  sn_tokens : tokens snapshot = tokens (MarketState_extract_subset st ids);
  sn_label : label snapshot = label st;
  sn_gas_price : gas_price snapshot = gas_price st;
  sn_last_updated : last_updated snapshot = last_updated st;
  sn_unsynced : unsynced_pools snapshot = unsynced_pools st;
  sn_generation : constraint_generation snapshot = constraint_generation st;
}.

Lemma snapshot_of_extract st ids : snapshot_of st ids (MarketState_extract_subset st ids).
Proof. by destruct (extract_subset_meta st ids) as (? & ? & ? & ? & ? & ? & _). Qed.

Lemma restrict_union {A} (o : option A) (id : ComponentId) (ids ids' : gset ComponentId) :
  (if decide (id ∈ ids') then o else None) ∪ (if decide (id ∈ ids) then o else None)
  = if decide (id ∈ ids ∪ ids') then o else None.
Proof. repeat case_decide; destruct o; try done; set_solver. Qed.

Lemma snapshot_of_merge st ids ids' snapshot :
  snapshot_of st ids snapshot ->
  snapshot_of st (ids ∪ ids') (merge_subset snapshot (MarketState_extract_subset st ids')).
Proof.
  intros Hs. split; cbn; [| | |by apply Hs..].
  - rewrite (sn_components _ _ _ Hs). apply map_eq. intros id.
    rewrite lookup_union, !extract_subset_components. apply restrict_union.
  - rewrite (sn_states _ _ _ Hs). apply map_eq. intros id.
    rewrite lookup_union, !extract_subset_states. apply restrict_union.
  - rewrite (sn_tokens _ _ _ Hs). apply map_eq. intros a. apply option_eq. intros t.
    rewrite lookup_union_Some_raw, !extract_subset_tokens.
    assert (token_of_subset st (ids ∪ ids') a <-> token_of_subset st ids a \/ token_of_subset st ids' a)
      as Hunion.
    { unfold token_of_subset. setoid_rewrite elem_of_union. split.
      - intros (id & s & [?|?] & ?); [left|right]; by exists id, s.
      - intros [(id & s & ? & ?)|(id & s & ? & ?)]; exists id, s; auto. }
    rewrite Hunion. split; [tauto|]. intros [Ht [?|?]]; [|tauto].
    destruct (tokens (MarketState_extract_subset st ids') !! a) as [t'|] eqn:Ht'; [|tauto].
    apply extract_subset_tokens in Ht' as [Ht' ?]. assert (t = t') as -> by congruence. tauto.
Qed.

Lemma merge_batches_spec reads st i batches ids snapshot snapshot' j :
  (forall i j, label (reads i) = label (reads j) -> reads i = reads j) ->
  (exists i0, reads i0 = st) -> snapshot_of st ids snapshot ->
  merge_batches reads i (Some snapshot) batches = (Some snapshot', j) ->
  snapshot_of st (ids ∪ list_to_set (concat batches)) snapshot'.
Proof.
  intros Hlabels [i0 Hi0]. revert i ids snapshot. induction batches as [|chunk batches IH];
    intros i ids snapshot Hs; cbn.
  - intros [= <- <-]. by rewrite union_empty_r_L.
  - destruct (extract_subset_meta (reads i) (list_to_set chunk)) as [Hlabel _]. rewrite Hlabel.
    case_decide as Hl; [|done]. rewrite (sn_label _ _ _ Hs) in Hl.
    assert (reads i = st) as Hst by (rewrite <- Hi0; apply Hlabels; by rewrite Hi0). rewrite Hst.
    intros Hm. apply (IH _ _ _ (snapshot_of_merge _ _ _ _ Hs)) in Hm.
    by rewrite list_to_set_app_L, union_assoc_L.
Qed.

Lemma batched_attempts_spec reads batches attempts i snapshot j :
  (forall i j, label (reads i) = label (reads j) -> reads i = reads j) -> batches <> [] ->
  batched_attempts reads attempts i batches = (Some snapshot, j) ->
  exists i0, snapshot_of (reads i0) (list_to_set (concat batches)) snapshot.
Proof.
  intros Hlabels Hne. revert i. induction attempts as [|attempts IH]; intros i; cbn [batched_attempts]; [done|].
  destruct (merge_batches reads i None batches) as [[s|] i'] eqn:Hm; [|apply IH].
  intros [= <- <-]. exists i. destruct batches as [|chunk batches]; [done|]. cbn [merge_batches] in Hm.
  change (concat (chunk :: batches)) with (chunk ++ concat batches). rewrite list_to_set_app_L.
  refine (merge_batches_spec reads (reads i) (S i) batches _ _ s i' Hlabels _ _ Hm);
    [by exists i|apply snapshot_of_extract].
Qed.
End steps.

(** ** Properties *)

(** C33: the market state is consistent at every time. From an empty market, any sequence
    of upserts that keep each held component's protocol system, removals, token, state,
    gas and label updates and sync reports leaves components under their own id with the
    directions their attributes give, the index by protocol equal to the component map
    grouped by system, the unsynced systems equal to those whose last report is out of
    sync, and the unsynced pools equal to those systems' components. *)
Theorem market_invariant `{TychoMarket} (max_sync_lag n : N) (st : MarketState) :
  market_steps max_sync_lag n MarketState_new st -> market_ok max_sync_lag st.
Proof. intros Hsteps. by apply (market_steps_ok _ _ _ _ (MarketState_new_ok _) Hsteps). Qed.

(** What a request may not route through. In a consistent market, a resolved filter
    excludes exactly the pools it names, the held components of a protocol system it names
    (a name ending in a colon stands for the systems under that prefix), and the held
    components of a system whose last sync report is out of sync. *)
Theorem resolved_filter_spec `{TychoMarket} (max_sync_lag : N) (st : MarketState)
    (filter : RouteConstraints) (id : ComponentId) :
  market_ok max_sync_lag st ->
  excludes_pool (resolve_route_filter st filter) id = true <->
  id ∈ rc_excluded_pools filter \/
  exists stored, components st !! id = Some stored /\
    let system := protocol_system_of (sc_component stored) in
    ((exists entry, entry ∈ rc_excluded_protocols filter /\ protocol_matches entry system = true) \/
     exists status, protocol_sync_status st !! system = Some status /\
       is_unsynced status (block_timestamp <$> last_updated st) max_sync_lag = true).
Proof.
  intros Hok. unfold excludes_pool, is_unsynced_pool.
  rewrite orb_true_iff, !bool_decide_eq_true, resolved_pools_elem.
  change (rrc_unsynced_pools _) with (unsynced_pools st).
  rewrite (mk_pools _ _ Hok), (mk_sync _ _ Hok).
  setoid_rewrite unsynced_systems_elem. setoid_rewrite (mk_index _ _ Hok). unfold in_system. split.
  - intros [[?|(entry & s & He & Hm & stored & Hs & <-)]|(s & Hu & stored & Hs & <-)]; [by left|right..];
      exists stored; (split; [done|]); [left; by exists entry|by right].
  - intros [?|(stored & Hs & [(entry & He & Hm)|Hu])]; [by left; left|left; right|right].
    + by exists entry, (protocol_system_of (sc_component stored)); eauto.
    + by exists (protocol_system_of (sc_component stored)); eauto.
Qed.

(** The request's constraint cache never answers with stale constraints. Whatever
    happened to a consistent market between two resolutions of a filter, as long as fewer
    than 2^64 components joined or left, the second one, through the cache the first one
    filled, is what a fresh resolution gives. *)
Theorem cached_constraints_fresh `{TychoMarket} (max_sync_lag n : N) (st st' : MarketState)
    (filter : RouteConstraints) :
  market_ok max_sync_lag st -> market_steps max_sync_lag n st st' -> n <= u64_MAX ->
  (resolve_constraints st' filter (resolve_constraints st filter None).2).1
  = resolve_route_filter st' filter.
Proof.
  intros Hok Hsteps Hn. cbn. unfold resolve_constraints.
  destruct (N.eqb_spec (constraint_generation st) (constraint_generation st')) as [Heq|Hne]; [|done].
  cbn [fst]. destruct (market_steps_ok _ _ _ _ Hok Hsteps) as [_ (k & Hk & Hg & Hsame)].
  pose proof (mk_generation _ _ Hok) as Hb.
  assert (k = 0) as Hz.
  { rewrite Hg in Heq. destruct (N.lt_ge_cases (constraint_generation st + k) (u64_MAX + 1)) as [Hlt|Hge].
    - rewrite N.mod_small in Heq by done. lia.
    - rewrite <- (N.mod_unique _ (u64_MAX + 1) 1 (constraint_generation st + k - (u64_MAX + 1))) in Heq; lia. }
  by rewrite (Hsame Hz).
Qed.

(** A snapshot cloned in batches is a snapshot of one moment. Whatever the states are
    that the successive guards see, if two of them with one label are one state, then the
    batched clone returns what a single guard in one of these states would: the components,
    states and tokens of the requested ids with that state's label and block, in any batch
    size, whether the clone merges, restarts or falls back. *)
Theorem batched_snapshot_spec `{TychoMarket} (reads : nat -> MarketState)
    (component_ids : gset ComponentId) (n : nat) :
  (forall i j, label (reads i) = label (reads j) -> reads i = reads j) ->
  exists i, snapshot_of (reads i) component_ids (extract_subset_in_batches reads component_ids n).
Proof.
  intros Hlabels. unfold extract_subset_in_batches. case_decide as Hempty.
  { exists O. apply snapshot_of_extract. }
  assert (concat (chunks n (elements component_ids)) = elements component_ids) as Hconcat
    by by apply chunks_concat.
  destruct (batched_attempts reads 3 0 (chunks n (elements component_ids))) as [[s|] i] eqn:Hb.
  - apply batched_attempts_spec in Hb as [i0 Hs]; [|done|].
    + exists i0. by rewrite Hconcat, list_to_set_elements_L in Hs.
    + intros Hnil. rewrite Hnil in Hconcat. apply Hempty. rewrite <- (list_to_set_elements_L component_ids), <- Hconcat. done.
  - exists i. apply snapshot_of_extract.
Qed.

(** The subset of the market refines what the depth computation assumes of it:
    restricted to the requested components, it answers every question of the [Market]
    interface as the whole market does, and knows a token exactly when a requested
    component holds it. *)
Theorem extract_subset_refines `{TychoMarket}
    (price : ProtocolSim -> Token -> Token -> result string f64) (st : MarketState)
    (ids : list ComponentId) :
  let sub := market_view price (MarketState_extract_subset st (list_to_set ids)) in
  let spec := extract_subset (market_view price st) ids in
  (forall id, tokens_of sub id = tokens_of spec id /\
              SpotPriceComputation.swap_directions_of sub id = SpotPriceComputation.swap_directions_of spec id /\
              get_simulation_state sub id = get_simulation_state spec id) /\
  (forall a, token_registry sub a = token_registry spec a).
Proof.
  cbn. unfold get_component, market_swap_directions_of. split.
  - intros id. rewrite extract_subset_components, extract_subset_states.
    destruct (decide (id ∈ ids)) as [Hin|Hout].
    + by rewrite !decide_True by (by apply elem_of_list_to_set).
    + by rewrite !decide_False by (by rewrite elem_of_list_to_set).
  - intros a. destruct (existsb _ ids) eqn:Hex.
    + apply existsb_exists in Hex as (id & Hid%list_elem_of_In & Ha).
      destruct (components st !! id) as [stored|] eqn:Hs; cbn in Ha; [|done].
      apply bool_decide_eq_true in Ha. destruct (tokens st !! a) as [t|] eqn:Ht.
      * apply extract_subset_tokens. split; [done|]. exists id, stored. by rewrite elem_of_list_to_set.
      * destruct (tokens (MarketState_extract_subset st (list_to_set ids)) !! a) as [t|] eqn:Ht'; [|done].
        apply extract_subset_tokens in Ht' as [? _]. congruence.
    + destruct (tokens (MarketState_extract_subset st (list_to_set ids)) !! a) as [t|] eqn:Ht'; [|done].
      apply extract_subset_tokens in Ht' as (_ & id & stored & Hid%elem_of_list_to_set & Hs & Ha).
      enough (existsb (fun id => match component_tokens_of <$> (sc_component <$> components st !! id) with
                | Some tokens => bool_decide (a ∈ tokens) | None => false end) ids = true) by congruence.
      apply existsb_exists. exists id. split; [by apply list_elem_of_In|]. rewrite Hs. cbn.
      by apply bool_decide_eq_true.
Qed.

(** ** Overlays *)

Section overlays.
Context `{TychoMarket}.

Lemma pretty_N_nonempty (n : N) : pretty n <> EmptyString.
Proof.
  assert (forall m s, s <> EmptyString -> pretty_N_go m s <> EmptyString) as Hgo.
  { intros m. induction (N.lt_wf_0 m) as [m _ IH]; intros s Hs.
    destruct (N.eq_0_gt_0_cases m) as [->|Hm]; [by rewrite pretty_N_go_0|].
    rewrite pretty_N_go_step by done. apply IH; [apply N.div_lt; lia|done]. }
  unfold pretty, pretty_N. case_decide as Hn; [done|]. rewrite pretty_N_go_step by lia. by apply Hgo.
Qed.

(** The interleavings of the overlay operations with the two halves of a block update.
    The number is the newest block whose update has begun; an overlay registered then is
    valid for that block. *)
Inductive market_data_reaches : N -> MarketData -> Prop :=
| reaches_new : market_data_reaches 0 {| md_data := MarketState_new; md_overlays := ∅ |}
| reaches_begin block md new_block_number :
    market_data_reaches block md -> block <= new_block_number ->
    market_data_reaches new_block_number (evict_overlays md new_block_number)
| reaches_commit block md update :
    market_data_reaches block md -> (forall st, label (update st) = label st) ->
    market_data_reaches block (commit_block md block update)
| reaches_write block md update :
    market_data_reaches block md -> (forall st, label (update st) = label st) ->
    market_data_reaches block (set_data md (update (md_data md)))
| reaches_register block md l states valid_until :
    market_data_reaches block md -> block <= valid_until ->
    market_data_reaches block (register_labeled_state md l states valid_until)
| reaches_remove block md l :
    market_data_reaches block md -> market_data_reaches block (remove_labeled_state md l)
| reaches_clear block md :
    market_data_reaches block md -> market_data_reaches block (clear_labeled_states md).

Lemma market_data_reaches_ok block md : market_data_reaches block md ->
  (forall l e, md_overlays md !! l = Some e -> block <= oe_valid_until e) /\
  (label (md_data md) = EmptyString \/
   exists committed, label (md_data md) = pretty committed /\ committed <= block).
Proof.
  induction 1 as [|block md n _ [Ho Hl] Hn|block md update _ [Ho Hl] Hu|block md update _ [Ho Hl] Hu
    |block md l states v _ [Ho Hl] Hv|block md l _ [Ho Hl]|block md _ [Ho Hl]]; cbn.
  - split; [|by left]. intros l e. by rewrite lookup_empty.
  - split; [by intros l e [_ ?]%map_lookup_filter_Some|].
    destruct Hl as [?|(c & ? & ?)]; [by left|right; exists c; split; [done|lia]].
  - split; [done|]. right. exists block. by rewrite Hu.
  - by rewrite Hu.
  - split; [|done]. intros l' e. destruct (decide (l' = l)) as [->|Hne].
    + rewrite lookup_insert_eq. by intros [= <-].
    + rewrite lookup_insert_ne by done. apply Ho.
  - split; [|done]. intros l' e [_ ?]%lookup_delete_Some. by eapply Ho.
  - split; [|done]. intros l' e. by rewrite lookup_empty.
Qed.

Lemma fold_overlay_lookup states (sims : gmap ComponentId ProtocolSim) id :
  NoDup states.*1 ->
  fold_left overlay_state states sims !! id
  = match sims !! id with
    | None => None
    | Some sim => match (list_to_map states : gmap ComponentId ProtocolSim) !! id with
                  | Some s => Some s | None => Some sim end
    end.
Proof.
  revert sims. induction states as [|[k s] states IH]; intros sims Hnd; cbn [fold_left].
  { cbn. rewrite lookup_empty. by destruct (sims !! id). }
  cbn in Hnd. apply NoDup_cons in Hnd as [Hk Hnd]. rewrite IH by done. cbn. unfold overlay_state. cbn [fst snd].
  destruct (decide (id = k)) as [->|Hne].
  - rewrite lookup_insert_eq. destruct (sims !! k) as [sim|] eqn:Hsim; rewrite ?lookup_insert_eq, ?Hsim; [|done].
    by rewrite not_elem_of_list_to_map_1.
  - rewrite lookup_insert_ne by done. destruct (sims !! k); by rewrite ?lookup_insert_ne.
Qed.
End overlays.

(** A labelled reading is never stale. In any interleaving of block updates, other
    writes and overlay registrations, a reader that resolves a label sees either the
    overlay registered under it, still valid for the block the base state is at, or a base
    state that carries the label. *)
Theorem labeled_read_current `{TychoMarket} (block : N) (md : MarketData) (l : StateLabel)
    (view : MarketDataView) :
  market_data_reaches block md -> read_labeled md l = Some view ->
  view_guard view = md_data md /\
  match view_overlay view with
  | Some (l', states) => l' = l /\ exists e, md_overlays md !! l = Some e /\ oe_states e = states /\
      forall committed, label (md_data md) = pretty committed -> committed <= oe_valid_until e
  | None => label (md_data md) = l
  end.
Proof.
  intros Hreach. unfold read_labeled, view_of_label.
  destruct (market_data_reaches_ok _ _ Hreach) as [Ho Hl].
  destruct (md_overlays md !! l) as [e|] eqn:He.
  - intros [= <-]. split; [done|]. split; [done|]. exists e. split_and!; [done..|].
    intros committed Hc. pose proof (Ho _ _ He) as Hv. destruct Hl as [Hl|(c & Hl & Hle)].
    + rewrite Hc in Hl. by apply pretty_N_nonempty in Hl.
    + rewrite Hc in Hl. apply (inj pretty) in Hl. lia.
  - case_decide; [|done]. by intros [= <-].
Qed.

(** Solving on an extracted subset reads the states the view reads. For every
    requested component with a base state, the subset taken through a view holds the state
    the view answers, the overlay's where it has one, and the subset carries the overlay's
    label; components and tokens are the base data's. *)
Theorem overlay_subset_spec `{TychoMarket} (view : MarketDataView) (ids : gset ComponentId)
    (id : ComponentId) :
  let sub := extract_subset_with_overlay view ids in
  simulation_states sub !! id
    = (if decide (id ∈ ids)
       then match simulation_states (view_guard view) !! id with
            | Some _ => view_get_simulation_state view id
            | None => None
            end
       else None) /\
  components sub = components (MarketState_extract_subset (view_guard view) ids) /\
  tokens sub = tokens (MarketState_extract_subset (view_guard view) ids) /\
  label sub = match view_overlay view with Some (l, _) => l | None => label (view_guard view) end.
Proof.
  cbn zeta. unfold extract_subset_with_overlay, view_get_simulation_state.
  destruct (extract_subset_meta (view_guard view) ids) as [Hlabel _].
  destruct (view_overlay view) as [[l states]|]; cbn; split_and!; try done.
  - rewrite fold_overlay_lookup by apply NoDup_fst_map_to_list. rewrite extract_subset_states.
    rewrite list_to_map_to_list. case_decide; [|done].
    by destruct (simulation_states (view_guard view) !! id), (states !! id).
  - rewrite extract_subset_states. case_decide; [|done]. by destruct (simulation_states (view_guard view) !! id).
Qed.

(** ** Witnesses *)

Section witnesses.
#[local] Existing Instances MarketSample.tycho MarketSample.tycho_market.

Definition sample_upserted : MarketState :=
  (upsert_components MarketState_new [MarketSample.ab; MarketSample.bc]).1.

Lemma sample_upserts_fit : upserts_fit MarketState_new [MarketSample.ab; MarketSample.bc].
Proof.
  split.
  - repeat constructor; intros stored; cbn; by rewrite lookup_empty.
  - intros c c' [->|[->|[]%not_elem_of_nil]%elem_of_cons]%elem_of_cons
      [->|[->|[]%not_elem_of_nil]%elem_of_cons]%elem_of_cons; done.
Qed.

Lemma sample_steps : exists n, market_steps 50000000000 n MarketState_new MarketSample.market /\ n <= 3.
Proof.
  eexists. split.
  - unfold MarketSample.market. eapply steps_cons; [apply step_upsert, sample_upserts_fit|].
    eapply steps_cons; [apply step_tokens|]. eapply steps_cons; [apply step_states|].
    eapply steps_cons; [apply step_sync|]. apply steps_refl.
  - cbn. lia.
Qed.

Lemma market_invariant_witness : market_ok 50000000000 MarketSample.market.
Proof.
  destruct sample_steps as (n & Hsteps & _). exact (market_invariant 50000000000 n _ Hsteps).
Defined.

(** An upsert does not take a held component out of the system it leaves: the index keeps it under both,
    a filter that names the old system goes on excluding it, and removing it leaves the old entry. *)
Definition moved_market : MarketState :=
  (upsert_components MarketState_new [MarketSample.pool "p" "old" []; MarketSample.pool "p" "new" []]).1.

Example moved_component_indexed_twice :
  let filter := {| rc_excluded_pools := ∅; rc_excluded_protocols := {[ "old" ]};
                   rc_excluded_tokens := ∅; rc_required_tokens := ∅ |}%string in
  components_by_protocol moved_market !! "old" = Some {[ "p" ]} /\
  components_by_protocol moved_market !! "new" = Some {[ "p" ]} /\
  excludes_pool (resolve_route_filter moved_market filter) "p" = true /\
  components_by_protocol (remove_components moved_market ["p"]) !! "old" = Some {[ "p" ]}.
Proof. by vm_compute. Qed.

Definition family_filter : RouteConstraints := {|
  rc_excluded_pools := {[ "xy"%string ]}; rc_excluded_protocols := {[ "fallback:"%string ]};
  rc_excluded_tokens := ∅; rc_required_tokens := ∅ |}.

Lemma sample_market_ok : market_ok 50000000000 MarketSample.market.
Proof.
  destruct sample_steps as (n & Hsteps & _).
  by apply (market_steps_ok _ _ _ _ (MarketState_new_ok _) Hsteps).
Qed.

(** The pool of the family is excluded, the other one is not; without the filter the
    pool of the delayed system is excluded still. *)
Lemma resolved_filter_spec_witness :
  excludes_pool (resolve_route_filter MarketSample.market family_filter) "bc" = true /\
  excludes_pool (resolve_route_filter MarketSample.market family_filter) "ab" = false.
Proof.
  split; [|by vm_compute].
  apply (resolved_filter_spec 50000000000 MarketSample.market family_filter "bc" sample_market_ok).
  right. eexists. split; [by vm_compute|]. left. exists "fallback:"%string. split; [set_solver|by vm_compute].
Defined.

Lemma cached_constraints_fresh_witness :
  (resolve_constraints MarketSample.market family_filter
     (resolve_constraints MarketState_new family_filter None).2).1
  = resolve_route_filter MarketSample.market family_filter.
Proof.
  destruct sample_steps as (n & Hsteps & Hn).
  apply (cached_constraints_fresh 50000000000 n MarketState_new MarketSample.market family_filter
    (MarketState_new_ok _) Hsteps). etransitivity; [exact Hn|done].
Defined.

(** The feed advances after the first batch, so the clone restarts. *)
Definition sample_reads (i : nat) : MarketState :=
  match i with
  | O => set_label MarketSample.market "100"
  | S _ => set_label MarketSample.market "101"
  end.

Lemma batched_snapshot_spec_witness :
  exists i, snapshot_of (sample_reads i) {["ab"%string; "bc"%string]}
    (extract_subset_in_batches sample_reads {["ab"%string; "bc"%string]} 0).
Proof. apply batched_snapshot_spec. by intros [|i] [|j]. Defined.

(** An overlay registered for block 7 is read while the base is at block 7. *)
Definition sample_overlay_data : MarketData :=
  commit_block (register_labeled_state
    (evict_overlays {| md_data := MarketState_new; md_overlays := ∅ |} 7) "sim" ∅ 8) 7 (fun st => st).

Lemma labeled_read_current_witness :
  exists view, read_labeled sample_overlay_data "sim" = Some view /\
  view_guard view = md_data sample_overlay_data.
Proof.
  eexists. split; [by vm_compute|].
  apply (labeled_read_current 7 sample_overlay_data "sim"); [|by vm_compute].
  apply reaches_commit; [|done]. apply reaches_register; [|lia]. apply (reaches_begin 0); [apply reaches_new|lia].
Defined.
End witnesses.
