(* ===== verification/TychoFeed.v ===== *)
(** * TychoFeed: from stream messages to market events

    Models [handle_tycho_message], [handle_book_update] and their helpers of
    [fynd-core/src/feed/tycho_feed.rs]: a message of the Tycho stream or of a venue's books
    is applied to the market data and turned into the [MarketEvent] that the workers and
    the derived data follow. The streams themselves are transport. *)

From stdpp Require Import prelude gmap sets strings list sorting pretty.
From Stdlib Require Import Ascii.
From Stdlib Require Import NArith ZArith Lia.
From S2P Require Import Prelude F64 Types Tracker DerivedStore SpotPriceComputation Manager.
From S2P Require Import MarketData.

(** A component as it is streamed: an id in bytes and whole tokens. [component_new] is the
    struct literal of the market's representation; its last argument is where the fields
    come from that are carried over. *)
Class TychoStream `{TychoMarket} : Type := {
  StreamedComponent : Type;
  streamed_id : StreamedComponent -> Bytes;
  streamed_protocol_system : StreamedComponent -> string;
  streamed_tokens : StreamedComponent -> list Token;
  streamed_attributes : StreamedComponent -> gmap string Bytes;
  show_bytes : Bytes -> string;
  component_new : ComponentId -> string -> list Address -> gmap string Bytes ->
    StreamedComponent -> ProtocolComponent;
  component_new_id : forall i s ts attrs c, component_id_of (component_new i s ts attrs c) = i;
  component_new_system : forall i s ts attrs c, protocol_system_of (component_new i s ts attrs c) = s;
  component_new_tokens : forall i s ts attrs c, component_tokens_of (component_new i s ts attrs c) = ts;
  component_new_attributes : forall i s ts attrs c, static_attributes (component_new i s ts attrs c) = attrs;
}.

Definition ascii_lower (c : ascii) : ascii :=
  let n := N_of_ascii c in
  if (65 <=? n) && (n <=? 90) then ascii_of_N (n + 32) else c.

(** [str::to_lowercase] on ASCII text, as hexadecimal ids are. *)
Fixpoint to_lowercase (s : string) : string :=
  match s with
  | EmptyString => EmptyString
  | String c s' => String (ascii_lower c) (to_lowercase s')
  end.

(** [msg.sync_states] is iterated once; its pairs are a list. *)
Record Update `{TychoStream} := {
  upd_block_number : N;
  upd_new_pairs : gmap string StreamedComponent;
  upd_removed_pairs : gmap string StreamedComponent;
  upd_states : gmap string ProtocolSim;
  upd_sync_states : list (string * SynchronizerState);
}.

Record BookUpdate `{TychoStream} := {
  bk_protocol_system : string;
  bk_added : list StreamedComponent;
  bk_removed : list ComponentId;
  bk_updated : list StreamedComponent;
  bk_states : gmap ComponentId ProtocolSim;
}.

Section feed.
Context `{TychoStream} (max_sync_lag : N).
Implicit Types (md : MarketData) (st : MarketState) (component : StreamedComponent) (id : ComponentId).

Definition component_id_string component : ComponentId := show_bytes (streamed_id component).

Definition market_component component : ProtocolComponent :=
  component_new (component_id_string component) (streamed_protocol_system component)
    (token_address_of <$> streamed_tokens component) (streamed_attributes component) component.

(** The topologies of the upserted components that the market lists afterwards. *)
Definition added_topology_of st (upserted : UpsertedComponents) : gmap ComponentId ComponentTopology :=
  list_to_map (omap (fun id => (fun t => (id, t)) <$> topology_of st id)
                 (up_new upserted ++ up_reshaped upserted)).

(** The maps of a message under the market's lower-case ids. *)
Definition lowercase_removed (removed : gmap string StreamedComponent) : gset ComponentId :=
  list_to_set ((fun kv => to_lowercase kv.1) <$> map_to_list removed).

Definition lowercase_states (states : gmap string ProtocolSim) : gmap ComponentId ProtocolSim :=
  fold_left (fun m (kv : string * ProtocolSim) => <[to_lowercase kv.1 := kv.2]> m) (map_to_list states) ∅.

Definition new_components (update : Update) : list StreamedComponent :=
  (map_to_list (upd_new_pairs update)).*2.

(** What runs under the write lock: the state after it and the added topologies. *)
Definition tycho_update (update : Update) st : MarketState * gmap ComponentId ComponentTopology :=
  let '(st, upserted) := upsert_components st (market_component <$> new_components update) in
  let st := remove_components st (elements (lowercase_removed (upd_removed_pairs update))) in
  let st := upsert_tokens st (new_components update ≫= streamed_tokens) in
  let st := update_states st (map_to_list (lowercase_states (upd_states update))) in
  let st := update_sync_status st (upd_sync_states update) max_sync_lag in
  (st, added_topology_of st upserted).

Definition tycho_event (update : Update) (added_topology : gmap ComponentId ComponentTopology)
    : MarketEvent :=
  let updated_ids : gset ComponentId :=
    dom (lowercase_states (upd_states update))
    ∪ list_to_set (component_id_string <$> new_components update) in {|
  added_components := added_topology;
  removed_components := elements (lowercase_removed (upd_removed_pairs update));
  updated_components := elements (filter (fun id => added_topology !! id = None) updated_ids) |}.

Definition has_changes (ev : MarketEvent) : bool :=
  negb (bool_decide (added_components ev = ∅)) || negb (bool_decide (removed_components ev = []))
  || negb (bool_decide (updated_components ev = [])).

Definition handle_tycho_message md (update : Update) : MarketData * option MarketEvent :=
  let block := upd_block_number update in
  let added_topology := (tycho_update update (set_label (md_data md) (pretty block))).2 in
  let ev := tycho_event update added_topology in
  (apply_block_update md block (fun st => (tycho_update update st).1),
   if has_changes ev then Some ev else None).

(** ** Book updates *)

Definition held_elsewhere st (protocol_system : string) id : bool :=
  match get_component st id with
  | Some held => negb (bool_decide (protocol_system_of held = protocol_system))
  | None => false
  end.

(** [components.retain]: what stays, and the states less those of what is dropped. *)
Definition retain_own st (protocol_system : string)
    (acc : list StreamedComponent * gmap ComponentId ProtocolSim) component
    : list StreamedComponent * gmap ComponentId ProtocolSim :=
  if held_elsewhere st protocol_system (component_id_string component)
  then (acc.1, delete (component_id_string component) acc.2)
  else (acc.1 ++ [component], acc.2).

Definition drop_foreign_components st (update : BookUpdate) : BookUpdate :=
  let system := bk_protocol_system update in
  let '(added, states) := fold_left (retain_own st system) (bk_added update) ([], bk_states update) in
  let '(updated, states) := fold_left (retain_own st system) (bk_updated update) ([], states) in {|
  bk_protocol_system := system;
  bk_added := added;
  bk_removed := List.filter (fun id => negb (held_elsewhere st system id)) (bk_removed update);
  bk_updated := updated;
  bk_states := states |}.

Definition handle_book_update md (update : BookUpdate) : MarketData * MarketEvent :=
  let st := md_data md in
  let update := drop_foreign_components st update in
  let refreshed_ids := component_id_string <$> bk_updated update in
  let st := upsert_tokens st (bk_added update ≫= streamed_tokens) in
  let '(st, upserted) :=
    upsert_components st (market_component <$> bk_added update ++ bk_updated update) in
  let st := remove_components st (bk_removed update) in
  let st := update_states st (map_to_list (bk_states update)) in
  let added_topology := added_topology_of st upserted in
  (set_data md st,
   {| added_components := added_topology;
      removed_components := bk_removed update;
      updated_components :=
        List.filter (fun id => bool_decide (added_topology !! id = None)) refreshed_ids |}).

(** The feed's loop hands each message to its handler. *)
Inductive FeedMessage :=
| TychoMessage (update : Update)
| BookMessage (update : BookUpdate).

Definition handle_message md (msg : FeedMessage) : MarketData * option MarketEvent :=
  match msg with
  | TychoMessage update => handle_tycho_message md update
  | BookMessage update => let '(md, ev) := handle_book_update md update in (md, Some ev)
  end.
End feed.
