(* ===== verification/TychoFeedProofs.v ===== *)
(** * TychoFeedProofs: the feed's events tell what changed

    Every message that keeps what its sender promises ([update_fits], [book_fits]) keeps the
    market consistent, and the event it emits
    describes the difference between the market before and after it, in the sense of
    [SpotPriceComputation]. Composed with the manager, the stored spot prices follow the
    stream of messages. *)

From stdpp Require Import prelude gmap sets strings list sorting pretty.
From Stdlib Require Import NArith ZArith Lia.
From S2P Require Import Prelude F64 Types Quote Samples Tracker DerivedStore SpotPriceComputation.
From S2P Require Import Schedule Manager SpotPricePipeline.
From S2P Require Import MarketData MarketDataProofs MarketInvariant TychoFeed.

Section laws.
Context `{TychoMarket}.
Implicit Types (st : MarketState) (id : ComponentId).

(** ** Batches of upserts and removals *)

Lemma upsert_components_fold st u cs :
  let run := fold_left upsert_component cs (st, u) in
  (forall id, id ∉ component_id_of <$> cs -> components run.1 !! id = components st !! id) /\
  (up_new u ⊆ up_new run.2 /\ up_reshaped u ⊆ up_reshaped run.2) /\
  (forall id, (id ∉ up_new run.2) -> (id ∉ up_reshaped run.2) ->
    market_swap_directions_of run.1 id = market_swap_directions_of st id).
Proof.
  cbn zeta. revert st u. induction cs as [|c cs IH]; intros st u; [done|]. cbn [fold_left].
  rewrite (surjective_pairing (upsert_component (st, u) c)), upsert_component_state.
  pose proof (upsert_component_report st u c) as Hrep. cbn zeta in Hrep.
  destruct (IH (upsert_state st c) (upsert_component (st, u) c).2) as (Hout & [Hn Hr] & Hdirs).
  assert (up_new u ⊆ up_new (upsert_component (st, u) c).2 /\
          up_reshaped u ⊆ up_reshaped (upsert_component (st, u) c).2) as [Hn0 Hr0].
  { destruct (components st !! component_id_of c); destruct Hrep as [-> ->]; set_solver. }
  split_and!.
  - intros id [Hne Hnot]%not_elem_of_cons. rewrite Hout by done.
    rewrite upsert_state_components. by rewrite decide_False.
  - by etransitivity.
  - by etransitivity.
  - intros id Hnew Hresh. rewrite Hdirs by done. unfold market_swap_directions_of.
    rewrite upsert_state_components. case_decide as Hid; [subst id|done]. cbn.
    destruct (components st !! component_id_of c) as [stored|]; destruct Hrep as [Hrn Hrr].
    + case_decide as Hsame; [by rewrite <- Hsame|]. exfalso. apply Hresh, Hr. rewrite Hrr.
      apply elem_of_app. right. left.
    + exfalso. apply Hnew, Hn. rewrite Hrn. apply elem_of_app. right. left.
Qed.

Lemma upsert_components_rest st cs :
  let st' := (upsert_components st cs).1 in
  label st' = label st /\ simulation_states st' = simulation_states st /\ tokens st' = tokens st /\
  last_updated st' = last_updated st.
Proof.
  cbn zeta. revert st. induction cs as [|c cs IH]; intros st; [done|]. rewrite upsert_components_cons.
  destruct (IH (upsert_state st c)) as (-> & -> & -> & ->).
  by destruct (upsert_state_rest st c) as (-> & -> & -> & _ & -> & _).
Qed.

Lemma upsert_components_out st cs id : id ∉ component_id_of <$> cs ->
  components (upsert_components st cs).1 !! id = components st !! id.
Proof. apply upsert_components_fold. Qed.

Lemma upsert_components_unreported st cs id :
  (id ∉ up_new (upsert_components st cs).2 ++ up_reshaped (upsert_components st cs).2) ->
  market_swap_directions_of (upsert_components st cs).1 id = market_swap_directions_of st id.
Proof. intros [Hn Hr]%not_elem_of_app. by apply upsert_components_fold. Qed.

(** A component of the market after the upserts was upserted or was there. *)
Lemma upsert_components_from st cs id stored :
  components (upsert_components st cs).1 !! id = Some stored ->
  components st !! id = Some stored \/ exists c, c ∈ cs /\ sc_component stored = c.
Proof.
  revert st. induction cs as [|c cs IH]; intros st; [by left|]. rewrite upsert_components_cons.
  intros [Hs|(c' & Hc' & Hs)]%IH; [|right; exists c'; split; [by right|done]].
  rewrite upsert_state_components in Hs. case_decide; [|by left].
  injection Hs as <-. right. exists c. split; [left|done].
Qed.

Lemma remove_components_lookup st ids id :
  components (remove_components st ids) !! id = if decide (id ∈ ids) then None else components st !! id.
Proof.
  unfold remove_components. revert st. induction ids as [|i ids IH]; intros st; cbn [fold_left].
  { by rewrite decide_False by apply not_elem_of_nil. }
  rewrite IH, remove_component_components. destruct (decide (id = i)) as [->|Hne].
  - rewrite (decide_True (P := i ∈ i :: ids)) by left. by destruct (decide (i ∈ ids)).
  - destruct (decide (id ∈ ids)); [by rewrite decide_True by (by right)|].
    rewrite decide_False; [done|]. by apply not_elem_of_cons.
Qed.

Lemma remove_components_rest st ids :
  let st' := remove_components st ids in
  label st' = label st /\ tokens st' = tokens st /\ last_updated st' = last_updated st /\
  forall id, id ∉ ids -> simulation_states st' !! id = simulation_states st !! id.
Proof.
  cbn zeta. unfold remove_components. revert st. induction ids as [|i ids IH]; intros st; [done|].
  cbn [fold_left]. destruct (IH (remove_component st i)) as (-> & -> & -> & Hs).
  destruct (remove_component_rest st i) as (-> & -> & Hd & _ & -> & _). split_and!; [done..|].
  intros id [Hne Hnot]%not_elem_of_cons. by rewrite Hs, Hd, lookup_delete_ne.
Qed.

Lemma fold_insert_out {V} (kvs : list (string * V)) (m : gmap string V) k :
  k ∉ kvs.*1 -> fold_left (fun m (kv : string * V) => <[kv.1 := kv.2]> m) kvs m !! k = m !! k.
Proof.
  revert m. induction kvs as [|kv kvs IH]; intros m; [done|]. cbn [fold_left].
  intros [Hne Hnot]%not_elem_of_cons. rewrite IH by done. by rewrite lookup_insert_ne.
Qed.

(** Tokens sent again are the registered ones. *)
Definition tokens_agree st (ts : list Token) : Prop :=
  forall t t', t ∈ ts -> tokens st !! token_address_of t = Some t' -> t = t'.

Lemma upsert_tokens_keep st ts a token : tokens_agree st ts ->
  tokens st !! a = Some token -> tokens (upsert_tokens st ts) !! a = Some token.
Proof.
  intros Hagree Ha. unfold upsert_tokens, set_tokens. cbn [tokens].
  assert (forall m : gmap Address Token, m !! a = Some token ->
    fold_left (fun m token => <[token_address_of token := token]> m) ts m !! a = Some token) as Hfold.
  { induction ts as [|t ts IH]; intros m Hm; [done|]. cbn [fold_left]. apply IH.
    - intros t1 t2 Ht1. apply Hagree. by right.
    - destruct (decide (a = token_address_of t)) as [->|Hne]; [|by rewrite lookup_insert_ne].
      rewrite lookup_insert_eq. f_equal. by apply Hagree; [left|]. }
  by apply Hfold.
Qed.

Lemma upsert_tokens_registers st ts t : t ∈ ts ->
  is_Some (tokens (upsert_tokens st ts) !! token_address_of t).
Proof.
  unfold upsert_tokens, set_tokens. cbn [tokens]. generalize (tokens st).
  assert (forall a ts (m : gmap Address Token), is_Some (m !! a) ->
    is_Some (fold_left (fun m token => <[token_address_of token := token]> m) ts m !! a)) as Hkeep.
  { intros a ts'. induction ts' as [|t' ts' IH]; intros m Hm; [done|]. cbn [fold_left]. apply IH.
    destruct (decide (a = token_address_of t')) as [->|Hne]; [by rewrite lookup_insert_eq|].
    by rewrite lookup_insert_ne. }
  induction ts as [|t' ts IH]; intros m; [by intros []%not_elem_of_nil|].
  intros [->|Ht]%elem_of_cons; cbn [fold_left]; [|by apply IH].
  apply Hkeep. by rewrite lookup_insert_eq.
Qed.

Lemma update_sync_status_rest st sync_states lag :
  let st' := update_sync_status st sync_states lag in
  label st' = label st /\ components st' = components st /\ tokens st' = tokens st /\
  simulation_states st' = simulation_states st.
Proof.
  cbn zeta. unfold update_sync_status, refresh_unsynced_protocols.
  destruct sync_states; [done|]. by case_decide.
Qed.

(** ** What an event has to tell *)

(** Every token of a stored component is registered. *)
Definition tokens_known st : Prop :=
  forall id stored a, components st !! id = Some stored ->
    a ∈ component_tokens_of (sc_component stored) -> is_Some (tokens st !! a).

Record feed_ok (max_sync_lag : N) st : Prop := {
  fo_ok : market_ok max_sync_lag st;
  fo_known : tokens_known st;
}.

Lemma describes_intro price max_sync_lag (changed : ChangedComponents) st st' :
  feed_ok max_sync_lag st ->
  (forall id t, added changed !! id = Some t -> topology_of st' id = Some t) ->
  (forall id, id ∈ removed changed -> added changed !! id = None /\ components st' !! id = None) ->
  (forall id, added changed !! id = None -> (id ∉ removed changed) ->
    market_swap_directions_of st' id = market_swap_directions_of st id) ->
  (forall id, added changed !! id = None -> (id ∉ removed changed) -> (id ∉ updated changed) ->
    simulation_states st' !! id = simulation_states st !! id) ->
  (forall a token, tokens st !! a = Some token -> tokens st' !! a = Some token) ->
  describes changed (market_view price st) (market_view price st').
Proof.
  intros [Hok Hknown] Hadd Hrem Hdirs Hsims Htokens. split; cbn.
  - intros id t Ht%Hadd. unfold topology_of in Ht. unfold market_swap_directions_of.
    destruct (components st' !! id) as [stored|]; [|done]. cbn in *. by injection Ht as <-.
  - intros id Hid. destruct (Hrem id Hid) as [? Hc]. split; [done|].
    unfold market_swap_directions_of. by rewrite Hc.
  - intros id Hid Hn. destruct (decide (id ∈ removed changed)); [by right|left; by apply Hdirs].
  - intros [[id x] y]. cbn. intros Hn Hr Hu. unfold full_price. cbn. rewrite Hdirs by done.
    destruct (market_swap_directions_of st id) as [ds|] eqn:Hds; [|done]. cbn. case_decide as Hin; [|done].
    unfold market_swap_directions_of in Hds. destruct (components st !! id) as [stored|] eqn:Hs; [|done].
    injection Hds as <-. destruct (mk_keys _ _ Hok _ _ Hs) as [_ Hown]. rewrite Hown in Hin.
    apply swap_directions_own in Hin as [Hx Hy].
    destruct (Hknown _ _ _ Hs Hx) as [tx Htx], (Hknown _ _ _ Hs Hy) as [ty Hty].
    unfold direction_price. cbn. rewrite Hsims by done. by rewrite Htx, Hty, (Htokens _ _ Htx), (Htokens _ _ Hty).
Qed.
End laws.

Section messages.
Context `{TychoStream} (max_sync_lag : N) (price : ProtocolSim -> Token -> Token -> result string f64).
Implicit Types (st : MarketState) (md : MarketData) (id : ComponentId).

(** What an update's sender promises: components keep their protocol system, tokens their
    data. *)
Record update_fits st (update : Update) : Prop := {
  uf_systems : upserts_fit st (market_component <$> new_components update);
  uf_tokens : tokens_agree st (new_components update ≫= streamed_tokens);
}.

(** What the feed keeps of a venue's update: components of the venue's protocol system; an added one the
    market already holds is refreshed too, or comes without a state; tokens keep their data; a
    refreshed component has tokens that the market knows once the added ones are in; and states
    are of what the update lists. *)
Record kept_fits st (kept : BookUpdate) : Prop := {
  bf_system : forall c, c ∈ bk_added kept ++ bk_updated kept ->
    streamed_protocol_system c = bk_protocol_system kept;
  bf_added : forall c, c ∈ bk_added kept -> components st !! component_id_string c = None \/
    component_id_string c ∈ component_id_string <$> bk_updated kept \/ bk_states kept !! component_id_string c = None;
  bf_tokens : tokens_agree st (bk_added kept ≫= streamed_tokens);
  bf_known : forall c t, c ∈ bk_updated kept -> t ∈ streamed_tokens c ->
    is_Some (tokens (upsert_tokens st (bk_added kept ≫= streamed_tokens)) !! token_address_of t);
  bf_states : forall id, is_Some (bk_states kept !! id) ->
    id ∈ component_id_string <$> bk_added kept ++ bk_updated kept;
}.

(** An update may list what the market holds under another system: the feed drops it first. *)
Definition book_fits st (update : BookUpdate) : Prop := kept_fits st (drop_foreign_components st update).

(** ** Adding, removing and refreshing *)

Lemma added_topology_lookup st upserted id t :
  added_topology_of st upserted !! id = Some t -> topology_of st id = Some t.
Proof.
  intros Hl%elem_of_list_to_map_2. apply list_elem_of_omap in Hl as (i & _ & Hi).
  destruct (topology_of st i) as [t'|] eqn:Ht; [|done]. cbn in Hi. by injection Hi as <- <-.
Qed.

Lemma added_topology_None st upserted id :
  added_topology_of st upserted !! id = None -> is_Some (topology_of st id) ->
  id ∉ up_new upserted ++ up_reshaped upserted.
Proof.
  intros Hn%not_elem_of_list_to_map_2 [t Ht] Hin. apply Hn. rewrite list_elem_of_fmap.
  exists (id, t). split; [done|]. apply list_elem_of_omap. exists id. by rewrite Ht.
Qed.

(** What the two handlers share, on the directions: from a market [st1] with the components
    of [st], components are upserted, then some removed; [st2] is what the feed ends with. *)
Lemma feed_change_directions (st st1 st2 : MarketState) (cs : list ProtocolComponent) (gone : list ComponentId) id :
  let run := upsert_components st1 cs in
  components st1 = components st ->
  components st2 = components (remove_components run.1 gone) ->
  market_swap_directions_of st2 id
  = match added_topology_of st2 run.2 !! id with
    | Some topology => Some (tp_swap_directions topology)
    | None => if decide (id ∈ gone) then None else market_swap_directions_of st id
    end.
Proof.
  cbn zeta. intros Hc1 Hc2. destruct (added_topology_of _ _ !! id) as [t|] eqn:Hn.
  { apply added_topology_lookup in Hn. unfold market_swap_directions_of, topology_of in *.
    destruct (components st2 !! id); [|done]. by injection Hn as <-. }
  unfold market_swap_directions_of. rewrite Hc2, remove_components_lookup. case_decide as Hout; [done|].
  destruct (components (upsert_components st1 cs).1 !! id) as [stored|] eqn:Hs.
  - apply added_topology_None in Hn.
    + apply upsert_components_unreported in Hn. unfold market_swap_directions_of in Hn.
      by rewrite <- Hs, Hn, Hc1.
    + unfold topology_of. rewrite Hc2, remove_components_lookup, decide_False, Hs by done. by eexists.
  - destruct (components st !! id) as [stored|] eqn:Hold; [exfalso|done].
    revert Hs. rewrite <- Hc1 in Hold. clear -Hold. revert st1 stored Hold.
    induction cs as [|c cs IH]; intros st1 stored Hold;
      [change (components st1 !! id = None -> False); by rewrite Hold|]. rewrite upsert_components_cons.
    destruct (decide (id = component_id_of c)) as [Hid|Hid]; eapply IH;
      rewrite upsert_state_components; [by rewrite decide_True|by rewrite decide_False].
Qed.

(** The part that both handlers share; the tokens of [st2] extend those of [st]. *)
Lemma feed_change_describes (st st1 st2 : MarketState) (cs : list ProtocolComponent)
    (gone refreshed : list ComponentId) :
  let run := upsert_components st1 cs in
  let topologies := added_topology_of st2 run.2 in
  feed_ok max_sync_lag st -> components st1 = components st ->
  components st2 = components (remove_components run.1 gone) ->
  (forall id, topologies !! id = None -> (id ∉ gone) -> (id ∉ refreshed) ->
    simulation_states st2 !! id = simulation_states st !! id) ->
  (forall a token, tokens st !! a = Some token -> tokens st2 !! a = Some token) ->
  describes {| added := topologies; removed := gone; updated := refreshed |}
    (market_view price st) (market_view price st2).
Proof.
  cbn zeta. intros Hok Hc1 Hc2 Hsims Htokens.
  apply (describes_intro price max_sync_lag); cbn [added removed updated]; [done| | | |done|done].
  - intros id t. apply added_topology_lookup.
  - intros id Hid. assert (components st2 !! id = None) as Hnone.
    { rewrite Hc2, remove_components_lookup. by rewrite decide_True. }
    split; [|done]. destruct (added_topology_of _ _ !! id) as [t|] eqn:Ht; [|done].
    apply added_topology_lookup in Ht. unfold topology_of in Ht. by rewrite Hnone in Ht.
  - intros id Hn Hout. by rewrite (feed_change_directions st st1 st2 cs gone id Hc1 Hc2), Hn, decide_False.
Qed.

(** Components stored after the upserts have registered tokens, when the upserted ones do. *)
Lemma feed_change_known (st st1 st2 : MarketState) (cs : list ProtocolComponent)
    (gone : list ComponentId) :
  tokens_known st -> components st1 = components st ->
  components st2 = components (remove_components (upsert_components st1 cs).1 gone) ->
  (forall a, is_Some (tokens st !! a) -> is_Some (tokens st2 !! a)) ->
  (forall c a, c ∈ cs -> a ∈ component_tokens_of c -> is_Some (tokens st2 !! a)) ->
  tokens_known st2.
Proof.
  intros Hknown Hc1 Hc2 Hkeep Hnew id stored a. rewrite Hc2, remove_components_lookup.
  case_decide; [done|]. intros [Hs|(c & Hc & Hs)]%upsert_components_from Ha.
  - rewrite Hc1 in Hs. by apply Hkeep, (Hknown id stored).
  - subst c. by apply (Hnew (sc_component stored)).
Qed.

Lemma market_component_fields component :
  component_id_of (market_component component) = component_id_string component /\
  protocol_system_of (market_component component) = streamed_protocol_system component /\
  component_tokens_of (market_component component) = token_address_of <$> streamed_tokens component.
Proof.
  unfold market_component.
  by rewrite component_new_id, component_new_system, component_new_tokens.
Qed.

Lemma market_component_ids (cs : list StreamedComponent) :
  component_id_of <$> (market_component <$> cs) = component_id_string <$> cs.
Proof.
  rewrite <- list_fmap_compose. apply list_fmap_ext. intros i c _. cbn.
  apply (market_component_fields c).
Qed.

Lemma update_states_out st (states : gmap ComponentId ProtocolSim) id :
  states !! id = None ->
  simulation_states (update_states st (map_to_list states)) !! id = simulation_states st !! id.
Proof.
  intros Hn. unfold update_states. cbn. apply fold_insert_out. intros Hin.
  apply list_elem_of_fmap in Hin as ([k s] & -> & Hin%elem_of_map_to_list). cbn in Hn. congruence.
Qed.

(** ** A message of the Tycho stream *)

Lemma set_label_feed_ok st l : feed_ok max_sync_lag st -> feed_ok max_sync_lag (set_label st l).
Proof. intros [Hok Hknown]. split; [by apply set_label_ok|done]. Qed.

Lemma tycho_update_components st update :
  components (tycho_update max_sync_lag update st).1
  = components (remove_components (upsert_components st (market_component <$> new_components update)).1
      (elements (lowercase_removed (upd_removed_pairs update)))).
Proof.
  unfold tycho_update. rewrite (surjective_pairing (upsert_components _ _)). cbn [fst].
  by destruct (update_sync_status_rest (update_states (upsert_tokens (remove_components
    (upsert_components st (market_component <$> new_components update)).1
    (elements (lowercase_removed (upd_removed_pairs update)))) (new_components update ≫= streamed_tokens))
    (map_to_list (lowercase_states (upd_states update)))) (upd_sync_states update) max_sync_lag)
    as (_ & -> & _ & _).
Qed.

Lemma tycho_update_added st update :
  (tycho_update max_sync_lag update st).2
  = added_topology_of (tycho_update max_sync_lag update st).1
      (upsert_components st (market_component <$> new_components update)).2.
Proof. unfold tycho_update. by rewrite (surjective_pairing (upsert_components _ _)). Qed.

Lemma tycho_update_tokens st update :
  tokens (tycho_update max_sync_lag update st).1
  = tokens (upsert_tokens st (new_components update ≫= streamed_tokens)).
Proof.
  unfold tycho_update. rewrite (surjective_pairing (upsert_components _ _)). cbn [fst].
  match goal with |- context [update_sync_status ?s ?l ?n] =>
    destruct (update_sync_status_rest s l n) as (_ & _ & -> & _) end.
  unfold update_states, upsert_tokens, set_simulation_states, set_tokens. cbn.
  by destruct (remove_components_rest (upsert_components st (market_component <$> new_components update)).1
    (elements (lowercase_removed (upd_removed_pairs update)))) as (_ & -> & _ & _),
    (upsert_components_rest st (market_component <$> new_components update)) as (_ & _ & -> & _).
Qed.

Lemma tycho_update_states st update id :
  lowercase_states (upd_states update) !! id = None ->
  (id ∉ elements (lowercase_removed (upd_removed_pairs update))) ->
  simulation_states (tycho_update max_sync_lag update st).1 !! id = simulation_states st !! id.
Proof.
  intros Hn Hout. unfold tycho_update. rewrite (surjective_pairing (upsert_components _ _)). cbn [fst].
  match goal with |- context [update_sync_status ?s ?l ?n] =>
    destruct (update_sync_status_rest s l n) as (_ & _ & _ & ->) end.
  rewrite update_states_out by done.
  unfold upsert_tokens, set_tokens. cbn [simulation_states].
  destruct (remove_components_rest (upsert_components st (market_component <$> new_components update)).1
    (elements (lowercase_removed (upd_removed_pairs update)))) as (_ & _ & _ & Hs).
  rewrite Hs by done.
  by destruct (upsert_components_rest st (market_component <$> new_components update)) as (_ & -> & _).
Qed.

Lemma tycho_update_feed_ok st update :
  feed_ok max_sync_lag st -> update_fits st update ->
  feed_ok max_sync_lag (tycho_update max_sync_lag update st).1.
Proof.
  intros [Hok Hknown] Hfits. split.
  - unfold tycho_update. rewrite (surjective_pairing (upsert_components _ _)). cbn [fst].
    apply update_sync_status_ok, set_simulation_states_ok, upsert_tokens_ok, remove_components_ok,
      upsert_components_ok; [done|apply Hfits].
  - apply (feed_change_known st st _ (market_component <$> new_components update)
      (elements (lowercase_removed (upd_removed_pairs update)))); [done|done|apply tycho_update_components|..].
    + rewrite tycho_update_tokens. intros a [t Ht]. exists t.
      apply upsert_tokens_keep; [apply Hfits|done].
    + rewrite tycho_update_tokens. intros c a (sc & -> & Hsc)%list_elem_of_fmap Ha.
      destruct (market_component_fields sc) as (_ & _ & Hts). rewrite Hts in Ha.
      apply list_elem_of_fmap in Ha as (t & -> & Ht). apply upsert_tokens_registers.
      apply list_elem_of_bind. by exists sc.
Qed.

Lemma tycho_event_describes_lemma st update :
  feed_ok max_sync_lag st -> update_fits st update ->
  let run := tycho_update max_sync_lag update st in
  describes (changed_by (tycho_event update run.2)) (market_view price st) (market_view price run.1).
Proof.
  intros Hok Hfits. cbn zeta. unfold changed_by, tycho_event.
  cbn [added_components removed_components updated_components].
  rewrite tycho_update_added.
  apply (feed_change_describes st st); [done|done|apply tycho_update_components| |].
  - intros id Hn Hout Hupd. apply tycho_update_states; [|done].
    destruct (lowercase_states (upd_states update) !! id) as [s|] eqn:Hs; [exfalso|done].
    apply Hupd, elem_of_elements, elem_of_filter. split; [done|]. apply elem_of_union_l, elem_of_dom. by exists s.
  - intros a token Ha. rewrite tycho_update_tokens. apply upsert_tokens_keep; [apply Hfits|done].
Qed.

(** ** A book update *)

Definition own st (system : string) (component : StreamedComponent) : bool :=
  negb (held_elsewhere st system (component_id_string component)).

Lemma retain_own_fold st system cs acc :
  (fold_left (retain_own st system) cs acc).1 = acc.1 ++ List.filter (own st system) cs.
Proof.
  revert acc. induction cs as [|c cs IH]; intros acc; cbn [fold_left List.filter]; [by rewrite app_nil_r|].
  rewrite IH. unfold retain_own, own. destruct (held_elsewhere st system (component_id_string c)); cbn; [done|].
  by rewrite <- app_assoc.
Qed.

Lemma drop_foreign_spec st update :
  let kept := drop_foreign_components st update in
  let system := bk_protocol_system update in
  bk_added kept = List.filter (own st system) (bk_added update) /\
  bk_updated kept = List.filter (own st system) (bk_updated update).
Proof.
  cbn zeta. unfold drop_foreign_components.
  pose proof (retain_own_fold st (bk_protocol_system update) (bk_added update) ([], bk_states update)) as Ha.
  destruct (fold_left _ (bk_added update) _) as [added states]. cbn in Ha.
  pose proof (retain_own_fold st (bk_protocol_system update) (bk_updated update) ([], states)) as Hu.
  destruct (fold_left _ (bk_updated update) _) as [updated states']. cbn in Hu |- *. by subst.
Qed.

Lemma drop_foreign_system st update : bk_protocol_system (drop_foreign_components st update) = bk_protocol_system update.
Proof. unfold drop_foreign_components. destruct (fold_left _ (bk_added update) _) as [added states]. by destruct (fold_left _ _ _). Qed.

(** What a book feed keeps is its own: the market holds it under no other system. *)
Lemma book_upserts_fit st update : book_fits st update ->
  let kept := drop_foreign_components st update in
  upserts_fit st (market_component <$> bk_added kept ++ bk_updated kept).
Proof.
  intros Hfits. cbn zeta. destruct (drop_foreign_spec st update) as [Ha Hu].
  assert (forall c, c ∈ bk_added (drop_foreign_components st update)
                        ++ bk_updated (drop_foreign_components st update) ->
    streamed_protocol_system c = bk_protocol_system update /\ own st (bk_protocol_system update) c = true) as Hkept.
  { intros c Hc. split; [rewrite <- drop_foreign_system with (st := st); by apply (bf_system _ _ Hfits)|].
    rewrite Ha, Hu in Hc. by apply elem_of_app in Hc as [[_ ?]%elem_of_filterb|[_ ?]%elem_of_filterb]. }
  split.
  - apply Forall_forall. intros c (sc & -> & [Hsys Hown]%Hkept)%list_elem_of_fmap stored.
    destruct (market_component_fields sc) as (-> & -> & _). intros Hs.
    unfold own, held_elsewhere, get_component in Hown. rewrite Hs in Hown. cbn in Hown.
    rewrite negb_involutive in Hown. apply bool_decide_eq_true in Hown. congruence.
  - intros c c' (sc & -> & [Hsys _]%Hkept)%list_elem_of_fmap (sc' & -> & [Hsys' _]%Hkept)%list_elem_of_fmap _.
    destruct (market_component_fields sc) as (_ & -> & _), (market_component_fields sc') as (_ & -> & _).
    congruence.
Qed.

Lemma upsert_components_in st cs id : id ∈ component_id_of <$> cs ->
  is_Some (components (upsert_components st cs).1 !! id).
Proof.
  assert (forall cs st, is_Some (components st !! id) -> is_Some (components (upsert_components st cs).1 !! id))
    as Hkeep.
  { clear. intros cs. induction cs as [|c cs IH]; intros st Hs; [done|]. rewrite upsert_components_cons. apply IH.
    rewrite upsert_state_components. by case_decide. }
  revert st. induction cs as [|c cs IH]; intros st; [by intros []%not_elem_of_nil|].
  rewrite upsert_components_cons. intros [->|Hin]%elem_of_cons; [|by apply IH].
  apply Hkeep. rewrite upsert_state_components. by rewrite decide_True.
Qed.

(** An upserted component that is neither removed nor reported was held before. *)
Lemma unreported_was_held (st1 st2 : MarketState) cs gone id :
  components st2 = components (remove_components (upsert_components st1 cs).1 gone) ->
  added_topology_of st2 (upsert_components st1 cs).2 !! id = None ->
  (id ∉ gone) -> id ∈ component_id_of <$> cs -> is_Some (components st1 !! id).
Proof.
  intros Hc2 Hn Hout Hin. destruct (upsert_components_in st1 cs id Hin) as [stored Hs].
  apply added_topology_None in Hn.
  - apply upsert_components_unreported in Hn. unfold market_swap_directions_of in Hn. rewrite Hs in Hn.
    destruct (components st1 !! id); [by eexists|done].
  - unfold topology_of. rewrite Hc2, remove_components_lookup, decide_False, Hs by done. by eexists.
Qed.

(** The state after a book update, in one piece. *)
Definition book_state st (kept : BookUpdate) : MarketState :=
  update_states (remove_components (upsert_components
    (upsert_tokens st (bk_added kept ≫= streamed_tokens))
    (market_component <$> bk_added kept ++ bk_updated kept)).1 (bk_removed kept)) (map_to_list (bk_states kept)).

Lemma handle_book_update_eq md update :
  let kept := drop_foreign_components (md_data md) update in
  let topologies := added_topology_of (book_state (md_data md) kept)
    (upsert_components (upsert_tokens (md_data md) (bk_added kept ≫= streamed_tokens))
      (market_component <$> bk_added kept ++ bk_updated kept)).2 in
  handle_book_update md update
  = (set_data md (book_state (md_data md) kept),
     {| added_components := topologies; removed_components := bk_removed kept;
        updated_components := List.filter (fun id => bool_decide (topologies !! id = None))
          (component_id_string <$> bk_updated kept) |}).
Proof.
  cbn zeta. unfold handle_book_update, book_state.
  by rewrite (surjective_pairing (upsert_components (upsert_tokens (md_data md) _) _)).
Qed.

Lemma book_state_tokens st kept :
  tokens (book_state st kept) = tokens (upsert_tokens st (bk_added kept ≫= streamed_tokens)).
Proof.
  unfold book_state, update_states, set_simulation_states. cbn [tokens].
  by destruct (remove_components_rest (upsert_components
      (upsert_tokens st (bk_added kept ≫= streamed_tokens))
      (market_component <$> bk_added kept ++ bk_updated kept)).1 (bk_removed kept)) as (_ & -> & _ & _),
    (upsert_components_rest (upsert_tokens st (bk_added kept ≫= streamed_tokens))
      (market_component <$> bk_added kept ++ bk_updated kept)) as (_ & _ & -> & _).
Qed.

Lemma book_update_feed_ok st update : feed_ok max_sync_lag st -> book_fits st update ->
  feed_ok max_sync_lag (book_state st (drop_foreign_components st update)).
Proof.
  intros [Hok Hknown] Hfits. destruct (drop_foreign_spec st update) as [Ha Hu]. split.
  - apply set_simulation_states_ok, remove_components_ok, upsert_components_ok;
      [by apply upsert_tokens_ok|exact (book_upserts_fit st update Hfits)].
  - apply (feed_change_known st (upsert_tokens st (bk_added (drop_foreign_components st update) ≫= streamed_tokens))
      (book_state st (drop_foreign_components st update)) _ _ Hknown eq_refl eq_refl);
      rewrite book_state_tokens.
    + intros a [t Ht]. exists t. apply upsert_tokens_keep; [apply (bf_tokens _ _ Hfits)|done].
    + intros c a (sc & -> & Hsc)%list_elem_of_fmap Hin.
      destruct (market_component_fields sc) as (_ & _ & Hts). rewrite Hts in Hin.
      apply list_elem_of_fmap in Hin as (t & -> & Ht). apply elem_of_app in Hsc as [Hsc|Hsc].
      * apply upsert_tokens_registers, list_elem_of_bind. by exists sc.
      * by apply (bf_known _ _ Hfits sc t).
Qed.

Lemma book_event_describes_lemma md update :
  feed_ok max_sync_lag (md_data md) -> book_fits (md_data md) update ->
  let run := handle_book_update md update in
  describes (changed_by run.2) (market_view price (md_data md)) (market_view price (md_data run.1)).
Proof.
  intros Hok Hfits. cbn zeta. rewrite handle_book_update_eq. cbn [fst snd set_data md_data].
  set (st := md_data md) in *. unfold book_fits in Hfits.
  set (kept := drop_foreign_components st update) in *.
  unfold changed_by. cbn [added_components removed_components updated_components].
  apply (feed_change_describes st (upsert_tokens st (bk_added kept ≫= streamed_tokens)));
    [done|done|done| |].
  - intros id Hn Hout Hupd. unfold book_state.
    assert (bk_states kept !! id = None) as Hnone.
    { destruct (bk_states kept !! id) as [s|] eqn:Hs; [exfalso|done].
      assert (id ∉ component_id_string <$> bk_updated kept) as Hnot.
      { intros Hin. apply Hupd, elem_of_filterb. split; [done|]. by apply bool_decide_eq_true. }
      pose proof (bf_states _ _ Hfits id ltac:(by exists s)) as Hin.
      rewrite fmap_app, elem_of_app in Hin. destruct Hin as [Hin|Hin]; [|done].
      destruct (unreported_was_held _ _ _ (bk_removed kept) id eq_refl Hn Hout) as [stored Hheld].
      { rewrite market_component_ids, fmap_app, elem_of_app. by left. }
      change (components st !! id = Some stored) in Hheld. apply list_elem_of_fmap in Hin as (c & -> & Hc).
      destruct (bf_added _ _ Hfits c Hc) as [Hnew|[Hold|Hnone]]; congruence. }
    rewrite update_states_out by done.
    destruct (remove_components_rest (upsert_components (upsert_tokens st (bk_added kept ≫= streamed_tokens))
      (market_component <$> bk_added kept ++ bk_updated kept)).1 (bk_removed kept)) as (_ & _ & _ & Hs).
    rewrite Hs by done.
    by destruct (upsert_components_rest (upsert_tokens st (bk_added kept ≫= streamed_tokens))
      (market_component <$> bk_added kept ++ bk_updated kept)) as (_ & -> & _).
  - intros a token Htok. rewrite book_state_tokens. apply upsert_tokens_keep; [|done].
    apply (bf_tokens _ _ Hfits).
Qed.
End messages.

(** ** The feed and the manager together *)

Section pipeline.
Context `{TychoStream} (max_sync_lag : N) (price : ProtocolSim -> Token -> Token -> result string f64).
Context (parse_address : string -> option Address) (show_address : Address -> string) (now : N).
Implicit Types (md : MarketData) (store : DerivedData).

Definition message_fits md (msg : FeedMessage) : Prop :=
  match msg with
  | TychoMessage update => update_fits (md_data md) update
  | BookMessage update => book_fits (md_data md) update
  end.

(** What a receiver of the feed's events learns from a message. *)
Definition event_changes (ev : option MarketEvent) : ChangedComponents :=
  match ev with
  | Some ev => changed_by ev
  | None => {| added := ∅; removed := []; updated := [] |}
  end.

Lemma has_changes_none (ev : MarketEvent) : has_changes ev = false ->
  added_components ev = ∅ /\ removed_components ev = [] /\ updated_components ev = [].
Proof.
  unfold has_changes. intros [[Ha Hr]%orb_false_iff Hu]%orb_false_iff.
  apply negb_false_iff, bool_decide_eq_true in Ha, Hr, Hu. done.
Qed.

Lemma feed_message_lemma md msg :
  feed_ok max_sync_lag (md_data md) -> message_fits md msg ->
  let run := handle_message max_sync_lag md msg in
  feed_ok max_sync_lag (md_data run.1) /\
  describes (event_changes run.2) (market_view price (md_data md)) (market_view price (md_data run.1)).
Proof.
  intros Hok Hfits. cbn zeta. destruct msg as [update|update]; cbn [handle_message message_fits] in *.
  - unfold handle_tycho_message, apply_block_update, commit_block. cbn [fst snd md_data set_data evict_overlays set_overlays].
    set (st := set_label (md_data md) (pretty (upd_block_number update))).
    assert (feed_ok max_sync_lag st) as Hst by by apply set_label_feed_ok.
    assert (update_fits st update) as Hst' by (by destruct Hfits).
    split; [by apply tycho_update_feed_ok|].
    pose proof (tycho_event_describes_lemma max_sync_lag price st update Hst Hst') as Hd. cbn zeta in Hd.
    change (market_view price (md_data md)) with (market_view price st).
    destruct (has_changes _) eqn:Hch; [exact Hd|]. cbn [event_changes].
    apply has_changes_none in Hch as (Ha & Hr & Hu).
    unfold changed_by in Hd. by rewrite Ha, Hr, Hu in Hd.
  - pose proof (book_event_describes_lemma max_sync_lag price md update Hok Hfits) as Hd. cbn zeta in Hd.
    pose proof (book_update_feed_ok max_sync_lag (md_data md) update Hok Hfits) as Hok'.
    pose proof (handle_book_update_eq md update) as Heq. cbn zeta in Heq.
    destruct (handle_book_update md update) as [md' ev]. cbn [fst snd] in *. split; [|exact Hd].
    injection Heq as -> _. exact Hok'.
Qed.

(** The directions of the market after a message are those its event tells. *)
Lemma feed_message_directions md msg id :
  let run := handle_message max_sync_lag md msg in
  market_swap_directions_of (md_data run.1) id
  = match added (event_changes run.2) !! id with
    | Some topology => Some (tp_swap_directions topology)
    | None => if decide (id ∈ removed (event_changes run.2)) then None
              else market_swap_directions_of (md_data md) id
    end /\
  (forall topology, added (event_changes run.2) !! id = Some topology ->
    topology_of (md_data run.1) id = Some topology) /\
  (id ∈ removed (event_changes run.2) -> components (md_data run.1) !! id = None).
Proof.
  cbn zeta. destruct msg as [update|update]; cbn [handle_message].
  - unfold handle_tycho_message, apply_block_update, commit_block. cbn [fst snd md_data set_data evict_overlays set_overlays].
    set (st := set_label (md_data md) (pretty (upd_block_number update))).
    pose proof (feed_change_directions st st _ (market_component <$> new_components update) _ id eq_refl
      (tycho_update_components max_sync_lag st update)) as Hd. cbn zeta in Hd.
    rewrite <- tycho_update_added in Hd.
    pose proof (fun t => added_topology_lookup (tycho_update max_sync_lag update st).1
      (upsert_components st (market_component <$> new_components update)).2 id t) as Hl.
    rewrite <- tycho_update_added in Hl.
    change (market_swap_directions_of (md_data md) id) with (market_swap_directions_of st id).
    assert (id ∈ elements (lowercase_removed (upd_removed_pairs update)) ->
      components (tycho_update max_sync_lag update st).1 !! id = None) as Hgone.
    { intros Hin. by rewrite tycho_update_components, remove_components_lookup, decide_True. }
    destruct (has_changes _) eqn:Hch; [by split_and!|].
    apply has_changes_none in Hch as (Ha & Hr & _). cbn [tycho_event added_components removed_components] in Ha, Hr.
    rewrite Ha, Hr in Hd. cbn. rewrite lookup_empty in *. split_and!; [done|done|]. by intros []%not_elem_of_nil.
  - pose proof (handle_book_update_eq md update) as Heq. cbn zeta in Heq.
    destruct (handle_book_update md update) as [md' ev]. injection Heq as -> ->.
    cbn [fst snd event_changes changed_by added removed added_components removed_components md_data set_data].
    set (kept := drop_foreign_components (md_data md) update).
    split_and!; [|apply added_topology_lookup|].
    + by apply (feed_change_directions (md_data md) (upsert_tokens (md_data md) (bk_added kept ≫= streamed_tokens))).
    + intros Hin. unfold book_state. change (components (update_states ?st ?l)) with (components st).
      by rewrite remove_components_lookup, decide_True.
Qed.

Context (computations : Market -> list Computation).

(** The feed handles a message, then the manager the event it emitted, reading the market
    as the message left it. *)
Definition feed_and_derive (acc : MarketData * DerivedData) (msg : FeedMessage)
    : option (MarketData * DerivedData) :=
  let '(md, ev) := handle_message max_sync_lag acc.1 msg in
  match ev with
  | None => Some (md, acc.2)
  | Some ev =>
      '(store, _) ← handle_market_event (computations (market_view price (md_data md)))
                      (block_number <$> last_updated (md_data md)) acc.2 ev;
      Some (md, store)
  end.

Fixpoint feed_and_derive_all (acc : MarketData * DerivedData) (msgs : list FeedMessage)
    : option (MarketData * DerivedData) :=
  match msgs with
  | [] => Some acc
  | msg :: msgs => acc ← feed_and_derive acc msg; feed_and_derive_all acc msgs
  end.

(** Every message fits the market it meets, and leaves it with a last block. *)
Fixpoint messages_fit md (msgs : list FeedMessage) : Prop :=
  match msgs with
  | [] => True
  | msg :: msgs =>
      let md' := (handle_message max_sync_lag md msg).1 in
      message_fits md msg /\ is_Some (last_updated (md_data md')) /\ messages_fit md' msgs
  end.

(** Spot prices are among the registered computations, whatever the market. *)
Record registers_spot_prices : Prop := {
  rs_distinct : forall m, NoDup (comp_id <$> computations m);
  rs_persist : forall m c, c ∈ computations m -> PersistsOwnSlot c;
  rs_spot : forall m, spot_price_computation parse_address now show_address m ∈ computations m;
}.

Lemma feed_and_derive_follows md store msg :
  registers_spot_prices -> feed_ok max_sync_lag (md_data md) -> message_fits md msg ->
  is_Some (last_updated (md_data (handle_message max_sync_lag md msg).1)) ->
  is_full (market_view price (md_data md)) (default ∅ (spot_prices store)) ->
  exists store', feed_and_derive (md, store) msg = Some ((handle_message max_sync_lag md msg).1, store') /\
    is_full (market_view price (md_data (handle_message max_sync_lag md msg).1)) (default ∅ (spot_prices store')).
Proof.
  intros Hreg Hok Hfits [info Hblock] Hfull.
  destruct (feed_message_lemma md msg Hok Hfits) as [_ Hd]. unfold feed_and_derive. cbn [fst snd].
  destruct (handle_message max_sync_lag md msg) as [md' [ev|]]; cbn [fst snd] in *.
  - rewrite Hblock. cbn [fmap option_fmap option_map].
    destruct (spot_prices_follow parse_address show_address now (block_number info)
      (computations (market_view price (md_data md'))) _ _ ev store (rs_distinct Hreg _)
      (rs_persist Hreg _) (rs_spot Hreg _) Hfull Hd) as (store' & events & Hrun & Hfull').
    exists store'. by rewrite Hrun.
  - exists store. split; [done|]. intros k. rewrite (Hfull k). symmetry.
    apply (ds_others _ _ _ Hd); cbn; [apply lookup_empty|apply not_elem_of_nil..].
Qed.
End pipeline.

(** ** Properties *)

(** A market event tells everything that changed. Any message of the stream or of a
    venue's books that keeps its sender's promises leaves the market consistent, and what
    its event says (nothing, when no event is sent) describes the step: added components
    are listed with their directions, removed ones are gone, and every component it does
    not mention prices exactly as before. *)
Theorem feed_event_describes `{TychoStream} (max_sync_lag : N)
    (price : ProtocolSim -> Token -> Token -> result string f64) (md : MarketData) (msg : FeedMessage) :
  feed_ok max_sync_lag (md_data md) -> message_fits md msg ->
  let run := handle_message max_sync_lag md msg in
  feed_ok max_sync_lag (md_data run.1) /\
  describes (event_changes run.2) (market_view price (md_data md)) (market_view price (md_data run.1)).
Proof. apply feed_message_lemma. Qed.

(** C29: the stored spot prices follow the stream. Starting from a consistent market whose
    directions are all priced in the store, after any sequence of stream and book messages that
    fit, each handled by the feed and its event by the manager, the run has succeeded and the
    stored spot prices are those of every direction of the final market, whatever other
    computations are registered. Messages fit when components keep their protocol system and
    tokens sent again their data, the market has a last block, and, of what the feed keeps of a
    venue's update, an added component is not already held (or is refreshed too, or comes without a
    state), a refreshed one brings no token the feed has not registered, and states are of
    what is listed; what a venue says of components held under another system is dropped, and
    need not fit. A refreshed component with a new token goes unpriced
    ([refreshed_token_unregistered]). *)
Theorem spot_prices_follow_feed `{TychoStream} (max_sync_lag now : N)
    (price : ProtocolSim -> Token -> Token -> result string f64)
    (parse_address : string -> option Address) (show_address : Address -> string)
    (computations : Market -> list Computation) (md : MarketData) (store : DerivedData)
    (msgs : list FeedMessage) :
  registers_spot_prices parse_address show_address now computations ->
  feed_ok max_sync_lag (md_data md) -> messages_fit max_sync_lag md msgs ->
  is_full (market_view price (md_data md)) (default ∅ (spot_prices store)) ->
  exists md' store',
    feed_and_derive_all max_sync_lag price computations (md, store) msgs = Some (md', store') /\
    feed_ok max_sync_lag (md_data md') /\
    is_full (market_view price (md_data md')) (default ∅ (spot_prices store')).
Proof.
  intros Hreg. revert md store. induction msgs as [|msg msgs IH]; intros md store Hok Hfit Hfull.
  { by exists md, store. }
  destruct Hfit as (Hmsg & Hblock & Hrest). cbn [feed_and_derive_all].
  destruct (feed_and_derive_follows max_sync_lag price parse_address show_address now computations
    md store msg Hreg Hok Hmsg Hblock Hfull) as (store' & -> & Hfull').
  destruct (feed_message_lemma max_sync_lag price md msg Hok Hmsg) as [Hok' _].
  by apply IH.
Qed.

(** ** Witnesses *)

Section witnesses.
#[local] Existing Instances MarketSample.tycho MarketSample.tycho_market.

Definition sample_stream : TychoStream := {|
  StreamedComponent := MarketSample.Component;
  streamed_id := MarketSample.c_id;
  streamed_protocol_system := MarketSample.c_system;
  streamed_tokens := MarketSample.c_tokens;
  streamed_attributes := MarketSample.c_attributes;
  show_bytes := fun b => b;
  component_new := fun i s ts attrs _ => {| MarketSample.c_id := i; MarketSample.c_system := s;
    MarketSample.c_tokens := ts; MarketSample.c_attributes := attrs |};
  component_new_id := fun _ _ _ _ _ => eq_refl;
  component_new_system := fun _ _ _ _ _ => eq_refl;
  component_new_tokens := fun _ _ _ _ _ => eq_refl;
  component_new_attributes := fun _ _ _ _ _ => eq_refl;
|}.
#[local] Existing Instance sample_stream.

(** A block with a pool, whose state is keyed in another case, then a venue's book. *)
Definition block_message : FeedMessage := TychoMessage {|
  upd_block_number := 5;
  upd_new_pairs := {[ "AB"%string := (MarketSample.ab : StreamedComponent) ]};
  upd_removed_pairs := ∅;
  upd_states := {[ "AB"%string := (1%N : ProtocolSim) ]};
  upd_sync_states := [("uniswap_v2"%string, SS_Ready (MarketSample.header 5 60))] |}.

Definition book_message : FeedMessage := BookMessage {|
  bk_protocol_system := "fallback:rfq";
  bk_added := [MarketSample.bc : StreamedComponent];
  bk_removed := ["old"%string];
  bk_updated := [];
  bk_states := {[ "bc"%string := (2%N : ProtocolSim) ]} |}.

(** Another venue claims the pool of the block's protocol, and refreshes a book that is not its own. *)
Definition foreign_message : FeedMessage := BookMessage {|
  bk_protocol_system := "rfq:other";
  bk_added := [MarketSample.pool "ab" "rfq:other" [Sample.A; Sample.C] : StreamedComponent];
  bk_removed := ["bc"%string];
  bk_updated := [MarketSample.bc : StreamedComponent];
  bk_states := {[ "ab"%string := (9%N : ProtocolSim); "bc"%string := (9%N : ProtocolSim) ]} |}.

Definition empty_market : MarketData := {| md_data := MarketState_new; md_overlays := ∅ |}.

Definition one_price (_ : ProtocolSim) (_ _ : Token) : result string f64 := Ok F64.one.

Lemma empty_feed_ok : feed_ok 50 (md_data empty_market).
Proof. split; [apply MarketState_new_ok|]. intros id stored a. cbn. by rewrite lookup_empty. Qed.

(** A sample token is its own address. *)
Lemma sample_tokens_agree st ts : market_ok 50 st -> tokens_agree st ts.
Proof. intros Hok t t' _ Ht. by apply (mk_tokens _ _ Hok) in Ht. Qed.

Lemma block_message_fits : message_fits empty_market block_message.
Proof.
  split; [split|].
  - repeat constructor. intros stored. cbn. by rewrite lookup_empty.
  - intros c c' Hc Hc'. vm_compute in Hc, Hc'.
    apply list_elem_of_singleton in Hc, Hc'. by subst.
  - apply sample_tokens_agree, MarketState_new_ok.
Qed.

Lemma feed_event_describes_witness :
  describes (event_changes (handle_message 50 empty_market block_message).2)
    (market_view one_price (md_data empty_market))
    (market_view one_price (md_data (handle_message 50 empty_market block_message).1)).
Proof. by apply (feed_event_describes 50 one_price empty_market block_message empty_feed_ok block_message_fits). Defined.

Definition after_block : MarketData := (handle_message 50 empty_market block_message).1.
Definition after_book : MarketData := (handle_message 50 after_block book_message).1.

Lemma after_block_ok : feed_ok 50 (md_data after_block).
Proof. apply (feed_message_lemma 50 one_price _ _ empty_feed_ok block_message_fits). Qed.

Lemma book_message_fits : message_fits after_block book_message.
Proof.
  pose proof (fo_ok _ _ after_block_ok) as Hok. cbn [message_fits book_message]. unfold book_fits.
  match goal with |- kept_fits _ (drop_foreign_components _ ?u) =>
    assert (drop_foreign_components (md_data after_block) u = u) as -> by by vm_compute end.
  split; cbn [bk_added bk_updated bk_protocol_system bk_states].
  - by intros c [->|[]%not_elem_of_nil]%elem_of_cons.
  - intros c [->|[]%not_elem_of_nil]%elem_of_cons. left. by vm_compute.
  - by apply sample_tokens_agree.
  - by intros c t []%not_elem_of_nil.
  - intros id [s [<- _]%lookup_singleton_Some]. left.
Qed.

(** The feed keeps nothing of the foreign venue's update, so it fits whatever it says. *)
Lemma foreign_message_fits : message_fits after_book foreign_message.
Proof.
  cbn [message_fits foreign_message]. unfold book_fits.
  match goal with |- kept_fits _ (drop_foreign_components _ ?u) => assert (drop_foreign_components (md_data after_book) u
    = {| bk_protocol_system := "rfq:other"; bk_added := []; bk_removed := []; bk_updated := []; bk_states := ∅ |}) as -> by by vm_compute end.
  split; cbn [bk_added bk_updated bk_states app fmap list_fmap].
  - by intros c []%not_elem_of_nil.
  - by intros c []%not_elem_of_nil.
  - by intros t t' []%not_elem_of_nil.
  - by intros c t []%not_elem_of_nil.
  - intros id [s Hs]. by rewrite lookup_empty in Hs.
Qed.

Definition spot_prices_only (m : Market) : list Computation :=
  [spot_price_computation (fun s => Some s) 7 (fun a => a) m].

Lemma spot_prices_follow_feed_witness :
  exists md' store',
    feed_and_derive_all 50 one_price spot_prices_only (empty_market, DerivedData_new)
      [block_message; book_message; foreign_message] = Some (md', store') /\
    feed_ok 50 (md_data md') /\
    is_full (market_view one_price (md_data md')) (default ∅ (spot_prices store')).
Proof.
  apply (spot_prices_follow_feed 50 7 one_price (fun s => Some s) (fun a => a) spot_prices_only
    empty_market DerivedData_new).
  - split; intros m.
    + apply NoDup_singleton.
    + intros c [->|[]%not_elem_of_nil]%elem_of_cons. apply spot_price_persists_own_slot.
    + left.
  - exact empty_feed_ok.
  - split; [exact block_message_fits|]. split; [eexists; by vm_compute|].
    split; [exact book_message_fits|]. split; [eexists; by vm_compute|].
    split; [exact foreign_message_fits|]. split; [eexists; by vm_compute|done].
  - intros [[id x] y]. unfold full_price. cbn. unfold market_swap_directions_of. cbn. by rewrite !lookup_empty.
Defined.

(** A venue refreshes its book with a direction over a token the market has not seen: the feed reports the
    direction as added, but registers tokens of added components only, so nothing can price it. *)
Definition refreshing_message : FeedMessage := BookMessage {|
  bk_protocol_system := "fallback:rfq";
  bk_added := []; bk_removed := [];
  bk_updated := [MarketSample.pool "bc" "fallback:rfq" [Sample.C; "X"%string] : StreamedComponent];
  bk_states := {[ "bc"%string := (3%N : ProtocolSim) ]} |}.

Example refreshed_token_unregistered :
  let '(md, event) := handle_message 50 after_book refreshing_message in
  match event with
  | Some ev => option_map (fun topology => bool_decide ((Sample.C, "X"%string : Address) ∈ tp_swap_directions topology))
      (added_components ev !! "bc"%string)
  | None => None
  end = Some true /\
  tokens (md_data md) !! ("X"%string : Address) = None /\
  option_map (fun run => default ∅ (spot_prices run.2) !! ("bc"%string, Sample.C, "X"%string))
    (feed_and_derive_all 50 one_price spot_prices_only (empty_market, DerivedData_new)
       [block_message; book_message; refreshing_message]) = Some None.
Proof. by vm_compute. Qed.
End witnesses.
