(* ===== verification/StableGraph.v ===== *)
(** * StableGraph: the graph library as an interface

    Both market graphs of [fynd-core/src/graph/] are [petgraph] stable directed graphs with
    token addresses as nodes. [petgraph] is not part of the repository: the class [DiGraph]
    states what the code relies on, and the client theorems are proved against it. Finite
    maps are an instance. *)

From stdpp Require Import prelude gmap sets strings list fin_maps infinite.
From Stdlib Require Import NArith ZArith Lia.
From S2P Require Import Prelude F64 Types.

Abbreviation NodeIndex := nat (only parsing).
Abbreviation EdgeIndex := nat (only parsing).

(** [edge] is [edge_endpoints] and [edge_weight] together; [set_edge_weight] writes through
    [edge_weight_mut]. Indices stay valid after removals, and a new one is not in use. *)
Class DiGraph (W : Type) : Type := {
  digraph : Type;
  graph_empty : digraph;
  node_weight : digraph -> NodeIndex -> option Address;
  edge : digraph -> EdgeIndex -> option (NodeIndex * NodeIndex * W);
  edge_indices : digraph -> list EdgeIndex;
  neighbors : digraph -> NodeIndex -> list NodeIndex;
  add_node : digraph -> Address -> digraph * NodeIndex;
  add_edge : digraph -> NodeIndex -> NodeIndex -> W -> digraph * EdgeIndex;
  remove_edge : digraph -> EdgeIndex -> digraph;
  set_edge_weight : digraph -> EdgeIndex -> W -> digraph;

  node_weight_empty : forall i, node_weight graph_empty i = None;
  edge_empty : forall e, edge graph_empty e = None;
  edge_indices_spec : forall g e, e ∈ edge_indices g <-> is_Some (edge g e);
  edge_indices_NoDup : forall g, NoDup (edge_indices g);
  neighbors_spec : forall g a, exists es, NoDup es /\
    (forall e, e ∈ es <-> exists b w, edge g e = Some (a, b, w)) /\
    neighbors g a = omap (fun e => (fun x => x.1.2) <$> edge g e) es;
  add_node_fresh : forall g a, node_weight g (add_node g a).2 = None;
  add_node_node : forall g a i,
    node_weight (add_node g a).1 i = if decide (i = (add_node g a).2) then Some a else node_weight g i;
  add_node_edge : forall g a e, edge (add_node g a).1 e = edge g e;
  add_edge_fresh : forall g a b w, edge g (add_edge g a b w).2 = None;
  add_edge_edge : forall g a b w e,
    edge (add_edge g a b w).1 e = if decide (e = (add_edge g a b w).2) then Some (a, b, w) else edge g e;
  add_edge_node : forall g a b w i, node_weight (add_edge g a b w).1 i = node_weight g i;
  remove_edge_edge : forall g e e', edge (remove_edge g e) e' = if decide (e' = e) then None else edge g e';
  remove_edge_node : forall g e i, node_weight (remove_edge g e) i = node_weight g i;
  set_edge_weight_edge : forall g e w e',
    edge (set_edge_weight g e w) e'
    = if decide (e' = e) then (fun x => (x.1.1, x.1.2, w)) <$> edge g e else edge g e';
  set_edge_weight_node : forall g e w i, node_weight (set_edge_weight g e w) i = node_weight g i;
}.

(** ** The neighbours of a node *)

Section neighbors.
Context `{DiGraph W}.

Lemma neighbors_elem (g : digraph) a b :
  b ∈ neighbors g a <-> exists e w, edge g e = Some (a, b, w).
Proof.
  destruct (neighbors_spec g a) as (es & _ & Hes & ->). rewrite list_elem_of_omap. split.
  - intros (e & He & Hb). apply Hes in He as (b' & w & He). rewrite He in Hb. injection Hb as ->.
    by exists e, w.
  - intros (e & w & He). exists e. split; [apply Hes; by exists b, w|]. by rewrite He.
Qed.

(** Without parallel edges no neighbour is named twice. *)
Lemma neighbors_NoDup (g : digraph) a :
  (forall e e' b w w', edge g e = Some (a, b, w) -> edge g e' = Some (a, b, w') -> e = e') ->
  NoDup (neighbors g a).
Proof.
  intros Hpar. destruct (neighbors_spec g a) as (es & Hnd & Hes & ->).
  assert (forall e, e ∈ es -> exists b w, edge g e = Some (a, b, w)) as Hin by (intros e; apply Hes).
  clear Hes. induction es as [|e es IH]; [constructor|]. apply NoDup_cons in Hnd as [Hout Hnd].
  destruct (Hin e ltac:(left)) as (b & w & He). cbn. rewrite He. cbn. constructor.
  - intros (e' & He' & Hb)%list_elem_of_omap. destruct (Hin e' ltac:(by right)) as (b' & w' & Hb').
    rewrite Hb' in Hb. injection Hb as ->. by rewrite (Hpar _ _ _ _ _ He Hb') in Hout.
  - apply IH; [done|]. intros e' He'. apply Hin. by right.
Qed.
End neighbors.

(** ** Finite maps as a stable graph *)

Module MapGraph.
Record t (W : Type) := {
  nodes : gmap nat Address;
  edges : gmap nat (nat * nat * W);
}.
Arguments nodes {W} _.
Arguments edges {W} _.

Section instance.
Context {W : Type}.

Definition out (g : t W) (a : nat) : list (nat * (nat * nat * W)) :=
  List.filter (fun kv => bool_decide (kv.2.1.1 = a)) (map_to_list (edges g)).

Program Definition digraph_map : DiGraph W := {|
  digraph := t W;
  graph_empty := {| nodes := ∅; edges := ∅ |};
  node_weight := fun g i => nodes g !! i;
  edge := fun g e => edges g !! e;
  edge_indices := fun g => (map_to_list (edges g)).*1;
  neighbors := fun g a => omap (fun e => (fun x => x.1.2) <$> edges g !! e) ((out g a).*1);
  add_node := fun g a =>
    let i := fresh (dom (nodes g)) in ({| nodes := <[i := a]> (nodes g); edges := edges g |}, i);
  add_edge := fun g a b w =>
    let e := fresh (dom (edges g)) in ({| nodes := nodes g; edges := <[e := (a, b, w)]> (edges g) |}, e);
  remove_edge := fun g e => {| nodes := nodes g; edges := delete e (edges g) |};
  set_edge_weight := fun g e w =>
    {| nodes := nodes g; edges := alter (fun x => (x.1.1, x.1.2, w)) e (edges g) |};
|}.
Next Obligation. intros i. apply lookup_empty. Qed.
Next Obligation. intros e. apply lookup_empty. Qed.
Next Obligation.
  intros g e. cbn. split.
  - intros ([e' x] & -> & Hx%elem_of_map_to_list)%list_elem_of_fmap. by exists x.
  - intros [x Hx]. apply list_elem_of_fmap. exists (e, x). split; [done|]. by apply elem_of_map_to_list.
Qed.
Next Obligation. intros g. apply NoDup_fst_map_to_list. Qed.
Next Obligation.
  intros g a. exists ((out g a).*1). split_and!; [| |done].
  - apply (sublist_NoDup _ _ (NoDup_fst_map_to_list (edges g))). apply fmap_sublist, sublist_filterb.
  - intros e. rewrite list_elem_of_fmap. split.
    + intros ([e' [[a' b] w]] & -> & [Hin%elem_of_map_to_list Ha%bool_decide_eq_true]%elem_of_filterb).
      cbn in *. subst a'. by exists b, w.
    + intros (b & w & He). exists (e, (a, b, w)). split; [done|]. apply elem_of_filterb.
      split; [by apply elem_of_map_to_list|by apply bool_decide_eq_true].
Qed.
Next Obligation. intros g a. cbn. apply not_elem_of_dom, is_fresh. Qed.
Next Obligation.
  intros g a i. cbn. case_decide; [subst; by rewrite lookup_insert_eq|by rewrite lookup_insert_ne].
Qed.
Next Obligation. done. Qed.
Next Obligation. intros g a b w. cbn. apply not_elem_of_dom, is_fresh. Qed.
Next Obligation.
  intros g a b w e. cbn. case_decide; [subst; by rewrite lookup_insert_eq|by rewrite lookup_insert_ne].
Qed.
Next Obligation. done. Qed.
Next Obligation.
  intros g e e'. cbn. case_decide; [subst; by rewrite lookup_delete_eq|by rewrite lookup_delete_ne].
Qed.
Next Obligation. done. Qed.
Next Obligation.
  intros g e w e'. cbn. case_decide; [subst; by rewrite lookup_alter_eq|by rewrite lookup_alter_ne].
Qed.
Next Obligation. done. Qed.
End instance.
End MapGraph.
