(* ===== verification/TokenGraph.v ===== *)
(** * TokenGraph: the graph of token pairs and its route search

    Models [fynd-core/src/graph/token_graph.rs], and the search bounds, the [Path] and the
    errors of [fynd-core/src/graph/mod.rs]. Tokens are nodes; a directed pair has one edge,
    whose weight lists the pools that trade it. The manager keeps the graph in step with
    the market's events; the search enumerates token sequences by meeting in the middle and
    [expand_path] writes out the choices of pools. The native wrap is a pool whose step
    costs no hop. *)

From stdpp Require Import prelude gmap sets strings list sorting.
From Stdlib Require Import NArith ZArith Lia.
From S2P Require Import Prelude F64 Types Tracker DerivedStore SpotPriceComputation Manager.
From S2P Require Import MarketData StableGraph.

#[local] Open Scope nat_scope.

Record EdgeData (D : Type) := {
  ed_component_id : ComponentId;
  ed_data : option D;
}.
Arguments ed_component_id {D} _.
Arguments ed_data {D} _.
Arguments Build_EdgeData {D} _ _.

Definition EdgeData_new {D} (component_id : ComponentId) : EdgeData D :=
  Build_EdgeData component_id None.

(** The pools of one directed pair, in the order they were added. *)
Abbreviation PairEdge D := (list (EdgeData D)) (only parsing).

Definition PairEdge_insert {D} (pools : PairEdge D) (component_id : ComponentId) : PairEdge D :=
  if existsb (fun pool => bool_decide (ed_component_id pool = component_id)) pools then pools
  else pools ++ [EdgeData_new component_id].

Definition PairEdge_remove {D} (pools : PairEdge D) (component_id : ComponentId) : PairEdge D :=
  List.filter (fun pool => negb (bool_decide (ed_component_id pool = component_id))) pools.

Abbreviation TokenPath := (list NodeIndex) (only parsing).

(** A route with a pool chosen for every leg. *)
Record Path (D : Type) := {
  path_tokens : list Address;
  path_edge_data : list (EdgeData D);
}.
Arguments path_tokens {D} _.
Arguments path_edge_data {D} _.
Arguments Build_Path {D} _ _.

Definition Path_new {D} : Path D := Build_Path [] [].

Definition add_hop {D} (path : Path D) (from : Address) (pool : EdgeData D) (to : Address) : Path D :=
  Build_Path ((match path_tokens path with [] => [from] | ts => ts end) ++ [to])
    (path_edge_data path ++ [pool]).

Record GraphQueryFilter := {
  min_hops : nat;
  max_hops : nat;
  connector_tokens : option (gset Address);
}.

Record RouteSearch := {
  rs_bounds : GraphQueryFilter;
  rs_constraints : ResolvedRouteConstraints;
}.

(** [RouteSearch::allows_token]; the endpoints are the route's own. *)
Definition search_allows_token (search : RouteSearch) (token : Address) (endpoints : Address * Address)
    : bool :=
  allows_token (rs_constraints search) token endpoints
  && (bool_decide (token = endpoints.1) || bool_decide (token = endpoints.2)
      || match connector_tokens (rs_bounds search) with
         | None => true
         | Some tokens => bool_decide (token ∈ tokens)
         end
      || bool_decide (token ∈ rrc_required_tokens (rs_constraints search))).

Inductive GraphError :=
| TokenNotFound (token : Address)
| ComponentsNotFound (ids : list ComponentId)
| InvalidComponents (ids : list ComponentId).

Section token_graph.
Context {D : Type} `{DiGraph (list (EdgeData D))} (NATIVE_WRAP_COMPONENT : ComponentId).

Record TopologyGraph := {
  tg_graph : digraph;
  tg_tokens : gmap Address NodeIndex;
  tg_pair_index : gmap (NodeIndex * NodeIndex) EdgeIndex;
  tg_wrap_ends : option (NodeIndex * NodeIndex);
}.
Implicit Types (g : TopologyGraph) (from to token last : NodeIndex) (component_id : ComponentId).
Implicit Types (constraints : ResolvedRouteConstraints) (search : RouteSearch) (sequence : TokenPath).

Definition TopologyGraph_default : TopologyGraph :=
  {| tg_graph := graph_empty; tg_tokens := ∅; tg_pair_index := ∅; tg_wrap_ends := None |}.

(** [&self[node]]; a node index the graph hands out has a weight. *)
Definition node_address g token : Address := default EmptyString (node_weight (tg_graph g) token).

Definition ordered from to : NodeIndex * NodeIndex := (Nat.min from to, Nat.max from to).

Definition is_wrap_pair g from to : bool := bool_decide (tg_wrap_ends g = Some (ordered from to)).

Definition pair_pools g from to : PairEdge D :=
  match tg_pair_index g !! (from, to) with
  | Some e => match edge (tg_graph g) e with Some (_, pools) => pools | None => [] end
  | None => []
  end.

Definition pools_between g from to : PairEdge D :=
  let pools := pair_pools g from to in
  if is_wrap_pair g from to
  then match position (fun pool => bool_decide (ed_component_id pool = NATIVE_WRAP_COMPONENT)) pools with
       | Some wrap => take 1 (drop wrap pools)
       | None => pools
       end
  else pools.

Definition wrap_twin g token : option NodeIndex :=
  '(a, b) ← tg_wrap_ends g;
  if decide (token = a) then Some b else if decide (token = b) then Some a else None.

(** The pools a leg may use; [Leg::All] and [Leg::Allowed] differ in ownership only. *)
Definition leg_between g from to constraints : list (EdgeData D) :=
  let pools := pools_between g from to in
  if ResolvedRouteConstraints_is_empty constraints
     || negb (existsb (fun pool => excludes_pool constraints (ed_component_id pool)) pools)
  then pools
  else List.filter (fun pool => negb (excludes_pool constraints (ed_component_id pool))) pools.

Definition pair_has_allowed_trade g from to constraints : bool :=
  if is_wrap_pair g from to then false
  else let pools := pools_between g from to in
       if ResolvedRouteConstraints_is_empty constraints then negb (bool_decide (length pools = 0))
       else existsb (fun pool => negb (excludes_pool constraints (ed_component_id pool))) pools.

Definition pair_has_allowed_wrap g from to constraints : bool :=
  is_wrap_pair g from to && negb (excludes_pool constraints NATIVE_WRAP_COMPONENT).

Definition get_token_ix g (token : Address) : option NodeIndex := tg_tokens g !! token.
Definition get_edge_ix g from to : option EdgeIndex := tg_pair_index g !! (from, to).

(** ** Changing the graph *)

Definition set_wrap_ends g (ends : option (NodeIndex * NodeIndex)) : TopologyGraph :=
  {| tg_graph := tg_graph g; tg_tokens := tg_tokens g; tg_pair_index := tg_pair_index g;
     tg_wrap_ends := ends |}.

Definition set_graph g (graph : digraph) : TopologyGraph :=
  {| tg_graph := graph; tg_tokens := tg_tokens g; tg_pair_index := tg_pair_index g;
     tg_wrap_ends := tg_wrap_ends g |}.

Definition set_pair_index g (index : gmap (NodeIndex * NodeIndex) EdgeIndex) : TopologyGraph :=
  {| tg_graph := tg_graph g; tg_tokens := tg_tokens g; tg_pair_index := index;
     tg_wrap_ends := tg_wrap_ends g |}.

Definition add_component g from to component_id : TopologyGraph :=
  let g := if decide (component_id = NATIVE_WRAP_COMPONENT)
           then set_wrap_ends g (Some (ordered from to)) else g in
  match get_edge_ix g from to with
  | Some e =>
      match edge (tg_graph g) e with
      | Some (_, pools) => set_graph g (set_edge_weight (tg_graph g) e (PairEdge_insert pools component_id))
      | None => g
      end
  | None =>
      let '(graph, e) := add_edge (tg_graph g) from to [EdgeData_new component_id] in
      set_pair_index (set_graph g graph) (<[(from, to) := e]> (tg_pair_index g))
  end.

Definition remove_component g from to component_id : TopologyGraph :=
  if decide (component_id = NATIVE_WRAP_COMPONENT) then g
  else match get_edge_ix g from to with
       | None => g
       | Some e =>
           let '(g, still_traded) :=
             match edge (tg_graph g) e with
             | Some (_, pools) =>
                 let pools := PairEdge_remove pools component_id in
                 (set_graph g (set_edge_weight (tg_graph g) e pools), negb (bool_decide (length pools = 0)))
             | None => (g, false)
             end in
           if still_traded then g
           else set_pair_index (set_graph g (remove_edge (tg_graph g) e)) (delete (from, to) (tg_pair_index g))
       end.

Definition add_token g (address : Address) : TopologyGraph * NodeIndex :=
  match get_token_ix g address with
  | Some index => (g, index)
  | None =>
      let '(graph, index) := add_node (tg_graph g) address in
      ({| tg_graph := graph; tg_tokens := <[address := index]> (tg_tokens g);
          tg_pair_index := tg_pair_index g; tg_wrap_ends := tg_wrap_ends g |}, index)
  end.

(** ** Half-walks *)

Definition extend_by_trade g (endpoints : NodeIndex * NodeIndex) search sequence : list TokenPath :=
  match last sequence with
  | None => []
  | Some last =>
      omap (fun neighbor =>
        if bool_decide (neighbor ∈ sequence) then None
        else if negb (search_allows_token search (node_address g neighbor)
                        (node_address g endpoints.1, node_address g endpoints.2)) then None
        else if negb (pair_has_allowed_trade g last neighbor (rs_constraints search)) then None
        else Some (sequence ++ [neighbor])) (neighbors (tg_graph g) last)
  end.

Definition maybe_extend_by_wrap g (endpoints : NodeIndex * NodeIndex) search sequence : list TokenPath :=
  match last sequence with
  | None => []
  | Some last =>
      match wrap_twin g last with
      | None => []
      | Some twin =>
          if bool_decide (twin ∈ sequence)
             || negb (search_allows_token search (node_address g twin)
                        (node_address g endpoints.1, node_address g endpoints.2))
             || negb (pair_has_allowed_wrap g last twin (rs_constraints search))
          then [] else [sequence ++ [twin]]
      end
  end.

Definition close_level g (endpoints : NodeIndex * NodeIndex) search (level : list TokenPath)
    : list TokenPath :=
  match tg_wrap_ends g with
  | Some _ => level ++ (level ≫= maybe_extend_by_wrap g endpoints search)
  | None => level
  end.

(** The levels from [level] on; [level] is not closed under the wrap yet. *)
Fixpoint levels_from g (endpoints : NodeIndex * NodeIndex) search (level : list TokenPath) (hops : nat)
    : list (list TokenPath) :=
  let level := close_level g endpoints search level in
  level :: match hops with
           | O => []
           | S hops => levels_from g endpoints search (level ≫= extend_by_trade g endpoints search) hops
           end.

Definition walk_levels g (start : NodeIndex) (hops : nat) (endpoints : NodeIndex * NodeIndex) search
    : list (list TokenPath) :=
  levels_from g endpoints search [[start]] hops.

(** ** Meeting in the middle *)

(** Whether a head ends on a wrap step. *)
Definition ends_on_wrap g (head : TokenPath) : bool :=
  match reverse head with
  | last :: before :: _ => is_wrap_pair g before last
  | _ => false
  end.

(** The tails by their midpoint, reversed. *)
Definition index_by_midpoint (tails : list TokenPath) : gmap NodeIndex (list TokenPath) :=
  fold_left (fun index tail =>
    match last tail with
    | None => index
    | Some midpoint => <[midpoint := default [] (index !! midpoint) ++ [reverse tail]]> index
    end) tails ∅.

Definition join_head g (tails_by_midpoint : gmap NodeIndex (list TokenPath)) (head : TokenPath)
    : list TokenPath :=
  match last head with
  | None => []
  | Some midpoint =>
      if ends_on_wrap g head then []
      else match tails_by_midpoint !! midpoint with
           | None => []
           | Some candidates =>
               omap (fun tail =>
                 if existsb (fun token => negb (bool_decide (token = midpoint)) && bool_decide (token ∈ tail))
                      head
                 then None else Some (head ++ drop 1 tail)) candidates
           end
  end.

Definition join_length g (head_levels tail_levels : list (list TokenPath)) (length : nat)
    : list TokenPath :=
  let head_hops := Nat.div2 (S length) in
  let tail_hops := length - head_hops in
  match head_levels !! head_hops, tail_levels !! tail_hops with
  | Some heads, Some tails =>
      if bool_decide (heads = []) || bool_decide (tails = []) then []
      else heads ≫= join_head g (index_by_midpoint tails)
  | _, _ => []
  end.

Definition bidirectional_search g from to search : list TokenPath :=
  let filter := rs_bounds search in
  let endpoints := (from, to) in
  let head_levels := walk_levels g from (Nat.div2 (S (max_hops filter))) endpoints search in
  let tail_levels := walk_levels g to (Nat.div2 (max_hops filter)) endpoints search in
  (if bool_decide (min_hops filter = 1) && pair_has_allowed_wrap g from to (rs_constraints search)
   then [[from; to]] else [])
  ++ (seq (min_hops filter) (S (max_hops filter) - min_hops filter)
      ≫= join_length g head_levels tail_levels).

(** ** Routes that return to their token *)

(** The steps a circular sequence may take next, each with its count of non-wrap hops. *)
Definition circular_steps g search (entry : TokenPath * nat) (last : NodeIndex)
    : list (NodeIndex * nat) :=
  let '(sequence, non_wrap_hops) := entry in
  (if non_wrap_hops <? max_hops (rs_bounds search)
   then omap (fun neighbor =>
          if pair_has_allowed_trade g last neighbor (rs_constraints search)
          then Some (neighbor, S non_wrap_hops) else None) (neighbors (tg_graph g) last)
   else [])
  ++ (if non_wrap_hops <? length sequence - 1 then []
      else match wrap_twin g last with
           | Some twin =>
               if pair_has_allowed_wrap g last twin (rs_constraints search) then [(twin, non_wrap_hops)] else []
           | None => []
           end).

(** What a step makes of a sequence: a closed route, or a longer sequence. *)
Definition circular_step g (target : NodeIndex) search (sequence : TokenPath)
    (out : list TokenPath * list (TokenPath * nat)) (step : NodeIndex * nat)
    : list TokenPath * list (TokenPath * nat) :=
  let '(neighbor, new_hops) := step in
  if decide (neighbor = target)
  then (if min_hops (rs_bounds search) <=? Nat.max new_hops 1
        then (out.1 ++ [sequence ++ [neighbor]], out.2) else out)
  else if bool_decide (neighbor ∈ sequence) then out
  else if negb (search_allows_token search (node_address g neighbor)
                  (node_address g target, node_address g target)) then out
  else (out.1, out.2 ++ [(sequence ++ [neighbor], new_hops)]).

Definition circular_round g target search (token_paths : list TokenPath)
    (frontier : list (TokenPath * nat)) : list TokenPath * list (TokenPath * nat) :=
  fold_left (fun out entry =>
    match last entry.1 with
    | None => out
    | Some last => fold_left (circular_step g target search entry.1) (circular_steps g search entry last) out
    end) frontier (token_paths, []).

Fixpoint circular_rounds g target search (rounds : nat) (token_paths : list TokenPath)
    (frontier : list (TokenPath * nat)) : list TokenPath :=
  match rounds with
  | O => token_paths
  | S rounds =>
      let '(token_paths, frontier) := circular_round g target search token_paths frontier in
      circular_rounds g target search rounds token_paths frontier
  end.

Definition circular_token_paths g (target : NodeIndex) search : list TokenPath :=
  let rounds := max_hops (rs_bounds search)
                + match tg_wrap_ends g with Some _ => 1 | None => 0 end in
  circular_rounds g target search rounds [] [([target], 0)].

(** ** Token paths *)

Definition paths_between_ix g from to search : list TokenPath :=
  let filter := rs_bounds search in
  if bool_decide (min_hops filter = 0) || (max_hops filter <? min_hops filter) then []
  else
    let token_paths := if decide (from = to) then circular_token_paths g to search
                       else bidirectional_search g from to search in
    List.filter (fun token_path =>
      visits_all_required_tokens (rs_constraints search) (node_address g <$> token_path)) token_paths.

Definition paths_between g (from to : Address) search : result GraphError (list TokenPath) :=
  match get_token_ix g from with
  | None => Err (TokenNotFound from)
  | Some from_ix =>
      match get_token_ix g to with
      | None => Err (TokenNotFound to)
      | Some to_ix => Ok (paths_between_ix g from_ix to_ix search)
      end
  end.

(** ** Choosing pools *)

(** [windows(2)]. *)
Definition windows2 {A} (l : list A) : list (A * A) := zip l (tail l).

(** The odometer: the rightmost leg advances first; the flag is the carry out of the left. *)
Fixpoint advance (chosen lens : list nat) : list nat * bool :=
  match chosen, lens with
  | pick :: chosen, len :: lens =>
      let '(chosen, carry) := advance chosen lens in
      if carry then if S pick <? len then (S pick :: chosen, false) else (0 :: chosen, true)
      else (pick :: chosen, false)
  | _, _ => ([], true)
  end.

(** The pool of each leg at its pick; a pick is inside its leg's count. *)
Definition write_path g (token_path : TokenPath) (legs : list (list (EdgeData D))) (chosen : list nat)
    : outcome (Path D) :=
  fold_left (fun (path : outcome (Path D)) (leg : list (EdgeData D) * ((NodeIndex * NodeIndex) * nat)) =>
    path ← path;
    match leg.1 !! leg.2.2 with
    | Some pool => Ret (add_hop path (node_address g leg.2.1.1) pool (node_address g leg.2.1.2))
    | None => Panic
    end) (zip legs (zip (windows2 token_path) chosen)) (Ret Path_new).

Fixpoint write_paths g (token_path : TokenPath) (legs : list (list (EdgeData D))) (wanted : nat)
    (chosen : list nat) : outcome (list (Path D)) :=
  match wanted with
  | O => Ret []
  | S wanted =>
      path ← write_path g token_path legs chosen;
      paths ← write_paths g token_path legs wanted (advance chosen (length <$> legs)).1;
      Ret (path :: paths)
  end.

(** [product] of [usize]s, which wraps in a release build. *)
Definition usize_product (lens : list nat) : nat :=
  N.to_nat (N.of_nat (foldr Nat.mul 1 lens) mod 2 ^ 64).

Definition expand_path g (token_path : TokenPath) (max_paths : option nat) constraints
    : outcome (list (Path D)) :=
  let legs := (fun pair => leg_between g pair.1 pair.2 constraints) <$> windows2 token_path in
  if bool_decide (length legs = 0) || existsb (fun leg => bool_decide (length leg = 0)) legs then Ret []
  else
    let combinations := usize_product (length <$> legs) in
    let wanted := match max_paths with None => combinations | Some cap => Nat.min cap combinations end in
    write_paths g token_path legs wanted (replicate (length legs) 0).
End token_graph.
