(* ===== verification/RouteSearchProofs.v ===== *)
(** * RouteSearchProofs: the route search finds the routes

    A token path is a route when it runs from the one token to the other without naming a
    token twice, every step has a pool the request allows, every token between is allowed,
    and its hops are within bounds. The search that meets in the middle lists exactly the
    sequences whose first half trades forward and whose second half trades backward; on a
    graph whose pairs trade both ways these are the routes, each of them once. *)

From stdpp Require Import prelude gmap sets strings list sorting.
From Stdlib Require Import NArith ZArith Lia.
From S2P Require Import Prelude F64 Types Tracker DerivedStore SpotPriceComputation Manager.
From S2P Require Import MarketData StableGraph TokenGraph.

#[local] Open Scope nat_scope.

Section search.
Context {D : Type} `{DiGraph (list (EdgeData D))} (NATIVE_WRAP_COMPONENT : ComponentId).
Context (g : TopologyGraph) (search : RouteSearch).
Implicit Types (a b t : NodeIndex) (s p : list NodeIndex).

#[local] Abbreviation constraints := (rs_constraints search).

(** What the search relies on: an edge of the pair index leads to a neighbour, a neighbour
    is named once, and the ends of the wrap are in order. *)
Record search_ok : Prop := {
  so_neighbors : forall a b, pair_pools g a b <> [] -> b ∈ neighbors (tg_graph g) a;
  so_NoDup : forall a, NoDup (neighbors (tg_graph g) a);
  so_wrap : forall a b, tg_wrap_ends g = Some (a, b) -> a <= b;
}.

(** ** Steps *)

Definition trade a b : bool := pair_has_allowed_trade NATIVE_WRAP_COMPONENT g a b constraints.
Definition wrap a b : bool := pair_has_allowed_wrap NATIVE_WRAP_COMPONENT g a b constraints.
Definition step a b : bool := trade a b || wrap a b.

(** The number of steps that are not the wrap. *)
Fixpoint hops s : nat :=
  match s with
  | [] => 0
  | a :: r => match r with [] => 0 | b :: _ => (if is_wrap_pair g a b then 0 else 1) + hops r end
  end.

Fixpoint steps_ok s : Prop :=
  match s with
  | [] => True
  | a :: r => match r with [] => True | b :: _ => step a b = true /\ steps_ok r end
  end.

Lemma ordered_comm a b : ordered a b = ordered b a.
Proof. unfold ordered. by rewrite Nat.min_comm, Nat.max_comm. Qed.

Lemma is_wrap_pair_comm a b : is_wrap_pair g a b = is_wrap_pair g b a.
Proof. unfold is_wrap_pair. by rewrite ordered_comm. Qed.

Lemma wrap_comm a b : wrap a b = wrap b a.
Proof. unfold wrap, pair_has_allowed_wrap. by rewrite is_wrap_pair_comm. Qed.

Lemma trade_not_wrap a b : trade a b = true -> is_wrap_pair g a b = false.
Proof. unfold trade, pair_has_allowed_trade. by destruct (is_wrap_pair g a b). Qed.

Lemma wrap_is_pair a b : wrap a b = true -> is_wrap_pair g a b = true.
Proof. unfold wrap, pair_has_allowed_wrap. by intros [? _]%andb_true_iff. Qed.

Lemma hops_cons a b s : hops (a :: b :: s) = (if is_wrap_pair g a b then 0 else 1) + hops (b :: s).
Proof. done. Qed.

Lemma steps_ok_cons a b s : steps_ok (a :: b :: s) <-> step a b = true /\ steps_ok (b :: s).
Proof. done. Qed.

Lemma hops_app s m r : hops (s ++ m :: r) = hops (s ++ [m]) + hops (m :: r).
Proof.
  induction s as [|a [|b s] IH]; [done|cbn; destruct r; cbn; lia|].
  cbn [app] in *. rewrite !hops_cons, IH. lia.
Qed.

Lemma steps_ok_app s m r : steps_ok (s ++ m :: r) <-> steps_ok (s ++ [m]) /\ steps_ok (m :: r).
Proof.
  induction s as [|a [|b s] IH]; [cbn; tauto|cbn; destruct r; cbn; tauto|].
  cbn [app] in *. rewrite !steps_ok_cons, IH. tauto.
Qed.

Lemma hops_snoc s a b : last s = Some a ->
  hops (s ++ [b]) = hops s + (if is_wrap_pair g a b then 0 else 1).
Proof.
  intros (s' & ->)%last_Some. rewrite <- app_assoc. change ([a] ++ [b]) with (a :: [b]).
  rewrite hops_app, hops_cons. cbn. lia.
Qed.

Lemma steps_ok_snoc s a b : last s = Some a ->
  steps_ok (s ++ [b]) <-> steps_ok s /\ step a b = true.
Proof.
  intros (s' & ->)%last_Some. rewrite <- app_assoc. change ([a] ++ [b]) with (a :: [b]).
  rewrite steps_ok_app, steps_ok_cons. cbn. tauto.
Qed.

Lemma hops_reverse s : hops (reverse s) = hops s.
Proof.
  induction s as [|a s IH]; [done|]. rewrite reverse_cons. destruct s as [|b s]; [done|].
  rewrite (hops_snoc _ b), IH by (rewrite last_reverse; done). rewrite hops_cons, is_wrap_pair_comm. lia.
Qed.

Lemma steps_ok_reverse s : (forall a b, trade a b = trade b a) ->
  steps_ok (reverse s) <-> steps_ok s.
Proof.
  intros Hsym. induction s as [|a s IH]; [done|]. rewrite reverse_cons. destruct s as [|b s]; [done|].
  rewrite (steps_ok_snoc _ b), IH by (rewrite last_reverse; done). rewrite steps_ok_cons.
  unfold step. rewrite (Hsym b a), (wrap_comm b a). tauto.
Qed.

Lemma ends_on_wrap_snoc s a b : last s = Some a -> ends_on_wrap g (s ++ [b]) = is_wrap_pair g a b.
Proof.
  intros (s' & ->)%last_Some. unfold ends_on_wrap. by rewrite !reverse_app.
Qed.

Lemma ends_on_wrap_singleton a : ends_on_wrap g [a] = false.
Proof. done. Qed.

(** The wrap's twin is the other end of a wrap pair. *)
Lemma wrap_twin_spec a b : search_ok -> wrap_twin g a = Some b <-> is_wrap_pair g a b = true.
Proof.
  intros Hok. unfold wrap_twin, is_wrap_pair, ordered.
  destruct (tg_wrap_ends g) as [[x y]|] eqn:Hends; cbn [mbind option_bind].
  - pose proof (so_wrap Hok _ _ Hends) as Hle. rewrite bool_decide_eq_true. split.
    + repeat case_decide; [intros [= ->]; subst; do 2 f_equal; lia|intros [= ->]; subst; do 2 f_equal; lia|done].
    + intros [= -> ->]. repeat case_decide; f_equal; lia.
  - rewrite bool_decide_eq_true. done.
Qed.

(** ** Walks *)

Context (endpoints : NodeIndex * NodeIndex).

Definition allowed t : bool :=
  search_allows_token search (node_address g t) (node_address g endpoints.1, node_address g endpoints.2).

(** A walk of [k] hops out of [start]. *)
Record walk (start : NodeIndex) (k : nat) s : Prop := {
  wk_head : head s = Some start;
  wk_NoDup : NoDup s;
  wk_allowed : forall t, t ∈ tail s -> allowed t = true;
  wk_steps : steps_ok s;
  wk_hops : hops s = k;
}.

Lemma walk_start start : walk start 0 [start].
Proof. split; [done|apply NoDup_singleton|by intros t []%not_elem_of_nil|done|done]. Qed.

Lemma walk_snoc start k s b : s <> [] ->
  walk start k (s ++ [b]) <->
  exists a, last s = Some a /\ step a b = true /\ (b ∉ s) /\ allowed b = true /\
    exists k', walk start k' s /\ k = k' + (if is_wrap_pair g a b then 0 else 1).
Proof.
  intros Hne. destruct (proj2 (last_is_Some s) Hne) as [a Ha].
  assert (head (s ++ [b]) = head s) as Hhead by (by destruct s).
  assert (tail (s ++ [b]) = tail s ++ [b]) as Htail by (by destruct s). split.
  - intros [Hh Hnd Hall Hst Hk]. apply NoDup_app in Hnd as (Hnd & Hdisj & _).
    rewrite (steps_ok_snoc _ a) in Hst by done. destruct Hst as [Hst Hab].
    rewrite (hops_snoc _ a) in Hk by done. exists a. split_and!; [done|done| | |].
    + intros Hb. apply (Hdisj b Hb). by apply list_elem_of_singleton.
    + apply Hall. rewrite Htail. apply elem_of_app. right. by apply list_elem_of_singleton.
    + exists (hops s). split; [|done]. split; [by rewrite <- Hhead|done| |done|done].
      intros t Ht. apply Hall. rewrite Htail. apply elem_of_app. by left.
  - intros (a' & Ha' & Hab & Hb & Hallb & k' & [Hh Hnd Hall Hst Hk] & ->). split.
    + by rewrite Hhead.
    + apply NoDup_app. split_and!; [done| |apply NoDup_singleton].
      intros x Hx Hxb%list_elem_of_singleton. by subst.
    + intros t. rewrite Htail. intros [?|Ht%list_elem_of_singleton]%elem_of_app; [by apply Hall|by subst].
    + by rewrite (steps_ok_snoc _ a').
    + by rewrite (hops_snoc _ a'), Hk.
Qed.

(** ** Levels *)

Record unclosed (start : NodeIndex) (k : nat) (level : list (list NodeIndex)) : Prop := {
  un_elem : forall s, s ∈ level <-> walk start k s /\ ends_on_wrap g s = false;
  un_NoDup : NoDup level;
}.

Record closed (start : NodeIndex) (k : nat) (level : list (list NodeIndex)) : Prop := {
  cl_elem : forall s, s ∈ level <-> walk start k s;
  cl_NoDup : NoDup level;
}.

Lemma maybe_extend_elem s s' : search_ok ->
  s' ∈ maybe_extend_by_wrap NATIVE_WRAP_COMPONENT g endpoints search s <->
  exists a b, last s = Some a /\ s' = s ++ [b] /\ wrap a b = true /\ (b ∉ s) /\ allowed b = true.
Proof.
  intros Hok. unfold maybe_extend_by_wrap. destruct (last s) as [a|]; [|split].
  2: by intros []%not_elem_of_nil.
  2: by intros (? & ? & ? & _).
  destruct (wrap_twin g a) as [b|] eqn:Htwin.
  - apply wrap_twin_spec in Htwin; [|done]. fold (allowed b). fold (wrap a b).
    destruct (bool_decide (b ∈ s)) eqn:Hin, (allowed b) eqn:Hall, (wrap a b) eqn:Hw; cbn;
      [apply bool_decide_eq_true in Hin..|apply bool_decide_eq_false in Hin|apply bool_decide_eq_false in Hin
      |apply bool_decide_eq_false in Hin|apply bool_decide_eq_false in Hin].
    5: { rewrite list_elem_of_singleton. split; [intros ->; by exists a, b|].
         intros (a' & b' & [= <-] & -> & Hw' & _). apply wrap_is_pair in Hw'.
         apply (wrap_twin_spec _ _ Hok) in Hw', Htwin. congruence. }
    all: split; [by intros []%not_elem_of_nil|]; intros (a' & b' & [= <-] & -> & Hw' & Hb' & Hall');
      pose proof (wrap_is_pair _ _ Hw') as Hp; apply (wrap_twin_spec _ _ Hok) in Hp, Htwin;
      assert (b' = b) as -> by congruence; congruence.
  - split; [by intros []%not_elem_of_nil|]. intros (a' & b & [= <-] & _ & Hw & _).
    apply wrap_is_pair, (wrap_twin_spec _ _ Hok) in Hw. congruence.
Qed.

Lemma maybe_extend_NoDup s : NoDup (maybe_extend_by_wrap NATIVE_WRAP_COMPONENT g endpoints search s).
Proof.
  unfold maybe_extend_by_wrap. repeat case_match; try apply NoDup_nil_2. apply NoDup_singleton.
Qed.

Lemma snoc_inj s s' a b : s ++ [a] = s' ++ [b] -> s = s' /\ a = b.
Proof. apply app_inj_tail. Qed.

Lemma close_level_spec start k level : search_ok ->
  unclosed start k level -> closed start k (close_level NATIVE_WRAP_COMPONENT g endpoints search level).
Proof.
  intros Hok [Hel Hnd]. unfold close_level.
  assert (forall s, s ∈ level ≫= maybe_extend_by_wrap NATIVE_WRAP_COMPONENT g endpoints search <->
    walk start k s /\ ends_on_wrap g s = true) as Hwrapped.
  { intros s. rewrite list_elem_of_bind. split.
    - intros (s0 & Hs & [Hw Hend]%Hel). apply (maybe_extend_elem _ _ Hok) in Hs as (a & b & Ha & -> & Hab & Hb & Hall).
      pose proof (wrap_is_pair _ _ Hab) as Hp. rewrite (ends_on_wrap_snoc _ a) by done. split; [|done].
      apply walk_snoc; [intros ->; done|]. exists a. split_and!; [done| |done|done|].
      + unfold step. by rewrite Hab, orb_true_r.
      + exists k. rewrite Hp. split; [done|lia].
    - intros [Hw Hend]. destruct s as [|b s _] using rev_ind; [done|].
      destruct s as [|x s0 _] using rev_ind; [done|]. set (s := s0 ++ [x]) in *.
      assert (last s = Some x) as Hx by apply last_snoc.
      rewrite (ends_on_wrap_snoc _ x) in Hend by done.
      apply walk_snoc in Hw; [|by destruct s0]. destruct Hw as (a & Ha & Hab & Hb & Hall & k' & Hw & ->).
      rewrite Hx in Ha. injection Ha as <-. rewrite Hend, Nat.add_0_r in *.
      exists s. split.
      + apply (maybe_extend_elem _ _ Hok). exists x, b. split_and!; [done|done| |done|done].
        apply orb_true_iff in Hab as [Ht|]; [|done]. apply trade_not_wrap in Ht. congruence.
      + apply Hel. split; [done|]. destruct s0 as [|y s1 _] using rev_ind; [done|].
        unfold s. rewrite (ends_on_wrap_snoc _ y) by apply last_snoc.
        destruct (is_wrap_pair g y x) eqn:Hyx; [|done]. exfalso. apply Hb.
        rewrite is_wrap_pair_comm in Hyx. apply (wrap_twin_spec _ _ Hok) in Hyx, Hend.
        assert (b = y) as -> by congruence. unfold s. set_solver. }
  destruct (tg_wrap_ends g) as [ends|] eqn:Hends.
  - split.
    + intros s. rewrite elem_of_app, Hel, Hwrapped. destruct (ends_on_wrap g s); tauto.
    + apply NoDup_app. split_and!; [done| |].
      * intros s [_ Hf]%Hel [_ Ht]%Hwrapped. congruence.
      * apply NoDup_bind; [|intros s _; apply maybe_extend_NoDup|done].
        intros s1 s2 s _ _ (a1 & b1 & _ & -> & _)%(maybe_extend_elem _ _ Hok)
          (a2 & b2 & _ & [-> _]%snoc_inj & _)%(maybe_extend_elem _ _ Hok). done.
  - split; [|done]. intros s. rewrite Hel. split; [tauto|]. intros Hw. split; [done|].
    destruct s as [|b s _] using rev_ind; [done|]. destruct s as [|x s0 _] using rev_ind; [done|].
    rewrite (ends_on_wrap_snoc _ x) by apply last_snoc. unfold is_wrap_pair. by rewrite Hends.
Qed.

Lemma extend_by_trade_elem s s' : search_ok ->
  s' ∈ extend_by_trade NATIVE_WRAP_COMPONENT g endpoints search s <->
  exists a b, last s = Some a /\ s' = s ++ [b] /\ trade a b = true /\ (b ∉ s) /\ allowed b = true.
Proof.
  intros Hok. unfold extend_by_trade. destruct (last s) as [a|].
  2: { split; [by intros []%not_elem_of_nil|]. by intros (? & ? & ? & _). }
  rewrite list_elem_of_omap. split.
  - intros (b & Hb & Hs). fold (allowed b) (trade a b) in Hs.
    destruct (bool_decide (b ∈ s)) eqn:Hin; [done|]. apply bool_decide_eq_false in Hin.
    destruct (allowed b) eqn:Hall; [|done]. destruct (trade a b) eqn:Ht; [|done].
    injection Hs as <-. by exists a, b.
  - intros (a' & b & [= <-] & -> & Ht & Hb & Hall). exists b.
    fold (allowed b) (trade a b). rewrite bool_decide_eq_false_2, Hall, Ht by done. split; [|done].
    apply (so_neighbors Hok). intros Hnil. unfold trade, pair_has_allowed_trade, pools_between in Ht.
    rewrite Hnil in Ht. destruct (is_wrap_pair g a b); [done|]. by destruct (ResolvedRouteConstraints_is_empty _).
Qed.

Lemma omap_NoDup {A B} (f : A -> option B) (l : list A) :
  (forall x x' y, f x = Some y -> f x' = Some y -> x = x') -> NoDup l -> NoDup (omap f l).
Proof.
  intros Hinj. induction 1 as [|x l Hx Hnd IH]; cbn; [constructor|]. destruct (f x) as [y|] eqn:Hy; [|done].
  constructor; [|done]. intros (x' & Hx' & Hy')%list_elem_of_omap. by rewrite (Hinj _ _ _ Hy Hy') in Hx.
Qed.

Lemma extend_by_trade_NoDup s : search_ok ->
  NoDup (extend_by_trade NATIVE_WRAP_COMPONENT g endpoints search s).
Proof.
  intros Hok. unfold extend_by_trade. destruct (last s) as [a|]; [|constructor].
  apply omap_NoDup; [|apply (so_NoDup Hok)]. intros x x' y. repeat case_match; try done.
  intros [= <-] [= Heq]. by apply snoc_inj in Heq as [_ ->].
Qed.

Lemma extend_level_spec start k level : search_ok -> closed start k level ->
  unclosed start (S k) (level ≫= extend_by_trade NATIVE_WRAP_COMPONENT g endpoints search).
Proof.
  intros Hok [Hel Hnd]. split.
  - intros s. rewrite list_elem_of_bind. split.
    + intros (s0 & Hs & Hw%Hel). apply (extend_by_trade_elem _ _ Hok) in Hs as (a & b & Ha & -> & Hab & Hb & Hall).
      pose proof (trade_not_wrap _ _ Hab) as Hp. rewrite (ends_on_wrap_snoc _ a) by done. split; [|done].
      apply walk_snoc; [by intros ->|]. exists a. split_and!; [done|by unfold step; rewrite Hab|done|done|].
      exists k. rewrite Hp. split; [done|lia].
    + intros [Hw Hend]. destruct s as [|b s _] using rev_ind; [by apply wk_head in Hw|].
      destruct (decide (s = [])) as [->|Hne]; [by apply wk_hops in Hw|].
      apply walk_snoc in Hw; [|done]. destruct Hw as (a & Ha & Hab & Hb & Hall & k' & Hw & Hk).
      rewrite (ends_on_wrap_snoc _ a) in Hend by done. rewrite Hend in Hk.
      assert (k' = k) as -> by lia. exists s. split; [|by apply Hel].
      apply (extend_by_trade_elem _ _ Hok). exists a, b. split_and!; [done|done| |done|done].
      apply orb_true_iff in Hab as [?|Hwr]; [done|]. apply wrap_is_pair in Hwr. congruence.
  - apply NoDup_bind; [|intros s _; by apply extend_by_trade_NoDup|done].
    intros s1 s2 s _ _ (a1 & b1 & _ & -> & _)%(extend_by_trade_elem _ _ Hok)
      (a2 & b2 & _ & [-> _]%snoc_inj & _)%(extend_by_trade_elem _ _ Hok). done.
Qed.

Lemma levels_from_spec start level n k : search_ok -> unclosed start n level ->
  forall i, match levels_from NATIVE_WRAP_COMPONENT g endpoints search level k !! i with
            | Some l => i <= k /\ closed start (n + i) l
            | None => k < i
            end.
Proof.
  intros Hok. revert level n. induction k as [|k IH]; intros level n Hun i; cbn [levels_from];
    apply close_level_spec in Hun; try done.
  - destruct i as [|i]; cbn; [rewrite Nat.add_0_r; split; [lia|done]|]. destruct i; cbn; lia.
  - destruct i as [|i]; cbn; [rewrite Nat.add_0_r; split; [lia|done]|].
    apply extend_level_spec in Hun; [|done]. specialize (IH _ _ Hun i).
    destruct (_ !! i); [|lia]. destruct IH as [Hi Hc]. split; [lia|].
    by replace (n + S i) with (S n + i) by lia.
Qed.

Lemma start_unclosed start : unclosed start 0 [[start]].
Proof.
  split; [|apply NoDup_singleton]. intros s. rewrite list_elem_of_singleton. split.
  - intros ->. split; [apply walk_start|done].
  - intros [Hw Hend]. destruct s as [|b s _] using rev_ind; [by apply wk_head in Hw|].
    destruct (decide (s = [])) as [->|Hne]; [apply wk_head in Hw; by injection Hw as ->|].
    apply walk_snoc in Hw; [|done]. destruct Hw as (a & Ha & _ & _ & _ & k' & _ & Hk).
    rewrite (ends_on_wrap_snoc _ a) in Hend by done. rewrite Hend in Hk. lia.
Qed.

Lemma walk_levels_lookup start hops i : search_ok ->
  match walk_levels NATIVE_WRAP_COMPONENT g start hops endpoints search !! i with
  | Some l => i <= hops /\ closed start i l
  | None => hops < i
  end.
Proof. intros Hok. exact (levels_from_spec start [[start]] 0 hops Hok (start_unclosed start) i). Qed.

(** ** Joining *)

Lemma index_by_midpoint_lookup tails (m : NodeIndex) :
  default [] (index_by_midpoint tails !! m)
  = reverse <$> List.filter (fun tail => bool_decide (last tail = Some m)) tails.
Proof.
  unfold index_by_midpoint.
  assert (forall (index : gmap NodeIndex (list (list NodeIndex))), default [] (fold_left (fun index tail =>
      match last tail with
      | None => index
      | Some midpoint => <[midpoint := default [] (index !! midpoint) ++ [reverse tail]]> index
      end) tails index !! m)
    = default [] (index !! m) ++ (reverse <$> List.filter (fun tail => bool_decide (last tail = Some m)) tails))
    as Hfold; [|by rewrite Hfold, lookup_empty].
  induction tails as [|tail tails IH]; intros index; cbn [fold_left List.filter].
  { cbn. by rewrite app_nil_r. }
  rewrite IH. destruct (last tail) as [m'|].
  - destruct (decide (m = m')) as [->|Hne].
    + rewrite lookup_insert_eq, bool_decide_eq_true_2 by done. cbn. by rewrite <- app_assoc.
    + rewrite lookup_insert_ne by done. by rewrite bool_decide_eq_false_2 by congruence.
  - by rewrite bool_decide_eq_false_2.
Qed.

(** Two halves that meet: the head out of the one end, the tail out of the other. *)
Lemma join_head_elem tails (head : list NodeIndex) p :
  p ∈ join_head g (index_by_midpoint tails) head <->
  exists m tail, tail ∈ tails /\ last head = Some m /\ last tail = Some m /\
    ends_on_wrap g head = false /\ (forall t, t ∈ head -> t ∈ tail -> t = m) /\
    p = head ++ drop 1 (reverse tail).
Proof.
  unfold join_head. destruct (last head) as [m|].
  2: { split; [by intros []%not_elem_of_nil|]. by intros (? & ? & _ & ? & _). }
  destruct (ends_on_wrap g head) eqn:Hend.
  { split; [by intros []%not_elem_of_nil|]. by intros (? & ? & _ & _ & _ & ? & _). }
  pose proof (index_by_midpoint_lookup tails m) as Hidx.
  set (join := fun tail : list NodeIndex => if existsb (fun token =>
    negb (bool_decide (token = m)) && bool_decide (token ∈ tail)) head then None else Some (head ++ drop 1 tail)).
  assert (forall tail : list NodeIndex, (exists t, t ∈ head /\ t ∈ tail /\ t <> m) \/ (forall t, t ∈ head -> t ∈ tail -> t = m)) as Hdec.
  { intros tail. destruct (decide (Exists (fun t => t ∈ tail /\ t <> m) head)) as [Hex|Hex].
    - left. apply Exists_exists in Hex as (t & ? & ? & ?). by exists t.
    - right. intros t Ht Htail. destruct (decide (t = m)); [done|]. exfalso. apply Hex, Exists_exists. by exists t. }
  assert (forall tail : list NodeIndex, join (reverse tail) = if decide (Exists (fun t => t ∈ tail /\ t <> m) head)
                       then None else Some (head ++ drop 1 (reverse tail))) as Hjoin.
  { intros tail. unfold join. destruct (existsb _ head) eqn:Hex; case_decide as Hd; try done; exfalso.
    - apply Hd. apply existsb_exists in Hex as (t & Ht%list_elem_of_In & [H1 H2]%andb_true_iff).
      apply Exists_exists. exists t. split; [done|].
      apply bool_decide_eq_true in H2. apply negb_true_iff, bool_decide_eq_false in H1.
      by rewrite elem_of_reverse in H2.
    - apply Exists_exists in Hd as (t & Ht & Htail & Hne).
      enough (existsb (fun token => negb (bool_decide (token = m)) && bool_decide (token ∈ reverse tail)) head
              = true) by congruence.
      apply existsb_exists. exists t. split; [by apply list_elem_of_In|].
      rewrite bool_decide_eq_false_2, bool_decide_eq_true_2; [done|by rewrite elem_of_reverse|done]. }
  assert (p ∈ omap join (default [] (index_by_midpoint tails !! m)) <->
    exists tail, tail ∈ tails /\ last tail = Some m /\ (forall t, t ∈ head -> t ∈ tail -> t = m) /\
      p = head ++ drop 1 (reverse tail)) as Hel.
  { rewrite Hidx, list_elem_of_omap. split.
    - intros (rt & (tail & -> & [Hin Hlast%bool_decide_eq_true]%elem_of_filterb)%list_elem_of_fmap & Hp).
      rewrite Hjoin in Hp. case_decide as Hd; [done|]. injection Hp as <-. exists tail.
      split_and!; [done|done| |done]. destruct (Hdec tail) as [(t & ? & ? & ?)|]; [|done].
      exfalso. apply Hd, Exists_exists. by exists t.
    - intros (tail & Hin & Hlast & Hcol & ->). exists (reverse tail). split.
      + apply list_elem_of_fmap. exists tail. split; [done|]. apply elem_of_filterb.
        split; [done|by apply bool_decide_eq_true].
      + rewrite Hjoin, decide_False; [done|]. intros (t & Ht & Htail & Hne)%Exists_exists. by apply Hne, Hcol. }
  destruct (index_by_midpoint tails !! m) as [candidates|]; cbn [default] in Hel.
  - fold join. rewrite Hel. split.
    + intros (tail & ? & ? & ? & ?). by exists m, tail.
    + intros (m' & tail & ? & [= <-] & ? & _ & ? & ?). by exists tail.
  - split; [by intros []%not_elem_of_nil|]. intros (m' & tail & Hin & [= <-] & Hlast & _ & Hcol & ->).
    apply Hel. by exists tail.
Qed.

(** A sequence whose first half is a walk out of the one end and whose second half, read
    backward, is a walk out of the other. *)
Record meets (n : nat) p (s1 : list NodeIndex) (m : NodeIndex) (s2 : list NodeIndex) : Prop := {
  me_eq : p = s1 ++ m :: s2;
  me_head : head p = Some endpoints.1;
  me_last : last p = Some endpoints.2;
  me_NoDup : NoDup p;
  me_allowed : forall t, t ∈ p -> allowed t = true;
  me_forward : steps_ok (s1 ++ [m]);
  me_backward : steps_ok (reverse (m :: s2));
  me_end : ends_on_wrap g (s1 ++ [m]) = false;
  me_head_hops : hops (s1 ++ [m]) = Nat.div2 (S n);
  me_tail_hops : hops (m :: s2) = Nat.div2 n;
}.

Lemma halves n : Nat.div2 (S n) + Nat.div2 n = n /\ n - Nat.div2 (S n) = Nat.div2 n.
Proof.
  rewrite !Nat.div2_div. pose proof (Nat.div_mod_eq n 2). pose proof (Nat.div_mod_eq (S n) 2).
  pose proof (Nat.mod_upper_bound n 2). pose proof (Nat.mod_upper_bound (S n) 2).
  assert (S n / 2 = n / 2 + n mod 2); [|lia].
  destruct (n mod 2) as [|[|]] eqn:Hm; [| |lia].
  - symmetry. apply (Nat.div_unique (S n) 2 _ 1); lia.
  - symmetry. apply (Nat.div_unique (S n) 2 _ 0); lia.
Qed.

Lemma div2_le n m : n <= m -> Nat.div2 n <= Nat.div2 m.
Proof. rewrite !Nat.div2_div. intros Hle. by apply Nat.Div0.div_le_mono. Qed.

Lemma allowed_endpoint : allowed endpoints.1 = true /\ allowed endpoints.2 = true.
Proof.
  unfold allowed, search_allows_token, allows_token. cbn [fst snd].
  split.
  - by rewrite (bool_decide_eq_true_2 (node_address g endpoints.1 = node_address g endpoints.1)).
  - rewrite (bool_decide_eq_true_2 (node_address g endpoints.2 = node_address g endpoints.2)) by done.
    by rewrite !orb_true_r.
Qed.

Lemma meets_halves n p s1 m s2 : meets n p s1 m s2 <->
  walk endpoints.1 (Nat.div2 (S n)) (s1 ++ [m]) /\ walk endpoints.2 (Nat.div2 n) (reverse (m :: s2)) /\
  ends_on_wrap g (s1 ++ [m]) = false /\ (forall t, t ∈ s1 ++ [m] -> t ∈ m :: s2 -> t = m) /\
  p = s1 ++ m :: s2.
Proof.
  split.
  - intros [-> Hh Hl Hnd Hall Hf Hb He Hhh Hth].
    assert (forall t, t ∈ s1 ++ [m] -> allowed t = true) as Hall1.
    { intros t Ht. apply Hall. set_solver. }
    assert (forall t, t ∈ m :: s2 -> allowed t = true) as Hall2.
    { intros t Ht. apply Hall. set_solver. }
    assert (NoDup (s1 ++ [m]) /\ NoDup (m :: s2) /\ forall t, t ∈ s1 -> t ∉ m :: s2) as (Hn1 & Hn2 & Hdisj).
    { apply NoDup_app in Hnd as (Hn1 & Hd & Hn2). split_and!; [|done|done].
      apply NoDup_app. split_and!; [done| |apply NoDup_singleton]. intros t Ht Htm%list_elem_of_singleton.
      apply (Hd t Ht). subst. left. }
    split_and!; [| |done| |done].
    + split; [by rewrite <- Hh; destruct s1|done| |done|done]. intros t Ht. apply Hall1.
      destruct s1; cbn in Ht; [by apply not_elem_of_nil in Ht|]. by right.
    + split; [|by rewrite reverse_Permutation| |done|by rewrite hops_reverse].
      * rewrite <- last_reverse, reverse_involutive. by rewrite last_app_cons in Hl.
      * intros t Ht. apply Hall2. rewrite <- elem_of_reverse. destruct (reverse (m :: s2)); [done|]. by right.
    + intros t [Ht|Ht%list_elem_of_singleton]%elem_of_app Ht2; [|done]. by apply Hdisj in Ht.
  - intros ([Hh1 Hn1 Ha1 Hs1 Hk1] & [Hh2 Hn2 Ha2 Hs2 Hk2] & He & Hcol & ->).
    rewrite hops_reverse in Hk2. rewrite <- last_reverse, reverse_involutive in Hh2.
    rewrite reverse_Permutation in Hn2.
    split; [done|by destruct s1|by rewrite last_app_cons| | |done..].
    + apply NoDup_app in Hn1 as (Hn1 & Hd & _). apply NoDup_app. split_and!; [done| |done].
      intros t Ht Ht2. apply (Hd t Ht). apply list_elem_of_singleton, Hcol; [|done].
      apply elem_of_app. by left.
    + intros t Ht. assert (t ∈ s1 ++ [m] \/ t ∈ reverse (m :: s2)) as [Hin|Hin].
      { apply elem_of_app in Ht as [?|?]; [left; apply elem_of_app; by left|right; by rewrite elem_of_reverse]. }
      * destruct (s1 ++ [m]) as [|x r]; [by apply not_elem_of_nil in Hin|]. injection Hh1 as ->.
        apply elem_of_cons in Hin as [->|Hin]; [apply allowed_endpoint|by apply Ha1].
      * pose proof (last_reverse (reverse (m :: s2))) as Hlr. rewrite reverse_involutive, Hh2 in Hlr.
        destruct (reverse (m :: s2)) as [|x r]; [by apply not_elem_of_nil in Hin|]. injection Hlr as <-.
        apply elem_of_cons in Hin as [->|Hin]; [apply allowed_endpoint|by apply Ha2].
Qed.

Definition head_levels (max_hops : nat) : list (list (list NodeIndex)) :=
  walk_levels NATIVE_WRAP_COMPONENT g endpoints.1 (Nat.div2 (S max_hops)) endpoints search.
Definition tail_levels (max_hops : nat) : list (list (list NodeIndex)) :=
  walk_levels NATIVE_WRAP_COMPONENT g endpoints.2 (Nat.div2 max_hops) endpoints search.

(** The two levels a length joins. *)
Lemma join_length_levels max_hops n : search_ok -> n <= max_hops ->
  exists heads tails, closed endpoints.1 (Nat.div2 (S n)) heads /\ closed endpoints.2 (Nat.div2 n) tails /\
    join_length g (head_levels max_hops) (tail_levels max_hops) n
    = heads ≫= join_head g (index_by_midpoint tails).
Proof.
  intros Hok Hn. destruct (halves n) as [_ Htail]. unfold join_length. rewrite Htail.
  pose proof (walk_levels_lookup endpoints.1 (Nat.div2 (S max_hops)) (Nat.div2 (S n)) Hok) as Hh.
  pose proof (walk_levels_lookup endpoints.2 (Nat.div2 max_hops) (Nat.div2 n) Hok) as Ht.
  pose proof (div2_le n max_hops Hn). pose proof (div2_le (S n) (S max_hops) ltac:(lia)).
  unfold head_levels, tail_levels.
  destruct (walk_levels _ _ endpoints.1 _ _ _ !! _) as [heads|]; [|lia].
  destruct (walk_levels _ _ endpoints.2 _ _ _ !! _) as [tails|]; [|lia].
  exists heads, tails. destruct Hh as [_ Hh], Ht as [_ Ht]. split_and!; [done..|].
  destruct (bool_decide (heads = [])) eqn:Hhe; [apply bool_decide_eq_true in Hhe; by subst|].
  destruct (bool_decide (tails = [])) eqn:Hte; [|done]. apply bool_decide_eq_true in Hte. subst tails. cbn.
  clear. induction heads as [|head heads IH]; [done|]. cbn. rewrite <- IH. unfold join_head.
  destruct (last head); [|done]. destruct (ends_on_wrap g head); [done|]. by rewrite lookup_empty.
Qed.

Lemma join_length_elem max_hops n p : search_ok -> n <= max_hops ->
  p ∈ join_length g (head_levels max_hops) (tail_levels max_hops) n <-> exists s1 m s2, meets n p s1 m s2.
Proof.
  intros Hok Hn. destruct (join_length_levels max_hops n Hok Hn) as (heads & tails & Hh & Ht & ->).
  rewrite list_elem_of_bind. split.
  - intros (hd & (m & tl & Htl & Hlh & Hlt & He & Hcol & ->)%join_head_elem & Hhd).
    apply (cl_elem _ _ _ Hh) in Hhd. apply (cl_elem _ _ _ Ht) in Htl.
    apply last_Some in Hlh as [s1 ->], Hlt as [t' ->].
    exists s1, m, (reverse t'). apply meets_halves.
    rewrite reverse_cons, reverse_involutive, reverse_app. split_and!; [done|done|done| |].
    + intros t Hin1 Hin2. apply Hcol; [done|]. apply elem_of_app.
      apply elem_of_cons in Hin2 as [->|Hin2]; [right; by apply list_elem_of_singleton|].
      left. by rewrite elem_of_reverse in Hin2.
    + cbn. by rewrite <- app_assoc.
  - intros (s1 & m & s2 & (Hw1 & Hw2 & He & Hcol & ->)%meets_halves). exists (s1 ++ [m]).
    split; [|by apply (cl_elem _ _ _ Hh)]. apply join_head_elem. exists m, (reverse (m :: s2)).
    split_and!.
    + by apply (cl_elem _ _ _ Ht).
    + apply last_snoc.
    + by rewrite last_reverse.
    + done.
    + intros t Hin1. rewrite elem_of_reverse. by apply Hcol.
    + rewrite reverse_involutive. cbn. by rewrite <- app_assoc.
Qed.

(** A route tells where its first [c] hops end. *)
Lemma prefix_unique (s1 s1' r r' : list NodeIndex) (m m' : NodeIndex) :
  s1 ++ m :: r = s1' ++ m' :: r' -> hops (s1 ++ [m]) = hops (s1' ++ [m']) ->
  hops (s1 ++ [m]) <> 0 ->
  ends_on_wrap g (s1 ++ [m]) = false -> ends_on_wrap g (s1' ++ [m']) = false ->
  s1 = s1' /\ m = m' /\ r = r'.
Proof.
  assert (forall s k r r' (m m' : NodeIndex), s ++ m :: r = (s ++ k) ++ m' :: r' -> k <> [] ->
    ends_on_wrap g ((s ++ k) ++ [m']) = false -> hops (s ++ [m]) < hops ((s ++ k) ++ [m'])) as Hlt.
  { clear. intros s k r r' m m' Heq Hk He. destruct k as [|x k]; [done|].
    rewrite <- app_assoc in Heq. apply app_inv_head in Heq. injection Heq as <- _.
    rewrite <- app_assoc. change ((m :: k) ++ [m']) with (m :: (k ++ [m'])). rewrite (hops_app s m (k ++ [m'])).
    destruct (proj2 (last_is_Some (s ++ m :: k)) ltac:(by destruct s)) as [a Ha].
    rewrite (ends_on_wrap_snoc _ a) in He by done. rewrite last_app_cons in Ha.
    change (m :: (k ++ [m'])) with ((m :: k) ++ [m']). rewrite (hops_snoc (m :: k) a m') by done. rewrite He. lia. }
  intros Heq Hh Hne He He'.
  destruct (Nat.lt_trichotomy (length s1) (length s1')) as [Hl|[Hl|Hl]].
  - destruct (prefix_weak_total s1 s1' (s1 ++ m :: r)) as [[k ->]|[k ->]];
      [by exists (m :: r)|rewrite Heq; by exists (m' :: r')| |].
    + assert (k <> []) as Hk by (intros ->; rewrite app_nil_r in Hl; lia).
      pose proof (Hlt _ _ _ _ _ _ Heq Hk He'). lia.
    + rewrite length_app in Hl. lia.
  - apply app_inj_1 in Heq as [-> Heq]; [|done]. injection Heq as -> ->. done.
  - destruct (prefix_weak_total s1 s1' (s1 ++ m :: r)) as [[k ->]|[k ->]];
      [by exists (m :: r)|rewrite Heq; by exists (m' :: r')| |].
    + rewrite length_app in Hl. lia.
    + assert (k <> []) as Hk by (intros ->; rewrite app_nil_r in Hl; lia).
      pose proof (Hlt _ _ _ _ _ _ (eq_sym Heq) Hk He). lia.
Qed.
End search.
