(* ===== verification/TokenPaths.v ===== *)
(** * TokenPaths: what the search between two tokens returns

    The specification of [paths_between_ix] of [fynd-core/src/graph/token_graph.rs] from
    the laws of [RouteSearchProofs]: between two tokens the routes, each once, shortest
    first, on a graph whose pairs trade both ways; without that assumption the sequences
    that meet in the middle, so that a route whose second half trades one way only is
    missed. *)

From stdpp Require Import prelude gmap sets strings list sorting.
From Stdlib Require Import NArith ZArith Lia.
From S2P Require Import Prelude F64 Types Tracker DerivedStore SpotPriceComputation Manager.
From S2P Require Import MarketData StableGraph TokenGraph RouteSearchProofs.

#[local] Open Scope nat_scope.

Section spec.
Context {D : Type} `{DiGraph (list (EdgeData D))} (NATIVE_WRAP_COMPONENT : ComponentId).
Context (g : TopologyGraph) (search : RouteSearch) (from to : NodeIndex).
Implicit Types (a b t : NodeIndex) (s p : list NodeIndex).

#[local] Abbreviation hops := (hops g).
#[local] Abbreviation walk := (walk NATIVE_WRAP_COMPONENT g search (from, to)).
#[local] Abbreviation meets := (meets NATIVE_WRAP_COMPONENT g search (from, to)).
#[local] Abbreviation wrap := (wrap NATIVE_WRAP_COMPONENT g search).
#[local] Abbreviation trade := (trade NATIVE_WRAP_COMPONENT g search).
#[local] Abbreviation search_ok := (search_ok g).

(** ** Splitting a route *)

Lemma split_at_hop c p : 1 <= c <= hops p ->
  exists s1 m r, p = s1 ++ m :: r /\ hops (s1 ++ [m]) = c /\ ends_on_wrap g (s1 ++ [m]) = false.
Proof.
  revert c. induction p as [|a [|b p] IH]; intros c Hc; [cbn in Hc; lia|cbn in Hc; lia|].
  rewrite hops_cons in Hc. destruct (is_wrap_pair g a b) eqn:Hw.
  - destruct (IH c ltac:(lia)) as (s1 & m & r & Heq & Hh & He).
    destruct s1 as [|x s1]; [cbn in Hh; lia|]. injection Heq as <- ->.
    exists (a :: b :: s1), m, r. split; [done|]. cbn [app] in *. rewrite hops_cons, Hw. split; [lia|].
    destruct (proj2 (last_is_Some (b :: s1)) ltac:(done)) as [y Hy].
    change (a :: b :: s1 ++ [m]) with ((a :: b :: s1) ++ [m]).
    change (b :: s1 ++ [m]) with ((b :: s1) ++ [m]) in He.
    rewrite (ends_on_wrap_snoc g (b :: s1) y) in He by done.
    by rewrite (ends_on_wrap_snoc g (a :: b :: s1) y).
  - destruct (decide (c = 1)) as [->|Hne].
    { exists [a], b, p. split; [done|]. cbn. by rewrite Hw. }
    destruct (IH (c - 1) ltac:(lia)) as (s1 & m & r & Heq & Hh & He).
    destruct s1 as [|x s1]; [cbn in Hh; lia|]. injection Heq as <- ->.
    exists (a :: b :: s1), m, r. split; [done|]. cbn [app] in *. rewrite hops_cons, Hw. split; [lia|].
    destruct (proj2 (last_is_Some (b :: s1)) ltac:(done)) as [y Hy].
    change (a :: b :: s1 ++ [m]) with ((a :: b :: s1) ++ [m]).
    change (b :: s1 ++ [m]) with ((b :: s1) ++ [m]) in He.
    rewrite (ends_on_wrap_snoc g (b :: s1) y) in He by done.
    by rewrite (ends_on_wrap_snoc g (a :: b :: s1) y).
Qed.

(** A walk without hops is its start, or the wrap from it. *)
Lemma walk_no_hops start p : search_ok -> walk start 0 p ->
  p = [start] \/ exists b, p = [start; b] /\ wrap start b = true.
Proof.
  intros Hok [Hh Hnd _ Hst Hk]. destruct p as [|a [|b [|c p]]]; [done|by injection Hh as ->; left|..].
  - injection Hh as ->. right. exists b. split; [done|]. destruct Hst as [Hst _].
    apply orb_true_iff in Hst as [Ht|]; [|done]. apply trade_not_wrap in Ht.
    rewrite hops_cons, Ht in Hk. lia.
  - exfalso. rewrite !hops_cons in Hk.
    destruct (is_wrap_pair g a b) eqn:Hab, (is_wrap_pair g b c) eqn:Hbc; try lia.
    rewrite is_wrap_pair_comm in Hab. apply (wrap_twin_spec g _ _ Hok) in Hab, Hbc.
    assert (c = a) as -> by congruence. apply NoDup_cons in Hnd as [Hnd _]. apply Hnd. right. left.
Qed.

Lemma meets_hops n p s1 m s2 : meets n p s1 m s2 -> hops p = n.
Proof.
  intros Hm. rewrite (me_eq _ _ _ _ _ _ _ _ _ Hm), hops_app, (me_head_hops _ _ _ _ _ _ _ _ _ Hm),
    (me_tail_hops _ _ _ _ _ _ _ _ _ Hm). apply halves.
Qed.

(** On pairs that trade both ways, meeting in the middle is walking through. *)
Lemma meets_walk n p : (forall a b, trade a b = trade b a) -> 1 <= n ->
  (exists s1 m s2, meets n p s1 m s2) <-> walk from n p /\ last p = Some to.
Proof.
  intros Hsym Hn. split.
  - intros (s1 & m & s2 & Hm). pose proof (meets_hops _ _ _ _ _ Hm) as Hk.
    destruct Hm as [-> Hh Hl Hnd Hall Hf Hb _ _ _]. split; [|done]. split; [done|done| | |done].
    + intros t Ht. apply Hall. destruct (s1 ++ m :: s2); [done|]. by right.
    + apply steps_ok_app. split; [done|]. by apply (steps_ok_reverse _ g search (m :: s2) Hsym).
  - intros [[Hh Hnd Hall Hst Hk] Hl]. destruct (halves n) as [Hhalf _].
    assert (1 <= Nat.div2 (S n)) as Hc by (destruct n as [|[|]]; [lia|cbn; lia..]).
    destruct (split_at_hop (Nat.div2 (S n)) p) as (s1 & m & s2 & -> & Hs1 & He).
    { rewrite Hk. split; [done|]. rewrite <- Hhalf at 2. apply Nat.le_add_r. }
    apply steps_ok_app in Hst as [Hst1 Hst2]. exists s1, m, s2. split; try done.
    + intros t Ht. destruct (s1 ++ m :: s2) as [|x r]; [by apply not_elem_of_nil in Ht|]. injection Hh as ->.
      apply elem_of_cons in Ht as [->|Ht]; [|by apply Hall].
      apply (allowed_endpoint g search (from, to)).
    + by apply (steps_ok_reverse _ g search (m :: s2) Hsym).
    + rewrite hops_app, Hs1 in Hk. rewrite <- Hhalf in Hk at 2. by apply Nat.add_cancel_l in Hk.
Qed.

(** ** The search *)

Lemma or_iff_compat (P P' Q Q' : Prop) : (P <-> P') -> (Q <-> Q') -> (P \/ Q <-> P' \/ Q').
Proof. tauto. Qed.

Lemma bidirectional_search_elem p : search_ok -> 1 <= min_hops (rs_bounds search) ->
  p ∈ bidirectional_search NATIVE_WRAP_COMPONENT g from to search <->
  (min_hops (rs_bounds search) = 1 /\ wrap from to = true /\ p = [from; to]) \/
  exists n s1 m s2, min_hops (rs_bounds search) <= n <= max_hops (rs_bounds search) /\ meets n p s1 m s2.
Proof.
  intros Hok Hmin. unfold bidirectional_search. rewrite elem_of_app, list_elem_of_bind. apply or_iff_compat.
  - fold (wrap from to). destruct (bool_decide (min_hops (rs_bounds search) = 1)) eqn:Hb, (wrap from to) eqn:Hw; cbn.
    + apply bool_decide_eq_true in Hb. rewrite list_elem_of_singleton. split; [done|by intros (_ & _ & ->)].
    + split; [by intros []%not_elem_of_nil|by intros (_ & ? & _)].
    + apply bool_decide_eq_false in Hb. split; [by intros []%not_elem_of_nil|by intros (? & _ & _)].
    + split; [by intros []%not_elem_of_nil|by intros (_ & ? & _)].
  - split.
    + intros (n & Hp & Hn%list_elem_of_In%in_seq). exists n.
      apply (join_length_elem NATIVE_WRAP_COMPONENT g search (from, to)) in Hp as (s1 & m & s2 & Hm); [|done|lia].
      exists s1, m, s2. split; [lia|done].
    + intros (n & s1 & m & s2 & Hn & Hm). exists n. split.
      * apply (join_length_elem NATIVE_WRAP_COMPONENT g search (from, to)); [done|lia|]. by exists s1, m, s2.
      * apply list_elem_of_In, in_seq. lia.
Qed.

Lemma join_length_NoDup n max : search_ok -> 1 <= n <= max ->
  NoDup (join_length g (head_levels NATIVE_WRAP_COMPONENT g search (from, to) max)
           (tail_levels NATIVE_WRAP_COMPONENT g search (from, to) max) n).
Proof.
  intros Hok Hn. destruct (join_length_levels NATIVE_WRAP_COMPONENT g search (from, to) max n Hok ltac:(lia))
    as (heads & tails & Hh & Ht & ->).
  assert (Nat.div2 (S n) <> 0) as Hc by (destruct n as [|[|]]; cbn; lia).
  apply NoDup_bind; [| |apply (cl_NoDup _ _ _ _ _ _ _ Hh)].
  - intros h1 h2 p Hin1 Hin2 (m1 & t1 & _ & Hl1 & Hlt1 & He1 & _ & ->)%join_head_elem
      (m2 & t2 & _ & Hl2 & Hlt2 & He2 & _ & Heq)%join_head_elem.
    apply (cl_elem _ _ _ _ _ _ _ Hh), wk_hops in Hin1, Hin2.
    apply last_Some in Hl1 as [s1 ->], Hl2 as [s2 ->]. rewrite <- !app_assoc in Heq. cbn [app] in Heq.
    destruct (prefix_unique g s1 s2 _ _ m1 m2 Heq ltac:(congruence) ltac:(congruence) He1 He2) as (-> & -> & _).
    done.
  - intros h _. unfold join_head. destruct (last h) as [m|]; [|constructor].
    destruct (ends_on_wrap g h); [constructor|].
    pose proof (index_by_midpoint_lookup tails m) as Hidx.
    destruct (index_by_midpoint tails !! m) as [candidates|]; [|constructor]. cbn in Hidx. subst candidates.
    assert (NoDup tails) as Hnd by apply (cl_NoDup _ _ _ _ _ _ _ Ht). clear Ht.
    induction Hnd as [|tail tails Hout Hnd IH]; [constructor|]. cbn [List.filter].
    destruct (bool_decide (last tail = Some m)) eqn:Hlast; [|done]. apply bool_decide_eq_true in Hlast.
    cbn [fmap list_fmap omap list_omap]. destruct (existsb _ h); [done|]. constructor; [|done].
    intros (rt & (tail' & -> & [Hin Hlast'%bool_decide_eq_true]%elem_of_filterb)%list_elem_of_fmap & Hp)%list_elem_of_omap.
    destruct (existsb _ h); [done|]. injection Hp as Hp. apply app_inv_head in Hp.
    apply last_Some in Hlast as [u ->], Hlast' as [u' ->]. rewrite !reverse_app in Hp. cbn in Hp.
    apply (inj reverse) in Hp. by subst.
Qed.

Lemma bidirectional_search_NoDup : search_ok -> 1 <= min_hops (rs_bounds search) ->
  NoDup (bidirectional_search NATIVE_WRAP_COMPONENT g from to search).
Proof.
  intros Hok Hmin. unfold bidirectional_search. apply NoDup_app. split_and!.
  - destruct (_ && _); [apply NoDup_singleton|constructor].
  - intros p Hp (n & Hj & Hn%list_elem_of_In%in_seq)%list_elem_of_bind.
    apply (join_length_elem NATIVE_WRAP_COMPONENT g search (from, to)) in Hj as (s1 & m & s2 & Hm); [|done|lia].
    apply meets_hops in Hm. fold (wrap from to) in Hp. destruct (wrap from to) eqn:Hw;
      [|rewrite andb_false_r in Hp; by apply not_elem_of_nil in Hp].
    destruct (bool_decide _); [|by apply not_elem_of_nil in Hp]. apply list_elem_of_singleton in Hp as ->.
    rewrite hops_cons, (wrap_is_pair _ _ _ _ _ Hw) in Hm. cbn in Hm. lia.
  - apply NoDup_bind; [| |apply NoDup_ListNoDup, seq_NoDup].
    + intros n1 n2 p Hn1%list_elem_of_In%in_seq Hn2%list_elem_of_In%in_seq Hj1 Hj2.
      apply (join_length_elem NATIVE_WRAP_COMPONENT g search (from, to)) in Hj1 as (? & ? & ? & Hm1%meets_hops),
        Hj2 as (? & ? & ? & Hm2%meets_hops); [congruence|done|lia|done|lia].
    + intros n Hn%list_elem_of_In%in_seq. apply join_length_NoDup; [done|lia].
Qed.

(** Shortest first. *)
Lemma sorted_by_length {A} (key : A -> nat) (f : nat -> list A) len k :
  (forall n x, k <= n < k + len -> x ∈ f n -> key x = n) ->
  StronglySorted (fun x y => key x <= key y) (seq k len ≫= f).
Proof.
  revert k. induction len as [|len IH]; intros k Hkey; [constructor|]. cbn [seq].
  change (StronglySorted (fun x y => key x <= key y) (f k ++ (seq (S k) len ≫= f))).
  apply StronglySorted_app. split_and!.
  - intros x y Hx (n & Hy & Hn%list_elem_of_In%in_seq)%list_elem_of_bind.
    rewrite (Hkey k x), (Hkey n y); [lia|lia|done|lia|done].
  - assert (forall x, x ∈ f k -> key x = k) as Hk by (intros x; apply Hkey; lia). clear Hkey.
    induction (f k) as [|x l IHl]; constructor; [apply IHl; intros y Hy; apply Hk; by right|].
    apply Forall_forall. intros y Hy. rewrite (Hk x), (Hk y); [done|by right|left].
  - apply IH. intros n x Hn. apply Hkey. lia.
Qed.

Lemma bidirectional_search_sorted : search_ok -> 1 <= min_hops (rs_bounds search) ->
  StronglySorted (fun p q => hops p <= hops q) (bidirectional_search NATIVE_WRAP_COMPONENT g from to search).
Proof.
  intros Hok Hmin. unfold bidirectional_search. apply StronglySorted_app. split_and!.
  - intros p q Hp _. fold (wrap from to) in Hp. destruct (wrap from to) eqn:Hw;
      [|rewrite andb_false_r in Hp; by apply not_elem_of_nil in Hp].
    destruct (bool_decide _); [|by apply not_elem_of_nil in Hp]. apply list_elem_of_singleton in Hp as ->.
    rewrite hops_cons, (wrap_is_pair _ _ _ _ _ Hw). cbn. lia.
  - destruct (_ && _); repeat constructor.
  - apply sorted_by_length. intros n p Hn Hp.
    apply (join_length_elem NATIVE_WRAP_COMPONENT g search (from, to)) in Hp as (? & ? & ? & Hm); [|done|lia].
    by apply meets_hops in Hm.
Qed.
End spec.

(** ** Circular routes *)

(** Entries with distinct keys whose results tell their keys. *)
Lemma omap_NoDup_fst {A B C} (f : A * B -> option C) (l : list (A * B)) :
  (forall x x' y, f x = Some y -> f x' = Some y -> x.1 = x'.1) -> NoDup l.*1 -> NoDup (omap f l).
Proof.
  intros Hinj. induction l as [|x l IH]; cbn; [constructor|]. intros [Hx Hnd]%NoDup_cons.
  destruct (f x) as [y|] eqn:Hy; [|by apply IH]. constructor; [|by apply IH].
  intros (x' & Hx' & Hy')%list_elem_of_omap. apply Hx. rewrite (Hinj _ _ _ Hy Hy').
  apply list_elem_of_fmap. by exists x'.
Qed.

Section circular.
Context {D : Type} `{DiGraph (list (EdgeData D))} (NATIVE_WRAP_COMPONENT : ComponentId).
Context (g : TopologyGraph) (search : RouteSearch) (target : NodeIndex).
Implicit Types (a b t : NodeIndex) (s p : list NodeIndex) (entry : list NodeIndex * nat).

#[local] Abbreviation hops := (hops g).
#[local] Abbreviation walk := (walk NATIVE_WRAP_COMPONENT g search (target, target) target).
#[local] Abbreviation allowed := (allowed g search (target, target)).
#[local] Abbreviation wrap := (wrap NATIVE_WRAP_COMPONENT g search).
#[local] Abbreviation trade := (trade NATIVE_WRAP_COMPONENT g search).
#[local] Abbreviation step := (step NATIVE_WRAP_COMPONENT g search).
#[local] Abbreviation search_ok := (search_ok g).
#[local] Abbreviation min := (min_hops (rs_bounds search)).
#[local] Abbreviation max := (max_hops (rs_bounds search)).

(** A route back to the token: an open walk, a step that closes it, at most one wrap. *)
Record circular_route p s : Prop := {
  ci_eq : p = s ++ [target];
  ci_walk : walk (hops s) s;
  ci_close : exists a, last s = Some a /\ step a target = true;
  ci_wraps : length p <= hops p + 2;
  ci_min : min <= Nat.max (hops p) 1;
  ci_max : hops p <= max;
}.

Definition close_step s (st : NodeIndex * nat) : option (list NodeIndex) :=
  if decide (st.1 = target) then if min <=? Nat.max st.2 1 then Some (s ++ [st.1]) else None else None.

Definition open_step s (st : NodeIndex * nat) : option (list NodeIndex * nat) :=
  if decide (st.1 = target) then None
  else if bool_decide (st.1 ∈ s) then None else if allowed st.1 then Some (s ++ [st.1], st.2) else None.

Definition steps_of entry : list (NodeIndex * nat) :=
  match last entry.1 with
  | Some a => circular_steps NATIVE_WRAP_COMPONENT g search entry a
  | None => []
  end.

Lemma circular_step_fold s steps out :
  fold_left (circular_step g target search s) steps out
  = (out.1 ++ omap (close_step s) steps, out.2 ++ omap (open_step s) steps).
Proof.
  revert out. induction steps as [|[b h] steps IH]; intros out; cbn [fold_left].
  { cbn. by rewrite !app_nil_r, <- surjective_pairing. }
  rewrite IH. unfold circular_step. cbn [omap list_omap].
  unfold close_step at 2, open_step at 2. cbn [fst snd].
  change (search_allows_token search (node_address g b) (node_address g target, node_address g target))
    with (allowed b).
  destruct (decide (b = target)) as [->|Hne].
  - destruct (min <=? Nat.max h 1); cbn; by rewrite <- ?app_assoc.
  - destruct (bool_decide (b ∈ s)); [done|]. destruct (allowed b); cbn; by rewrite <- ?app_assoc.
Qed.

Lemma circular_round_eq token_paths frontier :
  circular_round NATIVE_WRAP_COMPONENT g target search token_paths frontier
  = (token_paths ++ (frontier ≫= fun entry => omap (close_step entry.1) (steps_of entry)),
     frontier ≫= fun entry => omap (open_step entry.1) (steps_of entry)).
Proof.
  assert (forall frontier token_paths nexts, fold_left (fun out entry =>
      match last entry.1 with
      | None => out
      | Some last0 => fold_left (circular_step g target search entry.1)
                        (circular_steps NATIVE_WRAP_COMPONENT g search entry last0) out
      end) frontier (token_paths, nexts)
    = (token_paths ++ (frontier ≫= fun entry => omap (close_step entry.1) (steps_of entry)),
       nexts ++ (frontier ≫= fun entry => omap (open_step entry.1) (steps_of entry)))) as Hfold;
    [|apply Hfold].
  clear. induction frontier as [|entry frontier IH]; intros token_paths nexts; cbn [fold_left].
  { cbn. by rewrite !app_nil_r. }
  cbn [mbind list_bind]. unfold steps_of at 1 3. destruct (last entry.1) as [a|]; [|apply IH].
  rewrite circular_step_fold, IH. cbn [fst snd]. by rewrite <- !app_assoc.
Qed.

(** ** The steps of an entry *)

Lemma steps_of_elem s h b h' : search_ok ->
  (b, h') ∈ steps_of (s, h) <->
  exists a, last s = Some a /\
    ((trade a b = true /\ h < max /\ h' = S h) \/ (wrap a b = true /\ length s - 1 <= h /\ h' = h)).
Proof.
  intros Hok. unfold steps_of. cbn [fst]. destruct (last s) as [a|].
  2: { split; [by intros []%not_elem_of_nil|by intros (? & ? & _)]. }
  unfold circular_steps. rewrite elem_of_app. split.
  - intros [Hin|Hin]; exists a; (split; [done|]).
    + left. destruct (Nat.ltb_spec h max) as [Hlt|]; [|by apply not_elem_of_nil in Hin].
      apply list_elem_of_omap in Hin as (b' & _ & Hb). fold (trade a b') in Hb.
      destruct (trade a b') eqn:Ht; [|done]. by injection Hb as -> <-.
    + right. destruct (Nat.ltb_spec h (length s - 1)) as [|Hle]; [by apply not_elem_of_nil in Hin|].
      destruct (wrap_twin g a) as [b'|]; [|by apply not_elem_of_nil in Hin].
      fold (wrap a b') in Hin. destruct (wrap a b') eqn:Hw; [|by apply not_elem_of_nil in Hin].
      apply list_elem_of_singleton in Hin. by injection Hin as -> ->.
  - intros (a' & [= <-] & [(Ht & Hlt & ->)|(Hw & Hle & ->)]).
    + left. rewrite (proj2 (Nat.ltb_lt h max) Hlt). apply list_elem_of_omap. exists b.
      fold (trade a b). rewrite Ht. split; [|done]. apply (so_neighbors g Hok).
      intros Hnil. unfold trade, RouteSearchProofs.trade, pair_has_allowed_trade, pools_between in Ht.
      rewrite Hnil in Ht. destruct (is_wrap_pair g a b); [done|]. by destruct (ResolvedRouteConstraints_is_empty _).
    + right. destruct (Nat.ltb_spec h (length s - 1)); [lia|].
      pose proof (wrap_is_pair _ _ _ _ _ Hw) as Hp. apply (wrap_twin_spec g _ _ Hok) in Hp. rewrite Hp.
      fold (wrap a b). rewrite Hw. by apply list_elem_of_singleton.
Qed.

Lemma steps_of_NoDup entry : search_ok -> NoDup (steps_of entry).*1.
Proof.
  intros Hok. unfold steps_of. destruct (last entry.1) as [a|]; [|constructor].
  destruct entry as [s h]. unfold circular_steps. cbn [fst]. rewrite fmap_app. apply NoDup_app. split_and!.
  - destruct (h <? max); [|constructor].
    assert (forall l, (omap (fun neighbor => if pair_has_allowed_trade NATIVE_WRAP_COMPONENT g a neighbor (rs_constraints search)
        then Some (neighbor, S h) else None) l).*1 = List.filter (trade a) l) as ->.
    { induction l as [|b l IH]; [done|]. cbn [omap list_omap List.filter]. fold (trade a b).
      destruct (trade a b); cbn; [|done]. f_equal. exact IH. }
    apply (sublist_NoDup _ _ (so_NoDup g Hok a)), sublist_filterb.
  - intros b Hb Hb'. apply list_elem_of_fmap in Hb as ([b1 h1] & -> & Hb).
    destruct (h <? max); [|by apply not_elem_of_nil in Hb].
    apply list_elem_of_omap in Hb as (b2 & _ & Hb). fold (trade a b2) in Hb.
    destruct (trade a b2) eqn:Ht; [|done]. injection Hb as -> _. apply trade_not_wrap in Ht.
    destruct (h <? length s - 1); [by apply not_elem_of_nil in Hb'|].
    destruct (wrap_twin g a) as [b3|] eqn:Htw; [|by apply not_elem_of_nil in Hb'].
    apply (wrap_twin_spec g _ _ Hok) in Htw.
    destruct (pair_has_allowed_wrap _ _ _ _ _); [|by apply not_elem_of_nil in Hb'].
    apply list_elem_of_singleton in Hb'. cbn in Hb'. congruence.
  - destruct (h <? length s - 1); [constructor|]. destruct (wrap_twin g a); [|constructor].
    destruct (pair_has_allowed_wrap _ _ _ _ _); [apply NoDup_singleton|constructor].
Qed.

(** A sequence that names no token twice takes the wrap at most once. *)
Lemma has_wrap s : hops s + 1 < length s -> exists x y, x ∈ s /\ y ∈ s /\ is_wrap_pair g x y = true.
Proof.
  induction s as [|x [|y s] IH]; [cbn; lia|cbn; lia|]. rewrite hops_cons.
  destruct (is_wrap_pair g x y) eqn:Hw.
  - intros _. exists x, y. split_and!; [left|right; left|done].
  - intros Hlt. destruct IH as (x' & y' & Hx & Hy & Hp); [cbn in *; lia|].
    exists x', y'. split_and!; [by right|by right|done].
Qed.

Lemma walk_unwrapped h s a b : search_ok -> walk h s -> last s = Some a -> wrap a b = true -> (b ∉ s) ->
  length s - 1 <= h.
Proof.
  intros Hok Hw Ha Hab Hb. destruct (Nat.le_gt_cases (length s - 1) h) as [|Hgt]; [done|exfalso].
  pose proof (wk_hops _ _ _ _ _ _ _ Hw) as Hh. destruct (has_wrap s) as (x & y & Hx & Hy & Hp); [lia|].
  apply wrap_is_pair in Hab. unfold is_wrap_pair in Hp, Hab.
  apply bool_decide_eq_true in Hp, Hab. rewrite Hab in Hp. unfold ordered in Hp. injection Hp as Hmin Hmax.
  destruct (Nat.min_spec a b) as [[? E1]|[? E1]], (Nat.max_spec a b) as [[? E2]|[? E2]],
    (Nat.min_spec x y) as [[? E3]|[? E3]], (Nat.max_spec x y) as [[? E4]|[? E4]];
    rewrite ?E1, ?E2, ?E3, ?E4 in *; subst; done || lia.
Qed.

Lemma walk_length_bound h s : search_ok -> walk h s -> h + 2 < length s -> False.
Proof.
  intros Hok. revert h. induction s as [|b s IH] using rev_ind; intros h Hw Hlt; [cbn in Hlt; lia|].
  rewrite length_app in Hlt. cbn in Hlt.
  apply walk_snoc in Hw; [|intros ->; cbn in Hlt; lia].
  destruct Hw as (a & Ha & Hst & Hb & _ & h' & Hw & ->). apply orb_true_iff in Hst as [Ht|Hwr].
  - rewrite (trade_not_wrap _ _ _ _ _ Ht) in Hlt. apply (IH h' Hw). lia.
  - rewrite (wrap_is_pair _ _ _ _ _ Hwr) in Hlt. pose proof (walk_unwrapped h' s a b Hok Hw Ha Hwr Hb). lia.
Qed.

Lemma walk_last_snoc h s a b : last s = Some a -> search_ok -> step a b = true -> (b ∉ s) -> allowed b = true ->
  walk h s -> walk (h + (if is_wrap_pair g a b then 0 else 1)) (s ++ [b]).
Proof.
  intros Ha Hok Hst Hb Hall Hw. apply walk_snoc; [by intros ->|]. exists a. split_and!; [done..|].
  by exists h.
Qed.

(** ** Rounds *)

(** The frontier holds the open walks of [n] tokens. *)
Record exact (n : nat) (frontier : list (list NodeIndex * nat)) : Prop := {
  ex_elem : forall s h, (s, h) ∈ frontier <-> walk h s /\ h <= max /\ length s = n;
  ex_NoDup : NoDup frontier;
}.

Lemma head_walk h s : walk h s -> target ∈ s.
Proof. intros Hw. apply wk_head in Hw. destruct s; [done|]. injection Hw as ->. left. Qed.

Lemma exact_next n frontier : search_ok -> 1 <= n -> exact n frontier ->
  exact (S n) (frontier ≫= fun entry => omap (open_step entry.1) (steps_of entry)).
Proof.
  intros Hok Hn [Hel Hnd]. split.
  - intros s' h'. rewrite list_elem_of_bind. split.
    + intros ([s h] & ([b h1] & Hst & Hop)%list_elem_of_omap & (Hw & Hle & Hlen)%Hel).
      unfold open_step in Hop. cbn [fst snd] in Hop.
      destruct (decide (b = target)); [done|]. destruct (bool_decide (b ∈ s)) eqn:Hb; [done|].
      apply bool_decide_eq_false in Hb. destruct (allowed b) eqn:Hall; [|done]. injection Hop as <- <-.
      apply (steps_of_elem _ _ _ _ Hok) in Hst as (a & Ha & [(Ht & Hlt & ->)|(Hwr & Hu & ->)]).
      * assert (step a b = true) as Hsab by (unfold RouteSearchProofs.step; by rewrite Ht).
        pose proof (walk_last_snoc h s a b Ha Hok Hsab Hb Hall Hw) as Hw'.
        rewrite (trade_not_wrap _ _ _ _ _ Ht), Nat.add_1_r in Hw'.
        split; [exact Hw'|]. rewrite length_app. cbn. lia.
      * assert (step a b = true) as Hsab by (unfold RouteSearchProofs.step; by rewrite Hwr, orb_true_r).
        pose proof (walk_last_snoc h s a b Ha Hok Hsab Hb Hall Hw) as Hw'.
        rewrite (wrap_is_pair _ _ _ _ _ Hwr), Nat.add_0_r in Hw'.
        split; [exact Hw'|]. rewrite length_app. cbn. lia.
    + intros (Hw & Hle & Hlen). destruct s' as [|b s _] using rev_ind; [by apply wk_head in Hw|].
      rewrite length_app in Hlen. cbn in Hlen.
      apply walk_snoc in Hw; [|intros ->; cbn in Hlen; lia].
      destruct Hw as (a & Ha & Hst & Hb & Hall & h & Hw & ->). exists (s, h). split.
      * apply list_elem_of_omap. exists (b, h + (if is_wrap_pair g a b then 0 else 1)). split.
        -- apply (steps_of_elem _ _ _ _ Hok). exists a. split; [done|].
           apply orb_true_iff in Hst as [Ht|Hwr].
           ++ left. rewrite (trade_not_wrap _ _ _ _ _ Ht) in *. split_and!; [done|lia|lia].
           ++ right. rewrite (wrap_is_pair _ _ _ _ _ Hwr) in *. split_and!; [done| |lia].
              by apply (walk_unwrapped h s a b).
        -- unfold open_step. cbn [fst snd]. destruct (decide (b = target)) as [->|].
           { exfalso. by apply Hb, (head_walk h). }
           by rewrite bool_decide_eq_false_2, Hall.
      * apply Hel. split_and!; [done|lia|lia].
  - apply NoDup_bind; [| |done].
    + intros [s1 h1] [s2 h2] [s h] Hin1 Hin2 ([b1 k1] & Hs1 & Ho1)%list_elem_of_omap ([b2 k2] & Hs2 & Ho2)%list_elem_of_omap.
      unfold open_step in Ho1, Ho2. cbn [fst snd] in Ho1, Ho2. repeat case_match; try done.
      injection Ho1 as <- <-. injection Ho2 as Heq _. apply app_inj_tail in Heq as [-> _].
      apply Hel in Hin1 as (Hw1 & _), Hin2 as (Hw2 & _). apply wk_hops in Hw1, Hw2. congruence.
    + intros [s h] _. pose proof (steps_of_NoDup (s, h) Hok) as Hns.
      apply omap_NoDup_fst; [|done]. intros [b k] [b' k'] [s' h'] Ho1 Ho2.
      unfold open_step in Ho1, Ho2. cbn [fst snd] in *. repeat case_match; try done.
      injection Ho1 as <- <-. injection Ho2 as Heq _. by apply app_inj_tail in Heq as [_ ->].
Qed.

Lemma closings_elem n frontier p : search_ok -> exact n frontier ->
  p ∈ (frontier ≫= fun entry => omap (close_step entry.1) (steps_of entry)) <->
  exists s, circular_route p s /\ length s = n.
Proof.
  intros Hok [Hel _]. rewrite list_elem_of_bind. split.
  - intros ([s h] & ([b h1] & Hst & Hcl)%list_elem_of_omap & (Hw & Hle & Hlen)%Hel).
    unfold close_step in Hcl. cbn [fst snd] in Hcl. destruct (decide (b = target)) as [->|]; [|done].
    destruct (Nat.leb_spec min (Nat.max h1 1)) as [Hmin|]; [|done]. injection Hcl as <-.
    pose proof (wk_hops _ _ _ _ _ _ _ Hw) as Hh. exists s. split; [|done].
    apply (steps_of_elem _ _ _ _ Hok) in Hst as (a & Ha & [(Ht & Hlt & ->)|(Hwr & Hu & ->)]).
    + assert (hops (s ++ [target]) = S h) as Hp
        by (rewrite (hops_snoc g s a) by done; rewrite (trade_not_wrap _ _ _ _ _ Ht); lia).
      split; rewrite ?Hp; [done|by rewrite Hh| | |done|done].
      * exists a. split; [done|]. unfold RouteSearchProofs.step. by rewrite Ht.
      * rewrite length_app. cbn. destruct (Nat.le_gt_cases (length s) (h + 2)) as [|Hgt]; [lia|exfalso].
        by eapply (walk_length_bound h s).
    + assert (hops (s ++ [target]) = h) as Hp
        by (rewrite (hops_snoc g s a) by done; rewrite (wrap_is_pair _ _ _ _ _ Hwr); lia).
      split; rewrite ?Hp; [done|by rewrite Hh| | |done|done].
      * exists a. split; [done|]. unfold RouteSearchProofs.step. by rewrite Hwr, orb_true_r.
      * rewrite length_app. cbn. lia.
  - intros (s & [-> Hw (a & Ha & Hst) Hwr Hmin Hmax] & Hlen).
    rewrite (hops_snoc g s a) in Hwr, Hmin, Hmax by done. rewrite length_app in Hwr. cbn in Hwr.
    exists (s, hops s). split; [|apply Hel; split_and!; [done|lia|done]].
    apply list_elem_of_omap. exists (target, hops s + (if is_wrap_pair g a target then 0 else 1)). split.
    + apply (steps_of_elem _ _ _ _ Hok). exists a. split; [done|]. apply orb_true_iff in Hst as [Ht|Hwrap].
      * left. rewrite (trade_not_wrap _ _ _ _ _ Ht) in *. split_and!; [done|lia|lia].
      * right. rewrite (wrap_is_pair _ _ _ _ _ Hwrap) in *. split_and!; [done|lia|lia].
    + unfold close_step. cbn [fst snd]. rewrite decide_True by done.
      by rewrite (proj2 (Nat.leb_le _ _) Hmin).
Qed.

Lemma closings_NoDup n frontier : search_ok -> exact n frontier ->
  NoDup (frontier ≫= fun entry => omap (close_step entry.1) (steps_of entry)).
Proof.
  intros Hok [Hel Hnd]. apply NoDup_bind; [| |done].
  - intros [s1 h1] [s2 h2] p Hin1 Hin2 ([b1 k1] & _ & Ho1)%list_elem_of_omap ([b2 k2] & _ & Ho2)%list_elem_of_omap.
    unfold close_step in Ho1, Ho2. cbn [fst snd] in Ho1, Ho2. repeat case_match; try done.
    injection Ho1 as <-. injection Ho2 as Heq. apply app_inj_tail in Heq as [-> _].
    apply Hel in Hin1 as (Hw1 & _), Hin2 as (Hw2 & _). apply wk_hops in Hw1, Hw2. congruence.
  - intros [s h] _. apply omap_NoDup_fst; [|by apply steps_of_NoDup].
    intros [b k] [b' k'] p Ho1 Ho2. unfold close_step in Ho1, Ho2. cbn [fst snd] in *. repeat case_match; congruence.
Qed.

Lemma circular_rounds_spec r n token_paths frontier : search_ok -> 1 <= n -> exact n frontier ->
  NoDup token_paths -> (forall p, p ∈ token_paths -> length p <= n) ->
  let result := circular_rounds NATIVE_WRAP_COMPONENT g target search r token_paths frontier in
  NoDup result /\
  forall p, p ∈ result <-> p ∈ token_paths \/ exists s, circular_route p s /\ n <= length s < n + r.
Proof.
  intros Hok. cbn zeta. revert n token_paths frontier.
  induction r as [|r IH]; intros n token_paths frontier Hn Hex Hnd Hlen; cbn [circular_rounds].
  { split; [done|]. intros p. split; [by left|]. intros [?|(s & _ & ?)]; [done|lia]. }
  rewrite circular_round_eq. destruct (IH (S n) (token_paths ++ (frontier ≫= fun entry =>
    omap (close_step entry.1) (steps_of entry))) (frontier ≫= fun entry => omap (open_step entry.1) (steps_of entry)))
    as [Hnd' Hel'].
  - lia.
  - by apply exact_next.
  - apply NoDup_app. split_and!; [done| |by apply (closings_NoDup n)].
    intros p Hp (s & Hr & Hs)%(closings_elem n); [|done|done]. apply Hlen in Hp.
    rewrite (ci_eq _ _ Hr), length_app in Hp. cbn in Hp. lia.
  - intros p [Hp|(s & Hr & Hs)%(closings_elem n)]%elem_of_app; [|  |done|done].
    + apply Hlen in Hp. lia.
    + rewrite (ci_eq _ _ Hr), length_app. cbn. lia.
  - split; [done|]. intros p. rewrite Hel', elem_of_app, (closings_elem n _ _ Hok Hex). split.
    + intros [[?|(s & ? & ?)]|(s & ? & ?)]; [by left|right; exists s; split; [done|lia]..].
    + intros [?|(s & ? & ?)]; [by left; left|]. destruct (decide (length s = n)).
      * left. right. by exists s.
      * right. exists s. split; [done|lia].
Qed.

Lemma circular_start : exact 1 [([target], 0)].
Proof.
  split; [|apply NoDup_singleton]. intros s h. rewrite list_elem_of_singleton. split.
  - intros [= -> ->]. split_and!; [apply walk_start|lia|done].
  - intros (Hw & _ & Hlen). destruct s as [|a [|b s]]; [done| |done].
    pose proof (wk_head _ _ _ _ _ _ _ Hw) as Hh. injection Hh as ->.
    apply wk_hops in Hw. cbn in Hw. by subst.
Qed.

Lemma circular_token_paths_lemma : search_ok ->
  NoDup (circular_token_paths NATIVE_WRAP_COMPONENT g target search) /\
  forall p, p ∈ circular_token_paths NATIVE_WRAP_COMPONENT g target search <-> exists s, circular_route p s.
Proof.
  intros Hok. unfold circular_token_paths.
  destruct (circular_rounds_spec (max + match tg_wrap_ends g with Some _ => 1 | None => 0 end) 1 [] [([target], 0)]
    Hok ltac:(lia) circular_start ltac:(constructor) ltac:(by intros p []%not_elem_of_nil)) as [Hnd Hel].
  split; [done|]. intros p. rewrite Hel. split.
  - intros [[]%not_elem_of_nil|(s & Hr & _)]. by exists s.
  - intros (s & Hr). right. exists s. split; [done|].
    destruct Hr as [-> Hw _ Hwr _ Hmax]. rewrite length_app in Hwr. cbn in Hwr.
    assert (1 <= length s) by (apply wk_head in Hw; by destruct s; [|cbn; lia]). split; [done|].
    destruct (tg_wrap_ends g) as [ends|] eqn:Hends; [lia|].
    enough (length (s ++ [target]) <= hops (s ++ [target]) + 1) by (rewrite length_app in *; cbn in *; lia).
    destruct (Nat.le_gt_cases (length (s ++ [target])) (hops (s ++ [target]) + 1)) as [|Hgt]; [done|exfalso].
    destruct (has_wrap (s ++ [target])) as (x & y & _ & _ & Hp); [lia|]. unfold is_wrap_pair in Hp.
    rewrite Hends in Hp. by apply bool_decide_eq_true in Hp.
Qed.
End circular.
