(* ===== verification/ExpandPath.v ===== *)
(** * ExpandPath: the odometer over the pools of a token path

    [expand_path] of [fynd-core/src/graph/token_graph.rs] counts through the pool picks of
    a token path. It equals the reference definition: every combination of one pool per
    leg, the leftmost leg slowest, cut off at the cap. *)

From stdpp Require Import prelude gmap sets strings list sorting.
From Stdlib Require Import NArith ZArith Lia.
From S2P Require Import Prelude F64 Types Tracker DerivedStore SpotPriceComputation Manager.
From S2P Require Import MarketData StableGraph TokenGraph.

#[local] Open Scope nat_scope.

(** ** Counting in mixed radix *)

Definition product (lens : list nat) : nat := foldr Nat.mul 1 lens.

Fixpoint digits (lens : list nat) (i : nat) : list nat :=
  match lens with
  | [] => []
  | len :: lens => (i / product lens) mod len :: digits lens i
  end.

Lemma product_pos lens : Forall (fun len => 0 < len) lens -> 0 < product lens.
Proof. induction 1 as [|len lens Hl _ IH]; cbn; [lia|]. fold (product lens). lia. Qed.

Lemma digits_mod lens i k : Forall (fun len => 0 < len) lens ->
  digits lens (i + k * product lens) = digits lens i.
Proof.
  revert k. induction lens as [|len lens IH]; intros k Hpos; [done|]. apply Forall_cons in Hpos as [Hl Hpos].
  pose proof (product_pos lens Hpos) as HP. cbn [digits].
  change (product (len :: lens)) with (len * product lens).
  replace (i + k * (len * product lens)) with (i + k * len * product lens) by lia.
  rewrite IH by done. f_equal. rewrite Nat.div_add by lia. by rewrite Nat.Div0.mod_add.
Qed.

Lemma digits_zero lens : Forall (fun len => 0 < len) lens -> digits lens 0 = replicate (length lens) 0.
Proof.
  induction 1 as [|len lens Hl Hpos IH]; [done|]. cbn. rewrite IH. f_equal.
  rewrite Nat.Div0.div_0_l. by apply Nat.Div0.mod_0_l.
Qed.

Lemma succ_mod_zero n k : 0 < n -> S k mod n = 0 -> k mod n = n - 1 /\ S k / n = S (k / n).
Proof.
  intros Hn Hz. pose proof (Nat.div_mod_eq (S k) n) as H1. rewrite Hz in H1.
  assert (0 < S k / n) as Hq by (destruct (S k / n); lia).
  assert (k = n * (S k / n - 1) + (n - 1)) as Hk by nia. split.
  - symmetry. apply (Nat.mod_unique k n (S k / n - 1)); lia.
  - assert (k / n = S k / n - 1) as -> by (symmetry; apply (Nat.div_unique k n _ (n - 1)); lia). lia.
Qed.

Lemma succ_mod_nonzero n k : 0 < n -> S k mod n <> 0 -> S k / n = k / n /\ S k mod n = S (k mod n).
Proof.
  intros Hn Hnz. pose proof (Nat.div_mod_eq k n) as H1. pose proof (Nat.mod_upper_bound k n ltac:(lia)) as H2.
  assert (S (k mod n) < n) as Hlt.
  { destruct (decide (S (k mod n) = n)) as [He|]; [|lia]. exfalso. apply Hnz.
    symmetry. apply (Nat.mod_unique (S k) n (S (k / n)) 0); lia. }
  split; [symmetry; apply (Nat.div_unique (S k) n (k / n) (S (k mod n))); lia|].
  symmetry. apply (Nat.mod_unique (S k) n (k / n)); lia.
Qed.

(** The odometer adds one; it carries out when the count wraps. *)
Lemma advance_digits lens i : Forall (fun len => 0 < len) lens ->
  advance (digits lens i) lens = (digits lens (S i), bool_decide (S i mod product lens = 0)).
Proof.
  induction lens as [|len lens IH]; intros Hpos; [done|]. apply Forall_cons in Hpos as [Hl Hpos].
  pose proof (product_pos lens Hpos) as HP. cbn [digits advance]. rewrite IH by done.
  change (product (len :: lens)) with (len * product lens). set (P := product lens) in *.
  assert (S i mod (len * P) = S i mod P + P * ((S i / P) mod len)) as Hmod.
  { rewrite (Nat.mul_comm len P). apply Nat.Div0.mod_mul_r. }
  destruct (bool_decide (S i mod P = 0)) eqn:Hc.
  - apply bool_decide_eq_true in Hc. destruct (succ_mod_zero P i HP Hc) as [_ Hdiv]. rewrite Hdiv in *.
    destruct (Nat.ltb_spec (S ((i / P) mod len)) len) as [Hlt|Hge].
    + assert (S (i / P) mod len = S ((i / P) mod len)) as Hs.
      { pose proof (Nat.div_mod_eq (i / P) len). symmetry.
        apply (Nat.mod_unique (S (i / P)) len (i / P / len)); lia. }
      rewrite Hs in *. rewrite bool_decide_eq_false_2; [done|]. rewrite Hmod, Hc. nia.
    + pose proof (Nat.mod_upper_bound (i / P) len ltac:(lia)) as Hb.
      assert (S (i / P) mod len = 0) as Hs.
      { pose proof (Nat.div_mod_eq (i / P) len). symmetry.
        apply (Nat.mod_unique (S (i / P)) len (S (i / P / len)) 0); lia. }
      rewrite Hs in *. rewrite bool_decide_eq_true_2; [done|]. rewrite Hmod, Hc. lia.
  - apply bool_decide_eq_false in Hc. destruct (succ_mod_nonzero P i HP Hc) as [Hdiv _]. rewrite Hdiv in *.
    rewrite bool_decide_eq_false_2; [done|]. rewrite Hmod. lia.
Qed.

(** ** Every combination of one element per list *)

Definition combos {A} (legs : list (list A)) : list (list A) :=
  foldr (fun leg acc => leg ≫= fun x => cons x <$> acc) [[]] legs.

Fixpoint select {A} (legs : list (list A)) (picks : list nat) : option (list A) :=
  match legs, picks with
  | leg :: legs, pick :: picks => x ← leg !! pick; xs ← select legs picks; Some (x :: xs)
  | _, _ => Some []
  end.

Lemma bind_lookup {A B} (f : A -> list B) (l : list A) (n i : nat) : 0 < n ->
  (forall x, length (f x) = n) -> (l ≫= f) !! i = l !! (i / n) ≫= fun x => f x !! (i mod n).
Proof.
  intros Hn Hf. revert i. induction l as [|x l IH]; intros i; cbn [mbind list_bind].
  { destruct i; [done|]. by destruct (S i / n). }
  destruct (Nat.lt_ge_cases i n) as [Hlt|Hge].
  - rewrite lookup_app_l by (rewrite Hf; lia). rewrite Nat.div_small, Nat.mod_small by done. done.
  - rewrite lookup_app_r by (rewrite Hf; lia). rewrite Hf, IH.
    assert (i / n = S ((i - n) / n) /\ i mod n = (i - n) mod n) as [-> ->]; [|done].
    replace i with (i - n + 1 * n) at 1 3 by lia. rewrite Nat.div_add, Nat.Div0.mod_add by lia. split; lia.
Qed.

Lemma combos_length {A} (legs : list (list A)) : length (combos legs) = product (length <$> legs).
Proof.
  induction legs as [|leg legs IH]; [done|]. cbn [fmap list_fmap].
  change (product (length leg :: (length <$> legs))) with (length leg * product (length <$> legs)).
  cbn [combos foldr]. fold (combos legs). rewrite <- IH. clear IH.
  induction leg as [|x leg IHl]; [done|]. cbn [mbind list_bind]. rewrite length_app, length_fmap.
  cbn [length]. fold (mbind (M:=list) (fun x => cons x <$> combos legs) leg). lia.
Qed.

Lemma combos_lookup {A} (legs : list (list A)) i : Forall (fun len => 0 < len) (length <$> legs) ->
  i < product (length <$> legs) -> combos legs !! i = select legs (digits (length <$> legs) i).
Proof.
  revert i. induction legs as [|leg legs IH]; intros i Hpos Hi.
  { cbn in Hi. by destruct i; [|lia]. }
  cbn [fmap list_fmap] in Hpos, Hi |- *. apply Forall_cons in Hpos as [Hl Hpos].
  change (product (length leg :: (length <$> legs))) with (length leg * product (length <$> legs)) in Hi.
  pose proof (product_pos _ Hpos) as HP. set (P := product (length <$> legs)) in *.
  cbn [combos foldr digits select]. fold (combos legs) P.
  rewrite (bind_lookup _ _ P) by (done || (intros x; by rewrite length_fmap, combos_length)).
  rewrite (Nat.mod_small (i / P)) by (apply Nat.Div0.div_lt_upper_bound; lia).
  destruct (leg !! (i / P)) as [x|]; [|done]. cbn [mbind option_bind].
  rewrite list_lookup_fmap, IH by (done || apply Nat.mod_upper_bound; lia).
  pose proof (Nat.div_mod_eq i P) as Hdm. rewrite (Nat.add_comm (P * _)), (Nat.mul_comm P) in Hdm.
  rewrite Hdm at 2. unfold P at 2. rewrite digits_mod by done. by destruct (select _ _).
Qed.

Lemma combos_empty {A} (legs : list (list A)) : Exists (fun leg => leg = []) legs -> combos legs = [].
Proof.
  induction 1 as [leg legs ->|leg legs _ IH]; [done|]. cbn [combos foldr]. fold (combos legs). rewrite IH.
  clear. induction leg as [|x leg IHl]; [done|]. exact IHl.
Qed.

(** ** Writing the paths *)

Section expand.
Context {D : Type} `{DiGraph (list (EdgeData D))} (NATIVE_WRAP_COMPONENT : ComponentId) (g : TopologyGraph).
Implicit Types (token_path : list NodeIndex) (legs : list (list (EdgeData D))) (constraints : ResolvedRouteConstraints).

Definition legs_of token_path constraints : list (list (EdgeData D)) :=
  (fun pair => leg_between NATIVE_WRAP_COMPONENT g pair.1 pair.2 constraints) <$> windows2 token_path.

Lemma windows2_cons {A} (a b : A) l : windows2 (a :: b :: l) = (a, b) :: windows2 (b :: l).
Proof. done. Qed.

Lemma write_hops a token_path legs picks edges (path : Path D) (pre : list Address) :
  length legs = length token_path -> length picks = length token_path ->
  select legs picks = Some edges -> path_tokens path = pre ++ [node_address g a] ->
  fold_left (fun (path : outcome (Path D)) (leg : list (EdgeData D) * ((NodeIndex * NodeIndex) * nat)) =>
    path ← path;
    match leg.1 !! leg.2.2 with
    | Some pool => Ret (add_hop path (node_address g leg.2.1.1) pool (node_address g leg.2.1.2))
    | None => Panic
    end) (zip legs (zip (windows2 (a :: token_path)) picks)) (Ret path)
  = Ret (Build_Path (pre ++ (node_address g <$> a :: token_path)) (path_edge_data path ++ edges)).
Proof.
  revert a legs picks edges path pre. induction token_path as [|b token_path IH];
    intros a legs picks edges path pre Hl Hp Hsel Htok.
  { destruct legs; [|done]. destruct picks; [|done]. cbn in *. injection Hsel as <-.
    rewrite app_nil_r, <- Htok. by destruct path. }
  destruct legs as [|leg legs]; [done|]. destruct picks as [|pick picks]; [done|].
  rewrite windows2_cons. cbn [zip zip_with fold_left fst snd]. cbn [select] in Hsel.
  destruct (leg !! pick) as [pool|] eqn:Hpool; [|done]. cbn in Hsel.
  destruct (select legs picks) as [edges'|] eqn:Hrest; [|done]. cbn in Hsel. injection Hsel as <-.
  cbn [mbind outcome_bind]. cbn [fst snd] in *.
  rewrite (IH b legs picks edges' _ (pre ++ [node_address g a])).
  - cbn [path_edge_data add_hop]. cbn [fmap list_fmap]. by rewrite <- !app_assoc.
  - cbn in Hl. lia.
  - cbn in Hp. lia.
  - done.
  - unfold add_hop. cbn [path_tokens]. rewrite Htok. by destruct pre.
Qed.

Lemma write_path_lemma token_path legs picks edges :
  2 <= length token_path -> length legs = length token_path - 1 -> length picks = length token_path - 1 ->
  select legs picks = Some edges ->
  write_path g token_path legs picks = Ret (Build_Path (node_address g <$> token_path) edges).
Proof.
  intros H2 Hl Hp Hsel. destruct token_path as [|a [|b token_path]]; [cbn in H2; lia|cbn in H2; lia|].
  destruct legs as [|leg legs]; [cbn in Hl; lia|]. destruct picks as [|pick picks]; [cbn in Hp; lia|].
  unfold write_path. rewrite windows2_cons. cbn [zip zip_with fold_left fst snd]. cbn [select] in Hsel.
  destruct (leg !! pick) as [pool|] eqn:Hpool; [|done]. cbn in Hsel.
  destruct (select legs picks) as [edges'|] eqn:Hrest; [|done]. cbn in Hsel. injection Hsel as <-.
  cbn [mbind outcome_bind]. cbn [fst snd] in *.
  rewrite (write_hops b token_path legs picks edges' _ [node_address g a]).
  - done.
  - cbn in Hl. lia.
  - cbn in Hp. lia.
  - done.
  - done.
Qed.

Lemma select_digits legs i : Forall (fun len => 0 < len) (length <$> legs) ->
  is_Some (select legs (digits (length <$> legs) i)).
Proof.
  induction legs as [|leg legs IH]; cbn; [by eexists|]. intros [Hl Hpos]%Forall_cons.
  destruct (lookup_lt_is_Some_2 leg ((i / product (length <$> legs)) mod length leg)) as [x ->];
    [by apply Nat.mod_upper_bound; lia|].
  cbn. destruct (IH Hpos) as [xs ->]. by eexists.
Qed.

Lemma digits_length lens i : length (digits lens i) = length lens.
Proof. induction lens; cbn; congruence. Qed.

Lemma write_paths_lemma token_path legs wanted i :
  2 <= length token_path -> length legs = length token_path - 1 ->
  Forall (fun len => 0 < len) (length <$> legs) -> i + wanted <= product (length <$> legs) ->
  write_paths g token_path legs wanted (digits (length <$> legs) i)
  = Ret (Build_Path (node_address g <$> token_path) <$> take wanted (drop i (combos legs))).
Proof.
  intros H2 Hl Hpos. revert i. induction wanted as [|wanted IH]; intros i Hi; [done|]. cbn [write_paths].
  destruct (select_digits legs i Hpos) as [edges Hsel].
  rewrite (write_path_lemma token_path legs _ edges H2 Hl) by (done || by rewrite digits_length, length_fmap).
  cbn [mbind outcome_bind]. rewrite advance_digits by done. cbn [fst]. rewrite IH by lia. cbn [mbind outcome_bind].
  rewrite <- combos_lookup in Hsel by (done || lia).
  rewrite (drop_S _ _ _ Hsel). done.
Qed.

(** The reference definition of a capped enumeration. *)
Definition capped {A} (cap : option nat) (l : list A) : list A :=
  match cap with None => l | Some n => take n l end.

Lemma usize_product_le lens : usize_product lens <= product lens.
Proof. unfold usize_product. fold (product lens). pose proof (N.Div0.mod_le (N.of_nat (product lens)) (2 ^ 64)). lia. Qed.

Lemma usize_product_small lens : (N.of_nat (product lens) < 2 ^ 64)%N -> usize_product lens = product lens.
Proof. intros Hlt. unfold usize_product. fold (product lens). rewrite N.mod_small by done. lia. Qed.

(** The enumeration, cut off at the product as the machine computes it. *)
Lemma expand_path_lemma token_path max_paths constraints :
  expand_path NATIVE_WRAP_COMPONENT g token_path max_paths constraints
  = Ret (if decide (length token_path < 2) then []
         else Build_Path (node_address g <$> token_path) <$> capped max_paths
                (take (usize_product (length <$> legs_of token_path constraints)) (combos (legs_of token_path constraints)))).
Proof.
  unfold expand_path. fold (legs_of token_path constraints). set (legs := legs_of token_path constraints).
  assert (length legs = length token_path - 1) as Hl.
  { unfold legs, legs_of, windows2. rewrite length_fmap, length_zip_with. destruct token_path as [|a l]; [done|]. cbn [tail length]. lia. }
  case_decide as H2.
  { by rewrite (bool_decide_eq_true_2 (length legs = 0)) by lia. }
  rewrite (bool_decide_eq_false_2 (length legs = 0)) by lia. cbn [orb].
  destruct (existsb (fun leg => bool_decide (length leg = 0)) legs) eqn:He.
  - rewrite combos_empty; [by destruct max_paths as [[|n]|], (usize_product _)|].
    apply existsb_exists in He as (leg & Hin%list_elem_of_In & Hz%bool_decide_eq_true).
    apply Exists_exists. exists leg. split; [done|]. by apply nil_length_inv.
  - assert (Forall (fun len => 0 < len) (length <$> legs)) as Hpos.
    { apply Forall_fmap, Forall_forall. intros leg Hin. cbn. destruct leg as [|x leg]; [exfalso|cbn; lia].
      enough (existsb (fun leg => bool_decide (length leg = 0)) legs = true) by congruence.
      apply existsb_exists. exists []. split; [by apply list_elem_of_In|done]. }
    replace (replicate (length legs) 0) with (digits (length <$> legs) 0)
      by (rewrite digits_zero, length_fmap; done).
    pose proof (usize_product_le (length <$> legs)) as Hle. set (n := usize_product (length <$> legs)) in *. clearbody n.
    rewrite write_paths_lemma by (done || lia || destruct max_paths; lia). rewrite drop_0. do 2 f_equal.
    destruct max_paths as [cap|]; cbn [capped]; [|done]. by rewrite take_take.
Qed.

Lemma expand_path_exact token_path max_paths constraints :
  (N.of_nat (product (length <$> legs_of token_path constraints)) < 2 ^ 64)%N ->
  expand_path NATIVE_WRAP_COMPONENT g token_path max_paths constraints
  = Ret (if decide (length token_path < 2) then []
         else Build_Path (node_address g <$> token_path)
                <$> capped max_paths (combos (legs_of token_path constraints))).
Proof.
  intros Hlt. rewrite expand_path_lemma, usize_product_small, <- combos_length by done. by rewrite (take_ge (combos _)).
Qed.
End expand.

(** ** What a combination holds *)

Lemma combos_elem {A} (legs : list (list A)) (xs : list A) :
  xs ∈ combos legs <-> Forall2 (fun x leg => x ∈ leg) xs legs.
Proof.
  revert xs. induction legs as [|leg legs IH]; intros xs.
  { cbn. rewrite list_elem_of_singleton. split; [by intros ->|by intros ->%Forall2_nil_inv_r]. }
  cbn [combos foldr]. fold (combos legs). rewrite list_elem_of_bind. split.
  - intros (x & (ys & -> & Hys%IH)%list_elem_of_fmap & Hx). by constructor.
  - intros (x & ys & Hx & Hys & ->)%Forall2_cons_inv_r. exists x. split; [|done].
    apply list_elem_of_fmap. exists ys. split; [done|]. by apply IH.
Qed.

Lemma capped_elem {A} (cap : option nat) (l : list A) x : x ∈ capped cap l -> x ∈ l.
Proof. destruct cap as [n|]; [|done]. apply subseteq_take. Qed.

Section legs.
Context {D : Type} `{DiGraph (list (EdgeData D))} (NATIVE_WRAP_COMPONENT : ComponentId) (g : TopologyGraph).
Implicit Types (constraints : ResolvedRouteConstraints) (pool : EdgeData D) (a b : NodeIndex).

(** A leg's pool is one of the pair's, and the request does not exclude it. *)
Lemma leg_between_elem a b constraints pool : pool ∈ leg_between NATIVE_WRAP_COMPONENT g a b constraints ->
  pool ∈ pair_pools g a b /\ excludes_pool constraints (ed_component_id pool) = false.
Proof.
  assert (pool ∈ pools_between NATIVE_WRAP_COMPONENT g a b -> pool ∈ pair_pools g a b) as Hsub.
  { unfold pools_between. destruct (is_wrap_pair g a b); [|done]. destruct (position _ _) as [i|]; [|done].
    intros Hin. apply (subseteq_drop i), (subseteq_take 1). exact Hin. }
  unfold leg_between. destruct (ResolvedRouteConstraints_is_empty constraints) eqn:He; cbn [orb].
  - intros Hin. split; [by apply Hsub|]. unfold ResolvedRouteConstraints_is_empty in He. unfold excludes_pool.
    apply andb_true_iff in He as [[Hp _]%andb_true_iff Hu]. apply bool_decide_eq_true in Hp, Hu.
    unfold is_unsynced_pool. by rewrite Hp, Hu.
  - destruct (existsb _ _) eqn:Hex; cbn [negb].
    + intros [Hin Hn%negb_true_iff]%elem_of_filterb. split; [by apply Hsub|done].
    + intros Hin. split; [by apply Hsub|]. apply not_true_iff_false. intros Ht.
      enough (existsb (fun pool => excludes_pool constraints (ed_component_id pool))
        (pools_between NATIVE_WRAP_COMPONENT g a b) = true) by congruence.
      apply existsb_exists. exists pool. split; [by apply list_elem_of_In|done].
Qed.
End legs.
