(* ===== verification/TokenGraphManager.v ===== *)
(** * TokenGraphManager: the token graph kept in step with the market's events

    [TopologyGraphManager] of [fynd-core/src/graph/token_graph.rs]: it builds a
    [TopologyGraph] from the market and applies the market's events to it. The directed
    pairs of every component are remembered, so that a component whose directions change
    loses the pairs of the dropped ones only. *)

From stdpp Require Import prelude gmap sets strings list sorting.
From Stdlib Require Import NArith ZArith Lia.
From S2P Require Import Prelude F64 Types Tracker DerivedStore SpotPriceComputation Manager.
From S2P Require Import MarketData StableGraph TokenGraph.

#[local] Open Scope nat_scope.

(** [sort_by_key] on the id. *)
Definition entry_le {A} (x y : string * A) : Prop := String.le x.1 y.1.
#[export] Instance entry_le_dec {A} : RelDecision (@entry_le A).
Proof. intros x y. unfold entry_le. apply _. Defined.

Definition sorted_entries {A} (components : gmap string A) : list (string * A) :=
  merge_sort entry_le (map_to_list components).

Section manager.
Context {D : Type} `{DiGraph (list (EdgeData D))} (NATIVE_WRAP_COMPONENT : ComponentId).

Record TopologyGraphManager := {
  tm_graph : TopologyGraph;
  tm_component_pairs : gmap ComponentId (gmap SwapDirection (NodeIndex * NodeIndex));
}.
Implicit Types (m : TopologyGraphManager) (g : TopologyGraph) (component_id : ComponentId).

Definition TopologyGraphManager_new : TopologyGraphManager :=
  {| tm_graph := TopologyGraph_default; tm_component_pairs := ∅ |}.

(** One [remove_component] per remembered pair. *)
Definition drop_pairs component_id g (pairs : list (SwapDirection * (NodeIndex * NodeIndex))) : TopologyGraph :=
  fold_left (fun g entry => remove_component NATIVE_WRAP_COMPONENT g entry.2.1 entry.2.2 component_id) pairs g.

Definition insert_direction component_id (st : TopologyGraph * gmap SwapDirection (NodeIndex * NodeIndex))
    (direction : SwapDirection) : TopologyGraph * gmap SwapDirection (NodeIndex * NodeIndex) :=
  let '(g, pairs) := st in
  match pairs !! direction with
  | Some _ => (g, pairs)
  | None =>
      let '(g, from) := add_token g direction.1 in
      let '(g, to) := add_token g direction.2 in
      (add_component NATIVE_WRAP_COMPONENT g from to component_id, <[direction := (from, to)]> pairs)
  end.

Definition sync_component_pairs m component_id (swap_directions : list SwapDirection) : TopologyGraphManager :=
  let pairs := default ∅ (tm_component_pairs m !! component_id) in
  let g := drop_pairs component_id (tm_graph m)
             (map_to_list (filter (fun entry => entry.1 ∉ swap_directions) pairs)) in
  let pairs := filter (fun entry => entry.1 ∈ swap_directions) pairs in
  let '(g, pairs) := fold_left (insert_direction component_id) swap_directions (g, pairs) in
  {| tm_graph := g; tm_component_pairs := <[component_id := pairs]> (tm_component_pairs m) |}.

Definition remove_component_pairs m component_id : TopologyGraphManager * bool :=
  match tm_component_pairs m !! component_id with
  | None => (m, false)
  | Some pairs =>
      ({| tm_graph := drop_pairs component_id (tm_graph m) (map_to_list pairs);
          tm_component_pairs := delete component_id (tm_component_pairs m) |}, true)
  end.

Definition add_tokens g (addresses : list Address) : TopologyGraph :=
  fold_left (fun g token => (add_token g token).1) addresses g.

Definition add_one (st : TopologyGraphManager * list ComponentId) (entry : ComponentId * ComponentTopology)
    : TopologyGraphManager * list ComponentId :=
  let '(m, invalid) := st in
  if length (tp_tokens entry.2) <? 2 then (m, invalid ++ [entry.1])
  else
    let g := add_tokens (tm_graph m) (merge_sort String.le (tp_tokens entry.2)) in
    (sync_component_pairs {| tm_graph := g; tm_component_pairs := tm_component_pairs m |}
       entry.1 (tp_swap_directions entry.2), invalid).

Definition add_components m (components : gmap ComponentId ComponentTopology)
    : TopologyGraphManager * result GraphError unit :=
  let '(m, invalid) := fold_left add_one (sorted_entries components) (m, []) in
  (m, match invalid with [] => Ok tt | _ => Err (InvalidComponents invalid) end).

Definition remove_one (st : TopologyGraphManager * list ComponentId) component_id
    : TopologyGraphManager * list ComponentId :=
  let '(m, missing) := st in
  let '(m, tracked) := remove_component_pairs m component_id in
  (m, if tracked : bool then missing else missing ++ [component_id]).

Definition remove_components m (components : list ComponentId)
    : TopologyGraphManager * result GraphError unit :=
  let '(m, missing) := fold_left remove_one components (m, []) in
  (m, match missing with [] => Ok tt | _ => Err (ComponentsNotFound missing) end).

(** [initialize_graph] starts from nothing; the tokens of every component get their nodes
    first, in address order. *)
Definition initialize_graph (component_topology : gmap ComponentId ComponentTopology)
    : TopologyGraphManager :=
  let tokens : gset Address := list_to_set (map_to_list component_topology ≫= fun entry => tp_tokens entry.2) in
  let g := add_tokens TopologyGraph_default (merge_sort String.le (elements tokens)) in
  (add_components {| tm_graph := g; tm_component_pairs := ∅ |} component_topology).1.

Definition GraphErrors : Type := list GraphError.

Definition handle_event m (event : MarketEvent) : TopologyGraphManager * result GraphErrors unit :=
  let '(m, added) := add_components m (added_components event) in
  let '(m, removed) := remove_components m (removed_components event) in
  let errors := (match added with Err e => [e] | Ok _ => [] end)
                ++ (match removed with Err e => [e] | Ok _ => [] end) in
  (m, match errors with [] => Ok tt | _ => Err errors end).

(** ** Weights *)

Context `{TychoMarket} (from_sim_and_derived : ProtocolSim -> ComponentId -> Token -> Token -> DerivedData -> option D).

Definition pool_weight (st : MarketState) (derived : DerivedData) (token_in token_out : Token)
    component_id : option D :=
  sim ← simulation_states st !! component_id;
  from_sim_and_derived sim component_id token_in token_out derived.

Definition refresh_edge (st : MarketState) (derived : DerivedData) (acc : TopologyGraph * nat) (e : EdgeIndex)
    : TopologyGraph * nat :=
  let '(g, updated) := acc in
  match edge (tg_graph g) e with
  | None => (g, updated)
  | Some (source, target, pools) =>
      match tokens st !! node_address g source, tokens st !! node_address g target with
      | Some token_in, Some token_out =>
          let pools := (fun pool =>
            Build_EdgeData (ed_component_id pool)
              (pool_weight st derived token_in token_out (ed_component_id pool))) <$> pools in
          (set_graph g (set_edge_weight (tg_graph g) e pools),
           updated + length (omap ed_data pools))
      | _, _ => (g, updated)
      end
  end.

Definition update_edge_weights_with_derived m (st : MarketState) (derived : DerivedData)
    : TopologyGraphManager * nat :=
  let '(g, updated) :=
    fold_left (refresh_edge st derived) (edge_indices (tg_graph (tm_graph m))) (tm_graph m, 0) in
  ({| tm_graph := g; tm_component_pairs := tm_component_pairs m |}, updated).
End manager.
