(* ===== verification/TokenGraphLaws.v ===== *)
(** * TokenGraphLaws: the token graph is well formed and its pools are the components' directions

    The representation invariant of [TopologyGraph] and what each of its operations does to
    the pools of a pair; then the invariant of the manager, and the laws of
    [sync_component_pairs], [add_components] and [remove_components] against a table of
    each component's directions. *)

From stdpp Require Import prelude gmap sets strings list sorting fin_maps.
From Stdlib Require Import NArith ZArith Lia.
From S2P Require Import Prelude F64 Types Tracker DerivedStore SpotPriceComputation Manager.
From S2P Require Import MarketData StableGraph TokenGraph RouteSearchProofs TokenGraphManager.

#[local] Open Scope nat_scope.

(** ** The pools of an edge *)

Section pair_edge.
Context {D : Type}.
Implicit Types (pools : list (EdgeData D)) (id : ComponentId).

Definition ids_of pools : list ComponentId := ed_component_id <$> pools.

Lemma PairEdge_insert_ids pools id :
  ids_of (PairEdge_insert pools id) = if decide (id ∈ ids_of pools) then ids_of pools else ids_of pools ++ [id].
Proof.
  unfold PairEdge_insert. destruct (existsb _ _) eqn:He; case_decide as Hin; try done.
  - exfalso. apply Hin. apply existsb_exists in He as (p & Hp%list_elem_of_In & <-%bool_decide_eq_true).
    by apply list_elem_of_fmap_2.
  - exfalso. apply list_elem_of_fmap in Hin as (p & -> & Hp).
    enough (existsb (fun pool => bool_decide (ed_component_id pool = ed_component_id p)) pools = true) by congruence.
    apply existsb_exists. exists p. split; [by apply list_elem_of_In|by apply bool_decide_eq_true].
  - unfold ids_of. by rewrite fmap_app.
Qed.

Lemma PairEdge_insert_elem pools id id' :
  id' ∈ ids_of (PairEdge_insert pools id) <-> id' = id \/ id' ∈ ids_of pools.
Proof.
  rewrite PairEdge_insert_ids. case_decide as Hin.
  - split; [by right|]. by intros [->|].
  - rewrite elem_of_app, list_elem_of_singleton. tauto.
Qed.

Lemma PairEdge_insert_NoDup pools id : NoDup (ids_of pools) -> NoDup (ids_of (PairEdge_insert pools id)).
Proof.
  intros Hnd. rewrite PairEdge_insert_ids. case_decide as Hin; [done|]. apply NoDup_app.
  split_and!; [done| |apply NoDup_singleton]. by intros x Hx ->%list_elem_of_singleton.
Qed.

Lemma PairEdge_insert_not_nil pools id : PairEdge_insert pools id <> [].
Proof.
  intros Hnil. assert (id ∈ ids_of (PairEdge_insert pools id)) as Hin by (apply PairEdge_insert_elem; by left).
  rewrite Hnil in Hin. by apply not_elem_of_nil in Hin.
Qed.

Lemma PairEdge_remove_elem pools id id' :
  id' ∈ ids_of (PairEdge_remove pools id) <-> id' <> id /\ id' ∈ ids_of pools.
Proof.
  unfold PairEdge_remove, ids_of. rewrite !list_elem_of_fmap. split.
  - intros (p & -> & [Hp Hne%negb_true_iff%bool_decide_eq_false]%elem_of_filterb). split; [done|by exists p].
  - intros [Hne (p & -> & Hp)]. exists p. split; [done|]. apply elem_of_filterb.
    by rewrite negb_true_iff, bool_decide_eq_false.
Qed.

Lemma PairEdge_remove_NoDup pools id : NoDup (ids_of pools) -> NoDup (ids_of (PairEdge_remove pools id)).
Proof. intros Hnd. apply (sublist_NoDup _ _ Hnd), fmap_sublist, sublist_filterb. Qed.
End pair_edge.

(** ** The graph *)

Section graph.
Context {D : Type} `{DiGraph (list (EdgeData D))} (NATIVE_WRAP_COMPONENT : ComponentId).
Implicit Types (g : TopologyGraph) (a b from to : NodeIndex) (id : ComponentId) (address : Address).

(** Tokens and nodes agree, the pair index names exactly the edges, no edge is empty, an
    edge's ends are nodes, and the ends of the wrap are in order. *)
Record graph_ok g : Prop := {
  gk_tokens : forall address i, tg_tokens g !! address = Some i <-> node_weight (tg_graph g) i = Some address;
  gk_index : forall a b e, tg_pair_index g !! (a, b) = Some e <-> exists pools, edge (tg_graph g) e = Some (a, b, pools);
  gk_pools : forall a b e pools, edge (tg_graph g) e = Some (a, b, pools) -> pools <> [] /\ NoDup (ids_of pools);
  gk_ends : forall a b e pools, edge (tg_graph g) e = Some (a, b, pools) ->
    is_Some (node_weight (tg_graph g) a) /\ is_Some (node_weight (tg_graph g) b);
  gk_wrap : forall a b, tg_wrap_ends g = Some (a, b) -> a <= b;
}.

Lemma graph_ok_default : graph_ok TopologyGraph_default.
Proof.
  split; cbn.
  - intros address i. by rewrite node_weight_empty, lookup_empty.
  - intros a b e. rewrite lookup_empty. split; [done|]. intros [pools Hp]. by rewrite edge_empty in Hp.
  - intros a b e pools. by rewrite edge_empty.
  - intros a b e pools. by rewrite edge_empty.
  - done.
Qed.

Lemma pair_pools_default a b : pair_pools (D:=D) TopologyGraph_default a b = [].
Proof. unfold pair_pools. cbn. by rewrite lookup_empty. Qed.

(** What the route search asks of a graph. *)
Lemma graph_ok_search g : graph_ok g -> search_ok g.
Proof.
  intros Hok. split.
  - intros a b Hp. unfold pair_pools in Hp. destruct (tg_pair_index g !! (a, b)) as [e|] eqn:He; [|done].
    apply (gk_index g Hok) in He as [pools He]. apply neighbors_elem. by exists e, pools.
  - intros a. apply neighbors_NoDup. intros e e' b w w' He He'.
    assert (tg_pair_index g !! (a, b) = Some e) as H1 by (apply (gk_index g Hok); by exists w).
    assert (tg_pair_index g !! (a, b) = Some e') as H2 by (apply (gk_index g Hok); by exists w').
    congruence.
  - apply (gk_wrap g Hok).
Qed.

Lemma pair_pools_edge g a b e pools : graph_ok g ->
  edge (tg_graph g) e = Some (a, b, pools) -> pair_pools g a b = pools.
Proof.
  intros Hok He. unfold pair_pools. rewrite (proj2 (gk_index g Hok a b e)) by (by exists pools). by rewrite He.
Qed.

Lemma pair_pools_NoDup g a b : graph_ok g -> NoDup (ids_of (pair_pools g a b)).
Proof.
  intros Hok. unfold pair_pools. destruct (tg_pair_index g !! (a, b)) as [e|]; [|constructor].
  destruct (edge (tg_graph g) e) as [[[a' b'] pools]|] eqn:He; [|constructor]. by apply (gk_pools g Hok) in He as [_ ?].
Qed.

Lemma node_address_token g address i : graph_ok g -> tg_tokens g !! address = Some i ->
  node_address g i = address.
Proof. intros Hok Ht. unfold node_address. apply (gk_tokens g Hok) in Ht. by rewrite Ht. Qed.

Lemma tokens_inj g address address' i : graph_ok g ->
  tg_tokens g !! address = Some i -> tg_tokens g !! address' = Some i -> address = address'.
Proof. intros Hok H1 H2. apply (gk_tokens g Hok) in H1, H2. congruence. Qed.

(** *** Adding a token *)

Record token_added g address g' (i : NodeIndex) : Prop := {
  ta_ok : graph_ok g';
  ta_tokens : tg_tokens g' = <[address := i]> (tg_tokens g);
  ta_kept : forall address' j, tg_tokens g !! address' = Some j -> tg_tokens g' !! address' = Some j;
  ta_pools : forall a b, pair_pools g' a b = pair_pools g a b;
  ta_wrap : tg_wrap_ends g' = tg_wrap_ends g;
}.

Lemma add_token_spec g address : graph_ok g ->
  token_added g address (add_token g address).1 (add_token g address).2.
Proof.
  intros Hok. unfold add_token, get_token_ix. destruct (tg_tokens g !! address) as [i|] eqn:Ht.
  { split; cbn; [done| |done|done|done]. by rewrite insert_id. }
  pose proof (add_node_fresh (tg_graph g) address) as Hfresh.
  pose proof (add_node_node (tg_graph g) address) as Hnode. pose proof (add_node_edge (tg_graph g) address) as Hedge.
  destruct (add_node (tg_graph g) address) as [graph i]. cbn in *. split; cbn.
  - split; cbn.
    + intros address' j. rewrite Hnode. destruct (decide (address' = address)) as [->|Hne].
      * rewrite lookup_insert_eq. split; [intros [= ->]; by case_decide|]. case_decide; [congruence|].
        intros Hj%(gk_tokens g Hok). congruence.
      * rewrite lookup_insert_ne by done. rewrite (gk_tokens g Hok). case_decide; [|done]. subst.
        rewrite Hfresh. split; [done|congruence].
    + intros a b e. rewrite Hedge. apply (gk_index g Hok).
    + intros a b e pools. rewrite Hedge. apply (gk_pools g Hok).
    + intros a b e pools. rewrite Hedge, !Hnode. intros He. destruct (gk_ends g Hok _ _ _ _ He) as [Ha Hb].
      by repeat case_decide.
    + apply (gk_wrap g Hok).
  - done.
  - intros address' j Hj. rewrite lookup_insert_ne; [done|]. congruence.
  - intros a b. unfold pair_pools. cbn. destruct (tg_pair_index g !! (a, b)); [|done]. by rewrite Hedge.
  - done.
Qed.

(** *** Adding and removing a pool of a pair *)

Lemma add_component_spec g from to id : graph_ok g ->
  is_Some (node_weight (tg_graph g) from) -> is_Some (node_weight (tg_graph g) to) ->
  let g' := add_component NATIVE_WRAP_COMPONENT g from to id in
  graph_ok g' /\ tg_tokens g' = tg_tokens g /\
  (forall a b, pair_pools g' a b = if decide ((a, b) = (from, to)) then PairEdge_insert (pair_pools g a b) id
                                   else pair_pools g a b) /\
  tg_wrap_ends g' = if decide (id = NATIVE_WRAP_COMPONENT) then Some (ordered from to) else tg_wrap_ends g.
Proof.
  intros Hok Hfrom Hto. cbv zeta. unfold add_component.
  set (g1 := if decide (id = NATIVE_WRAP_COMPONENT) then set_wrap_ends g (Some (ordered from to)) else g).
  assert (graph_ok g1) as Hok1.
  { unfold g1. case_decide; [|done]. destruct Hok. split; try done. cbn. intros a b [= <- <-]. lia. }
  assert (tg_graph g1 = tg_graph g /\ tg_tokens g1 = tg_tokens g /\ tg_pair_index g1 = tg_pair_index g) as (Hg & Ht & Hi)
    by (unfold g1; by case_decide).
  assert (tg_wrap_ends g1 = if decide (id = NATIVE_WRAP_COMPONENT) then Some (ordered from to) else tg_wrap_ends g) as Hw
    by (unfold g1; by case_decide).
  assert (forall a b, pair_pools g1 a b = pair_pools g a b) as Hpp by (intros a b; unfold pair_pools; by rewrite Hg, Hi).
  clearbody g1. revert Hw. generalize (if decide (id = NATIVE_WRAP_COMPONENT) then Some (ordered from to) else tg_wrap_ends g).
  intros wrap_ends Hw. unfold get_edge_ix. destruct (tg_pair_index g1 !! (from, to)) as [e|] eqn:He.
  - destruct (proj1 (gk_index g1 Hok1 from to e) He) as [pools Hedge]. rewrite Hedge.
    pose proof (set_edge_weight_edge (tg_graph g1) e (PairEdge_insert pools id)) as Hset. split_and!; [|done| |done].
    + split; cbn.
      * intros address i. rewrite set_edge_weight_node. apply (gk_tokens g1 Hok1).
      * intros a b e'. rewrite (gk_index g1 Hok1), Hset. case_decide; [subst|done]. rewrite Hedge. cbn.
        split; intros [w [= -> -> _]]; by eexists.
      * intros a b e' w. rewrite Hset. case_decide; [subst|by apply (gk_pools g1 Hok1)]. rewrite Hedge. cbn.
        intros [= -> -> <-]. split; [apply PairEdge_insert_not_nil|]. apply PairEdge_insert_NoDup.
        by apply (gk_pools g1 Hok1) in Hedge as [_ ?].
      * intros a b e' w. rewrite Hset, !set_edge_weight_node. case_decide; [subst|by apply (gk_ends g1 Hok1)].
        rewrite Hedge. cbn. intros [= -> -> _]. by apply (gk_ends g1 Hok1) in Hedge.
      * apply (gk_wrap g1 Hok1).
    + intros a b. rewrite <- Hpp. unfold pair_pools. cbn. case_decide as Hab.
      * injection Hab as -> ->. rewrite He, Hset, decide_True, Hedge by done. done.
      * destruct (tg_pair_index g1 !! (a, b)) as [e'|] eqn:He'; [|done]. rewrite Hset. case_decide; [subst|done].
        destruct (proj1 (gk_index g1 Hok1 a b e) He') as [w Hw']. congruence.
  - pose proof (add_edge_fresh (tg_graph g1) from to [EdgeData_new (D:=D) id]) as Hfresh.
    pose proof (add_edge_edge (tg_graph g1) from to [EdgeData_new (D:=D) id]) as Hadd.
    pose proof (add_edge_node (tg_graph g1) from to [EdgeData_new (D:=D) id]) as Hnode.
    destruct (add_edge (tg_graph g1) from to [EdgeData_new id]) as [graph e]. cbn in Hfresh, Hadd, Hnode.
    split_and!; [|done| |done].
    + split; cbn.
      * intros address i. rewrite Hnode. apply (gk_tokens g1 Hok1).
      * intros a b e'. rewrite Hadd. destruct (decide ((a, b) = (from, to))) as [Hab|Hab].
        -- injection Hab as -> ->. rewrite lookup_insert_eq. split.
           ++ intros [= <-]. rewrite decide_True by done. by eexists.
           ++ case_decide; [by subst|]. intros [w Hw']. exfalso.
              assert (tg_pair_index g1 !! (from, to) = Some e') by (apply (gk_index g1 Hok1); by exists w). congruence.
        -- rewrite lookup_insert_ne by done. rewrite (gk_index g1 Hok1). case_decide; [subst|done].
           rewrite Hfresh. split; [by intros [? ?]|]. intros [w [= <- <- _]]. done.
      * intros a b e' w. rewrite Hadd. case_decide; [|by apply (gk_pools g1 Hok1)]. intros [= _ _ <-].
        split; [done|apply NoDup_singleton].
      * intros a b e' w. rewrite Hadd, !Hnode, Hg. case_decide; [intros [= <- <- _]; done|].
        rewrite <- Hg. by apply (gk_ends g1 Hok1).
      * apply (gk_wrap g1 Hok1).
    + intros a b. rewrite <- Hpp. unfold pair_pools. cbn. case_decide as Hab.
      * injection Hab as -> ->. rewrite lookup_insert_eq, Hadd, decide_True, He by done. done.
      * rewrite lookup_insert_ne by done. destruct (tg_pair_index g1 !! (a, b)) as [e'|] eqn:He'; [|done].
        rewrite Hadd. case_decide; [subst|done].
        destruct (proj1 (gk_index g1 Hok1 a b e) He') as [w Hw']. congruence.
Qed.

Lemma remove_component_spec g from to id : graph_ok g -> id <> NATIVE_WRAP_COMPONENT ->
  let g' := remove_component NATIVE_WRAP_COMPONENT g from to id in
  graph_ok g' /\ tg_tokens g' = tg_tokens g /\ tg_wrap_ends g' = tg_wrap_ends g /\
  (forall a b, pair_pools g' a b = if decide ((a, b) = (from, to)) then PairEdge_remove (pair_pools g a b) id
                                   else pair_pools g a b).
Proof.
  intros Hok Hne. cbv zeta. unfold remove_component. rewrite decide_False by done. unfold get_edge_ix.
  destruct (tg_pair_index g !! (from, to)) as [e|] eqn:He.
  2: { split_and!; [done..|]. intros a b. case_decide as Hab; [|done]. injection Hab as -> ->.
       unfold pair_pools. by rewrite He. }
  destruct (proj1 (gk_index g Hok from to e) He) as [pools Hedge]. rewrite Hedge.
  destruct (gk_pools g Hok _ _ _ _ Hedge) as [_ Hnd].
  pose proof (set_edge_weight_edge (tg_graph g) e (PairEdge_remove pools id)) as Hset.
  assert (forall a b e', edge (tg_graph g) e' = Some (a, b, pools) -> tg_pair_index g !! (a, b) = Some e') as Hix
    by (intros a b e' He'; apply (gk_index g Hok); by exists pools).
  destruct (bool_decide (length (PairEdge_remove pools id) = 0)) eqn:Hlen; cbn [negb].
  - apply bool_decide_eq_true, nil_length_inv in Hlen.
    pose proof (remove_edge_edge (set_edge_weight (tg_graph g) e (PairEdge_remove pools id)) e) as Hrm.
    split_and!; [|done|done|].
    + split; cbn.
      * intros address i. rewrite remove_edge_node, set_edge_weight_node. apply (gk_tokens g Hok).
      * intros a b e'. rewrite Hrm, Hset. rewrite lookup_delete_Some, (gk_index g Hok). case_decide as Hee; [subst|].
        -- split; [|by intros [? ?]]. intros [Hab [w Hw]]. congruence.
        -- split; [by intros [_ ?]|]. intros [w Hw]. split; [|by exists w]. intros [= -> ->]. apply Hee.
           assert (tg_pair_index g !! (a, b) = Some e') by (apply (gk_index g Hok); by exists w). congruence.
      * intros a b e' w. rewrite Hrm, Hset. case_decide; [done|]. apply (gk_pools g Hok).
      * intros a b e' w. rewrite Hrm, Hset, !remove_edge_node, !set_edge_weight_node. case_decide; [done|].
        apply (gk_ends g Hok).
      * apply (gk_wrap g Hok).
    + intros a b. unfold pair_pools. cbn. case_decide as Hab.
      * injection Hab as -> ->. by rewrite lookup_delete_eq, He, Hedge.
      * rewrite lookup_delete_ne by done. destruct (tg_pair_index g !! (a, b)) as [e'|] eqn:He'; [|done].
        rewrite Hrm, Hset. destruct (decide (e' = e)) as [->|]; [|done].
        destruct (proj1 (gk_index g Hok a b e) He') as [w Hw]. congruence.
  - apply bool_decide_eq_false in Hlen. split_and!; [|done|done|].
    + split; cbn.
      * intros address i. rewrite set_edge_weight_node. apply (gk_tokens g Hok).
      * intros a b e'. rewrite (gk_index g Hok), Hset. case_decide; [subst|done]. rewrite Hedge. cbn.
        split; intros [w [= -> -> _]]; by eexists.
      * intros a b e' w. rewrite Hset. case_decide; [subst|by apply (gk_pools g Hok)]. rewrite Hedge. cbn.
        intros [= -> -> <-]. split; [by intros Hnil; rewrite Hnil in Hlen|]. by apply PairEdge_remove_NoDup.
      * intros a b e' w. rewrite Hset, !set_edge_weight_node. case_decide; [subst|by apply (gk_ends g Hok)].
        rewrite Hedge. cbn. intros [= -> -> _]. by apply (gk_ends g Hok) in Hedge.
      * apply (gk_wrap g Hok).
    + intros a b. unfold pair_pools. cbn. case_decide as Hab.
      * injection Hab as -> ->. by rewrite He, Hset, decide_True, Hedge by done.
      * destruct (tg_pair_index g !! (a, b)) as [e'|] eqn:He'; [|done]. rewrite Hset.
        destruct (decide (e' = e)) as [->|]; [|done].
        destruct (proj1 (gk_index g Hok a b e) He') as [w Hw]. congruence.
Qed.

Lemma remove_component_wrap g from to : remove_component NATIVE_WRAP_COMPONENT g from to NATIVE_WRAP_COMPONENT = g.
Proof. unfold remove_component. by rewrite decide_True. Qed.

(** ** The pairs of the components *)

#[local] Abbreviation Pairs := (gmap SwapDirection (NodeIndex * NodeIndex)).
Implicit Types (P : Pairs) (T : gmap ComponentId Pairs) (d : SwapDirection).

(** The table remembers the nodes of each direction, and a pair's pools are the components
    whose table has it; the native wrap stays on its pair for good. *)
Record pairs_ok g T : Prop := {
  po_graph : graph_ok g;
  po_nodes : forall id P d a b, T !! id = Some P -> P !! d = Some (a, b) ->
    tg_tokens g !! d.1 = Some a /\ tg_tokens g !! d.2 = Some b;
  po_listed : forall id P d a b, T !! id = Some P -> P !! d = Some (a, b) -> id ∈ ids_of (pair_pools g a b);
  po_pools : forall id a b, id <> NATIVE_WRAP_COMPONENT -> id ∈ ids_of (pair_pools g a b) ->
    exists P d, T !! id = Some P /\ P !! d = Some (a, b);
}.

Lemma pairs_ok_direction g T id P d d' ab : pairs_ok g T -> T !! id = Some P ->
  P !! d = Some ab -> P !! d' = Some ab -> d = d'.
Proof.
  destruct ab as [a b]. intros Hok HT H1 H2. destruct (po_nodes g T Hok _ _ _ _ _ HT H1) as [H1a H1b].
  destruct (po_nodes g T Hok _ _ _ _ _ HT H2) as [H2a H2b].
  pose proof (tokens_inj g _ _ _ (po_graph g T Hok) H1a H2a) as Ha.
  pose proof (tokens_inj g _ _ _ (po_graph g T Hok) H1b H2b) as Hb. destruct d, d'. cbn in *. congruence.
Qed.

Lemma pairs_ok_add_token g T address : pairs_ok g T -> pairs_ok (add_token g address).1 T.
Proof.
  intros Hok. destruct (add_token_spec g address (po_graph g T Hok)) as [Hg' _ Hkept Hpools _]. split; [done|..].
  - intros id P d a b HT HP. destruct (po_nodes g T Hok _ _ _ _ _ HT HP). split; by apply Hkept.
  - intros id P d a b. rewrite Hpools. apply (po_listed g T Hok).
  - intros id a b. rewrite Hpools. apply (po_pools g T Hok).
Qed.

Lemma pairs_ok_untracked g T id : pairs_ok g T -> T !! id = None -> pairs_ok g (<[id := ∅]> T).
Proof.
  intros Hok HT. split; [apply (po_graph g T Hok)|..].
  - intros id' P d a b [[<- <-]|[_ HT']]%lookup_insert_Some; [by rewrite lookup_empty|]. by apply (po_nodes g T Hok _ _ _ _ _ HT').
  - intros id' P d a b [[<- <-]|[_ HT']]%lookup_insert_Some; [by rewrite lookup_empty|]. by apply (po_listed g T Hok _ _ _ _ _ HT').
  - intros id' a b Hne Hin. destruct (po_pools g T Hok _ _ _ Hne Hin) as (P & d & HT' & HP).
    exists P, d. split; [|done]. rewrite lookup_insert_ne by congruence. done.
Qed.

(** One dropped direction. *)
Lemma pairs_ok_drop g T id P d a b : pairs_ok g (<[id := P]> T) -> P !! d = Some (a, b) ->
  let g' := remove_component NATIVE_WRAP_COMPONENT g a b id in
  pairs_ok g' (<[id := delete d P]> T) /\ tg_tokens g' = tg_tokens g /\ tg_wrap_ends g' = tg_wrap_ends g /\
  (forall a' b' p, p ∈ pair_pools g' a' b' <->
     p ∈ pair_pools g a' b' /\ (id <> NATIVE_WRAP_COMPONENT -> ed_component_id p = id -> (a', b') <> (a, b))).
Proof.
  intros Hok HP. cbv zeta. pose proof (fun d' => pairs_ok_direction g _ id P d d' (a, b) Hok ltac:(apply lookup_insert_eq) HP) as Hdir.
  assert (forall id' Q d' ab, <[id := delete d P]> T !! id' = Some Q -> Q !! d' = Some ab ->
    exists Q', <[id := P]> T !! id' = Some Q' /\ Q' !! d' = Some ab /\ (id' = id -> d' <> d)) as Hsub.
  { intros id' Q d' ab [[<- <-]|[Hne HT]]%lookup_insert_Some.
    - intros [Hd' HQ]%lookup_delete_Some. exists P. rewrite lookup_insert_eq. split_and!; [done|done|congruence].
    - intros HQ. exists Q. rewrite lookup_insert_ne by done. split_and!; [done|done|congruence]. }
  destruct (decide (id = NATIVE_WRAP_COMPONENT)) as [->|Hne].
  - rewrite remove_component_wrap. split_and!; [|done|done|intros a' b' p; split; [by intros ?; split|tauto]]. split.
    + apply (po_graph _ _ Hok).
    + intros id' Q d' a' b' HT HQ. destruct (Hsub _ _ _ _ HT HQ) as (Q' & HT' & HQ' & _).
      exact (po_nodes _ _ Hok _ _ _ _ _ HT' HQ').
    + intros id' Q d' a' b' HT HQ. destruct (Hsub _ _ _ _ HT HQ) as (Q' & HT' & HQ' & _).
      exact (po_listed _ _ Hok _ _ _ _ _ HT' HQ').
    + intros id' a' b' Hne Hin. destruct (po_pools _ _ Hok _ _ _ Hne Hin) as (Q & d' & HT & HQ).
      rewrite lookup_insert_ne in HT by done. exists Q, d'. by rewrite lookup_insert_ne.
  - destruct (remove_component_spec g a b id (po_graph _ _ Hok) Hne) as (Hg' & Ht & Hw & Hpools).
    split_and!; [|done|done|].
    2: { intros a' b' p. rewrite Hpools. case_decide as Hab.
         - unfold PairEdge_remove. rewrite elem_of_filterb, negb_true_iff, bool_decide_eq_false.
           split; intros [Hin Hx]; (split; [done|]); [tauto|]. intros Heq. by apply Hx.
         - split; [by intros ?; split|tauto]. }
    assert (forall id' a' b', id' ∈ ids_of (pair_pools (remove_component NATIVE_WRAP_COMPONENT g a b id) a' b') <->
      id' ∈ ids_of (pair_pools g a' b') /\ (id' = id -> (a', b') <> (a, b))) as Hids.
    { intros id' a' b'. rewrite Hpools. case_decide as Hab; [rewrite PairEdge_remove_elem|]; tauto. }
    split; [done|..].
    + intros id' Q d' a' b' HT HQ. rewrite Ht. destruct (Hsub _ _ _ _ HT HQ) as (Q' & HT' & HQ' & _).
      exact (po_nodes _ _ Hok _ _ _ _ _ HT' HQ').
    + intros id' Q d' a' b' HT HQ. destruct (Hsub _ _ _ _ HT HQ) as (Q' & HT' & HQ' & Hd'). apply Hids.
      split; [exact (po_listed _ _ Hok _ _ _ _ _ HT' HQ')|]. intros -> [= -> ->].
      rewrite lookup_insert_eq in HT'. injection HT' as <-. by apply (Hd' eq_refl); rewrite (Hdir d').
    + intros id' a' b' Hne' [Hin Hdiff]%Hids. destruct (po_pools _ _ Hok _ _ _ Hne' Hin) as (Q & d' & HT & HQ).
      apply lookup_insert_Some in HT as [[<- <-]|[Hid HT]].
      * exists (delete d P), d'. rewrite lookup_insert_eq, lookup_delete_ne; [done|]. intros <-. rewrite HP in HQ.
        injection HQ as -> ->. by apply Hdiff.
      * exists Q, d'. by rewrite lookup_insert_ne.
Qed.
End graph.
