(* ===== verification/TokenGraphSync.v ===== *)
(** * TokenGraphSync: the manager's operations against a table of directions

    From the laws of [TokenGraphLaws]: what [sync_component_pairs], [add_components],
    [remove_components] and [initialize_graph] do to the table of each component's
    directions, and that a pool of a direction that stays keeps its weight. *)

From stdpp Require Import prelude gmap sets strings list sorting fin_maps.
From Stdlib Require Import NArith ZArith Lia.
From S2P Require Import Prelude F64 Types Tracker DerivedStore SpotPriceComputation Manager.
From S2P Require Import MarketData StableGraph TokenGraph RouteSearchProofs TokenGraphManager TokenGraphLaws.

#[local] Open Scope nat_scope.

Section sync.
Context {D : Type} `{DiGraph (list (EdgeData D))} (NATIVE_WRAP_COMPONENT : ComponentId).
Implicit Types (g : TopologyGraph) (a b from to : NodeIndex) (id : ComponentId) (address : Address).
#[local] Abbreviation Pairs := (gmap SwapDirection (NodeIndex * NodeIndex)).
#[local] Abbreviation pairs_ok := (pairs_ok NATIVE_WRAP_COMPONENT).
Implicit Types (P : Pairs) (T : gmap ComponentId Pairs) (d : SwapDirection) (p : EdgeData D).

(** ** One component *)

(** Every pool stays, those of other components are not joined by new ones, and tokens
    keep their nodes. *)
Record grown id g g' : Prop := {
  gr_kept : forall a b p, p ∈ pair_pools g a b -> p ∈ pair_pools g' a b;
  gr_others : forall a b p, p ∈ pair_pools g' a b -> ed_component_id p <> id -> p ∈ pair_pools g a b;
  gr_tokens : tg_tokens g ⊆ tg_tokens g';
}.

#[export] Instance grown_preorder id : PreOrder (grown id).
Proof.
  split; [by split|]. intros g1 g2 g3 [K1 O1 T1] [K2 O2 T2]. split.
  - intros a b p Hp. by apply K2, K1.
  - intros a b p Hp Hne. by apply O1; [apply O2|].
  - by transitivity (tg_tokens g2).
Qed.

Lemma grown_add_token id g address : graph_ok g -> grown id g (add_token g address).1.
Proof.
  intros Hok. destruct (add_token_spec g address Hok) as [_ _ Hkept Hpools _]. split.
  - intros a b p. by rewrite Hpools.
  - intros a b p. by rewrite Hpools.
  - apply map_subseteq_spec. exact Hkept.
Qed.

Lemma add_token_node g address : graph_ok g ->
  tg_tokens (add_token g address).1 !! address = Some (add_token g address).2.
Proof. intros Hok. rewrite (ta_tokens _ _ _ _ (add_token_spec g address Hok)). apply lookup_insert_eq. Qed.

Lemma insert_direction_spec g T id P d : pairs_ok g (<[id := P]> T) ->
  let st := insert_direction NATIVE_WRAP_COMPONENT id (g, P) d in
  pairs_ok st.1 (<[id := st.2]> T) /\ dom st.2 = {[ d ]} ∪ dom P /\ P ⊆ st.2 /\ grown id g st.1.
Proof.
  intros Hok. cbv zeta. unfold insert_direction. destruct (P !! d) as [ab|] eqn:HP; cbn [fst snd].
  { split_and!; [done| |done|done]. assert (d ∈ dom P) by (apply elem_of_dom; by eexists). set_solver. }
  pose proof (po_graph _ _ _ Hok) as Hg.
  pose proof (pairs_ok_add_token _ _ _ d.1 Hok) as Hok1. pose proof (po_graph _ _ _ Hok1) as Hg1.
  pose proof (grown_add_token id g d.1 Hg) as Hgr1. pose proof (add_token_node g d.1 Hg) as Hn1.
  destruct (add_token g d.1) as [g1 from]. cbn [fst snd] in *.
  pose proof (pairs_ok_add_token _ _ _ d.2 Hok1) as Hok2. pose proof (po_graph _ _ _ Hok2) as Hg2.
  pose proof (grown_add_token id g1 d.2 Hg1) as Hgr2. pose proof (add_token_node g1 d.2 Hg1) as Hn2.
  destruct (add_token g1 d.2) as [g2 to]. cbn [fst snd] in *.
  assert (tg_tokens g2 !! d.1 = Some from) as Hn1' by (eapply lookup_weaken, (gr_tokens _ _ _ Hgr2); done).
  destruct (add_component_spec NATIVE_WRAP_COMPONENT g2 from to id Hg2) as (Hg3 & Ht3 & Hp3 & _).
  { exists d.1. by apply (gk_tokens _ Hg2). }
  { exists d.2. by apply (gk_tokens _ Hg2). }
  set (g3 := add_component NATIVE_WRAP_COMPONENT g2 from to id) in *.
  assert (forall id' a b, id' ∈ ids_of (pair_pools g3 a b) <->
    (id' = id /\ (a, b) = (from, to)) \/ id' ∈ ids_of (pair_pools g2 a b)) as Hids.
  { intros id' a b. rewrite Hp3. case_decide as Hab; [rewrite PairEdge_insert_elem|]; tauto. }
  assert (forall id' Q d' ab, <[id := <[d := (from, to)]> P]> T !! id' = Some Q -> Q !! d' = Some ab ->
    (id' = id /\ d' = d /\ ab = (from, to)) \/ exists Q', <[id := P]> T !! id' = Some Q' /\ Q' !! d' = Some ab) as Hsub.
  { intros id' Q d' ab [[<- <-]|[Hne HT]]%lookup_insert_Some.
    - intros [[<- <-]|[Hd HQ]]%lookup_insert_Some; [by left|]. right. exists P. by rewrite lookup_insert_eq.
    - intros HQ. right. exists Q. by rewrite lookup_insert_ne. }
  split_and!.
  - split; [done|..].
    + intros id' Q d' a b HT HQ. rewrite Ht3. destruct (Hsub _ _ _ _ HT HQ) as [(_ & -> & [= -> ->])|(Q' & HT' & HQ')].
      * by split.
      * exact (po_nodes _ _ _ Hok2 _ _ _ _ _ HT' HQ').
    + intros id' Q d' a b HT HQ. apply Hids. destruct (Hsub _ _ _ _ HT HQ) as [(-> & _ & ->)|(Q' & HT' & HQ')].
      * by left.
      * right. exact (po_listed _ _ _ Hok2 _ _ _ _ _ HT' HQ').
    + intros id' a b Hne [[-> [= -> ->]]|Hin]%Hids.
      * exists (<[d := (from, to)]> P), d. by rewrite !lookup_insert_eq.
      * destruct (po_pools _ _ _ Hok2 _ _ _ Hne Hin) as (Q & d' & HT & HQ).
        apply lookup_insert_Some in HT as [[<- <-]|[Hid HT]].
        -- exists (<[d := (from, to)]> P), d'. rewrite lookup_insert_eq, lookup_insert_ne; [done|]. congruence.
        -- exists Q, d'. by rewrite lookup_insert_ne.
  - apply dom_insert_L.
  - by apply insert_subseteq.
  - transitivity g1; [done|]. transitivity g2; [done|]. split; [| |by rewrite Ht3].
    + intros a b p Hp. rewrite Hp3. case_decide; [|done]. unfold PairEdge_insert. destruct (existsb _ _); [done|].
      apply elem_of_app. by left.
    + intros a b p. rewrite Hp3. case_decide; [|done]. unfold PairEdge_insert. destruct (existsb _ _); [done|].
      intros [Hp|Hp%list_elem_of_singleton]%elem_of_app Hne; [done|]. by subst.
Qed.

Lemma insert_directions_spec T id (ds : list SwapDirection) g P : pairs_ok g (<[id := P]> T) ->
  let st := fold_left (insert_direction NATIVE_WRAP_COMPONENT id) ds (g, P) in
  pairs_ok st.1 (<[id := st.2]> T) /\ dom st.2 = list_to_set ds ∪ dom P /\ P ⊆ st.2 /\ grown id g st.1.
Proof.
  cbv zeta. revert g P. induction ds as [|d ds IH]; intros g P Hok; cbn [fold_left].
  { cbn. split_and!; [done|set_solver|done|done]. }
  destruct (insert_direction_spec g T id P d Hok) as (Hok' & Hdom & HP & Hgr).
  destruct (insert_direction NATIVE_WRAP_COMPONENT id (g, P) d) as [g1 P1]. cbn [fst snd] in *.
  destruct (IH g1 P1 Hok') as (Hok2 & Hdom2 & HP2 & Hgr2). split_and!; [done| |by transitivity P1|by transitivity g1].
  rewrite Hdom2, Hdom. cbn. set_solver.
Qed.

(** Dropping the directions of [l]. *)
Lemma drop_pairs_spec T id (l : list (SwapDirection * (NodeIndex * NodeIndex))) g P Q :
  pairs_ok g (<[id := P]> T) -> NoDup l.*1 -> (forall d ab, (d, ab) ∈ l -> P !! d = Some ab) ->
  (forall d, Q !! d = if decide (d ∈ l.*1) then None else P !! d) ->
  let g' := drop_pairs NATIVE_WRAP_COMPONENT id g l in
  pairs_ok g' (<[id := Q]> T) /\ tg_tokens g' = tg_tokens g /\
  (forall a b p, p ∈ pair_pools g' a b <->
     p ∈ pair_pools g a b /\ (id <> NATIVE_WRAP_COMPONENT -> ed_component_id p = id -> (a, b) ∉ l.*2)).
Proof.
  cbv zeta. unfold drop_pairs. revert g P. induction l as [|[d [from to]] l IH]; intros g P Hok Hnd Hl HQ; cbn [fold_left].
  { assert (Q = P) as -> by (apply map_eq; intros d; by rewrite HQ, decide_False by apply not_elem_of_nil).
    split_and!; [done|done|]. intros a b p. cbn. split; [intros Hp; split; [done|intros _ _; apply not_elem_of_nil]|tauto]. }
  apply NoDup_cons in Hnd as [Hd Hnd]. cbn [fst snd].
  destruct (pairs_ok_drop _ g T id P d from to Hok) as (Hok1 & Ht1 & _ & Hp1).
  { apply Hl. left. }
  destruct (IH _ (delete d P) Hok1 Hnd) as (Hok2 & Ht2 & Hp2).
  { intros d' ab Hin. rewrite lookup_delete_ne; [apply Hl; by right|]. intros <-. apply Hd.
    by apply (list_elem_of_fmap_2 fst _ (d, ab)). }
  { intros d'. rewrite HQ. cbn. destruct (decide (d' = d)) as [->|Hne].
    - rewrite lookup_delete_eq, decide_True by left. by case_decide.
    - rewrite lookup_delete_ne by done. destruct (decide (d' ∈ l.*1)) as [Hin|Hin].
      + rewrite decide_True; [done|by right].
      + rewrite decide_False; [done|]. by intros [?|?]%elem_of_cons. }
  split_and!; [done|congruence|]. intros a b p. rewrite Hp2, Hp1. cbn. rewrite not_elem_of_cons. tauto.
Qed.

(** ** The manager *)

Implicit Types (m : TopologyGraphManager) (directions : list SwapDirection).

Definition manager_ok m : Prop := pairs_ok (tm_graph m) (tm_component_pairs m).

(** The directions of the components the manager tracks. *)
Definition directions_of m : gmap ComponentId (gset SwapDirection) := dom <$> tm_component_pairs m.

Lemma manager_ok_new : manager_ok TopologyGraphManager_new.
Proof.
  split; cbn.
  - apply graph_ok_default.
  - intros id P d a b. by rewrite lookup_empty.
  - intros id P d a b. by rewrite lookup_empty.
  - intros id a b _. rewrite pair_pools_default. by intros []%not_elem_of_nil.
Qed.

Lemma manager_ok_tracked m id : manager_ok m ->
  pairs_ok (tm_graph m) (<[id := default ∅ (tm_component_pairs m !! id)]> (tm_component_pairs m)).
Proof.
  intros Hok. destruct (tm_component_pairs m !! id) as [P|] eqn:HT; cbn [default].
  - by rewrite insert_id.
  - by apply pairs_ok_untracked.
Qed.

(** The component has the given directions; a pool of a direction that stays is the same,
    weight included, and so is every pool of another component. *)
Lemma sync_component_pairs_spec m id directions : manager_ok m ->
  let m' := sync_component_pairs NATIVE_WRAP_COMPONENT m id directions in
  manager_ok m' /\ directions_of m' = <[id := list_to_set directions]> (directions_of m) /\
  tg_tokens (tm_graph m) ⊆ tg_tokens (tm_graph m') /\
  (forall a b p, ed_component_id p <> id -> p ∈ pair_pools (tm_graph m') a b <-> p ∈ pair_pools (tm_graph m) a b) /\
  (forall P d a b p, tm_component_pairs m !! id = Some P -> P !! d = Some (a, b) -> d ∈ directions ->
     p ∈ pair_pools (tm_graph m) a b -> p ∈ pair_pools (tm_graph m') a b).
Proof.
  intros Hok. cbv zeta. unfold sync_component_pairs. pose proof (manager_ok_tracked m id Hok) as Htr.
  assert (forall P, tm_component_pairs m !! id = Some P -> default ∅ (tm_component_pairs m !! id) = P) as HPid
    by (by intros P ->).
  set (P := default ∅ (tm_component_pairs m !! id)) in *. clearbody P.
  set (l := map_to_list (filter (fun entry => entry.1 ∉ directions) P)).
  set (Q := filter (fun entry => entry.1 ∈ directions) P).
  assert (forall d ab, (d, ab) ∈ l <-> P !! d = Some ab /\ (d ∉ directions)) as Hl
    by (intros d ab; unfold l; rewrite elem_of_map_to_list; apply map_lookup_filter_Some).
  destruct (drop_pairs_spec (tm_component_pairs m) id l (tm_graph m) P Q Htr) as (Hok1 & Ht1 & Hp1).
  { apply NoDup_fst_map_to_list. }
  { by intros d ab [? _]%Hl. }
  { intros d. case_decide as Hin.
    - apply list_elem_of_fmap in Hin as ([d' ab] & -> & [_ Hd]%Hl). apply map_lookup_filter_None. right. by intros ? _ ?.
    - destruct (P !! d) as [ab|] eqn:HP; [|apply map_lookup_filter_None; by left].
      apply map_lookup_filter_Some. split; [done|]. cbn. destruct (decide (d ∈ directions)) as [|Hd]; [done|].
      exfalso. apply Hin. apply (list_elem_of_fmap_2 fst _ (d, ab)). by apply Hl. }
  destruct (insert_directions_spec (tm_component_pairs m) id directions _ Q Hok1) as (Hok2 & Hdom & _ & [Hk Ho Ht]).
  destruct (fold_left _ directions _) as [g' P']. cbn [fst snd] in *. cbn.
  split_and!; [done| |by rewrite <- Ht1| |].
  - unfold directions_of. cbn. rewrite fmap_insert. f_equal. rewrite Hdom.
    assert (dom Q ⊆ list_to_set directions); [|set_solver].
    intros d [ab [_ Hd]%map_lookup_filter_Some]%elem_of_dom. by apply elem_of_list_to_set.
  - intros a b p Hne. split.
    + intros Hp. by apply (Ho _ _ _ Hp), Hp1 in Hne as [? _].
    + intros Hp. apply Hk, Hp1. split; [done|]. by intros _ ?.
  - intros P0 d a b p HT HP Hd Hp. apply HPid in HT. subst P0. apply Hk, Hp1. split; [done|].
    intros _ _ ([d' ab] & Hab & [HP' Hd']%Hl)%list_elem_of_fmap. cbn in Hab. subst ab. apply Hd'.
    rewrite <- (pairs_ok_direction _ _ _ id P d d' (a, b) Htr); [done|apply lookup_insert_eq|done|done].
Qed.

Lemma remove_component_pairs_spec m id : manager_ok m ->
  let '(m', tracked) := remove_component_pairs NATIVE_WRAP_COMPONENT m id in
  manager_ok m' /\ directions_of m' = delete id (directions_of m) /\
  tracked = bool_decide (is_Some (directions_of m !! id)) /\ tg_tokens (tm_graph m') = tg_tokens (tm_graph m) /\
  (forall a b p, p ∈ pair_pools (tm_graph m') a b -> p ∈ pair_pools (tm_graph m) a b) /\
  (forall a b p, ed_component_id p <> id -> p ∈ pair_pools (tm_graph m) a b -> p ∈ pair_pools (tm_graph m') a b).
Proof.
  intros Hok. unfold remove_component_pairs, directions_of. rewrite lookup_fmap.
  destruct (tm_component_pairs m !! id) as [P|] eqn:HT; cbn.
  2: { split_and!; [done| |done|done|done|done]. symmetry. apply delete_id. by rewrite lookup_fmap, HT. }
  destruct (drop_pairs_spec (tm_component_pairs m) id (map_to_list P) (tm_graph m) P ∅) as (Hok1 & Ht1 & Hp1).
  { by rewrite insert_id. }
  { apply NoDup_fst_map_to_list. }
  { intros d ab. by rewrite elem_of_map_to_list. }
  { intros d. rewrite lookup_empty. case_decide as Hin; [done|]. destruct (P !! d) as [ab|] eqn:HP; [|done].
    exfalso. apply Hin, (list_elem_of_fmap_2 fst _ (d, ab)). by apply elem_of_map_to_list. }
  split_and!; [| |done|done| |].
  - destruct Hok1 as [Hg Hn Hl Hp]. split; cbn; [done|..].
    + intros id' Q d a b [Hne HQ]%lookup_delete_Some. apply (Hn id' Q d a b). by rewrite lookup_insert_ne.
    + intros id' Q d a b [Hne HQ]%lookup_delete_Some. apply (Hl id' Q d a b). by rewrite lookup_insert_ne.
    + intros id' a b Hne Hin. destruct (Hp _ _ _ Hne Hin) as (Q & d & HQ & Hd). exists Q, d. split; [|done].
      apply lookup_insert_Some in HQ as [[<- <-]|[Hid HQ]]; [by rewrite lookup_empty in Hd|].
      by rewrite lookup_delete_ne.
  - apply fmap_delete.
  - by intros a b p [? _]%Hp1.
  - intros a b p Hne Hp. apply Hp1. split; [done|]. by intros _ ?.
Qed.

(** ** Batches *)

Lemma add_tokens_spec m (addresses : list Address) : manager_ok m ->
  let g := add_tokens (tm_graph m) addresses in
  pairs_ok g (tm_component_pairs m) /\ tg_tokens (tm_graph m) ⊆ tg_tokens g /\
  (forall address, address ∈ addresses -> is_Some (tg_tokens g !! address)) /\
  forall a b, pair_pools g a b = pair_pools (tm_graph m) a b.
Proof.
  unfold manager_ok, add_tokens. generalize (tm_graph m). cbv zeta.
  induction addresses as [|address addresses IH]; intros g Hok; cbn [fold_left].
  { split_and!; [done|done|by intros x []%not_elem_of_nil|done]. }
  pose proof (po_graph _ _ _ Hok) as Hg. pose proof (add_token_spec g address Hg) as [_ Ht _ Hp _].
  pose proof (gr_tokens _ _ _ (grown_add_token address g address Hg)) as Hsub.
  destruct (IH _ (pairs_ok_add_token _ _ _ address Hok)) as (Hok' & Hsub' & Hin & Hpools).
  split_and!; [done|by etransitivity| |].
  - intros x [->|Hx]%elem_of_cons; [|by apply Hin]. exists (add_token g address).2.
    eapply lookup_weaken; [|exact Hsub']. rewrite Ht. apply lookup_insert_eq.
  - intros a b. by rewrite Hpools, Hp.
Qed.

Definition too_few (topology : ComponentTopology) : bool := length (tp_tokens topology) <? 2.
#[global] Arguments too_few _ : simpl never.

Definition direction_set (topology : ComponentTopology) : gset SwapDirection :=
  list_to_set (tp_swap_directions topology).

(** What a batch keeps of the pools: those of the components it does not name, and those
    of a direction the component keeps. *)
Record kept m m' (entries : gmap ComponentId ComponentTopology) : Prop := {
  kp_others : forall a b p, entries !! ed_component_id p = None ->
    p ∈ pair_pools (tm_graph m') a b <-> p ∈ pair_pools (tm_graph m) a b;
  kp_own : forall topology P d a b p, entries !! ed_component_id p = Some topology ->
    tm_component_pairs m !! ed_component_id p = Some P -> P !! d = Some (a, b) ->
    (too_few topology = false -> d ∈ tp_swap_directions topology) ->
    p ∈ pair_pools (tm_graph m) a b -> p ∈ pair_pools (tm_graph m') a b;
}.

Lemma add_one_spec m invalid id topology : manager_ok m ->
  let '(m', invalid') := add_one NATIVE_WRAP_COMPONENT (m, invalid) (id, topology) in
  manager_ok m' /\
  directions_of m' = (if too_few topology then directions_of m
                      else <[id := direction_set topology]> (directions_of m)) /\
  invalid' = (if too_few topology then invalid ++ [id] else invalid) /\
  tg_tokens (tm_graph m) ⊆ tg_tokens (tm_graph m') /\ kept m m' {[id := topology]}.
Proof.
  intros Hok. unfold add_one, direction_set. cbn [fst snd]. fold (too_few topology).
  destruct (too_few topology) eqn:Hfew.
  { split_and!; [done|done|done|done|]. split; [done|]. intros t P d a b p. done. }
  destruct (add_tokens_spec m (merge_sort String.le (tp_tokens topology)) Hok) as (Hok1 & Ht1 & _ & Hp1).
  set (m1 := {| tm_graph := add_tokens (tm_graph m) (merge_sort String.le (tp_tokens topology));
                tm_component_pairs := tm_component_pairs m |}).
  destruct (sync_component_pairs_spec m1 id (tp_swap_directions topology) Hok1) as (Hok2 & Hd & Ht2 & Ho & Hk).
  split_and!; [done|done|done|by etransitivity|]. split.
  - intros a b p Hne%lookup_singleton_None. rewrite Ho by done. cbn [m1 tm_graph]. by rewrite Hp1.
  - intros t P d a b p [Hid <-]%lookup_singleton_Some HT HP Hkeep Hp. apply (Hk P d a b p); [by rewrite Hid|done| |].
    + by apply Hkeep.
    + cbn [m1 tm_graph]. by rewrite Hp1.
Qed.

Lemma kept_trans m1 m2 m3 (e1 e2 : gmap ComponentId ComponentTopology) :
  (forall id, is_Some (e1 !! id) -> e2 !! id = None) ->
  (forall id, e1 !! id = None -> tm_component_pairs m2 !! id = tm_component_pairs m1 !! id) ->
  kept m1 m2 e1 -> kept m2 m3 e2 -> kept m1 m3 (e1 ∪ e2).
Proof.
  intros Hdisj Hsame [O1 K1] [O2 K2]. split.
  - intros a b p [H1 H2]%lookup_union_None. by rewrite O2, O1.
  - intros t P d a b p Ht HT HP Hd Hp. destruct (e1 !! ed_component_id p) as [t1|] eqn:He1.
    + erewrite lookup_union_Some_l in Ht by done. injection Ht as ->.
      apply O2; [apply Hdisj; by eexists|]. by apply (K1 t P d).
    + rewrite lookup_union_r in Ht by done. apply (K2 t P d); [done|by rewrite Hsame|done|done|].
      by apply O1.
Qed.

Lemma add_one_others m invalid entry id : id <> entry.1 ->
  tm_component_pairs (add_one NATIVE_WRAP_COMPONENT (m, invalid) entry).1 !! id = tm_component_pairs m !! id.
Proof.
  intros Hne. unfold add_one. destruct (_ <? 2); [done|]. unfold sync_component_pairs. cbn [tm_component_pairs tm_graph].
  destruct (fold_left _ _ _). cbn. by rewrite lookup_insert_ne.
Qed.

Definition added_directions (components : gmap ComponentId ComponentTopology)
    (directions : gmap ComponentId (gset SwapDirection)) (id : ComponentId) : option (gset SwapDirection) :=
  match components !! id with
  | Some topology => if too_few topology then directions !! id else Some (direction_set topology)
  | None => directions !! id
  end.

Lemma add_fold_spec (l : list (ComponentId * ComponentTopology)) m invalid : manager_ok m -> NoDup l.*1 ->
  let '(m', invalid') := fold_left (add_one NATIVE_WRAP_COMPONENT) l (m, invalid) in
  manager_ok m' /\
  (forall id, directions_of m' !! id = added_directions (list_to_map l) (directions_of m) id) /\
  invalid' = invalid ++ (List.filter (fun entry => too_few entry.2) l).*1 /\
  tg_tokens (tm_graph m) ⊆ tg_tokens (tm_graph m') /\ kept m m' (list_to_map l).
Proof.
  revert m invalid. induction l as [|[id topology] l IH]; intros m invalid Hok Hnd; cbn [fold_left].
  { split_and!; [done| |by rewrite app_nil_r|done|].
    - intros id. unfold added_directions. by rewrite list_to_map_nil, lookup_empty.
    - split; [done|]. intros t P d a b p. by rewrite list_to_map_nil, lookup_empty. }
  apply NoDup_cons in Hnd as [Hid Hnd]. cbn [fst] in Hid.
  pose proof (add_one_spec m invalid id topology Hok) as H1.
  pose proof (add_one_others m invalid (id, topology)) as Hsame.
  destruct (add_one NATIVE_WRAP_COMPONENT (m, invalid) (id, topology)) as [m1 invalid1].
  destruct H1 as (Hok1 & Hd1 & Hi1 & Ht1 & Hk1). specialize (IH m1 invalid1 Hok1 Hnd).
  destruct (fold_left (add_one NATIVE_WRAP_COMPONENT) l (m1, invalid1)) as [m2 invalid2].
  destruct IH as (Hok2 & Hd2 & Hi2 & Ht2 & Hk2).
  assert (list_to_map (M:=gmap ComponentId ComponentTopology) l !! id = None) as Hnone
    by by apply not_elem_of_list_to_map_1.
  split_and!; [done| | |by etransitivity|].
  - intros id'. rewrite Hd2. unfold added_directions. rewrite list_to_map_cons. destruct (decide (id' = id)) as [->|Hne].
    + rewrite Hnone, lookup_insert_eq, Hd1. destruct (too_few topology); [done|by rewrite lookup_insert_eq].
    + rewrite (lookup_insert_ne _ id id') by done.
      assert (directions_of m1 !! id' = directions_of m !! id') as ->; [|done].
      rewrite Hd1. destruct (too_few topology); [done|]. apply lookup_insert_ne. congruence.
  - rewrite Hi2, Hi1. cbn [List.filter snd]. destruct (too_few topology); [|done]. cbn. by rewrite <- app_assoc.
  - rewrite list_to_map_cons, insert_union_singleton_l. apply (kept_trans m m1 m2); [| |done|done].
    + intros id' [t [<- <-]%lookup_singleton_Some]. exact Hnone.
    + intros id' Hne%lookup_singleton_None. exact (Hsame id' ltac:(cbn; congruence)).
Qed.

Lemma sorted_entries_perm {A} (components : gmap string A) :
  sorted_entries components ≡ₚ map_to_list components.
Proof. apply merge_sort_Permutation. Qed.

Lemma sorted_entries_NoDup {A} (components : gmap string A) : NoDup (sorted_entries components).*1.
Proof. rewrite sorted_entries_perm. apply NoDup_fst_map_to_list. Qed.

Lemma sorted_entries_map (components : gmap ComponentId ComponentTopology) :
  list_to_map (sorted_entries components) = components.
Proof.
  rewrite <- (list_to_map_to_list components) at 2. apply list_to_map_proper; [|apply sorted_entries_perm].
  apply sorted_entries_NoDup.
Qed.

(** The ids of the components with fewer than two tokens, in id order. *)
Definition invalid_components (components : gmap ComponentId ComponentTopology) : list ComponentId :=
  (List.filter (fun entry => too_few entry.2) (sorted_entries components)).*1.

Lemma add_components_spec m (components : gmap ComponentId ComponentTopology) : manager_ok m ->
  let '(m', r) := add_components NATIVE_WRAP_COMPONENT m components in
  manager_ok m' /\
  (forall id, directions_of m' !! id = added_directions components (directions_of m) id) /\
  r = (match invalid_components components with [] => Ok tt | ids => Err (InvalidComponents ids) end) /\
  tg_tokens (tm_graph m) ⊆ tg_tokens (tm_graph m') /\ kept m m' components.
Proof.
  intros Hok. unfold add_components.
  pose proof (add_fold_spec (sorted_entries components) m [] Hok (sorted_entries_NoDup components)) as Hf.
  destruct (fold_left _ _ _) as [m' invalid]. destruct Hf as (Hok' & Hd & -> & Ht & Hk).
  rewrite sorted_entries_map in Hd, Hk. split_and!; [done|done| |done|done].
  fold (invalid_components components). cbn [app]. by destruct (invalid_components components).
Qed.

(** The components of [ids] that are not tracked when their turn comes. *)
Fixpoint absent (tracked : gset ComponentId) (ids : list ComponentId) : list ComponentId :=
  match ids with
  | [] => []
  | id :: ids => (if decide (id ∈ tracked) then [] else [id]) ++ absent (tracked ∖ {[ id ]}) ids
  end.

Lemma remove_fold_spec (ids : list ComponentId) m missing : manager_ok m ->
  let '(m', missing') := fold_left (remove_one NATIVE_WRAP_COMPONENT) ids (m, missing) in
  manager_ok m' /\
  (forall id, directions_of m' !! id = if decide (id ∈ ids) then None else directions_of m !! id) /\
  missing' = missing ++ absent (dom (directions_of m)) ids /\
  tg_tokens (tm_graph m') = tg_tokens (tm_graph m) /\
  (forall a b p, p ∈ pair_pools (tm_graph m') a b -> p ∈ pair_pools (tm_graph m) a b) /\
  (forall a b p, (ed_component_id p ∉ ids) -> p ∈ pair_pools (tm_graph m) a b -> p ∈ pair_pools (tm_graph m') a b).
Proof.
  revert m missing. induction ids as [|id ids IH]; intros m missing Hok; cbn [fold_left].
  { split_and!; try done. cbn. by rewrite app_nil_r. }
  unfold remove_one at 2. pose proof (remove_component_pairs_spec m id Hok) as H1.
  destruct (remove_component_pairs NATIVE_WRAP_COMPONENT m id) as [m1 tracked].
  destruct H1 as (Hok1 & Hd1 & -> & Ht1 & Hsub1 & Hk1).
  specialize (IH m1 (if bool_decide (is_Some (directions_of m !! id)) then missing else missing ++ [id]) Hok1).
  destruct (fold_left _ _ _) as [m2 missing2]. destruct IH as (Hok2 & Hd2 & -> & Ht2 & Hsub2 & Hk2).
  split_and!; [done| | |congruence| |].
  - intros id'. rewrite Hd2, Hd1. destruct (decide (id' = id)) as [->|Hne].
    + rewrite lookup_delete_eq, (decide_True (P := id ∈ id :: ids)) by left. by case_decide.
    + rewrite lookup_delete_ne by done. destruct (decide (id' ∈ ids)) as [Hin|Hin].
      * rewrite decide_True; [done|by right].
      * rewrite decide_False; [done|]. by intros [?|?]%elem_of_cons.
  - cbn [absent]. rewrite Hd1, dom_delete_L. destruct (decide (id ∈ dom (directions_of m))) as [Hin|Hin].
    + rewrite bool_decide_eq_true_2; [done|]. by apply elem_of_dom.
    + rewrite bool_decide_eq_false_2; [by rewrite <- app_assoc|]. by rewrite <- elem_of_dom.
  - intros a b p Hp. by apply Hsub1, Hsub2.
  - intros a b p [Hne Hnot]%not_elem_of_cons Hp. by apply Hk2, Hk1.
Qed.
End sync.
