(* ===== verification/TokenGraphProperties.v ===== *)
(** * TokenGraphProperties: the token graph follows the market

    The manager refines the table of each component's directions: a pair of tokens lists
    the components that trade it, each once, whatever the sequence of events; a rebuilt
    graph lists what the grown one lists; and the graph of a worker that applies the feed's
    events lists the directions of the market as the feed left it. *)

From stdpp Require Import prelude gmap sets strings list sorting fin_maps.
From Stdlib Require Import NArith ZArith Lia.
From S2P Require Import Prelude F64 Types Samples Tracker DerivedStore SpotPriceComputation Manager.
From S2P Require Import MarketData MarketDataProofs MarketInvariant SpotPricePipeline TychoFeed TychoFeedProofs.
From S2P Require Import StableGraph TokenGraph RouteSearchProofs TokenGraphManager TokenGraphLaws TokenGraphSync.

#[local] Open Scope nat_scope.

Section manager.
Context {D : Type} `{DiGraph (list (EdgeData D))} (NATIVE_WRAP_COMPONENT : ComponentId).
Implicit Types (m : TopologyGraphManager) (d : SwapDirection) (p : EdgeData D) (id : ComponentId) (event : MarketEvent).
#[local] Abbreviation manager_ok := (manager_ok NATIVE_WRAP_COMPONENT).

(** The pools the graph lists for a direction. *)
Definition pools_of m d : list (EdgeData D) :=
  match tg_tokens (tm_graph m) !! d.1, tg_tokens (tm_graph m) !! d.2 with
  | Some a, Some b => pair_pools (tm_graph m) a b
  | _, _ => []
  end.

(** A component offers a direction, by a table of directions. *)
Definition offers (directions : gmap ComponentId (gset SwapDirection)) id d : Prop :=
  exists ds, directions !! id = Some ds /\ d ∈ ds.

(** The table after an event. *)
Definition after_directions event (directions : gmap ComponentId (gset SwapDirection)) id
    : option (gset SwapDirection) :=
  if decide (id ∈ removed_components event) then None
  else added_directions (added_components event) directions id.

(** The graph lists a table: the components of a direction, each once. *)
Definition lists m (directions : gmap ComponentId (gset SwapDirection)) : Prop :=
  forall d, NoDup (ids_of (pools_of m d)) /\
    forall id, id <> NATIVE_WRAP_COMPONENT -> id ∈ ids_of (pools_of m d) <-> offers directions id d.

Lemma pools_of_nodes m d p : manager_ok m -> p ∈ pools_of m d ->
  exists a b, tg_tokens (tm_graph m) !! d.1 = Some a /\ tg_tokens (tm_graph m) !! d.2 = Some b /\
    p ∈ pair_pools (tm_graph m) a b.
Proof.
  intros Hok. unfold pools_of. destruct (_ !! d.1) as [a|]; [|by intros []%not_elem_of_nil].
  destruct (_ !! d.2) as [b|]; [|by intros []%not_elem_of_nil]. by exists a, b.
Qed.

(** A listed pool is of a tracked component, whose table names the pair. *)
Lemma pools_of_pair m d p a b : manager_ok m -> ed_component_id p <> NATIVE_WRAP_COMPONENT ->
  tg_tokens (tm_graph m) !! d.1 = Some a -> tg_tokens (tm_graph m) !! d.2 = Some b ->
  p ∈ pair_pools (tm_graph m) a b ->
  exists P, tm_component_pairs m !! ed_component_id p = Some P /\ P !! d = Some (a, b).
Proof.
  intros Hok Hne Ha Hb Hp.
  destruct (po_pools _ _ _ Hok (ed_component_id p) a b Hne) as (P & d' & HT & HP).
  { by apply list_elem_of_fmap_2. }
  destruct (po_nodes _ _ _ Hok _ _ _ _ _ HT HP) as [Ha' Hb'].
  pose proof (tokens_inj _ _ _ _ (po_graph _ _ _ Hok) Ha Ha') as H1.
  pose proof (tokens_inj _ _ _ _ (po_graph _ _ _ Hok) Hb Hb') as H2.
  assert (d' = d) as -> by (destruct d, d'; cbn in *; congruence). by exists P.
Qed.

Lemma manager_ok_lists m : manager_ok m -> lists m (directions_of m).
Proof.
  intros Hok d. split.
  - unfold pools_of. do 2 (destruct (_ !! _); [|constructor]). apply pair_pools_NoDup, (po_graph _ _ _ Hok).
  - intros id Hne. unfold offers, directions_of. rewrite lookup_fmap. split.
    + intros (p & -> & Hp)%list_elem_of_fmap. destruct (pools_of_nodes m d p Hok Hp) as (a & b & Ha & Hb & Hin).
      destruct (pools_of_pair m d p a b Hok Hne Ha Hb Hin) as (P & -> & HP). exists (dom P). split; [done|].
      apply elem_of_dom. by eexists.
    + intros (ds & HT & Hd). destruct (tm_component_pairs m !! id) as [P|] eqn:HP; [|done]. injection HT as <-.
      apply elem_of_dom in Hd as [[a b] Hd]. destruct (po_nodes _ _ _ Hok _ _ _ _ _ HP Hd) as [Ha Hb].
      unfold pools_of. rewrite Ha, Hb. exact (po_listed _ _ _ Hok _ _ _ _ _ HP Hd).
Qed.

(** The errors of a batch, the invalid additions first. *)
Definition batch_errors event (directions : gmap ComponentId (gset SwapDirection)) : list GraphError :=
  (match invalid_components (added_components event) with [] => [] | ids => [InvalidComponents ids] end)
  ++ (match absent (dom directions ∪ dom (filter (fun kv => too_few kv.2 = false) (added_components event)))
              (removed_components event) with
      | [] => [] | ids => [ComponentsNotFound ids] end).

(** What a batch of additions tracks. *)
Lemma added_directions_dom event (before after : gmap ComponentId (gset SwapDirection)) :
  (forall id, after !! id = added_directions (added_components event) before id) ->
  dom after = dom before ∪ dom (filter (fun kv => too_few kv.2 = false) (added_components event)).
Proof.
  intros Hd. apply set_eq. intros id. rewrite elem_of_union, !elem_of_dom, Hd. unfold added_directions.
  rewrite map_lookup_filter. destruct (added_components event !! id) as [t|]; cbn.
  - destruct (too_few t); cbn; rewrite ?option_guard_False, ?option_guard_True by done; cbn.
    + split; [by left|]. by intros [?|[? ?]].
    + split; [right; by eexists|by eexists].
  - split; [by left|]. by intros [?|[? ?]].
Qed.

Lemma handle_event_spec m event : manager_ok m ->
  let '(m', r) := handle_event NATIVE_WRAP_COMPONENT m event in
  manager_ok m' /\ (forall id, directions_of m' !! id = after_directions event (directions_of m) id) /\
  tg_tokens (tm_graph m) ⊆ tg_tokens (tm_graph m') /\
  (forall d p, ed_component_id p <> NATIVE_WRAP_COMPONENT -> p ∈ pools_of m d ->
     offers (directions_of m') (ed_component_id p) d -> p ∈ pools_of m' d) /\
  r = match batch_errors event (directions_of m) with [] => Ok tt | errors => Err errors end.
Proof.
  intros Hok. unfold handle_event.
  pose proof (add_components_spec NATIVE_WRAP_COMPONENT m (added_components event) Hok) as Ha.
  destruct (add_components NATIVE_WRAP_COMPONENT m (added_components event)) as [m1 r1].
  destruct Ha as (Hok1 & Hd1 & -> & Ht1 & Hk1). unfold remove_components.
  pose proof (remove_fold_spec NATIVE_WRAP_COMPONENT (removed_components event) m1 [] Hok1) as Hr.
  destruct (fold_left _ _ _) as [m2 missing]. destruct Hr as (Hok2 & Hd2 & -> & Ht2 & _ & Hk2).
  assert (forall id, directions_of m2 !! id = after_directions event (directions_of m) id) as Hd
    by (intros id; unfold after_directions; by rewrite Hd2, Hd1).
  split_and!; [done|done|by rewrite Ht2| |].
  - intros d p Hne Hp (ds & Hds & Hin). destruct (pools_of_nodes m d p Hok Hp) as (a & b & Ha & Hb & Hpool).
    destruct (pools_of_pair m d p a b Hok Hne Ha Hb Hpool) as (P & HT & HP).
    unfold pools_of. rewrite Ht2. rewrite (lookup_weaken _ _ _ _ Ha Ht1), (lookup_weaken _ _ _ _ Hb Ht1).
    rewrite Hd in Hds. unfold after_directions in Hds. case_decide as Hrm; [done|]. apply Hk2; [done|].
    unfold added_directions in Hds. destruct (added_components event !! ed_component_id p) as [t|] eqn:Hadd.
    + apply (kp_own _ _ _ Hk1 t P d); [done..| |done]. intros Hfew. rewrite Hfew in Hds. injection Hds as <-.
      by apply elem_of_list_to_set in Hin.
    + by apply (kp_others _ _ _ Hk1).
  - unfold batch_errors.
    rewrite <- (added_directions_dom event (directions_of m) (directions_of m1) Hd1).
    cbn [app]. destruct (invalid_components _), (absent _ _); done.
Qed.

(** ** Any sequence of events *)

Definition handle_events m (events : list MarketEvent) : TopologyGraphManager :=
  fold_left (fun m event => (handle_event NATIVE_WRAP_COMPONENT m event).1) events m.

Lemma handle_events_ok m (events : list MarketEvent) : manager_ok m -> manager_ok (handle_events m events).
Proof.
  unfold handle_events. revert m. induction events as [|event events IH]; intros m Hok; [done|]. cbn [fold_left]. apply IH.
  pose proof (handle_event_spec m event Hok) as Hs. destruct (handle_event _ _ _). by destruct Hs.
Qed.

(** The directions of a listing of components. *)
Definition directions_in (listing : gmap ComponentId ComponentTopology) : gmap ComponentId (gset SwapDirection) :=
  direction_set <$> filter (fun kv => too_few kv.2 = false) listing.

Definition sizes_ok (listing : gmap ComponentId ComponentTopology) : Prop :=
  map_Forall (fun _ topology => too_few topology = false) listing.

Lemma directions_in_lookup listing id : sizes_ok listing ->
  directions_in listing !! id = direction_set <$> listing !! id.
Proof.
  intros Hs. unfold directions_in. rewrite lookup_fmap, map_lookup_filter.
  destruct (listing !! id) as [t|] eqn:Ht; [|done]. cbn. rewrite option_guard_True; [done|]. exact (Hs id t Ht).
Qed.

Lemma after_event_sizes listing event : sizes_ok listing -> sizes_ok (added_components event) ->
  sizes_ok (after_event listing event).
Proof.
  intros Hl Ha id' t. unfold after_event. rewrite after_update_lookup. case_decide; [done|]. rewrite lookup_union_Some_raw.
  intros [Ht|[_ Ht]]; [exact (Ha id' t Ht)|exact (Hl id' t Ht)].
Qed.

Lemma after_directions_listing listing event id : sizes_ok listing -> sizes_ok (added_components event) ->
  after_directions event (directions_in listing) id = directions_in (after_event listing event) !! id.
Proof.
  intros Hl Ha. rewrite (directions_in_lookup (after_event listing event)) by by apply after_event_sizes.
  unfold after_directions, after_event, added_directions.
  rewrite after_update_lookup, lookup_union. case_decide; [done|]. rewrite directions_in_lookup by done.
  destruct (added_components event !! id) as [t|] eqn:Ht.
  - rewrite (Ha id t Ht). by destruct (listing !! id).
  - by destruct (listing !! id).
Qed.

Lemma handle_events_listing m listing (events : list MarketEvent) : manager_ok m -> sizes_ok listing ->
  Forall (fun event => sizes_ok (added_components event)) events ->
  directions_of m = directions_in listing ->
  directions_of (handle_events m events) = directions_in (fold_left after_event events listing).
Proof.
  unfold handle_events. revert m listing. induction events as [|event events IH]; intros m listing Hok Hl Hev Hd; [done|].
  apply Forall_cons in Hev as [Ha Hev]. cbn [fold_left].
  pose proof (handle_event_spec m event Hok) as Hs. destruct (handle_event _ _ _) as [m' r]. cbn [fst].
  destruct Hs as (Hok' & Hd' & _). apply IH; [done|by apply after_event_sizes|done|].
  apply map_eq. intros id. rewrite Hd', Hd. by apply after_directions_listing.
Qed.

(** A fresh graph over a listing. *)
Lemma initialize_graph_spec (listing : gmap ComponentId ComponentTopology) :
  let m := initialize_graph NATIVE_WRAP_COMPONENT listing in
  manager_ok m /\ directions_of m = directions_in listing /\
  (forall id topology token, listing !! id = Some topology -> token ∈ tp_tokens topology ->
     is_Some (tg_tokens (tm_graph m) !! token)).
Proof.
  cbv zeta. unfold initialize_graph.
  set (ts := merge_sort String.le _).
  destruct (add_tokens_spec NATIVE_WRAP_COMPONENT TopologyGraphManager_new ts (manager_ok_new _)) as (Hok & _ & Hin & _).
  cbn [tm_graph TopologyGraphManager_new] in *.
  set (m0 := {| tm_graph := add_tokens TopologyGraph_default ts; tm_component_pairs := ∅ |}).
  pose proof (add_components_spec NATIVE_WRAP_COMPONENT m0 listing Hok) as Ha.
  destruct (add_components NATIVE_WRAP_COMPONENT m0 listing) as [m r]. destruct Ha as (Hok' & Hd & _ & Ht & _). cbn [fst].
  split_and!; [done| |].
  - apply map_eq. intros id. rewrite Hd. unfold added_directions, directions_of, directions_in, m0. cbn [tm_component_pairs].
    rewrite fmap_empty, lookup_empty, lookup_fmap, map_lookup_filter. destruct (listing !! id) as [t|]; [|done].
    cbn. destruct (too_few t); [by rewrite option_guard_False|by rewrite option_guard_True].
  - intros id topology token Hl Htok. destruct (Hin token) as [i Hi].
    + unfold ts. rewrite merge_sort_Permutation. apply elem_of_elements, elem_of_list_to_set, list_elem_of_bind.
      exists (id, topology). split; [done|by apply elem_of_map_to_list].
    + exists i. exact (lookup_weaken _ _ _ _ Hi Ht).
Qed.
End manager.

(** ** The feed and the graph together *)

Section pipeline.
Context {D : Type} `{DiGraph (list (EdgeData D))} (NATIVE_WRAP_COMPONENT : ComponentId).
Context `{TychoStream} (max_sync_lag : N).
Implicit Types (md : MarketData) (m : TopologyGraphManager) (msg : FeedMessage).

Definition market_directions md : gmap ComponentId (gset SwapDirection) :=
  (fun stored => list_to_set (sc_swap_directions stored)) <$> components (md_data md).

(** The feed handles a message, then a worker's graph the event it emitted. *)
Definition feed_and_graph (acc : MarketData * TopologyGraphManager) msg : MarketData * TopologyGraphManager :=
  let '(md, event) := handle_message max_sync_lag acc.1 msg in
  (md, match event with
       | Some event => (handle_event NATIVE_WRAP_COMPONENT acc.2 event).1
       | None => acc.2
       end).

(** Every component the market lists after a message has two tokens. *)
Fixpoint messages_sized md (msgs : list FeedMessage) : Prop :=
  match msgs with
  | [] => True
  | msg :: msgs =>
      let md := (handle_message max_sync_lag md msg).1 in
      sizes_ok (component_topology (md_data md)) /\ messages_sized md msgs
  end.

Lemma market_directions_lookup md id :
  market_directions md !! id = list_to_set <$> market_swap_directions_of (md_data md) id.
Proof. unfold market_directions, market_swap_directions_of. rewrite lookup_fmap. by destruct (_ !! id). Qed.

Lemma feed_and_graph_lemma md m msg : manager_ok NATIVE_WRAP_COMPONENT m -> directions_of m = market_directions md ->
  sizes_ok (component_topology (md_data (handle_message max_sync_lag md msg).1)) ->
  let '(md', m') := feed_and_graph (md, m) msg in
  md' = (handle_message max_sync_lag md msg).1 /\
  manager_ok NATIVE_WRAP_COMPONENT m' /\ directions_of m' = market_directions md'.
Proof.
  intros Hok Hd Hs. unfold feed_and_graph. cbn [fst snd].
  pose proof (feed_message_directions max_sync_lag md msg) as Hm. cbv zeta in Hm.
  destruct (handle_message max_sync_lag md msg) as [md' [event|]]; cbn [fst snd event_changes] in *.
  - pose proof (handle_event_spec NATIVE_WRAP_COMPONENT m event Hok) as He.
    destruct (handle_event NATIVE_WRAP_COMPONENT m event) as [m' r]. destruct He as (Hok' & Hd' & _). cbn [fst].
    split_and!; [done|done|]. apply map_eq. intros id. rewrite Hd', market_directions_lookup.
    destruct (Hm id) as (-> & Ht & Hgone). unfold after_directions, added_directions. rewrite Hd, market_directions_lookup.
    cbn [changed_by added removed] in *. destruct (added_components event !! id) as [t|] eqn:Hadd.
    + specialize (Ht t eq_refl). rewrite decide_False; [|].
      * assert (too_few t = false) as -> by (apply (Hs id); unfold component_topology; by rewrite lookup_fmap).
        done.
      * intros Hin. specialize (Hgone Hin). unfold topology_of in Ht. by rewrite Hgone in Ht.
    + by case_decide.
  - split_and!; [done|done|]. apply map_eq. intros id. rewrite Hd, !market_directions_lookup.
    destruct (Hm id) as (-> & _ & _). cbn. by rewrite lookup_empty, decide_False by apply not_elem_of_nil.
Qed.
End pipeline.

(** ** Refreshing the weights

    [update_edge_weights_with_derived] of [fynd-core/src/graph/token_graph.rs] recomputes the weight of
    every pool whose two tokens are registered, and changes nothing else. *)


Section weights.
Context {D : Type} `{DiGraph (list (EdgeData D))} (NATIVE_WRAP_COMPONENT : ComponentId).
Context `{TychoMarket} (from_sim_and_derived : ProtocolSim -> ComponentId -> Token -> Token -> DerivedData -> option D).
Context (st : MarketState) (derived : DerivedData).
Implicit Types (g : TopologyGraph) (m : TopologyGraphManager) (e : EdgeIndex) (es : list EdgeIndex) (pools : list (EdgeData D)).

#[local] Abbreviation weight := (pool_weight from_sim_and_derived st derived).

(** The pools of a pair of tokens with their weights of this block. *)
Definition refreshed (token_in token_out : Address) pools : list (EdgeData D) :=
  match tokens st !! token_in, tokens st !! token_out with
  | Some t_in, Some t_out =>
      (fun pool => Build_EdgeData (ed_component_id pool) (weight t_in t_out (ed_component_id pool))) <$> pools
  | _, _ => pools
  end.

(** The weights an edge gets. *)
Definition new_weights g e : list D :=
  match edge (tg_graph g) e with
  | None => []
  | Some (source, target, pools) =>
      match tokens st !! node_address g source, tokens st !! node_address g target with
      | Some _, Some _ => omap ed_data (refreshed (node_address g source) (node_address g target) pools)
      | _, _ => []
      end
  end.

Lemma refreshed_ids a b pools : ids_of (refreshed a b pools) = ids_of pools.
Proof.
  unfold refreshed. repeat case_match; try done. unfold ids_of. rewrite <- list_fmap_compose. by apply list_fmap_ext.
Qed.

Lemma refresh_edge_spec g n e :
  let '(g', n') := refresh_edge from_sim_and_derived st derived (g, n) e in
  n' = n + length (new_weights g e) /\
  tg_tokens g' = tg_tokens g /\ tg_pair_index g' = tg_pair_index g /\ tg_wrap_ends g' = tg_wrap_ends g /\
  (forall i, node_weight (tg_graph g') i = node_weight (tg_graph g) i) /\
  (forall e', edge (tg_graph g') e' = if decide (e' = e)
     then (fun x => (x.1.1, x.1.2, refreshed (node_address g x.1.1) (node_address g x.1.2) x.2)) <$> edge (tg_graph g) e'
     else edge (tg_graph g) e').
Proof.
  unfold refresh_edge, new_weights, refreshed. destruct (edge (tg_graph g) e) as [[[source target] pools]|] eqn:He.
  2: { split_and!; [cbn; lia|done..|]. intros e'. case_decide; [subst|done]. by rewrite He. }
  destruct (tokens st !! node_address g source) as [t_in|] eqn:Hin;
    [destruct (tokens st !! node_address g target) as [t_out|] eqn:Hout|].
  - split_and!; [done|done|done|done|..].
    + intros i. apply set_edge_weight_node.
    + intros e'. cbn [set_graph tg_graph]. rewrite set_edge_weight_edge. case_decide; [subst|done]. rewrite He. cbn.
      by rewrite Hin, Hout.
  - split_and!; [cbn; lia|done..|]. intros e'. case_decide; [subst|done]. rewrite He. cbn. by rewrite Hin, Hout.
  - split_and!; [cbn; lia|done..|]. intros e'. case_decide; [subst|done]. rewrite He. cbn. by rewrite Hin.
Qed.

Lemma refresh_edges_spec es g n : NoDup es ->
  let '(g', n') := fold_left (refresh_edge from_sim_and_derived st derived) es (g, n) in
  n' = n + length (es ≫= new_weights g) /\
  tg_tokens g' = tg_tokens g /\ tg_pair_index g' = tg_pair_index g /\ tg_wrap_ends g' = tg_wrap_ends g /\
  (forall i, node_weight (tg_graph g') i = node_weight (tg_graph g) i) /\
  (forall e', edge (tg_graph g') e' = if decide (e' ∈ es)
     then (fun x => (x.1.1, x.1.2, refreshed (node_address g x.1.1) (node_address g x.1.2) x.2)) <$> edge (tg_graph g) e'
     else edge (tg_graph g) e').
Proof.
  revert g n. induction es as [|e es IH]; intros g n Hnd; cbn [fold_left].
  { split_and!; [cbn; lia|done..|]. intros e'. rewrite decide_False; [done|apply not_elem_of_nil]. }
  apply NoDup_cons in Hnd as [He Hnd]. pose proof (refresh_edge_spec g n e) as Hone.
  destruct (refresh_edge from_sim_and_derived st derived (g, n) e) as [g1 n1].
  destruct Hone as (Hn1 & Ht1 & Hi1 & Hw1 & Hv1 & He1). specialize (IH g1 n1 Hnd).
  destruct (fold_left _ es (g1, n1)) as [g2 n2]. destruct IH as (Hn2 & Ht2 & Hi2 & Hw2 & Hv2 & He2).
  assert (forall i, node_address g1 i = node_address g i) as Haddr by (intros i; unfold node_address; by rewrite Hv1).
  split_and!; [|congruence|congruence|congruence|intros i; congruence|].
  - rewrite Hn2, Hn1. cbn [mbind list_bind]. rewrite length_app.
    assert (es ≫= new_weights g1 = es ≫= new_weights g) as ->; [|unfold mbind; lia].
    clear -He He1 Haddr. induction es as [|e' es IH]; [done|]. apply not_elem_of_cons in He as [Hne He].
    cbn [mbind list_bind]. fold (mbind (M:=list) (new_weights g1) es). fold (mbind (M:=list) (new_weights g) es).
    rewrite (IH He). f_equal. unfold new_weights. rewrite He1, decide_False by done.
    destruct (edge _ _) as [[[a b] w]|]; [|done]. by rewrite !Haddr.
  - intros e'. rewrite He2, He1. destruct (decide (e' = e)) as [->|Hne].
    + rewrite decide_False, decide_True by (done || left). done.
    + destruct (decide (e' ∈ es)) as [Hin|Hout].
      * rewrite decide_True by (by right). destruct (edge _ _) as [[[a b] w]|]; [|done]. cbn. by rewrite !Haddr.
      * rewrite decide_False; [done|]. by intros [?|?]%elem_of_cons.
Qed.

Lemma update_edge_weights_lemma m : manager_ok NATIVE_WRAP_COMPONENT m ->
  let '(m', updated) := update_edge_weights_with_derived from_sim_and_derived m st derived in
  manager_ok NATIVE_WRAP_COMPONENT m' /\ tm_component_pairs m' = tm_component_pairs m /\
  (forall d, pools_of m' d = refreshed d.1 d.2 (pools_of m d)) /\
  updated = length (edge_indices (tg_graph (tm_graph m)) ≫= new_weights (tm_graph m)).
Proof.
  intros Hok. unfold update_edge_weights_with_derived.
  pose proof (refresh_edges_spec (edge_indices (tg_graph (tm_graph m))) (tm_graph m) 0 (edge_indices_NoDup _)) as Hf.
  destruct (fold_left _ _ _) as [g' n]. destruct Hf as (Hn & Ht & Hi & Hw & Hv & He). destruct m as [g T]. cbn [tm_graph tm_component_pairs] in *.
  assert (forall e', edge (tg_graph g') e'
    = (fun x => (x.1.1, x.1.2, refreshed (node_address g x.1.1) (node_address g x.1.2) x.2)) <$> edge (tg_graph g) e') as He'.
  { intros e'. rewrite He. case_decide as Hin; [done|]. destruct (edge (tg_graph g) e') as [x|] eqn:Hx; [|done].
    exfalso. apply Hin, edge_indices_spec. by exists x. }
  assert (forall a b, pair_pools g' a b = refreshed (node_address g a) (node_address g b) (pair_pools g a b)) as Hp.
  { intros a b. unfold pair_pools. rewrite Hi. destruct (tg_pair_index g !! (a, b)) as [e|] eqn:Hix.
    - apply (gk_index _ (po_graph _ _ _ Hok)) in Hix as [pools Hedge]. cbn [tm_graph] in Hedge. by rewrite He', Hedge.
    - unfold refreshed. by repeat case_match. }
  pose proof (po_graph _ _ _ Hok) as Hg. cbn [tm_graph] in Hg. split_and!; [|done| |done].
  - split; cbn [tm_graph tm_component_pairs].
    + destruct Hg as [Gt Gi Gp Ge Gw]. split.
      * intros address i. by rewrite Ht, Hv.
      * intros a b e. rewrite Hi, Gi, He'. destruct (edge (tg_graph g) e) as [[[a' b'] w]|]; cbn.
        -- split; intros [w' [= -> -> _]]; by eexists.
        -- by split; intros [? ?].
      * intros a b e w. rewrite He'. destruct (edge (tg_graph g) e) as [[[a' b'] w']|] eqn:Hedge; [|done]. cbn.
        intros [= -> -> <-]. destruct (Gp _ _ _ _ Hedge) as [Hne Hnd]. split; [|by rewrite refreshed_ids].
        unfold refreshed. repeat case_match; try done. by destruct w'.
      * intros a b e w. rewrite He', !Hv. destruct (edge (tg_graph g) e) as [[[a' b'] w']|] eqn:Hedge; [|done]. cbn.
        intros [= -> -> _]. by apply (Ge _ _ _ _ Hedge).
      * intros a b. rewrite Hw. apply Gw.
    + intros id P d a b. rewrite Ht. apply (po_nodes _ _ _ Hok).
    + intros id P d a b HT HP. rewrite Hp, refreshed_ids. exact (po_listed _ _ _ Hok _ _ _ _ _ HT HP).
    + intros id a b Hne. rewrite Hp, refreshed_ids. apply (po_pools _ _ _ Hok id a b Hne).
  - intros d. unfold pools_of. cbn [tm_graph]. rewrite Ht.
    destruct (tg_tokens g !! d.1) as [a|] eqn:Ha; [|by unfold refreshed; repeat case_match].
    destruct (tg_tokens g !! d.2) as [b|] eqn:Hb; [|by unfold refreshed; repeat case_match].
    rewrite Hp. by rewrite (node_address_token g d.1 a Hg Ha), (node_address_token g d.2 b Hg Hb).
Qed.
End weights.

(** ** Concrete graphs for witnesses

    Graphs over finite maps, with a number as weight: a triangle of pools that trade both
    ways, and a chain whose second pool trades one way. *)

Module GraphSample.
#[local] Open Scope string_scope.

Definition graph : DiGraph (list (EdgeData N)) := MapGraph.digraph_map.
#[local] Existing Instance graph.

Definition WRAP : ComponentId := "wrap".

Definition pool (a b : Address) : ComponentTopology :=
  {| tp_tokens := [a; b]; tp_swap_directions := [(a, b); (b, a)] |}.

Definition one_way (a b : Address) : ComponentTopology :=
  {| tp_tokens := [a; b]; tp_swap_directions := [(a, b)] |}.

Definition triangle : gmap ComponentId ComponentTopology :=
  {[ "ab" := pool Sample.A Sample.B; "bc" := pool Sample.B Sample.C; "ac" := pool Sample.A Sample.C;
     "ab2" := pool Sample.A Sample.B ]}.

Definition chain : gmap ComponentId ComponentTopology :=
  {[ "ab" := pool Sample.A Sample.B; "bc" := one_way Sample.B Sample.C ]}.

Definition of_listing (listing : gmap ComponentId ComponentTopology) : TopologyGraphManager :=
  initialize_graph WRAP listing.

Definition node (m : TopologyGraphManager) (address : Address) : NodeIndex :=
  default 0 (get_token_ix (tm_graph m) address).

Definition search (shortest longest : nat) : RouteSearch :=
  {| rs_bounds := {| min_hops := shortest; max_hops := longest; connector_tokens := None |};
     rs_constraints := {| rrc_excluded_pools := ∅; rrc_excluded_tokens := ∅; rrc_required_tokens := ∅;
                          rrc_unsynced_pools := ∅ |} |}.

Lemma of_listing_ok (listing : gmap ComponentId ComponentTopology) : manager_ok WRAP (of_listing listing).
Proof. apply (initialize_graph_spec WRAP listing). Qed.

Lemma graph_of_listing_ok (listing : gmap ComponentId ComponentTopology) : graph_ok (tm_graph (of_listing listing)).
Proof. apply (po_graph _ _ _ (of_listing_ok listing)). Qed.
End GraphSample.
