(* ===== verification/GraphFollowsMarket.v ===== *)
(** * GraphFollowsMarket: the theorems of the token graph's manager

    The graph refines the table of directions through any events, a rebuilt graph lists
    what a grown one lists, a worker's graph follows the feed, and a refresh gives every
    pool its weight of this block. *)

From stdpp Require Import prelude gmap sets strings list.
From Stdlib Require Import NArith ZArith Lia.
From S2P Require Import Prelude F64 Types Samples Tracker DerivedStore SpotPriceComputation Manager.
From S2P Require Import MarketData MarketDataProofs MarketInvariant SpotPricePipeline TychoFeed TychoFeedProofs.
From S2P Require Import StableGraph TokenGraph RouteSearchProofs TokenGraphManager TokenGraphLaws TokenGraphSync TokenGraphProperties.

#[local] Open Scope nat_scope.

(** The token graph refines the table of each component's directions. Handling a
    market event keeps the graph well formed; afterwards the table is the one before with
    the event's additions and removals applied, a direction lists exactly the components
    that offer it, each once (the native wrap, which is never taken away, aside), a pool
    whose direction stays is still the same pool with its weight, and the errors name
    exactly the additions with fewer than two tokens and the removals of what was not
    tracked. *)
Theorem token_graph_refines_events {D : Type} `{DiGraph (list (EdgeData D))} (NATIVE_WRAP_COMPONENT : ComponentId)
    (m : TopologyGraphManager) (event : MarketEvent) :
  manager_ok NATIVE_WRAP_COMPONENT m ->
  let '(m', r) := handle_event NATIVE_WRAP_COMPONENT m event in
  manager_ok NATIVE_WRAP_COMPONENT m' /\
  (forall id, directions_of m' !! id = after_directions event (directions_of m) id) /\
  lists NATIVE_WRAP_COMPONENT m' (directions_of m') /\
  (forall d p, ed_component_id p <> NATIVE_WRAP_COMPONENT -> p ∈ pools_of m d ->
     offers (directions_of m') (ed_component_id p) d -> p ∈ pools_of m' d) /\
  r = match batch_errors event (directions_of m) with [] => Ok tt | errors => Err errors end.
Proof.
  intros Hok. pose proof (handle_event_spec NATIVE_WRAP_COMPONENT m event Hok) as Hs.
  destruct (handle_event NATIVE_WRAP_COMPONENT m event) as [m' r]. destruct Hs as (Hok' & Hd & _ & Hk & Hr).
  split_and!; [done|done|by apply manager_ok_lists|done|done].
Qed.

(** A rebuilt graph lists what the grown one lists. A graph that starts empty and
    applies any sequence of events whose additions have two tokens, and a graph
    initialized from the components that those events leave, are both well formed, track
    the same components with the same directions, and list the same components for every
    direction (the native wrap, which stays in the grown graph, aside). *)
Theorem rebuilt_graph_agrees {D : Type} `{DiGraph (list (EdgeData D))} (NATIVE_WRAP_COMPONENT : ComponentId)
    (events : list MarketEvent) :
  Forall (fun event => sizes_ok (added_components event)) events ->
  let grown := handle_events NATIVE_WRAP_COMPONENT TopologyGraphManager_new events in
  let rebuilt := initialize_graph NATIVE_WRAP_COMPONENT (fold_left after_event events ∅) in
  manager_ok NATIVE_WRAP_COMPONENT grown /\ manager_ok NATIVE_WRAP_COMPONENT rebuilt /\
  directions_of grown = directions_of rebuilt /\
  forall d id, id <> NATIVE_WRAP_COMPONENT -> id ∈ ids_of (pools_of grown d) <-> id ∈ ids_of (pools_of rebuilt d).
Proof.
  intros Hev. cbv zeta. pose proof (manager_ok_new NATIVE_WRAP_COMPONENT) as Hnew.
  pose proof (handle_events_ok NATIVE_WRAP_COMPONENT _ events Hnew) as Hg.
  destruct (initialize_graph_spec NATIVE_WRAP_COMPONENT (fold_left after_event events ∅)) as (Hr & Hdr & _).
  assert (directions_of (handle_events NATIVE_WRAP_COMPONENT TopologyGraphManager_new events)
    = directions_of (initialize_graph NATIVE_WRAP_COMPONENT (fold_left after_event events ∅))) as Heq.
  { rewrite Hdr. apply handle_events_listing; [done|by apply map_Forall_empty|done|].
    unfold directions_of, directions_in. cbn. by rewrite map_filter_empty, !fmap_empty. }
  split_and!; [done|done|done|]. intros d id Hne.
  rewrite (proj2 (manager_ok_lists _ _ Hg d) id Hne), (proj2 (manager_ok_lists _ _ Hr d) id Hne). by rewrite Heq.
Qed.

(** A worker's graph follows the market. Starting from a graph that tracks the
    market's directions, after any sequence of stream and book messages, each handled by
    the feed and its event by the graph's manager, the graph tracks the directions of the
    final market, and a pair of tokens lists exactly the components that the market says
    trade it, each once (the native wrap aside); no condition on the messages is needed but
    that the market's components have two tokens. *)
Theorem token_graph_follows_feed {D : Type} `{DiGraph (list (EdgeData D))} (NATIVE_WRAP_COMPONENT : ComponentId)
    `{TychoStream} (max_sync_lag : N) (md : MarketData) (m : TopologyGraphManager) (msgs : list FeedMessage) :
  manager_ok NATIVE_WRAP_COMPONENT m -> directions_of m = market_directions md ->
  messages_sized max_sync_lag md msgs ->
  let '(md', m') := fold_left (feed_and_graph NATIVE_WRAP_COMPONENT max_sync_lag) msgs (md, m) in
  manager_ok NATIVE_WRAP_COMPONENT m' /\ directions_of m' = market_directions md' /\
  lists NATIVE_WRAP_COMPONENT m' (market_directions md').
Proof.
  revert md m. induction msgs as [|msg msgs IH]; intros md m Hok Hd Hs; cbn [fold_left].
  { split_and!; [done|done|]. rewrite <- Hd. by apply manager_ok_lists. }
  destruct Hs as [Hs Hrest].
  pose proof (feed_and_graph_lemma NATIVE_WRAP_COMPONENT max_sync_lag md m msg Hok Hd Hs) as Hstep.
  destruct (feed_and_graph NATIVE_WRAP_COMPONENT max_sync_lag (md, m) msg) as [md1 m1].
  destruct Hstep as (-> & Hok1 & Hd1). exact (IH _ _ Hok1 Hd1 Hrest).
Qed.

(** A refresh leaves no stale weight. On a well-formed graph it changes weights only;
    every pool of a direction whose two tokens are registered has exactly the weight that
    its simulation state and the derived data give, and none when its state or its derived
    data is missing; a direction with an unregistered token keeps its weights; and the
    count returned is the number of weights set. *)
Theorem weights_refreshed {D : Type} `{DiGraph (list (EdgeData D))} (NATIVE_WRAP_COMPONENT : ComponentId)
    `{TychoMarket} (from_sim_and_derived : ProtocolSim -> ComponentId -> Token -> Token -> DerivedData -> option D)
    (st : MarketState) (derived : DerivedData) (m : TopologyGraphManager) :
  manager_ok NATIVE_WRAP_COMPONENT m ->
  let '(m', updated) := update_edge_weights_with_derived from_sim_and_derived m st derived in
  manager_ok NATIVE_WRAP_COMPONENT m' /\ directions_of m' = directions_of m /\
  (forall d, pools_of m' d
     = match tokens st !! d.1, tokens st !! d.2 with
       | Some t_in, Some t_out =>
           (fun pool => Build_EdgeData (ed_component_id pool)
              (pool_weight from_sim_and_derived st derived t_in t_out (ed_component_id pool))) <$> pools_of m d
       | _, _ => pools_of m d
       end) /\
  updated = length (edge_indices (tg_graph (tm_graph m)) ≫= new_weights from_sim_and_derived st derived (tm_graph m)).
Proof.
  intros Hok. pose proof (update_edge_weights_lemma NATIVE_WRAP_COMPONENT from_sim_and_derived st derived m Hok) as Hu.
  destruct (update_edge_weights_with_derived _ _ _ _) as [m' updated]. destruct Hu as (Hok' & HT & Hp & Hn).
  split_and!; [done|by unfold directions_of; rewrite HT|exact Hp|done].
Qed.

(** What a worker can do to its graph. *)
Inductive reachable {D : Type} `{DiGraph (list (EdgeData D))} (NATIVE_WRAP_COMPONENT : ComponentId) `{TychoMarket}
    (from_sim_and_derived : ProtocolSim -> ComponentId -> Token -> Token -> DerivedData -> option D)
    : TopologyGraphManager -> Prop :=
| Reach_new : reachable NATIVE_WRAP_COMPONENT from_sim_and_derived TopologyGraphManager_new
| Reach_initialize listing :
    reachable NATIVE_WRAP_COMPONENT from_sim_and_derived (initialize_graph NATIVE_WRAP_COMPONENT listing)
| Reach_event m event :
    reachable NATIVE_WRAP_COMPONENT from_sim_and_derived m ->
    reachable NATIVE_WRAP_COMPONENT from_sim_and_derived (handle_event NATIVE_WRAP_COMPONENT m event).1
| Reach_weights m st derived :
    reachable NATIVE_WRAP_COMPONENT from_sim_and_derived m ->
    reachable NATIVE_WRAP_COMPONENT from_sim_and_derived
      (update_edge_weights_with_derived from_sim_and_derived m st derived).1.

(** C32: every graph a worker reaches is well formed. Whatever it does, initializing,
    handling events in any order, with any additions, removals and repetitions, and
    refreshing weights: tokens and nodes agree one to one, the pair index names exactly the
    edges, no edge is empty or lists a pool twice, edges end at nodes, the remembered pairs
    are those of the listed pools, and the graph meets what the route search relies on. *)
Theorem reachable_well_formed {D : Type} `{DiGraph (list (EdgeData D))} (NATIVE_WRAP_COMPONENT : ComponentId) `{TychoMarket}
    (from_sim_and_derived : ProtocolSim -> ComponentId -> Token -> Token -> DerivedData -> option D)
    (m : TopologyGraphManager) :
  reachable NATIVE_WRAP_COMPONENT from_sim_and_derived m ->
  manager_ok NATIVE_WRAP_COMPONENT m /\ graph_ok (tm_graph m) /\ search_ok (tm_graph m) /\
  lists NATIVE_WRAP_COMPONENT m (directions_of m).
Proof.
  intros Hr. enough (manager_ok NATIVE_WRAP_COMPONENT m) as Hok.
  { pose proof (po_graph _ _ _ Hok). split_and!; [done|done|by apply graph_ok_search|by apply manager_ok_lists]. }
  induction Hr as [|listing|m event _ IH|m st derived _ IH].
  - apply manager_ok_new.
  - apply (initialize_graph_spec NATIVE_WRAP_COMPONENT listing).
  - pose proof (handle_event_spec NATIVE_WRAP_COMPONENT m event IH) as Hs. by destruct (handle_event _ _ _), Hs.
  - pose proof (update_edge_weights_lemma NATIVE_WRAP_COMPONENT from_sim_and_derived st derived m IH) as Hs.
    by destruct (update_edge_weights_with_derived _ _ _ _), Hs.
Qed.

(** ** Witnesses *)

Section witnesses.
Import GraphSample.
#[local] Existing Instances graph MarketSample.tycho MarketSample.tycho_market sample_stream.

(** A weight that depends on the state. *)
Definition state_weight (sim : ProtocolSim) (_ : ComponentId) (_ _ : Token) (_ : DerivedData) : option N :=
  Some (sim + 1)%N.

(** One pool leaves, one loses a direction, one has a single token, one was never there. *)
Definition event : MarketEvent := {|
  added_components := {[ "bc"%string := one_way Sample.B Sample.C;
    "lone"%string := {| tp_tokens := [Sample.D]; tp_swap_directions := [] |} ]};
  removed_components := ["ab"%string; "gone"%string];
  updated_components := [] |}.

Lemma token_graph_refines_events_witness :
  let '(m', r) := handle_event WRAP (of_listing triangle) event in
  r = Err [InvalidComponents ["lone"%string]; ComponentsNotFound ["gone"%string]] /\
  lists WRAP m' (directions_of m') /\
  ids_of (pools_of m' (Sample.A, Sample.B)) = ["ab2"%string] /\ pools_of m' (Sample.C, Sample.B) = [].
Proof.
  pose proof (token_graph_refines_events WRAP (of_listing triangle) event (of_listing_ok triangle)) as Hs.
  assert ((handle_event WRAP (of_listing triangle) event).2
    = Err [InvalidComponents ["lone"%string]; ComponentsNotFound ["gone"%string]]) as Hr by by vm_compute.
  assert (ids_of (pools_of (handle_event WRAP (of_listing triangle) event).1 (Sample.A, Sample.B)) = ["ab2"%string])
    as Hab by by vm_compute.
  assert (pools_of (handle_event WRAP (of_listing triangle) event).1 (Sample.C, Sample.B) = []) as Hcb by by vm_compute.
  destruct (handle_event WRAP (of_listing triangle) event) as [m' r]. destruct Hs as (_ & _ & Hl & _).
  exact (conj Hr (conj Hl (conj Hab Hcb))).
Defined.

Definition first_event : MarketEvent := {|
  added_components := triangle; removed_components := []; updated_components := [] |}.
Definition second_event : MarketEvent := {|
  added_components := {[ "bc"%string := one_way Sample.B Sample.C ]};
  removed_components := ["ab"%string]; updated_components := [] |}.

Lemma rebuilt_graph_agrees_witness :
  let grown := handle_events WRAP TopologyGraphManager_new [first_event; second_event] in
  let rebuilt := initialize_graph WRAP (fold_left after_event [first_event; second_event] ∅) in
  ids_of (pools_of grown (Sample.B, Sample.C)) = ["bc"%string] /\ directions_of grown = directions_of rebuilt.
Proof.
  split; [by vm_compute|].
  apply (rebuilt_graph_agrees WRAP [first_event; second_event]).
  apply Forall_cons; split; [|apply Forall_cons; split; [|by apply Forall_nil]];
    (apply map_Forall_to_list; by vm_compute; repeat constructor).
Defined.

Lemma token_graph_follows_feed_witness :
  let '(md', m') := fold_left (feed_and_graph WRAP 50) [block_message; book_message]
                      (empty_market, TopologyGraphManager_new) in
  ids_of (pools_of m' (Sample.A, Sample.B)) = ["ab"%string] /\
  lists WRAP m' (market_directions md').
Proof.
  pose proof (token_graph_follows_feed WRAP 50 empty_market TopologyGraphManager_new [block_message; book_message]
    (manager_ok_new WRAP)) as Hs.
  assert (ids_of (pools_of (fold_left (feed_and_graph WRAP 50) [block_message; book_message]
                      (empty_market, TopologyGraphManager_new)).2 (Sample.A, Sample.B)) = ["ab"%string]) as Hab by by vm_compute.
  destruct (fold_left _ _ _) as [md' m']. split; [exact Hab|]. apply Hs.
  - unfold directions_of, market_directions. cbn. by rewrite !fmap_empty.
  - split; [|split; [|done]]; (apply map_Forall_to_list; by vm_compute; repeat constructor).
Defined.

Lemma reachable_well_formed_witness :
  reachable WRAP state_weight (handle_event WRAP (of_listing triangle) event).1 /\
  search_ok (tm_graph (handle_event WRAP (of_listing triangle) event).1).
Proof.
  assert (reachable WRAP state_weight (handle_event WRAP (of_listing triangle) event).1) as Hr
    by (apply Reach_event, Reach_initialize).
  split; [exact Hr|]. apply (reachable_well_formed WRAP state_weight _ Hr).
Defined.

Lemma weights_refreshed_witness :
  let '(m', updated) := update_edge_weights_with_derived state_weight
                          (of_listing chain) MarketSample.market DerivedData_new in
  updated = 3 /\ pools_of m' (Sample.A, Sample.B) = [Build_EdgeData "ab"%string (Some 2%N)] /\
  directions_of m' = directions_of (of_listing chain).
Proof.
  pose proof (weights_refreshed WRAP state_weight MarketSample.market DerivedData_new
    (of_listing chain) (of_listing_ok chain)) as Hs.
  set (run := update_edge_weights_with_derived _ _ _ _) in *.
  assert (run.2 = 3) as Hn by by vm_compute.
  assert (pools_of run.1 (Sample.A, Sample.B) = [Build_EdgeData "ab"%string (Some 2%N)]) as Hp by by vm_compute.
  destruct run as [m' updated]. destruct Hs as (_ & Hd & _). exact (conj Hn (conj Hp Hd)).
Defined.
End witnesses.
