(* ===== verification/RouteSearch.v ===== *)
(** * RouteSearch: what the route search returns

    The specification of [paths_between_ix] and [expand_path] of
    [fynd-core/src/graph/token_graph.rs], on any well-formed graph. A route is a sequence
    of tokens that names none twice, whose every step is an allowed trade or the allowed
    wrap, whose inner tokens the request allows, within the hop bounds, through every
    required token. On a graph whose pairs trade both ways the search returns the routes,
    each once, shortest first; a route whose second half trades one way only is missed. *)

From stdpp Require Import prelude gmap sets strings list sorting.
From Stdlib Require Import NArith ZArith Lia.
From S2P Require Import Prelude F64 Types Samples Tracker DerivedStore SpotPriceComputation Manager.
From S2P Require Import MarketData StableGraph TokenGraph RouteSearchProofs TokenPaths ExpandPath.
From S2P Require Import TokenGraphManager TokenGraphLaws TokenGraphSync TokenGraphProperties.

#[local] Open Scope nat_scope.

Section spec.
Context {D : Type} `{DiGraph (list (EdgeData D))} (NATIVE_WRAP_COMPONENT : ComponentId).
Context (g : TopologyGraph) (search : RouteSearch).
Implicit Types (from to a b : NodeIndex) (p : list NodeIndex).

#[local] Abbreviation min := (min_hops (rs_bounds search)).
#[local] Abbreviation max := (max_hops (rs_bounds search)).
#[local] Abbreviation visits p := (visits_all_required_tokens (rs_constraints search) (node_address g <$> p)).

(** A pool that trades a pair one way trades it the other way too. *)
Definition both_ways : Prop :=
  forall a b id, id ∈ ids_of (pair_pools g a b) -> id ∈ ids_of (pair_pools g b a).

Record route from to p : Prop := {
  rt_walk : walk NATIVE_WRAP_COMPONENT g search (from, to) from (hops g p) p;
  rt_last : last p = Some to;
  rt_min : min <= Nat.max (hops g p) 1;
  rt_max : hops g p <= max;
  rt_visits : visits p = true;
}.

Lemma pair_has_allowed_trade_ids a b :
  trade NATIVE_WRAP_COMPONENT g search a b = true <->
  is_wrap_pair g a b = false /\
  exists id, id ∈ ids_of (pair_pools g a b) /\
    (ResolvedRouteConstraints_is_empty (rs_constraints search) = true \/
     excludes_pool (rs_constraints search) id = false).
Proof.
  unfold trade, pair_has_allowed_trade, pools_between. destruct (is_wrap_pair g a b).
  { split; [done|by intros [? _]]. }
  set (pools := pair_pools g a b). destruct (ResolvedRouteConstraints_is_empty _) eqn:He.
  - rewrite negb_true_iff, bool_decide_eq_false. split.
    + intros Hne. split; [done|]. destruct pools as [|pool pools']; [done|]. exists (ed_component_id pool). split; [left|by left].
    + intros (_ & id & Hin & _) Hz. apply nil_length_inv in Hz. rewrite Hz in Hin. by apply not_elem_of_nil in Hin.
  - rewrite existsb_exists. split.
    + intros (pool & Hin%list_elem_of_In & Hex%negb_true_iff). split; [done|]. exists (ed_component_id pool).
      split; [by apply list_elem_of_fmap_2|by right].
    + intros (_ & id & (pool & -> & Hin)%list_elem_of_fmap & [?|Hex]); [done|]. exists pool.
      split; [by apply list_elem_of_In|by apply negb_true_iff].
Qed.

Lemma both_ways_trade a b : both_ways ->
  trade NATIVE_WRAP_COMPONENT g search a b = trade NATIVE_WRAP_COMPONENT g search b a.
Proof.
  intros Hboth. apply eq_bool_prop_intro. rewrite !Is_true_true, !pair_has_allowed_trade_ids.
  rewrite (is_wrap_pair_comm g b a). split; intros (Hw & id & Hin & Hex); (split; [done|]); exists id;
    (split; [by apply Hboth|done]).
Qed.

Lemma paths_between_ix_valid from to : 1 <= min <= max ->
  paths_between_ix NATIVE_WRAP_COMPONENT g from to search
  = List.filter (fun p => visits p)
      (if decide (from = to) then circular_token_paths NATIVE_WRAP_COMPONENT g to search
       else bidirectional_search NATIVE_WRAP_COMPONENT g from to search).
Proof.
  intros Hb. unfold paths_between_ix. rewrite bool_decide_eq_false_2 by lia.
  destruct (Nat.ltb_spec max min); [lia|done].
Qed.

Lemma sublist_StronglySorted {A} (R : A -> A -> Prop) (l k : list A) :
  StronglySorted R k -> l `sublist_of` k -> StronglySorted R l.
Proof.
  intros Hs Hl. revert Hs. induction Hl as [|x l k Hl IH|x l k Hl IH]; intros Hs; [done|..].
  - apply StronglySorted_inv in Hs as [Hs Hall]. constructor; [by apply IH|].
    rewrite Forall_forall in *. intros y Hy. apply Hall. by eapply elem_of_sublist.
  - apply StronglySorted_inv in Hs as [Hs _]. by apply IH.
Qed.

(** Between two tokens: what meets in the middle, or the wrap alone. *)
Lemma route_iff_meets from to p : search_ok g -> both_ways -> from <> to -> 1 <= min <= max ->
  (p ∈ bidirectional_search NATIVE_WRAP_COMPONENT g from to search /\ visits p = true) <-> route from to p.
Proof.
  intros Hok Hboth Hne Hb. rewrite bidirectional_search_elem by (done || lia).
  assert (forall n, 1 <= n -> (exists s1 m s2, meets NATIVE_WRAP_COMPONENT g search (from, to) n p s1 m s2) <->
    walk NATIVE_WRAP_COMPONENT g search (from, to) from n p /\ last p = Some to) as Hmeets.
  { intros n Hn. apply meets_walk; [intros a b; by apply both_ways_trade|done]. }
  split.
  - intros [[(Hmin & Hw & ->)|(n & s1 & m & s2 & Hn & Hm)] Hv].
    + assert (hops g [from; to] = 0) as Hh by (rewrite hops_cons, (wrap_is_pair _ _ _ _ _ Hw); done).
      split; [|done|rewrite Hh; cbn; lia|lia|done]. rewrite Hh. split; [done| | |cbn|done].
      * apply NoDup_cons. split; [|apply NoDup_singleton]. by intros ?%list_elem_of_singleton.
      * intros t ->%list_elem_of_singleton. apply (allowed_endpoint g search (from, to)).
      * split; [|done]. unfold step. by rewrite Hw, orb_true_r.
    + destruct (proj1 (Hmeets n ltac:(lia))) as [Hwalk Hlast]; [by exists s1, m, s2|].
      pose proof (wk_hops _ _ _ _ _ _ _ Hwalk) as Hh. split; [by rewrite Hh|done|lia|lia|done].
  - intros [Hwalk Hlast Hmin Hmax Hv]. split; [|done]. destruct (decide (hops g p = 0)) as [Hz|Hnz].
    + left. rewrite Hz in Hwalk, Hmin. split; [lia|].
      destruct (walk_no_hops _ g search from to from p Hok Hwalk) as [->|(b & -> & Hw)].
      * cbn in Hlast. congruence.
      * cbn in Hlast. injection Hlast as ->. done.
    + right. destruct (proj2 (Hmeets (hops g p) ltac:(lia))) as (s1 & m & s2 & Hm); [done|].
      exists (hops g p), s1, m, s2. split; [lia|done].
Qed.
End spec.

(** C30: the route search finds the routes. On a well-formed graph whose pools trade their
    pairs both ways, for two different tokens and valid hop bounds, the token paths that
    meeting in the middle returns are exactly the routes (no token twice, every step an
    allowed trade or the free native wrap, inner tokens allowed, hops within bounds, every
    required token visited), each of them once, and shorter ones first. *)
Theorem token_paths_spec {D : Type} `{DiGraph (list (EdgeData D))} (NATIVE_WRAP_COMPONENT : ComponentId)
    (g : TopologyGraph) (search : RouteSearch) (from to : NodeIndex) :
  graph_ok g -> both_ways g -> from <> to ->
  1 <= min_hops (rs_bounds search) <= max_hops (rs_bounds search) ->
  let paths := paths_between_ix NATIVE_WRAP_COMPONENT g from to search in
  NoDup paths /\ StronglySorted (fun p q => hops g p <= hops g q) paths /\
  forall p, p ∈ paths <-> route NATIVE_WRAP_COMPONENT g search from to p.
Proof.
  intros Hg Hboth Hne Hb. pose proof (graph_ok_search g Hg) as Hok. cbv zeta.
  rewrite paths_between_ix_valid, decide_False by done. split_and!.
  - apply (sublist_NoDup _ _ (bidirectional_search_NoDup NATIVE_WRAP_COMPONENT g search from to Hok ltac:(lia))), sublist_filterb.
  - apply (sublist_StronglySorted _ _ _ (bidirectional_search_sorted NATIVE_WRAP_COMPONENT g search from to Hok ltac:(lia))), sublist_filterb.
  - intros p. by rewrite elem_of_filterb, route_iff_meets.
Qed.

(** Routes back to the starting token. On a well-formed graph and for valid hop bounds,
    whichever way its pools trade, the token paths from a token to itself are exactly the
    sequences that leave it, name no token twice on the way, close with an allowed step,
    take the native wrap at most once, stay within the hop bounds and visit every required
    token; each of them once. *)
Theorem circular_token_paths_spec {D : Type} `{DiGraph (list (EdgeData D))} (NATIVE_WRAP_COMPONENT : ComponentId)
    (g : TopologyGraph) (search : RouteSearch) (token : NodeIndex) :
  graph_ok g -> 1 <= min_hops (rs_bounds search) <= max_hops (rs_bounds search) ->
  let paths := paths_between_ix NATIVE_WRAP_COMPONENT g token token search in
  NoDup paths /\
  forall p, p ∈ paths <-> (exists s, circular_route NATIVE_WRAP_COMPONENT g search token p s) /\
    visits_all_required_tokens (rs_constraints search) (node_address g <$> p) = true.
Proof.
  intros Hg Hb. pose proof (graph_ok_search g Hg) as Hok. cbv zeta. rewrite paths_between_ix_valid, decide_True by done.
  destruct (circular_token_paths_lemma NATIVE_WRAP_COMPONENT g search token Hok) as [Hnd Hel]. split.
  - apply (sublist_NoDup _ _ Hnd), sublist_filterb.
  - intros p. rewrite elem_of_filterb, Hel. tauto.
Qed.

(** The odometer equals the reference enumeration. When the product of the legs' allowed
    pools fits the machine's word, [expand_path] never indexes out of a leg's pools and
    writes out every combination of one pool per leg, the leftmost leg slowest, in that
    order, cut off at [max_paths], all over the path's own tokens; it writes nothing for a
    path without legs. *)
Theorem expand_path_spec {D : Type} `{DiGraph (list (EdgeData D))} (NATIVE_WRAP_COMPONENT : ComponentId)
    (g : TopologyGraph) (token_path : list NodeIndex) (max_paths : option nat) (constraints : ResolvedRouteConstraints) :
  (N.of_nat (product (length <$> legs_of NATIVE_WRAP_COMPONENT g token_path constraints)) < 2 ^ 64)%N ->
  expand_path NATIVE_WRAP_COMPONENT g token_path max_paths constraints
  = Ret (if decide (length token_path < 2) then []
         else Build_Path (node_address g <$> token_path)
                <$> capped max_paths (combos (legs_of NATIVE_WRAP_COMPONENT g token_path constraints))).
Proof. apply expand_path_exact. Qed.

Section expanded.
Context {D : Type} `{DiGraph (list (EdgeData D))} (NATIVE_WRAP_COMPONENT : ComponentId).
Implicit Types (m : TopologyGraphManager) (pool : EdgeData D) (token_path : list NodeIndex).

Lemma windows2_lookup {A} (l : list A) i : windows2 l !! i =
  match l !! i, l !! S i with Some a, Some b => Some (a, b) | _, _ => None end.
Proof.
  unfold windows2. rewrite lookup_zip_with, <- (lookup_tail l i).
  destruct (l !! i); [|done]. cbn. by destruct (tail l !! i).
Qed.

(** A pool of a pair of nodes is offered between their tokens. *)
Lemma pair_pools_offered m a b pool : manager_ok NATIVE_WRAP_COMPONENT m ->
  pool ∈ pair_pools (tm_graph m) a b -> ed_component_id pool <> NATIVE_WRAP_COMPONENT ->
  offers (directions_of m) (ed_component_id pool) (node_address (tm_graph m) a, node_address (tm_graph m) b).
Proof.
  intros Hok Hin Hne. pose proof (po_graph _ _ _ Hok) as Hg.
  destruct (po_pools _ _ _ Hok (ed_component_id pool) a b Hne) as (P & d & HT & HP); [by apply list_elem_of_fmap_2|].
  destruct (po_nodes _ _ _ Hok _ _ _ _ _ HT HP) as [Ha Hb].
  rewrite (node_address_token _ _ _ Hg Ha), (node_address_token _ _ _ Hg Hb), <- surjective_pairing.
  exists (dom P). unfold directions_of. rewrite lookup_fmap, HT. split; [done|]. apply elem_of_dom. by exists (a, b).
Qed.

(** Leg by leg, an expanded path's pool trades the pair and is allowed. *)
Lemma expanded_pool g token_path max_paths constraints paths (path : Path D) i pool :
  expand_path NATIVE_WRAP_COMPONENT g token_path max_paths constraints = Ret paths -> path ∈ paths ->
  path_tokens path = node_address g <$> token_path /\ length (path_edge_data path) = length token_path - 1 /\
  (path_edge_data path !! i = Some pool -> exists a b,
    token_path !! i = Some a /\ token_path !! S i = Some b /\ pool ∈ pair_pools g a b /\
    excludes_pool constraints (ed_component_id pool) = false).
Proof.
  rewrite expand_path_lemma. intros [= <-] Hin. case_decide as Hlen; [by apply not_elem_of_nil in Hin|].
  apply list_elem_of_fmap in Hin as (edges & -> & Hin%capped_elem%(subseteq_take _)%combos_elem). cbn [path_tokens path_edge_data].
  split; [done|]. split.
  - apply Forall2_length in Hin as ->. unfold legs_of, windows2. rewrite length_fmap, length_zip_with.
    destruct token_path; [done|]. cbn [tail length]. lia.
  - intros Hpool. destruct (Forall2_lookup_l _ _ _ _ _ Hin Hpool) as (leg & Hleg & Hx).
    unfold legs_of in Hleg. rewrite list_lookup_fmap, windows2_lookup in Hleg.
    destruct (token_path !! i) as [a|]; [|done]. destruct (token_path !! S i) as [b|]; [|done]. injection Hleg as <-.
    apply leg_between_elem in Hx as [Hx Hex]. by exists a, b.
Qed.
End expanded.

(** A path the search hands out can be traded as the market stands. Whatever the token
    path, the cap and the request's constraints, each path that [expand_path] writes has
    one pool per leg; every pool is allowed by the request, and the component of every
    pool (the native wrap aside) offers exactly the direction of its leg in the table the
    graph follows. *)
Theorem expanded_paths_offered {D : Type} `{DiGraph (list (EdgeData D))} (NATIVE_WRAP_COMPONENT : ComponentId)
    (m : TopologyGraphManager) (token_path : list NodeIndex) (max_paths : option nat)
    (constraints : ResolvedRouteConstraints) (paths : list (Path D)) (path : Path D) :
  manager_ok NATIVE_WRAP_COMPONENT m ->
  expand_path NATIVE_WRAP_COMPONENT (tm_graph m) token_path max_paths constraints = Ret paths -> path ∈ paths ->
  path_tokens path = node_address (tm_graph m) <$> token_path /\
  length (path_edge_data path) = length token_path - 1 /\
  forall i pool, path_edge_data path !! i = Some pool ->
    excludes_pool constraints (ed_component_id pool) = false /\
    exists token_in token_out, path_tokens path !! i = Some token_in /\ path_tokens path !! S i = Some token_out /\
      (ed_component_id pool <> NATIVE_WRAP_COMPONENT ->
       offers (directions_of m) (ed_component_id pool) (token_in, token_out)).
Proof.
  intros Hok He Hin.
  pose proof (fun i pool => expanded_pool NATIVE_WRAP_COMPONENT (tm_graph m) token_path max_paths constraints paths path i pool He Hin) as Hp.
  destruct (Hp 0 (EdgeData_new EmptyString)) as (Ht & Hl & _). split_and!; [done|done|]. intros i pool Hpool.
  destruct (Hp i pool) as (_ & _ & Hx). destruct (Hx Hpool) as (a & b & Ha & Hb & Hpp & Hex). split; [done|].
  exists (node_address (tm_graph m) a), (node_address (tm_graph m) b). rewrite Ht, !list_lookup_fmap, Ha, Hb.
  split_and!; [done|done|]. intros Hne. by apply (pair_pools_offered NATIVE_WRAP_COMPONENT).
Qed.

(** ** Witnesses and a missed route *)

Section witnesses.
Import GraphSample.
#[local] Existing Instance graph.

(** Trading both ways, by inspection of the indexed pairs. *)
Lemma both_ways_by_inspection (g : TopologyGraph (D:=N)) :
  forallb (fun entry : (NodeIndex * NodeIndex) * EdgeIndex =>
    forallb (fun id => bool_decide (id ∈ ids_of (pair_pools g entry.1.2 entry.1.1)))
      (ids_of (pair_pools g entry.1.1 entry.1.2))) (map_to_list (tg_pair_index g)) = true -> both_ways g.
Proof.
  intros Hall a b id Hin. destruct (tg_pair_index g !! (a, b)) as [e|] eqn:He.
  - apply elem_of_map_to_list, list_elem_of_In in He. eapply forallb_forall in Hall; [|exact He]. cbn in Hall.
    eapply forallb_forall in Hall; [|apply list_elem_of_In; exact Hin]. by apply bool_decide_eq_true in Hall.
  - unfold pair_pools in Hin. rewrite He in Hin. by apply not_elem_of_nil in Hin.
Qed.

Lemma triangle_both_ways : both_ways (tm_graph (of_listing triangle)).
Proof. apply both_ways_by_inspection. by vm_compute. Qed.

Lemma token_paths_spec_witness :
  let g := tm_graph (of_listing triangle) in
  paths_between_ix WRAP g 0 2 (search 1 3) = [[0; 2]; [0; 1; 2]] /\
  NoDup (paths_between_ix WRAP g 0 2 (search 1 3)) /\
  StronglySorted (fun p q => hops g p <= hops g q) (paths_between_ix WRAP g 0 2 (search 1 3)) /\
  forall p, p ∈ paths_between_ix WRAP g 0 2 (search 1 3) <-> route WRAP g (search 1 3) 0 2 p.
Proof.
  split; [by vm_compute|].
  apply (token_paths_spec WRAP (tm_graph (of_listing triangle)) (search 1 3) 0 2);
    [apply graph_of_listing_ok|exact triangle_both_ways|done|cbn; lia].
Defined.

Lemma circular_token_paths_spec_witness :
  let g := tm_graph (of_listing triangle) in
  length (paths_between_ix WRAP g 0 0 (search 1 3)) = 4 /\ NoDup (paths_between_ix WRAP g 0 0 (search 1 3)).
Proof.
  split; [by vm_compute|].
  apply (circular_token_paths_spec WRAP (tm_graph (of_listing triangle)) (search 1 3) 0);
    [apply graph_of_listing_ok|cbn; lia].
Defined.

Lemma expand_path_spec_witness :
  let g := tm_graph (of_listing triangle) in
  expand_path WRAP g [0; 1; 2] (Some 1) (rs_constraints (search 1 3))
  = Ret [Build_Path [Sample.A; Sample.B; Sample.C] [EdgeData_new "ab"%string; EdgeData_new "bc"%string]].
Proof.
  cbv zeta. rewrite (expand_path_spec WRAP (tm_graph (of_listing triangle)) [0; 1; 2] (Some 1)) by by vm_compute.
  by vm_compute.
Defined.

Lemma expanded_paths_offered_witness :
  let m := of_listing triangle in
  exists paths path, expand_path WRAP (tm_graph m) [0; 1; 2] None (rs_constraints (search 1 3)) = Ret paths /\
    length paths = 2 /\ path ∈ paths /\ path_tokens path = node_address (tm_graph m) <$> [0; 1; 2].
Proof.
  eexists _, _. split; [by vm_compute|]. split; [by vm_compute|]. split; [left|].
  eapply (expanded_paths_offered WRAP (of_listing triangle) [0; 1; 2] None (rs_constraints (search 1 3)));
    [apply of_listing_ok|by vm_compute|left].
Defined.

(** A route whose second half trades one way only is missed. The pool of the first leg
    trades both ways, that of the second from B to C only; A, B, C is a route within the
    bounds and expands to a path, but the half walked out of C follows the pairs that
    leave C, so the search returns nothing. *)
Theorem one_way_route_missed :
  let m := of_listing chain in
  manager_ok WRAP m /\
  route WRAP (tm_graph m) (search 1 3) 0 2 [0; 1; 2] /\
  (exists path, expand_path WRAP (tm_graph m) [0; 1; 2] None (rs_constraints (search 1 3)) = Ret [path] /\
     path_tokens path = [Sample.A; Sample.B; Sample.C]) /\
  paths_between_ix WRAP (tm_graph m) 0 2 (search 1 3) = [].
Proof.
  cbv zeta. split_and!.
  - apply of_listing_ok.
  - split; [|done|vm_compute; lia|vm_compute; lia|by vm_compute]. split; [done| | |by vm_compute|done].
    + apply NoDup_cons. split; [set_solver|]. apply NoDup_cons. split; [set_solver|apply NoDup_singleton].
    + intros t [->|[->|[]%not_elem_of_nil]%elem_of_cons]%elem_of_cons; by vm_compute.
  - eexists. split; by vm_compute.
  - by vm_compute.
Qed.
End witnesses.
