(* ===== verification/PetgraphManager.v ===== *)
(** * PetgraphManager: the graph with an edge per component and direction

    [PetgraphStableDiGraphManager] of [fynd-core/src/graph/petgraph.rs]: unlike the token
    graph, every direction of every component has an edge of its own. After the definitions: the
    representation invariant, the laws of the operations against the table of each component's
    directions, and the agreement with the token graph. *)

From stdpp Require Import prelude gmap sets strings list sorting fin_maps.
From Stdlib Require Import NArith ZArith Lia.
From S2P Require Import Prelude F64 Types Tracker DerivedStore SpotPriceComputation Manager.
From S2P Require Import MarketData StableGraph TokenGraph TokenGraphManager TokenGraphLaws TokenGraphSync TokenGraphProperties.

#[local] Open Scope nat_scope.

Section manager.
Context {D : Type} `{DiGraph (EdgeData D)}.

Record PetgraphStableDiGraphManager := {
  pm_graph : digraph;
  pm_edge_map : gmap ComponentId (gmap SwapDirection EdgeIndex);
  pm_node_map : gmap Address NodeIndex;
}.
Implicit Types (m : PetgraphStableDiGraphManager) (component_id : ComponentId) (addr : Address).

Definition PetgraphManager_new : PetgraphStableDiGraphManager :=
  {| pm_graph := graph_empty; pm_edge_map := ∅; pm_node_map := ∅ |}.

Definition find_node m addr : result GraphError NodeIndex :=
  match pm_node_map m !! addr with Some index => Ok index | None => Err (TokenNotFound addr) end.

Definition get_or_create_node m addr : PetgraphStableDiGraphManager * NodeIndex :=
  match find_node m addr with
  | Ok index => (m, index)
  | Err _ =>
      let '(graph, index) := add_node (pm_graph m) addr in
      ({| pm_graph := graph; pm_edge_map := pm_edge_map m; pm_node_map := <[addr := index]> (pm_node_map m) |}, index)
  end.

Definition with_graph m (graph : digraph) : PetgraphStableDiGraphManager :=
  {| pm_graph := graph; pm_edge_map := pm_edge_map m; pm_node_map := pm_node_map m |}.

Definition with_edges m component_id (edges : gmap SwapDirection EdgeIndex) : PetgraphStableDiGraphManager :=
  {| pm_graph := pm_graph m; pm_edge_map := <[component_id := edges]> (pm_edge_map m); pm_node_map := pm_node_map m |}.

Definition remove_edges (graph : digraph) (edges : gmap SwapDirection EdgeIndex) : digraph :=
  fold_left (fun graph entry => remove_edge graph entry.2) (map_to_list edges) graph.

Definition insert_edge component_id (st : PetgraphStableDiGraphManager * gmap SwapDirection EdgeIndex)
    (direction : SwapDirection) : PetgraphStableDiGraphManager * gmap SwapDirection EdgeIndex :=
  let '(m, edges) := st in
  match edges !! direction with
  | Some _ => (m, edges)
  | None =>
      let '(m, from) := get_or_create_node m direction.1 in
      let '(m, to) := get_or_create_node m direction.2 in
      let '(graph, edge) := add_edge (pm_graph m) from to (EdgeData_new component_id) in
      (with_graph m graph, <[direction := edge]> edges)
  end.

Definition sync_component_edges m component_id (swap_directions : list SwapDirection)
    : PetgraphStableDiGraphManager :=
  let edges := default ∅ (pm_edge_map m !! component_id) in
  let m := with_graph m (remove_edges (pm_graph m) (filter (fun entry => entry.1 ∉ swap_directions) edges)) in
  let edges := filter (fun entry => entry.1 ∈ swap_directions) edges in
  let '(m, edges) := fold_left (insert_edge component_id) swap_directions (m, edges) in
  with_edges m component_id edges.

Definition remove_component_edges m component_id : PetgraphStableDiGraphManager * bool :=
  match pm_edge_map m !! component_id with
  | None => (m, false)
  | Some edges =>
      ({| pm_graph := remove_edges (pm_graph m) edges;
          pm_edge_map := delete component_id (pm_edge_map m); pm_node_map := pm_node_map m |}, true)
  end.

Definition create_nodes m (addrs : list Address) : PetgraphStableDiGraphManager :=
  fold_left (fun m addr => (get_or_create_node m addr).1) addrs m.

Definition add_component_edges (st : PetgraphStableDiGraphManager * list ComponentId)
    (entry : ComponentId * ComponentTopology) : PetgraphStableDiGraphManager * list ComponentId :=
  let '(m, invalid) := st in
  if length (tp_tokens entry.2) <? 2 then (m, invalid ++ [entry.1])
  else (sync_component_edges (create_nodes m (merge_sort String.le (tp_tokens entry.2)))
          entry.1 (tp_swap_directions entry.2), invalid).

Definition add_components m (components : gmap ComponentId ComponentTopology)
    : PetgraphStableDiGraphManager * result GraphError unit :=
  let '(m, invalid) := fold_left add_component_edges (sorted_entries components) (m, []) in
  (m, match invalid with [] => Ok tt | _ => Err (InvalidComponents invalid) end).

Definition drop_component (st : PetgraphStableDiGraphManager * list ComponentId) component_id
    : PetgraphStableDiGraphManager * list ComponentId :=
  let '(m, missing) := st in
  let '(m, tracked) := remove_component_edges m component_id in
  (m, if tracked : bool then missing else missing ++ [component_id]).

Definition remove_components m (components : list ComponentId)
    : PetgraphStableDiGraphManager * result GraphError unit :=
  let '(m, missing) := fold_left drop_component components (m, []) in
  (m, match missing with [] => Ok tt | _ => Err (ComponentsNotFound missing) end).

(** The nodes are made directly: a fresh manager has none of the tokens. *)
Definition make_node m addr : PetgraphStableDiGraphManager :=
  let '(graph, index) := add_node (pm_graph m) addr in
  {| pm_graph := graph; pm_edge_map := pm_edge_map m; pm_node_map := <[addr := index]> (pm_node_map m) |}.

Definition initialize_graph (component_topology : gmap ComponentId ComponentTopology)
    : PetgraphStableDiGraphManager :=
  let tokens : gset Address := list_to_set (map_to_list component_topology ≫= fun entry => tp_tokens entry.2) in
  (add_components (fold_left make_node (merge_sort String.le (elements tokens)) PetgraphManager_new)
     component_topology).1.

Definition handle_event m (event : MarketEvent) : PetgraphStableDiGraphManager * result GraphErrors unit :=
  let '(m, added) := add_components m (added_components event) in
  let '(m, removed) := remove_components m (removed_components event) in
  let errors := (match added with Err e => [e] | Ok _ => [] end)
                ++ (match removed with Err e => [e] | Ok _ => [] end) in
  (m, match errors with [] => Ok tt | _ => Err errors end).

(** ** Weights *)

Context `{TychoMarket} (from_sim_and_derived : ProtocolSim -> ComponentId -> Token -> Token -> DerivedData -> option D).

(** What the first pass collects of an edge; none for an edge that is skipped. *)
Definition edge_update (st : MarketState) (derived : DerivedData) (graph : digraph) (e : EdgeIndex)
    : option (EdgeIndex * option D) :=
  '(source, target, data) ← edge graph e;
  sim ← simulation_states st !! ed_component_id data;
  token_in ← tokens st !! default EmptyString (node_weight graph source);
  token_out ← tokens st !! default EmptyString (node_weight graph target);
  Some (e, from_sim_and_derived sim (ed_component_id data) token_in token_out derived).

Definition apply_update (graph : digraph) (update : EdgeIndex * option D) : digraph :=
  match edge graph update.1 with
  | Some (_, _, data) => set_edge_weight graph update.1 (Build_EdgeData (ed_component_id data) update.2)
  | None => graph
  end.

Definition update_edge_weights_with_derived m (st : MarketState) (derived : DerivedData)
    : PetgraphStableDiGraphManager * nat :=
  let updates := omap (edge_update st derived (pm_graph m)) (edge_indices (pm_graph m)) in
  (with_graph m (fold_left apply_update updates (pm_graph m)),
   length (List.filter (fun update => match update.2 with Some _ => true | None => false end) updates)).
End manager.

(** ** Batches over any manager with a table of directions *)

Section batches.
Context {M : Type} (ok : M -> Prop) (table : M -> gmap ComponentId (gset SwapDirection)).
Context (add_entry : M * list ComponentId -> ComponentId * ComponentTopology -> M * list ComponentId).
Context (drop_entry : M * list ComponentId -> ComponentId -> M * list ComponentId).
Context (add_entry_spec : forall m invalid id topology, ok m ->
  let '(m', invalid') := add_entry (m, invalid) (id, topology) in
  ok m' /\ table m' = (if too_few topology then table m else <[id := direction_set topology]> (table m)) /\
  invalid' = (if too_few topology then invalid ++ [id] else invalid)).
Context (drop_entry_spec : forall m missing id, ok m ->
  let '(m', missing') := drop_entry (m, missing) id in
  ok m' /\ table m' = delete id (table m) /\
  missing' = (if bool_decide (is_Some (table m !! id)) then missing else missing ++ [id])).

Lemma add_entries_table (l : list (ComponentId * ComponentTopology)) m invalid : ok m -> NoDup l.*1 ->
  let '(m', invalid') := fold_left add_entry l (m, invalid) in
  ok m' /\ (forall id, table m' !! id = added_directions (list_to_map l) (table m) id) /\
  invalid' = invalid ++ (List.filter (fun entry => too_few entry.2) l).*1.
Proof.
  revert m invalid. induction l as [|[id topology] l IH]; intros m invalid Hok Hnd; cbn [fold_left].
  { split_and!; [done| |by rewrite app_nil_r].
    intros id. unfold added_directions. by rewrite list_to_map_nil, lookup_empty. }
  apply NoDup_cons in Hnd as [Hid Hnd]. cbn [fst] in Hid.
  pose proof (add_entry_spec m invalid id topology Hok) as Hone.
  destruct (add_entry (m, invalid) (id, topology)) as [m1 invalid1]. destruct Hone as (Hok1 & Hd1 & Hi1).
  specialize (IH m1 invalid1 Hok1 Hnd). destruct (fold_left add_entry l (m1, invalid1)) as [m2 invalid2].
  destruct IH as (Hok2 & Hd2 & Hi2). split_and!; [done| |].
  - intros id'. rewrite Hd2, Hd1. unfold added_directions. rewrite list_to_map_cons. destruct (decide (id' = id)) as [->|Hne].
    + rewrite (not_elem_of_list_to_map_1 l id), lookup_insert_eq by done.
      destruct (too_few topology); [done|by rewrite lookup_insert_eq].
    + rewrite (lookup_insert_ne _ id id') by done. destruct (too_few topology); [done|].
      by rewrite lookup_insert_ne.
  - rewrite Hi2, Hi1. cbn [List.filter snd]. destruct (too_few topology); [|done]. cbn. by rewrite <- app_assoc.
Qed.

Lemma drop_entries_table (ids : list ComponentId) m missing : ok m ->
  let '(m', missing') := fold_left drop_entry ids (m, missing) in
  ok m' /\ (forall id, table m' !! id = if decide (id ∈ ids) then None else table m !! id) /\
  missing' = missing ++ absent (dom (table m)) ids.
Proof.
  revert m missing. induction ids as [|id ids IH]; intros m missing Hok; cbn [fold_left].
  { split_and!; [done|done|]. cbn. by rewrite app_nil_r. }
  pose proof (drop_entry_spec m missing id Hok) as Hone. destruct (drop_entry (m, missing) id) as [m1 missing1].
  destruct Hone as (Hok1 & Hd1 & Hi1). specialize (IH m1 missing1 Hok1).
  destruct (fold_left drop_entry ids (m1, missing1)) as [m2 missing2]. destruct IH as (Hok2 & Hd2 & ->).
  split_and!; [done| |].
  - intros id'. rewrite Hd2, Hd1. destruct (decide (id' = id)) as [->|Hne].
    + rewrite lookup_delete_eq, (decide_True (P := id ∈ id :: ids)) by left. by case_decide.
    + rewrite lookup_delete_ne by done. destruct (decide (id' ∈ ids)) as [Hin|Hin].
      * rewrite decide_True; [done|by right].
      * rewrite decide_False; [done|]. by intros [?|?]%elem_of_cons.
  - rewrite Hi1. cbn [absent]. rewrite Hd1, dom_delete_L. destruct (decide (id ∈ dom (table m))) as [Hin|Hin].
    + rewrite bool_decide_eq_true_2; [done|]. by apply elem_of_dom.
    + rewrite bool_decide_eq_false_2; [by rewrite <- app_assoc|]. by rewrite <- elem_of_dom.
Qed.

(** The table and the errors of an event's two batches. *)
Lemma event_table m (event : MarketEvent) : ok m ->
  let '(m1, invalid) := fold_left add_entry (sorted_entries (added_components event)) (m, []) in
  let '(m2, missing) := fold_left drop_entry (removed_components event) (m1, []) in
  ok m2 /\ (forall id, table m2 !! id = after_directions event (table m) id) /\
  (match invalid with [] => [] | ids => [InvalidComponents ids] end)
  ++ (match missing with [] => [] | ids => [ComponentsNotFound ids] end) = batch_errors event (table m).
Proof.
  intros Hok. pose proof (add_entries_table (sorted_entries (added_components event)) m [] Hok (sorted_entries_NoDup _)) as Ha.
  destruct (fold_left add_entry _ _) as [m1 invalid]. destruct Ha as (Hok1 & Hd1 & ->).
  rewrite sorted_entries_map in Hd1.
  pose proof (drop_entries_table (removed_components event) m1 [] Hok1) as Hr.
  destruct (fold_left drop_entry _ _) as [m2 missing]. destruct Hr as (Hok2 & Hd2 & ->). split_and!; [done| |].
  - intros id. unfold after_directions. by rewrite Hd2, Hd1.
  - unfold batch_errors. rewrite <- (added_directions_dom event (table m) (table m1) Hd1). cbn [app].
    fold (invalid_components (added_components event)). by destruct (invalid_components _), (absent _ _).
Qed.
End batches.

Section manager.
Context {D : Type} `{DiGraph (EdgeData D)}.
#[local] Abbreviation Edges := (gmap SwapDirection EdgeIndex).
Implicit Types (graph : digraph) (nodes : gmap Address NodeIndex) (E : Edges) (T : gmap ComponentId Edges).
Implicit Types (id : ComponentId) (d : SwapDirection) (a b : NodeIndex) (e : EdgeIndex) (m : PetgraphStableDiGraphManager).

(** Tokens and nodes agree, every remembered edge is the component's between the tokens of
    its direction, and every edge is remembered. *)
Record edges_ok graph nodes T : Prop := {
  eo_nodes : forall addr i, nodes !! addr = Some i <-> node_weight graph i = Some addr;
  eo_edges : forall id E d e, T !! id = Some E -> E !! d = Some e -> exists a b data,
    edge graph e = Some (a, b, data) /\ ed_component_id data = id /\
    nodes !! d.1 = Some a /\ nodes !! d.2 = Some b;
  eo_known : forall e a b data, edge graph e = Some (a, b, data) ->
    exists E d, T !! ed_component_id data = Some E /\ E !! d = Some e;
}.

(** An edge tells its component and its direction. *)
Lemma edges_ok_inj graph nodes T id id' E E' d d' e : edges_ok graph nodes T ->
  T !! id = Some E -> E !! d = Some e -> T !! id' = Some E' -> E' !! d' = Some e -> id = id' /\ d = d'.
Proof.
  intros Hok HT HE HT' HE'. destruct (eo_edges _ _ _ Hok _ _ _ _ HT HE) as (a & b & data & He & Hid & Ha & Hb).
  destruct (eo_edges _ _ _ Hok _ _ _ _ HT' HE') as (a' & b' & data' & He' & Hid' & Ha' & Hb').
  rewrite He in He'. injection He' as <- <- <-. split; [congruence|].
  apply (eo_nodes _ _ _ Hok) in Ha, Hb, Ha', Hb'. destruct d, d'. cbn in *. congruence.
Qed.

Lemma edges_ok_remove graph nodes T id E d e : edges_ok graph nodes (<[id := E]> T) -> E !! d = Some e ->
  edges_ok (remove_edge graph e) nodes (<[id := delete d E]> T).
Proof.
  intros Hok HE.
  assert (forall id' E' d' e', <[id := delete d E]> T !! id' = Some E' -> E' !! d' = Some e' ->
    exists Q, <[id := E]> T !! id' = Some Q /\ Q !! d' = Some e' /\ e' <> e) as Hsub.
  { intros id' E' d' e' [[<- <-]|[Hne HT]]%lookup_insert_Some HE'.
    - apply lookup_delete_Some in HE' as [Hd HE']. exists E. rewrite lookup_insert_eq. split_and!; [done|done|]. intros ->.
      assert (id = id /\ d = d') as [_ ?]; [|done].
      eapply (edges_ok_inj _ _ _ _ _ E E _ _ e Hok); [apply lookup_insert_eq|done|apply lookup_insert_eq|done].
    - exists E'. rewrite lookup_insert_ne by done. split_and!; [done|done|]. intros ->.
      assert (id = id' /\ d = d') as [? _]; [|done].
      eapply (edges_ok_inj _ _ _ _ _ E E' _ _ e Hok); [apply lookup_insert_eq|done|by rewrite lookup_insert_ne|done]. }
  split.
  - intros addr i. rewrite remove_edge_node. apply (eo_nodes _ _ _ Hok).
  - intros id' E' d' e' HT HE'. destruct (Hsub _ _ _ _ HT HE') as (Q & HQ & HQd & Hne).
    rewrite remove_edge_edge, decide_False by done. exact (eo_edges _ _ _ Hok _ _ _ _ HQ HQd).
  - intros e' a b data. rewrite remove_edge_edge. case_decide as Hne; [done|]. intros He'.
    destruct (eo_known _ _ _ Hok _ _ _ _ He') as (E' & d' & HT & HE').
    apply lookup_insert_Some in HT as [[Hid <-]|[Hid HT]].
    + exists (delete d E), d'. rewrite <- Hid, lookup_insert_eq, lookup_delete_ne; [done|]. intros ->. congruence.
    + exists E', d'. by rewrite lookup_insert_ne.
Qed.

Lemma remove_edges_ok nodes T id (l : list (SwapDirection * EdgeIndex)) graph E Q :
  edges_ok graph nodes (<[id := E]> T) -> NoDup l.*1 -> (forall d e, (d, e) ∈ l -> E !! d = Some e) ->
  (forall d, Q !! d = if decide (d ∈ l.*1) then None else E !! d) ->
  edges_ok (fold_left (fun graph entry => remove_edge graph entry.2) l graph) nodes (<[id := Q]> T).
Proof.
  revert graph E. induction l as [|[d e] l IH]; intros graph E Hok Hnd Hl HQ; cbn [fold_left].
  { assert (Q = E) as -> by (apply map_eq; intros d; by rewrite HQ, decide_False by apply not_elem_of_nil). done. }
  apply NoDup_cons in Hnd as [Hd Hnd]. apply (IH _ (delete d E)); [|done| |].
  - apply edges_ok_remove; [done|]. apply Hl. left.
  - intros d' e' Hin. rewrite lookup_delete_ne; [apply Hl; by right|]. intros <-. apply Hd.
    by apply (list_elem_of_fmap_2 fst _ (d, e')).
  - intros d'. rewrite HQ. cbn. destruct (decide (d' = d)) as [->|Hne].
    + rewrite lookup_delete_eq, decide_True by left. by case_decide.
    + rewrite lookup_delete_ne by done. destruct (decide (d' ∈ l.*1)) as [Hin|Hin].
      * rewrite decide_True; [done|by right].
      * rewrite decide_False; [done|]. by intros [?|?]%elem_of_cons.
Qed.

(** A node made for a token that has none. *)
Lemma edges_ok_add_node graph nodes T addr : edges_ok graph nodes T -> nodes !! addr = None ->
  edges_ok (add_node graph addr).1 (<[addr := (add_node graph addr).2]> nodes) T.
Proof.
  intros Hok Hnone. pose proof (add_node_fresh graph addr) as Hfresh. pose proof (add_node_node graph addr) as Hnode.
  pose proof (add_node_edge graph addr) as Hedge. destruct (add_node graph addr) as [graph' i]. cbn [fst snd] in *. split.
  - intros addr' j. rewrite Hnode. destruct (decide (addr' = addr)) as [->|Hne].
    + rewrite lookup_insert_eq. split; [intros [= ->]; by case_decide|]. case_decide; [congruence|].
      intros Hj%(eo_nodes _ _ _ Hok). congruence.
    + rewrite lookup_insert_ne by done. rewrite (eo_nodes _ _ _ Hok). case_decide; [|done]. subst.
      rewrite Hfresh. split; [done|congruence].
  - intros id E d e HT HE. destruct (eo_edges _ _ _ Hok _ _ _ _ HT HE) as (a & b & data & He & Hid & Ha & Hb).
    exists a, b, data. rewrite Hedge. split_and!; [done|done|..]; (rewrite lookup_insert_ne; [done|congruence]).
  - intros e a b data. rewrite Hedge. apply (eo_known _ _ _ Hok).
Qed.

Lemma get_or_create_node_spec m addr T : edges_ok (pm_graph m) (pm_node_map m) T ->
  let '(m', i) := get_or_create_node m addr in
  edges_ok (pm_graph m') (pm_node_map m') T /\ pm_edge_map m' = pm_edge_map m /\
  pm_node_map m ⊆ pm_node_map m' /\ pm_node_map m' !! addr = Some i.
Proof.
  intros Hok. unfold get_or_create_node, find_node. destruct (pm_node_map m !! addr) as [i|] eqn:Hi; [done|].
  pose proof (edges_ok_add_node _ _ _ addr Hok Hi) as Hok'. destruct (add_node (pm_graph m) addr) as [graph i].
  cbn [fst snd pm_graph pm_node_map pm_edge_map] in *. split_and!; [done|done|by apply insert_subseteq|apply lookup_insert_eq].
Qed.

Lemma insert_edge_spec m T id E d : edges_ok (pm_graph m) (pm_node_map m) (<[id := E]> T) ->
  let '(m', E') := insert_edge id (m, E) d in
  edges_ok (pm_graph m') (pm_node_map m') (<[id := E']> T) /\ pm_edge_map m' = pm_edge_map m /\
  dom E' = {[ d ]} ∪ dom E.
Proof.
  intros Hok. unfold insert_edge. destruct (E !! d) as [e|] eqn:HE.
  { split_and!; [done|done|]. assert (d ∈ dom E) by (apply elem_of_dom; by eexists). set_solver. }
  pose proof (get_or_create_node_spec m d.1 _ Hok) as Ha. destruct (get_or_create_node m d.1) as [m1 from].
  destruct Ha as (Hok1 & Hm1 & _ & Hfrom).
  pose proof (get_or_create_node_spec m1 d.2 _ Hok1) as Hb. destruct (get_or_create_node m1 d.2) as [m2 to].
  destruct Hb as (Hok2 & Hm2 & Hsub & Hto). pose proof (lookup_weaken _ _ _ _ Hfrom Hsub) as Hfrom2.
  pose proof (add_edge_fresh (pm_graph m2) from to (EdgeData_new (D:=D) id)) as Hfresh.
  pose proof (add_edge_edge (pm_graph m2) from to (EdgeData_new (D:=D) id)) as Hadd.
  pose proof (add_edge_node (pm_graph m2) from to (EdgeData_new (D:=D) id)) as Hnode.
  destruct (add_edge (pm_graph m2) from to (EdgeData_new id)) as [graph e]. cbn [fst snd] in *. cbn [with_graph pm_graph pm_node_map pm_edge_map].
  split_and!; [|congruence|apply dom_insert_L]. split.
  - intros addr i. rewrite Hnode. apply (eo_nodes _ _ _ Hok2).
  - intros id' E' d' e' HT HE'. rewrite Hadd.
    assert ((id' = id /\ d' = d /\ e' = e) \/ exists Q, <[id := E]> T !! id' = Some Q /\ Q !! d' = Some e') as [(-> & -> & ->)|(Q & HQ & HQd)].
    { apply lookup_insert_Some in HT as [[<- <-]|[Hne HT]].
      - apply lookup_insert_Some in HE' as [[<- <-]|[Hd HE']]; [by left|]. right. exists E. by rewrite lookup_insert_eq.
      - right. exists E'. by rewrite lookup_insert_ne. }
    + rewrite decide_True by done. by exists from, to, (EdgeData_new id).
    + destruct (eo_edges _ _ _ Hok2 _ _ _ _ HQ HQd) as (a & b & data & He & Hrest).
      rewrite decide_False by congruence. by exists a, b, data.
  - intros e' a b data. rewrite Hadd. case_decide as Hee.
    + intros [= <- <- <-]. exists (<[d := e]> E), d. cbn. subst e'. by rewrite !lookup_insert_eq.
    + intros He'. destruct (eo_known _ _ _ Hok2 _ _ _ _ He') as (E' & d' & HT & HE').
      apply lookup_insert_Some in HT as [[Hid <-]|[Hid HT]].
      * exists (<[d := e]> E), d'. rewrite <- Hid, lookup_insert_eq, lookup_insert_ne; [done|]. congruence.
      * exists E', d'. by rewrite lookup_insert_ne.
Qed.

Lemma insert_edges_spec (ds : list SwapDirection) m T id E : edges_ok (pm_graph m) (pm_node_map m) (<[id := E]> T) ->
  let '(m', E') := fold_left (insert_edge id) ds (m, E) in
  edges_ok (pm_graph m') (pm_node_map m') (<[id := E']> T) /\ pm_edge_map m' = pm_edge_map m /\
  dom E' = list_to_set ds ∪ dom E.
Proof.
  revert m E. induction ds as [|d ds IH]; intros m E Hok; cbn [fold_left].
  { split_and!; [done|done|set_solver]. }
  pose proof (insert_edge_spec m T id E d Hok) as Hone. destruct (insert_edge id (m, E) d) as [m1 E1].
  destruct Hone as (Hok1 & Hm1 & Hdom1). specialize (IH m1 E1 Hok1). destruct (fold_left _ ds (m1, E1)) as [m2 E2].
  destruct IH as (Hok2 & Hm2 & Hdom2). split_and!; [done|congruence|]. rewrite Hdom2, Hdom1. cbn. set_solver.
Qed.

Definition petgraph_ok m : Prop := edges_ok (pm_graph m) (pm_node_map m) (pm_edge_map m).

Definition petgraph_directions m : gmap ComponentId (gset SwapDirection) := dom <$> pm_edge_map m.

Lemma petgraph_ok_new : petgraph_ok PetgraphManager_new.
Proof.
  split; cbn.
  - intros addr i. by rewrite node_weight_empty, lookup_empty.
  - intros id E d e. by rewrite lookup_empty.
  - intros e a b data. by rewrite edge_empty.
Qed.

Lemma edges_ok_untracked graph nodes T id : edges_ok graph nodes T -> T !! id = None ->
  edges_ok graph nodes (<[id := ∅]> T).
Proof.
  intros [Hn He Hk] HT. split; [done|..].
  - intros id' E d e [[<- <-]|[_ HT']]%lookup_insert_Some; [by rewrite lookup_empty|]. by apply (He id' E d e).
  - intros e a b data Hedge. destruct (Hk _ _ _ _ Hedge) as (E & d & HT' & HE). exists E, d.
    split; [|done]. rewrite lookup_insert_ne by congruence. done.
Qed.

Lemma sync_component_edges_spec m id (directions : list SwapDirection) : petgraph_ok m ->
  let m' := sync_component_edges m id directions in
  petgraph_ok m' /\ petgraph_directions m' = <[id := list_to_set directions]> (petgraph_directions m).
Proof.
  intros Hok. cbv zeta. unfold sync_component_edges.
  assert (edges_ok (pm_graph m) (pm_node_map m) (<[id := default ∅ (pm_edge_map m !! id)]> (pm_edge_map m))) as Htr.
  { destruct (pm_edge_map m !! id) as [E|] eqn:HT; cbn [default]; [by rewrite insert_id|by apply edges_ok_untracked]. }
  set (E := default ∅ (pm_edge_map m !! id)) in *. clearbody E.
  set (Q := filter (fun entry => entry.1 ∈ directions) E).
  assert (edges_ok (remove_edges (pm_graph m) (filter (fun entry => entry.1 ∉ directions) E)) (pm_node_map m)
    (<[id := Q]> (pm_edge_map m))) as Hok1.
  { apply (remove_edges_ok _ _ id _ (pm_graph m) E Q Htr); [apply NoDup_fst_map_to_list|..].
    - by intros d e [? _]%elem_of_map_to_list%map_lookup_filter_Some.
    - intros d. case_decide as Hin.
      + apply list_elem_of_fmap in Hin as ([d' e] & -> & [_ Hd]%elem_of_map_to_list%map_lookup_filter_Some).
        apply map_lookup_filter_None. right. by intros ? _ ?.
      + destruct (E !! d) as [e|] eqn:HE; [|apply map_lookup_filter_None; by left].
        apply map_lookup_filter_Some. split; [done|]. cbn. destruct (decide (d ∈ directions)) as [|Hd]; [done|].
        exfalso. apply Hin. apply (list_elem_of_fmap_2 fst _ (d, e)). by apply elem_of_map_to_list, map_lookup_filter_Some. }
  pose proof (insert_edges_spec directions (with_graph m (remove_edges (pm_graph m)
    (filter (fun entry => entry.1 ∉ directions) E))) (pm_edge_map m) id Q Hok1) as Hins.
  destruct (fold_left _ _ _) as [m' E']. destruct Hins as (Hok2 & Hm2 & Hdom). cbn [pm_edge_map with_graph] in Hm2.
  unfold petgraph_ok, petgraph_directions, with_edges. cbn [pm_graph pm_node_map pm_edge_map]. rewrite Hm2.
  split; [done|]. rewrite fmap_insert. f_equal. rewrite Hdom.
  assert (dom Q ⊆ list_to_set directions); [|set_solver].
  intros d [e [_ Hd]%map_lookup_filter_Some]%elem_of_dom. by apply elem_of_list_to_set.
Qed.

Lemma drop_component_spec m missing id : petgraph_ok m ->
  let '(m', missing') := drop_component (m, missing) id in
  petgraph_ok m' /\ petgraph_directions m' = delete id (petgraph_directions m) /\
  missing' = (if bool_decide (is_Some (petgraph_directions m !! id)) then missing else missing ++ [id]).
Proof.
  intros Hok. unfold drop_component, remove_component_edges, petgraph_directions. rewrite lookup_fmap.
  destruct (pm_edge_map m !! id) as [E|] eqn:HT; cbn.
  2: { split_and!; [done| |done]. symmetry. apply delete_id. by rewrite lookup_fmap, HT. }
  split_and!; [|apply fmap_delete|done].
  assert (edges_ok (remove_edges (pm_graph m) E) (pm_node_map m) (<[id := ∅]> (pm_edge_map m))) as [Hn He Hk].
  { apply (remove_edges_ok _ _ id _ (pm_graph m) E ∅); [by rewrite insert_id|apply NoDup_fst_map_to_list|..].
    - intros d e. by rewrite elem_of_map_to_list.
    - intros d. rewrite lookup_empty. case_decide as Hin; [done|]. destruct (E !! d) as [e|] eqn:HE; [|done].
      exfalso. apply Hin, (list_elem_of_fmap_2 fst _ (d, e)). by apply elem_of_map_to_list. }
  split; cbn; [done|..].
  - intros id' E' d e [Hne HT']%lookup_delete_Some. apply (He id' E' d e). by rewrite lookup_insert_ne.
  - intros e a b data Hedge. destruct (Hk _ _ _ _ Hedge) as (E' & d & HT' & HE'). exists E', d. split; [|done].
    apply lookup_insert_Some in HT' as [[Hid <-]|[Hid HT']]; [by rewrite lookup_empty in HE'|].
    by rewrite lookup_delete_ne.
Qed.

Lemma create_nodes_ok m (addrs : list Address) : petgraph_ok m ->
  petgraph_ok (create_nodes m addrs) /\ pm_edge_map (create_nodes m addrs) = pm_edge_map m.
Proof.
  unfold create_nodes. revert m. induction addrs as [|addr addrs IH]; intros m Hok; [done|]. cbn [fold_left].
  pose proof (get_or_create_node_spec m addr _ Hok) as Hone. destruct (get_or_create_node m addr) as [m1 i].
  destruct Hone as (Hok1 & Hm1 & _). cbn [fst]. destruct (IH m1) as [Hok2 Hm2]; [by unfold petgraph_ok; rewrite Hm1|].
  split; [done|congruence].
Qed.

Lemma add_component_edges_spec m invalid id topology : petgraph_ok m ->
  let '(m', invalid') := add_component_edges (m, invalid) (id, topology) in
  petgraph_ok m' /\
  petgraph_directions m' = (if too_few topology then petgraph_directions m
                            else <[id := direction_set topology]> (petgraph_directions m)) /\
  invalid' = (if too_few topology then invalid ++ [id] else invalid).
Proof.
  intros Hok. unfold add_component_edges. cbn [fst snd]. fold (too_few topology). destruct (too_few topology); [done|].
  destruct (create_nodes_ok m (merge_sort String.le (tp_tokens topology)) Hok) as [Hok1 Hm1].
  destruct (sync_component_edges_spec _ id (tp_swap_directions topology) Hok1) as [Hok2 Hd2].
  split_and!; [done| |done]. rewrite Hd2. unfold petgraph_directions. by rewrite Hm1.
Qed.

Lemma petgraph_event_spec m event : petgraph_ok m ->
  let '(m', r) := handle_event m event in
  petgraph_ok m' /\ (forall id, petgraph_directions m' !! id = after_directions event (petgraph_directions m) id) /\
  r = match batch_errors event (petgraph_directions m) with [] => Ok tt | errors => Err errors end.
Proof.
  intros Hok. unfold handle_event, add_components, remove_components.
  pose proof (event_table petgraph_ok petgraph_directions add_component_edges drop_component
    add_component_edges_spec drop_component_spec m event Hok) as Hev.
  destruct (fold_left add_component_edges _ _) as [m1 invalid]. destruct (fold_left drop_component _ _) as [m2 missing].
  destruct Hev as (Hok2 & Hd2 & Herr). split_and!; [done|done|]. rewrite <- Herr.
  by destruct invalid, missing.
Qed.

(** ** Edges and directions *)

(** An edge of a component for a direction. *)
Definition direction_edge m id d e : Prop := exists a b data,
  edge (pm_graph m) e = Some (a, b, data) /\ ed_component_id data = id /\
  node_weight (pm_graph m) a = Some d.1 /\ node_weight (pm_graph m) b = Some d.2.

Lemma direction_edge_iff m id d e : petgraph_ok m ->
  direction_edge m id d e <-> exists E, pm_edge_map m !! id = Some E /\ E !! d = Some e.
Proof.
  intros Hok. split.
  - intros (a & b & data & He & <- & Ha & Hb). destruct (eo_known _ _ _ Hok _ _ _ _ He) as (E & d' & HT & HE).
    destruct (eo_edges _ _ _ Hok _ _ _ _ HT HE) as (a' & b' & data' & He' & _ & Ha' & Hb').
    rewrite He in He'. injection He' as <- <- _. apply (eo_nodes _ _ _ Hok) in Ha', Hb'.
    assert (d' = d) as -> by (destruct d, d'; cbn in *; congruence). by exists E.
  - intros (E & HT & HE). destruct (eo_edges _ _ _ Hok _ _ _ _ HT HE) as (a & b & data & He & Hid & Ha & Hb).
    exists a, b, data. apply (eo_nodes _ _ _ Hok) in Ha, Hb. done.
Qed.

(** A component has one edge for each direction it offers, and no other. *)
Lemma petgraph_lists m id d : petgraph_ok m ->
  (offers (petgraph_directions m) id d <-> exists e, direction_edge m id d e) /\
  (forall e e', direction_edge m id d e -> direction_edge m id d e' -> e = e').
Proof.
  intros Hok. split.
  - unfold offers, petgraph_directions. rewrite lookup_fmap. split.
    + intros (ds & HT & Hd). destruct (pm_edge_map m !! id) as [E|] eqn:HE; [|done]. injection HT as <-.
      apply elem_of_dom in Hd as [e He]. exists e. apply direction_edge_iff; [done|]. by exists E.
    + intros (e & (E & -> & HE)%direction_edge_iff); [|done]. exists (dom E). split; [done|]. apply elem_of_dom. by exists e.
  - intros e e' (E & HT & HE)%direction_edge_iff (E' & HT' & HE')%direction_edge_iff; [|done..]. congruence.
Qed.
End manager.

(** ** Initialization, and any sequence of events *)

Section initialized.
Context {D : Type} `{DiGraph (EdgeData D)}.
Implicit Types (m : PetgraphStableDiGraphManager) (listing : gmap ComponentId ComponentTopology).

Lemma make_nodes_ok (addrs : list Address) m : petgraph_ok m -> NoDup addrs ->
  (forall addr, addr ∈ addrs -> pm_node_map m !! addr = None) ->
  petgraph_ok (fold_left make_node addrs m) /\ pm_edge_map (fold_left make_node addrs m) = pm_edge_map m.
Proof.
  revert m. induction addrs as [|addr addrs IH]; intros m Hok Hnd Hnew; [done|]. cbn [fold_left].
  apply NoDup_cons in Hnd as [Haddr Hnd].
  pose proof (edges_ok_add_node _ _ _ addr Hok (Hnew addr ltac:(left))) as Hok'.
  assert (pm_graph (make_node m addr) = (add_node (pm_graph m) addr).1 /\
    pm_node_map (make_node m addr) = <[addr := (add_node (pm_graph m) addr).2]> (pm_node_map m) /\
    pm_edge_map (make_node m addr) = pm_edge_map m) as (Hg & Hn & Hm)
    by (unfold make_node; by destruct (add_node (pm_graph m) addr)).
  destruct (IH (make_node m addr)) as [Hok2 Hm2]; [by unfold petgraph_ok; rewrite Hg, Hn, Hm|done| |].
  - intros x Hx. rewrite Hn, lookup_insert_ne; [apply Hnew; by right|]. by intros <-.
  - split; [done|congruence].
Qed.

Lemma petgraph_initialize_spec listing :
  petgraph_ok (initialize_graph listing) /\ petgraph_directions (initialize_graph listing) = directions_in listing.
Proof.
  unfold initialize_graph. set (ts := merge_sort String.le _).
  destruct (make_nodes_ok ts PetgraphManager_new) as [Hok Hm].
  - apply petgraph_ok_new.
  - unfold ts. rewrite merge_sort_Permutation. apply NoDup_elements.
  - intros addr _. apply lookup_empty.
  - set (m0 := fold_left make_node ts PetgraphManager_new) in *. unfold add_components.
    pose proof (add_entries_table petgraph_ok petgraph_directions add_component_edges add_component_edges_spec
      (sorted_entries listing) m0 [] Hok (sorted_entries_NoDup listing)) as Ha.
    destruct (fold_left add_component_edges _ _) as [m invalid]. destruct Ha as (Hok' & Hd & _). cbn [fst].
    split; [done|]. apply map_eq. intros id. rewrite Hd, sorted_entries_map. unfold added_directions, petgraph_directions.
    rewrite Hm. cbn [pm_edge_map PetgraphManager_new]. rewrite fmap_empty, lookup_empty. unfold directions_in.
    rewrite lookup_fmap, map_lookup_filter. destruct (listing !! id) as [t|]; [|done].
    cbn. destruct (too_few t); [by rewrite option_guard_False|by rewrite option_guard_True].
Qed.

Definition petgraph_events m (events : list MarketEvent) : PetgraphStableDiGraphManager :=
  fold_left (fun m event => (handle_event m event).1) events m.

Context `{DiGraph (list (EdgeData D))} (NATIVE_WRAP_COMPONENT : ComponentId).

(** Two managers that track the same table keep doing so, with the same answers. *)
Lemma managers_step (t : TopologyGraphManager) m event :
  manager_ok NATIVE_WRAP_COMPONENT t -> petgraph_ok m -> directions_of t = petgraph_directions m ->
  (TokenGraphManager.handle_event NATIVE_WRAP_COMPONENT t event).2 = (handle_event m event).2 /\
  manager_ok NATIVE_WRAP_COMPONENT (TokenGraphManager.handle_event NATIVE_WRAP_COMPONENT t event).1 /\
  petgraph_ok (handle_event m event).1 /\
  directions_of (TokenGraphManager.handle_event NATIVE_WRAP_COMPONENT t event).1
  = petgraph_directions (handle_event m event).1.
Proof.
  intros Ht Hm Heq. pose proof (handle_event_spec NATIVE_WRAP_COMPONENT t event Ht) as Hst.
  pose proof (petgraph_event_spec m event Hm) as Hsm.
  destruct (TokenGraphManager.handle_event NATIVE_WRAP_COMPONENT t event) as [t' r].
  destruct (handle_event m event) as [m' r']. destruct Hst as (Ht' & Hdt & _ & _ & Hr), Hsm as (Hm' & Hdm & Hr').
  cbn [fst snd]. split_and!; [by rewrite Hr, Hr', Heq|done|done|].
  apply map_eq. intros id. by rewrite Hdt, Hdm, Heq.
Qed.

Lemma managers_agree_lemma (events : list MarketEvent) (t : TopologyGraphManager) m :
  manager_ok NATIVE_WRAP_COMPONENT t -> petgraph_ok m -> directions_of t = petgraph_directions m ->
  manager_ok NATIVE_WRAP_COMPONENT (handle_events NATIVE_WRAP_COMPONENT t events) /\
  petgraph_ok (petgraph_events m events) /\
  directions_of (handle_events NATIVE_WRAP_COMPONENT t events) = petgraph_directions (petgraph_events m events).
Proof.
  unfold handle_events, petgraph_events. revert t m. induction events as [|event events IH]; intros t m Ht Hm Heq; [done|].
  cbn [fold_left]. destruct (managers_step t m event Ht Hm Heq) as (_ & Ht' & Hm' & Heq'). by apply IH.
Qed.
End initialized.

(** The two graphs agree. A token graph and an edge-per-direction graph initialized from
    the same components answer every sequence of events alike: their managers track the
    same directions, give the same answer to the next event, and for every component but
    the native wrap and every direction, the token graph lists the component as a pool of
    the pair exactly when the other has an edge for it, and it never has two. *)
Theorem managers_agree {D : Type} `{DiGraph (EdgeData D)} `{DiGraph (list (EdgeData D))} (NATIVE_WRAP_COMPONENT : ComponentId)
    (listing : gmap ComponentId ComponentTopology) (events : list MarketEvent) :
  let t := handle_events NATIVE_WRAP_COMPONENT (TokenGraphManager.initialize_graph NATIVE_WRAP_COMPONENT listing) events in
  let m := petgraph_events (initialize_graph listing) events in
  directions_of t = petgraph_directions m /\
  (forall event, (TokenGraphManager.handle_event NATIVE_WRAP_COMPONENT t event).2 = (handle_event m event).2) /\
  forall id d, id <> NATIVE_WRAP_COMPONENT ->
    (id ∈ ids_of (pools_of t d) <-> exists e, direction_edge m id d e) /\
    forall e e', direction_edge m id d e -> direction_edge m id d e' -> e = e'.
Proof.
  cbv zeta. destruct (initialize_graph_spec NATIVE_WRAP_COMPONENT listing) as (Ht0 & Hd0 & _).
  destruct (petgraph_initialize_spec listing) as [Hm0 Hp0].
  destruct (managers_agree_lemma NATIVE_WRAP_COMPONENT events _ _ Ht0 Hm0 ltac:(congruence)) as (Ht & Hm & Heq).
  split_and!; [done|by intros event; apply (managers_step NATIVE_WRAP_COMPONENT)|]. intros id d Hne.
  destruct (petgraph_lists _ id d Hm) as [Hl Hu]. split; [|done].
  rewrite (proj2 (manager_ok_lists _ _ Ht d) id Hne), Heq. exact Hl.
Qed.
