(* ===== verification/SwapCache.v ===== *)
(** * SwapCache: swaps a solve has already asked a pool

    [fynd-core/src/algorithm/swap_cache.rs] and the panic guard of
    [algorithm/sim_guard.rs]. The cache remembers per pool and direction what each amount
    paid, reads across two close amounts, and refuses amounts above a limit the pool has
    shown. Against a pool that is a function of the amount, whose limit is a size limit
    and whose output is concave, no answer is ever better than the pool's own. *)

From stdpp Require Import prelude gmap sets strings list sorting.
From Stdlib Require Import NArith ZArith Lia.
From S2P Require Import Prelude F64 Types.

#[local] Open Scope N_scope.

(** ** Simulation *)

(** What a pool simulation reports: the fields of [GetAmountOutResult]. *)
Record GetAmountOutResult `{Tycho} := {
  gao_amount : N;
  gao_gas : N;
  gao_new_state : ProtocolSim;
}.

(** The error of [tycho_common]'s simulations; the code matches on its three kinds. A pool
    that turns down its input may say what it would have paid up to its limit. *)
Inductive SimulationError `{Tycho} :=
| InvalidInput (message : string) (partial : option GetAmountOutResult)
| FatalError (message : string)
| RecoverableError (message : string).

(** [ProtocolSim::get_amount_out] is third-party code, and may panic. *)
Class TychoSwaps `{Tycho} : Type := {
  get_amount_out : ProtocolSim -> N -> Token -> Token -> outcome (result SimulationError GetAmountOutResult);
  PANIC_MESSAGE : string;
}.

(** A contained panic is a fatal error. *)
Definition get_amount_out_guarded `{TychoSwaps} (sim : ProtocolSim) (amount_in : N) (token_in token_out : Token)
    : result SimulationError GetAmountOutResult :=
  match get_amount_out sim amount_in token_in token_out with
  | Ret r => r
  | Panic => Err (FatalError PANIC_MESSAGE)
  end.

(** ** The cache *)

Definition INTERPOLATION_GAP_PERCENT : N := 10.

(** A pool and the direction through it: the component, the token in, the token out. *)
Abbreviation PoolDirection := (ComponentId * Address * Address)%type.

Inductive Refusal := OverLimit | Failed.

#[export] Instance Refusal_eq_dec : EqDecision Refusal.
Proof. solve_decision. Defined.

Definition Refusal_of `{Tycho} (error : SimulationError) : Refusal :=
  match error with
  | InvalidInput _ _ => OverLimit
  | FatalError _ | RecoverableError _ => Failed
  end.

Record SwapResult := {
  sr_amount_out : N;
  sr_gas : N;
}.

Record SwappedAmounts := {
  amounts_and_results : list (N * option SwapResult);
  failed_at : option N;
}.

Definition SwappedAmounts_default : SwappedAmounts := {| amounts_and_results := []; failed_at := None |}.

Section swapped_amounts.
Implicit Types (sa : SwappedAmounts) (amount_in : N) (outcome : result Refusal SwapResult).

(** [Result::ok]. *)
Definition ok (outcome : result Refusal SwapResult) : option SwapResult :=
  match outcome with Ok r => Some r | Err _ => None end.

Definition refuses sa amount_in : bool :=
  match failed_at sa with Some refused_from => refused_from <=? amount_in | None => false end.

Definition was_served (entry : N * option SwapResult) : bool :=
  match entry.2 with Some _ => true | None => false end.

Definition record sa (insert_at : nat) amount_in outcome : SwappedAmounts :=
  let before := take insert_at (amounts_and_results sa) in
  let after := drop insert_at (amounts_and_results sa) in
  let amounts := before ++ (amount_in, ok outcome) :: after in
  let kept := {| amounts_and_results := amounts; failed_at := failed_at sa |} in
  match outcome with
  | Err OverLimit =>
      if negb (existsb was_served before) || existsb was_served after then kept
      else {| amounts_and_results := amounts;
              failed_at := Some (match failed_at sa with
                                 | Some already_refused =>
                                     if already_refused <=? amount_in then already_refused else amount_in
                                 | None => amount_in
                                 end) |}
  | _ => kept
  end.

(** [binary_search_by] of a sorted vector: where the amount is, or where it would go. *)
Fixpoint search_amount (entries : list (N * option SwapResult)) amount_in : nat + nat :=
  match entries with
  | [] => inr O
  | (amount, _) :: entries =>
      if amount =? amount_in then inl O
      else if amount_in <? amount then inr O
      else match search_amount entries amount_in with inl i => inl (S i) | inr i => inr (S i) end
  end.

Definition interpolate sa (insert_at : nat) amount_in : option SwapResult :=
  match insert_at with
  | O => None
  | S before =>
      '(lower_amount, lower) ← amounts_and_results sa !! before;
      '(upper_amount, upper) ← amounts_and_results sa !! insert_at;
      lower ← lower;
      upper ← upper;
      let amount_gap := upper_amount - lower_amount in
      if amount_in * INTERPOLATION_GAP_PERCENT <? amount_gap * 100 then None
      else if sr_amount_out upper <? sr_amount_out lower then None
      else
        let output_gap := sr_amount_out upper - sr_amount_out lower in
        let amount_past_lower := amount_in - lower_amount in
        Some {| sr_amount_out := sr_amount_out lower + output_gap * amount_past_lower / amount_gap;
                sr_gas := sr_gas upper |}
  end.

(** What the amounts asked of one direction answer; [simulated] is what the pool would. *)
Definition swap_amount sa amount_in (simulated : result Refusal SwapResult) (may_interpolate : bool)
    : SwappedAmounts * option SwapResult :=
  match search_amount (amounts_and_results sa) amount_in with
  | inl asked_before => (sa, amounts_and_results sa !! asked_before ≫= snd)
  | inr insert_at =>
      if refuses sa amount_in then (sa, None)
      else
        match (if may_interpolate then interpolate sa insert_at amount_in else None) with
        | Some read_across => (sa, Some read_across)
        | None => (record sa insert_at amount_in simulated, ok simulated)
        end
  end.
End swapped_amounts.

Abbreviation SwapCache := (gmap PoolDirection SwappedAmounts) (only parsing).

Definition swap (cache : SwapCache) (direction : PoolDirection) (amount_in : N)
    (simulated : result Refusal SwapResult) (may_interpolate : bool) : SwapCache * option SwapResult :=
  let amounts_swapped := default SwappedAmounts_default (cache !! direction) in
  let '(amounts_swapped, answer) := swap_amount amounts_swapped amount_in simulated may_interpolate in
  (<[direction := amounts_swapped]> cache, answer).

(** ** What the cache holds of a pool *)

Section soundness.
Context (pool : N -> result Refusal SwapResult).
Implicit Types (sa : SwappedAmounts) (a x : N) (entries : list (N * option SwapResult)).

(** A pool that has served an amount and turns down a larger one for its size turns down
    everything beyond. *)
Definition size_limited : Prop := forall a limit x r,
  a < limit -> limit <= x -> pool a = Ok r -> pool limit = Err OverLimit -> ok (pool x) = None.

(** Between two served amounts the pool serves, its output is above the chord, and gas
    does not fall with the amount. *)
Record concave : Prop := {
  cc_between : forall a b x ra rb, a <= x -> x <= b -> pool a = Ok ra -> pool b = Ok rb ->
    exists rx, pool x = Ok rx;
  cc_chord : forall a b x ra rb rx, a < x -> x < b -> pool a = Ok ra -> pool b = Ok rb -> pool x = Ok rx ->
    sr_amount_out ra <= sr_amount_out rb ->
    (sr_amount_out rb - sr_amount_out ra) * (x - a) <= (sr_amount_out rx - sr_amount_out ra) * (b - a) /\
    sr_amount_out ra <= sr_amount_out rx;
  cc_gas : forall a b ra rb, a <= b -> pool a = Ok ra -> pool b = Ok rb -> sr_gas ra <= sr_gas rb;
}.

(** Every remembered amount holds the pool's answer, in ascending order, and a remembered
    refusal is one of size above a served amount. *)
Record amounts_ok sa : Prop := {
  ao_sorted : StronglySorted (fun x y : N * option SwapResult => x.1 < y.1) (amounts_and_results sa);
  ao_true : forall a r, (a, r) ∈ amounts_and_results sa -> r = ok (pool a);
  ao_failed : forall limit, failed_at sa = Some limit ->
    pool limit = Err OverLimit /\ exists a r, a < limit /\ pool a = Ok r;
}.

(** No better than the pool. *)
Definition conservative (answer truth : option SwapResult) : Prop :=
  match answer, truth with
  | Some r, Some t => sr_amount_out r <= sr_amount_out t /\ sr_gas t <= sr_gas r
  | None, None => True
  | _, _ => False
  end.

Lemma conservative_refl answer : conservative answer answer.
Proof. destruct answer; cbn; [lia|done]. Qed.

Lemma amounts_ok_default : amounts_ok SwappedAmounts_default.
Proof. split; cbn; [constructor|by intros a r []%not_elem_of_nil|done]. Qed.

Lemma search_amount_found entries x i : search_amount entries x = inl i ->
  exists r, entries !! i = Some (x, r).
Proof.
  revert i. induction entries as [|[a r] entries IH]; intros i; [done|]. cbn.
  destruct (N.eqb_spec a x) as [->|_]; [intros [= <-]; by exists r|]. destruct (x <? a); [done|].
  destruct (search_amount entries x) as [j|j]; [|done]. intros [= <-]. by apply IH.
Qed.

(** Everything before the insertion point is smaller, everything from it on is larger. *)
Lemma search_amount_insert entries x i :
  StronglySorted (fun x y : N * option SwapResult => x.1 < y.1) entries -> search_amount entries x = inr i ->
  (i <= length entries)%nat /\ Forall (fun entry => entry.1 < x) (take i entries) /\
  Forall (fun entry => x < entry.1) (drop i entries).
Proof.
  revert i. induction entries as [|[a r] entries IH]; intros i; [by intros _ [= <-]|].
  intros [Hs Hall]%StronglySorted_inv. cbn [search_amount].
  destruct (N.eqb_spec a x) as [|Hne]; [done|]. destruct (N.ltb_spec x a) as [Hlt|Hge].
  - intros [= <-]. split; [lia|]. split; [constructor|]. cbn. constructor; [done|].
    apply (Forall_impl _ _ _ Hall). intros [b s] Hb. cbn in *. lia.
  - destruct (search_amount entries x) as [j|j]; [done|]. intros [= <-]. destruct (IH j Hs eq_refl) as (Hl & Ht & Hd).
    cbn. split; [lia|]. split; [|done]. constructor; [cbn; lia|done].
Qed.

Lemma record_amounts sa i x outcome :
  amounts_and_results (record sa i x outcome)
  = take i (amounts_and_results sa) ++ (x, ok outcome) :: drop i (amounts_and_results sa).
Proof. unfold record. destruct outcome as [r|[]]; [done| |done]. by destruct (_ || _). Qed.

Lemma insert_sorted entries x i r :
  StronglySorted (fun x y : N * option SwapResult => x.1 < y.1) entries -> search_amount entries x = inr i ->
  StronglySorted (fun x y : N * option SwapResult => x.1 < y.1) (take i entries ++ (x, r) :: drop i entries).
Proof.
  intros Hs Hx. destruct (search_amount_insert entries x i Hs Hx) as (_ & Hbefore & Hafter).
  rewrite <- (take_drop i entries) in Hs. apply StronglySorted_app in Hs as (Hcross & Hst & Hsd).
  apply StronglySorted_app. split_and!; [|done|].
  - intros y z Hy [->|Hz]%elem_of_cons; [|by apply Hcross]. cbn. by eapply Forall_forall in Hbefore.
  - constructor; [done|]. exact Hafter.
Qed.

Lemma record_failed sa i x outcome limit : failed_at (record sa i x outcome) = Some limit ->
  failed_at sa = Some limit \/
  (limit = x /\ outcome = Err OverLimit /\ existsb was_served (take i (amounts_and_results sa)) = true).
Proof.
  unfold record. destruct outcome as [r|[]]; [by left| |by left].
  destruct (existsb was_served (take i _)) eqn:Hb, (existsb was_served (drop i _)); cbn [negb orb]; try by left.
  cbn. destruct (failed_at sa) as [refused|].
  - destruct (N.leb_spec refused x); intros [= <-]; [by left|by right].
  - intros [= <-]. by right.
Qed.

Lemma record_ok sa i x : amounts_ok sa -> search_amount (amounts_and_results sa) x = inr i ->
  amounts_ok (record sa i x (pool x)).
Proof.
  intros Hok Hx. destruct (search_amount_insert _ x i (ao_sorted sa Hok) Hx) as (_ & Hbefore & _). split.
  - rewrite record_amounts. apply insert_sorted; [apply (ao_sorted sa Hok)|done].
  - intros a r. rewrite record_amounts. intros [Hin|[[= -> ->]|Hin]%elem_of_cons]%elem_of_app.
    + apply (ao_true sa Hok). by apply (subseteq_take i).
    + done.
    + apply (ao_true sa Hok). by apply (subseteq_drop i).
  - intros limit [Hf|(-> & Hp & Hs)]%record_failed; [by apply (ao_failed sa Hok)|]. split; [done|].
    apply existsb_exists in Hs as ([a r] & Hin%list_elem_of_In & Hserved).
    assert (r = ok (pool a)) as -> by (apply (ao_true sa Hok); by apply (subseteq_take i)).
    exists a. unfold was_served in Hserved. cbn in Hserved.
    destruct (pool a) as [ra|] eqn:Ha; [|done]. exists ra. split; [|done].
    by eapply Forall_forall in Hbefore; [|exact Hin].
Qed.

(** Reading across two amounts comes out low, never high. *)
Lemma interpolate_conservative sa i x r : amounts_ok sa -> concave ->
  search_amount (amounts_and_results sa) x = inr i -> interpolate sa i x = Some r ->
  conservative (Some r) (ok (pool x)).
Proof.
  intros Hok Hcc Hx. destruct (search_amount_insert _ x i (ao_sorted sa Hok) Hx) as (_ & Hbefore & Hafter).
  unfold interpolate. destruct i as [|before]; [done|].
  destruct (amounts_and_results sa !! before) as [[lower_amount [lower|]]|] eqn:Hl; [|by cbn; destruct (_ !! S before) as [[]|]|done].
  destruct (amounts_and_results sa !! S before) as [[upper_amount [upper|]]|] eqn:Hu; [|done|done].
  cbn [mbind option_bind]. destruct (_ <? (upper_amount - lower_amount) * 100); [done|].
  destruct (N.ltb_spec (sr_amount_out upper) (sr_amount_out lower)) as [|Hle]; [done|]. intros [= <-].
  assert (lower_amount < x) as Hlx.
  { eapply (Forall_lookup_1 _ _ before (lower_amount, Some lower)) in Hbefore; [done|].
    rewrite lookup_take_lt by lia. done. }
  assert (x < upper_amount) as Hxu.
  { eapply (Forall_lookup_1 _ _ O (upper_amount, Some upper)) in Hafter; [done|].
    by rewrite lookup_drop, Nat.add_0_r. }
  pose proof (ao_true sa Hok lower_amount (Some lower) ltac:(by eapply list_elem_of_lookup_2)) as Htl.
  pose proof (ao_true sa Hok upper_amount (Some upper) ltac:(by eapply list_elem_of_lookup_2)) as Htu.
  destruct (pool lower_amount) as [rl|] eqn:Hpl; [|done]. injection Htl as ->.
  destruct (pool upper_amount) as [ru|] eqn:Hpu; [|done]. injection Htu as ->.
  destruct (cc_between Hcc lower_amount upper_amount x rl ru ltac:(lia) ltac:(lia) Hpl Hpu) as [rx Hpx].
  rewrite Hpx. cbn. split; [|exact (cc_gas Hcc x upper_amount rx ru ltac:(lia) Hpx Hpu)].
  destruct (cc_chord Hcc lower_amount upper_amount x rl ru rx Hlx Hxu Hpl Hpu Hpx Hle) as [Hchord Hlow].
  assert ((sr_amount_out ru - sr_amount_out rl) * (x - lower_amount) / (upper_amount - lower_amount)
    <= sr_amount_out rx - sr_amount_out rl) as Hdiv; [|lia].
  apply N.Div0.div_le_upper_bound. lia.
Qed.

Lemma swap_amount_sound sa x may_interpolate : amounts_ok sa -> size_limited -> (may_interpolate = true -> concave) ->
  let '(sa', answer) := swap_amount sa x (pool x) may_interpolate in
  amounts_ok sa' /\ conservative answer (ok (pool x)) /\ (may_interpolate = false -> answer = ok (pool x)).
Proof.
  intros Hok Hlim Hcc. unfold swap_amount. destruct (search_amount _ x) as [i|i] eqn:Hx.
  - destruct (search_amount_found _ _ _ Hx) as [r Hr]. rewrite Hr. cbn.
    rewrite (ao_true sa Hok x r) by by eapply list_elem_of_lookup_2. split_and!; [done|apply conservative_refl|done].
  - unfold refuses. destruct (failed_at sa) as [limit|] eqn:Hf.
    + destruct (ao_failed sa Hok limit Hf) as (Hp & a & ra & Ha & Hra). destruct (N.leb_spec limit x) as [Hle|Hlt].
      * rewrite (Hlim a limit x ra) by done. split_and!; [done|done|done].
      * destruct may_interpolate; [destruct (interpolate sa i x) as [r|] eqn:Hi|].
        -- split_and!; [done|by apply (interpolate_conservative sa i); [|apply Hcc|..]|done].
        -- split_and!; [by apply record_ok|apply conservative_refl|done].
        -- split_and!; [by apply record_ok|apply conservative_refl|done].
    + destruct may_interpolate; [destruct (interpolate sa i x) as [r|] eqn:Hi|].
      * split_and!; [done|by apply (interpolate_conservative sa i); [|apply Hcc|..]|done].
      * split_and!; [by apply record_ok|apply conservative_refl|done].
      * split_and!; [by apply record_ok|apply conservative_refl|done].
Qed.
End soundness.

(** ** A whole solve's cache *)

Section cache.
Context (pools : PoolDirection -> N -> result Refusal SwapResult).
Implicit Types (cache : SwapCache) (direction : PoolDirection).

Definition cache_ok cache : Prop := map_Forall (fun direction sa => amounts_ok (pools direction) sa) cache.

Lemma cache_ok_empty : cache_ok ∅.
Proof. apply map_Forall_empty. Qed.

Lemma swap_sound cache direction amount_in may_interpolate : cache_ok cache ->
  size_limited (pools direction) -> (may_interpolate = true -> concave (pools direction)) ->
  let '(cache', answer) := swap cache direction amount_in (pools direction amount_in) may_interpolate in
  cache_ok cache' /\ conservative answer (ok (pools direction amount_in)) /\
  (may_interpolate = false -> answer = ok (pools direction amount_in)).
Proof.
  intros Hok Hlim Hcc. unfold swap.
  assert (amounts_ok (pools direction) (default SwappedAmounts_default (cache !! direction))) as Hsa.
  { destruct (cache !! direction) as [sa|] eqn:Hd; cbn; [exact (Hok _ _ Hd)|apply amounts_ok_default]. }
  pose proof (swap_amount_sound (pools direction) _ amount_in may_interpolate Hsa Hlim Hcc) as Hs.
  destruct (swap_amount _ _ _ _) as [sa' answer]. destruct Hs as (Hsa' & Hcons & Hexact).
  split_and!; [|done|done]. by apply map_Forall_insert_2.
Qed.

(** The answers to a sequence of questions, each with whether it may be read across. *)
Fixpoint answers cache (questions : list (PoolDirection * N * bool)) : list (option SwapResult) :=
  match questions with
  | [] => []
  | (direction, amount_in, may_interpolate) :: questions =>
      let '(cache, answer) := swap cache direction amount_in (pools direction amount_in) may_interpolate in
      answer :: answers cache questions
  end.
End cache.

(** A solve that asks through the cache is never told more than the pools would pay.
    Over any sequence of questions to any pools, starting from an empty cache, when a
    pool's refusals of size hold for every larger amount, its output is concave and its
    gas does not fall: an answer is given exactly when the pool serves the amount, its
    output is at most the pool's and its gas at least the pool's; and a question that must
    not be read across gets exactly the pool's answer. *)
Theorem swap_cache_sound (pools : PoolDirection -> N -> result Refusal SwapResult)
    (questions : list (PoolDirection * N * bool)) :
  (forall direction, size_limited (pools direction)) ->
  (forall direction amount_in, (direction, amount_in, true) ∈ questions -> concave (pools direction)) ->
  Forall2 (fun question answer =>
    conservative answer (ok (pools question.1.1 question.1.2)) /\
    (question.2 = false -> answer = ok (pools question.1.1 question.1.2))) questions (answers pools ∅ questions).
Proof.
  intros Hlim. generalize (cache_ok_empty pools). generalize (∅ : SwapCache).
  induction questions as [|[[direction amount_in] flag] questions IH]; intros cache Hok Hcc; [constructor|].
  cbn [answers].
  assert (flag = true -> concave (pools direction)) as Hc by (intros ->; eapply Hcc; left).
  pose proof (swap_sound pools cache direction amount_in flag Hok (Hlim direction) Hc) as Hs.
  destruct (swap _ _ _ _ _) as [cache' answer]. destruct Hs as (Hok' & Hcons & Hexact).
  constructor; [done|]. apply IH; [done|]. intros d a Hin. apply (Hcc d a). by right.
Qed.

(** A pool that pays two for one up to a limit, and turns everything beyond it down. *)
Definition limited_pool (_ : PoolDirection) (amount_in : N) : result Refusal SwapResult :=
  if amount_in <=? 1000 then Ok {| sr_amount_out := 2 * amount_in; sr_gas := 100 |} else Err OverLimit.

Lemma limited_pool_inv d a r : limited_pool d a = Ok r -> a <= 1000 /\ sr_amount_out r = 2 * a /\ sr_gas r = 100.
Proof. unfold limited_pool. destruct (N.leb_spec a 1000); [by intros [= <-]|done]. Qed.

Lemma swap_cache_sound_witness :
  let questions := [(("p", "A", "B"), 1000, true); (("p", "A", "B"), 980, true); (("p", "A", "B"), 990, true);
                    (("p", "A", "B"), 5000, true); (("p", "A", "B"), 6000, false)]%string in
  answers limited_pool ∅ questions
  = [Some {| sr_amount_out := 2000; sr_gas := 100 |}; Some {| sr_amount_out := 1960; sr_gas := 100 |};
     Some {| sr_amount_out := 1980; sr_gas := 100 |}; None; None] /\
  Forall2 (fun question answer =>
    conservative answer (ok (limited_pool question.1.1 question.1.2)) /\
    (question.2 = false -> answer = ok (limited_pool question.1.1 question.1.2)))
    questions (answers limited_pool ∅ questions).
Proof.
  split; [by vm_compute|]. apply (swap_cache_sound limited_pool).
  - intros d a limit x r _ Hle _. unfold limited_pool. destruct (N.leb_spec limit 1000); [done|].
    destruct (N.leb_spec x 1000); [lia|done].
  - intros d _ _. split.
    + intros a b x ra rb _ Hxb _ [Hb _]%limited_pool_inv. unfold limited_pool.
      destruct (N.leb_spec x 1000); [by eexists|lia].
    + intros a b x ra rb rx Hax Hxb (_ & Ha & _)%limited_pool_inv (_ & Hb & _)%limited_pool_inv
        (_ & Hx & _)%limited_pool_inv _. rewrite Ha, Hb, Hx. split; [|lia]. nia.
    + intros a b ra rb _ (_ & _ & ->)%limited_pool_inv (_ & _ & ->)%limited_pool_inv. done.
Defined.
