(* ===== verification/Algorithm.v ===== *)
(** * Algorithm: what an algorithm is configured with, given and returns

    The configuration and the errors of [fynd-core/src/algorithm/mod.rs], the parts of a
    solve request of [algorithm/request.rs] and the [RouteResult] of [types/quote.rs]. *)

From stdpp Require Import prelude gmap strings list pretty.
From Stdlib Require Import NArith ZArith Lia.
From S2P Require Import Prelude F64 Types Route DerivedStore SpotPriceComputation MarketData SwapCache.

#[local] Open Scope nat_scope.

(** What the algorithms read of a gas price: its effective price in wei. *)
Class TychoGas `{TychoMarket} : Type := {
  effective_gas_price : BlockGasPrice -> N;
}.

(** How the program prints an address, an error of a simulation, of a route, and of a label
    that is not found; the results only carry the text. *)
Class Messages `{Tycho} : Type := {
  show_address_debug : Address -> string;
  show_simulation_error : SimulationError -> string;
  show_route_error : RouteValidationError -> string;
  show_label_not_found : StateLabel -> string;
}.

(** ** Configuration *)

(** A [Duration] is its nanoseconds. *)
Record AlgorithmConfig := {
  ac_min_hops : nat;
  ac_max_hops : nat;
  ac_timeout : N;
  ac_max_routes : option nat;
  ac_gas_aware : bool;
  ac_connector_tokens : option (gset Address);
}.

Definition AlgorithmConfig_new (min_hops max_hops : nat) (timeout : N) (max_routes : option nat)
    : result AlgorithmError AlgorithmConfig :=
  if min_hops =? 0 then Err (AE_InvalidConfiguration "min_hops must be at least 1")
  else if max_hops <? min_hops
  then Err (AE_InvalidConfiguration
              ("min_hops (" +:+ pretty min_hops +:+ ") cannot exceed max_hops (" +:+ pretty max_hops +:+ ")"))
  else if decide (max_routes = Some 0) then Err (AE_InvalidConfiguration "max_routes must be at least 1")
  else Ok {| ac_min_hops := min_hops; ac_max_hops := max_hops; ac_timeout := timeout;
             ac_max_routes := max_routes; ac_gas_aware := true; ac_connector_tokens := None |}.

Definition with_gas_aware (config : AlgorithmConfig) (enabled : bool) : AlgorithmConfig :=
  {| ac_min_hops := ac_min_hops config; ac_max_hops := ac_max_hops config; ac_timeout := ac_timeout config;
     ac_max_routes := ac_max_routes config; ac_gas_aware := enabled;
     ac_connector_tokens := ac_connector_tokens config |}.

Definition with_connector_tokens (config : AlgorithmConfig) (tokens : gset Address) : AlgorithmConfig :=
  {| ac_min_hops := ac_min_hops config; ac_max_hops := ac_max_hops config; ac_timeout := ac_timeout config;
     ac_max_routes := ac_max_routes config; ac_gas_aware := ac_gas_aware config;
     ac_connector_tokens := Some tokens |}.

(** [Duration::as_millis() as u64]. *)
Definition as_millis (timeout : N) : N := ((timeout / 1000000) mod (u64_MAX + 1))%N.

(** [impl From<RouteValidationError> for AlgorithmError]. *)
Definition AlgorithmError_from `{Messages} (error : RouteValidationError) : AlgorithmError :=
  AE_Other (show_route_error error).

(** ** What an algorithm is given, and what it returns *)

Record SolveParts `{TychoMarket} (G : Type) := {
  so_graph : G;
  so_order : Order;
  so_market : MarketData;
  so_label : option StateLabel;
  so_derived : option DerivedData;
  so_constraints : ResolvedRouteConstraints;
}.
Arguments so_graph {_ _ G} _.
Arguments so_order {_ _ G} _.
Arguments so_market {_ _ G} _.
Arguments so_label {_ _ G} _.
Arguments so_derived {_ _ G} _.
Arguments so_constraints {_ _ G} _.

Record Commitment := {
  cm_committed_amount_out : N;
  cm_reference_amount_out : N;
}.

Record RouteResult `{Tycho} := {
  rr_route : Route;
  rr_net_amount_out : Z;
  rr_gas_price : N;
  rr_commitment : option Commitment;
}.

Definition RouteResult_new `{Tycho} (route : Route) (net_amount_out : Z) (gas_price : N) : RouteResult :=
  {| rr_route := route; rr_net_amount_out := net_amount_out; rr_gas_price := gas_price; rr_commitment := None |}.

Definition with_commitment `{Tycho} (r : RouteResult) (committed_amount_out reference_amount_out : N) : RouteResult :=
  {| rr_route := rr_route r; rr_net_amount_out := rr_net_amount_out r; rr_gas_price := rr_gas_price r;
     rr_commitment := Some {| cm_committed_amount_out := committed_amount_out;
                              cm_reference_amount_out := reference_amount_out |} |}.
