(* ===== verification/PathScoring.v ===== *)
(** * PathScoring: choosing a pool for each leg of a token path

    [fynd-core/src/algorithm/path_scoring.rs]. A token path is ranked by its edge weights,
    then walked: on each leg the pool that pays most net of its own gas is taken, a pool
    the path has crossed is withheld, and the pool that won a pair is remembered. What a
    pool pays is the caller's: the walk threads the caller's state through every question.
    The theorems: the scan of a pair takes the first pool of greatest net; the walk never
    panics, never crosses a pool twice, and fails only at a leg no uncrossed pool of which
    answers. When more into a pool is never less out of it, no choice of pools that can be made
    beside the walk pays more, gas aside. *)

From stdpp Require Import prelude gmap strings list sorting.
From Stdlib Require Import NArith ZArith Lia.
From S2P Require Import Prelude F64 Types StableGraph TokenGraph SwapCache.

#[local] Open Scope nat_scope.

(** The edge weight of [most_liquid.rs]. *)
Record DepthAndPrice := {
  dp_spot_price : f64;
  dp_depth : f64;
}.

Record HopResult := {
  pool_ix : nat;
  hr_amount_out : N;
  hr_gas : N;
}.

Record PoolQuote := {
  pq_paid : SwapResult;
  pq_net : Z;
}.

Definition hop_of (ix : nat) (quote : PoolQuote) : HopResult :=
  {| pool_ix := ix; hr_amount_out := sr_amount_out (pq_paid quote); hr_gas := sr_gas (pq_paid quote) |}.

Record WalkedPath := {
  wp_hops : list HopResult;
  wp_amount_out : N;
  wp_gas : N;
}.

(** Which pool won each pair, and whether winners are reused. *)
Record PairWinners := {
  winner_by_pair : gmap (NodeIndex * NodeIndex) nat;
  reuse_winners : bool;
}.

Definition PairWinners_new (reuse : bool) : PairWinners :=
  {| winner_by_pair := ∅; reuse_winners := reuse |}.

(** One leg: its pair, the pools that trade it, and the caller's data. *)
Record LegPools (D T : Type) := {
  lp_pair : NodeIndex * NodeIndex;
  lp_pools : list (EdgeData D);
  lp_data : T;
}.
Arguments lp_pair {D T} _.
Arguments lp_pools {D T} _.
Arguments lp_data {D T} _.

(** ** Choosing a pool *)

Section choose.
Context {D St : Type}.
Implicit Types (pools : list (EdgeData D)) (st : St) (best : option (HopResult * Z)).
Implicit Types (usable : ComponentId -> bool) (simulate : St -> ComponentId -> St * option PoolQuote).

(** The loop body of [best_paying_pool]: a strictly greater net takes the place. *)
Definition consider (ix : nat) (quote : option PoolQuote) best : option (HopResult * Z) :=
  match quote with
  | None => best
  | Some quote =>
      match best with
      | Some (_, best_net) =>
          if (best_net <? pq_net quote)%Z then Some (hop_of ix quote, pq_net quote) else best
      | None => Some (hop_of ix quote, pq_net quote)
      end
  end.

Fixpoint scan_pools usable simulate (ix : nat) pools st best : St * option (HopResult * Z) :=
  match pools with
  | [] => (st, best)
  | edge :: pools =>
      if usable (ed_component_id edge)
      then let '(st, quote) := simulate st (ed_component_id edge) in
           scan_pools usable simulate (S ix) pools st (consider ix quote best)
      else scan_pools usable simulate (S ix) pools st best
  end.

Definition best_paying_pool pools usable simulate st : St * option (HopResult * Z) :=
  scan_pools usable simulate 0 pools st None.

Definition remember (winners : PairWinners) (pair : NodeIndex * NodeIndex) (ix : nat) : PairWinners :=
  if reuse_winners winners
  then {| winner_by_pair := <[pair := ix]> (winner_by_pair winners); reuse_winners := true |}
  else winners.

(** The full scan of a pair, whose winner is remembered. *)
Definition scan_pair (winners : PairWinners) (pair : NodeIndex * NodeIndex) pools simulate st
    : St * PairWinners * option HopResult :=
  let '(st, best) := best_paying_pool pools (fun _ => true) simulate st in
  match best with
  | Some (hop, _) => (st, remember winners pair (pool_ix hop), Some hop)
  | None => (st, winners, None)
  end.

Definition remembered (winners : PairWinners) (pair : NodeIndex * NodeIndex) : option nat :=
  if reuse_winners winners then winner_by_pair winners !! pair else None.

Definition choose_pool_for_pair (winners : PairWinners) (pair : NodeIndex * NodeIndex) pools simulate st
    : St * PairWinners * option HopResult :=
  match remembered winners pair ≫= fun ix => (ix,.) <$> pools !! ix with
  | Some (ix, edge) =>
      let '(st, quote) := simulate st (ed_component_id edge) in
      match quote with
      | Some quote => (st, winners, Some (hop_of ix quote))
      | None => scan_pair winners pair pools simulate st
      end
  | None => scan_pair winners pair pools simulate st
  end.
End choose.

(** ** Walking a path *)

Section walk.
Context {D T St : Type} (simulate : LegPools D T -> N -> St -> ComponentId -> St * option PoolQuote).
Implicit Types (legs : list (LegPools D T)) (st : St).

Definition is_crossed (crossed : list ComponentId) (id : ComponentId) : bool := bool_decide (id ∈ crossed).

(** One leg: narrowed when the path already crossed one of its pools. *)
Definition choose_hop (leg : LegPools D T) (crossed : list ComponentId) (amount : N) (winners : PairWinners) st
    : St * PairWinners * option HopResult :=
  if existsb (fun edge => is_crossed crossed (ed_component_id edge)) (lp_pools leg)
  then let '(st, best) := best_paying_pool (lp_pools leg) (fun id => negb (is_crossed crossed id))
                            (simulate leg amount) st in
       (st, winners, fst <$> best)
  else choose_pool_for_pair winners (lp_pair leg) (lp_pools leg) (simulate leg amount) st.

(** The loop of [simulate_token_path] from leg [leg_ix] on; the error is the leg's position,
    and the panic is the [expect] on the chosen pool. *)
Fixpoint walk_legs legs (leg_ix : nat) (walked : WalkedPath) (crossed : list ComponentId)
    (winners : PairWinners) st : outcome (St * PairWinners * result nat WalkedPath) :=
  match legs with
  | [] => Ret (st, winners, Ok walked)
  | leg :: legs =>
      let '(st, winners, hop) := choose_hop leg crossed (wp_amount_out walked) winners st in
      match hop with
      | None => Ret (st, winners, Err leg_ix)
      | Some hop =>
          match lp_pools leg !! pool_ix hop with
          | None => Panic
          | Some chosen =>
              walk_legs legs (S leg_ix)
                {| wp_hops := wp_hops walked ++ [hop];
                   wp_amount_out := hr_amount_out hop;
                   wp_gas := (wp_gas walked + hr_gas hop)%N |}
                (crossed ++ [ed_component_id chosen]) winners st
          end
      end
  end.

Definition simulate_token_path legs (amount_in : N) (winners : PairWinners) st
    : outcome (St * PairWinners * result nat WalkedPath) :=
  walk_legs legs 0 {| wp_hops := []; wp_amount_out := amount_in; wp_gas := 0 |} [] winners st.
End walk.

(** ** Ranking by edge weights *)

Section rank.
Context `{DiGraph (list (EdgeData DepthAndPrice))} (NATIVE_WRAP_COMPONENT : ComponentId).
Implicit Types (g : TopologyGraph (D:=DepthAndPrice)) (constraints : ResolvedRouteConstraints).

(** The best price and depth over a leg's usable pools, and whether there is one. *)
Definition leg_best (pools : list (EdgeData DepthAndPrice)) constraints : f64 * f64 * bool :=
  fold_left (fun best pool =>
    let '(best_price, best_depth, has_pool) := best in
    if excludes_pool constraints (ed_component_id pool) then best
    else match ed_data pool with
         | Some data => (F64.max best_price (dp_spot_price data), F64.max best_depth (dp_depth data), true)
         | None => (best_price, best_depth, true)
         end) pools (F64.MIN, F64.MIN, false).

(** One leg of the score: [None] when the request excludes all its pools. *)
Definition score_leg g constraints (score : f64 * f64) (leg : NodeIndex * NodeIndex) : option (f64 * f64) :=
  let '(price, min_depth) := score in
  let '(best_price, best_depth, has_pool) :=
    leg_best (pools_between NATIVE_WRAP_COMPONENT g leg.1 leg.2) constraints in
  if negb has_pool then None
  else if F64.eqb best_price F64.MIN then Some (price, F64.zero)
  else Some (F64.mul price best_price, F64.min min_depth best_depth).

Fixpoint score_legs g constraints (score : f64 * f64) (legs : list (NodeIndex * NodeIndex)) : option (f64 * f64) :=
  match legs with
  | [] => Some score
  | leg :: legs => score ← score_leg g constraints score leg; score_legs g constraints score legs
  end.

Definition heuristic_score g (token_path : list NodeIndex) constraints : option f64 :=
  if length token_path <? 2 then None
  else '(price, min_depth) ← score_legs g constraints (F64.one, F64.MAX) (windows2 token_path);
       Some (F64.mul price min_depth).

Definition rank_by_heuristic g (token_paths : list (list NodeIndex)) constraints
    : list (list NodeIndex * f64) :=
  sort_desc (fun scored => F64.total_order scored.2)
    (omap (fun path => pair path <$> heuristic_score g path constraints) token_paths).
End rank.

#[local] Open Scope nat_scope.

(** ** The first best quote *)

Fixpoint first_best (ix : nat) (quotes : list (option PoolQuote)) (best : option (HopResult * Z))
    : option (HopResult * Z) :=
  match quotes with
  | [] => best
  | quote :: quotes => first_best (S ix) quotes (consider ix quote best)
  end.

Record wins (quotes : list (option PoolQuote)) (i : nat) (q : PoolQuote) : Prop := {
  wi_quote : quotes !! i = Some (Some q);
  wi_best : forall j q', quotes !! j = Some (Some q') -> (pq_net q' <= pq_net q)%Z;
  wi_first : forall j q', quotes !! j = Some (Some q') -> j < i -> (pq_net q' < pq_net q)%Z;
}.

Lemma first_best_snoc quotes ix q best :
  first_best ix (quotes ++ [q]) best = consider (ix + length quotes) q (first_best ix quotes best).
Proof.
  revert ix best. induction quotes as [|p quotes IH]; intros ix best; cbn; [by rewrite Nat.add_0_r|].
  rewrite IH. f_equal. lia.
Qed.

Lemma wins_snoc quotes q i p : wins quotes i p ->
  (forall r, q = Some r -> (pq_net r <= pq_net p)%Z) -> wins (quotes ++ [q]) i p.
Proof.
  intros [Hq Hb Hf] Hr. pose proof (lookup_lt_Some _ _ _ Hq) as Hi. split.
  - by apply lookup_app_l_Some.
  - intros j q' [Hj|[_ Hj]]%lookup_app_Some; [by eapply Hb|]. apply list_lookup_singleton_Some in Hj as [_ ->]. by apply Hr.
  - intros j q' Hj Hlt. rewrite lookup_app_l in Hj by lia. by eapply Hf.
Qed.

Lemma first_best_wins quotes :
  match first_best 0 quotes None with
  | Some (hop, net) => exists q, hop = hop_of (pool_ix hop) q /\ net = pq_net q /\ wins quotes (pool_ix hop) q
  | None => Forall (eq None) quotes
  end.
Proof.
  induction quotes as [|q quotes IH] using rev_ind; [constructor|]. rewrite first_best_snoc. cbn [Nat.add].
  destruct (first_best 0 quotes None) as [[hop net]|].
  - destruct IH as (p & Hhop & -> & Hw). destruct q as [q|]; cbn [consider].
    + destruct (Z.ltb_spec (pq_net p) (pq_net q)) as [Hlt|Hge].
      * exists q. split_and!; [done|done|]. cbn [pool_ix hop_of]. split.
        -- by apply list_lookup_middle.
        -- intros j q' [Hj|[_ Hj]]%lookup_app_Some.
           ++ pose proof (wi_best _ _ _ Hw _ _ Hj). lia.
           ++ apply list_lookup_singleton_Some in Hj as [_ [= ->]]. done.
        -- intros j q' Hj Hlt'. rewrite lookup_app_l in Hj by lia. pose proof (wi_best _ _ _ Hw _ _ Hj). lia.
      * exists p. split_and!; [done|done|]. apply wins_snoc; [done|]. by intros r [= <-].
    + exists p. split_and!; [done|done|]. by apply wins_snoc.
  - destruct q as [q|]; cbn [consider]; [|by apply Forall_app; split; [|by constructor]].
    assert (forall j q', quotes !! j <> Some (Some q')) as Hnone.
    { intros j q' Hj. by pose proof (Forall_lookup_1 _ _ _ _ IH Hj). }
    exists q. split_and!; [done|done|]. cbn [pool_ix hop_of]. split; [by apply list_lookup_middle|..].
    + intros j q' [Hj|[_ Hj]]%lookup_app_Some; [by destruct (Hnone _ _ Hj)|].
      by apply list_lookup_singleton_Some in Hj as [_ [= ->]].
    + intros j q' Hj Hlt. rewrite lookup_app_l in Hj by lia. by destruct (Hnone _ _ Hj).
Qed.

(** ** One leg *)

Section scan.
Context {D St : Type} (Inv : St -> Prop) (Answers : ComponentId -> option PoolQuote -> Prop).
Context (simulate : St -> ComponentId -> St * option PoolQuote).
Hypothesis simulate_answers : forall st id, Inv st ->
  Inv (simulate st id).1 /\ Answers id (simulate st id).2.
Implicit Types (pools : list (EdgeData D)) (st : St) (usable : ComponentId -> bool) (edge : EdgeData D).

(** The quotes a scan obtains; a pool withheld is not asked. *)
Definition asked usable edge (quote : option PoolQuote) : Prop :=
  if usable (ed_component_id edge) then Answers (ed_component_id edge) quote else quote = None.

Lemma scan_pools_quotes usable ix pools st best : Inv st ->
  exists quotes, Forall2 (asked usable) pools quotes /\
    Inv (scan_pools usable simulate ix pools st best).1 /\
    (scan_pools usable simulate ix pools st best).2 = first_best ix quotes best.
Proof.
  revert ix st best. induction pools as [|edge pools IH]; intros ix st best Hst; cbn [scan_pools].
  { exists []. by split_and!. }
  destruct (usable (ed_component_id edge)) eqn:Hu.
  - destruct (simulate_answers st (ed_component_id edge) Hst) as [Hst' Hq].
    destruct (simulate st (ed_component_id edge)) as [st' q].
    destruct (IH (S ix) st' (consider ix q best) Hst') as (quotes & Hall & Hinv & Heq).
    exists (q :: quotes). split_and!; [|done|done]. constructor; [|done]. unfold asked. by rewrite Hu.
  - destruct (IH (S ix) st best Hst) as (quotes & Hall & Hinv & Heq).
    exists (None :: quotes). split_and!; [|done|done]. constructor; [|done]. unfold asked. by rewrite Hu.
Qed.

(** The pool [ix] of [pools] answered [q] and nets most among the usable pools' answers,
    which [quotes] are. *)
Record best_pool usable pools (ix : nat) (q : PoolQuote) (quotes : list (option PoolQuote)) : Prop := {
  bp_asked : Forall2 (asked usable) pools quotes;
  bp_wins : wins quotes ix q;
}.

Lemma best_paying_pool_spec usable pools st : Inv st ->
  let '(st', best) := best_paying_pool pools usable simulate st in
  Inv st' /\
  match best with
  | Some (hop, _) => exists q quotes, hop = hop_of (pool_ix hop) q /\ best_pool usable pools (pool_ix hop) q quotes
  | None => Forall (fun edge => usable (ed_component_id edge) = true -> Answers (ed_component_id edge) None) pools
  end.
Proof.
  intros Hst. unfold best_paying_pool.
  destruct (scan_pools_quotes usable 0 pools st None Hst) as (quotes & Hall & Hinv & Heq).
  destruct (scan_pools _ _ _ _ _ _) as [st' best]. cbn in Hinv, Heq. split; [done|].
  pose proof (first_best_wins quotes) as Hw. rewrite <- Heq in Hw. destruct best as [[hop net]|].
  - destruct Hw as (q & Hhop & _ & Hw). by exists q, quotes.
  - apply Forall_lookup. intros i edge Hi Hu. destruct (Forall2_lookup_l _ _ _ _ _ Hall Hi) as (q & Hq & Ha).
    unfold asked in Ha. rewrite Hu in Ha. by rewrite (Forall_lookup_1 _ _ _ _ Hw Hq).
Qed.

Lemma best_pool_answers usable pools ix q quotes : best_pool usable pools ix q quotes ->
  exists edge, pools !! ix = Some edge /\ usable (ed_component_id edge) = true /\
    Answers (ed_component_id edge) (Some q).
Proof.
  intros [Hall [Hq _ _]]. destruct (Forall2_lookup_r _ _ _ _ _ Hall Hq) as (edge & He & Ha).
  exists edge. unfold asked in Ha. by destruct (usable (ed_component_id edge)).
Qed.

Lemma remember_reuse winners p ix : reuse_winners (remember winners p ix) = reuse_winners winners.
Proof. unfold remember. by destruct (reuse_winners winners) eqn:Hr. Qed.

Lemma scan_pair_spec winners p pools st : Inv st ->
  let '(st', winners', hop) := scan_pair winners p pools simulate st in
  Inv st' /\ reuse_winners winners' = reuse_winners winners /\
  match hop with
  | Some hop => exists q quotes, hop = hop_of (pool_ix hop) q /\ best_pool (fun _ => true) pools (pool_ix hop) q quotes
  | None => Forall (fun edge => Answers (ed_component_id edge) None) pools
  end.
Proof.
  intros Hst. unfold scan_pair. pose proof (best_paying_pool_spec (fun _ => true) pools st Hst) as Hb.
  destruct (best_paying_pool _ _ _ _) as [st' [[hop net]|]]; destruct Hb as [Hinv Hb]; split_and!; try done.
  - apply remember_reuse.
  - apply (Forall_impl _ _ _ Hb). auto.
Qed.

(** Reused or scanned, the hop is what a listed pool answered. *)
Lemma choose_pool_for_pair_spec winners p pools st : Inv st ->
  let '(st', winners', hop) := choose_pool_for_pair winners p pools simulate st in
  Inv st' /\
  match hop with
  | Some hop => exists edge q, pools !! pool_ix hop = Some edge /\ hop = hop_of (pool_ix hop) q /\
      Answers (ed_component_id edge) (Some q)
  | None => Forall (fun edge => Answers (ed_component_id edge) None) pools
  end.
Proof.
  intros Hst. unfold choose_pool_for_pair.
  assert (forall st, Inv st -> let '(st', winners', hop) := scan_pair winners p pools simulate st in
    Inv st' /\
    match hop with
    | Some hop => exists edge q, pools !! pool_ix hop = Some edge /\ hop = hop_of (pool_ix hop) q /\
        Answers (ed_component_id edge) (Some q)
    | None => Forall (fun edge => Answers (ed_component_id edge) None) pools
    end) as Hscan.
  { clear st Hst. intros st Hst. pose proof (scan_pair_spec winners p pools st Hst) as Hs.
    destruct (scan_pair _ _ _ _ _) as [[st' winners'] [hop|]]; destruct Hs as (Hinv & _ & Hs); (split; [done|]); [|done].
    destruct Hs as (q & quotes & Hhop & Hb). destruct (best_pool_answers _ _ _ _ _ Hb) as (edge & He & _ & Ha).
    by exists edge, q. }
  destruct (remembered winners p ≫= fun ix => (ix,.) <$> pools !! ix) as [[ix edge]|] eqn:Hr; [|by apply Hscan].
  destruct (simulate_answers st (ed_component_id edge) Hst) as [Hst' Ha].
  destruct (simulate st (ed_component_id edge)) as [st' [q|]]; [|by apply Hscan]. split; [done|].
  apply bind_Some in Hr as (ix' & _ & (edge' & He & [= -> ->])%fmap_Some). by exists edge', q.
Qed.
End scan.

(** ** The walk *)

Section walks.
Context {D T : Type}.
Implicit Types (leg : LegPools D T) (legs : list (LegPools D T)) (crossed : list ComponentId) (w : WalkedPath) (pool : EdgeData D).

Definition push w (hop : HopResult) : WalkedPath :=
  {| wp_hops := wp_hops w ++ [hop]; wp_amount_out := hr_amount_out hop; wp_gas := (wp_gas w + hr_gas hop)%N |}.

(** A walk of [legs] from [w] to [w'], every hop of which is a [Choice]. *)
Inductive walks (Choice : LegPools D T -> list ComponentId -> N -> HopResult -> Prop)
    : list (LegPools D T) -> list ComponentId -> WalkedPath -> list ComponentId -> WalkedPath -> Prop :=
| walks_done crossed w : walks Choice [] crossed w crossed w
| walks_hop leg legs crossed w hop pool crossed' w' :
    lp_pools leg !! pool_ix hop = Some pool ->
    Choice leg crossed (wp_amount_out w) hop ->
    walks Choice legs (crossed ++ [ed_component_id pool]) (push w hop) crossed' w' ->
    walks Choice (leg :: legs) crossed w crossed' w'.

Context {St : Type} (simulate : LegPools D T -> N -> St -> ComponentId -> St * option PoolQuote).
Context (Inv : St -> PairWinners -> Prop) (Choice : LegPools D T -> list ComponentId -> N -> HopResult -> Prop).
Context (Stuck : LegPools D T -> list ComponentId -> N -> Prop).
Hypothesis chooses : forall leg crossed amount winners st, Inv st winners ->
  let '(st', winners', hop) := choose_hop simulate leg crossed amount winners st in
  Inv st' winners' /\
  match hop with
  | Some hop => (exists pool, lp_pools leg !! pool_ix hop = Some pool) /\ Choice leg crossed amount hop
  | None => Stuck leg crossed amount
  end.

Lemma walk_legs_spec legs ix crossed w winners st : Inv st winners ->
  exists st' winners' r, walk_legs simulate legs ix w crossed winners st = Ret (st', winners', r) /\
    Inv st' winners' /\
    match r with
    | Ok w' => exists crossed', walks Choice legs crossed w crossed' w'
    | Err i => exists k leg crossed' w', i = ix + k /\ legs !! k = Some leg /\
        walks Choice (take k legs) crossed w crossed' w' /\ Stuck leg crossed' (wp_amount_out w')
    end.
Proof.
  revert ix crossed w winners st. induction legs as [|leg legs IH]; intros ix crossed w winners st Hinv; cbn [walk_legs].
  { exists st, winners, (Ok w). split_and!; [done..|]. exists crossed. constructor. }
  pose proof (chooses leg crossed (wp_amount_out w) winners st Hinv) as Hc.
  destruct (choose_hop _ _ _ _ _ _) as [[st1 winners1] [hop|]]; destruct Hc as [Hinv1 Hc].
  - destruct Hc as [[pool Hpool] Hc]. rewrite Hpool.
    destruct (IH (S ix) (crossed ++ [ed_component_id pool]) (push w hop) winners1 st1 Hinv1)
      as (st' & winners' & r & Heq & Hinv' & Hr).
    exists st', winners', r. split_and!; [exact Heq|done|]. destruct r as [w'|i].
    + destruct Hr as [crossed' Hw]. exists crossed'. by eapply walks_hop.
    + destruct Hr as (k & leg' & crossed' & w' & -> & Hk & Hw & Hs).
      exists (S k), leg', crossed', w'. split_and!; [lia|done| |done]. cbn [take]. by eapply walks_hop.
  - exists st1, winners1, (Err ix). split_and!; [done..|]. exists 0, leg, crossed, w.
    split_and!; [lia|done| |done]. constructor.
Qed.
End walks.

Section choices.
Context {D T St : Type} (simulate : LegPools D T -> N -> St -> ComponentId -> St * option PoolQuote).
Context (Inv : St -> Prop) (Answers : LegPools D T -> N -> ComponentId -> option PoolQuote -> Prop).
Hypothesis simulate_answers : forall leg amount st id, Inv st ->
  Inv (simulate leg amount st id).1 /\ Answers leg amount id (simulate leg amount st id).2.
Implicit Types (leg : LegPools D T) (legs : list (LegPools D T)) (crossed : list ComponentId) (pool : EdgeData D).

(** A pool the path has not crossed, and what it answered. *)
Definition fresh_choice (leg : LegPools D T) crossed (amount : N) (hop : HopResult) : Prop :=
  exists pool q, lp_pools leg !! pool_ix hop = Some pool /\ (ed_component_id pool ∉ crossed) /\
    hop = hop_of (pool_ix hop) q /\ Answers leg amount (ed_component_id pool) (Some q).

(** No uncrossed pool serves the amount. *)
Definition no_answer (leg : LegPools D T) crossed (amount : N) : Prop :=
  Forall (fun pool => (ed_component_id pool ∉ crossed) -> Answers leg amount (ed_component_id pool) None) (lp_pools leg).

(** An uncrossed pool whose net is greatest among the uncrossed ones. *)
Definition best_choice (leg : LegPools D T) crossed (amount : N) (hop : HopResult) : Prop :=
  exists q quotes, hop = hop_of (pool_ix hop) q /\
    best_pool (Answers leg amount) (fun id => negb (is_crossed crossed id)) (lp_pools leg) (pool_ix hop) q quotes.

Lemma is_crossed_false crossed id : negb (is_crossed crossed id) = true <-> id ∉ crossed.
Proof. unfold is_crossed. by rewrite negb_true_iff, bool_decide_eq_false. Qed.

Lemma narrowed_spec leg crossed amount st : Inv st ->
  let '(st', best) := best_paying_pool (lp_pools leg) (fun id => negb (is_crossed crossed id)) (simulate leg amount) st in
  Inv st' /\
  match fst <$> best with
  | Some hop => best_choice leg crossed amount hop
  | None => no_answer leg crossed amount
  end.
Proof.
  intros Hst. pose proof (best_paying_pool_spec Inv (Answers leg amount) (simulate leg amount)
    (simulate_answers leg amount) (fun id => negb (is_crossed crossed id)) (lp_pools leg) st Hst) as Hb.
  destruct (best_paying_pool _ _ _ _) as [st' [[hop net]|]]; destruct Hb as [Hinv Hb]; (split; [done|]); [done|].
  apply (Forall_impl _ _ _ Hb). intros pool Ha Hn. by apply Ha, is_crossed_false.
Qed.

Lemma best_choice_fresh leg crossed amount hop : best_choice leg crossed amount hop -> fresh_choice leg crossed amount hop.
Proof.
  intros (q & quotes & Hhop & Hb). destruct (best_pool_answers _ _ _ _ _ _ Hb) as (pool & Hp & Hu & Ha).
  exists pool, q. split_and!; [done| |done|done]. by apply is_crossed_false.
Qed.

Lemma not_narrowed leg crossed :
  existsb (fun pool => is_crossed crossed (ed_component_id pool)) (lp_pools leg) = false ->
  forall i pool, lp_pools leg !! i = Some pool -> ed_component_id pool ∉ crossed.
Proof.
  intros He i pool Hi Hin. assert (existsb (fun pool => is_crossed crossed (ed_component_id pool)) (lp_pools leg) = true);
    [|congruence].
  apply existsb_exists. exists pool. split; [by eapply list_elem_of_In, list_elem_of_lookup_2|]. by apply bool_decide_eq_true.
Qed.

(** Whatever winners are remembered, a hop is a fresh choice. *)
Lemma choose_hop_fresh leg crossed amount winners st : Inv st ->
  let '(st', _, hop) := choose_hop simulate leg crossed amount winners st in
  Inv st' /\
  match hop with
  | Some hop => (exists pool, lp_pools leg !! pool_ix hop = Some pool) /\ fresh_choice leg crossed amount hop
  | None => no_answer leg crossed amount
  end.
Proof.
  intros Hst. unfold choose_hop. destruct (existsb _ _) eqn:He.
  - pose proof (narrowed_spec leg crossed amount st Hst) as Hn.
    destruct (best_paying_pool _ _ _ _) as [st' [[hop net]|]]; destruct Hn as [Hinv Hn]; cbn [fmap option_fmap option_map] in *;
      (split; [done|]); [|done].
    apply best_choice_fresh in Hn as (pool & q & Hp & Hrest). split; [by exists pool|]. by exists pool, q.
  - pose proof (choose_pool_for_pair_spec Inv (Answers leg amount) (simulate leg amount)
      (simulate_answers leg amount) winners (lp_pair leg) (lp_pools leg) st Hst) as Hc.
    destruct (choose_pool_for_pair _ _ _ _ _) as [[st' winners'] [hop|]]; destruct Hc as [Hinv Hc]; (split; [done|]).
    + destruct Hc as (pool & q & Hp & Hhop & Ha). split; [by exists pool|]. exists pool, q.
      split_and!; [done| |done|done]. by eapply not_narrowed.
    + by apply (Forall_impl _ _ _ Hc).
Qed.

(** Without remembered winners a hop is a best choice. *)
Lemma choose_hop_best leg crossed amount winners st : Inv st -> reuse_winners winners = false ->
  let '(st', winners', hop) := choose_hop simulate leg crossed amount winners st in
  Inv st' /\ reuse_winners winners' = false /\
  match hop with
  | Some hop => (exists pool, lp_pools leg !! pool_ix hop = Some pool) /\ best_choice leg crossed amount hop
  | None => no_answer leg crossed amount
  end.
Proof.
  intros Hst Hw. unfold choose_hop. destruct (existsb _ _) eqn:He.
  - pose proof (narrowed_spec leg crossed amount st Hst) as Hn.
    destruct (best_paying_pool _ _ _ _) as [st' [[hop net]|]]; destruct Hn as [Hinv Hn]; cbn [fmap option_fmap option_map] in *;
      (split; [done|split; [done|]]); [|done].
    split; [|done]. apply best_choice_fresh in Hn as (pool & q & Hp & _). by exists pool.
  - unfold choose_pool_for_pair, remembered. rewrite Hw. cbn [mbind option_bind].
    pose proof (scan_pair_spec Inv (Answers leg amount) (simulate leg amount)
      (simulate_answers leg amount) winners (lp_pair leg) (lp_pools leg) st Hst) as Hs.
    destruct (scan_pair _ _ _ _ _) as [[st' winners'] [hop|]]; destruct Hs as (Hinv & Hw' & Hs);
      (split; [done|split; [congruence|]]).
    + destruct Hs as (q & quotes & Hhop & Hb). destruct (best_pool_answers _ _ _ _ _ _ Hb) as (pool & Hp & _ & _).
      split; [by exists pool|]. exists q, quotes. split; [done|]. destruct Hb as [Hall Hwins]. split; [|done].
      apply Forall2_same_length_lookup. apply Forall2_same_length_lookup in Hall as [Hlen Hall]. split; [done|].
      intros i p quote Hi Hq. specialize (Hall i p quote Hi Hq). unfold asked in *.
      by rewrite (proj2 (is_crossed_false crossed _) (not_narrowed leg crossed He i p Hi)).
    + by apply (Forall_impl _ _ _ Hs).
Qed.

Lemma token_path_fresh legs amount_in winners st : Inv st ->
  exists st' winners' r, simulate_token_path simulate legs amount_in winners st = Ret (st', winners', r) /\ Inv st' /\
    let start := {| wp_hops := []; wp_amount_out := amount_in; wp_gas := 0 |} in
    match r with
    | Ok w => exists crossed, walks fresh_choice legs [] start crossed w
    | Err i => exists leg crossed w, legs !! i = Some leg /\
        walks fresh_choice (take i legs) [] start crossed w /\ no_answer leg crossed (wp_amount_out w)
    end.
Proof.
  intros Hst. destruct (walk_legs_spec simulate (fun st _ => Inv st) fresh_choice no_answer) with (legs := legs) (ix := 0)
    (crossed := [] : list ComponentId) (w := {| wp_hops := []; wp_amount_out := amount_in; wp_gas := 0 |})
    (winners := winners) (st := st) as (st' & winners' & r & Heq & Hinv & Hr); [|done|].
  - intros leg crossed amount ws s Hs. pose proof (choose_hop_fresh leg crossed amount ws s Hs) as Hc.
    by destruct (choose_hop _ _ _ _ _ _) as [[s' ws'] hop].
  - exists st', winners', r. split_and!; [done..|]. destruct r as [w|i]; [done|].
    destruct Hr as (k & leg & crossed & w & -> & Hr). by exists leg, crossed, w.
Qed.

Lemma token_path_best legs amount_in winners st : Inv st -> reuse_winners winners = false ->
  exists st' winners' r, simulate_token_path simulate legs amount_in winners st = Ret (st', winners', r) /\ Inv st' /\
    let start := {| wp_hops := []; wp_amount_out := amount_in; wp_gas := 0 |} in
    match r with
    | Ok w => exists crossed, walks best_choice legs [] start crossed w
    | Err i => exists leg crossed w, legs !! i = Some leg /\
        walks best_choice (take i legs) [] start crossed w /\ no_answer leg crossed (wp_amount_out w)
    end.
Proof.
  intros Hst Hw. destruct (walk_legs_spec simulate (fun st ws => Inv st /\ reuse_winners ws = false) best_choice no_answer)
    with (legs := legs) (ix := 0) (crossed := [] : list ComponentId)
    (w := {| wp_hops := []; wp_amount_out := amount_in; wp_gas := 0 |})
    (winners := winners) (st := st) as (st' & winners' & r & Heq & [Hinv _] & Hr); [|done|].
  - intros leg crossed amount ws s [Hs Hws]. pose proof (choose_hop_best leg crossed amount ws s Hs Hws) as Hc.
    destruct (choose_hop _ _ _ _ _ _) as [[s' ws'] hop]. destruct Hc as (? & ? & ?). by split.
  - exists st', winners', r. split_and!; [done..|]. destruct r as [w|i]; [done|].
    destruct Hr as (k & leg & crossed & w & -> & Hr). by exists leg, crossed, w.
Qed.
End choices.

(** The hops of a fresh walk: on every leg a listed pool that answered, no pool twice. *)
Lemma walks_fresh {D T : Type} (Answers : LegPools D T -> N -> ComponentId -> option PoolQuote -> Prop)
    (legs : list (LegPools D T)) (crossed crossed' : list ComponentId) (w w' : WalkedPath) :
  walks (fresh_choice Answers) legs crossed w crossed' w' -> NoDup crossed ->
  exists hops ids, wp_hops w' = wp_hops w ++ hops /\ crossed' = crossed ++ ids /\ NoDup (crossed ++ ids) /\
    Forall3 (fun leg hop id => (exists pool, lp_pools leg !! pool_ix hop = Some pool /\ ed_component_id pool = id) /\
      exists amount q, Answers leg amount id (Some q)) legs hops ids.
Proof.
  induction 1 as [crossed w|leg legs crossed w hop pool crossed' w' Hpool Hc Hw IH]; intros Hnd.
  { exists [], []. rewrite !app_nil_r. split_and!; [done..|constructor]. }
  destruct Hc as (pool' & q & Hp & Hn & _ & Ha). assert (pool' = pool) as -> by congruence.
  destruct IH as (hops & ids & Hh & Hx & Hnd' & Hall).
  { apply NoDup_app. split_and!; [done| |apply NoDup_singleton]. intros id Hid ->%list_elem_of_singleton. done. }
  exists (hop :: hops), (ed_component_id pool :: ids). rewrite Hh, Hx in *. cbn [push wp_hops].
  rewrite <- !app_assoc in *. split_and!; [done..|]. constructor; [|done]. split; [by exists pool|]. by exists (wp_amount_out w), q.
Qed.

(** ** Gross output: choosing leg by leg loses nothing *)

Section gross.
Context {D T : Type} (answer : LegPools D T -> N -> ComponentId -> option PoolQuote).
Implicit Types (leg : LegPools D T) (legs : list (LegPools D T)) (crossed : list ComponentId) (pool : EdgeData D).

Definition pure_answers leg amount id (quote : option PoolQuote) : Prop := quote = answer leg amount id.

Definition simulate_pure leg amount (st : unit) (id : ComponentId) : unit * option PoolQuote :=
  (st, answer leg amount id).

(** Any choice of pools: [amount] sold through the legs pays [out]. *)
Inductive can_trade : list (LegPools D T) -> N -> N -> Prop :=
| can_trade_done amount : can_trade [] amount amount
| can_trade_hop leg legs amount pool q out :
    pool ∈ lp_pools leg -> answer leg amount (ed_component_id pool) = Some q ->
    can_trade legs (sr_amount_out (pq_paid q)) out -> can_trade (leg :: legs) amount out.

(** Of two amounts a pool serves, the larger never pays less. *)
Definition monotone : Prop := forall leg a b id q q', (a <= b)%N -> answer leg a id = Some q -> answer leg b id = Some q' ->
  (sr_amount_out (pq_paid q) <= sr_amount_out (pq_paid q'))%N.

(** A pool that serves an amount serves every larger one: it has no limit. *)
Definition unlimited : Prop := forall leg a b id q, (a <= b)%N -> answer leg a id = Some q -> is_Some (answer leg b id).

(** Gas is not charged. *)
Definition gross : Prop := forall leg a id q, answer leg a id = Some q ->
  pq_net q = Z.of_N (sr_amount_out (pq_paid q)).

(** No pool trades on two legs. *)
Fixpoint apart legs : Prop :=
  match legs with
  | [] => True
  | leg :: legs =>
      (forall pool leg' pool', pool ∈ lp_pools leg -> leg' ∈ legs -> pool' ∈ lp_pools leg' ->
        ed_component_id pool <> ed_component_id pool') /\ apart legs
  end.

Definition uncrossed legs crossed : Prop :=
  forall leg pool, leg ∈ legs -> pool ∈ lp_pools leg -> ed_component_id pool ∉ crossed.

Lemma uncrossed_step leg legs crossed i pool : apart (leg :: legs) -> uncrossed (leg :: legs) crossed ->
  lp_pools leg !! i = Some pool -> uncrossed legs (crossed ++ [ed_component_id pool]).
Proof.
  intros [Ha _] Hu Hi leg' pool' Hl Hp [Hin|Heq%list_elem_of_singleton]%elem_of_app.
  - by apply (Hu leg' pool'); [right|..].
  - apply (Ha pool leg' pool'); [by eapply list_elem_of_lookup_2|done..].
Qed.

(** A best choice pays at least what any uncrossed pool of the leg pays. *)
Lemma best_choice_most leg crossed amount hop pool q : gross ->
  best_choice pure_answers leg crossed amount hop -> pool ∈ lp_pools leg -> (ed_component_id pool ∉ crossed) ->
  answer leg amount (ed_component_id pool) = Some q -> (sr_amount_out (pq_paid q) <= hr_amount_out hop)%N.
Proof.
  intros Hg (q0 & quotes & -> & Hb) [i Hi]%list_elem_of_lookup Hn Ha.
  destruct (best_pool_answers _ _ _ _ _ _ Hb) as (pool0 & _ & _ & Ha0).
  unfold pure_answers in Ha0. symmetry in Ha0.
  destruct Hb as [Hall [_ Hmax _]]. destruct (Forall2_lookup_l _ _ _ _ _ Hall Hi) as (quote & Hq & Has).
  unfold asked in Has. rewrite (proj2 (is_crossed_false crossed _) Hn) in Has. unfold pure_answers in Has.
  rewrite Ha in Has. subst quote. specialize (Hmax i q Hq). rewrite (Hg _ _ _ _ Ha), (Hg _ _ _ _ Ha0) in Hmax. cbn. lia.
Qed.

(** Another choice of pools, next to a walk that reached [reached] and takes [hops] from there: on
    every leg a pool the walk has not crossed, which also serves what the walk brings to it. *)
Inductive trades_beside : list (LegPools D T) -> list HopResult -> list ComponentId -> N -> N -> N -> Prop :=
| beside_done crossed reached amount : trades_beside [] [] crossed reached amount amount
| beside_hop leg legs hop hops crossed reached amount won pool q out :
    lp_pools leg !! pool_ix hop = Some won ->
    pool ∈ lp_pools leg -> (ed_component_id pool ∉ crossed) ->
    answer leg amount (ed_component_id pool) = Some q -> is_Some (answer leg reached (ed_component_id pool)) ->
    trades_beside legs hops (crossed ++ [ed_component_id won]) (hr_amount_out hop) (sr_amount_out (pq_paid q)) out ->
    trades_beside (leg :: legs) (hop :: hops) crossed reached amount out.

(** What a walk has walked before its next legs stays in front. *)
Lemma walks_extend {Choice : LegPools D T -> list ComponentId -> N -> HopResult -> Prop} legs crossed w crossed' w' :
  walks Choice legs crossed w crossed' w' -> exists hops, wp_hops w' = wp_hops w ++ hops.
Proof.
  induction 1 as [|leg legs crossed w hop pool crossed' w' _ _ _ [hops IH]]; [exists []; by rewrite app_nil_r|].
  exists (hop :: hops). rewrite IH. cbn [push wp_hops]. by rewrite <- app_assoc.
Qed.

(** One leg: a choice that brings no more than the walk, of a pool that serves the walk too. *)
Lemma beside_step leg crossed amount reached hop pool q : monotone -> gross ->
  best_choice pure_answers leg crossed reached hop -> (amount <= reached)%N ->
  pool ∈ lp_pools leg -> (ed_component_id pool ∉ crossed) ->
  answer leg amount (ed_component_id pool) = Some q -> is_Some (answer leg reached (ed_component_id pool)) ->
  (sr_amount_out (pq_paid q) <= hr_amount_out hop)%N.
Proof.
  intros Hm Hg Hc Hle Hin Hn Hq [q' Hq']. etrans; [exact (Hm leg amount reached _ q q' Hle Hq Hq')|].
  eapply best_choice_most; [done|exact Hc|exact Hin|exact Hn|exact Hq'].
Qed.

Lemma walks_beat_beside legs hops crossed w crossed' w' amount out : monotone -> gross ->
  walks (best_choice pure_answers) legs crossed w crossed' w' -> wp_hops w' = wp_hops w ++ hops ->
  trades_beside legs hops crossed (wp_amount_out w) amount out -> (amount <= wp_amount_out w)%N ->
  (out <= wp_amount_out w')%N.
Proof.
  intros Hm Hg Hw. revert amount hops. induction Hw as [|leg legs crossed w hop pool crossed' w' Hpool Hc Hw IH];
    intros amount hops Hhops Htr Hle; [by inversion Htr; subst|].
  destruct (walks_extend _ _ _ _ _ Hw) as [rest Hrest]. rewrite Hrest in Hhops. cbn [push wp_hops] in Hhops.
  rewrite <- app_assoc in Hhops. apply app_inv_head in Hhops as <-.
  inversion Htr as [|leg0 legs0 hop0 hops0 c0 r0 a0 won p q o Hwon Hin Hn Hq Hs Hbeside]; subst.
  assert (won = pool) as -> by congruence.
  apply (IH (sr_amount_out (pq_paid q)) rest Hrest); [exact Hbeside|]. cbn [push wp_amount_out].
  by apply (beside_step leg crossed amount (wp_amount_out w) hop p q).
Qed.

(** Without limits and without pools on two legs, every other choice can be made next to a walk. *)
Lemma apart_beside legs hops crossed w crossed' w' amount out : monotone -> gross -> unlimited ->
  apart legs -> uncrossed legs crossed ->
  walks (best_choice pure_answers) legs crossed w crossed' w' -> wp_hops w' = wp_hops w ++ hops ->
  can_trade legs amount out -> (amount <= wp_amount_out w)%N ->
  trades_beside legs hops crossed (wp_amount_out w) amount out.
Proof.
  intros Hm Hg Hu Hap Hun Hw. revert amount hops Hap Hun. induction Hw as [crossed w|leg legs crossed w hop pool crossed' w' Hpool Hc Hw IH];
    intros amount hops Hap Hun Hhops Htr Hle.
  { rewrite <- (app_nil_r (wp_hops w)) in Hhops at 1. apply app_inv_head in Hhops as <-. inversion Htr. constructor. }
  destruct (walks_extend _ _ _ _ _ Hw) as [rest Hrest]. rewrite Hrest in Hhops. cbn [push wp_hops] in Hhops.
  rewrite <- app_assoc in Hhops. apply app_inv_head in Hhops as <-.
  inversion Htr as [|leg0 legs0 a p q o Hin Hq Htrade]; subst.
  assert (ed_component_id p ∉ crossed) as Hn by (apply (Hun leg p); [left|done]).
  pose proof (Hu leg amount (wp_amount_out w) _ q Hle Hq) as Hs.
  apply (beside_hop leg legs hop rest crossed _ amount pool p q out); try done.
  apply (IH _ _ (proj2 Hap)); [by eapply uncrossed_step|done|done|]. by apply (beside_step leg crossed amount (wp_amount_out w) hop p q).
Qed.

(** A walk that gets stuck is then a path that cannot be traded. *)
Lemma walks_not_stuck legs k leg crossed w crossed' w' amount out : monotone -> gross -> unlimited -> apart legs -> uncrossed legs crossed ->
  walks (best_choice pure_answers) (take k legs) crossed w crossed' w' -> legs !! k = Some leg ->
  can_trade legs amount out -> (amount <= wp_amount_out w)%N ->
  no_answer pure_answers leg crossed' (wp_amount_out w') -> False.
Proof.
  intros Hm Hg Hu. revert k crossed w amount. induction legs as [|leg0 legs IH]; intros k crossed w amount Hap Hun Hw Hk Htr Hle Hs; [done|].
  inversion Htr as [|leg1 legs1 a p q o Hin Hq Hrest]; subst.
  assert (ed_component_id p ∉ crossed) as Hn by (apply (Hun leg0 p); [left|done]).
  pose proof (Hu leg0 amount (wp_amount_out w) _ q Hle Hq) as [q' Hq'].
  destruct k as [|k]; cbn in Hk, Hw.
  - injection Hk as ->. inversion Hw; subst. unfold no_answer in Hs. rewrite Forall_forall in Hs.
    specialize (Hs p Hin Hn). unfold pure_answers in Hs. congruence.
  - inversion Hw as [|leg1 legs1 c w0 hop pool c' w1 Hpool Hc Hw1]; subst.
    apply (IH k (crossed ++ [ed_component_id pool]) (push w hop) (sr_amount_out (pq_paid q))); try done.
    + apply Hap.
    + by eapply uncrossed_step.
    + cbn [push wp_amount_out]. apply (beside_step leg0 crossed amount (wp_amount_out w) hop p q); try done.
Qed.

Lemma walks_can_trade legs crossed w crossed' w' :
  walks (best_choice pure_answers) legs crossed w crossed' w' -> can_trade legs (wp_amount_out w) (wp_amount_out w').
Proof.
  induction 1 as [|leg legs crossed w hop pool crossed' w' Hpool Hc Hw IH]; [constructor|].
  apply best_choice_fresh in Hc as (pool' & q & Hp & _ & Hhop & Ha). assert (pool' = pool) as -> by congruence.
  eapply can_trade_hop; [by eapply list_elem_of_lookup_2|symmetry; exact Ha|].
  replace (sr_amount_out (pq_paid q)) with (hr_amount_out hop) by by rewrite Hhop. exact IH.
Qed.
End gross.

(** *** Winners of other paths *)

(** No path before has left a winner for the pair of a leg: winners are not reused, or no leg's pair
    is remembered and the path visits no pair twice. *)
Definition unremembered (winners : PairWinners) {D T} (legs : list (LegPools D T)) : Prop :=
  reuse_winners winners = false \/
  NoDup (lp_pair <$> legs) /\ forall leg, leg ∈ legs -> winner_by_pair winners !! lp_pair leg = None.

Lemma remember_other winners p p' ix : p' <> p -> remembered (remember winners p ix) p' = remembered winners p'.
Proof.
  intros Hne. unfold remember, remembered. destruct (reuse_winners winners) eqn:Hr; cbn; [by rewrite lookup_insert_ne|by rewrite Hr].
Qed.

Lemma unremembered_head {D T} winners (leg : LegPools D T) legs : unremembered winners (leg :: legs) ->
  remembered winners (lp_pair leg) = None.
Proof. unfold remembered. intros [->|[_ Hw]]; [done|]. rewrite (Hw leg) by left. by destruct (reuse_winners winners). Qed.

Lemma unremembered_tail {D T} winners (leg : LegPools D T) legs ix : unremembered winners (leg :: legs) ->
  unremembered winners legs /\ unremembered (remember winners (lp_pair leg) ix) legs.
Proof.
  intros [Hr|[[Hout Hnd]%NoDup_cons Hw]].
  - split; [by left|]. left. by rewrite remember_reuse.
  - split; right; (split; [done|]); intros leg' Hin; [apply Hw; by right|].
    unfold remember. destruct (reuse_winners winners); cbn; [|apply Hw; by right].
    rewrite lookup_insert_ne; [apply Hw; by right|]. intros Heq. apply Hout. rewrite Heq. by apply list_elem_of_fmap_2.
Qed.

(** A leg without a remembered winner is chosen as if none were kept. *)
Lemma choose_hop_unremembered {D T St} (simulate : LegPools D T -> N -> St -> ComponentId -> St * option PoolQuote)
    (leg : LegPools D T) (legs : list (LegPools D T)) crossed amount winners st : unremembered winners (leg :: legs) ->
  exists st' hop winners', unremembered winners' legs /\
    choose_hop simulate leg crossed amount winners st = (st', winners', hop) /\
    choose_hop simulate leg crossed amount (PairWinners_new false) st = (st', PairWinners_new false, hop).
Proof.
  intros Hu. pose proof (fun ix => unremembered_tail winners leg legs ix Hu) as Ht. unfold choose_hop. destruct (existsb _ _).
  { destruct (best_paying_pool _ _ _ _) as [st' best]. exists st', (fst <$> best), winners. by split; [apply (Ht 0)|]. }
  unfold choose_pool_for_pair. rewrite (unremembered_head _ _ _ Hu). cbn [remembered reuse_winners PairWinners_new mbind option_bind].
  unfold scan_pair. destruct (best_paying_pool _ _ _ _) as [st' [[hop net]|]].
  - exists st', (Some hop), (remember winners (lp_pair leg) (pool_ix hop)). by split; [apply Ht|].
  - exists st', None, winners. by split; [apply (Ht 0)|].
Qed.

Lemma walk_legs_unremembered {D T St} (simulate : LegPools D T -> N -> St -> ComponentId -> St * option PoolQuote)
    (legs : list (LegPools D T)) ix w crossed winners st st' winners0 r : unremembered winners legs ->
  walk_legs simulate legs ix w crossed (PairWinners_new false) st = Ret (st', winners0, r) ->
  exists winners', walk_legs simulate legs ix w crossed winners st = Ret (st', winners', r).
Proof.
  revert ix w crossed winners st. induction legs as [|leg legs IH]; intros ix w crossed winners st Hu; cbn [walk_legs].
  { intros [= <- _ <-]. by exists winners. }
  destruct (choose_hop_unremembered simulate leg legs crossed (wp_amount_out w) winners st Hu) as (st1 & hop & winners1 & Hu1 & -> & ->).
  destruct hop as [hop|]; [|intros [= <- _ <-]; by exists winners1].
  destruct (lp_pools leg !! pool_ix hop) as [chosen|]; [|done]. by apply IH.
Qed.

(** C24: choosing a pool leg by leg, on gross output, gives up nothing beside it. Take pools that
    answer for themselves, where a larger amount served is never paid less, comparisons that charge
    no gas, and legs whose pairs no earlier path of the solve has left a winner for. The walk
    never panics. When it succeeds it is one choice of pools, and no other choice pays more that on every
    leg takes a pool the walk has not crossed and that also serves what the walk brings
    there. When it fails, it stands before a leg no uncrossed pool of which serves what it
    brings. When moreover no pool limits the amount it serves and none trades on two legs, then
    no choice of pools at all pays more than the walk, and where the walk fails none can
    be traded. With limits a walk can fail where another choice trades
    ([limits_defeat_the_walk]). *)
Theorem hop_by_hop_optimal {D T : Type} (answer : LegPools D T -> N -> ComponentId -> option PoolQuote)
    (legs : list (LegPools D T)) (amount_in : N) (winners : PairWinners) :
  monotone answer -> gross answer -> unremembered winners legs ->
  exists winners' r, simulate_token_path (simulate_pure answer) legs amount_in winners tt = Ret (tt, winners', r) /\
   let start := {| wp_hops := []; wp_amount_out := amount_in; wp_gas := 0 |} in
    match r with
    | Ok w => can_trade answer legs amount_in (wp_amount_out w) /\
       (forall out, trades_beside answer legs (wp_hops w) [] amount_in amount_in out -> (out <= wp_amount_out w)%N) /\
       (unlimited answer -> apart legs -> forall out, can_trade answer legs amount_in out -> (out <= wp_amount_out w)%N)
    | Err i => (exists leg crossed w, legs !! i = Some leg /\
         walks (best_choice (pure_answers answer)) (take i legs) [] start crossed w /\
         forall pool, pool ∈ lp_pools leg -> ed_component_id pool ∉ crossed ->
            answer leg (wp_amount_out w) (ed_component_id pool) = None) /\
       (unlimited answer -> apart legs -> forall out, ~ can_trade answer legs amount_in out)
    end.
Proof.
  intros Hm Hg Hu. destruct (token_path_best (simulate_pure answer) (fun _ => True) (pure_answers answer)) with (legs := legs)
    (amount_in := amount_in) (winners := PairWinners_new false) (st := tt) as ([] & winners0 & r & Heq & _ & Hr); [done..|].
  destruct (walk_legs_unremembered _ _ _ _ _ _ _ _ _ _ Hu Heq) as [winners' Hwalk]. exists winners', r. split; [exact Hwalk|].
  assert (uncrossed legs []) as Hun by (intros leg pool _ _; apply not_elem_of_nil). cbn zeta. destruct r as [w|i].
  - destruct Hr as [crossed Hw]. split; [exact (walks_can_trade _ _ _ _ _ _ Hw)|]. split.
    + intros out Htr. by apply (walks_beat_beside answer legs (wp_hops w) [] _ crossed w amount_in out Hm Hg Hw).
    + intros Hl Hap out Htr. apply (walks_beat_beside answer legs (wp_hops w) [] _ crossed w amount_in out Hm Hg Hw); [done| |cbn; lia].
      by apply (apart_beside answer legs (wp_hops w) [] _ crossed w).
  - destruct Hr as (leg & crossed & w & Hi & Hw & Hs). split.
    + exists leg, crossed, w. split; [done|]. split; [done|]. intros pool Hp Hn.
      unfold no_answer in Hs. rewrite Forall_forall in Hs. symmetry. by apply Hs.
    + intros Hl Hap out Htr. by apply (walks_not_stuck answer legs i leg [] _ crossed w amount_in out Hm Hg Hl Hap Hun Hw Hi Htr).
Qed.

(** ** The ranking *)

Section ranking.
Context `{DiGraph (list (EdgeData DepthAndPrice))} (NATIVE_WRAP_COMPONENT : ComponentId).
Implicit Types (g : TopologyGraph (D:=DepthAndPrice)) (constraints : ResolvedRouteConstraints).

Lemma leg_best_has_pool pools constraints :
  (leg_best pools constraints).2 = existsb (fun pool => negb (excludes_pool constraints (ed_component_id pool))) pools.
Proof.
  unfold leg_best. rewrite <- (orb_false_l (existsb _ _)). generalize F64.MIN at 2 as depth. generalize F64.MIN as price.
  generalize false as has. intros has price depth. revert price depth has.
  induction pools as [|pool pools IH]; intros price depth has; cbn [fold_left existsb]; [by rewrite orb_false_r|].
  destruct (excludes_pool _ _); cbn [negb]; [by rewrite IH|]. rewrite orb_true_l, orb_true_r.
  destruct (ed_data pool); rewrite IH; done.
Qed.

(** A leg all of whose pools the request excludes. *)
Definition closed_leg g constraints (leg : NodeIndex * NodeIndex) : Prop :=
  Forall (fun pool => excludes_pool constraints (ed_component_id pool) = true)
    (pools_between NATIVE_WRAP_COMPONENT g leg.1 leg.2).

Lemma score_leg_None g constraints score leg :
  score_leg NATIVE_WRAP_COMPONENT g constraints score leg = None <-> closed_leg g constraints leg.
Proof.
  unfold score_leg, closed_leg. destruct score as [price min_depth].
  pose proof (leg_best_has_pool (pools_between NATIVE_WRAP_COMPONENT g leg.1 leg.2) constraints) as Hh.
  destruct (leg_best _ _) as [[best_price best_depth] has_pool]. cbn in Hh. rewrite Hh. clear Hh.
  destruct (existsb _ _) eqn:He; cbn [negb].
  - split; [by destruct (F64.eqb _ _)|]. rewrite Forall_forall.
    apply existsb_exists in He as (pool & Hin%list_elem_of_In & Hx). intros Hall. by rewrite (Hall _ Hin) in Hx.
  - split; [|done]. intros _. apply Forall_forall. intros pool Hin. destruct (excludes_pool _ _) eqn:Hx; [done|].
    assert (existsb (fun pool => negb (excludes_pool constraints (ed_component_id pool)))
      (pools_between NATIVE_WRAP_COMPONENT g leg.1 leg.2) = true); [|congruence].
    apply existsb_exists. exists pool. split; [by apply list_elem_of_In|by rewrite Hx].
Qed.

Lemma score_legs_None g constraints score legs :
  score_legs NATIVE_WRAP_COMPONENT g constraints score legs = None <-> Exists (closed_leg g constraints) legs.
Proof.
  revert score. induction legs as [|leg legs IH]; intros score; cbn [score_legs]; [split; [done|by intros ?%Exists_nil]|].
  rewrite Exists_cons, <- (score_leg_None g constraints score leg). destruct (score_leg _ _ _ _ _) as [score'|]; cbn [mbind option_bind].
  - rewrite IH. split; [by right|by intros [|]].
  - split; [by left|done].
Qed.

Lemma heuristic_score_None g token_path constraints :
  heuristic_score NATIVE_WRAP_COMPONENT g token_path constraints = None <->
  length token_path < 2 \/ Exists (closed_leg g constraints) (windows2 token_path).
Proof.
  unfold heuristic_score. destruct (Nat.ltb_spec (length token_path) 2) as [Hlt|Hge]; [split; [by left|done]|].
  rewrite <- (score_legs_None g constraints (F64.one, F64.MAX)).
  destruct (score_legs _ _ _ _ _) as [[price depth]|]; cbn [mbind option_bind]; split; try done; [|by right].
  intros [|]; [lia|done].
Qed.

Lemma rank_elem g token_paths constraints p s :
  (p, s) ∈ rank_by_heuristic NATIVE_WRAP_COMPONENT g token_paths constraints <->
  p ∈ token_paths /\ heuristic_score NATIVE_WRAP_COMPONENT g p constraints = Some s.
Proof.
  unfold rank_by_heuristic. rewrite sort_desc_perm, list_elem_of_omap. split.
  - intros (q & Hq & (s' & Hs & [= -> ->])%fmap_Some). done.
  - intros [Hp Hs]. exists p. by rewrite Hs.
Qed.
End ranking.

Lemma StronglySorted_weaken {A} (R R' : relation A) (l : list A) :
  (forall x y, R x y -> R' x y) -> StronglySorted R l -> StronglySorted R' l.
Proof. intros Hsub. induction 1 as [|x l Hs IH Hall]; constructor; [done|]. apply (Forall_impl _ _ _ Hall). by apply Hsub. Qed.

(** The ranking keeps exactly the token paths that have a leg and whose every leg has
    a pool the request allows, each as often as it was given, with its score, and puts a
    path before another only if its score is not less: no path is after one that scores
    strictly lower. *)
Theorem rank_by_heuristic_spec `{DiGraph (list (EdgeData DepthAndPrice))} (NATIVE_WRAP_COMPONENT : ComponentId)
    (g : TopologyGraph (D:=DepthAndPrice)) (token_paths : list (list NodeIndex)) (constraints : ResolvedRouteConstraints) :
  let ranked := rank_by_heuristic NATIVE_WRAP_COMPONENT g token_paths constraints in
  ranked.*1 ≡ₚ List.filter (fun p => negb (length p <? 2) && forallb (fun leg =>
      existsb (fun pool => negb (excludes_pool constraints (ed_component_id pool)))
        (pools_between NATIVE_WRAP_COMPONENT g leg.1 leg.2)) (windows2 p)) token_paths /\
  Forall (fun scored => heuristic_score NATIVE_WRAP_COMPONENT g scored.1 constraints = Some scored.2) ranked /\
  StronglySorted (fun x y => canonical x.2 = true -> canonical y.2 = true -> F64.ltb x.2 y.2 = false) ranked.
Proof.
  cbv zeta. split_and!.
  - unfold rank_by_heuristic. rewrite sort_desc_perm. apply reflexive_eq.
    induction token_paths as [|p token_paths IH]; [done|]. cbn [omap list_omap List.filter].
    match goal with |- context [if ?b then p :: _ else _] => destruct b eqn:Hb end.
    + apply andb_true_iff in Hb as [Hlen%negb_true_iff%Nat.ltb_ge Hall].
      destruct (heuristic_score _ g p constraints) as [s|] eqn:Hs; [by cbn; rewrite IH|].
      apply heuristic_score_None in Hs as [|Hex]; [lia|]. apply Exists_exists in Hex as (leg & Hin & Hc).
      eapply forallb_forall in Hall; [|by apply list_elem_of_In].
      apply existsb_exists in Hall as (pool & Hp%list_elem_of_In & Hx). unfold closed_leg in Hc. rewrite Forall_forall in Hc.
      by rewrite (Hc _ Hp) in Hx.
    + destruct (heuristic_score _ g p constraints) as [s|] eqn:Hs; [|done]. exfalso.
      assert (heuristic_score NATIVE_WRAP_COMPONENT g p constraints = None) as Hn; [|congruence].
      apply heuristic_score_None. apply andb_false_iff in Hb as [Hlen%negb_false_iff%Nat.ltb_lt|Hall]; [by left|right].
      apply Exists_exists. apply not_true_iff_false in Hall. setoid_rewrite forallb_forall in Hall.
      destruct (decide (Exists (fun leg => existsb (fun pool => negb (excludes_pool constraints (ed_component_id pool)))
        (pools_between NATIVE_WRAP_COMPONENT g leg.1 leg.2) = false) (windows2 p))) as [Hex|Hnex].
      * apply Exists_exists in Hex as (leg & Hin & He). exists leg. split; [done|]. unfold closed_leg. apply Forall_forall.
        intros pool Hp. destruct (excludes_pool _ _) eqn:Hx; [done|]. apply not_true_iff_false in He. destruct He.
        apply existsb_exists. exists pool. split; [by apply list_elem_of_In|by rewrite Hx].
      * destruct Hall. intros leg Hin%list_elem_of_In. destruct (existsb _ _) eqn:He; [done|].
        destruct Hnex. apply Exists_exists. by exists leg.
  - apply Forall_forall. intros [p s] Hin. by apply rank_elem in Hin as [_ Hs].
  - unfold rank_by_heuristic. eapply StronglySorted_weaken; [|apply sort_desc_sorted].
    intros x y Hxy Hcx Hcy. destruct (F64.ltb x.2 y.2) eqn:Hlt; [|done].
    pose proof (total_order_lt _ _ Hcx Hcy Hlt). unfold ranked_by in Hxy. lia.
Qed.
