(* ===== verification/Paths.v ===== *)
(** * Paths: finding, scoring and simulating routes that name a pool for every leg

    [fynd-core/src/algorithm/paths.rs]. A simulated path carries each pool's state after its
    swap forward, so a pool crossed twice pays the second time what it then would. *)

From stdpp Require Import prelude gmap strings list.
From Stdlib Require Import NArith ZArith Lia.
From S2P Require Import Prelude F64 Types Route Amounts DerivedStore SpotPriceComputation MarketData.
From S2P Require Import SwapCache Algorithm StableGraph TokenGraph PathScoring.

(** ** Reading the market *)

Section market.
Context `{TychoGas} `{!Messages}.
Implicit Types (market : MarketState).

Definition get_token market (address : Address) : result AlgorithmError Token :=
  match tokens market !! address with
  | Some token => Ok token
  | None => Err (AE_DataNotFound "token" (Some (show_address_debug address)))
  end.

Definition read_market (md : MarketData) (label : option StateLabel) : result AlgorithmError MarketDataView :=
  match label with
  | Some l =>
      match read_labeled md l with
      | Some view => Ok view
      | None => Err (AE_Other (show_label_not_found l))
      end
  | None => Ok (read md)
  end.

Definition fetch_gas_price market : result AlgorithmError N :=
  match gas_price market with
  | Some price => Ok (effective_gas_price price)
  | None => Err (AE_DataNotFound "gas price" None)
  end.
End market.

(** ** Finding *)

Section find.
Context {D : Type} `{DiGraph (list (EdgeData D))} (NATIVE_WRAP_COMPONENT : ComponentId).
Implicit Types (g : TopologyGraph (D:=D)) (from to : Address) (search : RouteSearch).

Definition find_token_paths g from to search : result AlgorithmError (list (list NodeIndex)) :=
  match paths_between NATIVE_WRAP_COMPONENT g from to search with
  | Ok paths => Ok paths
  | Err error =>
      Err (AE_NoPath from to
             match error with
             | TokenNotFound missing =>
                 if decide (missing = from) then SourceTokenNotInGraph else DestinationTokenNotInGraph
             | _ => DestinationTokenNotInGraph
             end)
  end.

(** [Vec::extend] over the token paths' expansions. *)
Fixpoint extend_paths g (token_paths : list (list NodeIndex)) (max_paths : option nat)
    (constraints : ResolvedRouteConstraints) (paths : list (Path D)) : outcome (list (Path D)) :=
  match token_paths with
  | [] => Ret paths
  | token_path :: token_paths =>
      expanded ← expand_path NATIVE_WRAP_COMPONENT g token_path max_paths constraints;
      extend_paths g token_paths max_paths constraints (paths ++ expanded)
  end.

Definition find_paths g from to search (max_paths_per_sequence : option nat)
    : outcome (result AlgorithmError (list (Path D))) :=
  match find_token_paths g from to search with
  | Err e => Ret (Err e)
  | Ok token_paths => Ok <$> extend_paths g token_paths max_paths_per_sequence (rs_constraints search) []
  end.
End find.

(** ** Scoring *)

Fixpoint score_edges (edges : list (EdgeData DepthAndPrice)) (price min_depth : f64) : option (f64 * f64) :=
  match edges with
  | [] => Some (price, min_depth)
  | edge :: edges =>
      data ← ed_data edge;
      score_edges edges (F64.mul price (dp_spot_price data)) (F64.min min_depth (dp_depth data))
  end.

Definition try_score_path (path : Path DepthAndPrice) : option f64 :=
  match path_edge_data path with
  | [] => None
  | edges => '(price, min_depth) ← score_edges edges F64.one F64.MAX; Some (F64.mul price min_depth)
  end.

(** ** Simulating *)

(** What the loops that build swaps carry from hop to hop. *)
Record SwapChain `{Tycho} := {
  sc_amount : N;
  sc_swaps : list Swap;
  sc_overrides : gmap ComponentId ProtocolSim;
  sc_tokens : gmap Address Token;
}.

Section simulate.
Context `{TychoGas} `{!Messages} `{!TychoSwaps}.
Implicit Types (market : MarketState) (chain : SwapChain).

Definition SwapChain_start (amount_in : N) : SwapChain :=
  {| sc_amount := amount_in; sc_swaps := []; sc_overrides := ∅; sc_tokens := ∅ |}.

(** [entry().or_insert_with]. *)
Definition or_insert (tokens : gmap Address Token) (token : Token) : gmap Address Token :=
  match tokens !! token_address_of token with
  | Some _ => tokens
  | None => <[token_address_of token := token]> tokens
  end.

(** The swap of one hop: simulated, recorded, and its pool's new state kept. *)
Definition swap_hop chain (component_id : ComponentId) (component : ProtocolComponent) (state : ProtocolSim)
    (token_in token_out : Token) : result AlgorithmError SwapChain :=
  match get_amount_out_guarded state (sc_amount chain) token_in token_out with
  | Err e => Err (AE_Other ("simulation error: " +:+ show_simulation_error e))
  | Ok simulated => Ok {|
      sc_amount := gao_amount simulated;
      sc_swaps := sc_swaps chain ++
        [Swap_new component_id (protocol_system_of component) (token_address_of token_in)
           (token_address_of token_out) (sc_amount chain) (gao_amount simulated) (gao_gas simulated)
           component state];
      sc_overrides := <[component_id := gao_new_state simulated]> (sc_overrides chain);
      sc_tokens := or_insert (or_insert (sc_tokens chain) token_in) token_out |}
  end.

Definition found {A} (kind id : string) (o : option A) : result AlgorithmError A :=
  match o with Some a => Ok a | None => Err (AE_DataNotFound kind (Some id)) end.

Definition path_hop market chain (hop : Address * Address * ComponentId) : result AlgorithmError SwapChain :=
  let '(address_in, address_out, component_id) := hop in
  token_in ← get_token market address_in;
  token_out ← get_token market address_out;
  component ← found "component" component_id (get_component market component_id);
  component_state ← found "simulation state" component_id (simulation_states market !! component_id);
  swap_hop chain component_id component (default component_state (sc_overrides chain !! component_id))
    token_in token_out.

Fixpoint path_hops market chain (hops : list (Address * Address * ComponentId)) : result AlgorithmError SwapChain :=
  match hops with
  | [] => Ok chain
  | hop :: hops => chain ← path_hop market chain hop; path_hops market chain hops
  end.

(** [Path::iter]. *)
Definition path_iter {D} (path : Path D) : list (Address * Address * ComponentId) :=
  zip (windows2 (path_tokens path)) (ed_component_id <$> path_edge_data path).

Definition gas_cost_of_route (token_prices : option TokenGasPrices) (gas_price : N) (route : Route) (token : Address) : N :=
  default 0 (prices ← token_prices; price ← prices !! token; gas_cost_in_token (total_gas route) gas_price price).

Definition simulate_pool_path {D} (path : Path D) market (token_prices : option TokenGasPrices) (amount_in : N)
    : result AlgorithmError RouteResult :=
  chain ← path_hops market (SwapChain_start amount_in) (path_iter path);
  match Route_new (sc_swaps chain) (map_to_list (sc_tokens chain)) with
  | Err e => Err (AlgorithmError_from e)
  | Ok route =>
      let output_amount := default 0 (sw_amount_out <$> last (rt_swaps route)) in
      price ← fetch_gas_price market;
      let net_amount_out :=
        match last (rt_swaps route) with
        | Some last_swap =>
            Z.of_N output_amount - Z.of_N (gas_cost_of_route token_prices price route (sw_token_out last_swap))
        | None => Z.of_N output_amount
        end%Z in
      Ok (RouteResult_new route net_amount_out price)
  end.
End simulate.
