(* ===== verification/MostLiquid.v ===== *)
(** * MostLiquid: the algorithm that picks one unsplit route

    [fynd-core/src/algorithm/most_liquid.rs]. Token sequences are searched and ranked by
    edge weights, solved hop by hop against a snapshot of the market, and the one with the
    greatest net output is simulated again and built into a route. The clock is a sequence
    of readings of the time since the solve began, one per check. *)

From stdpp Require Import prelude gmap sets strings list pretty.
From Stdlib Require Import NArith ZArith Lia.
From S2P Require Import Prelude F64 Types Route Amounts DerivedStore SpotPriceComputation MarketData.
From S2P Require Import SwapCache Algorithm StableGraph TokenGraph PathScoring Paths.

#[local] Open Scope nat_scope.

(** ** Edge weights *)

Section weights.
Context `{Tycho} (to_f64 : N -> option f64).

(** One half of a token's price, through [BigUint::to_f64] of [num_traits]. *)
Definition price_part (value : N) : option f64 :=
  match to_f64 value with
  | Some v => if F64.gtb v F64.zero then Some v else None
  | None => None
  end.

Definition from_sim_and_derived (_ : ProtocolSim) (component_id : ComponentId)
    (token_in token_out : Token) (derived : DerivedData) : option DepthAndPrice :=
  let key := (component_id, token_address_of token_in, token_address_of token_out) in
  spot_price ← (prices ← spot_prices derived; prices !! key);
  raw_depth ← (depths ← component_depths derived; (fun d => default F64.zero (to_f64 d)) <$> depths !! key);
  price ← (prices ← token_prices derived; prices !! token_address_of token_in);
  num ← price_part (price_numerator price);
  den ← price_part (price_denominator price);
  Some {| dp_spot_price := spot_price; dp_depth := F64.div (F64.mul raw_depth den) num |}.
End weights.

(** ** The algorithm's data *)

Record MostLiquidAlgorithm := {
  ml_query : GraphQueryFilter;
  ml_timeout : N;
  ml_max_routes : option nat;
  ml_cache_pair_swaps : bool;
}.

Definition MostLiquidAlgorithm_new : MostLiquidAlgorithm := {|
  ml_query := {| min_hops := 1; max_hops := 3; connector_tokens := None |};
  ml_timeout := 500 * 1000000;
  ml_max_routes := None;
  ml_cache_pair_swaps := true |}.

Definition with_config (config : AlgorithmConfig) : result AlgorithmError MostLiquidAlgorithm :=
  if (ac_min_hops config =? 0) || (ac_max_hops config <? ac_min_hops config)
  then Err (AE_InvalidConfiguration
              ("invalid hop configuration: min_hops=" +:+ pretty (ac_min_hops config) +:+ " max_hops="
                 +:+ pretty (ac_max_hops config)))
  else Ok {| ml_query := {| min_hops := ac_min_hops config; max_hops := ac_max_hops config;
                            connector_tokens := ac_connector_tokens config |};
             ml_timeout := ac_timeout config;
             ml_max_routes := ac_max_routes config;
             ml_cache_pair_swaps := true |}.

Inductive MostLiquidError :=
| HopNotTradable (from to : NodeIndex)
| TokenMissing (token : NodeIndex).

Record SolvedRoute := {
  sv_hops : list HopResult;
  sv_net_amount_out : Z;
}.

(** The counters of [SolveReport]; what it logs is left out. *)
Record SolveReport := {
  paths_candidates : nat;
  paths_to_simulate : nat;
  paths_simulated : nat;
  scoring_failures : nat;
  simulation_failures : nat;
  validation_failures : nat;
}.

Definition count_simulated (r : SolveReport) : SolveReport :=
  {| paths_candidates := paths_candidates r; paths_to_simulate := paths_to_simulate r;
     paths_simulated := S (paths_simulated r); scoring_failures := scoring_failures r;
     simulation_failures := simulation_failures r; validation_failures := validation_failures r |}.

Definition count_simulation_failure (r : SolveReport) : SolveReport :=
  {| paths_candidates := paths_candidates r; paths_to_simulate := paths_to_simulate r;
     paths_simulated := paths_simulated r; scoring_failures := scoring_failures r;
     simulation_failures := S (simulation_failures r); validation_failures := validation_failures r |}.

Definition count_validation_failure (r : SolveReport) : SolveReport :=
  {| paths_candidates := paths_candidates r; paths_to_simulate := paths_to_simulate r;
     paths_simulated := paths_simulated r; scoring_failures := scoring_failures r;
     simulation_failures := simulation_failures r; validation_failures := S (validation_failures r) |}.

Section most_liquid.
Context `{TychoGas} `{!Messages} `{!TychoSwaps} `{DiGraph (list (EdgeData DepthAndPrice))}.
Context (NATIVE_WRAP_COMPONENT : ComponentId).

(** What every candidate is solved against; the time is read apart. *)
Record SolveContext := {
  cx_graph : TopologyGraph (D:=DepthAndPrice);
  cx_market : MarketState;
  cx_constraints : ResolvedRouteConstraints;
  cx_token_prices : option TokenGasPrices;
  cx_amount_in : N;
  cx_gas_price : N;
}.
Implicit Types (ctx : SolveContext) (token_path : list NodeIndex) (cache : SwapCache) (winners : PairWinners).

Abbreviation LegTokens := (Token * Token * option Price)%type.
Abbreviation Leg := (LegPools DepthAndPrice LegTokens).

Definition get_pair_data ctx (leg : NodeIndex * NodeIndex) : result MostLiquidError LegTokens :=
  match tokens (cx_market ctx) !! node_address (cx_graph ctx) leg.1 with
  | None => Err (TokenMissing leg.1)
  | Some token_in =>
      match tokens (cx_market ctx) !! node_address (cx_graph ctx) leg.2 with
      | None => Err (TokenMissing leg.2)
      | Some token_out =>
          Ok (token_in, token_out, prices ← cx_token_prices ctx; prices !! token_address_of token_out)
      end
  end.

Fixpoint collect_legs ctx (pairs : list (NodeIndex * NodeIndex)) : result MostLiquidError (list Leg) :=
  match pairs with
  | [] => Ok []
  | leg :: pairs =>
      data ← get_pair_data ctx leg;
      legs ← collect_legs ctx pairs;
      Ok ({| lp_pair := leg;
             lp_pools := pools_between NATIVE_WRAP_COMPONENT (cx_graph ctx) leg.1 leg.2;
             lp_data := data |} :: legs)
  end.

(** What the market's state of a pool pays, as the swap cache keeps it. *)
Definition simulate_swap ctx (token_in token_out : Token) (component_id : ComponentId) (amount : N)
    : result Refusal SwapResult :=
  match simulation_states (cx_market ctx) !! component_id with
  | None => Err Failed
  | Some state =>
      match get_amount_out_guarded state amount token_in token_out with
      | Ok simulated => Ok {| sr_amount_out := gao_amount simulated; sr_gas := gao_gas simulated |}
      | Err error => Err (Refusal_of error)
      end
  end.

Definition gas_cost ctx (price : option Price) (gas : N) : N :=
  default 0%N (price ← price; gas_cost_in_token gas (cx_gas_price ctx) price).

(** The closure of [solve_token_path]. *)
Definition quote_pool ctx (leg : Leg) (amount : N) cache (component_id : ComponentId)
    : SwapCache * option PoolQuote :=
  if excludes_pool (cx_constraints ctx) component_id then (cache, None)
  else
    let '(token_in, token_out, token_out_gas_price) := lp_data leg in
    let '(cache, paid) :=
      swap cache (component_id, token_address_of token_in, token_address_of token_out) amount
        (simulate_swap ctx token_in token_out component_id amount) true in
    (cache,
     paid ← paid;
     Some {| pq_paid := paid;
             pq_net := Z.of_N (sr_amount_out paid) - Z.of_N (gas_cost ctx token_out_gas_price (sr_gas paid)) |}).

Definition solve_token_path ctx token_path winners cache
    : outcome (SwapCache * PairWinners * result MostLiquidError SolvedRoute) :=
  match collect_legs ctx (windows2 token_path) with
  | Err e => Ret (cache, winners, Err e)
  | Ok legs =>
      '(cache, winners, scored) ← simulate_token_path (quote_pool ctx) legs (cx_amount_in ctx) winners cache;
      match scored with
      | Err leg_ix =>
          match legs !! leg_ix with
          | Some leg => Ret (cache, winners, Err (HopNotTradable (lp_pair leg).1 (lp_pair leg).2))
          | None => Panic
          end
      | Ok walked =>
          let cost := gas_cost ctx (leg ← last legs; (lp_data leg).2) (wp_gas walked) in
          Ret (cache, winners,
               Ok {| sv_hops := wp_hops walked;
                     sv_net_amount_out := Z.of_N (wp_amount_out walked) - Z.of_N cost |})
      end
  end.

(** ** Building the winner *)

Definition build_hop ctx (chain : SwapChain) (hop : NodeIndex * NodeIndex * HopResult)
    : result AlgorithmError SwapChain :=
  let '(from, to, solved) := hop in
  let address_in := node_address (cx_graph ctx) from in
  let address_out := node_address (cx_graph ctx) to in
  token_in ← get_token (cx_market ctx) address_in;
  token_out ← get_token (cx_market ctx) address_out;
  component_id ← found "pool" (show_address_debug address_in +:+ " -> " +:+ show_address_debug address_out)
    (ed_component_id <$> pools_between NATIVE_WRAP_COMPONENT (cx_graph ctx) from to !! pool_ix solved);
  component ← found "component" component_id (get_component (cx_market ctx) component_id);
  state ← found "simulation state" component_id
    (match sc_overrides chain !! component_id with
     | Some state => Some state
     | None => simulation_states (cx_market ctx) !! component_id
     end);
  swap_hop chain component_id component state token_in token_out.

Fixpoint build_hops ctx (chain : SwapChain) (hops : list (NodeIndex * NodeIndex * HopResult))
    : result AlgorithmError SwapChain :=
  match hops with
  | [] => Ok chain
  | hop :: hops => chain ← build_hop ctx chain hop; build_hops ctx chain hops
  end.

Definition build_route ctx token_path (solved : SolvedRoute) : result AlgorithmError Route :=
  chain ← build_hops ctx (SwapChain_start (cx_amount_in ctx)) (zip (windows2 token_path) (sv_hops solved));
  match Route_new (sc_swaps chain) (map_to_list (sc_tokens chain)) with
  | Ok route => Ok route
  | Err e => Err (AlgorithmError_from e)
  end.

(** The built route's output less what its gas costs. *)
Definition swap_on_route ctx (route : Route) : Z :=
  match last (rt_swaps route) with
  | None => 0
  | Some last_swap =>
      match prices ← cx_token_prices ctx; prices !! sw_token_out last_swap with
      | None => Z.of_N (sw_amount_out last_swap)
      | Some price =>
          let gas := sum_by sw_gas_estimate (rt_swaps route) in
          Z.of_N (sw_amount_out last_swap) - Z.of_N (default 0%N (gas_cost_in_token gas (cx_gas_price ctx) price))
      end
  end.

(** ** Solving the candidates *)

(** [clock i] is the elapsed time in milliseconds at the solve's [i]-th reading. The result
    is the best candidate, the report, and the index of the next reading. *)
Fixpoint solve_candidates ctx (timeout_ms : N) (clock : nat -> N) (i : nat) (scored : list (list NodeIndex * f64))
    (best : option (list NodeIndex * SolvedRoute)) winners cache (report : SolveReport)
    : outcome (option (list NodeIndex * SolvedRoute) * SolveReport * nat) :=
  match scored with
  | [] => Ret (best, report, i)
  | (token_path, _) :: scored =>
      if (timeout_ms <? clock i)%N then Ret (best, report, S i)
      else
        '(cache, winners, solved) ← solve_token_path ctx token_path winners cache;
        match solved with
        | Err _ =>
            solve_candidates ctx timeout_ms clock (S i) scored best winners cache (count_simulation_failure report)
        | Ok solved =>
            let best :=
              match best with
              | Some (_, previous) =>
                  if (sv_net_amount_out previous <? sv_net_amount_out solved)%Z then Some (token_path, solved) else best
              | None => Some (token_path, solved)
              end in
            solve_candidates ctx timeout_ms clock (S i) scored best winners cache (count_simulated report)
        end
  end.

Definition solve_for_best_path (algorithm : MostLiquidAlgorithm) (scored_paths : list (list NodeIndex * f64))
    (report : SolveReport) ctx (clock : nat -> N) : outcome (result AlgorithmError RouteResult * SolveReport) :=
  let timeout_ms := as_millis (ml_timeout algorithm) in
  '(best_route, report, i) ← solve_candidates ctx timeout_ms clock 0 scored_paths None
    (PairWinners_new (ml_cache_pair_swaps algorithm)) ∅ report;
  let no_route report :=
    let solve_time_ms := clock i in
    Ret (if (timeout_ms <? solve_time_ms)%N then Err (AE_Timeout solve_time_ms) else Err AE_InsufficientLiquidity,
         report) in
  match best_route with
  | None => no_route report
  | Some (token_path, solved) =>
      match build_route ctx token_path solved with
      | Err e => Ret (Err e, report)
      | Ok route =>
          validated ← Route_validate route;
          match validated with
          | Err _ => no_route (count_validation_failure report)
          | Ok _ => Ret (Ok (RouteResult_new route (swap_on_route ctx route) (cx_gas_price ctx)), report)
          end
      end
  end.

(** The components of every pair on a scored path that the request allows. *)
Definition path_components (g : TopologyGraph) (scored_paths : list (list NodeIndex * f64))
    (constraints : ResolvedRouteConstraints) : gset ComponentId :=
  list_to_set
    (List.filter (fun id => negb (excludes_pool constraints id))
       (scored_paths ≫= fun scored => windows2 scored.1 ≫= fun leg =>
          ed_component_id <$> pools_between NATIVE_WRAP_COMPONENT g leg.1 leg.2)).

Definition snapshot_market_state (g : TopologyGraph) (market : MarketData) (label : option StateLabel)
    (scored_paths : list (list NodeIndex * f64)) (constraints : ResolvedRouteConstraints)
    : result AlgorithmError MarketState :=
  view ← read_market market label;
  Ok (extract_subset_with_overlay view (path_components g scored_paths constraints)).

(** [find_best_route]; the report goes to metrics and logs. *)
Definition find_best_route (algorithm : MostLiquidAlgorithm) (request : SolveParts TopologyGraph)
    (clock : nat -> N) : outcome (result AlgorithmError RouteResult) :=
  let order := so_order request in
  let graph := so_graph request in
  let constraints := so_constraints request in
  if negb (Order_is_sell order) then Ret (Err AE_ExactOutNotSupported)
  else
    let prices := so_derived request ≫= token_prices in
    let search := {| rs_bounds := ml_query algorithm; rs_constraints := constraints |} in
    match find_token_paths NATIVE_WRAP_COMPONENT graph (order_token_in order) (order_token_out order) search with
    | Err e => Ret (Err e)
    | Ok [] => Ret (Err (AE_NoPath (order_token_in order) (order_token_out order) NoGraphPath))
    | Ok all_paths =>
        match rank_by_heuristic NATIVE_WRAP_COMPONENT graph all_paths constraints with
        | [] => Ret (Err (AE_NoPath (order_token_in order) (order_token_out order) NoScorablePaths))
        | all_scored =>
            let scored_paths := default all_scored ((fun n => take n all_scored) <$> ml_max_routes algorithm) in
            let report := {|
              paths_candidates := length all_paths;
              paths_to_simulate := length scored_paths;
              paths_simulated := 0;
              scoring_failures := length all_paths - length all_scored;
              simulation_failures := 0;
              validation_failures := 0 |} in
            match snapshot_market_state graph (so_market request) (so_label request) scored_paths constraints with
            | Err e => Ret (Err e)
            | Ok market =>
                match fetch_gas_price market with
                | Err e => Ret (Err e)
                | Ok gas_price =>
                    fst <$> solve_for_best_path algorithm scored_paths report
                      {| cx_graph := graph; cx_market := market; cx_constraints := constraints;
                         cx_token_prices := prices; cx_amount_in := order_amount order;
                         cx_gas_price := gas_price |} clock
                end
            end
        end
    end.
End most_liquid.
