(* ===== verification/MostLiquidProofs.v ===== *)
(** * MostLiquidProofs: what a most-liquid solve returns

    The search's paths lead from the order's token to the other; a solved path takes a
    listed, allowed, uncrossed pool on each hop; the built swaps chain, each paying what the
    pool's state in the view says; and the built route is always valid. *)

From stdpp Require Import prelude gmap sets strings list.
From Stdlib Require Import NArith ZArith Lia.
From S2P Require Import Prelude F64 Types Route RouteProofs Amounts DerivedStore SpotPriceComputation MarketData MarketDataProofs.
From S2P Require Import SwapCache Algorithm StableGraph TokenGraph PathScoring Paths MostLiquid.
From S2P Require Import RouteSearchProofs TokenPaths ExpandPath TokenGraphLaws MarketProperties.

#[local] Open Scope nat_scope.

(** ** The paths of the search *)

Section token_paths.
Context {D : Type} `{DiGraph (list (EdgeData D))} (NATIVE_WRAP_COMPONENT : ComponentId).
Context (g : TopologyGraph (D:=D)) (search : RouteSearch).
Implicit Types (from to : NodeIndex) (p : list NodeIndex).

Record token_path_ok from to p : Prop := {
  tp_head : head p = Some from;
  tp_last : last p = Some to;
  tp_length : 2 <= length p;
  tp_simple : NoDup p \/ NoDup (removelast p) /\ last p = head p;
  tp_allowed : forall t, t ∈ p -> allowed g search (from, to) t = true;
  tp_hops : min_hops (rs_bounds search) <= Nat.max (hops g p) 1 /\ hops g p <= max_hops (rs_bounds search);
  tp_visits : visits_all_required_tokens (rs_constraints search) (node_address g <$> p) = true;
}.

Lemma ends_apart from to p : from <> to -> head p = Some from -> last p = Some to -> 2 <= length p.
Proof. intros Hne Hh Hl. destruct p as [|a [|b p]]; [done|cbn in *; congruence|cbn; lia]. Qed.

Lemma bidirectional_path_ok from to p : search_ok g -> from <> to -> 1 <= min_hops (rs_bounds search) <= max_hops (rs_bounds search) ->
  p ∈ bidirectional_search NATIVE_WRAP_COMPONENT g from to search ->
  visits_all_required_tokens (rs_constraints search) (node_address g <$> p) = true -> token_path_ok from to p.
Proof.
  intros Hok Hne Hb Hp Hv. apply (bidirectional_search_elem NATIVE_WRAP_COMPONENT g search from to p Hok ltac:(lia)) in Hp.
  destruct (allowed_endpoint g search (from, to)) as [Ha1 Ha2].
  destruct Hp as [(Hmin & Hw & ->)|(n & s1 & m & s2 & Hn & Hm)].
  - pose proof (wrap_is_pair NATIVE_WRAP_COMPONENT g search from to Hw) as Hp.
    assert (hops g [from; to] = 0) as Hh by (rewrite hops_cons, Hp; done). split; [done|done|cbn; lia| | |lia|done].
    + left. apply NoDup_cons. split; [by intros ?%list_elem_of_singleton|apply NoDup_singleton].
    + by intros t [->|[->|[]%not_elem_of_nil]%elem_of_cons]%elem_of_cons.
  - pose proof (meets_hops _ _ _ _ _ _ _ _ _ _ Hm) as Hh. destruct Hm as [-> Hhd Hl Hnd Hall _ _ _ _ _].
    split; [done|done|by eapply ends_apart|by left|done|lia|done].
Qed.

Lemma circular_path_ok target p s : circular_route NATIVE_WRAP_COMPONENT g search target p s ->
  visits_all_required_tokens (rs_constraints search) (node_address g <$> p) = true -> token_path_ok target target p.
Proof.
  intros [-> [Hh Hnd Hall _ _] _ _ Hmin Hmax] Hv.
  assert (s <> []) as Hs by (by intros ->). destruct (allowed_endpoint g search (target, target)) as [Ha _].
  assert (head (s ++ [target]) = Some target) as Hhd by (by destruct s).
  split; [done|by rewrite last_snoc| | | |done|done].
  - rewrite length_app. destruct s; [done|cbn; lia].
  - right. rewrite removelast_last, last_snoc. split; [done|by rewrite Hhd].
  - intros t [Ht|Ht%list_elem_of_singleton]%elem_of_app; [|by subst].
    destruct s as [|a s]; [done|]. apply elem_of_cons in Ht as [->|Ht]; [by injection Hh as ->|by apply Hall].
Qed.

(** Every path the search returns, whatever its pools trade. *)
Lemma paths_between_ix_sound from to p : search_ok g -> p ∈ paths_between_ix NATIVE_WRAP_COMPONENT g from to search ->
  token_path_ok from to p.
Proof.
  intros Hok Hp. unfold paths_between_ix in Hp.
  destruct (_ || _) eqn:Hb in Hp; [by apply not_elem_of_nil in Hp|].
  apply orb_false_iff in Hb as [Hb1%bool_decide_eq_false Hb2%Nat.ltb_ge].
  apply elem_of_filterb in Hp as [Hp Hv]. case_decide as Hft; [subst|].
  - apply (circular_token_paths_lemma NATIVE_WRAP_COMPONENT g search to Hok) in Hp as [s Hs]. by eapply circular_path_ok.
  - apply bidirectional_path_ok; [done|done|lia|done|done].
Qed.
End token_paths.

Lemma head_fmap {A B} (f : A -> B) (l : list A) : head (f <$> l) = f <$> head l.
Proof. by destruct l. Qed.

Lemma elem_of_removelast {A} (x : A) (l : list A) : x ∈ removelast l -> x ∈ l.
Proof.
  induction l as [|a [|b l] IH]; [done|by intros []%not_elem_of_nil|]. cbn [removelast].
  intros [->|Hx]%elem_of_cons; [left|right]. by apply IH.
Qed.

(** ** Solving and building *)

Section solve.
Context `{TychoGas} `{!Messages} `{!TychoSwaps} `{DiGraph (list (EdgeData DepthAndPrice))}.
Context (NATIVE_WRAP_COMPONENT : ComponentId).
Implicit Types (ctx : SolveContext) (p : list NodeIndex) (solved : SolvedRoute) (s : Swap) (chain : SwapChain).

(** On a pair, the hop's pool is the listed one with this id. *)
Definition hop_pool ctx (leg : NodeIndex * NodeIndex) (hop : HopResult) (id : ComponentId) : Prop :=
  exists pool, pools_between NATIVE_WRAP_COMPONENT (cx_graph ctx) leg.1 leg.2 !! pool_ix hop = Some pool /\
    ed_component_id pool = id.

(** The hops of a solved path: distinct listed pools that the request allows. *)
Definition solved_ok ctx p solved : Prop := exists ids, NoDup ids /\
  Forall3 (fun leg hop id => hop_pool ctx leg hop id /\ excludes_pool (cx_constraints ctx) id = false)
    (windows2 p) (sv_hops solved) ids.

Lemma collect_legs_Ok ctx pairs legs : collect_legs NATIVE_WRAP_COMPONENT ctx pairs = Ok legs ->
  Forall2 (fun leg data => lp_pools data = pools_between NATIVE_WRAP_COMPONENT (cx_graph ctx) leg.1 leg.2 /\
    lp_pair data = leg /\ get_pair_data ctx leg = Ok (lp_data data)) pairs legs.
Proof.
  revert legs. induction pairs as [|leg pairs IH]; intros legs; cbn [collect_legs]; [intros [= <-]; constructor|].
  intros Hc. outcome_inv. subst legs. constructor; [done|]. by apply IH.
Qed.

Definition answers_allowed ctx (leg : LegPools DepthAndPrice (Token * Token * option Price)) (amount : N)
    (id : ComponentId) (quote : option PoolQuote) : Prop :=
  match quote with Some _ => excludes_pool (cx_constraints ctx) id = false | None => True end.

Lemma quote_pool_allowed ctx leg amount cache id :
  answers_allowed ctx leg amount id (quote_pool ctx leg amount cache id).2.
Proof.
  unfold quote_pool, answers_allowed. destruct (excludes_pool _ _); [done|]. destruct (lp_data leg) as [[a b] price].
  destruct (swap _ _ _ _ _) as [cache' paid]. by destruct paid.
Qed.

Lemma solve_token_path_spec ctx p winners cache :
  exists cache' winners' r, solve_token_path NATIVE_WRAP_COMPONENT ctx p winners cache = Ret (cache', winners', r) /\
    match r with Ok solved => solved_ok ctx p solved | Err _ => True end.
Proof.
  unfold solve_token_path. destruct (collect_legs _ ctx (windows2 p)) as [legs|e] eqn:Hl; [|by eexists _, _, (Err e)].
  destruct (token_path_fresh (quote_pool ctx) (fun _ => True) (answers_allowed ctx)) with (legs := legs)
    (amount_in := cx_amount_in ctx) (winners := winners) (st := cache) as (cache' & winners' & r & -> & _ & Hr); [|done|].
  { intros leg amount c id _. split; [done|apply quote_pool_allowed]. }
  cbn [mbind outcome_bind]. cbn zeta in Hr. destruct r as [w|i].
  - eexists _, _, (Ok _). split; [done|]. destruct Hr as [crossed Hw].
    destruct (walks_fresh _ _ _ _ _ _ Hw ltac:(constructor)) as (hops & ids & Hh & _ & Hnd & Hall).
    exists ids. cbn in Hh, Hnd |- *. rewrite Hh. split; [done|]. apply collect_legs_Ok in Hl.
    clear Hw Hh Hnd. revert hops ids Hall. induction Hl as [|leg data pairs legs Hd Hl IH]; intros hops ids Hall;
      inversion Hall as [|d hop id legs' hops' ids' [Hp [a [q Ha]]] Hrest]; subst; constructor; [|by apply IH].
    split; [|exact Ha]. destruct Hd as (Hpools & _ & _). destruct Hp as (pool & Hp & Hid).
    exists pool. by rewrite <- Hpools.
  - destruct Hr as (leg & crossed & w & Hi & _). rewrite Hi. by eexists _, _, (Err _).
Qed.

Lemma solve_candidates_spec ctx timeout_ms clock scored : forall i best winners cache report,
  (forall p solved, best = Some (p, solved) -> solved_ok ctx p solved) ->
  exists best' report' i', solve_candidates NATIVE_WRAP_COMPONENT ctx timeout_ms clock i scored best winners cache report
      = Ret (best', report', i') /\
    forall p solved, best' = Some (p, solved) -> (best = Some (p, solved) \/ p ∈ scored.*1) /\ solved_ok ctx p solved.
Proof.
  induction scored as [|[p x] scored IH]; intros i best winners cache report Hb; cbn [solve_candidates].
  { eexists _, _, _. split; [done|]. intros p solved Hp. split; [by left|by apply Hb]. }
  destruct (_ <? _)%N. { eexists _, _, _. split; [done|]. intros p' solved Hp. split; [by left|by apply Hb]. }
  destruct (solve_token_path_spec ctx p winners cache) as (cache' & winners' & r & -> & Hr). cbn [mbind outcome_bind].
  destruct r as [solved|e].
  - set (best1 := match best with Some (_, previous) => _ | None => _ end).
    assert (best1 = best \/ best1 = Some (p, solved)) as Hb1.
    { subst best1. destruct best as [[p0 previous]|]; [|by right]. destruct (_ <? _)%Z; [by right|by left]. }
    destruct (IH (S i) best1 winners' cache' (count_simulated report)) as (best' & report' & i' & -> & Hbest).
    { intros p' solved' Hp. destruct Hb1 as [Heq|Heq]; rewrite Heq in Hp; [by apply Hb|by injection Hp as <- <-]. }
    eexists _, _, _. split; [done|]. intros p' solved' Hp. destruct (Hbest p' solved' Hp) as [[Heq|Hin] Hs]; (split; [|done]).
    + destruct Hb1 as [Hb1|Hb1]; rewrite Hb1 in Heq; [by left|]. injection Heq as <- <-. right. cbn. left.
    + right. cbn. by right.
  - destruct (IH (S i) best winners' cache' (count_simulation_failure report) Hb) as (best' & report' & i' & -> & Hbest).
    eexists _, _, _. split; [done|]. intros p' solved' Hp. destruct (Hbest p' solved' Hp) as [[Heq|Hin] Hs]; (split; [|done]);
      [by left|right; cbn; by right].
Qed.

(** *** The built swaps *)

(** The swap [s] of one hop sells [amount] to the pool's state in the solve's market. *)
Record swap_of ctx (leg : NodeIndex * NodeIndex) (id : ComponentId) (amount : N) s : Prop := {
  sp_id : sw_component_id s = id;
  sp_tokens : exists token_in token_out component state simulated,
    tokens (cx_market ctx) !! node_address (cx_graph ctx) leg.1 = Some token_in /\
    tokens (cx_market ctx) !! node_address (cx_graph ctx) leg.2 = Some token_out /\
    get_component (cx_market ctx) id = Some component /\
    simulation_states (cx_market ctx) !! id = Some state /\
    get_amount_out_guarded state amount token_in token_out = Ok simulated /\
    s = Swap_new id (protocol_system_of component) (token_address_of token_in) (token_address_of token_out)
          amount (gao_amount simulated) (gao_gas simulated) component state;
}.

Inductive chained ctx : list (NodeIndex * NodeIndex) -> list ComponentId -> N -> list Swap -> Prop :=
| chained_nil amount : chained ctx [] [] amount []
| chained_cons leg legs id ids amount s swaps :
    swap_of ctx leg id amount s -> chained ctx legs ids (sw_amount_out s) swaps ->
    chained ctx (leg :: legs) (id :: ids) amount (s :: swaps).

Lemma swap_hop_Ok chain id component state token_in token_out chain' :
  swap_hop chain id component state token_in token_out = Ok chain' ->
  exists simulated, get_amount_out_guarded state (sc_amount chain) token_in token_out = Ok simulated /\
    sc_amount chain' = gao_amount simulated /\
    sc_swaps chain' = sc_swaps chain ++
      [Swap_new id (protocol_system_of component) (token_address_of token_in) (token_address_of token_out)
         (sc_amount chain) (gao_amount simulated) (gao_gas simulated) component state] /\
    sc_overrides chain' = <[id := gao_new_state simulated]> (sc_overrides chain).
Proof. unfold swap_hop. destruct (get_amount_out_guarded _ _ _ _) as [simulated|e]; [|done]. intros [= <-]. by exists simulated. Qed.

Lemma found_Ok {A} kind id (o : option A) a : found kind id o = Ok a -> o = Some a.
Proof. destruct o; [by intros [= ->]|done]. Qed.

Lemma get_token_Ok market address token : get_token market address = Ok token -> tokens market !! address = Some token.
Proof. unfold get_token. destruct (tokens market !! address); [by intros [= ->]|done]. Qed.

Lemma build_hop_Ok ctx chain leg hop id chain' :
  build_hop NATIVE_WRAP_COMPONENT ctx chain (leg, hop) = Ok chain' -> hop_pool ctx leg hop id ->
  sc_overrides chain !! id = None ->
  exists s, swap_of ctx leg id (sc_amount chain) s /\ sc_swaps chain' = sc_swaps chain ++ [s] /\
    sc_amount chain' = sw_amount_out s /\ dom (sc_overrides chain') = {[ id ]} ∪ dom (sc_overrides chain).
Proof.
  destruct leg as [from to]. intros Hb (pool & Hp & Hid) Ho. unfold build_hop in Hb. cbn [fst snd] in Hp. rewrite Hp in Hb.
  cbn [fmap option_fmap option_map] in Hb. rewrite Hid in Hb. outcome_inv.
  repeat match goal with
  | H : found _ _ _ = Ok _ |- _ => apply found_Ok in H
  | H : get_token _ _ = Ok _ |- _ => apply get_token_Ok in H
  | H : Some _ = Some _ |- _ => injection H as <-
  end.
  rewrite Ho in *. apply swap_hop_Ok in Hb as (simulated & Hsim & Ha & Hs & Hov).
  eexists. split; [|split_and!; [exact Hs|exact Ha|by rewrite Hov, dom_insert_L]]. split; [done|].
  by repeat eexists.
Qed.

Lemma build_hops_Ok ctx legs hops ids : Forall3 (fun leg hop id => hop_pool ctx leg hop id) legs hops ids -> NoDup ids ->
  forall chain chain', build_hops NATIVE_WRAP_COMPONENT ctx chain (zip legs hops) = Ok chain' ->
  (forall id, id ∈ ids -> sc_overrides chain !! id = None) ->
  exists swaps, sc_swaps chain' = sc_swaps chain ++ swaps /\ chained ctx legs ids (sc_amount chain) swaps.
Proof.
  induction 1 as [|leg hop id legs hops ids Hp Hall IH]; intros Hnd chain chain' Hb Ho; cbn in Hb.
  { injection Hb as <-. exists []. rewrite app_nil_r. split; [done|constructor]. }
  apply NoDup_cons in Hnd as [Hid Hnd]. outcome_inv. rename a into chain1.
  destruct (build_hop_Ok ctx chain leg hop id chain1) as (s & Hs & Hsw & Ha & Hd); [done|done|apply Ho; left|].
  destruct (IH Hnd chain1 chain') as (swaps & Hsw' & Hc); [done| |].
  { intros id' Hin. apply not_elem_of_dom. rewrite Hd. apply not_elem_of_union. split; [by intros ->%elem_of_singleton|].
    apply not_elem_of_dom, Ho. by right. }
  exists (s :: swaps). rewrite Hsw', Hsw, <- app_assoc. split; [done|]. constructor; [done|]. by rewrite <- Ha.
Qed.

Lemma build_route_Ok ctx p solved route : solved_ok ctx p solved -> build_route NATIVE_WRAP_COMPONENT ctx p solved = Ok route ->
  exists ids, NoDup ids /\ Forall (fun id => excludes_pool (cx_constraints ctx) id = false) ids /\
    Forall2 (fun leg id => id ∈ ed_component_id <$> pools_between NATIVE_WRAP_COMPONENT (cx_graph ctx) leg.1 leg.2)
      (windows2 p) ids /\
    chained ctx (windows2 p) ids (cx_amount_in ctx) (rt_swaps route).
Proof.
  intros (ids & Hnd & Hall) Hb. unfold build_route in Hb. outcome_inv. rename a into chain.
  destruct (build_hops_Ok ctx (windows2 p) (sv_hops solved) ids) with (chain := SwapChain_start (cx_amount_in ctx)) (chain' := chain)
    as (swaps & Hsw & Hc); [|done|done|by intros id _; apply lookup_empty|].
  { apply (Forall3_impl _ _ _ _ _ Hall). by intros leg hop id [? _]. }
  exists ids. split_and!; [done| | |].
  - clear -Hall. induction Hall as [|leg hop id legs hops ids' [_ Hx] _ IH]; by constructor.
  - clear -Hall. induction Hall as [|leg hop id legs hops ids' [(pool & Hp & <-) _] _ IH]; constructor; [|done].
    apply list_elem_of_fmap. exists pool. split; [done|]. by eapply list_elem_of_lookup_2.
  - cbn in Hsw. unfold Route_new in Hb. rewrite Hsw in Hb. destruct swaps; [done|]. by injection Hb as <-.
Qed.

(** *** A chain of swaps along a path is a valid route *)

Section chain.
Context (ctx : SolveContext) (p : list NodeIndex) (ids : list ComponentId) (amount : N) (swaps : list Swap).
Hypothesis graph : graph_ok (cx_graph ctx).
Hypothesis keyed : forall a t, tokens (cx_market ctx) !! a = Some t -> token_address_of t = a.
Hypothesis long : 2 <= length p.
Hypothesis swapped : chained ctx (windows2 p) ids amount swaps.
Hypothesis listed : Forall2 (fun leg id => id ∈ ed_component_id <$> pools_between NATIVE_WRAP_COMPONENT (cx_graph ctx) leg.1 leg.2)
  (windows2 p) ids.

Lemma chained_legs legs ids' a l : chained ctx legs ids' a l ->
  Forall2 (fun leg s => sw_token_in s = node_address (cx_graph ctx) leg.1 /\
    sw_token_out s = node_address (cx_graph ctx) leg.2) legs l.
Proof.
  induction 1 as [|leg legs id ids' a s l [_ (t1 & t2 & c & st & r & Ht1 & Ht2 & _ & _ & _ & ->)] _ IH]; constructor; [|done].
  cbn. by rewrite (keyed _ _ Ht1), (keyed _ _ Ht2).
Qed.

Lemma chained_ids legs ids' a l : chained ctx legs ids' a l -> sw_component_id <$> l = ids'.
Proof. induction 1 as [|leg legs id ids' a s l [Hid _] _ IH]; [done|]. cbn. by rewrite IH, Hid. Qed.

Lemma chained_unsplit legs ids' a l : chained ctx legs ids' a l -> Forall (fun s => sw_split s = F64.zero) l.
Proof. induction 1 as [|leg legs id ids' a s l [_ (t1 & t2 & c & st & r & _ & _ & _ & _ & _ & ->)] _ IH]; by constructor. Qed.

Lemma chained_amounts legs ids' a l : chained ctx legs ids' a l ->
  (forall s, head l = Some s -> sw_amount_in s = a) /\
  forall i s s', l !! i = Some s -> l !! S i = Some s' -> sw_amount_in s' = sw_amount_out s.
Proof.
  induction 1 as [|leg legs id ids' a s l [_ (t1 & t2 & c & st & r & _ & _ & _ & _ & _ & ->)] _ [IHa IHc]]; [done|]. split.
  - by intros s [= <-].
  - intros [|i] s s'; cbn; [|by apply IHc]. intros [= <-] Hs. apply IHa. by destruct l.
Qed.

Lemma route_path_swaps : route_path swaps = node_address (cx_graph ctx) <$> p.
Proof.
  pose proof (chained_legs _ _ _ _ swapped) as Hl. clear -Hl long.
  destruct p as [|a [|b q]]; cbn in long; [lia|lia|]. revert a b swaps Hl long.
  induction q as [|c q IH]; intros a b swaps Hl _; rewrite windows2_cons in Hl;
    inversion Hl as [|leg s legs l [Hin Hout] Hrest]; subst; cbn in Hin, Hout.
  - inversion Hrest; subst. cbn. by rewrite Hin, Hout.
  - specialize (IH b c l Hrest ltac:(cbn; lia)). destruct l as [|s' l]; [done|]. cbn in IH |- *.
    injection IH as _ Hc Hq. by rewrite Hin, Hout, Hc, Hq.
Qed.

Lemma swaps_connected : connected swaps.
Proof.
  pose proof (chained_legs _ _ _ _ swapped) as Hl. clear -Hl. revert swaps Hl.
  induction p as [|a [|b q] IH]; intros swaps Hl; [by inversion Hl..|].
  rewrite windows2_cons in Hl. inversion Hl as [|leg s legs l [Hin Hout] Hrest]; subst. specialize (IH l Hrest).
  intros [|i] s1 s2; cbn; [|apply IH]. intros [= <-] Hs2. destruct q as [|c q]; [by inversion Hrest; subst|].
  rewrite windows2_cons in Hrest. inversion Hrest as [|leg s' legs' l' [Hin' _] _]; subst. injection Hs2 as <-. cbn in *. congruence.
Qed.

Lemma listed_nodes t : t ∈ p -> is_Some (node_weight (tg_graph (cx_graph ctx)) t).
Proof.
  clear -graph long listed. destruct p as [|a [|b q]]; cbn in long; [lia|lia|]. revert a b ids listed long t.
  assert (forall a b id, id ∈ ed_component_id <$> pools_between NATIVE_WRAP_COMPONENT (cx_graph ctx) a b ->
    is_Some (node_weight (tg_graph (cx_graph ctx)) a) /\ is_Some (node_weight (tg_graph (cx_graph ctx)) b)) as Hends.
  { intros a b id (pool & _ & Hin)%list_elem_of_fmap.
    assert (exists pool, pool ∈ pair_pools (cx_graph ctx) a b) as (pool' & Hin').
    { unfold pools_between in Hin. destruct (is_wrap_pair _ _ _); [|by exists pool]. destruct (position _ _); [|by exists pool].
      exists pool. eapply (subseteq_drop _ _), (subseteq_take _ _). exact Hin. }
    unfold pair_pools in Hin'. destruct (tg_pair_index _ !! _) as [e|] eqn:He; [|by apply not_elem_of_nil in Hin'].
    apply (gk_index _ graph) in He as [pools He]. exact (gk_ends _ graph _ _ _ _ He). }
  induction q as [|c q IH]; intros a b ids listed _ t; rewrite windows2_cons in listed;
    inversion listed as [|leg id legs ids' Hid Hrest]; subst; destruct (Hends _ _ _ Hid) as [Ha Hb].
  - by intros [->|[->|[]%not_elem_of_nil]%elem_of_cons]%elem_of_cons.
  - intros [->|Ht]%elem_of_cons; [done|]. exact (IH b c ids' Hrest ltac:(cbn; lia) t Ht).
Qed.

Lemma node_address_inj t t' : t ∈ p -> t' ∈ p ->
  node_address (cx_graph ctx) t = node_address (cx_graph ctx) t' -> t = t'.
Proof.
  intros [x Hx]%listed_nodes [x' Hx']%listed_nodes. unfold node_address. rewrite Hx, Hx'. cbn. intros ->.
  apply (gk_tokens _ graph) in Hx, Hx'. congruence.
Qed.

Lemma chain_valid (route : Route) : rt_swaps route = swaps ->
  NoDup p \/ NoDup (removelast p) /\ last p = head p -> Route_validate route = Ret (Ok tt).
Proof.
  intros Hr Hsimple. apply sequential_valid.
  - unfold is_split. rewrite Hr. pose proof (chained_unsplit _ _ _ _ swapped) as Hu.
    clear -Hu. induction Hu as [|s l Hs _ IH]; [done|]. cbn. by rewrite Hs, IH.
  - rewrite Hr. split_and!.
    + intros Hnil. pose proof route_path_swaps as Hp. rewrite Hnil in Hp. cbn in Hp. clear -Hp long.
      destruct p; [cbn in long; lia|discriminate Hp].
    + exact swaps_connected.
    + rewrite route_path_swaps. destruct Hsimple as [Hnd|[Hnd Hl]]; [left|right].
      * apply (NoDup_fmap_2_strong _ _); [|done]. intros t t' Ht Ht'. by apply node_address_inj.
      * rewrite fmap_last, Hl, <- head_fmap. split; [|done].
        assert (removelast (node_address (cx_graph ctx) <$> p) = node_address (cx_graph ctx) <$> removelast p) as ->.
        { clear. induction p as [|a [|b q] IH]; [done|done|]. cbn [removelast fmap list_fmap] in *. by rewrite IH. }
        apply (NoDup_fmap_2_strong _ _); [|done]. intros t t' Ht Ht'. apply node_address_inj; by apply elem_of_removelast.
Qed.
End chain.
End solve.
