(* ===== verification/MostLiquidProperties.v ===== *)
(** * MostLiquidProperties: the guarantees of the most-liquid algorithm

    The route it returns can be executed and pays what the market says; it is the best of
    the candidates it solved before the timeout; it never panics. *)

From stdpp Require Import prelude gmap sets strings list.
From Stdlib Require Import NArith ZArith Lia.
From S2P Require Import Prelude F64 Types Route RouteProofs Amounts DerivedStore SpotPriceComputation MarketData MarketDataProofs.
From S2P Require Import SwapCache Algorithm StableGraph TokenGraph PathScoring Paths MostLiquid.
From S2P Require Import RouteSearchProofs TokenPaths TokenGraphLaws MarketProperties MostLiquidProofs.
From S2P Require Import Samples MarketDataProofs TokenGraphProperties TokenGraphManager.

#[local] Open Scope nat_scope.

(** ** A run over the candidates *)

Section run.
Context `{TychoGas} `{!Messages} `{!TychoSwaps} `{DiGraph (list (EdgeData DepthAndPrice))}.
Context (NATIVE_WRAP_COMPONENT : ComponentId).
Implicit Types (ctx : SolveContext) (p : list NodeIndex) (solved : SolvedRoute) (winners : PairWinners).

Abbreviation Outcome := (list NodeIndex * result MostLiquidError SolvedRoute)%type (only parsing).
Implicit Types (outs : list Outcome).

(** The candidates solved in order, each with the winners and swaps the ones before left. *)
Inductive runs ctx : list (list NodeIndex * f64) -> PairWinners -> SwapCache -> list Outcome -> Prop :=
| runs_stop scored winners cache : runs ctx scored winners cache []
| runs_step p x scored winners cache winners' cache' r outs :
    solve_token_path NATIVE_WRAP_COMPONENT ctx p winners cache = Ret (cache', winners', r) ->
    runs ctx scored winners' cache' outs -> runs ctx ((p, x) :: scored) winners cache ((p, r) :: outs).

(** The run ends with its candidates or at the first reading beyond the timeout. *)
Record stops (timeout_ms : N) (clock : nat -> N) (i : nat) (candidates done : nat) : Prop := {
  st_within : done <= candidates;
  st_before : forall j, j < done -> (clock (i + j)%nat <= timeout_ms)%N;
  st_timeout : done < candidates -> (timeout_ms < clock (i + done)%nat)%N;
}.

Definition better (best : option (list NodeIndex * SolvedRoute)) (out : Outcome) : option (list NodeIndex * SolvedRoute) :=
  match out.2 with
  | Err _ => best
  | Ok solved =>
      match best with
      | Some (_, previous) =>
          if (sv_net_amount_out previous <? sv_net_amount_out solved)%Z then Some (out.1, solved) else best
      | None => Some (out.1, solved)
      end
  end.

Definition solved_out (out : Outcome) : bool := is_ok out.2.

(** The first solved candidate of greatest net. *)
Definition best_out outs p solved : Prop := exists k, outs !! k = Some (p, Ok solved) /\
  forall j p' solved', outs !! j = Some (p', Ok solved') ->
    (sv_net_amount_out solved' <= sv_net_amount_out solved)%Z /\
    (j < k -> (sv_net_amount_out solved' < sv_net_amount_out solved)%Z).

Lemma best_out_snoc outs out p solved : best_out outs p solved ->
  (forall solved', out.2 = Ok solved' -> (sv_net_amount_out solved' <= sv_net_amount_out solved)%Z) ->
  best_out (outs ++ [out]) p solved.
Proof.
  intros (k & Hk & Hb) Ho. pose proof (lookup_lt_Some _ _ _ Hk) as Hlt. exists k. split; [by apply lookup_app_l_Some|].
  intros j p' solved' [Hj|[Hge Hj]]%lookup_app_Some; [by eapply Hb|].
  apply list_lookup_singleton_Some in Hj as [Hj0 ->]. split; [by apply Ho|]. intros Hjk. lia.
Qed.

Lemma better_fold outs :
  match fold_left better outs None with
  | Some (p, solved) => best_out outs p solved
  | None => Forall (fun out => solved_out out = false) outs
  end.
Proof.
  induction outs as [|[p0 r] outs IH] using rev_ind; [constructor|]. rewrite fold_left_app. cbn [fold_left]. unfold better at 1. cbn [fst snd].
  destruct (fold_left better outs None) as [[p previous]|].
  - destruct r as [solved|e]; [|by apply best_out_snoc]. destruct (Z.ltb_spec (sv_net_amount_out previous) (sv_net_amount_out solved)) as [Hlt|Hge].
    + destruct IH as (k & Hk & Hb). exists (length outs). split; [by apply list_lookup_middle|].
      intros j p' solved' [Hj|[Hge Hj]]%lookup_app_Some.
      * destruct (Hb _ _ _ Hj) as [Hle _]. split; lia.
      * apply list_lookup_singleton_Some in Hj as [Hj0 [= -> ->]]. split; [lia|]. intros. lia.
    + apply best_out_snoc; [done|]. by intros solved' [= <-].
  - destruct r as [solved|e]; [|by apply Forall_app; split; [|by constructor]].
    exists (length outs). split; [by apply list_lookup_middle|].
    intros j p' solved' [Hj|[Hge Hj]]%lookup_app_Some.
    + by pose proof (Forall_lookup_1 _ _ _ _ IH Hj).
    + apply list_lookup_singleton_Some in Hj as [Hj0 [= -> ->]]. split; [lia|]. intros. lia.
Qed.

Lemma solve_candidates_runs ctx timeout_ms clock scored : forall i best winners cache report,
  exists outs report', runs ctx scored winners cache outs /\
    stops timeout_ms clock i (length scored) (length outs) /\
    solve_candidates NATIVE_WRAP_COMPONENT ctx timeout_ms clock i scored best winners cache report
      = Ret (fold_left better outs best, report', i + length outs + (if length outs <? length scored then 1 else 0)) /\
    paths_simulated report' = paths_simulated report + length (List.filter solved_out outs) /\
    simulation_failures report' = simulation_failures report + length (List.filter (fun out => negb (solved_out out)) outs) /\
    validation_failures report' = validation_failures report.
Proof.
  induction scored as [|[p x] scored IH]; intros i best winners cache report; cbn [solve_candidates].
  { exists [], report. cbn. rewrite !Nat.add_0_r. split_and!; [constructor| |done..]. split; [done|lia|cbn; lia]. }
  destruct (N.ltb_spec timeout_ms (clock i)) as [Hlt|Hge].
  { exists [], report. cbn. rewrite !Nat.add_0_r, Nat.add_1_r. split_and!; [constructor| |done..].
    split; [lia|lia|]. by rewrite Nat.add_0_r. }
  destruct (solve_token_path_spec NATIVE_WRAP_COMPONENT ctx p winners cache) as (cache' & winners' & r & Heq & _).
  rewrite Heq. cbn [mbind outcome_bind].
  assert (forall best' report1, exists outs report', runs ctx ((p, x) :: scored) winners cache ((p, r) :: outs) /\
    stops timeout_ms clock i (S (length scored)) (S (length outs)) /\
    solve_candidates NATIVE_WRAP_COMPONENT ctx timeout_ms clock (S i) scored best' winners' cache' report1
      = Ret (fold_left better outs best', report', i + S (length outs) + (if S (length outs) <? S (length scored) then 1 else 0)) /\
    paths_simulated report' = paths_simulated report1 + length (List.filter solved_out outs) /\
    simulation_failures report' = simulation_failures report1 + length (List.filter (fun out => negb (solved_out out)) outs) /\
    validation_failures report' = validation_failures report1) as Hrest.
  { intros best' report1. destruct (IH (S i) best' winners' cache' report1) as (outs & report' & Hr & [Hs1 Hs2 Hs3] & Hc & Hcounts).
    exists outs, report'. split; [by eapply runs_step|]. split; [|split; [|done]].
    - split; [lia| |intros Hd; rewrite Nat.add_succ_r; apply Hs3; lia].
      intros [|j] Hj; [by rewrite Nat.add_0_r|]. rewrite Nat.add_succ_r. apply Hs2. lia.
    - rewrite Hc. change (S (length outs) <? S (length scored)) with (length outs <? length scored).
      by rewrite Nat.add_succ_r. }
  destruct r as [solved|e].
  - edestruct Hrest as (outs & report' & Hr & Hs & Hc & Hn1 & Hn2 & Hn3). exists ((p, Ok solved) :: outs), report'.
    split; [done|split; [done|split; [exact Hc|]]]. rewrite Hn1, Hn2, Hn3. cbn. lia.
  - edestruct Hrest as (outs & report' & Hr & Hs & Hc & Hn1 & Hn2 & Hn3). exists ((p, Err e) :: outs), report'.
    split; [done|split; [done|split; [exact Hc|]]]. rewrite Hn1, Hn2, Hn3. cbn. lia.
Qed.

(** ** The winner *)

Definition keyed (st : MarketState) : Prop := forall a t, tokens st !! a = Some t -> token_address_of t = a.

Definition path_shape p : Prop := 2 <= length p /\ (NoDup p \/ NoDup (removelast p) /\ last p = head p).

Definition solve_time (clock : nat -> N) (candidates done : nat) : N :=
  clock (done + if done <? candidates then 1 else 0).

(** What a solve of the candidates answers, given the run: the built winner, or why not. *)
Definition answers_of (algorithm : MostLiquidAlgorithm) (candidates : nat) ctx (clock : nat -> N) outs
    (answer : result AlgorithmError RouteResult) : Prop :=
  match answer with
  | Ok r => exists p solved, best_out outs p solved /\ solved_ok NATIVE_WRAP_COMPONENT ctx p solved /\
      build_route NATIVE_WRAP_COMPONENT ctx p solved = Ok (rr_route r) /\ Route_validate (rr_route r) = Ret (Ok tt) /\
      r = RouteResult_new (rr_route r) (swap_on_route ctx (rr_route r)) (cx_gas_price ctx)
  | Err e =>
      (exists p solved, best_out outs p solved /\ build_route NATIVE_WRAP_COMPONENT ctx p solved = Err e) \/
      Forall (fun out => solved_out out = false) outs /\
      e = (if (as_millis (ml_timeout algorithm) <? solve_time clock candidates (length outs))%N
           then AE_Timeout (solve_time clock candidates (length outs)) else AE_InsufficientLiquidity)
  end.

Lemma best_out_scored ctx scored winners cache outs p solved : runs ctx scored winners cache outs ->
  best_out outs p solved -> p ∈ scored.*1 /\ solved_ok NATIVE_WRAP_COMPONENT ctx p solved.
Proof.
  intros Hr (k & Hk & _). revert k Hk. induction Hr as [|p0 x scored winners cache winners' cache' r outs Hs Hr IH]; intros k Hk; [done|].
  destruct k as [|k]; cbn in Hk.
  - injection Hk as -> ->. split; [cbn; left|].
    destruct (solve_token_path_spec NATIVE_WRAP_COMPONENT ctx p winners cache) as (c & w & r & Heq & Hok).
    rewrite Heq in Hs. by injection Hs as _ _ ->.
  - destruct (IH k Hk). split; [cbn; by right|done].
Qed.

Lemma solve_for_best_path_spec algorithm scored_paths report ctx clock :
  graph_ok (cx_graph ctx) -> keyed (cx_market ctx) -> Forall (fun scored => path_shape scored.1) scored_paths ->
  exists outs answer report',
    solve_for_best_path NATIVE_WRAP_COMPONENT algorithm scored_paths report ctx clock = Ret (answer, report') /\
    runs ctx scored_paths (PairWinners_new (ml_cache_pair_swaps algorithm)) ∅ outs /\
    stops (as_millis (ml_timeout algorithm)) clock 0 (length scored_paths) (length outs) /\
    answers_of algorithm (length scored_paths) ctx clock outs answer /\
    paths_simulated report' = paths_simulated report + length (List.filter solved_out outs) /\
    simulation_failures report' = simulation_failures report + length (List.filter (fun out => negb (solved_out out)) outs) /\
    validation_failures report' = validation_failures report.
Proof.
  intros Hg Hk Hshape. unfold solve_for_best_path.
  destruct (solve_candidates_runs ctx (as_millis (ml_timeout algorithm)) clock scored_paths 0 None
    (PairWinners_new (ml_cache_pair_swaps algorithm)) ∅ report) as (outs & report' & Hr & Hs & -> & Hcounts).
  cbn [mbind outcome_bind]. pose proof (better_fold outs) as Hb. destruct (fold_left better outs None) as [[p solved]|].
  - destruct (best_out_scored _ _ _ _ _ _ _ Hr Hb) as [Hin Hok].
    destruct (build_route NATIVE_WRAP_COMPONENT ctx p solved) as [route|e] eqn:Hbuild.
    + apply list_elem_of_fmap in Hin as ([p' x] & Hp & Hin). cbn in Hp. subst p'. rewrite Forall_forall in Hshape.
      destruct (Hshape _ Hin) as [Hlong Hsimple]. cbn in Hlong, Hsimple.
      destruct (build_route_Ok NATIVE_WRAP_COMPONENT ctx p solved route Hok Hbuild) as (ids & Hnd & Hex & Hl & Hc).
      assert (Route_validate route = Ret (Ok tt)) as Hv by (eapply chain_valid; [done|exact Hk|done|exact Hc|exact Hl|done|done]).
      rewrite Hv. cbn [mbind outcome_bind]. eexists outs, (Ok _), report'. split; [done|]. split; [done|]. split; [done|].
      split; [|done]. exists p, solved. cbn. by split_and!.
    + eexists outs, (Err e), report'. split; [done|]. split; [done|]. split; [done|]. split; [|done]. left. by exists p, solved.
  - eexists outs, (Err _), report'. split; [|split; [done|split; [done|split; [|done]]]].
    2: { right. split; [exact Hb|]. reflexivity. }
    unfold solve_time. by destruct (_ <? _)%N.
Qed.
End run.

(** ** A request *)

Section request.
Context `{TychoGas} `{!Messages} `{!TychoSwaps} `{DiGraph (list (EdgeData DepthAndPrice))}.
Context (NATIVE_WRAP_COMPONENT : ComponentId) (algorithm : MostLiquidAlgorithm).
Context (request : SolveParts (TopologyGraph (D:=DepthAndPrice))).

#[local] Abbreviation g := (so_graph request).
#[local] Abbreviation order := (so_order request).
#[local] Abbreviation constraints := (so_constraints request).

Definition search_of : RouteSearch := {| rs_bounds := ml_query algorithm; rs_constraints := constraints |}.

(** The candidates: the best ranked of the search's paths. *)
Definition candidates (from to : NodeIndex) : list (list NodeIndex * f64) :=
  let ranked := rank_by_heuristic NATIVE_WRAP_COMPONENT g
                  (paths_between_ix NATIVE_WRAP_COMPONENT g from to search_of) constraints in
  default ranked ((fun n => take n ranked) <$> ml_max_routes algorithm).

(** What the candidates are solved against, read through a view. *)
Definition context_of (view : MarketDataView) (scored : list (list NodeIndex * f64)) (gas_price : N) : SolveContext := {|
  cx_graph := g;
  cx_market := extract_subset_with_overlay view (path_components NATIVE_WRAP_COMPONENT g scored constraints);
  cx_constraints := constraints;
  cx_token_prices := so_derived request ≫= token_prices;
  cx_amount_in := order_amount order;
  cx_gas_price := gas_price |}.

(** The whole solve: the first reason to stop, or the answer of a run over the candidates. *)
Definition answered (clock : nat -> N) (answer : result AlgorithmError RouteResult) : Prop :=
  let no_path reason := answer = Err (AE_NoPath (order_token_in order) (order_token_out order) reason) in
  match tg_tokens g !! order_token_in order, tg_tokens g !! order_token_out order with
  | None, _ => no_path SourceTokenNotInGraph
  | Some _, None => no_path DestinationTokenNotInGraph
  | Some from, Some to =>
      let paths := paths_between_ix NATIVE_WRAP_COMPONENT g from to search_of in
      (paths = [] /\ no_path NoGraphPath) \/
      (paths <> [] /\ rank_by_heuristic NATIVE_WRAP_COMPONENT g paths constraints = [] /\ no_path NoScorablePaths) \/
      (paths <> [] /\ rank_by_heuristic NATIVE_WRAP_COMPONENT g paths constraints <> [] /\
       match read_market (so_market request) (so_label request) with
       | Err e => answer = Err e
       | Ok view =>
           match gas_price (view_guard view) with
           | None => answer = Err (AE_DataNotFound "gas price" None)
           | Some price =>
               let ctx := context_of view (candidates from to) (effective_gas_price price) in
               exists outs,
                 runs NATIVE_WRAP_COMPONENT ctx (candidates from to) (PairWinners_new (ml_cache_pair_swaps algorithm)) ∅ outs /\
                 stops (as_millis (ml_timeout algorithm)) clock 0 (length (candidates from to)) (length outs) /\
                 answers_of NATIVE_WRAP_COMPONENT algorithm (length (candidates from to)) ctx clock outs answer
           end
       end)
  end.

Lemma subset_gas_price view ids : gas_price (extract_subset_with_overlay view ids) = gas_price (view_guard view).
Proof.
  unfold extract_subset_with_overlay. destruct (extract_subset_meta (view_guard view) ids) as (_ & Hg & _).
  by destruct (view_overlay view) as [[l states]|].
Qed.

Lemma read_market_guard md l view : read_market md l = Ok view -> view_guard view = md_data md.
Proof.
  unfold read_market. destruct l as [l|]; [|by intros [= <-]]. unfold read_labeled, view_of_label.
  destruct (md_overlays md !! l); [by intros [= <-]|]. case_decide; [by intros [= <-]|done].
Qed.

Lemma subset_keyed view ids : keyed (view_guard view) -> keyed (extract_subset_with_overlay view ids).
Proof.
  intros Hk a t. destruct (overlay_subset_spec view ids EmptyString) as (_ & _ & -> & _).
  intros [Ht _]%extract_subset_tokens. by apply Hk.
Qed.

Lemma candidates_elem from to p : p ∈ (candidates from to).*1 ->
  p ∈ paths_between_ix NATIVE_WRAP_COMPONENT g from to search_of.
Proof.
  intros ([p' x] & Hp & Hin)%list_elem_of_fmap. cbn in Hp. subst p'. unfold candidates in Hin.
  assert ((p, x) ∈ rank_by_heuristic NATIVE_WRAP_COMPONENT g (paths_between_ix NATIVE_WRAP_COMPONENT g from to search_of) constraints)
    as Hr by (destruct (ml_max_routes algorithm) as [n|]; [exact (subseteq_take n _ _ Hin)|done]).
  by apply rank_elem in Hr as [Hin' _].
Qed.

Lemma candidates_shape from to : graph_ok g -> Forall (fun scored => path_shape scored.1) (candidates from to).
Proof.
  intros Hg. apply Forall_forall. intros [p x] Hin. cbn.
  assert (p ∈ (candidates from to).*1) as Hp by (by apply (list_elem_of_fmap_2 fst) in Hin).
  apply candidates_elem, (paths_between_ix_sound _ _ _ _ _ _ (graph_ok_search _ Hg)) in Hp.
  split; [exact (tp_length _ _ _ _ _ Hp)|exact (tp_simple _ _ _ _ _ Hp)].
Qed.

Lemma find_best_route_answered clock : graph_ok g -> keyed (md_data (so_market request)) ->
  exists answer, find_best_route NATIVE_WRAP_COMPONENT algorithm request clock = Ret answer /\ answered clock answer.
Proof.
  intros Hg Hk. unfold find_best_route, answered, find_token_paths, paths_between. unfold Order_is_sell.
  destruct (order_side order). cbn [negb]. fold search_of. unfold get_token_ix.
  destruct (tg_tokens g !! order_token_in order) as [from|] eqn:Hfrom; [|eexists; split; [done|by rewrite decide_True]].
  destruct (tg_tokens g !! order_token_out order) as [to|] eqn:Hto.
  2: { eexists. split; [done|]. rewrite decide_False by congruence. done. }
  cbv zeta. destruct (paths_between_ix NATIVE_WRAP_COMPONENT g from to search_of) as [|p paths] eqn:Hpaths; [eexists; split; [done|by left]|].
  assert (candidates from to = default (rank_by_heuristic NATIVE_WRAP_COMPONENT g (p :: paths) constraints)
    ((fun n => take n (rank_by_heuristic NATIVE_WRAP_COMPONENT g (p :: paths) constraints)) <$> ml_max_routes algorithm)) as Hcand
    by (unfold candidates; by rewrite Hpaths).
  destruct (rank_by_heuristic NATIVE_WRAP_COMPONENT g (p :: paths) constraints) as [|x scored] eqn:Hrank.
  { eexists. split; [done|]. right. left. done. }
  cbv zeta. rewrite <- Hcand. unfold snapshot_market_state.
  destruct (read_market (so_market request) (so_label request)) as [view|e] eqn:Hview; cbn [mbind result_bind].
  2: { eexists. split; [done|]. by right; right. }
  unfold fetch_gas_price. rewrite subset_gas_price.
  destruct (gas_price (view_guard view)) as [price|]; [|eexists; split; [done|by right; right]].
  set (report := Build_SolveReport _ _ _ _ _ _).
  destruct (solve_for_best_path_spec NATIVE_WRAP_COMPONENT algorithm (candidates from to) report
    (context_of view (candidates from to) (effective_gas_price price)) clock)
    as (outs & answer & report' & Heq & Hr & Hs & Ha & _); [done| |by apply candidates_shape|].
  { apply subset_keyed. by rewrite (read_market_guard _ _ _ Hview). }
  exists answer. unfold context_of in Heq at 1. rewrite Heq. split; [done|]. right. right. split; [done|]. split; [done|]. by exists outs.
Qed.

(** ** The route of an answer *)

Record executable (view : MarketDataView) (from to : NodeIndex) (p : list NodeIndex) (r : RouteResult) : Prop := {
  ex_view : read_market (so_market request) (so_label request) = Ok view;
  ex_path : token_path_ok g search_of from to p;
  ex_tokens : route_path (rt_swaps (rr_route r)) = node_address g <$> p;
  ex_valid : Route_validate (rr_route r) = Ret (Ok tt);
  ex_start : sw_amount_in <$> head (rt_swaps (rr_route r)) = Some (order_amount order);
  ex_chain : forall i s s', rt_swaps (rr_route r) !! i = Some s -> rt_swaps (rr_route r) !! S i = Some s' ->
    sw_amount_in s' = sw_amount_out s;
  ex_distinct : NoDup (sw_component_id <$> rt_swaps (rr_route r));
  ex_listed : Forall2 (fun leg s =>
      sw_component_id s ∈ ed_component_id <$> pools_between NATIVE_WRAP_COMPONENT g leg.1 leg.2 /\
      excludes_pool constraints (sw_component_id s) = false)
    (windows2 p) (rt_swaps (rr_route r));
  ex_paid : forall s, s ∈ rt_swaps (rr_route r) -> exists token_in token_out simulated,
    tokens (view_guard view) !! sw_token_in s = Some token_in /\
    tokens (view_guard view) !! sw_token_out s = Some token_out /\
    view_get_simulation_state view (sw_component_id s) = Some (sw_protocol_state s) /\
    get_amount_out_guarded (sw_protocol_state s) (sw_amount_in s) token_in token_out = Ok simulated /\
    sw_amount_out s = gao_amount simulated /\ sw_gas_estimate s = gao_gas simulated;
  ex_net : exists price last_swap, gas_price (view_guard view) = Some price /\
    rr_gas_price r = effective_gas_price price /\ last (rt_swaps (rr_route r)) = Some last_swap /\
    rr_net_amount_out r = (Z.of_N (sw_amount_out last_swap)
      - Z.of_N (gas_cost_of_route (so_derived request ≫= token_prices) (rr_gas_price r) (rr_route r) (sw_token_out last_swap)))%Z;
}.

Lemma chained_paid view scored price legs ids amount swaps : keyed (view_guard view) ->
  chained (context_of view scored price) legs ids amount swaps ->
  forall s, s ∈ swaps -> exists token_in token_out simulated,
    tokens (view_guard view) !! sw_token_in s = Some token_in /\
    tokens (view_guard view) !! sw_token_out s = Some token_out /\
    view_get_simulation_state view (sw_component_id s) = Some (sw_protocol_state s) /\
    get_amount_out_guarded (sw_protocol_state s) (sw_amount_in s) token_in token_out = Ok simulated /\
    sw_amount_out s = gao_amount simulated /\ sw_gas_estimate s = gao_gas simulated.
Proof.
  intros Hk Hc s Hin. induction Hc as [|leg legs id ids amount s0 swaps [_ (t1 & t2 & c & st & r & Ht1 & Ht2 & _ & Hst & Hr & ->)] _ IH];
    [by apply not_elem_of_nil in Hin|]. apply elem_of_cons in Hin as [->|Hin]; [|by apply IH]. exists t1, t2, r.
  cbn [context_of cx_market] in Ht1, Ht2, Hst.
  destruct (overlay_subset_spec view (path_components NATIVE_WRAP_COMPONENT g scored constraints) id) as (Hs & _ & Htk & _).
  rewrite Hs in Hst. rewrite Htk in Ht1, Ht2. apply extract_subset_tokens in Ht1 as [Ht1 _], Ht2 as [Ht2 _].
  cbn [Swap_new sw_token_in sw_token_out sw_component_id sw_protocol_state sw_amount_in sw_amount_out sw_gas_estimate].
  rewrite (Hk _ _ Ht1), (Hk _ _ Ht2). split_and!; [done|done| |done|done|done].
  case_decide; [|done]. by destruct (simulation_states (view_guard view) !! id).
Qed.

Lemma swap_on_route_gas ctx route last_swap : last (rt_swaps route) = Some last_swap ->
  swap_on_route ctx route = (Z.of_N (sw_amount_out last_swap)
    - Z.of_N (gas_cost_of_route (cx_token_prices ctx) (cx_gas_price ctx) route (sw_token_out last_swap)))%Z.
Proof.
  intros Hl. unfold swap_on_route, gas_cost_of_route, total_gas. rewrite Hl.
  destruct (cx_token_prices ctx) as [prices|]; cbn [mbind option_bind default]; [|lia].
  destruct (prices !! sw_token_out last_swap); cbn [mbind option_bind default]; [done|lia].
Qed.

Lemma answer_executable clock r : graph_ok g -> keyed (md_data (so_market request)) -> answered clock (Ok r) ->
  exists view from to p, tg_tokens g !! order_token_in order = Some from /\
    tg_tokens g !! order_token_out order = Some to /\ executable view from to p r.
Proof.
  intros Hg Hk. unfold answered. destruct (tg_tokens g !! order_token_in order) as [from|]; [|done].
  destruct (tg_tokens g !! order_token_out order) as [to|]; [|done]. intros [[_ Ha]|[(_ & _ & Ha)|(_ & _ & Ha)]]; [done..|].
  destruct (read_market _ _) as [view|] eqn:Hview; [|done]. destruct (gas_price (view_guard view)) as [price|] eqn:Hgas; [|done].
  destruct Ha as (outs & Hruns & _ & p & solved & Hbest & Hok & Hbuild & Hvalid & Hr).
  set (ctx := context_of _ _ _) in *. exists view, from, to, p. split; [done|]. split; [done|].
  assert (keyed (view_guard view)) as Hkv by by rewrite (read_market_guard _ _ _ Hview).
  pose proof (subset_keyed view (path_components NATIVE_WRAP_COMPONENT g (candidates from to) constraints) Hkv) as Hkc.
  destruct (best_out_scored _ _ _ _ _ _ _ _ Hruns Hbest) as [Hin _].
  apply candidates_elem, (paths_between_ix_sound _ _ _ _ _ _ (graph_ok_search _ Hg)) in Hin as Hp.
  destruct (build_route_Ok NATIVE_WRAP_COMPONENT ctx p solved _ Hok Hbuild) as (ids & Hnd & Hex & Hl & Hc).
  pose proof (route_path_swaps ctx p ids _ _ Hkc (tp_length _ _ _ _ _ Hp) Hc) as Htokens.
  destruct (chained_amounts ctx _ _ _ _ Hc) as [Hstart Hchain].
  assert (rt_swaps (rr_route r) <> []) as Hne.
  { intros Hnil. rewrite Hnil in Htokens. cbn in Htokens. pose proof (tp_length _ _ _ _ _ Hp). destruct p; [cbn in *; lia|done]. }
  destruct (proj2 (last_is_Some (rt_swaps (rr_route r))) Hne) as [last_swap Hlast]. split.
  - done.
  - done.
  - exact Htokens.
  - done.
  - destruct (rt_swaps (rr_route r)); [done|]. cbn. by rewrite (Hstart _ eq_refl).
  - exact Hchain.
  - by rewrite (chained_ids ctx _ _ _ _ Hc).
  - clear -Hl Hex Hc. pose proof (chained_ids ctx _ _ _ _ Hc) as <-. rewrite Forall_fmap in Hex.
    rewrite Forall2_fmap_r in Hl. clear Hc.
    revert Hex. induction Hl as [|leg s legs l Hs _ IH]; [constructor|]. intros [Hx Hex]%Forall_cons. constructor; [done|by apply IH].
  - exact (chained_paid view (candidates from to) _ _ _ _ _ Hkv Hc).
  - exists price, last_swap. rewrite Hr. cbn. split_and!; [done..|]. by apply (swap_on_route_gas ctx).
Qed.
End request.

(** C9: a route that the most-liquid algorithm returns can be executed. On a well-formed
    graph and a market whose tokens are registered under their addresses: the swaps lead
    from the order's token to the token it asks for along a path within the hop bounds
    that passes every required token and no token the search forbids; the route passes
    validation; the first swap sells the order's amount and each next one what the one
    before paid; no pool is used twice, each is listed on its pair and allowed by the
    request; each swap pays exactly what the pool's state in the labelled view answers for
    its amount; and the net output is the last swap's output less the route's gas at the
    view's gas price. *)
Theorem most_liquid_route_sound `{TychoGas} `{!Messages} `{!TychoSwaps} `{DiGraph (list (EdgeData DepthAndPrice))}
    (NATIVE_WRAP_COMPONENT : ComponentId) (algorithm : MostLiquidAlgorithm)
    (request : SolveParts (TopologyGraph (D:=DepthAndPrice))) (clock : nat -> N) (r : RouteResult) :
  graph_ok (so_graph request) -> keyed (md_data (so_market request)) ->
  find_best_route NATIVE_WRAP_COMPONENT algorithm request clock = Ret (Ok r) ->
  exists view from to p, tg_tokens (so_graph request) !! order_token_in (so_order request) = Some from /\
    tg_tokens (so_graph request) !! order_token_out (so_order request) = Some to /\
    executable NATIVE_WRAP_COMPONENT algorithm request view from to p r.
Proof.
  intros Hg Hk Hr. destruct (find_best_route_answered NATIVE_WRAP_COMPONENT algorithm request clock Hg Hk) as (answer & Heq & Ha).
  assert (answer = Ok r) as -> by congruence. by eapply answer_executable.
Qed.

(** C10: what a most-liquid solve answers. It never panics. It fails early exactly when a
    token is not in the graph, no path is found, none can be ranked, the label is not
    known or the market has no gas price; otherwise it solves the best ranked paths one
    after another, until they are done or a reading of the clock is beyond the timeout,
    and answers with the first one of greatest net output, built into a route that always
    passes validation, or with the error that building met; when none could be solved it
    answers that it timed out or that liquidity is insufficient, by the clock. *)
Theorem most_liquid_picks_best `{TychoGas} `{!Messages} `{!TychoSwaps} `{DiGraph (list (EdgeData DepthAndPrice))}
    (NATIVE_WRAP_COMPONENT : ComponentId) (algorithm : MostLiquidAlgorithm)
    (request : SolveParts (TopologyGraph (D:=DepthAndPrice))) (clock : nat -> N) :
  graph_ok (so_graph request) -> keyed (md_data (so_market request)) ->
  exists answer, find_best_route NATIVE_WRAP_COMPONENT algorithm request clock = Ret answer /\
    answered NATIVE_WRAP_COMPONENT algorithm request clock answer.
Proof. apply find_best_route_answered. Qed.
