(* ===== verification/MostLiquidSamples.v ===== *)
(** * MostLiquidSamples: concrete markets for the most-liquid algorithm

    A pool's state is the number of its curve, and a listing gives each pool its two tokens
    and its curve. The theorems show the guarantees on them, and two solves that do not do
    what the comments of [most_liquid.rs] say. *)

From stdpp Require Import prelude gmap sets strings list.
From Stdlib Require Import NArith ZArith Lia.
From S2P Require Import Prelude F64 Types Route Samples Tracker DerivedStore SpotPriceComputation MarketData MarketDataProofs.
From S2P Require Import SwapCache Algorithm StableGraph TokenGraph TokenGraphManager TokenGraphLaws TokenGraphSync TokenGraphProperties.
From S2P Require Import PathScoring Paths MostLiquid MostLiquidProofs MostLiquidProperties.

#[local] Open Scope nat_scope.

Module MostLiquidSample.
#[local] Open Scope string_scope.
#[local] Existing Instances MarketSample.tycho MarketSample.tycho_market.

Definition gas : TychoGas := {| effective_gas_price := fun price : BlockGasPrice => (price : N) |}.
#[local] Existing Instance gas.

Definition messages : Messages := {|
  show_address_debug := fun a => a;
  show_simulation_error := fun _ => "simulation";
  show_route_error := fun _ => "route";
  show_label_not_found := fun l => l |}.
#[local] Existing Instance messages.

Definition graph : DiGraph (list (EdgeData DepthAndPrice)) := MapGraph.digraph_map.
#[local] Existing Instance graph.

(** The curves: what comes out, and the gas. *)
Definition curve (state amount : N) : option (N * N) :=
  match state with
  | 1 => Some (amount, 0)
  | 2 => Some (amount + amount * 12 / 100, 10)
  | 3 => Some (N.min amount 100, 0)
  | 4 => Some (amount * 105 / 100, 5000)
  | 5 => Some (amount * 102 / 100, 0)
  | 6 => Some (amount - amount * amount / 1000000, 0)
  | _ => None
  end%N.

Definition swaps : TychoSwaps := {|
  get_amount_out := fun (state : ProtocolSim) amount _ _ =>
    match curve (state : N) amount with
    | Some (out, gas) => Ret (Ok (@Build_GetAmountOutResult MarketSample.tycho out gas state))
    | None => Panic
    end;
  PANIC_MESSAGE := "panic" |}.
#[local] Existing Instance swaps.

Abbreviation listing := (list (ComponentId * (Address * Address) * N)) (only parsing).

Definition topologies (l : listing) : gmap ComponentId ComponentTopology :=
  list_to_map ((fun pool => (pool.1.1, GraphSample.pool pool.1.2.1 pool.1.2.2)) <$> l).

Definition market (l : listing) : MarketState :=
  update_gas_price
    (update_states
      (upsert_tokens
        (upsert_components MarketState_new ((fun pool => MarketSample.pool pool.1.1 "uniswap_v2" [pool.1.2.1; pool.1.2.2]) <$> l)).1
        (l ≫= fun pool => [pool.1.2.1; pool.1.2.2]))
      ((fun pool => (pool.1.1, pool.2)) <$> l)) (1%N : BlockGasPrice).

Definition even : Price := {| price_numerator := 1; price_denominator := 1 |}.

Definition derived (l : listing) : DerivedData :=
  set_output_at DerivedData_new TOKEN_PRICES_ID
    (OutTokenPrices (list_to_map ((l ≫= fun pool => [pool.1.2.1; pool.1.2.2]) ≫= fun a => [(a, even)]))) 100 0.

Definition order (amount : N) : Order := {|
  order_id := "order"; order_token_in := Sample.A; order_token_out := Sample.C; order_amount := amount;
  order_side := Sell; order_sender := "sender"; order_receiver := None |}.

Definition manager (l : listing) : TopologyGraphManager (D:=DepthAndPrice) :=
  initialize_graph GraphSample.WRAP (topologies l).

Definition request (l : listing) (amount : N) (excluded : gset ComponentId)
    : SolveParts (TopologyGraph (D:=DepthAndPrice)) := {|
  so_graph := tm_graph (manager l);
  so_order := order amount;
  so_market := {| md_data := market l; md_overlays := ∅ |};
  so_label := None;
  so_derived := Some (derived l);
  so_constraints := {| rrc_excluded_pools := excluded; rrc_excluded_tokens := ∅; rrc_required_tokens := ∅;
                       rrc_unsynced_pools := ∅ |} |}.

(** A solve whose clock never moves. *)
Definition solve (l : listing) (amount : N) (excluded : gset ComponentId) : outcome (result AlgorithmError RouteResult) :=
  find_best_route GraphSample.WRAP MostLiquidAlgorithm_new (request l amount excluded) (fun _ => 0%N).

Definition net (answer : outcome (result AlgorithmError RouteResult)) : option Z :=
  match answer with Ret (Ok r) => Some (rr_net_amount_out r) | _ => None end.

Definition pools_used (answer : outcome (result AlgorithmError RouteResult)) : list ComponentId :=
  match answer with Ret (Ok r) => sw_component_id <$> rt_swaps (rr_route r) | _ => [] end.

(** Two pools from A to B, one that pays more at a cost in gas, and one to C whose output is
    flat beyond 100. *)
Definition flat : listing :=
  [("ab1", (Sample.A, Sample.B), 1%N); ("ab2", (Sample.A, Sample.B), 2%N); ("bc", (Sample.B, Sample.C), 3%N)].

(** Three ways to B, each bringing another amount to the pool to C. *)
Definition three_ways : listing :=
  [("ab", (Sample.A, Sample.B), 1%N); ("ad", (Sample.A, "D"), 5%N); ("db", ("D", Sample.B), 1%N);
   ("ae", (Sample.A, "E"), 4%N); ("eb", ("E", Sample.B), 1%N); ("bc", (Sample.B, Sample.C), 6%N)].

(** The greatest net output a solve compares, before it builds the route. *)
Definition compared (l : listing) (amount : N) : option Z :=
  let r := request l amount ∅ in
  let algorithm := MostLiquidAlgorithm_new in
  match tg_tokens (so_graph r) !! Sample.A, tg_tokens (so_graph r) !! Sample.C with
  | Some from, Some to =>
      let scored := candidates GraphSample.WRAP algorithm r from to in
      match solve_candidates GraphSample.WRAP (context_of GraphSample.WRAP r (read (so_market r)) scored 1)
              (as_millis (ml_timeout algorithm)) (fun _ => 0%N) 0 scored None
              (PairWinners_new (ml_cache_pair_swaps algorithm)) ∅ (Build_SolveReport 0 0 0 0 0 0) with
      | Ret (best, _, _) => (fun b => sv_net_amount_out b.2) <$> best
      | Panic => None
      end
  | _, _ => None
  end.

Lemma graph_of_ok (l : listing) : graph_ok (tm_graph (manager l)).
Proof. apply (po_graph _ _ _ (proj1 (initialize_graph_spec GraphSample.WRAP (topologies l)))). Qed.

Lemma flat_keyed : keyed (market flat).
Proof. apply map_Forall_to_list. by vm_compute; repeat constructor. Qed.

Lemma three_ways_keyed : keyed (market three_ways).
Proof. apply map_Forall_to_list. by vm_compute; repeat constructor. Qed.
End MostLiquidSample.

Section theorems.
#[local] Existing Instances MarketSample.tycho MarketSample.tycho_market.
#[local] Existing Instances MostLiquidSample.gas MostLiquidSample.messages MostLiquidSample.graph MostLiquidSample.swaps.
Import MostLiquidSample.

(** With gas, choosing a pool leg by leg can lose. In this market every pool pays no less
    for more and its gas is constant, both answers pass validation, and excluding a pool
    makes the answer better: the solve takes the pool that nets most on the first leg, but
    the extra output it pays for in gas is worth nothing to the next pool. *)
Theorem excluding_a_pool_pays_more :
  (forall state a b out gas_used, state ∈ [1; 2; 3]%N -> (a <= b)%N -> curve state a = Some (out, gas_used) ->
     exists out', curve state b = Some (out', gas_used) /\ (out <= out')%N) /\
  net (solve flat 100 ∅) = Some 90%Z /\ pools_used (solve flat 100 ∅) = ["ab2"; "bc"]%string /\
  net (solve flat 100 {[ "ab2"%string ]}) = Some 100%Z /\
  pools_used (solve flat 100 {[ "ab2"%string ]}) = ["ab1"; "bc"]%string.
Proof.
  split; [|by vm_compute]. intros state a b out gas_used Hstate Hle.
  assert (a * 12 / 100 <= b * 12 / 100)%N by (apply N.Div0.div_le_mono; lia).
  apply elem_of_cons in Hstate as [->|Hstate]; [intros [= <- <-]; eexists; split; [done|lia]|].
  apply elem_of_cons in Hstate as [->|Hstate]; [intros [= <- <-]; eexists; split; [done|lia]|].
  apply list_elem_of_singleton in Hstate as ->. intros [= <- <-]; eexists; split; [done|lia].
Qed.

(** The net output a winner is chosen by need not be the one it is returned with. The
    third path here is read across two amounts the last pool was asked before, and its
    route is built by asking the pool itself. *)
Theorem winner_is_repriced :
  compared three_ways 100000 = Some 91590%Z /\ net (solve three_ways 100000 ∅) = Some 91596%Z.
Proof. by vm_compute. Qed.

Lemma most_liquid_route_sound_witness :
  exists r view from to p, solve flat 100 ∅ = Ret (Ok r) /\
    tg_tokens (tm_graph (manager flat)) !! Sample.A = Some from /\
    tg_tokens (tm_graph (manager flat)) !! Sample.C = Some to /\
    executable GraphSample.WRAP MostLiquidAlgorithm_new (request flat 100 ∅) view from to p r.
Proof.
  destruct (solve flat 100 ∅) as [[r|e]|] eqn:Hs; [|by vm_compute in Hs..]. exists r.
  destruct (most_liquid_route_sound GraphSample.WRAP MostLiquidAlgorithm_new (request flat 100 ∅) (fun _ => 0%N) r)
    as (view & from & to & p & Hfrom & Hto & Hex); [exact (graph_of_ok flat)|exact flat_keyed|exact Hs|].
  exists view, from, to, p. exact (conj eq_refl (conj Hfrom (conj Hto Hex))).
Defined.

Lemma most_liquid_picks_best_witness :
  exists answer, find_best_route GraphSample.WRAP MostLiquidAlgorithm_new (request three_ways 100000 ∅) (fun _ => 0%N) = Ret answer /\
    answered GraphSample.WRAP MostLiquidAlgorithm_new (request three_ways 100000 ∅) (fun _ => 0%N) answer.
Proof.
  apply (most_liquid_picks_best GraphSample.WRAP MostLiquidAlgorithm_new (request three_ways 100000 ∅) (fun _ => 0%N));
    [exact (graph_of_ok three_ways)|exact three_ways_keyed].
Defined.

(** Two legs of pools that scale the amount. *)
Definition scaled (leg : LegPools unit N) (amount : N) (id : ComponentId) : option PoolQuote :=
  let out := (amount * (lp_data leg + N.of_nat (String.length id)))%N in
  Some {| pq_paid := {| sr_amount_out := out; sr_gas := 7 |}; pq_net := Z.of_N out |}.

Definition scaled_leg (from : nat) (ids : list ComponentId) (data : N) : LegPools unit N :=
  {| lp_pair := (from, S from); lp_pools := EdgeData_new <$> ids; lp_data := data |}.

Lemma hop_by_hop_optimal_witness :
  let legs := [scaled_leg 0 ["a"; "aa"]%string 1; scaled_leg 1 ["bbb"; "b"]%string 2] in
  exists winners w, simulate_token_path (simulate_pure scaled) legs 10 (PairWinners_new true) tt
      = Ret (tt, winners, Ok w) /\ wp_amount_out w = 150%N /\
    (forall out, trades_beside scaled legs (wp_hops w) [] 10 10 out -> (out <= 150)%N) /\
    forall out, can_trade scaled legs 10 out -> (out <= 150)%N.
Proof.
  cbv zeta. set (legs := [_; _]).
  destruct (hop_by_hop_optimal scaled legs 10 (PairWinners_new true)) as (winners & r & Heq & Hr).
  - intros leg a b id q q' Hab [= <-] [= <-]. cbn. apply N.mul_le_mono_r. exact Hab.
  - by intros leg a id q [= <-].
  - right. split; [|done]. apply NoDup_cons. split; [|apply NoDup_singleton]. by intros H%list_elem_of_singleton.
  - destruct r as [w|i]; [|by vm_compute in Heq]. exists winners, w.
    assert (wp_amount_out w = 150%N) as Hw by by (vm_compute in Heq; injection Heq as _ <-).
    destruct Hr as (_ & Hbeside & Hall). rewrite Hw in Hbeside, Hall. split; [exact Heq|]. split; [done|]. split; [exact Hbeside|].
    apply Hall.
    + intros leg a b id q _ _. by eexists.
    + split; [|split; [|done]]; [|by intros pool leg' pool' _ []%not_elem_of_nil].
      intros pool leg' pool' Hp ->%list_elem_of_singleton Hp'. cbn in Hp, Hp'.
      apply elem_of_cons in Hp as [Hp|Hp%list_elem_of_singleton]; apply elem_of_cons in Hp' as [Hp'|Hp'%list_elem_of_singleton]; by subst.
Defined.

(** A pool with a limit: it scales the amount up to what the leg's data allows. *)
Definition limited (leg : LegPools unit N) (amount : N) (id : ComponentId) : option PoolQuote :=
  if (amount <=? lp_data leg)%N
  then let out := (amount * N.of_nat (String.length id))%N in
       Some {| pq_paid := {| sr_amount_out := out; sr_gas := 7 |}; pq_net := Z.of_N out |}
  else None.

(** With limits choosing leg by leg gives up accuracy: the pool that pays most on the first leg brings more
    than the second leg takes, and the path is dropped, though it trades through the other pool. *)
Example limits_defeat_the_walk :
  let legs := [scaled_leg 0 ["a"; "aa"]%string 100; scaled_leg 1 ["b"]%string 15] in
  simulate_token_path (simulate_pure limited) legs 10 (PairWinners_new true) tt
    = Ret (tt, {| winner_by_pair := {[ (0, 1) := 1 ]}; reuse_winners := true |}, Err 1) /\
  can_trade limited legs 10 10.
Proof.
  split; [by vm_compute|]. eapply can_trade_hop; [left|done|]. eapply can_trade_hop; [left|done|]. constructor.
Qed.
End theorems.
