(* ===== verification/WorkerChecks.v ===== *)
(** * WorkerChecks: what a worker checks of a route

    Models the checks of [fynd-core/src/worker_pool/worker.rs] that a route passes before it
    is quoted ([check_route], [validate_route_filter], [route_bypasses_required_tokens],
    [reaches_output_avoiding], [check_commitment], [check_processed_route]), the rule that
    keeps components out of a worker's graph ([should_drop_component]), the mapping of an
    algorithm's errors, and a task's budget. A check's message is a value of an inductive
    type here, with the function that renders it. The depth-first search of
    [reaches_output_avoiding] carries fuel: a token enters the frontier once, so one step per
    swap and two more are enough. The theorems: the search decides whether swaps lead around a
    token, so [check_route] accepts exactly the routes that are valid, keep the request's
    filter and every one of whose token paths visits the required tokens; what it reports is
    what it found. A processed route that passes its checks can be pinned and ranked. *)

From stdpp Require Import prelude gmap sets strings list relations pretty.
From Stdlib Require Import NArith ZArith Lia.
From S2P Require Import Prelude F64 Types Route Samples RouteProofs Exclusive Allocation DerivedStore SpotPriceComputation MarketData MarketDataProofs SwapCache Algorithm.

(** ** Components a worker leaves out *)

Definition should_drop_component `{TychoMarket} (liquidity_scope : LiquidityScope)
    (exclude_protocols : list string) (component : ProtocolComponent) : bool :=
  (bool_decide (liquidity_scope = PublicOnly) && is_exclusive component)
  || is_excluded_protocol exclude_protocols component.

(** ** The route filter *)

Inductive RouteCheckError :=
| RCE_Invalid (error : RouteValidationError)
| RCE_ExcludedPool (component_id : ComponentId)
| RCE_ExcludedProtocol (protocol : string)
| RCE_ExcludedToken (token : Address)
| RCE_BypassesRequiredToken
| RCE_UnsyncedPool (component_id : ComponentId) (protocol : string).

(** [format!]'s text; [show_address] is the [Display] of an address. *)
Definition RouteCheckError_to_string `{Messages} (show_address : Address -> string) (e : RouteCheckError) : string :=
  match e with
  | RCE_Invalid error => show_route_error error
  | RCE_ExcludedPool id => "route uses excluded pool " +:+ id
  | RCE_ExcludedProtocol protocol => "route uses excluded protocol " +:+ protocol
  | RCE_ExcludedToken token => "route uses excluded intermediate token " +:+ show_address token
  | RCE_BypassesRequiredToken =>
      "route reaches the output token without passing through every required token"
  | RCE_UnsyncedPool id protocol => "route uses pool " +:+ id +:+ " of out-of-sync protocol " +:+ protocol
  end.

Section checks.
Context `{TychoMarket}.
Implicit Types (route : Route) (order : Order) (filter : RouteConstraints) (swap : Swap) (swaps : list Swap).

(** The loop over the swaps that leave [token]: each new token is reached and pushed. *)
Definition visit_swap (token avoided : Address) (acc : gset Address * list Address) swap
    : gset Address * list Address :=
  let '(reached, frontier) := acc in
  let next := sw_token_out swap in
  if bool_decide (sw_token_in swap = token) && bool_decide (next <> avoided) && bool_decide (next ∉ reached)
  then ({[ next ]} ∪ reached, next :: frontier)
  else (reached, frontier).

(** The frontier is a stack with its top first. *)
Fixpoint reach_loop (fuel : nat) swaps (avoided : Address) (reached : gset Address) (frontier : list Address)
    : option (gset Address) :=
  match frontier with
  | [] => Some reached
  | token :: frontier =>
      match fuel with
      | O => None
      | S fuel =>
          let '(reached, frontier) := fold_left (visit_swap token avoided) swaps (reached, frontier) in
          reach_loop fuel swaps avoided reached frontier
      end
  end.

Definition reached_avoiding route order (avoided : Address) : option (gset Address) :=
  reach_loop (S (S (length (rt_swaps route)))) (rt_swaps route) avoided
    {[ order_token_in order ]} [order_token_in order].

Definition reaches_output_avoiding route order (avoided : Address) : bool :=
  match reached_avoiding route order avoided with
  | Some reached => bool_decide (order_token_out order ∈ reached)
  | None => false
  end.

Definition route_bypasses_required_tokens route order (required_tokens : gset Address) : bool :=
  existsb (fun token => reaches_output_avoiding route order token)
    (List.filter (fun token => bool_decide (token <> order_token_in order)
                               && bool_decide (token <> order_token_out order)) (elements required_tokens)).

Definition check_intermediate order filter (token : Address) : result RouteCheckError unit :=
  if bool_decide (token <> order_token_in order) && bool_decide (token <> order_token_out order)
     && bool_decide (token ∈ rc_excluded_tokens filter)
  then Err (RCE_ExcludedToken token) else Ok tt.

Definition check_swap_filter order filter swap : result RouteCheckError unit :=
  if decide (sw_component_id swap ∈ rc_excluded_pools filter)
  then Err (RCE_ExcludedPool (sw_component_id swap))
  else
    let protocol := protocol_system_of (sw_protocol_component swap) in
    if existsb (fun entry => protocol_matches entry protocol) (elements (rc_excluded_protocols filter))
    then Err (RCE_ExcludedProtocol protocol)
    else for_each (check_intermediate order filter) [sw_token_in swap; sw_token_out swap].

Definition validate_route_filter route order filter : result RouteCheckError unit :=
  if RouteConstraints_is_empty filter then Ok tt
  else
    _ ← for_each (check_swap_filter order filter) (rt_swaps route);
    if route_bypasses_required_tokens route order (rc_required_tokens filter)
    then Err RCE_BypassesRequiredToken else Ok tt.

Definition check_synced (constraints : ResolvedRouteConstraints) swap : result RouteCheckError unit :=
  if is_unsynced_pool constraints (sw_component_id swap)
  then Err (RCE_UnsyncedPool (sw_component_id swap) (protocol_system_of (sw_protocol_component swap)))
  else Ok tt.

Definition check_route route order filter (constraints : ResolvedRouteConstraints)
    : outcome (result RouteCheckError unit) :=
  validated ← Route_validate route;
  Ret (match validated with
       | Err error => Err (RCE_Invalid error)
       | Ok _ =>
           _ ← validate_route_filter route order filter;
           for_each (check_synced constraints) (rt_swaps route)
       end).
End checks.

(** ** Processed routes *)

Inductive ProcessedCheckError :=
| PCE_DroppedComponent (component_id : ComponentId)
| PCE_NoCommitment
| PCE_CommitmentNotSell
| PCE_CommitmentNoExclusiveLeg
| PCE_CommitmentAboveAmountOut (committed : N)
| PCE_NetAboveAmountOut (net_amount_out : Z) (amount_out : N).

Section processed.
Context `{TychoMarket}.
Implicit Types (order : Order) (processed : RouteResult).

Definition check_commitment (liquidity_scope : LiquidityScope) order processed : result ProcessedCheckError unit :=
  let route := rr_route processed in
  let has_exclusive_leg := routes_through_exclusive (rt_swaps route) in
  match rr_commitment processed with
  | None =>
      if has_exclusive_leg && bool_decide (liquidity_scope = PublicOnly) then Err PCE_NoCommitment else Ok tt
  | Some commitment =>
      if negb (Order_is_sell order) then Err PCE_CommitmentNotSell
      else if negb has_exclusive_leg then Err PCE_CommitmentNoExclusiveLeg
      else
        match (fun token => Route_amount_out route token) <$> output_token route with
        | Some amount_out =>
            if amount_out <? cm_committed_amount_out commitment
            then Err (PCE_CommitmentAboveAmountOut (cm_committed_amount_out commitment)) else Ok tt
        | None => Err (PCE_CommitmentAboveAmountOut (cm_committed_amount_out commitment))
        end
  end.

Definition check_kept (scope : LiquidityScope) (exclude_protocols : list string) (swap : Swap)
    : result ProcessedCheckError unit :=
  if should_drop_component scope exclude_protocols (sw_protocol_component swap)
  then Err (PCE_DroppedComponent (sw_component_id swap)) else Ok tt.

(** [liquidity_scope] is the pool's, [scope] the one the request was given. *)
Definition check_processed_route (liquidity_scope : LiquidityScope) (exclude_protocols : list string)
    order processed (scope : LiquidityScope) : result ProcessedCheckError unit :=
  let route := rr_route processed in
  _ ← for_each (check_kept scope exclude_protocols) (rt_swaps route);
  _ ← check_commitment liquidity_scope order processed;
  if negb (Order_is_sell order) then Ok tt
  else
    match output_token route with
    | None => Ok tt
    | Some output_token =>
        let amount_out := Route_amount_out route output_token in
        if (Z.of_N amount_out <? rr_net_amount_out processed)%Z
        then Err (PCE_NetAboveAmountOut (rr_net_amount_out processed) amount_out) else Ok tt
    end.
End processed.

(** ** Errors and budgets *)

(** The errors that are reported as they print. *)
Definition solve_error_from_algorithm_error (show_algorithm_error : AlgorithmError -> string)
    (order_id : string) (amount_in : N) (err : AlgorithmError) : SolveError :=
  match err with
  | AE_NoPath _ _ reason => SE_NoRouteFound order_id (Some reason)
  | AE_Timeout elapsed_ms => SE_Timeout elapsed_ms
  | AE_InsufficientLiquidity => SE_InsufficientLiquidity amount_in 0
  | AE_DataNotFound kind id =>
      SE_MissingData (match id with Some id => kind +:+ ": " +:+ id | None => kind end)
  | AE_SimulationFailed component_id error => SE_SimulationFailed (component_id +:+ ": " +:+ error)
  | AE_InvalidConfiguration _ | AE_ExactOutNotSupported | AE_Other _ =>
      SE_AlgorithmError (show_algorithm_error err)
  end.

(** Instants and durations in nanoseconds. *)
Definition task_budget (pool_timeout deadline now : N) : option N :=
  match checked_sub deadline now with
  | None => None
  | Some remaining => if remaining =? 0 then None else Some (N.min pool_timeout remaining)
  end.

Section search.
Context `{TychoMarket}.
Implicit Types (swaps : list Swap) (t : Address).

(** One swap of [swaps] leads from a token to another one than [avoided]. *)
Definition step_avoiding swaps (avoided : Address) : relation Address := fun a b =>
  exists s, s ∈ swaps /\ sw_token_in s = a /\ sw_token_out s = b /\ b <> avoided.

Lemma visit_swaps_spec t avoided swaps reached frontier :
  exists new,
    fold_left (visit_swap t avoided) swaps (reached, frontier) = (list_to_set new ∪ reached, new ++ frontier) /\
    NoDup new /\
    (forall b, b ∈ new -> b ∉ reached /\ step_avoiding swaps avoided t b) /\
    (forall b, step_avoiding swaps avoided t b -> b ∈ new \/ b ∈ reached).
Proof.
  revert reached frontier. induction swaps as [|s swaps IH]; intros reached frontier; cbn [fold_left].
  { exists []. split_and!; [f_equal; set_solver|constructor|by intros b ?%not_elem_of_nil|].
    intros b (s & ?%not_elem_of_nil & _). done. }
  unfold visit_swap at 2.
  destruct (bool_decide (sw_token_in s = t) && bool_decide (sw_token_out s <> avoided)
    && bool_decide (sw_token_out s ∉ reached)) eqn:Hv.
  - rewrite !andb_true_iff, !bool_decide_eq_true in Hv. destruct Hv as [[Ht Ha] Hr].
    destruct (IH ({[ sw_token_out s ]} ∪ reached) (sw_token_out s :: frontier)) as (new & -> & Hnd & Hn & Hc).
    exists (new ++ [sw_token_out s]). split_and!.
    + rewrite <- app_assoc. cbn [app]. f_equal. set_solver.
    + apply NoDup_app. split_and!; [done| |by apply NoDup_singleton].
      intros b Hb ->%list_elem_of_singleton. apply Hn in Hb as [? _]. set_solver.
    + intros b [Hb| ->%list_elem_of_singleton]%elem_of_app.
      * destruct (Hn b Hb) as (Hout & s' & Hs' & ?). split; [set_solver|]. exists s'. split; [by right|done].
      * split; [done|]. exists s. split; [by left|done].
    + intros b (s' & [->|Hs']%elem_of_cons & Hin & Hout & Hne).
      * left. apply elem_of_app. right. subst. apply list_elem_of_singleton. done.
      * destruct (Hc b) as [Hb|Hb]; [by exists s'|left; apply elem_of_app; by left|].
        apply elem_of_union in Hb as [->%elem_of_singleton|Hb]; [left; set_solver|by right].
  - destruct (IH reached frontier) as (new & -> & Hnd & Hn & Hc). exists new. split_and!; [done|done| |].
    + intros b Hb. destruct (Hn b Hb) as (? & s' & Hs' & ?). split; [done|]. exists s'. split; [by right|done].
    + intros b (s' & [->|Hs']%elem_of_cons & Hin & Hout & Hne); [|apply Hc; by exists s'].
      right. subst. rewrite bool_decide_eq_true_2, bool_decide_eq_true_2 in Hv by done.
      cbn in Hv. apply bool_decide_eq_false in Hv. by apply dec_stable.
Qed.

(** Every token the loop may meet. *)
Definition met (start : Address) swaps : gset Address := {[ start ]} ∪ list_to_set (sw_token_out <$> swaps).

Record reach_inv (start avoided : Address) swaps (reached : gset Address) (frontier : list Address) : Prop := {
  ri_sound : forall t, t ∈ reached -> rtc (step_avoiding swaps avoided) start t;
  ri_start : start ∈ reached;
  ri_frontier : forall t, t ∈ frontier -> t ∈ reached;
  ri_closed : forall a b, a ∈ reached -> a ∉ frontier -> step_avoiding swaps avoided a b -> b ∈ reached;
  ri_met : reached ⊆ met start swaps;
}.

Lemma reach_loop_spec start avoided swaps fuel reached frontier :
  reach_inv start avoided swaps reached frontier ->
  (length frontier + size (met start swaps) <= fuel + size reached)%nat ->
  exists r, reach_loop fuel swaps avoided reached frontier = Some r /\
    forall t, t ∈ r <-> rtc (step_avoiding swaps avoided) start t.
Proof.
  revert reached frontier. induction fuel as [|fuel IH]; intros reached [|t frontier] Hi Hm.
  1,3: exists reached; split; [done|]; intros t; split; [apply (ri_sound _ _ _ _ _ Hi)|];
    intros Hr; apply (rtc_ind_r (fun u => u ∈ reached) _ (ri_start _ _ _ _ _ Hi)) in Hr; [done|];
    intros a b _ Hab Ha; eapply ri_closed; [done|done|by apply not_elem_of_nil|done].
  { pose proof (subseteq_size _ _ (ri_met _ _ _ _ _ Hi)). cbn [length] in Hm. lia. }
  cbn [reach_loop]. destruct (visit_swaps_spec t avoided swaps reached frontier) as (new & -> & Hnd & Hn & Hc).
  assert (list_to_set new ## reached) as Hdis by (intros b Hb%elem_of_list_to_set Hr; by apply Hn in Hb as [? _]).
  apply IH.
  - pose proof (ri_frontier _ _ _ _ _ Hi t ltac:(left)) as Ht. split.
    + intros b [Hb%elem_of_list_to_set|Hb]%elem_of_union; [|by apply (ri_sound _ _ _ _ _ Hi)].
      apply Hn in Hb as [_ Hb]. eapply rtc_r; [by apply (ri_sound _ _ _ _ _ Hi)|done].
    + apply elem_of_union. right. apply (ri_start _ _ _ _ _ Hi).
    + intros b [Hb|Hb]%elem_of_app; apply elem_of_union; [left; by apply elem_of_list_to_set|right].
      apply (ri_frontier _ _ _ _ _ Hi). by right.
    + intros a b [Ha%elem_of_list_to_set|Ha]%elem_of_union Hnf Hab; [set_solver|]. apply elem_of_union.
      destruct (decide (a = t)) as [->|Hat].
      * apply Hc in Hab as [?|?]; [left; by apply elem_of_list_to_set|by right].
      * right. eapply ri_closed; [done|done| |done]. set_solver.
    + intros b [Hb%elem_of_list_to_set|Hb]%elem_of_union; [|by apply (ri_met _ _ _ _ _ Hi)].
      apply Hn in Hb as (_ & s & Hs & _ & <- & _). unfold met. apply elem_of_union. right.
      apply elem_of_list_to_set, list_elem_of_fmap. by exists s.
  - rewrite size_union, length_app, size_list_to_set by done. cbn [length] in Hm. lia.
Qed.

Lemma reached_avoiding_spec route order avoided :
  exists r, reached_avoiding route order avoided = Some r /\
    forall t, t ∈ r <-> rtc (step_avoiding (rt_swaps route) avoided) (order_token_in order) t.
Proof.
  apply reach_loop_spec.
  - split; unfold met; [by intros t ->%elem_of_singleton|set_solver|set_solver| |set_solver].
    intros a b ->%elem_of_singleton Hf. by destruct Hf; left.
  - rewrite size_singleton. unfold met. cbn [length].
    pose proof (size_union_alt ({[ order_token_in order ]} : gset Address)
      (list_to_set (sw_token_out <$> rt_swaps route))) as ->.
    rewrite size_singleton.
    pose proof (subseteq_size (list_to_set (sw_token_out <$> rt_swaps route) ∖ {[ order_token_in order ]})
      (list_to_set (sw_token_out <$> rt_swaps route) : gset Address) ltac:(set_solver)).
    assert (forall l : list Address, size (list_to_set l : gset Address) <= length l)%nat as Hl.
    { induction l as [|x l IH]; cbn [list_to_set length]; [by rewrite size_empty|].
      pose proof (size_union_alt ({[ x ]} : gset Address) (list_to_set l)).
      pose proof (subseteq_size (list_to_set l ∖ {[ x ]}) (list_to_set l : gset Address) ltac:(set_solver)).
      rewrite size_singleton in *. lia. }
    specialize (Hl (sw_token_out <$> rt_swaps route)). rewrite length_fmap in Hl. lia.
Qed.

(** A chain of swaps from one token to another. *)
Fixpoint leads (a b : Address) (chain : list Swap) : Prop :=
  match chain with
  | [] => a = b
  | s :: chain => sw_token_in s = a /\ leads (sw_token_out s) b chain
  end.

Lemma step_avoiding_chain swaps avoided a b :
  rtc (step_avoiding swaps avoided) a b <->
  exists chain, chain ⊆ swaps /\ leads a b chain /\ avoided ∉ sw_token_out <$> chain.
Proof.
  split.
  - intros Hr. induction Hr as [a|a c b (s & Hs & <- & <- & Hne) _ (chain & Hin & Hl & Ha)].
    + exists []. split_and!; [set_solver|done|by apply not_elem_of_nil].
    + exists (s :: chain). split_and!; [set_solver|done|]. apply not_elem_of_cons. by split.
  - intros (chain & Hin & Hl & Ha). revert a Hin Hl Ha.
    induction chain as [|s chain IH]; intros a Hin Hl Ha; cbn in *; [by subst|].
    destruct Hl as [<- Hl]. apply not_elem_of_cons in Ha as [Hne Ha].
    eapply rtc_l; [|apply IH; [set_solver|done|done]]. exists s. split; [set_solver|done].
Qed.

(** The tokens a chain from [a] stands on. *)
Definition visited (a : Address) (chain : list Swap) : list Address := a :: (sw_token_out <$> chain).

Lemma leads_end a b chain : leads a b chain -> b ∈ visited a chain.
Proof.
  revert a. induction chain as [|s chain IH]; intros a Hl; cbn in *; [subst; by left|].
  destruct Hl as [_ Hl]. right. by apply IH.
Qed.

Lemma bypasses_spec route order required :
  if route_bypasses_required_tokens route order required
  then exists t chain, t ∈ required /\ chain ⊆ rt_swaps route /\
         leads (order_token_in order) (order_token_out order) chain /\ t ∉ visited (order_token_in order) chain
  else forall t chain, t ∈ required -> chain ⊆ rt_swaps route ->
         leads (order_token_in order) (order_token_out order) chain -> t ∈ visited (order_token_in order) chain.
Proof.
  destruct (route_bypasses_required_tokens route order required) eqn:Hb.
  - apply existsb_exists in Hb as (t & [Ht%elem_of_elements Hends]%list_elem_of_In%elem_of_filterb & Hreach).
    apply andb_true_iff in Hends as [Hin%bool_decide_eq_true Hout%bool_decide_eq_true].
    unfold reaches_output_avoiding in Hreach.
    destruct (reached_avoiding_spec route order t) as (r & Hr & Hspec). rewrite Hr in Hreach.
    apply bool_decide_eq_true, Hspec, step_avoiding_chain in Hreach as (chain & Hsub & Hl & Ha).
    exists t, chain. split_and!; [done..|]. by apply not_elem_of_cons.
  - intros t chain Ht Hsub Hl. apply dec_stable. intros Hnot. apply not_true_iff_false in Hb. apply Hb.
    apply existsb_exists. exists t. apply not_elem_of_cons in Hnot as [Hin Hout]. split.
    + apply list_elem_of_In, elem_of_filterb. split; [by apply elem_of_elements|].
      apply andb_true_iff. split; apply bool_decide_eq_true; [done|]. intros ->.
      apply leads_end, elem_of_cons in Hl as [|]; congruence.
    + unfold reaches_output_avoiding. destruct (reached_avoiding_spec route order t) as (r & -> & Hr).
      apply bool_decide_eq_true, Hr, step_avoiding_chain. by exists chain.
Qed.
End search.

(** ** What an accepted route satisfies *)

Section accepted.
Context `{TychoMarket}.
Implicit Types (route : Route) (order : Order) (filter : RouteConstraints) (swap : Swap).

(** The five demands on a route: it is valid; no swap uses an excluded or unsynced pool or an
    excluded protocol; tokens in between are allowed; every chain of its swaps from the
    order's input to its output stands on every required token. *)
Record route_admissible route order filter (constraints : ResolvedRouteConstraints) : Prop := {
  ra_valid : Route_validate route = Ret (Ok tt);
  ra_pools : forall s, s ∈ rt_swaps route ->
    sw_component_id s ∉ rc_excluded_pools filter /\ sw_component_id s ∉ rrc_unsynced_pools constraints;
  ra_protocols : forall s entry, s ∈ rt_swaps route -> entry ∈ rc_excluded_protocols filter ->
    protocol_matches entry (protocol_system_of (sw_protocol_component s)) = false;
  ra_tokens : forall s t, s ∈ rt_swaps route -> t ∈ [sw_token_in s; sw_token_out s] ->
    t ∈ rc_excluded_tokens filter -> t = order_token_in order \/ t = order_token_out order;
  ra_required : forall t chain, t ∈ rc_required_tokens filter -> chain ⊆ rt_swaps route ->
    leads (order_token_in order) (order_token_out order) chain -> t ∈ visited (order_token_in order) chain;
}.

(** What each error says of the route. *)
Definition violation route order filter (constraints : ResolvedRouteConstraints) (e : RouteCheckError) : Prop :=
  match e with
  | RCE_Invalid error => Route_validate route = Ret (Err error)
  | RCE_ExcludedPool id => id ∈ rc_excluded_pools filter /\ id ∈ sw_component_id <$> rt_swaps route
  | RCE_ExcludedProtocol protocol => exists s entry, s ∈ rt_swaps route /\ entry ∈ rc_excluded_protocols filter /\
      protocol_system_of (sw_protocol_component s) = protocol /\ protocol_matches entry protocol = true
  | RCE_ExcludedToken t => t ∈ rc_excluded_tokens filter /\ t <> order_token_in order /\ t <> order_token_out order /\
      exists s, s ∈ rt_swaps route /\ t ∈ [sw_token_in s; sw_token_out s]
  | RCE_BypassesRequiredToken => exists t chain, t ∈ rc_required_tokens filter /\ chain ⊆ rt_swaps route /\
      leads (order_token_in order) (order_token_out order) chain /\ t ∉ visited (order_token_in order) chain
  | RCE_UnsyncedPool id _ => id ∈ rrc_unsynced_pools constraints /\ id ∈ sw_component_id <$> rt_swaps route
  end.

Lemma violation_not_admissible route order filter constraints e :
  violation route order filter constraints e -> ~ route_admissible route order filter constraints.
Proof.
  intros Hv [Hvalid Hpools Hprotocols Htokens Hrequired]. destruct e; cbn in Hv.
  - congruence.
  - destruct Hv as [Hex (s & -> & Hs)%list_elem_of_fmap]. by apply Hpools in Hs as [].
  - destruct Hv as (s & entry & Hs & He & <- & Hm). by rewrite (Hprotocols s entry) in Hm.
  - destruct Hv as (He & Hi & Ho & s & Hs & Ht). by destruct (Htokens s token Hs Ht He).
  - destruct Hv as (t & chain & Ht & Hsub & Hl & Hn). by apply Hn, Hrequired.
  - destruct Hv as [Hex (s & -> & Hs)%list_elem_of_fmap]. by apply Hpools in Hs as [].
Qed.

Lemma for_each_result {A E} (check : A -> result E unit) items :
  match for_each check items with
  | Ok _ => forall x, x ∈ items -> check x = Ok tt
  | Err e => exists x, x ∈ items /\ check x = Err e
  end.
Proof.
  induction items as [|x items IH]; cbn; [by intros x ?%not_elem_of_nil|].
  destruct (check x) as [[]|e] eqn:Hx; cbn; [|exists x; by split; [left|]].
  destruct (for_each check items) as [[]|e].
  - intros y [->|Hy]%elem_of_cons; [done|by apply IH].
  - destruct IH as (y & Hy & He). exists y. by split; [right|].
Qed.

(** What [check_swap_filter] asks of one swap. *)
Lemma check_swap_filter_spec order filter s :
  match check_swap_filter order filter s with
  | Ok _ =>
      sw_component_id s ∉ rc_excluded_pools filter /\
      (forall entry, entry ∈ rc_excluded_protocols filter ->
         protocol_matches entry (protocol_system_of (sw_protocol_component s)) = false) /\
      (forall t, t ∈ [sw_token_in s; sw_token_out s] -> t ∈ rc_excluded_tokens filter ->
         t = order_token_in order \/ t = order_token_out order)
  | Err e => forall route constraints, s ∈ rt_swaps route -> violation route order filter constraints e
  end.
Proof.
  unfold check_swap_filter. case_decide as Hp.
  { intros route constraints Hs. split; [done|]. apply list_elem_of_fmap. by exists s. }
  destruct (existsb _ _) eqn:Hm.
  { apply existsb_exists in Hm as (entry & He%list_elem_of_In%elem_of_elements & Hm).
    intros route constraints Hs. by exists s, entry. }
  pose proof (for_each_result (check_intermediate order filter) [sw_token_in s; sw_token_out s]) as Hf.
  destruct (for_each _ _) as [[]|e].
  - split_and!; [done| |].
    + intros entry He. rewrite <- not_true_iff_false. intros Hmt. rewrite <- not_true_iff_false in Hm. apply Hm.
      apply existsb_exists. exists entry. split; [by apply list_elem_of_In, elem_of_elements|done].
    + intros t Ht He. specialize (Hf t Ht). unfold check_intermediate in Hf.
      destruct (decide (t = order_token_in order)); [by left|].
      destruct (decide (t = order_token_out order)); [by right|].
      by rewrite !bool_decide_eq_true_2 in Hf by done.
  - intros route constraints Hs. destruct Hf as (t & Ht & Hc). unfold check_intermediate in Hc.
    destruct (_ && _) eqn:Hb in Hc; [|done]. injection Hc as <-.
    rewrite !andb_true_iff, !bool_decide_eq_true in Hb. destruct Hb as [[??]?]. cbn.
    split_and!; [done|done|done|]. by exists s.
Qed.

Lemma empty_filter filter : RouteConstraints_is_empty filter = true ->
  rc_excluded_pools filter = ∅ /\ rc_excluded_protocols filter = ∅ /\
  rc_excluded_tokens filter = ∅ /\ rc_required_tokens filter = ∅.
Proof.
  unfold RouteConstraints_is_empty. rewrite !andb_true_iff, !bool_decide_eq_true. intuition.
Qed.

Lemma validate_route_filter_spec route order filter constraints :
  match validate_route_filter route order filter with
  | Ok _ =>
      (forall s, s ∈ rt_swaps route ->
        sw_component_id s ∉ rc_excluded_pools filter /\
        (forall entry, entry ∈ rc_excluded_protocols filter ->
           protocol_matches entry (protocol_system_of (sw_protocol_component s)) = false) /\
        (forall t, t ∈ [sw_token_in s; sw_token_out s] -> t ∈ rc_excluded_tokens filter ->
           t = order_token_in order \/ t = order_token_out order)) /\
      (forall t chain, t ∈ rc_required_tokens filter -> chain ⊆ rt_swaps route ->
        leads (order_token_in order) (order_token_out order) chain -> t ∈ visited (order_token_in order) chain)
  | Err e => violation route order filter constraints e
  end.
Proof.
  unfold validate_route_filter. destruct (RouteConstraints_is_empty filter) eqn:Hemp.
  { apply empty_filter in Hemp as (-> & -> & -> & ->). split; [|set_solver].
    intros s _. split_and!; set_solver. }
  pose proof (for_each_result (check_swap_filter order filter) (rt_swaps route)) as Hf.
  destruct (for_each _ _) as [[]|e]; cbn.
  - pose proof (bypasses_spec route order (rc_required_tokens filter)) as Hb.
    destruct (route_bypasses_required_tokens _ _ _); [exact Hb|]. split; [|exact Hb].
    intros s Hs. pose proof (check_swap_filter_spec order filter s) as Hc. by rewrite (Hf s Hs) in Hc.
  - destruct Hf as (s & Hs & Hc). pose proof (check_swap_filter_spec order filter s) as Hv.
    rewrite Hc in Hv. by apply Hv.
Qed.

Lemma check_route_lemma route order filter constraints :
  match check_route route order filter constraints with
  | Ret (Ok _) => route_admissible route order filter constraints
  | Ret (Err e) => violation route order filter constraints e
  | Panic => False
  end.
Proof.
  unfold check_route. destruct (route_validate_returns route) as [v Hv]. rewrite Hv. cbn.
  destruct v as [[]|e]; [|done].
  pose proof (validate_route_filter_spec route order filter constraints) as Hf.
  destruct (validate_route_filter _ _ _) as [[]|e]; [|done]. destruct Hf as [Hs Hreq]. cbn.
  pose proof (for_each_result (check_synced constraints) (rt_swaps route)) as Hu.
  destruct (for_each _ _) as [[]|e].
  - split; [done| | | |done].
    + intros s Hin. split; [by apply Hs|]. specialize (Hu s Hin). unfold check_synced, is_unsynced_pool in Hu.
      by case_bool_decide.
    + intros s entry Hin. by apply Hs.
    + intros s t Hin. by apply Hs.
  - destruct Hu as (s & Hin & Hc). unfold check_synced, is_unsynced_pool in Hc.
    case_bool_decide; [|done]. injection Hc as <-. split; [done|]. apply list_elem_of_fmap. by exists s.
Qed.

(** C8: the check of a route before it is quoted is exact. It never panics. It accepts a
    route just when the route is valid, no swap uses an excluded or an out-of-sync pool or an
    excluded protocol, every token between the order's two is allowed, and every chain of
    the route's swaps from the input to the output token stands on every required token, a
    split branch that goes around one included. An error names a demand the route breaks. *)
Theorem check_route_exact route order filter constraints :
  exists result, check_route route order filter constraints = Ret result /\
    (result = Ok tt <-> route_admissible route order filter constraints) /\
    (forall e, result = Err e -> violation route order filter constraints e).
Proof.
  pose proof (check_route_lemma route order filter constraints) as Hc.
  destruct (check_route _ _ _ _) as [[[]|e]|]; [| |done].
  - exists (Ok tt). split_and!; [done| |done]. by split.
  - exists (Err e). split_and!; [done| |by intros ? [= <-]].
    split; [done|]. intros Ha. by apply violation_not_admissible in Hc.
Qed.
End accepted.

(** ** Processed routes *)

Section processed.
Context `{TychoMarket}.
Implicit Types (order : Order) (processed : RouteResult).

(** The route a processor returns can be quoted: no component is one the pool drops; a
    commitment is on a sell order, has an exclusive leg to be pinned on and is paid by the
    route, and a public pool's exclusive leg has one; a seller's net amount is not above
    what the route pays, so that the gas cost is a natural number. *)
Record processed_ok (liquidity_scope scope : LiquidityScope) (exclude_protocols : list string)
    order processed : Prop := {
  pk_kept : forall s, s ∈ rt_swaps (rr_route processed) ->
    should_drop_component scope exclude_protocols (sw_protocol_component s) = false;
  pk_commitment : forall c, rr_commitment processed = Some c ->
    Order_is_sell order = true /\ routes_through_exclusive (rt_swaps (rr_route processed)) = true /\
    exists token, output_token (rr_route processed) = Some token /\
      cm_committed_amount_out c <= Route_amount_out (rr_route processed) token;
  pk_committed : rr_commitment processed = None -> liquidity_scope = PublicOnly ->
    routes_through_exclusive (rt_swaps (rr_route processed)) = false;
  pk_net : forall token, Order_is_sell order = true -> output_token (rr_route processed) = Some token ->
    (rr_net_amount_out processed <= Z.of_N (Route_amount_out (rr_route processed) token))%Z;
}.

Lemma check_commitment_spec liquidity_scope order processed :
  check_commitment liquidity_scope order processed = Ok tt <->
  (forall c, rr_commitment processed = Some c ->
    Order_is_sell order = true /\ routes_through_exclusive (rt_swaps (rr_route processed)) = true /\
    exists token, output_token (rr_route processed) = Some token /\
      cm_committed_amount_out c <= Route_amount_out (rr_route processed) token) /\
  (rr_commitment processed = None -> liquidity_scope = PublicOnly ->
    routes_through_exclusive (rt_swaps (rr_route processed)) = false).
Proof.
  unfold check_commitment. destruct (rr_commitment processed) as [c|].
  - destruct (Order_is_sell order); cbn; [|by split; [|intros [Hc _]; destruct (Hc c eq_refl)]].
    destruct (routes_through_exclusive _); cbn; [|by split; [|intros [Hc _]; destruct (Hc c eq_refl) as (_ & ? & _)]].
    destruct (output_token _) as [token|]; cbn.
    + destruct (N.ltb_spec (Route_amount_out (rr_route processed) token) (cm_committed_amount_out c)).
      * split; [done|]. intros [Hc _]. destruct (Hc c eq_refl) as (_ & _ & ? & [= <-] & ?). lia.
      * split; [|done]. intros _. split; [|done]. intros ? [= <-]. split_and!; [done|done|]. by exists token.
    + split; [done|]. intros [Hc _]. by destruct (Hc c eq_refl) as (_ & _ & ? & ? & _).
  - destruct (routes_through_exclusive _); cbn; [|done]. case_bool_decide as Hs.
    + split; [done|]. intros [_ Hc]. by specialize (Hc eq_refl Hs).
    + done.
Qed.

Lemma check_processed_route_lemma liquidity_scope scope exclude_protocols order processed :
  check_processed_route liquidity_scope exclude_protocols order processed scope = Ok tt <->
  processed_ok liquidity_scope scope exclude_protocols order processed.
Proof.
  unfold check_processed_route. rewrite bind_Ok. setoid_rewrite bind_Ok. split.
  - intros ([] & Hk & [] & Hc & Hn). rewrite for_each_Ok, Forall_forall in Hk.
    apply check_commitment_spec in Hc as [Hc Hp]. split; [|done|done|].
    + intros s Hs. specialize (Hk s Hs). unfold check_kept in Hk. by destruct (should_drop_component _ _ _).
    + intros token Hsell Ht. rewrite Hsell, Ht in Hn. cbn in Hn.
      destruct (Z.ltb_spec (Z.of_N (Route_amount_out (rr_route processed) token)) (rr_net_amount_out processed)); [done|lia].
  - intros [Hk Hc Hp Hn]. exists tt. rewrite for_each_Ok, Forall_forall. split.
    + intros s Hs. unfold check_kept. by rewrite Hk.
    + exists tt. split; [by apply check_commitment_spec|]. destruct (Order_is_sell order); [|done]. cbn.
      destruct (output_token _) as [token|]; [|done].
      specialize (Hn token eq_refl eq_refl).
      destruct (Z.ltb_spec (Z.of_N (Route_amount_out (rr_route processed) token)) (rr_net_amount_out processed)); [lia|done].
Qed.
End processed.
