(* ===== verification/WeightRound.v ===== *)
(** * WeightRound: when a worker rebuilds its edge weights

    Models [WeightInputsRound] of [fynd-core/src/worker_pool/worker.rs]. Within a block a
    worker rebuilds as soon as an input its algorithm requires fresh completes, and once when
    the last input has reported; the theorem is that it does exactly this, whatever the order
    of the reports, repeated ones and those of other blocks among them. *)

From stdpp Require Import prelude gmap sets strings list.
From Stdlib Require Import NArith ZArith Lia.
From S2P Require Import Prelude F64 Tracker.

Record WeightInputsRound := {
  wr_inputs : list ComputationId;
  wr_fresh_inputs : list ComputationId;
  wr_block : option N;
  wr_reported : list ComputationId;
}.

Definition WeightInputsRound_new (inputs : list ComputationId) (requirements : ComputationRequirements)
    : WeightInputsRound := {|
  wr_inputs := inputs;
  wr_fresh_inputs := List.filter (fun id => bool_decide (id ∈ req_fresh requirements)) inputs;
  wr_block := None;
  wr_reported := [];
|}.

(** A report of a computation: its id, its block and whether it completed. *)
Definition record_report (w : WeightInputsRound) (computation_id : ComputationId) (block : N) (completed : bool)
    : WeightInputsRound * bool :=
  if negb (bool_decide (wr_block w = Some block)) || negb (bool_decide (computation_id ∈ wr_inputs w))
     || bool_decide (computation_id ∈ wr_reported w)
  then (w, false)
  else
    let reported := wr_reported w ++ [computation_id] in
    let fresh_completed := completed && bool_decide (computation_id ∈ wr_fresh_inputs w) in
    ({| wr_inputs := wr_inputs w; wr_fresh_inputs := wr_fresh_inputs w; wr_block := wr_block w;
        wr_reported := reported |},
     fresh_completed || (length reported =? length (wr_inputs w))%nat).

Definition record_event (w : WeightInputsRound) (event : DerivedDataEvent) : WeightInputsRound * bool :=
  match event with
  | NewBlock block =>
      ({| wr_inputs := wr_inputs w; wr_fresh_inputs := wr_fresh_inputs w; wr_block := Some block;
          wr_reported := [] |}, false)
  | ComputationComplete computation_id block _ => record_report w computation_id block true
  | ComputationFailed computation_id block => record_report w computation_id block false
  end.

(** ** The reports of a block *)

(** What an event reports of [block]. *)
Definition report_of (block : N) (event : DerivedDataEvent) : option (ComputationId * bool) :=
  match event with
  | NewBlock _ => None
  | ComputationComplete id b _ => if b =? block then Some (id, true) else None
  | ComputationFailed id b => if b =? block then Some (id, false) else None
  end.

Definition reported_by (block : N) (events : list DerivedDataEvent) : list ComputationId :=
  (omap (report_of block) events).*1.

Definition is_report (event : DerivedDataEvent) : Prop :=
  match event with NewBlock _ => False | _ => True end.

(** The round after [NewBlock block] and the events, whatever the worker saw [earlier]. *)
Definition round_after (inputs : list ComputationId) (requirements : ComputationRequirements)
    (earlier : list DerivedDataEvent) (block : N) (events : list DerivedDataEvent) : WeightInputsRound :=
  fold_left (fun w event => (record_event w event).1) (earlier ++ NewBlock block :: events)
    (WeightInputsRound_new inputs requirements).

(** Whether the worker rebuilds at [event], which follows [before] in the block. *)
Definition rebuilds_at (inputs : list ComputationId) (requirements : ComputationRequirements)
    (earlier : list DerivedDataEvent) (block : N) (before : list DerivedDataEvent) (event : DerivedDataEvent) : bool :=
  (record_event (round_after inputs requirements earlier block before) event).2.

Lemma reported_by_app block events events' :
  reported_by block (events ++ events') = reported_by block events ++ reported_by block events'.
Proof. unfold reported_by. by rewrite omap_app, fmap_app. Qed.

Lemma reported_by_one block event :
  reported_by block [event] = match report_of block event with Some r => [r.1] | None => [] end.
Proof. unfold reported_by. cbn. by destruct (report_of block event). Qed.

Section round.
Context (inputs : list ComputationId) (requirements : ComputationRequirements) (block : N).

Record round_inv (events : list DerivedDataEvent) (w : WeightInputsRound) : Prop := {
  wi_inputs : wr_inputs w = inputs;
  wi_fresh : wr_fresh_inputs w = List.filter (fun id => bool_decide (id ∈ req_fresh requirements)) inputs;
  wi_block : wr_block w = Some block;
  wi_NoDup : NoDup (wr_reported w);
  wi_reported : forall id, id ∈ wr_reported w <-> id ∈ inputs /\ id ∈ reported_by block events;
}.

(** What one report does, in terms of the reports before it. *)
Lemma record_event_spec events w event :
  NoDup inputs -> is_report event -> round_inv events w ->
  round_inv (events ++ [event]) (record_event w event).1 /\
  ((record_event w event).2 = true <->
   exists id completed, report_of block event = Some (id, completed) /\ id ∈ inputs /\
     id ∉ reported_by block events /\
     (completed = true /\ id ∈ req_fresh requirements \/
      forall x, x ∈ inputs -> x ∈ reported_by block (events ++ [event]))).
Proof.
  intros Hnd Hrep Hi.
  assert (forall id b completed, report_of block event = (if b =? block then Some (id, completed) else None) ->
    record_event w event = record_report w id b completed -> 
    round_inv (events ++ [event]) (record_event w event).1 /\
    ((record_event w event).2 = true <->
     exists id completed, report_of block event = Some (id, completed) /\ id ∈ inputs /\
       id ∉ reported_by block events /\
       (completed = true /\ id ∈ req_fresh requirements \/
        forall x, x ∈ inputs -> x ∈ reported_by block (events ++ [event])))) as Hone.
  2: { destruct event as [|id b items|id b]; [done|by apply (Hone id b true)|by apply (Hone id b false)]. }
  clear Hrep. intros id b completed Hr ->. unfold record_report. rewrite (wi_block _ _ Hi), (wi_inputs _ _ Hi).
  rewrite reported_by_app, reported_by_one, Hr. destruct (N.eqb_spec b block) as [->|Hb] in Hr |- *.
  2: { rewrite bool_decide_eq_false_2 by congruence. cbn. split.
       - destruct Hi as [H1 H2 H3 H4 H5]. split; [done..|]. intros x.
         rewrite reported_by_app, reported_by_one, Hr, app_nil_r. apply H5.
       - split; [done|]. by intros (? & ? & ? & _). }
  rewrite bool_decide_eq_true_2 by done. cbn [negb orb fst].
  destruct (decide (id ∈ inputs)) as [Hin|Hin].
  2: { rewrite bool_decide_eq_false_2 by done. cbn. split.
       - destruct Hi as [H1 H2 H3 H4 H5]. split; [done..|]. intros x.
         rewrite reported_by_app, reported_by_one, Hr, H5. cbn. set_solver.
       - split; [done|]. by intros (? & ? & [= <- <-] & ? & _). }
  rewrite bool_decide_eq_true_2 by done. cbn [negb orb].
  destruct (decide (id ∈ wr_reported w)) as [Hre|Hre].
  { rewrite bool_decide_eq_true_2 by done. cbn. apply (wi_reported _ _ Hi) in Hre as Hre'. split.
    - destruct Hi as [H1 H2 H3 H4 H5]. split; [done..|]. intros x.
      rewrite reported_by_app, reported_by_one, Hr, H5. cbn. set_solver.
    - split; [done|]. intros (? & ? & [= <- <-] & _ & ? & _). tauto. }
  rewrite bool_decide_eq_false_2 by done. cbn.
  assert (id ∉ reported_by block events) as Hnot by (intros ?; by apply Hre, (wi_reported _ _ Hi)).
  assert (NoDup (wr_reported w ++ [id])) as Hnd'.
  { apply NoDup_app. split_and!; [apply (wi_NoDup _ _ Hi)| |apply NoDup_singleton].
    by intros x Hx ->%list_elem_of_singleton. }
  assert (forall x, x ∈ wr_reported w ++ [id] <-> x ∈ inputs /\ x ∈ reported_by block events ++ [id]) as Hall.
  { intros x. rewrite !elem_of_app, list_elem_of_singleton, (wi_reported _ _ Hi). set_solver. }
  split.
  - destruct Hi as [H1 H2 H3 H4 H5]. split; [done..|]. intros x. cbn.
    by rewrite reported_by_app, reported_by_one, Hr.
  - rewrite orb_true_iff, andb_true_iff, bool_decide_eq_true, (wi_fresh _ _ Hi), elem_of_filterb, bool_decide_eq_true.
    rewrite Nat.eqb_eq. split.
    + intros Hor. exists id, completed. split_and!; [done..|]. destruct Hor as [(? & _ & ?)|Hlen]; [by left|right].
      assert (wr_reported w ++ [id] ≡ₚ inputs) as Hp.
      { apply submseteq_length_Permutation; [|lia]. apply NoDup_submseteq; [done|]. intros x Hx. by apply Hall. }
      intros x Hx. apply Hall. by rewrite Hp.
    + intros (? & ? & [= <- <-] & _ & _ & [[-> Hf]|Hx]); [by left|right].
      apply Permutation_length, NoDup_Permutation; [done|done|]. intros x. rewrite Hall. naive_solver.
Qed.

Lemma record_event_config w event :
  wr_inputs (record_event w event).1 = wr_inputs w /\ wr_fresh_inputs (record_event w event).1 = wr_fresh_inputs w.
Proof. destruct event; cbn; unfold record_report; repeat case_match; done. Qed.

Lemma round_after_inv earlier events : NoDup inputs -> Forall is_report events ->
  round_inv events (round_after inputs requirements earlier block events).
Proof.
  intros Hnd. induction events as [|event events IH] using rev_ind; intros Hf.
  - unfold round_after. rewrite fold_left_app. cbn [fold_left].
    pose proof (fold_left_inv (fun w => wr_inputs w = inputs /\
        wr_fresh_inputs w = wr_fresh_inputs (WeightInputsRound_new inputs requirements))
      (fun w event => (record_event w event).1) earlier (WeightInputsRound_new inputs requirements)) as Hc.
    destruct Hc as [Ei Ef]; [done| |].
    { intros w event [Ei Ef]. destruct (record_event_config w event) as [-> ->]. done. }
    split; cbn; [done|by rewrite Ef|done|apply NoDup_nil_2|]. intros id. set_solver.
  - apply Forall_app in Hf as [Hf [He _]%Forall_cons]. unfold round_after. rewrite app_comm_cons, app_assoc, fold_left_app.
    cbn [fold_left]. by apply record_event_spec; [..|apply IH].
Qed.
End round.

(** ** The theorem *)

Definition all_reported (inputs : list ComputationId) (block : N) (events : list DerivedDataEvent) : Prop :=
  forall x, x ∈ inputs -> x ∈ reported_by block events.

#[export] Instance all_reported_dec inputs block events : Decision (all_reported inputs block events).
Proof.
  refine (cast_if (decide (Forall (fun x => x ∈ reported_by block events) inputs)));
    unfold all_reported; by rewrite <- Forall_forall.
Defined.

(** The event that completes the reports. *)
Lemma last_report inputs block events : inputs <> [] -> all_reported inputs block events ->
  exists before event after, events = before ++ event :: after /\
    all_reported inputs block (before ++ [event]) /\ ~ all_reported inputs block before.
Proof.
  intros Hne. induction events as [|event events IH] using rev_ind; intros Hall.
  - destruct inputs as [|x inputs]; [done|]. specialize (Hall x ltac:(left)). by apply not_elem_of_nil in Hall.
  - destruct (decide (all_reported inputs block events)) as [Hb|Hb].
    + destruct (IH Hb) as (before & e & after & -> & ?). exists before, e, (after ++ [event]).
      by rewrite <- app_assoc.
    + by exists events, event, [].
Qed.

(** Within a block, whatever events came earlier, a worker rebuilds its weights exactly when it should. It rebuilds at
    an event just when the event is the first report of an input for this block and either
    it is a completion of an input that must be fresh, or with it all inputs have reported;
    repeated reports, other blocks' and other computations' change nothing. Once all inputs
    have reported there was one rebuild that came after every report, and none follows it, so
    the weights of the block are read from every input's outcome. *)
Theorem weights_rebuilt_per_block (inputs : list ComputationId) (requirements : ComputationRequirements)
    (earlier : list DerivedDataEvent) (block : N) (events : list DerivedDataEvent) :
  NoDup inputs -> Forall is_report events ->
  (forall before event after, events = before ++ event :: after ->
     rebuilds_at inputs requirements earlier block before event = true <->
     exists id completed, report_of block event = Some (id, completed) /\ id ∈ inputs /\
       id ∉ reported_by block before /\
       (completed = true /\ id ∈ req_fresh requirements \/ all_reported inputs block (before ++ [event]))) /\
  (inputs <> [] -> all_reported inputs block events ->
   exists before event after, events = before ++ event :: after /\
     rebuilds_at inputs requirements earlier block before event = true /\
     all_reported inputs block (before ++ [event]) /\
     forall during event' after', after = during ++ event' :: after' ->
       rebuilds_at inputs requirements earlier block (before ++ event :: during) event' = false).
Proof.
  intros Hnd Hrep.
  assert (forall before event after, events = before ++ event :: after ->
     rebuilds_at inputs requirements earlier block before event = true <->
     exists id completed, report_of block event = Some (id, completed) /\ id ∈ inputs /\
       id ∉ reported_by block before /\
       (completed = true /\ id ∈ req_fresh requirements \/ all_reported inputs block (before ++ [event]))) as Hat.
  { intros before event after ->. apply Forall_app in Hrep as [Hb [He _]%Forall_cons].
    by apply (record_event_spec inputs requirements block), round_after_inv. }
  split; [exact Hat|]. intros Hne Hall.
  destruct (last_report inputs block events Hne Hall) as (before & event & after & Heq & Hc & Hnc).
  exists before, event, after. split_and!; [done| |done|].
  - apply (Hat before event after Heq). unfold all_reported in Hnc.
    assert (exists x, x ∈ inputs /\ x ∉ reported_by block before) as (x & Hx & Hout).
    { rewrite <- Forall_forall in Hnc. apply not_Forall_Exists in Hnc; [|apply _].
      by apply Exists_exists in Hnc. }
    specialize (Hc x Hx) as Hin. rewrite reported_by_app, reported_by_one in Hin.
    apply elem_of_app in Hin as [|Hin]; [done|]. destruct (report_of block event) as [[id completed]|] eqn:Hr.
    + apply list_elem_of_singleton in Hin as ->. exists id, completed. split_and!; [done..|]. by right.
    + by apply not_elem_of_nil in Hin.
  - intros during event' after' ->. apply not_true_iff_false. intros Hr.
    apply (Hat (before ++ event :: during) event' after') in Hr as (id & completed & _ & Hin & Hout & _).
    2: by rewrite <- app_assoc.
    apply Hout. rewrite cons_middle, app_assoc, reported_by_app. apply elem_of_app. left. by apply Hc.
Qed.

(** Three inputs, the second fresh; its completion comes before the others report. *)
Definition three_reports : list DerivedDataEvent := [
  ComputationComplete "token_prices" 7 [];
  ComputationComplete "spot_prices" 6 [];
  ComputationFailed "spot_prices" 7;
  ComputationComplete "token_prices" 7 [];
  ComputationComplete "component_depths" 7 []].

(** The block before: one input reported, under an older block number too. *)
Definition earlier_reports : list DerivedDataEvent := [
  NewBlock 6; ComputationComplete "spot_prices" 6 []; ComputationComplete "token_prices" 5 []].

Lemma weights_rebuilt_per_block_witness :
  let inputs := ["spot_prices"; "token_prices"; "component_depths"]%string in
  rebuilds_at inputs (requirements_fresh ["token_prices"]%string) earlier_reports 7 [] (ComputationComplete "token_prices" 7 []) = true /\
  exists before event after, three_reports = before ++ event :: after /\
    rebuilds_at inputs (requirements_fresh ["token_prices"]%string) earlier_reports 7 before event = true /\
    all_reported inputs 7 (before ++ [event]).
Proof.
  split; [by vm_compute|].
  destruct (weights_rebuilt_per_block ["spot_prices"; "token_prices"; "component_depths"]%string
    (requirements_fresh ["token_prices"]%string) earlier_reports 7 three_reports) as [_ Hone].
  - by apply (bool_decide_unpack _).
  - repeat constructor.
  - destruct (Hone ltac:(done)) as (before & event & after & Heq & Hr & Hall & _).
    + by apply (bool_decide_unpack _).
    + by exists before, event, after.
Defined.
