(* ===== verification/FallbackPools.v ===== *)
(** * FallbackPools: the pools a pAMM leg can fall back to

    Models [FallbackPoolIndex] and its helpers of [fynd-core/src/fallback/mod.rs]. A pAMM leg
    that lands late is run on a fallback pool; the index lists the pools that can serve a
    pair of tokens and is kept current from market events. The theorems are that a built
    index and one that followed the events list exactly the pools of the market that
    qualify. A hash map is walked in key order; the order only decides between candidates
    that pay the same. *)

From stdpp Require Import prelude gmap sets strings list.
From Stdlib Require Import Ascii.
From Stdlib Require Import NArith ZArith Lia.
From S2P Require Import Prelude F64 Types Route Samples DerivedStore SpotPriceComputation Manager MarketData MarketDataProofs.

(** The protocols a fallback router runs. *)
Inductive FallbackProtocol := FP_UniswapV2 | FP_UniswapV3 | FP_UniswapV4 | FP_Curve | FP_FluidV1 | FP_AerodromeV1.

#[export] Instance FallbackProtocol_eq_dec : EqDecision FallbackProtocol.
Proof. solve_decision. Defined.

(** What [tycho_execution] says of a protocol system and a chain. *)
Class TychoFallback `{TychoMarket} : Type := {
  Chain : Type;
  component_chain_of : ProtocolComponent -> Chain;
  from_protocol_system : string -> option FallbackProtocol;
  supported_on : FallbackProtocol -> Chain -> bool;
}.

Definition is_pamm `{TychoMarket} (component : ProtocolComponent) : bool :=
  String.prefix FALLBACK_PREFIX (protocol_system_of component).

Definition has_fallback_leg `{Tycho} (route : Route) : bool :=
  existsb (fun swap => String.prefix FALLBACK_PREFIX (sw_protocol swap)) (rt_swaps route).

(** ** Candidates *)

Definition is_zero (bytes : Bytes) : bool :=
  forallb (fun byte => bool_decide (N_of_ascii byte = 0)) (String.list_ascii_of_string bytes).

Definition is_native_token (token : Address) : bool :=
  bool_decide (String.length token = 20%nat)
  && (is_zero token
      || forallb (fun byte => bool_decide (N_of_ascii byte = 238)) (String.list_ascii_of_string token)).

Definition token_pairs (tokens : list Address) : list (Address * Address) := pairs tokens.

(** Addresses are ordered by their bytes. *)
Definition sorted_pair (token_a token_b : Address) : Address * Address :=
  if String.leb token_a token_b then (token_a, token_b) else (token_b, token_a).

Definition is_fallback_candidate `{TychoFallback} (component : ProtocolComponent) : bool :=
  match from_protocol_system (protocol_system_of component) with
  | None => false
  | Some protocol =>
      if negb (supported_on protocol (component_chain_of component))
         || (length (component_tokens_of component) <? 2)%nat then false
      else if negb (bool_decide (protocol = FP_UniswapV4)) then true
      else match static_attributes component !! "hooks"%string with
           | Some hooks => is_zero hooks
           | None => true
           end
  end.

(** ** The index *)

Record FallbackPoolIndex := {
  fi_pools : gmap (Address * Address) (list ComponentId);
  fi_keys : gmap ComponentId (list (Address * Address));
}.

Definition FallbackPoolIndex_default : FallbackPoolIndex := {| fi_pools := ∅; fi_keys := ∅ |}.

Definition candidates_for (index : FallbackPoolIndex) (token_a token_b : Address) : list ComponentId :=
  default [] (fi_pools index !! sorted_pair token_a token_b).

(** One pair of [remove]. *)
Definition unfile (component_id : ComponentId) (pools : gmap (Address * Address) (list ComponentId))
    (pair : Address * Address) : gmap (Address * Address) (list ComponentId) :=
  match pools !! pair with
  | None => pools
  | Some candidates =>
      match List.filter (fun candidate => bool_decide (candidate <> component_id)) candidates with
      | [] => delete pair pools
      | candidates => <[pair := candidates]> pools
      end
  end.

Definition index_remove (index : FallbackPoolIndex) (component_id : ComponentId) : FallbackPoolIndex :=
  match fi_keys index !! component_id with
  | None => index
  | Some filed =>
      {| fi_pools := fold_left (unfile component_id) filed (fi_pools index);
         fi_keys := delete component_id (fi_keys index) |}
  end.

(** One pair of [insert]; the pairs filed so far are kept beside the pools. *)
Definition file_pair (component_id : ComponentId)
    (acc : gmap (Address * Address) (list ComponentId) * list (Address * Address)) (tokens : Address * Address)
    : gmap (Address * Address) (list ComponentId) * list (Address * Address) :=
  if is_native_token tokens.1 || is_native_token tokens.2 then acc
  else
    let pair := sorted_pair tokens.1 tokens.2 in
    (<[pair := default [] (acc.1 !! pair) ++ [component_id]]> acc.1, acc.2 ++ [pair]).

Section index.
Context `{TychoFallback}.
Implicit Types (st : MarketState) (index : FallbackPoolIndex).

Definition index_insert st index (component_id : ComponentId) : FallbackPoolIndex :=
  match get_component st component_id with
  | None => index
  | Some component =>
      if negb (is_fallback_candidate component) then index
      else
        let index := index_remove index component_id in
        let '(pools, filed) :=
          fold_left (file_pair component_id) (token_pairs (component_tokens_of component)) (fi_pools index, []) in
        {| fi_pools := pools; fi_keys := <[component_id := filed]> (fi_keys index) |}
  end.

Definition index_build st : FallbackPoolIndex :=
  fold_left (index_insert st) (map_to_list (component_topology st)).*1 FallbackPoolIndex_default.

Definition index_apply_event st index (event : MarketEvent) : FallbackPoolIndex :=
  let index := fold_left index_remove (removed_components event) index in
  fold_left (index_insert st) (map_to_list (added_components event)).*1 index.

Definition must_withhold_pamm st (component : ProtocolComponent) index : bool :=
  if negb (is_pamm component) then false
  else
    let swap_directions := default [] (market_swap_directions_of st (component_id_of component)) in
    negb (existsb (fun d : SwapDirection => negb (bool_decide (candidates_for index d.1 d.2 = []))) swap_directions).
End index.

(** ** Laws of the index *)

Lemma sorted_pair_comm a b : sorted_pair a b = sorted_pair b a.
Proof.
  unfold sorted_pair. destruct (String.leb a b) eqn:Hab, (String.leb b a) eqn:Hba; [|done|done|].
  - f_equal; [|symmetry]; by apply String.leb_antisym.
  - destruct (String.leb_total a b) as [?|?]; congruence.
Qed.

Lemma sorted_pair_inj a b x y : sorted_pair a b = sorted_pair x y -> a = x /\ b = y \/ a = y /\ b = x.
Proof. unfold sorted_pair. destruct (String.leb a b), (String.leb x y); intros [= -> ->]; tauto. Qed.

(** The pairs a component is filed under. *)
Definition serving_pairs (tokens : list Address) : list (Address * Address) :=
  (fun p => sorted_pair p.1 p.2) <$>
  List.filter (fun p => negb (is_native_token p.1 || is_native_token p.2)) (token_pairs tokens).

(** The index is what its keys say. *)
Record index_rep (index : FallbackPoolIndex) : Prop := {
  ir_filed : forall pair id, id ∈ default [] (fi_pools index !! pair) <->
    exists filed, fi_keys index !! id = Some filed /\ pair ∈ filed;
  ir_nonempty : forall pair, fi_pools index !! pair <> Some [];
}.

Lemma index_rep_default : index_rep FallbackPoolIndex_default.
Proof.
  split; [|done]. intros pair id. cbn. split; [by intros ?%not_elem_of_nil|].
  by intros (filed & ? & _).
Qed.

Lemma unfile_lookup id pools pair pair' :
  (forall p, pools !! p <> Some []) ->
  (forall p, unfile id pools pair !! p <> Some []) /\
  default [] (unfile id pools pair !! pair')
  = if decide (pair' = pair) then List.filter (fun c => bool_decide (c <> id)) (default [] (pools !! pair'))
    else default [] (pools !! pair').
Proof.
  intros Hne. unfold unfile. destruct (pools !! pair) as [cs|] eqn:Hp.
  2: { split; [done|]. case_decide; [subst; by rewrite Hp|done]. }
  destruct (List.filter _ cs) as [|c cs'] eqn:Hf.
  - split.
    + intros p. destruct (decide (p = pair)) as [->|]; [by rewrite lookup_delete_eq|by rewrite lookup_delete_ne].
    + case_decide as Hd; [subst; rewrite lookup_delete_eq, Hp; cbn; by rewrite Hf|by rewrite lookup_delete_ne].
  - split.
    + intros p. destruct (decide (p = pair)) as [->|]; [by rewrite lookup_insert_eq|by rewrite lookup_insert_ne].
    + case_decide as Hd; [subst; rewrite lookup_insert_eq, Hp; cbn; by rewrite Hf|by rewrite lookup_insert_ne].
Qed.

Lemma unfile_all_lookup id filed pools pair' :
  (forall p, pools !! p <> Some []) ->
  let pools' := fold_left (unfile id) filed pools in
  (forall p, pools' !! p <> Some []) /\
  forall c, c ∈ default [] (pools' !! pair') <-> c ∈ default [] (pools !! pair') /\ (c = id -> pair' ∉ filed).
Proof.
  revert pools. induction filed as [|pair filed IH]; intros pools Hne; cbn [fold_left].
  { split; [done|]. intros c. split; [|tauto]. intros ?. split; [done|]. intros _ ?%not_elem_of_nil. done. }
  destruct (unfile_lookup id pools pair pair' Hne) as [Hne' Hl].
  destruct (IH _ Hne') as [? Hc]. split; [done|]. intros c. rewrite Hc, Hl. case_decide as Hd.
  - rewrite elem_of_filterb, bool_decide_eq_true. subst. rewrite not_elem_of_cons. naive_solver.
  - rewrite not_elem_of_cons. naive_solver.
Qed.

Lemma index_remove_spec index id : index_rep index ->
  index_rep (index_remove index id) /\ fi_keys (index_remove index id) = delete id (fi_keys index).
Proof.
  intros Hr. unfold index_remove. destruct (fi_keys index !! id) as [filed|] eqn:Hk.
  2: { split; [done|]. by rewrite delete_id. }
  split; [|done]. split.
  - intros pair c. cbn. destruct (unfile_all_lookup id filed (fi_pools index) pair (ir_nonempty _ Hr)) as [_ ->].
    rewrite (ir_filed _ Hr). destruct (decide (c = id)) as [->|Hne].
    + rewrite lookup_delete_eq, Hk. naive_solver.
    + rewrite lookup_delete_ne by done. naive_solver.
  - intros pair. cbn. by apply unfile_all_lookup, (ir_nonempty _ Hr).
Qed.

Lemma file_pairs_spec id tokens pools filed :
  (forall p, pools !! p <> Some []) ->
  let run := fold_left (file_pair id) tokens (pools, filed) in
  let new := (fun p => sorted_pair p.1 p.2) <$>
    List.filter (fun p => negb (is_native_token p.1 || is_native_token p.2)) tokens in
  run.2 = filed ++ new /\
  (forall p, run.1 !! p <> Some []) /\
  forall p c, c ∈ default [] (run.1 !! p) <-> c ∈ default [] (pools !! p) \/ (c = id /\ p ∈ new).
Proof.
  revert pools filed. induction tokens as [|t tokens IH]; intros pools filed Hne; cbn [fold_left List.filter fmap list_fmap].
  { cbn. rewrite app_nil_r. split_and!; [done|done|]. intros p c. set_solver. }
  cbn zeta. set (pair := sorted_pair t.1 t.2).
  assert (file_pair id (pools, filed) t
    = if is_native_token t.1 || is_native_token t.2 then (pools, filed)
      else (<[pair := default [] (pools !! pair) ++ [id]]> pools, filed ++ [pair])) as -> by done.
  destruct (is_native_token t.1 || is_native_token t.2); cbn [negb]; [by apply IH|].
  destruct (IH (<[pair := default [] (pools !! pair) ++ [id]]> pools) (filed ++ [pair])) as (Hf & Hne' & Hc).
  { intros p. destruct (decide (p = pair)) as [->|]; [|by rewrite lookup_insert_ne].
    rewrite lookup_insert_eq. by destruct (default [] (pools !! pair)). }
  split_and!; [|done|].
  - by rewrite Hf, <- app_assoc.
  - intros p c. rewrite Hc, fmap_cons, elem_of_cons. fold pair. destruct (decide (p = pair)) as [->|Hp].
    + rewrite lookup_insert_eq. unfold default at 1. cbn. rewrite elem_of_app, list_elem_of_singleton. tauto.
    + rewrite lookup_insert_ne by done. naive_solver.
Qed.

(** ** The index follows the market *)

Section current.
Context `{TychoFallback}.
Implicit Types (st : MarketState) (index : FallbackPoolIndex).

(** The pairs under which a component of the market has to be filed. *)
Definition fallback_pairs st (id : ComponentId) : option (list (Address * Address)) :=
  component ← get_component st id;
  if is_fallback_candidate component then Some (serving_pairs (component_tokens_of component)) else None.

Record index_current st index : Prop := {
  ic_rep : index_rep index;
  ic_keys : forall id, fi_keys index !! id = fallback_pairs st id;
}.

Lemma index_insert_spec st index id : index_rep index ->
  index_rep (index_insert st index id) /\
  forall id', fi_keys (index_insert st index id) !! id'
    = if decide (id' = id) then match fallback_pairs st id with Some p => Some p | None => fi_keys index !! id' end
      else fi_keys index !! id'.
Proof.
  intros Hr. unfold index_insert, fallback_pairs. destruct (get_component st id) as [c|]; cbn.
  2: { split; [done|]. intros id'. by case_decide. }
  destruct (is_fallback_candidate c); cbn [negb].
  2: { split; [done|]. intros id'. by case_decide. }
  destruct (index_remove_spec index id Hr) as [Hr' Hk].
  destruct (file_pairs_spec id (token_pairs (component_tokens_of c)) (fi_pools (index_remove index id)) []
    (ir_nonempty _ Hr')) as (Hf & Hne & Hc).
  fold (serving_pairs (component_tokens_of c)) in Hf, Hc. cbn [app] in Hf.
  destruct (fold_left _ _ _) as [pools filed]. cbn [fst snd] in *. subst filed. split.
  - split; [|done]. intros pair c'. cbn. rewrite Hc, (ir_filed _ Hr'), Hk.
    destruct (decide (c' = id)) as [->|Hd].
    + rewrite lookup_insert_eq, lookup_delete_eq. naive_solver.
    + rewrite lookup_insert_ne, lookup_delete_ne by done. naive_solver.
  - intros id'. cbn. rewrite Hk. case_decide as Hd; [subst; by rewrite lookup_insert_eq|].
    by rewrite lookup_insert_ne, lookup_delete_ne by done.
Qed.

Lemma index_inserts_spec st ids index : index_rep index ->
  let index' := fold_left (index_insert st) ids index in
  index_rep index' /\
  forall id, fi_keys index' !! id
    = if decide (id ∈ ids) then match fallback_pairs st id with Some p => Some p | None => fi_keys index !! id end
      else fi_keys index !! id.
Proof.
  revert index. induction ids as [|i ids IH]; intros index Hr; cbn [fold_left]; [done|].
  destruct (index_insert_spec st index i Hr) as [Hr' Hk]. destruct (IH _ Hr') as [Hr2 Hk2]. split; [done|].
  intros id. rewrite Hk2, !Hk. destruct (decide (id = i)) as [->|Hne].
  - rewrite (decide_True (P := i ∈ i :: ids)) by left. case_decide; by destruct (fallback_pairs st i).
  - destruct (decide (id ∈ ids)) as [Hin|Hin].
    + by rewrite (decide_True (P := id ∈ i :: ids)) by by right.
    + by rewrite (decide_False (P := id ∈ i :: ids)) by set_solver.
Qed.

Lemma index_removes_spec ids index : index_rep index ->
  let index' := fold_left index_remove ids index in
  index_rep index' /\
  forall id, fi_keys index' !! id = if decide (id ∈ ids) then None else fi_keys index !! id.
Proof.
  revert index. induction ids as [|i ids IH]; intros index Hr; cbn [fold_left]; [done|].
  destruct (index_remove_spec index i Hr) as [Hr' Hk]. destruct (IH _ Hr') as [Hr2 Hk2]. split; [done|].
  intros id. rewrite Hk2, Hk. destruct (decide (id = i)) as [->|Hne].
  - rewrite (decide_True (P := i ∈ i :: ids)), lookup_delete_eq by left. by case_decide.
  - rewrite lookup_delete_ne by done. destruct (decide (id ∈ ids)) as [Hin|Hin].
    + by rewrite (decide_True (P := id ∈ i :: ids)) by by right.
    + by rewrite (decide_False (P := id ∈ i :: ids)) by set_solver.
Qed.

Lemma topology_keys st id : id ∈ (map_to_list (component_topology st)).*1 <-> is_Some (get_component st id).
Proof.
  rewrite list_elem_of_fmap. unfold component_topology, get_component. split.
  - intros ([i t] & -> & Hin%elem_of_map_to_list). rewrite lookup_fmap in Hin. cbn in *.
    destruct (components st !! i); [by eexists|done].
  - rewrite fmap_is_Some. intros [stored Hs]. exists (id, topology stored). split; [done|].
    apply elem_of_map_to_list. by rewrite lookup_fmap, Hs.
Qed.

Lemma index_build_current st : index_current st (index_build st).
Proof.
  destruct (index_inserts_spec st (map_to_list (component_topology st)).*1 _ index_rep_default) as [Hr Hk].
  split; [done|]. intros id. unfold index_build. rewrite Hk. cbn. rewrite lookup_empty. case_decide as Hd.
  - by destruct (fallback_pairs st id).
  - rewrite topology_keys in Hd. unfold fallback_pairs. destruct (get_component st id); [|done].
    by destruct Hd.
Qed.

(** A component that stays keeps whether it is a candidate. *)
Definition candidacy_kept st st' : Prop :=
  forall id c c', get_component st id = Some c -> get_component st' id = Some c' ->
    is_fallback_candidate c' = is_fallback_candidate c.

Lemma topology_of_tokens st id : tp_tokens <$> component_topology st !! id = component_tokens_of <$> get_component st id.
Proof.
  unfold component_topology, get_component. rewrite lookup_fmap, <- !option_fmap_compose. done.
Qed.

Lemma fallback_pairs_tokens st st' id : candidacy_kept st st' ->
  component_topology st !! id = component_topology st' !! id -> fallback_pairs st' id = fallback_pairs st id.
Proof.
  intros Hkept Heq. assert (component_tokens_of <$> get_component st id = component_tokens_of <$> get_component st' id) as Ht
    by (by rewrite <- !topology_of_tokens, Heq).
  unfold fallback_pairs. destruct (get_component st id) as [c|] eqn:Hc, (get_component st' id) as [c'|] eqn:Hc'; try done.
  cbn in *. rewrite (Hkept _ _ _ Hc Hc'). injection Ht as ->. done.
Qed.

Lemma after_event_lookup (m : gmap ComponentId ComponentTopology) event id :
  after_event m event !! id = if decide (id ∈ removed_components event) then None
    else match added_components event !! id with Some t => Some t | None => m !! id end.
Proof.
  unfold after_event, after_update. case_decide as Hd.
  - apply map_lookup_filter_None. right. intros t _ Hn. by apply Hn.
  - destruct (decide (is_Some ((added_components event ∪ m) !! id))) as [[t Ht]|Hn].
    + rewrite (proj2 (map_lookup_filter_Some _ _ _ t) (conj Ht Hd)). rewrite lookup_union in Ht.
      destruct (added_components event !! id), (m !! id); cbn in Ht; done.
    + rewrite (proj2 (map_lookup_filter_None _ _ _)) by (left; by apply eq_None_not_Some).
      rewrite <- eq_None_not_Some, lookup_union in Hn.
      destruct (added_components event !! id), (m !! id); cbn in Hn; done.
Qed.

Lemma index_apply_event_current st st' index event :
  index_current st index -> candidacy_kept st st' ->
  after_event (component_topology st) event = component_topology st' ->
  index_current st' (index_apply_event st' index event).
Proof.
  intros [Hr Hk] Hkept Hev. unfold index_apply_event.
  destruct (index_removes_spec (removed_components event) index Hr) as [Hr1 Hk1].
  destruct (index_inserts_spec st' (map_to_list (added_components event)).*1 _ Hr1) as [Hr2 Hk2].
  split; [done|]. intros id. rewrite Hk2, Hk1, Hk.
  assert (component_topology st' !! id = if decide (id ∈ removed_components event) then None
    else match added_components event !! id with Some t => Some t | None => component_topology st !! id end) as Ht
    by (by rewrite <- Hev, after_event_lookup).
  assert (id ∈ (map_to_list (added_components event)).*1 <-> is_Some (added_components event !! id)) as Hadd.
  { rewrite list_elem_of_fmap. split.
    - intros ([i t] & -> & Hin%elem_of_map_to_list). by exists t.
    - intros [t Hin]. exists (id, t). split; [done|]. by apply elem_of_map_to_list. }
  assert (component_topology st' !! id = None -> fallback_pairs st' id = None) as Hgone.
  { intros Hn. unfold fallback_pairs. destruct (get_component st' id) eqn:Hc; [|done].
    pose proof (topology_of_tokens st' id) as Hx. by rewrite Hn, Hc in Hx. }
  destruct (decide (id ∈ removed_components event)) as [Hrem|Hrem].
  { rewrite (Hgone Ht). by case_decide. }
  destruct (added_components event !! id) as [t|] eqn:Ha.
  - rewrite decide_True by (apply Hadd; by eexists).
    destruct (fallback_pairs st' id) eqn:Hp; [done|]. unfold fallback_pairs in *.
    destruct (get_component st id) as [c|] eqn:Hc; [|done]. cbn.
    destruct (get_component st' id) as [c'|] eqn:Hc'; cbn in Hp.
    + rewrite <- (Hkept _ _ _ Hc Hc'). by destruct (is_fallback_candidate c').
    + pose proof (topology_of_tokens st' id) as Hx. by rewrite Ht, Hc' in Hx.
  - rewrite decide_False by (rewrite Hadd; by intros [? ?]). symmetry.
    by apply fallback_pairs_tokens.
Qed.

(** What a current index answers. *)
Lemma candidates_spec st index a b id : index_current st index ->
  id ∈ candidates_for index a b <->
  exists c, get_component st id = Some c /\ is_fallback_candidate c = true /\
    is_native_token a = false /\ is_native_token b = false /\
    ((a, b) ∈ token_pairs (component_tokens_of c) \/ (b, a) ∈ token_pairs (component_tokens_of c)).
Proof.
  intros [Hr Hk]. unfold candidates_for. rewrite (ir_filed _ Hr). setoid_rewrite Hk. unfold fallback_pairs.
  destruct (get_component st id) as [c|]; cbn; [|by split; [intros (? & ? & _)|intros (? & ? & _)]].
  destruct (is_fallback_candidate c) eqn:Hf.
  2: { split; [by intros (? & ? & _)|intros (? & [= <-] & ? & _); congruence]. }
  split.
  - intros (filed & [= <-] & Hin). apply list_elem_of_fmap in Hin as ([x y] & Hs & [Hin Hn]%elem_of_filterb).
    apply negb_true_iff, orb_false_iff in Hn as [Hx Hy]. cbn in *. exists c.
    destruct (sorted_pair_inj _ _ _ _ Hs) as [[-> ->]|[-> ->]]; split_and!; auto.
  - intros (? & [= <-] & _ & Ha & Hb & Hin). exists (serving_pairs (component_tokens_of c)). split; [done|].
    unfold serving_pairs. apply list_elem_of_fmap. destruct Hin as [Hin|Hin].
    + exists (a, b). split; [done|]. apply elem_of_filterb. cbn. by rewrite Ha, Hb.
    + exists (b, a). split; [apply sorted_pair_comm|]. apply elem_of_filterb. cbn. by rewrite Ha, Hb.
Qed.
End current.

(** A component the market adds again under the same id, now of a shape that no longer
    qualifies, stays listed: the check of its shape comes before it is taken out. *)
Lemma stale_candidate_kept `{TychoFallback} st index id component token_a token_b :
  get_component st id = Some component -> is_fallback_candidate component = false ->
  candidates_for (index_insert st index id) token_a token_b = candidates_for index token_a token_b.
Proof. intros Hc Hn. unfold index_insert. by rewrite Hc, Hn. Qed.
