(* ===== verification/Admission.v ===== *)
(** * Admission: which components a worker's graph holds

    Models [fynd-core/src/fallback/manager.rs] and the component filter of
    [fynd-core/src/feed/component_filter.rs]. A worker leaves out the components its pool
    excludes and the pAMMs the market holds no fallback pool for; the second rule changes
    with the market, so each event is rewritten before it reaches the graph. The admission
    counters are left out. The theorems: what [withhold_from_graph] and
    [apply_pamm_admission] do to one component, and that a graph built and then kept current
    with the rewritten and filtered events lists, after each, exactly the components of the
    market that the worker may use. *)

From stdpp Require Import prelude gmap sets strings list.
From Stdlib Require Import NArith ZArith Lia.
From S2P Require Import Prelude F64 Types Route Samples DerivedStore SpotPriceComputation Manager MarketData MarketDataProofs MarketInvariant FallbackPools.

(** ** The component filter *)

Module ComponentFilter.
Section filter.
Context `{TychoMarket}.
Implicit Types (st : MarketState) (drop : ProtocolComponent -> bool).

(** [is_none_or(|c| !drop(c))]. *)
Definition keeps st drop (id : ComponentId) : bool :=
  match get_component st id with Some c => negb (drop c) | None => true end.

Definition remove_components st (topology : gmap ComponentId ComponentTopology) drop
    : gmap ComponentId ComponentTopology :=
  filter (fun kv => keeps st drop kv.1 = true) topology.

Definition filter_component_ids st (ids : list ComponentId) drop : list ComponentId :=
  List.filter (keeps st drop) ids.

Definition filter_event st (event : MarketEvent) drop : MarketEvent := {|
  added_components := remove_components st (added_components event) drop;
  removed_components := filter_component_ids st (removed_components event) drop;
  updated_components := filter_component_ids st (updated_components event) drop |}.
End filter.
End ComponentFilter.

(** ** The admission of pAMMs *)

Inductive PammState := PS_Admitted | PS_Withheld.

#[export] Instance PammState_eq_dec : EqDecision PammState.
Proof. solve_decision. Defined.

Record PammManager := {
  pm_fallback_pools : FallbackPoolIndex;
  pm_states : gmap ComponentId PammState;
}.

Definition PammManager_new : PammManager :=
  {| pm_fallback_pools := FallbackPoolIndex_default; pm_states := ∅ |}.

Section admission.
Context `{TychoFallback}.
Implicit Types (st : MarketState) (pools : FallbackPoolIndex) (caller_drops : ProtocolComponent -> bool).
Implicit Types (states : gmap ComponentId PammState) (id : ComponentId).

(** One component of the topology. *)
Definition withhold_component st pools caller_drops
    (acc : gmap ComponentId PammState * gset ComponentId) id : gmap ComponentId PammState * gset ComponentId :=
  match get_component st id with
  | None => acc
  | Some component =>
      if negb (is_pamm component) || caller_drops component then acc
      else if must_withhold_pamm st component pools
      then (<[id := PS_Withheld]> acc.1, {[ id ]} ∪ acc.2)
      else (<[id := PS_Admitted]> acc.1, acc.2)
  end.

Definition withhold_from_graph st (topology : gmap ComponentId ComponentTopology) caller_drops
    : PammManager * gset ComponentId :=
  let pools := index_build st in
  let '(states, withheld) :=
    fold_left (withhold_component st pools caller_drops) (map_to_list topology).*1 (∅, ∅) in
  ({| pm_fallback_pools := pools; pm_states := states |}, withheld).

(** The closure of [retain]: the states after it, and whether the addition stays. *)
Definition retain_addition st pools caller_drops states id : gmap ComponentId PammState * bool :=
  match get_component st id with
  | None => (states, true)
  | Some component =>
      if negb (is_pamm component) || caller_drops component then (states, true)
      else
        let prior := states !! id in
        if must_withhold_pamm st component pools
        then (if bool_decide (prior <> Some PS_Admitted) then <[id := PS_Withheld]> states else states, false)
        else (<[id := PS_Admitted]> states, true)
  end.

Definition retain_additions st pools caller_drops states (added : list (ComponentId * ComponentTopology))
    : gmap ComponentId PammState * gmap ComponentId ComponentTopology :=
  fold_left (fun (acc : gmap ComponentId PammState * gmap ComponentId ComponentTopology) kv =>
    let '(states, keep) := retain_addition st pools caller_drops acc.1 kv.1 in
    (states, if keep then <[kv.1 := kv.2]> acc.2 else acc.2)) added (states, ∅).

(** A withheld pAMM that the market backs now, with its topology. *)
Definition readmission st pools (entry : ComponentId * PammState) : option (ComponentId * ComponentTopology) :=
  if bool_decide (entry.2 = PS_Withheld) then
    component ← get_component st entry.1;
    if must_withhold_pamm st component pools then None
    else (fun t => (entry.1, t)) <$> topology_of st entry.1
  else None.

Definition readmit (acc : gmap ComponentId PammState * gmap ComponentId ComponentTopology)
    (entry : ComponentId * ComponentTopology) : gmap ComponentId PammState * gmap ComponentId ComponentTopology :=
  (<[entry.1 := PS_Admitted]> acc.1, <[entry.1 := entry.2]> acc.2).

Definition unbacked st pools id : bool :=
  match get_component st id with
  | Some component => must_withhold_pamm st component pools
  | None => false
  end.

Definition evictions st pools states : list ComponentId :=
  (List.filter (fun entry => bool_decide (entry.2 = PS_Admitted) && unbacked st pools entry.1) (map_to_list states)).*1.

Definition apply_pamm_admission st caller_drops (m : PammManager) (event : MarketEvent)
    : PammManager * MarketEvent :=
  let pools := index_apply_event st (pm_fallback_pools m) event in
  if bool_decide (added_components event = ∅) && bool_decide (removed_components event = [])
  then ({| pm_fallback_pools := pools; pm_states := pm_states m |}, event)
  else
    let states := fold_left (fun states id => delete id states) (removed_components event) (pm_states m) in
    let '(states, added) := retain_additions st pools caller_drops states (map_to_list (added_components event)) in
    let '(states, added) := fold_left readmit (omap (readmission st pools) (map_to_list states)) (states, added) in
    let evicted := evictions st pools states in
    ({| pm_fallback_pools := pools;
        pm_states := fold_left (fun states id => <[id := PS_Withheld]> states) evicted states |},
     {| added_components := added;
        removed_components := removed_components event ++ evicted;
        updated_components := updated_components event |}).
End admission.

(** ** One component at a time *)

Section pointwise.
Context `{TychoFallback}.
Implicit Types (st : MarketState) (pools : FallbackPoolIndex) (drops : ProtocolComponent -> bool).
Implicit Types (states : gmap ComponentId PammState) (id : ComponentId).

(** The rule decides a component: it is a pAMM that the worker's own rule keeps. *)
Definition decides st drops id : option ProtocolComponent :=
  component ← get_component st id;
  if is_pamm component && negb (drops component) then Some component else None.

Definition standing st pools (component : ProtocolComponent) : PammState :=
  if must_withhold_pamm st component pools then PS_Withheld else PS_Admitted.

Lemma withhold_fold_lookup st pools drops ids acc id :
  let run := fold_left (withhold_component st pools drops) ids acc in
  run.1 !! id = (if decide (id ∈ ids)
                 then match decides st drops id with
                      | Some c => Some (standing st pools c)
                      | None => acc.1 !! id
                      end
                 else acc.1 !! id) /\
  (id ∈ run.2 <-> id ∈ acc.2 \/ id ∈ ids /\ exists c, decides st drops id = Some c /\ standing st pools c = PS_Withheld).
Proof.
  revert acc. induction ids as [|i ids IH]; intros acc; cbn [fold_left].
  { split; [by rewrite decide_False by apply not_elem_of_nil|]. set_solver. }
  destruct (IH (withhold_component st pools drops acc i)) as [E1 E2]. cbn zeta. rewrite E1, E2. clear IH E1 E2.
  assert ((withhold_component st pools drops acc i).1 !! id
    = (if decide (id = i) then match decides st drops id with Some c => Some (standing st pools c) | None => acc.1 !! id end
       else acc.1 !! id) /\
    (id ∈ (withhold_component st pools drops acc i).2 <->
      id ∈ acc.2 \/ id = i /\ exists c, decides st drops id = Some c /\ standing st pools c = PS_Withheld)) as [-> ->].
  { unfold withhold_component, decides, standing. destruct (decide (id = i)) as [->|Hne].
    - destruct (get_component st i) as [c|]; cbn; [|naive_solver].
      destruct (is_pamm c), (drops c); cbn; try naive_solver.
      destruct (must_withhold_pamm st c pools) eqn:Hm; cbn; rewrite lookup_insert_eq; (split; [done|]).
      + split; [intros _; right; split; [done|by exists c; rewrite Hm]|set_solver].
      + split; [by left|]. intros [|(_ & c' & [= <-] & Hw)]; [done|]. by rewrite Hm in Hw.
    - destruct (get_component st i) as [c|]; cbn; [|naive_solver].
      destruct (is_pamm c), (drops c); cbn; try naive_solver.
      destruct (must_withhold_pamm st c pools); cbn; rewrite lookup_insert_ne by done; set_solver. }
  split; [|set_solver]. destruct (decide (id = i)) as [->|Hne].
  - rewrite (decide_True (P := i ∈ i :: ids)) by left. case_decide; by destruct (decides st drops i).
  - destruct (decide (id ∈ ids)) as [Hin|Hin];
      [by rewrite (decide_True (P := id ∈ i :: ids)) by by right|by rewrite (decide_False (P := id ∈ i :: ids)) by set_solver].
Qed.

(** What [retain] makes of the state of an addition. *)
Definition addition_state st pools (prior : option PammState) (component : ProtocolComponent) : option PammState :=
  if must_withhold_pamm st component pools
  then (if bool_decide (prior <> Some PS_Admitted) then Some PS_Withheld else prior)
  else Some PS_Admitted.

Lemma retain_addition_lookup st pools drops states i id :
  (retain_addition st pools drops states i).1 !! id
    = (if decide (id = i)
       then match decides st drops id with Some c => addition_state st pools (states !! id) c | None => states !! id end
       else states !! id) /\
  (retain_addition st pools drops states i).2
    = match decides st drops i with Some c => negb (must_withhold_pamm st c pools) | None => true end.
Proof.
  unfold retain_addition, decides, addition_state. destruct (decide (id = i)) as [->|Hne].
  - destruct (get_component st i) as [c|]; cbn; [|done].
    destruct (is_pamm c), (drops c); cbn; try done.
    destruct (must_withhold_pamm st c pools); cbn; [|by rewrite lookup_insert_eq].
    case_bool_decide; cbn; [by rewrite lookup_insert_eq|done].
  - destruct (get_component st i) as [c|]; cbn; [|done].
    destruct (is_pamm c), (drops c); cbn; try done.
    destruct (must_withhold_pamm st c pools); cbn; [|by rewrite lookup_insert_ne].
    case_bool_decide; cbn; [by rewrite lookup_insert_ne|done].
Qed.

Lemma retain_additions_lookup st pools drops states added id : NoDup added.*1 ->
  let run := retain_additions st pools drops states added in
  run.1 !! id = (if decide (id ∈ added.*1)
                 then match decides st drops id with Some c => addition_state st pools (states !! id) c | None => states !! id end
                 else states !! id) /\
  run.2 !! id = (t ← (list_to_map added : gmap ComponentId ComponentTopology) !! id;
                 match decides st drops id with
                 | Some c => if must_withhold_pamm st c pools then None else Some t
                 | None => Some t
                 end).
Proof.
  unfold retain_additions.
  enough (forall kept : gmap ComponentId ComponentTopology, NoDup added.*1 ->
    let run := fold_left (fun (acc : gmap ComponentId PammState * gmap ComponentId ComponentTopology) kv =>
      let '(states, keep) := retain_addition st pools drops acc.1 kv.1 in
      (states, if keep then <[kv.1 := kv.2]> acc.2 else acc.2)) added (states, kept) in
    run.1 !! id = (if decide (id ∈ added.*1)
                 then match decides st drops id with Some c => addition_state st pools (states !! id) c | None => states !! id end
                 else states !! id) /\
    run.2 !! id = match (list_to_map added : gmap ComponentId ComponentTopology) !! id with
                  | Some t => match decides st drops id with
                              | Some c => if must_withhold_pamm st c pools then kept !! id else Some t
                              | None => Some t
                              end
                  | None => kept !! id
                  end) as Hgen.
  { intros Hnd. destruct (Hgen ∅ Hnd) as [-> ->]. split; [done|]. rewrite lookup_empty.
    by destruct (list_to_map added !! id). }
  revert states. induction added as [|[i t] added IH]; intros states kept Hnd; cbn [fold_left].
  { split; [by rewrite decide_False by apply not_elem_of_nil|done]. }
  cbn [fmap list_fmap fst snd] in *. apply NoDup_cons in Hnd as [Hi Hnd].
  destruct (retain_addition_lookup st pools drops states i id) as [E1 E2].
  destruct (retain_addition st pools drops states i) as [states' keep]. cbn [fst snd] in *.
  destruct (IH states' (if keep then <[i := t]> kept else kept) Hnd) as [-> ->].
  rewrite E1. subst keep. cbn [list_to_map foldr uncurry]. unfold uncurry. destruct (decide (id = i)) as [->|Hne].
  - rewrite (decide_True (P := i ∈ i :: _)), (decide_False (P := i ∈ added.*1)) by (done || left). split; [done|].
    rewrite lookup_insert_eq. rewrite (proj1 (not_elem_of_list_to_map _ _) Hi).
    destruct (decides st drops i) as [c|]; [|by rewrite lookup_insert_eq].
    destruct (must_withhold_pamm st c pools); cbn; [done|by rewrite lookup_insert_eq].
  - rewrite lookup_insert_ne by done. split.
    + destruct (decide (id ∈ added.*1)) as [Hin|Hin];
        [by rewrite (decide_True (P := id ∈ i :: _)) by by right|by rewrite (decide_False (P := id ∈ i :: _)) by set_solver].
    + assert ((if match decides st drops i with Some c => negb (must_withhold_pamm st c pools) | None => true end
               then <[i := t]> kept else kept) !! id = kept !! id) as ->.
      { destruct (match decides st drops i with Some _ => _ | None => _ end); [by rewrite lookup_insert_ne|done]. }
      done.
Qed.
End pointwise.

(** ** The whole rewriting, at one component *)

Section rewriting.
Context `{TychoFallback}.
Implicit Types (st : MarketState) (pools : FallbackPoolIndex) (drops : ProtocolComponent -> bool).
Implicit Types (states : gmap ComponentId PammState) (id : ComponentId).

Definition readmitted_topology st pools (state : option PammState) id : option ComponentTopology :=
  match state with
  | Some PS_Withheld =>
      component ← get_component st id;
      if must_withhold_pamm st component pools then None else topology_of st id
  | _ => None
  end.

Lemma readmission_keys st pools (entries : list (ComponentId * PammState)) :
  (omap (readmission st pools) entries).*1 `sublist_of` entries.*1.
Proof.
  induction entries as [|[i s] entries IH]; [done|]. cbn [omap list_omap].
  destruct (readmission st pools (i, s)) as [[i' t]|] eqn:Hr; cbn [fmap list_fmap fst]; [|by apply sublist_cons].
  unfold readmission in Hr. cbn in Hr. case_bool_decide; [|done]. cbn in Hr.
  destruct (get_component st i) as [c|]; [|done]. cbn in Hr.
  destruct (must_withhold_pamm st c pools); [done|]. destruct (topology_of st i); [|done].
  injection Hr as <- _. by apply sublist_skip.
Qed.

Lemma readmissions_map st pools states id :
  (list_to_map (omap (readmission st pools) (map_to_list states)) : gmap ComponentId ComponentTopology) !! id
  = readmitted_topology st pools (states !! id) id.
Proof.
  assert (NoDup (omap (readmission st pools) (map_to_list states)).*1) as Hnd
    by (exact (sublist_NoDup _ _ (NoDup_fst_map_to_list _) (readmission_keys _ _ _))).
  assert (forall t, (id, t) ∈ omap (readmission st pools) (map_to_list states) <->
    readmitted_topology st pools (states !! id) id = Some t) as Hin.
  { intros t. rewrite list_elem_of_omap. unfold readmitted_topology. split.
    - intros ([i s] & Hs%elem_of_map_to_list & Hr). unfold readmission in Hr. cbn in *.
      case_bool_decide as Hw; [|done]. subst s. destruct (get_component st i) as [c|] eqn:Hc; [|done]. cbn in Hr.
      destruct (must_withhold_pamm st c pools) eqn:Hm; [done|]. destruct (topology_of st i) eqn:Ht; [|done].
      injection Hr as -> ->. rewrite Hs, Hc. cbn. by rewrite Hm.
    - destruct (states !! id) as [[]|] eqn:Hs; [done| |done]. intros Hr. exists (id, PS_Withheld).
      split; [by apply elem_of_map_to_list|]. unfold readmission. cbn.
      destruct (get_component st id) as [c|]; [|done]. cbn in *. destruct (must_withhold_pamm st c pools); [done|].
      by rewrite Hr. }
  destruct (readmitted_topology st pools (states !! id) id) as [t|] eqn:Hr.
  - apply elem_of_list_to_map; [done|]. by apply Hin.
  - apply not_elem_of_list_to_map. intros ([i t] & -> & Ht)%list_elem_of_fmap. cbn in *. apply Hin in Ht. congruence.
Qed.

Lemma readmit_fold_lookup (L : list (ComponentId * ComponentTopology)) states (added : gmap ComponentId ComponentTopology) id :
  NoDup L.*1 ->
  let run := fold_left readmit L (states, added) in
  run.1 !! id = match (list_to_map L : gmap _ ComponentTopology) !! id with Some _ => Some PS_Admitted | None => states !! id end /\
  run.2 !! id = match (list_to_map L : gmap _ ComponentTopology) !! id with Some t => Some t | None => added !! id end.
Proof.
  revert states added. induction L as [|[i t] L IH]; intros states added Hnd; cbn [fold_left]; [done|].
  cbn [fmap list_fmap fst] in Hnd. apply NoDup_cons in Hnd as [Hi Hnd].
  unfold readmit at 2 4. cbn [fst snd]. destruct (IH (<[i := PS_Admitted]> states) (<[i := t]> added) Hnd) as [-> ->].
  cbn [list_to_map foldr uncurry]. unfold uncurry. destruct (decide (id = i)) as [->|Hne].
  - rewrite (proj1 (not_elem_of_list_to_map _ _) Hi), !lookup_insert_eq. done.
  - by rewrite !lookup_insert_ne by done.
Qed.

Lemma evictions_elem st pools states id :
  id ∈ evictions st pools states <-> states !! id = Some PS_Admitted /\ unbacked st pools id = true.
Proof.
  unfold evictions. rewrite list_elem_of_fmap. split.
  - intros ([i s] & -> & [Hin%elem_of_map_to_list [Hs Hu]%andb_true_iff]%elem_of_filterb). cbn in *.
    apply bool_decide_eq_true in Hs as ->. done.
  - intros [Hs Hu]. exists (id, PS_Admitted). split; [done|]. apply elem_of_filterb.
    split; [by apply elem_of_map_to_list|]. cbn. by rewrite Hu.
Qed.

Lemma insert_fold_lookup (ids : list ComponentId) (s : PammState) states id :
  fold_left (fun states id => <[id := s]> states) ids states !! id
  = if decide (id ∈ ids) then Some s else states !! id.
Proof.
  revert states. induction ids as [|i ids IH]; intros states; cbn [fold_left];
    [by rewrite decide_False by apply not_elem_of_nil|].
  rewrite IH. destruct (decide (id ∈ ids)); [by rewrite decide_True by by right|].
  destruct (decide (id = i)) as [->|]; [rewrite decide_True by left; by rewrite lookup_insert_eq|].
  rewrite decide_False by set_solver. by rewrite lookup_insert_ne.
Qed.

Lemma delete_fold_lookup (ids : list ComponentId) states id :
  fold_left (fun states id => delete id states) ids states !! id
  = if decide (id ∈ ids) then None else states !! id.
Proof.
  revert states. induction ids as [|i ids IH]; intros states; cbn [fold_left];
    [by rewrite decide_False by apply not_elem_of_nil|].
  rewrite IH. destruct (decide (id ∈ ids)); [by rewrite decide_True by by right|].
  destruct (decide (id = i)) as [->|]; [rewrite decide_True by left; by rewrite lookup_delete_eq|].
  rewrite decide_False by set_solver. by rewrite lookup_delete_ne.
Qed.

(** What becomes of one component: its state and its entry among the additions, before
    the evictions. *)
Definition after_retain st pools drops (prior : option PammState) (added : option ComponentTopology) id
    : option PammState * option ComponentTopology :=
  match added, decides st drops id with
  | Some t, Some c =>
      (addition_state st pools prior c, if must_withhold_pamm st c pools then None else Some t)
  | _, _ => (prior, added)
  end.

Definition after_readmit st pools drops (prior : option PammState) (added : option ComponentTopology) id
    : option PammState * option ComponentTopology :=
  let '(state, added) := after_retain st pools drops prior added id in
  match readmitted_topology st pools state id with
  | Some t => (Some PS_Admitted, Some t)
  | None => (state, added)
  end.

Definition evicted st pools (state : option PammState) id : bool :=
  bool_decide (state = Some PS_Admitted) && unbacked st pools id.

Lemma apply_pamm_admission_lookup st drops m event id :
  bool_decide (added_components event = ∅) && bool_decide (removed_components event = []) = false ->
  let pools := index_apply_event st (pm_fallback_pools m) event in
  let prior := if decide (id ∈ removed_components event) then None else pm_states m !! id in
  let next := after_readmit st pools drops prior (added_components event !! id) id in
  let '(m', event') := apply_pamm_admission st drops m event in
  pm_fallback_pools m' = pools /\
  pm_states m' !! id = (if evicted st pools next.1 id then Some PS_Withheld else next.1) /\
  added_components event' !! id = next.2 /\
  (id ∈ removed_components event' <-> id ∈ removed_components event \/ evicted st pools next.1 id = true) /\
  updated_components event' = updated_components event.
Proof.
  intros Hne. cbn zeta. unfold apply_pamm_admission. rewrite Hne.
  set (pools := index_apply_event st (pm_fallback_pools m) event).
  pose proof (retain_additions_lookup st pools drops
    (fold_left (fun states id => delete id states) (removed_components event) (pm_states m))
    (map_to_list (added_components event)) id (NoDup_fst_map_to_list _)) as [E1 E2].
  rewrite delete_fold_lookup in E1. rewrite list_to_map_to_list in E2.
  set (prior := if decide (id ∈ removed_components event) then None else pm_states m !! id) in *.
  destruct (retain_additions _ _ _ _ _) as [states2 added2]. cbn [fst snd] in E1, E2.
  assert (after_retain st pools drops prior (added_components event !! id) id = (states2 !! id, added2 !! id)) as Hret.
  { unfold after_retain. rewrite E1, E2. destruct (added_components event !! id) as [t|] eqn:Ha; cbn.
    - rewrite decide_True. 2: { apply list_elem_of_fmap. exists (id, t). split; [done|]. by apply elem_of_map_to_list. }
      by destruct (decides st drops id).
    - rewrite decide_False; [done|]. intros ([i t] & -> & Hin%elem_of_map_to_list)%list_elem_of_fmap. cbn in *. congruence. }
  pose proof (readmit_fold_lookup (omap (readmission st pools) (map_to_list states2)) states2 added2 id) as Hre.
  destruct (fold_left readmit _ _) as [states3 added3].
  destruct Hre as [E3 E4]; [exact (sublist_NoDup _ _ (NoDup_fst_map_to_list _) (readmission_keys _ _ _))|].
  cbn [fst snd] in E3, E4. rewrite readmissions_map in E3, E4.
  assert (after_readmit st pools drops prior (added_components event !! id) id = (states3 !! id, added3 !! id)) as Hnext.
  { unfold after_readmit. rewrite Hret, E3, E4. by destruct (readmitted_topology _ _ _ _). }
  rewrite Hnext. cbn [pm_fallback_pools pm_states added_components removed_components updated_components fst snd].
  assert (id ∈ evictions st pools states3 <-> evicted st pools (states3 !! id) id = true) as Hev.
  { rewrite evictions_elem. unfold evicted. by rewrite andb_true_iff, bool_decide_eq_true. }
  split_and!; [done| |done| |done].
  - rewrite insert_fold_lookup. destruct (evicted _ _ _ _); [by rewrite decide_True by by apply Hev|].
    rewrite decide_False; [done|]. intros Hn%Hev. done.
  - by rewrite elem_of_app, Hev.
Qed.
End rewriting.

(** ** What a worker's graph should hold *)

Section worker.
Context `{TychoFallback}.
Implicit Types (st : MarketState) (pools : FallbackPoolIndex) (drops : ProtocolComponent -> bool).
Implicit Types (id : ComponentId).

Lemma must_withhold_current st c pools pools' : index_current st pools -> index_current st pools' ->
  must_withhold_pamm st c pools = must_withhold_pamm st c pools'.
Proof.
  intros Hp Hp'. unfold must_withhold_pamm. destruct (is_pamm c); [|done]. cbn. f_equal.
  induction (default [] (market_swap_directions_of st (component_id_of c))) as [|d l IH]; [done|]. cbn. rewrite IH.
  f_equal. f_equal. apply bool_decide_ext.
  assert (forall id, id ∈ candidates_for pools d.1 d.2 <-> id ∈ candidates_for pools' d.1 d.2) as Hc
    by (intros id; by rewrite (candidates_spec st pools), (candidates_spec st pools')).
  split; intros Hn.
  - destruct (candidates_for pools' d.1 d.2) as [|x l']; [done|]. specialize (Hc x). rewrite Hn in Hc.
    destruct (not_elem_of_nil x). apply Hc. by left.
  - destruct (candidates_for pools d.1 d.2) as [|x l']; [done|]. specialize (Hc x). rewrite Hn in Hc.
    destruct (not_elem_of_nil x). apply Hc. by left.
Qed.

(** The components a worker may use: those its own rule keeps and, of the pAMMs, those the
    market holds a fallback pool for. *)
Definition worker_admits st drops id : bool :=
  match get_component st id with
  | Some c => negb (drops c) && negb (must_withhold_pamm st c (index_build st))
  | None => false
  end.

Definition worker_topology st drops : gmap ComponentId ComponentTopology :=
  filter (fun kv => worker_admits st drops kv.1 = true) (component_topology st).

Record manager_current st drops (m : PammManager) : Prop := {
  mg_index : index_current st (pm_fallback_pools m);
  mg_states : forall id, pm_states m !! id = standing st (index_build st) <$> decides st drops id;
}.

Lemma worker_topology_lookup st drops id :
  worker_topology st drops !! id = if worker_admits st drops id then component_topology st !! id else None.
Proof.
  unfold worker_topology. destruct (worker_admits st drops id) eqn:Ha.
  - destruct (component_topology st !! id) as [t|] eqn:Ht.
    + by apply map_lookup_filter_Some.
    + apply map_lookup_filter_None. by left.
  - apply map_lookup_filter_None. right. intros t _. cbn. congruence.
Qed.

Lemma component_topology_None st id : component_topology st !! id = None <-> get_component st id = None.
Proof. unfold component_topology, get_component. rewrite lookup_fmap. by destruct (components st !! id). Qed.

Lemma withhold_from_graph_lemma st drops :
  let '(m, withheld) := withhold_from_graph st (component_topology st) drops in
  manager_current st drops m /\
  forall id, id ∈ withheld <-> exists c, decides st drops id = Some c /\ must_withhold_pamm st c (index_build st) = true.
Proof.
  unfold withhold_from_graph.
  pose proof (fun id => withhold_fold_lookup st (index_build st) drops (map_to_list (component_topology st)).*1 (∅, ∅) id) as Hf.
  destruct (fold_left _ _ _) as [states withheld]. cbn [fst snd] in Hf.
  assert (forall id c, decides st drops id = Some c -> id ∈ (map_to_list (component_topology st)).*1) as Hin.
  { intros id c Hd. apply topology_keys. unfold decides in Hd. by destruct (get_component st id). }
  split; [split; [apply index_build_current|]|].
  - intros id. cbn. destruct (Hf id) as [-> _]. rewrite lookup_empty.
    destruct (decides st drops id) as [c|] eqn:Hd; [by rewrite decide_True by eauto|by case_decide].
  - intros id. rewrite (proj2 (Hf id)). unfold standing. split.
    + intros [?%not_elem_of_empty|(_ & c & Hd & Hs)]; [done|]. exists c. split; [done|].
      by destruct (must_withhold_pamm st c (index_build st)).
    + intros (c & Hd & Hm). right. split; [eauto|]. exists c. by rewrite Hm.
Qed.

(** Building: [initialize_graph] filters the topology with the rule and the withheld ids. *)
Lemma withhold_from_graph_spec st drops : (forall id c, get_component st id = Some c -> component_id_of c = id) ->
  let '(m, withheld) := withhold_from_graph st (component_topology st) drops in
  manager_current st drops m /\
  ComponentFilter.remove_components st (component_topology st)
    (fun c => drops c || bool_decide (component_id_of c ∈ withheld)) = worker_topology st drops.
Proof.
  intros Hid. pose proof (withhold_from_graph_lemma st drops) as Hl.
  destruct (withhold_from_graph _ _ _) as [m withheld]. destruct Hl as [Hm Hw]. split; [done|].
  apply map_eq. intros id. rewrite worker_topology_lookup. unfold ComponentFilter.remove_components.
    destruct (component_topology st !! id) as [t|] eqn:Ht.
    2: { rewrite (proj2 (map_lookup_filter_None _ _ _)) by by left. by destruct (worker_admits st drops id). }
    destruct (get_component st id) as [c|] eqn:Hc; [|apply component_topology_None in Hc; congruence].
    assert (ComponentFilter.keeps st (fun c => drops c || bool_decide (component_id_of c ∈ withheld)) id
      = worker_admits st drops id) as Hk.
    { unfold ComponentFilter.keeps, worker_admits. rewrite Hc, negb_orb.
      destruct (drops c) eqn:Hdrop; [done|]. cbn. f_equal. rewrite (Hid _ _ Hc).
      specialize (Hw id). unfold decides in Hw. rewrite Hc in Hw. cbn in Hw. rewrite Hdrop in Hw.
      assert (must_withhold_pamm st c (index_build st) = true -> is_pamm c = true) as Hp
        by (unfold must_withhold_pamm; by destruct (is_pamm c)).
      destruct (must_withhold_pamm st c (index_build st)) eqn:Hmw.
      - apply bool_decide_eq_true, Hw. exists c. by rewrite Hp.
      - apply bool_decide_eq_false. rewrite Hw. intros (c' & Hd & Hm').
        destruct (is_pamm c); [injection Hd as <-; congruence|done]. }
    rewrite <- Hk. destruct (ComponentFilter.keeps _ _ id) eqn:Hkeep.
    + by apply map_lookup_filter_Some.
    + apply map_lookup_filter_None. right. intros ? _. cbn. congruence.
Qed.

(** A component that stays keeps what decides whether a worker may use it: whether its own
    rule drops it, whether it is a pAMM, whether it can serve as a fallback pool. *)
Record kinds_kept st st' drops : Prop := {
  kk_component : forall id c c', get_component st id = Some c -> get_component st' id = Some c' ->
    drops c' = drops c /\ is_pamm c' = is_pamm c;
  kk_candidacy : candidacy_kept st st';
}.

Lemma worker_admits_decides st drops id :
  worker_admits st drops id
  = match decides st drops id with
    | Some c => negb (must_withhold_pamm st c (index_build st))
    | None => match get_component st id with Some c => negb (drops c) | None => false end
    end.
Proof.
  unfold worker_admits, decides. destruct (get_component st id) as [c|]; [|done]. cbn.
  unfold must_withhold_pamm. destruct (drops c), (is_pamm c) eqn:Hp; cbn; rewrite ?Hp; done.
Qed.

Lemma decides_kept st st' drops id : kinds_kept st st' drops ->
  is_Some (get_component st id) -> is_Some (get_component st' id) ->
  is_Some (decides st drops id) <-> is_Some (decides st' drops id).
Proof.
  intros Hk [c Hc] [c' Hc']. destruct (kk_component _ _ _ Hk id c c' Hc Hc') as [Hd Hp].
  unfold decides. rewrite Hc, Hc'. cbn. rewrite Hd, Hp.
  destruct (is_pamm c && negb (drops c)); split; intros [? ?]; [by eexists|by eexists|done|done].
Qed.

(** Decides the backing of the pAMMs in sight and computes. *)
Ltac solve_standing :=
  repeat (match goal with |- context [must_withhold_pamm ?a ?b ?c] => destruct (must_withhold_pamm a b c) eqn:? end; cbn);
  repeat (case_bool_decide; cbn); try done; split; congruence.

(** One component: whatever the event says of it, it is where it should be afterwards. *)
Lemma admission_step st st' drops m event id :
  kinds_kept st st' drops -> manager_current st drops m ->
  after_event (component_topology st) event = component_topology st' ->
  let pools := index_build st' in
  let prior := if decide (id ∈ removed_components event) then None else pm_states m !! id in
  let next := after_readmit st' pools drops prior (added_components event !! id) id in
  (if evicted st' pools next.1 id then Some PS_Withheld else next.1) = standing st' pools <$> decides st' drops id /\
  (if ComponentFilter.keeps st' drops id
   then (if decide (id ∈ removed_components event) then None
         else if evicted st' pools next.1 id then None
         else match next.2 with Some t => Some t | None => worker_topology st drops !! id end)
   else worker_topology st drops !! id) = worker_topology st' drops !! id.
Proof.
  intros Hk Hm Hev. cbn zeta.
  assert (component_topology st' !! id = if decide (id ∈ removed_components event) then None
    else match added_components event !! id with Some t => Some t | None => component_topology st !! id end) as Ht
    by (by rewrite <- Hev, after_event_lookup).
  assert (topology_of st' id = component_topology st' !! id) as Htop
    by (unfold topology_of, component_topology; by rewrite lookup_fmap).
  rewrite !worker_topology_lookup, !worker_admits_decides.
  unfold evicted, unbacked, ComponentFilter.keeps, after_readmit, after_retain, addition_state, readmitted_topology, standing.
  rewrite (mg_states _ _ _ Hm), Htop. unfold standing.
  destruct (get_component st' id) as [c'|] eqn:Hc'.
  - destruct (component_topology st' !! id) as [t'|] eqn:Ht'; [|apply component_topology_None in Ht'; congruence].
    destruct (decide (id ∈ removed_components event)) as [|Hout]; [done|].
    destruct (get_component st id) as [c|] eqn:Hc.
    + destruct (kk_component _ _ _ Hk id c c' Hc Hc') as [Hd Hp].
      unfold decides. rewrite Hc, Hc'. cbn. rewrite <- Hd, <- Hp.
      destruct (drops c') eqn:Hdc', (is_pamm c') eqn:Hpc'; cbn.
      all: destruct (added_components event !! id) as [t|] eqn:Ha; cbn.
      all: solve_standing.
    + assert (component_topology st !! id = None) as Hn by by apply component_topology_None.
      unfold decides. rewrite Hc, Hc', Hn in *. cbn. destruct (added_components event !! id) as [t|] eqn:Ha; [|done].
      destruct (drops c') eqn:Hdc', (is_pamm c') eqn:Hpc'; cbn.
      all: solve_standing.
  - assert (component_topology st' !! id = None) as Hn by by apply component_topology_None.
    unfold decides. rewrite Hc', Hn in *. cbn. case_decide as Hrem; cbn.
    + destruct (added_components event !! id); solve_standing.
    + destruct (added_components event !! id); [done|].
      assert (get_component st id = None) as -> by (by apply component_topology_None). cbn. solve_standing.
Qed.

Lemma after_readmit_current st pools pools' drops prior added id : index_current st pools -> index_current st pools' ->
  after_readmit st pools drops prior added id = after_readmit st pools' drops prior added id /\
  forall state, evicted st pools state id = evicted st pools' state id.
Proof.
  intros Hp Hp'. split.
  - unfold after_readmit, after_retain, addition_state, readmitted_topology, decides.
    destruct (get_component st id) as [c|]; [|done]. cbn.
    destruct (is_pamm c && negb (drops c)); by rewrite (must_withhold_current st c pools pools').
  - intros state. unfold evicted, unbacked. destruct (get_component st id) as [c|]; [|done].
    by rewrite (must_withhold_current st c pools pools').
Qed.

(** Components are stored under their own ids. *)
Definition keyed_by_id st : Prop := forall id c, get_component st id = Some c -> component_id_of c = id.

Lemma backing_kept st st' drops id c c' : kinds_kept st st' drops -> keyed_by_id st -> keyed_by_id st' ->
  component_topology st = component_topology st' ->
  get_component st id = Some c -> get_component st' id = Some c' ->
  must_withhold_pamm st c (index_build st) = must_withhold_pamm st' c' (index_build st').
Proof.
  intros Hk Hid Hid' Htop Hc Hc'. destruct (kk_component _ _ _ Hk id c c' Hc Hc') as [_ Hp].
  assert (index_current st' (index_build st)) as Hcur.
  { destruct (index_build_current st) as [Hr Hkeys]. split; [done|]. intros i. rewrite Hkeys. symmetry.
    apply fallback_pairs_tokens; [apply (kk_candidacy _ _ _ Hk)|by rewrite Htop]. }
  rewrite (must_withhold_current st' c' (index_build st') (index_build st) (index_build_current st') Hcur).
  unfold must_withhold_pamm. rewrite Hp, (Hid _ _ Hc), (Hid' _ _ Hc').
  assert (market_swap_directions_of st id = market_swap_directions_of st' id) as ->; [|done].
  assert (forall s : MarketState, market_swap_directions_of s id = tp_swap_directions <$> component_topology s !! id) as Hd.
  { intros s. unfold market_swap_directions_of, component_topology. by rewrite lookup_fmap, <- option_fmap_compose. }
  by rewrite !Hd, Htop.
Qed.

(** What an event without additions and removals leaves as it was. *)
Lemma quiet_event st st' drops m : kinds_kept st st' drops -> keyed_by_id st -> keyed_by_id st' ->
  component_topology st = component_topology st' -> manager_current st drops m ->
  (forall id, pm_states m !! id = standing st' (index_build st') <$> decides st' drops id) /\
  worker_topology st drops = worker_topology st' drops.
Proof.
  intros Hk Hid Hid' Htop Hm.
  assert (forall id, standing st (index_build st) <$> decides st drops id = standing st' (index_build st') <$> decides st' drops id
    /\ worker_admits st drops id = worker_admits st' drops id) as Hsame.
  { intros id. destruct (get_component st id) as [c|] eqn:Hc, (get_component st' id) as [c'|] eqn:Hc'.
    - destruct (kk_component _ _ _ Hk id c c' Hc Hc') as [Hd Hp].
      unfold decides, worker_admits, standing. rewrite Hc, Hc'. cbn. rewrite Hd, Hp.
      rewrite (backing_kept st st' drops id c c') by done. split; [|done].
      destruct (is_pamm c && negb (drops c)); [|done]. cbn. by rewrite (backing_kept st st' drops id c c').
    - apply component_topology_None in Hc'. rewrite <- Htop in Hc'. apply component_topology_None in Hc'. congruence.
    - apply component_topology_None in Hc. rewrite Htop in Hc. apply component_topology_None in Hc. congruence.
    - unfold decides, worker_admits. by rewrite Hc, Hc'. }
  split.
  - intros id. rewrite (mg_states _ _ _ Hm). apply Hsame.
  - apply map_eq. intros id. rewrite !worker_topology_lookup, Htop. by rewrite (proj2 (Hsame id)).
Qed.

(** A worker's graph holds exactly what the worker may use. If it does before a market
    event, and the admission record agrees, then after the event is rewritten by the pAMM
    rule, filtered by the worker's own rule and applied, the graph lists exactly the
    components of the new market that the worker keeps and, of the pAMMs, exactly those that
    can fall back to a pool the market holds; and the record and the pool index agree again.
    The event has to tell what changed of the topology, and a component that stays keeps its
    kind. *)
Lemma admitted_across_event st st' drops m event :
  kinds_kept st st' drops -> keyed_by_id st -> keyed_by_id st' -> manager_current st drops m ->
  after_event (component_topology st) event = component_topology st' ->
  let '(m', event') := apply_pamm_admission st' drops m event in
  manager_current st' drops m' /\
  after_event (worker_topology st drops) (ComponentFilter.filter_event st' event' drops) = worker_topology st' drops.
Proof.
  intros Hk Hid Hid' Hm Hev.
  pose proof (index_apply_event_current st st' _ event (mg_index _ _ _ Hm) (kk_candidacy _ _ _ Hk) Hev) as Hcur.
  destruct (bool_decide (added_components event = ∅) && bool_decide (removed_components event = [])) eqn:Hquiet.
  - unfold apply_pamm_admission. rewrite Hquiet.
    apply andb_true_iff in Hquiet as [Ha%bool_decide_eq_true Hr%bool_decide_eq_true].
    assert (forall m : gmap ComponentId ComponentTopology, after_event m event = m) as Hnoop.
    { intros m0. apply map_eq. intros id. rewrite after_event_lookup, Ha, Hr, lookup_empty.
      by rewrite decide_False by apply not_elem_of_nil. }
    rewrite Hnoop in Hev. destruct (quiet_event st st' drops m Hk Hid Hid' Hev Hm) as [Hs Ht]. split; [by split|].
    rewrite <- Ht. apply map_eq. intros id. rewrite after_event_lookup. unfold ComponentFilter.filter_event. cbn.
    rewrite Ha, Hr. unfold ComponentFilter.remove_components. rewrite map_filter_empty, lookup_empty. cbn.
    by rewrite decide_False by apply not_elem_of_nil.
  - pose proof (fun id => apply_pamm_admission_lookup st' drops m event id Hquiet) as Hl. cbn zeta in Hl.
    pose proof (fun id => admission_step st st' drops m event id Hk Hm Hev) as Hstep. cbn zeta in Hstep.
    destruct (apply_pamm_admission st' drops m event) as [m' event']. split.
    + split; [by destruct (Hl EmptyString) as (-> & _)|]. intros id. destruct (Hl id) as (_ & -> & _).
      rewrite <- (proj1 (Hstep id)).
      destruct (after_readmit_current st' _ (index_build st') drops
        (if decide (id ∈ removed_components event) then None else pm_states m !! id) (added_components event !! id) id
        Hcur (index_build_current st')) as [-> Hevict].
      by rewrite Hevict.
    + apply map_eq. intros id. rewrite <- (proj2 (Hstep id)), after_event_lookup.
      destruct (Hl id) as (_ & _ & Hadd & Hrem & _).
      destruct (after_readmit_current st' _ (index_build st') drops
        (if decide (id ∈ removed_components event) then None else pm_states m !! id) (added_components event !! id) id
        Hcur (index_build_current st')) as [Heq Hevict].
      rewrite Heq in Hadd, Hrem. rewrite Hevict in Hrem.
      set (next := after_readmit st' (index_build st') drops _ _ id) in *.
      unfold ComponentFilter.filter_event, ComponentFilter.remove_components, ComponentFilter.filter_component_ids.
      cbn [added_components removed_components].
      assert (id ∈ List.filter (ComponentFilter.keeps st' drops) (removed_components event') <->
        (id ∈ removed_components event \/ evicted st' (index_build st') next.1 id = true) /\
        ComponentFilter.keeps st' drops id = true) as Hin by by rewrite elem_of_filterb, Hrem.
      destruct (ComponentFilter.keeps st' drops id) eqn:Hkeep.
      * assert (filter (fun kv : ComponentId * ComponentTopology => ComponentFilter.keeps st' drops kv.1 = true)
          (added_components event') !! id = next.2) as ->.
        { rewrite <- Hadd. destruct (added_components event' !! id) eqn:Hx; [by apply map_lookup_filter_Some|].
          apply map_lookup_filter_None. by left. }
        destruct (decide (id ∈ removed_components event)) as [Hr|Hr]; [by rewrite decide_True by (apply Hin; auto)|].
        destruct (evicted st' (index_build st') next.1 id); [rewrite decide_True by (apply Hin; auto); done|].
        rewrite decide_False; [done|]. rewrite Hin. naive_solver.
      * rewrite decide_False by (rewrite Hin; naive_solver).
        rewrite (proj2 (map_lookup_filter_None _ _ _)); [done|]. right. intros t _. cbn. congruence.
Qed.
End worker.

(** ** Witness *)

Module FallbackSample.
#[local] Existing Instances MarketSample.tycho MarketSample.tycho_market.

Definition fallbacks : TychoFallback := {|
  Chain := unit;
  component_chain_of := fun _ => tt;
  from_protocol_system := fun system => if String.eqb system "uniswap_v2" then Some FP_UniswapV2 else None;
  supported_on := fun _ _ => true;
|}.

Definition pamm : ProtocolComponent := MarketSample.pool "pamm" "fallback:rfq" [Sample.A; Sample.B].

(** A pAMM alone, and beside a pool it can fall back to. *)
Definition before : MarketState := (upsert_components MarketState_new [pamm]).1.
Definition after : MarketState := (upsert_components before [MarketSample.ab]).1.

Definition pool_arrives : MarketEvent := {|
  added_components := {[ "ab"%string := {| tp_tokens := [Sample.A; Sample.B];
    tp_swap_directions := [(Sample.A, Sample.B); (Sample.B, Sample.A)] |} ]};
  removed_components := []; updated_components := [] |}.
End FallbackSample.

Section witness.
Import FallbackSample.
#[local] Existing Instances MarketSample.tycho MarketSample.tycho_market FallbackSample.fallbacks.

Definition keeps_all (_ : ProtocolComponent) : bool := false.

Lemma admitted_across_event_sample :
  let m := (withhold_from_graph before (component_topology before) keeps_all).1 in
  let '(m', event') := apply_pamm_admission after keeps_all m pool_arrives in
  worker_topology before keeps_all = ∅ /\
  dom (after_event (worker_topology before keeps_all) (ComponentFilter.filter_event after event' keeps_all))
    = {[ "ab"; "pamm" ]}%string /\
  manager_current after keeps_all m'.
Proof.
  assert (keyed_by_id before /\ keyed_by_id after) as [Hb Ha].
  { split; intros id c Hc; unfold get_component in Hc; apply fmap_Some in Hc as (stored & Hs & ->);
      apply elem_of_map_to_list in Hs; vm_compute in Hs;
      repeat (apply elem_of_cons in Hs as [[= -> ->]|Hs]; [done|]); by apply not_elem_of_nil in Hs. }
  assert (kinds_kept before after keeps_all) as Hk.
  { assert (forall id c, get_component before id = Some c -> get_component after id = Some c) as Hsame.
    { intros id c Hc. unfold get_component in Hc. apply fmap_Some in Hc as (stored & Hs & ->).
      apply elem_of_map_to_list in Hs. vm_compute in Hs. apply list_elem_of_singleton in Hs. by injection Hs as -> ->. }
    split; intros id c c' Hc Hc'; rewrite (Hsame _ _ Hc) in Hc'; by injection Hc' as ->. }
  intros m. pose proof (admitted_across_event before after keeps_all m pool_arrives Hk Hb Ha) as Hs.
  set (run := apply_pamm_admission after keeps_all _ pool_arrives) in *.
  assert (worker_topology before keeps_all = ∅) as He by by vm_compute.
  assert (dom (after_event (worker_topology before keeps_all) (ComponentFilter.filter_event after run.2 keeps_all))
    = ({[ "ab"; "pamm" ]}%string : gset ComponentId)) as Hd
    by (apply (bool_decide_unpack _); by vm_compute).
  destruct run as [m' event']. refine (conj He (conj Hd (proj1 (Hs _ _)))).
  - pose proof (withhold_from_graph_lemma before keeps_all) as Hw.
    subst m. destruct (withhold_from_graph _ _ _) as [m withheld]. exact (proj1 Hw).
  - by vm_compute.
Defined.
End witness.
