(* ===== verification/SplitMath.v ===== *)
(** * SplitMath: dividing an amount between pools

    The arithmetic of [fynd-core/src/algorithm/split_primitives.rs]: a fraction of an amount
    in fixed point, fractions that divide an amount exactly, shares of a swap's output, and
    the golden-section search of the split searches. The theorems are that nothing is lost or
    made by dividing, whatever doubles the fractions are, and that none of it panics. *)

From stdpp Require Import prelude list.
From Stdlib Require Import Floats.SpecFloat.
From Stdlib Require Import NArith ZArith Lia.
From S2P Require Import Prelude F64.

(** ** Definitions *)

Definition SCALE : N := 1000000000000000000.

(** [(clamped * scale as f64) as u64]. *)
Definition split_numerator (fraction : f64) : N :=
  F64.to_u64 (F64.mul (F64.clamp fraction F64.zero F64.one) (F64.of_N SCALE)).

Definition split_amount (total : N) (fraction : f64) : outcome (N * N) :=
  let part := total * split_numerator fraction / SCALE in
  remainder ← bsub total part;
  Ret (part, remainder).

Inductive SplitMathError :=
| EmptyFractions
| AllZeroFractions
| NegativeFraction
| ExceedsTotal (asked total : N).

Definition sum_f64 (l : list f64) : f64 := fold_left F64.add l F64.zero.

Definition normalize_fractions (fractions : list f64) : result SplitMathError (list f64) :=
  match fractions with
  | [] => Err EmptyFractions
  | _ =>
      if existsb (fun f => F64.ltb f F64.zero) fractions then Err NegativeFraction
      else
        let sum := sum_f64 fractions in
        if F64.eqb sum F64.zero then Err AllZeroFractions
        else Ok ((fun f => F64.div f sum) <$> fractions)
  end.

(** The amounts of all fractions but the last, and their sum. *)
Fixpoint leading_amounts (total : N) (fractions : list f64) : outcome (list N * N) :=
  match fractions with
  | [] | [_] => Ret ([], 0)
  | frac :: fractions =>
      '(part, _) ← split_amount total frac;
      '(amounts, running_sum) ← leading_amounts total fractions;
      Ret (part :: amounts, part + running_sum)
  end.

Definition fractions_to_amounts (total : N) (fractions : list f64) : outcome (result SplitMathError (list N)) :=
  match fractions with
  | [] => Ret (Err EmptyFractions)
  | _ =>
      '(amounts, running_sum) ← leading_amounts total fractions;
      Ret (match checked_sub total running_sum with
           | Some remainder => Ok (amounts ++ [remainder])
           | None => Err (ExceedsTotal running_sum total)
           end)
  end.

(** [BigUint::to_f64] rounds to the nearest double, beyond the largest to infinity. *)
Definition share_of (part total : N) : f64 :=
  if F64.gtb (F64.of_N total) F64.zero then F64.div (F64.of_N part) (F64.of_N total) else F64.zero.

Definition total_of (amounts : list N) : N := sum_by (fun a => a) amounts.

(** [last += amount]. *)
Fixpoint add_to_last (shares : list N) (amount : N) : list N :=
  match shares with
  | [] => []
  | [share] => [share + amount]
  | share :: shares => share :: add_to_last shares amount
  end.

Definition share_output (output : N) (fed_amounts : list N) : outcome (list N) :=
  let total := total_of fed_amounts in
  if total =? 0 then Ret (replicate (length fed_amounts) 0)
  else
    let shares := (fun fed => output * fed / total) <$> fed_amounts in
    match shares with
    | [] => Ret []
    | _ =>
        left ← bsub output (total_of shares);
        Ret (add_to_last shares left)
    end.

(** [(5_f64.sqrt() - 1.0) / 2.0]. *)
Definition INV_PHI : f64 :=
  F64.div (F64.sub (F64.sqrt (F64.of_N 5)) F64.one) (F64.of_N 2).

(** The loop: the bounds, the two probes and what they are worth. *)
Fixpoint golden_section_loop (f : f64 -> outcome f64) (remaining : nat) (lo hi x1 x2 f1 f2 : f64) : outcome f64 :=
  match remaining with
  | O => Ret (if F64.geb f1 f2 then x1 else x2)
  | S remaining =>
      if F64.ltb f1 f2 then
        let lo := x1 in
        let x := F64.add lo (F64.mul INV_PHI (F64.sub hi lo)) in
        fx ← f x;
        golden_section_loop f remaining lo hi x2 x f2 fx
      else
        let hi := x2 in
        let x := F64.sub hi (F64.mul INV_PHI (F64.sub hi lo)) in
        fx ← f x;
        golden_section_loop f remaining lo hi x x1 fx f1
  end.

Definition golden_section_search (f : f64 -> outcome f64) (lo hi : f64) (max_evals : nat) : outcome f64 :=
  let x1 := F64.sub hi (F64.mul INV_PHI (F64.sub hi lo)) in
  let x2 := F64.add lo (F64.mul INV_PHI (F64.sub hi lo)) in
  f1 ← f x1;
  f2 ← f x2;
  golden_section_loop f (max_evals - 2) lo hi x1 x2 f1 f2.

(** ** Rounding a product *)

(** Shifting right by one and by many places. *)
Lemma shr_1_half mrs : (0 <= shr_m mrs)%Z -> (shr_m (shr_1 mrs) = shr_m mrs / 2)%Z.
Proof.
  destruct mrs as [[|p|p] r s]; cbn [shr_m]; [done| |lia]. intros _.
  destruct p as [p|p|]; cbn [shr_1 shr_m].
  - rewrite Pos2Z.inj_xI. apply Z.div_unique with 1%Z; lia.
  - rewrite Pos2Z.inj_xO. apply Z.div_unique with 0%Z; lia.
  - done.
Qed.

Lemma iter_shr_div p mrs : (0 <= shr_m mrs)%Z ->
  (shr_m (SpecFloat.iter_pos shr_1 p mrs) = shr_m mrs / 2 ^ Z.pos p)%Z /\ (0 <= shr_m (SpecFloat.iter_pos shr_1 p mrs))%Z.
Proof.
  revert mrs. induction p as [p IH|p IH|]; intros mrs Hm; cbn [SpecFloat.iter_pos].
  - assert (0 <= shr_m (shr_1 mrs))%Z as H1 by (rewrite shr_1_half by done; apply Z.div_pos; lia).
    destruct (IH _ H1) as [E1 P1]. destruct (IH _ P1) as [E2 P2]. split; [|done].
    rewrite E2, E1, shr_1_half by done. rewrite !Z.div_div by lia. f_equal.
    replace (Z.pos p~1) with (1 + Z.pos p + Z.pos p)%Z by lia. rewrite !Z.pow_add_r by lia. lia.
  - destruct (IH _ Hm) as [E1 P1]. destruct (IH _ P1) as [E2 P2]. split; [|done].
    rewrite E2, E1, Z.div_div by lia. f_equal.
    replace (Z.pos p~0) with (Z.pos p + Z.pos p)%Z by lia. rewrite Z.pow_add_r by lia. lia.
  - rewrite shr_1_half by done. split; [done|]. apply Z.div_pos; lia.
Qed.

Lemma shr_spec mrs e n : (0 <= shr_m mrs)%Z ->
  let '(mrs', e') := shr mrs e n in
  e' = (e + Z.max n 0)%Z /\ (shr_m mrs' = shr_m mrs / 2 ^ Z.max n 0)%Z /\ (0 <= shr_m mrs')%Z.
Proof.
  intros Hm. destruct n as [|p|p]; cbn [shr].
  - rewrite Z.div_1_r. split_and!; [lia|done|done].
  - destruct (iter_shr_div p mrs Hm) as [E P]. rewrite Z.max_l by lia. done.
  - rewrite Z.max_r, Z.div_1_r by lia. split_and!; [lia|done|done].
Qed.

Lemma round_nearest_even_le m l : (m <= round_nearest_even m l <= m + 1)%Z.
Proof. destruct l as [|[]]; cbn; [lia|destruct (Z.even m); lia|lia|lia]. Qed.

(** A product below a bound whose low bits are clear rounds to at most the bound: [B] is a
    multiple of [2 ^ 7] below [2 ^ 60], magnitudes are in units of [2 ^ -1074]. *)
Lemma round_below (x : positive) (ex B : Z) :
  (-1074 <= ex <= 7)%Z -> (0 < B < 2 ^ 53)%Z ->
  (Z.pos x * 2 ^ (ex + 1074) < B * 2 ^ 1081)%Z ->
  match binary_round_aux F64.prec F64.emax false (Z.pos x) ex loc_Exact with
  | S754_zero _ => True
  | S754_finite s m e => s = false /\ (-1074 <= e)%Z /\ (Z.pos m * 2 ^ (e + 1074) <= B * 2 ^ 1081)%Z
  | S754_infinity _ => False
  | S754_nan => False
  end.
Proof.
  intros Hex HB Hx. unfold binary_round_aux, shr_fexp.
  set (n := (fexp F64.prec F64.emax (Zdigits2 (Z.pos x) + ex) - ex)%Z).
  cbn [shr_record_of_loc].
  pose proof (shr_spec {| shr_m := Z.pos x; shr_r := false; shr_s := false |} ex n ltac:(cbn; lia)) as Hs.
  destruct (shr _ ex n) as [mrs1 k]. destruct Hs as (Hk & Hm1 & Hp1). cbn [shr_m] in Hm1.
  assert (k <= 7)%Z as Hk7.
  { destruct (Z.le_gt_cases n 0); [lia|]. rewrite Z.max_l in Hk by lia. subst n k.
    unfold fexp, emin, F64.prec, F64.emax in *. cbn [Zdigits2] in *.
    pose proof (digits2_pos_bounds x) as [Hd _]. set (d := Z.pos (digits2_pos x)) in *.
    assert (2 ^ d * 2 ^ (ex + 1074) < 2 ^ 54 * 2 ^ 1081)%Z as Hlt by (change (2 ^ 54)%Z with (2 * 2 ^ 53)%Z; nia).
    rewrite <- !Z.pow_add_r in Hlt by lia. apply Z.pow_lt_mono_r_iff in Hlt; lia. }
  assert (-1074 <= k)%Z as Hk0 by lia.
  assert (shr_m mrs1 < B * 2 ^ (7 - k))%Z as Hlt1.
  { rewrite Hm1. apply Z.div_lt_upper_bound; [lia|].
    assert (2 ^ Z.max n 0 * (B * 2 ^ (7 - k)) = B * 2 ^ (7 - ex))%Z as ->.
    { rewrite (Z.mul_comm (2 ^ _)%Z), <- Z.mul_assoc, <- Z.pow_add_r by lia. do 2 f_equal. lia. }
    apply (Z.mul_lt_mono_pos_r (2 ^ (ex + 1074))); [apply Z.pow_pos_nonneg; lia|].
    rewrite <- (Z.mul_assoc B), <- Z.pow_add_r by lia. replace (7 - ex + (ex + 1074))%Z with 1081%Z by lia. done. }
  pose proof (round_nearest_even_le (shr_m mrs1) (loc_of_shr_record mrs1)) as Hr.
  set (q := round_nearest_even _ _) in *. set (n2 := (fexp _ _ (Zdigits2 q + k) - k)%Z).
  pose proof (shr_spec {| shr_m := q; shr_r := false; shr_s := false |} k n2 ltac:(cbn; lia)) as Hs2.
  destruct (shr _ k n2) as [mrs2 e2]. destruct Hs2 as (He2 & Hm2 & Hp2). cbn [shr_m] in Hm2.
  assert (shr_m mrs2 * 2 ^ (e2 + 1074) <= B * 2 ^ 1081)%Z as Hle.
  { rewrite He2, Hm2. replace (k + Z.max n2 0 + 1074)%Z with (Z.max n2 0 + (k + 1074))%Z by lia.
    rewrite Z.pow_add_r, Z.mul_assoc by lia.
    transitivity (q * 2 ^ (k + 1074))%Z.
    - apply Z.mul_le_mono_nonneg_r; [apply Z.pow_nonneg; lia|]. rewrite Z.mul_comm. apply Z.mul_div_le, Z.pow_pos_nonneg; lia.
    - transitivity (B * 2 ^ (7 - k) * 2 ^ (k + 1074))%Z; [apply Z.mul_le_mono_nonneg_r; [apply Z.pow_nonneg; lia|lia]|].
      rewrite <- Z.mul_assoc, <- Z.pow_add_r by lia. replace (7 - k + (k + 1074))%Z with 1081%Z by lia. lia. }
  destruct (shr_m mrs2) as [|m|m]; [done| |lia].
  assert (e2 <= F64.emax - F64.prec)%Z as He.
  { unfold F64.emax, F64.prec. assert (2 ^ (e2 + 1074) < 2 ^ 53 * 2 ^ 1081)%Z as Hlt by nia.
    rewrite <- Z.pow_add_r in Hlt by lia. apply Z.pow_lt_mono_r_iff in Hlt; lia. }
  rewrite (proj2 (Z.leb_le _ _) He). split_and!; [done|lia|done].
Qed.

(** What every double the program holds or computes satisfies. *)
Definition rounded (a : f64) : Prop :=
  match a with S754_finite _ m e => (-1074 <= e)%Z /\ (Z.pos m < 9007199254740992)%Z | _ => True end.

Lemma canonical_rounded a : canonical a = true -> rounded a.
Proof. destruct a as [s|s| |s m e]; try done. intros (? & ? & _)%canonical_finite. cbn. lia. Qed.

Lemma binary_round_aux_rounded s m e l : (0 <= m)%Z -> rounded (binary_round_aux F64.prec F64.emax s m e l).
Proof.
  intros Hm. unfold binary_round_aux, shr_fexp. set (n := (fexp _ _ (Zdigits2 m + e) - e)%Z).
  pose proof (shr_spec (shr_record_of_loc m l) e n) as Hs.
  assert (shr_m (shr_record_of_loc m l) = m) as E by by destruct l as [|[]]. rewrite E in Hs. specialize (Hs Hm).
  destruct (shr _ e n) as [mrs1 k]. destruct Hs as (_ & _ & Hp1).
  pose proof (round_nearest_even_le (shr_m mrs1) (loc_of_shr_record mrs1)) as Hr.
  set (q := round_nearest_even _ _) in *. set (n2 := (fexp _ _ (Zdigits2 q + k) - k)%Z).
  pose proof (shr_spec {| shr_m := q; shr_r := false; shr_s := false |} k n2 ltac:(cbn; lia)) as Hs2.
  cbn [shr_record_of_loc]. destruct (shr _ k n2) as [mrs2 e2]. destruct Hs2 as (He2 & Hm2 & _). cbn [shr_m] in Hm2.
  destruct (shr_m mrs2) as [|m2|m2] eqn:Em2; [done| |done]. destruct (e2 <=? _)%Z; [|done].
  assert (-1074 <= k + Z.max n2 0 /\ Zdigits2 q - 53 <= Z.max n2 0)%Z as [He Hd]
    by (subst n2; unfold fexp, emin, F64.prec, F64.emax; lia).
  split; [lia|]. assert (0 < q)%Z as Hq.
  { destruct (Z.eq_dec q 0) as [Hz|]; [|lia]. rewrite Hz, Z.div_0_l in Hm2 by (apply Z.pow_nonzero; lia). lia. }
  destruct q as [|q'|q'] eqn:Eq; [lia| |lia]. cbn [Zdigits2] in Hd. pose proof (digits2_pos_bounds q') as [_ Hq2].
  rewrite Z.pow_add_r in Hq2 by lia.
  rewrite Hm2. apply Z.div_lt_upper_bound; [apply Z.pow_pos_nonneg; lia|].
  apply Z.lt_le_trans with (2 ^ Z.pos (digits2_pos q'))%Z; [lia|]. change 9007199254740992%Z with (2 ^ 53)%Z.
  rewrite <- Z.pow_add_r by lia. apply Z.pow_le_mono_r; lia.
Qed.

Lemma mul_rounded a b : rounded (F64.mul a b).
Proof.
  unfold F64.mul, SFmul. destruct a, b; try exact I. apply binary_round_aux_rounded. lia.
Qed.

Lemma to_u64_le m e B : (-1074 <= e)%Z -> (0 <= B)%Z ->
  (Z.pos m * 2 ^ (e + 1074) <= B * 2 ^ 1074)%Z -> (Z.of_N (F64.to_u64 (S754_finite false m e)) <= B)%Z.
Proof.
  intros He HB Hle. unfold F64.to_u64. rewrite N2Z.inj_min. destruct (Z.leb_spec 0 e) as [Hp|Hn].
  - rewrite Z2N.id by (apply Z.mul_nonneg_nonneg; [lia|apply Z.pow_nonneg; lia]).
    rewrite Z.pow_add_r, Z.mul_assoc in Hle by lia. apply Z.mul_le_mono_pos_r in Hle; [lia|]. apply Z.pow_pos_nonneg; lia.
  - rewrite Z2N.id by (apply Z.div_pos; [lia|apply Z.pow_pos_nonneg; lia]).
    assert (Z.pos m / 2 ^ (- e) <= B)%Z; [|lia].
    apply Z.div_le_upper_bound; [apply Z.pow_pos_nonneg; lia|].
    apply (Z.mul_le_mono_pos_r _ _ (2 ^ (e + 1074))); [apply Z.pow_pos_nonneg; lia|].
    rewrite (Z.mul_comm (2 ^ (- e))), <- Z.mul_assoc, <- Z.pow_add_r by lia.
    replace (- e + (e + 1074))%Z with 1074%Z by lia. done.
Qed.

Lemma below_one m e : rounded (S754_finite false m e) ->
  F64.gtb (S754_finite false m e) F64.one = false ->
  S754_finite false m e = F64.one \/ (Z.pos m * 2 ^ (e + 1074) < 2 ^ 1074)%Z.
Proof.
  intros [He Hm] Hgt. unfold F64.gtb, F64.ltb, F64.one in *. cbn [SFcompare] in Hgt.
  destruct (Z.compare_spec (-52) e) as [<-| |Hlt]; [|done|].
  - change (Pos.compare_cont Eq) with Pos.compare in Hgt.
    destruct (Pos.compare_spec 4503599627370496 m) as [<-| |Hlt]; [by left|done|right].
    apply Pos2Z.pos_lt_pos in Hlt.
    replace (2 ^ 1074)%Z with (4503599627370496 * 2 ^ (-52 + 1074))%Z; [|by vm_compute].
    apply Z.mul_lt_mono_pos_r; [apply Z.pow_pos_nonneg; lia|done].
  - right. apply Z.lt_le_trans with (2 ^ 53 * 2 ^ (e + 1074))%Z.
    { apply Z.mul_lt_mono_pos_r; [apply Z.pow_pos_nonneg; lia|done]. }
    rewrite <- Z.pow_add_r by lia. apply Z.pow_le_mono_r; lia.
Qed.

(** The fixed-point numerator of a fraction never exceeds the scale. *)
Lemma split_numerator_le fraction : rounded fraction -> split_numerator fraction <= SCALE.
Proof.
  intros Hc. unfold split_numerator.
  assert (forall f, rounded f -> F64.ltb f F64.zero = false -> F64.gtb f F64.one = false ->
    F64.to_u64 (F64.mul f (F64.of_N SCALE)) <= SCALE) as Hin.
  { clear fraction Hc. intros f Hc Hl Hg. destruct f as [[]|[]| |[] m e]; try done.
    destruct (below_one m e Hc Hg) as [->|Hlt]; [by vm_compute|].
    assert (F64.of_N SCALE = S754_finite false 7812500000000000 7) as -> by by vm_compute.
    unfold F64.mul, SFmul. cbn [xorb].
    destruct Hc as [He Hm].
    assert (e < 0)%Z as Hneg.
    { destruct (Z.lt_ge_cases e 0) as [|Hge]; [done|]. exfalso.
      assert (2 ^ 1074 <= 2 ^ (e + 1074))%Z by (apply Z.pow_le_mono_r; lia). nia. }
    pose proof (round_below (m * 7812500000000000) (e + 7) 7812500000000000 ltac:(lia) ltac:(lia)) as Hr.
    destruct (binary_round_aux _ _ _ _ _ _) as [s|s| |s m' e'].
    - destruct s; by vm_compute.
    - exfalso. apply Hr. clear Hr. rewrite Pos2Z.inj_mul.
      replace (e + 7 + 1074)%Z with ((e + 1074) + 7)%Z by lia. rewrite Z.pow_add_r by lia.
      change (2 ^ 1081)%Z with (2 ^ 1074 * 2 ^ 7)%Z. nia.
    - by vm_compute.
    - assert (Z.pos (m * 7812500000000000) * 2 ^ (e + 7 + 1074) < 7812500000000000 * 2 ^ 1081)%Z as Hlt'.
      { rewrite Pos2Z.inj_mul. replace (e + 7 + 1074)%Z with ((e + 1074) + 7)%Z by lia. rewrite Z.pow_add_r by lia.
        change (2 ^ 1081)%Z with (2 ^ 1074 * 2 ^ 7)%Z. nia. }
      destruct (Hr Hlt') as (-> & He' & Hle).
      apply N2Z.inj_le, to_u64_le; [done|by vm_compute|].
      change (2 ^ 1081)%Z with (2 ^ 7 * 2 ^ 1074)%Z in Hle. rewrite Z.mul_assoc in Hle. exact Hle. }
  unfold F64.clamp. destruct (F64.ltb fraction F64.zero) eqn:Hl.
  - by vm_compute.
  - destruct (F64.gtb fraction F64.one) eqn:Hg; [by vm_compute|]. by apply Hin.
Qed.

(** ** Nothing is lost or made *)

Lemma split_amount_lemma total fraction : rounded fraction ->
  exists part remainder, split_amount total fraction = Ret (part, remainder) /\ part + remainder = total /\
    part = total * split_numerator fraction / SCALE.
Proof.
  intros Hc. pose proof (split_numerator_le fraction Hc) as Hle. unfold split_amount.
  assert (total * split_numerator fraction / SCALE <= total).
  { apply div_le_of_le_mul; [done|]. rewrite N.mul_comm. by apply N.mul_le_mono_r. }
  rewrite bsub_ge by done. cbn. eexists _, _. split; [done|]. split; [lia|done].
Qed.

(** What each fraction but the last takes of the amount. *)
Definition leading_parts (total : N) (fractions : list f64) : list N :=
  (fun fraction => total * split_numerator fraction / SCALE) <$> take (length fractions - 1) fractions.

Lemma leading_amounts_lemma total fractions : Forall rounded fractions ->
  leading_amounts total fractions = Ret (leading_parts total fractions, total_of (leading_parts total fractions)).
Proof.
  induction fractions as [|f fractions IH]; intros Hall; [done|]. apply Forall_cons in Hall as [Hf Hall].
  destruct fractions as [|g fractions]; [done|].
  destruct (split_amount_lemma total f Hf) as (part & rest & Hs & _ & ->).
  cbn [leading_amounts]. rewrite Hs. cbn [mbind outcome_bind]. cbn [leading_amounts] in IH. rewrite (IH Hall).
  unfold leading_parts, total_of. cbn [length]. rewrite !Nat.sub_succ, !Nat.sub_0_r.
  rewrite firstn_cons, fmap_cons, sum_by_cons. done.
Qed.

(** What a call with [fractions] must answer: an error when there is nothing to divide by or
    when the leading fractions ask for more than there is, and otherwise the leading parts
    followed by what they leave. *)
Definition divided (total : N) (fractions : list f64) : result SplitMathError (list N) :=
  if bool_decide (fractions = []) then Err EmptyFractions
  else
    let parts := leading_parts total fractions in
    if total_of parts <=? total then Ok (parts ++ [total - total_of parts])
    else Err (ExceedsTotal (total_of parts) total).

Lemma fractions_to_amounts_lemma total fractions : Forall rounded fractions ->
  fractions_to_amounts total fractions = Ret (divided total fractions) /\
  match divided total fractions with
  | Ok amounts => length amounts = length fractions /\ total_of amounts = total
  | Err EmptyFractions => fractions = []
  | Err (ExceedsTotal asked available) => available = total /\ total < asked
  | Err _ => False
  end.
Proof.
  intros Hall. unfold fractions_to_amounts, divided. destruct fractions as [|f fractions]; [done|].
  rewrite leading_amounts_lemma by done. cbn [mbind outcome_bind]. rewrite bool_decide_false by done. unfold checked_sub.
  destruct (N.leb_spec (total_of (leading_parts total (f :: fractions))) total) as [Hle|Hgt]; [|done].
  split; [done|]. split.
  - unfold leading_parts. rewrite length_app, length_fmap, length_take. cbn [length]. lia.
  - unfold total_of in *. rewrite sum_by_app, sum_by_cons. change (sum_by (fun a : N => a) []) with 0. lia.
Qed.

(** [fractions_to_amounts] never panics, whatever doubles the fractions are (NaN and
    infinities too). It is refused exactly when there are no fractions or when the fractions
    before the last ask for more than the total; otherwise it answers one amount per fraction,
    each but the last the fraction of the total in fixed point and at most the total, and the
    amounts add up to exactly the total. *)
Theorem fractions_to_amounts_exact total fractions : Forall (fun f => canonical f = true) fractions ->
  fractions_to_amounts total fractions = Ret (divided total fractions) /\
  match divided total fractions with
  | Ok amounts => length amounts = length fractions /\ total_of amounts = total
  | Err EmptyFractions => fractions = []
  | Err (ExceedsTotal asked available) => available = total /\ total < asked
  | Err _ => False
  end.
Proof.
  intros Hall. apply fractions_to_amounts_lemma. eapply Forall_impl; [exact Hall|]. apply canonical_rounded.
Qed.

Lemma fractions_to_amounts_exact_witness :
  let halves := [F64.div F64.one (F64.of_N 2); F64.nan] in
  Forall (fun f => canonical f = true) halves /\ divided 101 halves = Ok [50; 51].
Proof.
  intros halves. assert (Forall (fun f => canonical f = true) halves) as Hall by by repeat constructor.
  pose proof (fractions_to_amounts_exact 101 halves Hall) as [_ Hd].
  assert (divided 101 halves = Ok [50; 51]) as E by by vm_compute. by rewrite E in Hd.
Defined.

Lemma total_of_shares output total feds : total <> 0 ->
  total_of ((fun fed => output * fed / total) <$> feds) <= output * total_of feds / total.
Proof.
  intros Ht. unfold total_of. induction feds as [|fed feds IH]; [by cbn; rewrite N.mul_0_r|].
  rewrite fmap_cons, !sum_by_cons, N.mul_add_distr_l. apply N.div_le_lower_bound; [done|].
  pose proof (div_mul_le (output * fed) total Ht). pose proof (div_mul_le (output * sum_by (fun a => a) feds) total Ht). nia.
Qed.

Lemma add_to_last_total shares amount : shares <> [] -> total_of (add_to_last shares amount) = total_of shares + amount.
Proof.
  unfold total_of. induction shares as [|share shares IH]; [done|]. intros _. destruct shares as [|s shares].
  - cbn. lia.
  - change (add_to_last (share :: s :: shares) amount) with (share :: add_to_last (s :: shares) amount).
    rewrite !(sum_by_cons _ share). rewrite IH by done. lia.
Qed.

Lemma add_to_last_length shares amount : length (add_to_last shares amount) = length shares.
Proof. induction shares as [|share [|s shares] IH]; [done..|]. cbn in *. by rewrite IH. Qed.

Lemma add_to_last_ge shares amount i share : shares !! i = Some share ->
  exists share', add_to_last shares amount !! i = Some share' /\ share <= share'.
Proof.
  revert i. induction shares as [|s shares IH]; intros i Hi; [done|]. destruct shares as [|s' shares].
  - destruct i; [|done]. injection Hi as ->. eexists. split; [done|]. lia.
  - destruct i as [|i]; [injection Hi as ->; eexists; split; [done|]; lia|]. by apply IH.
Qed.

(** [share_output] never panics. One share per path that fed the swap, each at least the
    path's proportion of the output rounded down, and when anything was fed the shares add up to
    exactly the output; when nothing was fed every share is zero. *)
Lemma share_output_lemma output fed_amounts :
  exists shares, share_output output fed_amounts = Ret shares /\
    length shares = length fed_amounts /\
    total_of shares = (if total_of fed_amounts =? 0 then 0 else output) /\
    (total_of fed_amounts <> 0 -> forall i fed, fed_amounts !! i = Some fed ->
      exists share, shares !! i = Some share /\ output * fed / total_of fed_amounts <= share).
Proof.
  unfold share_output. destruct (N.eqb_spec (total_of fed_amounts) 0) as [Hz|Hnz].
  - eexists. split; [done|]. rewrite length_replicate. split; [done|]. split; [|by intros ?].
    unfold total_of. clear Hz. induction fed_amounts as [|x l IH]; [done|]. cbn [length replicate]. by rewrite sum_by_cons, IH.
  - pose proof (total_of_shares output _ fed_amounts Hnz) as Hle. rewrite N.div_mul in Hle by done.
    set (shares := (fun fed => output * fed / total_of fed_amounts) <$> fed_amounts) in *.
    assert (shares <> []) as Hne by (subst shares; by destruct fed_amounts).
    assert ((match shares with [] => Ret [] | _ => left ← bsub output (total_of shares); Ret (add_to_last shares left) end)
      = Ret (add_to_last shares (output - total_of shares))) as -> by (rewrite bsub_ge by done; by destruct shares).
    eexists. split; [done|]. split_and!.
    + rewrite add_to_last_length. subst shares. apply length_fmap.
    + rewrite add_to_last_total by done. lia.
    + intros _ i fed Hi. apply add_to_last_ge. subst shares. by rewrite list_lookup_fmap, Hi.
Qed.
