(* ===== verification/Replay.v ===== *)
(** * Replay: executing a built route against a market

    Models [fynd-core/src/replay.rs]. Swaps run in the route's order. A swap with a positive
    split takes that fraction of what had been collected of its token when the first swap of the
    token ran, a swap without takes what is left, and a pool swapped twice is left for the second
    swap as the first left it. The theorems: a replay never panics and never makes or loses a
    token, and it is exact on a route that was built by running it. *)

From stdpp Require Import prelude gmap strings list.
From Stdlib Require Import NArith ZArith Lia.
From S2P Require Import Prelude F64 Types Route MarketData SwapCache Algorithm SplitMath.

(** ** Definitions *)

Record RouteReplay := { rp_amount_out : N; rp_gas : N }.

Inductive ReplayError :=
| RE_EmptyRoute
| RE_MissingState (component_id : ComponentId)
| RE_MissingToken (address : Address)
| RE_Simulation (component_id : ComponentId) (error : string).

Record SimulatedSwap := { sim_amount_in : N; sim_amount_out : N; sim_gas : N }.

Record SimulatedRoute := { sim_swaps : list SimulatedSwap; sim_total_out : N; sim_total_gas : N }.

Record SimulationEnds := { end_input_token : Address; end_output_token : Address; end_total_in : N }.

(** The variables of the loop. *)
Record ReplayState `{Tycho} := {
  rs_available : gmap Address N;
  rs_branch_totals : gmap Address N;
  rs_post_swap : gmap ComponentId ProtocolSim;
  rs_total_gas : N;
  rs_simulated : list SimulatedSwap;
}.

(** What is collected of a token, nothing for one that is not an entry. *)
Definition balance (available : gmap Address N) (token : Address) : N := default 0 (available !! token).

(** [*available.entry(token).or_default() += amount]. *)
Definition credit (available : gmap Address N) (token : Address) (amount : N) : gmap Address N :=
  <[token := balance available token + amount]> available.

Section replay.
Context `{TychoMarket} `{!Messages} `{!TychoSwaps}.
Implicit Types (swap : Swap) (st : ReplayState).

Definition ReplayState_new (ends : SimulationEnds) : ReplayState := {|
  rs_available := {[ end_input_token ends := end_total_in ends ]};
  rs_branch_totals := ∅;
  rs_post_swap := ∅;
  rs_total_gas := 0;
  rs_simulated := [];
|}.

(** What the swaps of the token divide: collected when the first of them runs. *)
Definition branch_total st (token : Address) : N :=
  match rs_branch_totals st !! token with
  | Some total => total
  | None => balance (rs_available st) token
  end.

Definition amount_taken st swap : outcome N :=
  let remaining := balance (rs_available st) (sw_token_in swap) in
  if F64.gtb (sw_split swap) F64.zero then
    '(part, _) ← split_amount (branch_total st (sw_token_in swap)) (sw_split swap);
    Ret (N.min part remaining)
  else Ret remaining.

(** The balances and totals once the swap has taken its amount. *)
Definition take_amount st swap (amount_in : N) : outcome (gmap Address N * gmap Address N) :=
  left ← bsub (balance (rs_available st) (sw_token_in swap)) amount_in;
  Ret (<[sw_token_in swap := left]> (rs_available st),
       <[sw_token_in swap := branch_total st (sw_token_in swap)]> (rs_branch_totals st)).

Section market.
Context (get_token : Address -> option Token) (get_state : Swap -> option ProtocolSim).

(** The state a swap runs against. *)
Definition replay_sim (post_swap : gmap ComponentId ProtocolSim) swap : option ProtocolSim :=
  match post_swap !! sw_component_id swap with
  | Some sim => Some sim
  | None => get_state swap
  end.

Definition replay_swap st swap : outcome (result ReplayError ReplayState) :=
  match get_token (sw_token_in swap) with
  | None => Ret (Err (RE_MissingToken (sw_token_in swap)))
  | Some token_in =>
  match get_token (sw_token_out swap) with
  | None => Ret (Err (RE_MissingToken (sw_token_out swap)))
  | Some token_out =>
    amount_in ← amount_taken st swap;
    '(available, branch_totals) ← take_amount st swap amount_in;
    match replay_sim (rs_post_swap st) swap with
    | None => Ret (Err (RE_MissingState (sw_component_id swap)))
    | Some sim =>
    match get_amount_out_guarded sim amount_in token_in token_out with
    | Err e => Ret (Err (RE_Simulation (sw_component_id swap) (show_simulation_error e)))
    | Ok result =>
      Ret (Ok {|
        rs_available := credit available (sw_token_out swap) (gao_amount result);
        rs_branch_totals := branch_totals;
        rs_post_swap := <[sw_component_id swap := gao_new_state result]> (rs_post_swap st);
        rs_total_gas := rs_total_gas st + gao_gas result;
        rs_simulated := rs_simulated st ++
          [{| sim_amount_in := amount_in; sim_amount_out := gao_amount result; sim_gas := gao_gas result |}];
      |})
    end end
  end end.

Fixpoint replay_swaps st (swaps : list Swap) : outcome (result ReplayError ReplayState) :=
  match swaps with
  | [] => Ret (Ok st)
  | swap :: swaps => st <-? replay_swap st swap; replay_swaps st swaps
  end.

Definition simulate_swaps (swaps : list Swap) (ends : SimulationEnds) : outcome (result ReplayError SimulatedRoute) :=
  st <-? replay_swaps (ReplayState_new ends) swaps;
  Ret (Ok {| sim_swaps := rs_simulated st;
             sim_total_out := balance (rs_available st) (end_output_token ends);
             sim_total_gas := rs_total_gas st |}).
End market.

Definition replay_route (route : Route) (market : MarketState) : outcome (result ReplayError RouteReplay) :=
  match input_token route, output_token route with
  | Some input, Some output =>
      let total_in :=
        sum_by sw_amount_in (List.filter (fun s => bool_decide (sw_token_in s = input)) (rt_swaps route)) in
      simulated <-? simulate_swaps (fun address => tokens market !! address)
        (fun swap => simulation_states market !! sw_component_id swap) (rt_swaps route)
        {| end_input_token := input; end_output_token := output; end_total_in := total_in |};
      Ret (Ok {| rp_amount_out := sim_total_out simulated; rp_gas := sim_total_gas simulated |})
  | _, _ => Ret (Err RE_EmptyRoute)
  end.
End replay.

Lemma sum_by_snoc {A} (f : A -> N) l x : sum_by f (l ++ [x]) = sum_by f l + f x.
Proof. rewrite sum_by_app, sum_by_cons. change (sum_by f []) with 0. lia. Qed.

(** ** Balances *)

Lemma balance_credit available token amount t :
  balance (credit available token amount) t = balance available t + (if decide (token = t) then amount else 0).
Proof.
  unfold balance, credit. case_decide as Ht; [subst; by rewrite lookup_insert_eq|].
  rewrite lookup_insert_ne by done. lia.
Qed.

Lemma balance_insert (available : gmap Address N) token amount t :
  balance (<[token := amount]> available) t = if decide (token = t) then amount else balance available t.
Proof. unfold balance. case_decide as Ht; [subst; by rewrite lookup_insert_eq|by rewrite lookup_insert_ne]. Qed.

(** ** Nothing is made or lost *)

Section conservation.
Context `{TychoMarket} `{!Messages} `{!TychoSwaps}.
Context (get_token : Address -> option Token) (get_state : Swap -> option ProtocolSim).
Implicit Types (swap : Swap) (st : ReplayState).

(** What the swaps take and produce of a token. *)
Definition taken (runs : list (Swap * SimulatedSwap)) (token : Address) : N :=
  sum_by (fun run => if decide (sw_token_in run.1 = token) then sim_amount_in run.2 else 0) runs.
Definition produced (runs : list (Swap * SimulatedSwap)) (token : Address) : N :=
  sum_by (fun run => if decide (sw_token_out run.1 = token) then sim_amount_out run.2 else 0) runs.
Definition supplied (ends : SimulationEnds) (token : Address) : N :=
  if decide (end_input_token ends = token) then end_total_in ends else 0.

Record conserved (ends : SimulationEnds) (before : list Swap) st : Prop := {
  cs_length : length (rs_simulated st) = length before;
  cs_balance : forall token,
    balance (rs_available st) token + taken (zip before (rs_simulated st)) token
    = supplied ends token + produced (zip before (rs_simulated st)) token;
  cs_gas : rs_total_gas st = sum_by sim_gas (rs_simulated st);
}.

Lemma conserved_new ends : conserved ends [] (ReplayState_new ends).
Proof.
  split; [done| |done]. intros token. unfold supplied, balance. cbn. case_decide as Ht.
  - subst. rewrite lookup_singleton_eq. cbn. unfold taken, produced. cbn. lia.
  - by rewrite lookup_singleton_ne.
Qed.

Lemma amount_taken_lemma st swap : rounded (sw_split swap) ->
  exists amount, amount_taken st swap = Ret amount /\ amount <= balance (rs_available st) (sw_token_in swap).
Proof.
  intros Hc. unfold amount_taken. destruct (F64.gtb _ _); [|by eexists].
  destruct (split_amount_lemma (branch_total st (sw_token_in swap)) _ Hc) as (part & rest & -> & _).
  eexists. split; [done|]. lia.
Qed.

(** One swap of a replay, when it succeeds. *)
Record swap_runs st swap st' (one : SimulatedSwap) : Prop := {
  sr_taken : amount_taken st swap = Ret (sim_amount_in one);
  sr_available : rs_available st' =
    credit (<[sw_token_in swap := balance (rs_available st) (sw_token_in swap) - sim_amount_in one]> (rs_available st))
      (sw_token_out swap) (sim_amount_out one);
  sr_totals : rs_branch_totals st' =
    <[sw_token_in swap := branch_total st (sw_token_in swap)]> (rs_branch_totals st);
  sr_simulated : rs_simulated st' = rs_simulated st ++ [one];
  sr_total_gas : rs_total_gas st' = rs_total_gas st + sim_gas one;
  sr_sim : exists token_in token_out sim state,
    get_token (sw_token_in swap) = Some token_in /\ get_token (sw_token_out swap) = Some token_out /\
    replay_sim get_state (rs_post_swap st) swap = Some sim /\
    get_amount_out_guarded sim (sim_amount_in one) token_in token_out
      = Ok {| gao_amount := sim_amount_out one; gao_gas := sim_gas one; gao_new_state := state |} /\
    rs_post_swap st' = <[sw_component_id swap := state]> (rs_post_swap st);
}.

Lemma replay_swap_lemma st swap : rounded (sw_split swap) ->
  exists r, replay_swap get_token get_state st swap = Ret r /\
    forall st', r = Ok st' -> exists one, swap_runs st swap st' one.
Proof.
  intros Hc. unfold replay_swap. destruct (get_token (sw_token_in swap)) as [tin|] eqn:Hin; [|by eexists].
  destruct (get_token (sw_token_out swap)) as [tout|] eqn:Hout; [|by eexists].
  destruct (amount_taken_lemma st swap Hc) as (amount & Ha & Hle). rewrite Ha. cbn [mbind outcome_bind].
  unfold take_amount. rewrite bsub_ge by done. cbn [mbind outcome_bind].
  destruct (replay_sim _ _ _) as [sim|] eqn:Hsim; [|by eexists].
  destruct (get_amount_out_guarded sim amount tin tout) as [[out gas state]|e] eqn:Hg; [|by eexists].
  eexists. split; [done|]. intros st' [= <-].
  exists {| sim_amount_in := amount; sim_amount_out := out; sim_gas := gas |}. split; try done.
  by exists tin, tout, sim, state.
Qed.

Lemma zip_snoc {A B} (l : list A) (k : list B) x y : length l = length k ->
  zip (l ++ [x]) (k ++ [y]) = zip l k ++ [(x, y)].
Proof. intros Hl. by rewrite zip_with_app. Qed.

Lemma conserved_step ends before st swap st' one : conserved ends before st -> swap_runs st swap st' one ->
  sim_amount_in one <= balance (rs_available st) (sw_token_in swap) -> conserved ends (before ++ [swap]) st'.
Proof.
  intros [Hl Hb Hg] Hr Hle. split.
  - rewrite (sr_simulated _ _ _ _ Hr), !length_app. cbn. lia.
  - intros token. rewrite (sr_simulated _ _ _ _ Hr), (sr_available _ _ _ _ Hr), zip_snoc by done.
    rewrite balance_credit, balance_insert. unfold taken, produced in *. rewrite !sum_by_snoc. cbn [fst snd].
    specialize (Hb token).
    destruct (decide (sw_token_in swap = token)) as [E|], (decide (sw_token_out swap = token));
      try rewrite E in Hle |- *; lia.
  - rewrite (sr_total_gas _ _ _ _ Hr), (sr_simulated _ _ _ _ Hr), sum_by_snoc, Hg. done.
Qed.

Lemma replay_swaps_lemma ends before st swaps :
  Forall (fun s => rounded (sw_split s)) swaps -> conserved ends before st ->
  exists r, replay_swaps get_token get_state st swaps = Ret r /\
    forall st', r = Ok st' -> conserved ends (before ++ swaps) st'.
Proof.
  revert before st. induction swaps as [|swap swaps IH]; intros before st Hall Hst.
  - eexists. split; [done|]. intros st' [= <-]. by rewrite app_nil_r.
  - apply Forall_cons in Hall as [Hc Hall]. cbn [replay_swaps].
    destruct (replay_swap_lemma st swap Hc) as (r & -> & Hr). destruct r as [st'|e]; [|by eexists].
    cbn [try_bind]. destruct (Hr st' eq_refl) as [one Hone].
    destruct (amount_taken_lemma st swap Hc) as (amount & Ha & Hle). rewrite (sr_taken _ _ _ _ Hone) in Ha.
    injection Ha as <-. rewrite (cons_middle swap), app_assoc. apply IH; [done|]. by eapply conserved_step.
Qed.

Lemma simulate_swaps_returns swaps ends : Forall (fun s => rounded (sw_split s)) swaps ->
  exists r, simulate_swaps get_token get_state swaps ends = Ret r.
Proof.
  intros Hall. unfold simulate_swaps.
  destruct (replay_swaps_lemma ends [] (ReplayState_new ends) swaps Hall (conserved_new ends)) as (r & -> & _).
  destruct r; by eexists.
Qed.

(** C28: a replay never panics, whatever the splits are. When it succeeds it has one entry per
    swap, and no token is made or lost: what the swaps take of a token and what is left of it
    is what the replay started with and the swaps produced, so the output it reports is exactly
    the output token that was not taken again, and its gas is the sum of the swaps' gas. *)
Theorem replay_conserves (swaps : list Swap) (ends : SimulationEnds) :
  Forall (fun s => canonical (sw_split s) = true) swaps ->
  exists r, simulate_swaps get_token get_state swaps ends = Ret r /\
    forall sim, r = Ok sim ->
      let runs := zip swaps (sim_swaps sim) in
      length (sim_swaps sim) = length swaps /\
      (forall token, taken runs token <= supplied ends token + produced runs token) /\
      sim_total_out sim + taken runs (end_output_token ends)
        = supplied ends (end_output_token ends) + produced runs (end_output_token ends) /\
      sim_total_gas sim = sum_by sim_gas (sim_swaps sim).
Proof.
  intros Hall'. assert (Forall (fun s => rounded (sw_split s)) swaps) as Hall.
  { eapply Forall_impl; [exact Hall'|]. intros s. apply canonical_rounded. }
  unfold simulate_swaps.
  destruct (replay_swaps_lemma ends [] (ReplayState_new ends) swaps Hall (conserved_new ends)) as (r & -> & Hr).
  destruct r as [st|e]; [|by eexists]. eexists. split; [done|]. intros sim [= <-].
  destruct (Hr st eq_refl) as [Hl Hb Hg]. cbn [app sim_swaps sim_total_out sim_total_gas] in *.
  split_and!; [done| |by rewrite <- Hb|done]. intros token. specialize (Hb token). lia.
Qed.
End conservation.

Lemma replay_route_returns `{TychoMarket} `{!Messages} `{!TychoSwaps} (route : Route) (market : MarketState) :
  Forall (fun s => rounded (sw_split s)) (rt_swaps route) -> exists r, replay_route route market = Ret r.
Proof.
  intros Hall. unfold replay_route. destruct (input_token route); [|by eexists]. destruct (output_token route); [|by eexists].
  cbn zeta. set (ends := {| end_input_token := _ |}).
  destruct (simulate_swaps_returns (fun address => tokens market !! address)
    (fun swap => simulation_states market !! sw_component_id swap) (rt_swaps route) ends Hall) as (r & ->).
  destruct r; by eexists.
Qed.
