(* ===== verification/SplitPlan.v ===== *)
(** * SplitPlan: executing a split between paths

    Models the split plan of [fynd-core/src/algorithm/split_primitives.rs]: the pools' states a
    plan overrides, the paths of a split and their simulation, the merge of the hops that paths
    share, the ledger of what each path carries, the balances of the tokens, the execution in
    dependency order, and the two that read it: the score of a split and the route built from
    it. [HashMap] iterations that the code sorts or that only fill maps are over [map_to_list]. *)

From stdpp Require Import prelude gmap strings list sorting.
From Stdlib Require Import NArith ZArith Lia.
From S2P Require Import Prelude F64 Types Route MarketData SwapCache Algorithm SplitMath Replay.

(** ** Overridden states *)

(** [SelectiveZeroGasSim]: a state that charges no gas for some directions. A state that is not
    wrapped charges for all of them. *)
Record ZeroGasSim `{Tycho} := { zs_inner : ProtocolSim; zs_zero_gas_pairs : gset (Bytes * Bytes) }.

Definition unwrapped `{Tycho} (sim : ProtocolSim) : ZeroGasSim := {| zs_inner := sim; zs_zero_gas_pairs := ∅ |}.

Abbreviation MarketOverrides := (gmap ComponentId ZeroGasSim).

Section overrides.
Context `{TychoSwaps}.

Definition with_override (overrides : MarketOverrides) (id : ComponentId) (sim : ZeroGasSim) : MarketOverrides :=
  <[id := sim]> overrides.

Definition with_zero_gas (overrides : MarketOverrides) (id : ComponentId) (token_in token_out : Bytes)
    : MarketOverrides :=
  match overrides !! id with
  | Some sim =>
      <[id := {| zs_inner := zs_inner sim;
                 zs_zero_gas_pairs := {[ (token_in, token_out) ]} ∪ zs_zero_gas_pairs sim |}]> overrides
  | None => overrides
  end.

(** The guarded swap of a state that may be wrapped: the gas, the amount and the next state. *)
Definition zero_gas_swap (sim : ZeroGasSim) (amount_in : N) (token_in token_out : Token)
    : result SimulationError (N * N * ZeroGasSim) :=
  result ← get_amount_out_guarded (zs_inner sim) amount_in token_in token_out;
  let gas :=
    if bool_decide ((token_address_of token_in, token_address_of token_out) ∈ zs_zero_gas_pairs sim) then 0
    else gao_gas result in
  Ok (gao_amount result, gas,
      {| zs_inner := gao_new_state result; zs_zero_gas_pairs := zs_zero_gas_pairs sim |}).
End overrides.

(** ** Paths *)

Record HopDescriptor `{Tycho} := {
  hd_component_id : ComponentId;
  hd_token_in : Token;
  hd_token_out : Token;
}.

Record SimulatedHop `{Tycho} := { sh_descriptor : HopDescriptor; sh_amount_out : N; sh_gas : N }.

Record PathAllocation `{Tycho} := {
  pa_hops : list SimulatedHop;
  pa_flow_fraction : f64;
  pa_amount_in : N;
  pa_amount_out : N;
  pa_marginal_price_product : f64;
}.

Record SimResult `{Tycho} := {
  sim_amount : N;
  sim_marginal_price_product : f64;
  sim_hop_results : list (N * N);
  sim_post_swap_states : list (ComponentId * ZeroGasSim);
}.

(** What the errors say, as data. *)
Inductive SplitPlanError :=
| RevisitsToken (token : Address) (hop : nat)
| NoPathFeeds (component_id : ComponentId)
| CannotDivide (total : N) (swaps : nat) (error : SplitMathError)
| Overspends (component_id : ComponentId) (amount : N) (symbol : string) (standing : N)
| DependencyCycle (tokens : list Address)
| LengthMismatch (paths fractions : nat)
| FractionsRefused (error : SplitMathError)
| KeptNoState (component_id : ComponentId).

Class SplitMessages : Type := { show_split_plan_error : SplitPlanError -> string }.

Section paths.
Context `{TychoMarket} `{!Messages} `{!TychoSwaps} `{!SplitMessages}.
Implicit Types (path : PathAllocation) (hop : HopDescriptor) (market : MarketState).

Definition plan_error (e : SplitPlanError) : AlgorithmError := AE_Other (show_split_plan_error e).

Definition in_of hop : Address := token_address_of (hd_token_in hop).
Definition out_of hop : Address := token_address_of (hd_token_out hop).

(** The loop of [validate_token_cycles] from hop [i]. *)
Fixpoint check_revisits (first_token : Address) (last_idx i : nat) (seen : gset Address) (hops : list SimulatedHop)
    : result AlgorithmError unit :=
  match hops with
  | [] => Ok tt
  | hop :: hops =>
      let out_addr := out_of (sh_descriptor hop) in
      if bool_decide (out_addr ∈ seen) && negb ((i =? last_idx)%nat && bool_decide (out_addr = first_token))
      then Err (plan_error (RevisitsToken out_addr i))
      else check_revisits first_token last_idx (S i) ({[ out_addr ]} ∪ seen) hops
  end.

Definition validate_token_cycles path : result AlgorithmError unit :=
  match pa_hops path with
  | [] => Err (AE_Other "path has no hops")
  | first :: _ =>
      let first_token := in_of (sh_descriptor first) in
      check_revisits first_token (length (pa_hops path) - 1) 0 {[ first_token ]} (pa_hops path)
  end.

(** Where a hop's state is read: the states [later] ones left, then the overrides, then the
    market. *)
Definition freshest (later overrides : MarketOverrides) market (id : ComponentId) : result AlgorithmError ZeroGasSim :=
  match later !! id with
  | Some sim => Ok sim
  | None =>
      match overrides !! id with
      | Some sim => Ok sim
      | None =>
          match simulation_states market !! id with
          | Some sim => Ok (unwrapped sim)
          | None => Err (AE_DataNotFound "simulation state" (Some id))
          end
      end
  end.

Definition map_simulation_error {A} (id : ComponentId) (r : result SimulationError A) : result AlgorithmError A :=
  match r with
  | Ok a => Ok a
  | Err e => Err (AE_SimulationFailed id (show_simulation_error e))
  end.

(** ** Simulating one path *)

Section simulate_path.
(** [ProtocolSim::spot_price]. *)
Context (spot_price : ProtocolSim -> Token -> Token -> result SimulationError f64).

Fixpoint price_product_from (product : f64) (hops : list HopDescriptor) market (overrides : MarketOverrides)
    : result AlgorithmError f64 :=
  match hops with
  | [] => Ok product
  | hop :: hops =>
      sim ← freshest ∅ overrides market (hd_component_id hop);
      price ← map_simulation_error (hd_component_id hop)
        (spot_price (zs_inner sim) (hd_token_in hop) (hd_token_out hop));
      price_product_from (F64.mul product price) hops market overrides
  end.

Definition compute_marginal_price_product (hops : list HopDescriptor) market (overrides : MarketOverrides)
    : result AlgorithmError f64 :=
  price_product_from F64.one hops market overrides.

(** The search of [post_swap_states] from its end. *)
Definition last_state_of (states : list (ComponentId * ZeroGasSim)) (id : ComponentId) : option ZeroGasSim :=
  snd <$> find_first (fun entry => bool_decide (entry.1 = id)) (reverse states).

Definition simulate_hop market (overrides : MarketOverrides) (st : SimResult) hop : result AlgorithmError SimResult :=
  let id := hd_component_id hop in
  sim ← match last_state_of (sim_post_swap_states st) id with
        | Some sim => Ok sim
        | None => freshest ∅ overrides market id
        end;
  price ← map_simulation_error id (spot_price (zs_inner sim) (hd_token_in hop) (hd_token_out hop));
  '(amount, gas, new_state) ← map_simulation_error id
    (zero_gas_swap sim (sim_amount st) (hd_token_in hop) (hd_token_out hop));
  Ok {| sim_amount := amount;
        sim_marginal_price_product := F64.mul (sim_marginal_price_product st) price;
        sim_hop_results := sim_hop_results st ++ [(amount, gas)];
        sim_post_swap_states := sim_post_swap_states st ++ [(id, new_state)] |}.

Fixpoint simulate_hops market (overrides : MarketOverrides) (st : SimResult) (hops : list HopDescriptor)
    : result AlgorithmError SimResult :=
  match hops with
  | [] => Ok st
  | hop :: hops => st ← simulate_hop market overrides st hop; simulate_hops market overrides st hops
  end.

Definition simulate_path (hops : list HopDescriptor) (amount_in : N) market (overrides : MarketOverrides)
    : result AlgorithmError SimResult :=
  simulate_hops market overrides
    {| sim_amount := amount_in; sim_marginal_price_product := F64.one; sim_hop_results := [];
       sim_post_swap_states := [] |} hops.
End simulate_path.

(** ** Merging the hops paths share *)

(** What makes two hops the same swap: the pool and the direction. *)
Definition HopKey : Type := ComponentId * Bytes * Bytes.

Definition hop_key hop : HopKey := (hd_component_id hop, in_of hop, out_of hop).

Record SplitSwap := { ss_hop : HopDescriptor; ss_split : f64; ss_amount_in : N }.

Definition SplitSwap_new hop : SplitSwap := {| ss_hop := hop; ss_split := F64.zero; ss_amount_in := 0 |}.

(** [sort_by] on pool, input and output. *)
Definition hop_key_leb (a b : HopKey) : bool :=
  let '(id_a, in_a, out_a) := a in
  let '(id_b, in_b, out_b) := b in
  if bool_decide (id_a = id_b) then
    if bool_decide (in_a = in_b) then String.leb out_a out_b else String.leb in_a in_b
  else String.leb id_a id_b.

Definition key_before (a b : SplitSwap) : Prop := hop_key_leb (hop_key (ss_hop a)) (hop_key (ss_hop b)) = true.

#[export] Instance key_before_dec a b : Decision (key_before a b).
Proof. unfold key_before. apply _. Defined.

(** [entry(key).or_insert(value)]. *)
Definition or_insert_with {K A} `{Countable K} (m : gmap K A) (key : K) (value : A) : gmap K A :=
  match m !! key with Some _ => m | None => <[key := value]> m end.

Definition merged_hops (paths : list PathAllocation) : gmap HopKey SplitSwap :=
  fold_left (fun hops hop => or_insert_with hops (hop_key hop) (SplitSwap_new hop))
    (sh_descriptor <$> (paths ≫= pa_hops)) ∅.

(** [entry(key).or_default().push(value)]. *)
Definition push_to {K A} `{Countable K} (m : gmap K (list A)) (key : K) (value : A) : gmap K (list A) :=
  <[key := default [] (m !! key) ++ [value]]> m.

Definition merge_shared_hops (paths : list PathAllocation) : gmap Bytes (list SplitSwap) :=
  let branch_collections :=
    fold_left (fun collections swap => push_to collections (in_of (ss_hop swap)) swap)
      (map_to_list (merged_hops paths)).*2 ∅ in
  merge_sort key_before <$> branch_collections.

(** Each swap but the last carries its share of what stands at the token. *)
Definition split_fractions (hops : list SplitSwap) (total_available : N) : list f64 :=
  imap (fun ix swap => if (ix =? length hops - 1)%nat then F64.zero else share_of (ss_amount_in swap) total_available) hops.

Definition with_amount (swap : SplitSwap) (sized : f64 * N) : SplitSwap :=
  {| ss_hop := ss_hop swap; ss_split := sized.1; ss_amount_in := sized.2 |}.

Definition splits_from_amounts (hops : list SplitSwap) (total_available : N)
    : outcome (result AlgorithmError (list SplitSwap)) :=
  let hops := sort_desc ss_amount_in hops in
  let fractions := split_fractions hops total_available in
  divided ← fractions_to_amounts total_available fractions;
  Ret (match divided with
       | Ok amounts => Ok (zip_with with_amount hops (zip fractions amounts))
       | Err error => Err (plan_error (CannotDivide total_available (length fractions) error))
       end).

(** How many swaps produce each token; the tokens swaps take are entries too. *)
Definition count_swap (in_degree : gmap Bytes nat) (swap : SplitSwap) : gmap Bytes nat :=
  let token := out_of (ss_hop swap) in
  <[token := S (default 0%nat (in_degree !! token))]> in_degree.

Definition build_in_degree (hops_by_token : gmap Bytes (list SplitSwap)) : gmap Bytes nat :=
  fold_left (fun in_degree entry => fold_left count_swap entry.2 (or_insert_with in_degree entry.1 0%nat))
    (map_to_list hops_by_token) ∅.

(** ** The ledger and the balances *)

Record PathLedger := { lg_amount_in : list N; lg_next_hop_ix : list nat }.

Definition PathLedger_new (paths : list PathAllocation) : result AlgorithmError PathLedger :=
  let amount_in := pa_amount_in <$> paths in
  if forallb (fun amount => amount =? 0) amount_in
  then Err (AE_Other "cannot divide the order across these paths: every path carries a zero amount")
  else Ok {| lg_amount_in := amount_in; lg_next_hop_ix := replicate (length paths) 0%nat |}.

(** [l[i]] and [l[i] = x], which panic out of range. *)
Definition index {A} (l : list A) (i : nat) : outcome A :=
  match l !! i with Some x => Ret x | None => Panic end.
Definition set_index {A} (l : list A) (i : nat) (x : A) : outcome (list A) :=
  match l !! i with Some _ => Ret (<[i := x]> l) | None => Panic end.

(** The hop a path is about to make, when it starts at [token]. *)
Definition hop_at path (next : nat) (token : Bytes) : option HopDescriptor :=
  hop ← pa_hops path !! next;
  if bool_decide (in_of (sh_descriptor hop) = token) then Some (sh_descriptor hop) else None.

(** The loop of [standing_at] from path [path_ix]. *)
Fixpoint standing_from (ledger : PathLedger) (paths : list PathAllocation) (path_ix : nat) (token : Bytes)
    (by_hop : gmap HopKey (list nat)) : outcome (gmap HopKey (list nat)) :=
  match paths with
  | [] => Ret by_hop
  | path :: paths =>
      next ← index (lg_next_hop_ix ledger) path_ix;
      standing_from ledger paths (S path_ix) token
        (match hop_at path next token with
         | Some hop => push_to by_hop (hop_key hop) path_ix
         | None => by_hop
         end)
  end.

Definition standing_at (ledger : PathLedger) (paths : list PathAllocation) (token : Bytes)
    : outcome (gmap HopKey (list nat)) := standing_from ledger paths 0 token ∅.

Definition fed_amounts (ledger : PathLedger) (fed : list nat) : outcome (list N) :=
  mapM (index (lg_amount_in ledger)) fed.

Definition fed_total (ledger : PathLedger) (fed : list nat) : outcome N :=
  amounts ← fed_amounts ledger fed;
  Ret (total_of amounts).

Fixpoint set_amounts (amounts : list N) (shares : list (nat * N)) : outcome (list N) :=
  match shares with
  | [] => Ret amounts
  | (path_ix, share) :: shares => amounts ← set_index amounts path_ix share; set_amounts amounts shares
  end.

Definition rescale (ledger : PathLedger) (fed : list nat) (total : N) : outcome PathLedger :=
  amounts ← fed_amounts ledger fed;
  shares ← share_output total amounts;
  amount_in ← set_amounts (lg_amount_in ledger) (zip fed shares);
  Ret {| lg_amount_in := amount_in; lg_next_hop_ix := lg_next_hop_ix ledger |}.

Fixpoint advance_each (next_hop_ix : list nat) (fed : list nat) : outcome (list nat) :=
  match fed with
  | [] => Ret next_hop_ix
  | path_ix :: fed =>
      next ← index next_hop_ix path_ix;
      next_hop_ix ← set_index next_hop_ix path_ix (S next);
      advance_each next_hop_ix fed
  end.

Definition ledger_advance (ledger : PathLedger) (fed : list nat) : outcome PathLedger :=
  next_hop_ix ← advance_each (lg_next_hop_ix ledger) fed;
  Ret {| lg_amount_in := lg_amount_in ledger; lg_next_hop_ix := next_hop_ix |}.

Definition spend (balances : gmap Bytes N) (token : Token) (component_id : ComponentId) (amount : N)
    : result AlgorithmError (gmap Bytes N) :=
  let standing := balance balances (token_address_of token) in
  if standing <? amount then Err (plan_error (Overspends component_id amount (token_symbol_of token) standing))
  else Ok (<[token_address_of token := standing - amount]> balances).

(** ** Executing the plan *)

Fixpoint size_branch (branch : list SplitSwap) (standing : gmap HopKey (list nat)) (ledger : PathLedger)
    : outcome (result AlgorithmError (list SplitSwap)) :=
  match branch with
  | [] => Ret (Ok [])
  | swap :: branch =>
      match standing !! hop_key (ss_hop swap) with
      | None => Ret (Err (plan_error (NoPathFeeds (hd_component_id (ss_hop swap)))))
      | Some fed =>
          total ← fed_total ledger fed;
          sized <-? size_branch branch standing ledger;
          Ret (Ok ({| ss_hop := ss_hop swap; ss_split := ss_split swap; ss_amount_in := total |} :: sized))
      end
  end.

Definition feeders (standing : gmap HopKey (list nat)) (swap : SplitSwap) : SplitSwap * list nat :=
  (swap, default [] (standing !! hop_key (ss_hop swap))).

Definition amounts_for_branch (branch : list SplitSwap) (standing : gmap HopKey (list nat)) (ledger : PathLedger)
    (total : N) : outcome (result AlgorithmError (list (SplitSwap * list nat))) :=
  sized <-? size_branch branch standing ledger;
  swaps <-? splits_from_amounts sized total;
  Ret (Ok (feeders standing <$> swaps)).

Inductive StateCapture := Skip | Keep.

Record SimulatedSplitSwap := {
  xs_hop : HopDescriptor;
  xs_split : f64;
  xs_amount_in : N;
  xs_amount_out : N;
  xs_gas : N;
  xs_pre_swap_state : option ZeroGasSim;
}.

Definition run_merged_swap (swap : SplitSwap) market (base_overrides post_swap : MarketOverrides) (capture : StateCapture)
    : result AlgorithmError (SimulatedSplitSwap * ZeroGasSim) :=
  let hop := ss_hop swap in
  let id := hd_component_id hop in
  sim ← freshest post_swap base_overrides market id;
  '(amount, gas, new_state) ← map_simulation_error id
    (zero_gas_swap sim (ss_amount_in swap) (hd_token_in hop) (hd_token_out hop));
  Ok ({| xs_hop := hop; xs_split := ss_split swap; xs_amount_in := ss_amount_in swap;
         xs_amount_out := amount; xs_gas := gas;
         xs_pre_swap_state := match capture with Keep => Some sim | Skip => None end |}, new_state).

Record PlanState := {
  pl_hops_by_token : gmap Bytes (list SplitSwap);
  pl_in_degree : gmap Bytes nat;
  pl_ready : list Bytes;
  pl_ledger : PathLedger;
  pl_balances : gmap Bytes N;
  pl_swaps : list SimulatedSplitSwap;
  pl_post_swap : MarketOverrides;
  pl_total_gas : N;
}.

(** [total_gas.saturating_add(gas.to_u64().unwrap_or(u64::MAX))]. *)
Definition add_gas (total_gas gas : N) : N := N.min u64_MAX (total_gas + N.min u64_MAX gas).

(** One inflow of [token_out] less, and the token when that was the last. *)
Definition settle_inflow (in_degree : gmap Bytes nat) (ready : list Bytes) (token_out : Bytes)
    : gmap Bytes nat * list Bytes :=
  match in_degree !! token_out with
  | None => (in_degree, ready)
  | Some deg =>
      let deg := (deg - 1)%nat in
      (<[token_out := deg]> in_degree, if (deg =? 0)%nat then ready ++ [token_out] else ready)
  end.

Fixpoint rescale_branch (ledger : PathLedger) (sized : list (SplitSwap * list nat)) : outcome PathLedger :=
  match sized with
  | [] => Ret ledger
  | (swap, fed) :: sized => ledger ← rescale ledger fed (ss_amount_in swap); rescale_branch ledger sized
  end.

Section plan.
Context (paths : list PathAllocation) (market : MarketState) (base_overrides : MarketOverrides) (capture : StateCapture).

Definition plan_swap (st : PlanState) (swap : SplitSwap) (fed : list nat) : outcome (result AlgorithmError PlanState) :=
  let hop := ss_hop swap in
  match spend (pl_balances st) (hd_token_in hop) (hd_component_id hop) (ss_amount_in swap) with
  | Err e => Ret (Err e)
  | Ok balances =>
  match run_merged_swap swap market base_overrides (pl_post_swap st) capture with
  | Err e => Ret (Err e)
  | Ok (executed, new_state) =>
      ledger ← rescale (pl_ledger st) fed (xs_amount_out executed);
      ledger ← ledger_advance ledger fed;
      let '(in_degree, ready) := settle_inflow (pl_in_degree st) (pl_ready st) (out_of hop) in
      Ret (Ok {|
        pl_hops_by_token := pl_hops_by_token st;
        pl_in_degree := in_degree;
        pl_ready := ready;
        pl_ledger := ledger;
        pl_balances := credit balances (out_of hop) (xs_amount_out executed);
        pl_swaps := pl_swaps st ++ [executed];
        pl_post_swap := with_override (pl_post_swap st) (hd_component_id hop) new_state;
        pl_total_gas := add_gas (pl_total_gas st) (xs_gas executed);
      |})
  end end.

Fixpoint plan_swaps (st : PlanState) (sized : list (SplitSwap * list nat)) : outcome (result AlgorithmError PlanState) :=
  match sized with
  | [] => Ret (Ok st)
  | (swap, fed) :: sized => st <-? plan_swap st swap fed; plan_swaps st sized
  end.

(** One turn of the loop, on the token it popped. *)
Definition plan_token (st : PlanState) (token : Bytes) : outcome (result AlgorithmError PlanState) :=
  match pl_hops_by_token st !! token with
  | None => Ret (Ok st)
  | Some branch =>
      standing ← standing_at (pl_ledger st) paths token;
      sized <-? amounts_for_branch branch standing (pl_ledger st) (balance (pl_balances st) token);
      ledger ← rescale_branch (pl_ledger st) sized;
      plan_swaps {|
        pl_hops_by_token := delete token (pl_hops_by_token st);
        pl_in_degree := pl_in_degree st;
        pl_ready := pl_ready st;
        pl_ledger := ledger;
        pl_balances := pl_balances st;
        pl_swaps := pl_swaps st;
        pl_post_swap := pl_post_swap st;
        pl_total_gas := pl_total_gas st;
      |} sized
  end.

Definition pop_ready (st : PlanState) (ready : list Bytes) : PlanState := {|
  pl_hops_by_token := pl_hops_by_token st; pl_in_degree := pl_in_degree st; pl_ready := ready;
  pl_ledger := pl_ledger st; pl_balances := pl_balances st; pl_swaps := pl_swaps st;
  pl_post_swap := pl_post_swap st; pl_total_gas := pl_total_gas st |}.

(** [None] when the fuel ran out. *)
Fixpoint plan_loop (fuel : nat) (st : PlanState) : option (outcome (result AlgorithmError PlanState)) :=
  match pl_ready st with
  | [] => Some (Ret (Ok st))
  | token :: ready =>
      match fuel with
      | O => None
      | S fuel =>
          match plan_token (pop_ready st ready) token with
          | Ret (Ok st) => plan_loop fuel st
          | Ret (Err e) => Some (Ret (Err e))
          | Panic => Some Panic
          end
      end
  end.
End plan.

Record SplitExecution := {
  ex_swaps : list SimulatedSplitSwap;
  ex_available : gmap Bytes N;
  ex_post_swap : MarketOverrides;
  ex_total_gas : N;
}.

Definition PlanState_new (paths : list PathAllocation) (start_token : Bytes) (start_amount : N) (ledger : PathLedger)
    : PlanState :=
  let hops_by_token := merge_shared_hops paths in {|
  pl_hops_by_token := hops_by_token;
  pl_in_degree := build_in_degree hops_by_token;
  pl_ready := [start_token];
  pl_ledger := ledger;
  pl_balances := {[ start_token := start_amount ]};
  pl_swaps := [];
  pl_post_swap := ∅;
  pl_total_gas := 0;
|}.

Definition finish_plan (st : PlanState) : result AlgorithmError SplitExecution :=
  if bool_decide (pl_hops_by_token st = ∅)
  then Ok {| ex_swaps := pl_swaps st; ex_available := pl_balances st; ex_post_swap := pl_post_swap st;
             ex_total_gas := pl_total_gas st |}
  else Err (plan_error (DependencyCycle (map_to_list (pl_hops_by_token st)).*1)).

Fixpoint validate_paths (paths : list PathAllocation) : result AlgorithmError unit :=
  match paths with
  | [] => Ok tt
  | path :: paths => _ ← validate_token_cycles path; validate_paths paths
  end.

(** Every token enters the queue at most once, so the start and one turn per swap suffice. *)
Definition plan_fuel (paths : list PathAllocation) : nat := S (length (paths ≫= pa_hops)).

Definition execute_split_plan (paths : list PathAllocation) market (start_token : Bytes) (start_amount : N)
    (base_overrides : MarketOverrides) (capture : StateCapture) : option (outcome (result AlgorithmError SplitExecution)) :=
  match validate_paths paths with
  | Err e => Some (Ret (Err e))
  | Ok _ =>
  match PathLedger_new paths with
  | Err e => Some (Ret (Err e))
  | Ok ledger =>
      (fun run : outcome (result AlgorithmError PlanState) => st <-? run; Ret (finish_plan st))
        <$> plan_loop paths market base_overrides capture (plan_fuel paths)
              (PlanState_new paths start_token start_amount ledger)
  end end.

(** ** What reads a plan *)

Definition build_post_swap_overrides (paths : list PathAllocation) market
    : option (outcome (result AlgorithmError MarketOverrides)) :=
  match head paths ≫= (fun path => head (pa_hops path)) with
  | None => Some (Ret (Ok ∅))
  | Some root_hop =>
      (fun run : outcome (result AlgorithmError SplitExecution) =>
         execution <-? run; Ret (Ok (ex_post_swap execution)))
      <$> execute_split_plan paths market (in_of (sh_descriptor root_hop)) (sum_by pa_amount_in paths) ∅ Skip
  end.

Definition allocation_of (path : list HopDescriptor) (flow_fraction : f64) (amount_in : N) : PathAllocation := {|
  pa_hops := (fun descriptor => {| sh_descriptor := descriptor; sh_amount_out := 0; sh_gas := 0 |}) <$> path;
  pa_flow_fraction := flow_fraction;
  pa_amount_in := amount_in;
  pa_amount_out := 0;
  pa_marginal_price_product := F64.zero;
|}.

Definition allocations_from_descriptors (paths : list (list HopDescriptor)) (fractions : list f64) (total_amount : N)
    : outcome (result AlgorithmError (list PathAllocation)) :=
  if negb (length paths =? length fractions)%nat
  then Ret (Err (plan_error (LengthMismatch (length paths) (length fractions))))
  else
    divided ← fractions_to_amounts total_amount fractions;
    Ret (match divided with
         | Err error => Err (plan_error (FractionsRefused error))
         | Ok amounts =>
             if existsb (fun path : list HopDescriptor => bool_decide (length path = 0%nat)) paths then Err (AE_Other "path has no hops")
             else Ok (zip_with (fun (path : list HopDescriptor) sized => allocation_of path sized.1 sized.2) paths (zip fractions amounts))
         end).

(** The tokens the paths end on. *)
Fixpoint terminal_tokens (paths : list (list HopDescriptor)) : result AlgorithmError (gset Bytes) :=
  match paths with
  | [] => Ok ∅
  | path :: paths =>
      match last path with
      | None => Err (AE_Other "path has no hops")
      | Some hop => terminals ← terminal_tokens paths; Ok ({[ out_of hop ]} ∪ terminals)
      end
  end.

Definition total_standing (available : gmap Bytes N) (terminals : gset Bytes) : N :=
  sum_by (balance available) (elements terminals).

Definition evaluate_total_output (paths : list (list HopDescriptor)) (fractions : list f64) (total_amount : N) market
    (overrides : MarketOverrides) : option (outcome (result AlgorithmError (N * N))) :=
  match head paths ≫= head with
  | None => Some (Ret (Err (AE_Other "paths must not be empty")))
  | Some first_hop =>
  match terminal_tokens paths with
  | Err e => Some (Ret (Err e))
  | Ok terminals =>
  match allocations_from_descriptors paths fractions total_amount with
  | Panic => Some Panic
  | Ret (Err e) => Some (Ret (Err e))
  | Ret (Ok allocations) =>
      (fun run : outcome (result AlgorithmError SplitExecution) =>
         execution <-? run;
         Ret (Ok (total_standing (ex_available execution) terminals, ex_total_gas execution)))
      <$> execute_split_plan allocations market (in_of first_hop) total_amount overrides Skip
  end end end.

(** The swap of the route for one the plan ran, and the tokens it names. *)
Definition route_swap market (executed : SimulatedSplitSwap) : result AlgorithmError Swap :=
  let hop := xs_hop executed in
  match get_component market (hd_component_id hop) with
  | None => Err (AE_DataNotFound "protocol component" (Some (hd_component_id hop)))
  | Some component =>
      match xs_pre_swap_state executed with
      | None => Err (plan_error (KeptNoState (hd_component_id hop)))
      | Some pre_swap_state =>
          Ok (Swap_with_split
                (Swap_new (hd_component_id hop) (protocol_system_of component) (in_of hop) (out_of hop)
                   (xs_amount_in executed) (xs_amount_out executed) (xs_gas executed) component
                   (zs_inner pre_swap_state))
                (xs_split executed))
      end
  end.

Fixpoint route_swaps market (executed : list SimulatedSplitSwap) : result AlgorithmError (list Swap) :=
  match executed with
  | [] => Ok []
  | swap :: executed => s ← route_swap market swap; swaps ← route_swaps market executed; Ok (s :: swaps)
  end.

Definition name_tokens (route_tokens : gmap Bytes Token) (executed : SimulatedSplitSwap) : gmap Bytes Token :=
  let hop := xs_hop executed in
  or_insert_with (or_insert_with route_tokens (in_of hop) (hd_token_in hop)) (out_of hop) (hd_token_out hop).

Definition build_split_route (paths : list PathAllocation) market (order : Order)
    : option (outcome (result AlgorithmError Route)) :=
  (fun run : outcome (result AlgorithmError SplitExecution) =>
     execution <-? run;
     Ret (swaps ← route_swaps market (ex_swaps execution);
          match Route_new swaps (map_to_list (fold_left name_tokens (ex_swaps execution) ∅)) with
          | Ok route => Ok route
          | Err e => Err (AlgorithmError_from e)
          end))
  <$> execute_split_plan paths market (order_token_in order) (order_amount order) ∅ Keep.
End paths.
