(* ===== verification/SplitPlanProofs.v ===== *)
(** * SplitPlanProofs: a split plan ends, and gives each token what it takes

    The execution of [SplitPlan]: it returns without a panic whatever the paths are, the fuel
    suffices, every token released is divided exactly between its swaps, and no token is made
    or lost. *)

From Stdlib Require Import Floats.SpecFloat.
From stdpp Require Import prelude gmap strings list sorting.
From Stdlib Require Import NArith ZArith Lia.
From S2P Require Import Prelude F64 Types Route MarketData SwapCache Algorithm SplitMath Replay SplitPlan.

(** ** Shares are doubles *)

Lemma div_rounded a b : rounded a -> rounded b -> rounded (F64.div a b).
Proof.
  intros Ha Hb. destruct a as [sa|sa| |sa ma ea], b as [sb|sb| |sb mb eb]; try done.
  unfold F64.div, SFdiv. destruct (SFdiv_core_binary _ _ _ _ _ _) as [[mz ez] lz] eqn:Hd.
  apply binary_round_aux_rounded. unfold SFdiv_core_binary in Hd.
  set (s := (_ - Z.min _ _)%Z) in Hd. set (m' := match s with Z.pos _ => _ | _ => _ end) in Hd.
  assert (0 <= m')%Z as Hm.
  { subst m'. destruct s as [|p|p]; [lia| |lia]. rewrite Z.shiftl_mul_pow2 by lia. lia. }
  destruct (Z.div_eucl m' (Z.pos mb)) as [q r] eqn:Hq. injection Hd as <- _ _.
  pose proof (Z.div_pos m' (Z.pos mb) Hm ltac:(lia)) as Hp. unfold Z.div in Hp. by rewrite Hq in Hp.
Qed.

Lemma of_N_rounded n : rounded (F64.of_N n).
Proof.
  destruct n as [|p]; [done|]. unfold F64.of_N, binary_normalize, binary_round.
  destruct (shl_align _ _ _) as [mz ez]. apply binary_round_aux_rounded. lia.
Qed.

Lemma share_of_rounded part total : rounded (share_of part total).
Proof. unfold share_of. destruct (F64.gtb _ _); [|done]. apply div_rounded; apply of_N_rounded. Qed.

(** ** The ledger stays in range *)

Section ledger.
Implicit Types (ledger : PathLedger) (fed : list nat).

Record ledger_ok (n : nat) ledger : Prop := {
  lo_amounts : length (lg_amount_in ledger) = n;
  lo_next : length (lg_next_hop_ix ledger) = n;
}.

Definition in_range (n : nat) (fed : list nat) : Prop := Forall (fun ix => (ix < n)%nat) fed.

Lemma index_lt {A} (l : list A) i : (i < length l)%nat -> exists x, index l i = Ret x /\ l !! i = Some x.
Proof. intros [x Hx]%lookup_lt_is_Some. exists x. unfold index. by rewrite Hx. Qed.

Lemma set_index_lt {A} (l : list A) i (x : A) : (i < length l)%nat -> set_index l i x = Ret (<[i := x]> l).
Proof. intros [y Hy]%lookup_lt_is_Some. unfold set_index. by rewrite Hy. Qed.

Lemma fed_amounts_ret n ledger fed : ledger_ok n ledger -> in_range n fed ->
  exists amounts, fed_amounts ledger fed = Ret amounts /\ length amounts = length fed.
Proof.
  intros Hl Hf. unfold fed_amounts. induction Hf as [|ix fed Hix Hf (amounts & IH & Hlen)]; [by eexists|].
  destruct (index_lt (lg_amount_in ledger) ix) as (x & Hx & _); [by rewrite (lo_amounts _ _ Hl)|].
  cbn. rewrite Hx. cbn. rewrite IH. cbn. eexists. split; [done|]. cbn. by rewrite Hlen.
Qed.

Lemma set_amounts_ret n amounts shares : length amounts = n -> in_range n shares.*1 ->
  exists amounts', set_amounts amounts shares = Ret amounts' /\ length amounts' = n.
Proof.
  revert amounts. induction shares as [|[ix share] shares IH]; intros amounts Hl Hf; [by eexists|].
  apply Forall_cons in Hf as [Hix Hf]. cbn [set_amounts]. rewrite set_index_lt by (by rewrite Hl). cbn.
  apply IH; [by rewrite length_insert|done].
Qed.

Lemma rescale_ret n ledger fed total : ledger_ok n ledger -> in_range n fed ->
  exists ledger', rescale ledger fed total = Ret ledger' /\ ledger_ok n ledger'.
Proof.
  intros Hl Hf. destruct (fed_amounts_ret n ledger fed Hl Hf) as (amounts & Ha & Hlen). unfold rescale. rewrite Ha.
  cbn [mbind outcome_bind]. destruct (share_output_lemma total amounts) as (shares & -> & Hs & _). cbn [mbind outcome_bind].
  destruct (set_amounts_ret n (lg_amount_in ledger) (zip fed shares)) as (amounts' & -> & Hn).
  - apply Hl.
  - by rewrite fst_zip by lia.
  - eexists. split; [done|]. split; [done|apply Hl].
Qed.

Lemma advance_each_ret n next fed : length next = n -> in_range n fed ->
  exists next', advance_each next fed = Ret next' /\ length next' = n.
Proof.
  revert next. induction fed as [|ix fed IH]; intros next Hl Hf; [by eexists|]. apply Forall_cons in Hf as [Hix Hf].
  cbn [advance_each]. destruct (index_lt next ix) as (x & -> & _); [by rewrite Hl|]. cbn.
  rewrite set_index_lt by (by rewrite Hl). cbn. apply IH; [by rewrite length_insert|done].
Qed.

Lemma ledger_advance_ret n ledger fed : ledger_ok n ledger -> in_range n fed ->
  exists ledger', ledger_advance ledger fed = Ret ledger' /\ ledger_ok n ledger'.
Proof.
  intros Hl Hf. unfold ledger_advance.
  destruct (advance_each_ret n (lg_next_hop_ix ledger) fed (lo_next _ _ Hl) Hf) as (next & -> & Hn).
  eexists. split; [done|]. split; [apply Hl|done].
Qed.
End ledger.

(** ** Dividing a token between its swaps *)

Section branch.
Context `{TychoMarket} `{!Messages} `{!TychoSwaps} `{!SplitMessages}.
Implicit Types (ledger : PathLedger) (paths : list PathAllocation).

Definition all_in_range (n : nat) (standing : gmap HopKey (list nat)) : Prop := map_Forall (fun _ => in_range n) standing.

Lemma push_to_in_range (n : nat) (standing : gmap HopKey (list nat)) (key : HopKey) (ix : nat) : all_in_range n standing -> (ix < n)%nat ->
  all_in_range n (push_to standing key ix).
Proof.
  intros Hs Hix. apply map_Forall_insert_2; [|done]. apply Forall_app. split; [|by apply Forall_singleton].
  destruct (standing !! key) as [fed|] eqn:Hk; [exact (Hs _ _ Hk)|apply Forall_nil_2].
Qed.

Lemma standing_from_ret n ledger paths path_ix token by_hop :
  ledger_ok n ledger -> (path_ix + length paths = n)%nat -> all_in_range n by_hop ->
  exists standing, standing_from ledger paths path_ix token by_hop = Ret standing /\ all_in_range n standing.
Proof.
  intros Hl. revert path_ix by_hop. induction paths as [|path paths IH]; intros path_ix by_hop Hn Hr; [by eexists|].
  cbn [standing_from length] in *. destruct (index_lt (lg_next_hop_ix ledger) path_ix) as (next & -> & _).
  { rewrite (lo_next _ _ Hl). lia. }
  cbn [mbind outcome_bind]. apply IH; [lia|]. destruct (hop_at _ _ _); [|done]. apply push_to_in_range; [done|lia].
Qed.

Lemma size_branch_ret n branch standing ledger : ledger_ok n ledger -> all_in_range n standing ->
  exists r, size_branch branch standing ledger = Ret r /\
    forall sized, r = Ok sized -> ss_hop <$> sized = ss_hop <$> branch.
Proof.
  intros Hl Hs. induction branch as [|swap branch (r & IH & Hr)].
  { eexists. split; [done|]. by intros sized [= <-]. }
  cbn [size_branch]. destruct (standing !! _) as [fed|] eqn:Hf; [|by eexists].
  destruct (fed_amounts_ret n ledger fed Hl (Hs _ _ Hf)) as (amounts & Ha & _). unfold fed_total. rewrite Ha.
  cbn [mbind outcome_bind]. rewrite IH. destruct r as [sized|e]; cbn [try_bind]; [|by eexists].
  eexists. split; [done|]. intros sized' [= <-]. rewrite !fmap_cons. cbn [ss_hop]. by rewrite (Hr sized).
Qed.

(** The swaps of a token once they are sized: which hops, and how the token is divided. *)
Record branch_sized (branch sized : list SplitSwap) (total : N) : Prop := {
  bs_hops : ss_hop <$> sized ≡ₚ ss_hop <$> branch;
  bs_total : sized <> [] -> total_of (ss_amount_in <$> sized) = total;
  bs_parts : forall ix swap, sized !! ix = Some swap -> (S ix < length sized)%nat ->
    ss_amount_in swap = total * split_numerator (ss_split swap) / SCALE;
  bs_last : forall ix swap, sized !! ix = Some swap -> S ix = length sized -> ss_split swap = F64.zero;
  bs_rounded : Forall (fun swap => rounded (ss_split swap)) sized;
}.

Lemma split_fractions_length hops total : length (split_fractions hops total) = length hops.
Proof. unfold split_fractions. apply length_imap. Qed.

Lemma split_fractions_rounded hops total : Forall rounded (split_fractions hops total).
Proof.
  unfold split_fractions. apply Forall_lookup_2. intros i f Hi. apply list_lookup_imap_Some in Hi as (swap & _ & ->).
  destruct (_ =? _)%nat; [done|apply share_of_rounded].
Qed.

Lemma divided_lookup total fractions amounts ix f amount : divided total fractions = Ok amounts ->
  fractions !! ix = Some f -> amounts !! ix = Some amount -> (S ix < length fractions)%nat ->
  amount = total * split_numerator f / SCALE.
Proof.
  intros Hd Hf Ha Hlt. unfold divided in Hd. case_bool_decide; [done|].
  destruct (_ <=? _); [|done]. injection Hd as <-. unfold leading_parts in Ha.
  rewrite lookup_app_l in Ha by (rewrite length_fmap, length_take; lia).
  rewrite list_lookup_fmap, lookup_take_lt, Hf in Ha by lia. by injection Ha.
Qed.

Lemma with_amount_hops hops sizes : length hops = length sizes ->
  ss_hop <$> zip_with with_amount hops sizes = ss_hop <$> hops.
Proof.
  revert sizes. induction hops as [|swap hops IH]; intros [|size sizes] Hl; try done.
  cbn [zip_with]. rewrite !fmap_cons, IH by (injection Hl; auto). done.
Qed.

Lemma with_amount_amounts hops fractions amounts : length hops = length fractions -> length amounts = length hops ->
  ss_amount_in <$> zip_with with_amount hops (zip fractions amounts) = amounts.
Proof.
  revert fractions amounts. induction hops as [|swap hops IH]; intros [|f fractions] [|a amounts] Hl Ha; try done.
  cbn [zip_with]. rewrite fmap_cons. cbn [ss_amount_in with_amount fst snd]. f_equal. apply IH; cbn in *; lia.
Qed.

Lemma splits_from_amounts_ret hops total :
  exists r, splits_from_amounts hops total = Ret r /\
    forall sized, r = Ok sized -> branch_sized hops sized total.
Proof.
  unfold splits_from_amounts. set (sorted := sort_desc ss_amount_in hops).
  destruct (fractions_to_amounts_lemma total (split_fractions sorted total)) as [-> Hd];
    [apply split_fractions_rounded|]. cbn [mbind outcome_bind].
  destruct (divided total (split_fractions sorted total)) as [amounts|error] eqn:Hdiv; [|by eexists].
  destruct Hd as [Hlen Hsum]. rewrite split_fractions_length in Hlen.
  eexists. split; [done|]. intros sized [= <-].
  set (fractions := split_fractions sorted total) in *.
  assert (length fractions = length sorted) as Hfl by apply split_fractions_length.
  assert (length (zip fractions amounts) = length sorted) as Hzl by (rewrite length_zip; lia).
  assert (length (zip_with with_amount sorted (zip fractions amounts)) = length sorted) as Hl
    by (rewrite length_zip_with; lia).
  assert (forall ix swap, zip_with with_amount sorted (zip fractions amounts) !! ix = Some swap ->
    exists s f a, sorted !! ix = Some s /\ fractions !! ix = Some f /\ amounts !! ix = Some a /\ swap = with_amount s (f, a)) as Hix.
  { intros ix swap Hs. apply lookup_zip_with_Some in Hs as (s & [f a] & -> & Hs & Hz).
    apply lookup_zip_with_Some in Hz as (f' & a' & [= -> ->] & Hf & Ha). by exists s, f', a'. }
  split.
  - assert (ss_hop <$> zip_with with_amount sorted (zip fractions amounts) = ss_hop <$> sorted) as ->.
    { apply with_amount_hops. lia. }
    apply fmap_Permutation, sort_desc_perm.
  - intros _. rewrite with_amount_amounts by lia. exact Hsum.
  - intros ix swap Hs Hlt. destruct (Hix ix swap Hs) as (s & f & a & _ & Hf & Ha & ->). cbn.
    apply (divided_lookup total fractions amounts ix); [done..|lia].
  - intros ix swap Hs Hlt. destruct (Hix ix swap Hs) as (s & f & a & _ & Hf & Ha & ->). cbn.
    unfold fractions, split_fractions in Hf. apply list_lookup_imap_Some in Hf as (s' & _ & ->).
    destruct (Nat.eqb_spec ix (length sorted - 1)); [done|lia].
  - apply Forall_lookup_2. intros ix swap Hs. destruct (Hix ix swap Hs) as (s & f & a & _ & Hf & _ & ->).
    cbn. by eapply Forall_lookup_1 in Hf; [|apply split_fractions_rounded].
Qed.
End branch.

(** ** The loop ends *)

Definition branches_size `{Tycho} (branches : gmap Bytes (list SplitSwap)) : nat :=
  sum_list (length ∘ snd <$> map_to_list branches).

Section branches.
Context `{Tycho}.
Implicit Types (branches : gmap Bytes (list SplitSwap)) (swaps : list SplitSwap).

Lemma branches_size_insert branches token branch : branches !! token = None ->
  branches_size (<[token := branch]> branches) = (length branch + branches_size branches)%nat.
Proof. intros Hn. unfold branches_size. by rewrite map_to_list_insert. Qed.

Lemma branches_size_delete branches token branch : branches !! token = Some branch ->
  branches_size branches = (length branch + branches_size (delete token branches))%nat.
Proof.
  intros Hb. rewrite <- (branches_size_insert (delete token branches) token branch) by apply lookup_delete_eq.
  f_equal. symmetry. by apply insert_delete_id.
Qed.

Lemma branches_size_push branches token swap : branches_size (push_to branches token swap) = S (branches_size branches).
Proof.
  unfold push_to. destruct (branches !! token) as [branch|] eqn:Hb; cbn [default].
  - rewrite <- insert_delete_eq, branches_size_insert by apply lookup_delete_eq.
    rewrite (branches_size_delete branches token branch Hb), length_app. cbn. lia.
  - by rewrite branches_size_insert.
Qed.

Lemma branches_size_collect swaps key branches :
  branches_size (fold_left (fun collections swap => push_to collections (key swap) swap) swaps branches)
  = (length swaps + branches_size branches)%nat.
Proof.
  revert branches. induction swaps as [|swap swaps IH]; intros branches; [done|]. cbn [fold_left length].
  rewrite IH, branches_size_push. lia.
Qed.

Lemma merge_sort_fmap_lookup branches token sorted : (merge_sort key_before <$> branches) !! token = Some sorted ->
  exists branch, branches !! token = Some branch /\ sorted ≡ₚ branch.
Proof.
  rewrite lookup_fmap. intros (branch & Hb & ->)%fmap_Some. exists branch. split; [done|]. apply merge_sort_Permutation.
Qed.

Lemma branches_size_sort branches : branches_size (merge_sort key_before <$> branches) = branches_size branches.
Proof.
  unfold branches_size. rewrite map_to_list_fmap, <- list_fmap_compose. f_equal. apply list_fmap_ext.
  intros i [token branch] _. cbn. apply Permutation_length, merge_sort_Permutation.
Qed.

Lemma merged_hops_size (hops : list HopDescriptor) m :
  (size (fold_left (fun hops hop => or_insert_with hops (hop_key hop) (SplitSwap_new hop)) hops m)
   <= length hops + size m)%nat.
Proof.
  revert m. induction hops as [|hop hops IH]; intros m; [done|]. cbn [fold_left length].
  etrans; [apply IH|]. unfold or_insert_with. destruct (m !! hop_key hop) eqn:Hm; [lia|].
  rewrite map_size_insert_None by done. lia.
Qed.

Lemma merge_shared_hops_size (paths : list PathAllocation) :
  (branches_size (merge_shared_hops paths) <= length (paths ≫= pa_hops))%nat.
Proof.
  unfold merge_shared_hops. rewrite branches_size_sort, branches_size_collect, length_fmap, length_map_to_list.
  pose proof (merged_hops_size (sh_descriptor <$> (paths ≫= pa_hops)) ∅) as Hs.
  rewrite length_fmap, map_size_empty in Hs. change (branches_size ∅) with 0%nat. unfold merged_hops. lia.
Qed.
End branches.

Section loop.
Context `{TychoMarket} `{!Messages} `{!TychoSwaps} `{!SplitMessages}.
Context (paths : list PathAllocation) (market : MarketState) (base_overrides : MarketOverrides) (capture : StateCapture).
Let n : nat := length paths.

Definition sized_in_range (sized : list (SplitSwap * list nat)) : Prop := Forall (fun entry => in_range n entry.2) sized.

Lemma feeders_in_range standing swaps : all_in_range n standing -> sized_in_range (feeders standing <$> swaps).
Proof.
  intros Hs. apply Forall_fmap, Forall_true. intros swap. cbn.
  destruct (standing !! _) as [fed|] eqn:Hf; [exact (Hs _ _ Hf)|apply Forall_nil_2].
Qed.

Lemma amounts_for_branch_ret branch standing ledger total : ledger_ok n ledger -> all_in_range n standing ->
  exists r, amounts_for_branch branch standing ledger total = Ret r /\
    forall sized, r = Ok sized -> sized_in_range sized /\ branch_sized branch sized.*1 total.
Proof.
  intros Hl Hs. unfold amounts_for_branch. destruct (size_branch_ret n branch standing ledger Hl Hs) as (r & -> & Hr).
  destruct r as [swaps|e]; cbn [try_bind]; [|by eexists].
  destruct (splits_from_amounts_ret swaps total) as (r & -> & Hsp). destruct r as [sized|e]; cbn [try_bind]; [|by eexists].
  eexists. split; [done|]. intros ? [= <-]. split; [by apply feeders_in_range|].
  assert ((feeders standing <$> sized).*1 = sized) as ->
    by (rewrite <- list_fmap_compose; apply list_fmap_id).
  destruct (Hsp sized eq_refl) as [Hh Ht Hp Hla Hro]. split; try done. by rewrite Hh, (Hr swaps).
Qed.

Lemma rescale_branch_ret ledger sized : ledger_ok n ledger -> sized_in_range sized ->
  exists ledger', rescale_branch ledger sized = Ret ledger' /\ ledger_ok n ledger'.
Proof.
  revert ledger. induction sized as [|[swap fed] sized IH]; intros ledger Hl Hf; [by eexists|].
  apply Forall_cons in Hf as [Hfed Hf]. cbn [rescale_branch].
  destruct (rescale_ret n ledger fed (ss_amount_in swap) Hl Hfed) as (ledger' & -> & Hl').
  cbn [mbind outcome_bind]. by apply IH.
Qed.

Lemma settle_inflow_ready in_degree ready token :
  (length (settle_inflow in_degree ready token).2 <= S (length ready))%nat.
Proof.
  unfold settle_inflow. destruct (in_degree !! token) as [deg|]; cbn; [|lia].
  destruct (_ =? _)%nat; [rewrite length_app; cbn|]; lia.
Qed.

Lemma plan_swap_ret st swap fed : ledger_ok n (pl_ledger st) -> in_range n fed ->
  exists r, plan_swap market base_overrides capture st swap fed = Ret r /\
    forall st', r = Ok st' -> ledger_ok n (pl_ledger st') /\ pl_hops_by_token st' = pl_hops_by_token st /\
      (length (pl_ready st') <= S (length (pl_ready st)))%nat.
Proof.
  intros Hl Hf. unfold plan_swap. destruct (spend _ _ _ _) as [balances|e]; [|by eexists].
  destruct (run_merged_swap _ _ _ _ _) as [[executed new_state]|e]; [|by eexists].
  destruct (rescale_ret n (pl_ledger st) fed (xs_amount_out executed) Hl Hf) as (ledger' & -> & Hl').
  cbn [mbind outcome_bind]. destruct (ledger_advance_ret n ledger' fed Hl' Hf) as (ledger'' & -> & Hl'').
  cbn [mbind outcome_bind]. pose proof (settle_inflow_ready (pl_in_degree st) (pl_ready st) (out_of (ss_hop swap))) as Hr.
  destruct (settle_inflow _ _ _) as [in_degree ready]. eexists. split; [done|]. by intros st' [= <-].
Qed.

Lemma plan_swaps_ret sized st : ledger_ok n (pl_ledger st) -> sized_in_range sized ->
  exists r, plan_swaps market base_overrides capture st sized = Ret r /\
    forall st', r = Ok st' -> ledger_ok n (pl_ledger st') /\ pl_hops_by_token st' = pl_hops_by_token st /\
      (length (pl_ready st') <= length sized + length (pl_ready st))%nat.
Proof.
  revert st. induction sized as [|[swap fed] sized IH]; intros st Hl Hf.
  - eexists. split; [done|]. by intros st' [= <-].
  - apply Forall_cons in Hf as [Hfed Hf]. cbn [plan_swaps length].
    destruct (plan_swap_ret st swap fed Hl Hfed) as (r & -> & Hr). destruct r as [st1|e]; cbn [try_bind]; [|by eexists].
    destruct (Hr st1 eq_refl) as (Hl1 & Hh1 & Hlen1). destruct (IH st1 Hl1 Hf) as (r & -> & Hr').
    eexists. split; [done|]. intros st' ->. destruct (Hr' st' eq_refl) as (Hl2 & Hh2 & Hlen2).
    split_and!; [done|congruence|lia].
Qed.

(** What is left to do: the tokens that wait and the swaps that were not sized yet. *)
Definition plan_left (st : PlanState) : nat := (length (pl_ready st) + branches_size (pl_hops_by_token st))%nat.

Lemma plan_token_ret st token : ledger_ok n (pl_ledger st) ->
  exists r, plan_token paths market base_overrides capture st token = Ret r /\
    forall st', r = Ok st' -> ledger_ok n (pl_ledger st') /\ (plan_left st' <= plan_left st)%nat.
Proof.
  intros Hl. unfold plan_token. destruct (pl_hops_by_token st !! token) as [branch|] eqn:Hb.
  2: { eexists. split; [done|]. by intros st' [= <-]. }
  destruct (standing_from_ret n (pl_ledger st) paths 0 token ∅ Hl eq_refl) as (standing & Hs & Hr); [apply map_Forall_empty|].
  unfold standing_at. rewrite Hs. cbn [mbind outcome_bind].
  destruct (amounts_for_branch_ret branch standing (pl_ledger st) (balance (pl_balances st) token) Hl Hr) as (r & -> & Hsz).
  destruct r as [sized|e]; cbn [try_bind]; [|by eexists]. destruct (Hsz sized eq_refl) as [Hin Hbs].
  destruct (rescale_branch_ret (pl_ledger st) sized Hl Hin) as (ledger' & -> & Hl'). cbn [mbind outcome_bind].
  set (st1 := {| pl_hops_by_token := _ |}). destruct (plan_swaps_ret sized st1 Hl' Hin) as (r & -> & Hr').
  eexists. split; [done|]. intros st' ->. destruct (Hr' st' eq_refl) as (Hl2 & Hh2 & Hlen2). split; [done|].
  unfold plan_left. rewrite Hh2, (branches_size_delete (pl_hops_by_token st) token branch Hb). subst st1. cbn in *.
  assert (length sized = length branch) as Hlen; [|lia].
  pose proof (Permutation_length (bs_hops _ _ _ Hbs)) as Hp. by rewrite !length_fmap in Hp.
Qed.

Lemma plan_loop_ret fuel st : ledger_ok n (pl_ledger st) -> (plan_left st <= fuel)%nat ->
  exists r, plan_loop paths market base_overrides capture fuel st = Some (Ret r).
Proof.
  revert st. induction fuel as [|fuel IH]; intros st Hl Hle; unfold plan_left in Hle; cbn [plan_loop];
    destruct (pl_ready st) as [|token ready] eqn:Hr; cbn [length] in Hle; [by eexists|lia|by eexists|].
  destruct (plan_token_ret (pop_ready st ready) token Hl) as (r & -> & Hst). destruct r as [st'|e]; [|by eexists].
  destruct (Hst st' eq_refl) as [Hl' Hleft]. apply IH; [done|]. unfold plan_left in *. cbn in Hleft. lia.
Qed.
End loop.

(** ** What a swap of the plan does *)

Section shape.
Context `{TychoMarket} `{!Messages} `{!TychoSwaps} `{!SplitMessages}.
Context (market : MarketState) (base_overrides : MarketOverrides) (capture : StateCapture).
Implicit Types (st : PlanState) (swap : SplitSwap) (x : SimulatedSplitSwap).

Record plan_swap_does st st' swap x : Prop := {
  pw_swaps : pl_swaps st' = pl_swaps st ++ [x];
  pw_hop : xs_hop x = ss_hop swap;
  pw_split : xs_split x = ss_split swap;
  pw_amount : xs_amount_in x = ss_amount_in swap;
  pw_standing : ss_amount_in swap <= balance (pl_balances st) (in_of (ss_hop swap));
  pw_balances : pl_balances st' =
    credit (<[in_of (ss_hop swap) := balance (pl_balances st) (in_of (ss_hop swap)) - ss_amount_in swap]> (pl_balances st))
      (out_of (ss_hop swap)) (xs_amount_out x);
  pw_hops : pl_hops_by_token st' = pl_hops_by_token st;
}.

Lemma plan_swap_shape st st' swap fed : plan_swap market base_overrides capture st swap fed = Ret (Ok st') ->
  exists x, plan_swap_does st st' swap x.
Proof.
  intros Hrun. unfold plan_swap in Hrun. destruct (spend _ _ _ _) as [balances|e] eqn:Hsp; [|done].
  destruct (run_merged_swap _ _ _ _ _) as [[x new_state]|e] eqn:Hmr; [|done].
  apply bind_Ret in Hrun as (ledger & _ & Hrun). apply bind_Ret in Hrun as (ledger' & _ & Hrun).
  destruct (settle_inflow _ _ _) as [in_degree ready]. injection Hrun as <-.
  unfold run_merged_swap in Hmr. apply bind_Ok in Hmr as (sim & _ & Hmr).
  apply bind_Ok in Hmr as ([[amount gas] state'] & _ & [= <- <-]).
  unfold spend in Hsp. fold (in_of (ss_hop swap)) in Hsp.
  destruct (N.ltb_spec (balance (pl_balances st) (in_of (ss_hop swap))) (ss_amount_in swap)); [done|].
  injection Hsp as <-. by eexists.
Qed.

Lemma plan_swaps_shape st st' sized : plan_swaps market base_overrides capture st sized = Ret (Ok st') ->
  exists new, pl_swaps st' = pl_swaps st ++ new /\
    Forall2 (fun x swap => xs_hop x = ss_hop swap /\ xs_split x = ss_split swap /\ xs_amount_in x = ss_amount_in swap)
      new sized.*1 /\
    pl_hops_by_token st' = pl_hops_by_token st.
Proof.
  revert st. induction sized as [|[swap fed] sized IH]; intros st Hrun; cbn [plan_swaps] in Hrun.
  { injection Hrun as <-. exists []. rewrite app_nil_r. by split_and!. }
  apply try_bind_Ok in Hrun as (st1 & Hswap & Hrun). destruct (plan_swap_shape _ _ _ _ Hswap) as (x & Hsh).
  destruct (IH st1 Hrun) as (new & Hnew & Hf & Hh). exists (x :: new).
  rewrite Hnew, (pw_swaps _ _ _ _ Hsh), <- app_assoc. split_and!; [done| |by rewrite Hh; apply Hsh].
  constructor; [split_and!; apply Hsh|done].
Qed.
End shape.

(** ** What a turn of the loop does *)

Section turn.
Context `{TychoMarket} `{!Messages} `{!TychoSwaps} `{!SplitMessages}.
Context (paths : list PathAllocation) (market : MarketState) (base_overrides : MarketOverrides) (capture : StateCapture).
Implicit Types (st : PlanState) (x : SimulatedSplitSwap).

(** The swaps wait under the token they take. *)
Definition hops_keyed (branches : gmap Bytes (list SplitSwap)) : Prop :=
  map_Forall (fun token branch => Forall (fun swap => in_of (ss_hop swap) = token) branch) branches.

(** A released token: its swaps sized and executed. *)
Record turn_does st st' (token : Address) (branch : list SplitSwap) (sized : list (SplitSwap * list nat)) st1 : Prop := {
  tu_branch : pl_hops_by_token st !! token = Some branch;
  tu_sized : branch_sized branch sized.*1 (balance (pl_balances st) token);
  tu_hops : pl_hops_by_token st1 = delete token (pl_hops_by_token st);
  tu_balances : pl_balances st1 = pl_balances st;
  tu_swaps : pl_swaps st1 = pl_swaps st;
  tu_post_swap : pl_post_swap st1 = pl_post_swap st;
  tu_ready : pl_ready st1 = pl_ready st;
  tu_total_gas : pl_total_gas st1 = pl_total_gas st;
  tu_run : plan_swaps market base_overrides capture st1 sized = Ret (Ok st');
}.

Lemma plan_token_shape st st' token : ledger_ok (length paths) (pl_ledger st) ->
  plan_token paths market base_overrides capture st token = Ret (Ok st') ->
  pl_hops_by_token st !! token = None /\ st' = st \/ exists branch sized st1, turn_does st st' token branch sized st1.
Proof.
  intros Hl Hrun. unfold plan_token in Hrun. destruct (pl_hops_by_token st !! token) as [branch|] eqn:Hb.
  2: { left. by injection Hrun as <-. }
  right. apply bind_Ret in Hrun as (standing & Hs & Hrun). apply try_bind_Ok in Hrun as (sized & Hsz & Hrun).
  apply bind_Ret in Hrun as (ledger & _ & Hrun). exists branch, sized. eexists. split; [done| | | | | | | |exact Hrun]; try done.
  destruct (standing_from_ret (length paths) (pl_ledger st) paths 0 token ∅ Hl eq_refl) as (standing' & Hs' & Hr);
    [apply map_Forall_empty|]. unfold standing_at in Hs. rewrite Hs in Hs'. injection Hs' as <-.
  destruct (amounts_for_branch_ret paths branch standing (pl_ledger st) (balance (pl_balances st) token) Hl Hr) as (r & Hr' & Hsp).
  rewrite Hsz in Hr'. injection Hr' as <-. by apply Hsp.
Qed.

Lemma hops_keyed_delete branches token : hops_keyed branches -> hops_keyed (delete token branches).
Proof. apply map_Forall_delete. Qed.

Lemma turn_new st st' token branch sized st1 : hops_keyed (pl_hops_by_token st) ->
  turn_does st st' token branch sized st1 ->
  exists new, pl_swaps st' = pl_swaps st ++ new /\ Forall (fun x => in_of (xs_hop x) = token) new /\
    xs_amount_in <$> new = ss_amount_in <$> sized.*1 /\ pl_hops_by_token st' = delete token (pl_hops_by_token st).
Proof.
  intros Hk Ht. destruct (plan_swaps_shape _ _ _ _ _ _ (tu_run _ _ _ _ _ _ Ht)) as (new & Hnew & Hf & Hh).
  exists new. rewrite <- (tu_swaps _ _ _ _ _ _ Ht), <- (tu_hops _ _ _ _ _ _ Ht). split_and!; [done| | |done].
  - assert (Forall (fun swap => in_of (ss_hop swap) = token) sized.*1) as Hs.
    { apply Forall_forall. intros swap Hin.
      assert (ss_hop swap ∈ ss_hop <$> branch) as Hb
        by (rewrite <- (bs_hops _ _ _ (tu_sized _ _ _ _ _ _ Ht)); by apply list_elem_of_fmap_2).
      apply list_elem_of_fmap in Hb as (swap' & -> & Hb).
      pose proof (Hk _ _ (tu_branch _ _ _ _ _ _ Ht)) as Hall. rewrite Forall_forall in Hall. by apply Hall. }
    clear Hnew. induction Hf as [|x swap new swaps [E _] Hf IH]; [done|]. apply Forall_cons in Hs as [Hs1 Hs2].
    constructor; [by rewrite E|by apply IH].
  - clear Hnew. induction Hf as [|x swap new swaps (_ & _ & E) Hf IH]; [done|]. by rewrite !fmap_cons, E, IH.
Qed.

(** The swaps of the rest of the loop all take a token that still waits. *)
Lemma plan_loop_new fuel st stf : ledger_ok (length paths) (pl_ledger st) -> hops_keyed (pl_hops_by_token st) ->
  plan_loop paths market base_overrides capture fuel st = Some (Ret (Ok stf)) ->
  exists new, pl_swaps stf = pl_swaps st ++ new /\
    Forall (fun x => is_Some (pl_hops_by_token st !! in_of (xs_hop x))) new.
Proof.
  revert st. induction fuel as [|fuel IH]; intros st Hl Hk Hrun; cbn [plan_loop] in Hrun;
    destruct (pl_ready st) as [|token ready]; try done.
  1, 2: injection Hrun as <-; exists []; by rewrite app_nil_r.
  destruct (plan_token _ _ _ _ _ _) as [[st'|e]|] eqn:Ht; try done.
  destruct (plan_token_ret paths market base_overrides capture (pop_ready st ready) token Hl) as (r & Hr & Hok).
  rewrite Ht in Hr. injection Hr as <-. destruct (Hok st' eq_refl) as [Hl' _].
  destruct (plan_token_shape (pop_ready st ready) st' token Hl Ht) as [[_ ->]|(branch & sized & st1 & Hturn)].
  { by apply (IH (pop_ready st ready)). }
  destruct (turn_new (pop_ready st ready) _ _ _ _ _ Hk Hturn) as (new & Hnew & Hin & _ & Hh).
  destruct (IH st' Hl') as (new' & Hnew' & Hall'); [by rewrite Hh; apply hops_keyed_delete|done|].
  exists (new ++ new'). rewrite Hnew', Hnew, <- app_assoc. split; [done|]. apply Forall_app. split.
  - eapply Forall_impl; [exact Hin|]. intros x ->. exists branch. exact (tu_branch _ _ _ _ _ _ Hturn).
  - eapply Forall_impl; [exact Hall'|]. intros x. rewrite Hh. intros [b [_ Hb]%lookup_delete_Some]. by exists b.
Qed.
End turn.

(** ** Keeping the states changes nothing else *)

Definition forget `{Tycho} (x : SimulatedSplitSwap) : SimulatedSplitSwap := {|
  xs_hop := xs_hop x; xs_split := xs_split x; xs_amount_in := xs_amount_in x; xs_amount_out := xs_amount_out x;
  xs_gas := xs_gas x; xs_pre_swap_state := None |}.

Definition forget_states `{Tycho} (st : PlanState) : PlanState := {|
  pl_hops_by_token := pl_hops_by_token st; pl_in_degree := pl_in_degree st; pl_ready := pl_ready st;
  pl_ledger := pl_ledger st; pl_balances := pl_balances st; pl_swaps := forget <$> pl_swaps st;
  pl_post_swap := pl_post_swap st; pl_total_gas := pl_total_gas st |}.

Definition map_ok {E A B} (f : A -> B) (m : outcome (result E A)) : outcome (result E B) :=
  match m with Ret (Ok a) => Ret (Ok (f a)) | Ret (Err e) => Ret (Err e) | Panic => Panic end.

Section forget.
Context `{TychoMarket} `{!Messages} `{!TychoSwaps} `{!SplitMessages}.
Context (paths : list PathAllocation) (market : MarketState) (base_overrides : MarketOverrides).
Implicit Types (st : PlanState).

Lemma plan_swap_forget st swap fed : plan_swap market base_overrides Skip (forget_states st) swap fed
  = map_ok forget_states (plan_swap market base_overrides Keep st swap fed).
Proof.
  unfold plan_swap. cbn [pl_balances pl_post_swap pl_ledger pl_in_degree pl_ready forget_states].
  destruct (spend _ _ _ _) as [balances|e]; [|done]. unfold run_merged_swap.
  destruct (freshest _ _ _ _) as [sim|e]; [|done]. cbn [mbind result_bind].
  destruct (map_simulation_error _ _) as [[[amount gas] state]|e]; [|done]. cbn [mbind result_bind xs_amount_out].
  destruct (rescale _ _ _) as [ledger|]; [|done]. cbn [mbind outcome_bind].
  destruct (ledger_advance _ _) as [ledger'|]; [|done]. cbn [mbind outcome_bind].
  destruct (settle_inflow _ _ _) as [in_degree ready]. cbn. unfold forget_states. cbn. by rewrite fmap_app.
Qed.

Lemma plan_swaps_forget sized st : plan_swaps market base_overrides Skip (forget_states st) sized
  = map_ok forget_states (plan_swaps market base_overrides Keep st sized).
Proof.
  revert st. induction sized as [|[swap fed] sized IH]; intros st; [done|]. cbn [plan_swaps]. rewrite plan_swap_forget.
  destruct (plan_swap market base_overrides Keep st swap fed) as [[st'|e]|]; cbn [map_ok try_bind]; [apply IH|done|done].
Qed.

Lemma plan_token_forget st token : plan_token paths market base_overrides Skip (forget_states st) token
  = map_ok forget_states (plan_token paths market base_overrides Keep st token).
Proof.
  unfold plan_token. cbn [pl_hops_by_token pl_ledger pl_balances forget_states].
  destruct (pl_hops_by_token st !! token) as [branch|]; [|done].
  destruct (standing_at _ _ _) as [standing|]; [|done]. cbn [mbind outcome_bind].
  destruct (amounts_for_branch _ _ _ _) as [[sized|e]|]; cbn [try_bind]; [|done|done].
  destruct (rescale_branch _ _) as [ledger|]; [|done]. cbn [mbind outcome_bind]. by rewrite <- plan_swaps_forget.
Qed.

Lemma plan_loop_forget fuel st : plan_loop paths market base_overrides Skip fuel (forget_states st)
  = map_ok forget_states <$> plan_loop paths market base_overrides Keep fuel st.
Proof.
  revert st. induction fuel as [|fuel IH]; intros st; cbn [plan_loop pl_ready forget_states];
    destruct (pl_ready st) as [|token ready]; [done..|].
  change (pop_ready (forget_states st) ready) with (forget_states (pop_ready st ready)). rewrite plan_token_forget.
  destruct (plan_token paths market base_overrides Keep _ token) as [[st'|e]|]; cbn [map_ok]; [apply IH|done|done].
Qed.

Definition forget_execution (ex : SplitExecution) : SplitExecution := {|
  ex_swaps := forget <$> ex_swaps ex; ex_available := ex_available ex; ex_post_swap := ex_post_swap ex;
  ex_total_gas := ex_total_gas ex |}.

(** Scoring a split executes the same plan as building its route. *)
Lemma execute_split_plan_forget start_token start_amount :
  execute_split_plan paths market start_token start_amount base_overrides Skip
  = map_ok forget_execution <$> execute_split_plan paths market start_token start_amount base_overrides Keep.
Proof.
  unfold execute_split_plan. destruct (validate_paths paths) as [|e]; [|done].
  destruct (PathLedger_new paths) as [ledger|e]; [|done].
  change (PlanState_new paths start_token start_amount ledger)
    with (forget_states (PlanState_new paths start_token start_amount ledger)) at 1.
  rewrite plan_loop_forget. destruct (plan_loop _ _ _ Keep _ _) as [[[st|e]|]|]; try done.
  cbn. unfold finish_plan. cbn. by destruct (bool_decide _).
Qed.
End forget.

Section total.
Context `{TychoMarket} `{!Messages} `{!TychoSwaps} `{!SplitMessages}.

Lemma execute_split_plan_ret paths market start_token start_amount base_overrides capture :
  exists r, execute_split_plan paths market start_token start_amount base_overrides capture = Some (Ret r).
Proof.
  unfold execute_split_plan. destruct (validate_paths paths) as [|e]; [|by eexists].
  unfold PathLedger_new. destruct (forallb _ _); [by eexists|].
  set (ledger := {| lg_amount_in := _ |}).
  destruct (plan_loop_ret paths market base_overrides capture (plan_fuel paths)
    (PlanState_new paths start_token start_amount ledger)) as [r ->].
  - split; cbn; [apply length_fmap|apply length_replicate].
  - unfold plan_left, plan_fuel. cbn. pose proof (merge_shared_hops_size paths). lia.
  - cbn. destruct r; by eexists.
Qed.

(** C27: executing a split plan always returns, with a result or an error, and never panics,
    whatever the paths, their amounts, the market and the overrides are: the queue of tokens
    drains within one turn per hop of the paths and one for the start, no index into the ledger
    is out of range, and no division of an amount goes below zero. *)
Theorem execute_split_plan_total paths market start_token start_amount base_overrides capture :
  exists r, execute_split_plan paths market start_token start_amount base_overrides capture = Some (Ret r).
Proof. apply execute_split_plan_ret. Qed.
End total.
