(* ===== verification/SplitReplay.v ===== *)
(** * SplitReplay: a split route replays to what its plan paid

    The optimiser scores a split by executing its plan, and emits a route that only says which
    fraction of a token each swap takes. The theorem: replaying the emitted route on the same
    market reproduces every amount of the plan, so it pays what the split was scored by. *)

From stdpp Require Import prelude gmap strings list sorting.
From Stdlib Require Import NArith ZArith Lia.
From S2P Require Import Prelude F64 Types Route MarketData SwapCache Algorithm SplitMath Replay SplitPlan SplitPlanProofs.

(** ** The route of a plan and its replay *)

(** Whether the splits of a route read as they were written: only the last swap of a token
    takes what is left. *)
Fixpoint splits_readable `{Tycho} (swaps : list Swap) : bool :=
  match swaps with
  | [] => true
  | swap :: swaps =>
      (F64.gtb (sw_split swap) F64.zero || forallb (fun s => negb (bool_decide (sw_token_in s = sw_token_in swap))) swaps)
      && splits_readable swaps
  end.

Section mirror.
Context `{TychoMarket} `{!Messages} `{!TychoSwaps} `{!SplitMessages}.
Context (market : MarketState) (capture : StateCapture).
Implicit Types (st : PlanState) (rs : ReplayState) (swap : SplitSwap) (hop : HopDescriptor) (s : Swap) (x : SimulatedSplitSwap).

Let get_token (address : Address) : option Token := tokens market !! address.
Let get_state (s : Swap) : option ProtocolSim := simulation_states market !! sw_component_id s.

(** A hop the replay can read: it trades two different tokens, both in the market's registry. *)
Record hop_registered hop : Prop := {
  hr_distinct : in_of hop <> out_of hop;
  hr_in : tokens market !! in_of hop = Some (hd_token_in hop);
  hr_out : tokens market !! out_of hop = Some (hd_token_out hop);
}.

(** What of a swap the replay reads. *)
Record same_step s x : Prop := {
  ss_component : sw_component_id s = hd_component_id (xs_hop x);
  ss_in : sw_token_in s = in_of (xs_hop x);
  ss_out : sw_token_out s = out_of (xs_hop x);
  ss_same_split : sw_split s = xs_split x;
}.

Definition simulated_of x : SimulatedSwap :=
  {| sim_amount_in := xs_amount_in x; sim_amount_out := xs_amount_out x; sim_gas := xs_gas x |}.

Record mirrors st rs : Prop := {
  mi_available : rs_available rs = pl_balances st;
  mi_post_swap : rs_post_swap rs = zs_inner <$> pl_post_swap st;
  mi_unwrapped : map_Forall (fun _ sim => zs_zero_gas_pairs sim = ∅) (pl_post_swap st);
  mi_simulated : rs_simulated rs = simulated_of <$> pl_swaps st;
  mi_gas : rs_total_gas rs = sum_by xs_gas (pl_swaps st);
  mi_saturated : pl_total_gas st = N.min u64_MAX (sum_by xs_gas (pl_swaps st));
}.

(** The state a swap reads is the same, and so is what it answers. *)
Lemma run_merged_swap_mirrored st rs swap executed new_state : mirrors st rs ->
  run_merged_swap swap market ∅ (pl_post_swap st) capture = Ok (executed, new_state) ->
  xs_hop executed = ss_hop swap /\ zs_zero_gas_pairs new_state = ∅ /\
  exists sim, (match rs_post_swap rs !! hd_component_id (ss_hop swap) with
               | Some sim => Some sim
               | None => simulation_states market !! hd_component_id (ss_hop swap) end) = Some sim /\
    get_amount_out_guarded sim (ss_amount_in swap) (hd_token_in (ss_hop swap)) (hd_token_out (ss_hop swap))
      = Ok {| gao_amount := xs_amount_out executed; gao_gas := xs_gas executed; gao_new_state := zs_inner new_state |}.
Proof.
  intros Hm Hrun. unfold run_merged_swap in Hrun. apply bind_Ok in Hrun as (sim & Hsim & Hrun).
  apply bind_Ok in Hrun as ([[amount gas] state'] & Hg & [= <- <-]). cbn.
  assert (zs_zero_gas_pairs sim = ∅ /\
    (match rs_post_swap rs !! hd_component_id (ss_hop swap) with
     | Some sim => Some sim
     | None => simulation_states market !! hd_component_id (ss_hop swap) end) = Some (zs_inner sim)) as [Hz Hlook].
  { rewrite (mi_post_swap _ _ Hm), lookup_fmap. unfold freshest in Hsim.
    destruct (pl_post_swap st !! _) as [later|] eqn:Hl.
    - injection Hsim as ->. split; [exact (mi_unwrapped _ _ Hm _ _ Hl)|done].
    - rewrite lookup_empty in Hsim. cbn. destruct (simulation_states market !! _); [|done]. by injection Hsim as <-. }
  unfold map_simulation_error, zero_gas_swap in Hg.
  destruct (get_amount_out_guarded (zs_inner sim) _ _ _) as [[out g new]|e] eqn:Hgao; cbn in Hg; [|done].
  injection Hg as <- <- <-. split_and!; [done..|]. exists (zs_inner sim). split; [done|].
  rewrite Hgao, Hz. rewrite bool_decide_eq_false_2 by set_solver. done.
Qed.

Lemma plan_swap_replays st st' rs swap fed x s : mirrors st rs -> hop_registered (ss_hop swap) ->
  plan_swap market ∅ capture st swap fed = Ret (Ok st') -> pl_swaps st' = pl_swaps st ++ [x] ->
  same_step s x -> amount_taken rs s = Ret (ss_amount_in swap) ->
  exists rs', replay_swap get_token get_state rs s = Ret (Ok rs') /\ mirrors st' rs' /\
    rs_branch_totals rs' = <[sw_token_in s := branch_total rs (sw_token_in s)]> (rs_branch_totals rs).
Proof.
  intros Hm Hreg Hrun Hx Hss Hta.
  destruct (plan_swap_shape _ _ _ _ _ _ _ Hrun) as (x' & Hsh). rewrite (pw_swaps _ _ _ _ Hsh) in Hx.
  apply app_inj_2 in Hx as [_ [= ->]]; [|done].
  unfold plan_swap in Hrun. destruct (spend _ _ _ _) as [balances|e]; [|done].
  destruct (run_merged_swap _ _ _ _ _) as [[x2 new_state]|e] eqn:Hmr; [|done].
  destruct (run_merged_swap_mirrored st rs swap x2 new_state Hm Hmr) as (Eh & Ez & sim & Hsim & Hg).
  apply bind_Ret in Hrun as (ledger & _ & Hrun). apply bind_Ret in Hrun as (ledger' & _ & Hrun).
  destruct (settle_inflow _ _ _) as [in_degree ready]. injection Hrun as <-.
  pose proof (pw_swaps _ _ _ _ Hsh) as Hx. cbn [pl_swaps] in Hx. apply app_inj_2 in Hx as [_ [= ->]]; [|done].
  unfold replay_swap. rewrite (ss_in _ _ Hss), (ss_out _ _ Hss), Eh in *.
  unfold get_token. rewrite (hr_in _ Hreg), (hr_out _ Hreg), Hta. cbn [mbind outcome_bind].
  unfold take_amount. rewrite (ss_in _ _ Hss), Eh, (mi_available _ _ Hm), bsub_ge by apply Hsh. cbn [mbind outcome_bind].
  unfold replay_sim, get_state. rewrite (ss_component _ _ Hss), Eh, Hsim, Hg. cbn [gao_amount gao_gas gao_new_state].
  eexists. split; [done|]. split; [|done]. split; cbn -[sum_by].
  - symmetry. apply Hsh.
  - unfold with_override. by rewrite fmap_insert, (mi_post_swap _ _ Hm).
  - apply map_Forall_insert_2; [done|apply Hm].
  - rewrite (mi_simulated _ _ Hm), fmap_app. cbn. unfold simulated_of at 3. by rewrite (pw_amount _ _ _ _ Hsh).
  - by rewrite sum_by_snoc, (mi_gas _ _ Hm).
  - rewrite sum_by_snoc, (mi_saturated _ _ Hm). unfold add_gas. lia.
Qed.

(** ** The swaps of one token *)

Lemma replay_swaps_app rs ss ss' : replay_swaps get_token get_state rs (ss ++ ss') =
  (rs' <-? replay_swaps get_token get_state rs ss; replay_swaps get_token get_state rs' ss').
Proof.
  revert rs. induction ss as [|s ss IH]; intros rs; [done|]. cbn [app replay_swaps].
  destruct (replay_swap _ _ rs s) as [[rs'|e]|]; cbn [try_bind]; [apply IH|done|done].
Qed.

Lemma splits_readable_app ss ss' : splits_readable (ss ++ ss') = true ->
  splits_readable ss = true /\ splits_readable ss' = true.
Proof.
  induction ss as [|s ss IH]; [done|]. cbn. rewrite !andb_true_iff, !orb_true_iff, forallb_app, andb_true_iff.
  intros [Hs Hr]. destruct (IH Hr). tauto.
Qed.

Lemma total_of_cons a l : total_of (a :: l) = a + total_of l.
Proof. apply sum_by_cons. Qed.

(** What is left of a token's swaps, [total] having stood there: each swap but the last takes
    its share of it, and all that is left is divided. *)
Record rest_sized st rs (token : Address) (total : N) (rest : list SplitSwap) : Prop := {
  re_hops : Forall (fun swap => in_of (ss_hop swap) = token /\ hop_registered (ss_hop swap)) rest;
  re_standing : rest <> [] -> balance (pl_balances st) token = total_of (ss_amount_in <$> rest);
  re_total : branch_total rs token = total;
  re_parts : forall ix swap, rest !! ix = Some swap -> (S ix < length rest)%nat ->
    ss_amount_in swap = total * split_numerator (ss_split swap) / SCALE;
  re_last : forall ix swap, rest !! ix = Some swap -> S ix = length rest -> ss_split swap = F64.zero;
  re_rounded : Forall (fun swap => rounded (ss_split swap)) rest;
}.

(** The amount the replay gives the next of them. *)
Lemma rest_amount st rs token total swap rest s : mirrors st rs -> rest_sized st rs token total (swap :: rest) ->
  sw_token_in s = token -> sw_split s = ss_split swap ->
  (rest <> [] -> F64.gtb (ss_split swap) F64.zero = true) ->
  amount_taken rs s = Ret (ss_amount_in swap).
Proof.
  intros Hm Hr Hin Hsplit Hpos. pose proof (re_standing _ _ _ _ _ Hr ltac:(done)) as Hst.
  rewrite fmap_cons, total_of_cons in Hst. unfold amount_taken. rewrite Hin, Hsplit, (mi_available _ _ Hm), Hst.
  destruct rest as [|next rest].
  - rewrite (re_last _ _ _ _ _ Hr 0 swap) by done. cbn. f_equal. unfold total_of. cbn. lia.
  - rewrite Hpos by done. rewrite (re_total _ _ _ _ _ Hr).
    destruct (split_amount_lemma total (ss_split swap)) as (part & left & -> & _ & ->).
    { pose proof (re_rounded _ _ _ _ _ Hr) as Hro. by apply Forall_cons in Hro as []. }
    cbn [mbind outcome_bind]. rewrite <- (re_parts _ _ _ _ _ Hr 0 swap) by (done || cbn; lia).
    f_equal. lia.
Qed.

Lemma rest_sized_step st st' rs rs' token total swap rest s : rest_sized st rs token total (swap :: rest) ->
  sw_token_in s = token ->
  balance (pl_balances st') token = balance (pl_balances st) token - ss_amount_in swap ->
  rs_branch_totals rs' = <[sw_token_in s := branch_total rs (sw_token_in s)]> (rs_branch_totals rs) ->
  rest_sized st' rs' token total rest.
Proof.
  intros Hr Hin Hbal Htot. split.
  - pose proof (re_hops _ _ _ _ _ Hr) as Hh. by apply Forall_cons in Hh as [].
  - intros _. rewrite Hbal, (re_standing _ _ _ _ _ Hr) by done. rewrite fmap_cons, total_of_cons. lia.
  - unfold branch_total at 1. rewrite Htot, Hin, lookup_insert_eq. apply Hr.
  - intros ix swap' Hix Hlt. apply (re_parts _ _ _ _ _ Hr (S ix)); [done|cbn; lia].
  - intros ix swap' Hix Hlt. apply (re_last _ _ _ _ _ Hr (S ix)); [done|cbn; lia].
  - pose proof (re_rounded _ _ _ _ _ Hr) as Hro. by apply Forall_cons in Hro as [].
Qed.

Lemma readable_head s ss ss' token : splits_readable (s :: ss ++ ss') = true -> sw_token_in s = token ->
  Exists (fun s' => sw_token_in s' = token) ss -> F64.gtb (sw_split s) F64.zero = true.
Proof.
  cbn. rewrite andb_true_iff, orb_true_iff, forallb_app, andb_true_iff. intros [[?|[Hall _]] _] Hin Hex; [done|exfalso].
  apply Exists_exists in Hex as (s' & Hs' & Heq).
  rewrite forallb_forall in Hall. specialize (Hall s'). rewrite <- list_elem_of_In in Hall. specialize (Hall Hs').
  apply negb_true_iff, bool_decide_eq_false in Hall. congruence.
Qed.

(** Executing the rest of a token's swaps and replaying the swaps of the route they give. *)
Lemma plan_swaps_replay sized st st' rs token total new ss : mirrors st rs ->
  rest_sized st rs token total sized.*1 -> plan_swaps market ∅ capture st sized = Ret (Ok st') ->
  pl_swaps st' = pl_swaps st ++ new -> Forall2 same_step ss new -> splits_readable ss = true ->
  exists rs', replay_swaps get_token get_state rs ss = Ret (Ok rs') /\ mirrors st' rs' /\
    forall t, t <> token -> rs_branch_totals rs' !! t = rs_branch_totals rs !! t.
Proof.
  revert st rs new ss. induction sized as [|[swap fed] sized IH]; intros st rs new ss Hm Hr Hrun Hnew Hss Hread;
    cbn [plan_swaps] in Hrun.
  { injection Hrun as <-. rewrite <- (app_nil_r (pl_swaps st)) in Hnew at 1. apply app_inv_head in Hnew as <-.
    apply Forall2_nil_inv_r in Hss as ->. by exists rs. }
  apply try_bind_Ok in Hrun as (st1 & Hswap & Hrun). cbn [fmap list_fmap fst] in Hr.
  pose proof (re_hops _ _ _ _ _ Hr) as [[Hin Hreg] Hrest]%Forall_cons.
  destruct (plan_swap_shape _ _ _ _ _ _ _ Hswap) as (x & Hsh).
  destruct (plan_swaps_shape _ _ _ _ _ _ Hrun) as (new1 & Hnew1 & Hf2 & _).
  rewrite Hnew1, (pw_swaps _ _ _ _ Hsh), <- app_assoc in Hnew. apply app_inv_head in Hnew as <-.
  apply Forall2_cons_inv_r in Hss as (s & ss1 & Hs & Hss1 & ->).
  assert (sw_token_in s = token) as Hs_in by (rewrite (ss_in _ _ Hs), (pw_hop _ _ _ _ Hsh); exact Hin).
  assert (amount_taken rs s = Ret (ss_amount_in swap)) as Hta.
  { apply (rest_amount st rs token total swap sized.*1 s); [done..| |].
    - by rewrite (ss_same_split _ _ Hs), (pw_split _ _ _ _ Hsh).
    - intros Hne. rewrite <- (pw_split _ _ _ _ Hsh), <- (ss_same_split _ _ Hs).
      apply (readable_head s ss1 [] token); [by rewrite app_nil_r|done|].
      destruct sized as [|[swap2 fed2] sized]; [done|]. apply Forall2_cons_inv_r in Hf2 as (x2 & new2 & [Eh _] & _ & ->).
      apply Forall2_cons_inv_r in Hss1 as (s2 & ss2 & Hs2 & _ & ->). apply Exists_cons_hd.
      apply Forall_cons in Hrest as [[Hin2 _] _]. rewrite (ss_in _ _ Hs2), Eh. exact Hin2. }
  destruct (plan_swap_replays st st1 rs swap fed x s Hm Hreg Hswap (pw_swaps _ _ _ _ Hsh) Hs Hta) as (rs1 & Hone & Hm1 & Htot).
  destruct (IH st1 rs1 new1 ss1) as (rs' & Hrep & Hm' & Ht'); try done.
  - apply (rest_sized_step st st1 rs rs1 token total swap sized.*1 s Hr Hs_in); [|done].
    rewrite (pw_balances _ _ _ _ Hsh), balance_credit, balance_insert, Hin, decide_True by done.
    rewrite decide_False; [lia|]. rewrite <- Hin. apply not_eq_sym, Hreg.
  - apply (splits_readable_app [s] ss1 Hread).
  - exists rs'. cbn [replay_swaps]. rewrite Hone. cbn [try_bind]. split_and!; [done..|].
    intros t Ht. rewrite Ht', Htot, lookup_insert_ne by congruence. done.
Qed.

(** ** The whole plan *)

Definition hops_ready (branches : gmap Bytes (list SplitSwap)) : Prop :=
  map_Forall (fun token branch => Forall (fun swap => in_of (ss_hop swap) = token /\ hop_registered (ss_hop swap)) branch)
    branches.

Lemma hops_ready_keyed branches : hops_ready branches -> hops_keyed branches.
Proof. intros Hr token branch Hb. eapply Forall_impl; [exact (Hr _ _ Hb)|]. by intros swap []. Qed.

(** No swap of a token that waits was replayed. *)
Definition totals_fresh st rs : Prop := forall token, is_Some (pl_hops_by_token st !! token) -> rs_branch_totals rs !! token = None.

Lemma mirrors_balances st st1 rs : mirrors st rs -> pl_balances st1 = pl_balances st -> pl_swaps st1 = pl_swaps st ->
  pl_post_swap st1 = pl_post_swap st -> pl_total_gas st1 = pl_total_gas st -> mirrors st1 rs.
Proof. intros [E1 E2 E3 E4 E5 E6] Eb Es Ep Eg. split; rewrite ?Eb, ?Es, ?Ep, ?Eg; done. Qed.

Lemma turn_rest_sized st st' rs token branch sized st1 : hops_ready (pl_hops_by_token st) -> totals_fresh st rs ->
  mirrors st rs -> turn_does market ∅ capture st st' token branch sized st1 ->
  rest_sized st1 rs token (balance (pl_balances st) token) sized.*1.
Proof.
  intros Hh Hf Hm Ht. pose proof (tu_sized _ _ _ _ _ _ _ _ _ Ht) as Hs. split.
  - apply Forall_forall. intros swap Hin.
    assert (ss_hop swap ∈ ss_hop <$> branch) as Hb by (rewrite <- (bs_hops _ _ _ Hs); by apply list_elem_of_fmap_2).
    apply list_elem_of_fmap in Hb as (swap' & -> & Hb).
    pose proof (Hh _ _ (tu_branch _ _ _ _ _ _ _ _ _ Ht)) as Hall. rewrite Forall_forall in Hall. by apply Hall.
  - intros Hne. rewrite (tu_balances _ _ _ _ _ _ _ _ _ Ht). symmetry. by apply Hs.
  - unfold branch_total. rewrite Hf by (rewrite (tu_branch _ _ _ _ _ _ _ _ _ Ht); by eexists).
    by rewrite (mi_available _ _ Hm).
  - apply Hs.
  - apply Hs.
  - apply Hs.
Qed.

Lemma plan_loop_replay paths fuel st stf rs new ss : ledger_ok (length paths) (pl_ledger st) ->
  hops_ready (pl_hops_by_token st) -> mirrors st rs -> totals_fresh st rs ->
  plan_loop paths market ∅ capture fuel st = Some (Ret (Ok stf)) -> pl_swaps stf = pl_swaps st ++ new ->
  Forall2 same_step ss new -> splits_readable ss = true ->
  exists rs', replay_swaps get_token get_state rs ss = Ret (Ok rs') /\ mirrors stf rs'.
Proof.
  revert st rs new ss. induction fuel as [|fuel IH]; intros st rs new ss Hl Hh Hm Hf Hrun Hnew Hss Hread;
    cbn [plan_loop] in Hrun; destruct (pl_ready st) as [|token ready]; try done.
  1, 2: injection Hrun as <-; rewrite <- (app_nil_r (pl_swaps st)) in Hnew at 1; apply app_inv_head in Hnew as <-;
    apply Forall2_nil_inv_r in Hss as ->; by exists rs.
  destruct (plan_token _ _ _ _ _ _) as [[st'|e]|] eqn:Ht; try done.
  destruct (plan_token_ret paths market ∅ capture (pop_ready st ready) token Hl) as (r & Hr & Hok).
  rewrite Ht in Hr. injection Hr as <-. destruct (Hok st' eq_refl) as [Hl' _].
  assert (mirrors (pop_ready st ready) rs) as Hmp by by apply (mirrors_balances st).
  destruct (plan_token_shape _ _ _ _ (pop_ready st ready) st' token Hl Ht) as [[_ ->]|(branch & sized & st1 & Hturn)].
  { by apply (IH (pop_ready st ready) rs new ss). }
  pose proof (turn_rest_sized (pop_ready st ready) st' rs token branch sized st1 Hh Hf Hmp Hturn) as Hrest.
  destruct (turn_new _ _ _ (pop_ready st ready) _ _ _ _ _ (hops_ready_keyed _ Hh) Hturn) as (new1 & Hnew1 & _ & _ & Hh').
  assert (hops_ready (pl_hops_by_token st')) as Hready by (rewrite Hh'; by apply map_Forall_delete).
  destruct (plan_loop_new _ _ _ _ _ _ _ Hl' (hops_ready_keyed _ Hready) Hrun) as (new2 & Hnew2 & _).
  rewrite Hnew2, Hnew1, <- app_assoc in Hnew. apply app_inv_head in Hnew as <-.
  apply Forall2_app_inv_r in Hss as (ss1 & ss2 & Hs1 & Hs2 & ->). apply splits_readable_app in Hread as [Hr1 Hr2].
  destruct (plan_swaps_replay sized st1 st' rs token (balance (pl_balances st) token) new1 ss1) as (rs1 & Hrep & Hm1 & Ht1);
    [|done|apply Hturn| |done|done|].
  - by apply (mirrors_balances (pop_ready st ready)); [|apply Hturn..].
  - rewrite (tu_swaps _ _ _ _ _ _ _ _ _ Hturn). exact Hnew1.
  - destruct (IH st' rs1 new2 ss2) as (rs' & Hrep' & Hm'); try done.
    { intros t [b Hb]. rewrite Hh' in Hb. apply lookup_delete_Some in Hb as [Hne Hb].
      rewrite Ht1 by congruence. apply Hf. by exists b. }
    exists rs'. rewrite replay_swaps_app, Hrep. cbn [try_bind]. done.
Qed.
End mirror.

(** ** The merged hops *)

Section merged.
Context `{TychoMarket}.
Implicit Types (hop : HopDescriptor) (swap : SplitSwap).

Lemma merged_hops_from (P : HopDescriptor -> Prop) (paths : list PathAllocation) :
  (forall path simulated, path ∈ paths -> simulated ∈ pa_hops path -> P (sh_descriptor simulated)) ->
  map_Forall (fun _ swap => P (ss_hop swap)) (merged_hops paths).
Proof.
  intros HP. unfold merged_hops.
  assert (Forall P (sh_descriptor <$> (paths ≫= pa_hops))) as Hall.
  { apply Forall_fmap, Forall_forall. intros hop (path & Hhop & Hpath)%list_elem_of_bind. by apply (HP path). }
  assert (forall m, map_Forall (fun (_ : HopKey) swap => P (ss_hop swap)) m ->
    map_Forall (fun _ swap => P (ss_hop swap))
      (fold_left (fun hops hop => or_insert_with hops (hop_key hop) (SplitSwap_new hop))
         (sh_descriptor <$> (paths ≫= pa_hops)) m)) as Hfold.
  { induction Hall as [|hop hops Hhop Hall IH]; intros m Hm; [done|]. cbn [fold_left]. apply IH.
    unfold or_insert_with. destruct (m !! hop_key hop); [done|]. by apply map_Forall_insert_2. }
  apply Hfold, map_Forall_empty.
Qed.

Lemma merge_shared_hops_from (P : HopDescriptor -> Prop) (paths : list PathAllocation) :
  (forall path simulated, path ∈ paths -> simulated ∈ pa_hops path -> P (sh_descriptor simulated)) ->
  map_Forall (fun token branch => Forall (fun swap => in_of (ss_hop swap) = token /\ P (ss_hop swap)) branch)
    (merge_shared_hops paths).
Proof.
  intros HP. pose proof (merged_hops_from P paths HP) as Hm. unfold merge_shared_hops.
  assert (Forall (fun swap => P (ss_hop swap)) (map_to_list (merged_hops paths)).*2) as Hall.
  { apply Forall_fmap, Forall_forall. intros [key swap] Hin%elem_of_map_to_list. exact (Hm _ _ Hin). }
  set (swaps := (map_to_list _).*2) in *. clearbody swaps.
  assert (forall m, map_Forall (fun token branch => Forall (fun swap => in_of (ss_hop swap) = token /\ P (ss_hop swap)) branch) m ->
    map_Forall (fun token branch => Forall (fun swap => in_of (ss_hop swap) = token /\ P (ss_hop swap)) branch)
      (fold_left (fun collections swap => push_to collections (in_of (ss_hop swap)) swap) swaps m)) as Hfold.
  { induction Hall as [|swap swaps Hswap Hall IH]; intros m Hk; [done|]. cbn [fold_left]. apply IH.
    apply map_Forall_insert_2; [|done]. apply Forall_app. split; [|by repeat constructor].
    destruct (m !! in_of (ss_hop swap)) as [branch|] eqn:Hb; [exact (Hk _ _ Hb)|constructor]. }
  intros token sorted (branch & Hb & Hp)%merge_sort_fmap_lookup. rewrite Hp.
  exact (Hfold ∅ ltac:(apply map_Forall_empty) _ _ Hb).
Qed.
End merged.

(** ** From the plan to the route *)

Section route.
Context `{TychoMarket} `{!Messages} `{!TychoSwaps} `{!SplitMessages}.
Context (paths : list PathAllocation) (market : MarketState).
Implicit Types (x : SimulatedSplitSwap) (s : Swap).

(** The swaps of the start token come first and take exactly what the plan starts with. *)
Lemma plan_starts start amount ledger fuel capture stf :
  ledger_ok (length paths) ledger -> hops_keyed (merge_shared_hops paths) ->
  plan_loop paths market ∅ capture (S fuel) (PlanState_new paths start amount ledger) = Some (Ret (Ok stf)) ->
  pl_swaps stf = [] \/
  ((fun x => in_of (xs_hop x)) <$> head (pl_swaps stf) = Some start /\
   sum_by (fun x => if decide (in_of (xs_hop x) = start) then xs_amount_in x else 0) (pl_swaps stf) = amount).
Proof.
  intros Hl Hk Hrun. set (st0 := PlanState_new paths start amount ledger) in *.
  assert (match plan_token paths market ∅ capture (pop_ready st0 []) start with
          | Ret (Ok st) => plan_loop paths market ∅ capture fuel st
          | Ret (Err e) => Some (Ret (Err e))
          | Panic => Some Panic
          end = Some (Ret (Ok stf))) as Hturns by exact Hrun.
  clear Hrun. rename Hturns into Hrun.
  destruct (plan_token paths market ∅ capture (pop_ready st0 []) start) as [[st'|e]|] eqn:Ht; [|done..].
  destruct (plan_token_ret paths market ∅ capture (pop_ready st0 []) start Hl) as (r & Hr & Hok).
  rewrite Ht in Hr. injection Hr as <-. destruct (Hok st' eq_refl) as [Hl' _].
  destruct (plan_token_shape _ _ _ _ (pop_ready st0 []) st' start Hl Ht) as [[_ ->]|(branch & sized & st1 & Hturn)].
  { left. assert (stf = pop_ready st0 []) as -> by (destruct fuel; cbn in Hrun; congruence). done. }
  destruct (turn_new _ _ _ (pop_ready st0 []) _ _ _ _ _ Hk Hturn) as (new & Hnew & Hin & Ham & Hh).
  destruct (plan_loop_new _ _ _ _ _ _ _ Hl' ltac:(rewrite Hh; by apply hops_keyed_delete) Hrun) as (new' & Hnew' & Hall).
  rewrite Hnew in Hnew'. change (pl_swaps (pop_ready st0 [])) with (@nil SimulatedSplitSwap) in Hnew'. cbn [app] in Hnew'.
  destruct sized as [|entry sized].
  { left. pose proof (tu_run _ _ _ _ _ _ _ _ _ Hturn) as Hst. cbn in Hst. injection Hst as <-.
    pose proof (tu_ready _ _ _ _ _ _ _ _ _ Hturn) as Hready. change (pl_ready (pop_ready st0 [])) with (@nil Bytes) in Hready.
    assert (stf = st1) as -> by (destruct fuel; cbn in Hrun; rewrite Hready in Hrun; congruence).
    apply (tu_swaps _ _ _ _ _ _ _ _ _ Hturn). }
  right. rewrite Hnew'. destruct new as [|x new]; [done|]. split.
  { apply Forall_cons in Hin as [Hx _]. cbn. by rewrite Hx. }
  rewrite sum_by_app.
  assert (sum_by (fun x => if decide (in_of (xs_hop x) = start) then xs_amount_in x else 0) new' = 0) as ->.
  { clear -Hall Hh. induction Hall as [|y new' [b Hb] Hall IH]; [done|]. rewrite sum_by_cons, IH, decide_False; [done|].
    intros E. rewrite Hh, E, lookup_delete_eq in Hb. done. }
  assert (sum_by (fun x => if decide (in_of (xs_hop x) = start) then xs_amount_in x else 0) (x :: new)
    = total_of (xs_amount_in <$> (x :: new))) as ->.
  { clear -Hin. unfold total_of. induction Hin as [|y l Hy Hin IH]; [done|]. by rewrite fmap_cons, !sum_by_cons, IH, decide_True. }
  rewrite Ham, (bs_total _ _ _ (tu_sized _ _ _ _ _ _ _ _ _ Hturn)) by done.
  change (pl_balances (pop_ready st0 [])) with ({[start := amount]} : gmap Bytes N).
  unfold balance. rewrite lookup_singleton_eq. cbn. lia.
Qed.

(** The route's swaps are the plan's, as the replay reads them. *)
Lemma route_swaps_same xs swaps : route_swaps market xs = Ok swaps ->
  Forall2 same_step swaps xs /\ sw_amount_in <$> swaps = xs_amount_in <$> xs /\ sw_gas_estimate <$> swaps = xs_gas <$> xs.
Proof.
  revert swaps. induction xs as [|x xs IH]; intros swaps Hr; cbn [route_swaps] in Hr.
  { injection Hr as <-. by split_and!. }
  apply bind_Ok in Hr as (s & Hs & Hr). apply bind_Ok in Hr as (swaps' & Hr & [= <-]).
  destruct (IH _ Hr) as (Hf & Ha & Hg). unfold route_swap in Hs.
  destruct (get_component _ _) as [component|]; [|done]. destruct (xs_pre_swap_state x) as [state|]; [|done].
  injection Hs as <-. rewrite !fmap_cons, Ha, Hg. split_and!; [|done..]. by constructor.
Qed.

Lemma sum_by_forall2 {A B} (f : A -> N) (g : B -> N) l k : Forall2 (fun a b => f a = g b) l k -> sum_by f l = sum_by g k.
Proof. induction 1 as [|a b l k E Hf IH]; [done|]. by rewrite !sum_by_cons, E, IH. Qed.

Lemma sum_by_filterb {A} (f : A -> N) (p : A -> bool) l :
  sum_by f (List.filter p l) = sum_by (fun a => if p a then f a else 0) l.
Proof. induction l as [|a l IH]; [done|]. cbn [List.filter]. rewrite sum_by_cons. destruct (p a); rewrite ?sum_by_cons, IH; lia. Qed.

(** Replaying the route of a plan reproduces the plan. *)
Lemma split_route_replay_lemma order route execution :
  execute_split_plan paths market (order_token_in order) (order_amount order) ∅ Keep = Some (Ret (Ok execution)) ->
  build_split_route paths market order = Some (Ret (Ok route)) ->
  (forall path hop, path ∈ paths -> hop ∈ pa_hops path -> hop_registered market (sh_descriptor hop)) ->
  splits_readable (rt_swaps route) = true ->
  forall token_out, output_token route = Some token_out ->
  replay_route route market =
    Ret (Ok {| rp_amount_out := balance (ex_available execution) token_out; rp_gas := total_gas route |}) /\
  ex_total_gas execution = N.min u64_MAX (total_gas route).
Proof.
  intros Hex Hbuild Hreg Hread token_out Hout. unfold build_split_route in Hbuild. rewrite Hex in Hbuild. cbn in Hbuild.
  injection Hbuild as Hbuild. apply bind_Ok in Hbuild as (swaps & Hswaps & Hnew).
  assert (rt_swaps route = swaps /\ swaps <> []) as [Hrt Hne]
    by (unfold Route_new in Hnew; destruct swaps; [done|by injection Hnew as <-]).
  destruct (route_swaps_same _ _ Hswaps) as (Hsame & Ham & Hgas).
  unfold execute_split_plan in Hex. destruct (validate_paths paths) as [|e]; [|done].
  destruct (PathLedger_new paths) as [ledger|e] eqn:Hled; [|done].
  assert (ledger_ok (length paths) ledger) as Hl.
  { unfold PathLedger_new in Hled. destruct (forallb _ _); [done|]. injection Hled as <-.
    split; cbn; [apply length_fmap|apply length_replicate]. }
  apply fmap_Some in Hex as ([[st|e]|] & Hloop & Hfin); try done. symmetry in Hfin. cbn in Hfin. injection Hfin as Hfin.
  unfold finish_plan in Hfin. destruct (bool_decide _); [|done]. injection Hfin as <-.
  cbn [ex_swaps ex_available ex_total_gas] in *.
  set (st0 := PlanState_new paths (order_token_in order) (order_amount order) ledger) in *.
  assert (hops_ready market (merge_shared_hops paths)) as Hready by by apply merge_shared_hops_from.
  destruct (plan_starts (order_token_in order) (order_amount order) ledger _ Keep st Hl (hops_ready_keyed market _ Hready) Hloop)
    as [Hnil|[Hhead Hsum]]; [rewrite Hnil in Hswaps; by injection Hswaps as <-|].
  set (ends := {| end_input_token := order_token_in order; end_output_token := token_out; end_total_in := order_amount order |}).
  assert (mirrors st0 (ReplayState_new ends)) as Hm0 by (split; try done; apply map_Forall_empty).
  destruct (plan_loop_replay market Keep paths (plan_fuel paths) st0 st (ReplayState_new ends) (pl_swaps st) swaps Hl Hready Hm0)
    as (rs & Hrep & Hm); [by intros ?| exact Hloop|done|done|by rewrite <- Hrt|].
  assert (input_token route = Some (order_token_in order)) as Hin.
  { unfold input_token. rewrite Hrt. destruct Hsame as [|s x swaps xs Hs Hsame]; [done|]. cbn in Hhead |- *.
    injection Hhead as <-. f_equal. apply Hs. }
  assert (sum_by sw_amount_in (List.filter (fun s => bool_decide (sw_token_in s = order_token_in order)) swaps)
    = order_amount order) as Htotal.
  { rewrite sum_by_filterb, <- Hsum. apply sum_by_forall2. clear -Hsame Ham.
    induction Hsame as [|s x swaps xs Hs Hsame IH]; [done|]. rewrite !fmap_cons in Ham. injection Ham as Ha Ham.
    constructor; [|by apply IH]. rewrite (ss_in _ _ Hs), Ha. case_bool_decide; case_decide; done. }
  assert (sum_by xs_gas (pl_swaps st) = total_gas route) as Hg.
  { unfold total_gas. rewrite Hrt. symmetry. apply sum_by_forall2. clear -Hsame Hgas.
    induction Hsame as [|s x swaps xs Hs Hsame IH]; [constructor|]. rewrite !fmap_cons in Hgas. injection Hgas as Hg Hgas.
    constructor; [done|by apply IH]. }
  unfold replay_route. rewrite Hin, Hout, Hrt, Htotal. unfold simulate_swaps. fold ends.
  rewrite Hrep. cbn. rewrite (mi_available _ _ Hm), (mi_gas _ _ Hm), (mi_saturated _ _ Hm), Hg. done.
Qed.

Lemma allocations_hops descriptors fractions total :
  allocations_from_descriptors descriptors fractions total = Ret (Ok paths) ->
  forall path hop, path ∈ paths -> hop ∈ pa_hops path ->
    exists descriptor_path, descriptor_path ∈ descriptors /\ sh_descriptor hop ∈ descriptor_path.
Proof.
  unfold allocations_from_descriptors. destruct (negb _); [done|]. intros Ha. apply bind_Ret in Ha as (divided & _ & Ha).
  destruct divided as [amounts|e]; [|done]. destruct (existsb _ _); [done|]. injection Ha as <-.
  intros path hop (i & Hi)%list_elem_of_lookup Hhop. apply lookup_zip_with_Some in Hi as (hops & sized & -> & Hhops & _).
  exists hops. split; [by eapply list_elem_of_lookup_2|].
  cbn in Hhop. by apply list_elem_of_fmap in Hhop as (descriptor & -> & ?).
Qed.
End route.

(** C26: a split pays what it was scored by. When the optimiser scored a division of an order
    between paths and a route was built from the division, then replaying the route on the same
    market returns exactly the score as its output, and its gas is the score's where that does
    not saturate. For this the paths' tokens are the market's own and no hop trades a token for
    itself, the paths start at the order's token and end at the one the route ends with, and
    only the last swap of each token has the split that says take what is left. *)
Theorem scored_split_replays `{TychoMarket} `{!Messages} `{!TychoSwaps} `{!SplitMessages}
    descriptors fractions market order paths score gas route token_out :
  allocations_from_descriptors descriptors fractions (order_amount order) = Ret (Ok paths) ->
  evaluate_total_output descriptors fractions (order_amount order) market ∅ = Some (Ret (Ok (score, gas))) ->
  build_split_route paths market order = Some (Ret (Ok route)) ->
  in_of <$> (head descriptors ≫= head) = Some (order_token_in order) ->
  terminal_tokens descriptors = Ok {[ token_out ]} -> output_token route = Some token_out ->
  Forall (Forall (hop_registered market)) descriptors ->
  splits_readable (rt_swaps route) = true ->
  replay_route route market = Ret (Ok {| rp_amount_out := score; rp_gas := total_gas route |}) /\
  gas = N.min u64_MAX (total_gas route).
Proof.
  intros Hall Heval Hbuild Hstart Hterm Hout Hreg Hread. unfold evaluate_total_output in Heval.
  destruct (head descriptors ≫= head) as [first_hop|]; [|done]. cbn in Hstart. injection Hstart as Hstart.
  rewrite Hterm, Hall, Hstart, execute_split_plan_forget in Heval.
  destruct (execute_split_plan paths market (order_token_in order) (order_amount order) ∅ Keep) as [[[ex|e]|]|] eqn:Hex; try done.
  cbn in Heval. injection Heval as Hscore Hgas.
  destruct (split_route_replay_lemma paths market order route ex Hex Hbuild) with token_out as [Hrep Hg]; [|done|done|].
  - intros path hop Hpath Hhop. destruct (allocations_hops paths descriptors fractions _ Hall path hop Hpath Hhop) as (l & Hl & Hd).
    rewrite Forall_forall in Hreg. specialize (Hreg _ Hl). rewrite Forall_forall in Hreg. by apply Hreg.
  - rewrite Hrep, <- Hgas, <- Hg, <- Hscore. unfold total_standing. rewrite elements_singleton. done.
Qed.
