(* ===== verification/BellmanFord.v ===== *)
(** * BellmanFord: routing by relaxing simulated swaps

    [fynd-core/src/algorithm/bellman_ford.rs]. A walk of the graph from both endpoints keeps
    the edges a route may use; rounds of relaxation over them keep, per token, the best
    amount reached and the hop that brought it; the route is read back from those hops. The
    five arrays of the relaxation have one length and are indexed together: here they are one
    list of records. An index past its end panics, and so does, here, a walk of predecessors
    that would not end. The clock is read once per round. A swap of a route holds its pool's
    state, without the wrapper an override may put around it. What the code only logs, and
    its debug assertion, are left out. *)

From stdpp Require Import prelude gmap sets strings list sorting pretty.
From Stdlib Require Import NArith ZArith Lia.
From S2P Require Import Prelude F64 Types Route Amounts DerivedStore SpotPriceComputation MarketData.
From S2P Require Import SwapCache Algorithm StableGraph TokenGraph Paths SplitPlan.

#[local] Open Scope nat_scope.

(** What the walks read of the graph beyond [DiGraph]: its nodes in the order of their
    indices, and a node's outgoing edges. *)
Class NodeGraph (W : Type) `{!DiGraph W} : Type := {
  node_indices : digraph -> list NodeIndex;
  edges_from : digraph -> NodeIndex -> list (NodeIndex * W);

  node_indices_spec : forall g i, i ∈ node_indices g <-> is_Some (node_weight g i);
  edges_from_spec : forall g a b w, (b, w) ∈ edges_from g a <-> exists e, edge g e = Some (a, b, w);
}.

(** ** Data *)

Abbreviation PathEdge := (NodeIndex * NodeIndex * ComponentId)%type.

Record Subgraph := {
  sg_adjacency : gmap NodeIndex (list (NodeIndex * ComponentId));
  sg_token_nodes : gset NodeIndex;
  sg_component_ids : gset ComponentId;
}.

Inductive RouteScoringMode := GrossOutput | NetOutput.

Record BellmanFordContext `{TychoMarket} := {
  bc_token_in_node : NodeIndex;
  bc_token_out_node : option NodeIndex;
  bc_adj : gmap NodeIndex (list (NodeIndex * ComponentId));
  bc_token_map : gmap NodeIndex Token;
  bc_market_data : MarketState;
  bc_gas_price_wei : option N;
  bc_token_prices : option TokenGasPrices;
  bc_spot_prices : option SpotPrices;
  bc_node_address : gmap NodeIndex Address;
  bc_max_idx : nat;
  bc_scoring : RouteScoringMode;
}.

(** What the arrays hold of one node. *)
Record NodeBest := {
  nb_amount : N;
  nb_predecessor : option (NodeIndex * ComponentId);
  nb_edge_gas : N;
  nb_cumul_gas : N;
  nb_spot_product : f64;
}.

Record SPFAResult := {
  sp_nodes : list NodeBest;
  sp_input_below_hop_gas : bool;
  sp_timed_out : bool;
}.

Record ReachedToken := { rt_amount_out : N; rt_hops : list PathEdge }.

Record ReachOutcome := { ro_reached : gmap Address ReachedToken; ro_timed_out : bool }.

Record BellmanFordAlgorithm := {
  bf_max_hops : nat;
  bf_timeout : N;
  bf_gas_aware : bool;
  bf_connector_tokens : option (gset Address);
}.

Definition BellmanFord_with_config (config : AlgorithmConfig) : BellmanFordAlgorithm := {|
  bf_max_hops := ac_max_hops config;
  bf_timeout := ac_timeout config;
  bf_gas_aware := ac_gas_aware config;
  bf_connector_tokens := ac_connector_tokens config |}.

(** Indexing a [Vec]. *)
Definition at_index {A} (l : list A) (i : nat) : outcome A :=
  match l !! i with Some a => Ret a | None => Panic end.

Fixpoint fold_outcome {A B} (f : A -> B -> outcome A) (l : list B) (a : A) : outcome A :=
  match l with
  | [] => Ret a
  | b :: l => a ← f a b; fold_outcome f l a
  end.

(** ** The walks of the graph *)

Section walks.
Context `{NodeGraph (EdgeData ())}.
Implicit Types (graph : digraph) (constraints : ResolvedRouteConstraints) (node : NodeIndex).

Definition weight_of graph node : Address := default EmptyString (node_weight graph node).

Definition can_cross graph (edge : NodeIndex * EdgeData ()) (endpoints : NodeIndex * NodeIndex) constraints : bool :=
  negb (excludes_pool constraints (ed_component_id edge.2))
  && allows_token constraints (weight_of graph edge.1) (weight_of graph endpoints.1, weight_of graph endpoints.2).

Section hops.
Context (graph : digraph) (endpoints : NodeIndex * NodeIndex) (constraints : ResolvedRouteConstraints).

Definition reach_edge (depth : nat) (st : gmap NodeIndex nat * list NodeIndex) (edge : NodeIndex * EdgeData ())
    : gmap NodeIndex nat * list NodeIndex :=
  let '(hops_to_reach, next) := st in
  if bool_decide (is_Some (hops_to_reach !! edge.1)) || negb (can_cross graph edge endpoints constraints) then st
  else (<[edge.1 := depth]> hops_to_reach, next ++ [edge.1]).

Definition reach_node (depth : nat) (st : gmap NodeIndex nat * list NodeIndex) node
    : gmap NodeIndex nat * list NodeIndex :=
  fold_left (reach_edge depth) (edges_from graph node) st.

(** The levels [depth], ..., of which [n] are left. *)
Fixpoint reach_levels (n depth : nat) (hops_to_reach : gmap NodeIndex nat) (frontier : list NodeIndex)
    : gmap NodeIndex nat :=
  match n with
  | O => hops_to_reach
  | S n =>
      let '(hops_to_reach, next) := fold_left (reach_node depth) frontier (hops_to_reach, []) in
      reach_levels n (S depth) hops_to_reach next
  end.

Definition get_hops_to_reach_any (sources : list NodeIndex) (max_hops : nat) : gmap NodeIndex nat :=
  reach_levels max_hops 1 (fold_left (fun hops source => <[source := 0]> hops) sources ∅) sources.
End hops.

Definition get_hops_to_reach graph (token_in token_out : NodeIndex) (max_hops : nat) constraints : gmap NodeIndex nat :=
  get_hops_to_reach_any graph (token_in, token_out) constraints [token_out] max_hops.

(** What the walk from the source has collected. *)
Record Walk := {
  wk_adj : gmap NodeIndex (list (NodeIndex * ComponentId));
  wk_token_nodes : gset NodeIndex;
  wk_component_ids : gset ComponentId;
  wk_visited : gset NodeIndex;
  wk_queue : list (NodeIndex * nat);
}.

Section subgraph.
Context (graph : digraph) (endpoints : NodeIndex * NodeIndex) (constraints : ResolvedRouteConstraints).
Context (hops_to_token_out : option (gmap NodeIndex nat)) (max_hops : nat).

(** Whether an edge from [depth_walked] leaves enough hops to finish the route. *)
Definition enough_hops_left (next_token : NodeIndex) (depth_walked : nat) : bool :=
  match hops_to_token_out with
  | None => true
  | Some hops =>
      match hops !! next_token with
      | None => false
      | Some hops_left => negb (max_hops <? depth_walked + 1 + hops_left)
      end
  end.

Definition walk_edge node (depth_walked : nat) (st : Walk) (edge : NodeIndex * EdgeData ()) : Walk :=
  let '(next_token, weight) := edge in
  if negb (can_cross graph edge endpoints constraints) then st
  else if negb (enough_hops_left next_token depth_walked) then st
  else
    let id := ed_component_id weight in
    let fresh := bool_decide (next_token ∉ wk_visited st) in
    {| wk_adj := <[node := default [] (wk_adj st !! node) ++ [(next_token, id)]]> (wk_adj st);
       wk_token_nodes := {[ next_token ]} ∪ wk_token_nodes st;
       wk_component_ids := {[ id ]} ∪ wk_component_ids st;
       wk_visited := {[ next_token ]} ∪ wk_visited st;
       wk_queue := if fresh then wk_queue st ++ [(next_token, S depth_walked)] else wk_queue st |}.

Definition pop (st : Walk) (queue : list (NodeIndex * nat)) : Walk :=
  {| wk_adj := wk_adj st; wk_token_nodes := wk_token_nodes st; wk_component_ids := wk_component_ids st;
     wk_visited := wk_visited st; wk_queue := queue |}.

(** Every node is queued once: as much fuel as the graph has nodes, and one, is enough. *)
Fixpoint walk_from (fuel : nat) (st : Walk) : Walk :=
  match fuel, wk_queue st with
  | S fuel, (node, depth_walked) :: queue =>
      let st := pop st queue in
      walk_from fuel
        (if max_hops <=? depth_walked then st
         else fold_left (walk_edge node depth_walked) (edges_from graph node) st)
  | _, _ => st
  end.

Definition start_walk (token_in : NodeIndex) : Walk :=
  {| wk_adj := ∅; wk_token_nodes := {[ token_in ]}; wk_component_ids := ∅;
     wk_visited := {[ token_in ]}; wk_queue := [(token_in, 0)] |}.
End subgraph.

Definition get_subgraph_with_hop_map graph (endpoints : NodeIndex * option NodeIndex)
    (hops_to_token_out : option (gmap NodeIndex nat)) (max_hops : nat) constraints : option Subgraph :=
  let '(token_in, token_out) := endpoints in
  let st := walk_from graph (token_in, default token_in token_out) constraints hops_to_token_out max_hops
              (S (length (node_indices graph))) (start_walk token_in) in
  if decide (wk_adj st = ∅) then None
  else Some {| sg_adjacency := wk_adj st; sg_token_nodes := wk_token_nodes st;
               sg_component_ids := wk_component_ids st |}.

Definition get_subgraph graph (token_in token_out : NodeIndex) (max_hops : nat) constraints : option Subgraph :=
  get_subgraph_with_hop_map graph (token_in, Some token_out)
    (Some (get_hops_to_reach graph token_in token_out max_hops constraints)) max_hops constraints.
End walks.

(** ** The predecessors *)

Section predecessors.
Implicit Types (predecessor : list (option (NodeIndex * ComponentId))) (current : NodeIndex).

Fixpoint conflict_from (fuel : nat) predecessor current (target_node : NodeIndex) (target_component : ComponentId)
    : outcome bool :=
  match fuel with
  | O => Panic
  | S fuel =>
      if decide (current = target_node) then Ret true
      else
        step ← at_index predecessor current;
        match step with
        | Some (prev, cid) =>
            if decide (cid = target_component) then Ret true
            else conflict_from fuel predecessor prev target_node target_component
        | None => Ret false
        end
  end.

(** A walk without repetitions visits every node at most once. *)
Definition path_has_conflict (from target_node : NodeIndex) (target_component : ComponentId) predecessor : outcome bool :=
  conflict_from (S (length predecessor)) predecessor from target_node target_component.

Fixpoint path_back (fuel : nat) predecessor current (token_in : NodeIndex) (visited : gset NodeIndex)
    (path : list PathEdge) : result AlgorithmError (list PathEdge) :=
  match fuel with
  | O => Err (AE_Other "cycle in predecessor chain")
  | S fuel =>
      if decide (current = token_in) then Ok path
      else if decide (current ∈ visited) then Err (AE_Other "cycle in predecessor chain")
      else
        match predecessor !! current with
        | Some (Some (prev_node, component_id)) =>
            path_back fuel predecessor prev_node token_in ({[ current ]} ∪ visited)
              ((prev_node, current, component_id) :: path)
        | _ => Err (AE_Other ("broken predecessor chain at node " +:+ pretty current))
        end
  end.

(** The visited nodes stop a walk that repeats one: the fuel outlasts it. *)
Definition reconstruct_path (token_out token_in : NodeIndex) predecessor : result AlgorithmError (list PathEdge) :=
  path_back (S (S (length predecessor))) predecessor token_out token_in ∅ [].
End predecessors.

(** ** Comparing amounts net of gas *)

Section gas.
Context `{TychoGas} (decimals : Token -> N) (integer_decode : f64 -> N * Z).

Definition gas_adjusted_amount (gross cumul_gas gas_price_wei : N) (token_price : option Price) : Z :=
  Z.of_N gross - Z.of_N (default 0%N (price ← token_price; gas_cost_in_token cumul_gas gas_price_wei price)).

Definition compute_edge_spot_product (parent_spot : f64) (component_id : ComponentId) (u_addr v_addr : option Address)
    (spot_prices : option SpotPrices) : f64 :=
  if F64.eqb parent_spot F64.zero then F64.zero
  else
    match u_addr, v_addr, spot_prices with
    | Some u, Some v, Some prices =>
        match prices !! (component_id, u, v) with
        | Some spot => if F64.gtb spot F64.zero then F64.mul parent_spot spot else F64.zero
        | None => F64.zero
        end
    | _, _, _ => F64.zero
    end.

(** [u8::try_from]. *)
Definition to_u8 (n : N) : option N := if (n <=? 255)%N then Some n else None.

Definition resolve_token_price (token : option Token) (token_prices : option TokenGasPrices) (spot_product : f64)
    (token_in : option Token) : option Price :=
  prices ← token_prices;
  token ← token;
  match prices !! token_address_of token with
  | Some price => Some price
  | None =>
      token_in ← token_in;
      in_price ← prices !! token_address_of token_in;
      if negb (F64.gtb spot_product F64.zero && F64.is_finite spot_product)
         || (price_numerator in_price =? 0)%N || (price_denominator in_price =? 0)%N
      then None
      else
        token_decimals ← to_u8 (decimals token);
        in_decimals ← to_u8 (decimals token_in);
        let '(mantissa, exponent) := integer_decode spot_product in
        let numerator := (price_numerator in_price * mantissa)%N in
        let denominator := price_denominator in_price in
        let shift := Z.abs_N exponent in
        let '(numerator, denominator) :=
          if (0 <=? exponent)%Z then (N.shiftl numerator shift, denominator)
          else (numerator, N.shiftl denominator shift) in
        Some match (token_decimals ?= in_decimals)%N with
             | Gt => {| price_numerator := numerator * 10 ^ (token_decimals - in_decimals);
                        price_denominator := denominator |}
             | Lt => {| price_numerator := numerator;
                        price_denominator := denominator * 10 ^ (in_decimals - token_decimals) |}
             | Eq => {| price_numerator := numerator; price_denominator := denominator |}
             end%N
  end.

(** The first node whose token has the address. *)
Definition node_at (node_address : gmap NodeIndex Address) (address : Address) : option NodeIndex :=
  fst <$> find_first (fun entry : NodeIndex * Address => bool_decide (entry.2 = address)) (map_to_list node_address).

Definition compute_net_amount_out (amount_out : N) (route : Route) (gas_price : N) (token_prices : option TokenGasPrices)
    (spot_product : list f64) (node_address : gmap NodeIndex Address) (token_in_node : NodeIndex)
    : result AlgorithmError Z :=
  match last (rt_swaps route) with
  | None => Err (AE_Other "compute_net_amount_out called with empty route")
  | Some last_swap =>
      if (gas_price =? 0)%N then Ok (Z.of_N amount_out)
      else
        let out_addr := sw_token_out last_swap in
        let out_node_spot := default F64.zero (node ← node_at node_address out_addr; spot_product !! node) in
        let output_price :=
          resolve_token_price (rt_tokens route !! out_addr) token_prices out_node_spot
            (address ← node_address !! token_in_node; rt_tokens route !! address) in
        Ok match price ← output_price; gas_cost_in_token (total_gas route) gas_price price with
           | Some gas_cost => (Z.of_N amount_out - Z.of_N gas_cost)%Z
           | None => Z.of_N amount_out
           end
  end.
End gas.

(** ** The relaxation *)

Section relaxation.
Context `{TychoGas} `{!Messages} `{!TychoSwaps} (decimals : Token -> N) (integer_decode : f64 -> N * Z).
Implicit Types (self : BellmanFordAlgorithm) (ctx : BellmanFordContext) (overrides : MarketOverrides).
Implicit Types (u v : NodeIndex) (nodes : list NodeBest).

Definition connector_allows self ctx v : bool :=
  match bf_connector_tokens self, bc_node_address ctx !! v with
  | Some tokens, Some v_addr =>
      bool_decide (v = bc_token_in_node ctx) || bool_decide (bc_token_out_node ctx = Some v)
      || bool_decide (v_addr ∈ tokens)
  | _, _ => true
  end.

(** The state a swap is simulated against: an override, or the market's. *)
Definition sim_of ctx overrides (component_id : ComponentId) : option ZeroGasSim :=
  match overrides !! component_id with
  | Some sim => Some sim
  | None => unwrapped <$> simulation_states (bc_market_data ctx) !! component_id
  end.

(** [get_amount_out_guarded] of a state that may be wrapped. *)
Definition swap_against (sim : ZeroGasSim) (amount_in : N) (token_in token_out : Token)
    : result SimulationError GetAmountOutResult :=
  '(amount, gas, new_state) ← zero_gas_swap sim amount_in token_in token_out;
  Ok {| gao_amount := amount; gao_gas := gas; gao_new_state := zs_inner new_state |}.

(** The gas price of gas-aware comparisons; none when they are off or lack data. *)
Definition gas_aware_price ctx : option N :=
  match bc_scoring ctx, bc_gas_price_wei ctx, bc_token_prices ctx with
  | NetOutput, Some gas_price, Some _ => Some gas_price
  | _, _, _ => None
  end.

Definition source_token ctx : option Token := bc_token_map ctx !! bc_token_in_node ctx.

Definition predecessors nodes : list (option (NodeIndex * ComponentId)) := nb_predecessor <$> nodes.

Definition candidate ctx u v (component_id : ComponentId) (at_u : NodeBest) (result : GetAmountOutResult) : NodeBest := {|
  nb_amount := gao_amount result;
  nb_predecessor := Some (u, component_id);
  nb_edge_gas := gao_gas result;
  nb_cumul_gas := nb_cumul_gas at_u + gao_gas result;
  nb_spot_product :=
    compute_edge_spot_product (nb_spot_product at_u) component_id (bc_node_address ctx !! u)
      (bc_node_address ctx !! v) (bc_spot_prices ctx) |}.

(** Whether the candidate is better than what the node has, and the dust signal after it. *)
Definition compare_candidate ctx (token_u token_v : Token) (at_u at_v cand : NodeBest) (input_below_hop_gas : bool)
    : bool * bool :=
  match gas_aware_price ctx with
  | Some gas_price =>
      let v_price := resolve_token_price decimals integer_decode (Some token_v) (bc_token_prices ctx)
                       (nb_spot_product cand) (source_token ctx) in
      let net_candidate := gas_adjusted_amount (nb_amount cand) (nb_cumul_gas cand) gas_price v_price in
      let below :=
        (net_candidate <=? 0)%Z
        && (let u_price := resolve_token_price decimals integer_decode (Some token_u) (bc_token_prices ctx)
                             (nb_spot_product at_u) (source_token ctx) in
            gas_adjusted_amount (nb_amount at_u) (nb_edge_gas cand) gas_price u_price <=? 0)%Z in
      let net_existing := gas_adjusted_amount (nb_amount at_v) (nb_cumul_gas at_v) gas_price v_price in
      ((net_existing <? net_candidate)%Z, input_below_hop_gas || below)
  | None => ((nb_amount at_v <? nb_amount cand)%N, input_below_hop_gas || (nb_amount cand =? 0)%N)
  end.

(** What a round carries: the arrays, the dust signal, the nodes improved so far. *)
Record Relaxation := {
  rx_nodes : list NodeBest;
  rx_input_below_hop_gas : bool;
  rx_next_active : gset NodeIndex;
}.
Implicit Types (st : Relaxation).

Definition relax_edge self ctx overrides u (token_u : Token) st (edge : NodeIndex * ComponentId) : outcome Relaxation :=
  let '(v, component_id) := edge in
  conflict ← path_has_conflict u v component_id (predecessors (rx_nodes st));
  if conflict : bool then Ret st
  else if negb (connector_allows self ctx v) then Ret st
  else
    match bc_token_map ctx !! v, sim_of ctx overrides component_id with
    | Some token_v, Some sim =>
        at_u ← at_index (rx_nodes st) u;
        match swap_against sim (nb_amount at_u) token_u token_v with
        | Err _ => Ret st
        | Ok result =>
            at_v ← at_index (rx_nodes st) v;
            let cand := candidate ctx u v component_id at_u result in
            let '(is_better, below) := compare_candidate ctx token_u token_v at_u at_v cand (rx_input_below_hop_gas st) in
            Ret (if is_better
                 then {| rx_nodes := <[v := cand]> (rx_nodes st); rx_input_below_hop_gas := below;
                         rx_next_active := {[ v ]} ∪ rx_next_active st |}
                 else {| rx_nodes := rx_nodes st; rx_input_below_hop_gas := below;
                         rx_next_active := rx_next_active st |})
        end
    | _, _ => Ret st
    end.

Definition relax_node self ctx overrides st u : outcome Relaxation :=
  at_u ← at_index (rx_nodes st) u;
  if (nb_amount at_u =? 0)%N then Ret st
  else
    match bc_token_map ctx !! u, bc_adj ctx !! u with
    | Some token_u, Some edges => fold_outcome (relax_edge self ctx overrides u token_u) edges st
    | _, _ => Ret st
    end.

(** [clock i] is the time elapsed at the start of round [i]; [n] rounds are left. *)
Fixpoint spfa_rounds self ctx overrides (clock : nat -> N) (n round : nat) (active_nodes : list NodeIndex)
    nodes (input_below_hop_gas : bool) : outcome SPFAResult :=
  let stop timed_out :=
    Ret {| sp_nodes := nodes; sp_input_below_hop_gas := input_below_hop_gas; sp_timed_out := timed_out |} in
  match n with
  | O => stop false
  | S n =>
      if (bf_timeout self <=? clock round)%N then stop true
      else
        match active_nodes with
        | [] => stop false
        | _ =>
            st ← fold_outcome (relax_node self ctx overrides) active_nodes
              {| rx_nodes := nodes; rx_input_below_hop_gas := input_below_hop_gas; rx_next_active := ∅ |};
            spfa_rounds self ctx overrides clock n (S round) (merge_sort le (elements (rx_next_active st)))
              (rx_nodes st) (rx_input_below_hop_gas st)
        end
  end.

Definition unreached : NodeBest := {|
  nb_amount := 0; nb_predecessor := None; nb_edge_gas := 0; nb_cumul_gas := 0; nb_spot_product := F64.zero |}.

Definition source_best (amount_in : N) : NodeBest := {|
  nb_amount := amount_in; nb_predecessor := None; nb_edge_gas := 0; nb_cumul_gas := 0; nb_spot_product := F64.one |}.

Definition run_spfa self ctx (amount_in : N) overrides (clock : nat -> N) : outcome SPFAResult :=
  let nodes := replicate (bc_max_idx ctx) unreached in
  _ ← at_index nodes (bc_token_in_node ctx);
  spfa_rounds self ctx overrides clock (bf_max_hops self) 0 [bc_token_in_node ctx]
    (<[bc_token_in_node ctx := source_best amount_in]> nodes) false.

(** ** Reading the result *)

Definition reached_node ctx nodes (reached : gmap Address ReachedToken) (entry : nat * NodeBest)
    : gmap Address ReachedToken :=
  let '(idx, best) := entry in
  if (nb_amount best =? 0)%N || bool_decide (idx = bc_token_in_node ctx) then reached
  else
    match bc_node_address ctx !! idx with
    | None => reached
    | Some address =>
        match reconstruct_path idx (bc_token_in_node ctx) (predecessors nodes) with
        | Ok path_edges => <[address := {| rt_amount_out := nb_amount best; rt_hops := path_edges |}]> reached
        | Err _ => reached
        end
    end.

Definition reach_from_source_token self ctx (amount_in : N) (clock : nat -> N) : outcome ReachOutcome :=
  spfa ← run_spfa self ctx amount_in ∅ clock;
  Ret {| ro_reached := fold_left (reached_node ctx (sp_nodes spfa))
                         (zip (seq 0 (length (sp_nodes spfa))) (sp_nodes spfa)) ∅;
         ro_timed_out := sp_timed_out spfa |}.

(** How a node index prints. *)
Definition show_node (node : NodeIndex) : string := "NodeIndex(" +:+ pretty node +:+ ")".

Definition edge_swap ctx nodes overrides (hop : PathEdge) : outcome (result AlgorithmError (Swap * Token * Token)) :=
  let '(from_node, to_node, component_id) := hop in
  token_in <-? Ret (found "token" (show_node from_node) (bc_token_map ctx !! from_node));
  token_out <-? Ret (found "token" (show_node to_node) (bc_token_map ctx !! to_node));
  component <-? Ret (found "component" component_id (get_component (bc_market_data ctx) component_id));
  sim_state <-? Ret (found "simulation state" component_id (sim_of ctx overrides component_id));
  at_from ← at_index nodes from_node;
  at_to ← at_index nodes to_node;
  Ret (Ok (Swap_new component_id (protocol_system_of component) (token_address_of token_in)
             (token_address_of token_out) (nb_amount at_from) (nb_amount at_to) (nb_edge_gas at_to)
             component (zs_inner sim_state), token_in, token_out)).

Fixpoint edge_swaps ctx nodes overrides (swaps : list Swap) (route_tokens : gmap Address Token)
    (path_edges : list PathEdge) : outcome (result AlgorithmError (list Swap * gmap Address Token)) :=
  match path_edges with
  | [] => Ret (Ok (swaps, route_tokens))
  | hop :: path_edges =>
      built <-? edge_swap ctx nodes overrides hop;
      let '(swap, token_in, token_out) := built in
      edge_swaps ctx nodes overrides (swaps ++ [swap]) (or_insert (or_insert route_tokens token_in) token_out) path_edges
  end.

Definition build_route ctx (path_edges : list PathEdge) nodes overrides : outcome (result AlgorithmError Route) :=
  built <-? edge_swaps ctx nodes overrides [] ∅ path_edges;
  Ret (match Route_new built.1 (map_to_list built.2) with
       | Ok route => Ok route
       | Err e => Err (AlgorithmError_from e)
       end).

Definition find_single_route self ctx (order : Order) overrides (clock : nat -> N)
    : outcome (result AlgorithmError RouteResult) :=
  match bc_token_out_node ctx with
  | None => Ret (Err (AE_Other "find_single_route needs a context built with a destination"))
  | Some token_out_node =>
      spfa ← run_spfa self ctx (order_amount order) overrides clock;
      let nodes := sp_nodes spfa in
      at_out ← at_index nodes token_out_node;
      if (nb_amount at_out =? 0)%N
      then Ret (Err (AE_NoPath (order_token_in order) (order_token_out order)
                       (if sp_input_below_hop_gas spfa then AmountTooSmall else NoGraphPath)))
      else
        path_edges <-? Ret (reconstruct_path token_out_node (bc_token_in_node ctx) (predecessors nodes));
        route <-? build_route ctx path_edges nodes overrides;
        let gas_price := default 0%N (bc_gas_price_wei ctx) in
        net_amount_out <-? Ret (match bc_scoring ctx with
          | GrossOutput => Ok (Z.of_N (nb_amount at_out))
          | NetOutput =>
              compute_net_amount_out decimals integer_decode (nb_amount at_out) route gas_price (bc_token_prices ctx)
                (nb_spot_product <$> nodes) (bc_node_address ctx) (bc_token_in_node ctx)
          end);
        Ret (Ok (RouteResult_new route net_amount_out gas_price))
  end.
End relaxation.

(** ** Contexts *)

Section contexts.
Context `{TychoGas} `{!Messages} `{!TychoSwaps} `{NodeGraph (EdgeData ())}.
Implicit Types (self : BellmanFordAlgorithm) (graph : digraph).

Definition context_from_snapshot self graph (market_data : MarketState) (subgraph : Subgraph)
    (token_in_node : NodeIndex) (token_out_node : option NodeIndex) : BellmanFordContext :=
  let token_map : gmap NodeIndex Token :=
    list_to_map (omap (fun node => (fun token => (node, token)) <$> tokens market_data !! weight_of graph node)
                   (elements (sg_token_nodes subgraph))) in {|
  bc_token_in_node := token_in_node;
  bc_token_out_node := token_out_node;
  bc_adj := sg_adjacency subgraph;
  bc_token_map := token_map;
  bc_market_data := market_data;
  bc_gas_price_wei := effective_gas_price <$> gas_price market_data;
  bc_token_prices := None;
  bc_spot_prices := None;
  bc_node_address := token_address_of <$> token_map;
  bc_max_idx := foldr Nat.max 0 (node_indices graph) + 1;
  bc_scoring := if bf_gas_aware self then NetOutput else GrossOutput |}.

Definition with_derived (ctx : BellmanFordContext) (token_prices : option TokenGasPrices)
    (spot_prices : option SpotPrices) : BellmanFordContext := {|
  bc_token_in_node := bc_token_in_node ctx; bc_token_out_node := bc_token_out_node ctx; bc_adj := bc_adj ctx;
  bc_token_map := bc_token_map ctx; bc_market_data := bc_market_data ctx;
  bc_gas_price_wei := bc_gas_price_wei ctx; bc_token_prices := token_prices; bc_spot_prices := spot_prices;
  bc_node_address := bc_node_address ctx; bc_max_idx := bc_max_idx ctx; bc_scoring := bc_scoring ctx |}.

Definition find_token_node graph (address : Address) : option NodeIndex :=
  find_first (fun node => bool_decide (weight_of graph node = address)) (node_indices graph).

Definition build_context self (request : SolveParts digraph) : result AlgorithmError BellmanFordContext :=
  let graph := so_graph request in
  let order := so_order request in
  let no_path reason := Err (AE_NoPath (order_token_in order) (order_token_out order) reason) in
  if negb (Order_is_sell order) then Err AE_ExactOutNotSupported
  else
    match find_token_node graph (order_token_in order) with
    | None => no_path SourceTokenNotInGraph
    | Some token_in_node =>
        match find_token_node graph (order_token_out order) with
        | None => no_path DestinationTokenNotInGraph
        | Some token_out_node =>
            if decide (token_in_node = token_out_node) then no_path NoGraphPath
            else
              match get_subgraph graph token_in_node token_out_node (bf_max_hops self) (so_constraints request) with
              | None => no_path NoGraphPath
              | Some subgraph =>
                  market_view ← read_market (so_market request) (so_label request);
                  let market_data := extract_subset_with_overlay market_view (sg_component_ids subgraph) in
                  Ok (with_derived
                        (context_from_snapshot self graph market_data subgraph token_in_node (Some token_out_node))
                        (so_derived request ≫= token_prices) (so_derived request ≫= spot_prices))
              end
        end
    end.

Definition unconstrained : ResolvedRouteConstraints := {|
  rrc_excluded_pools := ∅; rrc_excluded_tokens := ∅; rrc_required_tokens := ∅; rrc_unsynced_pools := ∅ |}.

(** The last node with the address, as the loop over all nodes leaves it. *)
Definition last_node_of graph (address : Address) : option NodeIndex :=
  last (List.filter (fun node => bool_decide (weight_of graph node = address)) (node_indices graph)).

(** [reads i] is the market under the [i]-th guard of the batched snapshot. *)
Definition build_context_from_source_token self graph (reads : nat -> MarketState) (token_in : Address)
    (walk_hops : nat) (prune_toward : option (gset Address)) : option BellmanFordContext :=
  token_in_node ← last_node_of graph token_in;
  let hops_to_targets :=
    (fun targets =>
       get_hops_to_reach_any graph (token_in_node, token_in_node) unconstrained
         (List.filter (fun node => bool_decide (weight_of graph node ∈ targets)) (node_indices graph)) walk_hops)
    <$> prune_toward in
  subgraph ← get_subgraph_with_hop_map graph (token_in_node, None) hops_to_targets walk_hops unconstrained;
  Some (context_from_snapshot self graph (extract_subset_batched reads (sg_component_ids subgraph)) subgraph
          token_in_node None).

Definition reroot_toward (ctx : BellmanFordContext) graph (token_in_node token_out_node : NodeIndex)
    (hops_to_token_out : gmap NodeIndex nat) (max_hops : nat) : BellmanFordContext * bool :=
  match get_subgraph_with_hop_map graph (token_in_node, Some token_out_node) (Some hops_to_token_out) max_hops
          unconstrained with
  | None => (ctx, false)
  | Some subgraph =>
      ({| bc_token_in_node := token_in_node; bc_token_out_node := Some token_out_node;
          bc_adj := sg_adjacency subgraph;
          bc_token_map := bc_token_map ctx; bc_market_data := bc_market_data ctx;
          bc_gas_price_wei := bc_gas_price_wei ctx; bc_token_prices := bc_token_prices ctx;
          bc_spot_prices := bc_spot_prices ctx; bc_node_address := bc_node_address ctx;
          bc_max_idx := bc_max_idx ctx; bc_scoring := bc_scoring ctx |}, true)
  end.

Definition bf_find_best_route (decimals : Token -> N) (integer_decode : f64 -> N * Z) self
    (request : SolveParts digraph) (clock : nat -> N) : outcome (result AlgorithmError RouteResult) :=
  match build_context self request with
  | Err e => Ret (Err e)
  | Ok ctx => find_single_route decimals integer_decode self ctx (so_order request) ∅ clock
  end.
End contexts.
