(* ===== verification/FallbackPricing.v ===== *)
(** * FallbackPricing: choosing a pAMM leg's fallback and pricing the route through it

    Models the selection of [fynd-core/src/fallback/mod.rs] and the pool data of
    [fynd-core/src/fallback/user_data.rs]. Each pAMM leg gets the candidate that pays the most
    for the leg's input among those the request admits and the router can encode; the route is
    then replayed with the fallbacks in place. *)

From stdpp Require Import prelude gmap sets strings list.
From Stdlib Require Import Ascii.
From Stdlib Require Import NArith ZArith Lia.
From S2P Require Import Prelude F64 Types Route Samples DerivedStore SpotPriceComputation Manager MarketData MarketDataProofs.
From S2P Require Import SwapCache Algorithm SplitMath Replay FallbackPools.

(** ** The pool as the router wants it *)

(** [FallbackSwapData] of the execution library. *)
Inductive FallbackSwapData :=
| FSD_UniswapV2 (pair : Address) (fee_bps : N)
| FSD_UniswapV3 (pool : Address)
| FSD_UniswapV4 (fee tick_spacing : N) (hook hook_data : Bytes)
| FSD_Curve (pool : Address) (pool_type i j : N)
| FSD_FluidV1 (dex : Address) (zero2one : bool)
| FSD_AerodromeV1 (pool : Address).

(** What a pool's component is missing. *)
Inductive MissingData :=
| NotFallbackProtocol (system : string)
| ChargesTooMuch (fee_bps : f64)
| TickSpacingTooWide
| PoolTypeTooWide
| CoinsMissPair
| IdNotAddress
| NoAttribute (name : string)
| AttributeTooWide (name : string)
| NotSerialized (error : string).

Inductive FallbackError :=
| FE_NoFallbackPool (component_id : ComponentId) (token_in token_out : Address)
| FE_AllPoolsExcluded (component_id : ComponentId)
| FE_SimulationFailed (component_id : ComponentId)
| FE_ReplayFailed (reason : string)
| FE_MissingPoolData (component_id : ComponentId) (reason : MissingData).

Definition rejection (e : FallbackError) : RouteRejection :=
  match e with
  | FE_NoFallbackPool _ _ _ => FallbackPoolMissing
  | FE_AllPoolsExcluded _ => FallbackExcluded
  | FE_SimulationFailed _ | FE_ReplayFailed _ | FE_MissingPoolData _ _ => FallbackNotSimulatable
  end.

(** [Address::from_str], [serde_json::from_slice] of a list of addresses, [ProtocolSim::fee]
    and [serde_json::to_string] of the router's data. *)
Class TychoFallbackData `{TychoFallback} : Type := {
  address_from_str : string -> option Address;
  coins_from_json : Bytes -> option (list Address);
  sim_fee : ProtocolSim -> f64;
  swap_data_to_json : FallbackSwapData -> result string string;
}.

Definition MAX_UNISWAP_V2_FEE_BPS : N := 30.

Section user_data.
Context `{TychoFallbackData}.
Implicit Types (component : ProtocolComponent).

Definition missing {A} component (reason : MissingData) : result FallbackError A :=
  Err (FE_MissingPoolData (component_id_of component) reason).

Definition pool_address component : result FallbackError Address :=
  match address_from_str (component_id_of component) with
  | Some pool => Ok pool
  | None => missing component IdNotAddress
  end.

Definition attribute_u32 component (name : string) : result FallbackError N :=
  match static_attributes component !! name with
  | None => missing component (NoAttribute name)
  | Some raw =>
      let bytes := N_of_ascii <$> String.list_ascii_of_string raw in
      if (4 <? length bytes)%nat then missing component (AttributeTooWide name)
      else Ok (fold_left (fun value byte => N.lor (N.shiftl value 8 mod (u32_MAX + 1)) byte) bytes 0)
  end.

Definition uniswap_v2_fee_bps component (state : ProtocolSim) : result FallbackError N :=
  let fee_bps := F64.round (F64.mul (sim_fee state) (F64.of_N 10000)) in
  if F64.ltb fee_bps F64.zero || F64.gtb fee_bps (F64.of_N MAX_UNISWAP_V2_FEE_BPS)
  then missing component (ChargesTooMuch fee_bps)
  else Ok (N.min 255 (F64.to_u64 fee_bps)).

Definition uniswap_v4_fallback component : result FallbackError FallbackSwapData :=
  fee ← attribute_u32 component "key_lp_fee";
  tick_spacing ← attribute_u32 component "tick_spacing";
  if 2147483647 <? tick_spacing then missing component TickSpacingTooWide
  else Ok (FSD_UniswapV4 fee tick_spacing "" "").

Definition curve_coins component : list Address :=
  default (component_tokens_of component) (static_attributes component !! "coins"%string ≫= coins_from_json).

Definition coin_index (coins : list Address) (token : Address) : option N :=
  index ← position (fun coin => bool_decide (coin = token)) coins;
  if (index <=? 255)%nat then Some (N.of_nat index) else None.

Definition curve_fallback component (pool token_in token_out : Address) : result FallbackError FallbackSwapData :=
  pool_type ← attribute_u32 component "pool_type";
  if 255 <? pool_type then missing component PoolTypeTooWide
  else
    let coins := curve_coins component in
    match coin_index coins token_in, coin_index coins token_out with
    | Some i, Some j => Ok (FSD_Curve pool pool_type i j)
    | _, _ => missing component CoinsMissPair
    end.

Definition fallback_protocol component (state : ProtocolSim) (token_in token_out : Address)
    : result FallbackError FallbackSwapData :=
  match from_protocol_system (protocol_system_of component) with
  | None => missing component (NotFallbackProtocol (protocol_system_of component))
  | Some protocol =>
      pool ← pool_address component;
      match protocol with
      | FP_UniswapV2 => fee_bps ← uniswap_v2_fee_bps component state; Ok (FSD_UniswapV2 pool fee_bps)
      | FP_UniswapV3 => Ok (FSD_UniswapV3 pool)
      | FP_UniswapV4 => uniswap_v4_fallback component
      | FP_Curve => curve_fallback component pool token_in token_out
      | FP_FluidV1 => Ok (FSD_FluidV1 pool (bool_decide (head (component_tokens_of component) = Some token_in)))
      | FP_AerodromeV1 => Ok (FSD_AerodromeV1 pool)
      end
  end.

Definition fallback_user_data (leg : FallbackLeg) (token_in token_out : Address) : result FallbackError string :=
  protocol ← fallback_protocol (fl_protocol_component leg) (fl_protocol_state leg) token_in token_out;
  match swap_data_to_json protocol with
  | Ok json => Ok json
  | Err error => missing (fl_protocol_component leg) (NotSerialized error)
  end.
End user_data.

(** ** Selecting a fallback *)

Section selection.
Context `{TychoFallbackData} `{!TychoSwaps} `{!Messages}.
Implicit Types (market : MarketDataView) (swap : Swap) (route : Route).

Definition is_excluded market (filter : RouteConstraints) (pool_exclusions : list string) (candidate : ComponentId) : bool :=
  if bool_decide (candidate ∈ rc_excluded_pools filter) || MarketState_is_unsynced_pool (view_guard market) candidate
  then true
  else
    match get_component (view_guard market) candidate with
    | None => false
    | Some component =>
        existsb (fun entry => protocol_matches entry (protocol_system_of component))
          (elements (rc_excluded_protocols filter) ++ pool_exclusions)
    end.

(** The leg a candidate would be, when the router can run it and it can be priced. *)
Definition candidate_leg market swap (token_in token_out : Token) (candidate : ComponentId) : option FallbackLeg :=
  match get_component (view_guard market) candidate, view_get_simulation_state market candidate with
  | Some component, Some state =>
      match fallback_protocol component state (sw_token_in swap) (sw_token_out swap) with
      | Err _ => None
      | Ok _ =>
          match get_amount_out_guarded state (sw_amount_in swap) token_in token_out with
          | Ok simulated =>
              Some {| fl_protocol_component := component; fl_protocol_state := state;
                      fl_amount_out := gao_amount simulated |}
          | Err _ => None
          end
      end
  | _, _ => None
  end.

Definition consider_candidate market swap (token_in token_out : Token) (best : option FallbackLeg) (candidate : ComponentId)
    : option FallbackLeg :=
  match candidate_leg market swap token_in token_out candidate with
  | None => best
  | Some leg =>
      match best with
      | Some b => if fl_amount_out b <? fl_amount_out leg then Some leg else best
      | None => Some leg
      end
  end.

Definition select_fallback swap market (index : FallbackPoolIndex) (filter : RouteConstraints)
    (pool_exclusions : list string) : result FallbackError FallbackLeg :=
  let leg := sw_component_id swap in
  let candidates := candidates_for index (sw_token_in swap) (sw_token_out swap) in
  if bool_decide (candidates = []) then Err (FE_NoFallbackPool leg (sw_token_in swap) (sw_token_out swap))
  else
    let admitted := List.filter (fun candidate => negb (is_excluded market filter pool_exclusions candidate)) candidates in
    if bool_decide (admitted = []) then Err (FE_AllPoolsExcluded leg)
    else
      match tokens (view_guard market) !! sw_token_in swap, tokens (view_guard market) !! sw_token_out swap with
      | Some token_in, Some token_out =>
          match fold_left (consider_candidate market swap token_in token_out) admitted None with
          | Some best => Ok best
          | None => Err (FE_SimulationFailed leg)
          end
      | _, _ => Err (FE_SimulationFailed leg)
      end.

(** ** Pricing the route *)

Definition is_fallback_swap swap : bool := String.prefix FALLBACK_PREFIX (sw_protocol swap).

(** The swaps with their fallbacks stamped, up to the first that gets none. *)
Fixpoint stamp_fallbacks market (index : FallbackPoolIndex) (filter : RouteConstraints) (pool_exclusions : list string)
    (swaps : list Swap) : result FallbackError (list Swap) :=
  match swaps with
  | [] => Ok []
  | swap :: swaps =>
      if negb (is_fallback_swap swap) then
        stamped ← stamp_fallbacks market index filter pool_exclusions swaps;
        Ok (swap :: stamped)
      else
        fallback ← select_fallback swap market index filter pool_exclusions;
        stamped ← stamp_fallbacks market index filter pool_exclusions swaps;
        Ok (Swap_set_fallback swap fallback :: stamped)
  end.

Definition substitute_fallback swap : Swap :=
  match sw_fallback swap with
  | None => swap
  | Some fallback =>
      let component := fl_protocol_component fallback in
      Swap_with_split
        (Swap_new (component_id_of component) (protocol_system_of component) (sw_token_in swap) (sw_token_out swap)
           (sw_amount_in swap) (fl_amount_out fallback) (sw_gas_estimate swap) component (fl_protocol_state fallback))
        (sw_split swap)
  end.

Definition substitute_fallbacks route : list Swap := substitute_fallback <$> rt_swaps route.

Definition with_swaps route (swaps : list Swap) : Route := {|
  rt_swaps := swaps; rt_tokens := rt_tokens route; rt_fallback_amount_out := rt_fallback_amount_out route |}.

Context (show_replay_error : ReplayError -> string).

(** The stamped route and what it delivers through its fallbacks. *)
Definition price_through_fallbacks route market (index : FallbackPoolIndex) (filter : RouteConstraints)
    (pool_exclusions : list string) : outcome (result FallbackError (Route * N)) :=
  match stamp_fallbacks market index filter pool_exclusions (rt_swaps route) with
  | Err e => Ret (Err e)
  | Ok swaps =>
      let route := with_swaps route swaps in
      let substituted := substitute_fallbacks route in
      let subset := extract_subset_with_overlay market (list_to_set (sw_component_id <$> substituted)) in
      match Route_new substituted [] with
      | Err error => Ret (Err (FE_ReplayFailed (show_route_error error)))
      | Ok substituted =>
          replayed ← replay_route substituted subset;
          Ret (match replayed with
               | Ok replay => Ok (route, rp_amount_out replay)
               | Err error => Err (FE_ReplayFailed (show_replay_error error))
               end)
      end
  end.
End selection.

(** ** The best fallback *)

Section best.
Context `{TychoFallbackData} `{!TychoSwaps} `{!Messages}.
Implicit Types (market : MarketDataView) (swap : Swap) (route : Route).

(** The pools of the market that can serve a pair, read from the market alone. *)
Definition serves (st : MarketState) (token_a token_b : Address) (id : ComponentId) : Prop :=
  exists c, get_component st id = Some c /\ is_fallback_candidate c = true /\
    is_native_token token_a = false /\ is_native_token token_b = false /\
    ((token_a, token_b) ∈ token_pairs (component_tokens_of c) \/ (token_b, token_a) ∈ token_pairs (component_tokens_of c)).

(** What a leg would be on a pool: nothing when it cannot be encoded or priced. *)
Definition leg_on market swap (id : ComponentId) : option FallbackLeg :=
  token_in ← tokens (view_guard market) !! sw_token_in swap;
  token_out ← tokens (view_guard market) !! sw_token_out swap;
  candidate_leg market swap token_in token_out id.

Definition is_best market swap (admitted : ComponentId -> Prop) (leg : FallbackLeg) : Prop :=
  (exists id, admitted id /\ leg_on market swap id = Some leg) /\
  forall id leg', admitted id -> leg_on market swap id = Some leg' -> fl_amount_out leg' <= fl_amount_out leg.

Lemma consider_candidates market swap token_in token_out (l : list ComponentId) :
  match fold_left (consider_candidate market swap token_in token_out) l None with
  | Some leg => (exists id, id ∈ l /\ candidate_leg market swap token_in token_out id = Some leg) /\
      forall id leg', id ∈ l -> candidate_leg market swap token_in token_out id = Some leg' ->
        fl_amount_out leg' <= fl_amount_out leg
  | None => forall id, id ∈ l -> candidate_leg market swap token_in token_out id = None
  end.
Proof.
  induction l as [|id l IH] using rev_ind; [by intros id ?%elem_of_nil|].
  rewrite fold_left_app. cbn [fold_left]. unfold consider_candidate at 1.
  destruct (fold_left _ l None) as [best|]; destruct (candidate_leg market swap token_in token_out id) as [leg|] eqn:Hleg.
  - destruct IH as [(b & Hb & Hbl) Hmax]. destruct (N.ltb_spec (fl_amount_out best) (fl_amount_out leg)).
    + split; [exists id; set_solver|]. intros id' leg' [Hin| ->%list_elem_of_singleton]%elem_of_app Hl'.
      * specialize (Hmax _ _ Hin Hl'). lia.
      * rewrite Hleg in Hl'. by injection Hl' as <-.
    + split; [exists b; set_solver|]. intros id' leg' [Hin| ->%list_elem_of_singleton]%elem_of_app Hl'; [by eapply Hmax|].
      rewrite Hleg in Hl'. by injection Hl' as <-.
  - destruct IH as [(b & Hb & Hbl) Hmax]. split; [exists b; set_solver|].
    intros id' leg' [Hin| ->%list_elem_of_singleton]%elem_of_app Hl'; [by eapply Hmax|congruence].
  - split; [exists id; set_solver|]. intros id' leg' [Hin| ->%list_elem_of_singleton]%elem_of_app Hl'.
    + by rewrite IH in Hl'.
    + rewrite Hleg in Hl'. by injection Hl' as <-.
  - intros id' [Hin| ->%list_elem_of_singleton]%elem_of_app; [by apply IH|done].
Qed.

(** What keeps a pool from serving as a fallback: the request names it or its protocol, the
    worker does, or the pool is out of sync. *)
Definition ruled_out market (filter : RouteConstraints) (pool_exclusions : list string) (id : ComponentId) : Prop :=
  id ∈ rc_excluded_pools filter \/ id ∈ unsynced_pools (view_guard market) \/
  exists component entry, get_component (view_guard market) id = Some component /\
    (entry ∈ rc_excluded_protocols filter \/ entry ∈ pool_exclusions) /\
    protocol_matches entry (protocol_system_of component) = true.

Lemma is_excluded_spec market filter pool_exclusions id :
  is_excluded market filter pool_exclusions id = false <-> ~ ruled_out market filter pool_exclusions id.
Proof.
  unfold is_excluded, ruled_out, MarketState_is_unsynced_pool. rewrite <- not_true_iff_false.
  destruct (bool_decide (id ∈ rc_excluded_pools filter)) eqn:Hp; cbn [orb].
  { apply bool_decide_eq_true in Hp. tauto. }
  destruct (bool_decide (id ∈ unsynced_pools _)) eqn:Hu.
  { apply bool_decide_eq_true in Hu. tauto. }
  apply bool_decide_eq_false in Hp, Hu. destruct (get_component _ id) as [component|]; [|naive_solver].
  apply not_iff_compat. rewrite existsb_exists. setoid_rewrite <- list_elem_of_In.
  setoid_rewrite elem_of_app. setoid_rewrite elem_of_elements. naive_solver.
Qed.

Lemma select_fallback_exact swap market index filter pool_exclusions : index_current (view_guard market) index ->
  let can_serve := serves (view_guard market) (sw_token_in swap) (sw_token_out swap) in
  let admitted id := can_serve id /\ ~ ruled_out market filter pool_exclusions id in
  match select_fallback swap market index filter pool_exclusions with
  | Ok leg => is_best market swap admitted leg
  | Err (FE_NoFallbackPool id token_in token_out) =>
      id = sw_component_id swap /\ token_in = sw_token_in swap /\ token_out = sw_token_out swap /\ forall id, ~ can_serve id
  | Err (FE_AllPoolsExcluded id) =>
      id = sw_component_id swap /\ (exists id, can_serve id) /\ forall id, ~ admitted id
  | Err (FE_SimulationFailed id) =>
      id = sw_component_id swap /\ (exists id, admitted id) /\ forall id, admitted id -> leg_on market swap id = None
  | Err _ => False
  end.
Proof.
  intros Hidx can_serve admitted. unfold select_fallback.
  pose proof (candidates_spec (view_guard market) index (sw_token_in swap) (sw_token_out swap)) as Hc.
  assert (forall id, id ∈ candidates_for index (sw_token_in swap) (sw_token_out swap) <-> can_serve id) as Hserve
    by (intros id; by apply Hc).
  clear Hc. destruct (candidates_for index _ _) as [|first candidates] eqn:Hcand.
  { rewrite bool_decide_eq_true_2 by done. split_and!; [done..|]. intros id Hs. apply Hserve in Hs. by apply elem_of_nil in Hs. }
  rewrite bool_decide_eq_false_2 by done. set (l := List.filter _ _).
  assert (forall id, id ∈ l <-> admitted id) as Hadm.
  { intros id. unfold l. rewrite elem_of_filterb, Hserve, negb_true_iff, is_excluded_spec. done. }
  assert (exists id, can_serve id) as Hsome by (exists first; apply Hserve; left).
  destruct l as [|first' l'] eqn:Hl.
  { rewrite bool_decide_eq_true_2 by done. split_and!; [done..|]. intros id Ha. apply Hadm in Ha. by apply elem_of_nil in Ha. }
  rewrite bool_decide_eq_false_2 by done.
  assert (exists id, admitted id) as Hany by (exists first'; apply Hadm; left).
  destruct (tokens (view_guard market) !! sw_token_in swap) as [token_in|] eqn:Hin; cycle 1.
  { split_and!; [done..|]. intros id _. unfold leg_on. by rewrite Hin. }
  destruct (tokens (view_guard market) !! sw_token_out swap) as [token_out|] eqn:Hout; cycle 1.
  { split_and!; [done..|]. intros id _. unfold leg_on. by rewrite Hin, Hout. }
  assert (forall id, leg_on market swap id = candidate_leg market swap token_in token_out id) as Hleg
    by (intros id; unfold leg_on; by rewrite Hin, Hout).
  pose proof (consider_candidates market swap token_in token_out (first' :: l')) as Hbest.
  destruct (fold_left _ (first' :: l') None) as [leg|].
  - destruct Hbest as [(id & Hid & Hl') Hmax]. split.
    + exists id. rewrite Hleg. split; [by apply Hadm|done].
    + intros id' leg' Ha Hl''. apply (Hmax id'); [by apply Hadm|by rewrite <- Hleg].
  - split_and!; [done..|]. intros id Ha. rewrite Hleg. apply Hbest. by apply Hadm.
Qed.

(** How a swap of the priced route comes from the swap it was. *)
Definition stamped_from market filter pool_exclusions swap (swap' : Swap) : Prop :=
  if is_fallback_swap swap then
    exists leg, swap' = Swap_set_fallback swap leg /\
      is_best market swap (fun id => serves (view_guard market) (sw_token_in swap) (sw_token_out swap) id /\
                                     ~ ruled_out market filter pool_exclusions id) leg
  else swap' = swap.

Lemma stamp_fallbacks_spec market index filter pool_exclusions swaps : index_current (view_guard market) index ->
  match stamp_fallbacks market index filter pool_exclusions swaps with
  | Ok stamped => Forall2 (stamped_from market filter pool_exclusions) swaps stamped
  | Err e => exists before swap after, swaps = before ++ swap :: after /\ is_fallback_swap swap = true /\
      select_fallback swap market index filter pool_exclusions = Err e /\
      Forall (fun s => is_fallback_swap s = true -> is_ok (select_fallback s market index filter pool_exclusions) = true) before
  end.
Proof.
  intros Hidx. induction swaps as [|swap swaps IH]; [constructor|]. cbn [stamp_fallbacks].
  destruct (is_fallback_swap swap) eqn:Hf; cbn [negb].
  - pose proof (select_fallback_exact swap market index filter pool_exclusions Hidx) as Hs.
    destruct (select_fallback swap market index filter pool_exclusions) as [leg|e] eqn:Hsel; cbn [mbind result_bind].
    + destruct (stamp_fallbacks _ _ _ _ swaps) as [stamped|e]; cbn [mbind result_bind].
      * constructor; [|done]. unfold stamped_from. rewrite Hf. by exists leg.
      * destruct IH as (before & s & after & -> & Hs' & He & Hb). exists (swap :: before), s, after.
        split_and!; [done..|]. constructor; [by rewrite Hsel|done].
    + exists [], swap, swaps. split_and!; [done..|constructor].
  - destruct (stamp_fallbacks _ _ _ _ swaps) as [stamped|e]; cbn [mbind result_bind].
    + constructor; [|done]. unfold stamped_from. by rewrite Hf.
    + destruct IH as (before & s & after & -> & Hs' & He & Hb). exists (swap :: before), s, after.
      split_and!; [done..|]. constructor; [by rewrite Hf|done].
Qed.
End best.

Section pricing.
Context `{TychoFallbackData} `{!TychoSwaps} `{!Messages} (show_replay_error : ReplayError -> string).

Lemma substitute_split swap : sw_split (substitute_fallback swap) = sw_split swap.
Proof. unfold substitute_fallback. by destruct (sw_fallback swap). Qed.

Lemma set_fallback_split swap leg : sw_split (Swap_set_fallback swap leg) = sw_split swap.
Proof. by destruct swap. Qed.

(** C31: pricing a route through its fallbacks never panics and is exact. It answers a route
    that differs only in the fallbacks of its pAMM legs. Each is the pool that pays the most for
    the leg's input among all pools of the market that can serve the leg's pair, that neither
    the request, the worker nor the market's synchronization excludes, and that the router can
    encode and the market can price; and the amount is what the replay of the route pays on the
    view the request was solved on with each pAMM leg moved to its fallback. It fails with the
    error of the first pAMM leg that has no such pool; or else every leg got its pool, and it is
    the replay of that same route on that same view that fails, with its error. *)
Theorem fallbacks_priced route market index filter pool_exclusions :
  index_current (view_guard market) index -> Forall (fun s => canonical (sw_split s) = true) (rt_swaps route) ->
  exists r, price_through_fallbacks show_replay_error route market index filter pool_exclusions = Ret r /\
  match r with
  | Ok (route', amount) =>
      Forall2 (stamped_from market filter pool_exclusions) (rt_swaps route) (rt_swaps route') /\
      rt_tokens route' = rt_tokens route /\
      exists substituted replay, Route_new (substitute_fallbacks route') [] = Ok substituted /\
        replay_route substituted (extract_subset_with_overlay market
          (list_to_set (sw_component_id <$> substitute_fallbacks route'))) = Ret (Ok replay) /\
        amount = rp_amount_out replay
  | Err e =>
      (exists before swap after, rt_swaps route = before ++ swap :: after /\ is_fallback_swap swap = true /\
        select_fallback swap market index filter pool_exclusions = Err e /\
        Forall (fun s => is_fallback_swap s = true -> is_ok (select_fallback s market index filter pool_exclusions) = true) before) \/
      exists stamped, Forall2 (stamped_from market filter pool_exclusions) (rt_swaps route) stamped /\
        let route' := with_swaps route stamped in
        match Route_new (substitute_fallbacks route') [] with
        | Err error => e = FE_ReplayFailed (show_route_error error)
        | Ok substituted => exists error, e = FE_ReplayFailed (show_replay_error error) /\
            replay_route substituted (extract_subset_with_overlay market
              (list_to_set (sw_component_id <$> substitute_fallbacks route'))) = Ret (Err error)
        end
  end.
Proof.
  intros Hidx Hsplit. unfold price_through_fallbacks.
  pose proof (stamp_fallbacks_spec market index filter pool_exclusions (rt_swaps route) Hidx) as Hst.
  destruct (stamp_fallbacks _ _ _ _ _) as [swaps|e]; [|eexists; split; [done|by left]]. cbn zeta.
  set (route' := with_swaps route swaps).
  destruct (Route_new (substitute_fallbacks route') []) as [substituted|error] eqn:Hnew.
  2: { eexists. split; [done|]. right. exists swaps. split; [exact Hst|]. cbn zeta. fold route'. by rewrite Hnew. }
  assert (rt_swaps substituted = substitute_fallbacks route') as Hsw
    by (unfold Route_new in Hnew; destruct (substitute_fallbacks route'); [done|by injection Hnew as <-]).
  destruct (replay_route_returns substituted
    (extract_subset_with_overlay market (list_to_set (sw_component_id <$> substitute_fallbacks route')))) as (r & Hr).
  { rewrite Hsw. apply Forall_fmap. cbn [rt_swaps route' with_swaps].
    eapply Forall2_Forall_r; [exact Hst|]. eapply Forall_impl; [exact Hsplit|]. cbn. intros s Hc s' Hs'.
    rewrite substitute_split. unfold stamped_from in Hs'. destruct (is_fallback_swap s).
    - destruct Hs' as (leg & -> & _). rewrite set_fallback_split. by apply canonical_rounded.
    - subst s'. by apply canonical_rounded. }
  rewrite Hr. cbn [mbind outcome_bind]. destruct r as [replay|error].
  2: { eexists. split; [done|]. right. exists swaps. split; [exact Hst|]. cbn zeta. fold route'. rewrite Hnew. by exists error. }
  eexists. split; [done|]. split; [exact Hst|]. split; [done|]. by exists substituted, replay.
Qed.
End pricing.
