(* ===== verification/Replace.v ===== *)
(** * Replace: the search of the replacing post-processors

    Models [fynd-core/src/post_process/replace.rs] and the request of [post_process/mod.rs]. A
    search takes a route and the components it may use. It tries each in place of a target of the
    route, a swap or a segment between two tokens that every path crosses, and keeps the
    replacement that raises the net amount out most. The clock is the sequence of its answers to
    whether the deadline passed; a finder of replacements is an instance of a class. *)

From stdpp Require Import prelude gmap sets strings list sorting.
From Stdlib Require Import NArith ZArith Lia.
From S2P Require Import Prelude F64 Types Route Allocation DerivedStore Manager MarketData SwapCache Algorithm SplitMath Replay.

(** ** The components a replacer may use *)

Record ReplacementComponentIndex := {
  by_token : gmap Address (gset ComponentId);
  tokens_of : gmap ComponentId (list Address);
}.

Definition ReplacementComponentIndex_default : ReplacementComponentIndex := {| by_token := ∅; tokens_of := ∅ |}.

Definition ReplacementComponentIndex_is_empty (index : ReplacementComponentIndex) : bool :=
  bool_decide (tokens_of index = ∅).

Definition file_token (id : ComponentId) (by_token : gmap Address (gset ComponentId)) (token : Address)
    : gmap Address (gset ComponentId) :=
  <[token := {[ id ]} ∪ default ∅ (by_token !! token)]> by_token.

Definition unfile_token (id : ComponentId) (by_token : gmap Address (gset ComponentId)) (token : Address)
    : gmap Address (gset ComponentId) :=
  match by_token !! token with
  | Some ids =>
      let ids := ids ∖ {[ id ]} in
      if decide (ids = ∅) then delete token by_token else <[token := ids]> by_token
  | None => by_token
  end.

Definition ReplacementComponentIndex_insert (index : ReplacementComponentIndex) (id : ComponentId)
    (tokens : list Address) : ReplacementComponentIndex :=
  {| by_token := fold_left (file_token id) tokens (by_token index);
     tokens_of := <[id := tokens]> (tokens_of index) |}.

Definition ReplacementComponentIndex_remove (index : ReplacementComponentIndex) (id : ComponentId)
    : ReplacementComponentIndex :=
  match tokens_of index !! id with
  | None => index
  | Some tokens =>
      {| by_token := fold_left (unfile_token id) tokens (by_token index);
         tokens_of := delete id (tokens_of index) |}
  end.

Definition count_id (counts : gmap ComponentId nat) (id : ComponentId) : gmap ComponentId nat :=
  <[id := S (default O (counts !! id))]> counts.

Definition count_token (index : ReplacementComponentIndex) (counts : gmap ComponentId nat) (token : Address)
    : gmap ComponentId nat :=
  fold_left count_id (elements (default ∅ (by_token index !! token))) counts.

(** The ids come in their order. *)
Definition find_touching (index : ReplacementComponentIndex) (tokens : gset Address) : list ComponentId :=
  let counts := fold_left (count_token index) (elements tokens) ∅ in
  merge_sort String.le (map_to_list (filter (fun kv => (2 <= kv.2)%nat) counts)).*1.

Section index.
Context `{TychoMarket} (is_member : ProtocolComponent -> bool).
Implicit Types (st : MarketState) (index : ReplacementComponentIndex).

Definition index_member st index (id : ComponentId) : ReplacementComponentIndex :=
  match get_component st id with
  | Some component =>
      if is_member component then ReplacementComponentIndex_insert index id (component_tokens_of component) else index
  | None => index
  end.

Definition build_index st : ReplacementComponentIndex :=
  fold_left (fun index system => fold_left (index_member st) (elements (system_components st system)) index)
    (map_to_list (component_counts_by_protocol st)).*1 ReplacementComponentIndex_default.

Definition index_addition st index (addition : ComponentId * ComponentTopology) : ReplacementComponentIndex :=
  let index := ReplacementComponentIndex_remove index addition.1 in
  match get_component st addition.1 with
  | Some component =>
      if is_member component then ReplacementComponentIndex_insert index addition.1 (tp_tokens addition.2) else index
  | None => index
  end.

(** [st] is the market when the event is handled. *)
Definition update_index st index (event : MarketEvent) : ReplacementComponentIndex :=
  let index := fold_left ReplacementComponentIndex_remove (removed_components event) index in
  fold_left (index_addition st) (map_to_list (added_components event)) index.
End index.

(** ** The request and the liquidity of a search *)

(** The replacers do not read the derived data. *)
Record PostProcessRequest `{TychoMarket} := {
  pr_order : Order;
  pr_market : MarketData;
  pr_label : option StateLabel;
  pr_constraints : ResolvedRouteConstraints;
  pr_pool_drops : option (ProtocolComponent -> bool);
  pr_exclusive_access : ExclusiveAccess;
  (** Whether the deadline has passed at the search's n-th reading of the clock. *)
  pr_late : nat -> bool;
}.

Section search.
Context `{TychoMarket} `{!Messages} `{!TychoSwaps}.
Implicit Types (swap : Swap) (swaps : list Swap).

Definition drops_component (request : PostProcessRequest) (component : ProtocolComponent) : bool :=
  match pr_pool_drops request with Some drops => drops component | None => false end.

Record ReplacementLiquidity := {
  rl_swaps : list Swap;
  rl_tokens : gmap Address Token;
}.

(** One end of a swap of the route. *)
Definition add_route_token (market : MarketState) (acc : gset Address * gmap Address Token) (address : Address)
    : gset Address * gmap Address Token :=
  ({[ address ]} ∪ acc.1,
   match tokens market !! address, acc.2 !! address with
   | Some token, None => <[address := token]> acc.2
   | _, _ => acc.2
   end).

Definition route_tokens (market : MarketState) (route : Route) : gset Address * gmap Address Token :=
  fold_left (fun acc swap => add_route_token market (add_route_token market acc (sw_token_in swap)) (sw_token_out swap))
    (rt_swaps route) (∅, rt_tokens route).

Definition liquidity_swap (view : MarketDataView) (request : PostProcessRequest) (id : ComponentId) : option Swap :=
  if excludes_pool (pr_constraints request) id then None
  else match get_component (view_guard view) id, view_get_simulation_state view id with
  | Some component, Some state =>
      match component_tokens_of component with
      | token_in :: token_out :: _ =>
          if drops_component request component then None
          else Some (Swap_new id (protocol_system_of component) token_in token_out 0 0 0 component state)
      | _ => None
      end
  | _, _ => None
  end.

Definition from_market_for_route (index : ReplacementComponentIndex) (view : MarketDataView)
    (request : PostProcessRequest) (route : Route) : ReplacementLiquidity :=
  let '(route_tokens, tokens) := route_tokens (view_guard view) route in
  {| rl_swaps := omap (liquidity_swap view request) (find_touching index route_tokens); rl_tokens := tokens |}.

(** ** The gas of the original route *)

Record OriginalRouteGasCost := { gas_cost_out : Z; og_gas : Z }.

Definition from_route_result (result : RouteResult) (output_token : Address) : option OriginalRouteGasCost :=
  let gas := Z.of_N (total_gas (rr_route result)) in
  if (gas =? 0)%Z then None
  else
    let amount_out := Z.of_N (Route_amount_out (rr_route result) output_token) in
    Some {| gas_cost_out := Z.max (amount_out - rr_net_amount_out result) 0; og_gas := gas |}.

(** Division by zero panics; [BigInt] division truncates. *)
Definition gas_net_amount_out (cost : OriginalRouteGasCost) (simulated : SimulatedRoute) : outcome Z :=
  if (og_gas cost =? 0)%Z then Panic
  else Ret (Z.of_N (sim_total_out simulated)
            - Z.quot (gas_cost_out cost * Z.of_N (sim_total_gas simulated)) (og_gas cost))%Z.

(** ** Targets and candidates *)

Record ReplacementTarget := {
  replaced_indices : list nat;
  tg_token_in : Address;
  tg_token_out : Address;
  tg_split : f64;
}.

Record CandidateRoute := {
  cr_swaps : list Swap;
  cr_amount_out : N;
  cr_net_amount_out : Z;
  cr_committed_amount_out : option N;
}.

Definition CandidateRoute_with_commitment (candidate : CandidateRoute) (committed_amount_out : N) : CandidateRoute :=
  {| cr_swaps := cr_swaps candidate; cr_amount_out := cr_amount_out candidate;
     cr_net_amount_out := cr_net_amount_out candidate; cr_committed_amount_out := Some committed_amount_out |}.

Record RouteEvaluator := {
  ev_original : RouteResult;
  ev_late : nat -> bool;
  ev_gas_cost : OriginalRouteGasCost;
  ev_tokens : gmap Address Token;
  ev_input_token : Address;
  ev_output_token : Address;
  ev_total_in : N;
  ev_original_amount_out : N;
}.

(** ** Simulation *)

Fixpoint replace_from (index : nat) swaps (replaced : list nat) (replacement : list Swap) : list Swap :=
  match swaps with
  | [] => []
  | swap :: swaps =>
      (if bool_decide (head replaced = Some index) then replacement else [])
      ++ (if bool_decide (index ∈ replaced) then [] else [swap])
      ++ replace_from (S index) swaps replaced replacement
  end.

Definition replace_target_swaps swaps (replaced : list nat) (replacement : list Swap) : list Swap :=
  replace_from O swaps replaced replacement.

Definition simulate (ev : RouteEvaluator) swaps : outcome (result ReplayError SimulatedRoute) :=
  simulate_swaps (fun address => ev_tokens ev !! address) (fun swap => Some (sw_protocol_state swap)) swaps
    {| end_input_token := ev_input_token ev; end_output_token := ev_output_token ev; end_total_in := ev_total_in ev |}.

Definition simulate_baseline (ev : RouteEvaluator) swaps : outcome (option Z) :=
  simulated ← simulate ev swaps;
  match simulated with
  | Ok simulated => net ← gas_net_amount_out (ev_gas_cost ev) simulated; Ret (Some net)
  | Err _ => Ret None
  end.

(** The swap again, with the amounts and gas of the simulation. *)
Definition simulated_swap swap (simulated : SimulatedSwap) : Swap :=
  Swap_with_split
    (Swap_new (sw_component_id swap) (sw_protocol swap) (sw_token_in swap) (sw_token_out swap)
       (sim_amount_in simulated) (sim_amount_out simulated) (sim_gas simulated)
       (sw_protocol_component swap) (sw_protocol_state swap))
    (sw_split swap).

Definition simulate_replacement (ev : RouteEvaluator) swaps (target : ReplacementTarget) (replacement : list Swap)
    : outcome (option CandidateRoute) :=
  let ordered := replace_target_swaps swaps (replaced_indices target) replacement in
  simulated ← simulate ev ordered;
  match simulated with
  | Err _ => Ret None
  | Ok simulated =>
      net ← gas_net_amount_out (ev_gas_cost ev) simulated;
      Ret (Some {| cr_swaps := zip_with simulated_swap ordered (sim_swaps simulated);
                   cr_amount_out := sim_total_out simulated;
                   cr_net_amount_out := net;
                   cr_committed_amount_out := None |})
  end.

Definition can_replace swap (target : ReplacementTarget) (route_swaps : list Swap) : bool :=
  let tokens := component_tokens_of (sw_protocol_component swap) in
  bool_decide (tg_token_in target ∈ tokens) && bool_decide (tg_token_out target ∈ tokens)
  && negb (existsb (fun route_swap => bool_decide (sw_component_id route_swap = sw_component_id swap)) route_swaps).

Definition replace_with_swap swap (target : ReplacementTarget) (route_swaps : list Swap) (ev : RouteEvaluator)
    (min_net_amount_out : Z) : outcome (option CandidateRoute) :=
  candidate ← simulate_replacement ev route_swaps target
    [Swap_retarget swap (tg_token_in target) (tg_token_out target) (tg_split target)];
  Ret (match candidate with
       | Some c => if (min_net_amount_out <? cr_net_amount_out c)%Z then Some c else None
       | None => None
       end).

(** ** Targets of a route *)

Inductive Direction := Forward | Backward.

Definition reach_forward (reached : gset Address) swap : gset Address :=
  if bool_decide (sw_token_in swap ∈ reached) then {[ sw_token_out swap ]} ∪ reached else reached.

Definition reach_backward (reached : gset Address) swap : gset Address :=
  if bool_decide (sw_token_out swap ∈ reached) then {[ sw_token_in swap ]} ∪ reached else reached.

Definition find_reachable swaps (start : Address) (direction : Direction) : gset Address :=
  match direction with
  | Forward => fold_left reach_forward swaps {[ start ]}
  | Backward => fold_left reach_backward (reverse swaps) {[ start ]}
  end.

Definition reach_without (excluded_token : Address) (reached : gset Address) swap : gset Address :=
  if bool_decide (sw_token_out swap <> excluded_token) && bool_decide (sw_token_in swap ∈ reached)
  then {[ sw_token_out swap ]} ∪ reached else reached.

Definition can_reach_output_without_token swaps (input_token output_token excluded_token : Address) : bool :=
  bool_decide (output_token ∈ fold_left (reach_without excluded_token) swaps {[ input_token ]}).

(** The tokens seen, and the cuts so far. *)
Definition visit_cut swaps (input output : Address) (acc : gset Address * list Address) swap
    : gset Address * list Address :=
  let token := sw_token_out swap in
  if bool_decide (token = output) then acc
  else if bool_decide (token ∈ acc.1) then acc
  else ({[ token ]} ∪ acc.1,
        if can_reach_output_without_token swaps input output token then acc.2 else acc.2 ++ [token]).

Definition find_cut_tokens swaps : list Address :=
  match head swaps, last swaps with
  | Some first, Some last =>
      let input := sw_token_in first in
      let output := sw_token_out last in
      (fold_left (visit_cut swaps input output) swaps (∅, [input])).2 ++ [output]
  | _, _ => []
  end.

Definition in_segment (downstream upstream : gset Address) swap : bool :=
  bool_decide (sw_token_in swap ∈ downstream) && bool_decide (sw_token_out swap ∈ upstream).

Definition segment_indices swaps (ends : Address * Address) : list nat :=
  let downstream := find_reachable swaps ends.1 Forward in
  let upstream := find_reachable swaps ends.2 Backward in
  (List.filter (fun entry => in_segment downstream upstream entry.2) (imap (fun index swap => (index, swap)) swaps)).*1.

Definition segment_target swaps (ends : Address * Address) : option ReplacementTarget :=
  let indices := segment_indices swaps ends in
  if (1 <? length indices)%nat
  then Some {| replaced_indices := indices; tg_token_in := ends.1; tg_token_out := ends.2; tg_split := F64.zero |}
  else None.

Definition build_segment_targets swaps : list ReplacementTarget :=
  omap (segment_target swaps) (pairs (find_cut_tokens swaps)).

Definition drops_token (target : ReplacementTarget) (required_tokens : gset Address) (token : Address) : bool :=
  bool_decide (token <> tg_token_in target) && bool_decide (token <> tg_token_out target)
  && bool_decide (token ∈ required_tokens).

(** Indexing past the end of the swaps panics. *)
Fixpoint drops_required_token_at swaps (target : ReplacementTarget) (required_tokens : gset Address)
    (indices : list nat) : outcome bool :=
  match indices with
  | [] => Ret false
  | index :: indices =>
      match swaps !! index with
      | None => Panic
      | Some swap =>
          if drops_token target required_tokens (sw_token_in swap)
             || drops_token target required_tokens (sw_token_out swap)
          then Ret true
          else drops_required_token_at swaps target required_tokens indices
      end
  end.

Definition drops_required_token swaps (target : ReplacementTarget) (required_tokens : gset Address) : outcome bool :=
  drops_required_token_at swaps target required_tokens (replaced_indices target).

Definition swap_target (index : nat) swap : ReplacementTarget :=
  {| replaced_indices := [index]; tg_token_in := sw_token_in swap; tg_token_out := sw_token_out swap;
     tg_split := sw_split swap |}.

Fixpoint push_segment_targets swaps (required_tokens : gset Address) (segments targets : list ReplacementTarget)
    : outcome (list ReplacementTarget) :=
  match segments with
  | [] => Ret targets
  | target :: segments =>
      drops ← drops_required_token swaps target required_tokens;
      push_segment_targets swaps required_tokens segments (if drops : bool then targets else targets ++ [target])
  end.

Definition build_targets swaps (required_tokens : gset Address) : outcome (list ReplacementTarget) :=
  push_segment_targets swaps required_tokens (build_segment_targets swaps) (imap swap_target swaps).

(** ** The search *)

(** A finder decides which swaps may replace a target and finds the best route that puts one in
    its place. It may read the clock: it takes and returns the number of readings so far. *)
Class ReplacementFinder : Type := {
  can_replace_target : Swap -> ReplacementTarget -> list Swap -> RouteEvaluator -> bool;
  find_best_replacement_route : Swap -> ReplacementTarget -> list Swap -> RouteEvaluator -> Z -> nat ->
    outcome (option CandidateRoute * nat);
}.

Record ReplacementSolver := {
  rv_evaluator : RouteEvaluator;
  rv_swaps : list Swap;
  rv_required_tokens : gset Address;
}.

Definition ReplacementSolver_new (liquidity : ReplacementLiquidity) (request : PostProcessRequest)
    (original : RouteResult) : option ReplacementSolver :=
  if bool_decide (rl_swaps liquidity = []) then None
  else match input_token (rr_route original), output_token (rr_route original) with
  | Some input, Some output =>
      if bool_decide (input = output) then None
      else match from_route_result original output with
      | None => None
      | Some gas_cost =>
          Some {|
            rv_evaluator := {|
              ev_original := original; ev_late := pr_late request; ev_gas_cost := gas_cost;
              ev_tokens := rl_tokens liquidity; ev_input_token := input; ev_output_token := output;
              ev_total_in := order_amount (pr_order request);
              ev_original_amount_out := Route_amount_out (rr_route original) output |};
            rv_swaps := rl_swaps liquidity;
            rv_required_tokens := rrc_required_tokens (pr_constraints request) |}
      end
  | _, _ => None
  end.

Section solver.
Context `{!ReplacementFinder}.
Implicit Types (solver : ReplacementSolver) (best : option CandidateRoute).

(** The swaps in place of one target; [stop] tells that the deadline passed. *)
Fixpoint try_swaps (ev : RouteEvaluator) (target : ReplacementTarget) (route_swaps candidates : list Swap)
    (best : option CandidateRoute) (best_net : Z) (k : nat) : outcome (option CandidateRoute * Z * nat * bool) :=
  match candidates with
  | [] => Ret (best, best_net, k, false)
  | swap :: candidates =>
      if negb (can_replace_target swap target route_swaps ev)
      then try_swaps ev target route_swaps candidates best best_net k
      else if ev_late ev k then Ret (best, best_net, S k, true)
      else
        '(candidate, k) ← find_best_replacement_route swap target route_swaps ev best_net (S k);
        match candidate with
        | None => try_swaps ev target route_swaps candidates best best_net k
        | Some c => try_swaps ev target route_swaps candidates (Some c) (cr_net_amount_out c) k
        end
  end.

Fixpoint try_targets solver (route_swaps : list Swap) (targets : list ReplacementTarget)
    (best : option CandidateRoute) (best_net : Z) (k : nat) : outcome (option CandidateRoute * nat) :=
  match targets with
  | [] => Ret (best, k)
  | target :: targets =>
      '(best, best_net, k, stop) ← try_swaps (rv_evaluator solver) target route_swaps (rv_swaps solver) best best_net k;
      if stop : bool then Ret (best, k) else try_targets solver route_swaps targets best best_net k
  end.

Definition best_route solver (route_swaps : list Swap) (current_net : Z) (k : nat)
    : outcome (option CandidateRoute * nat) :=
  targets ← build_targets route_swaps (rv_required_tokens solver);
  try_targets solver route_swaps targets None current_net k.

(** What the rounds change. *)
Record SearchState := {
  ss_swaps : list Swap;
  ss_net : Z;
  ss_committed : option N;
  ss_changed : bool;
}.

Fixpoint replacement_rounds solver (rounds : nat) (st : SearchState) (k : nat) : outcome SearchState :=
  match rounds with
  | O => Ret st
  | S rounds =>
      if ev_late (rv_evaluator solver) k then Ret st
      else
        '(candidate, k) ← best_route solver (ss_swaps st) (ss_net st) (S k);
        match candidate with
        | None => Ret st
        | Some c =>
            replacement_rounds solver rounds
              {| ss_swaps := cr_swaps c; ss_net := cr_net_amount_out c; ss_committed := cr_committed_amount_out c;
                 ss_changed := true |} k
        end
  end.

(** The result of a finished search. *)
Definition replacement_result solver (st : SearchState) : option RouteResult :=
  let ev := rv_evaluator solver in
  let original := ev_original ev in
  if negb (ss_changed st) || (ss_net st <=? rr_net_amount_out original)%Z then None
  else match Route_new (ss_swaps st) (map_to_list (ev_tokens ev)) with
  | Err _ => None
  | Ok route =>
      let result := RouteResult_new route (ss_net st) (rr_gas_price original) in
      Some (match ss_committed st with
            | Some committed => with_commitment result committed (ev_original_amount_out ev)
            | None => result
            end)
  end.

Definition apply_best_replacements solver : outcome (option RouteResult) :=
  let swaps := rt_swaps (rr_route (ev_original (rv_evaluator solver))) in
  net ← simulate_baseline (rv_evaluator solver) swaps;
  match net with
  | None => Ret None
  | Some net =>
      st ← replacement_rounds solver (length swaps)
             {| ss_swaps := swaps; ss_net := net; ss_committed := None; ss_changed := false |} O;
      Ret (replacement_result solver st)
  end.
End solver.
End search.
