(* ===== verification/ReplaceProofs.v ===== *)
(** * ReplaceProofs: what a replaced route is

    The theorems on [Replace]: the search never panics, a route it returns beats the original,
    pays what its swaps' pools answer when it is run, keeps the tokens the request requires and
    uses only pools of the original route and the liquidity of the search. They are proved for
    any finder that keeps the class [FinderLaws]. *)

From stdpp Require Import prelude gmap sets strings list sorting.
From Stdlib Require Import NArith ZArith Lia.
From S2P Require Import Prelude F64 Types Route Allocation DerivedStore Manager MarketData SwapCache Algorithm SplitMath Replay Replace.

(** ** Definitions *)

Section properties.
Context `{TychoMarket} `{!Messages} `{!TychoSwaps}.
Implicit Types (swap s : Swap) (swaps : list Swap).

Definition splits_rounded swaps : Prop := Forall (fun s => rounded (sw_split s)) swaps.

Definition ends_of (ev : RouteEvaluator) : SimulationEnds :=
  {| end_input_token := ev_input_token ev; end_output_token := ev_output_token ev; end_total_in := ev_total_in ev |}.

(** What a replay reads of a swap. *)
Definition same_run (s s' : Swap) : Prop :=
  sw_component_id s = sw_component_id s' /\ sw_token_in s = sw_token_in s' /\ sw_token_out s = sw_token_out s' /\
  sw_protocol_state s = sw_protocol_state s' /\ sw_split s = sw_split s'.

(** Two swaps through one pool in one state. *)
Definition same_pool (s s' : Swap) : Prop :=
  sw_component_id s = sw_component_id s' /\ sw_protocol s = sw_protocol s' /\
  sw_protocol_component s = sw_protocol_component s' /\ sw_protocol_state s = sw_protocol_state s'.

Definition reports (s : Swap) (one : SimulatedSwap) : Prop :=
  sw_amount_in s = sim_amount_in one /\ sw_amount_out s = sim_amount_out one /\ sw_gas_estimate s = sim_gas one.

(** The swaps carry the amounts of their own replay, which pays [amount_out], and [net] after
    the gas at the original route's price. *)
Record replays (ev : RouteEvaluator) (swaps : list Swap) (amount_out : N) (net : Z) : Prop := {
  rp_run : exists sim, simulate ev swaps = Ret (Ok sim) /\ Forall2 reports swaps (sim_swaps sim) /\
    sim_total_out sim = amount_out /\ gas_net_amount_out (ev_gas_cost ev) sim = Ret net;
}.

Definition touches (token : Address) swaps : Prop :=
  exists s, s ∈ swaps /\ (sw_token_in s = token \/ sw_token_out s = token).

Definition gas_cost_ok (cost : OriginalRouteGasCost) : Prop := (0 < og_gas cost /\ 0 <= gas_cost_out cost)%Z.

(** The swaps put in place of a target when the finder tries [swap]. *)
Record stands_in (swap : Swap) (target : ReplacementTarget) (route_swaps replacement : list Swap) : Prop := {
  si_splits : splits_rounded replacement;
  si_pools : Forall (fun s => same_pool s swap \/ exists s', s' ∈ route_swaps /\ same_pool s s') replacement;
  si_in : touches (tg_token_in target) replacement;
  si_out : touches (tg_token_out target) replacement;
}.

(** A candidate comes from simulating the route with the target replaced. *)
Record simulated_as (ev : RouteEvaluator) (swap : Swap) (target : ReplacementTarget) (route_swaps : list Swap)
    (c : CandidateRoute) : Prop := {
  sa_replacement : exists replacement c', stands_in swap target route_swaps replacement /\
    simulate_replacement ev route_swaps target replacement = Ret (Some c') /\
    cr_swaps c = cr_swaps c' /\ cr_amount_out c = cr_amount_out c' /\ cr_net_amount_out c = cr_net_amount_out c';
}.

(** A target of a route. *)
Record target_of (route_swaps : list Swap) (target : ReplacementTarget) : Prop := {
  to_nonempty : replaced_indices target <> [];
  to_indices : Forall (fun i => (i < length route_swaps)%nat) (replaced_indices target);
  to_split : rounded (tg_split target);
}.

(** What a finder promises: it never panics, its candidates were simulated and beat the amount it
    was given, and satisfy [promise]. *)
Class FinderLaws `{!ReplacementFinder} (promise : RouteEvaluator -> CandidateRoute -> Prop) : Prop := {
  finder_ok : forall ev swap target route_swaps min k,
    gas_cost_ok (ev_gas_cost ev) -> splits_rounded route_swaps -> rounded (sw_split swap) ->
    target_of route_swaps target -> can_replace_target swap target route_swaps ev = true ->
    exists r k', find_best_replacement_route swap target route_swaps ev min k = Ret (r, k') /\
      forall c, r = Some c ->
        (min < cr_net_amount_out c)%Z /\ simulated_as ev swap target route_swaps c /\ promise ev c;
}.

(** ** Simulation *)

Lemma simulate_returns ev swaps : splits_rounded swaps ->
  exists r, simulate ev swaps = Ret r /\ forall sim, r = Ok sim -> length (sim_swaps sim) = length swaps.
Proof.
  intros Hall. unfold simulate, simulate_swaps.
  destruct (replay_swaps_lemma (fun a => ev_tokens ev !! a) (fun s => Some (sw_protocol_state s)) (ends_of ev) []
    (ReplayState_new (ends_of ev)) swaps Hall (conserved_new _)) as (r & E & Hr).
  unfold ends_of in E at 1. rewrite E. destruct r as [st|e]; cbn [try_bind]; eexists; (split; [done|]).
  - intros sim [= <-]. by apply (cs_length _ _ _ (Hr st eq_refl)).
  - done.
Qed.

Lemma replay_swaps_same get_token get_state st swaps swaps' :
  (forall s s', same_run s s' -> get_state s = get_state s') -> Forall2 same_run swaps swaps' ->
  replay_swaps get_token get_state st swaps = replay_swaps get_token get_state st swaps'.
Proof.
  intros Hget Hall. revert st. induction Hall as [|s s' swaps swaps' Hs Hall IH]; intros st; [done|].
  cbn [replay_swaps]. assert (replay_swap get_token get_state st s = replay_swap get_token get_state st s') as ->.
  { pose proof (Hget _ _ Hs) as Hg. destruct Hs as (Hid & Hin & Hout & Hst & Hsp).
    unfold replay_swap, replay_sim, take_amount, amount_taken. by rewrite Hid, Hin, Hout, Hsp, Hg. }
  destruct (replay_swap _ _ _ _) as [[st'|e]|]; cbn [try_bind]; [apply IH|done|done].
Qed.

Lemma simulate_same ev swaps swaps' : Forall2 same_run swaps swaps' -> simulate ev swaps = simulate ev swaps'.
Proof.
  intros Hall. unfold simulate, simulate_swaps. erewrite (replay_swaps_same _ (fun swap => Some (sw_protocol_state swap))); [done| |exact Hall].
  by intros s s' (_ & _ & _ & -> & _).
Qed.

Lemma gas_net_returns cost sim : gas_cost_ok cost ->
  exists net, gas_net_amount_out cost sim = Ret net /\ (net <= Z.of_N (sim_total_out sim))%Z.
Proof.
  intros [Hg Hc]. unfold gas_net_amount_out. rewrite (proj2 (Z.eqb_neq _ _)) by lia. eexists. split; [done|].
  rewrite Z.quot_div_nonneg by lia. pose proof (Z.div_pos (gas_cost_out cost * Z.of_N (sim_total_gas sim)) (og_gas cost)). lia.
Qed.

Lemma simulated_swap_run s one : same_run (simulated_swap s one) s.
Proof. done. Qed.

Lemma simulated_swap_reports s one : reports (simulated_swap s one) one.
Proof. done. Qed.

Lemma simulated_swap_pool s one : same_pool (simulated_swap s one) s.
Proof. done. Qed.

(** Rebuilt swaps run as the swaps they were built from, and carry their amounts. *)
Lemma rebuilt swaps sims : length sims = length swaps ->
  Forall2 same_run (zip_with simulated_swap swaps sims) swaps /\
  Forall2 reports (zip_with simulated_swap swaps sims) sims.
Proof.
  revert sims. induction swaps as [|s swaps IH]; intros [|one sims] Hl; try done; cbn [zip_with].
  injection Hl as Hl. destruct (IH _ Hl) as [Hr Ha]. split; constructor; done.
Qed.

Lemma simulate_replacement_lemma ev route_swaps target replacement :
  gas_cost_ok (ev_gas_cost ev) -> splits_rounded (replace_target_swaps route_swaps (replaced_indices target) replacement) ->
  exists r, simulate_replacement ev route_swaps target replacement = Ret r /\
    forall c, r = Some c ->
      replays ev (cr_swaps c) (cr_amount_out c) (cr_net_amount_out c) /\
      (cr_net_amount_out c <= Z.of_N (cr_amount_out c))%Z /\ cr_committed_amount_out c = None /\
      Forall2 same_run (cr_swaps c) (replace_target_swaps route_swaps (replaced_indices target) replacement) /\
      Forall2 same_pool (cr_swaps c) (replace_target_swaps route_swaps (replaced_indices target) replacement).
Proof.
  intros Hg Hsp. unfold simulate_replacement. set (ordered := replace_target_swaps _ _ _) in *.
  destruct (simulate_returns ev ordered Hsp) as (r & Hr & Hl). rewrite Hr. cbn [mbind outcome_bind].
  destruct r as [sim|e]; [|by eexists]. specialize (Hl sim eq_refl).
  destruct (gas_net_returns _ sim Hg) as (net & Hn & Hle). rewrite Hn. cbn [mbind outcome_bind].
  eexists. split; [done|]. intros c [= <-]. cbn [cr_swaps cr_amount_out cr_net_amount_out cr_committed_amount_out].
  destruct (rebuilt ordered (sim_swaps sim) Hl) as [Hrun Hrep]. split_and!; [|done|done|done|].
  - split. exists sim. by rewrite (simulate_same _ _ _ Hrun).
  - clear -Hl. revert Hl. generalize (sim_swaps sim). induction ordered as [|s ordered IH]; intros [|one sims] Hl; try done; cbn.
    constructor; [done|]. apply IH. by injection Hl.
Qed.

(** ** Replacing a target *)

Lemma elem_of_replace_from index swaps replaced replacement s :
  s ∈ replace_from index swaps replaced replacement -> s ∈ replacement \/ s ∈ swaps.
Proof.
  revert index. induction swaps as [|s' swaps IH]; intros index; cbn [replace_from]; [by right|].
  rewrite !elem_of_app. repeat case_bool_decide; intros [?|[?|Hs%IH]]; set_solver.
Qed.

Lemma replace_from_kept index swaps replaced replacement p s :
  swaps !! p = Some s -> (index + p)%nat ∉ replaced -> s ∈ replace_from index swaps replaced replacement.
Proof.
  revert index p. induction swaps as [|s' swaps IH]; intros index [|p] Hp Hn; cbn in Hp; try done;
    cbn [replace_from]; rewrite !elem_of_app.
  - injection Hp as ->. rewrite Nat.add_0_r in Hn. right; left. rewrite bool_decide_eq_false_2 by done. set_solver.
  - right; right. apply (IH _ p Hp). by replace (S index + p)%nat with (index + S p)%nat by lia.
Qed.

Lemma replace_from_inserted index swaps replaced replacement i s :
  head replaced = Some (index + i)%nat -> (i < length swaps)%nat -> s ∈ replacement ->
  s ∈ replace_from index swaps replaced replacement.
Proof.
  revert index i. induction swaps as [|s' swaps IH]; intros index i Hh Hi Hs; cbn in Hi; [lia|].
  cbn [replace_from]. rewrite !elem_of_app. destruct i as [|i].
  - rewrite Nat.add_0_r in Hh. left. by rewrite bool_decide_eq_true_2.
  - right; right. apply (IH _ i); [|lia|done]. rewrite Hh. f_equal. lia.
Qed.

Lemma replaced_splits route_swaps replaced replacement : splits_rounded route_swaps -> splits_rounded replacement ->
  splits_rounded (replace_target_swaps route_swaps replaced replacement).
Proof.
  unfold splits_rounded. rewrite !Forall_forall. intros Hr Hp s [Hs|Hs]%elem_of_replace_from; auto.
Qed.

Lemma same_run_splits swaps swaps' : Forall2 same_run swaps swaps' -> splits_rounded swaps' -> splits_rounded swaps.
Proof.
  unfold splits_rounded. induction 1 as [|s s' swaps swaps' (_ & _ & _ & _ & E) _ IH]; intros Hs; [done|].
  apply Forall_cons in Hs as [Hs Hall]. constructor; [by rewrite E|auto].
Qed.

Lemma same_run_touches swaps swaps' t : Forall2 same_run swaps swaps' -> touches t swaps' -> touches t swaps.
Proof.
  intros Hall (s & Hs & Ht). apply list_elem_of_lookup in Hs as [i Hi].
  destruct (Forall2_lookup_r _ _ _ _ _ Hall Hi) as (s' & Hi' & (_ & Ein & Eout & _)).
  exists s'. split; [by eapply list_elem_of_lookup_2|]. by rewrite Ein, Eout.
Qed.

(** ** Targets *)

Lemma elem_of_filter_imap {A} (p : A -> bool) (l : list A) i :
  i ∈ (List.filter (fun entry => p entry.2) (imap (fun index x => (index, x)) l)).*1 -> (i < length l)%nat.
Proof.
  intros ([j x] & -> & Hin)%list_elem_of_fmap. apply elem_of_filterb in Hin as [Hin _].
  apply elem_of_lookup_imap in Hin as (j' & x' & [= -> ->] & Hj). by eapply lookup_lt_Some.
Qed.

Lemma segment_target_of swaps ends target : segment_target swaps ends = Some target -> target_of swaps target.
Proof.
  unfold segment_target. destruct (Nat.ltb_spec 1 (length (segment_indices swaps ends))) as [Hl|]; [|done].
  intros [= <-]. split; cbn [replaced_indices tg_split].
  - intros E. rewrite E in Hl. cbn in Hl. lia.
  - apply Forall_forall. intros i Hi. by eapply elem_of_filter_imap.
  - exact I.
Qed.

(** A target that can be replaced without losing a required token. *)
Definition keeps_required swaps (required : gset Address) (target : ReplacementTarget) : Prop :=
  forall t i s, t ∈ required -> i ∈ replaced_indices target -> swaps !! i = Some s ->
    sw_token_in s = t \/ sw_token_out s = t -> t = tg_token_in target \/ t = tg_token_out target.

Lemma drops_token_false target required t : drops_token target required t = false -> t ∈ required ->
  t = tg_token_in target \/ t = tg_token_out target.
Proof.
  unfold drops_token. intros Hd Ht. rewrite (bool_decide_eq_true_2 (t ∈ required)), andb_true_r in Hd by done.
  apply andb_false_iff in Hd as [Hd%bool_decide_eq_false|Hd%bool_decide_eq_false]; [left|right]; by apply dec_stable.
Qed.

Lemma drops_required_token_at_lemma swaps target required indices :
  Forall (fun i => (i < length swaps)%nat) indices ->
  exists b, drops_required_token_at swaps target required indices = Ret b /\
    (b = false -> forall t i s, t ∈ required -> i ∈ indices -> swaps !! i = Some s ->
       sw_token_in s = t \/ sw_token_out s = t -> t = tg_token_in target \/ t = tg_token_out target).
Proof.
  induction 1 as [|i indices Hi Hall (b & IHr & IH)]; cbn [drops_required_token_at].
  { exists false. split; [done|]. intros _ t i s _ []%not_elem_of_nil. }
  destruct (lookup_lt_is_Some_2 _ _ Hi) as [s Hs]. rewrite Hs.
  destruct (drops_token _ _ (sw_token_in s) || _) eqn:Hd; [by eexists|].
  apply orb_false_iff in Hd as [Hin Hout]. exists b. split; [done|]. intros Hb t j s' Ht [->|Hj]%elem_of_cons Hs' Htouch.
  - rewrite Hs in Hs'. injection Hs' as <-. destruct Htouch as [<-|<-]; by eapply drops_token_false.
  - by eapply IH.
Qed.

Lemma swap_target_of swaps i s : swaps !! i = Some s -> splits_rounded swaps ->
  target_of swaps (swap_target i s) /\ forall required, keeps_required swaps required (swap_target i s).
Proof.
  intros Hi Hsp. split.
  - split; cbn [swap_target replaced_indices tg_split]; [done| |].
    + constructor; [by eapply lookup_lt_Some|constructor].
    + by eapply (Forall_lookup_1 _ _ _ _ Hsp).
  - intros required t j s' _ ->%list_elem_of_singleton Hs' Ht. rewrite Hi in Hs'. injection Hs' as <-. cbn.
    destruct Ht; [left|right]; done.
Qed.

Lemma build_targets_lemma swaps required : splits_rounded swaps ->
  exists targets, build_targets swaps required = Ret targets /\
    Forall (fun target => target_of swaps target /\ keeps_required swaps required target) targets.
Proof.
  intros Hsp. unfold build_targets.
  assert (Forall (fun target => target_of swaps target /\ keeps_required swaps required target)
            (imap swap_target swaps)) as Hstart.
  { apply Forall_forall. intros target (i & s & -> & Hi)%elem_of_lookup_imap. by destruct (swap_target_of _ _ _ Hi Hsp). }
  assert (Forall (target_of swaps) (build_segment_targets swaps)) as Hseg.
  { apply Forall_forall. intros target (ends & _ & Ht)%list_elem_of_omap. by eapply segment_target_of. }
  revert Hstart. generalize (imap swap_target swaps) as targets.
  induction Hseg as [|target segments Ht Hseg IH]; intros targets Hstart; cbn [push_segment_targets]; [by eexists|].
  unfold drops_required_token.
  destruct (drops_required_token_at_lemma swaps target required _ (to_indices _ _ Ht)) as (b & -> & Hb).
  cbn [mbind outcome_bind]. destruct b; [by apply IH|]. apply IH. apply Forall_app. split; [done|].
  constructor; [|constructor]. split; [done|]. intros t i s. by apply Hb.
Qed.

(** ** Candidates *)

Lemma touches_replaced route_swaps required target swap replacement t :
  target_of route_swaps target -> keeps_required route_swaps required target ->
  stands_in swap target route_swaps replacement -> t ∈ required -> touches t route_swaps ->
  touches t (replace_target_swaps route_swaps (replaced_indices target) replacement).
Proof.
  intros Ht Hk Hs Hreq (s & Hin & Htouch). apply list_elem_of_lookup in Hin as [p Hp].
  assert (forall t', touches t' replacement ->
    touches t' (replace_target_swaps route_swaps (replaced_indices target) replacement)) as Hput.
  { intros t' (s' & Hs' & Ht'). exists s'. split; [|done].
    pose proof (to_nonempty _ _ Ht) as Hne. pose proof (to_indices _ _ Ht) as Hi.
    destruct (replaced_indices target) as [|i rest] eqn:E; [done|].
    apply (replace_from_inserted 0 _ _ _ i); [done| |done]. by inversion Hi. }
  destruct (decide (p ∈ replaced_indices target)) as [Hpr|Hpr].
  - destruct (Hk t p s Hreq Hpr Hp Htouch) as [-> | ->]; apply Hput; apply Hs.
  - exists s. split; [|done]. by apply (replace_from_kept 0 _ _ _ p).
Qed.

(** What the search keeps true of the route it is at. *)
Record route_ok (pools : list Swap) (tokens : Address -> Prop) swaps : Prop := {
  ro_splits : splits_rounded swaps;
  ro_pools : Forall (fun s => exists s', s' ∈ pools /\ same_pool s s') swaps;
  ro_tokens : forall t, tokens t -> touches t swaps;
}.

Lemma same_pool_trans s s' s'' : same_pool s s' -> same_pool s' s'' -> same_pool s s''.
Proof. unfold same_pool. intros (-> & -> & -> & ->). done. Qed.

Lemma candidate_route_ok ev required pools (tokens : Address -> Prop) swap target route_swaps c :
  gas_cost_ok (ev_gas_cost ev) -> route_ok pools tokens route_swaps -> (forall t, tokens t -> t ∈ required) ->
  target_of route_swaps target -> keeps_required route_swaps required target -> swap ∈ pools ->
  simulated_as ev swap target route_swaps c ->
  route_ok pools tokens (cr_swaps c) /\ replays ev (cr_swaps c) (cr_amount_out c) (cr_net_amount_out c).
Proof.
  intros Hg [Hsp Hpools Htok] Hreq Ht Hk Hin [(replacement & c' & Hst & Hsim & Eswaps & Eout & Enet)].
  pose proof (replaced_splits _ (replaced_indices target) _ Hsp (si_splits _ _ _ _ Hst)) as Hsp'.
  destruct (simulate_replacement_lemma ev route_swaps target replacement Hg Hsp') as (r & Hr & Hc).
  rewrite Hr in Hsim. injection Hsim as ->. destruct (Hc c' eq_refl) as (Hrep & _ & _ & Hrun & Hpool).
  rewrite Eswaps, Eout, Enet. split; [split|done].
  - by eapply same_run_splits.
  - apply Forall_forall. intros s Hs. apply list_elem_of_lookup in Hs as [i Hi].
    destruct (Forall2_lookup_l _ _ _ _ _ Hpool Hi) as (s' & Hi' & Hss').
    apply list_elem_of_lookup_2, elem_of_replace_from in Hi' as [Hs'|Hs'].
    + pose proof (proj1 (Forall_forall _ _) (si_pools _ _ _ _ Hst) s' Hs') as [Hp|(s2 & Hs2 & Hp)].
      * exists swap. split; [done|]. by eapply same_pool_trans.
      * destruct (proj1 (Forall_forall _ _) Hpools s2 Hs2) as (s3 & ? & ?). exists s3. split; [done|].
        by eapply same_pool_trans; [|eapply same_pool_trans].
    + destruct (proj1 (Forall_forall _ _) Hpools s' Hs') as (s3 & ? & ?). exists s3. split; [done|].
      by eapply same_pool_trans.
  - intros t Htt. eapply same_run_touches; [done|]. eapply touches_replaced; eauto.
Qed.
(** ** The search *)

Section search.
Context `{!ReplacementFinder} (promise : RouteEvaluator -> CandidateRoute -> Prop) `{!FinderLaws promise}.
Context (ev : RouteEvaluator) (required : gset Address) (original candidates : list Swap) (tokens : Address -> Prop).
Hypothesis Hcost : gas_cost_ok (ev_gas_cost ev).
Hypothesis Hcandidates : splits_rounded candidates.
Hypothesis Htokens : forall t, tokens t -> t ∈ required.
Implicit Types (best : option CandidateRoute).

(** A candidate the search may keep when the route at hand pays [floor]. *)
Record good (floor : Z) (c : CandidateRoute) : Prop := {
  gd_route : route_ok (original ++ candidates) tokens (cr_swaps c);
  gd_replays : replays ev (cr_swaps c) (cr_amount_out c) (cr_net_amount_out c);
  gd_floor : (floor < cr_net_amount_out c)%Z;
  gd_promise : promise ev c;
}.

Record tracked (floor : Z) best (best_net : Z) : Prop := {
  tr_floor : (floor <= best_net)%Z;
  tr_best : forall c, best = Some c -> good floor c;
}.

Lemma try_swaps_lemma floor target route_swaps tried best best_net k :
  route_ok (original ++ candidates) tokens route_swaps -> target_of route_swaps target ->
  keeps_required route_swaps required target -> (forall s, s ∈ tried -> s ∈ candidates) ->
  tracked floor best best_net ->
  exists best' best_net' k' stop, try_swaps ev target route_swaps tried best best_net k = Ret (best', best_net', k', stop)
    /\ tracked floor best' best_net'.
Proof.
  intros Hroute Ht Hk. revert best best_net k. induction tried as [|swap tried IH]; intros best best_net k Hin Htr;
    cbn [try_swaps]; [by eexists _, _, _, _|].
  assert (forall s, s ∈ tried -> s ∈ candidates) as Hin' by (intros s Hs; apply Hin; by right).
  destruct (can_replace_target swap target route_swaps ev) eqn:Hc; cbn [negb]; [|by apply IH].
  destruct (ev_late ev k); [by eexists _, _, _, _|].
  assert (swap ∈ candidates) as Hs by (apply Hin; by left).
  destruct (finder_ok ev swap target route_swaps best_net (S k) Hcost (ro_splits _ _ _ Hroute)
    (proj1 (Forall_forall _ _) Hcandidates swap Hs) Ht Hc) as (r & k' & -> & Hr). cbn [mbind outcome_bind].
  destruct r as [c|]; [|by apply IH]. destruct (Hr c eq_refl) as (Hnet & Hsim & Hp).
  destruct (candidate_route_ok ev required (original ++ candidates) tokens swap target route_swaps c) as [Hr1 Hr2];
    try done. { apply elem_of_app. by right. }
  pose proof (tr_floor _ _ _ Htr) as Hfl. apply IH; [done|]. split; [lia|]. intros c' [= <-]. split; [done|done|lia|done].
Qed.

Lemma try_targets_lemma floor route_swaps targets best best_net k solver :
  rv_evaluator solver = ev -> rv_swaps solver = candidates ->
  route_ok (original ++ candidates) tokens route_swaps ->
  Forall (fun target => target_of route_swaps target /\ keeps_required route_swaps required target) targets ->
  tracked floor best best_net ->
  exists best' k', try_targets solver route_swaps targets best best_net k = Ret (best', k')
    /\ forall c, best' = Some c -> good floor c.
Proof.
  intros Eev Esw Hroute Hall. revert best best_net k. induction Hall as [|target targets [Ht Hk] Hall IH];
    intros best best_net k Htr; cbn [try_targets].
  { eexists _, _. split; [done|]. apply Htr. }
  rewrite Eev, Esw.
  destruct (try_swaps_lemma floor target route_swaps candidates best best_net k Hroute Ht Hk ltac:(done) Htr)
    as (best' & best_net' & k' & stop & -> & Htr'). cbn [mbind outcome_bind].
  destruct stop; [|by apply IH]. eexists _, _. split; [done|]. apply Htr'.
Qed.

Lemma best_route_lemma floor route_swaps k solver :
  rv_evaluator solver = ev -> rv_swaps solver = candidates -> rv_required_tokens solver = required ->
  route_ok (original ++ candidates) tokens route_swaps ->
  exists best k', best_route solver route_swaps floor k = Ret (best, k') /\ forall c, best = Some c -> good floor c.
Proof.
  intros Eev Esw Ereq Hroute. unfold best_route. rewrite Ereq.
  destruct (build_targets_lemma route_swaps required (ro_splits _ _ _ Hroute)) as (targets & -> & Hall).
  cbn [mbind outcome_bind]. by apply try_targets_lemma.
Qed.

(** A search that has changed the route stands at a candidate that beats the first route. *)
Record search_ok (floor : Z) (st : SearchState) : Prop := {
  so_route : route_ok (original ++ candidates) tokens (ss_swaps st);
  so_floor : (floor <= ss_net st)%Z;
  so_changed : ss_changed st = true -> exists c, good floor c /\ ss_swaps st = cr_swaps c /\
    ss_net st = cr_net_amount_out c /\ ss_committed st = cr_committed_amount_out c;
}.

Lemma replacement_rounds_lemma floor rounds st k solver :
  rv_evaluator solver = ev -> rv_swaps solver = candidates -> rv_required_tokens solver = required ->
  search_ok floor st ->
  exists st', replacement_rounds solver rounds st k = Ret st' /\ search_ok floor st'.
Proof.
  intros Eev Esw Ereq. revert st k. induction rounds as [|rounds IH]; intros st k Hst; cbn [replacement_rounds];
    [by eexists|]. destruct (ev_late _ k); [by eexists|].
  destruct (best_route_lemma (ss_net st) (ss_swaps st) (S k) solver Eev Esw Ereq (so_route _ _ Hst))
    as (best & k' & -> & Hb). cbn [mbind outcome_bind]. destruct best as [c|]; [|by eexists].
  destruct (Hb c eq_refl) as [Hr Hp Hf Hpr]. pose proof (so_floor _ _ Hst) as Hfl. apply IH. split; cbn; [done|lia|].
  intros _. exists c. split_and!; try done. split; [done|done|lia|done].
Qed.
End search.

(** What the search of a route returns, for a finder that promises [promise]. *)
Record improves (promise : RouteEvaluator -> CandidateRoute -> Prop) (solver : ReplacementSolver)
    (result : RouteResult) : Prop := {
  im_net : (rr_net_amount_out (ev_original (rv_evaluator solver)) < rr_net_amount_out result)%Z;
  im_splits : splits_rounded (rt_swaps (rr_route result));
  im_gas_price : rr_gas_price result = rr_gas_price (ev_original (rv_evaluator solver));
  im_runs : exists amount_out, replays (rv_evaluator solver) (rt_swaps (rr_route result)) amount_out (rr_net_amount_out result);
  im_required : forall t, t ∈ rv_required_tokens solver -> touches t (rt_swaps (rr_route (ev_original (rv_evaluator solver)))) ->
    touches t (rt_swaps (rr_route result));
  im_pools : forall s, s ∈ rt_swaps (rr_route result) -> exists s',
    (s' ∈ rt_swaps (rr_route (ev_original (rv_evaluator solver))) \/ s' ∈ rv_swaps solver) /\ same_pool s s';
  im_tokens : rt_tokens (rr_route result) = ev_tokens (rv_evaluator solver);
  im_promise : exists c, promise (rv_evaluator solver) c /\ cr_swaps c = rt_swaps (rr_route result) /\
    cr_net_amount_out c = rr_net_amount_out result /\ replays (rv_evaluator solver) (cr_swaps c) (cr_amount_out c) (cr_net_amount_out c) /\
    rr_commitment result = (fun committed => {| cm_committed_amount_out := committed;
      cm_reference_amount_out := ev_original_amount_out (rv_evaluator solver) |}) <$> cr_committed_amount_out c;
}.

Lemma fold_insert_map (m : gmap Address Token) :
  fold_left (fun m kv => <[kv.1 := kv.2]> m) (map_to_list m) ∅ = m.
Proof.
  apply map_eq. intros a.
  assert (forall (l : list (Address * Token)) (m0 : gmap Address Token), NoDup l.*1 ->
    fold_left (fun m kv => <[kv.1 := kv.2]> m) l m0 !! a = from_option Some (m0 !! a) (list_to_map (M:=gmap _ _) l !! a)) as Hf.
  { induction l as [|[b t] l IH]; intros m0 Hnd; [done|]. cbn [fold_left fst snd].
    apply NoDup_cons in Hnd as [Hn Hnd]. rewrite (IH _ Hnd). cbn [list_to_map foldr uncurry fst snd].
    destruct (decide (b = a)) as [->|Hne].
    - rewrite !lookup_insert_eq. rewrite not_elem_of_list_to_map_1 by done. done.
    - by rewrite !lookup_insert_ne. }
  rewrite Hf by apply NoDup_fst_map_to_list. rewrite list_to_map_to_list. by destruct (m !! a).
Qed.

Lemma apply_best_replacements_lemma `{!ReplacementFinder} promise `{!FinderLaws promise} (solver : ReplacementSolver) :
  gas_cost_ok (ev_gas_cost (rv_evaluator solver)) ->
  splits_rounded (rt_swaps (rr_route (ev_original (rv_evaluator solver)))) -> splits_rounded (rv_swaps solver) ->
  exists r, apply_best_replacements solver = Ret r /\ forall result, r = Some result -> improves promise solver result.
Proof.
  intros Hcost Hsp Hcs. unfold apply_best_replacements. set (ev := rv_evaluator solver) in *.
  set (original := rt_swaps (rr_route (ev_original ev))) in *. unfold simulate_baseline.
  destruct (simulate_returns ev original Hsp) as (r & -> & _). cbn [mbind outcome_bind].
  destruct r as [sim|e]; cbn [mbind outcome_bind]; [|by eexists].
  destruct (gas_net_returns _ sim Hcost) as (net & -> & _). cbn [mbind outcome_bind].
  set (st := {| ss_swaps := original; ss_net := net; ss_committed := None; ss_changed := false |}).
  set (kept := fun t => t ∈ rv_required_tokens solver /\ touches t original).
  assert (search_ok promise ev original (rv_swaps solver) kept net st) as Hst.
  { split; [split; [done| |by intros t [_ ?]]|cbn; lia|done]. apply Forall_forall. intros s Hs. exists s.
    split; [apply elem_of_app; by left|done]. }
  destruct (replacement_rounds_lemma promise ev (rv_required_tokens solver) original (rv_swaps solver) kept Hcost Hcs
    (fun t Ht => proj1 Ht) net (length original) st 0 solver eq_refl eq_refl eq_refl Hst) as (st' & -> & [Hroute Hfl Hch]).
  cbn [mbind outcome_bind]. eexists. split; [done|]. intros result. unfold replacement_result. fold ev.
  destruct (ss_changed st') eqn:Ec; cbn [negb orb]; [|done].
  destruct (Z.leb_spec (ss_net st') (rr_net_amount_out (ev_original ev))) as [|Hgt]; [done|].
  destruct (Hch eq_refl) as (c & [Hok Hrep Hf Hpr] & Eswaps & Enet & Ecom). unfold Route_new.
  destruct (ss_swaps st') as [|s0 swaps] eqn:E; [done|]. rewrite <- E in *. intros Hres.
  assert (rt_swaps (rr_route result) = ss_swaps st' /\ rr_net_amount_out result = ss_net st' /\
    rr_gas_price result = rr_gas_price (ev_original ev) /\ rt_tokens (rr_route result) = ev_tokens ev /\
    rr_commitment result = (fun committed => {| cm_committed_amount_out := committed;
      cm_reference_amount_out := ev_original_amount_out ev |}) <$> ss_committed st') as (Es & En & Egp & Et & Ecm).
  { destruct (ss_committed st'); injection Hres as <-; cbn; by rewrite fold_insert_map. }
  clear Hres. split; rewrite ?Es, ?En; try done.
  - apply Hroute.
  - exists (cr_amount_out c). by rewrite Eswaps, Enet.
  - intros t Hreq Ht. by apply (ro_tokens _ _ _ Hroute).
  - intros s Hs. destruct (proj1 (Forall_forall _ _) (ro_pools _ _ _ Hroute) s Hs) as (s' & Hs' & Hp).
    exists s'. split; [by apply elem_of_app in Hs'|done].
  - exists c. by rewrite Ecm, Ecom.
Qed.
End properties.
