(* ===== verification/ReplaceIndex.v ===== *)
(** * ReplaceIndex: the index of a replacer follows the market

    The theorems on the index of [Replace]: an index that is built from a market, or that was
    current and handled the event of a change, lists exactly the members of the market, and
    [find_touching] answers the ids that hold two of the tokens, in their order. *)

From stdpp Require Import prelude gmap sets strings list sorting.
From Stdlib Require Import NArith ZArith Lia.
From S2P Require Import Prelude F64 Types Route Samples DerivedStore Manager MarketData MarketInvariant MarketDataProofs FallbackPools Replace.

(** ** The representation *)

(** The two maps list the same components. *)
Definition index_repr (index : ReplacementComponentIndex) : Prop :=
  forall token id, id ∈ default ∅ (by_token index !! token)
    <-> exists tokens, tokens_of index !! id = Some tokens /\ token ∈ tokens.

Lemma file_token_lookup id m token token' : default ∅ (file_token id m token !! token')
  = if decide (token = token') then {[ id ]} ∪ default ∅ (m !! token') else default (∅ : gset ComponentId) (m !! token').
Proof.
  unfold file_token. case_decide as Ht; [subst; by rewrite lookup_insert_eq|by rewrite lookup_insert_ne].
Qed.

Lemma file_tokens_lookup id tokens m token id' :
  id' ∈ default ∅ (fold_left (file_token id) tokens m !! token) <->
  id' ∈ default ∅ (m !! token) \/ (id' = id /\ token ∈ tokens).
Proof.
  revert m. induction tokens as [|t tokens IH]; intros m; cbn [fold_left]; [set_solver|].
  rewrite IH, file_token_lookup. case_decide; set_solver.
Qed.

Lemma unfile_token_lookup id m token token' : default ∅ (unfile_token id m token !! token')
  = if decide (token = token') then default ∅ (m !! token') ∖ {[ id ]} else default (∅ : gset ComponentId) (m !! token').
Proof.
  unfold unfile_token. destruct (m !! token) as [ids|] eqn:Hm.
  - case_decide as He.
    + case_decide as Ht; [subst; by rewrite lookup_delete_eq, Hm|by rewrite lookup_delete_ne].
    + case_decide as Ht; [subst; by rewrite lookup_insert_eq, Hm|by rewrite lookup_insert_ne].
  - case_decide as Ht; [subst; rewrite Hm; set_solver|done].
Qed.

Lemma unfile_tokens_lookup id tokens m token id' :
  id' ∈ default ∅ (fold_left (unfile_token id) tokens m !! token) <->
  id' ∈ default ∅ (m !! token) /\ ~ (id' = id /\ token ∈ tokens).
Proof.
  revert m. induction tokens as [|t tokens IH]; intros m; cbn [fold_left]; [set_solver|].
  rewrite IH, unfile_token_lookup. case_decide; set_solver.
Qed.

Lemma insert_repr index id tokens : index_repr index -> tokens_of index !! id = None ->
  index_repr (ReplacementComponentIndex_insert index id tokens).
Proof.
  intros Hr Hn token id'. cbn. rewrite file_tokens_lookup, (Hr token id'). destruct (decide (id' = id)) as [->|Hne].
  - rewrite lookup_insert_eq, Hn. naive_solver.
  - rewrite lookup_insert_ne by done. naive_solver.
Qed.

Lemma remove_tokens index id id' : tokens_of (ReplacementComponentIndex_remove index id) !! id'
  = if decide (id = id') then None else tokens_of index !! id'.
Proof.
  unfold ReplacementComponentIndex_remove. destruct (tokens_of index !! id) eqn:Hid; cbn.
  - case_decide as Hd; [subst; by rewrite lookup_delete_eq|by rewrite lookup_delete_ne].
  - case_decide as Hd; [by subst|done].
Qed.

Lemma remove_repr index id : index_repr index -> index_repr (ReplacementComponentIndex_remove index id).
Proof.
  intros Hr token id'. rewrite remove_tokens. unfold ReplacementComponentIndex_remove.
  destruct (tokens_of index !! id) as [tokens|] eqn:Hid; cbn.
  - rewrite unfile_tokens_lookup, (Hr token id'). case_decide as Hd; [subst|]; naive_solver.
  - rewrite (Hr token id'). case_decide as Hd; [subst|]; naive_solver.
Qed.

Lemma removes_spec ids index : index_repr index ->
  index_repr (fold_left ReplacementComponentIndex_remove ids index) /\
  forall id, tokens_of (fold_left ReplacementComponentIndex_remove ids index) !! id
    = if decide (id ∈ ids) then None else tokens_of index !! id.
Proof.
  revert index. induction ids as [|i ids IH]; intros index Hr; cbn [fold_left]; [done|].
  destruct (IH _ (remove_repr index i Hr)) as [Hr' Ht]. split; [done|]. intros id. rewrite Ht, remove_tokens.
  repeat case_decide; set_solver.
Qed.

(** ** What an index must list *)

Section index.
Context `{TychoMarket} (is_member : ProtocolComponent -> bool).
Implicit Types (st : MarketState) (index : ReplacementComponentIndex).

Definition member_tokens st (id : ComponentId) : option (list Address) :=
  match get_component st id with
  | Some component => if is_member component then Some (component_tokens_of component) else None
  | None => None
  end.

Record replacement_index_current st index : Prop := {
  rc_repr : index_repr index;
  rc_tokens : forall id, tokens_of index !! id = member_tokens st id;
}.

(** Building: the ids so far are listed, no other. *)
Lemma index_components_spec st ids index : index_repr index -> NoDup ids ->
  (forall id, id ∈ ids -> tokens_of index !! id = None) ->
  index_repr (fold_left (index_member is_member st) ids index) /\
  forall id, tokens_of (fold_left (index_member is_member st) ids index) !! id
    = if decide (id ∈ ids) then member_tokens st id else tokens_of index !! id.
Proof.
  revert index. induction ids as [|i ids IH]; intros index Hr Hnd Hn; cbn [fold_left]; [done|].
  apply NoDup_cons in Hnd as [Hi Hnd].
  assert (index_repr (index_member is_member st index i) /\
    forall id, tokens_of (index_member is_member st index i) !! id
      = if decide (i = id) then member_tokens st id else tokens_of index !! id) as [Hr1 Ht1].
  { specialize (Hn i ltac:(by left)). unfold index_member, member_tokens.
    destruct (get_component st i) as [c|] eqn:Hc; [destruct (is_member c) eqn:Hm|];
      (split; [by try apply insert_repr|]); intros id; cbn; case_decide as Hd;
      try subst id; rewrite ?Hc, ?Hm, ?lookup_insert_eq; try done; by rewrite lookup_insert_ne. }
  destruct (IH (index_member is_member st index i) Hr1 Hnd) as [Hr2 Ht2].
  { intros id Hid. rewrite Ht1. rewrite decide_False by (by intros ->). apply Hn. by right. }
  split; [done|]. intros id. rewrite Ht2, Ht1. repeat case_decide; set_solver.
Qed.

Lemma system_pass_spec max_sync_lag st systems index : market_ok max_sync_lag st -> index_repr index -> NoDup systems ->
  (forall s id, s ∈ systems -> id ∈ system_components st s -> tokens_of index !! id = None) ->
  let index' := fold_left (fun index system =>
    fold_left (index_member is_member st) (elements (system_components st system)) index) systems index in
  index_repr index' /\
  forall id, ((exists s, s ∈ systems /\ id ∈ system_components st s) -> tokens_of index' !! id = member_tokens st id) /\
    ((forall s, s ∈ systems -> id ∉ system_components st s) -> tokens_of index' !! id = tokens_of index !! id).
Proof.
  intros Hok. cbn zeta. revert index. induction systems as [|s systems IH]; intros index Hr Hnd Hn; cbn [fold_left].
  { split; [done|]. intros id. split; [by intros (? & []%not_elem_of_nil & _)|done]. }
  apply NoDup_cons in Hnd as [Hs Hnd].
  destruct (index_components_spec st (elements (system_components st s)) index Hr (NoDup_elements _)) as [Hr1 Ht1].
  { intros id Hid%elem_of_elements. apply (Hn s); [by left|done]. }
  assert (forall s' id, s' ∈ systems -> id ∈ system_components st s' -> id ∉ system_components st s) as Hother.
  { intros s' id Hs' Hid' Hid. apply (mk_index _ _ Hok) in Hid as (c & Hc & E). apply (mk_index _ _ Hok) in Hid' as (c' & Hc' & E').
    rewrite Hc in Hc'. injection Hc' as <-. congruence. }
  destruct (IH _ Hr1 Hnd) as [Hr2 Ht2].
  { intros s' id Hs' Hid. rewrite Ht1. rewrite decide_False by (rewrite elem_of_elements; by eapply Hother).
    apply (Hn s'); [by right|done]. }
  split; [done|]. intros id. destruct (Ht2 id) as [Hin Hout]. split.
  - intros (s' & [->|Hs']%elem_of_cons & Hid); [|by apply Hin; exists s'].
    rewrite Hout by (intros s' Hs' Hid'; by eapply Hother). rewrite Ht1.
    by rewrite decide_True by (by apply elem_of_elements).
  - intros Hno. rewrite Hout by (intros s' Hs'; apply Hno; by right). rewrite Ht1.
    rewrite decide_False; [done|]. rewrite elem_of_elements. apply Hno. by left.
Qed.

Lemma build_index_current max_sync_lag st : market_ok max_sync_lag st -> replacement_index_current st (build_index is_member st).
Proof.
  intros Hok. unfold build_index.
  destruct (system_pass_spec max_sync_lag st (map_to_list (component_counts_by_protocol st)).*1 ReplacementComponentIndex_default Hok)
    as [Hr Ht].
  - intros token id. cbn. rewrite !lookup_empty. split; [set_solver|]. by intros (? & ? & _).
  - apply NoDup_fst_map_to_list.
  - intros. apply lookup_empty.
  - split; [done|]. intros id. destruct (Ht id) as [Hin Hout]. unfold member_tokens, get_component in *.
    destruct (components st !! id) as [stored|] eqn:Hc; cbn in *.
    + apply Hin. exists (protocol_system_of (sc_component stored)).
      assert (id ∈ system_components st (protocol_system_of (sc_component stored))) as Hid
        by (apply (mk_index _ _ Hok); by exists stored).
      split; [|done]. unfold system_components in Hid. unfold component_counts_by_protocol.
      destruct (components_by_protocol st !! protocol_system_of (sc_component stored)) as [ids|] eqn:Hids; [|set_solver].
      apply list_elem_of_fmap. exists (protocol_system_of (sc_component stored), size ids). split; [done|].
      apply elem_of_map_to_list. by rewrite lookup_fmap, Hids.
    + rewrite Hout; [apply lookup_empty|]. intros s _ (stored & Hs & _)%(mk_index _ _ Hok). congruence.
Qed.

(** Following: an addition replaces what was listed. *)
Lemma index_additions_spec st added index : index_repr index -> NoDup added.*1 ->
  index_repr (fold_left (index_addition is_member st) added index) /\
  forall id, tokens_of (fold_left (index_addition is_member st) added index) !! id
    = match list_to_map (M:=gmap ComponentId ComponentTopology) added !! id with
      | Some t => if (match get_component st id with Some c => is_member c | None => false end)
                  then Some (tp_tokens t) else None
      | None => tokens_of index !! id
      end.
Proof.
  revert index. induction added as [|[i t] added IH]; intros index Hr Hnd; cbn [fold_left]; [done|].
  apply NoDup_cons in Hnd as [Hi Hnd]. cbn [fst] in Hi.
  assert (index_repr (index_addition is_member st index (i, t)) /\
    forall id, tokens_of (index_addition is_member st index (i, t)) !! id
      = if decide (i = id) then (if (match get_component st id with Some c => is_member c | None => false end)
                                 then Some (tp_tokens t) else None)
        else tokens_of index !! id) as [Hr1 Ht1].
  { pose proof (remove_repr index i Hr) as Hr1. pose proof (remove_tokens index i) as Ht1.
    unfold index_addition. cbn [fst snd].
    destruct (get_component st i) as [c|] eqn:Hc; [destruct (is_member c) eqn:Hm|].
    - split; [apply insert_repr; [done|]; rewrite Ht1; by rewrite decide_True|].
      intros id. cbn [ReplacementComponentIndex_insert tokens_of]. destruct (decide (i = id)) as [<-|Hne].
      + by rewrite lookup_insert_eq, Hc, Hm.
      + by rewrite lookup_insert_ne, Ht1, decide_False.
    - split; [done|]. intros id. rewrite Ht1. destruct (decide (i = id)) as [<-|]; [by rewrite Hc, Hm|done].
    - split; [done|]. intros id. rewrite Ht1. destruct (decide (i = id)) as [<-|]; [by rewrite Hc|done]. }
  destruct (IH _ Hr1 Hnd) as [Hr2 Ht2]. split; [done|]. intros id. rewrite Ht2, Ht1. cbn [list_to_map foldr uncurry fst snd].
  destruct (decide (i = id)) as [->|Hne].
  - rewrite lookup_insert_eq, (not_elem_of_list_to_map_1 added id) by done. done.
  - by rewrite lookup_insert_ne.
Qed.

(** The components that are not added again keep whether they are members. *)
Definition membership_kept st st' (event : MarketEvent) : Prop :=
  forall id c c', get_component st id = Some c -> get_component st' id = Some c' ->
    added_components event !! id = None -> is_member c = is_member c'.

Lemma update_index_current st st' index event :
  replacement_index_current st index -> membership_kept st st' event ->
  after_event (component_topology st) event = component_topology st' ->
  replacement_index_current st' (update_index is_member st' index event).
Proof.
  intros [Hr Ht] Hkept Hev. unfold update_index.
  destruct (removes_spec (removed_components event) index Hr) as [Hr1 Ht1].
  destruct (index_additions_spec st' (map_to_list (added_components event)) _ Hr1 (NoDup_fst_map_to_list _)) as [Hr2 Ht2].
  split; [done|]. intros id. rewrite Ht2, Ht1, Ht, list_to_map_to_list.
  assert (component_topology st' !! id = if decide (id ∈ removed_components event) then None
    else match added_components event !! id with Some t => Some t | None => component_topology st !! id end) as E
    by (by rewrite <- Hev, after_event_lookup).
  pose proof (topology_of_tokens st id) as Hs. pose proof (topology_of_tokens st' id) as Hs'. rewrite E in Hs'. clear E.
  unfold member_tokens. specialize (Hkept id).
  case_decide; destruct (added_components event !! id) as [t|], (get_component st' id) as [c'|]; cbn in Hs'; try done.
  - injection Hs' as ->. done.
  - destruct (component_topology st !! id) as [t|]; destruct (get_component st id) as [c|]; cbn in Hs, Hs'; try done.
    injection Hs' as E. injection Hs as <-. by rewrite (Hkept c c' eq_refl eq_refl eq_refl), E.
  - by destruct (component_topology st !! id), (get_component st id).
Qed.
End index.

(** ** The components that touch a route *)

Lemma count_ids_lookup ids counts id : NoDup ids ->
  default O (fold_left count_id ids counts !! id) = (default O (counts !! id) + if decide (id ∈ ids) then 1 else 0)%nat.
Proof.
  revert counts. induction ids as [|i ids IH]; intros counts Hnd; cbn [fold_left].
  { rewrite decide_False by (by apply not_elem_of_nil). lia. }
  apply NoDup_cons in Hnd as [Hi Hnd]. rewrite IH by done. unfold count_id.
  destruct (decide (i = id)) as [->|Hne].
  - rewrite lookup_insert_eq, decide_False, decide_True by (done || by left). cbn. lia.
  - rewrite lookup_insert_ne by done. do 2 f_equal. by repeat case_decide; set_solver.
Qed.

Lemma count_tokens_lookup index tokens counts id :
  default O (fold_left (count_token index) tokens counts !! id)
  = (default O (counts !! id) + length (List.filter (fun t => bool_decide (id ∈ default ∅ (by_token index !! t))) tokens))%nat.
Proof.
  revert counts. induction tokens as [|t tokens IH]; intros counts; cbn [fold_left List.filter]; [cbn; lia|].
  rewrite IH. unfold count_token. rewrite count_ids_lookup by apply NoDup_elements.
  destruct (decide (id ∈ default ∅ (by_token index !! t))) as [Hin|Hn].
  - rewrite decide_True by (by apply elem_of_elements). rewrite bool_decide_eq_true_2 by done. cbn [length]. lia.
  - rewrite decide_False by (by rewrite elem_of_elements). rewrite bool_decide_eq_false_2 by done. lia.
Qed.

Lemma elem_of_find_touching index tokens id : index_repr index ->
  id ∈ find_touching index tokens <->
  exists held, tokens_of index !! id = Some held /\
    (2 <= length (List.filter (fun t => bool_decide (t ∈ held)) (elements tokens)))%nat.
Proof.
  intros Hr. unfold find_touching. rewrite merge_sort_Permutation. rewrite list_elem_of_fmap.
  pose proof (count_tokens_lookup index (elements tokens) ∅ id) as Hc. rewrite lookup_empty in Hc. cbn in Hc.
  set (counts := fold_left _ _ _) in *.
  assert ((exists y : ComponentId * nat, id = y.1 /\ y ∈ map_to_list (filter (fun kv => (2 <= kv.2)%nat) counts)) <->
    (2 <= default O (counts !! id))%nat) as ->.
  { split.
    - intros ([i n] & -> & Hin). apply elem_of_map_to_list, map_lookup_filter_Some in Hin as [Hin Hn]. cbn [fst snd] in *.
      by rewrite Hin.
    - intros Hn. destruct (counts !! id) as [n|] eqn:E; cbn in Hn; [|lia]. exists (id, n). split; [done|].
      apply elem_of_map_to_list, map_lookup_filter_Some. done. }
  rewrite Hc. split.
  - intros Hle. destruct (tokens_of index !! id) as [held|] eqn:Hh.
    + exists held. split; [done|]. erewrite List.filter_ext; [exact Hle|]. intros t. apply bool_decide_ext.
      rewrite (Hr t id), Hh. naive_solver.
    + exfalso. destruct (List.filter _ (elements tokens)) as [|t l] eqn:E; cbn in Hle; [lia|].
      assert (t ∈ t :: l) as Hin by left. rewrite <- E in Hin. apply elem_of_filterb in Hin as [_ Hb%bool_decide_eq_true].
      apply (Hr t id) in Hb as (? & ? & _). congruence.
  - intros (held & Hh & Hle). erewrite List.filter_ext; [exact Hle|]. intros t. apply bool_decide_ext.
    rewrite (Hr t id), Hh. naive_solver.
Qed.
