(* ===== verification/Replacers.v ===== *)
(** * Replacers: the built-in post-processors

    Models [fynd-core/src/post_process/rfq.rs] and [post_process/exclusive.rs]: the finders the
    search of [Replace] runs with, and the two post-processors. The exclusive finder also splits a
    target between its swaps and the exclusive pool, by golden section over the fraction. Both
    finders keep the laws of the search: a candidate is simulated and nets more, and an exclusive one
    commits to an amount its route pays. *)

From Stdlib Require Import Floats.SpecFloat.
From stdpp Require Import prelude gmap sets strings list sorting.
From Stdlib Require Import NArith ZArith Lia.
From S2P Require Import Prelude F64 Types Route Amounts Exclusive Allocation Encoding DerivedStore Manager MarketData MarketInvariant FallbackPools SwapCache Algorithm StableGraph TokenGraph PathScoring Paths SplitMath Replay Replace ReplaceProofs ReplaceIndex.

(** ** The state of a replacer *)

(** Whether the handle of the market is set, and the index. The market behind the handle is an
    argument of what reads it. *)
Record SwapReplacer := {
  sr_has_market : bool;
  sr_index : ReplacementComponentIndex;
}.

Definition SwapReplacer_default : SwapReplacer :=
  {| sr_has_market := false; sr_index := ReplacementComponentIndex_default |}.

Section replacers.
Context `{TychoMarket} `{!Messages} `{!TychoSwaps}.
Implicit Types (swap : Swap) (request : PostProcessRequest) (route : RouteResult) (replacer : SwapReplacer).

Section member.
Context (is_member : ProtocolComponent -> bool).

Definition replacer_handle_event (market : MarketState) replacer (event : MarketEvent) : SwapReplacer :=
  if sr_has_market replacer
  then {| sr_has_market := true; sr_index := update_index is_member market (sr_index replacer) event |}
  else replacer.

Definition replacer_initialize (market : MarketState) : SwapReplacer :=
  {| sr_has_market := true; sr_index := build_index is_member market |}.
End member.

(** The search on the market the request names. *)
Definition search_market `{!ReplacementFinder} replacer request route : outcome (option RouteResult) :=
  match read_market (pr_market request) (pr_label request) with
  | Err _ => Ret None
  | Ok view =>
      match ReplacementSolver_new (from_market_for_route (sr_index replacer) view request (rr_route route)) request route with
      | Some solver => apply_best_replacements solver
      | None => Ret None
      end
  end.

(** ** RFQ pools *)

Definition is_rfq (component : ProtocolComponent) : bool := is_rfq_protocol (protocol_system_of component).

Definition PARTIAL_FILL_PROTOCOLS : list string := ["rfq:bebop"; "rfq:hashflow"; "rfq:native"].

Definition fills_partially (protocol_system : string) : bool :=
  bool_decide (strip_fallback_prefix protocol_system ∈ PARTIAL_FILL_PROTOCOLS).

Definition rfq_can_replace_target swap (target : ReplacementTarget) (route_swaps : list Swap) (ev : RouteEvaluator) : bool :=
  (fills_partially (sw_protocol swap) || bool_decide (tg_token_in target = ev_input_token ev))
  && can_replace swap target route_swaps.

Definition RfqReplacementFinder : ReplacementFinder := {|
  can_replace_target := rfq_can_replace_target;
  find_best_replacement_route := fun swap target route_swaps ev min_net_amount_out k =>
    candidate ← replace_with_swap swap target route_swaps ev min_net_amount_out;
    Ret (candidate, k);
|}.

Definition rfq_handle_event := replacer_handle_event is_rfq.
Definition rfq_initialize := replacer_initialize is_rfq.

Definition rfq_process replacer request route : outcome (option RouteResult) :=
  if ReplacementComponentIndex_is_empty (sr_index replacer) || negb (Order_is_sell (pr_order request)) then Ret None
  else search_market (H3 := RfqReplacementFinder) replacer request route.

(** ** Exclusive pools *)

Section exclusive.
(** [USER_IMPROVEMENT_SHARE_BPS]. *)
Context (user_share_bps : N).

Definition commit (candidate : CandidateRoute) (ev : RouteEvaluator) : outcome (option CandidateRoute) :=
  shape ← exclusive_route_shape (cr_swaps candidate) (ev_output_token ev);
  match shape with
  | Valid =>
      committed ← matched_commitment
        {| ro_amount_out := ev_original_amount_out ev;
           ro_amount_out_net_gas := Z.to_N (rr_net_amount_out (ev_original ev)) |}
        {| ro_amount_out := cr_amount_out candidate; ro_amount_out_net_gas := Z.to_N (cr_net_amount_out candidate) |}
        user_share_bps;
      Ret (match committed with
           | Some committed => Some (CandidateRoute_with_commitment candidate committed)
           | None => None
           end)
  | _ => Ret None
  end.

Definition SPLIT_SEARCH_STEPS : nat := 8.

(** [0.618_033_988_749_895] *)
Definition GOLDEN_RATIO_INVERSE : f64 := S754_finite false 5566755282872657 (-53).

Record EntrySwapSplit := { es_swap_index : nat; es_original_split : f64 }.

Definition entries_share (entries : list EntrySwapSplit) (target : ReplacementTarget) (route_swaps : list Swap) : f64 :=
  if forallb (fun entry => F64.gtb (es_original_split entry) F64.zero) entries
  then fold_left F64.add (es_original_split <$> entries) F64.zero
  else
    let others := List.filter (fun entry => negb (bool_decide (entry.1 ∈ replaced_indices target))
                                            && bool_decide (sw_token_in entry.2 = tg_token_in target))
                    (imap (fun index swap => (index, swap)) route_swaps) in
    F64.sub F64.one (fold_left F64.add ((fun entry => sw_split entry.2) <$> others) F64.zero).

Record SplitSearcher := {
  sp_target : ReplacementTarget;
  sp_route_swaps : list Swap;
  sp_evaluator : RouteEvaluator;
  sp_split_swaps : list Swap;
  sp_entries : list EntrySwapSplit;
  sp_share : f64;
  sp_best : option CandidateRoute;
  sp_min_net_amount_out : Z;
}.

Definition set_split_swaps (s : SplitSearcher) (split_swaps : list Swap) : SplitSearcher :=
  {| sp_target := sp_target s; sp_route_swaps := sp_route_swaps s; sp_evaluator := sp_evaluator s;
     sp_split_swaps := split_swaps; sp_entries := sp_entries s; sp_share := sp_share s; sp_best := sp_best s;
     sp_min_net_amount_out := sp_min_net_amount_out s |}.

Definition set_best (s : SplitSearcher) (best : option CandidateRoute) : SplitSearcher :=
  {| sp_target := sp_target s; sp_route_swaps := sp_route_swaps s; sp_evaluator := sp_evaluator s;
     sp_split_swaps := sp_split_swaps s; sp_entries := sp_entries s; sp_share := sp_share s; sp_best := best;
     sp_min_net_amount_out := sp_min_net_amount_out s |}.

(** The swaps of the target behind the exclusive swap, and its entries. *)
Fixpoint collect_target (target : ReplacementTarget) (route_swaps : list Swap) (indices : list nat)
    (split_swaps : list Swap) (entries : list EntrySwapSplit) : option (list Swap * list EntrySwapSplit) :=
  match indices with
  | [] => Some (split_swaps, entries)
  | index :: indices =>
      match route_swaps !! index with
      | None => None
      | Some original =>
          let entries :=
            if bool_decide (sw_token_in original = tg_token_in target)
            then entries ++ [{| es_swap_index := length split_swaps; es_original_split := sw_split original |}]
            else entries in
          collect_target target route_swaps indices (split_swaps ++ [original]) entries
      end
  end.

Definition SplitSearcher_new swap (target : ReplacementTarget) (route_swaps : list Swap) (ev : RouteEvaluator)
    (min_net_amount_out : Z) : option SplitSearcher :=
  match collect_target target route_swaps (replaced_indices target) [swap] [] with
  | None => None
  | Some (split_swaps, entries) =>
      let share := entries_share entries target route_swaps in
      if F64.leb share F64.zero then None
      else Some {| sp_target := target; sp_route_swaps := route_swaps; sp_evaluator := ev;
                   sp_split_swaps := split_swaps; sp_entries := entries; sp_share := share; sp_best := None;
                   sp_min_net_amount_out := min_net_amount_out |}
  end.

Definition retarget_entry (exclusive_fraction : f64) (split_swaps : list Swap) (entry : EntrySwapSplit) : list Swap :=
  if F64.leb (es_original_split entry) F64.zero then split_swaps
  else alter (fun original =>
         Swap_retarget original (sw_token_in original) (sw_token_out original)
           (F64.mul (es_original_split entry) (F64.sub F64.one exclusive_fraction)))
       (es_swap_index entry) split_swaps.

Definition retarget_split_swaps (s : SplitSearcher) (exclusive_fraction : f64) : list Swap :=
  let split_swaps :=
    match sp_split_swaps s with
    | [] => []
    | exclusive :: rest =>
        Swap_retarget exclusive (tg_token_in (sp_target s)) (tg_token_out (sp_target s))
          (F64.mul (sp_share s) exclusive_fraction) :: rest
    end in
  fold_left (retarget_entry exclusive_fraction) (sp_entries s) split_swaps.

Definition simulate_split (s : SplitSearcher) (exclusive_fraction : f64) (k : nat)
    : outcome (SplitSearcher * option Z * nat) :=
  if ev_late (sp_evaluator s) k then Ret (s, None, S k)
  else
    let s := set_split_swaps s (retarget_split_swaps s exclusive_fraction) in
    candidate ← simulate_replacement (sp_evaluator s) (sp_route_swaps s) (sp_target s) (sp_split_swaps s);
    match candidate with
    | None => Ret (s, None, S k)
    | Some c =>
        let best_net := match sp_best s with Some b => cr_net_amount_out b | None => sp_min_net_amount_out s end in
        let s := if (best_net <? cr_net_amount_out c)%Z then set_best s (Some c) else s in
        Ret (s, Some (cr_net_amount_out c), S k)
    end.

(** [None] orders below every amount. *)
Definition net_geb (a b : option Z) : bool :=
  match a, b with
  | _, None => true
  | None, Some _ => false
  | Some a, Some b => (b <=? a)%Z
  end.

Definition lower_of (min_fraction max_fraction : f64) : f64 :=
  F64.sub max_fraction (F64.mul GOLDEN_RATIO_INVERSE (F64.sub max_fraction min_fraction)).
Definition upper_of (min_fraction max_fraction : f64) : f64 :=
  F64.add min_fraction (F64.mul GOLDEN_RATIO_INVERSE (F64.sub max_fraction min_fraction)).

Fixpoint split_steps (steps : nat) (s : SplitSearcher) (min_fraction max_fraction lower_fraction upper_fraction : f64)
    (lower_net upper_net : option Z) (k : nat) : outcome (SplitSearcher * nat) :=
  match steps with
  | O => Ret (s, k)
  | S steps =>
      if net_geb lower_net upper_net then
        let max_fraction := upper_fraction in
        let upper_fraction := lower_fraction in
        let upper_net := lower_net in
        let lower_fraction := lower_of min_fraction max_fraction in
        '(s, lower_net, k) ← simulate_split s lower_fraction k;
        split_steps steps s min_fraction max_fraction lower_fraction upper_fraction lower_net upper_net k
      else
        let min_fraction := lower_fraction in
        let lower_fraction := upper_fraction in
        let lower_net := upper_net in
        let upper_fraction := upper_of min_fraction max_fraction in
        '(s, upper_net, k) ← simulate_split s upper_fraction k;
        split_steps steps s min_fraction max_fraction lower_fraction upper_fraction lower_net upper_net k
  end.

Definition find_best_split_route (s : SplitSearcher) (k : nat) : outcome (option CandidateRoute * nat) :=
  let lower_fraction := lower_of F64.zero F64.one in
  let upper_fraction := upper_of F64.zero F64.one in
  '(s, lower_net, k) ← simulate_split s lower_fraction k;
  '(s, upper_net, k) ← simulate_split s upper_fraction k;
  '(s, k) ← split_steps SPLIT_SEARCH_STEPS s F64.zero F64.one lower_fraction upper_fraction lower_net upper_net k;
  match sp_best s with
  | None => Ret (None, k)
  | Some candidate => committed ← commit candidate (sp_evaluator s); Ret (committed, k)
  end.

Definition exclusive_find_best_route swap (target : ReplacementTarget) (route_swaps : list Swap) (ev : RouteEvaluator)
    (min_net_amount_out : Z) (k : nat) : outcome (option CandidateRoute * nat) :=
  replaced ← replace_with_swap swap target route_swaps ev min_net_amount_out;
  full_replacement ← (match replaced with Some route => commit route ev | None => Ret None end);
  let min_split_net_amount_out :=
    match full_replacement with Some c => cr_net_amount_out c | None => min_net_amount_out end in
  '(split_replacement, k) ←
    (match SplitSearcher_new swap target route_swaps ev min_split_net_amount_out with
     | Some s => find_best_split_route s k
     | None => Ret (None, k)
     end);
  Ret (match split_replacement with Some c => Some c | None => full_replacement end, k).

Definition ExclusiveReplacementFinder : ReplacementFinder := {|
  can_replace_target := fun swap target route_swaps _ =>
    negb (routes_through_exclusive route_swaps) && can_replace swap target route_swaps;
  find_best_replacement_route := exclusive_find_best_route;
|}.

Definition exclusive_process replacer request route : outcome (option RouteResult) :=
  if bool_decide (pr_exclusive_access request <> Granted)
     || ReplacementComponentIndex_is_empty (sr_index replacer)
     || negb (Order_is_sell (pr_order request))
     || routes_through_exclusive (rt_swaps (rr_route route))
  then Ret None
  else search_market (H3 := ExclusiveReplacementFinder) replacer request route.
End exclusive.

Definition exclusive_handle_event := replacer_handle_event is_exclusive.
Definition exclusive_initialize := replacer_initialize is_exclusive.
End replacers.

(** ** The laws of the finders *)

(** ** One swap in place of a target *)

Section laws.
Context `{TychoMarket} `{!Messages} `{!TychoSwaps}.
Implicit Types (swap s : Swap) (ev : RouteEvaluator).

Lemma retarget_pool s a b f : same_pool (Swap_retarget s a b f) s.
Proof. by destruct s. Qed.

Lemma retarget_ends s a b f : sw_token_in (Swap_retarget s a b f) = a /\ sw_token_out (Swap_retarget s a b f) = b /\
  sw_split (Swap_retarget s a b f) = f.
Proof. by destruct s. Qed.

(** The facts of a candidate the finders use. *)
Lemma simulated_as_net ev swap target route_swaps c :
  gas_cost_ok (ev_gas_cost ev) -> splits_rounded route_swaps -> simulated_as ev swap target route_swaps c ->
  (cr_net_amount_out c <= Z.of_N (cr_amount_out c))%Z.
Proof.
  intros Hg Hsp [(replacement & c' & Hst & Hsim & _ & -> & ->)].
  destruct (simulate_replacement_lemma ev route_swaps target replacement Hg
    (replaced_splits _ _ _ Hsp (si_splits _ _ _ _ Hst))) as (r & Hr & Hc).
  rewrite Hr in Hsim. injection Hsim as ->. by apply (Hc c').
Qed.

Lemma simulate_stand_in ev swap target route_swaps replacement :
  gas_cost_ok (ev_gas_cost ev) -> splits_rounded route_swaps -> stands_in swap target route_swaps replacement ->
  exists r, simulate_replacement ev route_swaps target replacement = Ret r /\
    forall c, r = Some c -> simulated_as ev swap target route_swaps c /\ cr_committed_amount_out c = None.
Proof.
  intros Hg Hsp Hst.
  destruct (simulate_replacement_lemma ev route_swaps target replacement Hg
    (replaced_splits _ _ _ Hsp (si_splits _ _ _ _ Hst))) as (r & Hr & Hc).
  exists r. split; [done|]. intros c ->. destruct (Hc c eq_refl) as (_ & _ & ? & _).
  split; [|done]. split. by exists replacement, c.
Qed.

Lemma replace_with_swap_lemma ev swap target route_swaps min :
  gas_cost_ok (ev_gas_cost ev) -> splits_rounded route_swaps -> target_of route_swaps target ->
  exists r, replace_with_swap swap target route_swaps ev min = Ret r /\
    forall c, r = Some c -> (min < cr_net_amount_out c)%Z /\ simulated_as ev swap target route_swaps c /\
      cr_committed_amount_out c = None.
Proof.
  intros Hg Hsp Ht. unfold replace_with_swap. set (one := Swap_retarget _ _ _ _).
  destruct (retarget_ends swap (tg_token_in target) (tg_token_out target) (tg_split target)) as (Hin & Hout & Hspl).
  assert (stands_in swap target route_swaps [one]) as Hst.
  { split.
    - constructor; [|constructor]. unfold one. rewrite Hspl. apply Ht.
    - constructor; [left; apply retarget_pool|constructor].
    - exists one. split; [by left|by left].
    - exists one. split; [by left|by right]. }
  destruct (simulate_stand_in ev swap target route_swaps [one] Hg Hsp Hst) as (r & -> & Hr). cbn [mbind outcome_bind].
  eexists. split; [done|]. intros c Hc. destruct r as [c'|]; [|done].
  destruct (Z.ltb_spec min (cr_net_amount_out c')) as [Hlt|]; [|done]. injection Hc as <-.
  by destruct (Hr c' eq_refl).
Qed.

(** ** The RFQ finder *)

Definition rfq_promise (ev : RouteEvaluator) (c : CandidateRoute) : Prop := cr_committed_amount_out c = None.

#[export] Instance rfq_finder_laws : FinderLaws (H3 := RfqReplacementFinder) rfq_promise.
Proof.
  split. intros ev swap target route_swaps min k Hg Hsp _ Ht _. cbn [find_best_replacement_route RfqReplacementFinder].
  destruct (replace_with_swap_lemma ev swap target route_swaps min Hg Hsp Ht) as (r & -> & Hr). cbn [mbind outcome_bind].
  exists r, k. split; [done|]. intros c Hc. by destruct (Hr c Hc) as (? & ? & ?).
Qed.

(** ** The exclusive finder *)

Section exclusive.
Context (user_share_bps : N).

(** The outputs the commitment compares. *)
Definition reference_output ev : RouteOutput :=
  {| ro_amount_out := ev_original_amount_out ev;
     ro_amount_out_net_gas := Z.to_N (rr_net_amount_out (ev_original ev)) |}.
Definition candidate_output (c : CandidateRoute) : RouteOutput :=
  {| ro_amount_out := cr_amount_out c; ro_amount_out_net_gas := Z.to_N (cr_net_amount_out c) |}.

Record exclusive_promise ev (c : CandidateRoute) : Prop := {
  ep_shape : exclusive_route_shape (cr_swaps c) (ev_output_token ev) = Ret Valid;
  ep_net : (cr_net_amount_out c <= Z.of_N (cr_amount_out c))%Z;
  ep_committed : exists committed, cr_committed_amount_out c = Some committed /\
    matched_commitment (reference_output ev) (candidate_output c) user_share_bps = Ret (Some committed);
}.

Lemma exclusive_shape_returns swaps out : exists shape, exclusive_route_shape swaps out = Ret shape.
Proof.
  unfold exclusive_route_shape. destruct (List.filter _ _) as [|leg [|? ?]]; [by eexists| |by eexists].
  pose proof (leg_route_output_total swaps leg out) as Ht. destruct (leg_route_output _ _ _) as [o|]; [|done].
  by eexists.
Qed.

Lemma matched_commitment_returns public exclusive : ro_amount_out_net_gas exclusive <= ro_amount_out exclusive ->
  exists r, matched_commitment public exclusive user_share_bps = Ret r.
Proof.
  intros Hle. unfold matched_commitment. destruct (N.ltb_spec (ro_amount_out_net_gas exclusive) (ro_amount_out_net_gas public)) as [|Hge];
    [by eexists|]. rewrite (bsub_ge (ro_amount_out_net_gas exclusive)) by done. cbn [mbind outcome_bind].
  destruct (N.ltb_spec (ro_amount_out exclusive) (ro_amount_out public)) as [|_]; [by eexists|].
  rewrite (bsub_ge (ro_amount_out exclusive)) by done. by eexists.
Qed.

Lemma commit_lemma ev swap target route_swaps c :
  gas_cost_ok (ev_gas_cost ev) -> splits_rounded route_swaps -> simulated_as ev swap target route_swaps c ->
  exists r, commit user_share_bps c ev = Ret r /\
    forall c', r = Some c' -> cr_net_amount_out c' = cr_net_amount_out c /\ simulated_as ev swap target route_swaps c' /\
      exclusive_promise ev c'.
Proof.
  intros Hg Hsp Hsim. pose proof (simulated_as_net _ _ _ _ _ Hg Hsp Hsim) as Hnet. unfold commit.
  destruct (exclusive_shape_returns (cr_swaps c) (ev_output_token ev)) as [shape Hshape]. rewrite Hshape.
  cbn [mbind outcome_bind]. destruct shape; try by eexists.
  fold (reference_output ev) (candidate_output c).
  destruct (matched_commitment_returns (reference_output ev) (candidate_output c)) as [r Hr]; [cbn; lia|]. rewrite Hr.
  cbn [mbind outcome_bind]. eexists. split; [done|]. intros c' Hc'. destruct r as [committed|]; [|done]. injection Hc' as <-.
  split_and!; [done| |].
  - destruct Hsim as [(replacement & c0 & ? & ? & ? & ? & ?)]. split. by exists replacement, c0.
  - split; [done|done|]. by exists committed.
Qed.

(** *** The search of a split *)

(** The searcher's swaps: the exclusive one first, then those of the target. *)
Record searcher_ok swap (s : SplitSearcher) : Prop := {
  sk_head : exists x rest, sp_split_swaps s = x :: rest /\ same_pool x swap /\ rounded (sw_split x) /\
    splits_rounded rest /\ Forall (fun y => exists y', y' ∈ sp_route_swaps s /\ same_pool y y') rest;
  sk_entries : Forall (fun entry => (1 <= es_swap_index entry)%nat) (sp_entries s);
  sk_best : forall c, sp_best s = Some c ->
    (sp_min_net_amount_out s < cr_net_amount_out c)%Z /\ simulated_as (sp_evaluator s) swap (sp_target s) (sp_route_swaps s) c;
}.

Definition same_search (s s' : SplitSearcher) : Prop :=
  sp_target s = sp_target s' /\ sp_route_swaps s = sp_route_swaps s' /\ sp_evaluator s = sp_evaluator s' /\
  sp_min_net_amount_out s = sp_min_net_amount_out s'.

Lemma collect_target_lemma target route_swaps indices split_swaps entries r : splits_rounded route_swaps ->
  collect_target target route_swaps indices split_swaps entries = Some r ->
  split_swaps <> [] -> Forall (fun entry => (1 <= es_swap_index entry)%nat) entries ->
  exists more, r.1 = split_swaps ++ more /\ splits_rounded more /\
    Forall (fun y => exists y', y' ∈ route_swaps /\ same_pool y y') more /\
    Forall (fun entry => (1 <= es_swap_index entry)%nat) r.2.
Proof.
  intros Hsp. revert split_swaps entries. induction indices as [|i indices IH]; intros split_swaps entries; cbn [collect_target].
  { intros [= <-] _ He. exists []. cbn. rewrite app_nil_r. split_and!; [done|constructor|constructor|done]. }
  destruct (route_swaps !! i) as [original|] eqn:Hi; [|done]. intros Hr Hne He.
  destruct (IH _ _ Hr) as (more & -> & Hm & Hp & He').
  - by destruct split_swaps.
  - case_bool_decide; [|done]. apply Forall_app. split; [done|]. constructor; [|constructor].
    cbn. destruct split_swaps; [done|cbn; lia].
  - exists (original :: more). rewrite <- app_assoc. split_and!; [done| | |done]; constructor; try done.
    + by apply (Forall_lookup_1 _ _ _ _ Hsp Hi).
    + exists original. split; [by eapply list_elem_of_lookup_2|done].
Qed.

Lemma SplitSearcher_new_ok swap target route_swaps ev min (s : SplitSearcher) : rounded (sw_split swap) -> splits_rounded route_swaps ->
  SplitSearcher_new swap target route_swaps ev min = Some s ->
  searcher_ok swap s /\ sp_target s = target /\ sp_route_swaps s = route_swaps /\ sp_evaluator s = ev /\
  sp_min_net_amount_out s = min.
Proof.
  intros Hs Hsp. unfold SplitSearcher_new.
  destruct (collect_target _ _ _ _ _) as [r|] eqn:Hc; [|done]. destruct r as [split_swaps entries].
  destruct (F64.leb _ _); [done|]. intros [= <-]. cbn. split; [|done].
  destruct (collect_target_lemma _ _ _ _ _ _ Hsp Hc ltac:(done) ltac:(constructor)) as (more & E & Hm & Hp & He).
  cbn in E, He. split; cbn; [|done|done]. exists swap, more. done.
Qed.

(** Retargeting keeps the swaps behind the first one, up to their splits. *)
Lemma retarget_entry_cons fraction x rest entry : (1 <= es_swap_index entry)%nat ->
  exists rest', retarget_entry fraction (x :: rest) entry = x :: rest' /\
    forall route_swaps : list Swap, splits_rounded rest -> Forall (fun y => exists y', y' ∈ route_swaps /\ same_pool y y') rest ->
      splits_rounded rest' /\ Forall (fun y => exists y', y' ∈ route_swaps /\ same_pool y y') rest'.
Proof.
  intros Hi. unfold retarget_entry. destruct (F64.leb _ _); [by exists rest|].
  destruct (es_swap_index entry) as [|i]; [lia|]. eexists. split; [done|]. intros route_swaps Hsp Hp.
  split; apply Forall_alter; try done.
  - intros y Hy _. rewrite (proj2 (proj2 (retarget_ends _ _ _ _))). apply mul_rounded.
  - intros y Hy (y' & Hin & Hp'). exists y'. split; [done|]. eapply same_pool_trans; [apply retarget_pool|done].
Qed.

Lemma retarget_entries_cons fraction x rest entries : Forall (fun entry => (1 <= es_swap_index entry)%nat) entries ->
  exists rest', fold_left (retarget_entry fraction) entries (x :: rest) = x :: rest' /\
    forall route_swaps : list Swap, splits_rounded rest -> Forall (fun y => exists y', y' ∈ route_swaps /\ same_pool y y') rest ->
      splits_rounded rest' /\ Forall (fun y => exists y', y' ∈ route_swaps /\ same_pool y y') rest'.
Proof.
  intros He. revert rest. induction He as [|entry entries Hi He IH]; intros rest; cbn [fold_left]; [by exists rest|].
  destruct (retarget_entry_cons fraction x rest entry Hi) as (rest1 & -> & H1').
  destruct (IH rest1) as (rest2 & -> & H2'). exists rest2. split; [done|]. intros route_swaps Hsp Hp.
  destruct (H1' route_swaps Hsp Hp). by apply H2'.
Qed.

Lemma retarget_split_swaps_ok swap (s : SplitSearcher) fraction : searcher_ok swap s ->
  searcher_ok swap (set_split_swaps s (retarget_split_swaps s fraction)) /\
  stands_in swap (sp_target s) (sp_route_swaps s) (retarget_split_swaps s fraction).
Proof.
  intros [(x & rest & Hs & Hx & _ & Hsp & Hp) He Hb]. unfold retarget_split_swaps. rewrite Hs.
  set (x' := Swap_retarget x _ _ _).
  destruct (retarget_entries_cons fraction x' rest (sp_entries s) He) as (rest' & -> & Hr).
  destruct (Hr _ Hsp Hp) as [Hsp' Hp'].
  destruct (retarget_ends x (tg_token_in (sp_target s)) (tg_token_out (sp_target s)) (F64.mul (sp_share s) fraction))
    as (Hin & Hout & Hspl). fold x' in Hin, Hout, Hspl.
  assert (rounded (sw_split x')) as Hrx by (rewrite Hspl; apply mul_rounded).
  assert (same_pool x' swap) as Hpx by (eapply same_pool_trans; [apply retarget_pool|done]).
  split.
  - split; [|done|done]. by exists x', rest'.
  - split.
    + by constructor.
    + constructor; [by left|]. eapply Forall_impl; [exact Hp'|]. by right.
    + exists x'. split; [by left|by left].
    + exists x'. split; [by left|by right].
Qed.

Lemma simulate_split_lemma swap (s : SplitSearcher) fraction k :
  gas_cost_ok (ev_gas_cost (sp_evaluator s)) -> splits_rounded (sp_route_swaps s) -> searcher_ok swap s ->
  exists (s' : SplitSearcher) net k', simulate_split s fraction k = Ret (s', net, k') /\ searcher_ok swap s' /\ same_search s s'.
Proof.
  intros Hg Hsp Hok. unfold simulate_split. destruct (ev_late _ _); [by eexists _, _, _|]. cbn zeta.
  destruct (retarget_split_swaps_ok swap s fraction Hok) as [Hok' Hst].
  set (s1 := set_split_swaps s _) in *.
  destruct (simulate_stand_in (sp_evaluator s) swap (sp_target s) (sp_route_swaps s) (retarget_split_swaps s fraction)
    Hg Hsp Hst) as (r & Hr & Hc).
  change (simulate_replacement (sp_evaluator s1) (sp_route_swaps s1) (sp_target s1) (sp_split_swaps s1))
    with (simulate_replacement (sp_evaluator s) (sp_route_swaps s) (sp_target s) (retarget_split_swaps s fraction)).
  rewrite Hr. cbn [mbind outcome_bind]. destruct r as [c|]; [|by eexists _, _, _].
  destruct (Hc c eq_refl) as [Hsim _]. eexists _, _, _. split; [done|].
  destruct (Z.ltb_spec (match sp_best s1 with Some b => cr_net_amount_out b | None => sp_min_net_amount_out s1 end)
    (cr_net_amount_out c)) as [Hlt|]; [|done].
  split; [|done]. destruct Hok' as [Hh He Hb]. split; [done|done|]. intros c' [= <-]. split; [|done].
  cbn [sp_min_net_amount_out set_best]. destruct (sp_best s1) as [b|] eqn:Eb; [|done].
  destruct (Hb b eq_refl). lia.
Qed.

Lemma same_search_trans (s s' s'' : SplitSearcher) : same_search s s' -> same_search s' s'' -> same_search s s''.
Proof. unfold same_search. intros (-> & -> & -> & ->). done. Qed.

Lemma same_search_hyps (s s' : SplitSearcher) : same_search s s' ->
  gas_cost_ok (ev_gas_cost (sp_evaluator s)) -> splits_rounded (sp_route_swaps s) ->
  gas_cost_ok (ev_gas_cost (sp_evaluator s')) /\ splits_rounded (sp_route_swaps s').
Proof. intros (_ & -> & -> & _). done. Qed.

Lemma split_steps_lemma swap steps (s : SplitSearcher) a b l u ln un k :
  gas_cost_ok (ev_gas_cost (sp_evaluator s)) -> splits_rounded (sp_route_swaps s) -> searcher_ok swap s ->
  exists (s' : SplitSearcher) k', split_steps steps s a b l u ln un k = Ret (s', k') /\ searcher_ok swap s' /\ same_search s s'.
Proof.
  revert s a b l u ln un k. induction steps as [|steps IH]; intros s a b l u ln un k Hg Hsp Hok; cbn [split_steps];
    [by eexists _, _|].
  destruct (net_geb ln un); cbn zeta.
  - destruct (simulate_split_lemma swap s (lower_of a u) k Hg Hsp Hok) as (s1 & net & k1 & -> & Hok1 & Hs1).
    cbn [mbind outcome_bind]. destruct (same_search_hyps s s1 Hs1 Hg Hsp) as [Hg1 Hsp1].
    destruct (IH s1 a u (lower_of a u) l net ln k1 Hg1 Hsp1 Hok1) as (s2 & k2 & -> & Hok2 & Hs2).
    eexists _, _. split; [done|]. split; [done|]. by eapply same_search_trans.
  - destruct (simulate_split_lemma swap s (upper_of l b) k Hg Hsp Hok) as (s1 & net & k1 & -> & Hok1 & Hs1).
    cbn [mbind outcome_bind]. destruct (same_search_hyps s s1 Hs1 Hg Hsp) as [Hg1 Hsp1].
    destruct (IH s1 l b u (upper_of l b) un net k1 Hg1 Hsp1 Hok1) as (s2 & k2 & -> & Hok2 & Hs2).
    eexists _, _. split; [done|]. split; [done|]. by eapply same_search_trans.
Qed.

Lemma find_best_split_route_lemma swap (s : SplitSearcher) k :
  gas_cost_ok (ev_gas_cost (sp_evaluator s)) -> splits_rounded (sp_route_swaps s) -> searcher_ok swap s ->
  exists r k', find_best_split_route user_share_bps s k = Ret (r, k') /\
    forall c, r = Some c -> (sp_min_net_amount_out s < cr_net_amount_out c)%Z /\
      simulated_as (sp_evaluator s) swap (sp_target s) (sp_route_swaps s) c /\ exclusive_promise (sp_evaluator s) c.
Proof.
  intros Hg Hsp Hok. unfold find_best_split_route. cbn zeta.
  destruct (simulate_split_lemma swap s (lower_of F64.zero F64.one) k Hg Hsp Hok) as (s1 & n1 & k1 & -> & Hok1 & (Et & Er & Ee & Em)).
  cbn [mbind outcome_bind]. rewrite Et, Er, Ee, Em. rewrite Ee in Hg. rewrite Er in Hsp. clear Et Er Ee Em.
  destruct (simulate_split_lemma swap s1 (upper_of F64.zero F64.one) k1 Hg Hsp Hok1) as (s2 & n2 & k2 & -> & Hok2 & (Et & Er & Ee & Em)).
  cbn [mbind outcome_bind]. rewrite Et, Er, Ee, Em. rewrite Ee in Hg. rewrite Er in Hsp. clear Et Er Ee Em.
  destruct (split_steps_lemma swap SPLIT_SEARCH_STEPS s2 F64.zero F64.one (lower_of F64.zero F64.one)
    (upper_of F64.zero F64.one) n1 n2 k2 Hg Hsp Hok2) as (s3 & k3 & -> & Hok3 & (Et & Er & Ee & Em)).
  cbn [mbind outcome_bind]. rewrite Et, Er, Ee, Em. rewrite Ee in Hg. rewrite Er in Hsp. clear Et Er Ee Em.
  destruct (sp_best s3) as [c|] eqn:Hb; [|by eexists _, _]. destruct (sk_best _ _ Hok3 c Hb) as [Hlt Hsim].
  destruct (commit_lemma _ _ _ _ _ Hg Hsp Hsim) as (r & -> & Hr). cbn [mbind outcome_bind].
  exists r, k3. split; [done|]. intros c' ->. destruct (Hr c' eq_refl) as (-> & ? & ?). done.
Qed.

#[export] Instance exclusive_finder_laws :
  FinderLaws (H3 := ExclusiveReplacementFinder user_share_bps) exclusive_promise.
Proof.
  split. intros ev swap target route_swaps min k Hg Hsp Hs Ht _.
  cbn [find_best_replacement_route ExclusiveReplacementFinder]. unfold exclusive_find_best_route.
  destruct (replace_with_swap_lemma ev swap target route_swaps min Hg Hsp Ht) as (r & -> & Hr). cbn [mbind outcome_bind].
  assert (exists full, (match r with Some route => commit user_share_bps route ev | None => Ret None end) = Ret full /\
    forall c, full = Some c -> (min < cr_net_amount_out c)%Z /\ simulated_as ev swap target route_swaps c /\
      exclusive_promise ev c) as (full & -> & Hfull).
  { destruct r as [c|]; [|by eexists]. destruct (Hr c eq_refl) as (Hlt & Hsim & _).
    destruct (commit_lemma _ _ _ _ _ Hg Hsp Hsim) as (r & -> & Hc). exists r. split; [done|]. intros c' ->.
    destruct (Hc c' eq_refl) as (-> & ? & ?). done. }
  cbn [mbind outcome_bind]. cbn zeta. set (floor := match full with Some c => _ | None => min end).
  assert (min <= floor)%Z as Hfloor.
  { unfold floor. destruct full as [c|]; [|lia]. destruct (Hfull c eq_refl). lia. }
  destruct (SplitSearcher_new swap target route_swaps ev floor) as [s|] eqn:Hnew.
  - destruct (SplitSearcher_new_ok _ _ _ _ _ _ Hs Hsp Hnew) as (Hok & Et & Er & Ee & Em).
    destruct (find_best_split_route_lemma swap s k) as (r' & k' & -> & Hr'); [by rewrite Ee|by rewrite Er|done|].
    cbn [mbind outcome_bind]. eexists _, k'. split; [done|]. intros c. rewrite Et, Er, Ee, Em in Hr'.
    destruct r' as [c'|]; [|by apply Hfull]. intros [= <-]. destruct (Hr' c' eq_refl) as (? & ? & ?). split; [lia|done].
  - cbn [mbind outcome_bind]. eexists _, k. split; [done|]. apply Hfull.
Qed.
End exclusive.
End laws.
