(* ===== verification/PostProcessProperties.v ===== *)
(** * PostProcessProperties: the guarantees of the replacing post-processors

    A route that the RFQ or the exclusive replacer returns pays more than the route it was given,
    as its own pools answer, through pools the request allows; the exclusive one commits to an
    amount; and the index of a replacer follows the market. *)

From stdpp Require Import prelude gmap sets strings list sorting.
From Stdlib Require Import NArith ZArith Lia.
From S2P Require Import Prelude F64 Types Route Amounts Exclusive Allocation Encoding DerivedStore Manager MarketData MarketInvariant FallbackPools SwapCache Algorithm StableGraph TokenGraph PathScoring Paths SplitMath Replay Replace ReplaceProofs ReplaceIndex Replacers.

Section properties.
Context `{TychoMarket} `{!Messages} `{!TychoSwaps}.
Implicit Types (request : PostProcessRequest) (route result : RouteResult) (replacer : SwapReplacer).

(** What of its output a route keeps after gas, when gas costs what it cost the original. *)
Definition net_at_original_gas (original : RouteResult) (output_token : Address) (amount_out gas : N) : Z :=
  (Z.of_N amount_out
   - Z.quot (Z.max (Z.of_N (Route_amount_out (rr_route original) output_token) - rr_net_amount_out original) 0
             * Z.of_N gas) (Z.of_N (total_gas (rr_route original))))%Z.

(** A pool the request lets a replacer add. *)
Record addable (is_member : ProtocolComponent -> bool) request (view : MarketDataView) (s : Swap) : Prop := {
  ad_member : is_member (sw_protocol_component s) = true;
  ad_allowed : excludes_pool (pr_constraints request) (sw_component_id s) = false;
  ad_kept : drops_component request (sw_protocol_component s) = false;
  ad_component : get_component (view_guard view) (sw_component_id s) = Some (sw_protocol_component s);
  ad_state : view_get_simulation_state view (sw_component_id s) = Some (sw_protocol_state s);
}.

(** [result]'s swaps, run from the order's amount between [original]'s ends, get the amounts they
    carry. *)
Definition runs request (original result : RouteResult) (input output : Address) (sim : SimulatedRoute) : Prop :=
  input_token (rr_route original) = Some input /\ output_token (rr_route original) = Some output /\
  simulate_swaps (fun address => rt_tokens (rr_route result) !! address) (fun s => Some (sw_protocol_state s))
    (rt_swaps (rr_route result))
    {| end_input_token := input; end_output_token := output; end_total_in := order_amount (pr_order request) |} = Ret (Ok sim) /\
  Forall2 reports (rt_swaps (rr_route result)) (sim_swaps sim).

(** A result that replaces [original] for the better: its swaps carry the amounts they get when
    they run from the order's amount, and it nets more, counting gas as the original did. *)
Record replaced (is_member : ProtocolComponent -> bool) request (view : MarketDataView) (original result : RouteResult) : Prop := {
  rd_net : (rr_net_amount_out original < rr_net_amount_out result)%Z;
  rd_splits : splits_rounded (rt_swaps (rr_route result));
  rd_gas_price : rr_gas_price result = rr_gas_price original;
  rd_runs : exists input output sim, runs request original result input output sim /\
    rr_net_amount_out result = net_at_original_gas original output (sim_total_out sim) (sim_total_gas sim);
  rd_required : forall t, t ∈ rrc_required_tokens (pr_constraints request) ->
    touches t (rt_swaps (rr_route original)) -> touches t (rt_swaps (rr_route result));
  rd_pools : forall s, s ∈ rt_swaps (rr_route result) ->
    (exists s', s' ∈ rt_swaps (rr_route original) /\ same_pool s s') \/ addable is_member request view s;
}.

(** ** The search on a market *)

Lemma from_route_result_ok route output cost : from_route_result route output = Some cost ->
  gas_cost_ok cost /\ og_gas cost = Z.of_N (total_gas (rr_route route)) /\
  gas_cost_out cost = Z.max (Z.of_N (Route_amount_out (rr_route route) output) - rr_net_amount_out route) 0.
Proof.
  unfold from_route_result. destruct (Z.eqb_spec (Z.of_N (total_gas (rr_route route))) 0) as [|Hne]; [done|].
  intros [= <-]. unfold gas_cost_ok. cbn. split_and!; [lia|lia|done|done].
Qed.

Lemma liquidity_addable is_member replacer request view route s :
  replacement_index_current is_member (view_guard view) (sr_index replacer) ->
  s ∈ rl_swaps (from_market_for_route (sr_index replacer) view request (rr_route route)) ->
  addable is_member request view s /\ sw_split s = F64.zero.
Proof.
  intros [Hr Ht]. unfold from_market_for_route. destruct (route_tokens (view_guard view) (rr_route route)) as [ts m]. cbn [rl_swaps].
  intros (id & Hid & Hs)%list_elem_of_omap. apply (elem_of_find_touching _ _ _ Hr) in Hid as (held & Hheld & _).
  rewrite Ht in Hheld. unfold member_tokens in Hheld. unfold liquidity_swap in Hs.
  destruct (excludes_pool _ id) eqn:Hex; [done|].
  destruct (get_component (view_guard view) id) as [c|] eqn:Hc; [|done].
  destruct (view_get_simulation_state view id) as [st|] eqn:Hst; [|done].
  destruct (component_tokens_of c) as [|a [|b rest]]; [done|done|].
  destruct (drops_component request c) eqn:Hd; [done|]. injection Hs as <-. split; [|done]. split; try done.
  cbn. by destruct (is_member c).
Qed.

Lemma search_market_lemma is_member `{!ReplacementFinder} promise `{!FinderLaws promise} replacer request route view :
  read_market (pr_market request) (pr_label request) = Ok view ->
  replacement_index_current is_member (view_guard view) (sr_index replacer) ->
  splits_rounded (rt_swaps (rr_route route)) ->
  exists r, search_market replacer request route = Ret r /\
    forall result, r = Some result -> replaced is_member request view route result /\
      exists ev c input output sim, promise ev c /\ runs request route result input output sim /\
        ev_original ev = route /\ ev_output_token ev = output /\
        ev_original_amount_out ev = Route_amount_out (rr_route route) output /\
        cr_swaps c = rt_swaps (rr_route result) /\ cr_amount_out c = sim_total_out sim /\
        cr_net_amount_out c = rr_net_amount_out result /\
        rr_commitment result = (fun committed => {| cm_committed_amount_out := committed;
          cm_reference_amount_out := Route_amount_out (rr_route route) output |}) <$> cr_committed_amount_out c.
Proof.
  intros Hview Hidx Hsp. unfold search_market. rewrite Hview.
  destruct (ReplacementSolver_new _ _ _) as [solver|] eqn:Hsolver; [|by eexists].
  pose proof Hsolver as Hnew. unfold ReplacementSolver_new in Hnew. set (liq := from_market_for_route _ _ _ _) in *.
  case_bool_decide; [done|]. destruct (input_token (rr_route route)) as [input|] eqn:Hin; [|done].
  destruct (output_token (rr_route route)) as [output|] eqn:Hout; [|done]. case_bool_decide; [done|].
  destruct (from_route_result route output) as [cost|] eqn:Hcost; [|done]. injection Hnew as Hs.
  destruct (from_route_result_ok _ _ _ Hcost) as (Hok & Hgas & Hgo).
  assert (forall s, s ∈ rl_swaps liq -> addable is_member request view s /\ sw_split s = F64.zero) as Hadd.
  { intros s Hs'. by eapply liquidity_addable. }
  assert (splits_rounded (rl_swaps liq)) as Hlsp.
  { apply Forall_forall. intros s Hs'. destruct (Hadd s Hs') as [_ ->]. exact I. }
  destruct (apply_best_replacements_lemma promise solver) as (r & Hr & Him); try by rewrite <- Hs.
  exists r. split; [done|]. intros result Hres. specialize (Him result Hres).
  destruct Him as [Hnet Hspl Hgp _ Hreq Hpools Htoks (c & Hp & Esw & En & [(sim & Hsim & Hrep & Hamt & Hpay)] & Hcom)].
  set (ev := rv_evaluator solver) in *.
  assert (ev_original ev = route /\ ev_output_token ev = output /\ ev_input_token ev = input /\
    ev_total_in ev = order_amount (pr_order request) /\ ev_gas_cost ev = cost /\ rv_swaps solver = rl_swaps liq /\
    rv_required_tokens solver = rrc_required_tokens (pr_constraints request) /\
    ev_original_amount_out ev = Route_amount_out (rr_route route) output) as (Eo & Eout & Ein & Eti & Ec & Els & Erq & Ea)
    by (unfold ev; by rewrite <- Hs).
  assert (runs request route result input output sim) as Hruns.
  { split_and!; [done|done| |by rewrite <- Esw]. rewrite <- Esw, Htoks, <- Ein, <- Eout, <- Eti. exact Hsim. }
  rewrite Eo in Hnet, Hgp, Hreq, Hpools. rewrite Els in Hpools. rewrite Erq in Hreq. rewrite Ea in Hcom. rewrite Ec in Hpay.
  split; [|by exists ev, c, input, output, sim]. split; try done.
  - exists input, output, sim. split; [done|]. unfold gas_net_amount_out in Hpay. destruct (og_gas cost =? 0)%Z; [done|].
    injection Hpay as E. rewrite <- En, <- E. unfold net_at_original_gas. by rewrite Hgas, Hgo.
  - intros s Hs'. destruct (Hpools s Hs') as (s' & [Hs2|Hs2] & Hsp2); [left; by exists s'|right].
    destruct (Hadd s' Hs2) as [[? ? ? ? ?] _]. destruct Hsp2 as (E1 & E2 & E3 & E4). split; by rewrite ?E1, ?E3, ?E4.
Qed.

Lemma rfq_returns replacer request route view :
  read_market (pr_market request) (pr_label request) = Ok view ->
  replacement_index_current is_rfq (view_guard view) (sr_index replacer) ->
  splits_rounded (rt_swaps (rr_route route)) ->
  exists r, rfq_process replacer request route = Ret r /\
    forall result, r = Some result ->
      replaced is_rfq request view route result /\ rr_commitment result = None.
Proof.
  intros Hview Hidx Hsp. unfold rfq_process. destruct (_ || _); [by eexists|].
  destruct (search_market_lemma (H3 := RfqReplacementFinder) is_rfq rfq_promise replacer request route view Hview Hidx Hsp)
    as (r & Hr & Hok). exists r. split; [done|]. intros result Hres.
  destruct (Hok result Hres) as (Hrep & ev & c & input & output & sim & Hp & _ & _ & _ & _ & _ & _ & _ & ->).
  split; [done|]. unfold rfq_promise in Hp. by rewrite Hp.
Qed.

(** For a request on a market that can be read, with an index that lists the market's RFQ
    pools, the RFQ replacer never panics. When it returns a route, it nets more than the original
    at the original's gas cost, its swaps carry exactly the amounts they get when run from the
    order's amount, it keeps the required tokens, it commits to nothing, and each pool is one of
    the original's or an RFQ pool of the market that the request and the worker pool allow, in
    the state the market has. *)
Theorem rfq_replacement_pays_more replacer request route view :
  read_market (pr_market request) (pr_label request) = Ok view ->
  replacement_index_current is_rfq (view_guard view) (sr_index replacer) ->
  splits_rounded (rt_swaps (rr_route route)) ->
  exists r, rfq_process replacer request route = Ret r /\
    forall result, r = Some result ->
      replaced is_rfq request view route result /\ rr_commitment result = None.
Proof. apply rfq_returns. Qed.

(** What the exclusive replacer commits to: between the original's output and what the route
    pays, and once the route's gas is paid at least the original's net and the user's share of the
    gain. *)
Record commits (user_share_bps : N) request (original result : RouteResult) (output : Address) : Prop := {
  co_shape : exclusive_route_shape (rt_swaps (rr_route result)) output = Ret Valid;
  co_commitment : exists committed input sim,
    rr_commitment result = Some {| cm_committed_amount_out := committed;
                                   cm_reference_amount_out := Route_amount_out (rr_route original) output |} /\
    runs request original result input output sim /\
    Route_amount_out (rr_route original) output <= committed /\ committed <= sim_total_out sim /\
    let net := Z.to_N (rr_net_amount_out result) in
    let gas := sim_total_out sim - net in
    net <= sim_total_out sim /\ gas <= committed /\
    bps.DENOMINATOR * Z.to_N (rr_net_amount_out original)
      + user_share_bps * (net - Z.to_N (rr_net_amount_out original)) <= bps.DENOMINATOR * (committed - gas);
}.

Lemma exclusive_returns (user_share_bps : N) replacer request route view :
  user_share_bps <= bps.DENOMINATOR ->
  read_market (pr_market request) (pr_label request) = Ok view ->
  replacement_index_current is_exclusive (view_guard view) (sr_index replacer) ->
  splits_rounded (rt_swaps (rr_route route)) ->
  exists r, exclusive_process user_share_bps replacer request route = Ret r /\
    forall result, r = Some result ->
      pr_exclusive_access request = Granted /\ Order_is_sell (pr_order request) = true /\
      routes_through_exclusive (rt_swaps (rr_route route)) = false /\
      replaced is_exclusive request view route result /\
      exists output, output_token (rr_route route) = Some output /\ commits user_share_bps request route result output.
Proof.
  intros Hshare Hview Hidx Hsp. unfold exclusive_process.
  destruct (bool_decide (pr_exclusive_access request <> Granted)) eqn:Hg; [by eexists|].
  destruct (ReplacementComponentIndex_is_empty _); [by eexists|].
  destruct (Order_is_sell (pr_order request)) eqn:Hsell; [|by eexists].
  destruct (routes_through_exclusive _) eqn:Hex; [by eexists|]. cbn [negb orb].
  apply bool_decide_eq_false, dec_stable in Hg.
  destruct (search_market_lemma (H3 := ExclusiveReplacementFinder user_share_bps) is_exclusive (exclusive_promise user_share_bps)
    replacer request route view Hview Hidx Hsp) as (r & Hr & Hok).
  exists r. split; [done|]. intros result Hres.
  destruct (Hok result Hres) as (Hrep & ev & c & input & output & sim & [Hshape Hnet (committed & Hc & Hm)] & Hruns
    & Eor & Eo & Ea & Esw & Eamt & En & Hcom).
  split_and!; [done|done|done|done|]. exists output. split; [by apply Hruns|].
  rewrite Eo, Esw in Hshape. split; [done|]. exists committed, input, sim.
  pose proof (matched_commitment_bounds (reference_output ev) (candidate_output c) user_share_bps Hshare
    ltac:(cbn; lia)) as Hb. rewrite Hm in Hb. unfold reference_output, candidate_output in Hb. cbn in Hb.
  rewrite Eor, Ea, En, Eamt in Hb. rewrite Hcom, Hc. rewrite En, Eamt in Hnet. cbn zeta.
  assert (Z.to_N (rr_net_amount_out result) <= sim_total_out sim) by lia. tauto.
Qed.

(** C25: under the same conditions the exclusive replacer never panics, and returns a route only
    for a sell order of a caller with exclusive access whose route has no exclusive leg. The route
    replaces the original as above, with exclusive pools, has exactly one exclusive leg, which
    reaches the output, and commits to an amount between the original's output and its own that
    leaves the user, after gas, the original's net and their share of the improvement. *)
Theorem exclusive_replacement_commits (user_share_bps : N) replacer request route view :
  user_share_bps <= bps.DENOMINATOR ->
  read_market (pr_market request) (pr_label request) = Ok view ->
  replacement_index_current is_exclusive (view_guard view) (sr_index replacer) ->
  splits_rounded (rt_swaps (rr_route route)) ->
  exists r, exclusive_process user_share_bps replacer request route = Ret r /\
    forall result, r = Some result ->
      pr_exclusive_access request = Granted /\ Order_is_sell (pr_order request) = true /\
      routes_through_exclusive (rt_swaps (rr_route route)) = false /\
      replaced is_exclusive request view route result /\
      exists output, output_token (rr_route route) = Some output /\ commits user_share_bps request route result output.
Proof. apply exclusive_returns. Qed.
End properties.
