(* ===== verification/PostProcess.v ===== *)
(** * PostProcess: the post-processors of a worker

    Models [fynd-core/src/post_process/pipeline.rs] and [post_process/registry.rs]: the instances a
    worker runs on a route in the order of the configuration, under one deadline, and the names a
    configuration may list. The theorems: a pipeline of processors that only improve a route
    improves it, whatever the deadline cuts off, and the order check lets nothing follow the
    exclusive replacer. *)

From stdpp Require Import prelude gmap sets strings list sorting.
From Stdlib Require Import NArith ZArith Lia.
From S2P Require Import Prelude F64 Types Route Amounts Exclusive Allocation Encoding DerivedStore Manager MarketData MarketInvariant FallbackPools SwapCache Algorithm StableGraph TokenGraph PathScoring Paths SplitMath Replay Replace ReplaceProofs ReplaceIndex Replacers PostProcessProperties.

(** ** The pipeline *)

Section pipeline.
Context `{TychoMarket}.

(** [RoutePostProcessor::process] of an instance. *)
Abbreviation Processor := (PostProcessRequest -> RouteResult -> outcome (option RouteResult)) (only parsing).

Record PostProcessors := {
  pp_worker_pool : string;
  pp_instances : list (string * Processor);
}.

Record ProcessedRoute := {
  pd_route : RouteResult;
  pd_post_processed_by : list string;
}.

(** Each instance reads the market and the clock for itself, so the request is given by the place
    of the instance, as it finds them. The clock of the pipeline, by the place of the instance: whether the deadline had passed before it started, and
    whether it passed while the instance ran. *)
Record PipelineClock := {
  pc_started_late : nat -> bool;
  pc_timed_out : nat -> bool;
}.

Definition PostProcessors_is_empty (p : PostProcessors) : bool := bool_decide (length (pp_instances p) = O).

Fixpoint run_from (clock : PipelineClock) (requests : nat -> PostProcessRequest) (route : RouteResult) (index : nat)
    (instances : list (string * Processor)) (latest : option RouteResult) (post_processed_by : list string)
    : outcome (option RouteResult * list string) :=
  match instances with
  | [] => Ret (latest, post_processed_by)
  | (name, process) :: instances =>
      if pc_started_late clock index then Ret (latest, post_processed_by)
      else
        let current := default route latest in
        if pc_timed_out clock index
        then run_from clock requests route (S index) instances latest post_processed_by
        else
          replacement ← process (requests index) current;
          match replacement with
          | Some replacement =>
              run_from clock requests route (S index) instances (Some replacement) (post_processed_by ++ [name])
          | None => run_from clock requests route (S index) instances latest post_processed_by
          end
  end.

Definition PostProcessors_run (p : PostProcessors) (clock : PipelineClock) (requests : nat -> PostProcessRequest)
    (route : RouteResult) : outcome (option ProcessedRoute) :=
  '(latest, post_processed_by) ← run_from clock requests route O (pp_instances p) None [];
  Ret (match latest with
       | Some route => Some {| pd_route := route; pd_post_processed_by := post_processed_by |}
       | None => None
       end).

(** A processor that only improves routes: it never panics, and a route it returns nets more. *)
Definition improving (request : PostProcessRequest) (process : Processor) : Prop :=
  forall route, splits_rounded (rt_swaps (rr_route route)) ->
    exists r, process request route = Ret r /\
      forall result, r = Some result ->
        (rr_net_amount_out route < rr_net_amount_out result)%Z /\ splits_rounded (rt_swaps (rr_route result)).

Lemma run_from_improves clock requests route index instances latest names before :
  (forall i instance, instances !! i = Some instance -> improving (requests (index + i)%nat) instance.2) ->
  splits_rounded (rt_swaps (rr_route route)) ->
  (latest = None /\ names = [] \/
   exists result, latest = Some result /\ names <> [] /\ (rr_net_amount_out route < rr_net_amount_out result)%Z /\
     splits_rounded (rt_swaps (rr_route result))) ->
  names `sublist_of` before ->
  exists latest' names', run_from clock requests route index instances latest names = Ret (latest', names') /\
    names' `sublist_of` before ++ instances.*1 /\
    (latest' = None /\ names' = [] \/
     exists result, latest' = Some result /\ names' <> [] /\ (rr_net_amount_out route < rr_net_amount_out result)%Z /\
       splits_rounded (rt_swaps (rr_route result))).
Proof.
  intros Hall Hsp. revert index latest names before Hall.
  induction instances as [|[name process] instances IH]; intros index latest names before Hall Hst Hsub; cbn [run_from].
  { eexists _, _. split; [reflexivity|]. cbn. by rewrite app_nil_r. }
  cbn [fmap list_fmap fst]. replace (before ++ name :: instances.*1) with ((before ++ [name]) ++ instances.*1)
    by (by rewrite <- app_assoc).
  assert (improving (requests index) process) as Hp.
  { pose proof (Hall O (name, process) eq_refl) as Hp. by rewrite Nat.add_0_r in Hp. }
  assert (forall i instance, instances !! i = Some instance -> improving (requests (S index + i)%nat) instance.2) as Hall'.
  { intros i instance Hi. pose proof (Hall (S i) instance Hi) as Hx. by rewrite Nat.add_succ_r in Hx. }
  assert (names `sublist_of` before ++ [name]) as Hsub' by (by apply sublist_inserts_r).
  destruct (pc_started_late clock index).
  { eexists _, _. split; [reflexivity|]. split; [by apply sublist_inserts_r|exact Hst]. }
  destruct (pc_timed_out clock index); [by apply (IH (S index) latest names)|].
  assert (splits_rounded (rt_swaps (rr_route (default route latest))) /\
    (rr_net_amount_out route <= rr_net_amount_out (default route latest))%Z) as [Hcur Hle].
  { destruct Hst as [[-> _]|(result & -> & _ & ? & ?)]; cbn; split; [done|lia|done|lia]. }
  destruct (Hp (default route latest) Hcur) as (r & Hr & Hok). rewrite Hr. cbn [mbind outcome_bind].
  destruct r as [result|]; [|by apply IH]. destruct (Hok result eq_refl) as [Hlt Hsp']. apply IH.
  - exact Hall'.
  - right. exists result. split_and!; [done|by destruct names|lia|done].
  - by apply sublist_app.
Qed.
End pipeline.

(** ** The registry *)

Definition RFQ_NAME : string := "rfq_swap_replacer".
Definition EXCLUSIVE_NAME : string := "exclusive_swap_replacer".

Record PostProcessorOrderError := {
  po_worker_pool : string;
  po_post_processor_name : string;
  po_followed_by : string;
}.

Record UnknownPostProcessorError := {
  up_worker_pool : string;
  up_post_processor_name : string;
  up_available_post_processors : list string;
}.

(** The loop over the names and their successors. *)
Fixpoint check_post_processor_order (worker_pool : string) (names : list string)
    : result PostProcessorOrderError unit :=
  match names with
  | name :: (followed_by :: _) as rest =>
      if bool_decide (name = EXCLUSIVE_NAME)
      then Err {| po_worker_pool := worker_pool; po_post_processor_name := name; po_followed_by := followed_by |}
      else check_post_processor_order worker_pool rest
  | _ => Ok tt
  end.

Section registry.
(** Factories: those of the built-in replacers and the ones the registry holds. *)
Context {Factory : Type} (rfq_factory exclusive_factory : Factory).

Definition BUILT_INS : list (string * Factory) := [(RFQ_NAME, rfq_factory); (EXCLUSIVE_NAME, exclusive_factory)].

Definition find_built_in (name : string) : option Factory :=
  snd <$> find_first (fun entry => bool_decide (entry.1 = name)) BUILT_INS.

(** The registered factories by name; the error carries the name that clashes. *)
Definition with_post_processor (by_name : gmap string Factory) (name : string) (factory : Factory)
    : result string (gmap string Factory) :=
  if bool_decide (is_Some (find_built_in name)) || bool_decide (is_Some (by_name !! name)) then Err name
  else Ok (<[name := factory]> by_name).

Definition resolve_name (by_name : gmap string Factory) (name : string) : option Factory :=
  match by_name !! name with Some factory => Some factory | None => find_built_in name end.

Fixpoint resolve (by_name : gmap string Factory) (worker_pool : string) (names : list string)
    : result UnknownPostProcessorError (list (string * Factory)) :=
  match names with
  | [] => Ok []
  | name :: names =>
      match resolve_name by_name name with
      | None => Err {| up_worker_pool := worker_pool; up_post_processor_name := name;
                       up_available_post_processors :=
                         merge_sort String.le ((map_to_list by_name).*1 ++ BUILT_INS.*1) |}
      | Some factory => factories ← resolve by_name worker_pool names; Ok ((name, factory) :: factories)
      end
  end.
End registry.

(** The order check passes exactly when nothing follows the exclusive replacer. *)
Lemma check_post_processor_order_lemma worker_pool names :
  check_post_processor_order worker_pool names = Ok tt <->
  forall before followed_by after, names <> before ++ EXCLUSIVE_NAME :: followed_by :: after.
Proof.
  induction names as [|name names IH]; cbn [check_post_processor_order].
  { split; [|done]. intros _ before followed_by after Hn. by destruct before. }
  destruct names as [|followed_by names].
  { split; [|done]. intros _ before f after Hn. by destruct before as [|? []]. }
  case_bool_decide as Hd.
  - split; [done|]. intros Hn. exfalso. apply (Hn [] followed_by names). by rewrite Hd.
  - rewrite IH. split.
    + intros Hn before f after E. destruct before as [|b before]; [injection E as -> _; by apply Hd|].
      injection E as _ E. by eapply Hn.
    + intros Hn before f after E. apply (Hn (name :: before) f after). cbn. by rewrite <- E.
Qed.

(** ** The built-in processors *)

Section built_in.
Context `{TychoMarket} `{!Messages} `{!TychoSwaps}.
Implicit Types (replacer : SwapReplacer) (request : PostProcessRequest).

(** A replacer as the worker drives it: it is built from a market, and handles the event of each
    change of the market after the change. *)
Inductive replacer_run (is_member : ProtocolComponent -> bool) (max_sync_lag : N) : MarketState -> SwapReplacer -> Prop :=
| run_initialize st :
    market_ok max_sync_lag st -> replacer_run is_member max_sync_lag st (replacer_initialize is_member st)
| run_event st st' event replacer :
    replacer_run is_member max_sync_lag st replacer -> membership_kept is_member st st' event ->
    after_event (component_topology st) event = component_topology st' ->
    replacer_run is_member max_sync_lag st' (replacer_handle_event is_member st' replacer event).

Lemma replacer_run_current is_member max_sync_lag st replacer : replacer_run is_member max_sync_lag st replacer ->
  sr_has_market replacer = true /\ replacement_index_current is_member st (sr_index replacer).
Proof.
  induction 1 as [st Hok|st st' event replacer _ [Hm Hc] Hk Hev].
  - split; [done|]. by eapply build_index_current.
  - unfold replacer_handle_event. rewrite Hm. split; [done|]. cbn. by eapply update_index_current.
Qed.

(** However the market changed since a replacer was built, as long as it handled the event of
    each change, its index lists exactly the components of the market that are its members, with
    their tokens, and a search finds exactly the members that hold two of the route's tokens. *)
Theorem replacer_index_follows is_member max_sync_lag st replacer :
  replacer_run is_member max_sync_lag st replacer ->
  (forall id, tokens_of (sr_index replacer) !! id =
     match get_component st id with
     | Some component => if is_member component then Some (component_tokens_of component) else None
     | None => None
     end) /\
  forall (tokens : gset Address) id, id ∈ find_touching (sr_index replacer) tokens <->
    exists component, get_component st id = Some component /\ is_member component = true /\
      (2 <= length (List.filter (fun t => bool_decide (t ∈ component_tokens_of component)) (elements tokens)))%nat.
Proof.
  intros Hrun. destruct (replacer_run_current _ _ _ _ Hrun) as [_ [Hr Ht]]. split; [exact Ht|]. intros tokens id.
  rewrite (elem_of_find_touching _ _ _ Hr), Ht. unfold member_tokens. destruct (get_component st id) as [c|].
  - destruct (is_member c) eqn:Hc; split.
    + intros (held & [= <-] & Hl). by exists c.
    + intros (c' & [= <-] & _ & Hl). by eexists.
    + by intros (? & ? & _).
    + intros (c' & [= <-] & ? & _). congruence.
  - split; [by intros (? & ? & _)|by intros (? & ? & _)].
Qed.

(** Both built-in replacers improve routes. *)
Lemma rfq_improving replacer request view :
  read_market (pr_market request) (pr_label request) = Ok view ->
  replacement_index_current is_rfq (view_guard view) (sr_index replacer) ->
  improving request (rfq_process replacer).
Proof.
  intros Hview Hidx route Hsp. destruct (rfq_returns replacer request route view Hview Hidx Hsp) as (r & Hr & Hok).
  exists r. split; [done|]. intros result Hres. destruct (Hok result Hres) as [Hrep _]. split; apply Hrep.
Qed.

Lemma exclusive_improving user_share_bps replacer request view :
  user_share_bps <= bps.DENOMINATOR ->
  read_market (pr_market request) (pr_label request) = Ok view ->
  replacement_index_current is_exclusive (view_guard view) (sr_index replacer) ->
  improving request (exclusive_process user_share_bps replacer).
Proof.
  intros Hshare Hview Hidx route Hsp.
  destruct (exclusive_returns user_share_bps replacer request route view Hshare Hview Hidx Hsp) as (r & Hr & Hok).
  exists r. split; [done|]. intros result Hres. destruct (Hok result Hres) as (_ & _ & _ & Hrep & _). split; apply Hrep.
Qed.
End built_in.

(** Running post-processors that only improve routes never panics and, whichever of them the
    deadline skips or cuts off, answers a route that nets more than the one given, with the names
    of those that returned a route, in the configuration's order; or nothing when none did. *)
Theorem pipeline_improves `{TychoMarket} (p : PostProcessors) (clock : PipelineClock)
    (requests : nat -> PostProcessRequest) (route : RouteResult) :
  (forall i instance, pp_instances p !! i = Some instance -> improving (requests i) instance.2) ->
  splits_rounded (rt_swaps (rr_route route)) ->
  exists r, PostProcessors_run p clock requests route = Ret r /\
    forall processed, r = Some processed ->
      (rr_net_amount_out route < rr_net_amount_out (pd_route processed))%Z /\
      pd_post_processed_by processed <> [] /\
      pd_post_processed_by processed `sublist_of` (pp_instances p).*1.
Proof.
  intros Hall Hsp. unfold PostProcessors_run.
  destruct (run_from_improves clock requests route O (pp_instances p) None [] [] Hall Hsp) as (latest & names & Hr & Hsub & Hst).
  { by left. } { done. }
  rewrite Hr. cbn [mbind outcome_bind]. eexists. split; [reflexivity|]. intros processed Hp.
  destruct Hst as [[-> _]|(result & -> & Hne & Hlt & _)]; [done|]. injection Hp as <-. done.
Qed.
