(* ===== verification/RouteSamples.v ===== *)
(** * RouteSamples: markets for the witnesses of split, fallback and replaced routes *)

From stdpp Require Import prelude gmap sets strings list sorting.
From Stdlib Require Import NArith ZArith Lia.
From S2P Require Import Prelude F64 Types Route Samples Amounts Exclusive Allocation Encoding DerivedStore Manager MarketData MarketDataProofs MarketInvariant MarketProperties SwapCache Algorithm StableGraph TokenGraph PathScoring Paths MostLiquidSamples.
From S2P Require Import SplitMath Replay SplitPlan SplitPlanProofs SplitReplay FallbackPools FallbackPricing Admission.
From S2P Require Import Replace ReplaceProofs ReplaceIndex Replacers PostProcessProperties PostProcess.

(** ** A split between two paths that share a pool

    A pool's state is its reserve, and a swap leaves less of it. Two paths to C go through
    different pools to B and then through the same one. *)

Module SplitSample.
#[local] Open Scope string_scope.
#[local] Existing Instances MarketSample.tycho MarketSample.tycho_market MostLiquidSample.messages.

(** A pool of reserve [R] pays [R a / (R + a)] for [a] and keeps the rest. *)
Definition swaps : TychoSwaps := {|
  get_amount_out := fun (reserve : ProtocolSim) amount _ _ =>
    let out := ((reserve : N) * amount / ((reserve : N) + amount))%N in
    Ret (Ok (@Build_GetAmountOutResult MarketSample.tycho out 100 ((reserve : N) - out)%N));
  PANIC_MESSAGE := "panic" |}.
#[local] Existing Instance swaps.

Definition split_messages : SplitMessages := {| show_split_plan_error := fun _ => "plan" |}.
#[local] Existing Instance split_messages.

Definition market : MarketState := MostLiquidSample.market
  [("ab1", (Sample.A, Sample.B), 10000%N); ("ab2", (Sample.A, Sample.B), 20000%N); ("bc", (Sample.B, Sample.C), 15000%N)].

Definition hop (pool : ComponentId) (token_in token_out : Address) : HopDescriptor :=
  {| hd_component_id := pool; hd_token_in := (token_in : Token); hd_token_out := (token_out : Token) |}.

Definition descriptors : list (list HopDescriptor) :=
  [[hop "ab1" Sample.A Sample.B; hop "bc" Sample.B Sample.C]; [hop "ab2" Sample.A Sample.B; hop "bc" Sample.B Sample.C]].

Definition third : f64 := F64.div F64.one (F64.of_N 3).
Definition fractions : list f64 := [third; F64.sub F64.one third].

Definition order : Order := MostLiquidSample.order 1000%N.

Definition allocations : list PathAllocation :=
  match allocations_from_descriptors descriptors fractions 1000%N with Ret (Ok paths) => paths | _ => [] end.

Definition score : option (outcome (result AlgorithmError (N * N))) :=
  evaluate_total_output descriptors fractions 1000%N market ∅.

Definition built : option (outcome (result AlgorithmError Route)) := build_split_route allocations market order.

Definition route : Route := match built with Some (Ret (Ok route)) => route | _ => {| rt_swaps := []; rt_tokens := ∅; rt_fallback_amount_out := None |} end.
End SplitSample.

Section witness.
Import SplitSample.
#[local] Existing Instances MarketSample.tycho MarketSample.tycho_market MostLiquidSample.messages SplitSample.swaps.
#[local] Existing Instance SplitSample.split_messages.

Lemma scored_split_replays_witness :
  score = Some (Ret (Ok (908, 300))) /\ splits_readable (rt_swaps route) = true /\
  replay_route route market = Ret (Ok {| rp_amount_out := 908; rp_gas := 300 |}).
Proof.
  assert (score = Some (Ret (Ok (908, 300)))) as Hs by by vm_compute.
  assert (splits_readable (rt_swaps route) = true) as Hr by by vm_compute.
  split; [exact Hs|]. split; [exact Hr|].
  destruct (scored_split_replays descriptors fractions market order allocations 908 300 route Sample.C) as [Hrep _].
  - by vm_compute.
  - exact Hs.
  - by vm_compute.
  - done.
  - by vm_compute.
  - by vm_compute.
  - repeat constructor; by vm_compute.
  - exact Hr.
  - assert (total_gas route = 300) as E by by vm_compute. rewrite E in Hrep. exact Hrep.
Defined.

Lemma replay_conserves_witness :
  let ends := {| end_input_token := Sample.A; end_output_token := Sample.C; end_total_in := 1000 |} in
  let runs := simulate_swaps (fun t => tokens market !! t) (fun s => simulation_states market !! sw_component_id s)
    (rt_swaps route) ends in
  Forall (fun s => canonical (sw_split s) = true) (rt_swaps route) /\
  exists sim, runs = Ret (Ok sim) /\ length (sim_swaps sim) = 3%nat /\ sim_total_gas sim = sum_by sim_gas (sim_swaps sim).
Proof.
  intros ends runs. assert (Forall (fun s => canonical (sw_split s) = true) (rt_swaps route)) as Hc.
  { apply Forall_forall. intros s Hs. apply list_elem_of_In in Hs. revert s Hs. apply forallb_forall. by vm_compute. }
  split; [exact Hc|].
  destruct (replay_conserves (fun t => tokens market !! t) (fun s => simulation_states market !! sw_component_id s)
    (rt_swaps route) ends Hc) as (r & Hr & Hok).
  destruct r as [sim|e]; [|exfalso; revert Hr; by vm_compute].
  destruct (Hok sim eq_refl) as (Hl & _ & _ & Hg). exists sim. split; [exact Hr|]. split; [|exact Hg].
  rewrite Hl. by vm_compute.
Defined.
End witness.

(** ** A pAMM leg with three pools to fall back to

    The pool that pays the most is excluded by the request, one pays more than the other. *)

Module FallbackPricingSample.
#[local] Open Scope string_scope.
#[local] Existing Instances MarketSample.tycho MarketSample.tycho_market MostLiquidSample.messages MostLiquidSample.swaps.
#[local] Existing Instance FallbackSample.fallbacks.

Definition data : TychoFallbackData := {|
  address_from_str := fun s => Some s;
  coins_from_json := fun _ => None;
  sim_fee := fun _ => F64.div (F64.of_N 3) (F64.of_N 1000);
  swap_data_to_json := fun _ => Ok "{}";
|}.
#[local] Existing Instance data.

Definition market : MarketState := MostLiquidSample.market
  [("ab1", (Sample.A, Sample.B), 1%N); ("ab4", (Sample.A, Sample.B), 4%N); ("ab5", (Sample.A, Sample.B), 5%N)].
Definition view : MarketDataView := {| view_guard := market; view_overlay := None |}.

Definition filter : RouteConstraints := {|
  rc_excluded_pools := {[ "ab4" ]}; rc_excluded_protocols := ∅; rc_excluded_tokens := ∅; rc_required_tokens := ∅ |}.

Definition route : Route := {|
  rt_swaps := [Swap_new "pamm" "fallback:rfq" Sample.A Sample.B 1000%N 1100%N 50%N
                 (MarketSample.pool "pamm" "fallback:rfq" [Sample.A; Sample.B]) 0%N];
  rt_tokens := ∅; rt_fallback_amount_out := None |}.

Definition priced : outcome (result FallbackError (Route * N)) :=
  price_through_fallbacks (fun _ => "replay") route view (index_build market) filter [].
End FallbackPricingSample.

Section witness.
Import FallbackPricingSample.
#[local] Existing Instances MarketSample.tycho MarketSample.tycho_market MostLiquidSample.messages MostLiquidSample.swaps.
#[local] Existing Instances FallbackSample.fallbacks FallbackPricingSample.data.

Lemma fallbacks_priced_witness :
  (fun r : result FallbackError (Route * N) => match r with Ok (_, amount) => Some amount | Err _ => None end) <$> priced
    = Ret (Some 1020) /\
  exists route', priced = Ret (Ok (route', 1020)) /\
    Forall2 (stamped_from view filter []) (rt_swaps route) (rt_swaps route').
Proof.
  assert ((fun r : result FallbackError (Route * N) => match r with Ok (_, amount) => Some amount | Err _ => None end) <$> priced
    = Ret (Some 1020)) as Hp by by vm_compute.
  split; [exact Hp|].
  assert (Forall (fun s => canonical (sw_split s) = true) (rt_swaps route)) as Hc by by repeat constructor.
  destruct (fallbacks_priced (fun _ => "replay"%string) route view (index_build market) filter [] (index_build_current market) Hc)
    as (r & Hr & Hok).
  change (priced = Ret r) in Hr. rewrite Hr in Hp. cbn in Hp. destruct r as [[route' amount]|e]; [|discriminate Hp].
  injection Hp as ->. exists route'. split; [exact Hr|]. apply Hok.
Defined.
End witness.

(** ** Routes that a replacer improves

    A route from A over B to C, an RFQ pool and an exclusive pool from A to C. A pool's state is
    what it pays per hundred. *)

Module ReplaceSample.
#[local] Open Scope string_scope.
#[local] Existing Instances MarketSample.tycho MarketSample.tycho_market MostLiquidSample.messages.

Definition swaps : TychoSwaps := {|
  get_amount_out := fun (state : ProtocolSim) amount _ _ =>
    Ret (Ok (@Build_GetAmountOutResult MarketSample.tycho (amount * state / 100)%N 100%N state));
  PANIC_MESSAGE := "panic" |}.
#[local] Existing Instance swaps.

Definition exclusive_pool : ProtocolComponent :=
  ({| MarketSample.c_id := "xc"; MarketSample.c_system := "uniswap_v2"; MarketSample.c_tokens := [Sample.A; Sample.C];
      MarketSample.c_attributes := {[ "is_exclusive" := "1" ]} |} : MarketSample.Component).

Definition rfq_pool : ProtocolComponent := MarketSample.pool "rfq" "rfq:bebop" [Sample.A; Sample.C].
Definition ab : ProtocolComponent := MarketSample.pool "ab" "uniswap_v2" [Sample.A; Sample.B].
Definition bc : ProtocolComponent := MarketSample.pool "bc" "uniswap_v2" [Sample.B; Sample.C].

Definition market : MarketState :=
  update_states
    (upsert_tokens (upsert_components MarketState_new [ab; bc; rfq_pool; exclusive_pool]).1
      ([Sample.A; Sample.B; Sample.C] : list Token))
    ([("ab", 100%N); ("bc", 100%N); ("rfq", 110%N); ("xc", 120%N)] : list (ComponentId * ProtocolSim)).

Definition route : RouteResult :=
  RouteResult_new {| rt_swaps := [Swap_new "ab" "uniswap_v2" Sample.A Sample.B 1000%N 1000%N 100%N ab 100%N;
                                  Swap_new "bc" "uniswap_v2" Sample.B Sample.C 1000%N 1000%N 100%N bc 100%N];
                     rt_tokens := ∅; rt_fallback_amount_out := None |} 800 1.

Definition request : PostProcessRequest := {|
  pr_order := MostLiquidSample.order 1000;
  pr_market := {| md_data := market; md_overlays := ∅ |};
  pr_label := None;
  pr_constraints := {| rrc_excluded_pools := ∅; rrc_excluded_tokens := ∅; rrc_required_tokens := {[ Sample.A ]};
                       rrc_unsynced_pools := ∅ |};
  pr_pool_drops := None;
  pr_exclusive_access := Granted;
  pr_late := fun _ => false |}.

Definition rfq_replacer : SwapReplacer := rfq_initialize market.
Definition exclusive_replacer : SwapReplacer := exclusive_initialize market.

(** The replacements of the whole route: what they net and commit to. *)
Definition summary (r : outcome (option RouteResult)) : option (list ComponentId * Z * option N) :=
  match r with
  | Ret (Some result) => Some (sw_component_id <$> rt_swaps (rr_route result), rr_net_amount_out result,
                               cm_committed_amount_out <$> rr_commitment result)
  | _ => None
  end.

Lemma rfq_summary : summary (rfq_process rfq_replacer request route) = Some (["rfq"], 1000%Z, None).
Proof. by vm_compute. Qed.

Lemma exclusive_summary : summary (exclusive_process 1000 exclusive_replacer request route) = Some (["xc"], 1100%Z, Some 1000%N).
Proof. by vm_compute. Qed.

Lemma market_holds : market_ok 50000000000 market.
Proof.
  apply set_simulation_states_ok, upsert_tokens_ok.
  apply upsert_components_ok; [apply MarketState_new_ok|]. split.
  - repeat constructor; intros stored; cbn; by rewrite lookup_empty.
  - intros c c' Hc Hc'. repeat (apply elem_of_cons in Hc as [->|Hc]); [..|by apply not_elem_of_nil in Hc];
      (repeat (apply elem_of_cons in Hc' as [->|Hc']); [..|by apply not_elem_of_nil in Hc']); done.
Qed.

Lemma splits : splits_rounded (rt_swaps (rr_route route)).
Proof. repeat constructor. Qed.

(** The RFQ pool is removed. *)
Definition removal : MarketEvent :=
  {| added_components := ∅; removed_components := ["rfq"]; updated_components := [] |}.
Definition market_after : MarketState := remove_components market ["rfq"].

Lemma removal_tells : after_event (component_topology market) removal = component_topology market_after.
Proof. by vm_compute. Qed.

Lemma removal_keeps : membership_kept is_rfq market market_after removal.
Proof.
  assert (components market_after = delete "rfq" (components market)) as E by by vm_compute.
  intros id c c' Hc Hc' _. unfold get_component in Hc, Hc'. rewrite E in Hc'.
  destruct (decide (id = "rfq")) as [->|Hne]; [by rewrite lookup_delete_eq in Hc'|].
  rewrite lookup_delete_ne in Hc' by done. rewrite Hc in Hc'. by injection Hc' as ->.
Qed.
End ReplaceSample.

Section witnesses.
Import ReplaceSample.
#[local] Existing Instances MarketSample.tycho MarketSample.tycho_market MostLiquidSample.messages ReplaceSample.swaps.

Lemma rfq_index : replacement_index_current is_rfq market (sr_index rfq_replacer).
Proof. exact (build_index_current is_rfq 50000000000 market market_holds). Qed.

Lemma exclusive_index : replacement_index_current is_exclusive market (sr_index exclusive_replacer).
Proof. exact (build_index_current is_exclusive 50000000000 market market_holds). Qed.

Lemma rfq_replacement_pays_more_witness : exists result,
  rfq_process rfq_replacer request route = Ret (Some result) /\
  replaced is_rfq request {| view_guard := market; view_overlay := None |} route result /\ rr_net_amount_out result = 1000%Z.
Proof.
  pose proof rfq_summary as Hs.
  destruct (rfq_replacement_pays_more rfq_replacer request route {| view_guard := market; view_overlay := None |}
    eq_refl rfq_index splits) as (r & Hr & Hok).
  rewrite Hr in Hs. destruct r as [result|]; [|discriminate Hs]. exists result. split; [exact Hr|].
  split; [exact (proj1 (Hok result eq_refl))|]. cbn in Hs. by injection Hs.
Defined.

Lemma exclusive_replacement_commits_witness : exists result,
  exclusive_process 1000 exclusive_replacer request route = Ret (Some result) /\
  replaced is_exclusive request {| view_guard := market; view_overlay := None |} route result /\
  commits 1000 request route result Sample.C.
Proof.
  pose proof exclusive_summary as Hs.
  destruct (exclusive_replacement_commits 1000 exclusive_replacer request route {| view_guard := market; view_overlay := None |}
    ltac:(by vm_compute) eq_refl exclusive_index splits) as (r & Hr & Hok).
  rewrite Hr in Hs. destruct r as [result|]; [|discriminate Hs]. exists result. split; [exact Hr|].
  destruct (Hok result eq_refl) as (_ & _ & _ & Hrep & output & Hout & Hcom). injection Hout as <-. by split.
Defined.

Lemma replacer_index_follows_witness :
  tokens_of (sr_index (rfq_handle_event market_after rfq_replacer removal)) !! "rfq"%string = None.
Proof.
  pose proof (proj1 (replacer_index_follows is_rfq 50000000000 market_after (rfq_handle_event market_after rfq_replacer removal)
    (run_event is_rfq 50000000000 market market_after removal rfq_replacer
      (run_initialize is_rfq 50000000000 market market_holds) removal_keeps removal_tells)) "rfq"%string) as Ht.
  exact Ht.
Defined.

Definition pipeline : PostProcessors := {|
  pp_worker_pool := "pool"; pp_instances := [(RFQ_NAME, rfq_process rfq_replacer);
    (EXCLUSIVE_NAME, exclusive_process 1000 exclusive_replacer)] |}.

Lemma pipeline_improves_witness : exists r,
  PostProcessors_run pipeline {| pc_started_late := fun _ => false; pc_timed_out := fun _ => false |} (fun _ => request) route = Ret r /\
  forall processed, r = Some processed -> (800 < rr_net_amount_out (pd_route processed))%Z.
Proof.
  destruct (pipeline_improves pipeline {| pc_started_late := fun _ => false; pc_timed_out := fun _ => false |} (fun _ => request) route)
    as (r & Hr & Hok).
  - intros [|[|i]] instance Hi; [..|discriminate Hi]; injection Hi as <-.
    + exact (rfq_improving rfq_replacer request {| view_guard := market; view_overlay := None |} eq_refl rfq_index).
    + exact (exclusive_improving 1000 exclusive_replacer request {| view_guard := market; view_overlay := None |}
        ltac:(by vm_compute) eq_refl exclusive_index).
  - exact splits.
  - exists r. split; [exact Hr|]. intros processed Hp. exact (proj1 (Hok processed Hp)).
Defined.
End witnesses.

