(* ===== verification/Worker.v ===== *)
(** * Worker: the worker that answers solve tasks

    Models [SolverWorker] of [fynd-core/src/worker_pool/worker.rs]: how a worker builds its graph,
    applies market events to it and to its post-processors, answers an order, waits for derived
    data, and the loop that picks what to do next; and [fynd-core/src/worker_pool/price_impact.rs],
    what the quoted output loses against the spot prices of the route's pools. The algorithm, the graph and the post-processors
    are classes. The market and the derived data are shared and change while a worker runs, so a
    quote is given what each of its reads finds. Instants are nanoseconds. *)

From Stdlib Require Import Floats.SpecFloat.
From stdpp Require Import prelude gmap sets strings list.
From Stdlib Require Import NArith ZArith Lia.
From S2P Require Import Prelude F64 Types Route Quote Amounts Exclusive Allocation Dispatch Tracker DerivedStore SpotPriceComputation Manager MarketData FallbackPools Admission WorkerChecks WeightRound.
From S2P Require Import SwapCache Algorithm StableGraph TokenGraph TokenGraphManager PathScoring Paths SplitMath Replay FallbackPricing Replace Replacers PostProcess.

(** ** Price impact *)

Inductive AmountSource := RouteInput | RouteOutput | SwapInput.

Inductive PriceImpactError :=
| PI_EmptyRoute
| PI_UnknownToken (token : Address)
| PI_SpotPriceQueryFailed (component_id : ComponentId) (token_in token_out : Address) (reason : string)
| PI_AmountOutOfRange (kind : AmountSource) (amount : N)
| PI_UnfedToken (token : Address)
| PI_ZeroConsumedInput (token : Address)
| PI_InvalidSpotPrice (token_in token_out : Address) (price : f64)
| PI_NoReferenceOutput
| PI_BasisPointsOutOfRange (impact : f64).

Record SpotLeg := {
  sl_token_in : Address;
  sl_token_out : Address;
  sl_amount_in_raw : f64;
  sl_reported_spot_price : f64;
}.

Record PriceImpactInputs := {
  pi_token_in : Address;
  pi_token_out : Address;
  pi_amount_in_raw : N;
  pi_amount_out_raw : N;
  pi_input_decimals : N;
  pi_output_decimals : N;
}.

(** [f64::powi] with an exponent that is not negative: by repeated squaring. *)
Fixpoint powi_pos (r a : f64) (b : positive) : f64 :=
  match b with
  | xH => F64.mul r a
  | xO b => powi_pos r (F64.mul a a) b
  | xI b => powi_pos (F64.mul r a) (F64.mul a a) b
  end.

(** [10f64.powi(decimals as i32)]; a negative exponent is the inverse. *)
Definition ten_powi (decimals : N) : f64 :=
  let i := if decimals mod 4294967296 <? 2147483648 then Z.of_N (decimals mod 4294967296)
           else (Z.of_N (decimals mod 4294967296) - 4294967296)%Z in
  match i with
  | Z0 => F64.one
  | Zpos b => powi_pos F64.one (F64.of_N 10) b
  | Zneg b => F64.div F64.one (powi_pos F64.one (F64.of_N 10) b)
  end.

Definition finite_of (raw : N) (kind : AmountSource) : result PriceImpactError f64 :=
  let value := F64.of_N raw in
  if F64.is_finite value then Ok value else Err (PI_AmountOutOfRange kind raw).

Definition raw_to_human_units (raw decimals : N) (kind : AmountSource) : result PriceImpactError f64 :=
  value ← finite_of raw kind;
  Ok (F64.div value (ten_powi decimals)).

(** [branch_collections] on the legs. *)
Definition spot_collections_push (st : gmap Address nat * list (Address * list SpotLeg)) (leg : SpotLeg)
    : gmap Address nat * list (Address * list SpotLeg) :=
  let '(index_by_token, collections) := st in
  let token := sl_token_in leg in
  match index_by_token !! token with
  | Some index => (index_by_token, alter (fun c => (c.1, c.2 ++ [leg])) index collections)
  | None => (<[token := length collections]> index_by_token, collections ++ [(token, [leg])])
  end.

Definition spot_collections (legs : list SpotLeg) : list (Address * list SpotLeg) :=
  (fold_left spot_collections_push legs (∅, [])).2.

Section reference.
Implicit Types (inputs : PriceImpactInputs) (references : gmap Address f64).

(** The legs of one collection, each on its share of what stands at the token. *)
Fixpoint visit_legs inputs (available consumed : f64) (legs : list SpotLeg) (references : gmap Address f64) (output : f64)
    : result PriceImpactError (gmap Address f64 * f64) :=
  match legs with
  | [] => Ok (references, output)
  | leg :: legs =>
      let price := sl_reported_spot_price leg in
      if negb (F64.is_finite price && F64.gtb price F64.zero)
      then Err (PI_InvalidSpotPrice (sl_token_in leg) (sl_token_out leg) price)
      else
        let share := F64.div (sl_amount_in_raw leg) consumed in
        let contribution := F64.mul (F64.mul available share) price in
        if bool_decide (sl_token_out leg = pi_token_out inputs)
        then visit_legs inputs available consumed legs references (F64.add output contribution)
        else
          let standing := default F64.zero (references !! sl_token_out leg) in
          visit_legs inputs available consumed legs
            (<[sl_token_out leg := F64.add standing contribution]> references) output
  end.

Fixpoint visit_collections inputs (collections : list (Address * list SpotLeg)) (references : gmap Address f64) (output : f64)
    : result PriceImpactError f64 :=
  match collections with
  | [] => Ok output
  | (token_in, collection) :: collections =>
      match references !! token_in with
      | None => Err (PI_UnfedToken token_in)
      | Some available =>
          let consumed := fold_left F64.add (sl_amount_in_raw <$> collection) F64.zero in
          if F64.leb consumed F64.zero then Err (PI_ZeroConsumedInput token_in)
          else
            '(references, output) ← visit_legs inputs available consumed collection references output;
            visit_collections inputs collections references output
      end
  end.

Definition spot_reference_output (legs : list SpotLeg) inputs : result PriceImpactError f64 :=
  input ← raw_to_human_units (pi_amount_in_raw inputs) (pi_input_decimals inputs) RouteInput;
  output ← visit_collections inputs (spot_collections legs) {[ pi_token_in inputs := input ]} F64.zero;
  if F64.is_finite output && F64.gtb output F64.zero then Ok output else Err PI_NoReferenceOutput.

Definition price_impact_from_spot_legs (legs : list SpotLeg) inputs : result PriceImpactError f64 :=
  match legs with
  | [] => Err PI_EmptyRoute
  | _ =>
      reference ← spot_reference_output legs inputs;
      executed ← raw_to_human_units (pi_amount_out_raw inputs) (pi_output_decimals inputs) RouteOutput;
      Ok (F64.sub F64.one (F64.div executed reference))
  end.
End reference.

(** [i32::MIN] and [i32::MAX] as doubles. *)
Definition i32_MIN : f64 := F64.opp (F64.of_N 2147483648).
Definition i32_MAX : f64 := F64.of_N 2147483647.

(** [x as i32] on a double in range. *)
Definition price_impact_to_basis_points (impact : f64) : result PriceImpactError Z :=
  let rounded := F64.round (F64.mul impact (F64.of_N 10000)) in
  if negb (F64.is_finite rounded) || F64.ltb rounded i32_MIN || F64.gtb rounded i32_MAX
  then Err (PI_BasisPointsOutOfRange impact)
  else Ok (F64.to_Z rounded).

Section route.
(** [ProtocolSim::spot_price] and the decimals of a token. *)
Context `{Tycho} (spot_price : ProtocolSim -> Token -> Token -> result string f64) (decimals : Token -> N).
Implicit Types (route : Route) (swap : Swap).

Definition token_of route (address : Address) : result PriceImpactError Token :=
  match rt_tokens route !! address with Some token => Ok token | None => Err (PI_UnknownToken address) end.

Definition reported_spot_price swap (token_in token_out : Token) : result PriceImpactError f64 :=
  match spot_price (sw_protocol_state swap) token_in token_out with
  | Ok price => Ok price
  | Err reason =>
      Err (PI_SpotPriceQueryFailed (sw_component_id swap) (token_address_of token_in) (token_address_of token_out) reason)
  end.

Definition spot_leg route swap : result PriceImpactError SpotLeg :=
  token_in ← token_of route (sw_token_in swap);
  token_out ← token_of route (sw_token_out swap);
  price ← reported_spot_price swap token_in token_out;
  amount ← finite_of (sw_amount_in swap) SwapInput;
  Ok {| sl_token_in := sw_token_in swap; sl_token_out := sw_token_out swap; sl_amount_in_raw := amount;
        sl_reported_spot_price := price |}.

Fixpoint spot_legs route (swaps : list Swap) : result PriceImpactError (list SpotLeg) :=
  match swaps with
  | [] => Ok []
  | swap :: swaps => leg ← spot_leg route swap; legs ← spot_legs route swaps; Ok (leg :: legs)
  end.

Definition route_price_impact route (amount_in_raw amount_out_raw : N) : result PriceImpactError f64 :=
  match head (rt_swaps route), last (rt_swaps route) with
  | Some first, Some last =>
      legs ← spot_legs route (rt_swaps route);
      input ← token_of route (sw_token_in first);
      output ← token_of route (sw_token_out last);
      price_impact_from_spot_legs legs {|
        pi_token_in := sw_token_in first; pi_token_out := sw_token_out last;
        pi_amount_in_raw := amount_in_raw; pi_amount_out_raw := amount_out_raw;
        pi_input_decimals := decimals input; pi_output_decimals := decimals output |}
  | _, _ => Err PI_EmptyRoute
  end.
End route.

(** ** Interfaces *)

(** [Algorithm]; it may read the clock and the derived data, which its request carries. *)
Class WorkerAlgorithm `{TychoMarket} (G : Type) : Type := {
  algorithm_name : string;
  SUPPORTS_REQUIRED_TOKENS : bool;
  algorithm_timeout : N;
  computation_requirements : ComputationRequirements;
  algorithm_find_best_route : SolveParts G -> outcome (result AlgorithmError RouteResult);
}.

(** [GraphManager], [MarketEventHandler] and [EdgeWeightUpdaterWithDerived]. *)
Class GraphManager `{TychoMarket} (M G : Type) : Type := {
  GraphManager_default : M;
  gm_initialize_graph : M -> gmap ComponentId ComponentTopology -> M;
  gm_graph : M -> G;
  gm_handle_event : M -> MarketEvent -> M * result GraphErrors unit;
  weight_inputs : list ComponentId;
  gm_update_edge_weights_with_derived : M -> MarketState -> DerivedData -> M * nat;
}.

(** [RoutePostProcessor] and its [MarketEventHandler]; a handler's error is only logged. *)
Class ProcessorOps `{TychoMarket} (P : Type) : Type := {
  po_initialize : P -> MarketState -> P;
  po_handle_event : P -> MarketState -> MarketEvent -> P;
  po_process : P -> PostProcessRequest -> RouteResult -> outcome (option RouteResult);
}.

(** The built-in post-processors. *)
Inductive BuiltIn := RfqInstance (replacer : SwapReplacer) | ExclusiveInstance (replacer : SwapReplacer).

#[export] Instance built_in_ops `{TychoMarket} `{!Messages} `{!TychoSwaps} (user_share_bps : N) : ProcessorOps BuiltIn := {|
  po_initialize := fun p market =>
    match p with
    | RfqInstance _ => RfqInstance (rfq_initialize market)
    | ExclusiveInstance _ => ExclusiveInstance (exclusive_initialize market)
    end;
  po_handle_event := fun p market event =>
    match p with
    | RfqInstance replacer => RfqInstance (rfq_handle_event market replacer event)
    | ExclusiveInstance replacer => ExclusiveInstance (exclusive_handle_event market replacer event)
    end;
  po_process := fun p =>
    match p with
    | RfqInstance replacer => rfq_process replacer
    | ExclusiveInstance replacer => exclusive_process user_share_bps replacer
    end;
|}.

(** ** The worker *)

Record SolverWorker {M P : Type} := {
  wk_graph_manager : M;
  wk_readiness_tracker : ReadinessTracker;
  wk_initialized : bool;
  wk_pamm_admission : PammManager;
  wk_pool_name : string;
  wk_liquidity_scope : LiquidityScope;
  wk_exclude_protocols : list string;
  wk_algorithm_exclude_protocols : list string;
  wk_algorithm_exclusions : list string;
  wk_post_processors : list (string * P);
}.
Arguments SolverWorker : clear implicits.

(** [SolveParams]; the cache is shared by the tasks of a request. *)
Record SolveParams := {
  sv_state_label : option StateLabel;
  sv_route_filter : RouteConstraints;
  sv_exclusive_access : ExclusiveAccess;
  sv_constraint_cache : option (N * ResolvedRouteConstraints);
}.

Definition POST_PROCESS_DEADLINE_MARGIN : N := 10000000.

Section worker.
Context {M G P : Type} `{TychoMarket} `{!TychoFallback} `{!TychoFallbackData} `{!Messages} `{!TychoSwaps}.
Context `{!WorkerAlgorithm G} `{!GraphManager M G} `{!ProcessorOps P}.
Implicit Types (w : SolverWorker M P) (order : Order) (params : SolveParams) (route : Route) (deadline : N).

Definition SolverWorker_new (pool_name : string) : SolverWorker M P := {|
  wk_graph_manager := GraphManager_default;
  wk_readiness_tracker := Tracker_new computation_requirements;
  wk_initialized := false;
  wk_pamm_admission := PammManager_new;
  wk_pool_name := pool_name;
  wk_liquidity_scope := IncludeExclusive;
  wk_exclude_protocols := [];
  wk_algorithm_exclude_protocols := [];
  wk_algorithm_exclusions := [];
  wk_post_processors := [] |}.

Definition set_graph_manager w (manager : M) : SolverWorker M P :=
  let '(Build_SolverWorker _ _ _ t i p n s e a x pp) := w in Build_SolverWorker _ _ manager t i p n s e a x pp.

Definition set_readiness_tracker w (tracker : ReadinessTracker) : SolverWorker M P :=
  let '(Build_SolverWorker _ _ m _ i p n s e a x pp) := w in Build_SolverWorker _ _ m tracker i p n s e a x pp.

Definition set_pamm_admission w (admission : PammManager) : SolverWorker M P :=
  let '(Build_SolverWorker _ _ m t i _ n s e a x pp) := w in Build_SolverWorker _ _ m t i admission n s e a x pp.

Definition with_liquidity_scope w (scope : LiquidityScope) : SolverWorker M P :=
  let '(Build_SolverWorker _ _ m t i p n _ e a x pp) := w in Build_SolverWorker _ _ m t i p n scope e a x pp.

Definition merge_algorithm_exclusions w : SolverWorker M P :=
  let '(Build_SolverWorker _ _ m t i p n s e a _ pp) := w in Build_SolverWorker _ _ m t i p n s e a (e ++ a) pp.

Definition with_exclude_protocols w (exclude_protocols : list string) : SolverWorker M P :=
  let '(Build_SolverWorker _ _ m t i p n s _ a x pp) := w in
  merge_algorithm_exclusions (Build_SolverWorker _ _ m t i p n s exclude_protocols a x pp).

Definition with_algorithm_exclude_protocols w (algorithm_exclude_protocols : list string) : SolverWorker M P :=
  let '(Build_SolverWorker _ _ m t i p n s e _ x pp) := w in
  merge_algorithm_exclusions (Build_SolverWorker _ _ m t i p n s e algorithm_exclude_protocols x pp).

Definition set_post_processors w (post_processors : list (string * P)) : SolverWorker M P :=
  let '(Build_SolverWorker _ _ m t i p n s e a x _) := w in Build_SolverWorker _ _ m t i p n s e a x post_processors.

Definition with_post_processors w (post_processors : list (string * P)) : SolverWorker M P :=
  set_post_processors w post_processors.

(** ** The graph *)

(** What the worker keeps out of its graph, whatever the market holds. *)
Definition graph_drops w : ProtocolComponent -> bool :=
  should_drop_component (wk_liquidity_scope w) (wk_algorithm_exclusions w).

(** What its post-processors do not learn of. *)
Definition post_processor_drops w : ProtocolComponent -> bool :=
  should_drop_component IncludeExclusive (wk_exclude_protocols w).

(** [processor_market i] is the market as the [i]-th post-processor reads it. *)
Definition worker_initialize_graph w (market : MarketState) (processor_market : nat -> MarketState) : SolverWorker M P :=
  let '(admission, withheld_pamms) := withhold_from_graph market (component_topology market) (graph_drops w) in
  let topology := ComponentFilter.remove_components market (component_topology market)
    (fun component => graph_drops w component || bool_decide (component_id_of component ∈ withheld_pamms)) in
  let '(Build_SolverWorker _ _ m t _ _ n s e a x pp) := w in
  Build_SolverWorker _ _ (gm_initialize_graph m topology) t true admission n s e a x
    (imap (fun i entry => (entry.1, po_initialize entry.2 (processor_market i))) pp).

(** The events of the graph and of the post-processors. *)
Definition split_event w (market : MarketState) (event : MarketEvent) : MarketEvent * MarketEvent :=
  if bool_decide (wk_post_processors w = @nil (string * P))
     || (bool_decide (wk_liquidity_scope w = IncludeExclusive) && bool_decide (wk_algorithm_exclude_protocols w = []))
  then
    let for_graph := ComponentFilter.filter_event market event (graph_drops w) in
    (for_graph, for_graph)
  else
    let for_post_processors := ComponentFilter.filter_event market event (post_processor_drops w) in
    (ComponentFilter.filter_event market for_post_processors (graph_drops w), for_post_processors).

Definition process_event w (market : MarketState) (processor_market : nat -> MarketState) (event : MarketEvent)
    : SolverWorker M P :=
  let '(admission, event) := apply_pamm_admission market (graph_drops w) (wk_pamm_admission w) event in
  let '(graph_event, post_processor_event) := split_event w market event in
  let manager := (gm_handle_event (wk_graph_manager w) graph_event).1 in
  let processors := imap (fun i entry => (entry.1, po_handle_event entry.2 (processor_market i) post_processor_event))
                      (wk_post_processors w) in
  set_post_processors (set_graph_manager (set_pamm_admission w admission) manager) processors.

(** ** Answering an order *)

Definition worker_read_market (market : MarketData) (label : option StateLabel) : result SolveError MarketDataView :=
  match label with
  | Some label =>
      match read_labeled market label with
      | Some view => Ok view
      | None => Err (SE_NotReady (show_label_not_found label))
      end
  | None => Ok (read market)
  end.

Context (show_replay_error : ReplayError -> string).

Definition price_fallback_legs w (market : MarketData) order params route : outcome (result SolveError Route) :=
  if negb (has_fallback_leg route) then Ret (Ok route)
  else match worker_read_market market (sv_state_label params) with
  | Err e => Ret (Err e)
  | Ok view =>
      priced ← price_through_fallbacks show_replay_error route view (pm_fallback_pools (wk_pamm_admission w))
                 (sv_route_filter params) (wk_algorithm_exclusions w);
      Ret (match priced with
           | Ok (route, amount) => Ok (Route_set_fallback_amount_out route amount)
           | Err error => Err (SE_RouteRejected (order_id order) (rejection error))
           end)
  end.

Definition post_process_exclusive_access w params : ExclusiveAccess :=
  match wk_liquidity_scope w with
  | PublicOnly => sv_exclusive_access params
  | IncludeExclusive => Denied
  end.

Definition post_process_scope w params : LiquidityScope :=
  match post_process_exclusive_access w params with
  | Granted => IncludeExclusive
  | Denied => wk_liquidity_scope w
  end.

Definition post_process_deadline deadline : N :=
  match checked_sub deadline POST_PROCESS_DEADLINE_MARGIN with Some d => d | None => deadline end.

(** What the reads of one quote find, and when its post-processors run: the instant each starts,
    whether it is cut off at the deadline, and the instants of its own readings. *)
Record Readings := {
  rd_initialize : MarketState;
  rd_processor_initialize : nat -> MarketState;
  rd_constraints : MarketData;
  rd_algorithm : MarketData;
  rd_algorithm_derived : DerivedData;
  rd_processor : nat -> MarketData;
  rd_started : nat -> N;
  rd_cut_off : nat -> bool;
  rd_clock : nat -> nat -> N;
  rd_processed_fallback : MarketData;
  rd_fallback : MarketData;
  rd_prices : DerivedData;
}.
Implicit Types (readings : Readings).

Definition processor_request w readings order params (constraints : ResolvedRouteConstraints) deadline (i : nat)
    : PostProcessRequest := {|
  pr_order := order;
  pr_market := rd_processor readings i;
  pr_label := sv_state_label params;
  pr_constraints := constraints;
  pr_pool_drops := Some (should_drop_component (post_process_scope w params) (wk_exclude_protocols w));
  pr_exclusive_access := post_process_exclusive_access w params;
  pr_late := fun k => post_process_deadline deadline <=? rd_clock readings i k |}.

Definition pipeline_of w : PostProcessors :=
  {| pp_worker_pool := wk_pool_name w;
     pp_instances := (fun entry => (entry.1, po_process entry.2)) <$> wk_post_processors w |}.

Definition pipeline_clock readings deadline : PipelineClock :=
  {| pc_started_late := fun i => post_process_deadline deadline <=? rd_started readings i;
     pc_timed_out := rd_cut_off readings |}.

(** The checks of a processed route, and its price through fallbacks. The reason of a refusal is
    only logged. *)
Definition check_processed w readings order params (constraints : ResolvedRouteConstraints) (processed : RouteResult)
    : outcome (option RouteResult) :=
  checked ← check_route (rr_route processed) order (sv_route_filter params) constraints;
  match checked with
  | Err _ => Ret None
  | Ok _ =>
      match check_processed_route (wk_liquidity_scope w) (wk_exclude_protocols w) order processed
              (post_process_scope w params) with
      | Err _ => Ret None
      | Ok _ =>
          priced ← price_fallback_legs w (rd_processed_fallback readings) order params (rr_route processed);
          Ret (match priced with
               | Ok route => Some {| rr_route := route; rr_net_amount_out := rr_net_amount_out processed;
                                     rr_gas_price := rr_gas_price processed; rr_commitment := rr_commitment processed |}
               | Err _ => None
               end)
      end
  end.

(** The route to quote, and the names of the post-processors that made it. *)
Definition post_process w readings order params (constraints : ResolvedRouteConstraints) deadline (result : RouteResult)
    : outcome (RouteResult * list string) :=
  if PostProcessors_is_empty (pipeline_of w) then Ret (result, [])
  else
    processed ← PostProcessors_run (pipeline_of w) (pipeline_clock readings deadline)
                  (processor_request w readings order params constraints deadline) result;
    match processed with
    | None => Ret (result, [])
    | Some processed =>
        checked ← check_processed w readings order params constraints (pd_route processed);
        Ret (match checked with
             | Some route => (route, pd_post_processed_by processed)
             | None => (result, [])
             end)
    end.

(** *** The quote of a route *)

Context (spot_price : ProtocolSim -> Token -> Token -> result string f64) (decimals : Token -> N).

Definition route_carries_no_swaps : SolveError :=
  SE_AlgorithmError (algorithm_name +:+ " returned a route with no swaps").

Definition quoted_amounts order route : result SolveError (N * N) :=
  amount_in_raw ←
    (if Order_is_sell order then Ok (order_amount order)
     else match input_amount route with Some amount => Ok amount | None => Err route_carries_no_swaps end);
  amount_out_raw ←
    (if Order_is_sell order
     then match output_token route with
          | Some output_token => Ok (Route_amount_out route output_token)
          | None => Err route_carries_no_swaps
          end
     else Ok (order_amount order));
  Ok (amount_in_raw, amount_out_raw).

(** A failed calculation leaves the impact out. *)
Definition quoted_price_impact route (amount_in_raw amount_out_raw : N) : option Z :=
  match route_price_impact spot_price decimals route amount_in_raw amount_out_raw with
  | Ok impact => match price_impact_to_basis_points impact with Ok bps => Some bps | Err _ => None end
  | Err _ => None
  end.

(** The counters of [pin_route_commitment] are left out, so the token prices are not read. *)
Definition pin_route_commitment (quote : OrderQuote) (commitment : Commitment) : outcome OrderQuote :=
  pin_commitment quote (cm_committed_amount_out commitment).

Definition quote_route order (block_info : BlockInfo) (solved_against : StateLabel) (processed_by : list string)
    (net_amount_out : Z) (gas_price : N) (commitment : option Commitment) route : outcome (result SolveError OrderQuote) :=
  match quoted_amounts order route with
  | Err e => Ret (Err e)
  | Ok (amount_in_raw, amount_out_raw) =>
      let price_impact_bps := quoted_price_impact route amount_in_raw amount_out_raw in
      let quote := set_post_processed_by
        (with_gas_price
          (with_route
            (OrderQuote_new (order_id order) Success amount_in_raw amount_out_raw (total_gas route)
               (Z.to_N net_amount_out) block_info algorithm_name (order_sender order) (Order_effective_receiver order)
               solved_against) route) gas_price) processed_by in
      quote ← (match commitment with
               | Some commitment => pin_route_commitment quote commitment
               | None => Ret quote
               end);
      Ret (Ok (match price_impact_bps with Some bps => with_price_impact_bps quote bps | None => quote end))
  end.

(** What [quote] does with a route the algorithm returned. *)
Definition quote_result w readings order params (constraints : ResolvedRouteConstraints) (block_info : BlockInfo)
    (solved_against : StateLabel) deadline (result : RouteResult) : outcome (Prelude.result SolveError OrderQuote) :=
  '(result, post_processed_by) ← post_process w readings order params constraints deadline result;
  priced ← (if bool_decide (post_processed_by = [])
            then price_fallback_legs w (rd_fallback readings) order params (rr_route result)
            else Ret (Ok (rr_route result)));
  match priced with
  | Err e => Ret (Err e)
  | Ok route =>
      quote_route order block_info solved_against post_processed_by (rr_net_amount_out result) (rr_gas_price result)
        (rr_commitment result) route
  end.

Context (show_missing : gset ComputationId -> string) (show_address : Address -> string).
Context (show_algorithm_error : AlgorithmError -> string) (show_block_number : N -> string).

Definition view_label (view : MarketDataView) : option StateLabel := fst <$> view_overlay view.

(** The block, the label and the constraints, read before the solve. *)
Definition read_solve_state readings params : result SolveError (BlockInfo * StateLabel * ResolvedRouteConstraints) :=
  view ← worker_read_market (rd_constraints readings) (sv_state_label params);
  match last_updated (view_guard view) with
  | None => Err (SE_NotReady "No block info")
  | Some last_block =>
      let solved_against := default (show_block_number (block_number last_block)) (view_label view) in
      Ok (last_block, solved_against,
          (resolve_constraints (view_guard view) (sv_route_filter params) (sv_constraint_cache params)).1)
  end.

Definition ensure_initialized w readings : SolverWorker M P :=
  if wk_initialized w then w
  else worker_initialize_graph w (rd_initialize readings) (rd_processor_initialize readings).

Definition solve_request w readings order params (constraints : ResolvedRouteConstraints) : SolveParts G := {|
  so_graph := gm_graph (wk_graph_manager w); so_order := order; so_market := rd_algorithm readings;
  so_label := sv_state_label params; so_derived := Some (rd_algorithm_derived readings);
  so_constraints := constraints |}.

(** The worker, and its answer. *)
Definition worker_quote w readings order params deadline : outcome (SolverWorker M P * result SolveError OrderQuote) :=
  if negb (bool_decide (rc_required_tokens (sv_route_filter params) = ∅)) && negb SUPPORTS_REQUIRED_TOKENS
  then Ret (w, Err SE_RequiredTokensNotSupported)
  else
    let tracker := wk_readiness_tracker w in
    if has_requirements (Tracker.requirements tracker) && negb (is_ready tracker)
    then Ret (w, Err (SE_NotReady ("derived data not ready: missing " +:+ show_missing (Tracker.missing tracker))))
    else
      let w := ensure_initialized w readings in
      match read_solve_state readings params with
      | Err e => Ret (w, Err e)
      | Ok (block_info, solved_against, constraints) =>
          found ← algorithm_find_best_route (solve_request w readings order params constraints);
          match found with
          | Err err => Ret (w, Err (solve_error_from_algorithm_error show_algorithm_error (order_id order) (order_amount order) err))
          | Ok result =>
              checked ← check_route (rr_route result) order (sv_route_filter params) constraints;
              match checked with
              | Err err =>
                  Ret (w, Err (SE_AlgorithmError (algorithm_name +:+ " produced an invalid route: "
                                 +:+ RouteCheckError_to_string show_address err)))
              | Ok _ =>
                  quoted ← quote_result w readings order params constraints block_info solved_against deadline result;
                  Ret (w, quoted)
              end
          end
      end.

(** ** Waiting for derived data *)

(** The tracker belongs to the worker and is borrowed while it waits, so it is the same at every
    turn of the loop; [wakes] are the instants at which a notification arrives, and the sleep ends
    the wait when there is none left. *)
Fixpoint wait_loop (tracker : ReadinessTracker) deadline (now : N) (wakes : list N) : result SolveError unit :=
  if is_ready tracker then Ok tt
  else if is_blocked_for_current_block tracker
  then Err (SE_ComputationFailed ("required computation failed for current block: " +:+ show_missing (Tracker.missing tracker)))
  else
    let timed_out := Err (SE_NotReady ("timeout waiting for derived data: missing " +:+ show_missing (Tracker.missing tracker))) in
    if deadline <=? now then timed_out
    else match wakes with
    | [] => timed_out
    | woken :: wakes =>
        if is_blocked_for_current_block tracker
        then Err (SE_ComputationFailed ("required computation failed for current block: " +:+ show_missing (Tracker.missing tracker)))
        else wait_loop tracker deadline woken wakes
    end.

Definition wait_until_ready w (timeout now : N) (wakes : list N) : result SolveError unit :=
  let tracker := wk_readiness_tracker w in
  if negb (has_requirements (Tracker.requirements tracker)) || is_ready tracker then Ok tt
  else wait_loop tracker (now + timeout) now wakes.

(** ** The loop *)

Record SolveTask := {
  st_id : N;
  st_order : Order;
  st_params : SolveParams;
  st_created_at : N;
  st_deadline : N;
}.

(** What a receiver gives: a message, the end of the channel, or how far it lagged behind. *)
Inductive Received (A : Type) := Message (a : A) | Closed | Lagged (skipped : N).
Arguments Message {A} _.
Arguments Closed {A}.
Arguments Lagged {A} _.

(** The arms of the select that are ready, with what they receive. *)
Record ReadyArms := {
  ra_shutdown : bool;
  ra_market : option (Received MarketEvent);
  ra_derived : option (Received DerivedDataEvent);
  ra_task : option (option SolveTask);
}.

Inductive Arm :=
| ArmShutdown
| ArmMarket (received : Received MarketEvent)
| ArmDerived (received : Received DerivedDataEvent)
| ArmTask (task : option SolveTask).

(** [biased] takes the first ready arm in order; the guard of the third disables it. *)
Definition select (derived_closed : bool) (arms : ReadyArms) : option Arm :=
  if ra_shutdown arms then Some ArmShutdown
  else match ra_market arms with
  | Some received => Some (ArmMarket received)
  | None =>
      match (if derived_closed then None else ra_derived arms) with
      | Some received => Some (ArmDerived received)
      | None => ArmTask <$> ra_task arms
      end
  end.

(** What the loop finds when it runs an arm: the market and the derived data, the instant, and
    for a task what its quote reads, when it is woken, and when the solve ends. *)
Record Environment := {
  en_market : MarketState;
  en_processor_market : nat -> MarketState;
  en_derived : DerivedData;
  en_now : N;
  en_wakes : list N;
  en_readings : Readings;
  en_elapsed_ms : N;
}.

Record LoopState := {
  ls_worker : SolverWorker M P;
  ls_weight_round : WeightInputsRound;
  ls_derived_closed : bool;
  ls_responses : list (N * result SolveError SingleOrderQuote);
}.

Definition LoopState_new w : LoopState := {|
  ls_worker := w;
  ls_weight_round := WeightInputsRound_new weight_inputs computation_requirements;
  ls_derived_closed := false;
  ls_responses := [] |}.

Definition set_worker (ls : LoopState) w : LoopState :=
  {| ls_worker := w; ls_weight_round := ls_weight_round ls; ls_derived_closed := ls_derived_closed ls;
     ls_responses := ls_responses ls |}.

Definition respond (ls : LoopState) (task : SolveTask) (answer : result SolveError SingleOrderQuote) : LoopState :=
  {| ls_worker := ls_worker ls; ls_weight_round := ls_weight_round ls; ls_derived_closed := ls_derived_closed ls;
     ls_responses := ls_responses ls ++ [(st_id task, answer)] |}.

(** [Duration::as_millis() as u64] of the time since the task was created. *)
Definition waited_ms (task : SolveTask) (now : N) : N := (now - st_created_at task) / 1000000 mod (u64_MAX + 1).

Definition refresh_weights (env : Environment) w : SolverWorker M P :=
  set_graph_manager w (gm_update_edge_weights_with_derived (wk_graph_manager w) (en_market env) (en_derived env)).1.

Definition handle_derived_event (ls : LoopState) (env : Environment) (event : DerivedDataEvent) : LoopState :=
  let w := set_readiness_tracker (ls_worker ls) (Tracker.handle_event (wk_readiness_tracker (ls_worker ls)) event) in
  let '(round, rebuild) := record_event (ls_weight_round ls) event in
  {| ls_worker := if rebuild : bool then refresh_weights env w else w;
     ls_weight_round := round; ls_derived_closed := ls_derived_closed ls; ls_responses := ls_responses ls |}.

Definition solve_task (ls : LoopState) (env : Environment) (task : SolveTask) : outcome LoopState :=
  match task_budget algorithm_timeout (st_deadline task) (en_now env) with
  | None => Ret (respond ls task (Err (SE_Timeout (waited_ms task (en_now env)))))
  | Some budget =>
      match wait_until_ready (ls_worker ls) budget (en_now env) (en_wakes env) with
      | Err e => Ret (respond ls task (Err e))
      | Ok _ =>
          '(w, answer) ← worker_quote (ls_worker ls) (en_readings env) (st_order task) (st_params task) (st_deadline task);
          Ret (respond (set_worker ls w) task
                 (match answer with
                  | Ok quote => Ok {| Dispatch.so_order := quote; so_solve_time_ms := en_elapsed_ms env |}
                  | Err e => Err e
                  end))
      end
  end.

(** One turn: the state, and whether the loop goes on. *)
Definition run_arm (ls : LoopState) (env : Environment) (arm : Arm) : outcome (LoopState * bool) :=
  match arm with
  | ArmShutdown => Ret (ls, false)
  | ArmMarket (Message event) =>
      Ret (set_worker ls (process_event (ls_worker ls) (en_market env) (en_processor_market env) event), true)
  | ArmMarket Closed => Ret (ls, false)
  | ArmMarket (Lagged _) =>
      Ret (set_worker ls (worker_initialize_graph (ls_worker ls) (en_market env) (en_processor_market env)), true)
  | ArmDerived (Message event) => Ret (handle_derived_event ls env event, true)
  | ArmDerived Closed =>
      Ret ({| ls_worker := ls_worker ls; ls_weight_round := ls_weight_round ls; ls_derived_closed := true;
              ls_responses := ls_responses ls |}, true)
  | ArmDerived (Lagged _) => Ret (set_worker ls (refresh_weights env (ls_worker ls)), true)
  | ArmTask (Some task) => ls ← solve_task ls env task; Ret (ls, true)
  | ArmTask None => Ret (ls, false)
  end.

(** The loop over the turns, each with what is ready; a turn with nothing ready waits. *)
Fixpoint worker_run (ls : LoopState) (turns : list (ReadyArms * Environment)) : outcome LoopState :=
  match turns with
  | [] => Ret ls
  | (arms, env) :: turns =>
      match select (ls_derived_closed ls) arms with
      | None => worker_run ls turns
      | Some arm =>
          '(ls, continue) ← run_arm ls env arm;
          if continue : bool then worker_run ls turns else Ret ls
      end
  end.
End worker.
Arguments Message {A} _.
Arguments Closed {A}.
Arguments Lagged {A} _.
