(* ===== verification/WorkerProofs.v ===== *)
(** * WorkerProofs: what a worker answers, and what its graph holds

    The theorems of [Worker]: a quoted route passed the checks of its request, and the state it
    names was read before the solve; a post-processor never takes a quote away, waiting for derived data
    never changes whether a worker is ready, and through any turns of the loop that read the market in
    step with its events the worker's graph holds what it may use. *)

From stdpp Require Import prelude gmap sets strings list.
From Stdlib Require Import NArith ZArith Lia.
From S2P Require Import Prelude F64 Types Route RouteProofs Samples Quote Amounts Exclusive Allocation Dispatch Tracker DerivedStore SpotPriceComputation Manager MarketData MarketDataProofs MarketInvariant FallbackPools Admission WorkerChecks WeightRound.
From S2P Require Import SwapCache Algorithm StableGraph TokenGraph TokenGraphManager TokenGraphLaws TokenGraphSync TokenGraphProperties PathScoring Paths SplitMath Replay FallbackPricing Replace ReplaceProofs ReplaceIndex Replacers PostProcessProperties PostProcess MostLiquidSamples RouteSamples Worker.

(** ** Legs *)

(** A swap without what a quote adds to it: its commitment and its fallback. *)
Definition bare `{Tycho} (s : Swap) : Swap :=
  let '(Build_Swap _ id p ti to ai ao g pc ps sp _ _) := s in
  Build_Swap _ id p ti to ai ao g pc ps sp None None.

(** Two lists of swaps that trade the same. *)
Abbreviation same_trades swaps swaps' := (bare <$> swaps = bare <$> swaps').

Section legs.
Context `{Tycho}.
Implicit Types (swaps : list Swap) (s : Swap) (route : Route).

Lemma bare_set_fallback s leg : bare (Swap_set_fallback s leg) = bare s.
Proof. by destruct s. Qed.

Lemma bare_captured s s' : captured_swap s s' -> bare s' = bare s.
Proof. by intros [->|(_ & c & -> & _)]; destruct s. Qed.

Lemma captured_trades swaps swaps' : Forall2 captured_swap swaps swaps' -> same_trades swaps' swaps.
Proof. induction 1; [done|]. rewrite !fmap_cons. f_equal; [by apply bare_captured|done]. Qed.

(** A function of swaps that reads only what [bare] keeps. *)
Lemma trades_fmap {A} (f : Swap -> A) swaps swaps' : (forall s, f (bare s) = f s) ->
  same_trades swaps swaps' -> f <$> swaps = f <$> swaps'.
Proof.
  intros Hf Hs. assert (forall l : list Swap, f <$> l = f <$> (bare <$> l)) as E.
  { intros l. rewrite <- list_fmap_compose. apply list_fmap_ext. intros i x _. symmetry. apply Hf. }
  by rewrite (E swaps), (E swaps'), Hs.
Qed.

Lemma trades_amount_out route route' token : same_trades (rt_swaps route) (rt_swaps route') ->
  Route_amount_out route token = Route_amount_out route' token.
Proof.
  intros Hs. unfold Route_amount_out.
  assert (forall l : list Swap, sum_by sw_amount_out (List.filter (fun s => bool_decide (sw_token_out s = token)) l)
    = foldr (fun p acc => (if bool_decide (p.1 = token) then p.2 else 0) + acc) 0
        ((fun s => (sw_token_out s, sw_amount_out s)) <$> l)) as E.
    { induction l as [|s l IH]; [done|]. rewrite fmap_cons. cbn [List.filter foldr fst snd]. rewrite <- IH. case_bool_decide; [by rewrite sum_by_cons|lia]. }
  rewrite !E. f_equal. apply trades_fmap; [by intros []|done].
Qed.

Lemma trades_output_token route route' : same_trades (rt_swaps route) (rt_swaps route') ->
  output_token route = output_token route'.
Proof.
  intros Hs. unfold output_token. rewrite <- !fmap_last. f_equal. apply trades_fmap; [by intros []|done].
Qed.

Lemma trades_nil swaps swaps' : same_trades swaps swaps' -> swaps = [] -> swaps' = [].
Proof. intros Hs ->. by destruct swaps'. Qed.

Lemma trades_rounded swaps swaps' : same_trades swaps swaps' -> splits_rounded swaps -> splits_rounded swaps'.
Proof.
  intros Hs Hr. pose proof (trades_fmap sw_split swaps swaps' ltac:(by intros []) Hs) as E.
  apply Forall_forall. intros s Hin. apply (list_elem_of_fmap_2 sw_split) in Hin. rewrite <- E in Hin.
  apply list_elem_of_fmap in Hin as (s' & -> & Hin). exact (proj1 (Forall_forall _ _) Hr s' Hin).
Qed.

Lemma trades_nothing swaps swaps' : same_trades swaps swaps' -> nothing_for_nothing swaps -> nothing_for_nothing swaps'.
Proof.
  intros Hs Hp s Hin. pose proof (trades_fmap (fun s => (sw_amount_in s, sw_amount_out s)) swaps swaps' ltac:(by intros []) Hs) as E.
  apply (list_elem_of_fmap_2 (fun s => (sw_amount_in s, sw_amount_out s))) in Hin. rewrite <- E in Hin.
  apply list_elem_of_fmap in Hin as (s' & [= -> ->] & Hin). by apply Hp.
Qed.
End legs.

(** ** Pricing the fallbacks *)

Section pricing.
Context `{TychoFallbackData} `{!TychoSwaps} `{!Messages} (show_replay_error : ReplayError -> string).
Implicit Types (route : Route).

Lemma stamp_fallbacks_trades market index filter exclusions swaps stamped :
  stamp_fallbacks market index filter exclusions swaps = Ok stamped -> same_trades stamped swaps.
Proof.
  revert stamped. induction swaps as [|s swaps IH]; intros stamped; cbn [stamp_fallbacks]; [by intros [= <-]|].
  destruct (negb (is_fallback_swap s)).
  - intros (stamped' & Hs & [= <-])%bind_Ok. rewrite !fmap_cons. f_equal. by apply IH.
  - intros (leg & _ & (stamped' & Hs & [= <-])%bind_Ok)%bind_Ok. rewrite !fmap_cons, bare_set_fallback. f_equal. by apply IH.
Qed.

Lemma price_through_fallbacks_trades route market index filter exclusions route' amount :
  price_through_fallbacks show_replay_error route market index filter exclusions = Ret (Ok (route', amount)) ->
  same_trades (rt_swaps route') (rt_swaps route).
Proof.
  unfold price_through_fallbacks. destruct (stamp_fallbacks _ _ _ _ _) as [swaps|e] eqn:Hst; [|done]. cbn zeta.
  apply stamp_fallbacks_trades in Hst. destruct (Route_new _ []); [|done].
  intros (r & _ & Hr)%bind_Ret. destruct r; [|done]. by injection Hr as <- _.
Qed.

(** Pricing returns, whatever the index lists. *)
Lemma price_through_fallbacks_returns route market index filter exclusions : splits_rounded (rt_swaps route) ->
  exists r, price_through_fallbacks show_replay_error route market index filter exclusions = Ret r.
Proof.
  intros Hsp. unfold price_through_fallbacks.
  destruct (stamp_fallbacks _ _ _ _ _) as [swaps|e] eqn:Hst; [|by eexists]. cbn zeta.
  apply stamp_fallbacks_trades in Hst. set (route' := with_swaps route swaps).
  destruct (Route_new _ []) as [substituted|error] eqn:Hnew; [|by eexists].
  assert (rt_swaps substituted = substitute_fallbacks route') as Hsw
    by (unfold Route_new in Hnew; destruct (substitute_fallbacks route'); [done|by injection Hnew as <-]).
  destruct (replay_route_returns substituted
    (extract_subset_with_overlay market (list_to_set (sw_component_id <$> substitute_fallbacks route')))) as (r & ->).
  { rewrite Hsw. apply Forall_fmap. eapply Forall_impl; [exact (trades_rounded _ _ (eq_sym Hst) Hsp)|].
    intros s. cbn. by rewrite substitute_split. }
  by eexists.
Qed.
End pricing.

(** ** Quotes *)

(** What the theorems ask of an algorithm: it returns, its routes' splits are rounded, and it commits
    to nothing. *)
Class AlgorithmLaws `{WorkerAlgorithm G} : Prop := {
  al_returns : forall request, exists r, algorithm_find_best_route request = Ret r;
  al_result : forall request result, algorithm_find_best_route request = Ret (Ok result) ->
    splits_rounded (rt_swaps (rr_route result)) /\ rr_commitment result = None;
}.

(** A route whose commitment can be pinned once the worker's checks passed: it covers what the route
    pays for gas, and no leg pays something for nothing. *)
Definition pinnable `{TychoMarket} (result : RouteResult) : Prop :=
  forall commitment output, rr_commitment result = Some commitment -> output_token (rr_route result) = Some output ->
    Route_amount_out (rr_route result) output - Z.to_N (rr_net_amount_out result) <= cm_committed_amount_out commitment /\
    nothing_for_nothing (rt_swaps (rr_route result)).

(** A processor that returns, with pinnable routes. *)
Definition safe `{TychoMarket} (request : PostProcessRequest)
    (process : PostProcessRequest -> RouteResult -> outcome (option RouteResult)) : Prop :=
  forall route, splits_rounded (rt_swaps (rr_route route)) ->
    exists r, process request route = Ret r /\
      forall result, r = Some result -> splits_rounded (rt_swaps (rr_route result)) /\ pinnable result.

Section quotes.
Context {M G P : Type} `{TychoMarket} `{!TychoFallback} `{!TychoFallbackData} `{!Messages} `{!TychoSwaps}.
Context `{!WorkerAlgorithm G} `{!GraphManager M G} `{!ProcessorOps P}.
Context (show_replay_error : ReplayError -> string).
Implicit Types (w : SolverWorker M P) (order : Order) (params : SolveParams) (route : Route) (readings : Readings).
Implicit Types (constraints : ResolvedRouteConstraints) (quote : OrderQuote) (deadline : N).

(** The names grow with each route a processor returns. *)
Lemma run_from_names clock requests (route : RouteResult) index instances latest names latest' names' :
  run_from clock requests route index instances latest names = Ret (latest', names') ->
  (latest = None <-> names = []) -> (latest' = None <-> names' = []).
Proof.
  revert index latest names. induction instances as [|[name process] instances IH]; intros index latest names; cbn [run_from].
  { by intros [= <- <-]. }
  destruct (pc_started_late clock index); [by intros [= <- <-]|].
  destruct (pc_timed_out clock index); [apply IH|].
  intros (r & _ & Hrun)%bind_Ret Hl. destruct r as [replacement|]; [|by eapply IH].
  eapply IH; [exact Hrun|]. split; [done|]. by destruct names.
Qed.

Lemma run_from_safe clock requests (route : RouteResult) index instances latest names :
  (forall i instance, instances !! i = Some instance -> safe (requests (index + i)%nat) instance.2) ->
  splits_rounded (rt_swaps (rr_route route)) ->
  (forall result, latest = Some result -> splits_rounded (rt_swaps (rr_route result)) /\ pinnable result) ->
  exists latest' names', run_from clock requests route index instances latest names = Ret (latest', names') /\
    forall result, latest' = Some result -> splits_rounded (rt_swaps (rr_route result)) /\ pinnable result.
Proof.
  intros Hall Hsp. revert index latest names Hall.
  induction instances as [|[name process] instances IH]; intros index latest names Hall Hl; cbn [run_from]; [by eexists _, _|].
  assert (safe (requests index) process) as Hp.
  { pose proof (Hall O (name, process) eq_refl) as Hp. by rewrite Nat.add_0_r in Hp. }
  assert (forall i instance, instances !! i = Some instance -> safe (requests (S index + i)%nat) instance.2) as Hall'.
  { intros i instance Hi. pose proof (Hall (S i) instance Hi) as Hx. by rewrite Nat.add_succ_r in Hx. }
  destruct (pc_started_late clock index); [by eexists _, _|].
  destruct (pc_timed_out clock index); [by apply IH|].
  destruct (Hp (default route latest)) as (r & -> & Hr).
  { destruct latest as [result|]; cbn; [by apply Hl|done]. }
  cbn [mbind outcome_bind]. destruct r as [replacement|]; [|by apply IH].
  apply IH; [done|]. intros result [= <-]. by apply Hr.
Qed.

(** Pricing the fallbacks of a route keeps what it trades, and records what a view prices. *)
Record priced w (market : MarketData) params route route' : Prop := {
  pr_trades : same_trades (rt_swaps route') (rt_swaps route);
  pr_no_fallback : has_fallback_leg route = false -> route' = route;
  pr_floor : has_fallback_leg route = true ->
    exists view stamped amount, worker_read_market market (sv_state_label params) = Ok view /\
      price_through_fallbacks show_replay_error route view (pm_fallback_pools (wk_pamm_admission w))
        (sv_route_filter params) (wk_algorithm_exclusions w) = Ret (Ok (stamped, amount)) /\
      route' = Route_set_fallback_amount_out stamped amount;
}.

Lemma price_fallback_legs_priced w market order params route route' :
  price_fallback_legs show_replay_error w market order params route = Ret (Ok route') -> priced w market params route route'.
Proof.
  unfold price_fallback_legs. destruct (has_fallback_leg route) eqn:Hf; cbn [negb].
  - destruct (worker_read_market _ _) as [view|e] eqn:Hview; [|done].
    intros ([[stamped amount]|error] & Hp & [= <-])%bind_Ret. split; [|congruence|intros _; by exists view, stamped, amount].
    by apply price_through_fallbacks_trades in Hp.
  - intros [= <-]. split; [done|done|congruence].
Qed.

Lemma price_fallback_legs_returns w market order params route : splits_rounded (rt_swaps route) ->
  exists r, price_fallback_legs show_replay_error w market order params route = Ret r.
Proof.
  intros Hsp. unfold price_fallback_legs. destruct (negb _); [by eexists|]. destruct (worker_read_market _ _) as [view|e]; [|by eexists].
  destruct (price_through_fallbacks_returns show_replay_error route view (pm_fallback_pools (wk_pamm_admission w))
    (sv_route_filter params) (wk_algorithm_exclusions w) Hsp) as (r & ->). by eexists.
Qed.

(** *** Pinning *)

Lemma capture_surplus_trades surplus legs swaps :
  capture_surplus surplus legs = Ret swaps -> same_trades swaps legs.*1.
Proof.
  revert surplus swaps. induction legs as [|[s output] legs IH]; intros surplus swaps; cbn [capture_surplus]; [by intros [= <-]|].
  assert (forall s' sur, (rest' ← capture_surplus sur legs; Ret (s' :: rest')) = Ret swaps -> bare s' = bare s ->
    same_trades swaps ((s, output) :: legs).*1) as Hcons.
  { intros s' sur (rest & Hrest & [= <-])%bind_Ret Hb. cbn. rewrite Hb. f_equal. by eapply IH. }
  destruct (is_exclusive_leg s), output as [[num den]|]; try (intros Hr; by eapply Hcons).
  destruct (num =? 0); [intros Hr; by eapply Hcons|].
  intros (leg & _ & (cap & _ & (com & _ & (sur & _ & Hr)%bind_Ret)%bind_Ret)%bind_Ret)%bind_Ret.
  eapply Hcons; [exact Hr|]. by destruct s.
Qed.

Lemma leg_route_outputs_length route outputs : leg_route_outputs route = Ret outputs -> length outputs = length (rt_swaps route).
Proof.
  unfold leg_route_outputs. match goal with |- context [foldr ?F _ _] => set (step := F) end.
  generalize (rt_swaps route) as swaps. intros swaps. revert outputs.
  induction swaps as [|s swaps IH]; intros outputs; cbn [foldr]; [by intros [= <-]|]. unfold step at 1.
  intros (output & _ & (rest & Hr & [= <-])%bind_Ret)%bind_Ret. cbn. f_equal. by apply IH.
Qed.

(** The fields of a quote that say what was asked and where it was solved. *)
Definition quote_head quote :=
  (oq_order_id quote, oq_status quote, oq_amount_in quote, oq_gas_estimate quote, oq_block quote,
   oq_algorithm quote, oq_post_processed_by quote, oq_solved_against quote).

(** What a pinned quote says, whenever pinning returns. *)
Record pinned_to quote (committed : N) quote' : Prop := {
  pt_amount : oq_amount_out quote' = committed;
  pt_le : committed <= oq_amount_out quote;
  pt_net : oq_amount_out_net_gas quote' = committed - (oq_amount_out quote - oq_amount_out_net_gas quote);
  pt_surplus : oq_surplus quote' =
    Some {| si_surplus_amount := oq_amount_out quote - committed; si_committed_amount_out := committed |};
  pt_route : forall route, oq_route quote = Some route -> exists route', oq_route quote' = Some route' /\
    same_trades (rt_swaps route') (rt_swaps route) /\ rt_fallback_amount_out route' = rt_fallback_amount_out route;
  pt_head : quote_head quote' = quote_head quote;
}.

Lemma pin_commitment_inv quote committed quote' :
  pin_commitment quote committed = Ret quote' -> pinned_to quote committed quote'.
Proof.
  unfold pin_commitment. intros (gas & [_ ->]%bsub_Ret & Hpin)%bind_Ret. apply bind_Ret in Hpin as (surplus & [Hle ->]%bsub_Ret & Hpin).
  apply bind_Ret in Hpin as (route & Hroute & (net & [_ ->]%bsub_Ret & [= <-])%bind_Ret).
  destruct quote. split; try done. cbn in *. intros r ->.
  apply bind_Ret in Hroute as (outputs & Ho & (swaps & Hs & [= <-])%bind_Ret). eexists. split; [done|]. split; [|done]. cbn.
  by rewrite (capture_surplus_trades _ _ _ Hs), fst_zip by by rewrite (leg_route_outputs_length _ _ Ho).
Qed.

(** *** The quote of a priced route *)

Context (spot_price : ProtocolSim -> Token -> Token -> result string f64) (decimals : Token -> N).
#[local] Abbreviation quote_route := (quote_route (G := G) spot_price decimals).

(** What a quote says of the route it was made from. *)
Record quotes_route order (block : BlockInfo) (label : StateLabel) (names : list string) (net : Z)
    (commitment : option Commitment) route quote : Prop := {
  qr_amounts : exists amount_in amount_out, quoted_amounts (G := G) order route = Ok (amount_in, amount_out) /\
    quote_head quote = (order_id order, Success, amount_in, total_gas route, block, algorithm_name, names, label) /\
    match commitment with
    | None => oq_amount_out quote = amount_out /\ oq_amount_out_net_gas quote = Z.to_N net /\ oq_surplus quote = None
    | Some commitment =>
        let committed := cm_committed_amount_out commitment in
        oq_amount_out quote = committed /\ committed <= amount_out /\
        oq_amount_out_net_gas quote = committed - (amount_out - Z.to_N net) /\
        oq_surplus quote = Some {| si_surplus_amount := amount_out - committed; si_committed_amount_out := committed |}
    end;
  qr_route : exists route', oq_route quote = Some route' /\ same_trades (rt_swaps route') (rt_swaps route) /\
    rt_fallback_amount_out route' = rt_fallback_amount_out route;
}.

Lemma quote_route_inv order block label names net gas_price commitment route quote :
  quote_route order block label names net gas_price commitment route = Ret (Ok quote) ->
  quotes_route order block label names net commitment route quote.
Proof.
  unfold Worker.quote_route. destruct (quoted_amounts order route) as [[amount_in amount_out]|e] eqn:Ham; [|done].
  intros (pinned & Hpin & [= Hq])%bind_Ret. set (q0 := set_post_processed_by _ _) in *.
  assert (quote_head quote = quote_head pinned /\ oq_amount_out quote = oq_amount_out pinned /\
    oq_amount_out_net_gas quote = oq_amount_out_net_gas pinned /\ oq_surplus quote = oq_surplus pinned /\
    oq_route quote = oq_route pinned) as (Eh & Eo & En & Es & Er).
  { rewrite <- Hq. by destruct (quoted_price_impact _ _ _ _ _), pinned. }
  destruct commitment as [commitment|].
  - apply pin_commitment_inv in Hpin as [? Hle ? ? Hr Hh]. split.
    + exists amount_in, amount_out. split; [done|]. rewrite Eh, Eo, En, Es. split; [by rewrite Hh|]. done.
    + destruct (Hr route eq_refl) as (route' & ? & ?). exists route'. by rewrite Er.
  - injection Hpin as <-. split.
    + exists amount_in, amount_out. split; [done|]. rewrite Eh, Eo, En, Es. done.
    + exists route. by rewrite Er.
Qed.

Lemma quoted_amounts_returns order route : rt_swaps route <> [] ->
  exists amount_in amount_out, quoted_amounts (G := G) order route = Ok (amount_in, amount_out) /\
    (Order_is_sell order = true -> exists output, output_token route = Some output /\ amount_out = Route_amount_out route output).
Proof.
  intros Hne. destruct route as [swaps tokens floor]. cbn in Hne. destruct swaps as [|s swaps]; [done|].
  unfold quoted_amounts. destruct (Order_is_sell order).
  - unfold output_token. cbn [rt_swaps]. destruct (last (s :: swaps)) as [s'|] eqn:Hl; [|by apply last_None in Hl].
    eexists _, _. split; [reflexivity|]. intros _. by eexists.
  - erewrite input_amount_spec by reflexivity. eexists _, _. split; [reflexivity|done].
Qed.

(** A route whose commitment the worker's checks let through, and that covers the gas, is quoted. *)
Lemma quote_route_returns order block label names net gas_price commitment route :
  rt_swaps route <> [] ->
  (forall c, commitment = Some c -> Order_is_sell order = true /\
     forall output, output_token route = Some output ->
       cm_committed_amount_out c <= Route_amount_out route output /\
       Z.to_N net <= Route_amount_out route output /\
       Route_amount_out route output - Z.to_N net <= cm_committed_amount_out c /\
       nothing_for_nothing (rt_swaps route)) ->
  exists quote, quote_route order block label names net gas_price commitment route = Ret (Ok quote).
Proof.
  intros Hne Hcom. unfold Worker.quote_route.
  destruct (quoted_amounts_returns order route Hne) as (amount_in & amount_out & -> & Hout).
  set (q0 := set_post_processed_by _ _). destruct commitment as [c|]; [|by eexists].
  destruct (Hcom c eq_refl) as [Hsell Hall]. destruct (Hout Hsell) as (output & Ho & ->).
  destruct (Hall output Ho) as (Hle & Hnet & Hgas & Hpay). unfold pin_route_commitment.
  destruct (pin_commitment_pinned q0 (cm_committed_amount_out c)) as (q & -> & _); [done|done|done| |by eexists].
  by intros r [= <-].
Qed.

(** *** Post-processing *)

(** A processed route that a worker quotes: it passed the checks, and its fallbacks are priced. *)
Record accepted w readings order params constraints (result : RouteResult) : Prop := {
  ac_checked : exists processed, route_admissible (rr_route processed) order (sv_route_filter params) constraints /\
    processed_ok (wk_liquidity_scope w) (post_process_scope w params) (wk_exclude_protocols w) order processed /\
    priced w (rd_processed_fallback readings) params (rr_route processed) (rr_route result) /\
    rr_net_amount_out result = rr_net_amount_out processed /\ rr_commitment result = rr_commitment processed;
}.

Lemma check_processed_accepted w readings order params constraints processed result :
  check_processed show_replay_error w readings order params constraints processed = Ret (Some result) ->
  accepted w readings order params constraints result /\ same_trades (rt_swaps (rr_route result)) (rt_swaps (rr_route processed)) /\
  rr_net_amount_out result = rr_net_amount_out processed /\ rr_commitment result = rr_commitment processed.
Proof.
  unfold check_processed. intros ([[]|e] & Hc & Hr)%bind_Ret; [|done].
  destruct (check_processed_route _ _ _ _ _) as [[]|e] eqn:Hp; [|done]. apply check_processed_route_lemma in Hp.
  pose proof (check_route_lemma (rr_route processed) order (sv_route_filter params) constraints) as Ha. rewrite Hc in Ha.
  apply bind_Ret in Hr as ([route|e] & Hpr & [= <-]). pose proof (price_fallback_legs_priced _ _ _ _ _ _ Hpr) as Hpriced.
  split; [|by split; [apply Hpriced|]]. split. by exists processed.
Qed.

Lemma post_process_inv w readings order params constraints deadline original result names :
  post_process show_replay_error w readings order params constraints deadline original = Ret (result, names) ->
  result = original /\ names = [] \/
  names <> [] /\ accepted w readings order params constraints result.
Proof.
  unfold post_process. destruct (PostProcessors_is_empty _); [intros [= <- <-]; by left|].
  intros (processed & Hrun & Hr)%bind_Ret. destruct processed as [[processed made_by]|]; [|injection Hr as <- <-; by left].
  apply bind_Ret in Hr as (checked & Hc & Hr). destruct checked as [route|]; [|injection Hr as <- <-; by left].
  injection Hr as <- <-. cbn [pd_route pd_post_processed_by] in *. right. split; [|by apply check_processed_accepted in Hc as [? _]].
  unfold PostProcessors_run in Hrun. apply bind_Ret in Hrun as ([latest names'] & Hrun & E).
  apply run_from_names in Hrun; [|done]. destruct latest; [|done]. injection E as _ <-. intros ->. by pose proof (proj2 Hrun eq_refl).
Qed.

(** With safe processors it returns, and what it returns can be pinned or is the algorithm's. *)
Lemma post_process_returns w readings order params constraints deadline original :
  (forall i name p, wk_post_processors w !! i = Some (name, p) ->
     safe (processor_request w readings order params constraints deadline i) (po_process p)) ->
  splits_rounded (rt_swaps (rr_route original)) ->
  exists result names, post_process show_replay_error w readings order params constraints deadline original = Ret (result, names) /\
    (result = original /\ names = [] \/ names <> [] /\ accepted w readings order params constraints result /\ pinnable result).
Proof.
  intros Hall Hsp.
  enough (exists result names, post_process show_replay_error w readings order params constraints deadline original
    = Ret (result, names) /\ (names <> [] -> pinnable result)) as (result & names & Hpp & Hpin).
  { exists result, names. split; [done|]. destruct (post_process_inv _ _ _ _ _ _ _ _ _ Hpp) as [[-> ->]|[Hne Ha]]; [by left|right].
    split_and!; [done|done|by apply Hpin]. }
  unfold post_process. destruct (PostProcessors_is_empty _); [by eexists _, _|]. unfold PostProcessors_run.
  destruct (run_from_safe (pipeline_clock readings deadline) (processor_request w readings order params constraints deadline)
    original O (pp_instances (pipeline_of w)) None []) as (latest & names & -> & Hl); [|done|done|].
  { intros i [name process] Hi. cbn in Hi. apply list_lookup_fmap_Some in Hi as ([name' p] & [= -> ->] & Hi). by apply (Hall i name' p). }
  cbn [mbind outcome_bind]. destruct latest as [processed|]; [|by eexists _, _]. cbn [pd_route pd_post_processed_by].
  destruct (Hl processed eq_refl) as [Hps Hpin].
  enough (exists checked, check_processed show_replay_error w readings order params constraints processed = Ret checked) as ([result|] & Hc).
  - rewrite Hc. eexists _, _. split; [reflexivity|]. intros _ c output Hcom Hout.
    destruct (check_processed_accepted _ _ _ _ _ _ _ Hc) as (_ & Htr & En & Ec).
    rewrite (trades_output_token _ _ Htr) in Hout. rewrite Ec in Hcom. destruct (Hpin c output Hcom Hout) as [Hg Hpay].
    rewrite (trades_amount_out _ _ output Htr), En. split; [done|]. by eapply trades_nothing.
  - rewrite Hc. eexists _, _. by split.
  - unfold check_processed. pose proof (check_route_lemma (rr_route processed) order (sv_route_filter params) constraints) as Hcr.
    destruct (check_route _ _ _ _) as [[[]|e]|]; [|by eexists|done]. cbn [mbind outcome_bind].
    destruct (check_processed_route _ _ _ _ _) as [[]|e]; [|by eexists].
    destruct (price_fallback_legs_returns w (rd_processed_fallback readings) order params (rr_route processed) Hps) as (r & ->).
    by eexists.
Qed.

(** What the checks of a processed route leave to pin. *)
Lemma accepted_commitment w readings order params constraints result : accepted w readings order params constraints result ->
  rt_swaps (rr_route result) <> [] /\
  forall c, rr_commitment result = Some c -> Order_is_sell order = true /\
    forall output, output_token (rr_route result) = Some output ->
      cm_committed_amount_out c <= Route_amount_out (rr_route result) output /\
      Z.to_N (rr_net_amount_out result) <= Route_amount_out (rr_route result) output.
Proof.
  intros [(processed & Ha & Hp & Hpr & En & Ec)]. pose proof (pr_trades _ _ _ _ _ Hpr) as Htr. split.
  { intros Hnil. pose proof (ra_valid _ _ _ _ Ha) as Hv. unfold Route_validate in Hv.
    rewrite (trades_nil _ _ Htr Hnil) in Hv. done. }
  intros c. rewrite Ec. intros Hcom. destruct (pk_commitment _ _ _ _ _ Hp c Hcom) as (Hsell & _ & token & Ht & Hle).
  split; [done|]. intros output Hout. rewrite (trades_output_token _ _ Htr), Ht in Hout. injection Hout as <-.
  rewrite (trades_amount_out _ _ token Htr), En. pose proof (pk_net _ _ _ _ _ Hp token Hsell Ht). lia.
Qed.

(** *** The whole quote *)

Context (show_missing : gset ComputationId -> string) (show_address : Address -> string).
Context (show_algorithm_error : AlgorithmError -> string) (show_block_number : N -> string).
#[local] Abbreviation worker_quote := (worker_quote (G := G) show_replay_error spot_price decimals show_missing
  show_address show_algorithm_error show_block_number).
#[local] Abbreviation quote_result := (quote_result (G := G) show_replay_error spot_price decimals).
#[local] Abbreviation read_solve_state := (read_solve_state show_block_number).

(** The market the fallbacks of the quoted route are priced on: read after the solve for the algorithm's own route,
    and when a processed route is checked for that one. *)
Definition fallback_market readings (names : list string) : MarketData :=
  if bool_decide (names = []) then rd_fallback readings else rd_processed_fallback readings.

(** The state a quote names, as it was read before the solve, and how the algorithm's own reading
    compares: it is the same view unless the market changed in between, and for a request that
    names a state it is of that state whenever it succeeds. *)
Record solved_on readings params (block : BlockInfo) (named : StateLabel) (constraints : ResolvedRouteConstraints) view : Prop := {
  sv_read : worker_read_market (rd_constraints readings) (sv_state_label params) = Ok view;
  sv_block : last_updated (view_guard view) = Some block;
  sv_named : named = default (show_block_number (block_number block)) (view_label view);
  sv_constraints : constraints = (resolve_constraints (view_guard view) (sv_route_filter params) (sv_constraint_cache params)).1;
  sv_unchanged : rd_algorithm readings = rd_constraints readings ->
    read_market (rd_algorithm readings) (sv_state_label params) = Ok view;
  sv_labeled : forall l view', sv_state_label params = Some l -> read_market (rd_algorithm readings) (Some l) = Ok view' ->
    view_label view' = Some l \/ label (view_guard view') = l;
}.

Lemma read_solve_state_solved readings params block named constraints : read_solve_state readings params = Ok (block, named, constraints) ->
  exists view, solved_on readings params block named constraints view.
Proof.
  unfold Worker.read_solve_state. destruct (worker_read_market _ _) as [view|e] eqn:Hread; [|done]. cbn [mbind result_bind].
  destruct (last_updated (view_guard view)) as [last_block|] eqn:Hblock; [|done]. intros [= <- <- <-]. exists view. split; try done.
  - intros ->. unfold worker_read_market in Hread. unfold read_market. destruct (sv_state_label params) as [l|]; [|by injection Hread as ->].
    destruct (read_labeled _ l); [|done]. by injection Hread as ->.
  - intros l view' _. unfold read_market, read_labeled, view_of_label. destruct (md_overlays _ !! l); cbn; [intros [= <-]; by left|].
    destruct (decide _); [|done]. intros [= <-]. by right.
Qed.

Lemma quote_result_inv w readings order params constraints block label deadline original quote :
  route_admissible (rr_route original) order (sv_route_filter params) constraints ->
  quote_result w readings order params constraints block label deadline original = Ret (Ok quote) ->
  exists names checked route,
    (names = [] /\ checked = original \/
     names <> [] /\ processed_ok (wk_liquidity_scope w) (post_process_scope w params) (wk_exclude_protocols w) order checked) /\
    route_admissible (rr_route checked) order (sv_route_filter params) constraints /\
    priced w (fallback_market readings names) params (rr_route checked) route /\
    quotes_route order block label names (rr_net_amount_out checked) (rr_commitment checked) route quote.
Proof.
  intros Ha. unfold Worker.quote_result. intros ([result names] & Hpp & Hq)%bind_Ret.
  apply post_process_inv in Hpp as [[-> ->]|[Hne [(processed & Hap & Hp & Hpr & En & Ec)]]].
  - rewrite bool_decide_eq_true_2 in Hq by done. apply bind_Ret in Hq as ([route|e] & Hpr & Hq); [|done].
    exists [], original, route. split_and!; [by left|done| |].
    + by eapply price_fallback_legs_priced.
    + by eapply quote_route_inv.
  - rewrite bool_decide_eq_false_2 in Hq by done. cbn [mbind outcome_bind] in Hq.
    exists names, processed, (rr_route result). unfold fallback_market. rewrite bool_decide_eq_false_2 by done.
    split_and!; [by right|done|done|]. rewrite <- En, <- Ec. by eapply quote_route_inv.
Qed.

(** With safe processors, a quote the algorithm's own route would get is not lost. *)
Lemma quote_result_returns w readings order params constraints block label deadline original :
  (forall i name p, wk_post_processors w !! i = Some (name, p) ->
     safe (processor_request w readings order params constraints deadline i) (po_process p)) ->
  route_admissible (rr_route original) order (sv_route_filter params) constraints ->
  splits_rounded (rt_swaps (rr_route original)) -> rr_commitment original = None ->
  exists answer, quote_result w readings order params constraints block label deadline original = Ret answer /\
    forall quote, quote_result (set_post_processors w []) readings order params constraints block label deadline original
      = Ret (Ok quote) -> exists quote', answer = Ok quote'.
Proof.
  intros Hall Ha Hsp Hcom. unfold Worker.quote_result at 1.
  destruct (post_process_returns w readings order params constraints deadline original Hall Hsp)
    as (result & names & -> & [[-> ->]|(Hne & Hacc & Hpin)]); cbn [mbind outcome_bind].
  - rewrite bool_decide_eq_true_2 by done.
    destruct (price_fallback_legs_returns w (rd_fallback readings) order params (rr_route original) Hsp) as (r & Hr).
    rewrite Hr. cbn [mbind outcome_bind]. unfold Worker.quote_result. cbn [post_process]. 
    assert (post_process show_replay_error (set_post_processors w []) readings order params constraints deadline original
      = Ret (original, [])) as -> by (by destruct w). cbn [mbind outcome_bind]. rewrite bool_decide_eq_true_2 by done.
    assert (price_fallback_legs show_replay_error (set_post_processors w []) (rd_fallback readings) order params (rr_route original)
      = Ret r) as -> by (rewrite <- Hr; by destruct w). cbn [mbind outcome_bind]. destruct r as [route|e]; [|by eexists].
    rewrite Hcom. destruct (quote_route_returns order block label [] (rr_net_amount_out original) (rr_gas_price original) None route)
      as (quote & ->); [|done|].
    + intros Hnil. pose proof (ra_valid _ _ _ _ Ha) as Hv. unfold Route_validate in Hv.
      by rewrite (trades_nil _ _ (pr_trades _ _ _ _ _ (price_fallback_legs_priced _ _ _ _ _ _ Hr)) Hnil) in Hv.
    + eexists. split; [done|]. intros _ _. by eexists.
  - rewrite bool_decide_eq_false_2 by done. cbn [mbind outcome_bind].
    destruct (accepted_commitment _ _ _ _ _ _ Hacc) as [Hnil Hc].
    destruct (quote_route_returns order block label names (rr_net_amount_out result) (rr_gas_price result)
      (rr_commitment result) (rr_route result)) as (quote & ->); [done| |].
    + intros c Hrc. destruct (Hc c Hrc) as [Hsell Hout]. split; [done|]. intros output Ho.
      destruct (Hout output Ho), (Hpin c output Hrc Ho). done.
    + eexists. split; [done|]. intros _ _. by eexists.
Qed.

Lemma ensure_initialized_processors w readings :
  ensure_initialized (G := G) (set_post_processors w []) readings = set_post_processors (ensure_initialized (G := G) w readings) [].
Proof.
  destruct w as [m t i pa n s e a x pp]. unfold ensure_initialized. cbn. destruct i; [done|].
  unfold worker_initialize_graph, graph_drops. cbn. by destruct (withhold_from_graph _ _ _).
Qed.

(** C5: an order a worker answers was solved as it was asked. The quote carries the block and the
    label of the market read before the solve, with which the request's constraints were resolved,
    the order's id and the amount it fixes. The algorithm reads the market again: when nothing was
    written in between it reads the very same view, and for a request that names a state its
    view is of that state; for any other the block may have moved on by then, so
    that the route is of a newer block than the quote says, as the code notes. The route trades
    exactly what a route does that the algorithm returned, or that post-processors made of it and
    that keeps the pool's rules; that route is valid, respects the request's constraints, and visits
    the required tokens. A route with pAMM legs carries what it pays through its fallbacks on the
    market read for that purpose. The amounts out are the route's, or, with a commitment, the
    committed amount, which the route pays, less the gas, with the rest reported as surplus. *)
Theorem worker_quote_sound w readings order params deadline w' quote :
  worker_quote w readings order params deadline = Ret (w', Ok quote) ->
  w' = ensure_initialized w readings /\
  exists block named constraints view original names checked route,
    read_solve_state readings params = Ok (block, named, constraints) /\
    solved_on readings params block named constraints view /\
    algorithm_find_best_route (solve_request w' readings order params constraints) = Ret (Ok original) /\
    (names = [] /\ checked = original \/
     names <> [] /\ processed_ok (wk_liquidity_scope w') (post_process_scope w' params) (wk_exclude_protocols w') order checked) /\
    route_admissible (rr_route checked) order (sv_route_filter params) constraints /\
    priced w' (fallback_market readings names) params (rr_route checked) route /\
    quotes_route order block named names (rr_net_amount_out checked) (rr_commitment checked) route quote.
Proof.
  unfold Worker.worker_quote. destruct (_ && _); [done|]. destruct (_ && _); [done|]. cbn zeta.
  destruct (read_solve_state readings params) as [[[block named] constraints]|e] eqn:Hst; [|done].
  destruct (read_solve_state_solved _ _ _ _ _ Hst) as [view Hview].
  intros ([original|err] & Ho & Hq)%bind_Ret; [|done]. apply bind_Ret in Hq as ([[]|err] & Hc & Hq); [|done].
  pose proof (check_route_lemma (rr_route original) order (sv_route_filter params) constraints) as Ha. rewrite Hc in Ha.
  apply bind_Ret in Hq as (quoted & Hq & [= <- ->]). split; [done|].
  destruct (quote_result_inv _ _ _ _ _ _ _ _ _ _ Ha Hq) as (names & checked & route & ? & ? & ? & ?).
  by exists block, named, constraints, view, original, names, checked, route.
Qed.

(** C6: a worker whose algorithm returns and whose post-processors return routes that can be
    pinned never panics on an order, and post-processing never takes a quote away: an order that
    is quoted without post-processors is quoted with them, whatever they return and whenever the
    deadline cuts them off. *)
Theorem post_processing_never_fails `{!AlgorithmLaws} w readings order params deadline :
  (forall constraints i name p, wk_post_processors (ensure_initialized w readings) !! i = Some (name, p) ->
     safe (processor_request (ensure_initialized w readings) readings order params constraints deadline i) (po_process p)) ->
  exists w' answer, worker_quote w readings order params deadline = Ret (w', answer) /\
    forall w0 quote, worker_quote (set_post_processors w []) readings order params deadline = Ret (w0, Ok quote) ->
      exists quote', answer = Ok quote'.
Proof.
  intros Hall. unfold Worker.worker_quote.
  assert (wk_readiness_tracker (set_post_processors w []) = wk_readiness_tracker w) as -> by by destruct w.
  rewrite ensure_initialized_processors. destruct (_ && _); [by eexists _, _|]. cbn zeta. destruct (_ && _); [by eexists _, _|].
  set (w1 := ensure_initialized w readings) in *.
  destruct (read_solve_state readings params) as [[[block label] constraints]|e]; [|by eexists _, _].
  assert (solve_request (set_post_processors w1 []) readings order params constraints
    = solve_request w1 readings order params constraints) as -> by by destruct w1.
  destruct (al_returns (solve_request w1 readings order params constraints)) as (r & Hr). rewrite Hr. cbn [mbind outcome_bind].
  destruct r as [original|err]; [|by eexists _, _]. destruct (al_result _ _ Hr) as [Hsp Hcom].
  pose proof (check_route_lemma (rr_route original) order (sv_route_filter params) constraints) as Ha.
  destruct (check_route _ _ _ _) as [[[]|err]|]; [|by eexists _, _|done]. cbn [mbind outcome_bind].
  destruct (quote_result_returns w1 readings order params constraints block label deadline original
    (Hall constraints) Ha Hsp Hcom) as (answer & -> & Hq).
  eexists _, answer. split; [done|]. intros w0 quote (quoted & Hr' & [= _ ->])%bind_Ret. by eapply Hq.
Qed.
End quotes.

(** The RFQ replacer is safe on a market it follows. *)
Lemma rfq_safe `{TychoMarket} `{!Messages} `{!TychoSwaps} replacer request view :
  read_market (pr_market request) (pr_label request) = Ok view ->
  replacement_index_current is_rfq (view_guard view) (sr_index replacer) ->
  safe request (rfq_process replacer).
Proof.
  intros Hview Hidx route Hsp. destruct (rfq_returns replacer request route view Hview Hidx Hsp) as (r & Hr & Hok).
  exists r. split; [done|]. intros result Hres. destruct (Hok result Hres) as [Hrep Hcom]. split; [apply Hrep|].
  intros c output Hc. congruence.
Qed.

(** ** Waiting *)

Section waiting.
Context {M P : Type} (show_missing : gset ComputationId -> string).
Implicit Types (w : SolverWorker M P) (timeout now : N) (wakes : list N).

(** Waiting for derived data never makes a worker ready. The tracker belongs to the worker, and
    only its own loop feeds it, which the wait holds up; so, whenever and however often it is woken, a
    worker that is ready or needs nothing goes on at once, one whose computation failed in this block
    gives up at once, and any other never goes on. *)
Theorem wait_until_ready_decided w timeout now wakes :
  let tracker := wk_readiness_tracker w in
  wait_until_ready show_missing w timeout now wakes =
    if negb (has_requirements (Tracker.requirements tracker)) || is_ready tracker then Ok tt
    else if is_blocked_for_current_block tracker
    then Err (SE_ComputationFailed ("required computation failed for current block: " +:+ show_missing (Tracker.missing tracker)))
    else Err (SE_NotReady ("timeout waiting for derived data: missing " +:+ show_missing (Tracker.missing tracker))).
Proof.
  cbn zeta. unfold wait_until_ready. set (tracker := wk_readiness_tracker w).
  destruct (negb _ || _) eqn:Hready; [done|]. apply orb_false_iff in Hready as [_ Hready].
  generalize (now + timeout) as deadline. intros deadline. revert now.
  induction wakes as [|woken wakes IH]; intros now; cbn [wait_loop]; rewrite Hready;
    destruct (is_blocked_for_current_block tracker); try done; destruct (deadline <=? now); try done.
Qed.
End waiting.

(** ** The graph of a worker *)

(** What a worker relies on of a graph manager: a table of the directions it tracks, which
    building, events and weights treat as they should. *)
Class GraphManagerLaws `{GraphManager M G} : Type := {
  gl_ok : M -> Prop;
  gl_directions : M -> gmap ComponentId (gset SwapDirection);
  gl_initialize : forall m listing, gl_ok (gm_initialize_graph m listing) /\
    gl_directions (gm_initialize_graph m listing) = directions_in listing;
  gl_event : forall m event, gl_ok m -> gl_ok (gm_handle_event m event).1 /\
    forall id, gl_directions (gm_handle_event m event).1 !! id = after_directions event (gl_directions m) id;
  gl_weights : forall m market derived, gl_ok m -> gl_ok (gm_update_edge_weights_with_derived m market derived).1 /\
    gl_directions (gm_update_edge_weights_with_derived m market derived).1 = gl_directions m;
}.

(** The token graph keeps them. *)
#[export] Instance token_graph_manager {D : Type} `{DiGraph (list (EdgeData D))} `{TychoMarket} (NATIVE_WRAP_COMPONENT : ComponentId)
    (inputs : list ComponentId)
    (from_sim_and_derived : ProtocolSim -> ComponentId -> Token -> Token -> DerivedData -> option D)
    : GraphManager TopologyGraphManager TopologyGraph := {|
  GraphManager_default := TopologyGraphManager_new;
  gm_initialize_graph := fun _ listing => initialize_graph NATIVE_WRAP_COMPONENT listing;
  gm_graph := tm_graph;
  gm_handle_event := TokenGraphManager.handle_event NATIVE_WRAP_COMPONENT;
  weight_inputs := inputs;
  gm_update_edge_weights_with_derived := update_edge_weights_with_derived from_sim_and_derived;
|}.

#[export] Instance token_graph_laws {D : Type} `{DiGraph (list (EdgeData D))} `{TychoMarket} (NATIVE_WRAP_COMPONENT : ComponentId)
    (inputs : list ComponentId)
    (from_sim_and_derived : ProtocolSim -> ComponentId -> Token -> Token -> DerivedData -> option D)
    : @GraphManagerLaws _ _ _ _ (token_graph_manager NATIVE_WRAP_COMPONENT inputs from_sim_and_derived).
Proof.
  refine {| gl_ok := manager_ok NATIVE_WRAP_COMPONENT; gl_directions := directions_of |}.
  - intros m listing. destruct (initialize_graph_spec NATIVE_WRAP_COMPONENT listing) as (Hok & Hd & _). by split.
  - intros m event Hok. pose proof (handle_event_spec NATIVE_WRAP_COMPONENT m event Hok) as Hs. cbn.
    destruct (TokenGraphManager.handle_event _ _ _). by destruct Hs as (? & ? & _).
  - intros m market derived Hok.
    pose proof (update_edge_weights_lemma NATIVE_WRAP_COMPONENT from_sim_and_derived market derived m Hok) as Hs. cbn.
    destruct (update_edge_weights_with_derived _ _ _ _). destruct Hs as (? & HT & _). split; [done|].
    unfold directions_of. cbn. by rewrite HT.
Defined.

Section graph.
Context {M G P : Type} `{TychoMarket} `{!TychoFallback} `{!TychoFallbackData} `{!Messages} `{!TychoSwaps}.
Context `{!WorkerAlgorithm G} `{!GraphManager M G} `{!ProcessorOps P} `{!GraphManagerLaws}.
Implicit Types (w : SolverWorker M P) (st : MarketState) (event : MarketEvent) (drops : ProtocolComponent -> bool).














Context (show_replay_error : ReplayError -> string) (spot_price : ProtocolSim -> Token -> Token -> result string f64).
Context (decimals : Token -> N) (show_missing : gset ComputationId -> string) (show_address : Address -> string).
Context (show_algorithm_error : AlgorithmError -> string) (show_block_number : N -> string).
#[local] Abbreviation run_arm := (run_arm (G := G) show_replay_error spot_price decimals show_missing
  show_address show_algorithm_error show_block_number).
Implicit Types (ls : LoopState (M := M) (P := P)) (env : Environment) (arm : Arm).






End graph.

(** ** Witnesses *)

Module WorkerSample.
#[local] Open Scope string_scope.
#[local] Existing Instances MarketSample.tycho MarketSample.tycho_market MostLiquidSample.messages ReplaceSample.swaps.
#[local] Existing Instances FallbackSample.fallbacks FallbackPricingSample.data GraphSample.graph.

(** An algorithm that answers the route over B, and a graph without weights. *)
Definition algorithm : WorkerAlgorithm (TopologyGraph (D := N)) := {|
  algorithm_name := "fixed";
  SUPPORTS_REQUIRED_TOKENS := true;
  algorithm_timeout := 100000000;
  computation_requirements := requirements_none;
  algorithm_find_best_route := fun _ => Ret (Ok ReplaceSample.route);
|}.
#[local] Existing Instance algorithm.

Definition graph_manager : GraphManager (TopologyGraphManager (D := N)) TopologyGraph :=
  token_graph_manager GraphSample.WRAP [] (fun _ _ _ _ _ => None).
#[local] Existing Instance graph_manager.

Definition market : MarketState := update_sync_status ReplaceSample.market
  [("uniswap_v2"%string, SS_Ready (MarketSample.header 100 1000))] 50000000000.
Definition data : MarketData := {| md_data := market; md_overlays := ∅ |}.

Definition readings : Readings := {|
  rd_initialize := market;
  rd_processor_initialize := fun _ => market;
  rd_constraints := data;
  rd_algorithm := data;
  rd_algorithm_derived := DerivedData_new;
  rd_processor := fun _ => data;
  rd_started := fun _ => 0%N;
  rd_cut_off := fun _ => false;
  rd_clock := fun _ _ => 0%N;
  rd_processed_fallback := data;
  rd_fallback := data;
  rd_prices := DerivedData_new;
|}.

Definition params : SolveParams := {|
  sv_state_label := None;
  sv_route_filter := {| rc_excluded_pools := ∅; rc_excluded_protocols := ∅; rc_excluded_tokens := ∅; rc_required_tokens := ∅ |};
  sv_exclusive_access := Granted;
  sv_constraint_cache := None;
|}.

Definition order : Order := MostLiquidSample.order 1000.

Section answers.
Context {P : Type} `{!ProcessorOps P}.

Definition answer (processors : list (string * P)) : outcome (SolverWorker TopologyGraphManager P * result SolveError OrderQuote) :=
  worker_quote (fun _ => "replay") (fun _ _ _ => Err "price") (fun _ => 18%N) (fun _ => "missing") (fun a => a) (fun _ => "algorithm")
    (fun _ => "100") (with_post_processors (SolverWorker_new "pool") processors) readings order params 1000000000.
End answers.

(** A post-processor whose route pays 1200 and costs 200 of gas, and commits to 100. *)
Definition greedy : ProcessorOps unit := {|
  po_initialize := fun p _ => p;
  po_handle_event := fun p _ _ => p;
  po_process := fun _ _ _ => Ret (Some (Algorithm.with_commitment (RouteResult_new
    {| rt_swaps := [Swap_new "xc" "uniswap_v2" Sample.A Sample.C 1000%N 1200%N 100%N ReplaceSample.exclusive_pool 120%N];
       rt_tokens := ∅; rt_fallback_amount_out := None |} 1000 1) 100 1000));
|}.
End WorkerSample.

Section witnesses.
Import WorkerSample.
#[local] Existing Instances MarketSample.tycho MarketSample.tycho_market MostLiquidSample.messages ReplaceSample.swaps.
#[local] Existing Instances FallbackSample.fallbacks FallbackPricingSample.data GraphSample.graph WorkerSample.algorithm WorkerSample.graph_manager.

(** A worker with a processor whose commitment does not cover its gas panics on an order that it
    answers without: no check of the processed route asks for it. *)
Example uncovered_commitment_panics :
  (exists w quote, answer (P := unit) (ProcessorOps0 := greedy) [] = Ret (w, Ok quote) /\ oq_amount_out quote = 1000) /\
  answer (ProcessorOps0 := greedy) [("greedy"%string, tt)] = Panic.
Proof.
  split; [|by vm_compute].
  assert (match answer (P := unit) (ProcessorOps0 := greedy) [] with Ret (_, Ok q) => Some (oq_amount_out q) | _ => None end
    = Some 1000) as Hq by by vm_compute.
  destruct (answer (P := unit) (ProcessorOps0 := greedy) []) as [[w [quote|e]]|]; [|discriminate Hq..].
  exists w, quote. split; [done|]. by injection Hq.
Qed.

#[local] Instance ops : ProcessorOps BuiltIn := built_in_ops 1000.

Definition processors : list (string * BuiltIn) := [(RFQ_NAME, RfqInstance SwapReplacer_default)].

Lemma worker_market_holds : market_ok 50000000000 market.
Proof. apply update_sync_status_ok, ReplaceSample.market_holds. Qed.

Lemma processors_initialized :
  wk_post_processors (ensure_initialized (G := TopologyGraph) (with_post_processors (SolverWorker_new "pool") processors) readings)
  = [(RFQ_NAME, RfqInstance (rfq_initialize market))].
Proof. reflexivity. Qed.

#[local] Instance algorithm_laws : AlgorithmLaws.
Proof. split; [by eexists|]. intros request result [= <-]. split; [exact ReplaceSample.splits|done]. Qed.

(** The RFQ pool's route is quoted, with its name. *)
Lemma worker_quote_sound_witness : exists w' quote,
  answer processors = Ret (w', Ok quote) /\ oq_amount_out quote = 1100 /\ oq_post_processed_by quote = [RFQ_NAME] /\
  exists block label constraints, read_solve_state (fun _ => "100"%string) readings params = Ok (block, label, constraints) /\
    oq_solved_against quote = label.
Proof.
  assert (match answer processors with Ret (_, Ok q) => Some (oq_amount_out q, oq_post_processed_by q) | _ => None end
    = Some (1100, [RFQ_NAME])) as Hs by by vm_compute.
  destruct (answer processors) as [[w' [quote|e]]|] eqn:E; [|discriminate Hs..]. injection Hs as Ho Hn.
  exists w', quote. split; [done|]. split; [exact Ho|]. split; [exact Hn|].
  destruct (worker_quote_sound (fun _ => "replay"%string) (fun _ _ _ => Err "price"%string) (fun _ => 18) (fun _ => "missing"%string)
    (fun a => a) (fun _ => "algorithm"%string) (fun _ => "100"%string) (with_post_processors (SolverWorker_new "pool") processors)
    readings order params 1000000000 w' quote E)
    as (_ & block & label & constraints & view & original & names & checked & route & Hst & _ & _ & _ & _ & _ & [(ai & ao & _ & Hh & _) _]).
  exists block, label, constraints. split; [exact Hst|]. by injection Hh.
Defined.

Lemma post_processing_never_fails_witness : exists w' answer', answer processors = Ret (w', answer') /\
  exists quote, answer' = Ok quote.
Proof.
  destruct (post_processing_never_fails (fun _ => "replay"%string) (fun _ _ _ => Err "price"%string) (fun _ => 18) (fun _ => "missing"%string)
    (fun a => a) (fun _ => "algorithm"%string) (fun _ => "100"%string) (with_post_processors (SolverWorker_new "pool") processors)
    readings order params 1000000000) as (w' & answer' & Hr & Hok).
  - intros constraints i name p Hi. rewrite processors_initialized in Hi. destruct i as [|i]; [|discriminate Hi]. injection Hi as <- <-.
    apply (rfq_safe (rfq_initialize market) _ {| view_guard := market; view_overlay := None |}); [reflexivity|].
    exact (build_index_current is_rfq 50000000000 market worker_market_holds).
  - exists w', answer'. split; [exact Hr|].
    assert (exists w0 quote, answer (P := BuiltIn) [] = Ret (w0, Ok quote)) as (w0 & quote & E).
    { assert (match answer (P := BuiltIn) [] with Ret (_, Ok _) => true | _ => false end = true) as Hs by by vm_compute.
      destruct (answer (P := BuiltIn) []) as [[w0 [quote|e]]|]; [by eexists _, _|discriminate Hs..]. }
    exact (Hok w0 quote E).
Defined.

(** *** A market that loses a pool *)





(** *** A market that runs ahead *)

(** A worker that excludes a protocol, and a market that gains a pool of it, loses it and gains it back. *)
Definition excluding_worker : SolverWorker (TopologyGraphManager (D := N)) BuiltIn :=
  with_exclude_protocols (SolverWorker_new "pool") ["exotic"%string].
Definition market_with_exotic : MarketState :=
  (upsert_components market [MarketSample.pool "p" "exotic" [Sample.A; Sample.B]]).1.
Definition exotic_added : MarketEvent := {|
  added_components := filter (fun kv => kv.1 = "p"%string) (component_topology market_with_exotic);
  removed_components := []; updated_components := [] |}.
Definition exotic_removed : MarketEvent :=
  {| added_components := ∅; removed_components := ["p"%string]; updated_components := [] |}.

(** The worker after the three events, when it reads the given market at each. *)
Definition after_exotic (read1 read2 read3 : MarketState) : SolverWorker (TopologyGraphManager (D := N)) BuiltIn :=
  let handle st event w := process_event (G := TopologyGraph) w st (fun _ => st) event in
  handle read3 exotic_added (handle read2 exotic_removed (handle read1 exotic_added
    (worker_initialize_graph (G := TopologyGraph) excluding_worker market (fun _ => market)))).

(** The feed writes the market before it sends the event. A worker that is one event behind takes the
    excluded pool in, which the market does not hold by then, and filters the event that would remove it,
    since the market holds it again: the pool stays in the graph. In step it never enters. *)
Example worker_ahead_keeps_excluded_pool :
  let ahead := after_exotic market market_with_exotic market_with_exotic in
  let in_step := after_exotic market_with_exotic market market_with_exotic in
  option_map (graph_drops ahead) (get_component market_with_exotic "p") = Some true /\
  bool_decide (is_Some (directions_of (wk_graph_manager ahead) !! "p"%string)) = true /\
  directions_of (wk_graph_manager in_step) !! "p"%string = None.
Proof. by vm_compute. Qed.
End witnesses.
