(* ===== verification/BellmanFordProofs.v ===== *)
(** * BellmanFordProofs: what the relaxation keeps, and what the walks keep

    The predecessors of a relaxation are a tree rooted at the source token, whatever the
    order of the nodes: so no walk of predecessors diverges, every token reached has a path
    without a repeated token, and the route of a solve is valid. The amounts are a lower
    bound of what the route pays when pools pay no less for more. The walks of the graph
    keep every route of legal length when pools trade both ways. Examples show what is not
    so: a route may be longer than the bound, and cross one pool twice. *)

From stdpp Require Import prelude gmap sets strings list sorting pretty.
From Stdlib Require Import NArith ZArith Lia Floats.SpecFloat.
From S2P Require Import Prelude F64 Types Route RouteProofs Amounts DerivedStore SpotPriceComputation MarketData MarketDataProofs.
From S2P Require Import Samples MarketDataProofs MostLiquidProperties MostLiquidSamples Tracker SwapCache Algorithm StableGraph TokenGraph Paths.
From S2P Require Import TokenGraphProperties PetgraphManager SplitMath ReplaceProofs Worker WorkerProofs SplitPlan BellmanFord.

#[local] Open Scope nat_scope.

(** ** Chains of predecessors *)

Section chains.
Implicit Types (pred : list (option (NodeIndex * ComponentId))) (path : list PathEdge) (u v x : NodeIndex).

(** The path the predecessors of a node name, from the root. *)
Inductive Chain pred (root : NodeIndex) : NodeIndex -> list PathEdge -> Prop :=
| chain_root : pred !! root = Some None -> Chain pred root root []
| chain_step u v component_id path :
    pred !! v = Some (Some (u, component_id)) -> Chain pred root u path ->
    Chain pred root v (path ++ [(u, v, component_id)]).

Definition path_nodes (root : NodeIndex) path : list NodeIndex := root :: ((fun hop : PathEdge => hop.1.2) <$> path).

Definition path_components path : list ComponentId := snd <$> path.

Definition rooted pred (root v : NodeIndex) : Prop := exists path, Chain pred root v path.

(** Every node with a predecessor leads to the root. *)
Record forest pred (root : NodeIndex) : Prop := {
  fo_root : pred !! root = Some None;
  fo_rooted : forall v step, pred !! v = Some (Some step) -> rooted pred root v;
}.

Context (pred : list (option (NodeIndex * ComponentId))) (root : NodeIndex).

Lemma chain_at_root v path : Chain pred root v path -> pred !! root = Some None.
Proof. induction 1; done. Qed.

Lemma chain_det v path path' : Chain pred root v path -> Chain pred root v path' -> path = path'.
Proof.
  intros Hc. revert path'. induction Hc as [Hr|u v c path Hv Hc IH]; intros path' Hc'.
  - inversion Hc' as [|u v c p Hv Hu]; subst; [done|congruence].
  - pose proof (chain_at_root _ _ Hc) as Hr. inversion Hc' as [|u' v' c' p' Hv' Hu']; subst; [congruence|].
    rewrite Hv in Hv'. injection Hv' as <- <-. by rewrite (IH _ Hu').
Qed.

Lemma path_nodes_snoc path u v (c : ComponentId) : path_nodes root (path ++ [(u, v, c)]) = path_nodes root path ++ [v].
Proof. unfold path_nodes. by rewrite fmap_app. Qed.

Lemma chain_prefix v path x : Chain pred root v path -> x ∈ path_nodes root path ->
  exists path' rest, path = path' ++ rest /\ Chain pred root x path'.
Proof.
  induction 1 as [Hr|u v c path Hv Hc IH].
  - intros [->|[]%elem_of_nil]%elem_of_cons. exists [], []. split; [done|]. by constructor.
  - rewrite path_nodes_snoc, elem_of_app, list_elem_of_singleton. intros [Hx| ->].
    + destruct (IH Hx) as (path' & rest & -> & Hx'). exists path', (rest ++ [(u, v, c)]). by rewrite app_assoc.
    + exists (path ++ [(u, v, c)]), []. rewrite app_nil_r. split; [done|]. by econstructor.
Qed.

Lemma chain_NoDup v path : Chain pred root v path -> NoDup (path_nodes root path).
Proof.
  induction 1 as [Hr|u v c path Hv Hc IH]; [apply NoDup_singleton|].
  rewrite path_nodes_snoc. apply NoDup_app. split_and!; [done| |apply NoDup_singleton].
  intros x Hx ->%list_elem_of_singleton. destruct (chain_prefix _ _ _ Hc Hx) as (path' & rest & -> & Hx').
  pose proof (chain_det _ _ _ Hx' (chain_step _ _ _ _ _ _ Hv Hc)) as Heq. apply (f_equal length) in Heq.
  rewrite !length_app in Heq. cbn in Heq. lia.
Qed.

Lemma chain_bound v path x : Chain pred root v path -> x ∈ path_nodes root path -> x < length pred.
Proof.
  intros Hc Hx. destruct (chain_prefix _ _ _ Hc Hx) as (path' & _ & _ & Hx').
  apply lookup_lt_is_Some. inversion Hx'; subst; eauto.
Qed.

Lemma chain_length v path : Chain pred root v path -> length path < length pred.
Proof.
  intros Hc. pose proof (chain_NoDup _ _ Hc) as Hnd.
  assert (path_nodes root path ⊆+ seq 0 (length pred)) as Hsub.
  { apply NoDup_submseteq; [done|]. intros x Hx. apply elem_of_seq. pose proof (chain_bound _ _ _ Hc Hx). lia. }
  apply submseteq_length in Hsub. rewrite length_seq in Hsub. unfold path_nodes in Hsub. cbn in Hsub.
  rewrite length_fmap in Hsub. lia.
Qed.

(** ** The walks of the chain *)

Lemma chain_lookup u path : Chain pred root u path ->
  exists step, pred !! u = Some step /\
    match step with
    | None => u = root /\ path = []
    | Some (prev, c) => exists path', Chain pred root prev path' /\ path = path' ++ [(prev, u, c)]
    end.
Proof. destruct 1 as [Hr|u v c path Hv Hc]; [by exists None|]. exists (Some (u, c)). split; [done|]. by exists path. Qed.

Lemma conflict_from_chain fuel u path target (target_component : ComponentId) :
  Chain pred root u path -> length path < fuel ->
  exists conflict, conflict_from fuel pred u target target_component = Ret conflict /\
    (conflict = false <-> (target ∉ path_nodes root path) /\ (target_component ∉ path_components path)).
Proof.
  revert u path. induction fuel as [|fuel IH]; intros u path Hc Hlen; [lia|]. cbn [conflict_from].
  destruct (chain_lookup _ _ Hc) as (step & Hu & Hstep). unfold at_index. rewrite Hu. cbn [mbind outcome_bind].
  destruct step as [[prev c]|].
  - destruct Hstep as (path' & Hc' & ->). rewrite length_app in Hlen. cbn in Hlen.
    unfold path_components in *. rewrite path_nodes_snoc, fmap_app. case_decide as Ht; [|cbn; case_decide as Hcomp].
    + eexists. split; [done|]. set_solver.
    + eexists. split; [done|]. set_solver.
    + destruct (IH prev path' Hc' ltac:(lia)) as (b & -> & Hb). exists b. split; [done|]. rewrite Hb. set_solver.
  - destruct Hstep as [-> ->]. cbn. case_decide as Ht; eexists; (split; [done|]); set_solver.
Qed.

Lemma path_has_conflict_chain u path v (c : ComponentId) : Chain pred root u path ->
  exists conflict, path_has_conflict u v c pred = Ret conflict /\
    (conflict = false <-> (v ∉ path_nodes root path) /\ (c ∉ path_components path)).
Proof. intros Hc. apply conflict_from_chain; [done|]. pose proof (chain_length _ _ Hc). lia. Qed.

Lemma path_back_chain fuel v path visited suffix : Chain pred root v path -> length path < fuel ->
  (forall x, x ∈ path_nodes root path -> x ∉ visited) ->
  path_back fuel pred v root visited suffix = Ok (path ++ suffix).
Proof.
  intros Hc. revert fuel visited suffix.
  induction Hc as [Hr|u v c path Hv Hc IH]; intros fuel visited suffix Hlen Hvis;
    (destruct fuel as [|fuel]; [lia|]); cbn [path_back].
  - by rewrite decide_True.
  - pose proof (chain_NoDup _ _ (chain_step _ _ _ _ _ _ Hv Hc)) as Hnd. rewrite path_nodes_snoc in Hnd, Hvis.
    apply NoDup_app in Hnd as (_ & Hd & _). rewrite decide_False; [|intros ->; by rewrite (chain_at_root _ _ Hc) in Hv].
    rewrite decide_False by (apply Hvis; set_solver). rewrite Hv, <- app_assoc. apply IH.
    + rewrite length_app in Hlen. cbn in Hlen. lia.
    + intros x Hx [->%elem_of_singleton|Hin]%elem_of_union; [apply (Hd v); [done|by left]|]. by apply (Hvis x); [set_solver|].
Qed.

Lemma reconstruct_chain v path : Chain pred root v path -> reconstruct_path v root pred = Ok path.
Proof.
  intros Hc. unfold reconstruct_path. rewrite (path_back_chain _ _ _ _ _ Hc); [by rewrite app_nil_r| |set_solver].
  pose proof (chain_length _ _ Hc). lia.
Qed.
End chains.

(** ** Routes through hops *)

(** The hops follow each other from one node to another. *)
Fixpoint linked (from : NodeIndex) (path : list PathEdge) (to : NodeIndex) : Prop :=
  match path with
  | [] => from = to
  | (a, b, _) :: path => a = from /\ linked b path to
  end.

Lemma linked_snoc from path a b (c : ComponentId) : linked from path a -> linked from (path ++ [(a, b, c)]) b.
Proof.
  revert from. induction path as [|[[x y] z] path IH]; intros from; cbn; [by intros ->|]. intros [-> Hl]. by auto.
Qed.

Lemma chain_linked (pred : list (option (NodeIndex * ComponentId))) root v path :
  Chain pred root v path -> linked root path v.
Proof. induction 1; [done|by apply linked_snoc]. Qed.

Lemma chain_hops (pred : list (option (NodeIndex * ComponentId))) root v path a b c :
  Chain pred root v path -> (a, b, c) ∈ path -> pred !! b = Some (Some (a, c)) /\ is_Some (pred !! a).
Proof.
  induction 1 as [|u v d path Hv Hc IH]; [by intros []%elem_of_nil|].
  intros [Hin|[= -> -> ->]%list_elem_of_singleton]%elem_of_app; [auto|]. split; [done|].
  destruct (chain_lookup _ _ _ _ Hc) as (step & Hu & _). by exists step.
Qed.

(** ** Growing the tree *)

Section growing.
Context (pred : list (option (NodeIndex * ComponentId))) (root u v : NodeIndex) (c : ComponentId).
Context (path : list PathEdge) (Hu : Chain pred root u path) (Hfree : v ∉ path_nodes root path).
Context (Hv : v < length pred).

#[local] Abbreviation pred' := (<[v := Some (u, c)]> pred).

Lemma grown_root : pred' !! root = Some None.
Proof.
  rewrite list_lookup_insert_ne; [by apply (chain_at_root _ _ _ _ Hu)|]. intros ->. apply Hfree. by left.
Qed.

(** A chain that avoids the node is kept. *)
Lemma chain_kept x p : Chain pred root x p -> v ∉ path_nodes root p -> Chain pred' root x p.
Proof.
  induction 1 as [Hr|a b d p Hb Ha IH]; [by constructor; apply grown_root|].
  rewrite path_nodes_snoc, not_elem_of_app, list_elem_of_singleton. intros [Hp Hne].
  apply chain_step; [by rewrite list_lookup_insert_ne|auto].
Qed.

Lemma grown_node : Chain pred' root v (path ++ [(u, v, c)]).
Proof. apply chain_step; [by rewrite list_lookup_insert_eq|by apply chain_kept]. Qed.

Lemma grown_rooted x : rooted pred root x -> rooted pred' root x.
Proof.
  intros [p Hx]. induction Hx as [Hr|a b d p Hb Ha IH].
  - exists []. constructor. apply grown_root.
  - destruct (decide (b = v)) as [->|Hne]; [eexists; apply grown_node|].
    destruct IH as [p' Hp']. exists (p' ++ [(a, b, d)]). apply chain_step; [by rewrite list_lookup_insert_ne|done].
Qed.

Lemma grown_forest : forest pred root -> forest pred' root.
Proof.
  intros [Hr Hf]. split; [apply grown_root|]. intros x step Hx. destruct (decide (x = v)) as [->|Hne].
  - eexists. apply grown_node.
  - rewrite list_lookup_insert_ne in Hx by done. eapply grown_rooted, Hf, Hx.
Qed.
End growing.

Lemma fold_outcome_inv {A B} (P : A -> Prop) (R : relation A) `{!PreOrder R} (f : A -> B -> outcome A) l a :
  (forall a b, P a -> b ∈ l -> exists a', f a b = Ret a' /\ P a' /\ R a a') -> P a ->
  exists a', fold_outcome f l a = Ret a' /\ P a' /\ R a a'.
Proof.
  revert a. induction l as [|b l IH]; intros a Hf Ha; cbn; [by exists a|].
  destruct (Hf a b Ha ltac:(by left)) as (a1 & -> & Ha1 & HR1). cbn.
  destruct (IH a1) as (a2 & -> & Ha2 & HR2); [intros; apply Hf; [done|by right]|done|].
  exists a2. split_and!; [done|done|by etransitivity].
Qed.

(** What one element establishes lasts to the end of the fold. *)
Lemma fold_outcome_reach {A B} (P : A -> Prop) (R : relation A) (Q : A -> Prop) `{!PreOrder R} (f : A -> B -> outcome A) l b a :
  (forall a b, P a -> b ∈ l -> exists a', f a b = Ret a' /\ P a' /\ R a a') ->
  (forall a a', P a -> f a b = Ret a' -> Q a') -> (forall a a', Q a -> R a a' -> Q a') -> b ∈ l -> P a ->
  exists a', fold_outcome f l a = Ret a' /\ P a' /\ Q a'.
Proof.
  intros Hf Hb HQ Hin. revert a. induction Hin as [b l|b x l Hin IH]; intros a Ha; cbn.
  - destruct (Hf a b Ha ltac:(by left)) as (a1 & Hfa & Ha1 & _). rewrite Hfa. cbn.
    destruct (fold_outcome_inv P R f l a1) as (a' & -> & Ha' & HR); [intros; apply Hf; [done|by right]|done|].
    exists a'. split_and!; [done|done|]. by apply (HQ a1), HR; apply (Hb a).
  - destruct (Hf a x Ha ltac:(by left)) as (a1 & -> & Ha1 & _). cbn.
    apply IH; [|done|done]. intros; apply Hf; [done|by right].
Qed.

(** ** The relaxation as steps *)

Section relaxation.
Context `{TychoGas} `{!Messages} `{!TychoSwaps} (decimals : Token -> N) (integer_decode : f64 -> N * Z).
Context (self : BellmanFordAlgorithm) (ctx : BellmanFordContext) (overrides : MarketOverrides).
Implicit Types (nodes : list NodeBest) (u v : NodeIndex).

#[local] Abbreviation root := (bc_token_in_node ctx).

(** The indices of the context are in range. *)
Record ctx_ok : Prop := {
  cx_root : root < bc_max_idx ctx;
  cx_adj : forall u edges v c, bc_adj ctx !! u = Some edges -> (v, c) ∈ edges -> v < bc_max_idx ctx;
}.

(** A relaxation that improves a node. *)
Inductive improves nodes : list NodeBest -> Prop :=
| improves_edge u v component_id token_u token_v sim at_u at_v result edges below :
    rooted (predecessors nodes) root u ->
    bc_token_map ctx !! u = Some token_u -> bc_token_map ctx !! v = Some token_v ->
    bc_adj ctx !! u = Some edges -> (v, component_id) ∈ edges ->
    path_has_conflict u v component_id (predecessors nodes) = Ret false ->
    connector_allows self ctx v = true ->
    sim_of ctx overrides component_id = Some sim ->
    nodes !! u = Some at_u -> nodes !! v = Some at_v ->
    swap_against sim (nb_amount at_u) token_u token_v = Ok result ->
    (compare_candidate decimals integer_decode ctx token_u token_v at_u at_v
       (candidate ctx u v component_id at_u result) below).1 = true ->
    improves nodes (<[v := candidate ctx u v component_id at_u result]> nodes).

Record tree nodes : Prop := {
  tr_length : length nodes = bc_max_idx ctx;
  tr_forest : forest (predecessors nodes) root;
  tr_reached : forall v best, nodes !! v = Some best -> nb_amount best <> 0%N ->
    v = root \/ is_Some (nb_predecessor best);
}.

Lemma predecessors_lookup nodes v best : nodes !! v = Some best -> predecessors nodes !! v = Some (nb_predecessor best).
Proof. unfold predecessors. rewrite list_lookup_fmap. by intros ->. Qed.

Lemma root_rooted nodes : tree nodes -> rooted (predecessors nodes) root root.
Proof. intros [_ [Hr _] _]. exists []. by constructor. Qed.

Lemma tree_rooted nodes v best : tree nodes -> nodes !! v = Some best -> nb_amount best <> 0%N ->
  rooted (predecessors nodes) root v.
Proof.
  intros Ht Hv Hne. destruct (tr_reached _ Ht _ _ Hv Hne) as [->|[step Hs]]; [by apply root_rooted|].
  apply (fo_rooted _ _ (tr_forest _ Ht) v step). rewrite (predecessors_lookup _ _ _ Hv). by f_equal.
Qed.

(** What a relaxation that is no conflict knows. *)
Lemma no_conflict pred u v c : rooted pred root u -> path_has_conflict u v c pred = Ret false ->
  exists path, Chain pred root u path /\ (v ∉ path_nodes root path) /\ (c ∉ path_components path).
Proof.
  intros [path Hu] Hc. destruct (path_has_conflict_chain _ _ _ _ v c Hu) as (b & Hb & Hiff).
  rewrite Hb in Hc. injection Hc as ->. exists path. split; [done|]. by apply Hiff.
Qed.

Lemma predecessors_insert nodes v best :
  predecessors (<[v := best]> nodes) = <[v := nb_predecessor best]> (predecessors nodes).
Proof. apply list_fmap_insert. Qed.

Lemma improves_tree nodes nodes' : tree nodes -> improves nodes nodes' ->
  tree nodes' /\ forall x, rooted (predecessors nodes) root x -> rooted (predecessors nodes') root x.
Proof.
  intros Ht Hstep. destruct Hstep as [u v c token_u token_v sim at_u at_v result edges below
    Hu _ _ _ _ Hc _ _ _ Hv _ _]. destruct (no_conflict _ _ _ _ Hu Hc) as (path & Hpath & Hfree & _).
  assert (v < length (predecessors nodes)) as Hlt by (unfold predecessors; rewrite length_fmap; by apply lookup_lt_Some in Hv).
  split; [split|].
  - rewrite length_insert. apply (tr_length _ Ht).
  - rewrite predecessors_insert. by apply (grown_forest _ _ _ _ _ path), (tr_forest _ Ht).
  - intros x best [(<- & <- & _)|[Hne Hx]]%list_lookup_insert_Some Hnz; [right; by eexists|].
    by apply (tr_reached _ Ht).
  - intros x Hx. rewrite predecessors_insert. by apply (grown_rooted _ _ _ _ _ path).
Qed.

Lemma improves_trees nodes nodes' : tree nodes -> rtc improves nodes nodes' ->
  tree nodes' /\ forall x, rooted (predecessors nodes) root x -> rooted (predecessors nodes') root x.
Proof.
  intros Ht Hsteps. induction Hsteps as [nodes|nodes n1 nodes' Hstep _ IH]; [done|].
  destruct (improves_tree _ _ Ht Hstep) as [Ht1 Hr1]. destruct (IH Ht1) as [Ht' Hr']. eauto.
Qed.

(** The state of a round: the arrays are a tree, and the nodes to visit next are in range. *)
Definition round_ok (st : Relaxation) : Prop :=
  tree (rx_nodes st) /\ forall x, x ∈ rx_next_active st -> x < bc_max_idx ctx.

#[local] Abbreviation stepped := (fun st st' => rtc improves (rx_nodes st) (rx_nodes st')).

#[local] Instance stepped_preorder : PreOrder (fun st st' : Relaxation => rtc improves (rx_nodes st) (rx_nodes st')).
Proof. split; [intros st; apply rtc_refl|intros st1 st2 st3 H12 H23; by etransitivity]. Qed.

Context (Hctx : ctx_ok).

Lemma at_index_Some {A} (l : list A) i a : l !! i = Some a -> at_index l i = Ret a.
Proof. unfold at_index. by intros ->. Qed.

Lemma at_index_lt {A} (l : list A) i : i < length l -> exists a, l !! i = Some a /\ at_index l i = Ret a.
Proof. unfold at_index. intros [a ->]%lookup_lt_is_Some. by exists a. Qed.

Lemma relax_edge_steps u token_u edges st edge : round_ok st -> rooted (predecessors (rx_nodes st)) root u ->
  bc_token_map ctx !! u = Some token_u -> bc_adj ctx !! u = Some edges -> edge ∈ edges ->
  exists st', relax_edge decimals integer_decode self ctx overrides u token_u st edge = Ret st' /\
    round_ok st' /\ stepped st st'.
Proof.
  intros [Ht Hnext] Hu Htok Hadj Hedge. destruct edge as [v c]. unfold relax_edge.
  destruct Hu as [path Hpath].
  assert (exists st', Ret st = Ret st' /\ round_ok st' /\ stepped st st') as Hskip by (exists st; split_and!; by try done).
  destruct (path_has_conflict_chain _ _ _ _ v c Hpath) as (conflict & Hc & _). rewrite Hc. cbn [mbind outcome_bind].
  destruct conflict; [done|]. destruct (connector_allows self ctx v) eqn:Hconn; cbn [negb]; [|done].
  destruct (bc_token_map ctx !! v) as [token_v|] eqn:Hv; [|done].
  destruct (sim_of ctx overrides c) as [sim|] eqn:Hsim; [|done].
  destruct (at_index_lt (rx_nodes st) u) as (at_u & Hat_u & ->).
  { rewrite <- (length_fmap nb_predecessor). destruct (chain_lookup _ _ _ _ Hpath) as (step & Hstep & _).
    by apply lookup_lt_Some in Hstep. }
  cbn [mbind outcome_bind]. destruct (swap_against sim (nb_amount at_u) token_u token_v) as [result|e] eqn:Hout; [|done].
  destruct (at_index_lt (rx_nodes st) v) as (at_v & Hat_v & ->); [rewrite (tr_length _ Ht); by eapply (cx_adj Hctx)|].
  cbn [mbind outcome_bind]. destruct (compare_candidate _ _ _ _ _ _ _ _ _) as [is_better below] eqn:Hcmp.
  destruct is_better; (eexists; split; [done|]); [|by split].
  assert (improves (rx_nodes st) (<[v := candidate ctx u v c at_u result]> (rx_nodes st))) as Hstep.
  { eapply (improves_edge _ u v c token_u token_v sim at_u at_v result edges); try done; [by exists path|].
    by rewrite Hcmp. }
  split; [|by apply rtc_once]. split; cbn; [by apply (improves_tree _ _ Ht)|].
  intros x [->%elem_of_singleton|Hx]%elem_of_union; [by eapply (cx_adj Hctx)|by apply Hnext].
Qed.

Lemma relax_node_steps st u : round_ok st -> u < bc_max_idx ctx ->
  exists st', relax_node decimals integer_decode self ctx overrides st u = Ret st' /\ round_ok st' /\ stepped st st'.
Proof.
  intros Hst Hlt. pose proof Hst as [Ht _]. unfold relax_node.
  destruct (at_index_lt (rx_nodes st) u) as (at_u & Hat & ->); [by rewrite (tr_length _ Ht)|]. cbn [mbind outcome_bind].
  assert (exists st', Ret st = Ret st' /\ round_ok st' /\ stepped st st') as Hskip by (exists st; split_and!; by try done).
  destruct (N.eqb_spec (nb_amount at_u) 0) as [|Hne]; [done|].
  destruct (bc_token_map ctx !! u) as [token_u|] eqn:Htok; [|done].
  destruct (bc_adj ctx !! u) as [edges|] eqn:Hadj; [|done].
  destruct (fold_outcome_inv (fun st => round_ok st /\ rooted (predecessors (rx_nodes st)) root u) stepped
    (relax_edge decimals integer_decode self ctx overrides u token_u) edges st) as (st' & -> & [Hst' _] & Hsteps).
  - intros a edge [Ha Hu] Hedge.
    destruct (relax_edge_steps u token_u edges a edge Ha Hu Htok Hadj Hedge) as (a' & -> & Ha' & Hsteps).
    exists a'. split; [done|]. split; [|exact Hsteps]. split; [exact Ha'|]. destruct Ha as [Hta _].
    exact (proj2 (improves_trees _ _ Hta Hsteps) _ Hu).
  - split; [done|]. by apply (tree_rooted _ _ _ Ht Hat).
  - by exists st'.
Qed.

Lemma spfa_rounds_steps clock n round active nodes below : tree nodes ->
  (forall x, x ∈ active -> x < bc_max_idx ctx) ->
  exists r, spfa_rounds decimals integer_decode self ctx overrides clock n round active nodes below = Ret r /\
    tree (sp_nodes r) /\ rtc improves nodes (sp_nodes r).
Proof.
  revert round active nodes below. induction n as [|n IH]; intros round active nodes below Ht Hactive; cbn [spfa_rounds].
  { eexists. split_and!; [done|done|apply rtc_refl]. }
  destruct (N.leb_spec (bf_timeout self) (clock round)); [eexists; split_and!; [done|done|apply rtc_refl]|].
  destruct active as [|x active]; [eexists; split_and!; [done|done|apply rtc_refl]|].
  edestruct (fold_outcome_inv round_ok stepped (relax_node decimals integer_decode self ctx overrides) (x :: active)
    {| rx_nodes := nodes; rx_input_below_hop_gas := below; rx_next_active := ∅ |}) as (st & -> & [Hst Hnext] & Hsteps).
  - intros a b Ha Hb. by apply relax_node_steps, Hactive.
  - split; [done|set_solver].
  - cbn [mbind outcome_bind]. destruct (IH (S round) (merge_sort le (elements (rx_next_active st))) (rx_nodes st)
      (rx_input_below_hop_gas st) Hst) as (r & -> & Hr & Hsteps').
    + intros y. rewrite merge_sort_Permutation. intros Hy%elem_of_elements. by apply Hnext.
    + exists r. split_and!; [done|done|]. by etransitivity.
Qed.

Definition spfa_start (amount_in : N) : list NodeBest :=
  <[root := source_best amount_in]> (replicate (bc_max_idx ctx) unreached).

Lemma spfa_start_tree amount_in : tree (spfa_start amount_in).
Proof.
  assert (root < length (replicate (bc_max_idx ctx) unreached)) as Hlt by (rewrite length_replicate; apply (cx_root Hctx)).
  unfold spfa_start. split.
  - by rewrite length_insert, length_replicate.
  - rewrite predecessors_insert. unfold predecessors. rewrite fmap_replicate. cbn. split.
    + apply list_lookup_insert_eq. by rewrite !length_replicate in *.
    + intros v step [(_ & ? & _)|[_ Hv]]%list_lookup_insert_Some; [done|]. by apply lookup_replicate in Hv as [? _].
  - intros v best [(<- & _)|[_ Hv]]%list_lookup_insert_Some; [by left|]. by apply lookup_replicate in Hv as [-> _].
Qed.

Lemma run_spfa_steps amount_in clock :
  exists r, run_spfa decimals integer_decode self ctx amount_in overrides clock = Ret r /\
    tree (sp_nodes r) /\ rtc improves (spfa_start amount_in) (sp_nodes r).
Proof.
  unfold run_spfa. destruct (at_index_lt (replicate (bc_max_idx ctx) unreached) root) as (a & _ & ->).
  { rewrite length_replicate. apply (cx_root Hctx). }
  cbn [mbind outcome_bind]. apply spfa_rounds_steps; [apply spfa_start_tree|].
  intros x ->%list_elem_of_singleton. apply (cx_root Hctx).
Qed.

(** ** What the tree's hops are *)

(** A hop the relaxation may make. *)
Definition usable (hop : PathEdge) : Prop :=
  let '(u, v, component_id) := hop in
  (exists edges, bc_adj ctx !! u = Some edges /\ (v, component_id) ∈ edges) /\
  is_Some (bc_token_map ctx !! u) /\ is_Some (bc_token_map ctx !! v) /\
  is_Some (sim_of ctx overrides component_id) /\ connector_allows self ctx v = true.

Definition usable_hops nodes : Prop := forall v best u c,
  nodes !! v = Some best -> nb_predecessor best = Some (u, c) -> usable (u, v, c).

(** What every relaxation keeps, from the start. *)
Definition kept (P : list NodeBest -> Prop) : Prop :=
  forall nodes nodes', tree nodes -> P nodes -> improves nodes nodes' -> P nodes'.

Lemma kept_steps (P : list NodeBest -> Prop) nodes nodes' : kept P -> tree nodes -> P nodes ->
  rtc improves nodes nodes' -> P nodes'.
Proof.
  intros Hk Ht HP Hsteps. induction Hsteps as [nodes|nodes n1 nodes' Hstep _ IH]; [done|].
  apply IH; [by apply (improves_tree _ _ Ht)|by apply (Hk nodes)].
Qed.

Lemma usable_kept : kept usable_hops.
Proof.
  intros nodes nodes' _ Hus Hstep. destruct Hstep as [u v c token_u token_v sim at_u at_v result edges below
    _ Hu Hv Hadj Hin _ Hconn Hsim _ _ _ _].
  intros x best a d [(<- & <- & _)|[_ Hx]]%list_lookup_insert_Some Hpred; [|by apply (Hus x best)].
  injection Hpred as <- <-. split_and!; [by exists edges|by eexists..|done].
Qed.

(** The source keeps what it started with. *)
Definition source_kept amount_in nodes : Prop := nodes !! root = Some (source_best amount_in).

Lemma source_is_kept amount_in : kept (source_kept amount_in).
Proof.
  intros nodes nodes' _ Hs Hstep. destruct Hstep as [u v c token_u token_v sim at_u at_v result edges below
    Hu _ _ _ _ Hc _ _ _ _ _ _]. destruct (no_conflict _ _ _ _ Hu Hc) as (path & _ & Hfree & _).
  unfold source_kept. rewrite list_lookup_insert_ne; [done|]. intros ->. apply Hfree. by left.
Qed.

(** The outcome of a relaxation. *)
Record relaxed (amount_in : N) nodes : Prop := {
  rl_tree : tree nodes;
  rl_usable : usable_hops nodes;
  rl_source : source_kept amount_in nodes;
  rl_steps : rtc improves (spfa_start amount_in) nodes;
}.

Lemma run_spfa_relaxed amount_in clock :
  exists r, run_spfa decimals integer_decode self ctx amount_in overrides clock = Ret r /\ relaxed amount_in (sp_nodes r).
Proof.
  destruct (run_spfa_steps amount_in clock) as (r & -> & Ht & Hsteps). exists r. split; [done|].
  pose proof (spfa_start_tree amount_in) as Hstart. split; [done| | |done].
  - apply (kept_steps _ _ _ usable_kept Hstart); [|done].
    intros v best u c [(_ & <- & _)|[_ Hv]]%list_lookup_insert_Some Hp; [done|].
    by apply lookup_replicate in Hv as [-> _].
  - apply (kept_steps _ _ _ (source_is_kept amount_in) Hstart); [|done].
    apply list_lookup_insert_eq. rewrite length_replicate. apply (cx_root Hctx).
Qed.

(** The path of a node that is reached. *)
Record path_to nodes v path : Prop := {
  pt_chain : Chain (predecessors nodes) root v path;
  pt_linked : linked root path v;
  pt_usable : Forall usable path;
  pt_simple : NoDup (path_nodes root path);
}.

Lemma reached_path amount_in nodes v best : relaxed amount_in nodes -> nodes !! v = Some best ->
  nb_amount best <> 0%N -> exists path, reconstruct_path v root (predecessors nodes) = Ok path /\ path_to nodes v path.
Proof.
  intros Hr Hv Hne. destruct (tree_rooted _ _ _ (rl_tree _ _ Hr) Hv Hne) as [path Hp]. exists path.
  split; [by apply reconstruct_chain|]. split; [done|by apply (chain_linked _ _ _ _ Hp)| |by apply (chain_NoDup _ _ _ _ Hp)].
  apply Forall_forall. intros [[a b] c] Hin. destruct (chain_hops _ _ _ _ _ _ _ Hp Hin) as [Hb _].
  unfold predecessors in Hb. apply list_lookup_fmap_Some in Hb as (bb & Hnb & Hb). by apply (rl_usable _ _ Hr b bb).
Qed.

(** ** The route of a path *)

Definition addr_of v : Address := default EmptyString (token_address_of <$> bc_token_map ctx !! v).

(** The swap of a hop: the amounts and the gas are those of the arrays. *)
Definition swap_for nodes (hop : PathEdge) (s : Swap) : Prop :=
  exists at_u at_v component sim,
    nodes !! hop.1.1 = Some at_u /\ nodes !! hop.1.2 = Some at_v /\ sim_of ctx overrides hop.2 = Some sim /\
    get_component (bc_market_data ctx) hop.2 = Some component /\
    s = Swap_new hop.2 (protocol_system_of component) (addr_of hop.1.1) (addr_of hop.1.2) (nb_amount at_u)
          (nb_amount at_v) (nb_edge_gas at_v) component (zs_inner sim).

Definition in_range nodes (hop : PathEdge) : Prop := is_Some (nodes !! hop.1.1) /\ is_Some (nodes !! hop.1.2).

Definition component_missing (e : AlgorithmError) : Prop := exists c, e = AE_DataNotFound "component" (Some c).

Lemma edge_swap_spec nodes hop : usable hop -> in_range nodes hop ->
  exists r, edge_swap ctx nodes overrides hop = Ret r /\
    match r with
    | Ok (s, _, _) => swap_for nodes hop s
    | Err e => component_missing e
    end.
Proof.
  destruct hop as [[u v] c]. intros (_ & [tu Hu] & [tv Hv] & [sim Hsim] & _) [[at_u Hat_u] [at_v Hat_v]].
  cbn in Hat_u, Hat_v. unfold edge_swap, at_index. rewrite Hu, Hv, Hsim. cbn [found try_bind mbind outcome_bind].
  destruct (get_component (bc_market_data ctx) c) as [component|] eqn:Hcomp; cbn.
  - rewrite Hat_u, Hat_v. cbn. eexists. split; [done|]. exists at_u, at_v, component, sim. cbn. split_and!; [done..|].
    unfold addr_of. by rewrite Hu, Hv.
  - eexists. split; [done|]. by exists c.
Qed.

Lemma edge_swaps_spec nodes path swaps route_tokens : Forall usable path -> Forall (in_range nodes) path ->
  exists r, edge_swaps ctx nodes overrides swaps route_tokens path = Ret r /\
    match r with
    | Ok (swaps', _) => exists built, swaps' = swaps ++ built /\ Forall2 (swap_for nodes) path built
    | Err e => component_missing e
    end.
Proof.
  intros Hus. revert swaps route_tokens. induction Hus as [|hop path Hu Hus IH]; intros swaps route_tokens Hin; cbn [edge_swaps].
  - eexists. split; [done|]. cbn. exists []. by rewrite app_nil_r.
  - apply Forall_cons in Hin as [Hhop Hin]. destruct (edge_swap_spec nodes hop Hu Hhop) as ([[[s ti] to]|e] & -> & Hs); cbn.
    + destruct (IH (swaps ++ [s]) (or_insert (or_insert route_tokens ti) to) Hin) as ([[swaps' toks]|e] & -> & Hr);
        (eexists; split; [done|]); [|done].
      destruct Hr as (built & -> & Hbuilt). exists (s :: built). rewrite <- app_assoc. split; [done|]. by constructor.
    + by eexists.
Qed.

Lemma path_in_range nodes v path : path_to nodes v path -> Forall (in_range nodes) path.
Proof.
  intros Hp. apply Forall_forall. intros [[a b] c] Hin.
  destruct (chain_hops _ _ _ _ _ _ _ (pt_chain _ _ _ Hp) Hin) as [Hb Ha]. unfold predecessors in Ha, Hb.
  rewrite list_lookup_fmap in Ha. apply list_lookup_fmap_Some in Hb as (bb & _ & Hb).
  split; [|by exists bb]. cbn. destruct (nodes !! a); [by eexists|by destruct Ha].
Qed.

(** The route of a path: a swap per hop. *)
Lemma build_route_spec nodes v path : path_to nodes v path -> path <> [] ->
  exists r, build_route ctx path nodes overrides = Ret r /\
    match r with
    | Ok route => Forall2 (swap_for nodes) path (rt_swaps route)
    | Err e => component_missing e
    end.
Proof.
  intros Hp Hne. unfold build_route.
  destruct (edge_swaps_spec nodes path [] ∅ (pt_usable _ _ _ Hp) (path_in_range _ _ _ Hp)) as ([[swaps toks]|e] & -> & Hr);
    cbn [try_bind mbind outcome_bind]; [|by eexists].
  destruct Hr as (built & -> & Hbuilt). eexists. split; [done|]. cbn.
  destruct built as [|s built]; [by inversion Hbuilt; subst|]. done.
Qed.

(** The swaps' tokens are those of the path's nodes, and an amount leaves a swap as it enters the next. *)
Definition amounts_flow (swaps : list Swap) : Prop :=
  forall i a b, swaps !! i = Some a -> swaps !! S i = Some b -> sw_amount_out a = sw_amount_in b.

Lemma swaps_connect nodes from path to swaps : linked from path to -> Forall2 (swap_for nodes) path swaps ->
  connected swaps /\ amounts_flow swaps.
Proof.
  intros Hl Hs. revert from Hl. induction Hs as [|[[a b] c] s path swaps Hhop Hs IH]; intros from Hl.
  { split; intros [|i]; done. }
  cbn in Hl. destruct Hl as [-> Hl]. destruct (IH b Hl) as [Hc Ha]. clear IH.
  assert (forall t, swaps !! 0 = Some t -> sw_token_out s = sw_token_in t /\ sw_amount_out s = sw_amount_in t) as Hhead.
  { intros t Ht. destruct Hs as [|[[x y] z] t' path swaps Hhop' Hs]; [done|]. injection Ht as ->. destruct Hl as [-> _].
    destruct Hhop as (? & at_v & ? & ? & _ & Hv & _ & _ & ->), Hhop' as (at_u & ? & ? & ? & Hu & _ & _ & _ & ->).
    cbn in *. rewrite Hv in Hu. injection Hu as ->. done. }
  split; intros [|i] x y Hx Hy; cbn in Hx, Hy; [injection Hx as <-; by apply Hhead|by apply (Hc i)
    |injection Hx as <-; by apply Hhead|by apply (Ha i)].
Qed.

Lemma swaps_path nodes from path to swaps : linked from path to -> Forall2 (swap_for nodes) path swaps -> path <> [] ->
  route_path swaps = addr_of <$> path_nodes from path.
Proof.
  intros Hl Hs Hne.
  assert (sw_token_out <$> swaps = (fun hop : PathEdge => addr_of hop.1.2) <$> path) as Hout.
  { clear Hl Hne. induction Hs as [|hop s path swaps (? & ? & ? & ? & _ & _ & _ & _ & ->) Hs IH]; [done|].
    cbn. by f_equal. }
  destruct Hs as [|[[a b] c] s path swaps (? & ? & ? & ? & _ & _ & _ & _ & ->) Hs]; [done|].
  destruct Hl as [-> _]. unfold path_nodes. unfold route_path. rewrite Hout.
  cbn. f_equal. f_equal. by rewrite <- list_fmap_compose.
Qed.

(** No two nodes stand for one token. *)
Definition tokens_distinct : Prop := forall u v token_u token_v,
  bc_token_map ctx !! u = Some token_u -> bc_token_map ctx !! v = Some token_v ->
  token_address_of token_u = token_address_of token_v -> u = v.

Lemma path_tokens_known nodes v path x : path_to nodes v path -> path <> [] -> x ∈ path_nodes root path ->
  is_Some (bc_token_map ctx !! x).
Proof.
  intros Hp Hne Hx. pose proof (pt_usable _ _ _ Hp) as Hus. rewrite Forall_forall in Hus.
  apply elem_of_cons in Hx as [->|([[a b] c] & -> & Hin)%list_elem_of_fmap].
  - destruct path as [|[[a b] c] path]; [done|]. destruct (pt_linked _ _ _ Hp) as [<- _].
    by destruct (Hus (a, b, c) ltac:(left)) as (_ & Ha & _).
  - by destruct (Hus _ Hin) as (_ & _ & Hb & _).
Qed.

Lemma path_addresses_simple nodes v path : tokens_distinct -> path_to nodes v path -> path <> [] ->
  NoDup (addr_of <$> path_nodes root path).
Proof.
  intros Hdist Hp Hne. apply NoDup_fmap_2_strong; [|apply (pt_simple _ _ _ Hp)]. intros x y Hx Hy.
  destruct (path_tokens_known _ _ _ _ Hp Hne Hx) as [tx Htx], (path_tokens_known _ _ _ _ Hp Hne Hy) as [ty Hty].
  unfold addr_of. rewrite Htx, Hty. by apply Hdist.
Qed.

Lemma swaps_zero_split nodes path swaps : Forall2 (swap_for nodes) path swaps -> Forall (fun s => sw_split s = F64.zero) swaps.
Proof. induction 1 as [|hop s path swaps (? & ? & ? & ? & _ & _ & _ & _ & ->) _ IH]; by constructor. Qed.

Lemma swaps_unsplit nodes path swaps : Forall2 (swap_for nodes) path swaps ->
  existsb (fun s => F64.gtb (sw_split s) F64.zero) swaps = false.
Proof. intros Hs. apply swaps_zero_split in Hs. induction Hs as [|s swaps Hs _ IH]; [done|]. cbn. by rewrite Hs. Qed.

(** What a solve's route is: a simple chain of usable hops from the source to the destination, with
    the order's amount at its start and no more than its last output as the net. *)
Record solved (out : NodeIndex) (amount_in : N) (result : RouteResult) : Prop := {
  so_valid : Route_validate (rr_route result) = Ret (Ok tt);
  so_first : exists s, head (rt_swaps (rr_route result)) = Some s /\ sw_token_in s = addr_of root /\
    sw_amount_in s = amount_in;
  so_last : exists s, last (rt_swaps (rr_route result)) = Some s /\ sw_token_out s = addr_of out /\
    (rr_net_amount_out result <= Z.of_N (sw_amount_out s))%Z /\ sw_amount_out s <> 0%N;
  so_flow : amounts_flow (rt_swaps (rr_route result));
  so_hops : Forall (fun s => exists u v, usable (u, v, sw_component_id s) /\ sw_token_in s = addr_of u /\
    sw_token_out s = addr_of v) (rt_swaps (rr_route result));
  so_unsplit : existsb (fun s => F64.gtb (sw_split s) F64.zero) (rt_swaps (rr_route result)) = false;
}.

Lemma compute_net_le amount_out route gas_price prices spots addresses node : rt_swaps route <> [] ->
  exists net, compute_net_amount_out decimals integer_decode amount_out route gas_price prices spots addresses node = Ok net /\
    (net <= Z.of_N amount_out)%Z.
Proof.
  intros Hne. unfold compute_net_amount_out. destruct (last (rt_swaps route)) as [s|] eqn:Hl; [|by apply last_None in Hl].
  destruct (gas_price =? 0)%N; [by eexists|]. eexists. split; [done|].
  destruct (_ ≫= _); [lia|done].
Qed.

Lemma linked_last from path to : linked from path to -> path <> [] -> exists u c, last path = Some (u, to, c).
Proof.
  revert from. induction path as [|[[a b] c] path IH]; intros from Hl Hne; [done|]. destruct Hl as [-> Hl].
  destruct path as [|hop path]; [cbn in Hl; subst; by exists from, c|]. by apply (IH b).
Qed.

Lemma path_route nodes amount_in out path best route : tokens_distinct -> source_kept amount_in nodes ->
  path_to nodes out path -> path <> [] -> nodes !! out = Some best -> nb_amount best <> 0%N ->
  Forall2 (swap_for nodes) path (rt_swaps route) ->
  forall result, rr_route result = route -> (rr_net_amount_out result <= Z.of_N (nb_amount best))%Z ->
  solved out amount_in result.
Proof.
  intros Hdist Hsrc Hp Hne Hbest Hnz Hs result Hroute Hnet.
  destruct (swaps_connect _ _ _ _ _ (pt_linked _ _ _ Hp) Hs) as [Hconn Hflow].
  pose proof (swaps_path _ _ _ _ _ (pt_linked _ _ _ Hp) Hs Hne) as Hpath.
  assert (rt_swaps route <> []) as Hswaps by (intros Hnil; rewrite Hnil in Hs; by inversion Hs; subst).
  pose proof (swaps_unsplit _ _ _ Hs) as Hunsplit. split; rewrite ?Hroute; [| | |done| |done].
  - apply sequential_valid; [done|]. split_and!; [done..|]. left. rewrite Hpath. by apply (path_addresses_simple _ _ _ Hdist Hp).
  - destruct Hs as [|[[a b] c] s path swaps (at_u & ? & ? & ? & Hu & _ & _ & _ & ->) Hs]; [done|].
    destruct (pt_linked _ _ _ Hp) as [-> _]. eexists. split; [done|]. cbn in *. split; [done|].
    unfold source_kept in Hsrc. rewrite Hsrc in Hu. by injection Hu as <-.
  - destruct (linked_last _ _ _ (pt_linked _ _ _ Hp) Hne) as (u & c & Hl).
    rewrite last_lookup in Hl. destruct (Forall2_lookup_l _ _ _ _ _ Hs Hl) as (s & Hs' & at_u & at_v & ? & ? & _ & Hv & _ & _ & ->).
    cbn in Hv. rewrite Hbest in Hv. injection Hv as <-. eexists. rewrite last_lookup, <- (Forall2_length _ _ _ Hs).
    split; [exact Hs'|]. cbn. done.
  - apply Forall_forall. intros s Hin. apply list_elem_of_lookup in Hin as (i & Hi).
    destruct (Forall2_lookup_r _ _ _ _ _ Hs Hi) as ([[u v] c] & Hhop & ? & ? & ? & ? & _ & _ & _ & _ & ->).
    exists u, v. cbn. split; [|done]. pose proof (pt_usable _ _ _ Hp) as Hus. rewrite Forall_lookup in Hus. by apply (Hus i (u, v, c)).
Qed.

(** A simple path ends once at its last token: the route pays there what its last swap pays. *)
Lemma path_amount_out nodes out path best (route : Route) : tokens_distinct -> path_to nodes out path -> path <> [] ->
  nodes !! out = Some best -> Forall2 (swap_for nodes) path (rt_swaps route) ->
  Route_amount_out route (addr_of out) = nb_amount best.
Proof.
  intros Hdist Hp Hne Hbest Hs. pose proof (path_addresses_simple _ _ _ Hdist Hp Hne) as Hnd.
  rewrite <- (swaps_path _ _ _ _ _ (pt_linked _ _ _ Hp) Hs Hne) in Hnd. unfold route_path in Hnd.
  destruct (linked_last _ _ _ (pt_linked _ _ _ Hp) Hne) as (u & c & Hl). rewrite last_lookup in Hl.
  destruct (Forall2_lookup_l _ _ _ _ _ Hs Hl) as (s & Hs' & at_u & at_v & ? & ? & _ & Hv & _ & _ & Es). cbn in Hv.
  rewrite Hbest in Hv. injection Hv as <-. rewrite (Forall2_length _ _ _ Hs), <- last_lookup in Hs'.
  apply last_Some in Hs' as (before & Hswaps). unfold Route_amount_out. rewrite Hswaps in Hnd |- *.
  assert (NoDup (sw_token_out <$> (before ++ [s]))) as Hout by (by destruct before; cbn in Hnd |- *; apply NoDup_cons in Hnd as [_ Hnd]).
  rewrite fmap_app in Hout. apply NoDup_app in Hout as (_ & Hdisj & _). rewrite List.filter_app.
  assert (sw_token_out s = addr_of out /\ sw_amount_out s = nb_amount best) as [Ht Ha] by by subst s.
  assert (List.filter (fun s => bool_decide (sw_token_out s = addr_of out)) before = []) as ->.
  { apply (f_equal (@length Swap)) in Hswaps. clear - Hdisj Ht. induction before as [|b before IH]; [done|]. cbn.
    rewrite bool_decide_eq_false_2; [apply IH; intros x Hx; by apply Hdisj; right|].
    intros Hb. apply (Hdisj (sw_token_out b)); [by left|]. rewrite Hb, <- Ht. by left. }
  cbn. rewrite Ht, bool_decide_eq_true_2 by done. cbn. unfold sum_by. cbn. rewrite Ha. lia.
Qed.

(** How a result is read off the arrays. *)
Definition read_off (out : NodeIndex) nodes (result : RouteResult) : Prop := exists path best,
  path_to nodes out path /\ path <> [] /\ nodes !! out = Some best /\ nb_amount best <> 0%N /\
  Forall2 (swap_for nodes) path (rt_swaps (rr_route result)) /\
  (rr_net_amount_out result <= Z.of_N (nb_amount best))%Z /\
  (bc_scoring ctx = GrossOutput -> rr_net_amount_out result = Z.of_N (nb_amount best)).

Lemma read_off_solved nodes amount_in out result : tokens_distinct -> relaxed amount_in nodes ->
  read_off out nodes result -> solved out amount_in result.
Proof.
  intros Hdist Hr (path & best & Hp & Hne & Hbest & Hnz & Hs & Hnet & _).
  by apply (path_route nodes amount_in out path best (rr_route result) Hdist (rl_source _ _ Hr)).
Qed.

(** A solve returns; its route is solved, and an error is that there is no path or that the snapshot
    lacks a component. *)
Lemma find_single_route_solved (order : Order) clock out : bc_token_out_node ctx = Some out -> out <> root ->
  out < bc_max_idx ctx ->
  exists spfa r, run_spfa decimals integer_decode self ctx (order_amount order) overrides clock = Ret spfa /\
    relaxed (order_amount order) (sp_nodes spfa) /\
    find_single_route decimals integer_decode self ctx order overrides clock = Ret r /\
    match r with
    | Ok result => read_off out (sp_nodes spfa) result /\ rr_commitment result = None
    | Err e => component_missing e \/
        exists reason, e = AE_NoPath (order_token_in order) (order_token_out order) reason
    end.
Proof.
  intros Hout Hne Hlt. unfold find_single_route. rewrite Hout.
  destruct (run_spfa_relaxed (order_amount order) clock) as (r & Hrun & Hr). exists r. rewrite Hrun. cbn [mbind outcome_bind].
  destruct (at_index_lt (sp_nodes r) out) as (best & Hbest & ->); [by rewrite (tr_length _ (rl_tree _ _ Hr))|].
  cbn [mbind outcome_bind]. destruct (N.eqb_spec (nb_amount best) 0) as [|Hnz].
  { eexists. split_and!; [done|done|done|]. right. by eexists. }
  destruct (reached_path _ _ _ _ Hr Hbest Hnz) as (path & -> & Hp). cbn [try_bind mbind outcome_bind].
  assert (path <> []) as Hpne by (intros ->; by pose proof (pt_linked _ _ _ Hp)).
  destruct (build_route_spec _ _ _ Hp Hpne) as ([route|e] & -> & Hroute); cbn [try_bind mbind outcome_bind];
    [|eexists; split_and!; [done|done|done|by left]].
  assert (rt_swaps route <> []) as Hswaps by (intros Hnil; rewrite Hnil in Hroute; by inversion Hroute; subst).
  destruct (bc_scoring ctx) eqn:Hscore.
  - eexists. split; [done|]. split; [done|]. split; [done|]. split; [|done]. by exists path, best.
  - edestruct (compute_net_le (nb_amount best) route) as (net & -> & Hle); [done|].
    eexists. split; [done|]. split; [done|]. split; [done|]. split; [|done]. exists path, best. split_and!; try done. by rewrite Hscore.
Qed.

(** ** Gross amounts *)

(** What the hops of a path pay in order, each pool at the state the solve reads. *)
Fixpoint deliver (amount : N) (path : list PathEdge) : option N :=
  match path with
  | [] => Some amount
  | (u, v, c) :: path =>
      token_u ← bc_token_map ctx !! u;
      token_v ← bc_token_map ctx !! v;
      sim ← sim_of ctx overrides c;
      match swap_against sim amount token_u token_v with
      | Ok result => deliver (gao_amount result) path
      | Err _ => None
      end
  end.

(** The pools of a path pay in turn: each is given no more than what reaches it, and what it
    answers is what goes on. A solve improves a node after its successors were relaxed, so a pool may
    have been asked for less than the node has in the end. *)
Inductive paid_along (token_at : NodeIndex -> option Token) (sim_at : ComponentId -> option ZeroGasSim)
    : N -> list PathEdge -> N -> Prop :=
| paid_nothing amount : paid_along token_at sim_at amount [] amount
| paid_hop amount given u v c token_u token_v sim result path out :
    (given <= amount)%N -> token_at u = Some token_u -> token_at v = Some token_v -> sim_at c = Some sim ->
    swap_against sim given token_u token_v = Ok result -> paid_along token_at sim_at (gao_amount result) path out ->
    paid_along token_at sim_at amount ((u, v, c) :: path) out.

(** What the pools of a path pay, at the state the solve reads. *)
#[local] Abbreviation paid := (paid_along (fun u => bc_token_map ctx !! u) (sim_of ctx overrides)).

(** Pools pay no less for more. *)
Definition pays_no_less : Prop := forall c sim token_u token_v a b paid_a paid_b, sim_of ctx overrides c = Some sim ->
  (a <= b)%N -> swap_against sim a token_u token_v = Ok paid_a ->
  swap_against sim b token_u token_v = Ok paid_b -> (gao_amount paid_a <= gao_amount paid_b)%N.

(** The amount of a node was paid for no more than what its predecessor now has. *)
Definition backed nodes : Prop := forall v best u c, nodes !! v = Some best -> nb_predecessor best = Some (u, c) ->
  exists at_u amount token_u token_v sim result, nodes !! u = Some at_u /\ (amount <= nb_amount at_u)%N /\
    bc_token_map ctx !! u = Some token_u /\ bc_token_map ctx !! v = Some token_v /\ sim_of ctx overrides c = Some sim /\
    swap_against sim amount token_u token_v = Ok result /\ gao_amount result = nb_amount best.

Definition at_least (nodes nodes' : list NodeBest) : Prop := forall v best, nodes !! v = Some best ->
  exists best', nodes' !! v = Some best' /\ (nb_amount best <= nb_amount best')%N.

#[local] Instance at_least_preorder : PreOrder at_least.
Proof.
  split; [intros l v best Hv; by exists best|]. intros l1 l2 l3 H12 H23 v best Hv.
  destruct (H12 v best Hv) as (b2 & Hv2 & ?), (H23 v b2 Hv2) as (b3 & Hv3 & ?). exists b3. split; [done|lia].
Qed.

Context (Hgross : gas_aware_price ctx = None).

Lemma improves_at_least nodes nodes' : improves nodes nodes' -> at_least nodes nodes'.
Proof.
  intros [u v c token_u token_v sim at_u at_v result edges below _ _ _ _ _ _ _ _ _ Hv _ Hcmp].
  unfold compare_candidate in Hcmp. rewrite Hgross in Hcmp. apply N.ltb_lt in Hcmp.
  intros x best Hx. destruct (decide (x = v)) as [->|Hne].
  - rewrite Hv in Hx. injection Hx as <-. eexists. split; [by apply list_lookup_insert_eq, (lookup_lt_Some _ _ at_v)|]. lia.
  - exists best. by rewrite list_lookup_insert_ne.
Qed.

Lemma steps_at_least nodes nodes' : rtc improves nodes nodes' -> at_least nodes nodes'.
Proof.
  induction 1 as [|nodes n1 nodes' Hstep _ IH]; [done|]. etransitivity; [by apply improves_at_least|done].
Qed.

Lemma backed_kept : kept backed.
Proof.
  intros nodes nodes' _ Hb Hstep. pose proof (improves_at_least _ _ Hstep) as Hmore.
  destruct Hstep as [u v c token_u token_v sim at_u at_v result edges below Hu Htu Htv _ _ Hc _ Hsim Hat_u Hat_v Hout _].
  intros x best a d [(<- & <- & _)|[Hne Hx]]%list_lookup_insert_Some Hpred.
  - injection Hpred as <- <-. destruct (Hmore u at_u Hat_u) as (at_u' & Hat_u' & Hle).
    exists at_u', (nb_amount at_u), token_u, token_v, sim, result. done.
  - destruct (Hb x best a d Hx Hpred) as (at_a & amount & ta & tx & sim' & res & Ha & Hle & Hrest).
    destruct (Hmore a at_a Ha) as (at_a' & Ha' & Hle'). exists at_a', amount, ta, tx, sim', res.
    split_and!; [done|lia|apply Hrest..].
Qed.

Lemma deliver_snoc amount path hop :
  deliver amount (path ++ [hop]) = paid ← deliver amount path; deliver paid [hop].
Proof.
  revert amount. induction path as [|[[u v] c] path IH]; intros amount; [done|]. cbn [app deliver].
  destruct (bc_token_map ctx !! u); [|done]. destruct (bc_token_map ctx !! v); [|done]. cbn [mbind option_bind].
  destruct (sim_of ctx overrides c); [|done]. cbn [mbind option_bind].
  destruct (swap_against _ _ _ _); [apply IH|done].
Qed.

Lemma backed_deliver nodes amount_in v path best paid : pays_no_less -> backed nodes -> source_kept amount_in nodes ->
  Chain (predecessors nodes) root v path -> nodes !! v = Some best -> deliver amount_in path = Some paid ->
  (nb_amount best <= paid)%N.
Proof.
  intros Hpays Hb Hsrc Hc. revert best paid. induction Hc as [Hr|u v c path Hv Hc IH]; intros best paid Hbest Hpaid.
  - unfold source_kept in Hsrc. rewrite Hsrc in Hbest. injection Hbest as <-. injection Hpaid as <-. done.
  - rewrite (predecessors_lookup _ _ _ Hbest) in Hv. injection Hv as Hv.
    destruct (Hb v best u c Hbest Hv) as (at_u & amount & tu & tv & sim & res & Hu & Hle & Htu & Htv & Hsim & Hout & <-).
    rewrite deliver_snoc in Hpaid. destruct (deliver amount_in path) as [before|] eqn:Hbefore; [|done].
    cbn in Hpaid. rewrite Htu, Htv in Hpaid. cbn in Hpaid. rewrite Hsim in Hpaid. cbn in Hpaid.
    destruct (swap_against sim before tu tv) as [res'|] eqn:Hout'; [|done]. injection Hpaid as <-.
    apply (Hpays c sim tu tv amount before); [done| |done|done]. specialize (IH at_u before Hu eq_refl). lia.
Qed.

Lemma paid_snoc amount path given u v c token_u token_v sim result mid : paid amount path mid -> (given <= mid)%N ->
  bc_token_map ctx !! u = Some token_u -> bc_token_map ctx !! v = Some token_v -> sim_of ctx overrides c = Some sim ->
  swap_against sim given token_u token_v = Ok result -> paid amount (path ++ [(u, v, c)]) (gao_amount result).
Proof.
  induction 1 as [amount|amount g a b d ta tb sim' res path out Hle Ha Hb Hd Hs _ IH]; intros Hgiven Hu Hv Hsim Hswap; cbn [app].
  - eapply paid_hop; [exact Hgiven|done..|constructor].
  - eapply paid_hop; [exact Hle|done..|]. by apply IH.
Qed.

Lemma backed_paid nodes amount_in v path best : backed nodes -> source_kept amount_in nodes ->
  Chain (predecessors nodes) root v path -> nodes !! v = Some best -> paid amount_in path (nb_amount best).
Proof.
  intros Hb Hsrc Hc. revert best. induction Hc as [Hr|u v c path Hv Hc IH]; intros best Hbest.
  - unfold source_kept in Hsrc. rewrite Hsrc in Hbest. injection Hbest as <-. constructor.
  - rewrite (predecessors_lookup _ _ _ Hbest) in Hv. injection Hv as Hv.
    destruct (Hb v best u c Hbest Hv) as (at_u & amount & tu & tv & sim & res & Hu & Hle & Htu & Htv & Hsim & Hout & <-).
    by eapply paid_snoc; [apply (IH at_u Hu)|exact Hle|..].
Qed.

Lemma relaxed_backed amount_in nodes : relaxed amount_in nodes -> backed nodes.
Proof.
  intros Hr. apply (kept_steps _ _ _ backed_kept (spfa_start_tree amount_in)); [|apply (rl_steps _ _ Hr)].
  intros v best u c [(_ & <- & _)|[_ Hv]]%list_lookup_insert_Some Hp; [done|].
  by apply lookup_replicate in Hv as [-> _].
Qed.

(** Without gas in the comparison, every path of a relaxation is paid for by its pools. *)
Lemma relaxed_paid amount_in nodes v path best : relaxed amount_in nodes -> path_to nodes v path -> nodes !! v = Some best ->
  paid amount_in path (nb_amount best).
Proof. intros Hr Hp. apply backed_paid; [by eapply relaxed_backed|apply (rl_source _ _ Hr)|apply (pt_chain _ _ _ Hp)]. Qed.

(** ** The first round *)

Lemma relax_edge_pays u token_u v c token_v sim at_u result st st' : path_has_conflict u v c (predecessors (rx_nodes st)) = Ret false ->
  connector_allows self ctx v = true -> bc_token_map ctx !! v = Some token_v -> sim_of ctx overrides c = Some sim ->
  rx_nodes st !! u = Some at_u -> swap_against sim (nb_amount at_u) token_u token_v = Ok result ->
  relax_edge decimals integer_decode self ctx overrides u token_u st (v, c) = Ret st' ->
  exists best, rx_nodes st' !! v = Some best /\ (gao_amount result <= nb_amount best)%N.
Proof.
  intros Hc Hconn Hv Hsim Hu Hout. unfold relax_edge. rewrite Hc, Hconn, Hv, Hsim. cbn [mbind outcome_bind negb].
  rewrite (at_index_Some _ _ _ Hu). cbn [mbind outcome_bind]. rewrite Hout. unfold at_index.
  destruct (rx_nodes st !! v) as [at_v|] eqn:Hat_v; [|done]. cbn [mbind outcome_bind].
  unfold compare_candidate. rewrite Hgross. cbn [nb_amount candidate].
  destruct (N.ltb_spec (nb_amount at_v) (gao_amount result)); intros [= <-]; cbn; [|by exists at_v].
  eexists. split; [by apply list_lookup_insert_eq, (lookup_lt_Some _ _ at_v)|]. done.
Qed.

(** Some pool takes the source's amount to a node in one hop. *)
Definition direct (amount_in : N) v paid : Prop := exists token_in token_v edges c sim result,
  bc_token_map ctx !! root = Some token_in /\ bc_adj ctx !! root = Some edges /\ (v, c) ∈ edges /\ v <> root /\
  connector_allows self ctx v = true /\ bc_token_map ctx !! v = Some token_v /\ sim_of ctx overrides c = Some sim /\
  swap_against sim amount_in token_in token_v = Ok result /\ gao_amount result = paid.

Definition has_at_least v paid (st : Relaxation) : Prop :=
  exists best, rx_nodes st !! v = Some best /\ (paid <= nb_amount best)%N.

Lemma has_at_least_steps v paid st st' : has_at_least v paid st -> stepped st st' -> has_at_least v paid st'.
Proof.
  intros (best & Hv & Hle) Hsteps. destruct (steps_at_least _ _ Hsteps v best Hv) as (best' & Hv' & ?).
  exists best'. split; [done|lia].
Qed.

Lemma relax_source_direct amount_in v paid st : direct amount_in v paid -> amount_in <> 0%N -> round_ok st ->
  source_kept amount_in (rx_nodes st) ->
  exists st', relax_node decimals integer_decode self ctx overrides st root = Ret st' /\ round_ok st' /\ has_at_least v paid st'.
Proof.
  intros (tin & tv & edges & c & sim & result & Htin & Hadj & Hin & Hne & Hconn & Htv & Hsim & Hout & <-) Hnz Hst Hsrc.
  unfold relax_node, at_index. unfold source_kept in Hsrc. rewrite Hsrc. cbn [mbind outcome_bind nb_amount source_best].
  rewrite (proj2 (N.eqb_neq _ _) Hnz), Htin, Hadj.
  destruct (fold_outcome_reach (fun st => round_ok st /\ source_kept amount_in (rx_nodes st)) stepped
    (has_at_least v (gao_amount result)) (relax_edge decimals integer_decode self ctx overrides root tin) edges (v, c) st)
    as (st' & -> & [Hst' _] & Hv); [| | |done|done|by exists st'].
  - intros a edge [Ha Hs] Hedge.
    destruct (relax_edge_steps root tin edges a edge Ha (root_rooted _ (proj1 Ha)) Htin Hadj Hedge) as (a' & -> & Ha' & Hsteps).
    exists a'. split; [done|]. split; [|exact Hsteps]. split; [done|].
    by apply (kept_steps _ _ _ (source_is_kept amount_in) (proj1 Ha)).
  - intros a a' [Ha Hs] Hedge. pose proof (fo_root _ _ (tr_forest _ (proj1 Ha))) as Hr.
    destruct (path_has_conflict_chain _ _ _ _ v c (chain_root _ _ Hr)) as (b & Hb & Hiff).
    assert (b = false) as -> by (apply Hiff; split; [by intros [?|[]%elem_of_nil]%elem_of_cons|by intros []%elem_of_nil]).
    by apply (relax_edge_pays root tin v c tv sim (source_best amount_in) result a).
  - intros a a'. apply has_at_least_steps.
Qed.

Lemma run_spfa_direct amount_in clock v paid spfa : direct amount_in v paid -> amount_in <> 0%N ->
  bf_max_hops self <> 0 -> (clock O < bf_timeout self)%N ->
  run_spfa decimals integer_decode self ctx amount_in overrides clock = Ret spfa ->
  exists best, sp_nodes spfa !! v = Some best /\ (paid <= nb_amount best)%N.
Proof.
  intros Hd Hnz Hhops Htime. unfold run_spfa. destruct (at_index _ _); [|done]. cbn [mbind outcome_bind].
  destruct (bf_max_hops self) as [|n]; [done|]. cbn [spfa_rounds].
  destruct (N.leb_spec (bf_timeout self) (clock 0)); [lia|]. cbn [fold_outcome].
  edestruct (relax_source_direct amount_in v paid {| rx_nodes := spfa_start amount_in; rx_input_below_hop_gas := false;
    rx_next_active := ∅ |} Hd Hnz) as (st & Hst & [Ht Hnext] & Hv).
  - split; [apply spfa_start_tree|set_solver].
  - apply list_lookup_insert_eq. rewrite length_replicate. apply (cx_root Hctx).
  - unfold spfa_start in Hst. rewrite Hst. cbn [mbind outcome_bind]. intros Hrun.
    edestruct (spfa_rounds_steps clock n 1 (merge_sort le (elements (rx_next_active st))) (rx_nodes st)
      (rx_input_below_hop_gas st) Ht) as (r & Hr & _ & Hsteps).
    + intros y. rewrite merge_sort_Permutation. intros Hy%elem_of_elements. by apply Hnext.
    + rewrite Hr in Hrun. injection Hrun as <-. destruct Hv as (best & Hbest & Hle).
      destruct (steps_at_least _ _ Hsteps v best Hbest) as (best' & Hbest' & ?). exists best'. split; [done|lia].
Qed.
End relaxation.

(** ** The walk of the distances *)

Section walks.
Context `{NodeGraph (EdgeData ())} (graph : digraph) (endpoints : NodeIndex * NodeIndex).
Context (constraints : ResolvedRouteConstraints).
Implicit Types (u v : NodeIndex) (hops : gmap NodeIndex nat).

(** An edge of the graph that the constraints let a route cross. *)
Definition crossable (hop : PathEdge) : Prop := exists data,
  (hop.1.2, data) ∈ edges_from graph hop.1.1 /\ ed_component_id data = hop.2 /\
  can_cross graph (hop.1.2, data) endpoints constraints = true.

(** What is [k] crossable hops from a source. *)
Inductive near (sources : list NodeIndex) : nat -> NodeIndex -> Prop :=
| near_source v : v ∈ sources -> near sources 0 v
| near_hop k u v c : near sources k u -> crossable (u, v, c) -> near sources (S k) v.

(** One level from [hops]: what is added has the level's depth and is next. *)
Definition level_of (depth : nat) hops (st : gmap NodeIndex nat * list NodeIndex) : Prop :=
  hops ⊆ st.1 /\ forall v d, st.1 !! v = Some d -> hops !! v = Some d \/ d = depth /\ v ∈ st.2.

Lemma reach_edge_level depth hops st edge : level_of depth hops st ->
  let st' := reach_edge graph endpoints constraints depth st edge in
  level_of depth hops st' /\ st.1 ⊆ st'.1 /\
  (can_cross graph edge endpoints constraints = true -> is_Some (st'.1 !! edge.1)).
Proof.
  destruct st as [known next]. intros [Hsub Hlev]. unfold reach_edge. cbn in *.
  case_bool_decide as Hk; cbn [orb]; [done|]. destruct (can_cross _ _ _ _); cbn [negb]; [|done].
  apply eq_None_not_Some in Hk. assert (known ⊆ <[edge.1 := depth]> known) as Hins by by apply insert_subseteq.
  split; [split|]; cbn; [by etransitivity| |split; [done|]; intros _; by rewrite lookup_insert_eq].
  intros v d [[<- <-]|[_ Hv]]%lookup_insert_Some; [right; set_solver|].
  destruct (Hlev v d Hv) as [|[-> Hin]]; [by left|right; set_solver].
Qed.

Lemma reach_node_level depth hops st u : level_of depth hops st ->
  let st' := reach_node graph endpoints constraints depth st u in
  level_of depth hops st' /\ st.1 ⊆ st'.1 /\ forall v c, crossable (u, v, c) -> is_Some (st'.1 !! v).
Proof.
  unfold reach_node. intros Hlev.
  cut (let st' := fold_left (reach_edge graph endpoints constraints depth) (edges_from graph u) st in
    level_of depth hops st' /\ st.1 ⊆ st'.1 /\ forall edge, edge ∈ edges_from graph u ->
      can_cross graph edge endpoints constraints = true -> is_Some (st'.1 !! edge.1)).
  { intros (? & ? & Hall). split_and!; [done|done|]. intros v c (data & Hin & _ & Hcross). by apply (Hall (v, data)). }
  revert st Hlev. induction (edges_from graph u) as [|edge edges IH]; intros st Hlev; cbn [fold_left].
  { split_and!; [done|done|]. by intros ? []%elem_of_nil. }
  destruct (reach_edge_level depth hops st edge Hlev) as (Hlev1 & Hsub1 & Hedge). destruct (IH _ Hlev1) as (Hlev' & Hsub' & Hall).
  split_and!; [done|by etransitivity|]. intros e [->|He]%elem_of_cons Hcross; [|by apply Hall].
  destruct (Hedge Hcross) as [d Hd]. exists d. by apply (lookup_weaken _ _ _ _ Hd).
Qed.

Lemma level_spec depth hops st frontier : level_of depth hops st ->
  let st' := fold_left (reach_node graph endpoints constraints depth) frontier st in
  level_of depth hops st' /\ st.1 ⊆ st'.1 /\
  forall u v c, u ∈ frontier -> crossable (u, v, c) -> is_Some (st'.1 !! v).
Proof.
  revert st. induction frontier as [|u frontier IH]; intros st Hlev; cbn [fold_left].
  { split_and!; [done|done|]. by intros ? ? ? []%elem_of_nil. }
  destruct (reach_node_level depth hops st u Hlev) as (Hlev1 & Hsub1 & Hu). destruct (IH _ Hlev1) as (Hlev' & Hsub' & Hall).
  split_and!; [done|by etransitivity|]. intros x v c [->|Hx]%elem_of_cons Hcross; [|by apply (Hall x v c)].
  destruct (Hu v c Hcross) as [d Hd]. exists d. by apply (lookup_weaken _ _ _ _ Hd).
Qed.

(** The levels below [S depth] are complete, and those below [depth] are explored. *)
Record levels (depth : nat) hops (frontier : list NodeIndex) : Prop := {
  lv_bound : forall v d, hops !! v = Some d -> d <= depth;
  lv_frontier : forall v, hops !! v = Some depth -> v ∈ frontier;
  lv_explored : forall u v c d, hops !! u = Some d -> d < depth -> crossable (u, v, c) ->
    exists d', hops !! v = Some d' /\ d' <= S d;
}.

Lemma reach_levels_spec n depth hops frontier : levels depth hops frontier ->
  let hops' := reach_levels graph endpoints constraints n (S depth) hops frontier in
  hops ⊆ hops' /\ exists frontier', levels (depth + n) hops' frontier'.
Proof.
  revert depth hops frontier. induction n as [|n IH]; intros depth hops frontier Hlv; cbn [reach_levels].
  { split; [done|]. exists frontier. by rewrite Nat.add_0_r. }
  destruct (level_spec (S depth) hops (hops, []) frontier) as ([Hsub Hnew] & _ & Hall).
  { split; [done|]. intros v d Hv. by left. }
  destruct (fold_left _ frontier (hops, [])) as [hops1 next]. cbn in Hsub, Hnew, Hall.
  destruct (IH (S depth) hops1 next) as [Hsub' [frontier' Hlv']].
  - split.
    + intros v d Hv. destruct (Hnew v d Hv) as [Hold|[-> _]]; [|done]. apply (lv_bound _ _ _ Hlv) in Hold. lia.
    + intros v Hv. destruct (Hnew v _ Hv) as [Hold|[_ Hin]]; [|done]. apply (lv_bound _ _ _ Hlv) in Hold. lia.
    + intros u v c d Hu Hd Hcross. destruct (Hnew u d Hu) as [Hold|[-> _]]; [|lia].
      destruct (decide (d = depth)) as [->|Hne].
      * destruct (Hall u v c (lv_frontier _ _ _ Hlv _ Hold) Hcross) as [d' Hd']. exists d'. split; [done|].
        destruct (Hnew v d' Hd') as [Hold'|[-> _]]; [|done]. apply (lv_bound _ _ _ Hlv) in Hold'. lia.
      * destruct (lv_explored _ _ _ Hlv u v c d Hold ltac:(lia) Hcross) as (d' & Hd' & Hle).
        exists d'. split; [by apply (lookup_weaken _ _ _ _ Hd')|done].
  - split; [by etransitivity|]. exists frontier'. by replace (depth + S n) with (S depth + n) by lia.
Qed.

Lemma sources_zero (sources : list NodeIndex) : exists frontier,
  levels 0 (fold_left (fun hops source => <[source := 0]> hops) sources ∅) frontier /\ frontier = sources /\
  forall v, v ∈ sources -> fold_left (fun hops source => <[source := 0]> hops) sources (∅ : gmap NodeIndex nat) !! v = Some 0.
Proof.
  assert (forall m v, fold_left (fun hops source => <[source := 0]> hops) sources m !! v
    = if decide (v ∈ sources) then Some 0 else (m : gmap NodeIndex nat) !! v) as Hl.
  { induction sources as [|x sources IH]; intros m v; cbn [fold_left].
    - by rewrite decide_False by apply not_elem_of_nil.
    - rewrite IH. destruct (decide (v ∈ sources)) as [Hin|Hout]; [rewrite decide_True by (by right); done|].
      destruct (decide (v = x)) as [->|Hne]; [rewrite lookup_insert_eq, decide_True by left; done|].
      rewrite lookup_insert_ne by done. rewrite decide_False; [done|]. by intros [?|?]%elem_of_cons. }
  exists sources. split_and!; [split|done|intros v Hv; rewrite Hl; by rewrite decide_True].
  - intros v d. rewrite Hl, lookup_empty. case_decide; [|done]. intros [= <-]. lia.
  - intros v. rewrite Hl, lookup_empty. by case_decide.
  - intros u v c d _ Hd. lia.
Qed.

(** Whatever is near enough to a source has a distance that says so. *)
Lemma get_hops_complete sources max_hops k v : near sources k v -> k <= max_hops ->
  exists d, get_hops_to_reach_any graph endpoints constraints sources max_hops !! v = Some d /\ d <= k.
Proof.
  unfold get_hops_to_reach_any. destruct (sources_zero sources) as (frontier & Hlv & -> & Hzero).
  destruct (reach_levels_spec max_hops 0 _ _ Hlv) as [Hsub [frontier' Hlv']]. cbn [Nat.add] in Hlv'.
  induction 1 as [v Hv|k u v c Hnear IH Hcross]; intros Hk.
  - exists 0. split; [|done]. apply (lookup_weaken _ _ _ _ (Hzero v Hv)), Hsub.
  - destruct (IH ltac:(lia)) as (d & Hd & Hle).
    destruct (lv_explored _ _ _ Hlv' u v c d Hd ltac:(lia) Hcross) as (d' & Hd' & ?). exists d'. split; [done|lia].
Qed.

(** ** The walk of the subgraph *)

Section subgraph_walk.
Context (hop_map : option (gmap NodeIndex nat)) (max_hops : nat) (token_in : NodeIndex).
Implicit Types (st : Walk) (done_nodes : list (NodeIndex * nat)).

#[local] Abbreviation crossing := (walk_edge graph endpoints constraints hop_map max_hops).

(** An edge that the walk keeps from a depth. *)
Definition kept_edge (depth : nat) (hop : PathEdge) : Prop :=
  crossable hop /\ enough_hops_left hop_map max_hops hop.1.2 depth = true.

(** What the walk has collected of a hop. *)
Definition collected st (hop : PathEdge) : Prop :=
  (exists edges, wk_adj st !! hop.1.1 = Some edges /\ (hop.1.2, hop.2) ∈ edges) /\
  hop.1.2 ∈ wk_token_nodes st /\ hop.2 ∈ wk_component_ids st.

(** The nodes met, those that have left the queue first: each once, in the order of their depths. *)
Record met done_nodes st : Prop := {
  mt_visited : forall v, v ∈ wk_visited st <-> exists d, (v, d) ∈ done_nodes ++ wk_queue st;
  mt_once : NoDup (done_nodes ++ wk_queue st).*1;
  mt_sorted : StronglySorted (fun x y => x.2 <= y.2) (done_nodes ++ wk_queue st);
  mt_nodes : forall v d, (v, d) ∈ done_nodes ++ wk_queue st -> is_Some (node_weight graph v);
}.

(** Between two nodes: the edges of those that have left are collected. *)
Record walking done_nodes st : Prop := {
  wg_met : met done_nodes st;
  wg_close : forall x y, x ∈ wk_queue st -> y ∈ done_nodes ++ wk_queue st -> y.2 <= S x.2;
  wg_edges : forall u v c d, (u, d) ∈ done_nodes -> d < max_hops -> kept_edge d (u, v, c) ->
    collected st (u, v, c) /\ exists d', (v, d') ∈ done_nodes ++ wk_queue st /\ d' <= S d;
}.

(** Within the edges of a node of depth [d]. *)
Record at_depth done_nodes (d : nat) st : Prop := {
  ad_met : met done_nodes st;
  ad_low : forall y, y ∈ done_nodes ++ wk_queue st -> y.2 <= S d;
  ad_queue : forall x, x ∈ wk_queue st -> d <= x.2;
}.

(** What walking an edge adds. *)
Definition grows st st' : Prop :=
  (exists added, wk_queue st' = wk_queue st ++ added) /\ (forall hop, collected st hop -> collected st' hop).

#[local] Instance grows_preorder : PreOrder grows.
Proof.
  split; [intros st; split; [exists []; by rewrite app_nil_r|done]|].
  intros s1 s2 s3 [[a1 Hq1] Hc1] [[a2 Hq2] Hc2]. split; [|auto]. exists (a1 ++ a2). by rewrite Hq2, Hq1, app_assoc.
Qed.

Lemma grows_met st st' done_nodes x : grows st st' -> x ∈ done_nodes ++ wk_queue st -> x ∈ done_nodes ++ wk_queue st'.
Proof. intros [[added ->] _]. set_solver. Qed.

Lemma sorted_snoc (l : list (NodeIndex * nat)) x : StronglySorted (fun x y => x.2 <= y.2) l ->
  (forall y, y ∈ l -> y.2 <= x.2) -> StronglySorted (fun x y => x.2 <= y.2) (l ++ [x]).
Proof.
  intros Hs Hx. apply StronglySorted_app_2; [|done|by repeat constructor].
  intros y z Hy ->%list_elem_of_singleton. by apply Hx.
Qed.

Context (Hclosed : forall u v data, (v, data) ∈ edges_from graph u -> is_Some (node_weight graph v)).

Lemma walk_edge_spec done_nodes d u st v data : at_depth done_nodes d st -> (v, data) ∈ edges_from graph u ->
  let st' := crossing u d st (v, data) in
  at_depth done_nodes d st' /\ grows st st' /\
  (can_cross graph (v, data) endpoints constraints = true -> enough_hops_left hop_map max_hops v d = true ->
   collected st' (u, v, ed_component_id data) /\ exists d', (v, d') ∈ done_nodes ++ wk_queue st' /\ d' <= S d).
Proof.
  intros Hat Hin. cbn zeta. unfold walk_edge.
  destruct (can_cross _ _ _ _); cbn [negb]; [|done].
  destruct (enough_hops_left _ _ _ _); cbn [negb]; [|done].
  pose proof Hat as [[Hvis Honce Hsort Hnodes] Hlow Hqueue].
  assert (forall hop queue vis, collected st hop -> collected {|
    wk_adj := <[u := default [] (wk_adj st !! u) ++ [(v, ed_component_id data)]]> (wk_adj st);
    wk_token_nodes := {[ v ]} ∪ wk_token_nodes st; wk_component_ids := {[ ed_component_id data ]} ∪ wk_component_ids st;
    wk_visited := vis; wk_queue := queue |} hop) as Hkeep.
  { intros [[a b] c] queue vis [(edges & Ha & Hb) [Ht Hc]]. cbn in *. split; [|set_solver].
    cbn. destruct (decide (u = a)) as [->|Hne].
    - rewrite lookup_insert_eq. eexists. split; [done|]. rewrite Ha. cbn. set_solver.
    - rewrite lookup_insert_ne by done. by exists edges. }
  assert (forall queue vis, collected {|
    wk_adj := <[u := default [] (wk_adj st !! u) ++ [(v, ed_component_id data)]]> (wk_adj st);
    wk_token_nodes := {[ v ]} ∪ wk_token_nodes st; wk_component_ids := {[ ed_component_id data ]} ∪ wk_component_ids st;
    wk_visited := vis; wk_queue := queue |} (u, v, ed_component_id data)) as Hnew.
  { intros queue vis. split; [|set_solver]. cbn. rewrite lookup_insert_eq. eexists. split; [done|]. set_solver. }
  case_bool_decide as Hfresh.
  - assert (forall y, y ∈ done_nodes ++ wk_queue st -> y.2 <= S d) as Hlow' by done.
    split; [split; [split|..]|split; [split|]]; cbn [wk_visited wk_queue]; rewrite ?app_assoc.
    + intros x. rewrite elem_of_union, elem_of_singleton, Hvis. setoid_rewrite elem_of_app at 2. split.
      * intros [->|[d' Hx]]; [exists (S d); right; by left|exists d'; by left].
      * intros [d' [Hx|[= -> ->]%list_elem_of_singleton]]; [right; by exists d'|by left].
    + rewrite fmap_app. apply NoDup_app. split_and!; [done| |apply NoDup_singleton].
      intros x ([x' d'] & -> & Hx)%list_elem_of_fmap Heq%list_elem_of_singleton. cbn in Heq. subst x'.
      apply Hfresh, Hvis. by exists d'.
    + by apply sorted_snoc.
    + intros x d' [Hx|[= -> ->]%list_elem_of_singleton]%elem_of_app; [by apply (Hnodes x d')|by apply (Hclosed u v data)].
    + intros y [Hy| ->%list_elem_of_singleton]%elem_of_app; [by apply Hlow|done].
    + intros y [Hy| ->%list_elem_of_singleton]%elem_of_app; [by apply Hqueue|cbn; lia].
    + by eexists.
    + intros hop. apply Hkeep.
    + intros _ _. split; [apply Hnew|]. exists (S d). split; [set_solver|done].
  - apply Hvis in Hfresh as (d' & Hv).
    split; [split; [split|..]|split; [split|]]; cbn [wk_visited wk_queue]; try done.
    + intros x. rewrite elem_of_union, elem_of_singleton, Hvis. split; [|by right]. intros [->|Hx]; [by exists d'|done].
    + exists []. by rewrite app_nil_r.
    + intros hop. apply Hkeep.
    + intros _ _. split; [apply Hnew|]. exists d'. split; [done|]. by apply (Hlow _ Hv).
Qed.

Lemma walk_edges_spec done_nodes d u st edges : at_depth done_nodes d st -> (forall e, e ∈ edges -> e ∈ edges_from graph u) ->
  let st' := fold_left (crossing u d) edges st in
  at_depth done_nodes d st' /\ grows st st' /\
  forall v data, (v, data) ∈ edges -> can_cross graph (v, data) endpoints constraints = true ->
    enough_hops_left hop_map max_hops v d = true ->
    collected st' (u, v, ed_component_id data) /\ exists d', (v, d') ∈ done_nodes ++ wk_queue st' /\ d' <= S d.
Proof.
  revert st. induction edges as [|[v data] edges IH]; intros st Hat Hin; cbn [fold_left].
  { split_and!; [done|done|]. by intros ? ? []%elem_of_nil. }
  destruct (walk_edge_spec done_nodes d u st v data Hat (Hin _ ltac:(left))) as (Hat1 & Hg1 & Hedge).
  destruct (IH _ Hat1) as (Hat' & Hg' & Hall); [intros e He; apply Hin; by right|].
  split_and!; [done|by etransitivity|]. intros x data' [[= -> ->]|Hx]%elem_of_cons Hcross Henough; [|by apply Hall].
  destruct (Hedge Hcross Henough) as (Hcol & d' & Hd' & Hle). split; [by apply Hg'|].
  exists d'. split; [by apply (grows_met _ _ _ _ Hg')|done].
Qed.

(** Taking a node off the queue. *)
Lemma walk_node_spec done_nodes st u d queue : walking done_nodes st -> wk_queue st = (u, d) :: queue ->
  let st1 := pop st queue in
  let st' := if max_hops <=? d then st1 else fold_left (crossing u d) (edges_from graph u) st1 in
  walking (done_nodes ++ [(u, d)]) st' /\ grows st1 st'.
Proof.
  intros [[Hvis Honce Hsort Hnodes] Hclose Hedges] Hq. cbn zeta.
  assert (done_nodes ++ wk_queue st = (done_nodes ++ [(u, d)]) ++ queue) as Hall by (rewrite Hq, <- app_assoc; done).
  rewrite Hall in *. rewrite Hq in Hclose.
  assert (at_depth (done_nodes ++ [(u, d)]) d (pop st queue)) as Hat.
  { split; [split; done| |].
    - intros y Hy. by apply (Hclose (u, d) y ltac:(left)).
    - intros x Hx. cbn in Hx. rewrite <- app_assoc in Hsort. apply StronglySorted_app_1_r in Hsort.
      cbn in Hsort. apply StronglySorted_inv in Hsort as [_ Hd]. rewrite Forall_forall in Hd. by apply (Hd x). }
  set (st' := if max_hops <=? d then _ else _).
  assert (at_depth (done_nodes ++ [(u, d)]) d st' /\ grows (pop st queue) st' /\
    (d < max_hops -> forall v data, (v, data) ∈ edges_from graph u -> can_cross graph (v, data) endpoints constraints = true ->
       enough_hops_left hop_map max_hops v d = true -> collected st' (u, v, ed_component_id data) /\
       exists d', (v, d') ∈ (done_nodes ++ [(u, d)]) ++ wk_queue st' /\ d' <= S d)) as (Hat' & Hg & Hnew).
  { subst st'. destruct (Nat.leb_spec max_hops d); [split_and!; [done|done|lia]|].
    destruct (walk_edges_spec _ d u _ (edges_from graph u) Hat) as (? & ? & ?); [done|]. done. }
  clearbody st'. split; [|done]. destruct Hat' as [Hmet Hlow Hqueue]. split; [done| |].
  - intros x y Hx Hy. specialize (Hlow y Hy). specialize (Hqueue x Hx). lia.
  - intros a v c e [Hin|[= -> ->]%list_elem_of_singleton]%elem_of_app Hlt Hkept.
    + destruct (Hedges a v c e Hin Hlt Hkept) as (Hcol & d' & Hd' & Hle). split; [by apply Hg|].
      exists d'. split; [by apply (grows_met _ _ _ _ Hg)|done].
    + destruct Hkept as [(data & Hdata & Hc & Hcross) Henough]. cbn in *. subst c. by apply Hnew.
Qed.

(** The walk ends with the queue empty, and every node met walked. *)
Lemma walk_from_spec fuel done_nodes st : walking done_nodes st ->
  length (node_indices graph) < fuel + length done_nodes ->
  let st' := walk_from graph endpoints constraints hop_map max_hops fuel st in
  wk_queue st' = [] /\ exists rest, walking (done_nodes ++ rest) st' /\
    forall x, x ∈ wk_queue st -> x ∈ rest.
Proof.
  revert done_nodes st. induction fuel as [|fuel IH]; intros done_nodes st Hw Hfuel; cbn [walk_from].
  - exfalso. destruct Hw as [[_ Honce _ Hnodes] _ _].
    assert ((done_nodes ++ wk_queue st).*1 ⊆+ node_indices graph) as Hsub%submseteq_length.
    { apply NoDup_submseteq; [done|]. intros x ([v d] & -> & Hin)%list_elem_of_fmap.
      apply node_indices_spec. by apply (Hnodes v d). }
    rewrite length_fmap, length_app in Hsub. lia.
  - destruct (wk_queue st) as [|[u d] queue] eqn:Hq.
    { split; [done|]. exists []. rewrite app_nil_r. split; [done|]. by intros ? []%elem_of_nil. }
    destruct (walk_node_spec _ _ _ _ _ Hw Hq) as [Hw' Hg]. cbn zeta in *.
    destruct (IH (done_nodes ++ [(u, d)]) _ Hw') as (Hnil & rest & Hrest & Hmem); [rewrite length_app; cbn; lia|].
    split; [done|]. exists ((u, d) :: rest). rewrite <- app_assoc in Hrest. split; [done|].
    intros x [->|Hx]%elem_of_cons; [by left|]. right. apply Hmem. destruct Hg as [[added ->] _]. set_solver.
Qed.

Lemma walk_start_walking : is_Some (node_weight graph token_in) -> walking [] (start_walk token_in).
Proof.
  intros Hin. split; [split| |]; cbn.
  - intros v. rewrite elem_of_singleton. split; [intros ->; exists 0; by left|]. by intros [d [= -> _]%list_elem_of_singleton].
  - apply NoDup_singleton.
  - by repeat constructor.
  - by intros v d [= -> _]%list_elem_of_singleton.
  - intros x y ->%list_elem_of_singleton ->%list_elem_of_singleton. cbn. lia.
  - intros u v c d []%elem_of_nil.
Qed.

(** What the walk keeps, edge by edge. *)
Lemma walk_from_inv (P : Walk -> Prop) fuel st : (forall st queue, P st -> P (pop st queue)) ->
  (forall u d st edge, P st -> edge ∈ edges_from graph u -> P (crossing u d st edge)) ->
  P st -> P (walk_from graph endpoints constraints hop_map max_hops fuel st).
Proof.
  intros Hpop Hedge. revert st. induction fuel as [|fuel IH]; intros st Hst; cbn [walk_from]; [done|].
  destruct (wk_queue st) as [|[u d] queue]; [done|]. apply IH. destruct (max_hops <=? d); [by apply Hpop|].
  apply (Hpop _ queue) in Hst. revert Hst. generalize (pop st queue).
  assert (forall e, e ∈ edges_from graph u -> e ∈ edges_from graph u) as Hall by done.
  revert Hall. generalize (edges_from graph u) at 1 3. intros edges.
  induction edges as [|e edges IHe]; intros Hall st' Hst'; cbn; [done|].
  apply IHe; [intros x Hx; apply Hall; by right|]. apply Hedge; [done|apply Hall; by left].
Qed.

(** Nothing is collected that may not be crossed. *)
Definition walk_sound st : Prop :=
  (forall u edges v c, wk_adj st !! u = Some edges -> (v, c) ∈ edges -> crossable (u, v, c)) /\
  (forall v, v ∈ wk_token_nodes st -> is_Some (node_weight graph v)).

Lemma walk_edge_sound u d st edge : walk_sound st -> edge ∈ edges_from graph u -> walk_sound (crossing u d st edge).
Proof.
  destruct edge as [v data]. intros [Hs Hn] Hin. unfold walk_edge.
  destruct (can_cross _ _ _ _) eqn:Hcross; cbn [negb]; [|done]. destruct (enough_hops_left _ _ _ _); cbn [negb]; [|done].
  split; [|cbn; intros x [->%elem_of_singleton|Hx]%elem_of_union; [by apply (Hclosed u v data)|by apply Hn]].
  intros a edges b c Ha Hb. cbn in Ha. apply lookup_insert_Some in Ha as [[<- <-]|[_ Ha]]; [|by apply (Hs a edges)].
  apply elem_of_app in Hb as [Hb|[= -> ->]%list_elem_of_singleton]; [|by exists data].
  destruct (wk_adj st !! u) as [old|] eqn:Hold; [by apply (Hs u old)|by apply elem_of_nil in Hb].
Qed.

Lemma walk_from_sound fuel st : walk_sound st -> walk_sound (walk_from graph endpoints constraints hop_map max_hops fuel st).
Proof. apply walk_from_inv; [done|intros u d st' edge; apply walk_edge_sound]. Qed.

(** Every hop of a route that can still be finished is collected. *)
Lemma route_collected done_nodes st u d path to : walking done_nodes st -> wk_queue st = [] -> (u, d) ∈ done_nodes ->
  linked u path to -> Forall crossable path -> d + length path <= max_hops ->
  (forall v rest, linked v rest to -> Forall crossable rest -> length rest < length path ->
     (exists hop, hop ∈ path /\ hop.1.2 = v) ->
     enough_hops_left hop_map max_hops v (max_hops - S (length rest)) = true) ->
  Forall (collected st) path.
Proof.
  intros Hw Hq. revert u d. induction path as [|[[a b] c] path IH]; intros u d Hu Hl Hcross Hlen Hleft; [done|].
  destruct Hl as [-> Hl]. apply Forall_cons in Hcross as [Hhop Hcross]. cbn in Hlen.
  assert (enough_hops_left hop_map max_hops b d = true) as Henough.
  { specialize (Hleft b path Hl Hcross ltac:(cbn; lia) ltac:(exists (u, b, c); split; [by left|done])).
    unfold enough_hops_left in *. destruct hop_map as [hops|]; [|done]. destruct (hops !! b); [|done].
    apply negb_true_iff, Nat.ltb_ge in Hleft. apply negb_true_iff, Nat.ltb_ge. lia. }
  destruct (wg_edges _ _ Hw u b c d Hu ltac:(lia) (conj Hhop Henough)) as (Hcol & d' & Hb & Hle).
  rewrite Hq, app_nil_r in Hb. constructor; [done|]. apply (IH b d'); [done|done|done|lia|].
  intros v rest Hv Hrest Hlt (hop & Hin & Heq). apply Hleft; [done|done|cbn; lia|]. exists hop. split; [by right|done].
Qed.
End subgraph_walk.

(** ** Trading both ways *)

Definition two_way : Prop := forall u v data, (v, data) ∈ edges_from graph u ->
  exists data', (u, data') ∈ edges_from graph v /\ ed_component_id data' = ed_component_id data.

Lemma near_back v path to : two_way -> linked v path to -> Forall crossable path ->
  allows_token constraints (weight_of graph v) (weight_of graph endpoints.1, weight_of graph endpoints.2) = true ->
  near [to] (length path) v.
Proof.
  intros Htwo. revert v. induction path as [|[[a b] c] path IH]; intros v Hl Hcross Hallow.
  - cbn in Hl. subst. constructor. by left.
  - destruct Hl as [-> Hl]. apply Forall_cons in Hcross as [(data & Hin & Hc & Hcan) Hcross]. cbn in *.
    unfold can_cross in Hcan. cbn in Hcan. apply andb_true_iff in Hcan as [Hpool Htok].
    destruct (Htwo v b data Hin) as (data' & Hin' & Hc'). apply (near_hop _ _ b v c); [by apply IH|].
    exists data'. cbn. split_and!; [done|congruence|]. unfold can_cross. cbn. rewrite Hc', Hallow, Hpool. done.
Qed.
End walks.

(** ** The subgraph of a solve *)

Section subgraph.
Context `{NodeGraph (EdgeData ())} (graph : digraph).

(** Edges are between nodes of the graph, and no token has two nodes. *)
Record graph_ok : Prop := {
  go_closed : forall e u v data, edge graph e = Some (u, v, data) -> is_Some (node_weight graph u) /\ is_Some (node_weight graph v);
  go_unique : forall u v a, node_weight graph u = Some a -> node_weight graph v = Some a -> u = v;
}.

Context (Hgraph : graph_ok).

Lemma edges_closed u v data : (v, data) ∈ edges_from graph u -> is_Some (node_weight graph v).
Proof. intros (e & He)%edges_from_spec. by apply (go_closed Hgraph e u v data). Qed.

(** What a subgraph holds of a hop. *)
Definition holds_hop (sg : Subgraph) (hop : PathEdge) : Prop :=
  (exists edges, sg_adjacency sg !! hop.1.1 = Some edges /\ (hop.1.2, hop.2) ∈ edges) /\
  hop.1.2 ∈ sg_token_nodes sg /\ hop.2 ∈ sg_component_ids sg.

(** A subgraph of an extraction: its hops may be crossed, and its nodes are the graph's. *)
Record extracted (token_in token_out : NodeIndex) constraints sg : Prop := {
  ex_in : is_Some (node_weight graph token_in);
  ex_cross : forall u edges v c, sg_adjacency sg !! u = Some edges -> (v, c) ∈ edges ->
    crossable graph (token_in, token_out) constraints (u, v, c);
  ex_nodes : forall v, v ∈ sg_token_nodes sg -> is_Some (node_weight graph v);
}.

Lemma subgraph_extracted token_in token_out hop_map max_hops constraints sg : is_Some (node_weight graph token_in) ->
  get_subgraph_with_hop_map graph (token_in, token_out) hop_map max_hops constraints = Some sg ->
  extracted token_in (default token_in token_out) constraints sg.
Proof.
  intros Hin. unfold get_subgraph_with_hop_map. case_decide; [done|]. intros [= <-].
  destruct (walk_from_sound graph (token_in, default token_in token_out) constraints hop_map max_hops edges_closed
    (S (length (node_indices graph))) (start_walk token_in)) as [Hcross Hnodes]; [|by split].
  split; cbn; [intros u es v c; by rewrite lookup_empty|by intros v ->%elem_of_singleton].
Qed.

Lemma subgraph_complete token_in token_out max_hops constraints path :
  two_way graph -> is_Some (node_weight graph token_in) -> linked token_in path token_out -> path <> [] ->
  length path <= max_hops -> Forall (crossable graph (token_in, token_out) constraints) path ->
  exists sg, get_subgraph graph token_in token_out max_hops constraints = Some sg /\ Forall (holds_hop sg) path.
Proof.
  intros Htwo Hin Hl Hne Hlen Hcross. unfold get_subgraph, get_subgraph_with_hop_map. cbn [default].
  set (hops := get_hops_to_reach graph token_in token_out max_hops constraints).
  destruct (walk_from_spec graph (token_in, token_out) constraints (Some hops) max_hops edges_closed
    (S (length (node_indices graph))) [] _ (walk_start_walking graph (token_in, token_out) constraints (Some hops) max_hops token_in Hin))
    as (Hq & rest & Hw & Hmem); [cbn; lia|].
  set (st := walk_from _ _ _ _ _ _ _) in *. cbn [app] in Hw.
  assert (Forall (collected st) path) as Hcol.
  { apply (route_collected graph (token_in, token_out) constraints (Some hops) max_hops rest st token_in 0 path token_out);
      [done|done|apply Hmem; by left|done|done|done|].
    intros v tail Hv Htail Hlt (hop & Hhop & <-). unfold enough_hops_left.
    rewrite Forall_forall in Hcross. destruct (Hcross hop Hhop) as (data & _ & _ & Hcan).
    unfold can_cross in Hcan. apply andb_true_iff in Hcan as [_ Htok].
    destruct (get_hops_complete graph (token_in, token_out) constraints [token_out] max_hops (length tail) hop.1.2)
      as (d & Hd & Hle); [by apply (near_back graph)|lia|].
    unfold hops, get_hops_to_reach. rewrite Hd. apply negb_true_iff, Nat.ltb_ge. lia. }
  destruct path as [|hop path]; [done|]. rewrite decide_False.
  - eexists. split; [done|]. exact Hcol.
  - intros Hempty. apply Forall_cons in Hcol as [[(edges & Hadj & _) _] _]. by rewrite Hempty, lookup_empty in Hadj.
Qed.
End subgraph.

(** ** The context of a request *)

Section requests.
Context `{TychoGas} `{!Messages} `{!TychoSwaps} `{NodeGraph (EdgeData ())}.
Context (decimals : Token -> N) (integer_decode : f64 -> N * Z).
Implicit Types (graph : digraph) (self : BellmanFordAlgorithm) (market : MarketState).

Lemma token_map_lookup self graph market sg token_in token_out v t :
  bc_token_map (context_from_snapshot self graph market sg token_in token_out) !! v = Some t ->
  v ∈ sg_token_nodes sg /\ tokens market !! weight_of graph v = Some t.
Proof.
  cbn. intros Hv%elem_of_list_to_map_2. apply list_elem_of_omap in Hv as (x & Hx%elem_of_elements & Hv).
  destruct (tokens market !! weight_of graph x) eqn:Ht; [|done]. injection Hv as -> ->. done.
Qed.

Lemma max_index_le (l : list nat) i : i ∈ l -> i <= foldr Nat.max 0 l.
Proof. induction 1 as [i l|i j l _ IH]; cbn; lia. Qed.

Lemma index_bound graph v : is_Some (node_weight graph v) -> v < foldr Nat.max 0 (node_indices graph) + 1.
Proof. intros Hv%node_indices_spec. apply max_index_le in Hv. lia. Qed.

Lemma context_facts self graph market sg token_in token_out constraints dest : graph_ok graph ->
  extracted graph token_in token_out constraints sg ->
  let ctx := context_from_snapshot self graph market sg token_in dest in
  ctx_ok ctx /\ (keyed market -> tokens_distinct ctx /\
    forall v t, bc_token_map ctx !! v = Some t -> token_address_of t = weight_of graph v).
Proof.
  intros Hgraph Hex. cbn zeta. split; [split|].
  - apply index_bound, (ex_in _ _ _ _ _ Hex).
  - intros u edges v c Hu Hv. destruct (ex_cross _ _ _ _ _ Hex _ _ _ _ Hu Hv) as (data & Hin & _ & _).
    apply index_bound. by apply (edges_closed graph Hgraph u v data).
  - intros Hkeyed.
    assert (forall v t, bc_token_map (context_from_snapshot self graph market sg token_in dest) !! v = Some t ->
      token_address_of t = weight_of graph v /\ is_Some (node_weight graph v)) as Haddr.
    { intros v t [Hin Ht]%token_map_lookup. split; [by apply Hkeyed|by apply (ex_nodes _ _ _ _ _ Hex)]. }
    split; [|intros v t Hv; by apply Haddr]. intros u v tu tv Hu Hv Heq.
    destruct (Haddr u tu Hu) as [Hau [au Hnu]], (Haddr v tv Hv) as [Hav [av Hnv]].
    unfold weight_of in *. rewrite Hnu in Hau. rewrite Hnv in Hav. cbn in *.
    apply (go_unique graph Hgraph u v au); [done|]. congruence.
Qed.

Lemma node_of_spec graph a v : find_token_node graph a = Some v -> weight_of graph v = a /\ is_Some (node_weight graph v).
Proof.
  unfold find_token_node. intros [Hin Ha%bool_decide_eq_true]%find_first_Some. split; [done|]. by apply node_indices_spec.
Qed.

(** The errors of a solve. *)
Definition solve_error (request : SolveParts digraph) (e : AlgorithmError) : Prop :=
  (exists reason, e = AE_NoPath (order_token_in (so_order request)) (order_token_out (so_order request)) reason) \/
  (exists label, so_label request = Some label /\ e = AE_Other (show_label_not_found label)) \/ component_missing e.

(** What a built context is. *)
Record built (request : SolveParts digraph) self (ctx : BellmanFordContext) (out : NodeIndex) : Prop := {
  bu_ok : ctx_ok ctx;
  bu_out : bc_token_out_node ctx = Some out;
  bu_ne : out <> bc_token_in_node ctx;
  bu_lt : out < bc_max_idx ctx;
  bu_ends : weight_of (so_graph request) (bc_token_in_node ctx) = order_token_in (so_order request) /\
    weight_of (so_graph request) out = order_token_out (so_order request);
  bu_keyed : keyed (md_data (so_market request)) -> tokens_distinct ctx /\
    forall v t, bc_token_map ctx !! v = Some t -> token_address_of t = weight_of (so_graph request) v;
  bu_registered : forall v t, bc_token_map ctx !! v = Some t ->
    tokens (bc_market_data ctx) !! weight_of (so_graph request) v = Some t;
  bu_cross : forall u edges v c, bc_adj ctx !! u = Some edges -> (v, c) ∈ edges ->
    crossable (so_graph request) (bc_token_in_node ctx, out) (so_constraints request) (u, v, c);
}.

Lemma build_context_spec self (request : SolveParts digraph) : graph_ok (so_graph request) ->
  match build_context self request with
  | Ok ctx => exists out, built request self ctx out
  | Err e => solve_error request e
  end.
Proof.
  intros Hgraph. unfold build_context. destruct (Order_is_sell (so_order request)) eqn:Hsell;
    [|unfold Order_is_sell in Hsell; by destruct (order_side _)].
  cbn [negb]. destruct (find_token_node _ (order_token_in _)) as [token_in|] eqn:Hin; [|left; by eexists].
  destruct (find_token_node _ (order_token_out _)) as [token_out|] eqn:Hout; [|left; by eexists].
  case_decide as Hne; [left; by eexists|].
  destruct (get_subgraph _ _ _ _ _) as [sg|] eqn:Hsg; [|left; by eexists].
  apply node_of_spec in Hin as [Hain Hnin], Hout as [Haout Hnout].
  pose proof (subgraph_extracted _ Hgraph _ _ _ _ _ _ Hnin Hsg) as Hex. cbn [default] in Hex.
  destruct (read_market (so_market request) (so_label request)) as [view|e] eqn:Hview; cbn [mbind result_bind].
  - pose proof (read_market_guard _ _ _ Hview) as Hguard.
    destruct (context_facts self _ (extract_subset_with_overlay view (sg_component_ids sg)) _ _ _ _ (Some token_out) Hgraph Hex)
      as ([Hroot Hadj] & Hdist).
    exists token_out. split; [by split|done|done| |done| | |apply (ex_cross _ _ _ _ _ Hex)]; [by apply index_bound| |].
    + intros Hkeyed. apply Hdist, subset_keyed. by rewrite Hguard.
    + intros v t Hv. by apply (token_map_lookup self _ _ _ token_in (Some token_out)) in Hv as [_ ?].
  - right; left. unfold read_market in Hview. destruct (so_label request) as [l|]; [|done]. exists l. split; [done|].
    destruct (read_labeled _ l); [done|]. by injection Hview as <-.
Qed.

(** What the constraints allow of a swap between an order's tokens. *)
Definition swap_allowed constraints (order : Order) (s : Swap) : Prop :=
  excludes_pool constraints (sw_component_id s) = false /\
  allows_token constraints (sw_token_out s) (order_token_in order, order_token_out order) = true.

Lemma usable_allowed self request ctx out overrides u v c : built request self ctx out ->
  keyed (md_data (so_market request)) ->
  usable self ctx overrides (u, v, c) ->
  excludes_pool (so_constraints request) c = false /\
  allows_token (so_constraints request) (addr_of ctx v)
    (order_token_in (so_order request), order_token_out (so_order request)) = true.
Proof.
  intros Hb Hkeyed ((edges & Hu & Hv) & _ & [t Ht] & _). destruct (bu_cross _ _ _ _ Hb _ _ _ _ Hu Hv) as (data & _ & Hc & Hcan).
  cbn in Hc. subst c. unfold can_cross in Hcan. cbn in Hcan. apply andb_true_iff in Hcan as [Hpool Htok].
  apply negb_true_iff in Hpool. split; [done|]. destruct (bu_ends _ _ _ _ Hb) as [Hin Hout]. rewrite Hin, Hout in Htok.
  unfold addr_of. rewrite Ht. cbn. by rewrite (proj2 (bu_keyed _ _ _ _ Hb Hkeyed) v t Ht).
Qed.

(** The tokens of the route's ends are the order's. *)
Lemma ends_known self ctx overrides nodes out result : read_off self ctx overrides out nodes result ->
  is_Some (bc_token_map ctx !! bc_token_in_node ctx) /\ is_Some (bc_token_map ctx !! out).
Proof.
  intros (path & best & Hp & Hne & _). split; apply (path_tokens_known _ _ _ _ _ _ _ Hp Hne); [by left|].
  destruct (linked_last _ _ _ (pt_linked _ _ _ _ _ _ Hp) Hne) as (u & c & Hl). apply last_Some_elem_of in Hl.
  right. apply list_elem_of_fmap. by exists (u, out, c).
Qed.

(** A solve returns, and what it returns of a route. *)
Record route_of_request (request : SolveParts digraph) (result : RouteResult) : Prop := {
  rq_valid : Route_validate (rr_route result) = Ret (Ok tt);
  rq_input : input_token (rr_route result) = Some (order_token_in (so_order request));
  rq_output : output_token (rr_route result) = Some (order_token_out (so_order request));
  rq_amount : sw_amount_in <$> head (rt_swaps (rr_route result)) = Some (order_amount (so_order request));
  rq_flow : amounts_flow (rt_swaps (rr_route result));
  rq_net : exists s, last (rt_swaps (rr_route result)) = Some s /\ (rr_net_amount_out result <= Z.of_N (sw_amount_out s))%Z;
  rq_allowed : Forall (swap_allowed (so_constraints request) (so_order request)) (rt_swaps (rr_route result));
}.

Lemma best_route_spec self (request : SolveParts digraph) clock : graph_ok (so_graph request) ->
  exists r, bf_find_best_route decimals integer_decode self request clock = Ret r /\
    match r with
    | Ok result => Forall (fun s => sw_split s = F64.zero) (rt_swaps (rr_route result)) /\ rr_commitment result = None /\
        (keyed (md_data (so_market request)) -> route_of_request request result)
    | Err e => solve_error request e
    end.
Proof.
  intros Hgraph. unfold bf_find_best_route. pose proof (build_context_spec self request Hgraph) as Hctx.
  destruct (build_context self request) as [ctx|e]; [|by eexists]. destruct Hctx as (out & Hb).
  destruct (find_single_route_solved decimals integer_decode self ctx ∅ (bu_ok _ _ _ _ Hb) (so_order request) clock out
    (bu_out _ _ _ _ Hb) (bu_ne _ _ _ _ Hb) (bu_lt _ _ _ _ Hb)) as (spfa & r & _ & Hrel & -> & Hr).
  exists r. split; [done|]. destruct r as [result|e]; [|by destruct Hr; [right; right|left]].
  destruct Hr as [Hread Hcommit]. split; [|split; [done|]].
  { destruct Hread as (path & best & _ & _ & _ & _ & Hswaps & _). by apply (swaps_zero_split _ _ _ _ _ Hswaps). }
  intros Hkeyed. destruct (bu_keyed _ _ _ _ Hb Hkeyed) as [Hdist Hkey].
  destruct (read_off_solved _ _ _ _ _ _ _ _ _ Hdist Hrel Hread) as
    [Hvalid (f & Hf & Hfin & Hfam) (l & Hl & Hlout & Hnet & _) Hflow Hhops _].
  destruct (ends_known _ _ _ _ _ _ Hread) as [[tin Htin] [tout Htout]]. destruct (bu_ends _ _ _ _ Hb) as [Hain Haout].
  assert (forall v t a, bc_token_map ctx !! v = Some t -> weight_of (so_graph request) v = a -> addr_of ctx v = a) as Haddr.
  { intros v t a Hv Ha. unfold addr_of. rewrite Hv. cbn. by rewrite (Hkey v t Hv). }
  split; try done.
  - unfold input_token. rewrite Hf. cbn. f_equal. rewrite Hfin. by apply (Haddr _ tin).
  - unfold output_token. rewrite Hl. cbn. f_equal. rewrite Hlout. by apply (Haddr _ tout).
  - rewrite Hf. cbn. by f_equal.
  - by exists l.
  - eapply Forall_impl; [exact Hhops|]. cbn. intros s (u & v & Hus & _ & Hv). unfold swap_allowed. rewrite Hv.
    by apply (usable_allowed self request ctx out ∅ u).
Qed.
End requests.

(** ** Reading every token reached *)

Section reach.
Context `{TychoGas} `{!Messages} `{!TychoSwaps} (decimals : Token -> N) (integer_decode : f64 -> N * Z).
Context (self : BellmanFordAlgorithm) (ctx : BellmanFordContext).

(** What one node adds to the map. *)
Definition reached_entry (nodes : list NodeBest) (entry : nat * NodeBest) : option (Address * ReachedToken) :=
  let '(idx, best) := entry in
  if (nb_amount best =? 0)%N || bool_decide (idx = bc_token_in_node ctx) then None
  else
    address ← bc_node_address ctx !! idx;
    match reconstruct_path idx (bc_token_in_node ctx) (predecessors nodes) with
    | Ok path => Some (address, {| rt_amount_out := nb_amount best; rt_hops := path |})
    | Err _ => None
    end.

Lemma reached_fold nodes (l : list (nat * NodeBest)) (m : gmap Address ReachedToken) :
  fold_left (reached_node ctx nodes) l m
  = fold_left (fun m (kv : Address * ReachedToken) => <[kv.1 := kv.2]> m) (omap (reached_entry nodes) l) m.
Proof.
  revert m. induction l as [|[idx best] l IH]; intros m; [done|]. cbn [fold_left omap list_omap]. rewrite IH.
  unfold reached_node, reached_entry. destruct (_ || _); [done|]. destruct (bc_node_address ctx !! idx); [|done].
  cbn [mbind option_bind]. by destruct (reconstruct_path _ _ _).
Qed.

Lemma fold_insert_lookup (l : list (Address * ReachedToken)) (m : gmap Address ReachedToken) a t : NoDup l.*1 ->
  fold_left (fun m kv => <[kv.1 := kv.2]> m) l m !! a = Some t <->
  (a, t) ∈ l \/ (a ∉ l.*1) /\ m !! a = Some t.
Proof.
  revert m. induction l as [|[k v] l IH]; intros m Hnd; cbn [fold_left].
  { split; [intros ?; right; split; [by apply not_elem_of_nil|done]|]. by intros [[]%elem_of_nil|[_ ?]]. }
  apply NoDup_cons in Hnd as [Hk Hnd]. rewrite IH by done. cbn [fst snd]. rewrite fmap_cons. cbn [fst].
  rewrite not_elem_of_cons, elem_of_cons, lookup_insert_Some. split.
  - intros [?|(Hout & [[<- <-]|[Hne ?]])]; [by left; right|by left; left|by right].
  - intros [[[= -> ->]|?]|([Hne Hout] & ?)]; [right; split; [done|by left]|by left|right; split; [done|by right]].
Qed.

Lemma NoDup_omap_inj {A B} (f : A -> option B) (l : list A) : NoDup l ->
  (forall x y k, x ∈ l -> y ∈ l -> f x = Some k -> f y = Some k -> x = y) -> NoDup (omap f l).
Proof.
  induction 1 as [|x l Hx Hnd IH]; intros Hinj; cbn; [constructor|].
  assert (NoDup (omap f l)) as Hl by (apply IH; intros a b k Ha Hb; apply Hinj; by right).
  destruct (f x) as [k|] eqn:Hk; [|done]. constructor; [|done]. intros (y & Hy & Hfy)%list_elem_of_omap.
  apply Hx. by rewrite (Hinj x y k ltac:(left) ltac:(by right) Hk Hfy).
Qed.

Lemma indexed_lookup (nodes : list NodeBest) v best : (v, best) ∈ zip (seq 0 (length nodes)) nodes <-> nodes !! v = Some best.
Proof.
  rewrite list_elem_of_lookup. split.
  - intros (i & Hi). apply lookup_zip_Some in Hi as [Hs Hb]. apply lookup_seq in Hs as [-> _]. done.
  - intros Hv. exists v. apply lookup_zip_Some. split; [|done]. apply lookup_seq. split; [done|]. by apply lookup_lt_Some in Hv.
Qed.

Lemma indexed_NoDup (nodes : list NodeBest) : NoDup (zip (seq 0 (length nodes)) nodes).
Proof.
  apply (NoDup_fmap_1 fst). rewrite fst_zip by (by rewrite length_seq). apply NoDup_seq.
Qed.

Lemma reached_entry_Some nodes amount_in v best a t : ctx_ok ctx -> relaxed decimals integer_decode self ctx ∅ amount_in nodes ->
  nodes !! v = Some best ->
  reached_entry nodes (v, best) = Some (a, t) <->
  nb_amount best <> 0%N /\ v <> bc_token_in_node ctx /\ bc_node_address ctx !! v = Some a /\
  exists path, path_to self ctx ∅ nodes v path /\ t = {| rt_amount_out := nb_amount best; rt_hops := path |}.
Proof.
  intros Hctx Hr Hv. cbn [reached_entry]. destruct (N.eqb_spec (nb_amount best) 0) as [Hz|Hnz]; cbn [orb].
  { split; [done|]. by intros [? _]. }
  case_bool_decide as Hroot; [split; [done|]; by intros (_ & ? & _)|].
  destruct (reached_path _ _ _ _ _ _ _ _ _ Hr Hv Hnz) as (path & -> & Hp).
  destruct (bc_node_address ctx !! v) as [a'|]; cbn [mbind option_bind]; [|split; [done|]; by intros (_ & _ & ? & _)].
  split.
  - intros [= <- <-]. split_and!; [done|done|done|]. by exists path.
  - intros (_ & _ & [= <-] & path' & Hp' & ->). do 3 f_equal.
    apply (chain_det _ _ _ _ _ (pt_chain _ _ _ _ _ _ Hp) (pt_chain _ _ _ _ _ _ Hp')).
Qed.

Lemma reach_spec amount_in clock : ctx_ok ctx ->
  (forall u v a, bc_node_address ctx !! u = Some a -> bc_node_address ctx !! v = Some a -> u = v) ->
  exists spfa reach, run_spfa decimals integer_decode self ctx amount_in ∅ clock = Ret spfa /\
    relaxed decimals integer_decode self ctx ∅ amount_in (sp_nodes spfa) /\
    reach_from_source_token decimals integer_decode self ctx amount_in clock = Ret reach /\
    ro_timed_out reach = sp_timed_out spfa /\
    forall a t, ro_reached reach !! a = Some t <-> exists v best path,
      sp_nodes spfa !! v = Some best /\ nb_amount best <> 0%N /\ v <> bc_token_in_node ctx /\
      bc_node_address ctx !! v = Some a /\ path_to self ctx ∅ (sp_nodes spfa) v path /\
      t = {| rt_amount_out := nb_amount best; rt_hops := path |}.
Proof.
  intros Hctx Hdist. destruct (run_spfa_relaxed decimals integer_decode self ctx ∅ Hctx amount_in clock) as (spfa & Hrun & Hr).
  exists spfa. unfold reach_from_source_token. rewrite Hrun. cbn [mbind outcome_bind]. eexists. split_and!; [done|done|done|done|].
  intros a t. cbn [ro_reached]. rewrite reached_fold. set (nodes := sp_nodes spfa) in *.
  rewrite fold_insert_lookup, lookup_empty.
  - split.
    + intros [Hin|[_ ?]]; [|done]. apply list_elem_of_omap in Hin as ([v best] & Hv%indexed_lookup & He).
      apply (reached_entry_Some nodes amount_in v best a t Hctx Hr Hv) in He as (? & ? & ? & path & ? & ?). by exists v, best, path.
    + intros (v & best & path & Hv & Hnz & Hne & Ha & Hp & ->). left. apply list_elem_of_omap. exists (v, best).
      split; [by apply indexed_lookup|]. apply (reached_entry_Some nodes amount_in v best _ _ Hctx Hr Hv).
      split_and!; [done|done|done|]. by exists path.
  - pose proof (indexed_NoDup nodes) as Hnd. rewrite list_fmap_omap.
    apply NoDup_omap_inj; [done|]. intros [u bu] [v bv] k Hu%indexed_lookup Hv%indexed_lookup Hku Hkv.
    cbn [compose] in Hku, Hkv.
    destruct (reached_entry nodes (u, bu)) as [[au tu]|] eqn:Eu; [|done]. destruct (reached_entry nodes (v, bv)) as [[av tv]|] eqn:Ev; [|done].
    cbn in Hku, Hkv. injection Hku as ->. injection Hkv as ->.
    apply (reached_entry_Some nodes amount_in u bu k tu Hctx Hr Hu) in Eu as (_ & _ & Hau & _).
    apply (reached_entry_Some nodes amount_in v bv k tv Hctx Hr Hv) in Ev as (_ & _ & Hav & _).
    assert (u = v) as -> by by apply (Hdist u v k). rewrite Hu in Hv. by injection Hv as ->.
Qed.
End reach.

(** ** Properties *)

Section properties.
Context `{TychoGas} `{!Messages} `{!TychoSwaps} (decimals : Token -> N) (integer_decode : f64 -> N * Z).

(** C11: a Bellman-Ford solve never panics and never diverges, whatever the pools answer, the order of the
    nodes and the clock. Its errors are that there is no path, that the label is unknown or that
    the snapshot lacks a component: the chain of predecessors is never found broken or cyclic. Its route
    passes validation, goes from the order's input to its output without a repeated token, takes
    the order's amount, hands each swap what the one before gave, nets no more than it pays, and
    uses only pools and tokens the request allows. *)
Theorem bellman_ford_route_sound `{NodeGraph (EdgeData ())} self (request : SolveParts digraph) clock :
  graph_ok (so_graph request) -> keyed (md_data (so_market request)) ->
  exists r, bf_find_best_route decimals integer_decode self request clock = Ret r /\
    match r with Ok result => route_of_request request result | Err e => solve_error request e end.
Proof.
  intros Hgraph Hkeyed. destruct (best_route_spec decimals integer_decode self request clock Hgraph) as (r & -> & Hr).
  exists r. split; [done|]. destruct r as [result|e]; [|done]. by apply Hr.
Qed.

(** C12: when every pool of the graph trades both ways, the subgraph a solve is cut down to keeps
    every route from the source to the destination of at most [max_hops] hops that the request
    allows: each of its hops is in the adjacency, its tokens and its components are in the sets the
    snapshot is taken with. *)
Theorem subgraph_keeps_routes `{NodeGraph (EdgeData ())} graph token_in token_out max_hops constraints path :
  graph_ok graph -> two_way graph -> is_Some (node_weight graph token_in) ->
  linked token_in path token_out -> path <> [] -> length path <= max_hops ->
  Forall (crossable graph (token_in, token_out) constraints) path ->
  exists sg, get_subgraph graph token_in token_out max_hops constraints = Some sg /\ Forall (holds_hop sg) path.
Proof. intros Hgraph. by apply subgraph_complete. Qed.

(** Without gas in the comparison a solve's net is at least what any single pool the context
    allows pays for the order's amount, and, when pools pay no less for more, at most what its
    hops pay when they are run one after the other, each pool at the state the solve read. *)
Theorem gross_solve_bounds self ctx overrides (order : Order) clock out result :
  ctx_ok ctx -> bc_scoring ctx = GrossOutput -> bc_token_out_node ctx = Some out -> out <> bc_token_in_node ctx ->
  out < bc_max_idx ctx ->
  find_single_route decimals integer_decode self ctx order overrides clock = Ret (Ok result) ->
  (forall paid, direct self ctx overrides (order_amount order) out paid -> order_amount order <> 0%N ->
     bf_max_hops self <> 0 -> (clock O < bf_timeout self)%N -> (Z.of_N paid <= rr_net_amount_out result)%Z) /\
  exists path, linked (bc_token_in_node ctx) path out /\ path.*2 = sw_component_id <$> rt_swaps (rr_route result) /\
    forall paid, pays_no_less ctx overrides -> deliver ctx overrides (order_amount order) path = Some paid ->
      (rr_net_amount_out result <= Z.of_N paid)%Z.
Proof.
  intros Hctx Hgross Hout Hne Hlt Hsolve.
  assert (gas_aware_price ctx = None) as Hgas by (unfold gas_aware_price; by rewrite Hgross).
  destruct (find_single_route_solved decimals integer_decode self ctx overrides Hctx order clock out Hout Hne Hlt)
    as (spfa & r & Hrun & Hr & Hfind & Hres). rewrite Hsolve in Hfind. injection Hfind as <-.
  destruct Hres as [(path & best & Hp & _ & Hbest & _ & Hswaps & _ & Hnet) _]. rewrite (Hnet Hgross). split.
  - intros paid Hd Hnz Hhops Htime.
    destruct (run_spfa_direct decimals integer_decode self ctx overrides Hctx Hgas (order_amount order) clock out paid spfa
      Hd Hnz Hhops Htime Hrun) as (best' & Hbest' & Hle). rewrite Hbest in Hbest'. injection Hbest' as <-. lia.
  - exists path. split; [apply (pt_linked _ _ _ _ _ _ Hp)|]. split.
    + clear - Hswaps. induction Hswaps as [|hop s path swaps (? & ? & ? & ? & _ & _ & _ & _ & ->) _ IH]; [done|]. cbn. by f_equal.
    + intros paid Hpays Hpaid.
      pose proof (relaxed_backed decimals integer_decode self ctx overrides Hctx Hgas _ _ Hr) as Hb.
      pose proof (backed_deliver ctx overrides (sp_nodes spfa) (order_amount order) out path best paid Hpays Hb
        (rl_source _ _ _ _ _ _ _ Hr) (pt_chain _ _ _ _ _ _ Hp) Hbest Hpaid). lia.
Qed.

(** Pricing from a source reads off exactly the tokens the relaxation reached: an address is in
    the map if and only if the node of the address, other than the source, has an amount that is
    not zero, and it maps to that amount with a path from the source to it, of hops the relaxation
    may make, without a repeated token. No reached token is dropped for a path that cannot be
    reconstructed. *)
Theorem reach_from_source_exact self ctx amount_in clock : ctx_ok ctx ->
  (forall u v a, bc_node_address ctx !! u = Some a -> bc_node_address ctx !! v = Some a -> u = v) ->
  exists spfa reach, run_spfa decimals integer_decode self ctx amount_in ∅ clock = Ret spfa /\
    reach_from_source_token decimals integer_decode self ctx amount_in clock = Ret reach /\
    ro_timed_out reach = sp_timed_out spfa /\
    forall a t, ro_reached reach !! a = Some t <-> exists v best path,
      sp_nodes spfa !! v = Some best /\ nb_amount best <> 0%N /\ v <> bc_token_in_node ctx /\
      bc_node_address ctx !! v = Some a /\ path_to self ctx ∅ (sp_nodes spfa) v path /\
      t = {| rt_amount_out := nb_amount best; rt_hops := path |}.
Proof.
  intros Hctx Hdist. destruct (reach_spec decimals integer_decode self ctx amount_in clock Hctx Hdist)
    as (spfa & reach & Hrun & _ & Hreach & Htime & Hmap). by exists spfa, reach.
Qed.
End properties.

(** ** The worker's algorithm *)

Section worker.
Context `{TychoGas} `{!Messages} `{!TychoSwaps} `{NodeGraph (EdgeData ())}.
Context (decimals : Token -> N) (integer_decode : f64 -> N * Z).

(** The graphs a manager keeps. *)
Definition OkGraph : Type := { graph : digraph | graph_ok graph }.

Definition plain_request (request : SolveParts OkGraph) : SolveParts digraph := {|
  so_graph := proj1_sig (so_graph request); so_order := so_order request; so_market := so_market request;
  so_label := so_label request; so_derived := so_derived request; so_constraints := so_constraints request |}.

(** What the chain of [allow_stale] builds; its errors are the panics of [expect]. *)
Definition bf_computation_requirements : ComputationRequirements :=
  match allow_stale requirements_none TOKEN_PRICES_ID with
  | Ok r => match allow_stale r SPOT_PRICES_ID with Ok r => r | Err _ => requirements_none end
  | Err _ => requirements_none
  end.

Definition bellman_ford_algorithm self (clock : SolveParts OkGraph -> nat -> N) : WorkerAlgorithm OkGraph := {|
  algorithm_name := "bellman_ford";
  SUPPORTS_REQUIRED_TOKENS := false;
  algorithm_timeout := bf_timeout self;
  computation_requirements := bf_computation_requirements;
  algorithm_find_best_route := fun request =>
    bf_find_best_route decimals integer_decode self (plain_request request) (clock request) |}.

(** What the worker's theorems ask of an algorithm. *)
Lemma bellman_ford_laws self clock : AlgorithmLaws (H1 := bellman_ford_algorithm self clock).
Proof.
  split; cbn.
  - intros request.
    destruct (best_route_spec decimals integer_decode self (plain_request request) (clock request) (proj2_sig (so_graph request)))
      as (r & Hr & _). by exists r.
  - intros request result Hret.
    destruct (best_route_spec decimals integer_decode self (plain_request request) (clock request) (proj2_sig (so_graph request)))
      as (r & Hr & Hres). rewrite Hr in Hret. injection Hret as ->. destruct Hres as (Hsplit & Hcommit & _).
    split; [|done]. eapply Forall_impl; [exact Hsplit|]. cbn. intros s ->. done.
Qed.
End worker.

(** ** The graphs of the manager *)

Section manager.
Context `{NodeGraph (EdgeData ())}.
Implicit Types (m : PetgraphStableDiGraphManager (D:=())).

(** The edge of a managed graph, by its component and direction. *)
Lemma petgraph_edge m e u v data : petgraph_ok m -> edge (pm_graph m) e = Some (u, v, data) ->
  exists d, direction_edge m (ed_component_id data) d e /\ pm_node_map m !! d.1 = Some u /\ pm_node_map m !! d.2 = Some v.
Proof.
  intros Hok He. destruct (eo_known _ _ _ Hok _ _ _ _ He) as (E & d & HT & HE).
  destruct (eo_edges _ _ _ Hok _ _ _ _ HT HE) as (a & b & data' & He' & _ & Ha & Hb).
  rewrite He in He'. injection He' as <- <- <-. exists d. split; [|done]. apply direction_edge_iff; [done|]. by exists E.
Qed.

Lemma petgraph_graph_ok m : petgraph_ok m -> graph_ok (pm_graph m).
Proof.
  intros Hok. split.
  - intros e u v data He. destruct (petgraph_edge m e u v data Hok He) as (d & _ & Ha & Hb).
    apply (eo_nodes _ _ _ Hok) in Ha, Hb. by split; eexists.
  - intros u v a Hu Hv. apply (eo_nodes _ _ _ Hok) in Hu, Hv. congruence.
Qed.

(** Components that offer every direction in reverse make a two-way graph. *)
Lemma petgraph_two_way m : petgraph_ok m ->
  (forall id a b, offers (petgraph_directions m) id (a, b) -> offers (petgraph_directions m) id (b, a)) ->
  two_way (pm_graph m).
Proof.
  intros Hok Hsym u v data (e & He)%edges_from_spec. destruct (petgraph_edge m e u v data Hok He) as ([a b] & Hd & Ha & Hb).
  assert (offers (petgraph_directions m) (ed_component_id data) (b, a)) as Hrev
    by (apply Hsym, (petgraph_lists m _ _ Hok); by exists e).
  apply (petgraph_lists m _ _ Hok) in Hrev as (e' & v' & u' & data' & He' & Hid & Hv' & Hu').
  apply (eo_nodes _ _ _ Hok) in Hv', Hu'. cbn in *. assert (v' = v) as -> by congruence. assert (u' = u) as -> by congruence.
  exists data'. split; [|done]. apply edges_from_spec. by exists e'.
Qed.
End manager.

(** ** Examples *)

Module BellmanFordSample.
#[local] Open Scope string_scope.
#[local] Existing Instances MarketSample.tycho MarketSample.tycho_market MostLiquidSample.gas MostLiquidSample.messages.

Definition graph : DiGraph (EdgeData ()) := MapGraph.digraph_map.
#[local] Existing Instance graph.

(** The nodes and the edges of the finite maps. *)
Program Definition node_graph : NodeGraph (EdgeData ()) := {|
  node_indices := fun g : MapGraph.t (EdgeData ()) => merge_sort le (elements (dom (MapGraph.nodes g)));
  edges_from := fun (g : MapGraph.t (EdgeData ())) a => (fun kv => (kv.2.1.2, kv.2.2)) <$> MapGraph.out g a;
|}.
Next Obligation. intros g i. cbn. rewrite merge_sort_Permutation, elem_of_elements. apply elem_of_dom. Qed.
Next Obligation.
  intros g a b w. cbn. rewrite list_elem_of_fmap. split.
  - intros ([e [[x y] z]] & [= -> ->] & [Hin%elem_of_map_to_list Ha%bool_decide_eq_true]%elem_of_filterb).
    cbn in *. subst x. by exists e.
  - intros (e & He). exists (e, (a, b, w)). split; [done|]. apply elem_of_filterb.
    split; [by apply elem_of_map_to_list|by apply bool_decide_eq_true].
Qed.
#[local] Existing Instance node_graph.

(** What comes out, per hundred, by direction. *)
Definition rate (token_in token_out : string) : N :=
  if decide (token_in = Sample.A) then 100
  else if decide ((token_in, token_out) = ("Z", "Y") \/ (token_in, token_out) = ("Y", "X")) then 120
  else if decide ((token_in, token_out) = ("X", Sample.D)) then 100
  else 10.

Definition swaps : TychoSwaps := {|
  get_amount_out := fun (state : ProtocolSim) amount token_in token_out =>
    Ret (Ok (@Build_GetAmountOutResult MarketSample.tycho (amount * rate token_in token_out / 100)%N 0 state));
  PANIC_MESSAGE := "panic" |}.
#[local] Existing Instance swaps.

(** Pools with their tokens and directions. *)
Abbreviation listing := (list (ComponentId * list Address * list SwapDirection)) (only parsing).

Definition topologies (l : listing) : gmap ComponentId ComponentTopology :=
  list_to_map ((fun pool => (pool.1.1, {| tp_tokens := pool.1.2; tp_swap_directions := pool.2 |})) <$> l).

Definition manager (l : listing) : PetgraphStableDiGraphManager (D:=()) := initialize_graph (topologies l).

Definition market (l : listing) : MarketState :=
  update_states
    (upsert_tokens
      (upsert_components MarketState_new ((fun pool => MarketSample.pool pool.1.1 "uniswap_v2" pool.1.2) <$> l)).1
      (l ≫= fun pool => pool.1.2))
    ((fun pool => (pool.1.1, 1%N)) <$> l).

Definition order (amount : N) : Order := {|
  order_id := "order"; order_token_in := Sample.A; order_token_out := Sample.D; order_amount := amount;
  order_side := Sell; order_sender := "sender"; order_receiver := None |}.

Definition unbounded : ResolvedRouteConstraints := unconstrained.

Definition request (l : listing) (amount : N) : SolveParts digraph := {|
  so_graph := pm_graph (manager l);
  so_order := order amount;
  so_market := {| md_data := market l; md_overlays := ∅ |};
  so_label := None;
  so_derived := None;
  so_constraints := unbounded |}.

(** Routes of at most three hops, compared by what they pay. *)
Definition algorithm : BellmanFordAlgorithm := {|
  bf_max_hops := 3; bf_timeout := 100000000; bf_gas_aware := false; bf_connector_tokens := None |}.

Definition decimals (_ : Token) : N := 18.
Definition decode (a : f64) : N * Z := match a with S754_finite _ m e => (Npos m, e) | _ => (0%N, 0%Z) end.

Definition solve (l : listing) (amount : N) : outcome (result AlgorithmError RouteResult) :=
  bf_find_best_route decimals decode algorithm (request l amount) (fun _ => 0%N).

(** A pool that trades two tokens both ways. *)
Definition pair (id : ComponentId) (a b : Address) : ComponentId * list Address * list SwapDirection :=
  (id, [a; b], [(a, b); (b, a)]).

(** The source trades with X, Y and Z; Z brings more of Y than the source, and Y more of X; X and,
    at a worse rate, Y trade with the destination. *)
Definition ladder : listing :=
  [pair "ax" Sample.A "X"; pair "ay" Sample.A "Y"; pair "az" Sample.A "Z"; pair "zy" "Z" "Y";
   pair "yx" "Y" "X"; pair "xd" "X" Sample.D; pair "yd" "Y" Sample.D].

(** As [ladder], with one pool of three tokens for the last two hops. *)
Definition shared_pool : listing :=
  [pair "ax" Sample.A "X"; pair "ay" Sample.A "Y"; pair "az" Sample.A "Z"; pair "zy" "Z" "Y";
   ("xyd", ["X"; "Y"; Sample.D],
    [("X", "Y"); ("Y", "X"); ("X", Sample.D); (Sample.D, "X"); ("Y", Sample.D); (Sample.D, "Y")])].

(** A pool to B, and one from B that only sells to D. *)
Definition one_way : listing := [pair "ab" Sample.A Sample.B; ("bd", [Sample.B; Sample.D], [(Sample.B, Sample.D)])].

Definition hops_of (answer : outcome (result AlgorithmError RouteResult)) : list (ComponentId * Address * Address * N * N) :=
  match answer with
  | Ret (Ok r) => (fun s => (sw_component_id s, sw_token_in s, sw_token_out s, sw_amount_in s, sw_amount_out s)) <$> rt_swaps (rr_route r)
  | _ => []
  end.
End BellmanFordSample.

Section examples.
Import BellmanFordSample.
#[local] Open Scope string_scope.
#[local] Existing Instances MarketSample.tycho MarketSample.tycho_market MostLiquidSample.gas MostLiquidSample.messages.
#[local] Existing Instances BellmanFordSample.graph BellmanFordSample.node_graph BellmanFordSample.swaps.

(** The bound on hops limits the rounds, and a path can grow by several hops in one: a solve of at most
    three hops builds a route of four. Its last swap says it pays 1200 for 1440, though the pool pays
    1440: the amount it takes was improved after the one it pays was computed. *)
Example routes_exceed_max_hops :
  bf_max_hops algorithm = 3 /\
  hops_of (solve ladder 1000) =
    [("az", "A", "Z", 1000%N, 1000%N); ("zy", "Z", "Y", 1000%N, 1200%N);
     ("yx", "Y", "X", 1200%N, 1440%N); ("xd", "X", "D", 1440%N, 1200%N)] /\
  get_amount_out (1%N : ProtocolSim) 1440 "X" "D" = Ret (Ok (Build_GetAmountOutResult _ 1440%N 0%N 1%N)).
Proof. split_and!; by vm_compute. Qed.

(** The conflict check walks the path to the edge's source only: improving a node before a hop that
    is already on a later node's path makes the route cross one pool twice. *)
Example pool_crossed_twice :
  hops_of (solve shared_pool 1000) =
    [("az", "A", "Z", 1000%N, 1000%N); ("zy", "Z", "Y", 1000%N, 1200%N);
     ("xyd", "Y", "X", 1200%N, 1440%N); ("xyd", "X", "D", 1440%N, 1000%N)].
Proof. by vm_compute. Qed.

Definition node (l : listing) (address : Address) : NodeIndex :=
  default 0 (find_token_node (pm_graph (manager l)) address).

Definition hop (l : listing) (a b : Address) (id : ComponentId) : PathEdge := (node l a, node l b, id).

(** The distances are walked from the destination along outgoing edges: a route whose last pool
    only sells to the destination is pruned, and its solve finds no path. *)
Example one_way_route_pruned :
  let path := [hop one_way "A" "B" "ab"; hop one_way "B" "D" "bd"] in
  linked (node one_way "A") path (node one_way "D") /\ length path <= bf_max_hops algorithm /\
  Forall (crossable (so_graph (request one_way 1000)) (node one_way "A", node one_way "D") unbounded) path /\
  solve one_way 1000 = Ret (Err (AE_NoPath "A" "D" NoGraphPath)).
Proof.
  split_and!; [by vm_compute|by vm_compute; lia| |by vm_compute].
  apply Forall_cons. split; [|apply Forall_cons; split; [|constructor]].
  - exists (EdgeData_new "ab"). split_and!; [|done|by vm_compute]. apply list_elem_of_lookup. exists 0. by vm_compute.
  - exists (EdgeData_new "bd"). split_and!; [|done|by vm_compute]. apply list_elem_of_lookup. exists 0. by vm_compute.
Qed.

Lemma sample_manager_ok (l : listing) : petgraph_ok (manager l).
Proof. apply petgraph_initialize_spec. Qed.

Lemma sample_graph_ok (l : listing) : graph_ok (pm_graph (manager l)).
Proof. apply petgraph_graph_ok, sample_manager_ok. Qed.

Lemma ladder_keyed : keyed (market ladder).
Proof. apply map_Forall_to_list. by vm_compute; repeat constructor. Qed.

Lemma bellman_ford_route_sound_witness : exists result, solve ladder 1000 = Ret (Ok result) /\
  Route_validate (rr_route result) = Ret (Ok tt) /\ output_token (rr_route result) = Some "D".
Proof.
  destruct (bellman_ford_route_sound decimals decode algorithm (request ladder 1000) (fun _ => 0%N)
    (sample_graph_ok ladder) ladder_keyed) as (r & Hr & Hres).
  assert (match solve ladder 1000 with Ret (Ok _) => true | _ => false end = true) as Hs by by vm_compute.
  unfold solve in *. rewrite Hr in Hs |- *. destruct r as [result|e]; [|discriminate Hs].
  exists result. split; [done|]. split; [apply (rq_valid _ _ Hres)|apply (rq_output _ _ Hres)].
Defined.

Lemma ladder_two_way : two_way (pm_graph (manager ladder)).
Proof.
  apply petgraph_two_way; [apply sample_manager_ok|]. unfold manager. rewrite (proj2 (petgraph_initialize_spec (topologies ladder))).
  assert (map_Forall (fun (_ : ComponentId) ds => set_Forall (fun d : SwapDirection => (d.2, d.1) ∈ ds) ds)
    (directions_in (topologies ladder))) as Hall by (refine (proj1 (bool_decide_eq_true _) _); by vm_compute).
  intros id a b (ds & Hds & Hd). exists ds. split; [done|]. by apply (Hall id ds Hds (a, b)).
Qed.

Lemma subgraph_keeps_routes_witness :
  let path := [hop ladder "A" "X" "ax"; hop ladder "X" "D" "xd"] in
  exists sg, get_subgraph (pm_graph (manager ladder)) (node ladder "A") (node ladder "D") 2 unbounded = Some sg /\
    Forall (holds_hop sg) path.
Proof.
  cbv zeta. apply (subgraph_keeps_routes (pm_graph (manager ladder)) (node ladder "A") (node ladder "D") 2 unbounded
    [hop ladder "A" "X" "ax"; hop ladder "X" "D" "xd"] (sample_graph_ok ladder) ladder_two_way).
  - vm_compute. by eexists.
  - by vm_compute.
  - done.
  - done.
  - apply Forall_cons. split; [|apply Forall_cons; split; [|constructor]].
    + exists (EdgeData_new "ax"). split_and!; [|done|by vm_compute]. apply list_elem_of_lookup. exists 2. by vm_compute.
    + exists (EdgeData_new "xd"). split_and!; [|done|by vm_compute]. apply list_elem_of_lookup. exists 0. by vm_compute.
Defined.

(** The context of the ladder. *)
Definition ladder_context : BellmanFordContext :=
  match build_context algorithm (request ladder 1000) with
  | Ok ctx => ctx
  | Err _ => context_from_snapshot algorithm (pm_graph (manager ladder)) (market ladder) (Build_Subgraph ∅ ∅ ∅) 0 None
  end.

Lemma ladder_built : built (request ladder 1000) algorithm ladder_context 1.
Proof.
  pose proof (build_context_spec algorithm (request ladder 1000) (sample_graph_ok ladder)) as Hb.
  assert (bc_token_out_node ladder_context = Some 1) as Hout by by vm_compute.
  assert (match build_context algorithm (request ladder 1000) with Ok _ => true | Err _ => false end = true) as Hok by by vm_compute.
  unfold ladder_context in *. destruct (build_context algorithm (request ladder 1000)) as [ctx|e]; [|discriminate Hok].
  destruct Hb as (out & Hb). pose proof (bu_out _ _ _ _ Hb) as Heq. rewrite Hout in Heq. by injection Heq as <-.
Qed.

Lemma ladder_pays_no_less : pays_no_less ladder_context ∅.
Proof.
  intros c sim token_u token_v a b paid_a paid_b _ Hle Ha Hb. unfold get_amount_out_guarded in Ha, Hb. cbn in Ha, Hb.
  injection Ha as <-. injection Hb as <-. cbn. apply N.Div0.div_le_mono. by apply N.mul_le_mono_r.
Qed.

(** The net of 1200 is below what the hops pay. *)
Lemma gross_solve_bounds_witness : exists result path,
  find_single_route decimals decode algorithm ladder_context (order 1000) ∅ (fun _ => 0%N) = Ret (Ok result) /\
  rr_net_amount_out result = 1200%Z /\ path.*2 = ["az"; "zy"; "yx"; "xd"]%string /\
  forall paid, deliver ladder_context ∅ 1000 path = Some paid -> (1200 <= Z.of_N paid)%Z.
Proof.
  destruct (find_single_route decimals decode algorithm ladder_context (order 1000) ∅ (fun _ => 0%N)) as [[result|e]|] eqn:Hs.
  2, 3: assert (match find_single_route decimals decode algorithm ladder_context (order 1000) ∅ (fun _ => 0%N) with
    Ret (Ok _) => true | _ => false end = true) as Hok by (by vm_compute); rewrite Hs in Hok; discriminate Hok.
  assert (match find_single_route decimals decode algorithm ladder_context (order 1000) ∅ (fun _ => 0%N) with
    Ret (Ok r) => Some (rr_net_amount_out r, sw_component_id <$> rt_swaps (rr_route r)) | _ => None end
    = Some (1200%Z, ["az"; "zy"; "yx"; "xd"]%string)) as Hr by by vm_compute.
  rewrite Hs in Hr. injection Hr as Hnet Hids.
  destruct (gross_solve_bounds decimals decode algorithm ladder_context ∅ (order 1000) (fun _ => 0%N) 1 result
    (bu_ok _ _ _ _ ladder_built) ltac:(by vm_compute) (bu_out _ _ _ _ ladder_built) (bu_ne _ _ _ _ ladder_built)
    (bu_lt _ _ _ _ ladder_built) Hs) as (_ & path & _ & Hpath & Hle).
  exists result, path. split; [done|]. split; [exact Hnet|]. split; [by rewrite Hpath|].
  intros paid Hpaid. rewrite <- Hnet. exact (Hle paid ladder_pays_no_less Hpaid).
Defined.

Lemma ladder_addresses_distinct u v a :
  bc_node_address ladder_context !! u = Some a -> bc_node_address ladder_context !! v = Some a -> u = v.
Proof.
  assert (map_Forall (fun u a => map_Forall (fun v b => a = b -> u = v) (bc_node_address ladder_context))
    (bc_node_address ladder_context)) as Hall by (refine (proj1 (bool_decide_eq_true _) _); by vm_compute).
  intros Hu Hv. exact (Hall u a Hu v a Hv eq_refl).
Qed.

Lemma reach_from_source_exact_witness : exists reach t,
  reach_from_source_token decimals decode algorithm ladder_context 1000 (fun _ => 0%N) = Ret reach /\
  ro_reached reach !! "D"%string = Some t /\ rt_amount_out t = 1200%N /\
  exists path, linked 0 path 1 /\ t = {| rt_amount_out := 1200%N; rt_hops := path |}.
Proof.
  destruct (reach_from_source_exact decimals decode algorithm ladder_context 1000 (fun _ => 0%N)
    (bu_ok _ _ _ _ ladder_built) ladder_addresses_distinct) as (spfa & reach & Hrun & Hreach & _ & Hmap).
  assert (match reach_from_source_token decimals decode algorithm ladder_context 1000 (fun _ => 0%N) with
    Ret reach => rt_amount_out <$> ro_reached reach !! "D"%string | Panic => None end = Some 1200%N) as Hd by by vm_compute.
  rewrite Hreach in Hd. destruct (ro_reached reach !! "D"%string) as [t|] eqn:Ht; [|discriminate Hd].
  injection Hd as Hamount. exists reach, t. split; [done|]. split; [done|]. split; [done|].
  destruct (proj1 (Hmap "D"%string t) Ht) as (v & best & path & _ & _ & _ & Hv & Hp & ->).
  exists path. cbn in Hamount. rewrite Hamount. split; [|done].
  assert (bc_node_address ladder_context !! 1 = Some "D"%string) as H1 by by vm_compute.
  rewrite (ladder_addresses_distinct v 1 _ Hv H1) in Hp. exact (pt_linked _ _ _ _ _ _ Hp).
Defined.
End examples.
