(* ===== verification/FrankWolfe.v ===== *)
(** * FrankWolfe: splitting an order between Bellman-Ford paths

    [fynd-core/src/algorithm/path_frank_wolfe.rs]. The route of a Bellman-Ford solve is the
    floor; rounds of the search add a path found on the reserves the paths so far leave, with
    the share of the order that a golden-section search scores best, and the split is returned
    when it nets more than the floor. The clock is a reading per round and, for every run of
    the relaxation, the clock of the run. An exhausted fuel of a split plan would be a panic
    here; [FrankWolfeProofs] shows that it cannot be. The metering of swaps and what the code
    only logs are left out. *)

From stdpp Require Import prelude gmap sets strings list.
From Stdlib Require Import Floats.SpecFloat.
From Stdlib Require Import NArith ZArith Lia.
From S2P Require Import Prelude F64 Types Route Amounts DerivedStore MarketData SwapCache Algorithm StableGraph TokenGraph Paths.
From S2P Require Import SplitMath Replay SplitPlan BellmanFord.

#[local] Open Scope N_scope.

(** ** Configuration *)

Record PathFrankWolfeConfig := {
  fc_max_paths : nat;
  fc_max_probe : f64;
  fc_min_split : f64;
  fc_line_search_evals : nat;
}.

Definition PathFrankWolfeConfig_default : PathFrankWolfeConfig := {|
  fc_max_paths := 4;
  fc_max_probe := F64.div (F64.of_N 25) (F64.of_N 100);
  fc_min_split := F64.div (F64.of_N 5) (F64.of_N 100);
  fc_line_search_evals := 12 |}.

Record PathFrankWolfeAlgorithm := { fw_inner : BellmanFordAlgorithm; fw_config : PathFrankWolfeConfig }.

Definition PathFrankWolfe_new (algorithm_config : AlgorithmConfig) (config : PathFrankWolfeConfig) : PathFrankWolfeAlgorithm :=
  {| fw_inner := BellmanFord_with_config algorithm_config; fw_config := config |}.

(** What the errors say, as data. *)
Inductive FrankWolfeError :=
| NonPositiveAmountIn (amount_in : f64)
| NonPositiveMarginalPrice (product : f64)
| CannotNormalize (error : SplitMathError).

(** How the errors print, and a position of the graph with its type. *)
Class FrankWolfeMessages : Type := {
  show_frank_wolfe_error : FrankWolfeError -> string;
}.

(** ** Doubles *)

Definition u128_MAX : N := 340282366920938463463374607431768211455.

(** [x.ceil() as u128]. *)
Definition ceil_as_u128 (a : f64) : N :=
  match a with
  | S754_finite false m e =>
      let v := if (0 <=? e)%Z then (Z.pos m * 2 ^ e)%Z else ((Z.pos m + 2 ^ (- e) - 1) / 2 ^ (- e))%Z in
      N.min (Z.to_N v) u128_MAX
  | S754_infinity false => u128_MAX
  | _ => 0
  end.

(** [f64::powi], by squaring. *)
Fixpoint powi_from (r a : f64) (n : positive) : f64 :=
  match n with
  | xH => F64.mul r a
  | xO n => powi_from r (F64.mul a a) n
  | xI n => powi_from (F64.mul r a) (F64.mul a a) n
  end.

Definition powi (a : f64) (n : Z) : f64 :=
  match n with
  | Z0 => F64.one
  | Zpos n => powi_from F64.one a n
  | Zneg n => F64.div F64.one (powi_from F64.one a n)
  end.

(** [x as i32] of a [u32]. *)
Definition as_i32 (n : N) : Z := if n <? 2 ^ 31 then Z.of_N n else (Z.of_N n - 2 ^ 32)%Z.

(** ** The search *)

(** The elapsed time each round reads, and the clock of each run of the relaxation: the first
    is the single-path solve, the others are those of the rounds. *)
Record SearchClock := {
  sc_elapsed : nat -> N;
  sc_run : nat -> nat -> N;
}.

(** A split plan whose fuel ran out would not have returned. *)
Definition completed {A} (run : option (outcome A)) : outcome A := default Panic run.

Section search.
Context `{TychoGas} `{!Messages} `{!TychoSwaps} `{!SplitMessages} `{!FrankWolfeMessages}.
Context (decimals : Token -> N) (integer_decode : f64 -> N * Z).
Context (spot_price : ProtocolSim -> Token -> Token -> result SimulationError f64) (fresh_order_id : string).
Implicit Types (self : PathFrankWolfeAlgorithm) (ctx : BellmanFordContext) (allocations : list PathAllocation)
  (candidate : list SimulatedHop).

Definition frank_wolfe_error (e : FrankWolfeError) : AlgorithmError := AE_Other (show_frank_wolfe_error e).

Definition compute_probe_amount self (total_amount : N) (probe_impact gas_cost_output_tokens : f64) : outcome (option N) :=
  if F64.leb probe_impact F64.zero then Ret None
  else
    let probe_amount := ceil_as_u128 (F64.div gas_cost_output_tokens probe_impact) in
    '(max_probe_amount, _) ← split_amount total_amount (fc_max_probe (fw_config self));
    Ret (if max_probe_amount <? probe_amount then None else Some probe_amount).

(** The impact of one path, before its weight. *)
Definition path_probe_impact (path : PathAllocation) : result AlgorithmError f64 :=
  match head (pa_hops path), last (pa_hops path) with
  | Some first_hop, Some last_hop =>
      let amount_in := F64.of_N (pa_amount_in path) in
      let amount_out := F64.of_N (pa_amount_out path) in
      if F64.leb amount_in F64.zero then Err (frank_wolfe_error (NonPositiveAmountIn amount_in))
      else if F64.leb (pa_marginal_price_product path) F64.zero
      then Err (frank_wolfe_error (NonPositiveMarginalPrice (pa_marginal_price_product path)))
      else
        let human token amount := F64.div amount (powi (F64.of_N 10) (as_i32 (decimals token))) in
        let amount_in_human := human (hd_token_in (sh_descriptor first_hop)) amount_in in
        let amount_out_human := human (hd_token_out (sh_descriptor last_hop)) amount_out in
        let reference_output_human := F64.mul amount_in_human (pa_marginal_price_product path) in
        Ok (F64.sub F64.one (F64.div amount_out_human reference_output_human))
  | _, _ => Err (AE_Other "path has no hops")
  end.

Fixpoint weighted_probe_impact (weighted : f64) allocations : result AlgorithmError f64 :=
  match allocations with
  | [] => Ok weighted
  | path :: allocations =>
      impact ← path_probe_impact path;
      weighted_probe_impact (F64.add weighted (F64.mul (pa_flow_fraction path) impact)) allocations
  end.

Definition estimate_probe_impact allocations : result AlgorithmError f64 := weighted_probe_impact F64.zero allocations.

(** *** Candidate paths *)

(** The hops of a route's swaps, each with the tokens the route names. *)
Definition hop_of_swap (route : Route) (swap : Swap) : result AlgorithmError SimulatedHop :=
  token_in ← found "token" (show_address_debug (sw_token_in swap)) (rt_tokens route !! sw_token_in swap);
  token_out ← found "token" (show_address_debug (sw_token_out swap)) (rt_tokens route !! sw_token_out swap);
  Ok {| sh_descriptor := {| hd_component_id := sw_component_id swap; hd_token_in := token_in; hd_token_out := token_out |};
        sh_amount_out := sw_amount_out swap; sh_gas := sw_gas_estimate swap |}.

Fixpoint hops_of_swaps (route : Route) (swaps : list Swap) : result AlgorithmError (list SimulatedHop) :=
  match swaps with
  | [] => Ok []
  | swap :: swaps => hop ← hop_of_swap route swap; hops ← hops_of_swaps route swaps; Ok (hop :: hops)
  end.

(** The committed hops at no gas. *)
Definition zero_gas_committed (overrides : MarketOverrides) allocations : MarketOverrides :=
  fold_left (fun overrides hop =>
      with_zero_gas overrides (hd_component_id (sh_descriptor hop)) (in_of (sh_descriptor hop)) (out_of (sh_descriptor hop)))
    (allocations ≫= pa_hops) overrides.

(** [Order::new] with the default sender. *)
Definition probe_order (token_in token_out : Address) (probe_amount : N) : Order := {|
  order_id := fresh_order_id; order_token_in := token_in; order_token_out := token_out; order_amount := probe_amount;
  order_side := Sell; order_sender := EmptyString; order_receiver := None |}.

(** The error of an endpoint without an address. *)
Definition endpoint_address (kind : string) ctx (node : option NodeIndex) : result AlgorithmError Address :=
  match node ≫= (fun node => bc_node_address ctx !! node) with
  | Some address => Ok address
  | None => Err (AE_DataNotFound kind (show_node <$> node))
  end.

Definition find_candidate_path self ctx allocations (probe_amount : N) (clock : nat -> N)
    : outcome (result AlgorithmError (list SimulatedHop)) :=
  overrides <-? completed (build_post_swap_overrides allocations (bc_market_data ctx));
  let overrides := zero_gas_committed overrides allocations in
  token_in <-? Ret (endpoint_address "token_in node index" ctx (Some (bc_token_in_node ctx)));
  token_out <-? Ret (endpoint_address "token_out node index" ctx (bc_token_out_node ctx));
  result <-? find_single_route decimals integer_decode (fw_inner self) ctx (probe_order token_in token_out probe_amount)
               overrides clock;
  Ret (hops_of_swaps (rr_route result) (rt_swaps (rr_route result))).

(** *** Gas in output tokens *)

Definition gas_units_to_output_tokens (gas : N) (output_token : Address) ctx : option N :=
  gas_price ← bc_gas_price_wei ctx;
  prices ← bc_token_prices ctx;
  price ← prices !! output_token;
  gas_cost_in_token gas gas_price price.

Definition gas_units_to_output_tokens_f64 (gas : N) (output_token : Address) ctx : f64 :=
  match gas_units_to_output_tokens gas output_token ctx with Some cost => F64.of_N cost | None => F64.zero end.

Definition gas_cost_output_tokens (route : Route) ctx : result AlgorithmError f64 :=
  match last (rt_swaps route) with
  | None => Err (AE_Other "route has no swaps")
  | Some last_swap => Ok (gas_units_to_output_tokens_f64 (total_gas route) (sw_token_out last_swap) ctx)
  end.

Definition compute_split_net_amount_out (route : Route) ctx : result AlgorithmError Z :=
  match last (rt_swaps route) with
  | None => Err (AE_Other "route has no swaps")
  | Some last_swap =>
      let output_token := sw_token_out last_swap in
      let gas_cost_tokens := default 0 (gas_units_to_output_tokens (total_gas route) output_token ctx) in
      Ok (Z.of_N (Route_amount_out route output_token) - Z.of_N gas_cost_tokens)%Z
  end.

(** *** Allocations *)

Definition descriptors_of (path : PathAllocation) : list HopDescriptor := sh_descriptor <$> pa_hops path.

Definition route_to_allocation (route : Route) (order : Order) ctx : result AlgorithmError PathAllocation :=
  hops ← hops_of_swaps route (rt_swaps route);
  match last hops with
  | None => Err (AE_DataNotFound "swap" (Some "route contains no swaps"))
  | Some last_hop =>
      marginal_price_product ← compute_marginal_price_product spot_price (sh_descriptor <$> hops) (bc_market_data ctx) ∅;
      Ok {| pa_hops := hops; pa_flow_fraction := F64.one; pa_amount_in := order_amount order;
            pa_amount_out := sh_amount_out last_hop; pa_marginal_price_product := marginal_price_product |}
  end.

(** [step_size] of the flow moved to the candidate, net of gas. *)
Definition evaluate_split allocations candidate (output_token : Address) (total_amount : N) ctx (step_size : f64) : outcome f64 :=
  let existing := (fun path => F64.mul (pa_flow_fraction path) (F64.sub F64.one step_size)) <$> allocations in
  let takes := F64.gtb step_size F64.zero in
  let trial_fractions := if takes then existing ++ [step_size] else existing in
  let trial_paths :=
    if takes then (descriptors_of <$> allocations) ++ [sh_descriptor <$> candidate] else descriptors_of <$> allocations in
  scored ← completed (evaluate_total_output trial_paths trial_fractions total_amount (bc_market_data ctx) ∅);
  Ret match scored with
      | Ok (total_output, gas) =>
          F64.sub (F64.of_N total_output) (gas_units_to_output_tokens_f64 gas output_token ctx)
      | Err _ => F64.zero
      end.

Definition optimize_step_size self allocations candidate (total_amount : N) ctx : outcome f64 :=
  match last candidate with
  | None => Ret F64.zero
  | Some last_hop =>
      let evaluate_split := evaluate_split allocations candidate (out_of (sh_descriptor last_hop)) total_amount ctx in
      step_size ← golden_section_search evaluate_split F64.zero F64.one (fc_line_search_evals (fw_config self));
      with_step ← evaluate_split step_size;
      without ← evaluate_split F64.zero;
      Ret (if F64.leb with_step without then F64.zero else step_size)
  end.

Definition scale_flow (factor : f64) (path : PathAllocation) : PathAllocation := {|
  pa_hops := pa_hops path; pa_flow_fraction := F64.mul (pa_flow_fraction path) factor; pa_amount_in := pa_amount_in path;
  pa_amount_out := pa_amount_out path; pa_marginal_price_product := pa_marginal_price_product path |}.

Definition candidate_allocation candidate (step_size : f64) : PathAllocation := {|
  pa_hops := candidate; pa_flow_fraction := step_size; pa_amount_in := 0; pa_amount_out := 0;
  pa_marginal_price_product := F64.zero |}.

(** The hops with the amounts and the gas of a simulation, as far as it goes. *)
Fixpoint sync_hops (hops : list SimulatedHop) (results : list (N * N)) : list SimulatedHop :=
  match hops, results with
  | hop :: hops, (amount_out, gas) :: results =>
      {| sh_descriptor := sh_descriptor hop; sh_amount_out := amount_out; sh_gas := gas |} :: sync_hops hops results
  | hops, _ => hops
  end.

(** The paths simulated in order, each on the reserves the ones before leave. *)
Fixpoint resimulate allocations (fractions : list f64) (total_amount : N) (market : MarketState) (post_swap : MarketOverrides)
    : outcome (result AlgorithmError (list PathAllocation)) :=
  match allocations, fractions with
  | path :: allocations, frac :: fractions =>
      '(amount_in, _) ← split_amount total_amount frac;
      sim <-? Ret (simulate_path spot_price (descriptors_of path) amount_in market post_swap);
      let path := {|
        pa_hops := sync_hops (pa_hops path) (sim_hop_results sim); pa_flow_fraction := frac; pa_amount_in := amount_in;
        pa_amount_out := SplitPlan.sim_amount sim; pa_marginal_price_product := sim_marginal_price_product sim |} in
      let post_swap :=
        fold_left (fun overrides state => with_override overrides state.1 state.2) (sim_post_swap_states sim) post_swap in
      rest <-? resimulate allocations fractions total_amount market post_swap;
      Ret (Ok (path :: rest))
  | allocations, _ => Ret (Ok allocations)
  end.

Definition apply_step self allocations candidate (step_size : f64) (total_amount : N) ctx
    : outcome (result AlgorithmError (list PathAllocation)) :=
  let allocations := (scale_flow (F64.sub F64.one step_size) <$> allocations) ++ [candidate_allocation candidate step_size] in
  let allocations := List.filter (fun path => F64.geb (pa_flow_fraction path) (fc_min_split (fw_config self))) allocations in
  match normalize_fractions (pa_flow_fraction <$> allocations) with
  | Err e => Ret (Err (frank_wolfe_error (CannotNormalize e)))
  | Ok remaining_fractions => resimulate allocations remaining_fractions total_amount (bc_market_data ctx) ∅
  end.

Definition same_hop (a b : SimulatedHop) : bool := bool_decide (hop_key (sh_descriptor a) = hop_key (sh_descriptor b)).

Definition is_duplicate_path candidate allocations : bool :=
  existsb (fun path => (length (pa_hops path) =? length candidate)%nat
                       && forallb (fun ab => same_hop ab.1 ab.2) (zip (pa_hops path) candidate)) allocations.

(** *** The rounds *)

(** The rounds from [iteration] on, of which [n] are left. *)
Fixpoint search_splits self ctx (order : Order) (gas_cost : f64) (clock : SearchClock) (n iteration : nat) allocations
    : outcome (result AlgorithmError (list PathAllocation)) :=
  let stop := Ret (Ok allocations) in
  match n with
  | O => stop
  | S n =>
      if bf_timeout (fw_inner self) <=? sc_elapsed clock iteration then stop
      else
        probe_impact <-? Ret (estimate_probe_impact allocations);
        probe ← compute_probe_amount self (order_amount order) probe_impact gas_cost;
        match probe with
        | None => stop
        | Some probe_amount =>
            found ← find_candidate_path self ctx allocations probe_amount (sc_run clock iteration);
            match found with
            | Err _ => stop
            | Ok candidate =>
                if is_duplicate_path candidate allocations then stop
                else
                  step_size ← optimize_step_size self allocations candidate (order_amount order) ctx;
                  if F64.ltb step_size (fc_min_split (fw_config self)) then stop
                  else
                    allocations <-? apply_step self allocations candidate step_size (order_amount order) ctx;
                    search_splits self ctx order gas_cost clock n (S iteration) allocations
            end
        end
  end.

Definition optimize_split self ctx (order : Order) (single_path_result : RouteResult) (clock : SearchClock)
    : outcome (result AlgorithmError (option RouteResult)) :=
  let route := rr_route single_path_result in
  first <-? Ret (route_to_allocation route order ctx);
  gas_cost <-? Ret (gas_cost_output_tokens route ctx);
  initial_probe_impact <-? Ret (estimate_probe_impact [first]);
  probe ← compute_probe_amount self (order_amount order) initial_probe_impact gas_cost;
  match probe with
  | None => Ret (Ok None)
  | Some _ =>
      allocations <-? search_splits self ctx order gas_cost clock (fc_max_paths (fw_config self) - 1) 1 [first];
      if (length allocations <=? 1)%nat then Ret (Ok None)
      else
        split_route <-? completed (build_split_route allocations (bc_market_data ctx) order);
        valid ← Route_validate split_route;
        match valid with
        | Err _ => Ret (Ok None)
        | Ok _ =>
            split_net <-? Ret (compute_split_net_amount_out split_route ctx);
            Ret (Ok (Some (RouteResult_new split_route split_net (default 0 (bc_gas_price_wei ctx)))))
        end
  end.
End search.

(** ** The solve *)

Section solve.
Context `{TychoGas} `{!Messages} `{!TychoSwaps} `{!SplitMessages} `{!FrankWolfeMessages} `{NodeGraph (EdgeData ())}.

(** Whichever nets more. *)
Definition better_of (single_path_result : RouteResult) (split_result : result AlgorithmError (option RouteResult)) : RouteResult :=
  match split_result with
  | Ok (Some split) =>
      if (rr_net_amount_out single_path_result <? rr_net_amount_out split)%Z then split else single_path_result
  | _ => single_path_result
  end.

Definition fw_find_best_route (decimals : Token -> N) (integer_decode : f64 -> N * Z)
    (spot_price : ProtocolSim -> Token -> Token -> result SimulationError f64) (fresh_order_id : string)
    (self : PathFrankWolfeAlgorithm) (request : SolveParts digraph) (clock : SearchClock)
    : outcome (result AlgorithmError RouteResult) :=
  match build_context (fw_inner self) request with
  | Err e => Ret (Err e)
  | Ok ctx =>
      single_path_result <-? find_single_route decimals integer_decode (fw_inner self) ctx (so_order request) ∅ (sc_run clock 0);
      split_result ← optimize_split decimals integer_decode spot_price fresh_order_id self ctx (so_order request)
                       single_path_result clock;
      Ret (Ok (better_of single_path_result split_result))
  end.
End solve.
