(* ===== verification/FrankWolfeProofs.v ===== *)
(** * FrankWolfeProofs: a split is found without a panic, and pays what it is ranked by

    Doubles stay doubles, so no division of an amount fails; a plan executes every hop of its
    paths and loses no token; the paths of the search are routes of the context; and what the
    solve returns. *)

From stdpp Require Import prelude gmap sets strings list sorting.
From Stdlib Require Import Floats.SpecFloat.
From Stdlib Require Import NArith ZArith Lia.
From S2P Require Import Prelude F64 Types Route RouteProofs Amounts DerivedStore MarketData MarketDataProofs SwapCache Algorithm StableGraph.
From S2P Require Import TokenGraph Paths MostLiquidProperties ReplaceProofs SplitMath Replay SplitPlan SplitPlanProofs SplitReplay.
From S2P Require Import Samples Tracker TokenGraphProperties PetgraphManager Worker WorkerProofs MostLiquidSamples BellmanFord BellmanFordProofs FrankWolfe.

#[local] Open Scope N_scope.

(** ** Doubles *)

Lemma binary_normalize_rounded m e s : rounded (binary_normalize F64.prec F64.emax m e s).
Proof.
  destruct m as [|p|p]; [done|..]; unfold binary_normalize, binary_round; destruct (shl_align _ _ _) as [mz ez];
    by apply binary_round_aux_rounded.
Qed.

Lemma add_rounded a b : rounded a -> rounded b -> rounded (F64.add a b).
Proof.
  intros Ha Hb. destruct a as [sa|sa| |sa ma ea], b as [sb|sb| |sb mb eb]; try done;
    unfold F64.add, SFadd; first [by destruct sa, sb|apply binary_normalize_rounded].
Qed.

Lemma sub_rounded a b : rounded a -> rounded b -> rounded (F64.sub a b).
Proof.
  intros Ha Hb. destruct a as [sa|sa| |sa ma ea], b as [sb|sb| |sb mb eb]; try done;
    unfold F64.sub, SFsub; first [by destruct sa, sb|apply binary_normalize_rounded].
Qed.

Lemma one_rounded : rounded F64.one.
Proof. split; lia. Qed.

Lemma INV_PHI_rounded : rounded INV_PHI.
Proof. by vm_compute. Qed.

Lemma sum_rounded l a : rounded a -> Forall rounded l -> rounded (fold_left F64.add l a).
Proof. intros Ha Hl. revert a Ha. induction Hl as [|b l Hb Hl IH]; intros a Ha; [done|]. cbn. by apply IH, add_rounded. Qed.

Lemma normalize_rounded fractions normalized : Forall rounded fractions -> normalize_fractions fractions = Ok normalized ->
  Forall rounded normalized /\ length normalized = length fractions.
Proof.
  intros Hf. unfold normalize_fractions. destruct fractions as [|f fs] eqn:E; [done|]. rewrite <- E in *.
  destruct (existsb _ _); [done|]. destruct (F64.eqb _ _); [done|]. intros [= <-]. split; [|apply length_fmap].
  apply Forall_fmap. eapply Forall_impl; [exact Hf|]. intros a Ha. apply div_rounded; [done|]. by apply sum_rounded.
Qed.

(** A search between doubles evaluates at doubles and answers one. *)
Lemma golden_section_ret (f : f64 -> outcome f64) lo hi evals : (forall x, rounded x -> exists y, f x = Ret y) ->
  rounded lo -> rounded hi -> exists x, golden_section_search f lo hi evals = Ret x /\ rounded x.
Proof.
  intros Hf Hlo Hhi. unfold golden_section_search. pose proof INV_PHI_rounded as Hphi.
  assert (rounded (F64.mul INV_PHI (F64.sub hi lo))) as Hstep by (apply mul_rounded).
  set (x1 := F64.sub hi _). set (x2 := F64.add lo _).
  assert (rounded x1) as H1 by by apply sub_rounded. assert (rounded x2) as H2 by by apply add_rounded.
  destruct (Hf x1 H1) as (f1 & ->), (Hf x2 H2) as (f2 & ->). cbn [mbind outcome_bind].
  clearbody x1 x2. clear Hstep. generalize (evals - 2)%nat. intros n.
  revert lo hi x1 x2 f1 f2 Hlo Hhi H1 H2. induction n as [|n IH]; intros lo hi x1 x2 f1 f2 Hlo Hhi H1 H2; cbn [golden_section_loop].
  { eexists. split; [done|]. by destruct (F64.geb f1 f2). }
  destruct (F64.ltb f1 f2).
  - assert (rounded (F64.add x1 (F64.mul INV_PHI (F64.sub hi x1)))) as Hx
      by (apply add_rounded; [done|]; apply mul_rounded).
    destruct (Hf _ Hx) as (fx & ->). cbn [mbind outcome_bind]. by apply IH.
  - assert (rounded (F64.sub x2 (F64.mul INV_PHI (F64.sub x2 lo)))) as Hx
      by (apply sub_rounded; [done|]; apply mul_rounded).
    destruct (Hf _ Hx) as (fx & ->). cbn [mbind outcome_bind]. by apply IH.
Qed.

(** ** What a plan executes *)

Section plan.
Context `{TychoMarket} `{!Messages} `{!TychoSwaps} `{!SplitMessages}.
Context (market : MarketState) (base_overrides : MarketOverrides) (capture : StateCapture).
Implicit Types (st : PlanState) (x : SimulatedSplitSwap) (hop : HopDescriptor) (paths : list PathAllocation).

(** What came in and what went out of a token. *)
Definition taken (token : Address) (swaps : list SimulatedSplitSwap) : N :=
  sum_by (fun x => if decide (in_of (xs_hop x) = token) then xs_amount_in x else 0) swaps.
Definition paid (token : Address) (swaps : list SimulatedSplitSwap) : N :=
  sum_by (fun x => if decide (out_of (xs_hop x) = token) then xs_amount_out x else 0) swaps.

Definition settled_at (token : Address) (held : N) st : Prop :=
  balance (pl_balances st) token + taken token (pl_swaps st) = held + paid token (pl_swaps st).

Definition executed st hop : Prop := hop ∈ xs_hop <$> pl_swaps st.
Definition waits st hop : Prop := exists token branch, pl_hops_by_token st !! token = Some branch /\ hop ∈ ss_hop <$> branch.

Lemma plan_swap_settled token held st st' swap fed : settled_at token held st ->
  plan_swap market base_overrides capture st swap fed = Ret (Ok st') -> settled_at token held st'.
Proof.
  intros Hs (x & Hx)%plan_swap_shape. unfold settled_at, taken, paid in *.
  rewrite (pw_swaps _ _ _ _ Hx), !sum_by_snoc, (pw_hop _ _ _ _ Hx), (pw_amount _ _ _ _ Hx), (pw_balances _ _ _ _ Hx).
  pose proof (pw_standing _ _ _ _ Hx) as Hle. rewrite balance_credit, balance_insert.
  repeat case_decide; subst; lia.
Qed.

Lemma plan_swaps_settled token held st st' sized : settled_at token held st ->
  plan_swaps market base_overrides capture st sized = Ret (Ok st') -> settled_at token held st'.
Proof.
  revert st. induction sized as [|[swap fed] sized IH]; intros st Hs Hrun; cbn [plan_swaps] in Hrun; [by injection Hrun as <-|].
  apply try_bind_Ok in Hrun as (st1 & Hswap & Hrun). eapply IH; [|done]. by eapply plan_swap_settled.
Qed.

Lemma plan_swaps_hops st st' sized : plan_swaps market base_overrides capture st sized = Ret (Ok st') ->
  xs_hop <$> pl_swaps st' = (xs_hop <$> pl_swaps st) ++ (ss_hop <$> sized.*1).
Proof.
  intros (new & -> & Hnew & _)%plan_swaps_shape. rewrite fmap_app. f_equal.
  induction Hnew as [|x swap new swaps (Hh & _) _ IH]; [done|]. rewrite !fmap_cons. by f_equal.
Qed.

(** A turn: what waits is executed, nothing else is, and the balances stay settled. *)
Lemma plan_token_executes paths token held st st' t : ledger_ok (length paths) (pl_ledger st) ->
  plan_token paths market base_overrides capture st token = Ret (Ok st') ->
  (forall hop, executed st' hop \/ waits st' hop <-> executed st hop \/ waits st hop) /\
  (settled_at t held st -> settled_at t held st') /\
  (Forall (fun x => rounded (xs_split x)) (pl_swaps st) -> Forall (fun x => rounded (xs_split x)) (pl_swaps st')).
Proof.
  intros Hl Hrun. destruct (plan_token_shape paths market base_overrides capture st st' token Hl Hrun) as
    [[_ ->]|(branch & sized & st1 & Ht)]; [done|].
  pose proof (plan_swaps_hops _ _ _ (tu_run _ _ _ _ _ _ _ _ _ Ht)) as Hhops. rewrite (tu_swaps _ _ _ _ _ _ _ _ _ Ht) in Hhops.
  destruct (plan_swaps_shape _ _ _ _ _ _ (tu_run _ _ _ _ _ _ _ _ _ Ht)) as (new & Hnew & Hsame & Hw).
  rewrite (tu_hops _ _ _ _ _ _ _ _ _ Ht) in Hw. unfold executed, waits. rewrite Hhops, Hw.
  pose proof (bs_hops _ _ _ (tu_sized _ _ _ _ _ _ _ _ _ Ht)) as Hp. split_and!.
  - intros hop. rewrite elem_of_app, Hp. split.
    + intros [[?|Hb]|(tok & b & [Hne Hb]%lookup_delete_Some & Hin)]; [by left|right..].
      * exists token, branch. split; [apply Ht|done].
      * by exists tok, b.
    + intros [?|(tok & b & Hb & Hin)]; [left; by left|]. destruct (decide (tok = token)) as [->|Hne].
      * rewrite (tu_branch _ _ _ _ _ _ _ _ _ Ht) in Hb. injection Hb as ->. left. by right.
      * right. exists tok, b. by rewrite lookup_delete_ne.
  - intros Hs. eapply plan_swaps_settled; [|apply Ht]. unfold settled_at in *.
    by rewrite (tu_swaps _ _ _ _ _ _ _ _ _ Ht), (tu_balances _ _ _ _ _ _ _ _ _ Ht).
  - intros Hr. rewrite Hnew, (tu_swaps _ _ _ _ _ _ _ _ _ Ht). apply Forall_app. split; [done|].
    pose proof (bs_rounded _ _ _ (tu_sized _ _ _ _ _ _ _ _ _ Ht)) as Hro. clear -Hsame Hro.
    induction Hsame as [|x swap new swaps (_ & Hx & _) _ IH]; [done|]. apply Forall_cons in Hro as [? ?].
    constructor; [by rewrite Hx|by apply IH].
Qed.

Lemma plan_loop_executes paths fuel st stf held t : ledger_ok (length paths) (pl_ledger st) ->
  plan_loop paths market base_overrides capture fuel st = Some (Ret (Ok stf)) ->
  (forall hop, executed stf hop \/ waits stf hop <-> executed st hop \/ waits st hop) /\
  (settled_at t held st -> settled_at t held stf) /\
  (Forall (fun x => rounded (xs_split x)) (pl_swaps st) -> Forall (fun x => rounded (xs_split x)) (pl_swaps stf)).
Proof.
  revert st. induction fuel as [|fuel IH]; intros st Hl Hrun; cbn [plan_loop] in Hrun; destruct (pl_ready st) as [|token ready];
    try done; [by injection Hrun as <-..|].
  destruct (plan_token _ _ _ _ _ _) as [[st'|e]|] eqn:Ht; try done.
  destruct (plan_token_ret paths market base_overrides capture (pop_ready st ready) token Hl) as (r & Hr & Hok).
  rewrite Ht in Hr. injection Hr as <-. destruct (Hok st' eq_refl) as [Hl' _].
  destruct (plan_token_executes paths token held (pop_ready st ready) st' t Hl Ht) as (Hiff & Hset & Hro).
  destruct (IH st' Hl' Hrun) as (Hiff' & Hset' & Hro'). split_and!; [|intros Hs; by apply Hset', Hset|intros Hs; by apply Hro', Hro].
  intros hop. by rewrite Hiff', Hiff.
Qed.
End plan.

(** The hops of the paths are merged: each has one of its key. *)
Section merging.
Context `{TychoMarket}.
Implicit Types (hop : HopDescriptor) (swap : SplitSwap) (paths : list PathAllocation).

Lemma merged_hops_cover paths path simulated : path ∈ paths -> simulated ∈ pa_hops path ->
  exists swap, merged_hops paths !! hop_key (sh_descriptor simulated) = Some swap /\
    hop_key (ss_hop swap) = hop_key (sh_descriptor simulated).
Proof.
  intros Hpath Hhop. unfold merged_hops.
  assert (sh_descriptor simulated ∈ sh_descriptor <$> (paths ≫= pa_hops)) as Hin.
  { apply list_elem_of_fmap_2. apply list_elem_of_bind. by exists path. }
  revert Hin. generalize (sh_descriptor simulated) as hop. generalize (sh_descriptor <$> (paths ≫= pa_hops)) as hops.
  intros hops hop Hin.
  assert (forall m, map_Forall (fun (key : HopKey) swap => hop_key (ss_hop swap) = key) m ->
    map_Forall (fun key swap => hop_key (ss_hop swap) = key)
      (fold_left (fun hops hop => or_insert_with hops (hop_key hop) (SplitSwap_new hop)) hops m) /\
    (hop ∈ hops \/ is_Some (m !! hop_key hop) -> is_Some (fold_left (fun hops hop => or_insert_with hops (hop_key hop) (SplitSwap_new hop)) hops m
      !! hop_key hop))) as Hfold.
  { clear Hin. induction hops as [|h hops IH]; intros m Hm; cbn [fold_left].
    - split; [done|]. by intros [?%elem_of_nil|?].
    - assert (map_Forall (fun key swap => hop_key (ss_hop swap) = key) (or_insert_with m (hop_key h) (SplitSwap_new h))) as Hm'.
      { unfold or_insert_with. destruct (m !! hop_key h); [done|]. by apply map_Forall_insert_2. }
      destruct (IH _ Hm') as [Hk Hs]. split; [done|]. intros Hor. apply Hs.
      assert (forall key, is_Some (m !! key) \/ key = hop_key h -> is_Some (or_insert_with m (hop_key h) (SplitSwap_new h) !! key)) as Hins.
      { intros key Hor'. unfold or_insert_with. destruct (m !! hop_key h) eqn:E.
        - destruct Hor' as [?| ->]; [done|by rewrite E].
        - destruct (decide (key = hop_key h)) as [->|Hne]; [by rewrite lookup_insert_eq|].
          rewrite lookup_insert_ne by done. by destruct Hor'. }
      destruct Hor as [[->|?]%elem_of_cons|?]; [right; apply Hins; by right|by left|right; apply Hins; by left]. }
  destruct (Hfold ∅) as [Hk Hs]; [apply map_Forall_empty|]. destruct (Hs (or_introl Hin)) as [swap Hswap].
  exists swap. split; [done|]. by apply (Hk _ _ Hswap).
Qed.

Lemma collected_branch (swaps : list SplitSwap) (m : gmap Bytes (list SplitSwap)) swap :
  swap ∈ swaps \/ (exists branch, m !! in_of (ss_hop swap) = Some branch /\ swap ∈ branch) ->
  exists branch, fold_left (fun collections swap => push_to collections (in_of (ss_hop swap)) swap) swaps m !! in_of (ss_hop swap) = Some branch
    /\ swap ∈ branch.
Proof.
  revert m. induction swaps as [|s swaps IH]; intros m Hor; cbn [fold_left].
  { by destruct Hor as [?%elem_of_nil|?]. }
  apply IH. destruct Hor as [[->|?]%elem_of_cons|(branch & Hb & Hin)]; [right|by left|right].
  - unfold push_to. rewrite lookup_insert_eq. eexists. split; [done|]. set_solver.
  - unfold push_to. destruct (decide (in_of (ss_hop s) = in_of (ss_hop swap))) as [E|Hne].
    + rewrite E, lookup_insert_eq, Hb. eexists. split; [done|]. cbn. set_solver.
    + rewrite lookup_insert_ne by done. by exists branch.
Qed.

Lemma merge_shared_hops_cover paths path simulated : path ∈ paths -> simulated ∈ pa_hops path ->
  exists token branch swap, merge_shared_hops paths !! token = Some branch /\ swap ∈ branch /\
    hop_key (ss_hop swap) = hop_key (sh_descriptor simulated).
Proof.
  intros Hpath Hhop. destruct (merged_hops_cover paths path simulated Hpath Hhop) as (swap & Hswap & Hkey).
  assert (swap ∈ (map_to_list (merged_hops paths)).*2) as Hin.
  { apply list_elem_of_fmap. exists (hop_key (sh_descriptor simulated), swap). split; [done|]. by apply elem_of_map_to_list. }
  destruct (collected_branch (map_to_list (merged_hops paths)).*2 ∅ swap (or_introl Hin)) as (branch & Hb & Hs).
  exists (in_of (ss_hop swap)), (merge_sort key_before branch), swap. unfold merge_shared_hops. rewrite lookup_fmap, Hb.
  split_and!; [done|by rewrite merge_sort_Permutation|done].
Qed.
End merging.

(** ** A split route *)

Section execution.
Context `{TychoMarket} `{!Messages} `{!TychoSwaps} `{!SplitMessages}.
Context (market : MarketState) (paths : list PathAllocation) (start : Address) (amount : N).
Implicit Types (x : SimulatedSplitSwap) (hop : HopDescriptor).

(** What an executed plan is, [P] being what all hops of the paths have. *)
Record plan_executed (P : HopDescriptor -> Prop) (ex : SplitExecution) : Prop := {
  pe_hops : Forall (fun x => P (xs_hop x)) (ex_swaps ex);
  pe_all : forall path simulated, path ∈ paths -> simulated ∈ pa_hops path ->
    exists x, x ∈ ex_swaps ex /\ hop_key (xs_hop x) = hop_key (sh_descriptor simulated);
  pe_settled : forall t, balance (ex_available ex) t + taken t (ex_swaps ex)
    = (if decide (t = start) then amount else 0) + paid t (ex_swaps ex);
  pe_rounded : Forall (fun x => rounded (xs_split x)) (ex_swaps ex);
  pe_start : ex_swaps ex = [] \/ (fun x => in_of (xs_hop x)) <$> head (ex_swaps ex) = Some start /\ taken start (ex_swaps ex) = amount;
}.

Lemma execute_split_plan_spec P capture ex :
  (forall path simulated, path ∈ paths -> simulated ∈ pa_hops path -> P (sh_descriptor simulated)) ->
  execute_split_plan paths market start amount ∅ capture = Some (Ret (Ok ex)) -> plan_executed P ex.
Proof.
  intros HP Hex. unfold execute_split_plan in Hex. destruct (validate_paths paths) as [|e]; [|done].
  destruct (PathLedger_new paths) as [ledger|e] eqn:Hled; [|done].
  assert (ledger_ok (length paths) ledger) as Hl.
  { unfold PathLedger_new in Hled. destruct (forallb _ _); [done|]. injection Hled as <-.
    split; cbn; [apply length_fmap|apply length_replicate]. }
  apply fmap_Some in Hex as ([[st|e]|] & Hloop & Hfin); try done. symmetry in Hfin. cbn in Hfin. injection Hfin as Hfin.
  unfold finish_plan in Hfin. case_bool_decide as Hdone; [|done]. injection Hfin as <-.
  set (st0 := PlanState_new paths start amount ledger) in *.
  assert (forall hop, ~ waits st hop) as Hnone.
  { intros hop (tok & b & Hb & _). by rewrite Hdone, lookup_empty in Hb. }
  assert (forall hop, executed st hop <-> waits st0 hop) as Hexec.
  { intros hop. destruct (plan_loop_executes market ∅ capture paths _ st0 st 0 start Hl Hloop) as (Hiff & _).
    specialize (Hiff hop). split.
    - intros He. destruct Hiff as [Hiff _]. destruct (Hiff (or_introl He)) as [Hn|?]; [by apply elem_of_nil in Hn|done].
    - intros Hw. destruct Hiff as [_ Hiff]. destruct (Hiff (or_intror Hw)) as [?|?]; [done|by destruct (Hnone hop)]. }
  pose proof (merge_shared_hops_from P paths HP) as HM. split; cbn [ex_swaps ex_available].
  - apply Forall_forall. intros x Hx. destruct (proj1 (Hexec (xs_hop x))) as (tok & b & Hb & Hin).
    { unfold executed. by apply list_elem_of_fmap_2. }
    apply list_elem_of_fmap in Hin as (swap & -> & Hin). pose proof (HM _ _ Hb) as Hall. rewrite Forall_forall in Hall.
    by destruct (Hall _ Hin).
  - intros path simulated Hpath Hhop. destruct (merge_shared_hops_cover paths path simulated Hpath Hhop) as (tok & b & swap & Hb & Hin & Hk).
    assert (executed st (ss_hop swap)) as (x & Hx & Hxin)%list_elem_of_fmap.
    { apply Hexec. exists tok, b. split; [done|]. by apply list_elem_of_fmap_2. }
    exists x. split; [done|]. by rewrite <- Hx.
  - intros t. destruct (plan_loop_executes market ∅ capture paths _ st0 st (if decide (t = start) then amount else 0) t Hl Hloop)
      as (_ & Hset & _). apply Hset. unfold settled_at, balance, taken, paid. cbn.
    destruct (decide (t = start)) as [->|Hne]; [by rewrite lookup_singleton_eq|by rewrite lookup_singleton_ne].
  - destruct (plan_loop_executes market ∅ capture paths _ st0 st 0 start Hl Hloop) as (_ & _ & Hro). apply Hro. constructor.
  - destruct (plan_starts paths market start amount ledger (length (paths ≫= pa_hops)) capture st Hl) as [?|[? ?]];
      [|exact Hloop|by left|by right].
    intros tok b Hb. eapply Forall_impl; [exact (HM _ _ Hb)|]. by intros swap [? _].
Qed.
End execution.

(** The route of a plan: its swaps are the plan's. *)
Section split_route.
Context `{TychoMarket} `{!Messages} `{!TychoSwaps} `{!SplitMessages}.
Context (market : MarketState) (paths : list PathAllocation) (order : Order) (route : Route).
Implicit Types (x : SimulatedSplitSwap) (hop : HopDescriptor).

Lemma route_swaps_paid xs swaps : route_swaps market xs = Ok swaps -> sw_amount_out <$> swaps = xs_amount_out <$> xs.
Proof.
  revert swaps. induction xs as [|x xs IH]; intros swaps Hr; cbn [route_swaps] in Hr; [by injection Hr as <-|].
  apply bind_Ok in Hr as (s & Hs & Hr). apply bind_Ok in Hr as (swaps' & Hr & [= <-]). rewrite !fmap_cons, (IH _ Hr). f_equal.
  unfold route_swap in Hs. destruct (get_component _ _) as [component|]; [|done]. destruct (xs_pre_swap_state x) as [state|]; [|done].
  by injection Hs as <-.
Qed.

Lemma build_split_route_spec : build_split_route paths market order = Some (Ret (Ok route)) ->
  exists ex, execute_split_plan paths market (order_token_in order) (order_amount order) ∅ Keep = Some (Ret (Ok ex)) /\
    rt_swaps route <> [] /\ Forall2 same_step (rt_swaps route) (ex_swaps ex) /\
    sw_amount_in <$> rt_swaps route = xs_amount_in <$> ex_swaps ex /\ sw_amount_out <$> rt_swaps route = xs_amount_out <$> ex_swaps ex.
Proof.
  intros Hbuild. unfold build_split_route in Hbuild.
  apply fmap_Some in Hbuild as ([[ex|e]|] & -> & Hr); try done. symmetry in Hr. cbn in Hr. injection Hr as Hr.
  apply bind_Ok in Hr as (swaps & Hswaps & Hnew).
  assert (rt_swaps route = swaps /\ swaps <> []) as [-> Hne]
    by (unfold Route_new in Hnew; destruct swaps; [done|by injection Hnew as <-]).
  destruct (route_swaps_same market _ _ Hswaps) as (Hsame & Ham & _). exists ex. split_and!; [done..|].
  by apply route_swaps_paid.
Qed.

(** Hops that lead from a token to another. *)
Fixpoint leads (from : Address) (hops : list HopDescriptor) (to : Address) : Prop :=
  match hops with
  | [] => from = to
  | hop :: hops => in_of hop = from /\ leads (out_of hop) hops to
  end.

Lemma leads_next from hops to i hop : leads from hops to -> hops !! i = Some hop -> out_of hop <> to ->
  exists next, next ∈ hops /\ in_of next = out_of hop.
Proof.
  revert from i. induction hops as [|h hops IH]; intros from i Hl Hi Hne; [done|].
  destruct Hl as [Hin Hl]. destruct i as [|i]; cbn in Hi.
  - injection Hi as ->. destruct hops as [|next hops]; [by cbn in Hl|]. exists next. split; [set_solver|]. by destruct Hl.
  - destruct (IH _ _ Hl Hi Hne) as (next & ? & ?). exists next. split; [by right|done].
Qed.

Context (Hbuild : build_split_route paths market order = Some (Ret (Ok route))).
Context (Hpaths : Forall (fun path => leads (order_token_in order) (descriptors_of path) (order_token_out order) /\
  Forall (fun hop => out_of hop <> order_token_in order /\ in_of hop <> order_token_out order) (descriptors_of path)) paths).

(** The hop of a swap is one of a path. *)
Definition of_paths hop : Prop := exists path, path ∈ paths /\ hop ∈ descriptors_of path.

Lemma split_executed : exists ex, execute_split_plan paths market (order_token_in order) (order_amount order) ∅ Keep = Some (Ret (Ok ex)) /\
  plan_executed paths (order_token_in order) (order_amount order) of_paths ex /\ rt_swaps route <> [] /\
  Forall2 same_step (rt_swaps route) (ex_swaps ex) /\
  sw_amount_in <$> rt_swaps route = xs_amount_in <$> ex_swaps ex /\ sw_amount_out <$> rt_swaps route = xs_amount_out <$> ex_swaps ex.
Proof.
  destruct (build_split_route_spec Hbuild) as (ex & Hex & Hne & Hsame & Hin & Hout). exists ex. split_and!; [done| |done..].
  eapply execute_split_plan_spec; [|exact Hex]. intros path simulated Hpath Hhop. exists path. split; [done|].
  by apply list_elem_of_fmap_2.
Qed.

(** Every swap of the route has the hop of a path, and every hop of a path has a swap. *)
Lemma split_swaps : Forall (fun s => exists hop, of_paths hop /\ sw_component_id s = hd_component_id hop /\
    sw_token_in s = in_of hop /\ sw_token_out s = out_of hop /\ rounded (sw_split s)) (rt_swaps route) /\
  (forall hop, of_paths hop -> exists s, s ∈ rt_swaps route /\ sw_token_in s = in_of hop /\ sw_token_out s = out_of hop).
Proof.
  destruct split_executed as (ex & _ & Hpe & _ & Hsame & _). split.
  - apply Forall_forall. intros s (i & Hi)%list_elem_of_lookup. destruct (Forall2_lookup_l _ _ _ _ _ Hsame Hi) as (x & Hx & Hs).
    exists (xs_hop x). pose proof (pe_hops _ _ _ _ _ Hpe) as Hh. pose proof (pe_rounded _ _ _ _ _ Hpe) as Hr.
    rewrite Forall_lookup in Hh, Hr. specialize (Hh _ _ Hx). specialize (Hr _ _ Hx). cbn in Hr. rewrite <- (ss_same_split _ _ Hs) in Hr.
    split_and!; [done|apply Hs..|done].
  - intros hop (path & Hpath & (simulated & -> & Hin)%list_elem_of_fmap).
    destruct (pe_all _ _ _ _ _ Hpe path simulated Hpath Hin) as (x & (i & Hx)%list_elem_of_lookup & Hkey).
    destruct (Forall2_lookup_r _ _ _ _ _ Hsame Hx) as (s & Hi & Hs). exists s. split; [by eapply list_elem_of_lookup_2|].
    unfold hop_key in Hkey. injection Hkey as _ <- <-. split; apply Hs.
Qed.

Lemma split_input : input_token route = Some (order_token_in order) /\
  sum_by (fun s => if decide (sw_token_in s = order_token_in order) then sw_amount_in s else 0) (rt_swaps route) = order_amount order.
Proof.
  destruct split_executed as (ex & _ & Hpe & Hne & Hsame & Hin & _).
  destruct (pe_start _ _ _ _ _ Hpe) as [Hnil|[Hhead Htaken]]; [rewrite Hnil in Hsame; by apply Forall2_nil_inv_r in Hsame|]. split.
  - unfold input_token. destruct Hsame as [|s x swaps xs Hs _]; [done|]. cbn in *. injection Hhead as <-. f_equal. apply Hs.
  - rewrite <- Htaken. apply sum_by_forall2. clear -Hsame Hin.
    induction Hsame as [|s x swaps xs Hs Hsame IH]; [done|]. rewrite !fmap_cons in Hin. injection Hin as Ha Hin.
    constructor; [|by apply IH]. by rewrite (ss_in _ _ Hs), Ha.
Qed.

(** The last swap of a valid route ends where the paths do: what another paid would be taken again. *)
Lemma split_output : Route_validate route = Ret (Ok tt) -> output_token route = Some (order_token_out order).
Proof.
  intros Hvalid. destruct split_swaps as [Hswaps Hhops]. destruct split_input as [Hinput _].
  assert (exists l, last (rt_swaps route) = Some l) as (l & Hlast).
  { destruct (last (rt_swaps route)) eqn:E; [by eexists|]. apply last_None in E. unfold input_token in Hinput. by rewrite E in Hinput. }
  unfold output_token. rewrite Hlast. cbn. f_equal. destruct (decide (sw_token_out l = order_token_out order)) as [|Hne]; [done|exfalso].
  pose proof (last_Some_elem_of _ _ Hlast) as Hl_in. rewrite Forall_forall in Hswaps.
  destruct (Hswaps l Hl_in) as (hop & (path & Hpath & (i & Hi)%list_elem_of_lookup) & _ & _ & Hl_out & _).
  rewrite Forall_forall in Hpaths. destruct (Hpaths path Hpath) as [Hlead Hends].
  destruct (leads_next _ _ _ _ _ Hlead Hi) as (next & Hnext & Hcont); [by rewrite <- Hl_out|].
  destruct (Hhops next) as (s & Hs & Hs_in & _); [by exists path|].
  assert (sw_token_out l <> order_token_in order) as Hnotin.
  { rewrite Hl_out. rewrite Forall_lookup in Hends. by destruct (Hends _ _ Hi). }
  rewrite Hcont, <- Hl_out in Hs_in.
  destruct (head (rt_swaps route)) as [f|] eqn:Hhead; [|by unfold input_token in Hinput; rewrite Hhead in Hinput].
  assert (sw_token_in f = order_token_in order) as Hf by (unfold input_token in Hinput; rewrite Hhead in Hinput; by injection Hinput).
  destruct (is_split route) eqn:Hsp.
  - unfold Route_validate in Hvalid. rewrite Hsp in Hvalid. destruct (rt_swaps route) as [|s0 rest] eqn:Hsw; [done|]. rewrite <- Hsw in *.
    pose proof (split_route_facts route f l Hhead Hlast ltac:(congruence) Hvalid) as Hfacts.
    by apply (network_terminal_sink _ _ _ Hfacts s Hs).
  - apply (sequential_valid route Hsp) in Hvalid as (_ & Hconn & Hsimple).
    apply list_elem_of_lookup in Hs as [j Hj].
    rewrite last_lookup in Hlast. set (n := pred (length (rt_swaps route))) in *.
    pose proof (lookup_lt_Some _ _ _ Hj) as Hlt.
    destruct j as [|j]; [rewrite head_lookup, Hj in Hhead; congruence|].
    destruct (lookup_lt_is_Some_2 (rt_swaps route) j ltac:(lia)) as [p Hp].
    assert (sw_token_out p = sw_token_out l) as Heq by (rewrite (Hconn j p s Hp Hj); done).
    assert (route_path (rt_swaps route) !! S j = Some (sw_token_out p) /\ route_path (rt_swaps route) !! S n = Some (sw_token_out l)
      /\ length (route_path (rt_swaps route)) = S (S n) /\ head (route_path (rt_swaps route)) = Some (sw_token_in f)) as (Hat_j & Hat_n & Hlen & Hat_0).
    { clear -Hp Hlast Hhead Hlt. unfold route_path. destruct (rt_swaps route) as [|s0 rest] eqn:E; [done|].
      rewrite !lookup_cons_ne_0 by done. cbn [pred]. rewrite !list_lookup_fmap, Hp, Hlast. cbn in Hhead. injection Hhead as ->.
      subst n. cbn. rewrite length_fmap. done. }
    destruct Hsimple as [Hnd|[_ Hclose]].
    + rewrite Heq in Hat_j. pose proof (NoDup_lookup _ _ _ _ Hnd Hat_j Hat_n). lia.
    + rewrite last_lookup, Hlen, Hat_0 in Hclose. cbn [pred] in Hclose. rewrite Hat_n in Hclose. injection Hclose as Hclose. congruence.
Qed.

(** Replaying the route pays what its swaps say. *)
Lemma split_replays : Route_validate route = Ret (Ok tt) -> order_token_in order <> order_token_out order ->
  (forall hop, of_paths hop -> hop_registered market hop) -> splits_readable (rt_swaps route) = true ->
  replay_route route market =
    Ret (Ok {| rp_amount_out := Route_amount_out route (order_token_out order); rp_gas := total_gas route |}).
Proof.
  intros Hvalid Hne Hreg Hread. destruct split_executed as (ex & Hex & Hpe & _ & Hsame & _ & Hout).
  destruct (split_route_replay_lemma paths market order route ex Hex Hbuild) with (order_token_out order) as [-> _];
    [|done|by apply split_output|].
  { intros path hop Hpath Hhop. apply Hreg. exists path. split; [done|]. by apply list_elem_of_fmap_2. }
  do 3 f_equal. pose proof (pe_settled _ _ _ _ _ Hpe (order_token_out order)) as Hset. rewrite decide_False in Hset by done.
  assert (taken (order_token_out order) (ex_swaps ex) = 0) as Htaken.
  { unfold taken. pose proof (pe_hops _ _ _ _ _ Hpe) as Hh. clear -Hh Hpaths. induction Hh as [|x xs (path & Hpath & Hin) Hh IH]; [done|].
    rewrite sum_by_cons, IH, decide_False; [done|]. rewrite Forall_forall in Hpaths. destruct (Hpaths _ Hpath) as [_ Hends].
    rewrite Forall_forall in Hends. by destruct (Hends _ Hin). }
  rewrite Htaken, N.add_0_r, N.add_0_l in Hset. rewrite Hset. unfold Route_amount_out, paid. rewrite sum_by_filterb.
  symmetry. apply sum_by_forall2. clear -Hsame Hout. induction Hsame as [|s x swaps xs Hs Hsame IH]; [done|].
  rewrite !fmap_cons in Hout. injection Hout as Ha Hout. constructor; [|by apply IH]. rewrite (ss_out _ _ Hs), Ha.
  case_bool_decide; case_decide; done.
Qed.
End split_route.

(** ** The routes of the relaxation *)

Section routes.
Context `{TychoGas} `{!Messages} `{!TychoSwaps} (decimals : Token -> N) (integer_decode : f64 -> N * Z).
Context (self : BellmanFordAlgorithm) (ctx : BellmanFordContext) (overrides : MarketOverrides).
Implicit Types (path : list PathEdge) (hops : list SimulatedHop) (order : Order).

#[local] Abbreviation addr_of := (addr_of ctx).

(** The tokens a route names are the context's, each under its address. *)
Definition route_tokens_ok (route_tokens : gmap Address Token) : Prop := forall a t,
  route_tokens !! a = Some t -> token_address_of t = a /\ exists v, bc_token_map ctx !! v = Some t.

Definition names (route_tokens : gmap Address Token) (s : Swap) : Prop :=
  is_Some (route_tokens !! sw_token_in s) /\ is_Some (route_tokens !! sw_token_out s).

Lemma or_insert_ok route_tokens v t : bc_token_map ctx !! v = Some t -> route_tokens_ok route_tokens ->
  route_tokens_ok (or_insert route_tokens t) /\ is_Some (or_insert route_tokens t !! token_address_of t) /\
  forall a, is_Some (route_tokens !! a) -> is_Some (or_insert route_tokens t !! a).
Proof.
  intros Hv Hok. unfold or_insert. destruct (route_tokens !! token_address_of t) eqn:Ht; [by rewrite Ht|]. split_and!.
  - intros a t'. destruct (decide (token_address_of t = a)) as [<-|Hne].
    + rewrite lookup_insert_eq. intros [= <-]. split; [done|by exists v].
    + rewrite lookup_insert_ne by done. apply Hok.
  - by rewrite lookup_insert_eq.
  - intros a Ha. destruct (decide (token_address_of t = a)) as [<-|Hne]; [by rewrite lookup_insert_eq|by rewrite lookup_insert_ne].
Qed.

Lemma edge_swaps_tokens nodes path swaps route_tokens swaps' route_tokens' :
  edge_swaps ctx nodes overrides swaps route_tokens path = Ret (Ok (swaps', route_tokens')) ->
  route_tokens_ok route_tokens -> Forall (names route_tokens) swaps ->
  route_tokens_ok route_tokens' /\ Forall (names route_tokens') swaps'.
Proof.
  revert swaps route_tokens. induction path as [|[[u v] c] path IH]; intros swaps route_tokens Hrun Hok Hn; cbn [edge_swaps] in Hrun;
    [by injection Hrun as <- <-|].
  apply try_bind_Ok in Hrun as ([[s tu] tv] & Hs & Hrun). unfold edge_swap in Hs.
  destruct (bc_token_map ctx !! u) as [tu'|] eqn:Hu; [|done]. cbn [found try_bind mbind outcome_bind] in Hs.
  destruct (bc_token_map ctx !! v) as [tv'|] eqn:Hv; [|done]. cbn [found try_bind mbind outcome_bind] in Hs.
  destruct (get_component _ _) as [component|]; [|done]. cbn [found try_bind mbind outcome_bind] in Hs.
  destruct (sim_of _ _ _) as [sim|]; [|done]. cbn [found try_bind mbind outcome_bind] in Hs.
  apply bind_Ret in Hs as (at_u & _ & Hs). apply bind_Ret in Hs as (at_v & _ & [= <- <- <-]).
  destruct (or_insert_ok route_tokens u tu' Hu Hok) as (Hok1 & Hin1 & Hkeep1).
  destruct (or_insert_ok _ v tv' Hv Hok1) as (Hok2 & Hin2 & Hkeep2).
  eapply IH; [exact Hrun|done|]. apply Forall_app. split.
  - eapply Forall_impl; [exact Hn|]. intros s [? ?]. split; auto.
  - constructor; [|constructor]. split; cbn; [by apply Hkeep2|done].
Qed.

(** The route of a solve, read off a path. *)
Lemma find_single_route_route order clock result :
  find_single_route decimals integer_decode self ctx order overrides clock = Ret (Ok result) ->
  route_tokens_ok (rt_tokens (rr_route result)) /\ Forall (names (rt_tokens (rr_route result))) (rt_swaps (rr_route result)).
Proof.
  intros Hrun. unfold find_single_route in Hrun. destruct (bc_token_out_node ctx) as [out|]; [|done].
  apply bind_Ret in Hrun as (spfa & _ & Hrun). apply bind_Ret in Hrun as (at_out & _ & Hrun).
  destruct (_ =? _); [done|]. apply try_bind_Ok in Hrun as (path & _ & Hrun). apply try_bind_Ok in Hrun as (route & Hroute & Hrun).
  apply try_bind_Ok in Hrun as (net & _ & [= <-]). cbn [RouteResult_new rr_route].
  unfold build_route in Hroute. apply try_bind_Ok in Hroute as ([swaps route_tokens] & Hswaps & Hroute).
  destruct (edge_swaps_tokens _ _ _ _ _ _ Hswaps) as [Hok Hn]; [by intros a t; rewrite lookup_empty|constructor|].
  cbn [fst snd] in Hroute. unfold Route_new in Hroute. destruct swaps as [|s swaps]; [done|]. injection Hroute as <-.
  cbn [rt_tokens rt_swaps]. by rewrite fold_insert_map.
Qed.

(** A route's hops. *)
Definition hop_of (s : Swap) (hop : SimulatedHop) : Prop :=
  hd_component_id (sh_descriptor hop) = sw_component_id s /\ in_of (sh_descriptor hop) = sw_token_in s /\
  out_of (sh_descriptor hop) = sw_token_out s /\
  (exists u, bc_token_map ctx !! u = Some (hd_token_in (sh_descriptor hop))) /\
  (exists v, bc_token_map ctx !! v = Some (hd_token_out (sh_descriptor hop))).

Lemma hops_of_swaps_spec route swaps : route_tokens_ok (rt_tokens route) -> Forall (names (rt_tokens route)) swaps ->
  exists hops, hops_of_swaps route swaps = Ok hops /\ Forall2 hop_of swaps hops.
Proof.
  intros Hok Hn. induction Hn as [|s swaps [[tu Hu] [tv Hv]] Hn (hops & Hrun & Hf)]; [by exists []|].
  cbn [hops_of_swaps]. unfold hop_of_swap. rewrite Hu, Hv. cbn [found mbind result_bind]. rewrite Hrun. cbn [mbind result_bind].
  eexists. split; [done|]. constructor; [|done]. destruct (Hok _ _ Hu) as [Hau ?], (Hok _ _ Hv) as [Hav ?].
  unfold hop_of, in_of, out_of. cbn. by split_and!.
Qed.

(** Hops that follow a path of the graph without a repeated token lead from its start to its end. *)
Lemma linked_leads from path to (hops : list HopDescriptor) : linked from path to -> NoDup (addr_of <$> path_nodes from path) ->
  Forall2 (fun (edge : PathEdge) hop => in_of hop = addr_of edge.1.1 /\ out_of hop = addr_of edge.1.2) path hops ->
  leads (addr_of from) hops (addr_of to) /\
  Forall (fun hop => out_of hop <> addr_of from /\ in_of hop <> addr_of to /\ in_of hop <> out_of hop) hops.
Proof.
  intros Hl Hnd Hf. revert from Hl Hnd. induction Hf as [|[[a b] c] hop path hops [Hin Hout] Hf IH]; intros from Hl Hnd.
  { cbn in Hl. subst. split; [done|constructor]. }
  destruct Hl as [-> Hl]. cbn in Hin, Hout. cbn [path_nodes fmap list_fmap fst snd] in Hnd. apply NoDup_cons in Hnd as [Hnew Hnd].
  change (addr_of from ∉ addr_of <$> path_nodes b path) in Hnew. destruct (IH b Hl Hnd) as [Hlead Hall].
  assert (forall h, h ∈ hops -> out_of h ∈ addr_of <$> path_nodes b path) as Houts.
  { intros h (i & Hi)%list_elem_of_lookup. destruct (Forall2_lookup_r _ _ _ _ _ Hf Hi) as ([[x y] z] & He & _ & ->).
    apply list_elem_of_fmap_2. right. apply list_elem_of_fmap. exists (x, y, z). split; [done|]. by eapply list_elem_of_lookup_2. }
  assert (to ∈ path_nodes b path) as Hto.
  { destruct path as [|e path]; [cbn in Hl; subst; by left|]. destruct (linked_last b (e :: path) to Hl ltac:(done)) as (x & y & Hlast).
    right. apply list_elem_of_fmap. exists (x, to, y). split; [done|]. by apply last_Some_elem_of. }
  split; [split; [done|by rewrite Hout]|]. constructor.
  - rewrite Hin, Hout. split_and!; intros Heq; apply Hnew; [rewrite <- Heq|rewrite Heq|rewrite Heq]; apply list_elem_of_fmap_2; [by left|done|by left].
  - apply Forall_forall. intros h Hh. rewrite Forall_forall in Hall. destruct (Hall h Hh) as (_ & ? & ?).
    split_and!; [|done|done]. intros Heq. apply Hnew. rewrite <- Heq. by apply Houts.
Qed.
End routes.

(** ** The hops of a context *)

Section context.
Context `{TychoGas} `{!Messages} `{!TychoSwaps} `{!SplitMessages} `{!FrankWolfeMessages} `{NodeGraph (EdgeData ())}.
Context (decimals : Token -> N) (integer_decode : f64 -> N * Z).
Context (self : BellmanFordAlgorithm) (request : SolveParts digraph) (ctx : BellmanFordContext) (out : NodeIndex).
Context (Hbuilt : built request self ctx out) (Hkeyed : keyed (md_data (so_market request))).
Implicit Types (hop : HopDescriptor).

Let order := so_order request.
Let constraints := so_constraints request.
#[local] Abbreviation tin := (order_token_in order).
#[local] Abbreviation tout := (order_token_out order).

(** A hop the market knows and the request allows, and that does not pass through the order's ends. *)
Record hop_good hop : Prop := {
  hg_registered : hop_registered (bc_market_data ctx) hop;
  hg_pool : excludes_pool constraints (hd_component_id hop) = false;
  hg_token : allows_token constraints (out_of hop) (tin, tout) = true;
  hg_ends : out_of hop <> tin /\ in_of hop <> tout;
}.

Definition hops_good (hops : list HopDescriptor) : Prop := hops <> [] /\ leads tin hops tout /\ Forall hop_good hops.

Lemma end_address v a : is_Some (bc_token_map ctx !! v) -> weight_of (so_graph request) v = a -> addr_of ctx v = a.
Proof. intros [t Ht] <-. unfold addr_of. rewrite Ht. cbn. by rewrite (proj2 (bu_keyed _ _ _ _ Hbuilt Hkeyed) v t Ht). Qed.

Lemma context_token v t : bc_token_map ctx !! v = Some t -> tokens (bc_market_data ctx) !! token_address_of t = Some t.
Proof. intros Hv. rewrite (proj2 (bu_keyed _ _ _ _ Hbuilt Hkeyed) v t Hv). by apply (bu_registered _ _ _ _ Hbuilt). Qed.

(** The route of a solve on the context, whatever states it overrides. *)
Lemma solve_hops (o : Order) overrides run result :
  find_single_route decimals integer_decode self ctx o overrides run = Ret (Ok result) ->
  exists hops, hops_of_swaps (rr_route result) (rt_swaps (rr_route result)) = Ok hops /\ hops_good (sh_descriptor <$> hops).
Proof.
  intros Hrun. destruct (find_single_route_route _ _ _ _ _ _ _ _ Hrun) as [Htok Hnames].
  destruct (hops_of_swaps_spec ctx _ _ Htok Hnames) as (hops & -> & Hhops). exists hops. split; [done|].
  destruct (find_single_route_solved decimals integer_decode self ctx overrides (bu_ok _ _ _ _ Hbuilt) o run out
    (bu_out _ _ _ _ Hbuilt) (bu_ne _ _ _ _ Hbuilt) (bu_lt _ _ _ _ Hbuilt)) as (spfa & r & _ & _ & Hr & Hres).
  rewrite Hrun in Hr. injection Hr as <-. destruct Hres as [Hread _].
  destruct (ends_known _ _ _ _ _ _ Hread) as [Hkin Hkout]. destruct Hread as (path & best & Hp & Hne & _ & _ & Hswaps & _).
  destruct (bu_keyed _ _ _ _ Hbuilt Hkeyed) as [Hdist _]. destruct (bu_ends _ _ _ _ Hbuilt) as [Hwin Hwout].
  pose proof (path_addresses_simple _ _ _ _ _ _ Hdist Hp Hne) as Hnd.
  assert (Forall2 (fun (edge : PathEdge) hop => (in_of hop = addr_of ctx edge.1.1 /\ out_of hop = addr_of ctx edge.1.2) /\
    hd_component_id hop = edge.2 /\ tokens (bc_market_data ctx) !! in_of hop = Some (hd_token_in hop) /\
    tokens (bc_market_data ctx) !! out_of hop = Some (hd_token_out hop)) path (sh_descriptor <$> hops)) as Hall.
  { clear -Hswaps Hhops Hbuilt Hkeyed. revert hops Hhops.
    induction Hswaps as [|edge s path swaps (? & ? & ? & ? & _ & _ & _ & _ & ->) _ IH]; intros hops Hhops;
      [by apply Forall2_nil_inv_l in Hhops as ->|].
    apply Forall2_cons_inv_l in Hhops as (hop & hops' & (Hc & Hin & Hout & (u & Hu) & (v & Hv)) & Hf & ->).
    cbn [fmap list_fmap]. constructor; [|by apply IH]. split_and!; [done..|by apply (context_token u)|by apply (context_token v)]. }
  destruct (linked_leads ctx _ _ _ (sh_descriptor <$> hops) (pt_linked _ _ _ _ _ _ Hp) Hnd) as [Hlead Hends].
  { eapply Forall2_impl; [exact Hall|]. by intros edge hop [? _]. }
  rewrite (end_address _ _ Hkin Hwin), (end_address _ _ Hkout Hwout) in *. split_and!.
  - intros Hnil. rewrite Hnil in Hall. by apply Forall2_nil_inv_r in Hall.
  - done.
  - apply Forall_forall. intros hop (i & Hi)%list_elem_of_lookup.
    destruct (Forall2_lookup_r _ _ _ _ _ Hall Hi) as ([[u v] c] & Hedge & [_ Hv] & Hc & Ht1 & Ht2). cbn in Hv, Hc.
    rewrite Forall_lookup in Hends. destruct (Hends _ _ Hi) as (? & ? & ?).
    pose proof (pt_usable _ _ _ _ _ _ Hp) as Hus. rewrite Forall_lookup in Hus.
    destruct (usable_allowed self request ctx out overrides u v c Hbuilt Hkeyed (Hus _ _ Hedge)) as [Hpool Htoken].
    split; [by split|by rewrite Hc|by rewrite Hv|done].
Qed.

(** What the solve returns when it is not the single path: a valid network from the order's input
    to its output, through hops the request allows, that takes the order's amount, nets what it
    pays less its gas, and replays on the snapshot to what it pays. *)
Record split_of_request (result : RouteResult) : Prop := {
  sr_valid : Route_validate (rr_route result) = Ret (Ok tt);
  sr_input : input_token (rr_route result) = Some tin;
  sr_output : output_token (rr_route result) = Some tout;
  sr_amount : sum_by (fun s => if decide (sw_token_in s = tin) then sw_amount_in s else 0) (rt_swaps (rr_route result)) = order_amount order;
  sr_allowed : Forall (swap_allowed constraints order) (rt_swaps (rr_route result));
  sr_rounded : splits_rounded (rt_swaps (rr_route result));
  sr_uncommitted : rr_commitment result = None;
  sr_net : rr_net_amount_out result = (Z.of_N (Route_amount_out (rr_route result) tout)
    - Z.of_N (default 0%N (gas_units_to_output_tokens (total_gas (rr_route result)) tout ctx)))%Z;
  sr_replays : splits_readable (rt_swaps (rr_route result)) = true ->
    replay_route (rr_route result) (bc_market_data ctx) =
      Ret (Ok {| rp_amount_out := Route_amount_out (rr_route result) tout; rp_gas := total_gas (rr_route result) |});
}.

Lemma split_result_ok allocations route : Forall (fun path => hops_good (descriptors_of path)) allocations -> allocations <> [] ->
  build_split_route allocations (bc_market_data ctx) order = Some (Ret (Ok route)) -> Route_validate route = Ret (Ok tt) ->
  exists net, compute_split_net_amount_out route ctx = Ok net /\
    forall gas_price, split_of_request (RouteResult_new route net gas_price).
Proof.
  intros Hall Hne Hbuild Hvalid.
  assert (Forall (fun path => leads tin (descriptors_of path) tout /\
    Forall (fun hop => out_of hop <> tin /\ in_of hop <> tout) (descriptors_of path)) allocations) as Hpaths.
  { eapply Forall_impl; [exact Hall|]. intros path (_ & Hlead & Hgood). split; [done|].
    eapply Forall_impl; [exact Hgood|]. apply hg_ends. }
  assert (forall hop, of_paths allocations hop -> hop_good hop) as Hof.
  { intros hop (path & Hpath & Hin). rewrite Forall_forall in Hall. destruct (Hall _ Hpath) as (_ & _ & Hgood).
    rewrite Forall_forall in Hgood. by apply Hgood. }
  assert (tin <> tout) as Hends.
  { destruct allocations as [|path allocations]; [done|]. apply Forall_cons in Hall as [(Hhops & Hlead & Hgood) _].
    destruct (descriptors_of path) as [|hop hops]; [done|]. destruct Hlead as [<- _]. apply Forall_cons in Hgood as [Hgood _].
    by destruct (hg_ends _ Hgood). }
  destruct (split_swaps _ _ _ _ Hbuild) as [Hswaps _]. destruct (split_input _ _ _ _ Hbuild) as [Hin Htotal].
  pose proof (split_output _ _ _ _ Hbuild Hpaths Hvalid) as Hout.
  unfold output_token in Hout. destruct (last (rt_swaps route)) as [l|] eqn:Hlast; [|done]. cbn in Hout. injection Hout as Hout.
  unfold compute_split_net_amount_out. rewrite Hlast. eexists. split; [done|]. intros gas_price.
  split; cbn [rr_route rr_net_amount_out rr_commitment RouteResult_new]; try done.
  - unfold output_token. rewrite Hlast. cbn. by f_equal.
  - eapply Forall_impl; [exact Hswaps|]. intros s (hop & Hhop & Hc & _ & Ht & _). apply Hof in Hhop. unfold swap_allowed.
    rewrite Hc, Ht. split; [apply (hg_pool _ Hhop)|apply (hg_token _ Hhop)].
  - eapply Forall_impl; [exact Hswaps|]. by intros s (hop & _ & _ & _ & _ & ?).
  - by rewrite Hout.
  - intros Hread. apply (split_replays _ _ _ _ Hbuild Hpaths Hvalid Hends); [|done]. intros hop Hhop. apply hg_registered. by apply Hof.
Qed.
End context.

(** ** The search *)

Section search.
Context `{TychoGas} `{!Messages} `{!TychoSwaps} `{!SplitMessages} `{!FrankWolfeMessages}.
Context (decimals : Token -> N) (integer_decode : f64 -> N * Z).
Context (spot_price : ProtocolSim -> Token -> Token -> result SimulationError f64) (fresh_order_id : string).
Context (self : PathFrankWolfeAlgorithm) (ctx : BellmanFordContext) (out : NodeIndex) (order : Order).
Context (Hctx : ctx_ok ctx) (Hout : bc_token_out_node ctx = Some out) (Hne : out <> bc_token_in_node ctx)
  (Hlt : (out < bc_max_idx ctx)%nat).
Context (Hconfig : rounded (fc_max_probe (fw_config self))).
Implicit Types (hop : HopDescriptor) (path : PathAllocation) (clock : SearchClock).

(** What the solves on the context give of the hops of their routes. *)
Context (good : list HopDescriptor -> Prop).
Context (Hgood : forall o overrides run result,
  find_single_route decimals integer_decode (fw_inner self) ctx o overrides run = Ret (Ok result) ->
  exists hops, hops_of_swaps (rr_route result) (rt_swaps (rr_route result)) = Ok hops /\ good (sh_descriptor <$> hops)).

Definition path_good path : Prop := good (descriptors_of path) /\ rounded (pa_flow_fraction path).

Lemma completed_ret {A} (run : option (outcome A)) : (exists a, run = Some (Ret a)) -> exists a, completed run = Ret a.
Proof. intros [a ->]. by exists a. Qed.

Lemma build_post_swap_overrides_ret allocations market : exists r, completed (build_post_swap_overrides allocations market) = Ret r.
Proof.
  apply completed_ret. unfold build_post_swap_overrides. destruct (_ ≫= _) as [hop|]; [|by eexists].
  destruct (execute_split_plan_ret allocations market (in_of (sh_descriptor hop)) (sum_by pa_amount_in allocations) ∅ Skip) as [r ->].
  destruct r; by eexists.
Qed.

Lemma build_split_route_ret allocations market (o : Order) : exists r, completed (build_split_route allocations market o) = Ret r.
Proof.
  apply completed_ret. unfold build_split_route.
  destruct (execute_split_plan_ret allocations market (order_token_in o) (order_amount o) ∅ Keep) as [r ->]. destruct r; by eexists.
Qed.

Lemma evaluate_total_output_ret descriptors fractions total market overrides : Forall rounded fractions ->
  exists r, completed (evaluate_total_output descriptors fractions total market overrides) = Ret r.
Proof.
  intros Hf. apply completed_ret. unfold evaluate_total_output. destruct (_ ≫= _) as [hop|]; [|by eexists].
  destruct (terminal_tokens descriptors) as [terminals|e]; [|by eexists].
  assert (exists r, allocations_from_descriptors descriptors fractions total = Ret r) as (r & ->).
  { unfold allocations_from_descriptors. destruct (negb _); [by eexists|].
    destruct (fractions_to_amounts_lemma total fractions Hf) as [-> _]. cbn. by eexists. }
  destruct r as [allocations|e]; [|by eexists].
  destruct (execute_split_plan_ret allocations market (in_of hop) total overrides Skip) as [r ->]. destruct r; by eexists.
Qed.

Lemma find_candidate_path_ret allocations probe run :
  exists r, find_candidate_path decimals integer_decode fresh_order_id self ctx allocations probe run = Ret r /\
    forall candidate, r = Ok candidate -> good (sh_descriptor <$> candidate).
Proof.
  unfold find_candidate_path. destruct (build_post_swap_overrides_ret allocations (bc_market_data ctx)) as (r & ->).
  destruct r as [overrides|e]; cbn [try_bind]; [|by eexists].
  destruct (endpoint_address _ _ (Some _)) as [a|e]; cbn [try_bind]; [|by eexists].
  destruct (endpoint_address _ _ (bc_token_out_node ctx)) as [b|e]; cbn [try_bind]; [|by eexists].
  destruct (find_single_route_solved decimals integer_decode (fw_inner self) ctx (zero_gas_committed overrides allocations)
    Hctx (probe_order fresh_order_id a b probe) run out Hout Hne Hlt) as (spfa & r & _ & _ & Hr & _).
  rewrite Hr. destruct r as [result|e]; cbn [try_bind]; [|by eexists].
  destruct (Hgood _ _ _ _ Hr) as (hops & -> & Hhops). eexists. split; [done|]. by intros candidate [= <-].
Qed.

Lemma compute_probe_amount_ret total impact gas : exists o, compute_probe_amount self total impact gas = Ret o.
Proof.
  unfold compute_probe_amount. destruct (F64.leb _ _); [by eexists|].
  destruct (split_amount_lemma total _ Hconfig) as (part & left & -> & _). cbn. by eexists.
Qed.

Lemma evaluate_split_ret allocations candidate token total step : Forall path_good allocations -> rounded step ->
  exists x, evaluate_split allocations candidate token total ctx step = Ret x.
Proof.
  intros Hall Hstep. unfold evaluate_split.
  assert (Forall rounded ((fun path => F64.mul (pa_flow_fraction path) (F64.sub F64.one step)) <$> allocations)) as Hf.
  { apply Forall_fmap. eapply Forall_impl; [exact Hall|]. intros path _. apply mul_rounded. }
  destruct (F64.gtb step F64.zero);
    [match goal with |- context [evaluate_total_output ?p ?f ?t ?m ?o] => destruct (evaluate_total_output_ret p f t m o) as (r & ->) end;
       [apply Forall_app; split; [done|by repeat constructor]|]
    |match goal with |- context [evaluate_total_output ?p ?f ?t ?m ?o] => destruct (evaluate_total_output_ret p f t m o Hf) as (r & ->) end];
    cbn; by eexists.
Qed.

Lemma optimize_step_size_ret allocations candidate total : Forall path_good allocations ->
  exists x, optimize_step_size self allocations candidate total ctx = Ret x /\ rounded x.
Proof.
  intros Hall. unfold optimize_step_size. destruct (last candidate) as [hop|]; [|by eexists].
  destruct (golden_section_ret (evaluate_split allocations candidate (out_of (sh_descriptor hop)) total ctx) F64.zero F64.one
    (fc_line_search_evals (fw_config self))) as (x & -> & Hx); [intros; by apply evaluate_split_ret|done|apply one_rounded|].
  cbn [mbind outcome_bind].
  destruct (evaluate_split_ret allocations candidate (out_of (sh_descriptor hop)) total x Hall Hx) as (a & ->).
  destruct (evaluate_split_ret allocations candidate (out_of (sh_descriptor hop)) total F64.zero Hall ltac:(done)) as (b & ->).
  cbn. eexists. split; [done|]. by destruct (F64.leb a b).
Qed.

Lemma sync_hops_descriptors hops results : sh_descriptor <$> sync_hops hops results = sh_descriptor <$> hops.
Proof.
  revert results. induction hops as [|hop hops IH]; intros results; [done|]. destruct results as [|[amount gas] results]; [done|].
  cbn [sync_hops]. rewrite !fmap_cons. by rewrite IH.
Qed.

Lemma resimulate_ret allocations fractions total market post_swap : Forall (fun path => good (descriptors_of path)) allocations ->
  Forall rounded fractions -> length fractions = length allocations ->
  exists r, resimulate spot_price allocations fractions total market post_swap = Ret r /\
    forall allocations', r = Ok allocations' -> Forall path_good allocations'.
Proof.
  intros Hall. revert fractions post_swap. induction Hall as [|path allocations Hpath Hall IH]; intros fractions post_swap Hf Hlen.
  { destruct fractions; [|done]. eexists. split; [done|]. by intros ? [= <-]. }
  destruct fractions as [|frac fractions]; [done|]. apply Forall_cons in Hf as [Hfrac Hf]. cbn [resimulate].
  destruct (split_amount_lemma total frac Hfrac) as (part & left & -> & _). cbn [mbind outcome_bind].
  destruct (simulate_path _ _ _ _ _) as [sim|e]; cbn [try_bind]; [|by eexists].
  destruct (IH fractions (fold_left (fun overrides state => with_override overrides state.1 state.2) (sim_post_swap_states sim) post_swap) Hf
    ltac:(cbn in Hlen; lia)) as (r & -> & Hr).
  destruct r as [rest|e]; cbn [try_bind]; [|by eexists]. eexists. split; [done|]. intros ? [= <-]. constructor; [|by apply Hr].
  split; [|done]. unfold descriptors_of. cbn [pa_hops]. rewrite sync_hops_descriptors. exact Hpath.
Qed.

Lemma apply_step_ret allocations candidate step total : Forall path_good allocations -> good (sh_descriptor <$> candidate) ->
  rounded step ->
  exists r, apply_step spot_price self allocations candidate step total ctx = Ret r /\
    forall allocations', r = Ok allocations' -> Forall path_good allocations'.
Proof.
  intros Hall Hcand Hstep. unfold apply_step. set (kept := List.filter _ _).
  assert (Forall path_good kept) as Hkept.
  { apply Forall_forall. intros path [Hin _]%elem_of_filterb. apply elem_of_app in Hin as [Hin| ->%list_elem_of_singleton].
    - apply list_elem_of_fmap in Hin as (path' & -> & Hin). rewrite Forall_forall in Hall. destruct (Hall _ Hin) as [? ?].
      split; [done|]. apply mul_rounded.
    - by split. }
  destruct (normalize_fractions _) as [fractions|e] eqn:Hn; [|by eexists].
  assert (Forall rounded (pa_flow_fraction <$> kept)) as Hf.
  { apply Forall_fmap. eapply Forall_impl; [exact Hkept|]. by intros ? []. }
  destruct (normalize_rounded _ _ Hf Hn) as [Hr Hlen]. rewrite length_fmap in Hlen.
  apply resimulate_ret; [|done|done]. eapply Forall_impl; [exact Hkept|]. by intros ? [].
Qed.

Lemma search_splits_ret gas_cost clock n iteration allocations : Forall path_good allocations ->
  exists r, search_splits decimals integer_decode spot_price fresh_order_id self ctx order gas_cost clock n iteration allocations = Ret r /\
    forall allocations', r = Ok allocations' -> Forall path_good allocations'.
Proof.
  revert iteration allocations. induction n as [|n IH]; intros iteration allocations Hall; cbn [search_splits].
  all: assert (exists r, Ret (Ok (E:=AlgorithmError) allocations) = Ret r /\ forall allocations', r = Ok allocations' -> Forall path_good allocations')
    as Hstop by (eexists; split; [done|]; by intros ? [= <-]).
  - exact Hstop.
  - destruct (_ <=? _); [exact Hstop|]. destruct (estimate_probe_impact _ _) as [impact|e]; cbn [try_bind]; [|by eexists].
    destruct (compute_probe_amount_ret (order_amount order) impact gas_cost) as (o & ->). cbn [mbind outcome_bind].
    destruct o as [probe|]; [|exact Hstop].
    destruct (find_candidate_path_ret allocations probe (sc_run clock iteration)) as (r & -> & Hcand). cbn [mbind outcome_bind].
    destruct r as [candidate|e]; [|exact Hstop]. destruct (is_duplicate_path _ _); [exact Hstop|].
    destruct (optimize_step_size_ret allocations candidate (order_amount order) Hall) as (step & -> & Hstep). cbn [mbind outcome_bind].
    destruct (F64.ltb _ _); [exact Hstop|].
    destruct (apply_step_ret allocations candidate step (order_amount order) Hall (Hcand _ eq_refl) Hstep) as (r & -> & Happly).
    destruct r as [allocations'|e]; cbn [try_bind]; [|by eexists]. apply IH. by apply Happly.
Qed.

Lemma optimize_split_ret single clock : (exists run, find_single_route decimals integer_decode (fw_inner self) ctx order ∅ run = Ret (Ok single)) ->
  exists r, optimize_split decimals integer_decode spot_price fresh_order_id self ctx order single clock = Ret r /\
    forall split, r = Ok (Some split) -> exists allocations route net gas_price,
      Forall path_good allocations /\ allocations <> [] /\ build_split_route allocations (bc_market_data ctx) order = Some (Ret (Ok route)) /\
      Route_validate route = Ret (Ok tt) /\ compute_split_net_amount_out route ctx = Ok net /\ split = RouteResult_new route net gas_price.
Proof.
  intros (run & Hrun). unfold optimize_split, route_to_allocation. destruct (Hgood _ _ _ _ Hrun) as (hops & -> & Hhops).
  cbn [mbind result_bind]. destruct (last hops) as [last_hop|]; [|by eexists].
  destruct (compute_marginal_price_product _ _ _ _) as [product|e]; cbn [mbind result_bind try_bind]; [|by eexists].
  set (first := {| pa_hops := hops |}).
  destruct (gas_cost_output_tokens _ _) as [gas_cost|e]; cbn [try_bind]; [|by eexists].
  destruct (estimate_probe_impact _ _) as [impact|e]; cbn [try_bind]; [|by eexists].
  destruct (compute_probe_amount_ret (order_amount order) impact gas_cost) as (o & ->). cbn [mbind outcome_bind].
  destruct o as [probe|]; [|by eexists].
  destruct (search_splits_ret gas_cost clock (fc_max_paths (fw_config self) - 1) 1 [first]) as (r & -> & Hall).
  { constructor; [|constructor]. split; [done|apply one_rounded]. }
  destruct r as [allocations|e]; cbn [try_bind]; [|by eexists]. specialize (Hall _ eq_refl).
  destruct (Nat.leb_spec (length allocations) 1) as [|Hlen]; [by eexists|].
  destruct (build_split_route allocations (bc_market_data ctx) order) as [[[route|e]|]|] eqn:Hbuild;
    [|cbn; by eexists|destruct (build_split_route_ret allocations (bc_market_data ctx) order) as (r & Hr); by rewrite Hbuild in Hr..].
  change (completed (Some (Ret (Ok (E:=AlgorithmError) route)))) with (Ret (Ok (E:=AlgorithmError) route)). cbn [try_bind].
  destruct (route_validate_returns route) as (v & Hv). rewrite Hv. cbn [mbind outcome_bind].
  destruct v as [[]|e]; [|by eexists].
  destruct (compute_split_net_amount_out route ctx) as [net|e] eqn:Hnet; cbn [try_bind]; [|by eexists].
  eexists. split; [done|]. intros split [= <-]. eexists allocations, route, net, _. split_and!; try done. by intros ->.
Qed.
(** A search for nothing finds nothing: the relaxation never leaves the source. *)
Lemma find_single_route_nothing (o : Order) overrides run : order_amount o = 0 ->
  exists e, find_single_route decimals integer_decode (fw_inner self) ctx o overrides run = Ret (Err e).
Proof.
  intros Hzero. unfold find_single_route, run_spfa. rewrite Hout, Hzero.
  pose proof (lookup_replicate_2 (bc_max_idx ctx) unreached _ (cx_root _ Hctx)) as Hroot. unfold at_index at 2. rewrite Hroot.
  cbn [mbind outcome_bind]. set (nodes := <[_ := _]> _).
  assert (nodes !! bc_token_in_node ctx = Some (source_best 0)) as Hsource
    by (unfold nodes; apply list_lookup_insert_eq; rewrite length_replicate; apply (cx_root _ Hctx)).
  assert (nodes !! out = Some unreached) as Hunreached
    by (unfold nodes; rewrite list_lookup_insert_ne by done; by apply lookup_replicate_2).
  clearbody nodes. assert (forall n round active below, (active = [] \/ active = [bc_token_in_node ctx]) ->
    exists below' timed_out, spfa_rounds decimals integer_decode (fw_inner self) ctx overrides run n round active nodes below
      = Ret {| sp_nodes := nodes; sp_input_below_hop_gas := below'; sp_timed_out := timed_out |}) as Hrounds.
  { induction n as [|n IH]; intros round active below Hactive; cbn [spfa_rounds]; [by eexists _, _|].
    destruct (_ <=? _); [by eexists _, _|]. destruct Hactive as [->| ->]; [by eexists _, _|].
    cbn [fold_outcome]. unfold relax_node, at_index. cbn [rx_nodes]. rewrite Hsource. cbn. apply IH. by left. }
  destruct (Hrounds (bf_max_hops (fw_inner self)) O [bc_token_in_node ctx] false (or_intror eq_refl)) as (below & timed_out & ->).
  cbn [mbind outcome_bind sp_nodes]. unfold at_index. rewrite Hunreached. cbn. by eexists.
Qed.

Lemma find_candidate_path_nothing allocations run :
  exists e, find_candidate_path decimals integer_decode fresh_order_id self ctx allocations 0 run = Ret (Err e).
Proof.
  unfold find_candidate_path. destruct (build_post_swap_overrides_ret allocations (bc_market_data ctx)) as (r & ->).
  destruct r as [overrides|e]; cbn [try_bind]; [|by eexists].
  destruct (endpoint_address _ _ (Some _)) as [a|e]; cbn [try_bind]; [|by eexists].
  destruct (endpoint_address _ _ (bc_token_out_node ctx)) as [b|e]; cbn [try_bind]; [|by eexists].
  destruct (find_single_route_nothing (probe_order fresh_order_id a b 0) (zero_gas_committed overrides allocations) run eq_refl)
    as (e & ->). by eexists.
Qed.

Lemma compute_probe_amount_free total impact : exists o, compute_probe_amount self total impact F64.zero = Ret o /\ (o = None \/ o = Some 0).
Proof.
  unfold compute_probe_amount. destruct (F64.leb _ _); [eexists; split; [done|by left]|].
  destruct (split_amount_lemma total _ Hconfig) as (part & left & -> & _). cbn [mbind outcome_bind].
  assert (ceil_as_u128 (F64.div F64.zero impact) = 0) as -> by (by destruct impact).
  eexists. split; [done|]. destruct (part <? 0); [by left|by right].
Qed.

Lemma search_splits_free clock n iteration allocations :
  exists r, search_splits decimals integer_decode spot_price fresh_order_id self ctx order F64.zero clock n iteration allocations = Ret r /\
    match r with Ok allocations' => allocations' = allocations | Err _ => True end.
Proof.
  destruct n as [|n]; cbn [search_splits]; [by eexists|]. destruct (_ <=? _); [by eexists|].
  destruct (estimate_probe_impact _ _) as [impact|e]; cbn [try_bind]; [|by eexists].
  destruct (compute_probe_amount_free (order_amount order) impact) as (o & -> & Ho). cbn [mbind outcome_bind].
  destruct o as [probe|]; [|by eexists]. destruct Ho as [|[= ->]]; [done|].
  destruct (find_candidate_path_nothing allocations (sc_run clock iteration)) as (e & ->). cbn. by eexists.
Qed.

(** Gas that costs nothing in the output token leaves nothing to probe with. *)
Lemma optimize_split_free single clock : gas_cost_output_tokens (rr_route single) ctx = Ok F64.zero ->
  exists r, optimize_split decimals integer_decode spot_price fresh_order_id self ctx order single clock = Ret r /\
    forall split, r <> Ok (Some split).
Proof.
  intros Hgas. unfold optimize_split. destruct (route_to_allocation _ _ _ _) as [first|e]; cbn [try_bind]; [|by eexists].
  rewrite Hgas. cbn [try_bind]. destruct (estimate_probe_impact _ _) as [impact|e]; cbn [try_bind]; [|by eexists].
  destruct (compute_probe_amount_free (order_amount order) impact) as (o & -> & _). cbn [mbind outcome_bind].
  destruct o as [probe|]; [|by eexists].
  destruct (search_splits_free clock (fc_max_paths (fw_config self) - 1) 1 [first]) as (r & -> & Hr).
  destruct r as [allocations|e]; cbn [try_bind]; [|by eexists]. rewrite Hr. cbn. by eexists.
Qed.
End search.

(** ** The solve *)

Section solve.
Context `{TychoGas} `{!Messages} `{!TychoSwaps} `{!SplitMessages} `{!FrankWolfeMessages} `{NodeGraph (EdgeData ())}.
Context (decimals : Token -> N) (integer_decode : f64 -> N * Z).
Context (spot_price : ProtocolSim -> Token -> Token -> result SimulationError f64) (fresh_order_id : string).
Implicit Types (self : PathFrankWolfeAlgorithm) (request : SolveParts digraph) (clock : SearchClock).

Lemma context_prices (self : BellmanFordAlgorithm) request ctx : build_context self request = Ok ctx ->
  bc_token_prices ctx = so_derived request ≫= token_prices.
Proof.
  unfold build_context. destruct (negb _); [done|]. destruct (find_token_node _ _); [|done]. destruct (find_token_node _ _); [|done].
  case_decide; [done|]. destruct (get_subgraph _ _ _ _ _); [|done]. cbv zeta. destruct (read_market _ _); [|done].
  cbn [mbind result_bind]. by intros [= <-].
Qed.

(** A solve returns what the Bellman-Ford solve does, or a split that nets more. *)
Lemma frank_wolfe_solve self request clock : graph_ok (so_graph request) -> keyed (md_data (so_market request)) ->
  rounded (fc_max_probe (fw_config self)) ->
  exists r, fw_find_best_route decimals integer_decode spot_price fresh_order_id self request clock = Ret r /\
    match bf_find_best_route decimals integer_decode (fw_inner self) request (sc_run clock 0) with
    | Ret (Err e) => r = Err e
    | Ret (Ok single) => r = Ok single \/ exists ctx split, r = Ok split /\ build_context (fw_inner self) request = Ok ctx /\
        (rr_net_amount_out single < rr_net_amount_out split)%Z /\ split_of_request request ctx split
    | Panic => False
    end.
Proof.
  intros Hgraph Hkeyed Hconfig. unfold fw_find_best_route, bf_find_best_route.
  pose proof (build_context_spec (fw_inner self) request Hgraph) as Hctx.
  destruct (build_context (fw_inner self) request) as [ctx|e]; [|by eexists]. destruct Hctx as (out & Hb).
  destruct (find_single_route_solved decimals integer_decode (fw_inner self) ctx ∅ (bu_ok _ _ _ _ Hb) (so_order request) (sc_run clock 0) out
    (bu_out _ _ _ _ Hb) (bu_ne _ _ _ _ Hb) (bu_lt _ _ _ _ Hb)) as (spfa & r & _ & _ & Hr & _). rewrite Hr.
  destruct r as [single|e]; cbn [try_bind]; [|by eexists].
  destruct (optimize_split_ret decimals integer_decode spot_price fresh_order_id self ctx out (so_order request)
    (bu_ok _ _ _ _ Hb) (bu_out _ _ _ _ Hb) (bu_ne _ _ _ _ Hb) (bu_lt _ _ _ _ Hb) Hconfig (hops_good request ctx)) with (single := single) (clock := clock)
    as (split & -> & Hsplit); [intros o overrides run result; by apply (solve_hops _ _ _ _ _ _ Hb Hkeyed)|by eexists|].
  cbn [mbind outcome_bind]. eexists. split; [done|].
  destruct split as [[split|]|e]; cbn [better_of]; [|by left..].
  destruct (Z.ltb_spec (rr_net_amount_out single) (rr_net_amount_out split)); [|by left].
  right. exists ctx, split. split_and!; [done..|].
  destruct (Hsplit split eq_refl) as (allocations & route & net & gas_price & Hall & Hnil & Hbuild & Hvalid & Hnet & ->).
  destruct (split_result_ok request ctx allocations route) as (net' & Hnet' & Hok); [|done..|].
  { eapply Forall_impl; [exact Hall|]. by intros path []. }
  rewrite Hnet in Hnet'. injection Hnet' as <-. apply Hok.
Qed.

(** C14: a Frank-Wolfe solve never panics and never does worse than the Bellman-Ford solve it starts from,
    whatever the pools answer and wherever the clock cuts the search. It fails exactly as that solve
    fails; otherwise it returns that solve's route or a split that nets strictly more, by the
    net the split is ranked by: what its route pays less the cost of its gas. *)
Theorem frank_wolfe_never_worse self request clock :
  graph_ok (so_graph request) -> keyed (md_data (so_market request)) -> rounded (fc_max_probe (fw_config self)) ->
  exists r r0, fw_find_best_route decimals integer_decode spot_price fresh_order_id self request clock = Ret r /\
    bf_find_best_route decimals integer_decode (fw_inner self) request (sc_run clock 0) = Ret r0 /\
    match r0 with
    | Err e => r = Err e
    | Ok single => exists result, r = Ok result /\ (rr_net_amount_out single <= rr_net_amount_out result)%Z /\
        (result = single \/ exists ctx, build_context (fw_inner self) request = Ok ctx /\
          (rr_net_amount_out single < rr_net_amount_out result)%Z /\
          rr_net_amount_out result = (Z.of_N (Route_amount_out (rr_route result) (order_token_out (so_order request)))
            - Z.of_N (default 0%N (gas_units_to_output_tokens (total_gas (rr_route result)) (order_token_out (so_order request)) ctx)))%Z)
    end.
Proof.
  intros Hgraph Hkeyed Hconfig. destruct (frank_wolfe_solve self request clock Hgraph Hkeyed Hconfig) as (r & -> & Hr).
  destruct (bf_find_best_route _ _ _ _ _) as [[single|e]|]; [|by eexists _, _|done]. eexists _, _. split_and!; [done..|].
  destruct Hr as [->|(ctx & split & -> & Hctx & Hlt & Hs)]; [exists single; split_and!; [done|done|by left]|].
  exists split. split_and!; [done|lia|]. right. exists ctx. split_and!; [done|done|apply Hs].
Qed.

(** C13: what a Frank-Wolfe solve returns that the Bellman-Ford solve does not can be executed and pays what it
    is ranked by. Its route is a valid network from the order's input to its output, takes exactly the
    order's amount, uses only pools and tokens the request allows, and, replayed on the snapshot it
    was found on, returns exactly the amount its net was computed from, with the same gas. For the
    replay only the last swap of each token may have the split that says take what is left. *)
Theorem frank_wolfe_split_pays self request clock result single :
  graph_ok (so_graph request) -> keyed (md_data (so_market request)) -> rounded (fc_max_probe (fw_config self)) ->
  fw_find_best_route decimals integer_decode spot_price fresh_order_id self request clock = Ret (Ok result) ->
  bf_find_best_route decimals integer_decode (fw_inner self) request (sc_run clock 0) = Ret (Ok single) -> result <> single ->
  exists ctx, build_context (fw_inner self) request = Ok ctx /\ split_of_request request ctx result.
Proof.
  intros Hgraph Hkeyed Hconfig Hrun Hsingle Hne. destruct (frank_wolfe_solve self request clock Hgraph Hkeyed Hconfig) as (r & Hr & Hres).
  rewrite Hrun in Hr. injection Hr as <-. rewrite Hsingle in Hres.
  destruct Hres as [[= ->]|(ctx & split & [= ->] & Hctx & _ & Hs)]; [done|by exists ctx].
Qed.

(** Without a price for the output token, or before any token prices, the Frank-Wolfe search is the
    Bellman-Ford solve, whatever a split would bring: gas that costs nothing in the output token
    makes the probe amount zero, and no candidate path is found for an amount of zero. *)
Theorem frank_wolfe_unpriced self request clock :
  graph_ok (so_graph request) -> keyed (md_data (so_market request)) -> rounded (fc_max_probe (fw_config self)) ->
  (so_derived request ≫= token_prices) ≫= (fun prices => prices !! order_token_out (so_order request)) = None ->
  fw_find_best_route decimals integer_decode spot_price fresh_order_id self request clock =
  bf_find_best_route decimals integer_decode (fw_inner self) request (sc_run clock 0).
Proof.
  intros Hgraph Hkeyed Hconfig Hprice.
  destruct (best_route_spec decimals integer_decode (fw_inner self) request (sc_run clock 0) Hgraph) as (r & Hr & Hres).
  rewrite Hr. unfold fw_find_best_route, bf_find_best_route in *.
  pose proof (build_context_spec (fw_inner self) request Hgraph) as Hctx.
  destruct (build_context (fw_inner self) request) as [ctx|e] eqn:Hbuild; [|done]. destruct Hctx as (out & Hb).
  rewrite Hr. destruct r as [single|e]; cbn [try_bind]; [|done]. destruct Hres as (_ & _ & Hroute).
  destruct (optimize_split_free decimals integer_decode spot_price fresh_order_id self ctx out (so_order request)
    (bu_ok _ _ _ _ Hb) (bu_out _ _ _ _ Hb) (bu_ne _ _ _ _ Hb) (bu_lt _ _ _ _ Hb) Hconfig single clock) as (split & -> & Hsplit).
  { pose proof (rq_output _ _ (Hroute Hkeyed)) as Hlast. unfold output_token in Hlast. unfold gas_cost_output_tokens.
    destruct (last _) as [s|]; [|done]. injection Hlast as ->. unfold gas_units_to_output_tokens_f64, gas_units_to_output_tokens.
    rewrite (context_prices _ _ _ Hbuild). destruct (bc_gas_price_wei ctx); [|done]. cbn [mbind option_bind].
    destruct (so_derived request ≫= token_prices) as [prices|]; [|done]. cbn [mbind option_bind] in *. by rewrite Hprice. }
  cbn [mbind outcome_bind]. destruct split as [[split|]|e]; [by destruct (Hsplit split)|done..].
Qed.

(** *** The worker's algorithm *)

Definition fw_computation_requirements : ComputationRequirements := bf_computation_requirements.

Definition path_frank_wolfe_algorithm self (clock : SolveParts OkGraph -> SearchClock) : WorkerAlgorithm OkGraph := {|
  algorithm_name := "path_frank_wolfe";
  SUPPORTS_REQUIRED_TOKENS := false;
  algorithm_timeout := bf_timeout (fw_inner self);
  computation_requirements := fw_computation_requirements;
  algorithm_find_best_route := fun parts : SolveParts OkGraph =>
    fw_find_best_route decimals integer_decode spot_price fresh_order_id self (plain_request parts) (clock parts) |}.

(** Without a market keyed by address a solve still returns, with splits that are doubles. *)
Lemma frank_wolfe_returns self request clock : graph_ok (so_graph request) -> rounded (fc_max_probe (fw_config self)) ->
  exists r, fw_find_best_route decimals integer_decode spot_price fresh_order_id self request clock = Ret r /\
    forall result, r = Ok result -> splits_rounded (rt_swaps (rr_route result)) /\ rr_commitment result = None.
Proof.
  intros Hgraph Hconfig. destruct (best_route_spec decimals integer_decode (fw_inner self) request (sc_run clock 0) Hgraph) as (r & Hr & Hres).
  unfold fw_find_best_route, bf_find_best_route in *.
  pose proof (build_context_spec (fw_inner self) request Hgraph) as Hctx.
  destruct (build_context (fw_inner self) request) as [ctx|e]; [|exists (Err e); split; [done|discriminate]]. destruct Hctx as (out & Hb). rewrite Hr.
  destruct r as [single|e]; cbn [try_bind]; [|exists (Err e); split; [done|discriminate]]. destruct Hres as (Hsplits & Hcommit & _).
  assert (splits_rounded (rt_swaps (rr_route single))) as Hsingle by (eapply Forall_impl; [exact Hsplits|]; cbn; by intros s ->).
  destruct (optimize_split_ret decimals integer_decode spot_price fresh_order_id self ctx out (so_order request)
    (bu_ok _ _ _ _ Hb) (bu_out _ _ _ _ Hb) (bu_ne _ _ _ _ Hb) (bu_lt _ _ _ _ Hb) Hconfig (fun _ => True)) with (single := single) (clock := clock)
    as (split & -> & Hsplit).
  { intros o overrides run result Hrun. destruct (find_single_route_route _ _ _ _ _ _ _ _ Hrun) as [Htok Hnames].
    destruct (hops_of_swaps_spec ctx _ _ Htok Hnames) as (hops & -> & _). by exists hops. }
  { by eexists. }
  cbn [mbind outcome_bind]. eexists. split; [done|]. intros result [= <-].
  destruct split as [[split|]|e]; cbn [better_of]; [|done..].
  destruct (_ <? _)%Z; [|done]. destruct (Hsplit split eq_refl) as (allocations & route & net & gas_price & _ & _ & Hbuild & _ & _ & ->).
  split; [|done]. destruct (split_swaps _ _ _ _ Hbuild) as [Hswaps _]. eapply Forall_impl; [exact Hswaps|].
  by intros s (hop & _ & _ & _ & _ & ?).
Qed.

Lemma path_frank_wolfe_laws self (clock : SolveParts OkGraph -> SearchClock) : rounded (fc_max_probe (fw_config self)) ->
  AlgorithmLaws (H1 := path_frank_wolfe_algorithm self clock).
Proof.
  intros Hconfig. split; cbn.
  - intros parts. destruct (frank_wolfe_returns self (plain_request parts) (clock parts) (proj2_sig (so_graph parts)) Hconfig)
      as (r & Hr & _). by exists r.
  - intros parts result Hret.
    destruct (frank_wolfe_returns self (plain_request parts) (clock parts) (proj2_sig (so_graph parts)) Hconfig) as (r & Hr & Hres).
    rewrite Hr in Hret. injection Hret as ->. by apply Hres.
Qed.
End solve.

(** ** Examples *)

Module FrankWolfeSample.
#[local] Open Scope string_scope.
#[local] Existing Instances MarketSample.tycho MarketSample.tycho_market MostLiquidSample.gas MostLiquidSample.messages.
#[local] Existing Instances BellmanFordSample.graph BellmanFordSample.node_graph.

(** What a pool has paid for all it has taken: its state is what it has taken. *)
Definition paid (taken : N) : N := taken * 1000000 / (1000000 + taken).

Definition swaps : TychoSwaps := {|
  get_amount_out := fun (state : ProtocolSim) amount _ _ =>
    Ret (Ok (@Build_GetAmountOutResult MarketSample.tycho (paid ((state : N) + amount) - paid (state : N)) 10 (((state : N) + amount)%N : N)));
  PANIC_MESSAGE := "panic" |}.
#[local] Existing Instance swaps.

Definition split_messages : SplitMessages := {| show_split_plan_error := fun _ => "split" |}.
Definition frank_wolfe_messages : FrankWolfeMessages := {| show_frank_wolfe_error := fun _ => "frank-wolfe" |}.
#[local] Existing Instances split_messages frank_wolfe_messages.

(** Two pools between the same tokens. *)
Definition pools : BellmanFordSample.listing :=
  [BellmanFordSample.pair "ad1" Sample.A Sample.D; BellmanFordSample.pair "ad2" Sample.A Sample.D].

Definition market : MarketState :=
  update_gas_price
    (update_states
      (upsert_tokens
        (upsert_components MarketState_new ((fun pool => MarketSample.pool pool.1.1 "uniswap_v2" pool.1.2) <$> pools)).1
        (pools ≫= fun pool => pool.1.2))
      ((fun pool => (pool.1.1, 0%N)) <$> pools)) (1%N : BlockGasPrice).

Definition prices (priced : list Address) : DerivedData :=
  set_output_at DerivedData_new TOKEN_PRICES_ID
    (OutTokenPrices (list_to_map ((fun a => (a, MostLiquidSample.even)) <$> priced))) 100 0.

Definition request (priced : list Address) : SolveParts digraph := {|
  so_graph := pm_graph (BellmanFordSample.manager pools);
  so_order := BellmanFordSample.order 200000;
  so_market := {| md_data := market; md_overlays := ∅ |};
  so_label := None;
  so_derived := Some (prices priced);
  so_constraints := unconstrained |}.

Definition algorithm : PathFrankWolfeAlgorithm := {|
  fw_inner := {| bf_max_hops := 2; bf_timeout := 100000000; bf_gas_aware := true; bf_connector_tokens := None |};
  fw_config := PathFrankWolfeConfig_default |}.

Definition spot (_ : ProtocolSim) (_ _ : Token) : result SimulationError f64 := Ok F64.one.

Definition clock : SearchClock := {| sc_elapsed := fun _ => 0; sc_run := fun _ _ => 0 |}.

Definition solve (priced : list Address) : outcome (result AlgorithmError RouteResult) :=
  fw_find_best_route BellmanFordSample.decimals BellmanFordSample.decode spot "probe" algorithm (request priced) clock.

Definition single (priced : list Address) : outcome (result AlgorithmError RouteResult) :=
  bf_find_best_route BellmanFordSample.decimals BellmanFordSample.decode (fw_inner algorithm) (request priced) (sc_run clock 0).

Definition net (answer : outcome (result AlgorithmError RouteResult)) : option Z :=
  match answer with Ret (Ok r) => Some (rr_net_amount_out r) | _ => None end.
End FrankWolfeSample.

Section examples.
Import FrankWolfeSample.
#[local] Open Scope string_scope.
#[local] Existing Instances MarketSample.tycho MarketSample.tycho_market MostLiquidSample.gas MostLiquidSample.messages.
#[local] Existing Instances BellmanFordSample.graph BellmanFordSample.node_graph FrankWolfeSample.swaps.
#[local] Existing Instances FrankWolfeSample.split_messages FrankWolfeSample.frank_wolfe_messages.

(** Split over both pools the order nets more, once the output token has a price: without one the
    whole order goes through one pool, though no gas is charged either way. *)
Example priced_order_is_split :
  BellmanFordSample.hops_of (solve [Sample.A; Sample.D]) =
    [("ad2", "A", "D", 100694%N, 91482%N); ("ad1", "A", "D", 99306%N, 90335%N)] /\
  net (solve [Sample.A; Sample.D]) = Some 181797%Z /\ net (single [Sample.A; Sample.D]) = Some 166656%Z /\
  BellmanFordSample.hops_of (solve [Sample.A]) = [("ad2", "A", "D", 200000%N, 166666%N)].
Proof. split_and!; by vm_compute. Qed.

Lemma sample_pools_ok : graph_ok (pm_graph (BellmanFordSample.manager pools)).
Proof. apply petgraph_graph_ok, petgraph_initialize_spec. Qed.

Lemma sample_market_keyed : keyed market.
Proof. apply map_Forall_to_list. by vm_compute; repeat constructor. Qed.

Lemma sample_probe_rounded : rounded (fc_max_probe (fw_config algorithm)).
Proof. by vm_compute. Qed.

Lemma frank_wolfe_never_worse_witness : exists result, solve [Sample.A; Sample.D] = Ret (Ok result) /\
  (166656 <= rr_net_amount_out result)%Z.
Proof.
  destruct (frank_wolfe_never_worse BellmanFordSample.decimals BellmanFordSample.decode spot "probe" algorithm
    (request [Sample.A; Sample.D]) clock sample_pools_ok sample_market_keyed sample_probe_rounded) as (r & r0 & Hr & Hr0 & Hres).
  assert (net (single [Sample.A; Sample.D]) = Some 166656%Z) as Hnet by by vm_compute.
  unfold single, net in Hnet. rewrite Hr0 in Hnet. destruct r0 as [best|e]; [|discriminate Hnet].
  destruct Hres as (result & -> & Hle & _). exists result. split; [exact Hr|]. injection Hnet as Hnet. rewrite <- Hnet. exact Hle.
Defined.

Lemma frank_wolfe_split_pays_witness : exists result ctx, solve [Sample.A; Sample.D] = Ret (Ok result) /\
  build_context (fw_inner algorithm) (request [Sample.A; Sample.D]) = Ok ctx /\
  replay_route (rr_route result) (bc_market_data ctx) = Ret (Ok {| rp_amount_out := 181817; rp_gas := 20 |}).
Proof.
  assert (match solve [Sample.A; Sample.D], single [Sample.A; Sample.D] with
    | Ret (Ok result), Ret (Ok best) => (rr_net_amount_out best <? rr_net_amount_out result)%Z && splits_readable (rt_swaps (rr_route result))
        && (Route_amount_out (rr_route result) Sample.D =? 181817)%N && (total_gas (rr_route result) =? 20)%N
    | _, _ => false end = true) as Hs by by vm_compute.
  destruct (solve [Sample.A; Sample.D]) as [[result|e]|] eqn:Hsolve; [|discriminate Hs..].
  destruct (single [Sample.A; Sample.D]) as [[best|e]|] eqn:Hsingle; [|discriminate Hs..].
  apply andb_prop in Hs as [[[Hlt%Z.ltb_lt Hread]%andb_prop Hout%N.eqb_eq]%andb_prop Hgas%N.eqb_eq].
  destruct (frank_wolfe_split_pays BellmanFordSample.decimals BellmanFordSample.decode spot "probe" algorithm
    (request [Sample.A; Sample.D]) clock result best sample_pools_ok sample_market_keyed sample_probe_rounded Hsolve Hsingle)
    as (ctx & Hctx & Hpays); [intros ->; exact (Z.lt_irrefl _ Hlt)|].
  exists result, ctx. split; [done|]. split; [done|]. rewrite (sr_replays _ _ _ Hpays Hread). cbn [request so_order BellmanFordSample.order order_token_out].
  by rewrite Hout, Hgas.
Defined.

Lemma frank_wolfe_unpriced_witness : solve [Sample.A] = single [Sample.A] /\ net (solve [Sample.A]) = Some 166666%Z.
Proof.
  split; [|by vm_compute].
  apply (frank_wolfe_unpriced BellmanFordSample.decimals BellmanFordSample.decode spot "probe" algorithm (request [Sample.A]) clock
    sample_pools_ok sample_market_keyed sample_probe_rounded). by vm_compute.
Defined.
End examples.
