(* ===== verification/WaterFill.v ===== *)
(** * WaterFill: splitting an order in chunks

    [fynd-core/src/algorithm/water_fill/]. Candidate paths are enumerated and discovered, ranked
    by what they pay for the whole order, and the order is poured over them chunk by chunk, each
    chunk into the path that pays most for it: over paths that share no component, coarsely and
    then finely with an exchange between the paths, and over paths that may share components.
    The best of the splits is returned when it nets more than the best single path. Every reading
    of the clock is a value of its own, by the place that reads it. The order a hash map or an
    unstable sort leaves is a parameter. Paths are looked up by index when a pass starts. The
    metering of swaps and what the code only logs are left out. *)

From stdpp Require Import prelude gmap sets strings list.
From Stdlib Require Import NArith ZArith Lia.
From S2P Require Import Prelude F64 Types Route Amounts DerivedStore SpotPriceComputation MarketData SwapCache Algorithm StableGraph.
From S2P Require Import TokenGraph PathScoring Paths SplitMath Replay SplitPlan BellmanFord FrankWolfe.

#[local] Open Scope N_scope.

(** ** Configuration *)

Definition DEFAULT_MAX_CANDIDATES : nat := N.to_nat 5000.
Definition MAX_DISCOVERY_CANDIDATES : nat := 128.
Definition BASELINE_CANDIDATES : nat := 8.
Definition DEFAULT_MAX_PATHS : nat := 4.
Definition COARSE_CHUNKS : nat := 20.
Definition FINE_CHUNKS : nat := 256.
Definition SHARED_FULL_PATHS : nat := 8.
Definition SHARED_MARGIN_PROBE_PATHS : nat := 32.
Definition SHARED_MARGIN_PATHS : nat := 8.
Definition SHARED_MAX_CANDIDATES : nat := 12.
Definition CANDIDATE_STATES_PER_NODE : nat := 4.
Definition CANDIDATE_EDGES_PER_STATE : nat := 16.
Definition CANDIDATE_DIRECT_EDGES_PER_TOKEN : nat := 4.
Definition CANDIDATE_CONNECTOR_EDGES_PER_TOKEN : nat := 2.
Definition DERIVED_ANCHOR_COUNT : nat := 16.
Definition EXCHANGE_DELTA_FLOOR : nat := 64.
Definition EXCHANGE_MAX_SIMS : nat := 400.

Record WaterFillAlgorithm := {
  wf_query : GraphQueryFilter;
  wf_timeout : N;
  wf_max_candidates : nat;
  wf_max_paths : nat;
}.

Definition WaterFill_with_config (config : AlgorithmConfig) : result AlgorithmError WaterFillAlgorithm :=
  Ok {| wf_query := {| min_hops := ac_min_hops config; max_hops := ac_max_hops config;
                       connector_tokens := ac_connector_tokens config |};
        wf_timeout := ac_timeout config;
        wf_max_candidates := Nat.max (default DEFAULT_MAX_CANDIDATES (ac_max_routes config)) DEFAULT_MAX_PATHS;
        wf_max_paths := DEFAULT_MAX_PATHS |}.

(** The pass a swap is made for, and whether it may be read across two amounts. *)
Inductive SolveStage := Discovery | Ranking | SetSelection | Exchange | Chunking | Assembly.

Definition may_interpolate (stage : SolveStage) : bool :=
  match stage with
  | Ranking | SetSelection => true
  | Discovery | Exchange | Chunking | Assembly => false
  end.

(** What each check of the deadline reads: before a path is ranked, a level or an edge of the
    discovery is expanded, a chunk is poured, a path is probed, or a round of exchanges begins. *)
Record SolveClock := {
  ck_level : nat -> N;
  ck_edge : nat -> nat -> nat -> N;
  ck_rank : nat -> N;
  ck_coarse : nat -> N;
  ck_fine : nat -> N;
  ck_exchange : nat -> N;
  ck_probe : nat -> N;
  ck_spill_coarse : nat -> N;
  ck_spill_fine : nat -> N;
}.

(** [Deadline::expired]. *)
Definition expired (timeout elapsed : N) : bool := timeout <? elapsed.

(** [slice::sort_by]: an element goes after those it does not strictly precede. *)
Section sort_by.
Context {A : Type} (cmp : A -> A -> comparison).

Fixpoint insert_by (x : A) (l : list A) : list A :=
  match l with
  | [] => [x]
  | y :: l' => match cmp x y with Lt => x :: y :: l' | _ => y :: insert_by x l' end
  end.

Definition sort_by (l : list A) : list A := fold_left (fun sorted x => insert_by x sorted) l [].
End sort_by.

(** [f64::partial_cmp] with what is not comparable taken for equal. *)
Definition partial_cmp (a b : f64) : comparison :=
  if F64.ltb a b then Lt else if F64.gtb a b then Gt else Eq.

(** [Ord] of an [Option]. *)
Definition option_cmp (a b : option Z) : comparison :=
  match a, b with
  | None, None => Eq
  | None, Some _ => Lt
  | Some _, None => Gt
  | Some a, Some b => (a ?= b)%Z
  end.

(** ** Data *)

Abbreviation WFPath := (Path DepthAndPrice).

Section data.
Context `{TychoMarket}.

Record StepResult := {
  st_amount_out : N;
  st_gas : N;
  st_new_states : list (ComponentId * ProtocolSim);
}.

Inductive FullAmountOutcome := Filled (paid : SwapResult) | Unfilled.

Record FullAmountRanking := { by_output : list nat; by_output_net_gas : list nat }.

Record SolveInput := {
  si_ordered : list WFPath;
  si_market : MarketState;
  si_gas_price : N;
  si_token_prices : option TokenGasPrices;
  si_order : Order;
  si_timeout : N;
}.

Record SplitCandidate := { cd_route : Route; cd_gross : N; cd_gas : N }.

Record ExchangeMove := {
  mv_donor : nat;
  mv_recipient : nat;
  mv_donor_net : Z;
  mv_recip_net : Z;
  mv_gain : Z;
}.

Record SetupResult := {
  su_input : SolveInput;
  su_best_single : option RouteResult;
  su_cache : SwapCache;
}.

Record CandidatePathState := { cp_node : NodeIndex; cp_path : WFPath; cp_amount_out : N }.

Record ScoredEdge := {
  se_target : NodeIndex;
  se_edge : EdgeData DepthAndPrice;
  se_amount_out : N;
  se_priority : nat;
}.
End data.

Definition path_key (path : WFPath) : list ComponentId := ed_component_id <$> path_edge_data path.

Definition path_reuses_component (path : WFPath) : bool := negb (bool_decide (NoDup (path_key path))).

Definition ratio (numerator denominator : N) : f64 :=
  let n := F64.of_N numerator in
  let d := F64.of_N denominator in
  if F64.eqb d F64.zero then F64.zero else F64.div n d.

(** ** Swapping along a path *)

Section simulation.
Context `{TychoGas} `{!Messages} `{!TychoSwaps} `{!SplitMessages}.
Implicit Types (self : WaterFillAlgorithm) (market : MarketState) (path : WFPath) (input : SolveInput) (cache : SwapCache) (states : gmap ComponentId ProtocolSim).

Definition hop_state market (component_id : ComponentId) (intra_path committed : gmap ComponentId ProtocolSim)
    : option ProtocolSim :=
  match intra_path !! component_id with
  | Some state => Some state
  | None =>
      match committed !! component_id with
      | Some state => Some state
      | None => simulation_states market !! component_id
      end
  end.

Definition swap_between (token_of : Address -> option Token) (state : option ProtocolSim) (address_in address_out : Address)
    (amount_in : N) : result Refusal SwapResult :=
  match token_of address_in, token_of address_out, state with
  | Some token_in, Some token_out, Some state =>
      match get_amount_out_guarded state amount_in token_in token_out with
      | Ok result => Ok {| sr_amount_out := gao_amount result; sr_gas := gao_gas result |}
      | Err error => Err (Refusal_of error)
      end
  | _, _, _ => Err Failed
  end.

Definition wf_simulate_hop market (component_id : ComponentId) (address_in address_out : Address) (amount_in : N)
    : result Refusal SwapResult :=
  swap_between (fun address => tokens market !! address) (simulation_states market !! component_id) address_in address_out amount_in.

(** The hops of [simulate_path], with the amount and the gas carried. *)
Fixpoint cached_hops (hops : list (Address * Address * ComponentId)) market cache (hop_amount_in path_gas : N)
    (stage : SolveStage) : SwapCache * option SwapResult :=
  match hops with
  | [] => (cache, Some {| sr_amount_out := hop_amount_in; sr_gas := path_gas |})
  | (address_in, address_out, component_id) :: hops =>
      let '(cache, hop) :=
        swap cache (component_id, address_in, address_out) hop_amount_in
          (wf_simulate_hop market component_id address_in address_out hop_amount_in) (may_interpolate stage) in
      match hop with
      | None => (cache, None)
      | Some hop => cached_hops hops market cache (sr_amount_out hop) (path_gas + sr_gas hop) stage
      end
  end.

Definition wf_simulate_path path market cache (amount_in : N) (stage : SolveStage) : SwapCache * option SwapResult :=
  cached_hops (path_iter path) market cache amount_in 0 stage.

(** One hop against what was committed: what it pays, and the pool's next state. *)
Definition overlay_hop market states (hop : Address * Address * ComponentId) (intra_path_states : gmap ComponentId ProtocolSim)
    (current : N) : option (Token * Token * GetAmountOutResult) :=
  let '(address_in, address_out, component_id) := hop in
  token_in ← tokens market !! address_in;
  token_out ← tokens market !! address_out;
  state ← hop_state market component_id intra_path_states states;
  match get_amount_out_guarded state current token_in token_out with
  | Ok result => Some (token_in, token_out, result)
  | Err _ => None
  end.

Fixpoint step_hops (reuses : bool) (hops : list (Address * Address * ComponentId)) market states
    (intra_path_states : gmap ComponentId ProtocolSim) (step : StepResult) : option StepResult :=
  match hops with
  | [] => Some step
  | hop :: hops =>
      '(_, _, result) ← overlay_hop market states hop intra_path_states (st_amount_out step);
      step_hops reuses hops market states
        (if reuses then <[hop.2 := gao_new_state result]> intra_path_states else intra_path_states)
        {| st_amount_out := gao_amount result; st_gas := st_gas step + gao_gas result;
           st_new_states := st_new_states step ++ [(hop.2, gao_new_state result)] |}
  end.

Definition simulate_step path market (overlay : gmap ComponentId ProtocolSim) (amount : N) : option StepResult :=
  step_hops (path_reuses_component path) (path_iter path) market overlay ∅
    {| st_amount_out := amount; st_gas := 0; st_new_states := [] |}.

Definition wf_gas_cost_in_token (total_gas gas_price_wei : N) (token_prices : option TokenGasPrices) (token_out : Address)
    : option N :=
  prices ← token_prices;
  price ← prices !! token_out;
  gas_cost_in_token total_gas gas_price_wei price.

Definition activation_cost input (gas : N) : Z :=
  Z.of_N (default 0 (wf_gas_cost_in_token gas (si_gas_price input) (si_token_prices input) (order_token_out (si_order input)))).

(** [SplitCandidate::net]. *)
Definition net_of input (candidate : SplitCandidate) : Z :=
  match wf_gas_cost_in_token (cd_gas candidate) (si_gas_price input) (si_token_prices input) (order_token_out (si_order input)) with
  | Some c => Z.of_N (cd_gross candidate) - Z.of_N c
  | None => Z.of_N (cd_gross candidate)
  end.

(** Indexing [input.ordered] by every path of a pass. *)
Fixpoint paths_at input (subset : list nat) : outcome (list WFPath) :=
  match subset with
  | [] => Ret []
  | path_idx :: subset => path ← at_index (si_ordered input) path_idx; paths ← paths_at input subset; Ret (path :: paths)
  end.

(** ** Ranking *)

(** Paths that share no component; at most [more] may be kept. *)
Fixpoint disjoint_from (idx : nat) (visited_components : gset ComponentId) (more : nat) (ranked : list WFPath) : list nat :=
  match ranked with
  | [] => []
  | path :: ranked =>
      if existsb (fun c => bool_decide (c ∈ visited_components)) (path_key path)
      then disjoint_from (S idx) visited_components more ranked
      else idx :: match more with
                  | O | S O => []
                  | S more => disjoint_from (S idx) (visited_components ∪ list_to_set (path_key path)) more ranked
                  end
  end.

Definition select_disjoint (ranked : list WFPath) (max_paths : nat) : list nat := disjoint_from 0 ∅ max_paths ranked.

(** The outcomes of the paths from [path_ix] on. *)
Fixpoint full_outcomes input (clock : nat -> N) (path_ix : nat) (paths : list WFPath) cache
    : SwapCache * list (option FullAmountOutcome) :=
  match paths with
  | [] => (cache, [])
  | path :: rest =>
      if expired (si_timeout input) (clock path_ix) then (cache, replicate (length paths) None)
      else if path_reuses_component path then
        let '(cache, outcomes) := full_outcomes input clock (S path_ix) rest cache in (cache, None :: outcomes)
      else
        let '(cache, paid) := wf_simulate_path path (si_market input) cache (order_amount (si_order input)) Ranking in
        let '(cache, outcomes) := full_outcomes input clock (S path_ix) rest cache in
        (cache, Some (match paid with Some paid => Filled paid | None => Unfilled end) :: outcomes)
  end.

Definition net_output (gas_price : N) (token_prices : option TokenGasPrices) (token_out : Address) (outcome : FullAmountOutcome)
    : option Z :=
  match outcome with
  | Filled paid =>
      Some (Z.of_N (sr_amount_out paid)
            - Z.of_N (default 0%N (wf_gas_cost_in_token (sr_gas paid) gas_price token_prices token_out)))%Z
  | Unfilled => None
  end.

Definition rank_outcomes (outcomes_by_path : list (option FullAmountOutcome)) (gas_price : N) (token_prices : option TokenGasPrices)
    (token_out : Address) : FullAmountRanking :=
  let by_output :=
    omap (fun entry : nat * option FullAmountOutcome =>
            outcome ← entry.2; Some (entry.1, net_output gas_price token_prices token_out outcome))
      (zip (seq 0 (length outcomes_by_path)) outcomes_by_path) in
  let by_output_net_gas := omap (fun entry : nat * option Z => net ← entry.2; Some (entry.1, net)) by_output in
  {| by_output := fst <$> sort_by (fun a b => option_cmp b.2 a.2) by_output;
     by_output_net_gas := fst <$> sort_by (fun a b => (b.2 ?= a.2)%Z) by_output_net_gas |}.

Definition rank_at_full_amount input cache (clock : nat -> N) : SwapCache * FullAmountRanking :=
  let '(cache, outcomes_by_path) := full_outcomes input clock 0 (si_ordered input) cache in
  (cache, rank_outcomes outcomes_by_path (si_gas_price input) (si_token_prices input) (order_token_out (si_order input))).

(** [max_by] of the nets: the last of the greatest. *)
Definition max_by_net (routes : list RouteResult) : option RouteResult :=
  fold_left (fun best route =>
    match best with
    | None => Some route
    | Some best => if (rr_net_amount_out best <=? rr_net_amount_out route)%Z then Some route else Some best
    end) routes None.

Definition build_baseline input (path_ix : nat) : outcome (option RouteResult) :=
  path ← at_index (si_ordered input) path_ix;
  Ret match simulate_pool_path path (si_market input) (si_token_prices input) (order_amount (si_order input)) with
      | Ok route => Some route
      | Err _ => None
      end.

Fixpoint build_baselines input (path_ixs : list nat) : outcome (list RouteResult) :=
  match path_ixs with
  | [] => Ret []
  | path_ix :: path_ixs =>
      route ← build_baseline input path_ix;
      routes ← build_baselines input path_ixs;
      Ret match route with Some route => route :: routes | None => routes end
  end.

(** [find_map]. *)
Fixpoint first_baseline input (path_ixs : list nat) : outcome (option RouteResult) :=
  match path_ixs with
  | [] => Ret None
  | path_ix :: path_ixs =>
      route ← build_baseline input path_ix;
      match route with Some route => Ret (Some route) | None => first_baseline input path_ixs end
  end.

Definition best_single input (ranking : FullAmountRanking) : outcome (option RouteResult) :=
  let ranked := by_output_net_gas ranking in
  top ← build_baselines input (take BASELINE_CANDIDATES ranked);
  match max_by_net top with
  | Some best => Ret (Some best)
  | None => first_baseline input (drop BASELINE_CANDIDATES ranked)
  end.

(** ** Pouring over paths that share no component *)

(** What the chunks so far have left of one pass. *)
Record Pour := {
  po_committed : list (gmap ComponentId ProtocolSim);
  po_cumulative_amount_in : list N;
  po_activated : list bool;
  po_marginals : list (option StepResult);
  po_marginals_chunk : option N;
}.

(** A marginal that is remembered answers; another is simulated. *)
Definition price_marginal market path (states : gmap ComponentId ProtocolSim) (chunk : N) (marginal : option StepResult)
    : option StepResult :=
  match marginal with
  | Some step => Some step
  | None => simulate_step path market states chunk
  end.

(** What is remembered at another amount is forgotten. *)
Definition marginals_for (chunk : N) (marginals_chunk : option N) (marginals : list (option StepResult)) : list (option StepResult) :=
  if bool_decide (marginals_chunk = Some chunk) then marginals else (fun _ => None) <$> marginals.

Definition net_marginal input (activated : bool) (step : StepResult) : Z :=
  let gross_marginal := Z.of_N (st_amount_out step) in
  if activated then gross_marginal else (gross_marginal - activation_cost input (st_gas step))%Z.

(** The first of the greatest net marginals among the candidates from [i] on that may take a chunk. *)
Fixpoint best_marginal input (i : nat) (steps : list (bool * bool * option StepResult)) (best : option (nat * Z)) : option (nat * Z) :=
  match steps with
  | [] => best
  | (may_take, activated, step) :: steps =>
      best_marginal input (S i) steps
        match step with
        | Some step =>
            if may_take then
              let net_marginal := net_marginal input activated step in
              match best with
              | Some (_, m) => if (m <? net_marginal)%Z then Some (i, net_marginal) else best
              | None => Some (i, net_marginal)
              end
            else best
        | None => best
        end
  end.

Definition commit_states (committed : gmap ComponentId ProtocolSim) (new_states : list (ComponentId * ProtocolSim))
    : gmap ComponentId ProtocolSim :=
  fold_left (fun committed entry => <[entry.1 := entry.2]> committed) new_states committed.

(** The chunk of a pass: the first carries the remainder. *)
Definition chunk_of (base_chunk remainder : N) (chunk_idx : nat) : N :=
  if (chunk_idx =? 0)%nat then base_chunk + remainder else base_chunk.

(** The chunks from [chunk_idx] on, of which [n] are left. *)
Fixpoint disjoint_chunks input (paths : list WFPath) (base_chunk remainder : N) (clock : nat -> N) (n chunk_idx : nat) (pour : Pour)
    : list N :=
  match n with
  | O => po_cumulative_amount_in pour
  | S n =>
      if expired (si_timeout input) (clock chunk_idx) then po_cumulative_amount_in pour
      else
        let chunk := chunk_of base_chunk remainder chunk_idx in
        let marginals := marginals_for chunk (po_marginals_chunk pour) (po_marginals pour) in
        let marginals :=
          zip_with (fun (path_states : WFPath * gmap ComponentId ProtocolSim) marginal =>
                      price_marginal (si_market input) path_states.1 path_states.2 chunk marginal)
            (zip paths (po_committed pour)) marginals in
        match best_marginal input 0 (zip_with (fun activated step => (true, activated, step)) (po_activated pour) marginals) None with
        | None => po_cumulative_amount_in pour
        | Some (best_i, _) =>
            match marginals !! best_i with
            | Some (Some step) =>
                disjoint_chunks input paths base_chunk remainder clock n (S chunk_idx) {|
                  po_committed := alter (fun committed => commit_states committed (st_new_states step)) best_i (po_committed pour);
                  po_cumulative_amount_in := alter (fun amount => amount + chunk) best_i (po_cumulative_amount_in pour);
                  po_activated := <[best_i := true]> (po_activated pour);
                  po_marginals := <[best_i := None]> marginals;
                  po_marginals_chunk := Some chunk |}
            | _ => po_cumulative_amount_in pour
            end
        end
  end.

Definition disjoint_waterfill input (subset : list nat) (num_chunks : nat) (gate : bool) (clock : nat -> N) : outcome (option (list N)) :=
  let amount_in := order_amount (si_order input) in
  let num_chunks := Nat.max num_chunks 1 in
  let base_chunk := amount_in / N.of_nat num_chunks in
  if base_chunk =? 0 then Ret None
  else
    remainder ← bsub amount_in (base_chunk * N.of_nat num_chunks);
    paths ← paths_at input subset;
    let path_count := length subset in
    Ret (Some (disjoint_chunks input paths base_chunk remainder clock num_chunks 0 {|
      po_committed := replicate path_count ∅;
      po_cumulative_amount_in := replicate path_count 0;
      po_activated := replicate path_count (negb gate);
      po_marginals := replicate path_count None;
      po_marginals_chunk := None |})).

(** ** Exchanging between the paths *)

(** What the trials of one round have found. *)
Record ExchangeScan := {
  xc_cache : SwapCache;
  xc_sims : nat;
  xc_best : option ExchangeMove;
}.

Definition path_net input path (amount : N) cache : SwapCache * option Z :=
  if amount =? 0 then (cache, Some 0%Z)
  else
    let '(cache, result) := wf_simulate_path path (si_market input) cache amount Exchange in
    (cache, (fun result => Z.of_N (sr_amount_out result) - activation_cost input (sr_gas result))%Z <$> result).

Section exchange.
Context (input : SolveInput) (paths : list WFPath) (delta : N) (cumulative_amount_in : list N) (net_cache : list Z).

(** The net of a path at another amount, and the scan after the question. *)
Definition trial_net (scan : ExchangeScan) (path_idx : nat) (amount : N) : ExchangeScan * option Z :=
  match paths !! path_idx with
  | None => (scan, None)
  | Some path =>
      let '(cache, net) := path_net input path amount (xc_cache scan) in
      ({| xc_cache := cache; xc_sims := match net with Some _ => S (xc_sims scan) | None => xc_sims scan end;
          xc_best := xc_best scan |}, net)
  end.

Definition amount_of (i : nat) : N := default 0 (cumulative_amount_in !! i).
Definition cached_net (i : nat) : Z := default 0%Z (net_cache !! i).

(** Past the cap every trial is skipped, as the loops that break there would. *)
Definition try_recipient (donor : nat) (donor_net : Z) (scan : ExchangeScan) (recipient : nat) : ExchangeScan :=
  if (EXCHANGE_MAX_SIMS <=? xc_sims scan)%nat then scan
  else if (recipient =? donor)%nat then scan
  else
    let '(scan, recip_net) := trial_net scan recipient (amount_of recipient + delta) in
    match recip_net with
    | None => scan
    | Some recip_net =>
        let before := (cached_net donor + cached_net recipient)%Z in
        let after := (donor_net + recip_net)%Z in
        if (after <=? before)%Z then scan
        else
          let gain := (after - before)%Z in
          let better := match xc_best scan with Some m => (mv_gain m <? gain)%Z | None => true end in
          if better
          then {| xc_cache := xc_cache scan; xc_sims := xc_sims scan;
                  xc_best := Some {| mv_donor := donor; mv_recipient := recipient; mv_donor_net := donor_net;
                                     mv_recip_net := recip_net; mv_gain := gain |} |}
          else scan
    end.

Definition try_donor (scan : ExchangeScan) (donor : nat) : ExchangeScan :=
  if (EXCHANGE_MAX_SIMS <=? xc_sims scan)%nat then scan
  else if amount_of donor <? delta then scan
  else
    let '(scan, donor_net) := trial_net scan donor (amount_of donor - delta) in
    match donor_net with
    | None => scan
    | Some donor_net => fold_left (try_recipient donor donor_net) (seq 0 (length paths)) scan
    end.

Definition scan_moves cache (sims : nat) : ExchangeScan :=
  fold_left try_donor (seq 0 (length paths)) {| xc_cache := cache; xc_sims := sims; xc_best := None |}.
End exchange.

(** The rounds; the fuel is the bound of the rounds that move and the halvings of [delta]. *)
Fixpoint exchange_rounds input (paths : list WFPath) (min_delta : N) (clock : nat -> N) (fuel round : nat) (delta : N)
    (cumulative_amount_in : list N) (net_cache : list Z) (sims : nat) cache : outcome (SwapCache * list N) :=
  match fuel with
  | O => Panic
  | S fuel =>
      if (delta <? min_delta) || (delta =? 0) then Ret (cache, cumulative_amount_in)
      else if expired (si_timeout input) (clock round) || (EXCHANGE_MAX_SIMS <=? sims)%nat
      then Ret (cache, cumulative_amount_in)
      else
        let scan := scan_moves input paths delta cumulative_amount_in net_cache cache sims in
        match xc_best scan with
        | None =>
            exchange_rounds input paths min_delta clock fuel (S round) (delta / 2) cumulative_amount_in net_cache
              (xc_sims scan) (xc_cache scan)
        | Some mv =>
            donor_left ← bsub (amount_of cumulative_amount_in (mv_donor mv)) delta;
            let cumulative_amount_in := <[mv_donor mv := donor_left]> cumulative_amount_in in
            let cumulative_amount_in :=
              <[mv_recipient mv := amount_of cumulative_amount_in (mv_recipient mv) + delta]> cumulative_amount_in in
            let net_cache := <[mv_recipient mv := mv_recip_net mv]> (<[mv_donor mv := mv_donor_net mv]> net_cache) in
            exchange_rounds input paths min_delta clock fuel (S round) delta cumulative_amount_in net_cache
              (xc_sims scan) (xc_cache scan)
        end
  end.

Definition exchange_fuel (delta : N) : nat := S (EXCHANGE_MAX_SIMS + N.size_nat delta).

Fixpoint starting_nets input (paths : list WFPath) (amounts : list N) cache : SwapCache * option (list Z) :=
  match paths, amounts with
  | path :: paths, amount :: amounts =>
      let '(cache, net) := path_net input path amount cache in
      match net with
      | None => (cache, None)
      | Some net => let '(cache, nets) := starting_nets input paths amounts cache in (cache, cons net <$> nets)
      end
  | _, _ => (cache, Some [])
  end.

Definition disjoint_exchange input (active : list nat) (fine_chunks : nat) (alloc : list N) cache (clock : nat -> N)
    : outcome (SwapCache * list N) :=
  if (length active <? 2)%nat then Ret (cache, alloc)
  else
    let amount_in := order_amount (si_order input) in
    let fine_chunks := Nat.max fine_chunks 1 in
    let delta := amount_in / N.of_nat fine_chunks in
    let min_delta := amount_in / N.of_nat (fine_chunks * EXCHANGE_DELTA_FLOOR) in
    if delta =? 0 then Ret (cache, alloc)
    else
      paths ← paths_at input active;
      let '(cache, nets) := starting_nets input paths alloc cache in
      match nets with
      | None => Ret (cache, alloc)
      | Some net_cache =>
          exchange_rounds input paths min_delta clock (exchange_fuel delta) 0 delta alloc net_cache 0 cache
      end.

(** ** Building a split *)

Fixpoint commit_hops (hops : list (Address * Address * ComponentId)) market states (current : N) (committed_hops : list SimulatedHop)
    : option (gmap ComponentId ProtocolSim * N * list SimulatedHop) :=
  match hops with
  | [] => Some (states, current, committed_hops)
  | hop :: hops =>
      '(token_in, token_out, result) ← overlay_hop market states hop ∅ current;
      commit_hops hops market (<[hop.2 := gao_new_state result]> states) (gao_amount result)
        (committed_hops ++
          [{| sh_descriptor := {| hd_component_id := hop.2; hd_token_in := token_in; hd_token_out := token_out |};
              sh_amount_out := gao_amount result; sh_gas := gao_gas result |}])
  end.

(** The overrides once the path has swapped the amount, and its allocation. *)
Definition allocation_commit path market (overrides : gmap ComponentId ProtocolSim) (amount : N) (flow_fraction : f64)
    : option (gmap ComponentId ProtocolSim * PathAllocation) :=
  '(overrides, amount_out, hops) ← commit_hops (path_iter path) market overrides amount [];
  Some (overrides, {| pa_hops := hops; pa_flow_fraction := flow_fraction; pa_amount_in := amount; pa_amount_out := amount_out;
                      pa_marginal_price_product := F64.zero |}).

Definition candidate_from_allocations input (allocations : list PathAllocation) : outcome (option SplitCandidate) :=
  built ← completed (build_split_route allocations (si_market input) (si_order input));
  Ret match built with
      | Err _ => None
      | Ok route =>
          let gross := Route_amount_out route (order_token_out (si_order input)) in
          if gross =? 0 then None else Some {| cd_route := route; cd_gross := gross; cd_gas := total_gas route |}
      end.

(** One leg per path of a nonzero amount, each against the market as it stands. *)
Fixpoint disjoint_legs input (paths : list WFPath) (alloc : list N) : option (list PathAllocation) :=
  match paths, alloc with
  | path :: paths, amount :: alloc =>
      if amount =? 0 then disjoint_legs input paths alloc
      else
        '(_, allocation) ← allocation_commit path (si_market input) ∅ amount (ratio amount (order_amount (si_order input)));
        allocations ← disjoint_legs input paths alloc;
        Some (allocation :: allocations)
  | _, _ => Some []
  end.

Definition build_disjoint_legs input (subset : list nat) (alloc : list N) : outcome (option SplitCandidate) :=
  paths ← paths_at input subset;
  match disjoint_legs input paths alloc with
  | None | Some [] => Ret None
  | Some allocations => candidate_from_allocations input allocations
  end.

Definition disjoint_refine input (disjoint : list nat) (coarse : list N) (fine_chunks : nat) cache (clock : SolveClock)
    : outcome (SwapCache * option SplitCandidate) :=
  let active := fst <$> List.filter (fun entry : nat * N => negb (entry.2 =? 0)) (zip disjoint coarse) in
  match active with
  | [] => Ret (cache, None)
  | _ =>
      fine ← disjoint_waterfill input active fine_chunks false (ck_fine clock);
      match fine with
      | None => Ret (cache, None)
      | Some fine =>
          '(cache, refined) ← disjoint_exchange input active fine_chunks fine cache (ck_exchange clock);
          candidate ← build_disjoint_legs input active refined;
          Ret (cache, candidate)
      end
  end.

(** ** Pouring over paths that may share components *)

(** The probes of the paths from [idx] on. *)
Fixpoint probe_marginals input (clock : nat -> N) (first_chunk : N) (idx : nat) (paths : list WFPath) cache
    : SwapCache * list (nat * Z) :=
  match paths with
  | [] => (cache, [])
  | path :: paths =>
      if expired (si_timeout input) (clock idx) then (cache, [])
      else
        let '(cache, probe) := wf_simulate_path path (si_market input) cache first_chunk SetSelection in
        let '(cache, marginal) := probe_marginals input clock first_chunk (S idx) paths cache in
        (cache, match probe with
                | None => marginal
                | Some probe => (idx, Z.of_N (sr_amount_out probe) - activation_cost input (sr_gas probe))%Z :: marginal
                end)
  end.

Fixpoint add_winners (candidates : list nat) (winners : list (nat * Z)) : list nat :=
  match winners with
  | [] => candidates
  | (idx, net) :: winners =>
      if (net <=? 0)%Z then add_winners candidates winners
      else
        let candidates := if bool_decide (idx ∈ candidates) then candidates else candidates ++ [idx] in
        if (SHARED_MAX_CANDIDATES <=? length candidates)%nat then candidates else add_winners candidates winners
  end.

Definition select_shared_candidates input cache (clock : nat -> N) : SwapCache * list nat :=
  let candidates := seq 0 (Nat.min (length (si_ordered input)) SHARED_FULL_PATHS) in
  let first_chunk := order_amount (si_order input) / N.of_nat COARSE_CHUNKS in
  if first_chunk =? 0 then (cache, candidates)
  else
    let '(cache, marginal) := probe_marginals input clock first_chunk 0 (take SHARED_MARGIN_PROBE_PATHS (si_ordered input)) cache in
    (cache, add_winners candidates (take SHARED_MARGIN_PATHS (sort_by (fun a b => (b.2 ?= a.2)%Z) marginal))).

(** What the chunks so far have left of one pass over shared components. *)
Record Spill := {
  sp_overlay : gmap ComponentId ProtocolSim;
  sp_activated : list bool;
  sp_active_count : nat;
  sp_schedule : list (nat * N);
  sp_marginals : list (option StepResult);
  sp_marginals_chunk : option N;
}.

(** A path that crosses a pool the chunk moved is asked again. *)
Definition forget_moved (pools_moved : list ComponentId) path (marginal : option StepResult) : option StepResult :=
  if existsb (fun c => bool_decide (c ∈ pools_moved)) (path_key path) then None else marginal.

Definition may_take_chunk self (activated : bool) (active_count : nat) : bool :=
  activated || (active_count <? wf_max_paths self)%nat.

Fixpoint spill_chunks self input (paths : list WFPath) (base_chunk remainder : N) (clock : nat -> N) (n chunk_idx : nat) (spill : Spill)
    : list (nat * N) :=
  match n with
  | O => sp_schedule spill
  | S n =>
      if expired (si_timeout input) (clock chunk_idx) then sp_schedule spill
      else
        let chunk := chunk_of base_chunk remainder chunk_idx in
        let marginals := marginals_for chunk (sp_marginals_chunk spill) (sp_marginals spill) in
        let marginals :=
          zip_with (fun (path_activated : WFPath * bool) marginal =>
                      if may_take_chunk self path_activated.2 (sp_active_count spill)
                      then price_marginal (si_market input) path_activated.1 (sp_overlay spill) chunk marginal
                      else marginal)
            (zip paths (sp_activated spill)) marginals in
        match best_marginal input 0
                (zip_with (fun activated step => (may_take_chunk self activated (sp_active_count spill), activated, step))
                   (sp_activated spill) marginals) None with
        | None => sp_schedule spill
        | Some (best_i, _) =>
            match marginals !! best_i with
            | Some (Some step) =>
                let pools_moved := fst <$> st_new_states step in
                let activated := default false (sp_activated spill !! best_i) in
                spill_chunks self input paths base_chunk remainder clock n (S chunk_idx) {|
                  sp_overlay := commit_states (sp_overlay spill) (st_new_states step);
                  sp_activated := <[best_i := true]> (sp_activated spill);
                  sp_active_count := if activated then sp_active_count spill else S (sp_active_count spill);
                  sp_schedule := sp_schedule spill ++ [(best_i, chunk)];
                  sp_marginals := zip_with (forget_moved pools_moved) paths (<[best_i := None]> marginals);
                  sp_marginals_chunk := Some chunk |}
            | _ => sp_schedule spill
            end
        end
  end.

Definition fillspill_waterfill self input (subset : list nat) (num_chunks : nat) (gate : bool) (clock : nat -> N)
    : outcome (option (list (nat * N))) :=
  let amount_in := order_amount (si_order input) in
  let num_chunks := Nat.max num_chunks 1 in
  let base_chunk := amount_in / N.of_nat num_chunks in
  if base_chunk =? 0 then Ret None
  else
    remainder ← bsub amount_in (base_chunk * N.of_nat num_chunks);
    paths ← paths_at input subset;
    Ret (Some (spill_chunks self input paths base_chunk remainder clock num_chunks 0 {|
      sp_overlay := ∅;
      sp_activated := replicate (length subset) (negb gate);
      sp_active_count := if gate then 0%nat else length subset;
      sp_schedule := [];
      sp_marginals := replicate (length subset) None;
      sp_marginals_chunk := None |})).

(** What the schedule gives each candidate. *)
Definition scheduled_amounts (count : nat) (schedule : list (nat * N)) : list N :=
  fold_left (fun cand_in entry => alter (fun amount => amount + entry.2) entry.1 cand_in) schedule (replicate count 0).

(** One leg per path, each on the overlay the legs before it leave. *)
Fixpoint sequential_legs input (legs : list (WFPath * N)) (overrides : gmap ComponentId ProtocolSim) : option (list PathAllocation) :=
  match legs with
  | [] => Some []
  | (path, amount) :: legs =>
      '(overrides, allocation) ← allocation_commit path (si_market input) overrides amount (ratio amount (order_amount (si_order input)));
      allocations ← sequential_legs input legs overrides;
      Some (allocation :: allocations)
  end.

Definition build_fillspill_route input (active : list nat) (schedule : list (nat * N)) : outcome (option SplitCandidate) :=
  paths ← paths_at input active;
  let cand_in := scheduled_amounts (length active) schedule in
  let legs := List.filter (fun leg : WFPath * N => negb (leg.2 =? 0)) (zip paths cand_in) in
  if (length legs <? 2)%nat then Ret None
  else
    match sequential_legs input (sort_desc snd legs) ∅ with
    | None => Ret None
    | Some allocations => candidate_from_allocations input allocations
    end.

Definition fillspill_alloc self input (fine_chunks : nat) cache (clock : SolveClock) : outcome (SwapCache * option SplitCandidate) :=
  let '(cache, candidates) := select_shared_candidates input cache (ck_probe clock) in
  let none : outcome (SwapCache * option SplitCandidate) := Ret (cache, None) in
  if (length candidates <? 2)%nat then none
  else
    coarse ← fillspill_waterfill self input candidates COARSE_CHUNKS true (ck_spill_coarse clock);
    match coarse with
    | None => none
    | Some coarse =>
        let took_a_chunk : list nat := (fun entry : nat * N => entry.1) <$> coarse in
        let active : list nat := snd <$> List.filter (fun entry : nat * nat => bool_decide (entry.1 ∈ took_a_chunk))
                                (zip (seq 0 (length candidates)) candidates) in
        if (length active <? 2)%nat then none
        else
          schedule ← fillspill_waterfill self input active fine_chunks false (ck_spill_fine clock);
          match schedule with
          | None | Some [] => none
          | Some schedule => candidate ← build_fillspill_route input active schedule; Ret (cache, candidate)
          end
    end.
End simulation.

(** ** Candidate discovery *)

Section discovery.
Context `{TychoGas} `{!Messages} `{!TychoSwaps} `{NodeGraph (list (EdgeData DepthAndPrice))}.
Context (NATIVE_WRAP_COMPONENT : ComponentId).
(** The order an unstable sort finds equal nodes in, and the order a hash map hands out its keys. *)
Context (tie_order : list (NodeIndex * nat) -> list (NodeIndex * nat)) (hash_order : list NodeIndex -> list NodeIndex).
Implicit Types (self : WaterFillAlgorithm) (graph : TopologyGraph (D:=DepthAndPrice)) (search : RouteSearch) (market : MarketDataView) (cache : SwapCache)
  (state : CandidatePathState) (path : WFPath) (node target : NodeIndex).

Definition non_wrap_hops path : nat :=
  length (List.filter (fun edge => negb (bool_decide (ed_component_id edge = NATIVE_WRAP_COMPONENT))) (path_edge_data path)).

Definition counted_hops path : nat :=
  match path_edge_data path with [] => 0%nat | _ => Nat.max (non_wrap_hops path) 1 end.

(** [Address::from([0u8; 20])]. *)
Definition native_sentinel : Address := String.string_of_list_ascii (replicate 20 Ascii.zero).

Definition pools_at graph node : nat :=
  sum_list ((fun edge : NodeIndex * list (EdgeData DepthAndPrice) => length edge.2) <$> edges_from (tg_graph graph) node).

Definition derive_anchor_tokens graph : gset Address :=
  let by_pool_count := (fun node => (node, pools_at graph node)) <$> node_indices (tg_graph graph) in
  let ranked := sort_by (fun a b => (b.2 ?= a.2)%nat) (tie_order by_pool_count) in
  {[ native_sentinel ]} ∪ list_to_set ((fun entry => node_address graph entry.1) <$> take DERIVED_ANCHOR_COUNT ranked).

Record CandidateSearchConfig := {
  cs_search : RouteSearch;
  cs_max_candidates : nat;
  cs_anchor_tokens : gset Address;
  cs_source_token : Address;
  cs_timeout : N;
}.
Implicit Types (cfg : CandidateSearchConfig).

Definition candidate_priority graph node target cfg : option nat :=
  if decide (node = target) then Some 0%nat
  else
    let token := node_address graph node in
    match connector_tokens (rs_bounds (cs_search cfg)) with
    | Some tokens =>
        if bool_decide (token ∈ tokens) || bool_decide (token ∈ rrc_required_tokens (rs_constraints (cs_search cfg)))
        then Some 1%nat else None
    | None => if bool_decide (token ∈ cs_anchor_tokens cfg) then Some 2%nat else None
    end.

Definition can_extend_path graph state (next_node target : NodeIndex) (edge : EdgeData DepthAndPrice) cfg : bool :=
  let next_addr := node_address graph next_node in
  let search := cs_search cfg in
  if excludes_pool (rs_constraints search) (ed_component_id edge) then false
  else if existsb (fun existing => bool_decide (ed_component_id existing = ed_component_id edge)) (path_edge_data (cp_path state))
  then false
  else if bool_decide (next_addr ∈ path_tokens (cp_path state)) then false
  else if bool_decide (next_addr = cs_source_token cfg) then false
  else if negb (bool_decide (ed_component_id edge = NATIVE_WRAP_COMPONENT))
          && (max_hops (rs_bounds search) <=? non_wrap_hops (cp_path state))%nat
  then false
  else search_allows_token search next_addr (cs_source_token cfg, node_address graph target).

Definition simulate_edge market (amount : N) (token_in_addr : Address) (edge : EdgeData DepthAndPrice) (token_out_addr : Address)
    : result Refusal SwapResult :=
  swap_between (fun address => tokens (view_guard market) !! address)
    (view_get_simulation_state market (ed_component_id edge)) token_in_addr token_out_addr amount.

(** One pool of an edge out of the state. *)
Definition score_pool graph market cfg target state (next_node : NodeIndex) (priority : nat)
    (scan : SwapCache * list ScoredEdge) (pool : EdgeData DepthAndPrice) : SwapCache * list ScoredEdge :=
  let '(cache, scored) := scan in
  if negb (can_extend_path graph state next_node target pool cfg) then scan
  else
    let address_in := node_address graph (cp_node state) in
    let address_out := node_address graph next_node in
    let '(cache, hop) :=
      swap cache (ed_component_id pool, address_in, address_out) (cp_amount_out state)
        (simulate_edge market (cp_amount_out state) address_in pool address_out) (may_interpolate Discovery) in
    match hop with
    | None => (cache, scored)
    | Some hop =>
        (cache, scored ++ [{| se_target := next_node; se_edge := pool; se_amount_out := sr_amount_out hop; se_priority := priority |}])
    end.

Definition score_edge graph market cfg target state (preferred_only : bool) (scan : SwapCache * list ScoredEdge)
    (edge : NodeIndex * list (EdgeData DepthAndPrice)) : SwapCache * list ScoredEdge :=
  let '(next_node, pools) := edge in
  match candidate_priority graph next_node target cfg with
  | Some priority => fold_left (score_pool graph market cfg target state next_node priority) pools scan
  | None =>
      if preferred_only then scan else fold_left (score_pool graph market cfg target state next_node 3%nat) pools scan
  end.

Definition score_candidate_edges graph market cfg target state (preferred_only : bool) cache : SwapCache * list ScoredEdge :=
  fold_left (score_edge graph market cfg target state preferred_only) (edges_from (tg_graph graph) (cp_node state)) (cache, []).

Definition compare_scored_edges (a b : ScoredEdge) : comparison :=
  match (se_priority a ?= se_priority b)%nat with
  | Eq => (se_amount_out b ?= se_amount_out a)
  | c => c
  end.

(** The loop of [select_candidate_edges]; at most [more] may be selected. *)
Fixpoint select_edges (scored : list ScoredEdge) (per_target : gmap NodeIndex nat) (more : nat) : list ScoredEdge :=
  match scored with
  | [] => []
  | edge :: scored =>
      let limit := if (se_priority edge =? 0)%nat then CANDIDATE_DIRECT_EDGES_PER_TOKEN else CANDIDATE_CONNECTOR_EDGES_PER_TOKEN in
      let count := default 0%nat (per_target !! se_target edge) in
      if (limit <=? count)%nat then select_edges scored per_target more
      else edge :: match more with
                   | O | S O => []
                   | S more => select_edges scored (<[se_target edge := S count]> per_target) more
                   end
  end.

Definition select_candidate_edges (scored : list ScoredEdge) (max_edges : nat) : list ScoredEdge :=
  select_edges (sort_by compare_scored_edges scored) ∅ max_edges.

Definition candidate_edges_for_state graph market cfg target state cache : SwapCache * list ScoredEdge :=
  let '(cache, preferred) := score_candidate_edges graph market cfg target state true cache in
  let '(cache, preferred) :=
    match preferred with
    | [] => score_candidate_edges graph market cfg target state false cache
    | _ => (cache, preferred)
    end in
  (cache, select_candidate_edges preferred CANDIDATE_EDGES_PER_STATE).

(** The routes found and the states of the next level, by node. *)
Abbreviation Found := (list (WFPath * N)) (only parsing).
Abbreviation Level := (gmap NodeIndex (list CandidatePathState)) (only parsing).

Definition stays_on_frontier graph cfg path (candidate_target : NodeIndex) : bool :=
  (non_wrap_hops path <? max_hops (rs_bounds (cs_search cfg)))%nat
  || match wrap_twin graph candidate_target with
     | Some twin => negb (bool_decide (node_address graph twin ∈ path_tokens path))
     | None => false
     end.

(** The edges from [i] on; [clock] is read before each. *)
Fixpoint expand_edges graph cfg target state (clock : nat -> N) (i : nat) (edges : list ScoredEdge) (found : Found)
    (next_by_node : Level) : Found * Level :=
  match edges with
  | [] => (found, next_by_node)
  | candidate :: edges =>
      if expired (cs_timeout cfg) (clock i) then (found, next_by_node)
      else
        let path := add_hop (cp_path state) (node_address graph (cp_node state)) (se_edge candidate)
                      (node_address graph (se_target candidate)) in
        let path_state := {| cp_node := se_target candidate; cp_path := path; cp_amount_out := se_amount_out candidate |} in
        let found :=
          if bool_decide (se_target candidate = target) && (min_hops (rs_bounds (cs_search cfg)) <=? counted_hops path)%nat
          then found ++ [(path, se_amount_out candidate)] else found in
        let next_by_node :=
          if stays_on_frontier graph cfg path (se_target candidate)
          then <[se_target candidate := default [] (next_by_node !! se_target candidate) ++ [path_state]]> next_by_node
          else next_by_node in
        expand_edges graph cfg target state clock (S i) edges found next_by_node
  end.

Definition expand_candidate_state graph market cfg target state (clock : nat -> N) cache (found : Found) (next_by_node : Level)
    : SwapCache * Found * Level :=
  let '(cache, edges) := candidate_edges_for_state graph market cfg target state cache in
  let '(found, next_by_node) := expand_edges graph cfg target state clock 0 edges found next_by_node in
  (cache, found, next_by_node).

Definition prune_candidate_frontier (by_node : Level) : list CandidatePathState :=
  omap (fun node => by_node !! node) (hash_order (elements (dom by_node)))
    ≫= fun states => take CANDIDATE_STATES_PER_NODE (sort_desc cp_amount_out states).

(** The states of one level from [i] on. *)
Fixpoint expand_level graph market cfg (from_idx target : NodeIndex) (clock : nat -> nat -> N) (i : nat)
    (frontier : list CandidatePathState) cache (found : Found) (next_by_node : Level) : SwapCache * Found * Level :=
  match frontier with
  | [] => (cache, found, next_by_node)
  | state :: frontier =>
      if bool_decide (cp_node state = target) && negb (bool_decide (from_idx = target))
      then expand_level graph market cfg from_idx target clock (S i) frontier cache found next_by_node
      else
        let '(cache, found, next_by_node) := expand_candidate_state graph market cfg target state (clock i) cache found next_by_node in
        expand_level graph market cfg from_idx target clock (S i) frontier cache found next_by_node
  end.

(** The levels from [depth] on, of which [n] are left. *)
Fixpoint discover_levels graph market cfg (from_idx to_idx : NodeIndex) (clock : SolveClock) (n depth : nat)
    (frontier : list CandidatePathState) cache (found : Found) : SwapCache * Found :=
  match n, frontier with
  | O, _ | _, [] => (cache, found)
  | S n, _ =>
      if expired (cs_timeout cfg) (ck_level clock depth) then (cache, found)
      else
        let '(cache, found, next_by_node) :=
          expand_level graph market cfg from_idx to_idx (ck_edge clock depth) 0 frontier cache found ∅ in
        discover_levels graph market cfg from_idx to_idx clock n (S depth) (prune_candidate_frontier next_by_node) cache found
  end.

(** The paths of distinct keys, best first; at most [more] may be kept. *)
Fixpoint distinct_paths (found : Found) (keys : gset (list ComponentId)) (more : nat) : list WFPath :=
  match found with
  | [] => []
  | (path, _) :: found =>
      if bool_decide (path_key path ∈ keys) then distinct_paths found keys more
      else path :: match more with
                   | O | S O => []
                   | S more => distinct_paths found ({[ path_key path ]} ∪ keys) more
                   end
  end.

Definition rank_found_candidate_paths (found : Found) (max_candidates : nat) (order : Order) : result AlgorithmError (list WFPath) :=
  match distinct_paths (sort_desc snd found) ∅ max_candidates with
  | [] => Err (AE_NoPath (order_token_in order) (order_token_out order) NoGraphPath)
  | paths => Ok paths
  end.

Definition get_token_ixs graph (order : Order) : result AlgorithmError (NodeIndex * NodeIndex) :=
  let missing reason := Err (AE_NoPath (order_token_in order) (order_token_out order) reason) in
  match get_token_ix graph (order_token_in order) with
  | None => missing SourceTokenNotInGraph
  | Some from_idx =>
      match get_token_ix graph (order_token_out order) with
      | None => missing DestinationTokenNotInGraph
      | Some to_idx => Ok (from_idx, to_idx)
      end
  end.

Definition discover_paths graph market (order : Order) cache cfg (clock : SolveClock) : SwapCache * result AlgorithmError (list WFPath) :=
  match get_token_ixs graph order with
  | Err e => (cache, Err e)
  | Ok (from_idx, to_idx) =>
      let '(cache, found) :=
        discover_levels graph market cfg from_idx to_idx clock (S (max_hops (rs_bounds (cs_search cfg)))) 0
          [{| cp_node := from_idx; cp_path := Path_new; cp_amount_out := order_amount order |}] cache [] in
      let found :=
        List.filter (fun entry : WFPath * N =>
          visits_all_required_tokens (rs_constraints (cs_search cfg)) (path_tokens entry.1)) found in
      (cache, rank_found_candidate_paths found (cs_max_candidates cfg) order)
  end.

(** ** Setup *)

Definition top_scored_paths self graph (order : Order) search : outcome (result AlgorithmError (list WFPath)) :=
  all_paths <-? find_paths NATIVE_WRAP_COMPONENT graph (order_token_in order) (order_token_out order) search None;
  match all_paths with
  | [] => Ret (Err (AE_NoPath (order_token_in order) (order_token_out order) NoGraphPath))
  | _ =>
      let scored := (fun path => (path, default F64.MIN (try_score_path path))) <$> all_paths in
      Ret (Ok (fst <$> take (wf_max_candidates self) (sort_by (fun a b => partial_cmp b.2 a.2) scored)))
  end.

(** The discovered paths whose key the scored ones do not have. *)
Fixpoint new_paths (keys : gset (list ComponentId)) (discovered : list WFPath) : list WFPath :=
  match discovered with
  | [] => []
  | path :: discovered =>
      if bool_decide (path_key path ∈ keys) then new_paths keys discovered
      else path :: new_paths ({[ path_key path ]} ∪ keys) discovered
  end.

(** The reordering by the ranking. *)
Definition reordered (input : SolveInput) (ordered : list WFPath) : SolveInput := {|
  si_ordered := ordered; si_market := si_market input; si_gas_price := si_gas_price input;
  si_token_prices := si_token_prices input; si_order := si_order input; si_timeout := si_timeout input |}.

Definition setup self (request : SolveParts (TopologyGraph (D:=DepthAndPrice))) (clock : SolveClock)
    : outcome (result AlgorithmError SetupResult) :=
  let order := so_order request in
  let graph := so_graph request in
  let search := {| rs_bounds := wf_query self; rs_constraints := so_constraints request |} in
  scored_paths <-? top_scored_paths self graph order search;
  market_view <-? Ret (read_market (so_market request) (so_label request));
  let '(cache, discovered) :=
    discover_paths graph market_view order ∅
      {| cs_search := search; cs_max_candidates := MAX_DISCOVERY_CANDIDATES; cs_anchor_tokens := derive_anchor_tokens graph;
         cs_source_token := order_token_in order; cs_timeout := wf_timeout self |} clock in
  let discovered_paths := match discovered with Ok paths => paths | Err _ => [] end in
  let joined_paths := new_paths (list_to_set (path_key <$> scored_paths)) discovered_paths ++ scored_paths in
  let component_ids : gset ComponentId := list_to_set (joined_paths ≫= path_key) in
  let market_state := extract_subset_with_overlay market_view component_ids in
  gas_price <-? Ret (fetch_gas_price market_state);
  let input := {| si_ordered := joined_paths; si_market := market_state; si_gas_price := gas_price;
                  si_token_prices := so_derived request ≫= token_prices; si_order := order; si_timeout := wf_timeout self |} in
  let '(cache, ranking) := rank_at_full_amount input cache (ck_rank clock) in
  best ← best_single input ranking;
  ordered ← paths_at input (by_output ranking);
  Ret (Ok {| su_input := reordered input ordered; su_best_single := best; su_cache := cache |}).

(** ** The solve *)

Definition beats (best : option (Z * SplitCandidate)) (baseline_net : option Z) (net : Z) : bool :=
  match best, baseline_net with
  | Some (current, _), _ => (current <? net)%Z
  | None, Some base => (base <? net)%Z
  | None, None => true
  end.

Definition best_candidate (input : SolveInput) (baseline_net : option Z) (candidates : list SplitCandidate)
    : option (Z * SplitCandidate) :=
  fold_left (fun best cand =>
    let net := net_of input cand in
    if beats best baseline_net net then Some (net, cand) else best) candidates None.

(** The splits that share no component: the coarse one, and the refined one. *)
Definition disjoint_candidates `{!SplitMessages} self (input : SolveInput) cache (clock : SolveClock)
    : outcome (SwapCache * list SplitCandidate) :=
  let disjoint := select_disjoint (si_ordered input) (wf_max_paths self) in
  coarse ← (if (2 <=? length disjoint)%nat then disjoint_waterfill input disjoint COARSE_CHUNKS true (ck_coarse clock) else Ret None);
  match coarse with
  | None => Ret (cache, [])
  | Some coarse =>
      coarse_split ← build_disjoint_legs input disjoint coarse;
      '(cache, refined) ← disjoint_refine input disjoint coarse FINE_CHUNKS cache clock;
      Ret (cache, option_list coarse_split ++ option_list refined)
  end.

Definition wf_find_best_route `{!SplitMessages} self (request : SolveParts (TopologyGraph (D:=DepthAndPrice))) (clock : SolveClock)
    : outcome (result AlgorithmError RouteResult) :=
  if negb (Order_is_sell (so_order request)) then Ret (Err AE_ExactOutNotSupported)
  else
    prepared <-? setup self request clock;
    let input := su_input prepared in
    '(cache, candidates) ← disjoint_candidates self input (su_cache prepared) clock;
    '(_, spilled) ← fillspill_alloc self input FINE_CHUNKS cache clock;
    let candidates := candidates ++ option_list spilled in
    let baseline_net := rr_net_amount_out <$> su_best_single prepared in
    Ret match best_candidate input baseline_net candidates with
        | Some (net, cand) => Ok (RouteResult_new (cd_route cand) net (si_gas_price input))
        | None =>
            match su_best_single prepared with
            | Some best => Ok best
            | None => Err AE_InsufficientLiquidity
            end
        end.
End discovery.
