(* ===== verification/WaterFillProofs.v ===== *)
(** * WaterFillProofs: what pouring an order in chunks achieves

    The marginals a pass remembers are what it would simulate again; with diminishing marginals no
    other way to hand out a whole number of chunks pays more; the exchange ends, moves the order without losing
    any of it and never lowers what the paths net; and a solve never panics, returns no less than
    the best single path, and a split that takes the whole order. *)

From stdpp Require Import prelude gmap sets strings list sorting.
From Stdlib Require Import NArith ZArith Lia.
From S2P Require Import Prelude F64 Types Route RouteProofs Amounts Samples DerivedStore SpotPriceComputation MarketData MarketDataProofs SwapCache Algorithm.
From S2P Require Import StableGraph TokenGraph TokenGraphLaws ExpandPath TokenGraphProperties RouteSearchProofs RouteSearch PathScoring Paths MostLiquidProofs MostLiquidProperties MostLiquidSamples.
From S2P Require Import ReplaceProofs SplitMath Replay SplitPlan SplitPlanProofs SplitReplay Tracker Worker WorkerProofs BellmanFord BellmanFordProofs FrankWolfe FrankWolfeProofs WaterFill.

#[local] Open Scope N_scope.

(** ** What the cache remembers *)

Section remembered.
Context (pools : PoolDirection -> N -> result Refusal SwapResult) (dirs : PoolDirection -> Prop).

(** What it serves again of these directions is what the pool answered. *)
Definition cache_exact (cache : SwapCache) : Prop := forall direction sa a r, dirs direction ->
  cache !! direction = Some sa -> (a, Some r) ∈ amounts_and_results sa -> pools direction a = Ok r.

Lemma cache_exact_empty : cache_exact ∅.
Proof. by intros direction sa a r _ ?. Qed.

(** The answer may be another's where the direction is none of these. *)
Lemma swap_exact cache direction amount_in answers may_interpolate cache' answer : cache_exact cache ->
  (dirs direction -> answers = pools direction amount_in) ->
  swap cache direction amount_in answers may_interpolate = (cache', answer) ->
  cache_exact cache' /\ (dirs direction -> may_interpolate = false -> forall r, answer = Some r -> pools direction amount_in = Ok r).
Proof.
  intros Hok Hanswers. unfold swap. set (sa := default _ _).
  assert (dirs direction -> forall a r, (a, Some r) ∈ amounts_and_results sa -> pools direction a = Ok r) as Hsa.
  { intros Hdir a r. unfold sa. destruct (cache !! direction) eqn:Hd; [by apply (Hok direction)|by intros []%not_elem_of_nil]. }
  destruct (swap_amount sa amount_in _ may_interpolate) as [sa' answer'] eqn:Hs. intros [= <- <-].
  assert (dirs direction -> (forall a r, (a, Some r) ∈ amounts_and_results sa' -> pools direction a = Ok r) /\
    (may_interpolate = false -> forall r, answer' = Some r -> pools direction amount_in = Ok r)) as Hnew.
  { intros Hdir. specialize (Hsa Hdir). rewrite (Hanswers Hdir) in Hs. clear Hanswers. revert Hs.
    unfold swap_amount. destruct (search_amount _ amount_in) as [i|i] eqn:Hx.
    - destruct (search_amount_found _ _ _ Hx) as [r Hr]. rewrite Hr. intros [= <- <-]. split; [done|].
      intros _ r' ->. apply Hsa. by eapply list_elem_of_lookup_2.
    - destruct (refuses sa amount_in); [intros [= <- <-]; by split|].
      assert (forall a r, (a, Some r) ∈ amounts_and_results (record sa i amount_in (pools direction amount_in)) -> pools direction a = Ok r) as Hrec.
      { intros a r. rewrite record_amounts, elem_of_app, elem_of_cons. intros [Hin|[[= -> Heq]|Hin]].
        - apply Hsa. by apply (subseteq_take i).
        - destruct (pools direction amount_in); [|done]. by injection Heq as ->.
        - apply Hsa. by apply (subseteq_drop i). }
      assert (forall r, ok (pools direction amount_in) = Some r -> pools direction amount_in = Ok r) as Hres
        by (intros r; destruct (pools direction amount_in); [by intros [= ->]|done]).
      destruct may_interpolate; [destruct (interpolate sa i amount_in)|]; intros [= <- <-]; (split; [done|]); done. }
  split; [|intros Hdir; by apply Hnew]. intros d sa'' a r Hd. destruct (decide (d = direction)) as [->|Hne].
  - rewrite lookup_insert_eq. intros [= <-]. by apply Hnew.
  - rewrite lookup_insert_ne by done. by apply Hok.
Qed.
End remembered.

(** ** Simulating a path *)

Section paths.
Context `{TychoGas} `{!Messages} `{!TychoSwaps} `{!SplitMessages}.
Implicit Types (market : MarketState) (path : WFPath) (input : SolveInput) (cache : SwapCache).

Definition market_pools market : PoolDirection -> N -> result Refusal SwapResult := fun direction =>
  wf_simulate_hop market direction.1.1 direction.1.2 direction.2.

(** The directions the paths trade. *)
Definition crossed (paths : list WFPath) (direction : PoolDirection) : Prop :=
  exists path, path ∈ paths /\ (direction.1.2, direction.2, direction.1.1) ∈ path_iter path.

(** The path as the market stands, without the cache. *)
Fixpoint plain_hops (hops : list (Address * Address * ComponentId)) market (amount gas : N) : option SwapResult :=
  match hops with
  | [] => Some {| sr_amount_out := amount; sr_gas := gas |}
  | (address_in, address_out, component_id) :: hops =>
      match wf_simulate_hop market component_id address_in address_out amount with
      | Ok hop => plain_hops hops market (sr_amount_out hop) (gas + sr_gas hop)
      | Err _ => None
      end
  end.

Definition plain_net input path (amount : N) : option Z :=
  if amount =? 0 then Some 0%Z
  else
    result ← plain_hops (path_iter path) (si_market input) amount 0;
    Some (Z.of_N (sr_amount_out result) - activation_cost input (sr_gas result))%Z.

Section exact.
Context (market : MarketState) (dirs : PoolDirection -> Prop).
#[local] Abbreviation exact := (cache_exact (market_pools market) dirs).

Lemma cached_hops_exact hops cache amount gas stage cache' answer : exact cache ->
  cached_hops hops market cache amount gas stage = (cache', answer) ->
  exact cache' /\ (Forall (fun hop => dirs (hop.2, hop.1.1, hop.1.2)) hops -> may_interpolate stage = false ->
    forall r, answer = Some r -> plain_hops hops market amount gas = Some r).
Proof.
  revert cache amount gas. induction hops as [|[[a b] c] hops IH]; intros cache amount gas Hok; cbn [cached_hops plain_hops].
  { intros [= <- <-]. split; [done|]. by intros _ _ r [= <-]. }
  destruct (swap _ _ _ _ _) as [cache1 hop] eqn:Hs.
  destruct (swap_exact (market_pools market) dirs _ _ _ _ _ _ _ Hok (fun _ => eq_refl) Hs) as [Hok1 Hexact].
  destruct hop as [hop|]; [|intros [= <- <-]; by split]. intros Hrest.
  destruct (IH cache1 _ _ Hok1 Hrest) as [Hok2 Hplain]. split; [done|]. intros [Hdir Hdirs]%Forall_cons Hstage.
  pose proof (Hexact Hdir Hstage hop eq_refl) as Hp. unfold market_pools in Hp. cbn in Hp. rewrite Hp. by apply Hplain.
Qed.
End exact.

Lemma path_net_exact input dirs path amount cache cache' answer : cache_exact (market_pools (si_market input)) dirs cache ->
  path_net input path amount cache = (cache', answer) ->
  cache_exact (market_pools (si_market input)) dirs cache' /\
  (Forall (fun hop => dirs (hop.2, hop.1.1, hop.1.2)) (path_iter path) -> forall net, answer = Some net -> plain_net input path amount = Some net).
Proof.
  intros Hok. unfold path_net, plain_net. destruct (amount =? 0); [intros [= <- <-]; split; [done|by intros _ net [= <-]]|].
  destruct (wf_simulate_path _ _ _ _ _) as [cache1 result] eqn:Hs. intros [= <- <-].
  destruct (cached_hops_exact _ _ _ _ _ _ _ _ _ Hok Hs) as [? Hr]. split; [done|]. intros Hdirs net.
  destruct result as [result|]; [|done]. rewrite (Hr Hdirs eq_refl result eq_refl). by intros [= <-].
Qed.

Lemma crossed_path paths path : path ∈ paths -> Forall (fun hop => crossed paths (hop.2, hop.1.1, hop.1.2)) (path_iter path).
Proof. intros Hp. apply Forall_forall. intros [[a b] c] Hhop. exists path. by split. Qed.
End paths.

(** ** The exchange *)

Definition sum_Z (l : list Z) : Z := foldr Z.add 0%Z l.

Lemma sum_Z_insert l i x y : l !! i = Some x -> (sum_Z (<[i:=y]> l) = sum_Z l - x + y)%Z.
Proof.
  revert i. induction l as [|z l IH]; intros [|i]; cbn; [done|done|by intros [= ->]; lia|]. intros Hi.
  change (foldr Z.add 0%Z (<[i:=y]> l)) with (sum_Z (<[i:=y]> l)). rewrite (IH i Hi). unfold sum_Z. lia.
Qed.

Lemma total_insert (l : list N) i x y : l !! i = Some x -> total_of (<[i:=y]> l) + x = total_of l + y.
Proof.
  revert i. induction l as [|z l IH]; intros [|i]; [done|done|..]; cbn [lookup list_lookup]; intros Hi.
  - injection Hi as ->. change (<[O:=y]> (x :: l)) with (y :: l). unfold total_of. rewrite !sum_by_cons. lia.
  - change (<[S i:=y]> (z :: l)) with (z :: <[i:=y]> l). specialize (IH i Hi). unfold total_of in *. rewrite !sum_by_cons. lia.
Qed.

Section exchange.
Context `{TychoGas} `{!Messages} `{!TychoSwaps}.
Context (input : SolveInput) (paths : list WFPath).

(** The nets the pass keeps are those of its amounts. *)
Definition nets_ok (amounts : list N) (nets : list Z) : Prop :=
  length amounts = length paths /\ length nets = length paths /\
  forall i path amount net, paths !! i = Some path -> amounts !! i = Some amount -> nets !! i = Some net ->
    plain_net input path amount = Some net.

(** A move gains what it says, and both its paths net what it says. *)
Record move_ok (delta : N) (amounts : list N) (nets : list Z) (mv : ExchangeMove) : Prop := {
  mo_distinct : mv_donor mv <> mv_recipient mv;
  mo_paid : exists path amount net, paths !! mv_donor mv = Some path /\ amounts !! mv_donor mv = Some amount /\
    nets !! mv_donor mv = Some net /\ delta <= amount /\ plain_net input path (amount - delta) = Some (mv_donor_net mv) /\
    exists path' amount' net', paths !! mv_recipient mv = Some path' /\ amounts !! mv_recipient mv = Some amount' /\
      nets !! mv_recipient mv = Some net' /\ plain_net input path' (amount' + delta) = Some (mv_recip_net mv) /\
      (net + net' < mv_donor_net mv + mv_recip_net mv)%Z;
}.

Section scan.
Context (delta : N) (amounts : list N) (nets : list Z) (Hnets : nets_ok amounts nets) (sims : nat).

(** The scan so far: the cache is exact, and a best move costs at least one trial. *)
Record scan_ok (scan : ExchangeScan) : Prop := {
  so_cache : cache_exact (market_pools (si_market input)) (crossed paths) (xc_cache scan);
  so_sims : (sims <= xc_sims scan)%nat;
  so_best : forall mv, xc_best scan = Some mv -> move_ok delta amounts nets mv /\ (sims < xc_sims scan)%nat;
}.

Lemma trial_net_ok scan i amount scan' answer : scan_ok scan -> trial_net input paths scan i amount = (scan', answer) ->
  scan_ok scan' /\ forall net, answer = Some net -> (sims < xc_sims scan')%nat /\
    exists path, paths !! i = Some path /\ plain_net input path amount = Some net.
Proof.
  intros Hok. unfold trial_net. destruct (paths !! i) as [path|] eqn:Hi; [|intros [= <- <-]; by split].
  destruct (path_net _ _ _ _) as [cache net] eqn:Hp. intros [= <- <-].
  destruct (path_net_exact _ _ _ _ _ _ _ (so_cache scan Hok) Hp) as [Hcache Hexact]. destruct Hok as [_ Hsims Hbest]. split.
  - split; cbn; [done|destruct net; lia|]. intros mv Hmv. destruct (Hbest mv Hmv). split; [done|]. destruct net; lia.
  - intros n ->. split; [cbn; lia|]. exists path. split; [done|]. apply Hexact; [|done]. apply crossed_path. by eapply list_elem_of_lookup_2.
Qed.

Lemma try_recipient_ok donor donor_path donor_amount donor_net scan recipient : scan_ok scan ->
  paths !! donor = Some donor_path -> amounts !! donor = Some donor_amount -> delta <= donor_amount ->
  plain_net input donor_path (donor_amount - delta) = Some donor_net ->
  (recipient < length paths)%nat ->
  scan_ok (try_recipient input paths delta amounts nets donor donor_net scan recipient).
Proof.
  intros Hok Hpath Hamount Hle Hdonor Hrecip. unfold try_recipient. destruct (_ <=? _)%nat; [done|].
  destruct (Nat.eqb_spec recipient donor) as [|Hne]; [done|].
  destruct (trial_net _ _ _ _ _) as [scan' net] eqn:Ht. destruct (trial_net_ok _ _ _ _ _ Hok Ht) as [Hok' Hnet].
  destruct net as [net|]; [|done]. destruct (Hnet net eq_refl) as (Hsims & path & Hp & Hplain).
  destruct (Z.leb_spec (donor_net + net) (cached_net nets donor + cached_net nets recipient)); [done|].
  destruct (match xc_best scan' with Some m => _ | None => true end); [|done].
  split; cbn; [apply Hok'|apply Hok'|]. intros mv [= <-]. split; [|done]. split; cbn; [done|].
  destruct Hnets as (Hla & Hln & Hns).
  destruct (lookup_lt_is_Some_2 nets donor) as [dn Hdn]; [rewrite Hln; by eapply lookup_lt_Some|].
  destruct (lookup_lt_is_Some_2 nets recipient) as [rn Hrn]; [by rewrite Hln|].
  destruct (lookup_lt_is_Some_2 amounts recipient) as [ra Hra]; [by rewrite Hla|].
  unfold amount_of in Hplain. rewrite Hra in Hplain. unfold cached_net in *. rewrite Hdn, Hrn in *. cbn in *.
  exists donor_path, donor_amount, dn. split_and!; try done. exists path, ra, rn. split_and!; try done; lia.
Qed.

Lemma try_donor_ok scan donor : scan_ok scan -> (donor < length paths)%nat ->
  scan_ok (try_donor input paths delta amounts nets scan donor).
Proof.
  intros Hok Hlt. unfold try_donor. destruct (_ <=? _)%nat; [done|]. destruct Hnets as (Hla & _ & _).
  destruct (lookup_lt_is_Some_2 amounts donor) as [amount Hamount]; [by rewrite Hla|]. unfold amount_of. rewrite Hamount. cbn [default id].
  destruct (N.ltb_spec amount delta) as [|Hle]; [done|].
  destruct (trial_net _ _ _ _ _) as [scan' net] eqn:Ht. destruct (trial_net_ok _ _ _ _ _ Hok Ht) as [Hok' Hnet].
  destruct net as [net|]; [|done]. destruct (Hnet net eq_refl) as (_ & path & Hp & Hplain).
  assert (Forall (fun r => (r < length paths)%nat) (seq 0 (length paths))) as Hall
    by (apply Forall_forall; intros r Hr%elem_of_seq; lia).
  clear Ht Hnet. revert scan' Hok'. induction Hall as [|r rs Hr Hall IH]; intros scan' Hok'; cbn [fold_left]; [done|].
  apply IH. by eapply try_recipient_ok.
Qed.

Lemma scan_moves_ok cache : cache_exact (market_pools (si_market input)) (crossed paths) cache ->
  scan_ok (scan_moves input paths delta amounts nets cache sims).
Proof.
  intros Hcache. unfold scan_moves.
  assert (Forall (fun r => (r < length paths)%nat) (seq 0 (length paths))) as Hall
    by (apply Forall_forall; intros r Hr%elem_of_seq; lia).
  assert (scan_ok {| xc_cache := cache; xc_sims := sims; xc_best := None |}) as Hok by (split; cbn; [done|lia|done]).
  revert Hok. generalize ({| xc_cache := cache; xc_sims := sims; xc_best := None |}).
  induction Hall as [|r rs Hr Hall IH]; intros scan Hok; cbn [fold_left]; [done|]. apply IH. by apply try_donor_ok.
Qed.
End scan.

(** What a round that moves makes of the amounts and the nets. *)
Lemma move_applied delta amounts nets mv : nets_ok amounts nets -> move_ok delta amounts nets mv ->
  exists amounts', bsub (amount_of amounts (mv_donor mv)) delta = Ret (amount_of amounts (mv_donor mv) - delta) /\
    amounts' = <[mv_recipient mv := amount_of (<[mv_donor mv := amount_of amounts (mv_donor mv) - delta]> amounts) (mv_recipient mv) + delta]>
                 (<[mv_donor mv := amount_of amounts (mv_donor mv) - delta]> amounts) /\
    let nets' := <[mv_recipient mv := mv_recip_net mv]> (<[mv_donor mv := mv_donor_net mv]> nets) in
    nets_ok amounts' nets' /\ total_of amounts' = total_of amounts /\ (sum_Z nets < sum_Z nets')%Z.
Proof.
  intros (Hla & Hln & Hns) [Hne (path & amount & net & Hp & Ha & Hn & Hle & Hplain & path' & amount' & net' & Hp' & Ha' & Hn' & Hplain' & Hgain)].
  unfold amount_of. rewrite Ha. cbn [default id]. rewrite list_lookup_insert_ne by done. rewrite Ha'. cbn [default id].
  eexists. split; [by apply bsub_ge|]. split; [done|]. cbn zeta. split_and!.
  - split; [by rewrite !length_insert|]. split; [by rewrite !length_insert|].
    intros i pathi amounti neti Hpi. rewrite !list_lookup_insert_Some.
    intros [(<- & <- & _)|(Hi & Hai)] [(Hx & <- & _)|(Hi' & Hni)]; [congruence|done|done|].
    destruct Hai as [(<- & <- & _)|(Hj & Hai)], Hni as [(Hx & <- & _)|(Hj' & Hni)]; [congruence|done|done|]. by eapply Hns.
  - assert (<[mv_donor mv := amount - delta]> amounts !! mv_recipient mv = Some amount') as Ha2 by by rewrite list_lookup_insert_ne.
    pose proof (total_insert _ _ _ (amount' + delta) Ha2). pose proof (total_insert _ _ _ (amount - delta) Ha). lia.
  - assert (<[mv_donor mv := mv_donor_net mv]> nets !! mv_recipient mv = Some net') as Hn2 by by rewrite list_lookup_insert_ne.
    rewrite (sum_Z_insert _ _ _ _ Hn2), (sum_Z_insert _ _ _ _ Hn). lia.
Qed.

Lemma size_nat_half delta : delta <> 0 -> N.size_nat delta = S (N.size_nat (delta / 2)).
Proof. intros Hd. destruct delta as [|[p|p|]]; [done|..|done]; by rewrite <- N.div2_div. Qed.

Lemma exchange_rounds_ok min_delta clock fuel round delta amounts nets sims cache :
  nets_ok amounts nets -> cache_exact (market_pools (si_market input)) (crossed paths) cache ->
  (EXCHANGE_MAX_SIMS - sims + N.size_nat delta < fuel)%nat ->
  exists cache' amounts' nets', exchange_rounds input paths min_delta clock fuel round delta amounts nets sims cache = Ret (cache', amounts') /\
    nets_ok amounts' nets' /\ cache_exact (market_pools (si_market input)) (crossed paths) cache' /\
    total_of amounts' = total_of amounts /\ (sum_Z nets <= sum_Z nets')%Z.
Proof.
  revert round delta amounts nets sims cache. induction fuel as [|fuel IH]; intros round delta amounts nets sims cache Hnets Hcache Hfuel; [lia|].
  cbn [exchange_rounds]. destruct (N.ltb_spec delta min_delta); [by exists cache, amounts, nets|]. cbn [orb].
  destruct (N.eqb_spec delta 0) as [|Hz]; [by exists cache, amounts, nets|].
  destruct (expired _ _); [by exists cache, amounts, nets|]. cbn [orb].
  destruct (Nat.leb_spec EXCHANGE_MAX_SIMS sims); [by exists cache, amounts, nets|].
  destruct (scan_moves_ok delta amounts nets Hnets sims cache Hcache) as [Hcache' Hsims Hbest].
  destruct (xc_best _) as [mv|] eqn:Hmv.
  - destruct (Hbest mv eq_refl) as [Hmove Hlt].
    destruct (move_applied _ _ _ _ Hnets Hmove) as (amounts' & -> & Heq & Hnets' & Hsum & Hgain). cbn [mbind outcome_bind]. rewrite <- Heq.
    destruct (IH (S round) delta amounts' _ (xc_sims (scan_moves input paths delta amounts nets cache sims)) _ Hnets' Hcache' ltac:(lia))
      as (cache'' & amounts'' & nets'' & -> & Hok & ? & Hsum' & ?).
    exists cache'', amounts'', nets''. split_and!; [done|done|done|by rewrite Hsum'|lia].
  - pose proof (size_nat_half delta Hz). apply IH; [done|done|lia].
Qed.
End exchange.

Section refinement.
Context `{TychoGas} `{!Messages} `{!TychoSwaps}.
Implicit Types (input : SolveInput) (paths : list WFPath).

(** What the paths net of the amounts, as the market stands. *)
Definition plain_nets input paths (amounts : list N) : option (list Z) :=
  mapM (fun leg : WFPath * N => plain_net input leg.1 leg.2) (zip paths amounts).

Lemma plain_nets_ok input paths amounts nets : length amounts = length paths ->
  plain_nets input paths amounts = Some nets <-> nets_ok input paths amounts nets.
Proof.
  intros Hlen. unfold plain_nets. rewrite mapM_Some, Forall2_same_length_lookup, length_zip_with, Hlen, Nat.min_id.
  unfold nets_ok. split.
  - intros [Hl Hall]. split_and!; [done|done|]. intros i path amount net Hp Ha Hn. apply (Hall i (path, amount) net); [|done].
    apply lookup_zip_Some. by split.
  - intros (_ & Hl & Hall). split; [done|]. intros i [path amount] net [Hp Ha]%lookup_zip_Some Hn. by eapply Hall.
Qed.

Lemma starting_nets_ok input dirs paths amounts cache cache' answer : length amounts = length paths ->
  Forall (fun path => Forall (fun hop => dirs (hop.2, hop.1.1, hop.1.2)) (path_iter path)) paths ->
  cache_exact (market_pools (si_market input)) dirs cache -> starting_nets input paths amounts cache = (cache', answer) ->
  cache_exact (market_pools (si_market input)) dirs cache' /\ forall nets, answer = Some nets -> plain_nets input paths amounts = Some nets.
Proof.
  intros Hlen Hdirs. revert amounts cache answer Hlen. induction Hdirs as [|path paths Hdir _ IH]; intros [|amount amounts] cache answer Hlen Hok; try done;
    cbn [starting_nets].
  { intros [= <- <-]. split; [done|]. by intros nets [= <-]. }
  destruct (path_net _ _ _ _) as [cache1 net] eqn:Hp. destruct (path_net_exact _ _ _ _ _ _ _ Hok Hp) as [Hok1 Hnet].
  destruct net as [net|]; [|intros [= <- <-]; by split].
  destruct (starting_nets _ _ _ _) as [cache2 nets] eqn:Hs. intros [= <- <-].
  destruct (IH amounts cache1 nets ltac:(cbn in Hlen; lia) Hok1 Hs) as [Hok2 Hnets]. split; [done|].
  intros ns. destruct nets as [nets|]; [|done]. intros [= <-]. unfold plain_nets in *. cbn [zip zip_with mapM mbind option_bind fst snd].
  rewrite (Hnet Hdir net eq_refl). cbn [mbind option_bind]. by rewrite (Hnets nets eq_refl).
Qed.

Lemma disjoint_exchange_ok input active fine_chunks alloc cache clock paths :
  paths_at input active = Ret paths -> length alloc = length paths -> cache_exact (market_pools (si_market input)) (crossed paths) cache ->
  exists cache' alloc', disjoint_exchange input active fine_chunks alloc cache clock = Ret (cache', alloc') /\
    cache_exact (market_pools (si_market input)) (crossed paths) cache' /\ length alloc' = length alloc /\ total_of alloc' = total_of alloc /\
    forall nets, plain_nets input paths alloc = Some nets ->
      exists nets', plain_nets input paths alloc' = Some nets' /\ (sum_Z nets <= sum_Z nets')%Z.
Proof.
  intros Hpaths Hlen Hcache. unfold disjoint_exchange.
  assert (exists cache' alloc', Ret (cache, alloc) = Ret (cache', alloc') /\
    cache_exact (market_pools (si_market input)) (crossed paths) cache' /\ length alloc' = length alloc /\ total_of alloc' = total_of alloc /\
    forall nets, plain_nets input paths alloc = Some nets ->
      exists nets', plain_nets input paths alloc' = Some nets' /\ (sum_Z nets <= sum_Z nets')%Z) as Hstop.
  { exists cache, alloc. split_and!; [done..|]. intros nets Hn. by exists nets. }
  destruct (_ <? 2)%nat; [exact Hstop|]. cbv zeta. destruct (_ =? 0); [exact Hstop|]. rewrite Hpaths. cbn [mbind outcome_bind].
  destruct (starting_nets input paths alloc cache) as [cache1 nets] eqn:Hs.
  assert (Forall (fun path => Forall (fun hop => crossed paths (hop.2, hop.1.1, hop.1.2)) (path_iter path)) paths) as Hdirs
    by (apply Forall_forall; intros path; apply crossed_path).
  destruct (starting_nets_ok _ _ _ _ _ _ _ Hlen Hdirs Hcache Hs) as [Hcache1 Hnets].
  destruct nets as [nets|].
  - pose proof (Hnets nets eq_refl) as Hplain. pose proof (proj1 (plain_nets_ok _ _ _ _ Hlen) Hplain) as Hok.
    match goal with |- context [exchange_rounds _ _ ?m _ ?f _ ?d _ _ _ _] =>
      destruct (exchange_rounds_ok input paths m clock f 0 d alloc nets 0 cache1 Hok Hcache1) as (cache' & alloc' & nets' & -> & Hok' & ? & ? & ?) end.
    { unfold exchange_fuel. lia. }
    exists cache', alloc'. destruct Hok' as (Hla & Hln & Hns). split_and!; [done|done|by rewrite Hla, Hlen|done|].
    intros ns Hns'. rewrite Hplain in Hns'. injection Hns' as <-. exists nets'. split; [|done]. by apply plain_nets_ok.
  - exists cache1, alloc. split_and!; [done..|]. intros ns Hn. by exists ns.
Qed.
End refinement.

(** ** The chunks, simulated afresh *)

Section pour.
Context `{TychoGas} `{!Messages} `{!TychoSwaps}.
Implicit Types (self : WaterFillAlgorithm) (input : SolveInput) (path : WFPath) (market : MarketState) (overlay : gmap ComponentId ProtocolSim).

(** The passes without the memory of the marginals: every path is simulated for every chunk. *)
Fixpoint fresh_disjoint_chunks input (paths : list WFPath) (base_chunk remainder : N) (clock : nat -> N) (n chunk_idx : nat)
    (committed : list (gmap ComponentId ProtocolSim)) (amounts : list N) (activated : list bool) : list N :=
  match n with
  | O => amounts
  | S n =>
      if expired (si_timeout input) (clock chunk_idx) then amounts
      else
        let chunk := chunk_of base_chunk remainder chunk_idx in
        let steps := zip_with (fun path states => simulate_step path (si_market input) states chunk) paths committed in
        match best_marginal input 0 (zip_with (fun activated step => (true, activated, step)) activated steps) None with
        | Some (best_i, _) =>
            match steps !! best_i with
            | Some (Some step) =>
                fresh_disjoint_chunks input paths base_chunk remainder clock n (S chunk_idx)
                  (alter (fun committed => commit_states committed (st_new_states step)) best_i committed)
                  (alter (fun amount => amount + chunk) best_i amounts) (<[best_i := true]> activated)
            | _ => amounts
            end
        | None => amounts
        end
  end.

Fixpoint fresh_spill_chunks self input (paths : list WFPath) (base_chunk remainder : N) (clock : nat -> N) (n chunk_idx : nat)
    overlay (activated : list bool) (active_count : nat) (schedule : list (nat * N)) : list (nat * N) :=
  match n with
  | O => schedule
  | S n =>
      if expired (si_timeout input) (clock chunk_idx) then schedule
      else
        let chunk := chunk_of base_chunk remainder chunk_idx in
        let steps := (fun path => simulate_step path (si_market input) overlay chunk) <$> paths in
        match best_marginal input 0
                (zip_with (fun activated step => (may_take_chunk self activated active_count, activated, step)) activated steps) None with
        | Some (best_i, _) =>
            match steps !! best_i with
            | Some (Some step) =>
                fresh_spill_chunks self input paths base_chunk remainder clock n (S chunk_idx)
                  (commit_states overlay (st_new_states step)) (<[best_i := true]> activated)
                  (if default false (activated !! best_i) then active_count else S active_count) (schedule ++ [(best_i, chunk)])
            | _ => schedule
            end
        | None => schedule
        end
  end.

(** *** The best marginal *)

Abbreviation taker := (bool * bool * option StepResult)%type (only parsing).

(** Only who may take a chunk counts. *)
Lemma best_marginal_ext input (l l' : list taker) i best :
  Forall2 (fun a b : taker => a.1 = b.1 /\ (a.1.1 = true -> a.2 = b.2)) l l' ->
  best_marginal input i l best = best_marginal input i l' best.
Proof.
  intros Hall. revert i best. induction Hall as [|[[t a] s] [[t' a'] s'] l l' [Heq Hs] _ IH]; intros i best; [done|].
  cbn in Heq, Hs. injection Heq as <- <-. cbn [best_marginal]. rewrite IH. f_equal. destruct t; [by rewrite Hs|]. by destruct s, s'.
Qed.

(** What the scan from [i] keeps of the best so far and the rest. *)
Definition best_of input (i : nat) (l : list taker) (best result : option (nat * Z)) : Prop :=
  match result with
  | None => best = None /\ forall k act step, l !! k <> Some (true, act, Some step)
  | Some (j, m) =>
      (best = Some (j, m) \/ exists k act step, (j = i + k)%nat /\ l !! k = Some (true, act, Some step) /\ m = net_marginal input act step) /\
      (forall j' m', best = Some (j', m') -> (m' <= m)%Z) /\
      forall k act step, l !! k = Some (true, act, Some step) -> (net_marginal input act step <= m)%Z
  end.

Lemma best_marginal_best input (l : list taker) i best : best_of input i l best (best_marginal input i l best).
Proof.
  revert i best. induction l as [|[[t a] s] l IH]; intros i best; cbn [best_marginal].
  { destruct best as [[j m]|]; cbn; [|by split]. split_and!; [by left|by intros j' m' [= <- <-]|done]. }
  set (best' := match s with Some step => _ | None => best end). specialize (IH (S i) best').
  assert (best_of input i [(t, a, s)] best best') as Hhead.
  { unfold best'. clear IH best'. destruct s as [s|]; [destruct t|].
    - destruct best as [[j m]|]; [destruct (Z.ltb_spec m (net_marginal input a s))|]; cbn.
      + split_and!; [right; exists O, a, s; split_and!; [lia|done|done]|intros j' m' [= <- <-]; lia|].
        intros [|k] act step; [by intros [= <- <-]|done].
      + split_and!; [by left|by intros j' m' [= <- <-]|]. intros [|k] act step; [by intros [= <- <-]|done].
      + split_and!; [right; exists O, a, s; split_and!; [lia|done|done]|done|]. intros [|k] act step; [by intros [= <- <-]|done].
    - destruct best as [[j m]|]; cbn; [split_and!; [by left|by intros j' m' [= <- <-]|]|split; [done|]]; by intros [|k] act step.
    - destruct best as [[j m]|]; cbn; [split_and!; [by left|by intros j' m' [= <- <-]|]|split; [done|]]; by intros [|k] act step. }
  clearbody best'. destruct (best_marginal input (S i) l best') as [[j m]|]; cbn [best_of] in *.
  - destruct IH as (Hfrom & Hle & Hrest). split_and!.
    + destruct Hfrom as [->|(k & act & step & -> & Hk & ->)]; [|right; exists (S k), act, step; split_and!; [lia|done|done]].
      cbn in Hhead. destruct Hhead as ([?|(k & act & step & -> & Hk & ->)] & _ & _); [by left|].
      right. destruct k as [|k]; [|done]. exists O, act, step. split_and!; [done|done|done].
    + intros j' m' ->. destruct best' as [[j1 m1]|]; cbn in Hhead; [|by destruct Hhead].
      destruct Hhead as (_ & Hb & _). specialize (Hle _ _ eq_refl). specialize (Hb _ _ eq_refl). lia.
    + intros [|k] act step Hk; [|by apply (Hrest k)]. destruct best' as [[j1 m1]|]; cbn in Hhead.
      * destruct Hhead as (_ & _ & Hb). specialize (Hle _ _ eq_refl). specialize (Hb O act step Hk). lia.
      * destruct Hhead as [_ Hnone]. by destruct (Hnone O act step).
  - destruct IH as [-> Hrest]. cbn in Hhead. destruct Hhead as [-> Hnone]. split; [done|].
    intros [|k] act step Hk; [by apply (Hnone O act step)|by apply (Hrest k act step)].
Qed.

Lemma best_marginal_Some input (l : list taker) j m : best_marginal input 0 l None = Some (j, m) ->
  exists act step, l !! j = Some (true, act, Some step) /\ m = net_marginal input act step /\
    forall k act' step', l !! k = Some (true, act', Some step') -> (net_marginal input act' step' <= m)%Z.
Proof.
  intros Hb. pose proof (best_marginal_best input l 0 None) as Hs. rewrite Hb in Hs.
  destruct Hs as ([?|(k & act & step & -> & Hk & ->)] & _ & Hrest); [done|]. exists act, step. by split_and!.
Qed.

Lemma best_marginal_None input (l : list taker) : best_marginal input 0 l None = None ->
  forall k act step, l !! k <> Some (true, act, Some step).
Proof. intros Hb. pose proof (best_marginal_best input l 0 None) as Hs. rewrite Hb in Hs. apply Hs. Qed.

(** *** What is remembered answers *)

(** A remembered marginal is what the path would pay now. *)
Definition remembers market (paths : list WFPath) (states : list (gmap ComponentId ProtocolSim)) (chunk : option N)
    (marginals : list (option StepResult)) : Prop :=
  length marginals = length paths /\
  forall i path overlay step c, paths !! i = Some path -> states !! i = Some overlay -> marginals !! i = Some (Some step) ->
    chunk = Some c -> simulate_step path market overlay c = Some step.

Lemma marginals_for_ok market paths states chunk marginals c : remembers market paths states chunk marginals ->
  remembers market paths states (Some c) (marginals_for c chunk marginals).
Proof.
  intros [Hlen Hok]. unfold marginals_for. case_bool_decide as Hc; [by subst|]. split; [by rewrite length_fmap|].
  intros i path overlay step c' _ _ Hm. rewrite list_lookup_fmap in Hm. by destruct (marginals !! i).
Qed.

Lemma price_marginal_fresh market path overlay c marginal :
  (forall step, marginal = Some step -> simulate_step path market overlay c = Some step) ->
  price_marginal market path overlay c marginal = simulate_step path market overlay c.
Proof. intros Hm. destruct marginal as [step|]; cbn; [by rewrite (Hm step)|done]. Qed.

Lemma priced_fresh market paths states c marginals : remembers market paths states (Some c) marginals -> length states = length paths ->
  zip_with (fun (path_states : WFPath * gmap ComponentId ProtocolSim) marginal =>
              price_marginal market path_states.1 path_states.2 c marginal) (zip paths states) marginals
  = zip_with (fun path states => simulate_step path market states c) paths states.
Proof.
  intros [Hlen Hok] Hstates. apply list_eq. intros i. rewrite !lookup_zip_with.
  destruct (paths !! i) as [path|] eqn:Hp; [|done]. destruct (states !! i) as [overlay|] eqn:Hs; [|done]. cbn [mbind option_bind].
  destruct (lookup_lt_is_Some_2 marginals i) as [m Hm]; [rewrite Hlen; by eapply lookup_lt_Some|]. rewrite Hm. cbn [mbind option_bind fst snd].
  f_equal. apply price_marginal_fresh. intros step ->. by apply (Hok i path overlay step c).
Qed.

Lemma disjoint_chunks_fresh input paths base_chunk remainder clock n chunk_idx pour :
  length (po_committed pour) = length paths ->
  remembers (si_market input) paths (po_committed pour) (po_marginals_chunk pour) (po_marginals pour) ->
  disjoint_chunks input paths base_chunk remainder clock n chunk_idx pour =
  fresh_disjoint_chunks input paths base_chunk remainder clock n chunk_idx (po_committed pour) (po_cumulative_amount_in pour) (po_activated pour).
Proof.
  revert chunk_idx pour. induction n as [|n IH]; intros chunk_idx pour Hlen Hok; cbn [disjoint_chunks fresh_disjoint_chunks]; [done|].
  destruct (expired _ _); [done|]. cbv zeta. set (chunk := chunk_of base_chunk remainder chunk_idx).
  pose proof (marginals_for_ok _ _ _ _ _ chunk Hok) as Hok'. rewrite (priced_fresh _ _ _ _ _ Hok' Hlen).
  set (steps := zip_with _ paths (po_committed pour)).
  destruct (best_marginal _ _ _ _) as [[best_i m]|]; [|done]. destruct (steps !! best_i) as [[step|]|]; [|done..].
  apply (IH (S chunk_idx) {| po_committed := _ |}); cbn [po_committed po_marginals po_marginals_chunk]; [by rewrite length_alter|].
  assert (length steps = length paths) as Hsteps by (unfold steps; rewrite length_zip_with, Hlen; lia).
  split; [by rewrite length_insert|]. intros i path overlay s c Hp Ho Hs [= <-].
  destruct (decide (i = best_i)) as [->|Hne].
  - rewrite list_lookup_insert_eq in Hs; [done|]. rewrite Hsteps. by eapply lookup_lt_Some.
  - rewrite list_lookup_insert_ne in Hs by done. rewrite list_lookup_alter_ne in Ho by done.
    unfold steps in Hs. rewrite lookup_zip_with, Hp, Ho in Hs. by injection Hs.
Qed.

(** *** One overlay for all *)

Lemma commit_states_lookup overlay new_states c : (c ∉ new_states.*1) -> commit_states overlay new_states !! c = overlay !! c.
Proof.
  unfold commit_states. revert overlay. induction new_states as [|[id state] new_states IH]; intros overlay Hc; [done|].
  cbn [fold_left]. rewrite fmap_cons, not_elem_of_cons in Hc. destruct Hc as [Hne Hc]. rewrite (IH _ Hc). by apply lookup_insert_ne.
Qed.

(** A path is not affected by what happens to pools it does not cross. *)
Lemma step_hops_frame reuses hops market overlay overlay' intra step : (forall c, c ∈ hops.*2 -> overlay !! c = overlay' !! c) ->
  step_hops reuses hops market overlay intra step = step_hops reuses hops market overlay' intra step.
Proof.
  revert intra step. induction hops as [|[[a b] c] hops IH]; intros intra step Hall; [done|]. cbn [step_hops].
  assert (overlay_hop market overlay (a, b, c) intra (st_amount_out step) = overlay_hop market overlay' (a, b, c) intra (st_amount_out step)) as ->
    by (unfold overlay_hop, hop_state; rewrite (Hall c) by left; done).
  destruct (overlay_hop _ _ _ _ _) as [[[? ?] result]|]; [|done]. cbn [mbind option_bind]. apply IH. intros c' Hc'. apply Hall. by right.
Qed.

Lemma path_iter_keys path c : c ∈ (path_iter path).*2 -> c ∈ path_key path.
Proof.
  unfold path_iter, path_key. intros ([? c'] & -> & Hin)%list_elem_of_fmap. apply list_elem_of_lookup in Hin as (i & Hi).
  apply lookup_zip_Some in Hi as [_ Hi]. by eapply list_elem_of_lookup_2.
Qed.

Lemma simulate_step_frame path market overlay overlay' amount : (forall c, c ∈ path_key path -> overlay !! c = overlay' !! c) ->
  simulate_step path market overlay amount = simulate_step path market overlay' amount.
Proof. intros Hall. apply step_hops_frame. intros c Hc. by apply Hall, path_iter_keys. Qed.

Lemma lookup_forget (paths : list WFPath) moved (marginals : list (option StepResult)) i path step : paths !! i = Some path ->
  zip_with (forget_moved moved) paths marginals !! i = Some (Some step) ->
  marginals !! i = Some (Some step) /\ forall c, c ∈ path_key path -> c ∉ moved.
Proof.
  intros Hp. rewrite lookup_zip_with, Hp. cbn [mbind option_bind]. destruct (marginals !! i) as [m|]; [|done]. cbn.
  unfold forget_moved. destruct (existsb _ _) eqn:He; [done|]. intros [= ->]. split; [done|]. intros c Hc Hin.
  assert (existsb (fun c => bool_decide (c ∈ moved)) (path_key path) = true) as Ht; [|by rewrite Ht in He].
  apply existsb_exists. exists c. split; [by apply list_elem_of_In|by apply bool_decide_eq_true].
Qed.

Lemma remembers_replicate market (paths : list WFPath) overlay chunk marginals :
  remembers market paths (replicate (length paths) overlay) chunk marginals <->
  length marginals = length paths /\ forall i path step c, paths !! i = Some path -> marginals !! i = Some (Some step) ->
    chunk = Some c -> simulate_step path market overlay c = Some step.
Proof.
  unfold remembers. split; intros [Hlen Hok]; (split; [done|]).
  - intros i path step c Hp Hm Hc. apply (Hok i path overlay step c); [done| |done|done].
    apply lookup_replicate_2. by eapply lookup_lt_Some.
  - intros i path overlay' step c Hp Ho Hm Hc. apply lookup_replicate in Ho as [-> _]. by eapply Hok.
Qed.

Lemma spill_chunks_fresh self input paths base_chunk remainder clock n chunk_idx spill :
  length (sp_activated spill) = length paths ->
  remembers (si_market input) paths (replicate (length paths) (sp_overlay spill)) (sp_marginals_chunk spill) (sp_marginals spill) ->
  spill_chunks self input paths base_chunk remainder clock n chunk_idx spill =
  fresh_spill_chunks self input paths base_chunk remainder clock n chunk_idx (sp_overlay spill) (sp_activated spill)
    (sp_active_count spill) (sp_schedule spill).
Proof.
  revert chunk_idx spill. induction n as [|n IH]; intros chunk_idx spill Hlen Hok; cbn [spill_chunks fresh_spill_chunks]; [done|].
  destruct (expired _ _); [done|]. cbv zeta. set (chunk := chunk_of base_chunk remainder chunk_idx).
  pose proof (marginals_for_ok _ _ _ _ _ chunk Hok) as Hok'. set (marginals := marginals_for _ _ _) in *. clearbody marginals.
  set (steps := (fun path => simulate_step path (si_market input) (sp_overlay spill) chunk) <$> paths).
  set (priced := zip_with _ (zip paths (sp_activated spill)) marginals).
  apply remembers_replicate in Hok' as [Hml Hm].
  assert (length priced = length paths) as Hpl by (unfold priced; rewrite !length_zip_with; lia).
  assert (forall i path, paths !! i = Some path -> exists activated, sp_activated spill !! i = Some activated /\
    steps !! i = Some (simulate_step path (si_market input) (sp_overlay spill) chunk) /\
    exists m, priced !! i = Some m /\ (forall step, m = Some step -> simulate_step path (si_market input) (sp_overlay spill) chunk = Some step) /\
      (may_take_chunk self activated (sp_active_count spill) = true -> m = simulate_step path (si_market input) (sp_overlay spill) chunk)) as Hat.
  { intros i path Hp. pose proof (lookup_lt_Some _ _ _ Hp) as Hlt.
    destruct (lookup_lt_is_Some_2 (sp_activated spill) i) as [activated Ha]; [by rewrite Hlen|].
    destruct (lookup_lt_is_Some_2 marginals i) as [m Hmi]; [by rewrite Hml|]. exists activated. split; [done|].
    split; [unfold steps; by rewrite list_lookup_fmap, Hp|]. unfold priced. rewrite !lookup_zip_with, Hp, Ha, Hmi. cbn.
    assert (price_marginal (si_market input) path (sp_overlay spill) chunk m = simulate_step path (si_market input) (sp_overlay spill) chunk) as Hpm
      by (apply price_marginal_fresh; intros step ->; by apply (Hm i path step chunk)).
    destruct (may_take_chunk _ _ _); eexists; (split; [done|]); rewrite ?Hpm; (split; [|done]); [done|].
    intros step ->. by apply (Hm i path step chunk). }
  assert (best_marginal input 0 (zip_with (fun activated step => (may_take_chunk self activated (sp_active_count spill), activated, step))
      (sp_activated spill) priced) None
    = best_marginal input 0 (zip_with (fun activated step => (may_take_chunk self activated (sp_active_count spill), activated, step))
      (sp_activated spill) steps) None) as ->.
  { apply best_marginal_ext, Forall2_same_length_lookup. split.
    - rewrite !length_zip_with. unfold steps. rewrite length_fmap. lia.
    - intros i x y. rewrite !lookup_zip_with. destruct (paths !! i) as [path|] eqn:Hp.
      + destruct (Hat i path Hp) as (activated & -> & -> & m & -> & _ & Hmay). cbn. intros [= <-] [= <-]. split; [done|exact Hmay].
      + apply lookup_ge_None in Hp. rewrite (proj2 (lookup_ge_None (sp_activated spill) i)) by lia. done. }
  destruct (best_marginal _ _ _ _) as [[best_i m]|] eqn:Hbest; [|done].
  destruct (best_marginal_Some _ _ _ _ Hbest) as (act & step & Hj & _ & _). rewrite lookup_zip_with in Hj.
  destruct (paths !! best_i) as [path|] eqn:Hp.
  2: { apply lookup_ge_None in Hp. by rewrite (proj2 (lookup_ge_None (sp_activated spill) best_i)) in Hj by lia. }
  destruct (Hat best_i path Hp) as (activated & Ha & Hst & mi & Hmi & _ & Hmay). rewrite Ha, Hst in Hj. cbn in Hj.
  injection Hj as Htake <- Hstep. rewrite Hst, Hmi, (Hmay Htake), Hstep.
  apply (IH (S chunk_idx) {| sp_overlay := _ |}); cbn [sp_overlay sp_activated sp_marginals sp_marginals_chunk]; [by rewrite length_insert|].
  apply remembers_replicate. split; [rewrite length_zip_with, length_insert; lia|].
  intros i path' step' c Hp' Hf [= <-]. destruct (lookup_forget _ _ _ _ _ _ Hp' Hf) as [Hi Hkeys].
  assert (i <> best_i) as Hne by (intros ->; rewrite list_lookup_insert_eq in Hi; [done|rewrite Hpl; by eapply lookup_lt_Some]).
  rewrite list_lookup_insert_ne in Hi by done. destruct (Hat i path' Hp') as (_ & _ & _ & mi' & Hmi' & Hex & _).
  rewrite Hi in Hmi'. injection Hmi' as <-. rewrite <- (Hex step' eq_refl). apply simulate_step_frame.
  intros c Hc. by apply commit_states_lookup, Hkeys.
Qed.
End pour.

(** ** Greed is enough *)

Section greedy.
Context `{TychoGas} `{!Messages} `{!TychoSwaps}.
Context (market : MarketState) (chunk : N).
Implicit Types (path : WFPath) (paths : list WFPath) (counts : list nat).

(** A path's pools and its output after so many chunks, one after the other. *)
Fixpoint poured path (count : nat) : option (gmap ComponentId ProtocolSim * N) :=
  match count with
  | O => Some (∅, 0)
  | S count =>
      '(states, out) ← poured path count;
      step ← simulate_step path market states chunk;
      Some (commit_states states (st_new_states step), out + st_amount_out step)
  end.

(** What the next chunk would pay. *)
Definition marginal path (count : nat) : option N :=
  '(states, _) ← poured path count; st_amount_out <$> simulate_step path market states chunk.

(** No chunk pays more than the one before it. *)
Definition diminishing path : Prop := forall count a b,
  marginal path count = Some a -> marginal path (S count) = Some b -> b <= a.

(** What the paths pay together for so many chunks each. *)
Definition total_out paths counts : option N :=
  total_of <$> mapM (fun leg : WFPath * nat => snd <$> poured leg.1 leg.2) (zip paths counts).

Lemma poured_S path count states out : poured path (S count) = Some (states, out) <->
  exists states' step, poured path count = Some (states', out - st_amount_out step) /\ st_amount_out step <= out /\
    simulate_step path market states' chunk = Some step /\ states = commit_states states' (st_new_states step).
Proof.
  cbn [poured]. split.
  - destruct (poured path count) as [[states' out']|]; [|done]. cbn [mbind option_bind].
    destruct (simulate_step _ _ _ _) as [step|] eqn:Hs; [|done]. cbn. intros [= <- <-]. exists states', step.
    split_and!; [do 2 f_equal; lia|lia|done|done].
  - intros (states' & step & -> & Hle & Hs & ->). cbn [mbind option_bind]. rewrite Hs. cbn. do 2 f_equal. lia.
Qed.

Lemma poured_marginal path count states out : poured path (S count) = Some (states, out) ->
  exists a states', marginal path count = Some a /\ a <= out /\ poured path count = Some (states', out - a).
Proof.
  intros (states' & step & Hp & Hle & Hs & ->)%poured_S. exists (st_amount_out step), states'. split_and!; [|done|done].
  unfold marginal. rewrite Hp. cbn. by rewrite Hs.
Qed.

(** A line of slope [rate] from [count] bounds what other counts pay. *)
Lemma poured_below path count out count' out' rate : diminishing path ->
  snd <$> poured path count = Some out -> snd <$> poured path count' = Some out' ->
  (forall b, marginal path count = Some b -> b <= rate) ->
  (forall k a, count = S k -> marginal path k = Some a -> rate <= a) ->
  out' + rate * N.of_nat count <= out + rate * N.of_nat count'.
Proof.
  intros Hdim Hout Hout' Hnext Hlast.
  assert (forall k d a b, marginal path k = Some a -> marginal path (k + d) = Some b -> b <= a) as Hmono.
  { intros k d. induction d as [|d IH]; intros a b Ha Hb; [rewrite Nat.add_0_r, Ha in Hb; injection Hb as ->; lia|].
    replace (k + S d)%nat with (S (k + d)) in Hb by lia.
    assert (exists c, marginal path (k + d) = Some c) as [c Hc].
    { unfold marginal at 1 in Hb. destruct (poured path (S (k + d))) as [[states out1]|] eqn:Hp; [|done].
      destruct (poured_marginal _ _ _ _ Hp) as (c & _ & Hc & _). by exists c. }
    specialize (IH a c Ha Hc). specialize (Hdim (k + d)%nat c b Hc Hb). lia. }
  destruct (decide (count <= count')%nat) as [Hle|Hgt].
  - replace count' with (count + (count' - count))%nat in * by lia. generalize dependent out'. clear Hle.
    generalize (count' - count)%nat. intros d. induction d as [|d IH]; intros out' Hout'.
    { rewrite Nat.add_0_r in *. rewrite Hout in Hout'. injection Hout' as ->. lia. }
    replace (count + S d)%nat with (S (count + d)) in * by lia.
    destruct (poured path (S (count + d))) as [[states o]|] eqn:Hp; [|done]. injection Hout' as ->.
    destruct (poured_marginal _ _ _ _ Hp) as (b & states' & Hb & Hbo & Hp'). specialize (IH (out' - b)). rewrite Hp' in IH. specialize (IH eq_refl).
    assert (b <= rate); [|lia]. assert (exists b0, marginal path count = Some b0) as [b0 Hb0].
    { destruct (poured path count) as [[s o']|] eqn:Hpc; [|done]. clear - Hb Hpc. revert b Hb. induction d as [|d IH]; intros b Hb.
      - rewrite Nat.add_0_r in Hb. by exists b.
      - replace (count + S d)%nat with (S (count + d)) in Hb by lia. unfold marginal in Hb.
        destruct (poured path (S (count + d))) as [[states out1]|] eqn:Hp; [|done].
        destruct (poured_marginal _ _ _ _ Hp) as (c & _ & Hc & _). by apply (IH c). }
    specialize (Hnext b0 Hb0). specialize (Hmono count d b0 b Hb0 Hb). lia.
  - destruct count as [|count]; [lia|].
    assert (exists d, count = (count' + d)%nat) as [d ->] by (exists (count - count')%nat; lia). clear Hgt Hnext.
    destruct (poured path (S (count' + d))) as [[states o]|] eqn:Hp; [|done]. injection Hout as ->.
    destruct (poured_marginal _ _ _ _ Hp) as (a & states' & Ha & Hao & Hp'). pose proof (Hlast _ a eq_refl Ha) as Hra. clear Hlast.
    assert (forall e out1, (e <= d)%nat -> snd <$> poured path (count' + e) = Some out1 -> out' + rate * N.of_nat e <= out1) as Hup.
    { induction e as [|e IH]; intros out1 He Ho.
      - rewrite Nat.add_0_r in Ho. rewrite Hout' in Ho. injection Ho as ->. lia.
      - replace (count' + S e)%nat with (S (count' + e)) in Ho by lia.
        destruct (poured path (S (count' + e))) as [[states1 o1]|] eqn:Hp1; [|done]. injection Ho as ->.
        destruct (poured_marginal _ _ _ _ Hp1) as (a1 & states1' & Ha1 & Hao1 & Hp1').
        specialize (IH (out1 - a1) ltac:(lia)). rewrite Hp1' in IH. specialize (IH eq_refl).
        replace (count' + d)%nat with (count' + e + (d - e))%nat in Ha by lia. pose proof (Hmono _ _ _ _ Ha1 Ha). lia. }
    specialize (Hup d (out - a) (le_n _)). rewrite Hp' in Hup. specialize (Hup eq_refl). lia.
Qed.

(** No chunk given out pays less than one more chunk would elsewhere. *)
Definition no_regret paths counts : Prop := forall i j path_i path_j count_i count_j k a b,
  paths !! i = Some path_i -> paths !! j = Some path_j -> counts !! i = Some count_i -> counts !! j = Some count_j ->
  count_i = S k -> marginal path_i k = Some a -> marginal path_j count_j = Some b -> b <= a.

(** The best next marginal. *)
Fixpoint best_rate paths counts : N :=
  match paths, counts with
  | path :: paths, count :: counts => N.max (default 0 (marginal path count)) (best_rate paths counts)
  | _, _ => 0
  end.

Lemma best_rate_ge paths counts i path count b : paths !! i = Some path -> counts !! i = Some count -> marginal path count = Some b ->
  b <= best_rate paths counts.
Proof.
  revert counts i. induction paths as [|p paths IH]; intros [|n counts] [|i]; try done; cbn [lookup list_lookup best_rate].
  - intros [= ->] [= ->] ->. cbn. lia.
  - intros Hp Hc Hb. specialize (IH counts i Hp Hc Hb). lia.
Qed.

Lemma best_rate_attained paths counts : best_rate paths counts = 0 \/
  exists i path count, paths !! i = Some path /\ counts !! i = Some count /\ marginal path count = Some (best_rate paths counts).
Proof.
  revert counts. induction paths as [|p paths IH]; intros [|n counts]; [by left..|]. cbn [best_rate].
  destruct (N.max_spec (default 0 (marginal p n)) (best_rate paths counts)) as [[_ ->]|[_ ->]].
  - destruct (IH counts) as [->|(i & path & count & ? & ? & ?)]; [by left|right; by exists (S i), path, count].
  - destruct (marginal p n) as [b|] eqn:Hb; [|by left]. right. by exists O, p, n.
Qed.

Lemma no_regret_best paths counts counts' total total' : Forall diminishing paths -> no_regret paths counts ->
  length counts = length paths -> length counts' = length paths -> sum_list counts' = sum_list counts ->
  total_out paths counts = Some total -> total_out paths counts' = Some total' -> total' <= total.
Proof.
  intros Hdim Hregret Hl Hl' Hsum Htotal Htotal'. set (rate := best_rate paths counts).
  assert (forall i path count, paths !! i = Some path -> counts !! i = Some count ->
    (forall b, marginal path count = Some b -> b <= rate) /\ (forall k a, count = S k -> marginal path k = Some a -> rate <= a)) as Hrate.
  { intros i path count Hp Hc. split; [intros b Hb; by eapply best_rate_ge|]. intros k a Hk Ha. unfold rate.
    destruct (best_rate_attained paths counts) as [->|(j & path' & count' & Hp' & Hc' & Hm)]; [lia|].
    exact (Hregret i j path path' count count' k a _ Hp Hp' Hc Hc' Hk Ha Hm). }
  assert (total' + rate * N.of_nat (sum_list counts) <= total + rate * N.of_nat (sum_list counts')) as Hle; [|rewrite Hsum in Hle; lia].
  clear Hsum Hregret. clearbody rate. unfold total_out in *. revert counts counts' total total' Hl Hl' Htotal Htotal' Hrate.
  induction Hdim as [|path paths Hd Hdim IH]; intros [|n counts] [|n' counts'] total total' Hl Hl'; try done.
  { cbn. intros [= <-] [= <-] _. lia. }
  cbn [zip zip_with mapM mbind option_bind fst snd]. intros Ht Ht' Hrate.
  destruct (snd <$> poured path n) as [out|] eqn:Ho; [|done]. destruct (snd <$> poured path n') as [out'|] eqn:Ho'; [|done].
  cbn [mbind option_bind] in Ht, Ht'.
  destruct (mapM _ (zip paths counts)) as [outs|] eqn:Hm; [|done]. destruct (mapM _ (zip paths counts')) as [outs'|] eqn:Hm'; [|done].
  injection Ht as <-. injection Ht' as <-. unfold total_of. rewrite !sum_by_cons.
  change (sum_list (n :: counts)) with (n + sum_list counts)%nat. change (sum_list (n' :: counts')) with (n' + sum_list counts')%nat.
  destruct (Hrate O path n eq_refl eq_refl) as [Hnext Hlast].
  pose proof (poured_below path n out n' out' rate Hd Ho Ho' Hnext Hlast) as Hhead.
  specialize (IH counts counts' (total_of outs) (total_of outs') ltac:(cbn in Hl; lia) ltac:(cbn in Hl'; lia)).
  rewrite Hm, Hm' in IH. specialize (IH eq_refl eq_refl (fun i => Hrate (S i))). unfold total_of in IH. lia.
Qed.
End greedy.

Section waterfill.
Context `{TychoGas} `{!Messages} `{!TychoSwaps}.
Context (input : SolveInput) (chunk : N) (paths : list WFPath).
#[local] Abbreviation market := (si_market input).

(** Whole chunks have been poured, each where it paid most. *)
Record pour_ok (committed : list (gmap ComponentId ProtocolSim)) (counts : list nat) : Prop := {
  pk_committed : length committed = length paths;
  pk_counts : length counts = length paths;
  pk_poured : forall i path count states, paths !! i = Some path -> counts !! i = Some count -> committed !! i = Some states ->
    exists out, poured market chunk path count = Some (states, out);
  pk_regret : no_regret market chunk paths counts;
}.

Definition amounts_of (counts : list nat) : list N := (fun count => chunk * N.of_nat count) <$> counts.

Lemma sum_list_alter (counts : list nat) i : (i < length counts)%nat -> sum_list (alter S i counts) = S (sum_list counts).
Proof.
  revert i. induction counts as [|count counts IH]; intros [|i] Hi; cbn in *; [lia|lia|lia|]. rewrite IH by lia. lia.
Qed.

Lemma amounts_of_alter counts i : alter (fun amount => amount + chunk) i (amounts_of counts) = amounts_of (alter S i counts).
Proof.
  unfold amounts_of. revert i. induction counts as [|count counts IH]; intros [|i]; try done; cbn.
  - f_equal. lia.
  - f_equal. apply IH.
Qed.

(** A chunk poured where it pays most leaves no regret. *)
Lemma pour_chunk committed counts best_i step : Forall (diminishing market chunk) paths -> pour_ok committed counts ->
  zip_with (fun path states => simulate_step path market states chunk) paths committed !! best_i = Some (Some step) ->
  (forall i step', zip_with (fun path states => simulate_step path market states chunk) paths committed !! i = Some (Some step') ->
     st_amount_out step' <= st_amount_out step) ->
  pour_ok (alter (fun states => commit_states states (st_new_states step)) best_i committed) (alter S best_i counts).
Proof.
  intros Hdim [Hlc Hln Hpoured Hregret] Hbest Hmost. rewrite lookup_zip_with in Hbest.
  destruct (paths !! best_i) as [best|] eqn:Hb; [|done]. destruct (committed !! best_i) as [states|] eqn:Hs; [|done].
  cbn in Hbest. injection Hbest as Hstep.
  destruct (lookup_lt_is_Some_2 counts best_i) as [n Hn]; [rewrite Hln; by eapply lookup_lt_Some|].
  destruct (Hpoured _ _ _ _ Hb Hn Hs) as [out Hout].
  assert (marginal market chunk best n = Some (st_amount_out step)) as Hm by (unfold marginal; rewrite Hout; cbn; by rewrite Hstep).
  assert (forall j path count b, paths !! j = Some path -> counts !! j = Some count -> marginal market chunk path count = Some b ->
    b <= st_amount_out step) as Hge.
  { intros j path count b Hp Hc Hmj. destruct (lookup_lt_is_Some_2 committed j) as [sj Hsj]; [rewrite Hlc; by eapply lookup_lt_Some|].
    destruct (Hpoured _ _ _ _ Hp Hc Hsj) as [oj Hoj]. unfold marginal in Hmj. rewrite Hoj in Hmj. cbn in Hmj.
    destruct (simulate_step path market sj chunk) as [step'|] eqn:Hst; [|done]. injection Hmj as <-.
    apply (Hmost j). rewrite lookup_zip_with, Hp, Hsj. cbn. by rewrite Hst. }
  assert (forall b, marginal market chunk best (S n) = Some b -> b <= st_amount_out step) as Hnext.
  { intros b Hmb. eapply Forall_lookup_1 in Hdim; [|exact Hb]. by eapply Hdim. }
  split; [by rewrite length_alter|by rewrite length_alter|..].
  - intros i path count states' Hp Hc Hst. destruct (decide (i = best_i)) as [->|Hne].
    + rewrite Hb in Hp. injection Hp as <-. rewrite list_lookup_alter_eq, Hn in Hc. injection Hc as <-.
      rewrite list_lookup_alter_eq, Hs in Hst. injection Hst as <-. exists (out + st_amount_out step). cbn [poured]. rewrite Hout. cbn. by rewrite Hstep.
    + rewrite list_lookup_alter_ne in Hc by done. rewrite list_lookup_alter_ne in Hst by done. by eapply Hpoured.
  - intros i j path_i path_j count_i count_j k a b Hpi Hpj Hci Hcj Hk Ha Hb'.
    destruct (decide (i = best_i)) as [->|Hi].
    + rewrite Hb in Hpi. injection Hpi as <-. rewrite list_lookup_alter_eq, Hn in Hci. injection Hci as <-.
      injection Hk as <-. rewrite Hm in Ha. injection Ha as <-. destruct (decide (j = best_i)) as [->|Hj].
      * rewrite Hb in Hpj. injection Hpj as <-. rewrite list_lookup_alter_eq, Hn in Hcj. injection Hcj as <-. by apply Hnext.
      * rewrite list_lookup_alter_ne in Hcj by done. by eapply Hge.
    + rewrite list_lookup_alter_ne in Hci by done. destruct (decide (j = best_i)) as [->|Hj].
      * rewrite Hb in Hpj. injection Hpj as <-. rewrite list_lookup_alter_eq, Hn in Hcj. injection Hcj as <-.
        pose proof (Hnext b Hb'). pose proof (Hregret _ _ _ _ _ _ _ _ _ Hpi Hb Hci Hn Hk Ha Hm). lia.
      * rewrite list_lookup_alter_ne in Hcj by done. exact (Hregret _ _ _ _ _ _ _ _ _ Hpi Hpj Hci Hcj Hk Ha Hb').
Qed.

(** Why a pass stopped short: out of time, or no path pays for another chunk. *)
Definition stopped (clock : nat -> N) (counts : list nat) : Prop :=
  (exists i, expired (si_timeout input) (clock i) = true) \/
  (forall i path count, paths !! i = Some path -> counts !! i = Some count -> marginal market chunk path count = None).

Lemma fresh_disjoint_poured clock n chunk_idx committed counts : Forall (diminishing market chunk) paths -> pour_ok committed counts ->
  exists counts' committed', fresh_disjoint_chunks input paths chunk 0 clock n chunk_idx committed (amounts_of counts)
      (replicate (length paths) true) = amounts_of counts' /\
    pour_ok committed' counts' /\ (sum_list counts' <= sum_list counts + n)%nat /\
    ((sum_list counts' < sum_list counts + n)%nat -> stopped clock counts').
Proof.
  intros Hdim. revert chunk_idx committed counts. induction n as [|n IH]; intros chunk_idx committed counts Hok; cbn [fresh_disjoint_chunks].
  { exists counts, committed. split_and!; [done|done|lia|lia]. }
  destruct (expired _ _) eqn:Hexp; [exists counts, committed; split_and!; [done|done|lia|intros _; left; by exists chunk_idx]|]. cbv zeta.
  assert (chunk_of chunk 0 chunk_idx = chunk) as -> by (unfold chunk_of; destruct (_ =? _)%nat; lia).
  set (steps := zip_with _ paths committed).
  destruct (best_marginal _ _ _ _) as [[best_i m]|] eqn:Hbest; cycle 1.
  { exists counts, committed. split_and!; [done|done|lia|]. intros _. right. intros i path count Hp Hc.
    pose proof (best_marginal_None _ _ Hbest i true) as Hnone.
    destruct (lookup_lt_is_Some_2 committed i) as [states Hst]; [rewrite (pk_committed _ _ Hok); by eapply lookup_lt_Some|].
    destruct (pk_poured _ _ Hok _ _ _ _ Hp Hc Hst) as [out Hout]. unfold marginal. rewrite Hout. cbn [mbind option_bind].
    destruct (simulate_step path market states chunk) as [step|] eqn:Hstep; [|done]. exfalso. apply (Hnone step).
    rewrite lookup_zip_with, lookup_replicate_2 by (by eapply lookup_lt_Some). unfold steps. cbn [mbind option_bind].
    rewrite lookup_zip_with, Hp, Hst. cbn. by rewrite Hstep. }
  destruct (best_marginal_Some _ _ _ _ Hbest) as (act & step & Hj & -> & Hmost). rewrite lookup_zip_with in Hj.
  destruct (replicate (length paths) true !! best_i) as [act'|] eqn:Hact; [|done]. apply lookup_replicate in Hact as [-> Hlt].
  cbn [mbind option_bind] in Hj. destruct (steps !! best_i) as [s|] eqn:Hs; [|done]. injection Hj as <- ->.
  assert (pour_ok (alter (fun states => commit_states states (st_new_states step)) best_i committed) (alter S best_i counts)) as Hok'.
  { apply pour_chunk; [done|done|exact Hs|]. intros i step' Hi.
    assert (i < length paths)%nat as Hil by (apply lookup_lt_Some in Hi; rewrite length_zip_with in Hi; lia).
    specialize (Hmost i true step'). rewrite lookup_zip_with, lookup_replicate_2 in Hmost by done. unfold steps in Hmost. cbn [mbind option_bind] in Hmost.
    rewrite Hi in Hmost. specialize (Hmost eq_refl). unfold net_marginal in Hmost. lia. }
  rewrite amounts_of_alter, insert_replicate.
  destruct (IH (S chunk_idx) _ _ Hok') as (counts' & committed' & -> & Hok'' & Hsum & Hstop). exists counts', committed'.
  rewrite sum_list_alter in Hsum, Hstop by (by rewrite (pk_counts _ _ Hok)). split_and!; [done|done|lia|]. intros ?. apply Hstop. lia.
Qed.

Lemma pour_start : pour_ok (replicate (length paths) ∅) (replicate (length paths) O).
Proof.
  split; [by rewrite length_replicate|by rewrite length_replicate|..].
  - intros i path count states _ [-> _]%lookup_replicate [-> _]%lookup_replicate. by exists 0.
  - intros i j path_i path_j count_i count_j k a b _ _ [-> _]%lookup_replicate _ ?. done.
Qed.

Lemma amounts_of_start : amounts_of (replicate (length paths) O) = replicate (length paths) 0.
Proof. unfold amounts_of. rewrite fmap_replicate. f_equal. lia. Qed.

Lemma pour_total committed counts : pour_ok committed counts -> exists total, total_out market chunk paths counts = Some total.
Proof.
  intros Hok. unfold total_out.
  assert (exists outs, mapM (fun leg : WFPath * nat => snd <$> poured market chunk leg.1 leg.2) (zip paths counts) = Some outs) as [outs ->]; [|by eexists].
  apply mapM_is_Some_2, Forall_lookup. intros i [path count] [Hp Hc]%lookup_zip_Some.
  destruct (lookup_lt_is_Some_2 committed i) as [states Hs]; [rewrite (pk_committed _ _ Hok); by eapply lookup_lt_Some|].
  destruct (pk_poured _ _ Hok _ _ _ _ Hp Hc Hs) as [out Hout]. cbn. rewrite Hout. by eexists.
Qed.
End waterfill.

(** ** Paths by index *)

Section indices.
Context `{TychoGas} `{!Messages} `{!TychoSwaps} `{!SplitMessages}.
Implicit Types (self : WaterFillAlgorithm) (input : SolveInput) (path : WFPath) (cache : SwapCache) (subset : list nat).

Definition indexes input subset : Prop := Forall (fun i => i < length (si_ordered input))%nat subset.

Lemma paths_at_Ret input subset paths : paths_at input subset = Ret paths <-> Forall2 (fun i path => si_ordered input !! i = Some path) subset paths.
Proof.
  revert paths. induction subset as [|i subset IH]; intros paths; cbn [paths_at].
  { split; [by intros [= <-]|by intros ->%Forall2_nil_inv_l]. }
  unfold at_index. split.
  - destruct (si_ordered input !! i) as [path|] eqn:Hi; [|done]. cbn [mbind outcome_bind]. intros (paths' & Hp & [= <-])%bind_Ret.
    constructor; [done|]. by apply IH.
  - intros (path & paths' & Hi & Hall & ->)%Forall2_cons_inv_l. rewrite Hi. cbn [mbind outcome_bind]. by rewrite (proj2 (IH paths') Hall).
Qed.

Lemma paths_at_ret input subset : indexes input subset -> exists paths, paths_at input subset = Ret paths /\ length paths = length subset /\
  Forall (fun path => path ∈ si_ordered input) paths.
Proof.
  intros Hall. assert (exists paths, Forall2 (fun i path => si_ordered input !! i = Some path) subset paths) as (paths & Hp).
  { induction Hall as [|i subset Hi _ (paths & IH)]; [by exists []|]. destruct (lookup_lt_is_Some_2 _ _ Hi) as [path Hpath].
    exists (path :: paths). by constructor. }
  exists paths. split; [by apply paths_at_Ret|]. split; [symmetry; by eapply Forall2_length|].
  apply Forall_forall. intros path (i & Hi)%list_elem_of_lookup. destruct (Forall2_lookup_r _ _ _ _ _ Hp Hi) as (j & _ & Hj).
  by eapply list_elem_of_lookup_2.
Qed.

Lemma paths_at_length input subset paths : paths_at input subset = Ret paths -> length paths = length subset.
Proof. intros Hp%paths_at_Ret. symmetry. by eapply Forall2_length. Qed.

Lemma chunks_remainder (amount n : N) : bsub amount (amount / n * n) = Ret (amount - amount / n * n).
Proof. apply bsub_ge. rewrite N.mul_comm. apply N.Div0.mul_div_le. Qed.

(** The passes on whole requests, simulating every path for every chunk. *)
Definition fresh_disjoint_waterfill input subset (num_chunks : nat) (gate : bool) (clock : nat -> N) : outcome (option (list N)) :=
  let num_chunks := Nat.max num_chunks 1 in
  let base_chunk := order_amount (si_order input) / N.of_nat num_chunks in
  if base_chunk =? 0 then Ret None
  else
    paths ← paths_at input subset;
    Ret (Some (fresh_disjoint_chunks input paths base_chunk (order_amount (si_order input) mod N.of_nat num_chunks) clock num_chunks 0
      (replicate (length subset) ∅) (replicate (length subset) 0) (replicate (length subset) (negb gate)))).

Definition fresh_fillspill_waterfill self input subset (num_chunks : nat) (gate : bool) (clock : nat -> N) : outcome (option (list (nat * N))) :=
  let num_chunks := Nat.max num_chunks 1 in
  let base_chunk := order_amount (si_order input) / N.of_nat num_chunks in
  if base_chunk =? 0 then Ret None
  else
    paths ← paths_at input subset;
    Ret (Some (fresh_spill_chunks self input paths base_chunk (order_amount (si_order input) mod N.of_nat num_chunks) clock num_chunks 0
      ∅ (replicate (length subset) (negb gate)) (if gate then 0%nat else length subset) [])).

Lemma chunks_mod (amount n : N) : n <> 0 -> amount - amount / n * n = amount mod n.
Proof. intros Hn. rewrite N.Div0.mod_eq. lia. Qed.

Lemma nothing_remembered market (paths : list WFPath) states n : n = length paths ->
  remembers market paths states None (replicate n None).
Proof. intros ->. split; [apply length_replicate|]. intros i path overlay step c _ _ [? _]%lookup_replicate. done. Qed.

Lemma disjoint_waterfill_fresh input subset num_chunks gate clock :
  disjoint_waterfill input subset num_chunks gate clock = fresh_disjoint_waterfill input subset num_chunks gate clock.
Proof.
  unfold disjoint_waterfill, fresh_disjoint_waterfill. cbv zeta. destruct (_ =? 0); [done|]. rewrite chunks_remainder, chunks_mod by lia.
  cbn [mbind outcome_bind]. destruct (paths_at input subset) as [paths|] eqn:Hp; [|done]. cbn [mbind outcome_bind].
  apply paths_at_length in Hp. rewrite disjoint_chunks_fresh; cbn [po_committed po_marginals po_marginals_chunk];
    [done|by rewrite length_replicate|by apply nothing_remembered].
Qed.

Lemma fillspill_waterfill_fresh self input subset num_chunks gate clock :
  fillspill_waterfill self input subset num_chunks gate clock = fresh_fillspill_waterfill self input subset num_chunks gate clock.
Proof.
  unfold fillspill_waterfill, fresh_fillspill_waterfill. cbv zeta. destruct (_ =? 0); [done|]. rewrite chunks_remainder, chunks_mod by lia.
  cbn [mbind outcome_bind]. destruct (paths_at input subset) as [paths|] eqn:Hp; [|done]. cbn [mbind outcome_bind].
  apply paths_at_length in Hp. rewrite spill_chunks_fresh; cbn [sp_activated sp_marginals sp_marginals_chunk];
    [done|by rewrite length_replicate|by apply nothing_remembered].
Qed.
End indices.

(** ** Every pass returns *)

Section returns.
Context `{TychoGas} `{!Messages} `{!TychoSwaps} `{!SplitMessages}.
Implicit Types (self : WaterFillAlgorithm) (input : SolveInput) (path : WFPath) (cache : SwapCache) (subset : list nat) (alloc : list N).

(** *** The exchange, whatever is remembered *)

(** A scan only proposes what the donor has, and not without a trial. *)
Definition scan_paid (delta : N) (amounts : list N) (sims : nat) (scan : ExchangeScan) : Prop :=
  (sims <= xc_sims scan)%nat /\ forall mv, xc_best scan = Some mv -> delta <= amount_of amounts (mv_donor mv) /\ (sims < xc_sims scan)%nat.

Lemma trial_net_paid input paths delta amounts sims scan i amount scan' net : scan_paid delta amounts sims scan ->
  trial_net input paths scan i amount = (scan', net) ->
  scan_paid delta amounts sims scan' /\ (is_Some net -> sims < xc_sims scan')%nat.
Proof.
  intros [Hle Hbest]. unfold trial_net. destruct (paths !! i) as [path|]; [|intros [= <- <-]; split; [done|by intros []]].
  destruct (path_net _ _ _ _) as [cache net']. intros [= <- <-]. unfold scan_paid. cbn. split.
  - split; [destruct net'; lia|]. intros mv [? ?]%Hbest. split; [done|]. destruct net'; lia.
  - intros [? ->]. lia.
Qed.

Lemma scan_moves_paid input paths delta amounts nets cache sims : scan_paid delta amounts sims (scan_moves input paths delta amounts nets cache sims).
Proof.
  unfold scan_moves. assert (scan_paid delta amounts sims {| xc_cache := cache; xc_sims := sims; xc_best := None |}) as Hok by by split.
  revert Hok. generalize ({| xc_cache := cache; xc_sims := sims; xc_best := None |}) as scan. generalize (seq 0 (length paths)) as donors.
  intros donors. induction donors as [|donor donors IH]; intros scan Hok; cbn [fold_left]; [done|]. apply IH.
  unfold try_donor. destruct (_ <=? _)%nat; [done|]. destruct (N.ltb_spec (amount_of amounts donor) delta); [done|].
  destruct (trial_net _ _ _ _ _) as [scan' net] eqn:Ht. apply (trial_net_paid _ _ _ _ _ _ _ _ _ _ Hok) in Ht as [Hok' _].
  destruct net as [donor_net|]; [|done]. clear IH Hok. revert scan' Hok'. generalize (seq 0 (length paths)) as recipients.
  intros recipients. induction recipients as [|r recipients IH]; intros scan' Hok; cbn [fold_left]; [done|]. apply IH.
  unfold try_recipient. destruct (_ <=? _)%nat; [done|]. destruct (_ =? _)%nat; [done|].
  destruct (trial_net _ _ _ _ _) as [scan'' net] eqn:Ht. apply (trial_net_paid _ _ _ _ _ _ _ _ _ _ Hok) in Ht as [Hok' Hsims].
  destruct net as [net|]; [|done]. destruct (_ <=? _)%Z; [done|]. destruct (match xc_best scan'' with Some _ => _ | None => _ end); [|done].
  specialize (Hsims ltac:(by eexists)). split; cbn; [lia|]. by intros mv [= <-].
Qed.

Lemma exchange_rounds_ret input paths min_delta clock fuel round delta amounts nets sims cache :
  (EXCHANGE_MAX_SIMS - sims + N.size_nat delta < fuel)%nat ->
  exists cache' amounts', exchange_rounds input paths min_delta clock fuel round delta amounts nets sims cache = Ret (cache', amounts') /\
    length amounts' = length amounts.
Proof.
  revert round delta amounts nets sims cache. induction fuel as [|fuel IH]; intros round delta amounts nets sims cache Hfuel; [lia|].
  cbn [exchange_rounds]. destruct (_ <? _); [by exists cache, amounts|]. cbn [orb].
  destruct (N.eqb_spec delta 0) as [|Hz]; [by exists cache, amounts|].
  destruct (expired _ _); [by exists cache, amounts|]. cbn [orb].
  destruct (Nat.leb_spec EXCHANGE_MAX_SIMS sims); [by exists cache, amounts|].
  destruct (scan_moves_paid input paths delta amounts nets cache sims) as [Hsims Hbest].
  destruct (xc_best _) as [mv|] eqn:Hmv.
  - destruct (Hbest mv eq_refl) as [Hle Hlt]. rewrite bsub_ge by done. cbn [mbind outcome_bind].
    match goal with |- context [exchange_rounds _ _ _ _ _ _ _ ?a ?n ?s ?c] => destruct (IH (S round) delta a n s c ltac:(lia)) as (cache' & amounts' & -> & Hl) end.
    exists cache', amounts'. split; [done|]. by rewrite Hl, !length_insert.
  - pose proof (size_nat_half delta Hz). apply IH. lia.
Qed.

Lemma disjoint_exchange_ret input active fine_chunks alloc cache clock : indexes input active ->
  exists cache' alloc', disjoint_exchange input active fine_chunks alloc cache clock = Ret (cache', alloc') /\ length alloc' = length alloc.
Proof.
  intros Hactive. unfold disjoint_exchange. destruct (_ <? 2)%nat; [by exists cache, alloc|]. cbv zeta. destruct (_ =? 0); [by exists cache, alloc|].
  destruct (paths_at_ret input active Hactive) as (paths & -> & _ & _). cbn [mbind outcome_bind].
  destruct (starting_nets input paths alloc cache) as [cache1 [nets|]]; [|by exists cache1, alloc].
  apply exchange_rounds_ret. unfold exchange_fuel. lia.
Qed.

(** *** The passes *)

Lemma fresh_disjoint_length input paths base_chunk remainder clock n chunk_idx committed amounts activated :
  length (fresh_disjoint_chunks input paths base_chunk remainder clock n chunk_idx committed amounts activated) = length amounts.
Proof.
  revert chunk_idx committed amounts activated. induction n as [|n IH]; intros chunk_idx committed amounts activated; cbn [fresh_disjoint_chunks]; [done|].
  destruct (expired _ _); [done|]. cbv zeta. destruct (best_marginal _ _ _ _) as [[best_i ?]|]; [|done].
  destruct (_ !! best_i) as [[step|]|]; [|done..]. by rewrite IH, length_alter.
Qed.

Lemma disjoint_waterfill_ret input subset num_chunks gate clock : indexes input subset ->
  exists r, disjoint_waterfill input subset num_chunks gate clock = Ret r /\ forall alloc, r = Some alloc -> length alloc = length subset.
Proof.
  intros Hs. rewrite disjoint_waterfill_fresh. unfold fresh_disjoint_waterfill. cbv zeta. destruct (_ =? 0); [by eexists|].
  destruct (paths_at_ret input subset Hs) as (paths & -> & _ & _). cbn [mbind outcome_bind]. eexists. split; [done|].
  intros alloc [= <-]. by rewrite fresh_disjoint_length, length_replicate.
Qed.

Lemma fillspill_waterfill_ret self input subset num_chunks gate clock : indexes input subset ->
  exists r, fillspill_waterfill self input subset num_chunks gate clock = Ret r.
Proof.
  intros Hs. rewrite fillspill_waterfill_fresh. unfold fresh_fillspill_waterfill. cbv zeta. destruct (_ =? 0); [by eexists|].
  destruct (paths_at_ret input subset Hs) as (paths & -> & _ & _). by eexists.
Qed.

(** *** What a split is made of *)

(** Each leg is a candidate path simulated at its amount, on what the legs before it left. *)
Definition leg_of input (allocation : PathAllocation) : Prop := exists path overrides overrides' amount fraction,
  path ∈ si_ordered input /\ allocation_commit path (si_market input) overrides amount fraction = Some (overrides', allocation).

Record split_of input (candidate : SplitCandidate) (allocations : list PathAllocation) : Prop := {
  sl_legs : Forall (leg_of input) allocations;
  sl_route : build_split_route allocations (si_market input) (si_order input) = Some (Ret (Ok (cd_route candidate)));
  sl_gross : cd_gross candidate = Route_amount_out (cd_route candidate) (order_token_out (si_order input)) /\ cd_gross candidate <> 0;
  sl_gas : cd_gas candidate = total_gas (cd_route candidate);
}.

Definition assembled input (candidate : SplitCandidate) : Prop := exists allocations, split_of input candidate allocations.

Lemma candidate_from_allocations_ret input allocations : Forall (leg_of input) allocations ->
  exists r, candidate_from_allocations input allocations = Ret r /\ forall candidate, r = Some candidate -> assembled input candidate.
Proof.
  intros Hlegs. unfold candidate_from_allocations.
  destruct (build_split_route_ret allocations (si_market input) (si_order input)) as [r Hr]. rewrite Hr. cbn [mbind outcome_bind].
  eexists. split; [done|]. intros candidate. destruct r as [route|e]; [|done].
  destruct (N.eqb_spec (Route_amount_out route (order_token_out (si_order input))) 0); [done|]. intros [= <-].
  exists allocations. split; [done| |done|done]. cbn [cd_route]. unfold completed in Hr.
  destruct (build_split_route _ _ _) as [[r|]|]; [|done..]. cbn in Hr. by injection Hr as ->.
Qed.

Lemma disjoint_legs_of input paths alloc allocations : Forall (fun path => path ∈ si_ordered input) paths ->
  disjoint_legs input paths alloc = Some allocations -> Forall (leg_of input) allocations.
Proof.
  intros Hall. revert alloc allocations. induction Hall as [|path paths Hp _ IH]; intros [|amount alloc] allocations; cbn [disjoint_legs];
    [by intros [= <-]..|]. destruct (_ =? 0); [apply IH|].
  destruct (allocation_commit _ _ _ _ _) as [[overrides allocation]|] eqn:Hc; [|done]. cbn [mbind option_bind].
  destruct (disjoint_legs input paths alloc) as [rest|] eqn:Hr; [|done]. intros [= <-]. constructor; [|by eapply IH].
  by exists path, ∅, overrides, amount, (ratio amount (order_amount (si_order input))).
Qed.

Lemma sequential_legs_of input legs overrides allocations : Forall (fun leg : WFPath * N => leg.1 ∈ si_ordered input) legs ->
  sequential_legs input legs overrides = Some allocations -> Forall (leg_of input) allocations.
Proof.
  intros Hall. revert overrides allocations. induction Hall as [|[path amount] legs Hp _ IH]; intros overrides allocations; cbn [sequential_legs];
    [by intros [= <-]|].
  destruct (allocation_commit _ _ _ _ _) as [[overrides' allocation]|] eqn:Hc; [|done]. cbn [mbind option_bind].
  destruct (sequential_legs input legs overrides') as [rest|] eqn:Hr; [|done]. intros [= <-]. constructor; [|by eapply IH].
  by exists path, overrides, overrides', amount, (ratio amount (order_amount (si_order input))).
Qed.

Lemma build_disjoint_legs_ret input subset alloc : indexes input subset ->
  exists r, build_disjoint_legs input subset alloc = Ret r /\ forall candidate, r = Some candidate -> assembled input candidate.
Proof.
  intros Hs. unfold build_disjoint_legs. destruct (paths_at_ret input subset Hs) as (paths & -> & _ & Hpaths). cbn [mbind outcome_bind].
  destruct (disjoint_legs input paths alloc) as [allocations|] eqn:Hl; [|by eexists].
  pose proof (disjoint_legs_of _ _ _ _ Hpaths Hl) as Hlegs. destruct allocations as [|a allocations]; [by eexists|].
  by apply candidate_from_allocations_ret.
Qed.

Lemma build_fillspill_route_ret input active schedule : indexes input active ->
  exists r, build_fillspill_route input active schedule = Ret r /\ forall candidate, r = Some candidate -> assembled input candidate.
Proof.
  intros Hs. unfold build_fillspill_route. destruct (paths_at_ret input active Hs) as (paths & -> & _ & Hpaths). cbn [mbind outcome_bind].
  cbv zeta. set (legs := List.filter _ _). destruct (_ <? 2)%nat; [by eexists|].
  destruct (sequential_legs input (sort_desc snd legs) ∅) as [allocations|] eqn:Hl; [|by eexists].
  apply candidate_from_allocations_ret. eapply sequential_legs_of; [|exact Hl]. rewrite sort_desc_perm.
  apply Forall_forall. intros [path amount] [Hin _]%elem_of_filterb. apply elem_of_zip_l in Hin. rewrite Forall_forall in Hpaths. by apply Hpaths.
Qed.
End returns.

(** ** Ranking *)

Section sorting.
Context {A : Type} (cmp : A -> A -> comparison).

Lemma insert_by_perm x l : insert_by cmp x l ≡ₚ x :: l.
Proof. induction l as [|y l IH]; cbn; [done|]. destruct (cmp x y); [|done|]; rewrite IH; constructor. Qed.

Lemma sort_by_perm l : sort_by cmp l ≡ₚ l.
Proof.
  unfold sort_by. assert (forall acc, fold_left (fun sorted x => insert_by cmp x sorted) l acc ≡ₚ acc ++ l) as Hall; [|apply Hall].
  induction l as [|x l IH]; intros acc; cbn [fold_left]; [by rewrite app_nil_r|]. rewrite IH, insert_by_perm. apply Permutation_middle.
Qed.
End sorting.

Section ranking.
Context `{TychoGas} `{!Messages} `{!TychoSwaps} `{!SplitMessages}.
Implicit Types (self : WaterFillAlgorithm) (input : SolveInput) (path : WFPath) (cache : SwapCache).

Lemma full_outcomes_length input clock path_ix paths cache : length (full_outcomes input clock path_ix paths cache).2 = length paths.
Proof.
  revert path_ix cache. induction paths as [|path paths IH]; intros path_ix cache; cbn [full_outcomes]; [done|].
  destruct (expired _ _); [apply length_replicate|]. destruct (path_reuses_component path).
  - specialize (IH (S path_ix) cache). destruct (full_outcomes _ _ _ _ _) as [? ?]. cbn in *. lia.
  - destruct (wf_simulate_path _ _ _ _ _) as [cache1 paid]. specialize (IH (S path_ix) cache1).
    destruct (full_outcomes _ _ _ _ _) as [? ?]. cbn in *. lia.
Qed.

(** A ranking holds indexes of the outcomes. *)
Lemma rank_outcomes_indexes outcomes gas_price token_prices token_out :
  Forall (fun i => i < length outcomes)%nat (by_output (rank_outcomes outcomes gas_price token_prices token_out)) /\
  Forall (fun i => i < length outcomes)%nat (by_output_net_gas (rank_outcomes outcomes gas_price token_prices token_out)).
Proof.
  unfold rank_outcomes. cbn [by_output by_output_net_gas]. set (ranked := omap _ (zip _ _)).
  assert (Forall (fun entry : nat * option Z => entry.1 < length outcomes)%nat ranked) as Hall.
  { apply Forall_forall. intros entry ([i outcome] & Hin & Hentry)%list_elem_of_omap. apply elem_of_zip_l, elem_of_seq in Hin.
    cbn in Hentry. destruct outcome; [|done]. injection Hentry as <-. cbn. lia. }
  split; apply Forall_fmap; rewrite sort_by_perm; [exact Hall|].
  apply Forall_forall. intros entry ([i net] & Hin & Hentry)%list_elem_of_omap. rewrite Forall_forall in Hall. apply Hall in Hin.
  cbn in Hentry. destruct net; [|done]. by injection Hentry as <-.
Qed.

Lemma rank_indexes input cache clock : let ranking := (rank_at_full_amount input cache clock).2 in
  indexes input (by_output ranking) /\ indexes input (by_output_net_gas ranking).
Proof.
  cbv zeta. unfold rank_at_full_amount, indexes. pose proof (full_outcomes_length input clock 0 (si_ordered input) cache) as Hl.
  destruct (full_outcomes _ _ _ _ _) as [cache' outcomes]. cbn in *. rewrite <- Hl. apply rank_outcomes_indexes.
Qed.

(** What a path makes of the whole order, with its route. *)
Definition baseline_of input (path_ix : nat) : option RouteResult :=
  path ← si_ordered input !! path_ix;
  match simulate_pool_path path (si_market input) (si_token_prices input) (order_amount (si_order input)) with
  | Ok route => Some route
  | Err _ => None
  end.

Lemma build_baseline_ret input path_ix : (path_ix < length (si_ordered input))%nat -> build_baseline input path_ix = Ret (baseline_of input path_ix).
Proof. intros [path Hp]%lookup_lt_is_Some_2. unfold build_baseline, baseline_of, at_index. by rewrite Hp. Qed.

Lemma build_baselines_ret input path_ixs : indexes input path_ixs -> build_baselines input path_ixs = Ret (omap (baseline_of input) path_ixs).
Proof.
  induction 1 as [|i path_ixs Hi _ IH]; [done|]. cbn [build_baselines omap list_omap]. rewrite build_baseline_ret, IH by done. cbn [mbind outcome_bind].
  by destruct (baseline_of input i).
Qed.

Lemma first_baseline_ret input path_ixs : indexes input path_ixs -> first_baseline input path_ixs = Ret (head (omap (baseline_of input) path_ixs)).
Proof.
  induction 1 as [|i path_ixs Hi _ IH]; [done|]. cbn [first_baseline omap list_omap]. rewrite build_baseline_ret by done. cbn [mbind outcome_bind].
  by destruct (baseline_of input i).
Qed.

Lemma max_by_net_spec routes : match max_by_net routes with
  | Some best => best ∈ routes /\ Forall (fun r => rr_net_amount_out r <= rr_net_amount_out best)%Z routes
  | None => routes = [] end.
Proof.
  induction routes as [|route routes IH] using rev_ind; [done|]. unfold max_by_net in *. rewrite fold_left_app. cbn [fold_left].
  destruct (fold_left _ routes None) as [best|].
  - destruct IH as [Hin Hall]. destruct (Z.leb_spec (rr_net_amount_out best) (rr_net_amount_out route)).
    + split; [set_solver|]. apply Forall_app. split; [|by constructor]. eapply Forall_impl; [exact Hall|]. cbn. lia.
    + split; [set_solver|]. apply Forall_app. split; [done|]. constructor; [lia|done].
  - subst. cbn. split; [by left|]. by constructor.
Qed.

(** The best single path: one that carries the whole order, and no worse than any of the first few ranked. *)
Definition single_of input (ranked : list nat) (best : option RouteResult) : Prop :=
  match best with
  | Some best => (exists path_ix, path_ix ∈ ranked /\ baseline_of input path_ix = Some best) /\
      forall path_ix route, path_ix ∈ take BASELINE_CANDIDATES ranked -> baseline_of input path_ix = Some route ->
        (rr_net_amount_out route <= rr_net_amount_out best)%Z
  | None => forall path_ix, path_ix ∈ ranked -> baseline_of input path_ix = None
  end.

Lemma best_single_spec input ranking : indexes input (by_output_net_gas ranking) ->
  exists best, best_single input ranking = Ret best /\ single_of input (by_output_net_gas ranking) best.
Proof.
  intros Hix. unfold best_single. set (ranked := by_output_net_gas ranking) in *. rewrite build_baselines_ret by by apply Forall_take.
  cbn [mbind outcome_bind]. pose proof (max_by_net_spec (omap (baseline_of input) (take BASELINE_CANDIDATES ranked))) as Hmax.
  destruct (max_by_net _) as [best|].
  - exists (Some best). split; [done|]. destruct Hmax as [(i & Hi & Hb)%list_elem_of_omap Hall]. split.
    + exists i. split; [by apply (subseteq_take BASELINE_CANDIDATES)|done].
    + intros i' route Hi' Hr. rewrite Forall_forall in Hall. apply Hall. apply list_elem_of_omap. by exists i'.
  - rewrite first_baseline_ret by by apply Forall_drop. eexists. split; [done|].
    assert (forall i, i ∈ take BASELINE_CANDIDATES ranked -> baseline_of input i = None) as Htop.
    { intros i Hi. destruct (baseline_of input i) as [route|] eqn:Hr; [|done]. exfalso.
      assert (route ∈ omap (baseline_of input) (take BASELINE_CANDIDATES ranked)) as Hin by (apply list_elem_of_omap; by exists i).
      rewrite Hmax in Hin. by apply not_elem_of_nil in Hin. }
    destruct (omap (baseline_of input) (drop BASELINE_CANDIDATES ranked)) as [|route routes] eqn:Hd; cbn [head].
    + intros i Hi. rewrite <- (take_drop BASELINE_CANDIDATES ranked), elem_of_app in Hi. destruct Hi as [Hi|Hi]; [by apply Htop|].
      destruct (baseline_of input i) as [route|] eqn:Hr; [|done]. exfalso.
      assert (route ∈ omap (baseline_of input) (drop BASELINE_CANDIDATES ranked)) as Hin by (apply list_elem_of_omap; by exists i).
      rewrite Hd in Hin. by apply not_elem_of_nil in Hin.
    + assert (route ∈ omap (baseline_of input) (drop BASELINE_CANDIDATES ranked)) as (i & Hi & Hr)%list_elem_of_omap by (rewrite Hd; by left).
      split; [exists i; split; [by apply (subseteq_drop BASELINE_CANDIDATES)|done]|]. intros i' route' Hi' Hr'. rewrite Htop in Hr' by done. done.
Qed.

(** *** The candidates *)

Lemma disjoint_from_indexes idx visited more ranked : Forall (fun i => i < idx + length ranked)%nat (disjoint_from idx visited more ranked).
Proof.
  revert idx visited more. induction ranked as [|path ranked IH]; intros idx visited more; cbn [disjoint_from]; [done|].
  assert (forall visited more, Forall (fun i => i < idx + length (path :: ranked))%nat (disjoint_from (S idx) visited more ranked)) as Hrest.
  { intros visited' more'. eapply Forall_impl; [apply IH|]. cbn. lia. }
  destruct (existsb _ _); [apply Hrest|]. constructor; [cbn; lia|]. destruct more as [|[|more]]; [done|done|apply Hrest].
Qed.

Lemma disjoint_candidates_ret self input cache clock : exists cache' candidates,
  disjoint_candidates self input cache clock = Ret (cache', candidates) /\ Forall (fun candidate => assembled input candidate) candidates.
Proof.
  unfold disjoint_candidates. set (disjoint := select_disjoint _ _).
  assert (indexes input disjoint) as Hd by apply (disjoint_from_indexes 0).
  assert (exists coarse, (if (2 <=? length disjoint)%nat then disjoint_waterfill input disjoint COARSE_CHUNKS true (ck_coarse clock) else Ret None)
    = Ret coarse) as (coarse & ->).
  { destruct (_ <=? _)%nat; [|by eexists]. destruct (disjoint_waterfill_ret input disjoint COARSE_CHUNKS true (ck_coarse clock) Hd) as (r & -> & _). by eexists. }
  cbn [mbind outcome_bind]. destruct coarse as [coarse|]; [|by exists cache, []].
  destruct (build_disjoint_legs_ret input disjoint coarse Hd) as (split1 & -> & Hsplit1). cbn [mbind outcome_bind].
  assert (exists cache' refined, disjoint_refine input disjoint coarse FINE_CHUNKS cache clock = Ret (cache', refined) /\
    forall candidate, refined = Some candidate -> assembled input candidate) as (cache' & refined & -> & Hrefined).
  { unfold disjoint_refine. set (active := fst <$> _).
    assert (indexes input active) as Ha.
    { apply Forall_fmap, Forall_forall. intros [i amount] [Hin _]%elem_of_filterb. apply elem_of_zip_l in Hin.
      unfold indexes in Hd. rewrite Forall_forall in Hd. by apply Hd. }
    destruct active as [|i active]; [by exists cache, None|].
    destruct (disjoint_waterfill_ret input (i :: active) FINE_CHUNKS false (ck_fine clock) Ha) as (fine & -> & _). cbn [mbind outcome_bind].
    destruct fine as [fine|]; [|by exists cache, None].
    destruct (disjoint_exchange_ret input (i :: active) FINE_CHUNKS fine cache (ck_exchange clock) Ha) as (cache' & refined & -> & _).
    cbn [mbind outcome_bind]. destruct (build_disjoint_legs_ret input (i :: active) refined Ha) as (r & -> & Hr). by exists cache', r. }
  cbn [mbind outcome_bind]. eexists _, _. split; [done|]. apply Forall_app. split.
  - destruct split1 as [c|]; constructor; [by apply Hsplit1|done].
  - destruct refined as [c|]; constructor; [by apply Hrefined|done].
Qed.

Lemma probe_marginals_indexes input clock first_chunk idx paths cache :
  Forall (fun entry : nat * Z => entry.1 < idx + length paths)%nat (probe_marginals input clock first_chunk idx paths cache).2.
Proof.
  revert idx cache. induction paths as [|path paths IH]; intros idx cache; cbn [probe_marginals]; [done|].
  destruct (expired _ _); [done|]. destruct (wf_simulate_path _ _ _ _ _) as [cache1 probe]. specialize (IH (S idx) cache1).
  destruct (probe_marginals _ _ _ _ _ _) as [cache2 marginal]. cbn in *.
  assert (Forall (fun entry : nat * Z => entry.1 < idx + S (length paths))%nat marginal) as Hm by (eapply Forall_impl; [exact IH|]; cbn; lia).
  destruct probe; [|done]. constructor; [cbn; lia|done].
Qed.

Lemma add_winners_elem candidates winners i : i ∈ add_winners candidates winners -> i ∈ candidates \/ i ∈ winners.*1.
Proof.
  revert candidates. induction winners as [|[idx net] winners IH]; intros candidates; cbn [add_winners fmap list_fmap]; [by left|].
  destruct (_ <=? _)%Z; [intros [?|?]%IH; [by left|right; by right]|].
  set (candidates' := if bool_decide (idx ∈ candidates) then _ else _).
  assert (i ∈ candidates' -> i ∈ candidates \/ i ∈ idx :: winners.*1) as Hc.
  { unfold candidates'. case_bool_decide; [by left|]. intros [Hi|Hi%list_elem_of_singleton]%elem_of_app; [by left|subst; right; by left]. }
  destruct (_ <=? _)%nat; [done|]. intros [?|?]%IH; [by apply Hc|right; by right].
Qed.

Lemma shared_candidates_indexes input cache clock : indexes input (select_shared_candidates input cache clock).2.
Proof.
  unfold select_shared_candidates. set (candidates := seq 0 _). cbv zeta.
  assert (indexes input candidates) as Hc by (apply Forall_forall; intros i Hi%elem_of_seq; lia).
  destruct (_ =? 0); [done|]. pose proof (probe_marginals_indexes input clock (order_amount (si_order input) / N.of_nat COARSE_CHUNKS) 0
    (take SHARED_MARGIN_PROBE_PATHS (si_ordered input)) cache) as Hm.
  destruct (probe_marginals _ _ _ _ _ _) as [cache' marginal]. cbn in *. apply Forall_forall. intros i [Hi|Hi]%add_winners_elem.
  - unfold indexes in Hc. rewrite Forall_forall in Hc. by apply Hc.
  - apply list_elem_of_fmap in Hi as (entry & -> & Hi%(subseteq_take _)). rewrite sort_by_perm in Hi. rewrite Forall_forall in Hm.
    apply Hm in Hi. rewrite length_take in Hi. cbv beta in Hi |- *. lia.
Qed.

Lemma fillspill_alloc_ret self input cache clock : exists cache' candidate,
  fillspill_alloc self input FINE_CHUNKS cache clock = Ret (cache', candidate) /\ forall c, candidate = Some c -> assembled input c.
Proof.
  unfold fillspill_alloc. pose proof (shared_candidates_indexes input cache (ck_probe clock)) as Hc.
  destruct (select_shared_candidates _ _ _) as [cache' candidates]. cbn in Hc. cbv zeta.
  assert (exists (cache'' : SwapCache) (candidate : option SplitCandidate), Ret (cache', None) = Ret (cache'', candidate) /\
    forall c, candidate = Some c -> assembled input c) as Hnone by by exists cache', None.
  destruct (_ <? 2)%nat; [exact Hnone|].
  destruct (fillspill_waterfill_ret self input candidates COARSE_CHUNKS true (ck_spill_coarse clock) Hc) as (coarse & ->). cbn [mbind outcome_bind].
  destruct coarse as [coarse|]; [|exact Hnone]. set (active := snd <$> _).
  assert (indexes input active) as Ha.
  { apply Forall_fmap, Forall_forall. intros [k i] [Hin _]%elem_of_filterb. apply elem_of_zip_r in Hin. unfold indexes in Hc.
    rewrite Forall_forall in Hc. by apply Hc. }
  destruct (length active <? 2)%nat; [exact Hnone|].
  destruct (fillspill_waterfill_ret self input active FINE_CHUNKS false (ck_spill_fine clock) Ha) as (schedule & ->). cbn [mbind outcome_bind].
  destruct schedule as [[|entry schedule]|]; [exact Hnone| |exact Hnone].
  destruct (build_fillspill_route_ret input active (entry :: schedule) Ha) as (r & -> & Hr). by exists cache', r.
Qed.
End ranking.

(** ** The solve *)

Section solve.
Context `{TychoGas} `{!Messages} `{!TychoSwaps} `{!SplitMessages} `{NodeGraph (list (EdgeData DepthAndPrice))}.
Context (NATIVE_WRAP_COMPONENT : ComponentId).
Context (tie_order : list (NodeIndex * nat) -> list (NodeIndex * nat)) (hash_order : list NodeIndex -> list NodeIndex).
Implicit Types (self : WaterFillAlgorithm) (request : SolveParts (TopologyGraph (D:=DepthAndPrice))) (clock : SolveClock) (path : WFPath) (view : MarketDataView).

#[local] Abbreviation setup := (setup NATIVE_WRAP_COMPONENT tie_order hash_order).
#[local] Abbreviation wf_find_best_route := (wf_find_best_route NATIVE_WRAP_COMPONENT tie_order hash_order).

(** The paths that [find_paths] expands. *)
Lemma extend_paths_elem graph (token_paths : list (list NodeIndex)) max_paths constraints (paths : list WFPath) :
  exists extended, extend_paths NATIVE_WRAP_COMPONENT graph token_paths max_paths constraints paths = Ret extended /\
    forall path, path ∈ extended -> path ∈ paths \/ exists token_path expanded, token_path ∈ token_paths /\
      expand_path NATIVE_WRAP_COMPONENT graph token_path max_paths constraints = Ret expanded /\ path ∈ expanded.
Proof.
  revert paths. induction token_paths as [|token_path token_paths IH]; intros paths; cbn [extend_paths]; [exists paths; split; [done|]; by left|].
  destruct (expand_path NATIVE_WRAP_COMPONENT graph token_path max_paths constraints) as [expanded|] eqn:He;
    [|by rewrite expand_path_lemma in He]. cbn [mbind outcome_bind].
  destruct (IH (paths ++ expanded)) as (extended & -> & Hin). exists extended. split; [done|]. intros path Hp.
  destruct (Hin path Hp) as [[?|?]%elem_of_app|(tp & ex & ? & ? & ?)]; [by left|right|right].
  - exists token_path, expanded. split_and!; [by left|done|done].
  - exists tp, ex. split_and!; [by right|done|done].
Qed.

(** Every candidate path is one of the enumeration or one of the discovery. *)
Definition enumerated self request path : Prop := exists token_path expanded,
  let search := {| rs_bounds := wf_query self; rs_constraints := so_constraints request |} in
  (exists token_paths, paths_between NATIVE_WRAP_COMPONENT (so_graph request) (order_token_in (so_order request)) (order_token_out (so_order request)) search
     = Ok token_paths /\ token_path ∈ token_paths) /\
  expand_path NATIVE_WRAP_COMPONENT (so_graph request) token_path None (so_constraints request) = Ret expanded /\ path ∈ expanded.

Definition search_of self request : CandidateSearchConfig := {|
  cs_search := {| rs_bounds := wf_query self; rs_constraints := so_constraints request |};
  cs_max_candidates := MAX_DISCOVERY_CANDIDATES; cs_anchor_tokens := derive_anchor_tokens tie_order (so_graph request);
  cs_source_token := order_token_in (so_order request); cs_timeout := wf_timeout self |}.

Definition discovery self request view clock : SwapCache * result AlgorithmError (list WFPath) :=
  discover_paths NATIVE_WRAP_COMPONENT hash_order (so_graph request) view (so_order request) ∅ (search_of self request) clock.

Definition discovered self request view clock path : Prop := exists paths, (discovery self request view clock).2 = Ok paths /\ path ∈ paths.

Lemma top_scored_paths_ret self request :
  let search := {| rs_bounds := wf_query self; rs_constraints := so_constraints request |} in
  exists r, top_scored_paths NATIVE_WRAP_COMPONENT self (so_graph request) (so_order request) search = Ret r /\
    forall paths, r = Ok paths -> Forall (fun path => enumerated self request path) paths.
Proof.
  cbv zeta. set (search := {| rs_bounds := _ |}). unfold top_scored_paths, find_paths, find_token_paths.
  destruct (paths_between _ _ _ _ _) as [token_paths|e] eqn:Hpb; [|eexists; split; [reflexivity|discriminate]].
  destruct (extend_paths_elem (so_graph request) token_paths None (rs_constraints search) []) as (extended & -> & Hin).
  cbn [fmap outcome_fmap try_bind mbind outcome_bind].
  destruct extended as [|path extended0] eqn:He0; [eexists; split; [reflexivity|discriminate]|]. rewrite <- He0 in *. clear He0 path extended0.
  eexists. split; [reflexivity|]. intros paths [= <-]. apply Forall_forall.
  intros p ([p' score] & -> & Hp%(subseteq_take _))%list_elem_of_fmap. rewrite sort_by_perm in Hp. apply list_elem_of_fmap in Hp as (? & [= <- _] & Hp).
  cbn [fst]. destruct (Hin p' Hp) as [[]%not_elem_of_nil|(tp & ex & Htp & He & Hex)].
  exists tp, ex. split; [by exists token_paths|]. split; [exact He|done].
Qed.

Lemma new_paths_elem keys paths path : path ∈ new_paths keys paths -> path ∈ paths.
Proof.
  revert keys. induction paths as [|p paths IH]; intros keys; cbn [new_paths]; [done|].
  case_bool_decide; [intros ?%IH; by right|]. intros [->|?%IH]%elem_of_cons; [by left|by right].
Qed.

(** What a solve is prepared with: the candidates of the ranking on a snapshot of the market, and
    the best of them to carry the whole order. *)
Record prepared_by self request clock (view : MarketDataView) (input : SolveInput) (ranking : FullAmountRanking) (prepared : SetupResult) : Prop := {
  py_view : read_market (so_market request) (so_label request) = Ok view;
  py_paths : Forall (fun path => enumerated self request path \/ discovered self request view clock path) (si_ordered input);
  py_market : exists ids, si_market input = extract_subset_with_overlay view ids;
  py_gas : fetch_gas_price (si_market input) = Ok (si_gas_price input);
  py_prices : si_token_prices input = so_derived request ≫= token_prices;
  py_order : si_order input = so_order request;
  py_timeout : si_timeout input = wf_timeout self;
  py_ranking : rank_at_full_amount input (discovery self request view clock).1 (ck_rank clock) = (su_cache prepared, ranking);
  py_single : single_of input (by_output_net_gas ranking) (su_best_single prepared);
  py_input : exists ordered, su_input prepared = reordered input ordered /\ Forall (fun path => path ∈ si_ordered input) ordered;
}.

Lemma setup_spec self request clock : exists r, setup self request clock = Ret r /\
  forall prepared, r = Ok prepared -> exists view input ranking, prepared_by self request clock view input ranking prepared.
Proof.
  unfold setup, WaterFill.setup. destruct (top_scored_paths_ret self request) as (scored & -> & Hscored). cbn [try_bind mbind outcome_bind].
  destruct scored as [scored|e]; [|eexists; split; [reflexivity|discriminate]].
  destruct (read_market _ _) as [view|e] eqn:Hview; [|eexists; split; [reflexivity|discriminate]]. cbn [try_bind mbind outcome_bind].
  fold (search_of self request). fold (discovery self request view clock). destruct (discovery self request view clock) as [cache found] eqn:Hd.
  destruct (fetch_gas_price _) as [price|e] eqn:Hprice; [|eexists; split; [reflexivity|discriminate]]. cbn [try_bind mbind outcome_bind].
  set (joined := _ ++ scored) in *. set (input := {| si_ordered := joined |}).
  pose proof (rank_indexes input cache (ck_rank clock)) as Hix. cbv zeta in Hix.
  destruct (rank_at_full_amount input cache (ck_rank clock)) as [cache' ranking] eqn:Hrank. cbn [snd] in Hix. destruct Hix as [Hout Hnet].
  destruct (best_single_spec input ranking Hnet) as (best & -> & Hbest). cbn [mbind outcome_bind].
  destruct (paths_at_ret input (by_output ranking) Hout) as (ordered & -> & _ & Hordered). cbn [mbind outcome_bind].
  eexists. split; [reflexivity|]. intros prepared [= <-]. exists view, input, ranking. split; try done.
  - cbn [input si_ordered]. apply Forall_app. split.
    + apply Forall_forall. intros path Hp%new_paths_elem. right. unfold discovered. rewrite Hd. cbn.
      destruct found as [paths|]; [by exists paths|by apply not_elem_of_nil in Hp].
    + eapply Forall_impl; [by apply Hscored|]. by left.
  - by eexists.
  - by rewrite Hd.
  - by exists ordered.
Qed.

(** The splits tried, best first among equals. *)
Lemma best_candidate_spec (input : SolveInput) baseline candidates :
  match best_candidate input baseline candidates with
  | Some (net, best) => net = net_of input best /\ best ∈ candidates /\ Forall (fun c => net_of input c <= net)%Z candidates /\
      (forall base, baseline = Some base -> (base < net)%Z)
  | None => match baseline with Some base => Forall (fun c => net_of input c <= base)%Z candidates | None => candidates = [] end
  end.
Proof.
  induction candidates as [|c candidates IH] using rev_ind; [destruct baseline; constructor|]. unfold best_candidate in *. rewrite fold_left_app. cbn [fold_left].
  destruct (fold_left _ candidates None) as [[net best]|]; cbn [beats].
  - destruct IH as (Hnet & Hin & Hall & Hbase). destruct (Z.ltb_spec net (net_of input c)).
    + split_and!; [done|set_solver| |intros base Hb; specialize (Hbase base Hb); lia].
      apply Forall_app. split; [|by constructor]. eapply Forall_impl; [exact Hall|]. cbn. lia.
    + split_and!; [done|set_solver| |done]. apply Forall_app. split; [done|]. by constructor.
  - destruct baseline as [base|].
    + destruct (Z.ltb_spec base (net_of input c)).
      * split_and!; [done|set_solver| |by intros base' [= <-]]. apply Forall_app. split; [|by constructor]. eapply Forall_impl; [exact IH|]. cbn. lia.
      * apply Forall_app. split; [done|]. by constructor.
    + subst. cbn. split_and!; [done|by left|by constructor|done].
Qed.

(** What a solve answers, from the splits it tried: the one that nets most where it nets more than
    the best single path, that path otherwise. *)
Definition answer_of (input : SolveInput) (single : option RouteResult) (candidates : list SplitCandidate)
    (answer : result AlgorithmError RouteResult) : Prop :=
  match answer with
  | Ok result =>
      single = Some result /\ Forall (fun c => net_of input c <= rr_net_amount_out result)%Z candidates \/
      exists best, best ∈ candidates /\ result = RouteResult_new (cd_route best) (net_of input best) (si_gas_price input) /\
        Forall (fun c => net_of input c <= net_of input best)%Z candidates /\
        forall route, single = Some route -> (rr_net_amount_out route < net_of input best)%Z
  | Err e => e = AE_InsufficientLiquidity /\ single = None /\ candidates = []
  end.

(** The splits of the three passes, each assembled from candidate paths. *)
Definition tried self (prepared : SetupResult) clock (candidates : list SplitCandidate) : Prop :=
  (exists cache splits cache' spilled, disjoint_candidates self (su_input prepared) (su_cache prepared) clock = Ret (cache, splits) /\
     fillspill_alloc self (su_input prepared) FINE_CHUNKS cache clock = Ret (cache', spilled) /\ candidates = splits ++ option_list spilled) /\
  Forall (fun c => assembled (su_input prepared) c) candidates.

Lemma wf_find_best_route_spec self request clock : Order_is_sell (so_order request) = true ->
  exists prepared answer, setup self request clock = Ret prepared /\ wf_find_best_route self request clock = Ret answer /\
    match prepared with
    | Err e => answer = Err e
    | Ok prepared => exists candidates, tried self prepared clock candidates /\ answer_of (su_input prepared) (su_best_single prepared) candidates answer
    end.
Proof.
  intros Hsell. unfold wf_find_best_route, WaterFill.wf_find_best_route. rewrite Hsell. cbn [negb].
  destruct (setup_spec self request clock) as (prepared & Hsetup & _). exists prepared.
  rewrite Hsetup. cbn [try_bind mbind outcome_bind]. destruct prepared as [prepared|e]; [|by eexists].
  destruct (disjoint_candidates_ret self (su_input prepared) (su_cache prepared) clock) as (cache & candidates & Hd & Hcs). rewrite Hd. cbn [mbind outcome_bind].
  destruct (fillspill_alloc_ret self (su_input prepared) cache clock) as (cache' & spilled & Hf & Hspill). rewrite Hf. cbn [mbind outcome_bind].
  eexists. split; [done|]. split; [done|]. exists (candidates ++ option_list spilled). split.
  { split; [by exists cache, candidates, cache', spilled|]. apply Forall_app. split; [done|]. destruct spilled; constructor; [by apply Hspill|done]. }
  pose proof (best_candidate_spec (su_input prepared) (rr_net_amount_out <$> su_best_single prepared) (candidates ++ option_list spilled)) as Hbest.
  destruct (best_candidate _ _ _) as [[net best]|].
  - destruct Hbest as (-> & Hin & Hall & Hbase). right. exists best. split_and!; try done. intros route Hr. apply Hbase. by rewrite Hr.
  - destruct (su_best_single prepared) as [single|]; cbn in Hbest; [by left|done].
Qed.
(** *** The paths of the discovery *)

Section found.
Context (graph : TopologyGraph (D:=DepthAndPrice)) (view : MarketDataView) (cfg : CandidateSearchConfig) (order : Order) (from to : NodeIndex).
Context (Hgraph : TokenGraphLaws.graph_ok graph) (Hfrom : tg_tokens graph !! order_token_in order = Some from) (Hto : tg_tokens graph !! order_token_out order = Some to).
Context (Hsource : cs_source_token cfg = order_token_in order).
#[local] Abbreviation constraints := (rs_constraints (cs_search cfg)).
#[local] Abbreviation ends := (order_token_in order, order_token_out order).
Implicit Types (state : CandidatePathState) (scored : list ScoredEdge).

(** A path from the order's input, without a token twice, of pools and tokens the request allows. *)
Record walked path (at_end : Address) : Prop := {
  wk_head : head (path_tokens path) = Some (order_token_in order);
  wk_last : last (path_tokens path) = Some at_end;
  wk_length : length (path_tokens path) = S (length (path_edge_data path));
  wk_simple : NoDup (path_tokens path);
  wk_pools : Forall (fun pool => excludes_pool constraints (ed_component_id pool) = false) (path_edge_data path);
  wk_tokens : Forall (fun token => allows_token constraints token ends = true) (path_tokens path);
}.

Definition state_ok state : Prop :=
  cp_path state = Path_new /\ cp_node state = from \/ walked (cp_path state) (node_address graph (cp_node state)).

Lemma walked_add_hop state next edge : state_ok state ->
  can_extend_path NATIVE_WRAP_COMPONENT graph state next to edge cfg = true ->
  walked (add_hop (cp_path state) (node_address graph (cp_node state)) edge (node_address graph next)) (node_address graph next).
Proof.
  intros Hstate. unfold can_extend_path. destruct (excludes_pool _ _) eqn:Hpool; [done|]. destruct (existsb _ _); [done|].
  case_bool_decide as Hnew; [done|]. case_bool_decide as Hsrc; [done|]. destruct (_ && _); [done|].
  rewrite Hsource in *. rewrite (node_address_token graph _ to Hgraph Hto). unfold search_allows_token. intros [Hallow _]%andb_prop.
  destruct Hstate as [[-> ->]|[Hhead Hlast Hlen Hnd Hpools Htokens]].
  - rewrite (node_address_token graph _ from Hgraph Hfrom). split; cbn; [done|done|done| |by repeat constructor|].
    + apply NoDup_cons. split; [intros ?%list_elem_of_singleton; congruence|apply NoDup_singleton].
    + constructor; [|by repeat constructor]. unfold allows_token. cbn. by rewrite bool_decide_true.
  - destruct (path_tokens (cp_path state)) as [|t ts] eqn:Htok; [done|]. unfold add_hop. rewrite Htok. split; cbn [path_tokens path_edge_data].
    + done.
    + by rewrite last_snoc.
    + rewrite !length_app, Hlen. cbn. lia.
    + apply NoDup_app. split_and!; [done| |apply NoDup_singleton]. intros x Hx ->%list_elem_of_singleton. done.
    + apply Forall_app. split; [done|by repeat constructor].
    + apply Forall_app. split; [done|by repeat constructor].
Qed.

(** *** What a state is extended by, and what the cache then holds *)

Context (dirs : PoolDirection -> Prop).

Definition view_pools : PoolDirection -> N -> result Refusal SwapResult := fun direction amount =>
  swap_between (fun address => tokens (view_guard view) !! address) (view_get_simulation_state view direction.1.1) direction.1.2 direction.2 amount.

#[local] Abbreviation exact := (cache_exact view_pools dirs).

Definition extends state (edge : ScoredEdge) : Prop :=
  can_extend_path NATIVE_WRAP_COMPONENT graph state (se_target edge) to (se_edge edge) cfg = true.

Definition scan_ok' state (scan : SwapCache * list ScoredEdge) : Prop := exact scan.1 /\ Forall (extends state) scan.2.

Lemma score_pools_ok state next priority pools scan : scan_ok' state scan ->
  scan_ok' state (fold_left (score_pool NATIVE_WRAP_COMPONENT graph view cfg to state next priority) pools scan).
Proof.
  revert scan. induction pools as [|pool pools IH]; intros [cache scored] [Hcache Hscored]; cbn [fold_left]; [done|]. apply IH. unfold score_pool.
  destruct (can_extend_path _ _ _ _ _ _ _) eqn:Hext; cbn [negb]; [|done].
  destruct (swap _ _ _ _ _) as [cache' hop] eqn:Hs. cbn in Hcache, Hscored.
  destruct (swap_exact view_pools dirs _ _ _ _ _ _ _ Hcache (fun _ => eq_refl) Hs) as [Hcache' _].
  destruct hop as [hop|]; [|done]. split; [done|]. apply Forall_app. split; [done|]. by repeat constructor.
Qed.

Lemma score_candidate_edges_ok state preferred_only cache : exact cache ->
  scan_ok' state (score_candidate_edges NATIVE_WRAP_COMPONENT graph view cfg to state preferred_only cache).
Proof.
  intros Hcache. unfold score_candidate_edges. assert (scan_ok' state (cache, [])) as Hok by (split; [done|constructor]).
  revert Hok. generalize (cache, @nil ScoredEdge) as scan. generalize (edges_from (tg_graph graph) (cp_node state)) as edges.
  intros edges. induction edges as [|[next pools] edges IH]; intros scan Hok; cbn [fold_left]; [done|]. apply IH. unfold score_edge.
  destruct (candidate_priority _ _ _ _); [by apply score_pools_ok|]. destruct preferred_only; [done|]. by apply score_pools_ok.
Qed.

Lemma select_edges_elem scored per_target more edge : edge ∈ select_edges scored per_target more -> edge ∈ scored.
Proof.
  revert per_target more. induction scored as [|e scored IH]; intros per_target more; cbn [select_edges]; [done|].
  destruct (_ <=? _)%nat; [intros ?%IH; by right|]. intros [->|He]%elem_of_cons; [by left|right].
  destruct more as [|[|more]]; [by apply not_elem_of_nil in He..|]. by eapply IH.
Qed.

Lemma candidate_edges_ok state cache : exact cache ->
  scan_ok' state (candidate_edges_for_state NATIVE_WRAP_COMPONENT graph view cfg to state cache).
Proof.
  intros Hcache. unfold candidate_edges_for_state.
  assert (forall cache scored, scan_ok' state (cache, scored) -> scan_ok' state (cache, select_candidate_edges scored CANDIDATE_EDGES_PER_STATE)) as Hsel.
  { intros c scored [? Hall]. split; [done|]. apply Forall_forall. intros e He%select_edges_elem. rewrite sort_by_perm in He.
    cbn in Hall. rewrite Forall_forall in Hall. by apply Hall. }
  pose proof (score_candidate_edges_ok state true cache Hcache) as Hpref. destruct (score_candidate_edges _ _ _ _ _ _ true _) as [cache1 preferred].
  destruct preferred as [|e preferred]; [|by apply Hsel].
  pose proof (score_candidate_edges_ok state false cache1 (proj1 Hpref)) as Hrest.
  destruct (score_candidate_edges _ _ _ _ _ _ false _) as [cache2 rest]. by apply Hsel.
Qed.

(** *** The levels *)

Definition reaches path : Prop := walked path (order_token_out order).

Definition level_ok (level : gmap NodeIndex (list CandidatePathState)) : Prop := map_Forall (fun _ states => Forall state_ok states) level.

Definition found_ok (found : list (WFPath * N)) : Prop := Forall (fun entry => reaches entry.1) found.

Lemma expand_edges_ok state times i edges found level found' level' : state_ok state -> Forall (extends state) edges ->
  found_ok found -> level_ok level ->
  expand_edges NATIVE_WRAP_COMPONENT graph cfg to state times i edges found level = (found', level') -> found_ok found' /\ level_ok level'.
Proof.
  intros Hstate Hedges. revert i found level. induction Hedges as [|edge edges He _ IH]; intros i found level Hfound Hlevel; cbn [expand_edges];
    [by intros [= <- <-]|].
  destruct (expired _ _); [by intros [= <- <-]|]. cbv zeta. pose proof (walked_add_hop state (se_target edge) (se_edge edge) Hstate He) as Hpath.
  set (path := add_hop _ _ _ _) in *. apply IH.
  - destruct (bool_decide _ && _) eqn:Hb; [|done]. apply andb_prop in Hb as [Htarget%bool_decide_eq_true _].
    apply Forall_app. split; [done|]. constructor; [|done]. unfold reaches. cbn. by rewrite <- (node_address_token graph _ to Hgraph Hto), <- Htarget.
  - destruct (stays_on_frontier _ _ _ _ _); [|done]. apply map_Forall_insert_2; [|done]. apply Forall_app. split.
    + destruct (level !! se_target edge) as [states|] eqn:Hl; [|constructor]. exact (Hlevel _ _ Hl).
    + constructor; [by right|done].
Qed.

Lemma expand_level_ok times i frontier cache found level cache' found' level' : Forall state_ok frontier -> exact cache -> found_ok found -> level_ok level ->
  expand_level NATIVE_WRAP_COMPONENT graph view cfg from to times i frontier cache found level = (cache', found', level') ->
  exact cache' /\ found_ok found' /\ level_ok level'.
Proof.
  intros Hfrontier. revert i cache found level. induction Hfrontier as [|state frontier Hstate _ IH]; intros i cache found level Hcache Hfound Hlevel;
    cbn [expand_level]; [by intros [= <- <- <-]|].
  destruct (_ && _); [by apply IH|]. unfold expand_candidate_state.
  pose proof (candidate_edges_ok state cache Hcache) as [Hcache1 Hedges]. destruct (candidate_edges_for_state _ _ _ _ _ _ _) as [cache1 edges].
  destruct (expand_edges _ _ _ _ _ _ _ _ _ _) as [found1 level1] eqn:He.
  destruct (expand_edges_ok state _ _ _ _ _ _ _ Hstate Hedges Hfound Hlevel He). by apply IH.
Qed.

Lemma prune_ok level : level_ok level -> Forall state_ok (prune_candidate_frontier hash_order level).
Proof.
  intros Hlevel. unfold prune_candidate_frontier. apply Forall_forall. intros state (states & Hin & Hs)%list_elem_of_bind.
  apply list_elem_of_omap in Hs as (node & _ & Hs). apply (subseteq_take _) in Hin. rewrite sort_desc_perm in Hin.
  pose proof (Hlevel _ _ Hs) as Hall. rewrite Forall_forall in Hall. by apply Hall.
Qed.

Lemma discover_levels_ok clock n depth frontier cache found cache' found' : Forall state_ok frontier -> exact cache -> found_ok found ->
  discover_levels NATIVE_WRAP_COMPONENT hash_order graph view cfg from to clock n depth frontier cache found = (cache', found') ->
  exact cache' /\ found_ok found'.
Proof.
  revert depth frontier cache found. induction n as [|n IH]; intros depth frontier cache found Hfrontier Hcache Hfound; cbn [discover_levels];
    [by intros [= <- <-]|]. destruct frontier as [|state frontier]; [by intros [= <- <-]|].
  destruct (expired _ _); [by intros [= <- <-]|]. destruct (expand_level _ _ _ _ _ _ _ _ _ _ _ _) as [[cache1 found1] level1] eqn:He.
  destruct (expand_level_ok _ _ _ _ _ _ _ _ _ Hfrontier Hcache Hfound (map_Forall_empty _) He) as (? & ? & ?). apply IH; [by apply prune_ok|done|done].
Qed.
End found.
(** *** The candidates *)

Lemma distinct_paths_elem found keys more path : path ∈ distinct_paths found keys more -> path ∈ found.*1.
Proof.
  revert keys more. induction found as [|[p amount] found IH]; intros keys more; cbn [distinct_paths fmap list_fmap]; [done|].
  case_bool_decide; [intros ?%IH; by right|]. intros [->|Hp]%elem_of_cons; [by left|right].
  destruct more as [|[|more]]; [by apply not_elem_of_nil in Hp..|]. by eapply IH.
Qed.

(** A path from the order's input to its output that visits what the request asks for. *)
Definition candidate_path self request path : Prop :=
  reaches (search_of self request) (so_order request) path /\ visits_all_required_tokens (so_constraints request) (path_tokens path) = true.

(** What the discovery finds, and what it leaves in the cache. *)
Lemma discovery_spec self request view clock dirs : TokenGraphLaws.graph_ok (so_graph request) ->
  cache_exact (view_pools view) dirs (discovery self request view clock).1 /\
  forall path, discovered self request view clock path -> candidate_path self request path.
Proof.
  intros Hgraph. unfold discovered, discovery, discover_paths, get_token_ixs, get_token_ix.
  destruct (tg_tokens _ !! order_token_in _) as [from|] eqn:Hfrom; [|split; [apply cache_exact_empty|by intros path (? & ? & _)]].
  destruct (tg_tokens _ !! order_token_out _) as [to|] eqn:Hto; [|split; [apply cache_exact_empty|by intros path (? & ? & _)]].
  destruct (discover_levels _ _ _ _ _ _ _ _ _ _ _ _ _) as [cache found] eqn:Hd.
  apply (discover_levels_ok (so_graph request) view (search_of self request) (so_order request) from to Hgraph Hfrom Hto eq_refl dirs)
    in Hd as [Hcache Hfound]; [|by constructor; [left|]|apply cache_exact_empty|constructor].
  split; [done|]. intros path (paths & Hpaths & Hin). cbn in Hpaths. unfold rank_found_candidate_paths in Hpaths.
  assert (path ∈ distinct_paths (sort_desc snd (List.filter (fun entry : WFPath * N =>
    visits_all_required_tokens (rs_constraints (cs_search (search_of self request))) (path_tokens entry.1)) found)) ∅ MAX_DISCOVERY_CANDIDATES) as Hp.
  { cbn [search_of cs_search cs_max_candidates] in *. destruct (distinct_paths _ _ _); [done|]. injection Hpaths as <-. exact Hin. }
  apply distinct_paths_elem, list_elem_of_fmap in Hp as ([p amount] & -> & Hp). rewrite sort_desc_perm in Hp.
  apply elem_of_filterb in Hp as [Hp Hvisits]. unfold found_ok in Hfound. rewrite Forall_forall in Hfound. split; [by apply (Hfound _ Hp)|exact Hvisits].
Qed.

Lemma pair_pools_nodes (graph : TopologyGraph (D:=DepthAndPrice)) a b pool : TokenGraphLaws.graph_ok graph -> pool ∈ pair_pools graph a b ->
  is_Some (node_weight (tg_graph graph) a) /\ is_Some (node_weight (tg_graph graph) b).
Proof.
  intros Hgraph Hin. unfold pair_pools in Hin. destruct (tg_pair_index _ !! _) as [e|] eqn:He; [|by apply not_elem_of_nil in Hin].
  apply (gk_index _ Hgraph) in He as [pools He]. exact (gk_ends _ Hgraph _ _ _ _ He).
Qed.

Lemma enumerated_reaches self request path : TokenGraphLaws.graph_ok (so_graph request) ->
  order_token_in (so_order request) <> order_token_out (so_order request) ->
  enumerated self request path -> candidate_path self request path.
Proof.
  intros Hgraph Hne (p & expanded & (token_paths & Hpb & Hp) & He & Hin). unfold paths_between, get_token_ix in Hpb.
  destruct (tg_tokens _ !! order_token_in _) as [from|] eqn:Hfrom; [|done]. destruct (tg_tokens _ !! order_token_out _) as [to|] eqn:Hto; [|done].
  injection Hpb as <-. apply (paths_between_ix_sound _ _ _ _ _ _ (graph_ok_search _ Hgraph)) in Hp as [Hhead Hlast Hlen Hsimple Hallowed _ Hvisits].
  pose proof (fun i pool => expanded_pool NATIVE_WRAP_COMPONENT _ _ _ _ _ _ i pool He Hin) as Hpool.
  destruct (Hpool 0%nat (EdgeData_new EmptyString)) as (Htok & Hedges & _).
  pose proof (node_address_token _ _ _ Hgraph Hfrom) as Hin_address. pose proof (node_address_token _ _ _ Hgraph Hto) as Hout_address.
  assert (NoDup p) as Hnd.
  { destruct Hsimple as [?|[_ Hclosed]]; [done|]. rewrite Hhead, Hlast in Hclosed. congruence. }
  assert (forall t, t ∈ p -> is_Some (node_weight (tg_graph (so_graph request)) t)) as Hnodes.
  { intros t (i & Hi)%list_elem_of_lookup. pose proof (lookup_lt_Some _ _ _ Hi) as Hlt.
    assert (forall j, (j < length p - 1)%nat -> exists a b, p !! j = Some a /\ p !! S j = Some b /\
      is_Some (node_weight (tg_graph (so_graph request)) a) /\ is_Some (node_weight (tg_graph (so_graph request)) b)) as Hstep.
    { intros j Hj. rewrite <- Hedges in Hj. apply lookup_lt_is_Some_2 in Hj as [pool Hj].
      destruct (Hpool j pool) as (_ & _ & Hx). destruct (Hx Hj) as (a & b & Ha & Hb & Hpp & _). exists a, b.
      destruct (pair_pools_nodes _ _ _ _ Hgraph Hpp). by split_and!. }
    destruct i as [|i].
    - destruct (Hstep 0%nat ltac:(lia)) as (a & b & Ha & _ & Hw & _). congruence.
    - destruct (Hstep i ltac:(lia)) as (a & b & _ & Hb & _ & Hw). congruence. }
  assert (NoDup (path_tokens path)) as Hnd'.
  { rewrite Htok. apply NoDup_fmap_2_strong; [|done]. intros t t' [x Hx]%Hnodes [x' Hx']%Hnodes. unfold node_address. rewrite Hx, Hx'. cbn. intros ->.
    apply (gk_tokens _ Hgraph) in Hx, Hx'. congruence. }
  split; [split; [| | |done| |]|rewrite Htok; exact Hvisits].
  - rewrite Htok, head_fmap, Hhead. cbn. by f_equal.
  - rewrite Htok, fmap_last, Hlast. cbn. by f_equal.
  - rewrite Htok, length_fmap, Hedges. lia.
  - apply Forall_lookup. intros i pool Hi. destruct (Hpool i pool) as (_ & _ & Hx). by destruct (Hx Hi) as (_ & _ & _ & _ & _ & ?).
  - rewrite Htok. apply Forall_fmap, Forall_forall. intros t Ht. apply Hallowed in Ht. unfold allowed, search_allows_token in Ht. cbn [fst snd] in Ht.
    rewrite Hin_address, Hout_address in Ht. apply andb_prop in Ht as [Ht _]. exact Ht.
Qed.

Lemma prepared_paths self request clock view input ranking prepared : TokenGraphLaws.graph_ok (so_graph request) ->
  order_token_in (so_order request) <> order_token_out (so_order request) -> prepared_by self request clock view input ranking prepared ->
  Forall (fun path => candidate_path self request path) (si_ordered input).
Proof.
  intros Hgraph Hne Hby. eapply Forall_impl; [apply (py_paths _ _ _ _ _ _ _ Hby)|]. intros path [He|Hd].
  - by apply enumerated_reaches.
  - by apply (discovery_spec self request view clock (fun _ => True) Hgraph).
Qed.
(** *** The legs of a split *)

(** A hop as the market knows it. *)
Definition hop_as (market : MarketState) (hop : Address * Address * ComponentId) (descriptor : HopDescriptor) : Prop :=
  hd_component_id descriptor = hop.2 /\ tokens market !! hop.1.1 = Some (hd_token_in descriptor) /\
  tokens market !! hop.1.2 = Some (hd_token_out descriptor).

Lemma commit_hops_hops market hops states current committed states' out hops' :
  commit_hops hops market states current committed = Some (states', out, hops') ->
  exists new, hops' = committed ++ new /\ Forall2 (fun hop simulated => hop_as market hop (sh_descriptor simulated)) hops new.
Proof.
  revert states current committed. induction hops as [|[[a b] c] hops IH]; intros states current committed; cbn [commit_hops].
  { intros [= _ _ <-]. exists []. by rewrite app_nil_r. }
  destruct (overlay_hop _ _ _ _ _) as [[[token_in token_out] result]|] eqn:Ho; [|done]. cbn [mbind option_bind].
  intros (new & -> & Hnew)%IH. rewrite <- app_assoc. eexists. split; [done|]. constructor; [|done].
  unfold overlay_hop in Ho. destruct (tokens market !! a) as [ta|] eqn:Ha; [|done]. destruct (tokens market !! b) as [tb|] eqn:Hb; [|done].
  cbn [mbind option_bind] in Ho. destruct (hop_state _ _ _ _) as [state|]; [|done]. cbn [mbind option_bind] in Ho.
  destruct (get_amount_out_guarded _ _ _ _); [|done]. by injection Ho as <- <- <-.
Qed.

(** Hops along distinct tokens lead from the first to the last, and never back. *)
Lemma iter_leads market t ts (ids : list ComponentId) hops to : keyed market -> NoDup (t :: ts) -> length ids = length ts ->
  last (t :: ts) = Some to -> Forall2 (hop_as market) (zip (windows2 (t :: ts)) ids) hops ->
  leads t hops to /\ Forall (fun hop => out_of hop ∈ ts /\ in_of hop <> to /\ in_of hop <> out_of hop) hops.
Proof.
  intros Hkeyed. revert t ids hops. induction ts as [|b ts IH]; intros t [|id ids] hops Hnd Hlen Hlast; try done.
  { intros ->%Forall2_nil_inv_l. cbn in Hlast. injection Hlast as ->. by split. }
  rewrite windows2_cons. cbn [zip zip_with]. intros (hop & hops' & (Hc & Hin & Hout) & Hrest & ->)%Forall2_cons_inv_l. cbn in Hin, Hout.
  apply Hkeyed in Hin, Hout. apply NoDup_cons in Hnd as [Hnew Hnd]. change (last (b :: ts) = Some to) in Hlast.
  destruct (IH b ids hops' Hnd ltac:(cbn in Hlen; lia) Hlast Hrest) as [Hlead Hall]. pose proof (last_Some_elem_of _ _ Hlast) as Hto.
  cbn [leads]. split; [by rewrite <- Hout in Hlead|]. constructor.
  - unfold out_of, in_of. rewrite Hin, Hout. split_and!; [by left|by intros ->|intros ->; apply Hnew; by left].
  - eapply Forall_impl; [exact Hall|]. intros h (? & ? & ?). split_and!; [by right|done|done].
Qed.

(** Every token of the path is one of its hops'. *)
Lemma iter_touches market t ts (ids : list ComponentId) hops to : keyed market -> length ids = length ts -> last (t :: ts) = Some to ->
  Forall2 (hop_as market) (zip (windows2 (t :: ts)) ids) hops -> t <> to ->
  forall token, token ∈ t :: ts -> exists hop, hop ∈ hops /\ (in_of hop = token \/ out_of hop = token).
Proof.
  intros Hkeyed Hlen Hlast Hall Hne. destruct ts as [|b ts]; [cbn in Hlast; congruence|]. clear Hlast Hne to.
  revert t b ids hops Hlen Hall. induction ts as [|c ts IH]; intros t b [|id ids] hops Hlen; try done; rewrite windows2_cons; cbn [zip zip_with];
    intros (hop & hops' & (_ & Hin & Hout) & Hrest & ->)%Forall2_cons_inv_l token Htoken; cbn in Hin, Hout; apply Hkeyed in Hin, Hout.
  - exists hop. split; [by left|]. apply elem_of_cons in Htoken as [Ht|Ht%list_elem_of_singleton]; rewrite Ht; [left; exact Hin|right; exact Hout].
  - apply elem_of_cons in Htoken as [Ht|Htoken]; [exists hop; split; [by left|left; by rewrite Ht]|].
    destruct (IH b c ids hops' ltac:(cbn in *; lia) Hrest token Htoken) as (h & Hh & ?). exists h. split; [by right|done].
Qed.

(** What a hop of a split has: the market knows its tokens, the request allows it, and it does not
    pass through the order's ends. *)
Record hop_sound self request (market : MarketState) (hop : HopDescriptor) : Prop := {
  hs_registered : hop_registered market hop;
  hs_pool : excludes_pool (so_constraints request) (hd_component_id hop) = false;
  hs_token : allows_token (so_constraints request) (out_of hop) (order_token_in (so_order request), order_token_out (so_order request)) = true;
  hs_ends : out_of hop <> order_token_in (so_order request) /\ in_of hop <> order_token_out (so_order request);
}.

Lemma leg_sound self request input allocation : keyed (si_market input) ->
  Forall (fun path => candidate_path self request path) (si_ordered input) -> leg_of input allocation ->
  leads (order_token_in (so_order request)) (descriptors_of allocation) (order_token_out (so_order request)) /\
  Forall (fun hop => hop_sound self request (si_market input) hop) (descriptors_of allocation) /\
  (order_token_in (so_order request) <> order_token_out (so_order request) -> forall token, token ∈ rrc_required_tokens (so_constraints request) ->
     exists hop, hop ∈ descriptors_of allocation /\ (in_of hop = token \/ out_of hop = token)).
Proof.
  intros Hkeyed Hpaths (path & overrides & overrides' & amount & fraction & Hpath & Hcommit). rewrite Forall_forall in Hpaths.
  destruct (Hpaths path Hpath) as [[Hhead Hlast Hlen Hnd Hpools Htokens] Hvisits]. unfold allocation_commit in Hcommit.
  destruct (commit_hops _ _ _ _ _) as [[[states out] hops]|] eqn:Hc; [|done]. cbn in Hcommit. injection Hcommit as _ <-.
  apply commit_hops_hops in Hc as (new & -> & Hnew). cbn [app] in *. unfold descriptors_of. cbn [pa_hops].
  assert (Forall2 (hop_as (si_market input)) (path_iter path) (sh_descriptor <$> new)) as Hall by by apply Forall2_fmap_r.
  clear Hnew. set (hops := sh_descriptor <$> new) in *. clearbody hops. clear new.
  unfold path_iter in Hall. destruct (path_tokens path) as [|t ts] eqn:Htok; [done|]. cbn in Hhead. injection Hhead as ->.
  assert (length (ed_component_id <$> path_edge_data path) = length ts) as Hids by (rewrite length_fmap; cbn in Hlen; lia).
  destruct (iter_leads _ _ _ _ _ _ Hkeyed Hnd Hids Hlast Hall) as [Hlead Hends]. split; [done|].
  split; [|intros Hne token Htoken; apply (iter_touches _ _ _ _ _ _ Hkeyed Hids Hlast Hall Hne);
    unfold visits_all_required_tokens in Hvisits; rewrite forallb_forall in Hvisits;
    apply (bool_decide_eq_true_1 _ (Hvisits token (proj1 (list_elem_of_In _ _) (proj2 (elem_of_elements _ _) Htoken))))].
  apply Forall_lookup. intros i hop Hi. destruct (Forall2_lookup_r _ _ _ _ _ Hall Hi) as ([[a b] id] & Hzip & Hid & Ha & Hb). cbn in Hid, Ha, Hb.
  rewrite Forall_lookup in Hends. destruct (Hends _ _ Hi) as (Hout & Hin & Hdistinct). apply lookup_zip_Some in Hzip as [_ Hzip].
  rewrite list_lookup_fmap in Hzip. destruct (path_edge_data path !! i) as [pool|] eqn:Hpool; [|done]. cbn in Hzip. injection Hzip as <-.
  pose proof (Hkeyed _ _ Ha) as Hta. pose proof (Hkeyed _ _ Hb) as Htb. apply NoDup_cons in Hnd as [Hnew _]. split.
  - split; [done|unfold in_of; by rewrite Hta|unfold out_of; by rewrite Htb].
  - rewrite Hid. rewrite Forall_lookup in Hpools. exact (Hpools _ _ Hpool).
  - rewrite Forall_forall in Htokens. apply Htokens. by right.
  - split; [|done]. intros Heq. apply Hnew. by rewrite <- Heq.
Qed.

(** What a solve returns when it is a split: a route from the order's input that takes the order's
    amount through hops the request allows, and nets what it pays less its gas; where the route is
    valid it ends at the order's output and replays on the snapshot to what it pays. *)
Record split_answer request (input : SolveInput) (result : RouteResult) : Prop := {
  sa_input : input_token (rr_route result) = Some (order_token_in (so_order request));
  sa_amount : sum_by (fun s => if decide (sw_token_in s = order_token_in (so_order request)) then sw_amount_in s else 0) (rt_swaps (rr_route result))
    = order_amount (so_order request);
  sa_allowed : Forall (swap_allowed (so_constraints request) (so_order request)) (rt_swaps (rr_route result));
  sa_required : forall token, token ∈ rrc_required_tokens (so_constraints request) -> touches token (rt_swaps (rr_route result));
  sa_rounded : splits_rounded (rt_swaps (rr_route result));
  sa_net : rr_net_amount_out result = (Z.of_N (Route_amount_out (rr_route result) (order_token_out (so_order request)))
    - activation_cost input (total_gas (rr_route result)))%Z;
  sa_valid : Route_validate (rr_route result) = Ret (Ok tt) ->
    output_token (rr_route result) = Some (order_token_out (so_order request)) /\
    (splits_readable (rt_swaps (rr_route result)) = true -> replay_route (rr_route result) (si_market input) =
      Ret (Ok {| rp_amount_out := Route_amount_out (rr_route result) (order_token_out (so_order request));
                 rp_gas := total_gas (rr_route result) |}));
}.

Lemma net_of_gross (input : SolveInput) candidate :
  net_of input candidate = (Z.of_N (cd_gross candidate) - activation_cost input (cd_gas candidate))%Z.
Proof. unfold net_of, activation_cost. destruct (wf_gas_cost_in_token _ _ _ _); cbn [default id]; [done|lia]. Qed.

Lemma assembled_sound self request input candidate gas_price : keyed (si_market input) -> si_order input = so_order request ->
  order_token_in (so_order request) <> order_token_out (so_order request) ->
  Forall (fun path => candidate_path self request path) (si_ordered input) -> assembled input candidate ->
  split_answer request input (RouteResult_new (cd_route candidate) (net_of input candidate) gas_price).
Proof.
  intros Hkeyed Horder Hne Hpaths (allocations & [Hlegs Hbuild [Hgross _] Hgas]). rewrite Horder in Hbuild, Hgross.
  assert (Forall (fun allocation => leads (order_token_in (so_order request)) (descriptors_of allocation) (order_token_out (so_order request)) /\
    Forall (fun hop => hop_sound self request (si_market input) hop) (descriptors_of allocation) /\
    forall token, token ∈ rrc_required_tokens (so_constraints request) ->
      exists hop, hop ∈ descriptors_of allocation /\ (in_of hop = token \/ out_of hop = token)) allocations) as Hall.
  { eapply Forall_impl; [exact Hlegs|]. intros a Ha. destruct (leg_sound self request input a Hkeyed Hpaths Ha) as (? & ? & Ht). split_and!; [done|done|by apply Ht]. }
  assert (Forall (fun a => leads (order_token_in (so_order request)) (descriptors_of a) (order_token_out (so_order request)) /\
    Forall (fun hop => out_of hop <> order_token_in (so_order request) /\ in_of hop <> order_token_out (so_order request)) (descriptors_of a))
    allocations) as Hleads.
  { eapply Forall_impl; [exact Hall|]. intros a (Hl & Hs & _). split; [done|]. eapply Forall_impl; [exact Hs|]. apply hs_ends. }
  assert (forall hop, of_paths allocations hop -> hop_sound self request (si_market input) hop) as Hof.
  { intros hop (a & Ha & Hin). rewrite Forall_forall in Hall. destruct (Hall _ Ha) as (_ & Hs & _). rewrite Forall_forall in Hs. by apply Hs. }
  destruct (split_swaps _ _ _ _ Hbuild) as [Hswaps Hhops]. destruct (split_input _ _ _ _ Hbuild) as [Hin Htotal].
  split; cbn [rr_route rr_net_amount_out RouteResult_new]; [done|done|..].
  - eapply Forall_impl; [exact Hswaps|]. intros s (hop & Hhop & Hc & _ & Ht & _). apply Hof in Hhop. unfold swap_allowed.
    rewrite Hc, Ht. split; apply Hhop.
  - intros token Htoken. destruct allocations as [|a allocations].
    { exfalso. destruct (rt_swaps (cd_route candidate)) as [|s swaps] eqn:Hs; [unfold input_token in Hin; by rewrite Hs in Hin|].
      apply Forall_cons in Hswaps as [(hop & (? & Ha & _) & _) _]. by apply not_elem_of_nil in Ha. }
    apply Forall_cons in Hall as [(_ & _ & Ht) _]. destruct (Ht token Htoken) as (hop & Hhop & Htouch).
    destruct (Hhops hop) as (s & Hs & Hs_in & Hs_out); [exists a; split; [by left|done]|]. exists s. split; [done|]. by rewrite Hs_in, Hs_out.
  - eapply Forall_impl; [exact Hswaps|]. by intros s (hop & _ & _ & _ & _ & ?).
  - rewrite net_of_gross, Hgross, Hgas. done.
  - intros Hvalid. split; [by eapply split_output|]. intros Hread. apply (split_replays _ _ _ _ Hbuild Hleads Hvalid Hne); [|done].
    intros hop Hhop. by apply Hof.
Qed.

Lemma prepared_keyed self request clock view input ranking prepared : keyed (md_data (so_market request)) ->
  prepared_by self request clock view input ranking prepared -> keyed (si_market input).
Proof.
  intros Hk Hby. destruct (py_market _ _ _ _ _ _ _ Hby) as (ids & ->). apply subset_keyed.
  by rewrite (read_market_guard _ _ _ (py_view _ _ _ _ _ _ _ Hby)).
Qed.
(** *** What the exchange starts with *)

(** The snapshot answers for the hops of the paths as the market does. *)
Definition in_step view (input : SolveInput) : Prop := forall path a b id, path ∈ si_ordered input -> (a, b, id) ∈ path_iter path ->
  tokens (si_market input) !! a = tokens (view_guard view) !! a /\ tokens (si_market input) !! b = tokens (view_guard view) !! b /\
  simulation_states (si_market input) !! id = view_get_simulation_state view id.

Lemma full_outcomes_exact (input : SolveInput) dirs times path_ix paths cache : cache_exact (market_pools (si_market input)) dirs cache ->
  cache_exact (market_pools (si_market input)) dirs (full_outcomes input times path_ix paths cache).1.
Proof.
  revert path_ix cache. induction paths as [|path paths IH]; intros path_ix cache Hcache; cbn [full_outcomes]; [done|].
  destruct (expired _ _); [done|]. destruct (path_reuses_component path).
  - specialize (IH (S path_ix) cache Hcache). by destruct (full_outcomes _ _ _ _ _).
  - destruct (wf_simulate_path _ _ _ _ _) as [cache1 paid] eqn:Hs. unfold wf_simulate_path in Hs.
    destruct (cached_hops_exact _ _ _ _ _ _ _ _ _ Hcache Hs) as [Hcache1 _]. specialize (IH (S path_ix) cache1 Hcache1).
    by destruct (full_outcomes _ _ _ _ _).
Qed.

(** What the ranking leaves is what the snapshot's pools answered. *)
Lemma prepared_cache self request clock view input ranking prepared paths : TokenGraphLaws.graph_ok (so_graph request) ->
  prepared_by self request clock view input ranking prepared -> in_step view (su_input prepared) ->
  Forall (fun path => path ∈ si_ordered (su_input prepared)) paths ->
  cache_exact (market_pools (si_market (su_input prepared))) (crossed paths) (su_cache prepared).
Proof.
  intros Hgraph Hby Hstep Hpaths. pose proof (py_ranking _ _ _ _ _ _ _ Hby) as Hrank. unfold rank_at_full_amount in Hrank.
  assert (si_market (su_input prepared) = si_market input) as Hmarket by by destruct (py_input _ _ _ _ _ _ _ Hby) as (ordered & -> & _).
  assert (cache_exact (market_pools (si_market input)) (crossed paths) (discovery self request view clock).1) as Hcache.
  { destruct (discovery_spec self request view clock (crossed paths) Hgraph) as [Hview _]. intros direction sa a r Hdir Hsa Hin.
    specialize (Hview direction sa a r Hdir Hsa Hin). rewrite <- Hview. destruct Hdir as (path & Hp & Hhop). rewrite Forall_forall in Hpaths.
    destruct (Hstep path _ _ _ (Hpaths _ Hp) Hhop) as (Ha & Hb & Hs). rewrite Hmarket in Ha, Hb, Hs.
    unfold market_pools, view_pools, wf_simulate_hop, swap_between. by rewrite Ha, Hb, Hs. }
  pose proof (full_outcomes_exact input (crossed paths) (ck_rank clock) 0 (si_ordered input) _ Hcache) as Hok. rewrite Hmarket.
  destruct (full_outcomes _ _ _ _ _) as [cache outcomes]. by injection Hrank as <- _.
Qed.
End solve.

(** ** What the algorithm promises *)

Section worker.
Context `{TychoGas} `{!Messages} `{!TychoSwaps} `{!SplitMessages} `{NodeGraph (list (EdgeData DepthAndPrice))}.
Context (NATIVE_WRAP_COMPONENT : ComponentId).
Context (tie_order : list (NodeIndex * nat) -> list (NodeIndex * nat)) (hash_order : list NodeIndex -> list NodeIndex).
Implicit Types (self : WaterFillAlgorithm) (request : SolveParts (TopologyGraph (D:=DepthAndPrice))) (clock : SolveClock).

Lemma path_hops_unsplit market chain hops chain' : path_hops market chain hops = Ok chain' ->
  Forall (fun s => sw_split s = F64.zero) (sc_swaps chain) -> Forall (fun s => sw_split s = F64.zero) (sc_swaps chain').
Proof.
  revert chain. induction hops as [|[[a b] id] hops IH]; intros chain; cbn [path_hops]; [by intros [= <-]|].
  intros (chain1 & Hhop & Hrest)%bind_Ok Hall. apply (IH chain1 Hrest). unfold path_hop in Hhop.
  apply bind_Ok in Hhop as (ta & _ & Hhop). apply bind_Ok in Hhop as (tb & _ & Hhop). apply bind_Ok in Hhop as (component & _ & Hhop).
  apply bind_Ok in Hhop as (state & _ & Hhop). unfold swap_hop in Hhop. destruct (get_amount_out_guarded _ _ _ _); [|done]. injection Hhop as <-.
  cbn [sc_swaps]. apply Forall_app. split; [done|]. by repeat constructor.
Qed.

Lemma baseline_unsplit (input : SolveInput) path_ix result : baseline_of input path_ix = Some result ->
  Forall (fun s => sw_split s = F64.zero) (rt_swaps (rr_route result)) /\ rr_commitment result = None.
Proof.
  unfold baseline_of, simulate_pool_path. destruct (si_ordered input !! path_ix) as [path|]; [|done]. cbn [mbind option_bind].
  destruct (path_hops _ _ _) as [chain|e] eqn:Hhops; [|done]. cbn [mbind result_bind]. apply path_hops_unsplit in Hhops; [|constructor].
  unfold Route_new. destruct (sc_swaps chain) as [|s swaps]; [done|]. destruct (fetch_gas_price _); [|done]. cbn [mbind result_bind].
  intros [= <-]. by split.
Qed.

Definition wf_computation_requirements : ComputationRequirements :=
  match allow_stale requirements_none TOKEN_PRICES_ID with Ok r => r | Err _ => requirements_none end.

Definition water_fill_algorithm self (clock : SolveParts (TopologyGraph (D:=DepthAndPrice)) -> SolveClock)
    : WorkerAlgorithm (TopologyGraph (D:=DepthAndPrice)) := {|
  algorithm_name := "water_fill";
  SUPPORTS_REQUIRED_TOKENS := true;
  algorithm_timeout := wf_timeout self;
  computation_requirements := wf_computation_requirements;
  algorithm_find_best_route := fun request =>
    wf_find_best_route NATIVE_WRAP_COMPONENT tie_order hash_order self request (clock request) |}.

(** What the worker's theorems ask of an algorithm; the graph may be any. *)
Lemma water_fill_laws self (clock : SolveParts (TopologyGraph (D:=DepthAndPrice)) -> SolveClock) : AlgorithmLaws (H1 := water_fill_algorithm self clock).
Proof.
  assert (forall request, Order_is_sell (so_order request) = false ->
    wf_find_best_route NATIVE_WRAP_COMPONENT tie_order hash_order self request (clock request) = Ret (Err AE_ExactOutNotSupported)) as Hbuy
    by (intros request Hsell; unfold wf_find_best_route; by rewrite Hsell).
  split; cbn; intros request.
  - destruct (Order_is_sell (so_order request)) eqn:Hsell; [|rewrite Hbuy by done; by eexists].
    destruct (wf_find_best_route_spec NATIVE_WRAP_COMPONENT tie_order hash_order self request (clock request) Hsell) as (prepared & answer & _ & -> & _).
    by eexists.
  - intros result Hret. destruct (Order_is_sell (so_order request)) eqn:Hsell; [|by rewrite Hbuy in Hret].
    destruct (wf_find_best_route_spec NATIVE_WRAP_COMPONENT tie_order hash_order self request (clock request) Hsell)
      as (prepared & answer & Hsetup & Hr & Hanswer). rewrite Hr in Hret. injection Hret as ->.
    destruct prepared as [prepared|e]; [|done]. destruct Hanswer as (candidates & [_ Hcs] & [[Hsingle _]|(best & Hin & -> & _)]).
    + destruct (setup_spec NATIVE_WRAP_COMPONENT tie_order hash_order self request (clock request)) as (r & Hs & Hby). rewrite Hsetup in Hs. injection Hs as <-.
      destruct (Hby prepared eq_refl) as (view & input & ranking & Hprep). pose proof (py_single _ _ _ _ _ _ _ _ _ _ Hprep) as Hof.
      rewrite Hsingle in Hof. destruct Hof as [(ix & _ & Hb) _]. apply baseline_unsplit in Hb as [Hsplits ?]. split; [|done].
      eapply Forall_impl; [exact Hsplits|]. cbn. by intros s ->.
    + rewrite Forall_forall in Hcs. destruct (Hcs best Hin) as (allocations & [_ Hbuild _ _]).
      destruct (split_swaps _ _ _ _ Hbuild) as [Hswaps _]. split; [|done]. eapply Forall_impl; [exact Hswaps|]. by intros s (hop & _ & _ & _ & _ & ?).
Qed.
End worker.

(** ** The properties *)

Section theorems.
Context `{TychoGas} `{!Messages} `{!TychoSwaps} `{!SplitMessages}.
Implicit Types (self : WaterFillAlgorithm) (input : SolveInput) (paths : list WFPath) (clock : SolveClock).

(** C19: Remembering what a path would pay for the next chunk changes nothing: both passes hand out the
    chunks as they would if they simulated every path again for every chunk, though the disjoint one
    only forgets the path it pours into, and the shared one the paths that cross a pool it moved. *)
Theorem remembered_marginals_exact self input (subset : list nat) (num_chunks : nat) (gate : bool) (times : nat -> N) :
  disjoint_waterfill input subset num_chunks gate times = fresh_disjoint_waterfill input subset num_chunks gate times /\
  fillspill_waterfill self input subset num_chunks gate times = fresh_fillspill_waterfill self input subset num_chunks gate times.
Proof. split; [apply disjoint_waterfill_fresh|apply fillspill_waterfill_fresh]. Qed.

(** C17: In the fine disjoint pass, whose gate is off, giving each chunk to the path that pays most
    for it is optimal for an order of a whole number of chunks: when no path pays more for a chunk than
    for the one before it, no other way to hand out as many chunks pays more in total. The
    pass only hands out fewer chunks than asked when time runs out or no path pays for another.
    With a remainder, which the first chunk carries, it need not be: see
    [remainder_defeats_greedy]. *)
Theorem waterfill_greedy_optimal input (subset : list nat) paths (num_chunks : nat) (times : nat -> N) (chunk : N)
    (Hpaths : paths_at input subset = Ret paths) (Hamount : order_amount (si_order input) = chunk * N.of_nat (Nat.max num_chunks 1))
    (Hchunk : chunk <> 0) (Hdiminishing : Forall (diminishing (si_market input) chunk) paths) :
  exists counts total, disjoint_waterfill input subset num_chunks false times = Ret (Some (amounts_of chunk counts)) /\
    length counts = length paths /\ (sum_list counts <= Nat.max num_chunks 1)%nat /\
    ((sum_list counts < Nat.max num_chunks 1)%nat -> stopped input chunk paths times counts) /\
    total_out (si_market input) chunk paths counts = Some total /\
    forall counts' total', length counts' = length paths -> sum_list counts' = sum_list counts ->
      total_out (si_market input) chunk paths counts' = Some total' -> total' <= total.
Proof.
  pose proof (fresh_disjoint_poured input chunk paths times (Nat.max num_chunks 1) 0 _ _ Hdiminishing (pour_start input chunk paths)) as Hpour.
  destruct Hpour as (counts & committed & Hrun & Hok & Hsum & Hstop). destruct (pour_total input chunk paths _ _ Hok) as (total & Htotal).
  exists counts, total. pose proof (paths_at_length _ _ _ Hpaths) as Hlen.
  assert (sum_list (replicate (length paths) O) = O) as Hzero by (clear; induction (length paths) as [|n IH]; [done|exact IH]).
  rewrite Hzero in Hsum, Hstop. rewrite amounts_of_start in Hrun. split_and!; [|apply Hok|exact Hsum|exact Hstop|exact Htotal|].
  - rewrite disjoint_waterfill_fresh. unfold fresh_disjoint_waterfill. cbv zeta. rewrite Hamount, N.div_mul, N.Div0.mod_mul by lia.
    rewrite (proj2 (N.eqb_neq _ _) Hchunk), Hpaths. cbn [mbind outcome_bind negb]. rewrite <- Hlen. by rewrite Hrun.
  - intros counts' total' Hl Hs Ht. eapply no_regret_best; [exact Hdiminishing|apply Hok|apply Hok|exact Hl|exact Hs|exact Htotal|exact Ht].
Qed.

Section solves.
Context `{NodeGraph (list (EdgeData DepthAndPrice))}.
Context (NATIVE_WRAP_COMPONENT : ComponentId).
Context (tie_order : list (NodeIndex * nat) -> list (NodeIndex * nat)) (hash_order : list NodeIndex -> list NodeIndex).
Implicit Types (request : SolveParts (TopologyGraph (D:=DepthAndPrice))) (prepared : SetupResult) (view : MarketDataView).

(** C18: The exchange between paths ends, keeps the order whole and never lowers what the paths net:
    whatever time it has, started with what a solve remembers of a snapshot in step with the market,
    it returns amounts of the same sum that net together, as the market stands, no less. *)
Theorem exchange_improves self request clock prepared view (active : list nat) (fine_chunks : nat) (alloc : list N) (times : nat -> N)
    (Hgraph : TokenGraphLaws.graph_ok (so_graph request))
    (Hsetup : setup NATIVE_WRAP_COMPONENT tie_order hash_order self request clock = Ret (Ok prepared))
    (Hview : read_market (so_market request) (so_label request) = Ok view) (Hstep : in_step view (su_input prepared))
    (Hactive : indexes (su_input prepared) active) (Halloc : length alloc = length active) :
  exists paths cache alloc', paths_at (su_input prepared) active = Ret paths /\
    disjoint_exchange (su_input prepared) active fine_chunks alloc (su_cache prepared) times = Ret (cache, alloc') /\
    length alloc' = length alloc /\ total_of alloc' = total_of alloc /\
    forall nets, plain_nets (su_input prepared) paths alloc = Some nets ->
      exists nets', plain_nets (su_input prepared) paths alloc' = Some nets' /\ (sum_Z nets <= sum_Z nets')%Z.
Proof.
  destruct (setup_spec NATIVE_WRAP_COMPONENT tie_order hash_order self request clock) as (r & Hr & Hby). rewrite Hsetup in Hr. injection Hr as <-.
  destruct (Hby prepared eq_refl) as (view' & input & ranking & Hprep).
  assert (view' = view) as -> by (pose proof (py_view _ _ _ _ _ _ _ _ _ _ Hprep); congruence).
  destruct (paths_at_ret _ _ Hactive) as (paths & Hpaths & Hlen & Hin).
  pose proof (prepared_cache _ _ _ _ _ _ _ _ _ _ paths Hgraph Hprep Hstep Hin) as Hcache.
  destruct (disjoint_exchange_ok (su_input prepared) active fine_chunks alloc (su_cache prepared) times paths Hpaths ltac:(lia) Hcache)
    as (cache & alloc' & Hrun & _ & Hl & Hsum & Hnets).
  by exists paths, cache, alloc'.
Qed.

(** C15: A solve never panics and never does worse than the best single path: it answers with that
    path or, where one nets strictly more, with the split that nets most of those it assembled, each
    from candidate paths simulated on the snapshot; the best single path is one that carries the
    whole order and nets no less than any of the first eight of the ranking. *)
Theorem water_fill_never_worse self request clock :
  exists answer, wf_find_best_route NATIVE_WRAP_COMPONENT tie_order hash_order self request clock = Ret answer /\
    if Order_is_sell (so_order request)
    then exists r, setup NATIVE_WRAP_COMPONENT tie_order hash_order self request clock = Ret r /\
      match r with
      | Err e => answer = Err e
      | Ok prepared => exists view input ranking candidates,
          prepared_by NATIVE_WRAP_COMPONENT tie_order hash_order self request clock view input ranking prepared /\
          tried self prepared clock candidates /\ answer_of (su_input prepared) (su_best_single prepared) candidates answer
      end
    else answer = Err AE_ExactOutNotSupported.
Proof.
  destruct (Order_is_sell (so_order request)) eqn:Hsell; [|eexists; split; [unfold wf_find_best_route; by rewrite Hsell|done]].
  destruct (wf_find_best_route_spec NATIVE_WRAP_COMPONENT tie_order hash_order self request clock Hsell) as (prepared & answer & Hsetup & Hr & Hanswer).
  exists answer. split; [exact Hr|]. exists prepared. split; [exact Hsetup|]. destruct prepared as [prepared|e]; [|done].
  destruct (setup_spec NATIVE_WRAP_COMPONENT tie_order hash_order self request clock) as (r & Hs & Hby). rewrite Hsetup in Hs. injection Hs as <-.
  destruct (Hby prepared eq_refl) as (view & input & ranking & Hprep), Hanswer as (candidates & ? & ?). by exists view, input, ranking, candidates.
Qed.

(** C16: A split that a solve returns takes the whole order from its input token through hops the
    request allows, visits every token the request asks for and nets what it pays less its gas, more
    than the best single path; where the route is valid it ends at the order's output token, and
    replaying it on the snapshot pays what its swaps say. *)
Theorem water_fill_split_sound self request clock prepared (result : RouteResult)
    (Hgraph : TokenGraphLaws.graph_ok (so_graph request)) (Hkeyed : keyed (md_data (so_market request)))
    (Hends : order_token_in (so_order request) <> order_token_out (so_order request))
    (Hsetup : setup NATIVE_WRAP_COMPONENT tie_order hash_order self request clock = Ret (Ok prepared))
    (Hsolve : wf_find_best_route NATIVE_WRAP_COMPONENT tie_order hash_order self request clock = Ret (Ok result))
    (Hsplit : su_best_single prepared <> Some result) :
  split_answer request (su_input prepared) result /\
  forall single, su_best_single prepared = Some single -> (rr_net_amount_out single < rr_net_amount_out result)%Z.
Proof.
  destruct (Order_is_sell (so_order request)) eqn:Hsell; [|unfold wf_find_best_route in Hsolve; by rewrite Hsell in Hsolve].
  destruct (wf_find_best_route_spec NATIVE_WRAP_COMPONENT tie_order hash_order self request clock Hsell) as (r & answer & Hs & Hr & Hanswer).
  rewrite Hsetup in Hs. injection Hs as <-. rewrite Hsolve in Hr. injection Hr as <-.
  destruct (setup_spec NATIVE_WRAP_COMPONENT tie_order hash_order self request clock) as (r & Hs & Hby). rewrite Hsetup in Hs. injection Hs as <-.
  destruct (Hby prepared eq_refl) as (view & input & ranking & Hprep).
  pose proof (prepared_keyed _ _ _ _ _ _ _ _ _ _ Hkeyed Hprep) as Hk. pose proof (prepared_paths _ _ _ _ _ _ _ _ _ _ Hgraph Hends Hprep) as Hpaths.
  pose proof (py_order _ _ _ _ _ _ _ _ _ _ Hprep) as Horder.
  destruct (py_input _ _ _ _ _ _ _ _ _ _ Hprep) as (ordered & Hin & Hall). rewrite Hin in Hanswer |- *.
  destruct Hanswer as (candidates & [_ Hcs] & [[Hsingle _]|(best & Hbest & -> & _ & Hmore)]); [done|]. split; [|exact Hmore].
  rewrite Forall_forall in Hcs. specialize (Hcs best Hbest). rewrite Hin in Hcs.
  eapply assembled_sound; [exact Hk|exact Horder|exact Hends| |exact Hcs].
  eapply Forall_impl; [exact Hall|]. cbn beta. intros path Hp. rewrite Forall_forall in Hpaths. by apply Hpaths.
Qed.
End solves.
End theorems.

(** ** Examples *)

Module WaterFillSample.
#[local] Open Scope string_scope.
#[local] Existing Instances MarketSample.tycho MarketSample.tycho_market MostLiquidSample.gas MostLiquidSample.messages MostLiquidSample.graph.

(** The nodes and the edges of the finite maps. *)
Program Definition node_graph : NodeGraph (list (EdgeData DepthAndPrice)) := {|
  node_indices := fun g : MapGraph.t (list (EdgeData DepthAndPrice)) => merge_sort le (elements (dom (MapGraph.nodes g)));
  edges_from := fun (g : MapGraph.t (list (EdgeData DepthAndPrice))) a => (fun kv => (kv.2.1.2, kv.2.2)) <$> MapGraph.out g a;
|}.
Next Obligation. intros g i. cbn. rewrite merge_sort_Permutation, elem_of_elements. apply elem_of_dom. Qed.
Next Obligation.
  intros g a b w. cbn. rewrite list_elem_of_fmap. split.
  - intros ([e [[x y] z]] & [= -> ->] & [Hin%elem_of_map_to_list Ha%bool_decide_eq_true]%elem_of_filterb).
    cbn in *. subst x. by exists e.
  - intros (e & He). exists (e, (a, b, w)). split; [done|]. apply elem_of_filterb.
    split; [by apply elem_of_map_to_list|by apply bool_decide_eq_true].
Qed.
#[local] Existing Instance node_graph.

(** A pool's state is what it has taken; the more it has, the less it pays. *)
Definition pays (taken amount : N) : N := amount * (100000 - 2 * taken - amount).

Definition swaps : TychoSwaps := {|
  get_amount_out := fun (state : ProtocolSim) amount _ _ =>
    Ret (Ok (@Build_GetAmountOutResult MarketSample.tycho (pays (state : N) amount) 10 (((state : N) + amount)%N : N)));
  PANIC_MESSAGE := "panic" |}.
#[local] Existing Instance swaps.

(** Two pools between the same tokens, of which the second has taken some before. *)
Definition pools : list (ComponentId * (Address * Address) * N) :=
  [("ac1", (Sample.A, Sample.C), 0%N); ("ac2", (Sample.A, Sample.C), 1010%N)].

Definition request : SolveParts (TopologyGraph (D:=DepthAndPrice)) := MostLiquidSample.request pools 25600 ∅.

Definition algorithm : WaterFillAlgorithm := {|
  wf_query := {| min_hops := 1; max_hops := 2; connector_tokens := None |};
  wf_timeout := 100; wf_max_candidates := 100; wf_max_paths := 4 |}.

(** A clock that never moves, and one on which nothing is poured. *)
Definition still : SolveClock := {|
  ck_level := fun _ => 0; ck_edge := fun _ _ _ => 0; ck_rank := fun _ => 0; ck_coarse := fun _ => 0; ck_fine := fun _ => 0;
  ck_exchange := fun _ => 0; ck_probe := fun _ => 0; ck_spill_coarse := fun _ => 0; ck_spill_fine := fun _ => 0 |}.
Definition late : SolveClock := {|
  ck_level := fun _ => 0; ck_edge := fun _ _ _ => 0; ck_rank := fun _ => 0; ck_coarse := fun _ => 101; ck_fine := fun _ => 101;
  ck_exchange := fun _ => 101; ck_probe := fun _ => 101; ck_spill_coarse := fun _ => 101; ck_spill_fine := fun _ => 101 |}.

Definition prepare (clock : SolveClock) : outcome (result AlgorithmError SetupResult) :=
  setup GraphSample.WRAP (fun l => l) (fun l => l) algorithm request clock.

Definition split_messages : SplitMessages := {| show_split_plan_error := fun _ => "split" |}.
#[local] Existing Instance split_messages.

Definition solve (clock : SolveClock) : outcome (result AlgorithmError RouteResult) :=
  wf_find_best_route GraphSample.WRAP (fun l => l) (fun l => l) algorithm request clock.

Definition answer_of_solve (clock : SolveClock) : option (Z * list (ComponentId * N)) :=
  match solve clock with
  | Ret (Ok r) => Some (rr_net_amount_out r, (fun s => (sw_component_id s, sw_amount_in s)) <$> rt_swaps (rr_route r))
  | _ => None
  end.
End WaterFillSample.

Section examples.
Import WaterFillSample.
#[local] Open Scope string_scope.
#[local] Existing Instances MarketSample.tycho MarketSample.tycho_market MostLiquidSample.gas MostLiquidSample.messages MostLiquidSample.graph.
#[local] Existing Instances WaterFillSample.node_graph WaterFillSample.swaps WaterFillSample.split_messages.

(** The split nets more while there is time; once there is none for a chunk, the single path is left. *)
Example split_lost_to_the_clock :
  answer_of_solve still = Some (2206974030%Z, [("ac1", 13305%N); ("ac2", 12295%N)]) /\
  answer_of_solve late = Some (1904639990%Z, [("ac1", 25600%N)]).
Proof. split; by vm_compute. Qed.

Lemma sample_request_graph_ok : TokenGraphLaws.graph_ok (so_graph request).
Proof. exact (MostLiquidSample.graph_of_ok pools). Qed.

Lemma sample_pools_keyed : keyed (md_data (so_market request)).
Proof. apply map_Forall_to_list. by vm_compute; repeat constructor. Qed.

(** Whether the snapshot answers for the candidates' hops as the market does. *)
Definition in_step_check (view : MarketDataView) (input : SolveInput) : bool :=
  forallb (fun path => forallb (fun hop : Address * Address * ComponentId =>
    bool_decide ((tokens (si_market input) !! hop.1.1 : option string) = tokens (view_guard view) !! hop.1.1) &&
    bool_decide ((tokens (si_market input) !! hop.1.2 : option string) = tokens (view_guard view) !! hop.1.2) &&
    bool_decide ((simulation_states (si_market input) !! hop.2 : option N) = view_get_simulation_state view hop.2)) (path_iter path))
    (si_ordered input).

Lemma in_step_checked view input : in_step_check view input = true -> in_step view input.
Proof.
  unfold in_step_check. rewrite forallb_forall. intros Hall path a b id Hp Hhop. specialize (Hall path (proj1 (list_elem_of_In _ _) Hp)).
  rewrite forallb_forall in Hall. specialize (Hall (a, b, id) (proj1 (list_elem_of_In _ _) Hhop)). cbn [fst snd] in Hall.
  apply andb_prop in Hall as [[Ha Hb]%andb_prop Hs]. split_and!; by eapply bool_decide_eq_true_1.
Qed.

Lemma exchange_improves_witness : exists prepared paths cache alloc', prepare still = Ret (Ok prepared) /\
  paths_at (su_input prepared) [0%nat; 1%nat] = Ret paths /\
  disjoint_exchange (su_input prepared) [0%nat; 1%nat] 256 [25000%N; 600%N] (su_cache prepared) (fun _ => 0%N) = Ret (cache, alloc') /\
  total_of alloc' = 25600%N /\ exists nets', plain_nets (su_input prepared) paths alloc' = Some nets' /\ (1933427980 <= sum_Z nets')%Z.
Proof.
  assert (match prepare still with
    | Ret (Ok prepared) => in_step_check (read (so_market request)) (su_input prepared) && (2 =? length (si_ordered (su_input prepared)))%nat &&
        match paths_at (su_input prepared) [0%nat; 1%nat] with
        | Ret paths => bool_decide (plain_nets (su_input prepared) paths [25000%N; 600%N] = Some [1874999990%Z; 58427990%Z])
        | Panic => false end
    | _ => false end = true) as Hs by by vm_compute.
  destruct (prepare still) as [[prepared|e]|] eqn:Hp; [|discriminate Hs..].
  apply andb_prop in Hs as [[Hstep%in_step_checked Hlen%Nat.eqb_eq]%andb_prop Hnets].
  assert (read_market (so_market request) (so_label request) = Ok (read (so_market request))) as Hview by reflexivity.
  pose proof Hp as Hsetup. unfold prepare in Hsetup.
  destruct (exchange_improves GraphSample.WRAP (fun l => l) (fun l => l) algorithm request still prepared (read (so_market request))
    [0%nat; 1%nat] 256 [25000%N; 600%N] (fun _ => 0%N) sample_request_graph_ok Hsetup Hview Hstep) as (paths & cache & alloc' & Hpaths & Hrun & _ & Hsum & Himp).
  - unfold indexes. rewrite <- Hlen. repeat constructor.
  - reflexivity.
  - rewrite Hpaths in Hnets. apply bool_decide_eq_true in Hnets. destruct (Himp _ Hnets) as (nets' & Hn & Hle).
    exists prepared, paths, cache, alloc'. split; [reflexivity|]. split; [exact Hpaths|]. split; [exact Hrun|]. split; [rewrite Hsum; reflexivity|].
    exists nets'. split; [exact Hn|]. exact Hle.
Defined.

Lemma water_fill_split_sound_witness : exists prepared result, prepare still = Ret (Ok prepared) /\ solve still = Ret (Ok result) /\
  split_answer request (su_input prepared) result /\ (1904639990 < rr_net_amount_out result)%Z /\
  replay_route (rr_route result) (si_market (su_input prepared)) = Ret (Ok {| rp_amount_out := 2206974050; rp_gas := 20 |}).
Proof.
  assert (match prepare still, solve still with
    | Ret (Ok prepared), Ret (Ok result) =>
        match su_best_single prepared with
        | Some single => (rr_net_amount_out single =? 1904639990)%Z && (rr_net_amount_out single <? rr_net_amount_out result)%Z
        | None => false end
        && match Route_validate (rr_route result) with Ret (Ok tt) => true | _ => false end && splits_readable (rt_swaps (rr_route result))
        && (Route_amount_out (rr_route result) Sample.C =? 2206974050)%N && (total_gas (rr_route result) =? 20)%N
    | _, _ => false end = true) as Hs by by vm_compute.
  destruct (prepare still) as [[prepared|e]|] eqn:Hp; [|discriminate Hs..].
  destruct (solve still) as [[result|e]|] eqn:Hr; [|discriminate Hs..].
  apply andb_prop in Hs as [[[[Hsingle Hvalid]%andb_prop Hread]%andb_prop Hout%N.eqb_eq]%andb_prop Hgas%N.eqb_eq].
  destruct (su_best_single prepared) as [single|] eqn:Hbest; [|discriminate Hsingle]. apply andb_prop in Hsingle as [Hnet%Z.eqb_eq Hlt%Z.ltb_lt].
  pose proof Hp as Hsetup. unfold prepare in Hsetup. pose proof Hr as Hsolve. unfold solve in Hsolve.
  destruct (water_fill_split_sound GraphSample.WRAP (fun l => l) (fun l => l) algorithm request still prepared result sample_request_graph_ok sample_pools_keyed)
    as [Hsplit Hmore]; [discriminate|exact Hsetup|exact Hsolve|rewrite Hbest; intros [= ->]; exact (Z.lt_irrefl _ Hlt)|].
  exists prepared, result. split; [reflexivity|]. split; [reflexivity|]. split; [exact Hsplit|]. split; [rewrite <- Hnet; exact Hlt|].
  destruct (Route_validate (rr_route result)) as [[[]|e]|] eqn:Hv; [|discriminate Hvalid..].
  destruct (sa_valid _ _ _ Hsplit Hv) as [_ Hreplay]. rewrite (Hreplay Hread). cbn [request MostLiquidSample.request so_order MostLiquidSample.order order_token_out].
  by rewrite Hout, Hgas.
Defined.
(** *** Diminishing pools *)

Definition pool_path (id : ComponentId) : WFPath := {| path_tokens := [Sample.A; Sample.C]; path_edge_data := [EdgeData_new id] |}.

Definition sample_input : SolveInput := {|
  si_ordered := [pool_path "ac1"; pool_path "ac2"]; si_market := MostLiquidSample.market pools; si_gas_price := 1; si_token_prices := None;
  si_order := MostLiquidSample.order 4000; si_timeout := 100 |}.

Lemma pool_step c (taken : ProtocolSim) (states : gmap ComponentId ProtocolSim) amount :
  simulation_states (si_market sample_input) !! c = Some taken ->
  simulate_step (pool_path c) (si_market sample_input) states amount =
    let state := default taken (states !! c) : ProtocolSim in
    Some {| st_amount_out := pays (state : N) amount; st_gas := 10; st_new_states := [(c, (((state : N) + amount)%N : ProtocolSim))] |}.
Proof.
  intros Htaken. unfold simulate_step, path_iter, pool_path. cbn [path_tokens path_edge_data fmap list_fmap windows2 tail zip zip_with step_hops
    ed_component_id EdgeData_new]. unfold overlay_hop, hop_state. rewrite lookup_empty, Htaken.
  replace (tokens (si_market sample_input) !! Sample.A) with (Some (Sample.A : Token)) by reflexivity.
  replace (tokens (si_market sample_input) !! Sample.C) with (Some (Sample.C : Token)) by reflexivity.
  destruct (states !! c) as [state|]; reflexivity.
Qed.

(** After some chunks the pool has taken them. *)
Lemma pool_poured c (taken : ProtocolSim) (chunk : N) count : simulation_states (si_market sample_input) !! c = Some taken ->
  exists states out, poured (si_market sample_input) chunk (pool_path c) count = Some (states, out) /\
    (default taken (states !! c) : N) = (taken : N) + chunk * N.of_nat count.
Proof.
  intros Htaken. induction count as [|count (states & out & Hp & Hs)]; cbn [poured]; [exists ∅, 0; split; [done|]; rewrite lookup_empty; cbn; by rewrite N.mul_0_r, N.add_0_r|].
  rewrite Hp. cbn [mbind option_bind]. rewrite (pool_step c taken states chunk Htaken). cbn [mbind option_bind st_new_states st_amount_out].
  eexists _, _. split; [reflexivity|]. unfold commit_states. cbn [fold_left fst snd]. rewrite lookup_insert_eq. cbn [default id]. rewrite Hs. lia.
Qed.

Lemma pool_diminishing c (taken : ProtocolSim) (chunk : N) : simulation_states (si_market sample_input) !! c = Some taken ->
  diminishing (si_market sample_input) chunk (pool_path c).
Proof.
  intros Htaken count a b. unfold marginal. destruct (pool_poured c taken chunk count Htaken) as (states & out & -> & Hs).
  destruct (pool_poured c taken chunk (S count) Htaken) as (states' & out' & -> & Hs'). cbn [mbind option_bind].
  rewrite !(pool_step c taken _ chunk Htaken), Hs, Hs'. cbn [fmap option_fmap option_map st_amount_out]. intros [= <-] [= <-].
  unfold pays. apply N.mul_le_mono_l. lia.
Qed.

Lemma waterfill_greedy_optimal_witness : exists counts total,
  disjoint_waterfill sample_input [0%nat; 1%nat] 4 false (fun _ => 0) = Ret (Some (amounts_of 1000 counts)) /\
  total_out (si_market sample_input) 1000 [pool_path "ac1"; pool_path "ac2"] counts = Some total /\
  forall counts' total', length counts' = 2%nat -> sum_list counts' = sum_list counts ->
    total_out (si_market sample_input) 1000 [pool_path "ac1"; pool_path "ac2"] counts' = Some total' -> total' <= total.
Proof.
  destruct (waterfill_greedy_optimal sample_input [0%nat; 1%nat] [pool_path "ac1"; pool_path "ac2"] 4 (fun _ => 0) 1000)
    as (counts & total & Hrun & _ & _ & _ & Htotal & Hbest).
  - reflexivity.
  - reflexivity.
  - discriminate.
  - constructor; [apply (pool_diminishing "ac1" (0%N : N)); reflexivity|constructor; [apply (pool_diminishing "ac2" (1010%N : N)); reflexivity|constructor]].
  - exists counts, total. split; [exact Hrun|]. split; [exact Htotal|exact Hbest].
Defined.
End examples.

Section remainder.
Import WaterFillSample.
#[local] Open Scope string_scope.
#[local] Existing Instances MarketSample.tycho MarketSample.tycho_market MostLiquidSample.gas MostLiquidSample.messages.

(** A pool that pays 100 a unit for its first five and nothing more, or, from a state of 1000 on,
    82 a unit throughout: neither ever pays more for a unit than for the one before. *)
Definition kinked (taken amount : N) : N :=
  if (taken <? 1000)%N then 100 * (N.min 5 (taken + amount) - N.min 5 taken) else 82 * amount.

Definition kinked_swaps : TychoSwaps := {|
  get_amount_out := fun (state : ProtocolSim) amount _ _ =>
    Ret (Ok (@Build_GetAmountOutResult MarketSample.tycho (kinked (state : N) amount) 10 (((state : N) + amount)%N : N)));
  PANIC_MESSAGE := "panic" |}.
#[local] Existing Instance kinked_swaps.

Definition kinked_input : SolveInput := {|
  si_ordered := [pool_path "steep"; pool_path "flat"];
  si_market := MostLiquidSample.market [("steep", (Sample.A, Sample.C), 0%N); ("flat", (Sample.A, Sample.C), 1000%N)];
  si_gas_price := 1; si_token_prices := None; si_order := MostLiquidSample.order 11; si_timeout := 100 |}.

(** What a split of the order pays. *)
Definition kinked_total (steep flat : N) : option N :=
  total_of <$> mapM (fun leg : WFPath * N => st_amount_out <$> simulate_step leg.1 (si_market kinked_input) ∅ leg.2)
    [(pool_path "steep", steep); (pool_path "flat", flat)].

(** The order of 11 goes out in chunks of 6 and 5. The steep pool wins the first, larger one and wastes
    a unit of it; handing out the same two chunks the other way round pays more. *)
Example remainder_defeats_greedy :
  disjoint_waterfill kinked_input [0%nat; 1%nat] 2 false (fun _ => 0) = Ret (Some [6; 5]) /\
  kinked_total 6 5 = Some 910 /\ kinked_total 5 6 = Some 992.
Proof. by vm_compute. Qed.
End remainder.
