(* ===== verification/TokenPrices.v ===== *)
(** * TokenPrices: token prices relative to the gas token

    [fynd-core/src/derived/computations/token_gas_price.rs] and the gas token of
    [types/constants.rs]. A pricing pass buys every selected token with a probe of the gas
    token, sells what it bought back, and keeps the mean of the two rates; the history of the
    passes decides which tokens the next one attempts.

    A pass's state is split into what the pass never changes and what its steps thread through. The
    clock is the readings the code takes, each since the deadline was set; a relaxation has the
    clock of its run. A hash set is walked in the order of [walk_order], which also stands for
    the order an unstable sort leaves equal keys in; the map of queued tokens is walked in key
    order, which its result does not depend on. The mutex around the history is explicit
    state. The warnings about price jumps, and what else is only logged, are left out. *)

From stdpp Require Import prelude gmap sets strings list sorting.
From Stdlib Require Import NArith ZArith Lia.
From S2P Require Import Prelude F64 Types Route Quote Encoding Tracker DerivedStore SpotPriceComputation Schedule Manager MarketData.
From S2P Require Import SpotPricePipeline SwapCache Algorithm StableGraph TokenGraph Paths TokenGraphManager PetgraphManager.
From S2P Require Import FallbackPools Admission BellmanFord.

#[local] Open Scope N_scope.

(** ** The gas token *)

Record GasTokenConfig := {
  gt_address : Address;
  gt_probe_amount : N;
  gt_routable_per_native_unit : Price;
}.

Definition GasTokenConfig_wrapper (address : Address) : GasTokenConfig := {|
  gt_address := address;
  gt_probe_amount := 10 ^ 18;
  gt_routable_per_native_unit := {| price_numerator := 1; price_denominator := 1 |} |}.

Definition to_native_units (gas_token : GasTokenConfig) (rate : Price) : Price :=
  let scale := gt_routable_per_native_unit gas_token in {|
  price_numerator := price_numerator rate * price_numerator scale;
  price_denominator := price_denominator rate * price_denominator scale |}.

Definition to_routable_units (gas_token : GasTokenConfig) (price : Price) : Price :=
  let scale := gt_routable_per_native_unit gas_token in {|
  price_numerator := price_numerator price * price_denominator scale;
  price_denominator := price_denominator price * price_numerator scale |}.

(** ** Data *)

Abbreviation Adjacency := (gmap NodeIndex (list (NodeIndex * ComponentId))).

Inductive PoolFlagReason := SpotPriceFailed | SpotProductOutOfRange | SwapFailed | ZeroOutput.

Record PriceRoute := {
  pr_components : list ComponentId;
  pr_buy_amount_out : N;
  pr_sell_amount_out : N;
}.

Record PricedToken := { pt_entry : TokenPriceEntry; pt_route : PriceRoute }.

Inductive TokenPricingOutcome :=
| Priced (priced : PricedToken)
| PricingFailed (error : FailedItemError)
| Unattempted
| Unreachable.

Inductive SellSolveBuyLeg :=
| Trusted (route : ReachedToken)
| ThroughFlaggedPool (route : ReachedToken).

Inductive ReverseSellOutcome :=
| Sold (sell_out : N)
| FlaggedPool (component_id : ComponentId) (reason : PoolFlagReason)
| MissingHopData
| LowSellOut.

Record QueuedTokens := {
  on_flagged_routes : gmap Address ReachedToken;
  for_sell_solve : gmap Address SellSolveBuyLeg;
}.

Definition QueuedTokens_default : QueuedTokens := {| on_flagged_routes := ∅; for_sell_solve := ∅ |}.

Record PricingPassOutcome := {
  po_prices : gmap Address TokenPriceEntry;
  po_routes : gmap Address PriceRoute;
  po_block : N;
  po_failed_items : list FailedItem;
  po_unattempted : gset Address;
  po_new_flagged_components : gset ComponentId;
}.

(** What a computation is configured with; durations are nanoseconds. *)
Record TokenGasPriceComputation := {
  tg_gas_token_config : GasTokenConfig;
  tg_max_hops : nat;
  tg_pass_budget : N;
  tg_max_tokens_per_pass : N;
  tg_max_sell_solves_per_pass : nat;
  tg_min_pass_interval : N;
  tg_min_sell_out_bps : N;
}.

Definition FLAGGED_POOL_PASSES : N := 100.
Definition MAX_PRICE_AGE_PASSES : N := 100.
Definition DEFAULT_PASS_BUDGET : N := 30 * 10 ^ 9.
Definition DEFAULT_MIN_PASS_INTERVAL : N := 10 ^ 9.
Definition DEFAULT_MAX_TOKENS_PER_PASS : N := 500.
Definition DEFAULT_MAX_SELL_SOLVES_PER_PASS : nat := 200.
Definition PRICE_BPS_DENOMINATOR : N := 10000.
Definition DEFAULT_MIN_SELL_OUT_BPS : N := 5000.
Definition PRICING_MAX_HOPS : nat := 2.

(** [Address::zero(20)]. *)
Definition zero_address : Address := String.string_of_list_ascii (replicate 20 Ascii.zero).

Definition TokenGasPriceComputation_default : TokenGasPriceComputation := {|
  tg_gas_token_config := GasTokenConfig_wrapper zero_address;
  tg_max_hops := PRICING_MAX_HOPS;
  tg_pass_budget := DEFAULT_PASS_BUDGET;
  tg_max_tokens_per_pass := DEFAULT_MAX_TOKENS_PER_PASS;
  tg_max_sell_solves_per_pass := DEFAULT_MAX_SELL_SOLVES_PER_PASS;
  tg_min_pass_interval := DEFAULT_MIN_PASS_INTERVAL;
  tg_min_sell_out_bps := DEFAULT_MIN_SELL_OUT_BPS |}.

Definition is_left_out_of_pricing `{TychoMarket} (component : ProtocolComponent) : bool :=
  is_pamm component || is_rfq_protocol (protocol_system_of component).

(** [VALID_SPOT_PRODUCT_RANGE.contains]. *)
Definition valid_spot_product (product : f64) : bool :=
  F64.leb (F64.div (F64.of_N 9) (F64.of_N 10)) product && F64.leb product (F64.div (F64.of_N 3) (F64.of_N 2)).

(** ** Prices *)

Definition build_priced_token (price : Price) (buy_leg : ReachedToken) (sell_out : N) : PricedToken :=
  let components := (fun hop : PathEdge => hop.2) <$> rt_hops buy_leg in {|
  pt_entry := {| tpe_price := price; tpe_path_components := list_to_set components |};
  pt_route := {| pr_components := components; pr_buy_amount_out := rt_amount_out buy_leg;
                 pr_sell_amount_out := sell_out |} |}.

Definition build_sell_rate_entry (buy_leg : ReachedToken) (sell_out : N) (gas_token : GasTokenConfig) : PricedToken :=
  build_priced_token
    (to_native_units gas_token {| price_numerator := rt_amount_out buy_leg; price_denominator := sell_out |})
    buy_leg sell_out.

Definition build_price_entry (computation : TokenGasPriceComputation) (buy_leg : ReachedToken) (sell_out : N) : PricedToken :=
  let gas_token := tg_gas_token_config computation in
  let probe_amount := gt_probe_amount gas_token in
  build_priced_token
    (to_native_units gas_token {|
       price_numerator := rt_amount_out buy_leg * (probe_amount + sell_out);
       price_denominator := 2 * probe_amount * sell_out |})
    buy_leg sell_out.

Definition extend_route (priced : PricedToken) (sell_route : list ComponentId) : PricedToken :=
  let entry := pt_entry priced in
  let route := pt_route priced in {|
  pt_entry := {| tpe_price := tpe_price entry;
                 tpe_path_components := tpe_path_components entry ∪ list_to_set sell_route |};
  pt_route := {| pr_components := pr_components route ++ sell_route; pr_buy_amount_out := pr_buy_amount_out route;
                 pr_sell_amount_out := pr_sell_amount_out route |} |}.

(** ** A pricing pass *)

(** The elapsed time each check of the deadline reads; the clock of each run of the algorithm. *)
Record PassClock := {
  pc_reverse_sell : nat -> N;
  pc_second_buy_pass : N;
  pc_sell_solve : nat -> N;
  pc_run : nat -> nat -> N;
}.

Section pass.
Context `{TychoGas} `{!Messages} `{!TychoSwaps} `{NodeGraph (EdgeData ())} (decimals : Token -> N) (integer_decode : f64 -> N * Z).
Context (spot_price : ProtocolSim -> Token -> Token -> result string f64).
(** How an address and an error of the algorithm print, and the id a new order gets. *)
Context (show_address : Address -> string) (show_algorithm_error : AlgorithmError -> string) (fresh_order_id : string).

(** What a pass never changes. *)
Record PricingPass := {
  pp_algorithm : BellmanFordAlgorithm;
  pp_graph : digraph;
  pp_computation : TokenGasPriceComputation;
  pp_full_adjacency : Adjacency;
  pp_earlier_flagged_components : gset ComponentId;
  pp_gas_node : NodeIndex;
  pp_hops_to_gas : gmap NodeIndex nat;
  pp_token_nodes : gmap Address NodeIndex;
}.

(** What its steps change; [ps_runs] counts the runs of the algorithm. *)
Record PassState := {
  ps_ctx : BellmanFordContext;
  ps_new_flagged_components : gset ComponentId;
  ps_spot_checks : gmap (ComponentId * NodeIndex * NodeIndex) (option PoolFlagReason);
  ps_buys_through_all_pools : option ReachOutcome;
  ps_runs : nat;
}.
Implicit Types (pass : PricingPass) (st : PassState) (token : Address) (clock : PassClock).

Definition check_spot_prices (sim : ProtocolSim) (token_in token_out : Token) : option PoolFlagReason :=
  match spot_price sim token_out token_in, spot_price sim token_in token_out with
  | Ok forward_spot, Ok reverse_spot =>
      if negb (valid_spot_product (F64.mul forward_spot reverse_spot)) then Some SpotProductOutOfRange else None
  | _, _ => Some SpotPriceFailed
  end.

Definition with_adj (ctx : BellmanFordContext) (adj : Adjacency) (token_in_node : NodeIndex) : BellmanFordContext := {|
  bc_token_in_node := token_in_node; bc_token_out_node := None; bc_adj := adj;
  bc_token_map := bc_token_map ctx; bc_market_data := bc_market_data ctx;
  bc_gas_price_wei := bc_gas_price_wei ctx; bc_token_prices := bc_token_prices ctx; bc_spot_prices := bc_spot_prices ctx;
  bc_node_address := bc_node_address ctx; bc_max_idx := bc_max_idx ctx; bc_scoring := bc_scoring ctx |}.

Definition PricingPassState_new (algorithm : BellmanFordAlgorithm) (graph : digraph) (ctx : BellmanFordContext)
    (computation : TokenGasPriceComputation) (earlier_flagged_components : gset ComponentId) : PricingPass * PassState :=
  let subgraph_components : gset ComponentId :=
    list_to_set (map_to_list (bc_adj ctx) ≫= fun entry => (fun edge => edge.2) <$> entry.2) in
  ({| pp_algorithm := algorithm; pp_graph := graph; pp_computation := computation;
      pp_full_adjacency := bc_adj ctx;
      pp_earlier_flagged_components := earlier_flagged_components ∩ subgraph_components;
      pp_gas_node := bc_token_in_node ctx;
      pp_hops_to_gas :=
        get_hops_to_reach graph (bc_token_in_node ctx) (bc_token_in_node ctx) (bf_max_hops algorithm) unconstrained;
      pp_token_nodes := list_to_map ((fun entry => (entry.2, entry.1)) <$> map_to_list (bc_node_address ctx)) |},
   {| ps_ctx := with_adj ctx ∅ (bc_token_in_node ctx); ps_new_flagged_components := ∅; ps_spot_checks := ∅;
      ps_buys_through_all_pools := None; ps_runs := 0 |}).

Definition build_adjacency_without pass (excluded : gset ComponentId) : Adjacency :=
  if decide (excluded = ∅) then pp_full_adjacency pass
  else List.filter (fun edge : NodeIndex * ComponentId => bool_decide (edge.2 ∉ excluded)) <$> pp_full_adjacency pass.

Definition flag st (component_id : ComponentId) : PassState := {|
  ps_ctx := ps_ctx st; ps_new_flagged_components := {[ component_id ]} ∪ ps_new_flagged_components st;
  ps_spot_checks := ps_spot_checks st; ps_buys_through_all_pools := ps_buys_through_all_pools st; ps_runs := ps_runs st |}.

(** The state after a run of the algorithm on [ctx]. *)
Definition ran st (ctx : BellmanFordContext) : PassState := {|
  ps_ctx := ctx; ps_new_flagged_components := ps_new_flagged_components st; ps_spot_checks := ps_spot_checks st;
  ps_buys_through_all_pools := ps_buys_through_all_pools st; ps_runs := S (ps_runs st) |}.

Definition run_buy_pass pass clock st (adjacency : Adjacency) : outcome (PassState * ReachOutcome) :=
  let ctx := with_adj (ps_ctx st) adjacency (pp_gas_node pass) in
  buys ← reach_from_source_token decimals integer_decode (pp_algorithm pass) ctx
           (gt_probe_amount (tg_gas_token_config (pp_computation pass))) (pc_run clock (ps_runs st));
  Ret (ran st ctx, buys).

(** *** Selling back along the buy route *)

Definition spot_check st (key : ComponentId * NodeIndex * NodeIndex) (sim : ProtocolSim) (token_in token_out : Token)
    : PassState * option PoolFlagReason :=
  match ps_spot_checks st !! key with
  | Some check => (st, check)
  | None =>
      let check := check_spot_prices sim token_in token_out in
      ({| ps_ctx := ps_ctx st; ps_new_flagged_components := ps_new_flagged_components st;
          ps_spot_checks := <[key := check]> (ps_spot_checks st);
          ps_buys_through_all_pools := ps_buys_through_all_pools st; ps_runs := ps_runs st |}, check)
  end.

Definition min_sell_out (computation : TokenGasPriceComputation) : N :=
  gt_probe_amount (tg_gas_token_config computation) * tg_min_sell_out_bps computation / PRICE_BPS_DENOMINATOR.

Fixpoint reverse_hops pass st (amount : N) (hops : list PathEdge) : PassState * ReverseSellOutcome :=
  match hops with
  | [] => (st, if amount <? min_sell_out (pp_computation pass) then LowSellOut else Sold amount)
  | (sold_node, bought_node, component_id) :: hops =>
      let ctx := ps_ctx st in
      match simulation_states (bc_market_data ctx) !! component_id, bc_token_map ctx !! bought_node,
            bc_token_map ctx !! sold_node with
      | Some sim, Some token_in, Some token_out =>
          let '(st, check) := spot_check st (component_id, sold_node, bought_node) sim token_in token_out in
          match check with
          | Some reason => (st, FlaggedPool component_id reason)
          | None =>
              match get_amount_out_guarded sim amount token_in token_out with
              | Ok result =>
                  if gao_amount result =? 0 then (st, FlaggedPool component_id ZeroOutput)
                  else reverse_hops pass st (gao_amount result) hops
              | Err _ => (st, FlaggedPool component_id SwapFailed)
              end
          end
      | _, _, _ => (st, MissingHopData)
      end
  end.

Definition reverse_sell pass st (buy_leg : ReachedToken) : PassState * ReverseSellOutcome :=
  reverse_hops pass st (rt_amount_out buy_leg) (rev (rt_hops buy_leg)).

(** *** The first buy pass *)

Definition take_reached (buys : ReachOutcome) token : ReachOutcome :=
  {| ro_reached := delete token (ro_reached buys); ro_timed_out := ro_timed_out buys |}.

Definition queue_sell_solve (queued : QueuedTokens) token (buy_leg : SellSolveBuyLeg) : QueuedTokens :=
  {| on_flagged_routes := on_flagged_routes queued; for_sell_solve := <[token := buy_leg]> (for_sell_solve queued) |}.

Definition queue_flagged (queued : QueuedTokens) token (buy_leg : ReachedToken) : QueuedTokens :=
  {| on_flagged_routes := <[token := buy_leg]> (on_flagged_routes queued); for_sell_solve := for_sell_solve queued |}.

Definition keep_buys st (buys : ReachOutcome) : PassState := {|
  ps_ctx := ps_ctx st; ps_new_flagged_components := ps_new_flagged_components st; ps_spot_checks := ps_spot_checks st;
  ps_buys_through_all_pools := Some buys; ps_runs := ps_runs st |}.

Definition queue_sell_solve_through_flagged_pools pass clock st token (queued : QueuedTokens)
    : outcome (PassState * QueuedTokens * option TokenPricingOutcome) :=
  if bool_decide (pp_earlier_flagged_components pass = ∅) || negb (bool_decide (is_Some (pp_token_nodes pass !! token)))
  then Ret (st, queued, Some Unreachable)
  else
    ran ← match ps_buys_through_all_pools st with
          | Some buys => Ret (st, buys)
          | None => run_buy_pass pass clock st (pp_full_adjacency pass)
          end;
    let '(st, buys) := ran in
    let st := keep_buys st (take_reached buys token) in
    Ret match ro_reached buys !! token with
        | Some buy_leg => (st, queue_sell_solve queued token (ThroughFlaggedPool buy_leg), None)
        | None => (st, queued, Some (if ro_timed_out buys then Unattempted else Unreachable))
        end.

Definition price_with_reverse_sell pass clock st token (buys : ReachOutcome) (queued : QueuedTokens)
    : outcome (PassState * ReachOutcome * QueuedTokens * option TokenPricingOutcome) :=
  match ro_reached buys !! token with
  | None =>
      if ro_timed_out buys then Ret (st, buys, queued, Some Unattempted)
      else
        step ← queue_sell_solve_through_flagged_pools pass clock st token queued;
        let '(st, queued, outcome) := step in Ret (st, buys, queued, outcome)
  | Some buy_leg =>
      let buys := take_reached buys token in
      let '(st, sold) := reverse_sell pass st buy_leg in
      Ret match sold with
          | Sold sell_out => (st, buys, queued, Some (Priced (build_price_entry (pp_computation pass) buy_leg sell_out)))
          | FlaggedPool component_id _ => (flag st component_id, buys, queue_flagged queued token buy_leg, None)
          | MissingHopData | LowSellOut => (st, buys, queue_sell_solve queued token (Trusted buy_leg), None)
          end
  end.

Abbreviation Outcomes := (gmap Address TokenPricingOutcome).

(** The tokens from the [i]-th on. *)
Fixpoint reverse_sells pass clock (tokens : list Address) (i : nat) st (buys : ReachOutcome) (queued : QueuedTokens)
    (outcomes : Outcomes) : outcome (PassState * ReachOutcome * QueuedTokens * Outcomes) :=
  match tokens with
  | [] => Ret (st, buys, queued, outcomes)
  | token :: tokens =>
      if tg_pass_budget (pp_computation pass) <=? pc_reverse_sell clock i then Ret (st, buys, queued, outcomes)
      else
        step ← price_with_reverse_sell pass clock st token buys queued;
        let '(st, buys, queued, outcome) := step in
        reverse_sells pass clock tokens (S i) st buys queued
          (match outcome with Some outcome => <[token := outcome]> outcomes | None => outcomes end)
  end.

(** *** The buy pass without flagged pools *)

Definition price_on_second_route pass (buys : ReachOutcome) (acc : PassState * Outcomes * gmap Address SellSolveBuyLeg)
    (entry : Address * ReachedToken) : PassState * Outcomes * gmap Address SellSolveBuyLeg :=
  let '(st, outcomes, for_sell_solve) := acc in
  let '(token, flagged_route) := entry in
  match ro_reached buys !! token with
  | None =>
      (st, outcomes, if ro_timed_out buys then for_sell_solve
                     else <[token := ThroughFlaggedPool flagged_route]> for_sell_solve)
  | Some buy_leg =>
      let '(st, sold) := reverse_sell pass st buy_leg in
      match sold with
      | Sold sell_out =>
          (st, <[token := Priced (build_price_entry (pp_computation pass) buy_leg sell_out)]> outcomes, for_sell_solve)
      | FlaggedPool component_id _ =>
          (flag st component_id, outcomes, <[token := ThroughFlaggedPool flagged_route]> for_sell_solve)
      | MissingHopData | LowSellOut => (st, outcomes, <[token := Trusted buy_leg]> for_sell_solve)
      end
  end.

Definition price_without_flagged_pools pass clock st (on_flagged_routes : gmap Address ReachedToken) (outcomes : Outcomes)
    (for_sell_solve : gmap Address SellSolveBuyLeg) : outcome (PassState * Outcomes * gmap Address SellSolveBuyLeg) :=
  if decide (on_flagged_routes = ∅) then Ret (st, outcomes, for_sell_solve)
  else
    let excluded := pp_earlier_flagged_components pass ∪ ps_new_flagged_components st in
    ran ← run_buy_pass pass clock st (build_adjacency_without pass excluded);
    let '(st, buys) := ran in
    Ret (fold_left (price_on_second_route pass buys) (map_to_list on_flagged_routes) (st, outcomes, for_sell_solve)).

(** *** Sell solves *)

Definition sell_order pass token (amount : N) : Order := {|
  order_id := fresh_order_id;
  order_token_in := token;
  order_token_out := gt_address (tg_gas_token_config (pp_computation pass));
  order_amount := amount;
  order_side := Sell;
  order_sender := zero_address;
  order_receiver := None |}.

Definition at_ctx st (ctx : BellmanFordContext) : PassState := {|
  ps_ctx := ctx; ps_new_flagged_components := ps_new_flagged_components st; ps_spot_checks := ps_spot_checks st;
  ps_buys_through_all_pools := ps_buys_through_all_pools st; ps_runs := ps_runs st |}.

Definition solve_sell_leg pass clock st token (amount : N)
    : outcome (PassState * result FailedItemError (N * list ComponentId)) :=
  match pp_token_nodes pass !! token with
  | None => Ret (st, Err (MissingSellRoute "token is not in the pass subgraph"))
  | Some token_node =>
      let '(ctx, rerooted) := reroot_toward (ps_ctx st) (pp_graph pass) token_node (pp_gas_node pass) (pp_hops_to_gas pass)
                                (bf_max_hops (pp_algorithm pass)) in
      if negb rerooted then Ret (at_ctx st ctx, Err (MissingSellRoute "no pruned subgraph toward the gas token"))
      else
        solved ← find_single_route decimals integer_decode (pp_algorithm pass) ctx (sell_order pass token amount) ∅
                   (pc_run clock (ps_runs st));
        Ret (ran st ctx,
             match solved with
             | Err error => Err (MissingSellRoute (show_algorithm_error error))
             | Ok result =>
                 let route := rr_route result in
                 let amount_out := Route_amount_out route (gt_address (tg_gas_token_config (pp_computation pass))) in
                 if amount_out =? 0 then Err (MissingSellRoute "the sell route returns zero")
                 else Ok (amount_out, sw_component_id <$> rt_swaps route)
             end)
  end.

Definition buy_route (buy_leg : SellSolveBuyLeg) : ReachedToken :=
  match buy_leg with Trusted route | ThroughFlaggedPool route => route end.

Definition price_with_sell_solve pass clock st token (buy_leg : SellSolveBuyLeg) : outcome (PassState * TokenPricingOutcome) :=
  solved ← solve_sell_leg pass clock st token (rt_amount_out (buy_route buy_leg));
  Ret (solved.1,
       match solved.2 with
       | Err error => PricingFailed error
       | Ok (sell_out, sell_route) =>
           Priced (extend_route
             match buy_leg with
             | Trusted route => build_price_entry (pp_computation pass) route sell_out
             | ThroughFlaggedPool route => build_sell_rate_entry route sell_out (tg_gas_token_config (pp_computation pass))
             end sell_route)
       end).

Fixpoint run_sell_solves pass clock (tokens : list Address) (i sell_solves : nat) st
    (for_sell_solve : gmap Address SellSolveBuyLeg) (outcomes : Outcomes) : outcome (PassState * Outcomes) :=
  match tokens with
  | [] => Ret (st, outcomes)
  | token :: tokens =>
      if (tg_pass_budget (pp_computation pass) <=? pc_sell_solve clock i)
         || (tg_max_sell_solves_per_pass (pp_computation pass) <=? sell_solves)%nat
      then Ret (st, outcomes)
      else
        match for_sell_solve !! token with
        | None => run_sell_solves pass clock tokens (S i) sell_solves st for_sell_solve outcomes
        | Some buy_leg =>
            step ← price_with_sell_solve pass clock st token buy_leg;
            run_sell_solves pass clock tokens (S i) (S sell_solves) step.1 (delete token for_sell_solve)
              (<[token := step.2]> outcomes)
        end
  end.

(** *** The pass *)

(** [outcomes.remove(&token).unwrap_or(Unattempted)], token by token. *)
Fixpoint token_outcomes (tokens : list Address) (outcomes : Outcomes) : list (Address * TokenPricingOutcome) :=
  match tokens with
  | [] => []
  | token :: tokens => (token, default Unattempted (outcomes !! token)) :: token_outcomes tokens (delete token outcomes)
  end.

Definition sort_outcome (acc : PricingPassOutcome) (entry : Address * TokenPricingOutcome) : PricingPassOutcome :=
  let '(token, outcome) := entry in
  match outcome with
  | Priced priced => {|
      po_prices := <[token := pt_entry priced]> (po_prices acc);
      po_routes := <[token := pt_route priced]> (po_routes acc);
      po_block := po_block acc; po_failed_items := po_failed_items acc; po_unattempted := po_unattempted acc;
      po_new_flagged_components := po_new_flagged_components acc |}
  | PricingFailed error => {|
      po_prices := po_prices acc; po_routes := po_routes acc; po_block := po_block acc;
      po_failed_items := po_failed_items acc ++ [{| fi_key := show_address token; fi_error := error |}];
      po_unattempted := po_unattempted acc; po_new_flagged_components := po_new_flagged_components acc |}
  | Unattempted => {|
      po_prices := po_prices acc; po_routes := po_routes acc; po_block := po_block acc;
      po_failed_items := po_failed_items acc; po_unattempted := {[ token ]} ∪ po_unattempted acc;
      po_new_flagged_components := po_new_flagged_components acc |}
  | Unreachable => acc
  end.

Definition build_outcome st (outcomes : list (Address * TokenPricingOutcome)) (block : N) : PricingPassOutcome :=
  fold_left sort_outcome outcomes
    {| po_prices := ∅; po_routes := ∅; po_block := block; po_failed_items := []; po_unattempted := ∅;
       po_new_flagged_components := ps_new_flagged_components st |}.

(** The outcome of each token, and the state the pass ends in. *)
Definition price_each pass clock st (tokens_to_price : list Address)
    : outcome (PassState * list (Address * TokenPricingOutcome)) :=
  first ← run_buy_pass pass clock st (build_adjacency_without pass (pp_earlier_flagged_components pass));
  let '(st, buys) := first in
  sold ← reverse_sells pass clock tokens_to_price 0 st buys QueuedTokens_default ∅;
  let '(st, _, queued, outcomes) := sold in
  second ← (if pc_second_buy_pass clock <? tg_pass_budget (pp_computation pass)
            then price_without_flagged_pools pass clock st (on_flagged_routes queued) outcomes (for_sell_solve queued)
            else Ret (st, outcomes, for_sell_solve queued));
  let '(st, outcomes, for_sell_solve) := second in
  solved ← run_sell_solves pass clock tokens_to_price 0 0 st for_sell_solve outcomes;
  let '(st, outcomes) := solved in
  Ret (st, token_outcomes tokens_to_price outcomes).

Definition price_tokens pass clock st (tokens_to_price : list Address) (block : N) : outcome PricingPassOutcome :=
  priced ← price_each pass clock st tokens_to_price;
  Ret (build_outcome priced.1 priced.2 block).
End pass.

(** ** The history of the passes *)

Record PassHistory := {
  ph_passes : N;
  ph_last_pass_started : option N;
  ph_last_pass_block : option N;
  ph_last_attempted : gmap Address N;
  ph_pending_arrivals : gset Address;
  ph_flagged_components : gmap ComponentId N;
  ph_routes : gmap Address PriceRoute;
}.

Definition PassHistory_default : PassHistory := {|
  ph_passes := 0; ph_last_pass_started := None; ph_last_pass_block := None; ph_last_attempted := ∅;
  ph_pending_arrivals := ∅; ph_flagged_components := ∅; ph_routes := ∅ |}.

Inductive PassSlot := Due | ArrivalsSlot | Deferred.

Inductive PassScope := Whole | ArrivalsOnly.

#[export] Instance PassScope_eq_dec : EqDecision PassScope.
Proof. solve_decision. Defined.

Record PassPriority := {
  pq_arrived : gset Address;
  pq_priced : gset Address;
  pq_last_attempted : gmap Address N;
  pq_passes : N;
}.

Section history.
Implicit Types (self : TokenGasPriceComputation) (history : PassHistory) (priority : PassPriority) (token : Address).

Definition record_routes history (routes : gmap Address PriceRoute) (stored : TokenPricesWithDeps) : PassHistory := {|
  ph_passes := ph_passes history; ph_last_pass_started := ph_last_pass_started history;
  ph_last_pass_block := ph_last_pass_block history; ph_last_attempted := ph_last_attempted history;
  ph_pending_arrivals := ph_pending_arrivals history; ph_flagged_components := ph_flagged_components history;
  ph_routes := filter (fun kv => is_Some (stored !! kv.1)) (routes ∪ ph_routes history) |}.

(** [duration_since] saturates at zero. *)
Definition start_pass self history (now block : N) (arrivals : bool) : PassHistory * PassSlot :=
  let interval_elapsed :=
    match ph_last_pass_started history with
    | None => true
    | Some started => tg_min_pass_interval self <=? now - started
    end in
  let new_block :=
    (tg_min_pass_interval self =? 0)
    || match ph_last_pass_block history with None => true | Some last_block => negb (last_block =? block) end in
  if interval_elapsed && new_block
  then ({| ph_passes := ph_passes history; ph_last_pass_started := Some now; ph_last_pass_block := Some block;
           ph_last_attempted := ph_last_attempted history; ph_pending_arrivals := ph_pending_arrivals history;
           ph_flagged_components := ph_flagged_components history; ph_routes := ph_routes history |}, Due)
  else (history, if arrivals then ArrivalsSlot else Deferred).

Definition pass_priority history (arrived priced : gset Address) : PassHistory * PassPriority :=
  let pending_arrivals := ph_pending_arrivals history ∪ arrived in
  ({| ph_passes := ph_passes history; ph_last_pass_started := ph_last_pass_started history;
      ph_last_pass_block := ph_last_pass_block history; ph_last_attempted := ph_last_attempted history;
      ph_pending_arrivals := pending_arrivals; ph_flagged_components := ph_flagged_components history;
      ph_routes := ph_routes history |},
   {| pq_arrived := pending_arrivals; pq_priced := priced; pq_last_attempted := ph_last_attempted history;
      pq_passes := ph_passes history |}).

Definition keep_unpriced_arrivals priority : PassPriority := {|
  pq_arrived := filter (fun token => token ∉ pq_priced priority) (pq_arrived priority);
  pq_priced := pq_priced priority; pq_last_attempted := pq_last_attempted priority; pq_passes := pq_passes priority |}.

Definition stamp priority token : N := default 0 (pq_last_attempted priority !! token).

Definition is_stale priority token : bool := MAX_PRICE_AGE_PASSES <=? pq_passes priority - stamp priority token.

(** [u64::wrapping_sub]. *)
Definition wrapping_sub (a b : N) : N := (a + (u64_MAX + 1) - b) mod (u64_MAX + 1).

(** The tokens a pass attempted. *)
Definition attempted_of (selected : gset Address) (outcome : PricingPassOutcome) : gset Address :=
  selected ∖ po_unattempted outcome.

Definition record_pass history (selected : gset Address) (outcome : PricingPassOutcome) (universe : gset Address) : PassHistory :=
  let pass := wrapping_succ (ph_passes history) in
  let attempted := attempted_of selected outcome in {|
  ph_passes := pass;
  ph_last_pass_started := ph_last_pass_started history;
  ph_last_pass_block := ph_last_pass_block history;
  ph_last_attempted :=
    filter (fun kv => kv.1 ∈ universe)
      (set_fold (fun token stamps => <[token := pass]> stamps) (ph_last_attempted history) attempted);
  ph_pending_arrivals := filter (fun token => token ∈ universe) (ph_pending_arrivals history ∖ attempted);
  ph_flagged_components :=
    filter (fun kv => wrapping_sub pass kv.2 < FLAGGED_POOL_PASSES)
      (set_fold (fun component_id flags => <[component_id := pass]> flags) (ph_flagged_components history)
         (po_new_flagged_components outcome));
  ph_routes := ph_routes history |}.

Definition read_flagged_components history : gset ComponentId := dom (ph_flagged_components history).

(** *** Selecting tokens *)

(** [ARRIVED] and [ROTATING]. *)
Definition ARRIVED : N := 0.
Definition ROTATING : N := 1.

Definition ranked_le (a b : N * N * Address) : Prop := a.1.1 < b.1.1 \/ a.1.1 = b.1.1 /\ a.1.2 <= b.1.2.

#[export] Instance ranked_le_dec : RelDecision ranked_le.
Proof. intros a b. unfold ranked_le. apply _. Defined.

Definition rank (changed : option (gset Address)) priority (scope : PassScope) token : option (N * N * Address) :=
  let stamp := stamp priority token in
  if decide (token ∈ pq_arrived priority) then Some (ARRIVED, stamp, token)
  else if decide (scope = ArrivalsOnly) then None
  else if bool_decide (token ∉ pq_priced priority)
          || match changed with None => true | Some changed => bool_decide (token ∈ changed) end
          || is_stale priority token
  then Some (ROTATING, stamp, token)
  else None.

(** [Vec::truncate]. *)
Definition truncate {A} (l : list A) (n : N) : list A :=
  if N.of_nat (length l) <=? n then l else take (N.to_nat n) l.

Definition select_pass_tokens (walk_order : gset Address -> list Address) (universe : gset Address)
    (changed : option (gset Address)) priority (scope : PassScope) (max_tokens : N) : list Address :=
  snd <$> truncate (merge_sort ranked_le (omap (rank changed priority scope) (walk_order universe))) max_tokens.
End history.

(** ** The computation *)

(** What the market answers at each of its readings, the clocks, what other tasks make of the
    store while the pass runs, and how the message of a task that died prints. *)
Record PassEnv `{TychoMarket} := {
  pe_topology : MarketState;
  pe_snapshot : nat -> MarketState;
  pe_clock : PassClock;
  pe_store_meanwhile : DerivedData -> DerivedData;
}.

Section computation.
Context `{TychoGas} `{!Messages} `{!TychoSwaps} `{NodeGraph (EdgeData ())} (decimals : Token -> N) (integer_decode : f64 -> N * Z).
Context (spot_price : ProtocolSim -> Token -> Token -> result string f64).
Context (show_address : Address -> string) (show_algorithm_error : AlgorithmError -> string) (fresh_order_id : string).
Context (show_join_error : string) (walk_order : gset Address -> list Address).
Implicit Types (self : TokenGasPriceComputation) (history : PassHistory) (env : PassEnv) (store : DerivedData).

Definition tokens_to_price self (topology : gmap ComponentId ComponentTopology) : gset Address :=
  list_to_set (map_to_list topology ≫= fun entry => tp_tokens entry.2)
  ∖ {[ gt_address (tg_gas_token_config self) ]}.

Definition nothing_attempted (universe : gset Address) (block : N) : PricingPassOutcome := {|
  po_prices := ∅; po_routes := ∅; po_block := block; po_failed_items := []; po_unattempted := universe;
  po_new_flagged_components := ∅ |}.

Definition block_of (market : MarketState) (otherwise : N) : N :=
  match last_updated market with Some info => block_number info | None => otherwise end.

Definition extend_unattempted (outcome : PricingPassOutcome) (tokens : gset Address) : PricingPassOutcome := {|
  po_prices := po_prices outcome; po_routes := po_routes outcome; po_block := po_block outcome;
  po_failed_items := po_failed_items outcome; po_unattempted := po_unattempted outcome ∪ tokens;
  po_new_flagged_components := po_new_flagged_components outcome |}.

Definition pricing_algorithm self : result AlgorithmError BellmanFordAlgorithm :=
  config ← AlgorithmConfig_new 1 (tg_max_hops self) (10 ^ 9) None;
  Ok (BellmanFord_with_config (with_gas_aware config false)).

Definition pricing_context self (algorithm : BellmanFordAlgorithm) (graph : digraph) env (selected : gset Address)
    : option BellmanFordContext :=
  build_context_from_source_token algorithm graph (pe_snapshot env) (gt_address (tg_gas_token_config self))
    (S (tg_max_hops self)) (Some selected).

(** The task on the blocking thread: a panic of it is an error of the computation. *)
Definition run_pass self history (algorithm : BellmanFordAlgorithm) (graph : digraph) (ctx : BellmanFordContext) env
    (ordered : list Address) (block : N) : outcome PricingPassOutcome :=
  let '(pass, st) := PricingPassState_new algorithm graph ctx self (read_flagged_components history) in
  price_tokens decimals integer_decode spot_price show_address show_algorithm_error fresh_order_id pass (pe_clock env) st
    ordered block.

Definition solve_token_prices self history env (changed : option (gset Address)) (priority : PassPriority)
    (scope : PassScope) (max_tokens : N) : PassHistory * result ComputationError PricingPassOutcome :=
  let block := block_of (pe_topology env) 0 in
  let topology := ComponentFilter.remove_components (pe_topology env) (component_topology (pe_topology env))
                    is_left_out_of_pricing in
  let universe := tokens_to_price self topology in
  let ordered := select_pass_tokens walk_order universe changed priority scope max_tokens in
  match ordered with
  | [] => (history, Ok (nothing_attempted universe block))
  | _ =>
      let graph := pm_graph (initialize_graph topology) in
      match pricing_algorithm self with
      | Err error => (history, Err (InvalidConfiguration (show_algorithm_error error)))
      | Ok algorithm =>
          let selected : gset Address := list_to_set ordered in
          let capped_out := universe ∖ selected in
          match pricing_context self algorithm graph env selected with
          | None => (history, Ok (nothing_attempted universe block))
          | Some ctx =>
              let block := block_of (bc_market_data ctx) block in
              match run_pass self history algorithm graph ctx env ordered block with
              | Panic => (history, Err (ComputationInternal ("token pricing pass did not complete: " +:+ show_join_error)))
              | Ret outcome =>
                  let outcome := extend_unattempted outcome capped_out in
                  (record_pass history selected outcome universe, Ok outcome)
              end
          end
      end
  end.

Definition drop_stale_failures store (solved : PricingPassOutcome) : DerivedData :=
  retain_token_price_failures store (fun token => bool_decide (token ∈ po_unattempted solved)).

(** *** The incremental update *)

Definition all_changed_ids (changed : ChangedComponents) : gset ComponentId :=
  dom (added changed) ∪ list_to_set (removed changed) ∪ list_to_set (updated changed).

(** The stored tokens a change of the components reaches. *)
Definition affected_tokens (deps : TokenPricesWithDeps) (changed : gset ComponentId) : gset Address :=
  dom (filter (fun kv : Address * TokenPriceEntry => ~ tpe_path_components kv.2 ## changed) deps).

Definition arrived_tokens self (changed : ChangedComponents) : gset Address := tokens_to_price self (added changed).

(** The stored tokens that were attempted and got no price, and those that left the market. *)
Definition dropped_tokens self (solved : PricingPassOutcome) (deps : TokenPricesWithDeps) : list Address :=
  (map_to_list (filter (fun kv : Address * TokenPriceEntry =>
      kv.1 <> gt_address (tg_gas_token_config self) /\ po_prices solved !! kv.1 = None
      /\ kv.1 ∉ po_unattempted solved) deps)).*1.

Definition delete_all {V} (m : gmap Address V) (dropped : list Address) : gmap Address V :=
  fold_left (fun m token => delete token m) dropped m.

(** The stored dependencies after the pass. *)
Definition edit_deps self (solved : PricingPassOutcome) (deps : TokenPricesWithDeps) : TokenPricesWithDeps :=
  let deps := po_prices solved ∪ deps in
  delete_all deps (dropped_tokens self solved deps).

(** The prices after the pass, given the dependencies it found. *)
Definition edit_prices self (solved : PricingPassOutcome) (deps : TokenPricesWithDeps) (result : TokenGasPrices) : TokenGasPrices :=
  delete_all ((tpe_price <$> po_prices solved) ∪ result) (dropped_tokens self solved (po_prices solved ∪ deps)).

Definition with_failures (prices : TokenGasPrices) (failed_items : list FailedItem) : ComputationOutput :=
  {| co_data := OutTokenPrices prices; co_failed_items := failed_items |}.

Definition update_prices self history env store (changed : ChangedComponents) (scope : PassScope)
    : DerivedData * PassHistory * result ComputationError (option ComputationOutput) :=
  match token_prices_deps store, token_prices store with
  | Some existing_deps, Some existing_prices =>
      let arrived := arrived_tokens self changed in
      let tokens_to_recompute := affected_tokens (cv_data existing_deps) (all_changed_ids changed) ∪ arrived in
      let '(history, priority) := pass_priority history arrived (dom (cv_data existing_deps)) in
      let priority := if decide (scope = ArrivalsOnly) then keep_unpriced_arrivals priority else priority in
      if bool_decide (scope = ArrivalsOnly) && bool_decide (pq_arrived priority = ∅)
      then (store, history, Ok (Some (with_failures existing_prices [])))
      else
        match solve_token_prices self history env (Some tokens_to_recompute) priority scope (tg_max_tokens_per_pass self) with
        | (history, Err error) => (store, history, Err error)
        | (history, Ok solved) =>
            let store := drop_stale_failures (pe_store_meanwhile env store) solved in
            match token_prices_deps store with
            | None => (store, history, Ok None)
            | Some deps =>
                let '(store, _) := edit_token_prices_deps store (po_block solved) (edit_deps self solved) in
                (store, record_routes history (po_routes solved) (edit_deps self solved (cv_data deps)),
                 Ok (Some (with_failures (edit_prices self solved (cv_data deps) existing_prices) (po_failed_items solved))))
            end
        end
  | _, _ => (store, history, Ok None)
  end.

(** *** Seeding *)

Definition gas_token_entry self : TokenPriceEntry :=
  {| tpe_price := gt_routable_per_native_unit (tg_gas_token_config self); tpe_path_components := ∅ |}.

(** The seeded entries: the new ones, the previous ones of what was not attempted, the gas token's. *)
Definition seeded_deps self (solved : PricingPassOutcome) (previous : option TokenPricesWithDeps) : TokenPricesWithDeps :=
  let kept := filter (fun kv => kv.1 ∈ po_unattempted solved) (default ∅ previous) in
  <[gt_address (tg_gas_token_config self) := gas_token_entry self]> (kept ∪ po_prices solved).

Definition seed_all_prices self history env store : DerivedData * PassHistory * result ComputationError ComputationOutput :=
  let priced : gset Address := match token_prices_deps store with Some deps => dom (cv_data deps) | None => ∅ end in
  let '(history, priority) := pass_priority history ∅ priced in
  match solve_token_prices self history env None priority Whole u64_MAX with
  | (history, Err error) => (store, history, Err error)
  | (history, Ok solved) =>
      let store := drop_stale_failures (pe_store_meanwhile env store) solved in
      let deps := seeded_deps self solved (cv_data <$> token_prices_deps store) in
      (set_token_prices_deps store deps (po_block solved), record_routes history (po_routes solved) deps,
       Ok (with_failures (tpe_price <$> deps) (po_failed_items solved)))
  end.

(** *** The entry point *)

Definition without_left_out_arrivals (market : MarketState) (changed : ChangedComponents) : ChangedComponents := {|
  added := ComponentFilter.remove_components market (added changed) is_left_out_of_pricing;
  removed := removed changed; updated := updated changed |}.

(** What one call reads: the market under its first two guards, the time, and what its two
    possible passes read. *)
Record ComputeEnv := {
  ce_arrivals : MarketState;
  ce_block : MarketState;
  ce_now : N;
  ce_update : PassEnv;
  ce_seed : PassEnv;
}.

Definition TokenGasPriceComputation_compute self (env : ComputeEnv) history store (changed : ChangedComponents)
    : DerivedData * PassHistory * result ComputationError ComputationOutput :=
  let changed := without_left_out_arrivals (ce_arrivals env) changed in
  let '(history, slot) :=
    start_pass self history (ce_now env) (block_of (ce_block env) 0) (negb (bool_decide (added changed = ∅))) in
  let run scope :=
    match update_prices self history (ce_update env) store changed scope with
    | (store, history, Err error) => (store, history, Err error)
    | (store, history, Ok (Some result)) => (store, history, Ok result)
    | (store, history, Ok None) => seed_all_prices self history (ce_seed env) store
    end in
  match slot with
  | Due => run Whole
  | ArrivalsSlot => run ArrivalsOnly
  | Deferred =>
      match token_prices store with
      | None => seed_all_prices self history (ce_seed env) store
      | Some prices => (store, history, Ok (with_failures prices []))
      end
  end.

(** As a registered computation, in a block it reads as [env] says. *)
Definition token_price_computation (parse_address : string -> option Address) (now : N) self (env : ComputeEnv) history : Computation := {|
  comp_id := TOKEN_PRICES_ID;
  comp_requirements := requirements_none;
  comp_compute := fun store changed =>
    let '(store, _, output) := TokenGasPriceComputation_compute self env history store changed in (store, output);
  comp_persist := token_price_persist parse_address now |}.
End computation.
