(* ===== verification/TokenPricesProofs.v ===== *)
(** * TokenPricesProofs: what a pricing pass and its history guarantee

    Every price of a pass is backed by a buy and a sale that were simulated on one snapshot;
    every selected token gets one outcome; the stored prices and dependencies stay in step;
    the selection rotates over the tokens, and passes keep their distance. *)

From stdpp Require Import prelude gmap sets strings list sorting.
From Stdlib Require Import NArith ZArith QArith Lia.
From S2P Require Import Prelude F64 Types Route Quote Samples Tracker DerivedStore SpotPriceComputation Schedule Manager MarketData MarketDataProofs.
From S2P Require Import SpotPricePipeline SwapCache Algorithm StableGraph TokenGraph Paths TokenGraphManager PetgraphManager MostLiquidProperties.
From S2P Require Import Admission BellmanFord BellmanFordProofs TokenPrices.

#[local] Open Scope N_scope.

(** ** A pass *)

Section pass.
Context `{TychoGas} `{!Messages} `{!TychoSwaps} `{NodeGraph (EdgeData ())} (decimals : Token -> N) (integer_decode : f64 -> N * Z).
Context (spot_price : ProtocolSim -> Token -> Token -> result string f64).
Context (show_address : Address -> string) (show_algorithm_error : AlgorithmError -> string) (fresh_order_id : string).
Context (pass : PricingPass) (base : BellmanFordContext) (clock : PassClock).
Implicit Types (st : PassState) (token : Address) (excluded : gset ComponentId).

#[local] Abbreviation computation := (pp_computation pass).
#[local] Abbreviation gas_token := (tg_gas_token_config computation).
#[local] Abbreviation probe := (gt_probe_amount gas_token).

(** What re-rooting and the buy passes leave of a context: all but the adjacency and the endpoints. *)
Definition frame (ctx : BellmanFordContext) : Prop := with_adj ctx ∅ O = with_adj base ∅ O.

(** The snapshot of a pass is of one graph, whose tokens have one node each. *)
Record snapshot_ok : Prop := {
  sn_graph : graph_ok (pp_graph pass);
  sn_gross : bc_scoring base = GrossOutput;
  sn_max : bc_max_idx base = (foldr Nat.max 0 (node_indices (pp_graph pass)) + 1)%nat;
  sn_gas : (pp_gas_node pass < bc_max_idx base)%nat;
  sn_adj : forall u edges v c, pp_full_adjacency pass !! u = Some edges -> (v, c) ∈ edges -> (v < bc_max_idx base)%nat;
  sn_address : bc_node_address base = token_address_of <$> bc_token_map base;
  sn_distinct : forall u v a, bc_node_address base !! u = Some a -> bc_node_address base !! v = Some a -> u = v;
  sn_nodes : forall a v, pp_token_nodes pass !! a = Some v <-> bc_node_address base !! v = Some a;
  sn_in_graph : forall v a, bc_node_address base !! v = Some a -> is_Some (node_weight (pp_graph pass) v);
  sn_gas_token : forall a, bc_node_address base !! pp_gas_node pass = Some a -> a = gt_address gas_token;
}.

Context (Hsnap : snapshot_ok).

(** *** Buy legs *)

(** The context of a buy pass that leaves out [excluded]. *)
Definition buy_ctx excluded : BellmanFordContext :=
  with_adj base (build_adjacency_without pass excluded) (pp_gas_node pass).

(** What the pools of a path pay on the snapshot. *)
#[local] Abbreviation paid := (paid_along (fun u => bc_token_map base !! u) (sim_of base ∅)).

(** The route that a buy pass for the probe reports for a token, when it leaves out at least
    [excluded]: a simple path of the snapshot, whose amount is what its pools answer in turn. *)
Record bought excluded token (leg : ReachedToken) : Prop := {
  bt_reached : exists run left_out reach, excluded ⊆ left_out /\
    reach_from_source_token decimals integer_decode (pp_algorithm pass) (buy_ctx left_out) probe (pc_run clock run) = Ret reach /\
    ro_reached reach !! token = Some leg;
  bt_paid : paid probe (rt_hops leg) (rt_amount_out leg);
  bt_amount : rt_amount_out leg <> 0;
  bt_node : exists v, bc_node_address base !! v = Some token /\ v <> pp_gas_node pass /\
    linked (pp_gas_node pass) (rt_hops leg) v;
  bt_usable : Forall (usable (pp_algorithm pass) (buy_ctx excluded) ∅) (rt_hops leg);
  bt_simple : NoDup (path_nodes (pp_gas_node pass) (rt_hops leg));
}.

Lemma adjacency_without excluded u edges v c : build_adjacency_without pass excluded !! u = Some edges -> (v, c) ∈ edges ->
  (c ∉ excluded) /\ exists all, pp_full_adjacency pass !! u = Some all /\ (v, c) ∈ all.
Proof.
  unfold build_adjacency_without. case_decide as Hex.
  - intros Hu Hv. subst. split; [apply not_elem_of_empty|by exists edges].
  - rewrite lookup_fmap. intros (all & Hall & ->)%fmap_Some_1 [Hin Hb%bool_decide_eq_true]%elem_of_filterb.
    split; [done|by exists all].
Qed.

Lemma adjacency_with excluded u all v c : pp_full_adjacency pass !! u = Some all -> (v, c) ∈ all -> c ∉ excluded ->
  exists edges, build_adjacency_without pass excluded !! u = Some edges /\ (v, c) ∈ edges.
Proof.
  intros Hu Hv Hc. unfold build_adjacency_without. case_decide; [by exists all|].
  rewrite lookup_fmap, Hu. eexists. split; [done|]. apply elem_of_filterb. split; [done|]. by apply bool_decide_eq_true.
Qed.

Lemma bought_weaken excluded excluded' token leg : excluded' ⊆ excluded -> bought excluded token leg -> bought excluded' token leg.
Proof.
  intros Hsub [(run & left_out & reach & Hl & Hreach) Hp Ha Hn Hus Hs].
  split; [exists run, left_out, reach; split; [by etransitivity|done]|done|done|done| |done]. eapply Forall_impl; [exact Hus|].
  intros [[u v] c] ((edges & Hu & Hv) & Htu & Htv & Hsim & Hconn).
  destruct (adjacency_without _ _ _ _ _ Hu Hv) as (Hc & all & Hall & Hin).
  destruct (adjacency_with excluded' _ _ _ _ Hall Hin (fun Hex => Hc (Hsub _ Hex))) as (edges' & Hu' & Hv').
  split_and!; try done. by exists edges'.
Qed.

Lemma bought_avoids excluded token leg c : bought excluded token leg -> c ∈ (rt_hops leg).*2 -> c ∉ excluded.
Proof.
  intros Hb ([[u v] c'] & -> & Hin)%list_elem_of_fmap. pose proof (bt_usable _ _ _ Hb) as Hus.
  rewrite Forall_forall in Hus. destruct (Hus _ Hin) as ((edges & Hu & Hv) & _). by apply (adjacency_without _ _ _ _ _ Hu Hv).
Qed.

Lemma bought_hops excluded token leg : bought excluded token leg -> rt_hops leg <> [].
Proof. intros [_ _ _ (v & _ & Hne & Hl) _ _] Hnil. rewrite Hnil in Hl. by cbn in Hl. Qed.

Definition buys_ok excluded (buys : ReachOutcome) : Prop :=
  forall token leg, ro_reached buys !! token = Some leg -> bought excluded token leg.

Lemma frame_adj ctx adj node : frame ctx -> with_adj ctx adj node = with_adj base adj node.
Proof.
  intros Hf. change (with_adj (with_adj ctx ∅ O) adj node = with_adj base adj node). by rewrite Hf.
Qed.

Lemma frame_reads ctx : frame ctx ->
  bc_token_map ctx = bc_token_map base /\ bc_market_data ctx = bc_market_data base /\
  bc_node_address ctx = bc_node_address base /\ bc_max_idx ctx = bc_max_idx base.
Proof. unfold frame. intros Hf. by injection Hf. Qed.

Lemma buy_ctx_ok excluded : ctx_ok (buy_ctx excluded).
Proof.
  split; [apply (sn_gas Hsnap)|]. intros u edges v c Hu Hv.
  destruct (adjacency_without _ _ _ _ _ Hu Hv) as (_ & all & Hall & Hin). by apply (sn_adj Hsnap u all v c).
Qed.

(** *** States *)

(** The state of the pool and the tokens of a reverse swap. *)
Definition hop_data (hop : PathEdge) : option (ProtocolSim * Token * Token) :=
  sim ← simulation_states (bc_market_data base) !! hop.2;
  token_in ← bc_token_map base !! hop.1.2;
  token_out ← bc_token_map base !! hop.1.1;
  Some (sim, token_in, token_out).

(** No run of the algorithm reaches its timeout. *)
Definition in_time : Prop := forall run round, pc_run clock run round < bf_timeout (pp_algorithm pass).

Record state_ok st : Prop := {
  sk_frame : frame (ps_ctx st);
  sk_checks : forall component_id u v check sim token_in token_out, ps_spot_checks st !! (component_id, u, v) = Some check ->
    hop_data (u, v, component_id) = Some (sim, token_in, token_out) ->
    check = check_spot_prices spot_price sim token_in token_out;
  sk_buys : forall buys, ps_buys_through_all_pools st = Some buys ->
    buys_ok ∅ buys /\ (in_time -> ro_timed_out buys = false);
}.

Lemma spfa_in_time self ctx overrides run n round active nodes below r : (forall i, run i < bf_timeout self) ->
  spfa_rounds decimals integer_decode self ctx overrides run n round active nodes below = Ret r -> sp_timed_out r = false.
Proof.
  intros Htime. revert round active nodes below. induction n as [|n IH]; intros round active nodes below; cbn [spfa_rounds].
  { by intros [= <-]. }
  rewrite (proj2 (N.leb_gt _ _) (Htime round)). destruct active as [|x active]; [by intros [= <-]|].
  intros (st & _ & Hr)%bind_Ret. by apply IH in Hr.
Qed.

(** The comparisons of a pass charge no gas. *)
Lemma gross_ctx adj node : gas_aware_price (with_adj base adj node) = None.
Proof. unfold gas_aware_price. cbn. by rewrite (sn_gross Hsnap). Qed.

Lemma run_buy_pass_spec st excluded : state_ok st ->
  exists buys, run_buy_pass decimals integer_decode pass clock st (build_adjacency_without pass excluded)
    = Ret (ran st (buy_ctx excluded), buys) /\ buys_ok excluded buys /\
    (in_time -> ro_timed_out buys = false) /\
    state_ok (ran st (buy_ctx excluded)) /\
    reach_from_source_token decimals integer_decode (pp_algorithm pass) (buy_ctx excluded) probe (pc_run clock (ps_runs st)) = Ret buys.
Proof.
  intros Hst. unfold run_buy_pass. rewrite (frame_adj _ _ _ (sk_frame _ Hst)). fold (buy_ctx excluded).
  destruct (reach_spec decimals integer_decode (pp_algorithm pass) (buy_ctx excluded) probe (pc_run clock (ps_runs st))
    (buy_ctx_ok excluded) (sn_distinct Hsnap)) as (spfa & reach & Hrun & Hrel & Hreach & Htime & Hmap). rewrite Hreach.
  cbn [mbind outcome_bind]. exists reach. split; [done|]. split; [|split; [|split; [|done]]].
  - intros token leg Hleg. pose proof Hleg as (v & best & path & Hv & Hnz & Hne & Ha & Hp & ->)%Hmap. split; cbn.
    + by exists (ps_runs st), excluded, reach.
    + apply (relaxed_paid decimals integer_decode (pp_algorithm pass) (buy_ctx excluded) ∅ (buy_ctx_ok excluded)
        (gross_ctx _ _) probe (sp_nodes spfa) v path best Hrel Hp Hv).
    + done.
    + exists v. split; [done|]. split; [done|]. apply (pt_linked _ _ _ _ _ _ Hp).
    + apply (pt_usable _ _ _ _ _ _ Hp).
    + apply (pt_simple _ _ _ _ _ _ Hp).
  - intros Hclock. rewrite Htime. unfold run_spfa in Hrun. apply bind_Ret in Hrun as (? & _ & Hrun). by apply (spfa_in_time _ _ _ _ _ _ _ _ _ _ (Hclock _) Hrun).
  - split; cbn; [done|apply (sk_checks _ Hst)|apply (sk_buys _ Hst)].
Qed.

(** *** Selling back *)

(** The hops, given in the order they are sold through, turn [amount] into [out]; every pool passes
    the check of its spot prices and pays something. *)
Inductive sells_back : N -> list PathEdge -> N -> Prop :=
| sells_none amount : sells_back amount [] amount
| sells_hop amount sold_node bought_node component_id sim token_in token_out result hops out :
    hop_data (sold_node, bought_node, component_id) = Some (sim, token_in, token_out) ->
    check_spot_prices spot_price sim token_in token_out = None ->
    get_amount_out_guarded sim amount token_in token_out = Ok result -> gao_amount result <> 0 ->
    sells_back (gao_amount result) hops out ->
    sells_back amount ((sold_node, bought_node, component_id) :: hops) out.

Lemma sells_back_inv amount u v c sim token_in token_out hops out : hop_data (u, v, c) = Some (sim, token_in, token_out) ->
  sells_back amount ((u, v, c) :: hops) out ->
  check_spot_prices spot_price sim token_in token_out = None /\
  exists result, get_amount_out_guarded sim amount token_in token_out = Ok result /\ gao_amount result <> 0 /\
    sells_back (gao_amount result) hops out.
Proof.
  intros Hd Hs. inversion Hs as [|? ? ? ? sim' ti to result ? ? Hd' Hcheck Hout Hne Hrest]; subst.
  rewrite Hd in Hd'. injection Hd' as <- <- <-. split; [done|]. by exists result.
Qed.

(** The pools answer for themselves. *)
Lemma sells_back_same amount hops out out' : sells_back amount hops out -> sells_back amount hops out' -> out' = out.
Proof.
  intros Hs. revert out'. induction Hs as [amount|amount u v c sim ti to result hops out Hd Hc Hr Hz _ IH]; intros out' Hs'; [by inversion Hs'|].
  destruct (sells_back_inv _ _ _ _ _ _ _ _ _ Hd Hs') as (_ & result' & Hr' & _ & Hrest). apply IH. congruence.
Qed.

Lemma sells_back_nonzero amount hops out : amount <> 0 -> sells_back amount hops out -> out <> 0.
Proof. intros Hne Hs. by induction Hs; auto. Qed.

(** What selling along a route changes: the cache of checks. *)
Definition only_checks st st' : Prop :=
  ps_ctx st' = ps_ctx st /\ ps_new_flagged_components st' = ps_new_flagged_components st /\
  ps_buys_through_all_pools st' = ps_buys_through_all_pools st /\ ps_runs st' = ps_runs st.

Lemma spot_check_spec st u v component_id sim token_in token_out : state_ok st ->
  hop_data (u, v, component_id) = Some (sim, token_in, token_out) ->
  exists st', spot_check spot_price st (component_id, u, v) sim token_in token_out
    = (st', check_spot_prices spot_price sim token_in token_out) /\ state_ok st' /\ only_checks st st'.
Proof.
  intros Hst Hhop. unfold spot_check. destruct (ps_spot_checks st !! (component_id, u, v)) as [check|] eqn:Hc.
  - rewrite (sk_checks _ Hst _ _ _ _ _ _ _ Hc Hhop). by exists st.
  - eexists. split; [done|]. split; [|done]. split; cbn; [apply (sk_frame _ Hst)| |apply (sk_buys _ Hst)].
    intros c a b check s ti to [[[= <- <- <-] <-]|[_ Hl]]%lookup_insert_Some Hd.
    + rewrite Hhop in Hd. by injection Hd as -> -> ->.
    + by apply (sk_checks _ Hst _ _ _ _ _ _ _ Hl).
Qed.

Lemma reverse_hops_spec st amount hops : state_ok st ->
  exists st' sold, reverse_hops spot_price pass st amount hops = (st', sold) /\ state_ok st' /\ only_checks st st' /\
    match sold with
    | Sold out => sells_back amount hops out /\ min_sell_out computation <= out
    | FlaggedPool _ _ => forall out, ~ sells_back amount hops out
    | LowSellOut => exists low, sells_back amount hops low /\ low < min_sell_out computation
    | MissingHopData => exists hop, hop ∈ hops /\ hop_data hop = None
    end.
Proof.
  revert st amount. induction hops as [|[[u v] c] hops IH]; intros st amount Hst; cbn [reverse_hops].
  { destruct (N.ltb_spec amount (min_sell_out computation)); eexists _, _; (split; [done|]); split_and!; try done.
    - exists amount. split; [constructor|done].
    - constructor. }
  destruct (frame_reads _ (sk_frame _ Hst)) as (-> & -> & _ & _).
  destruct (hop_data (u, v, c)) as [[[sim token_in] token_out]|] eqn:Hd; pose proof Hd as Hread; unfold hop_data in Hread; cbn in Hread.
  2: { destruct (simulation_states _ !! c), (bc_token_map base !! v), (bc_token_map base !! u); cbn in Hread; try done;
         (eexists _, _; split; [done|]; split_and!; [done..|]; exists (u, v, c); by split; [left|]). }
  destruct (spot_check_spec st u v c sim token_in token_out Hst Hd) as (st' & Hcheck & Hst' & Honly).
  destruct (simulation_states _ !! c) as [sim'|], (bc_token_map base !! v) as [ti|],
    (bc_token_map base !! u) as [to|]; cbn in Hread; try done. injection Hread as -> -> ->.
  pose proof (fun out => sells_back_inv amount u v c sim token_in token_out hops out Hd) as Hinv.
  rewrite Hcheck. destruct (check_spot_prices _ _ _ _) as [reason|] eqn:Hspot.
  { eexists _, _. split; [done|]. split_and!; [done..|]. by intros out [? _]%Hinv. }
  destruct (get_amount_out_guarded sim amount token_in token_out) as [result|e] eqn:Hout.
  2: { eexists _, _. split; [done|]. split_and!; [done..|]. by intros out (_ & ? & ? & _)%Hinv. }
  destruct (N.eqb_spec (gao_amount result) 0) as [|Hne].
  { eexists _, _. split; [done|]. split_and!; [done..|]. intros out (_ & ? & [= <-] & ? & _)%Hinv. done. }
  destruct (IH st' (gao_amount result) Hst') as (st2 & sold & -> & Hst2 & Honly2 & Hsold).
  exists st2, sold. split; [done|]. split; [done|]. split.
  { destruct Honly as (? & ? & ? & ?), Honly2 as (? & ? & ? & ?). split_and!; congruence. }
  pose proof (fun out => sells_hop amount u v c sim token_in token_out result hops out Hd Hspot Hout Hne) as Hhop.
  destruct sold.
  - destruct Hsold. split; [by apply Hhop|done].
  - intros out (_ & ? & [= <-] & _ & Hrest)%Hinv. by apply (Hsold out).
  - destruct Hsold as (hop & ? & ?). exists hop. by split; [right|].
  - destruct Hsold as (low & ? & ?). exists low. by split; [apply Hhop|].
Qed.

(** Every hop of a buy leg can be read for a sale. *)
Lemma bought_hop_data excluded token leg hop : bought excluded token leg -> hop ∈ rt_hops leg -> is_Some (hop_data hop).
Proof.
  intros Hb Hin. pose proof (bt_usable _ _ _ Hb) as Hus. rewrite Forall_forall in Hus. specialize (Hus hop Hin).
  destruct hop as [[u v] c]. destruct Hus as (_ & [tu Hu] & [tv Hv] & [sim Hs] & _). cbn in Hu, Hv.
  unfold sim_of in Hs. rewrite lookup_empty in Hs. apply fmap_Some in Hs as (sim' & Hs & _). cbn in Hs.
  unfold hop_data. cbn. rewrite Hs, Hu, Hv. by eexists.
Qed.

(** A leg whose pools refuse to sell what it bought back, and one whose pools pay too little for it. *)
Definition refused leg : Prop := forall out, ~ sells_back (rt_amount_out leg) (rev (rt_hops leg)) out.
Definition sells_low leg : Prop :=
  exists low, sells_back (rt_amount_out leg) (rev (rt_hops leg)) low /\ low < min_sell_out computation.

Lemma reverse_sell_spec st excluded token leg : state_ok st -> bought excluded token leg ->
  exists st' sold, reverse_sell spot_price pass st leg = (st', sold) /\ state_ok st' /\ only_checks st st' /\
    match sold with
    | Sold out => sells_back (rt_amount_out leg) (rev (rt_hops leg)) out /\ min_sell_out computation <= out
    | FlaggedPool _ _ => refused leg
    | LowSellOut => sells_low leg
    | MissingHopData => False
    end.
Proof.
  intros Hst Hb. unfold reverse_sell.
  destruct (reverse_hops_spec st (rt_amount_out leg) (rev (rt_hops leg)) Hst) as (st' & sold & -> & ? & ? & Hsold).
  exists st', sold. split; [done|]. split; [done|]. split; [done|]. destruct sold; [done|done| |done].
  destruct Hsold as (hop & Hin & Hnone). rewrite list_elem_of_In, <- in_rev, <- list_elem_of_In in Hin.
  destruct (bought_hop_data excluded token leg hop Hb Hin) as [? Hsome]. congruence.
Qed.

(** The first buy pass, which leaves the pools flagged earlier out, ends in time without the token. *)
Definition unreached token : Prop := exists run reach,
  reach_from_source_token decimals integer_decode (pp_algorithm pass) (buy_ctx (pp_earlier_flagged_components pass)) probe (pc_run clock run)
    = Ret reach /\ ro_reached reach !! token = None /\ ro_timed_out reach = false.

(** *** Sell solves *)

(** The route that the solver finds for an order of [amount] of the token, on the snapshot re-rooted
    at the token: it is valid, goes to the gas token, and [out] is what its pools answer in turn. *)
Record sale token (amount out : N) (components : list ComponentId) : Prop := {
  sl_solved : exists ctx v run result, pp_token_nodes pass !! token = Some v /\
    reroot_toward base (pp_graph pass) v (pp_gas_node pass) (pp_hops_to_gas pass) (bf_max_hops (pp_algorithm pass)) = (ctx, true) /\
    find_single_route decimals integer_decode (pp_algorithm pass) ctx (sell_order fresh_order_id pass token amount) ∅
      (pc_run clock run) = Ret (Ok result) /\
    Route_validate (rr_route result) = Ret (Ok tt) /\ input_token (rr_route result) = Some token /\
    output_token (rr_route result) = Some (gt_address gas_token) /\
    components = sw_component_id <$> rt_swaps (rr_route result) /\
    out = Route_amount_out (rr_route result) (gt_address gas_token);
  sl_paid : exists path v, bc_node_address base !! v = Some token /\ linked v path (pp_gas_node pass) /\
    components = path.*2 /\ paid amount path out;
  sl_out : out <> 0;
}.

(** Re-rooting reads nothing of a context that a pass changes. *)
Lemma reroot_frame ctx v ctx' : frame ctx ->
  reroot_toward ctx (pp_graph pass) v (pp_gas_node pass) (pp_hops_to_gas pass) (bf_max_hops (pp_algorithm pass)) = (ctx', true) ->
  reroot_toward base (pp_graph pass) v (pp_gas_node pass) (pp_hops_to_gas pass) (bf_max_hops (pp_algorithm pass)) = (ctx', true).
Proof.
  unfold frame, reroot_toward. intros Hf. destruct (get_subgraph_with_hop_map _ _ _ _ _); [|done]. intros [= <-].
  injection Hf as -> -> -> -> -> -> -> ->. done.
Qed.

Lemma reroot_spec ctx v : frame ctx -> is_Some (node_weight (pp_graph pass) v) ->
  let '(ctx', rerooted) := reroot_toward ctx (pp_graph pass) v (pp_gas_node pass) (pp_hops_to_gas pass)
                             (bf_max_hops (pp_algorithm pass)) in
  frame ctx' /\ (rerooted = true -> ctx_ok ctx' /\ bc_token_in_node ctx' = v /\ bc_token_out_node ctx' = Some (pp_gas_node pass)).
Proof.
  intros Hf Hv. unfold reroot_toward. destruct (get_subgraph_with_hop_map _ _ _ _ _) as [sg|] eqn:Hsg; [|done].
  split; [exact Hf|]. intros _. split; [|done].
  pose proof (subgraph_extracted _ (sn_graph Hsnap) _ _ _ _ _ _ Hv Hsg) as Hex.
  destruct (frame_reads _ Hf) as (_ & _ & _ & Hmax). split; cbn; rewrite Hmax, (sn_max Hsnap).
  - by apply index_bound.
  - intros u edges x c Hu Hx. destruct (ex_cross _ _ _ _ _ Hex _ _ _ _ Hu Hx) as (data & Hin & _ & _).
    apply index_bound. by apply (edges_closed _ (sn_graph Hsnap) u x data).
Qed.

(** What a path pays is read off any context of the pass alike. *)
Lemma frame_gross ctx : frame ctx -> gas_aware_price ctx = None /\
  (fun u => bc_token_map base !! u) = (fun u => bc_token_map ctx !! u) /\ sim_of base ∅ = sim_of ctx ∅.
Proof.
  unfold frame. intros Hf. injection Hf as Ht Hm _ _ _ _ _ Hs. unfold gas_aware_price, sim_of. by rewrite Ht, Hm, Hs, (sn_gross Hsnap).
Qed.

Lemma frame_distinct ctx : frame ctx -> tokens_distinct ctx.
Proof.
  intros (Ht & _ & _ & _)%frame_reads u v tu tv Hu Hv Heq. rewrite Ht in Hu, Hv.
  apply (sn_distinct Hsnap u v (token_address_of tu)); rewrite (sn_address Hsnap), lookup_fmap, ?Hu, ?Hv; cbn; congruence.
Qed.

Lemma addr_of_node ctx v a t : frame ctx -> bc_token_map ctx !! v = Some t -> bc_node_address base !! v = Some a ->
  addr_of ctx v = a.
Proof.
  intros (Ht & _ & _ & _)%frame_reads Hv Ha. unfold addr_of. rewrite Hv. cbn. rewrite Ht in Hv.
  rewrite (sn_address Hsnap), lookup_fmap, Hv in Ha. by injection Ha.
Qed.

Lemma solve_sell_leg_spec st token amount : state_ok st -> token <> gt_address gas_token ->
  exists st' r, solve_sell_leg decimals integer_decode show_algorithm_error fresh_order_id pass clock st token amount = Ret (st', r) /\
    state_ok st' /\
    match r with
    | Ok (out, components) => sale token amount out components
    | Err e => exists msg, e = MissingSellRoute msg
    end.
Proof.
  intros Hst Htok. unfold solve_sell_leg.
  destruct (pp_token_nodes pass !! token) as [v|] eqn:Hv; [|eexists _, _; split; [done|]; split; [done|]; by eexists].
  apply (sn_nodes Hsnap) in Hv. pose proof (sn_in_graph Hsnap _ _ Hv) as Hnode.
  assert (pp_gas_node pass <> v) as Hne by (intros <-; by apply Htok, (sn_gas_token Hsnap)).
  pose proof (reroot_spec (ps_ctx st) v (sk_frame _ Hst) Hnode) as Hre. destruct (reroot_toward _ _ _ _ _ _) as [ctx rerooted] eqn:Hroot.
  destruct Hre as [Hf Hre]. destruct rerooted; cbn [negb].
  2: { eexists _, _. split; [done|]. split; [|by eexists]. split; [done|apply (sk_checks _ Hst)|apply (sk_buys _ Hst)]. }
  destruct (Hre eq_refl) as (Hctx & Hin & Hout). destruct (frame_reads _ Hf) as (Htm & _ & _ & Hmax).
  destruct (find_single_route_solved decimals integer_decode (pp_algorithm pass) ctx ∅ Hctx (sell_order fresh_order_id pass token amount)
    (pc_run clock (ps_runs st)) (pp_gas_node pass) Hout) as (spfa & r & _ & Hrel & Hfind & Hr);
    [congruence|rewrite Hmax; apply (sn_gas Hsnap)|].
  rewrite Hfind.
  cbn [mbind outcome_bind]. eexists _, _. split; [done|]. split; [split; [exact Hf|apply (sk_checks _ Hst)|apply (sk_buys _ Hst)]|].
  destruct r as [result|e]; [|by eexists]. cbn zeta. destruct (N.eqb_spec (Route_amount_out (rr_route result) (gt_address gas_token)) 0) as [|Hnz];
    [by eexists|]. destruct Hr as [Hread _]. destruct (ends_known _ _ _ _ _ _ Hread) as [[tin Htin] [tout Htout]].
  rewrite Hin in Htin. pose proof (frame_distinct _ Hf) as Hdist.
  pose proof (read_off_solved _ _ _ _ _ _ _ _ _ Hdist Hrel Hread) as
    [Hvalid (f & Hfirst & Hfin & _) (l & Hl & Hlout & _) _ _ _].
  assert (bc_node_address base !! pp_gas_node pass = Some (token_address_of tout)) as Hgas
    by (by rewrite (sn_address Hsnap), lookup_fmap, <- Htm, Htout).
  pose proof (addr_of_node ctx _ _ tout Hf Htout Hgas) as Hgasaddr.
  pose proof (sn_gas_token Hsnap _ Hgas) as Hgastoken.
  destruct Hread as (path & best & Hp & Hpne & Hbest & Hbnz & Hswaps & _).
  pose proof (path_amount_out (pp_algorithm pass) ctx ∅ _ _ path best _ Hdist Hp Hpne Hbest Hswaps) as Hamount. rewrite Hgasaddr, Hgastoken in Hamount.
  split; [| |done].
  - exists ctx, v, (ps_runs st), result. split; [by apply (sn_nodes Hsnap)|]. split; [by apply (reroot_frame (ps_ctx st)); [apply (sk_frame _ Hst)|]|].
    split; [done|]. split; [done|]. split; [|split; [|done]].
    + unfold input_token. rewrite Hfirst. cbn. f_equal. rewrite Hfin, Hin. by apply (addr_of_node ctx v token tin).
    + unfold output_token. rewrite Hl. cbn. f_equal. by rewrite Hlout, Hgasaddr.
  - exists path, v. split; [done|]. split; [rewrite <- Hin; apply (pt_linked _ _ _ _ _ _ Hp)|]. split.
    + symmetry. clear - Hswaps. induction Hswaps as [|hop s path swaps (? & ? & ? & ? & _ & _ & _ & _ & ->) _ IH]; [done|]. cbn. by f_equal.
    + rewrite Hamount. destruct (frame_gross _ Hf) as (Hgross & -> & ->).
      exact (relaxed_paid decimals integer_decode (pp_algorithm pass) ctx ∅ Hctx Hgross amount (sp_nodes spfa) _ path best Hrel Hp Hbest).
Qed.

(** *** The outcomes *)

(** What a price rests on: a buy leg, and what selling its amount back returned. The same pools in reverse
    come first; where they pay too little the sell solve takes their place in the mean; where they
    refuse, or no leg avoids the pools flagged earlier, the sell solve counts alone. *)
Inductive price_backed token : PricedToken -> Prop :=
| backed_by_reverse_sell leg out :
    bought (pp_earlier_flagged_components pass) token leg ->
    sells_back (rt_amount_out leg) (rev (rt_hops leg)) out -> min_sell_out computation <= out ->
    price_backed token (build_price_entry computation leg out)
| backed_by_sale leg out components :
    bought (pp_earlier_flagged_components pass) token leg -> sells_low leg -> sale token (rt_amount_out leg) out components ->
    price_backed token (extend_route (build_price_entry computation leg out) components)
| backed_by_sale_alone leg out components :
    bought ∅ token leg -> refused leg \/ unreached token -> sale token (rt_amount_out leg) out components ->
    price_backed token (extend_route (build_sell_rate_entry leg out gas_token) components).

Definition leg_ok token (leg : SellSolveBuyLeg) : Prop :=
  match leg with
  | Trusted route => bought (pp_earlier_flagged_components pass) token route /\ sells_low route
  | ThroughFlaggedPool route => bought ∅ token route /\ (refused route \/ unreached token)
  end.

(** A leg of the first buy pass whose pools refuse the sale. *)
Definition flagged_ok token (leg : ReachedToken) : Prop := bought (pp_earlier_flagged_components pass) token leg /\ refused leg.

Lemma flagged_through token leg : flagged_ok token leg -> leg_ok token (ThroughFlaggedPool leg).
Proof.
  intros [Hb Hr]. split; [|by left]. by apply (bought_weaken (pp_earlier_flagged_components pass)); [apply empty_subseteq|].
Qed.

(** An outcome of the steps before the sell solves. *)
Definition early_outcome_ok token (outcome : TokenPricingOutcome) : Prop :=
  match outcome with
  | Priced priced => price_backed token priced
  | PricingFailed _ => False
  | Unattempted => ~ in_time
  | Unreachable => True
  end.

Record work_ok (flagged : gmap Address ReachedToken) (sells : gmap Address SellSolveBuyLeg)
    (outcomes : gmap Address TokenPricingOutcome) : Prop := {
  wo_flagged : forall token leg, flagged !! token = Some leg -> flagged_ok token leg;
  wo_sells : forall token leg, sells !! token = Some leg -> leg_ok token leg;
  wo_outcomes : forall token outcome, outcomes !! token = Some outcome -> early_outcome_ok token outcome;
}.

Lemma work_flagged flagged sells outcomes token leg : work_ok flagged sells outcomes ->
  flagged_ok token leg -> work_ok (<[token := leg]> flagged) sells outcomes.
Proof. intros [Hf Hs Ho] Hleg. split; try done. intros t l [[<- <-]|[_ ?]]%lookup_insert_Some; [done|by apply Hf]. Qed.

Lemma work_sells flagged sells outcomes token leg : work_ok flagged sells outcomes ->
  leg_ok token leg -> work_ok flagged (<[token := leg]> sells) outcomes.
Proof. intros [Hf Hs Ho] Hleg. split; try done. intros t l [[<- <-]|[_ ?]]%lookup_insert_Some; [done|by apply Hs]. Qed.

Lemma work_outcomes flagged sells outcomes token outcome : work_ok flagged sells outcomes ->
  early_outcome_ok token outcome -> work_ok flagged sells (<[token := outcome]> outcomes).
Proof. intros [Hf Hs Ho] Hout. split; try done. intros t l [[<- <-]|[_ ?]]%lookup_insert_Some; [done|by apply Ho]. Qed.

Lemma adjacency_all : build_adjacency_without pass ∅ = pp_full_adjacency pass.
Proof. unfold build_adjacency_without. by rewrite decide_True. Qed.

Lemma buys_ok_taken excluded buys token : buys_ok excluded buys -> buys_ok excluded (take_reached buys token).
Proof. intros Hb t leg Ht. cbn in Ht. apply lookup_delete_Some in Ht as [_ Ht]. by apply Hb. Qed.

Lemma queue_through_spec st token queued outcomes : state_ok st -> unreached token ->
  work_ok (on_flagged_routes queued) (for_sell_solve queued) outcomes ->
  exists st' queued' outcome,
    queue_sell_solve_through_flagged_pools decimals integer_decode pass clock st token queued = Ret (st', queued', outcome) /\
    state_ok st' /\ work_ok (on_flagged_routes queued') (for_sell_solve queued') outcomes /\
    on_flagged_routes queued' = on_flagged_routes queued /\
    match outcome with
    | Some outcome => queued' = queued /\ early_outcome_ok token outcome
    | None => exists leg, for_sell_solve queued' = <[token := leg]> (for_sell_solve queued)
    end.
Proof.
  intros Hst Hunr Hw. unfold queue_sell_solve_through_flagged_pools. destruct (_ || _).
  { by exists st, queued, (Some Unreachable). }
  assert (exists st' buys, match ps_buys_through_all_pools st with
      | Some buys => Ret (st, buys)
      | None => run_buy_pass decimals integer_decode pass clock st (pp_full_adjacency pass)
      end = Ret (st', buys) /\ state_ok st' /\ buys_ok ∅ buys /\ (in_time -> ro_timed_out buys = false)) as
    (st' & buys & -> & Hst' & Hb & Htime).
  { destruct (ps_buys_through_all_pools st) as [buys|] eqn:Hbuys.
    - exists st, buys. split; [done|]. split; [done|]. by apply (sk_buys _ Hst).
    - rewrite <- adjacency_all. destruct (run_buy_pass_spec st ∅ Hst) as (buys & -> & ? & ? & ? & _). by eexists _, _. }
  cbn [mbind outcome_bind].
  assert (state_ok (keep_buys st' (take_reached buys token))) as Hkept.
  { split; cbn; [apply (sk_frame _ Hst')|apply (sk_checks _ Hst')|]. intros b [= <-]. split; [by apply buys_ok_taken|done]. }
  destruct (ro_reached buys !! token) as [leg|] eqn:Hleg; eexists _, _, _; (split; [done|]); split; try done; split; try done; cbn.
  - apply work_sells; [done|]. split; [by apply Hb|by right].
  - split; [done|]. by exists (ThroughFlaggedPool leg).
  - split; [done|]. split; [done|]. destruct (ro_timed_out buys) eqn:Hto; [|done]. intros Hin. by specialize (Htime Hin).
Qed.

(** *** The first step *)

(** What a token has become once a step is done with it. *)
Definition settled (flagged : gmap Address ReachedToken) (sells : gmap Address SellSolveBuyLeg)
    (outcomes : gmap Address TokenPricingOutcome) token : Prop :=
  is_Some (outcomes !! token) \/ is_Some (flagged !! token) \/ is_Some (sells !! token).

(** What the first buy pass did not reach of the tokens still to come. *)
Definition misses_ok (tokens : list Address) (buys : ReachOutcome) : Prop :=
  forall token, token ∈ tokens -> ro_reached buys !! token = None -> ro_timed_out buys = false -> unreached token.

Lemma misses_taken tokens token buys : token ∉ tokens -> misses_ok tokens buys -> misses_ok tokens (take_reached buys token).
Proof.
  intros Hout Hm t Ht Hnone Htime. apply (Hm t Ht); [|done]. cbn in Hnone. rewrite lookup_delete_ne in Hnone; [done|]. by intros ->.
Qed.

Lemma price_with_reverse_sell_spec st token tokens buys queued outcomes : state_ok st -> token ∉ tokens ->
  misses_ok (token :: tokens) buys ->
  buys_ok (pp_earlier_flagged_components pass) buys -> (in_time -> ro_timed_out buys = false) ->
  work_ok (on_flagged_routes queued) (for_sell_solve queued) outcomes ->
  exists st' buys' queued' outcome,
    price_with_reverse_sell decimals integer_decode spot_price pass clock st token buys queued = Ret (st', buys', queued', outcome) /\
    let outcomes' := match outcome with Some outcome => <[token := outcome]> outcomes | None => outcomes end in
    state_ok st' /\ misses_ok tokens buys' /\
    buys_ok (pp_earlier_flagged_components pass) buys' /\ (in_time -> ro_timed_out buys' = false) /\
    work_ok (on_flagged_routes queued') (for_sell_solve queued') outcomes' /\
    forall t, t = token \/ settled (on_flagged_routes queued) (for_sell_solve queued) outcomes t ->
      settled (on_flagged_routes queued') (for_sell_solve queued') outcomes' t.
Proof.
  intros Hst Hout Hmiss Hb Htime Hw. unfold price_with_reverse_sell, settled.
  assert (misses_ok tokens buys) as Hmiss' by (intros t Ht; apply Hmiss; by right).
  destruct (ro_reached buys !! token) as [leg|] eqn:Hleg.
  - pose proof (Hb _ _ Hleg) as Hbought. destruct (reverse_sell_spec st _ token leg Hst Hbought) as (st' & sold & -> & Hst' & _ & Hsold).
    assert (buys_ok (pp_earlier_flagged_components pass) (take_reached buys token)) as Hb' by (by apply buys_ok_taken).
    pose proof (misses_taken tokens token buys Hout Hmiss') as Hmiss1.
    destruct sold; [..|done|]; (eexists _, _, _, _; split; [done|]); cbn zeta; split_and!; try done; cbn;
      try (intros t [->|Ht]; rewrite ?lookup_insert_is_Some'; naive_solver).
    + apply work_outcomes; [done|]. destruct Hsold. by apply backed_by_reverse_sell.
    + destruct Hst' as [? ? ?]. by split.
    + by apply work_flagged.
    + by apply work_sells.
  - destruct (ro_timed_out buys) eqn:Hto.
    + eexists _, _, _, _. split; [done|]. cbn zeta. split_and!; try done.
      * by rewrite Hto.
      * apply work_outcomes; [done|]. cbn. intros Hin. by specialize (Htime Hin).
      * intros t [->|Ht]; rewrite ?lookup_insert_is_Some'; naive_solver.
    + assert (unreached token) as Hunr by (apply Hmiss; [left|done|done]).
      destruct (queue_through_spec st token queued outcomes Hst Hunr Hw) as (st' & queued' & outcome & -> & Hst' & Hw' & Hf & Hres).
      cbn [mbind outcome_bind]. eexists _, _, _, _. split; [done|]. cbn zeta. split_and!; try done.
      * destruct outcome as [outcome|]; [|done]. apply work_outcomes; [done|apply Hres].
      * rewrite Hf. destruct outcome as [outcome|].
        -- destruct Hres as [-> _]. intros t [->|Ht]; rewrite ?lookup_insert_is_Some'; naive_solver.
        -- destruct Hres as [leg ->]. intros t [->|Ht]; rewrite ?lookup_insert_is_Some'; naive_solver.
Qed.

Lemma reverse_sells_spec tokens i st buys queued outcomes : state_ok st -> NoDup tokens -> misses_ok tokens buys ->
  buys_ok (pp_earlier_flagged_components pass) buys -> (in_time -> ro_timed_out buys = false) ->
  work_ok (on_flagged_routes queued) (for_sell_solve queued) outcomes ->
  exists st' buys' queued' outcomes',
    reverse_sells decimals integer_decode spot_price pass clock tokens i st buys queued outcomes = Ret (st', buys', queued', outcomes') /\
    state_ok st' /\ work_ok (on_flagged_routes queued') (for_sell_solve queued') outcomes' /\
    ((forall k, pc_reverse_sell clock k < tg_pass_budget computation) -> forall t,
      t ∈ tokens \/ settled (on_flagged_routes queued) (for_sell_solve queued) outcomes t ->
      settled (on_flagged_routes queued') (for_sell_solve queued') outcomes' t).
Proof.
  revert i st buys queued outcomes. induction tokens as [|token tokens IH]; intros i st buys queued outcomes Hst Hnd Hm Hb Ht Hw; cbn [reverse_sells].
  { eexists _, _, _, _. split; [done|]. split_and!; [done..|]. intros _ t [[]%elem_of_nil|?]; done. }
  destruct (N.leb_spec (tg_pass_budget computation) (pc_reverse_sell clock i)) as [Hle|Hgt].
  { eexists _, _, _, _. split; [done|]. split_and!; [done..|]. intros Hclock. specialize (Hclock i). lia. }
  apply NoDup_cons in Hnd as [Hout Hnd].
  destruct (price_with_reverse_sell_spec st token tokens buys queued outcomes Hst Hout Hm Hb Ht Hw)
    as (st1 & buys1 & queued1 & outcome & -> & Hst1 & Hm1 & Hb1 & Ht1 & Hw1 & Hs1). cbn [mbind outcome_bind].
  destruct (IH (S i) st1 buys1 queued1 _ Hst1 Hnd Hm1 Hb1 Ht1 Hw1) as (st2 & buys2 & queued2 & outcomes2 & -> & Hst2 & Hw2 & Hs2).
  eexists _, _, _, _. split; [done|]. split_and!; [done..|]. intros Hclock t Hin. apply (Hs2 Hclock).
  rewrite elem_of_cons in Hin. destruct Hin as [[->|?]|?]; [right; apply Hs1; by left|by left|right; apply Hs1; by right].
Qed.

(** *** The second step *)

Lemma second_route_spec excluded buys flagged st outcomes sells token route : pp_earlier_flagged_components pass ⊆ excluded ->
  buys_ok excluded buys -> (in_time -> ro_timed_out buys = false) -> state_ok st -> work_ok flagged sells outcomes ->
  flagged_ok token route ->
  exists st' outcomes' sells',
    price_on_second_route spot_price pass buys (st, outcomes, sells) (token, route) = (st', outcomes', sells') /\
    state_ok st' /\ work_ok flagged sells' outcomes' /\
    (in_time -> forall t, t = token \/ settled ∅ sells outcomes t -> settled ∅ sells' outcomes' t).
Proof.
  intros Hsub Hb Htime Hst Hw Hroute. cbn [price_on_second_route]. unfold settled.
  pose proof (flagged_through token route Hroute) as Hleg.
  destruct (ro_reached buys !! token) as [leg|] eqn:Hl.
  - assert (bought (pp_earlier_flagged_components pass) token leg) as Hbought by (by apply (bought_weaken excluded), Hb).
    destruct (reverse_sell_spec st _ token leg Hst Hbought) as (st' & sold & -> & Hst' & _ & Hsold).
    destruct sold; [..|done|]; (eexists _, _, _; split; [done|]); split_and!; try done;
      try (intros _ t [->|Ht]; rewrite ?lookup_insert_is_Some'; naive_solver).
    + apply work_outcomes; [done|]. destruct Hsold. by apply backed_by_reverse_sell.
    + destruct Hst' as [? ? ?]. by split.
    + by apply work_sells.
    + by apply work_sells.
  - eexists _, _, _. split; [done|]. split_and!; [done| |].
    + destruct (ro_timed_out buys); [done|by apply work_sells].
    + intros Hin t Ht. rewrite (Htime Hin), lookup_insert_is_Some'. naive_solver.
Qed.

Lemma second_routes_spec excluded buys flagged entries st outcomes sells : pp_earlier_flagged_components pass ⊆ excluded ->
  buys_ok excluded buys -> (in_time -> ro_timed_out buys = false) -> state_ok st -> work_ok flagged sells outcomes ->
  (forall token route, (token, route) ∈ entries -> flagged !! token = Some route) ->
  exists st' outcomes' sells',
    fold_left (price_on_second_route spot_price pass buys) entries (st, outcomes, sells) = (st', outcomes', sells') /\
    state_ok st' /\ work_ok flagged sells' outcomes' /\
    (in_time -> forall t, t ∈ entries.*1 \/ settled ∅ sells outcomes t -> settled ∅ sells' outcomes' t).
Proof.
  intros Hsub Hb Htime. revert st outcomes sells. induction entries as [|[token route] entries IH]; intros st outcomes sells Hst Hw Hin.
  { eexists _, _, _. split; [done|]. split_and!; [done..|]. intros _ t [[]%elem_of_nil|?]; done. }
  cbn [fold_left]. destruct (second_route_spec excluded buys flagged st outcomes sells token route Hsub Hb Htime Hst Hw)
    as (st1 & outcomes1 & sells1 & -> & Hst1 & Hw1 & Hs1); [apply (wo_flagged _ _ _ Hw), Hin; by left|].
  destruct (IH st1 outcomes1 sells1 Hst1 Hw1) as (st2 & outcomes2 & sells2 & -> & Hst2 & Hw2 & Hs2); [intros t r ?; apply Hin; by right|].
  eexists _, _, _. split; [done|]. split_and!; [done..|]. intros Ht t Hi. apply (Hs2 Ht). cbn in Hi. rewrite elem_of_cons in Hi.
  destruct Hi as [[->|?]|?]; [right; apply Hs1; [done|by left]|by left|right; apply Hs1; [done|by right]].
Qed.

Lemma price_without_flagged_spec st flagged outcomes sells : state_ok st -> work_ok flagged sells outcomes ->
  exists st' outcomes' sells',
    price_without_flagged_pools decimals integer_decode spot_price pass clock st flagged outcomes sells = Ret (st', outcomes', sells') /\
    state_ok st' /\ work_ok flagged sells' outcomes' /\
    (in_time -> forall t, settled flagged sells outcomes t -> settled ∅ sells' outcomes' t).
Proof.
  intros Hst Hw. unfold price_without_flagged_pools. case_decide as Hempty.
  { subst. eexists _, _, _. split; [done|]. by split_and!. }
  set (excluded := pp_earlier_flagged_components pass ∪ ps_new_flagged_components st).
  destruct (run_buy_pass_spec st excluded Hst) as (buys & -> & Hb & Htime & Hst1 & _). cbn [mbind outcome_bind].
  destruct (second_routes_spec excluded buys flagged (map_to_list flagged) (ran st (buy_ctx excluded)) outcomes sells)
    as (st2 & outcomes2 & sells2 & -> & Hst2 & Hw2 & Hs2); [apply union_subseteq_l|done|done|done|done|intros t r; apply elem_of_map_to_list|].
  eexists _, _, _. split; [done|]. split_and!; [done..|]. intros Hin t Ht. apply (Hs2 Hin). destruct Ht as [?|[[r Hr]|?]].
  - right. by left.
  - left. apply list_elem_of_fmap. exists (t, r). split; [done|]. by apply elem_of_map_to_list.
  - right. by right; right.
Qed.

(** *** The third step *)

(** An outcome of the whole pass. *)
Definition outcome_ok token (outcome : TokenPricingOutcome) : Prop :=
  match outcome with
  | Priced priced => price_backed token priced
  | PricingFailed error => exists msg, error = MissingSellRoute msg
  | Unattempted => ~ in_time
  | Unreachable => True
  end.

Definition is_failed (outcome : TokenPricingOutcome) : bool :=
  match outcome with PricingFailed _ => true | _ => false end.

Definition failures (outcomes : gmap Address TokenPricingOutcome) : gset Address :=
  dom (filter (fun kv => is_failed kv.2 = true) outcomes).

Lemma failures_elem outcomes token : token ∈ failures outcomes <->
  exists outcome, outcomes !! token = Some outcome /\ is_failed outcome = true.
Proof.
  unfold failures. rewrite elem_of_dom. split.
  - intros [o [Hl Hf]%map_lookup_filter_Some]. by exists o.
  - intros (o & Hl & Hf). exists o. by apply map_lookup_filter_Some.
Qed.

Lemma failures_insert outcomes token outcome :
  (size (failures (<[token := outcome]> outcomes)) <= S (size (failures outcomes)))%nat.
Proof.
  assert (failures (<[token := outcome]> outcomes) ⊆ {[ token ]} ∪ failures outcomes) as Hsub.
  { intros t (o & Hl & Hf)%failures_elem. apply elem_of_union.
    apply lookup_insert_Some in Hl as [[<- _]|[_ Hl]]; [left; by apply elem_of_singleton|right].
    apply failures_elem. by exists o. }
  apply subseteq_size in Hsub. etrans; [exact Hsub|]. rewrite size_union_alt, size_singleton. cbn.
  apply le_n_S, subseteq_size, subseteq_difference_l. done.
Qed.

Lemma price_with_sell_solve_spec st token leg : state_ok st -> token <> gt_address gas_token -> leg_ok token leg ->
  exists st' outcome,
    price_with_sell_solve decimals integer_decode show_algorithm_error fresh_order_id pass clock st token leg = Ret (st', outcome) /\
    state_ok st' /\ outcome_ok token outcome.
Proof.
  intros Hst Htok Hleg. unfold price_with_sell_solve.
  destruct (solve_sell_leg_spec st token (rt_amount_out (buy_route leg)) Hst Htok) as (st' & r & -> & Hst' & Hr).
  cbn [mbind outcome_bind]. eexists _, _. split; [done|]. split; [done|]. cbn. destruct r as [[out components]|e]; [|done].
  destruct leg as [route|route]; destruct Hleg; [by apply backed_by_sale|by apply backed_by_sale_alone].
Qed.

Lemma run_sell_solves_spec tokens i sell_solves st sells outcomes : state_ok st ->
  Forall (fun token => token <> gt_address gas_token) tokens ->
  (forall token leg, sells !! token = Some leg -> leg_ok token leg) ->
  (forall token outcome, outcomes !! token = Some outcome -> outcome_ok token outcome) ->
  (size (failures outcomes) <= sell_solves <= tg_max_sell_solves_per_pass computation)%nat ->
  exists st' outcomes',
    run_sell_solves decimals integer_decode show_algorithm_error fresh_order_id pass clock tokens i sell_solves st sells outcomes
      = Ret (st', outcomes') /\
    (forall token outcome, outcomes' !! token = Some outcome -> outcome_ok token outcome) /\
    (size (failures outcomes') <= tg_max_sell_solves_per_pass computation)%nat /\
    (forall t, is_Some (outcomes !! t) -> is_Some (outcomes' !! t)) /\
    ((forall k, pc_sell_solve clock k < tg_pass_budget computation) ->
     (sell_solves + length tokens <= tg_max_sell_solves_per_pass computation)%nat ->
     forall t, t ∈ tokens -> is_Some (sells !! t) -> is_Some (outcomes' !! t)).
Proof.
  revert i sell_solves st sells outcomes.
  induction tokens as [|token tokens IH]; intros i sell_solves st sells outcomes Hst Hgas Hsells Houts Hsize; cbn [run_sell_solves].
  { eexists _, _. split; [done|]. split_and!; [done|lia|done|]. by intros _ _ t []%elem_of_nil. }
  apply Forall_cons in Hgas as [Htok Hgas].
  destruct (_ || _) eqn:Hstop.
  { eexists _, _. split; [done|]. split_and!; [done|lia|done|]. cbn. intros Hclock Hlen. specialize (Hclock i).
    apply orb_true_iff in Hstop as [?%N.leb_le|?%Nat.leb_le]; lia. }
  apply orb_false_iff in Hstop as [_ Hcap%Nat.leb_gt]. destruct (sells !! token) as [leg|] eqn:Hleg.
  - destruct (price_with_sell_solve_spec st token leg Hst Htok (Hsells _ _ Hleg)) as (st1 & outcome & -> & Hst1 & Hout).
    cbn [mbind outcome_bind fst snd]. pose proof (failures_insert outcomes token outcome).
    destruct (IH (S i) (S sell_solves) st1 (delete token sells) (<[token := outcome]> outcomes) Hst1 Hgas)
      as (st2 & outcomes2 & -> & Hok & Hbound & Hkeep & Hall);
      [by intros t l [_ ?]%lookup_delete_Some; apply Hsells| |lia|].
    { intros t o [[<- <-]|[_ ?]]%lookup_insert_Some; [done|by apply Houts]. }
    eexists _, _. split; [done|]. split_and!; [done|done| |].
    + intros t Ht. apply Hkeep, lookup_insert_is_Some'. by right.
    + cbn. intros Hclock Hlen t Hin Hs. destruct (decide (t = token)) as [->|Hne].
      * apply Hkeep, lookup_insert_is_Some'. by left.
      * apply elem_of_cons in Hin as [?|Hin]; [done|]. apply Hall; [done|lia|done|]. by rewrite lookup_delete_ne.
  - destruct (IH (S i) sell_solves st sells outcomes Hst Hgas Hsells Houts Hsize) as (st2 & outcomes2 & -> & Hok & Hbound & Hkeep & Hall).
    eexists _, _. split; [done|]. split_and!; [done..|]. cbn. intros Hclock Hlen t Hin Hs.
    apply elem_of_cons in Hin as [->|Hin]; [by destruct Hs; congruence|]. apply Hall; [done|lia|done|done].
Qed.

(** *** The whole pass *)

Lemma token_outcomes_alt tokens (outcomes : gmap Address TokenPricingOutcome) : NoDup tokens ->
  token_outcomes tokens outcomes = (fun token => (token, default Unattempted (outcomes !! token))) <$> tokens.
Proof.
  intros Hnd. revert outcomes. induction Hnd as [|token tokens Hout _ IH]; intros outcomes; [done|].
  cbn [token_outcomes fmap list_fmap]. rewrite IH. f_equal. apply list_fmap_ext. intros i t Ht.
  rewrite lookup_delete_ne; [done|]. intros ->. by apply Hout, (list_elem_of_lookup_2 _ i).
Qed.

Definition failed_entries (entries : list (Address * TokenPricingOutcome)) : list (Address * FailedItemError) :=
  omap (fun entry => match entry.2 with PricingFailed error => Some (entry.1, error) | _ => None end) entries.

Lemma failed_entries_elem entries token error : (token, error) ∈ failed_entries entries <-> (token, PricingFailed error) ∈ entries.
Proof.
  unfold failed_entries. rewrite list_elem_of_omap. split.
  - intros ([t o] & Hin & Ho). cbn in Ho. destruct o; try done. by injection Ho as -> ->.
  - intros Hin. by exists (token, PricingFailed error).
Qed.

Lemma failed_entries_NoDup entries : NoDup entries.*1 -> NoDup (failed_entries entries).*1.
Proof.
  induction entries as [|[t o] entries IH]; cbn; [done|]. intros [Hout Hnd]%NoDup_cons.
  destruct o; cbn; try by apply IH. constructor; [|by apply IH].
  intros ([t' e] & -> & Hin%failed_entries_elem)%list_elem_of_fmap. apply Hout, list_elem_of_fmap. by exists (t', PricingFailed e).
Qed.

Lemma failed_entries_bound tokens (outcomes : gmap Address TokenPricingOutcome) : NoDup tokens ->
  (length (failed_entries (token_outcomes tokens outcomes)) <= size (failures outcomes))%nat.
Proof.
  intros Hnd. rewrite token_outcomes_alt by done. set (entries := _ <$> tokens).
  assert (NoDup (failed_entries entries).*1) as Hf.
  { apply failed_entries_NoDup. unfold entries. by rewrite <- list_fmap_compose, list_fmap_id. }
  rewrite <- (length_fmap fst), <- (size_list_to_set (C := gset Address)) by done. apply subseteq_size.
  intros t [[t' e] [-> Hin%failed_entries_elem]]%elem_of_list_to_set%list_elem_of_fmap. cbn.
  apply list_elem_of_fmap in Hin as (x & Hx & _). injection Hx as -> Hx. apply failures_elem.
  destruct (outcomes !! x) as [o|]; [|done]. cbn in Hx. subst. by eexists.
Qed.

(** Nothing cuts the pass short. *)
Record unhurried (tokens : list Address) : Prop := {
  uh_runs : in_time;
  uh_reverse : forall k, pc_reverse_sell clock k < tg_pass_budget computation;
  uh_second : pc_second_buy_pass clock < tg_pass_budget computation;
  uh_solves : forall k, pc_sell_solve clock k < tg_pass_budget computation;
  uh_cap : (length tokens <= tg_max_sell_solves_per_pass computation)%nat;
}.

Definition entry_ok (entry : Address * TokenPricingOutcome) : Prop :=
  match entry.2 with
  | Priced priced => price_backed entry.1 priced
  | PricingFailed error => exists msg, error = MissingSellRoute msg
  | Unattempted | Unreachable => True
  end.

Lemma early_ok token outcome : early_outcome_ok token outcome -> outcome_ok token outcome.
Proof. by destruct outcome. Qed.

Lemma early_no_failures flagged sells outcomes : work_ok flagged sells outcomes -> failures outcomes = ∅.
Proof.
  intros Hw. apply set_eq. intros t. rewrite failures_elem. split; [|by intros ?%elem_of_empty].
  intros (o & Ho & Hf). pose proof (wo_outcomes _ _ _ Hw _ _ Ho). by destruct o.
Qed.

Lemma price_each_spec st tokens : state_ok st -> NoDup tokens -> Forall (fun token => token <> gt_address gas_token) tokens ->
  exists st' entries,
    price_each decimals integer_decode spot_price show_algorithm_error fresh_order_id pass clock st tokens = Ret (st', entries) /\
    entries.*1 = tokens /\ Forall entry_ok entries /\
    (length (failed_entries entries) <= tg_max_sell_solves_per_pass computation)%nat /\
    (unhurried tokens -> Forall (fun entry => entry.2 <> Unattempted) entries).
Proof.
  intros Hst Hnd Hgas. unfold price_each.
  destruct (run_buy_pass_spec st (pp_earlier_flagged_components pass) Hst) as (buys & -> & Hb & Htime & Hst1 & Hreach).
  cbn [mbind outcome_bind].
  destruct (reverse_sells_spec tokens 0 (ran st (buy_ctx (pp_earlier_flagged_components pass))) buys QueuedTokens_default ∅)
    as (st2 & buys2 & queued & outcomes & -> & Hst2 & Hw & Hs); [done|done|intros t _ Hnone Hto; by exists (ps_runs st), buys|done|done|by split|]. cbn [mbind outcome_bind].
  assert (exists st3 outcomes3 sells3, (if pc_second_buy_pass clock <? tg_pass_budget computation
      then price_without_flagged_pools decimals integer_decode spot_price pass clock st2 (on_flagged_routes queued) outcomes (for_sell_solve queued)
      else Ret (st2, outcomes, for_sell_solve queued)) = Ret (st3, outcomes3, sells3) /\ state_ok st3 /\
      work_ok (on_flagged_routes queued) sells3 outcomes3 /\
      (unhurried tokens -> forall t, t ∈ tokens -> settled ∅ sells3 outcomes3 t)) as (st3 & outcomes3 & sells3 & -> & Hst3 & Hw3 & Hs3).
  { destruct (N.ltb_spec (pc_second_buy_pass clock) (tg_pass_budget computation)) as [_|Hlate].
    - destruct (price_without_flagged_spec st2 _ _ _ Hst2 Hw) as (st3 & outcomes3 & sells3 & -> & Hst3 & Hw3 & Hs3).
      eexists _, _, _. split; [done|]. split_and!; [done..|]. intros Hu t Ht. apply (Hs3 (uh_runs _ Hu)), (Hs (uh_reverse _ Hu)). by left.
    - eexists _, _, _. split; [done|]. split_and!; [done..|]. intros Hu. pose proof (uh_second _ Hu). lia. }
  cbn [mbind outcome_bind].
  destruct (run_sell_solves_spec tokens 0 0 st3 sells3 outcomes3 Hst3 Hgas (wo_sells _ _ _ Hw3))
    as (st4 & outcomes4 & -> & Hok & Hbound & Hkeep & Hall).
  { intros t o Ho. by apply early_ok, (wo_outcomes _ _ _ Hw3). }
  { rewrite (early_no_failures _ _ _ Hw3), size_empty. lia. }
  cbn [mbind outcome_bind]. eexists _, _. split; [done|]. pose proof (failed_entries_bound tokens outcomes4 Hnd) as Hf.
  rewrite token_outcomes_alt in * by done. split; [|split; [|split; [lia|]]].
  - by rewrite <- list_fmap_compose, list_fmap_id.
  - apply Forall_fmap, Forall_forall. intros t _. cbn. destruct (outcomes4 !! t) as [o|] eqn:Ho; [|done].
    specialize (Hok t o Ho). by destruct o.
  - intros Hu. apply Forall_fmap, Forall_forall. intros t Ht. cbn.
    assert (is_Some (outcomes4 !! t)) as [o Ho].
    { destruct (Hs3 Hu t Ht) as [Ho|[[? []%lookup_empty_Some]|Hsell]]; [by apply Hkeep|].
      apply Hall; [apply (uh_solves _ Hu)|apply (uh_cap _ Hu)|done|done]. }
    rewrite Ho. cbn. specialize (Hok t o Ho). intros ->. by apply Hok, (uh_runs _ Hu).
Qed.
End pass.

(** *** Sorting the outcomes *)

Section sorting.
Context (show_address : Address -> string).
Implicit Types (acc : PricingPassOutcome) (entries : list (Address * TokenPricingOutcome)).
#[local] Abbreviation sorted entries acc := (fold_left (sort_outcome show_address) entries acc).

Lemma sorted_rest entries acc :
  po_block (sorted entries acc) = po_block acc /\
  po_new_flagged_components (sorted entries acc) = po_new_flagged_components acc /\
  po_failed_items (sorted entries acc) = po_failed_items acc
    ++ ((fun failed => {| fi_key := show_address failed.1; fi_error := failed.2 |}) <$> failed_entries entries).
Proof.
  revert acc. induction entries as [|[t o] entries IH]; intros acc; cbn [fold_left]; [by rewrite app_nil_r|].
  destruct (IH (sort_outcome show_address acc (t, o))) as (-> & -> & ->). destruct o; cbn; try done. by rewrite <- app_assoc.
Qed.

Lemma sorted_prices entries acc token : NoDup entries.*1 ->
  (forall priced, (token, Priced priced) ∈ entries ->
     po_prices (sorted entries acc) !! token = Some (pt_entry priced) /\
     po_routes (sorted entries acc) !! token = Some (pt_route priced)) /\
  ((forall priced, (token, Priced priced) ∉ entries) ->
     po_prices (sorted entries acc) !! token = po_prices acc !! token /\
     po_routes (sorted entries acc) !! token = po_routes acc !! token).
Proof.
  revert acc. induction entries as [|[t o] entries IH]; intros acc Hnd; cbn [fold_left].
  { split; [by intros ? ?%elem_of_nil|done]. }
  cbn in Hnd. apply NoDup_cons in Hnd as [Hout Hnd]. destruct (IH (sort_outcome show_address acc (t, o)) Hnd) as [Hin Hno]. split.
  - intros priced [[= -> <-]|?]%elem_of_cons; [|by apply Hin].
    destruct Hno as [-> ->]; [|by cbn; rewrite !lookup_insert_eq].
    intros p Hp. apply Hout, list_elem_of_fmap. by exists (t, Priced p).
  - intros Hnone. destruct Hno as [-> ->]; [intros p ?; apply (Hnone p); by right|].
    destruct o as [priced|e| |]; cbn; try done. rewrite !lookup_insert_ne; [done|..];
      intros ->; apply (Hnone priced); by left.
Qed.

Lemma sorted_unattempted entries acc token :
  token ∈ po_unattempted (sorted entries acc) <-> token ∈ po_unattempted acc \/ (token, Unattempted) ∈ entries.
Proof.
  revert acc. induction entries as [|[t o] entries IH]; intros acc; cbn [fold_left].
  { rewrite elem_of_nil. tauto. }
  rewrite IH, elem_of_cons. destruct o; cbn; rewrite ?elem_of_union, ?elem_of_singleton; naive_solver.
Qed.
End sorting.

Lemma priced_of_dec (entries : list (Address * TokenPricingOutcome)) token :
  {exists priced, (token, Priced priced) ∈ entries} + {forall priced, (token, Priced priced) ∉ entries}.
Proof.
  induction entries as [|[t o] entries [Hyes|Hno]].
  - right. intros p. apply not_elem_of_nil.
  - left. destruct Hyes as [p Hp]. exists p. by right.
  - destruct (decide (t = token)) as [->|Hne].
    + destruct o as [p|e| |]; [left; exists p; by left|right..]; intros p [?|?]%elem_of_cons; try done; by apply (Hno p).
    + right. intros p [[= -> _]|?]%elem_of_cons; [done|by apply (Hno p)].
Qed.

Lemma routes_of_prices show_address (entries : list (Address * TokenPricingOutcome)) acc : NoDup entries.*1 ->
  dom (po_routes acc) = dom (po_prices acc) ->
  dom (po_routes (fold_left (sort_outcome show_address) entries acc)) = dom (po_prices (fold_left (sort_outcome show_address) entries acc)).
Proof.
  intros Hnd Hacc. apply set_eq. intros t. rewrite !elem_of_dom. destruct (sorted_prices show_address entries acc t Hnd) as [Hyes Hno].
  destruct (priced_of_dec entries t) as [[p Hp]|Hnone].
  - destruct (Hyes p Hp) as [-> ->]. split; by eexists.
  - destruct (Hno Hnone) as [-> ->]. by rewrite <- !elem_of_dom, Hacc.
Qed.

Lemma price_tokens_spec `{TychoGas} `{!Messages} `{!TychoSwaps} `{NodeGraph (EdgeData ())} decimals integer_decode spot_price
    show_address show_algorithm_error fresh_order_id pass base clock st tokens block :
  snapshot_ok pass base -> state_ok decimals integer_decode spot_price pass base clock st -> NoDup tokens ->
  Forall (fun token => token <> gt_address (tg_gas_token_config (pp_computation pass))) tokens ->
  exists outcome failed,
    price_tokens decimals integer_decode spot_price show_address show_algorithm_error fresh_order_id pass clock st tokens block
      = Ret outcome /\
    po_block outcome = block /\ dom (po_routes outcome) = dom (po_prices outcome) /\
    (forall token entry, po_prices outcome !! token = Some entry ->
       token ∈ tokens /\ exists priced, price_backed decimals integer_decode spot_price fresh_order_id pass base clock token priced /\ pt_entry priced = entry) /\
    po_failed_items outcome = (fun item : Address * string =>
      {| fi_key := show_address item.1; fi_error := MissingSellRoute item.2 |}) <$> failed /\
    NoDup failed.*1 /\ (length failed <= tg_max_sell_solves_per_pass (pp_computation pass))%nat /\
    (forall token, token ∈ failed.*1 -> token ∈ tokens /\ po_prices outcome !! token = None /\ token ∉ po_unattempted outcome) /\
    (forall token, token ∈ po_unattempted outcome -> token ∈ tokens /\ po_prices outcome !! token = None) /\
    (unhurried pass clock tokens -> po_unattempted outcome = ∅).
Proof.
  intros Hsnap Hst Hnd Hgas. unfold price_tokens.
  destruct (price_each_spec decimals integer_decode spot_price show_address show_algorithm_error fresh_order_id pass base clock Hsnap st tokens Hst Hnd Hgas)
    as (st' & entries & -> & Hkeys & Hok & Hbound & Hall). cbn [mbind outcome_bind fst snd].
  assert (forall token outcome, (token, outcome) ∈ entries -> token ∈ tokens) as Hin.
  { intros t o Ho. rewrite <- Hkeys. apply list_elem_of_fmap. by exists (t, o). }
  assert (forall token o o', (token, o) ∈ entries -> (token, o') ∈ entries -> o = o') as Hone.
  { intros t o o' (i & Hi)%list_elem_of_lookup (j & Hj)%list_elem_of_lookup. rewrite <- Hkeys in Hnd.
    assert (i = j) as -> by (apply (NoDup_lookup _ _ _ t Hnd); by rewrite list_lookup_fmap, ?Hi, ?Hj). congruence. }
  rewrite <- Hkeys in Hnd. unfold build_outcome. set (acc := {| po_prices := ∅ |}).
  set (failed := (fun item : Address * FailedItemError =>
    (item.1, match item.2 with MissingSellRoute msg => msg | _ => EmptyString end)) <$> failed_entries entries).
  destruct (sorted_rest show_address entries acc) as (Hblock & _ & Hitems).
  assert (forall token entry, po_prices (fold_left (sort_outcome show_address) entries acc) !! token = Some entry ->
    exists priced, (token, Priced priced) ∈ entries /\ pt_entry priced = entry) as Hprices.
  { intros t entry Ht. destruct (sorted_prices show_address entries acc t Hnd) as [Hyes Hno].
    destruct (priced_of_dec entries t) as [(p & Hp)|Hnone].
    - exists p. split; [done|]. destruct (Hyes p Hp) as [Hl _]. congruence.
    - destruct (Hno Hnone) as [Hl _]. rewrite Hl in Ht. cbn in Ht. by rewrite lookup_empty in Ht. }
  assert (forall token outcome, (token, outcome) ∈ entries -> (forall p, outcome <> Priced p) ->
    po_prices (fold_left (sort_outcome show_address) entries acc) !! token = None) as Hnoprice.
  { intros t o Ho Hne. destruct (po_prices _ !! t) as [entry|] eqn:Hl; [|done].
    apply Hprices in Hl as (p & Hp & _). by specialize (Hne p (Hone _ _ _ Ho Hp)). }
  assert (forall token, token ∈ po_unattempted (fold_left (sort_outcome show_address) entries acc) <-> (token, Unattempted) ∈ entries) as Hun.
  { intros t. rewrite sorted_unattempted. cbn. set_solver. }
  assert (forall token, token ∈ failed.*1 -> exists e, (token, PricingFailed e) ∈ entries) as Hfailed.
  { intros t (x & -> & (y & -> & Hy)%list_elem_of_fmap)%list_elem_of_fmap. destruct y as [t e]. exists e. by apply failed_entries_elem. }
  eexists _, failed. split; [done|]. split; [done|]. split_and!.
  - by apply routes_of_prices.
  - intros t entry Ht. destruct (Hprices _ _ Ht) as (p & Hp & <-). split; [by apply (Hin t (Priced p))|].
    exists p. split; [|done]. rewrite Forall_forall in Hok. by apply (Hok _ Hp).
  - rewrite Hitems. cbn. unfold failed. rewrite <- list_fmap_compose. apply list_fmap_ext. intros i [t e] Hi. cbn.
    apply list_elem_of_lookup_2, failed_entries_elem in Hi. rewrite Forall_forall in Hok. by destruct (Hok _ Hi) as [msg ->].
  - unfold failed. rewrite <- list_fmap_compose. by apply failed_entries_NoDup.
  - unfold failed. by rewrite length_fmap.
  - intros t (e & He)%Hfailed. split; [by apply (Hin _ _ He)|]. split; [by apply (Hnoprice _ _ He)|].
    rewrite Hun. intros Hu. by specialize (Hone _ _ _ He Hu).
  - intros t Ht%Hun. split; [by apply (Hin _ _ Ht)|by apply (Hnoprice _ _ Ht)].
  - intros Hu. specialize (Hall Hu). apply set_eq. intros t. rewrite Hun. split; [|by intros ?%elem_of_empty].
    intros Ht. rewrite Forall_forall in Hall. by specialize (Hall _ Ht).
Qed.

(** *** The value of a price *)

Definition rate (numerator denominator : N) : Q := (inject_Z (Z.of_N numerator) / inject_Z (Z.of_N denominator))%Q.

Definition price_value (price : Price) : Q := rate (price_numerator price) (price_denominator price).

Definition price_ok (price : Price) : Prop := price_numerator price <> 0 /\ price_denominator price <> 0.

Record gas_token_ok (gas_token : GasTokenConfig) : Prop := {
  gk_probe : gt_probe_amount gas_token <> 0;
  gk_scale : price_ok (gt_routable_per_native_unit gas_token);
}.

Lemma inject_N_nonzero n : n <> 0 -> ~ (inject_Z (Z.of_N n) == 0)%Q.
Proof. unfold inject_Z, Qeq. cbn. lia. Qed.

Lemma native_value gas_token rate_price : gas_token_ok gas_token -> price_denominator rate_price <> 0 ->
  (price_value (to_native_units gas_token rate_price)
   == price_value (gt_routable_per_native_unit gas_token) * price_value rate_price)%Q.
Proof.
  intros [_ [_ Hd]] Hr. unfold price_value, rate, to_native_units. cbn. rewrite !N2Z.inj_mul, !inject_Z_mult.
  field. split; by apply inject_N_nonzero.
Qed.

Lemma mean_value buy probe sell : buy <> 0 -> probe <> 0 -> sell <> 0 ->
  (rate (buy * (probe + sell)) (2 * probe * sell) == (rate buy probe + rate buy sell) / 2)%Q.
Proof.
  intros Hb Hp Hs. unfold rate. rewrite !N2Z.inj_mul, N2Z.inj_add, !inject_Z_mult, inject_Z_plus.
  change (inject_Z (Z.of_N 2)) with 2%Q. field. split; by apply inject_N_nonzero.
Qed.

Lemma routable_round_trip gas_token price : gas_token_ok gas_token -> price_denominator price <> 0 ->
  (price_value (to_routable_units gas_token (to_native_units gas_token price)) == price_value price)%Q.
Proof.
  intros [_ [Hn Hd]] Hp. unfold price_value, rate, to_routable_units, to_native_units. cbn.
  rewrite !N2Z.inj_mul, !inject_Z_mult. field. split_and!; by apply inject_N_nonzero.
Qed.

(** ** Solving *)

Section solving.
Context `{TychoGas} `{!Messages} `{!TychoSwaps} `{NodeGraph (EdgeData ())} (decimals : Token -> N) (integer_decode : f64 -> N * Z).
Context (spot_price : ProtocolSim -> Token -> Token -> result string f64) (fresh_order_id : string) (clock : PassClock).

#[local] Abbreviation bought := (bought decimals integer_decode).
#[local] Abbreviation sale pass base := (sale decimals integer_decode fresh_order_id pass base clock).

(** A price rests on a buy leg of the pass and on what selling its amount back returned. It is the mean of
    the two rates where the buy route avoids the pools flagged before and its pools take the token back:
    with what they pay, or, where that is less than the least share of the probe, with what the
    sell solve found. Where they refuse, or no route avoids the pools flagged before, it is the
    rate of the sell solve alone. *)
Inductive justified (pass : PricingPass) (base : BellmanFordContext) (flagged : gset ComponentId) (token : Address)
    (entry : TokenPriceEntry) : Prop :=
| justified_mean leg out via :
    bought pass base clock ∅ token leg -> (forall c, c ∈ (rt_hops leg).*2 -> c ∉ flagged) -> out <> 0 ->
    (sells_back spot_price base (rt_amount_out leg) (rev (rt_hops leg)) out /\ min_sell_out (pp_computation pass) <= out /\ via = []
     \/ sells_low spot_price pass base leg /\ sale pass base token (rt_amount_out leg) out via) ->
    tpe_path_components entry = list_to_set (rt_hops leg).*2 ∪ list_to_set via ->
    (price_value (tpe_price entry)
     == price_value (gt_routable_per_native_unit (tg_gas_token_config (pp_computation pass)))
        * ((rate (rt_amount_out leg) (gt_probe_amount (tg_gas_token_config (pp_computation pass)))
            + rate (rt_amount_out leg) out) / 2))%Q ->
    justified pass base flagged token entry
| justified_sell_rate leg out via :
    bought pass base clock ∅ token leg ->
    refused spot_price base leg \/ unreached decimals integer_decode pass base clock token ->
    sale pass base token (rt_amount_out leg) out via -> out <> 0 ->
    tpe_path_components entry = list_to_set (rt_hops leg).*2 ∪ list_to_set via ->
    (price_value (tpe_price entry)
     == price_value (gt_routable_per_native_unit (tg_gas_token_config (pp_computation pass)))
        * rate (rt_amount_out leg) out)%Q ->
    justified pass base flagged token entry.

Lemma backed_justified pass base flagged token priced : gas_token_ok (tg_gas_token_config (pp_computation pass)) ->
  (forall leg c, bought pass base clock (pp_earlier_flagged_components pass) token leg -> c ∈ (rt_hops leg).*2 -> c ∉ flagged) ->
  price_backed decimals integer_decode spot_price fresh_order_id pass base clock token priced ->
  justified pass base flagged token (pt_entry priced) /\ price_ok (tpe_price (pt_entry priced)).
Proof.
  intros Hgas Havoid Hbacked. pose proof (gk_probe _ Hgas) as Hp. destruct (gk_scale _ Hgas) as [Hsn Hsd].
  assert (forall leg out, bought pass base clock (pp_earlier_flagged_components pass) token leg -> out <> 0 ->
    price_ok (tpe_price (pt_entry (build_price_entry (pp_computation pass) leg out))) /\
    (price_value (tpe_price (pt_entry (build_price_entry (pp_computation pass) leg out)))
     == price_value (gt_routable_per_native_unit (tg_gas_token_config (pp_computation pass)))
        * ((rate (rt_amount_out leg) (gt_probe_amount (tg_gas_token_config (pp_computation pass)))
            + rate (rt_amount_out leg) out) / 2))%Q) as Hmean.
  { intros leg out Hb Hne. pose proof (bt_amount _ _ _ _ _ _ _ _ Hb). split; [unfold price_ok; cbn; nia|].
    cbn [build_price_entry build_priced_token pt_entry tpe_price]. rewrite native_value by (done || (cbn; nia)).
    unfold price_value at 2. cbn [price_numerator price_denominator]. by rewrite mean_value. }
  assert (forall leg, bought pass base clock (pp_earlier_flagged_components pass) token leg -> bought pass base clock ∅ token leg) as Hweak
    by (intros leg; apply bought_weaken, empty_subseteq).
  destruct Hbacked as [leg out Hb Hs Hmin|leg out via Hb Hlow Hs|leg out via Hb Hwhy Hs].
  - assert (out <> 0) as Hne by (apply (sells_back_nonzero _ _ _ _ _ (bt_amount _ _ _ _ _ _ _ _ Hb) Hs)).
    destruct (Hmean leg out Hb Hne) as [Hok Hval]. split; [|done].
    apply (justified_mean _ _ _ _ _ leg out []); [by apply Hweak|intros c; by apply Havoid|done|by left| |done].
    cbn. set_solver.
  - pose proof (sl_out _ _ _ _ _ _ _ _ _ _ Hs) as Hne.
    destruct (Hmean leg out Hb Hne) as [Hok Hval]. split; [|done].
    apply (justified_mean _ _ _ _ _ leg out via); [by apply Hweak|intros c; by apply Havoid|done|by right|done|done].
  - pose proof (sl_out _ _ _ _ _ _ _ _ _ _ Hs) as Hne.
    pose proof (bt_amount _ _ _ _ _ _ _ _ Hb). split; [|unfold price_ok; cbn; nia].
    apply (justified_sell_rate _ _ _ _ _ leg out via); [done|done|done|done|done|].
    cbn [extend_route build_sell_rate_entry build_priced_token pt_entry tpe_price]. by rewrite native_value.
Qed.

(** *** The snapshot *)

Lemma merge_batches_keyed reads i merged batches st j : (forall i, keyed (reads i)) ->
  (forall st, merged = Some st -> keyed st) -> merge_batches reads i merged batches = (Some st, j) -> keyed st.
Proof.
  intros Hreads. revert i merged. induction batches as [|chunk batches IH]; intros i merged Hm; cbn [merge_batches].
  { intros [= <- <-]. destruct merged as [m|]; [by apply Hm|]. intros a t. cbn. by rewrite lookup_empty. }
  assert (keyed (MarketState_extract_subset (reads i) (list_to_set chunk))) as Hpart
    by (intros a t [Ht _]%extract_subset_tokens; by apply (Hreads i)).
  destruct merged as [m|]; [|by apply IH; intros ? [= <-]]. case_decide; [|done].
  apply IH. intros ? [= <-] a t [Ht|[_ Ht]]%lookup_union_Some_raw; [by apply Hpart|by apply (Hm m)].
Qed.

Lemma batched_keyed reads component_ids : (forall i, keyed (reads i)) -> keyed (extract_subset_batched reads component_ids).
Proof.
  intros Hreads. assert (forall i ids, keyed (MarketState_extract_subset (reads i) ids)) as Hpart
    by (intros i ids a t [Ht _]%extract_subset_tokens; by apply (Hreads i)).
  unfold extract_subset_batched, extract_subset_in_batches. case_decide; [apply Hpart|].
  set (batches := chunks _ _). assert (forall attempts i st j, batched_attempts reads attempts i batches = (Some st, j) -> keyed st) as Hall.
  { induction attempts as [|attempts IH]; intros i st j; cbn [batched_attempts]; [done|].
    destruct (merge_batches reads i None batches) as [[m|] k] eqn:Hm; [|apply IH].
    intros [= <- <-]. by apply (merge_batches_keyed _ _ _ _ _ _ Hreads) in Hm. }
  destruct (batched_attempts reads 3 0 batches) as [[st|] j] eqn:Hb; [by apply Hall in Hb|apply Hpart].
Qed.

Lemma last_node_spec graph address v : last_node_of graph address = Some v ->
  weight_of graph v = address /\ is_Some (node_weight graph v).
Proof.
  unfold last_node_of. intros Hl. apply last_Some_elem_of, elem_of_filterb in Hl as [Hin Ha%bool_decide_eq_true].
  split; [done|]. by apply node_indices_spec.
Qed.

Lemma pricing_algorithm_gross self algorithm : pricing_algorithm self = Ok algorithm -> bf_gas_aware algorithm = false.
Proof. unfold pricing_algorithm. destruct (AlgorithmConfig_new _ _ _ _); [|done]. by intros [= <-]. Qed.

Lemma pricing_snapshot self history algorithm graph env selected ctx : pricing_algorithm self = Ok algorithm -> graph_ok graph ->
  (forall i, keyed (pe_snapshot env i)) -> pricing_context self algorithm graph env selected = Some ctx ->
  let '(pass, st) := PricingPassState_new algorithm graph ctx self (read_flagged_components history) in
  snapshot_ok pass ctx /\ state_ok decimals integer_decode spot_price pass ctx clock st.
Proof.
  intros Halg Hgraph Hkeyed Hctx. apply pricing_algorithm_gross in Halg. unfold pricing_context, build_context_from_source_token in Hctx.
  destruct (last_node_of graph _) as [gas|] eqn:Hgas; [|done]. apply last_node_spec in Hgas as [Hgas Hnode].
  cbn [mbind option_bind] in Hctx. destruct (get_subgraph_with_hop_map _ _ _ _ _) as [sg|] eqn:Hsg; [|done].
  cbn [mbind option_bind] in Hctx. injection Hctx as <-.
  pose proof (subgraph_extracted _ Hgraph _ _ _ _ _ _ Hnode Hsg) as Hex. cbn [default] in Hex.
  set (market := extract_subset_batched _ _).
  destruct (context_facts algorithm graph market sg gas gas unconstrained None Hgraph Hex) as ([Hroot Hadj] & Hfacts).
  destruct Hfacts as [Hdist Haddr]; [by apply batched_keyed|].
  set (ctx := context_from_snapshot _ _ _ _ _ _) in *. cbn [PricingPassState_new]. split.
  - split; try done.
    + cbn. by rewrite Halg.
    + intros u v a. cbn. rewrite !lookup_fmap, !fmap_Some. intros (tu & Htu & ->) (tv & Htv & Heq). by apply (Hdist u v tu tv).
    + intros a v. cbn [pp_token_nodes]. rewrite <- elem_of_list_to_map.
      * rewrite list_elem_of_fmap. split.
        -- intros ([v' a'] & [= -> ->] & Hin). by apply elem_of_map_to_list.
        -- intros Hv. exists (v, a). split; [done|]. by apply elem_of_map_to_list.
      * rewrite <- list_fmap_compose. apply NoDup_fmap_2_strong; [|apply NoDup_map_to_list].
        intros [u a'] [v' b] Hu%elem_of_map_to_list Hv%elem_of_map_to_list. cbn. intros ->.
        cbn in Hu, Hv. rewrite lookup_fmap, fmap_Some in Hu, Hv. destruct Hu as (tu & Htu & ->), Hv as (tv & Htv & Heq).
        f_equal. by apply (Hdist u v' tu tv).
    + intros v a. cbn. rewrite lookup_fmap, fmap_Some. intros (t & Ht & _). apply (token_map_lookup algorithm graph market sg gas None) in Ht as [Hin _].
      by apply (ex_nodes _ _ _ _ _ Hex).
    + intros a. cbn [pp_gas_node]. cbn. rewrite lookup_fmap, fmap_Some. intros (t & Ht & ->). rewrite (Haddr _ _ Ht). exact Hgas.
  - split; cbn; [done| |done]. intros c u v check sim ti to. by rewrite lookup_empty.
Qed.

(** A pool on a route of the first buy pass was not flagged before, in its subgraph or not. *)
Lemma bought_not_flagged self history algorithm graph ctx base token leg c :
  let pass := (PricingPassState_new algorithm graph ctx self (read_flagged_components history)).1 in
  bought pass base clock (pp_earlier_flagged_components pass) token leg -> c ∈ (rt_hops leg).*2 -> c ∉ read_flagged_components history.
Proof.
  cbn zeta. intros Hb Hc Hf. apply (bought_avoids _ _ _ _ _ _ _ _ _ Hb Hc). cbn. apply elem_of_intersection. split; [done|].
  apply list_elem_of_fmap in Hc as ([[u v] c'] & -> & Hin). pose proof (bt_usable _ _ _ _ _ _ _ _ Hb) as Hus.
  rewrite Forall_forall in Hus. destruct (Hus _ Hin) as ((edges & Hu & Hv) & _).
  destruct (adjacency_without _ _ _ _ _ _ Hu Hv) as (_ & all & Hall & Hall').
  apply elem_of_list_to_set, list_elem_of_bind. exists (u, all). split; [|by apply elem_of_map_to_list].
  apply list_elem_of_fmap. by exists (v, c').
Qed.
End solving.
