(* ===== verification/TokenPricesProperties.v ===== *)
(** * TokenPricesProperties: what token prices promise

    A pass's result in terms of the market it read; which tokens a pass selects and how the
    selection rotates; the distance between passes and the life of a flag; the stored prices
    and dependencies through any call. *)

From stdpp Require Import prelude gmap sets strings list sorting.
From Stdlib Require Import NArith ZArith QArith Lia.
From S2P Require Import Prelude F64 Types Route Quote Samples Tracker DerivedStore SpotPriceComputation Schedule Manager MarketData MarketDataProofs.
From S2P Require Import SpotPricePipeline SwapCache Algorithm StableGraph TokenGraph Paths TokenGraphManager PetgraphManager MostLiquidProperties.
From S2P Require Import MarketDataProofs MostLiquidSamples Admission BellmanFord BellmanFordProofs TokenPrices TokenPricesProofs.

#[local] Open Scope N_scope.

(** ** Selecting tokens *)

Section selecting.
Context (walk_order : gset Address -> list Address) (Hwalk : forall tokens, walk_order tokens ≡ₚ elements tokens).
Context (changed : option (gset Address)) (priority : PassPriority) (scope : PassScope).
Implicit Types (universe : gset Address) (token : Address).

#[local] Instance ranked_le_total : Total ranked_le.
Proof. intros a b. unfold ranked_le. lia. Qed.
#[local] Instance ranked_le_trans : Transitive ranked_le.
Proof. intros a b c. unfold ranked_le. lia. Qed.

Lemma rank_token token r : rank changed priority scope token = Some r -> r.2 = token /\ r.1.2 = stamp priority token.
Proof. unfold rank. destruct (decide _); [by intros [= <-]|]. destruct (decide _); [done|]. destruct (_ || _); [by intros [= <-]|done]. Qed.

#[local] Abbreviation sorted_ranks universe := (merge_sort ranked_le (omap (rank changed priority scope) (walk_order universe))).

Lemma sorted_ranks_elem universe r : r ∈ sorted_ranks universe <-> r.2 ∈ universe /\ rank changed priority scope r.2 = Some r.
Proof.
  rewrite merge_sort_Permutation, list_elem_of_omap. split.
  - intros (token & Hin & Hr). destruct (rank_token _ _ Hr) as [-> _]. rewrite Hwalk in Hin. by apply elem_of_elements in Hin.
  - intros [Hin Hr]. exists r.2. split; [|done]. rewrite Hwalk. by apply elem_of_elements.
Qed.

Lemma sorted_ranks_NoDup universe : NoDup (snd <$> sorted_ranks universe).
Proof.
  rewrite merge_sort_Permutation. assert (NoDup (walk_order universe)) as Hnd by (rewrite Hwalk; apply NoDup_elements).
  induction Hnd as [|token tokens Hout Hnd IH]; cbn; [constructor|].
  destruct (rank changed priority scope token) as [r|] eqn:Hr; [|done]. cbn. constructor; [|done].
  destruct (rank_token _ _ Hr) as [-> _]. intros (r' & Heq & (t & Ht & Hr')%list_elem_of_omap)%list_elem_of_fmap.
  destruct (rank_token _ _ Hr') as [Ht' _]. congruence.
Qed.

Lemma truncate_spec {A} (l : list A) n : exists k, truncate l n = take k l /\ (length (truncate l n) <= N.to_nat n)%nat /\
  (N.of_nat (length l) <= n -> truncate l n = l) /\ (n < N.of_nat (length l) -> length (truncate l n) = N.to_nat n).
Proof.
  unfold truncate. destruct (N.leb_spec (N.of_nat (length l)) n).
  - exists (length l). rewrite take_ge by done. split_and!; [done|lia|done|lia].
  - exists (N.to_nat n). split; [done|]. rewrite length_take. split_and!; lia.
Qed.

#[local] Abbreviation selection universe max_tokens := (select_pass_tokens walk_order universe changed priority scope max_tokens).

Lemma selection_elem universe max_tokens token : token ∈ selection universe max_tokens ->
  token ∈ universe /\ is_Some (rank changed priority scope token).
Proof.
  unfold select_pass_tokens. destruct (truncate_spec (sorted_ranks universe) max_tokens) as (k & -> & _).
  intros (r & -> & Hr)%list_elem_of_fmap. apply subseteq_take, sorted_ranks_elem in Hr as [? ?]. split; [done|]. by eexists.
Qed.

Lemma selection_NoDup universe max_tokens : NoDup (selection universe max_tokens).
Proof.
  unfold select_pass_tokens. destruct (truncate_spec (sorted_ranks universe) max_tokens) as (k & -> & _).
  rewrite fmap_take. eapply sublist_NoDup; [apply sorted_ranks_NoDup|apply sublist_take].
Qed.

Lemma selection_length universe max_tokens : (length (selection universe max_tokens) <= N.to_nat max_tokens)%nat.
Proof. unfold select_pass_tokens. rewrite length_fmap. by destruct (truncate_spec (sorted_ranks universe) max_tokens) as (k & _ & ? & _). Qed.

(** A token the cap leaves out: the cap is reached, by tokens that come no later. *)
Lemma selection_cap universe max_tokens token r : token ∈ universe -> rank changed priority scope token = Some r ->
  token ∉ selection universe max_tokens ->
  length (selection universe max_tokens) = N.to_nat max_tokens /\
  forall other, other ∈ selection universe max_tokens ->
    exists r', rank changed priority scope other = Some r' /\ ranked_le r' r.
Proof.
  intros Hin Hr Hout. unfold select_pass_tokens in *.
  destruct (truncate_spec (sorted_ranks universe) max_tokens) as (k & Htake & _ & Hall & Hlen).
  destruct (rank_token _ _ Hr) as [Hrt _]. rewrite length_fmap.
  assert (r ∈ sorted_ranks universe) as Hr' by (apply sorted_ranks_elem; by rewrite Hrt).
  assert (r ∉ truncate (sorted_ranks universe) max_tokens) as Hnot.
  { intros Hin'. apply Hout, list_elem_of_fmap. by exists r. }
  split.
  { apply Hlen. destruct (N.lt_ge_cases max_tokens (N.of_nat (length (sorted_ranks universe)))); [done|]. by rewrite Hall in Hnot. }
  intros other (r1 & -> & Hr1)%list_elem_of_fmap. rewrite Htake in Hr1, Hnot. exists r1.
  split; [by apply subseteq_take, sorted_ranks_elem in Hr1 as [_ ?]|].
  rewrite <- (take_drop k (sorted_ranks universe)), elem_of_app in Hr'. destruct Hr' as [?|Hr']; [done|].
  pose proof (Sorted_merge_sort ranked_le (omap (rank changed priority scope) (walk_order universe))) as Hs.
  apply Sorted_StronglySorted in Hs; [|apply _]. rewrite <- (take_drop k (sorted_ranks universe)) in Hs.
  apply (StronglySorted_app ranked_le) in Hs as (Hle & _). by apply Hle.
Qed.
End selecting.

(** ** Solving *)

Section solving.
Context `{TychoGas} `{!Messages} `{!TychoSwaps} `{NodeGraph (EdgeData ())} (decimals : Token -> N) (integer_decode : f64 -> N * Z).
Context (spot_price : ProtocolSim -> Token -> Token -> result string f64).
Context (show_address : Address -> string) (show_algorithm_error : AlgorithmError -> string) (fresh_order_id : string).
Context (show_join_error : string) (walk_order : gset Address -> list Address).
Context (Hwalk : forall tokens, walk_order tokens ≡ₚ elements tokens).
Implicit Types (self : TokenGasPriceComputation) (history : PassHistory) (env : PassEnv).

#[local] Abbreviation solve_token_prices := (solve_token_prices decimals integer_decode spot_price show_address
  show_algorithm_error fresh_order_id show_join_error walk_order).

(** The components a pass prices through, and the tokens it may select. *)
Definition priced_topology env : gmap ComponentId ComponentTopology :=
  ComponentFilter.remove_components (pe_topology env) (component_topology (pe_topology env)) is_left_out_of_pricing.

Definition universe_of self env : gset Address := tokens_to_price self (priced_topology env).

Definition graph_of env : digraph := pm_graph (initialize_graph (D := ()) (priced_topology env)).

(** What a pass over [ordered] returns, before what the cap left out is added. *)
Record pass_result self history env (algorithm : BellmanFordAlgorithm) (ctx : BellmanFordContext) (ordered : list Address)
    (outcome : PricingPassOutcome) (failed : list (Address * string)) : Prop := {
  ps_block : po_block outcome = block_of (bc_market_data ctx) (block_of (pe_topology env) 0);
  ps_routes : dom (po_routes outcome) = dom (po_prices outcome);
  ps_prices : forall token entry, po_prices outcome !! token = Some entry -> token ∈ ordered /\
    (gas_token_ok (tg_gas_token_config self) ->
     justified decimals integer_decode spot_price fresh_order_id (pe_clock env)
       (PricingPassState_new algorithm (graph_of env) ctx self (read_flagged_components history)).1 ctx
       (read_flagged_components history) token entry /\ price_ok (tpe_price entry));
  ps_items : po_failed_items outcome = (fun item : Address * string =>
      {| fi_key := show_address item.1; fi_error := MissingSellRoute item.2 |}) <$> failed;
  ps_failed_once : NoDup failed.*1;
  ps_failed_few : (length failed <= tg_max_sell_solves_per_pass self)%nat;
  ps_failed : forall token, token ∈ failed.*1 ->
    token ∈ ordered /\ po_prices outcome !! token = None /\ token ∉ po_unattempted outcome;
  ps_unattempted : forall token, token ∈ po_unattempted outcome -> token ∈ ordered /\ po_prices outcome !! token = None;
  ps_all : unhurried (PricingPassState_new algorithm (graph_of env) ctx self (read_flagged_components history)).1 (pe_clock env) ordered ->
    po_unattempted outcome = ∅;
}.

Lemma selection_gas self env changed priority scope max_tokens :
  Forall (fun token => token <> gt_address (tg_gas_token_config self))
    (select_pass_tokens walk_order (universe_of self env) changed priority scope max_tokens).
Proof.
  apply Forall_forall. intros token Hin. apply (selection_elem _ Hwalk) in Hin as [Hin _].
  unfold universe_of, tokens_to_price in Hin. apply elem_of_difference in Hin as [_ Hne]. intros ->. by apply Hne, elem_of_singleton.
Qed.

Lemma run_pass_spec self history env algorithm ctx ordered block : NoDup ordered ->
  Forall (fun token => token <> gt_address (tg_gas_token_config self)) ordered ->
  (forall i, keyed (pe_snapshot env i)) -> pricing_algorithm self = Ok algorithm ->
  pricing_context self algorithm (graph_of env) env (list_to_set ordered) = Some ctx ->
  block = block_of (bc_market_data ctx) (block_of (pe_topology env) 0) ->
  exists outcome failed,
    run_pass decimals integer_decode spot_price show_address show_algorithm_error fresh_order_id self history algorithm (graph_of env)
      ctx env ordered block = Ret outcome /\
    pass_result self history env algorithm ctx ordered outcome failed.
Proof.
  intros Hnd Hgas Hkeyed Halg Hctx ->. unfold run_pass.
  assert (graph_ok (graph_of env)) as Hgraph by (apply petgraph_graph_ok, petgraph_initialize_spec).
  pose proof (pricing_snapshot decimals integer_decode spot_price (pe_clock env) self history algorithm (graph_of env) env _ ctx Halg Hgraph Hkeyed Hctx) as Hsnap.
  destruct (PricingPassState_new _ _ _ _ _) as [pass st] eqn:Hnew. destruct Hsnap as [Hsnap Hst].
  assert (pp_computation pass = self) as Hself by (by injection Hnew as <- _).
  destruct (price_tokens_spec decimals integer_decode spot_price show_address show_algorithm_error fresh_order_id pass ctx (pe_clock env)
    st ordered (block_of (bc_market_data ctx) (block_of (pe_topology env) 0)) Hsnap Hst Hnd) as
    (outcome & failed & -> & Hblock & Hroutes & Hprices & Hitems & Honce & Hfew & Hfailed & Hun & Hall); [by rewrite Hself|].
  exists outcome, failed. split; [done|]. split; try done.
  - intros token entry Hentry. destruct (Hprices _ _ Hentry) as (Hin & priced & Hbacked & <-). split; [done|]. intros Hok.
    rewrite Hnew. cbn [fst]. apply backed_justified; [by rewrite Hself| |done].
    intros leg c Hb. pose proof (bought_not_flagged decimals integer_decode (pe_clock env) self history algorithm (graph_of env) ctx ctx token leg c) as Hnot.
    rewrite Hnew in Hnot. by apply Hnot.
  - by rewrite <- Hself.
  - intros Hu. apply Hall. by rewrite Hnew in Hu.
Qed.

(** Solving never fails: nothing is attempted, or a pass is run and recorded. *)
Lemma solve_spec self history env changed priority scope max_tokens : tg_max_hops self <> O ->
  (forall i, keyed (pe_snapshot env i)) ->
  let universe := universe_of self env in
  let ordered := select_pass_tokens walk_order universe changed priority scope max_tokens in
  solve_token_prices self history env changed priority scope max_tokens
    = (history, Ok (nothing_attempted universe (block_of (pe_topology env) 0))) /\
  (ordered = [] \/ exists algorithm, pricing_algorithm self = Ok algorithm /\
     pricing_context self algorithm (graph_of env) env (list_to_set ordered) = None) \/
  exists algorithm ctx outcome failed, pricing_algorithm self = Ok algorithm /\
    pricing_context self algorithm (graph_of env) env (list_to_set ordered) = Some ctx /\
    pass_result self history env algorithm ctx ordered outcome failed /\
    let outcome := extend_unattempted outcome (universe ∖ list_to_set ordered) in
    solve_token_prices self history env changed priority scope max_tokens
      = (record_pass history (list_to_set ordered) outcome universe, Ok outcome).
Proof.
  intros Hhops Hkeyed. cbn zeta. unfold TokenPrices.solve_token_prices. fold (priced_topology env). fold (universe_of self env).
  destruct (select_pass_tokens _ _ _ _ _ _) as [|t ordered] eqn:Hsel; [left; split; [done|by left]|]. rewrite <- Hsel.
  assert (exists algorithm, pricing_algorithm self = Ok algorithm) as [algorithm Halg].
  { unfold pricing_algorithm, AlgorithmConfig_new. cbn [Nat.eqb].
    destruct (Nat.ltb_spec (tg_max_hops self) 1); [lia|]. rewrite decide_False by done. cbn. by eexists. }
  rewrite Halg. fold (graph_of env).
  destruct (pricing_context _ _ _ _ _) as [ctx|] eqn:Hctx; [|left; split; [done|right; by exists algorithm]]. right.
  destruct (run_pass_spec self history env algorithm ctx (select_pass_tokens walk_order (universe_of self env) changed priority scope max_tokens)
    _ (selection_NoDup _ Hwalk _ _ _ _ _) (selection_gas _ _ _ _ _ _) Hkeyed Halg Hctx eq_refl) as (outcome & failed & -> & Hres).
  by exists algorithm, ctx, outcome, failed.
Qed.
End solving.

(** ** The history *)

Lemma set_fold_insert_lookup {V} (tokens : gset string) (v : V) (m : gmap string V) k :
  set_fold (fun token m => <[token := v]> m) m tokens !! k = if decide (k ∈ tokens) then Some v else m !! k.
Proof.
  assert (k ∈ tokens /\ set_fold (fun token m => <[token := v]> m) m tokens !! k = Some v \/
    (k ∉ tokens) /\ set_fold (fun token m => <[token := v]> m) m tokens !! k = m !! k) as [[? ->]|[? ->]].
  - apply (set_fold_ind_L (fun r X => k ∈ X /\ r !! k = Some v \/ (k ∉ X) /\ r !! k = m !! k)).
    + right. split; [apply not_elem_of_empty|done].
    + intros token X r Hout Hr. rewrite elem_of_union, elem_of_singleton. destruct (decide (token = k)) as [->|Hne].
      * left. split; [by left|by rewrite lookup_insert_eq].
      * rewrite lookup_insert_ne by done. naive_solver.
  - by rewrite decide_True.
  - by rewrite decide_False.
Qed.

Section recording.
Implicit Types (history : PassHistory) (selected universe : gset Address) (outcome : PricingPassOutcome).

Lemma recorded_stamp history selected outcome universe token : token ∈ universe ->
  ph_last_attempted (record_pass history selected outcome universe) !! token
  = if decide (token ∈ attempted_of selected outcome) then Some (wrapping_succ (ph_passes history))
    else ph_last_attempted history !! token.
Proof.
  intros Hin. cbn [record_pass ph_last_attempted]. rewrite map_lookup_filter, set_fold_insert_lookup.
  destruct (decide (token ∈ attempted_of _ _)); cbn [mbind option_bind].
  - by rewrite option_guard_True by done.
  - destruct (ph_last_attempted history !! token); cbn; [|done]. by rewrite option_guard_True by done.
Qed.

Lemma recorded_flag history selected outcome universe c k :
  ph_flagged_components (record_pass history selected outcome universe) !! c = Some k <->
  wrapping_sub (wrapping_succ (ph_passes history)) k < FLAGGED_POOL_PASSES /\
  (c ∈ po_new_flagged_components outcome /\ k = wrapping_succ (ph_passes history) \/
   (c ∉ po_new_flagged_components outcome) /\ ph_flagged_components history !! c = Some k).
Proof.
  cbn [record_pass ph_flagged_components]. rewrite map_lookup_filter_Some, set_fold_insert_lookup. cbn.
  case_decide; naive_solver.
Qed.
End recording.

(** ** Rotation *)

(** What a pass is over: its market, the tokens that arrived since the last call, those a change points
    at, those that have a price, and its scope. *)
Record Turn := {
  tn_universe : gset Address;
  tn_arrived : gset Address;
  tn_changed : option (gset Address);
  tn_priced : gset Address;
  tn_scope : PassScope;
}.

Section rotation.
Context (walk_order : gset Address -> list Address) (Hwalk : forall tokens, walk_order tokens ≡ₚ elements tokens).
Context (cap : N) (token : Address).
Implicit Types (history : PassHistory) (u : Address) (turn : Turn) (universe : gset Address).

Definition turn_priority history turn : PassPriority :=
  let priority := (pass_priority history (tn_arrived turn) (tn_priced turn)).2 in
  if decide (tn_scope turn = ArrivalsOnly) then keep_unpriced_arrivals priority else priority.

Definition turn_selection history turn : list Address :=
  select_pass_tokens walk_order (tn_universe turn) (tn_changed turn) (turn_priority history turn) (tn_scope turn) cap.

(** The tokens of the market that rank as arrived, and what they leave of the cap for the others: nothing
    in a pass for arrivals only. *)
Definition arrived_in history turn : gset Address := pq_arrived (turn_priority history turn) ∩ tn_universe turn.
Definition spare history turn : nat :=
  match tn_scope turn with Whole => N.to_nat cap - size (arrived_in history turn) | ArrivalsOnly => O end.

(** A pass that runs and attempts all it selects. *)
Definition uninterrupted turn history history' : Prop :=
  let ordered := turn_selection history turn in
  ordered <> [] /\ exists outcome, po_unattempted outcome = tn_universe turn ∖ list_to_set ordered /\
    history' = record_pass (pass_priority history (tn_arrived turn) (tn_priced turn)).1 (list_to_set ordered) outcome (tn_universe turn).

(** The market has the token, and a whole pass may select it. *)
Definition may_select history turn : Prop :=
  token ∈ tn_universe turn /\
  (tn_scope turn = Whole -> is_Some (rank (tn_changed turn) (turn_priority history turn) Whole token)).

(** What calls that record no pass leave as it was. *)
Definition same_passes history history' : Prop :=
  ph_passes history' = ph_passes history /\ ph_last_attempted history' = ph_last_attempted history.

(** [n] passes after one over [universe]: [room] adds up what arrivals left of their caps, and
    [entering] the tokens that were in the market of a pass and not in that of the one before. *)
Inductive rotation : gset Address -> PassHistory -> nat -> nat -> nat -> PassHistory -> Prop :=
| rotation_done universe history : rotation universe history 0 0 0 history
| rotation_pass universe history between turn history1 room entering n history' :
    same_passes history between -> may_select between turn -> uninterrupted turn between history1 ->
    rotation (tn_universe turn) history1 room entering n history' ->
    rotation universe history (spare between turn + room) (size (tn_universe turn ∖ universe) + entering) (S n) history'.

Definition last_stamp history u : N := default 0 (ph_last_attempted history !! u).

(** No stamp is of a pass to come. *)
Definition stamps_past history : Prop := forall u s, ph_last_attempted history !! u = Some s -> s <= ph_passes history.

(** The tokens that come no later than [token]. *)
Definition ahead history universe : gset Address := filter (fun u => last_stamp history u <= last_stamp history token) universe.

Lemma turn_stamp history turn u : stamp (turn_priority history turn) u = last_stamp history u.
Proof. unfold turn_priority, stamp, last_stamp. by case_decide. Qed.

(** A pass stamps what it selects, and nothing else. *)
Lemma uninterrupted_stamps turn history history' u : ph_passes history < u64_MAX -> uninterrupted turn history history' ->
  ph_passes history' = ph_passes history + 1 /\
  (u ∈ tn_universe turn -> ph_last_attempted history' !! u =
     if decide (u ∈ turn_selection history turn) then Some (ph_passes history + 1) else ph_last_attempted history !! u) /\
  (is_Some (ph_last_attempted history' !! u) -> u ∈ tn_universe turn).
Proof.
  intros Hmax (_ & outcome & Hun & ->). set (ordered := turn_selection history turn) in *.
  assert (wrapping_succ (ph_passes history) = ph_passes history + 1) as Hsucc by (unfold wrapping_succ; apply N.mod_small; lia).
  split; [exact Hsucc|]. split.
  - intros Hu. rewrite recorded_stamp by done. cbn [pass_priority fst ph_passes ph_last_attempted]. rewrite Hsucc.
    apply decide_ext. unfold attempted_of. rewrite Hun, elem_of_difference, elem_of_difference, !elem_of_list_to_set.
    split; [tauto|]. intros Hin. split; [done|]. intros [_ ?]. done.
  - intros [s Hs]. cbn in Hs. by apply map_lookup_filter_Some in Hs as [_ ?].
Qed.

Lemma uninterrupted_past turn history history' : ph_passes history < u64_MAX -> stamps_past history ->
  uninterrupted turn history history' -> stamps_past history'.
Proof.
  intros Hmax Hpast Hturn u s Hs. destruct (uninterrupted_stamps turn history history' u Hmax Hturn) as (-> & Hstamp & Hin).
  rewrite (Hstamp (Hin ltac:(by eexists))) in Hs. case_decide; [by injection Hs as <-|]. specialize (Hpast _ _ Hs). lia.
Qed.

(** The tokens selected in what arrivals leave of the cap, when it leaves [token] out. *)
Definition rotated history turn : gset Address := list_to_set (turn_selection history turn) ∖ pq_arrived (turn_priority history turn).

Lemma rotated_ahead history turn : may_select history turn -> token ∉ turn_selection history turn ->
  (spare history turn <= size (rotated history turn))%nat /\
  (tn_scope turn = Whole -> rotated history turn ⊆ ahead history (tn_universe turn)).
Proof.
  intros [Hin Hrank] Hout. unfold spare. destruct (tn_scope turn) eqn:Hscope; [|split; [lia|done]].
  destruct (Hrank eq_refl) as [r Hr]. unfold rotated, turn_selection in *. rewrite Hscope in *.
  destruct (selection_cap _ Hwalk _ _ Whole _ cap token r Hin Hr Hout) as [Hlen Hle].
  pose proof (selection_NoDup _ Hwalk (tn_changed turn) (turn_priority history turn) Whole (tn_universe turn) cap) as Hnd.
  pose proof (selection_elem _ Hwalk (tn_changed turn) (turn_priority history turn) Whole (tn_universe turn) cap) as Hsel.
  set (ordered := select_pass_tokens _ _ _ _ _ _) in *. split.
  - assert ((list_to_set ordered : gset Address) ⊆ list_to_set ordered ∖ pq_arrived (turn_priority history turn) ∪ arrived_in history turn) as Hsub.
    { intros u Hu. unfold arrived_in. pose proof Hu as [Hu' _]%elem_of_list_to_set%Hsel.
      destruct (decide (u ∈ pq_arrived (turn_priority history turn))); set_solver. }
    apply subseteq_size in Hsub. rewrite size_list_to_set, Hlen in Hsub by done. rewrite size_union_alt in Hsub.
    assert (size (arrived_in history turn ∖ (list_to_set ordered ∖ pq_arrived (turn_priority history turn))) <= size (arrived_in history turn))%nat
      by (apply subseteq_size, subseteq_difference_l; done). lia.
  - intros _ u [Hu Hua]%elem_of_difference. apply elem_of_list_to_set in Hu. destruct (Hsel u Hu) as [Hu' _].
    apply elem_of_filter. split; [|done]. destruct (Hle u Hu) as (r' & Hr' & Hranked).
    destruct (rank_token _ _ _ _ _ Hr) as [_ Hs], (rank_token _ _ _ _ _ Hr') as [_ Hs']. rewrite turn_stamp in Hs, Hs'.
    unfold rank in Hr, Hr'. rewrite (decide_False (P := u ∈ _)) in Hr' by done. rewrite decide_False in Hr' by done.
    unfold ranked_le in Hranked. rewrite Hs, Hs' in Hranked. destruct (_ || _) in Hr'; [|done]. injection Hr' as <-.
    cbn in Hranked. destruct (decide _) in Hr; [injection Hr as <-|].
    + unfold ROTATING, ARRIVED in Hranked. cbn in Hranked. lia.
    + rewrite decide_False in Hr by done. destruct (_ || _) in Hr; [|done]. injection Hr as <-. cbn in Hranked. lia.
Qed.

(** One pass: the token is attempted, or as many tokens as the arrivals left room for are behind it. *)
Lemma rotation_step turn history history' : stamps_past history -> ph_passes history < u64_MAX ->
  may_select history turn -> uninterrupted turn history history' ->
  ph_last_attempted history' !! token = Some (ph_passes history + 1) \/
  ph_last_attempted history' !! token = ph_last_attempted history !! token /\
  (size (ahead history' (tn_universe turn)) + spare history turn <= size (ahead history (tn_universe turn)))%nat.
Proof.
  intros Hpast Hmax Hmay Hturn. pose proof (fun u => uninterrupted_stamps turn history history' u Hmax Hturn) as Hst.
  destruct (Hst token) as (_ & Htoken & _). specialize (Htoken (proj1 Hmay)). rewrite Htoken.
  destruct (decide (token ∈ turn_selection history turn)) as [|Hout]; [by left|right]. split; [done|].
  destruct (rotated_ahead history turn Hmay Hout) as [Hroom Hrot].
  assert (last_stamp history token <= ph_passes history) as Hbound.
  { unfold last_stamp. destruct (ph_last_attempted history !! token) eqn:Hs; [by apply Hpast in Hs|cbn; lia]. }
  assert (forall u, u ∈ ahead history' (tn_universe turn) -> u ∈ ahead history (tn_universe turn) /\ u ∉ turn_selection history turn) as Hback.
  { intros u [Hle Hu]%elem_of_filter. destruct (Hst u) as (_ & Hstamp & _). specialize (Hstamp Hu).
    unfold last_stamp in Hle. rewrite Hstamp, Htoken in Hle. case_decide as Hsel; [cbn in Hle; unfold last_stamp in Hbound; lia|].
    split; [|done]. apply elem_of_filter. by split. }
  unfold spare in *. destruct (tn_scope turn) eqn:Hscope.
  - transitivity (size (ahead history' (tn_universe turn)) + size (rotated history turn))%nat; [lia|].
    rewrite <- size_union; [|intros u [_ Hu]%Hback Hu'; unfold rotated in Hu'; by apply elem_of_difference in Hu' as [Hu'%elem_of_list_to_set _]].
    apply subseteq_size. intros u [[Hu _]%Hback|Hu]%elem_of_union; [done|by apply (Hrot eq_refl)].
  - rewrite Nat.add_0_r. apply subseteq_size. by intros u [Hu _]%Hback.
Qed.

Lemma ahead_entering history universe universe' :
  (size (ahead history universe') <= size (ahead history universe) + size (universe' ∖ universe))%nat.
Proof.
  transitivity (size (ahead history universe ∪ universe' ∖ universe)).
  - apply subseteq_size. intros u [Hu Hin]%elem_of_filter. apply elem_of_union.
    destruct (decide (u ∈ universe)); [left; by apply elem_of_filter|right; by apply elem_of_difference].
  - rewrite size_union_alt. apply Nat.add_le_mono_l, subseteq_size, subseteq_difference_l. done.
Qed.

Lemma ahead_same history history' universe : ph_last_attempted history' = ph_last_attempted history ->
  ahead history' universe = ahead history universe.
Proof. intros Hsame. unfold ahead, last_stamp. by rewrite Hsame. Qed.

Lemma rotation_counts universe history room entering n history' : rotation universe history room entering n history' ->
  stamps_past history -> ph_passes history + N.of_nat n <= u64_MAX -> token ∈ universe ->
  (exists s, ph_last_attempted history' !! token = Some s /\ ph_passes history < s) \/
  ph_last_attempted history' !! token = ph_last_attempted history !! token /\
  (S room <= size (ahead history universe) + entering)%nat.
Proof.
  induction 1 as [universe history|universe history between turn history1 room entering n history' [Hp Hl] Hmay Hturn _ IH];
    intros Hpast Hmax Hin.
  { right. split; [done|]. assert ({[ token ]} ⊆ ahead history universe) as Hpos%subseteq_size.
    { intros u ->%elem_of_singleton. by apply elem_of_filter. } rewrite size_singleton in Hpos. lia. }
  assert (stamps_past between) as Hpast' by (intros u s; rewrite Hl, Hp; apply Hpast).
  assert (ph_passes between < u64_MAX) as Hlt by lia.
  destruct (uninterrupted_stamps turn between history1 token Hlt Hturn) as (Hp1 & _ & _).
  destruct IH as [(s & Hs & Hlater)|[Hkept Hless]]; [by eapply uninterrupted_past|lia|apply Hmay|left; exists s; split; [done|lia]|].
  destruct (rotation_step turn between history1 Hpast' Hlt Hmay Hturn) as [Hdone|[Hsame Hfewer]]; [left|right].
  { exists (ph_passes between + 1). split; [congruence|lia]. }
  split; [congruence|]. rewrite (ahead_same history between _ Hl) in Hfewer.
  pose proof (ahead_entering history universe (tn_universe turn)). lia.
Qed.

Lemma rotation_reaches universe history room entering n history' : rotation universe history room entering n history' ->
  stamps_past history -> ph_passes history + N.of_nat n <= u64_MAX -> token ∈ universe ->
  (size universe + entering <= room)%nat ->
  exists s, ph_last_attempted history' !! token = Some s /\ ph_passes history < s.
Proof.
  intros Hrot Hpast Hmax Hin Hroom. destruct (rotation_counts _ _ _ _ _ _ Hrot Hpast Hmax Hin) as [?|[_ Hless]]; [done|].
  assert (size (ahead history universe) <= size universe)%nat; [|lia]. apply subseteq_size. by intros u [_ ?]%elem_of_filter.
Qed.
End rotation.

(** ** Flags *)

(** A pass in which a pool is not flagged; between passes the history keeps its count and its flags. *)
Definition passes_unflagged (c : ComponentId) (history history' : PassHistory) : Prop :=
  exists between selected outcome universe,
    ph_passes between = ph_passes history /\ ph_flagged_components between = ph_flagged_components history /\
    (c ∉ po_new_flagged_components outcome) /\ history' = record_pass between selected outcome universe.

Lemma wrapping_sub_succ a k : a <= u64_MAX -> k <= u64_MAX -> wrapping_sub a k < FLAGGED_POOL_PASSES ->
  wrapping_sub (wrapping_succ a) k = wrapping_sub a k + 1.
Proof.
  unfold wrapping_sub, wrapping_succ, FLAGGED_POOL_PASSES, u64_MAX. intros Ha Hk Hlt.
  destruct (N.eq_dec a 18446744073709551615) as [->|Hne].
  - change ((18446744073709551615 + 1) mod (18446744073709551615 + 1)) with 0.
    destruct (N.eq_dec k 0) as [->|Hk0]; [by vm_compute in Hlt|].
    rewrite (N.mod_small (0 + _ - k)) by lia.
    replace (18446744073709551615 + (18446744073709551615 + 1) - k)
      with ((18446744073709551615 - k) + 1 * (18446744073709551615 + 1)) in * by lia.
    rewrite N.Div0.mod_add in *. rewrite N.mod_small in * by lia. lia.
  - rewrite (N.mod_small (a + 1)) by lia. destruct (N.le_gt_cases k a) as [Hle|Hgt].
    + replace (a + 1 + (18446744073709551615 + 1) - k) with ((a + 1 - k) + 1 * (18446744073709551615 + 1)) by lia.
      replace (a + (18446744073709551615 + 1) - k) with ((a - k) + 1 * (18446744073709551615 + 1)) in * by lia.
      rewrite !N.Div0.mod_add in *. destruct (N.eq_dec (a - k) 18446744073709551615); [lia|].
      rewrite (N.mod_small (a - k)) in * by lia. rewrite N.mod_small by lia. lia.
    + rewrite (N.mod_small (a + _ - k)) in * by lia. rewrite (N.mod_small (a + 1 + _ - k)) by lia. lia.
Qed.

Lemma pass_succ_bound n : wrapping_succ n <= u64_MAX.
Proof. unfold wrapping_succ. pose proof (N.mod_lt (n + 1) (u64_MAX + 1)). unfold u64_MAX in *. lia. Qed.

Lemma wrapping_sub_self a : wrapping_sub a a = 0.
Proof. unfold wrapping_sub. replace (a + (u64_MAX + 1) - a) with (0 + 1 * (u64_MAX + 1)) by lia. by rewrite N.Div0.mod_add. Qed.

(** The age of a flag through the passes that do not set it again. *)
Definition flag_age (c : ComponentId) (history : PassHistory) (age : N) : Prop :=
  exists k, ph_flagged_components history !! c = Some k /\ ph_passes history <= u64_MAX /\ k <= u64_MAX /\
    wrapping_sub (ph_passes history) k = age /\ age < FLAGGED_POOL_PASSES.

Lemma flag_ages c history history' age : flag_age c history age -> passes_unflagged c history history' ->
  if decide (age + 1 < FLAGGED_POOL_PASSES) then flag_age c history' (age + 1)
  else ph_flagged_components history' !! c = None.
Proof.
  intros (k & Hk & Hp & Hkb & Hage & Hyoung) (between & selected & outcome & universe & Hpb & Hfb & Hc & ->).
  assert (wrapping_sub (wrapping_succ (ph_passes history)) k = age + 1) as Hnext
    by (rewrite <- Hage; apply wrapping_sub_succ; by rewrite ?Hage).
  pose proof (recorded_flag between selected outcome universe c) as Hflag. rewrite Hpb, Hfb in Hflag.
  case_decide as Hlt.
  - exists k. split; [|split; [|split; [done|split; [|done]]]].
    + apply Hflag. rewrite Hnext. split; [done|]. by right.
    + cbn. rewrite Hpb. apply pass_succ_bound.
    + cbn. by rewrite Hpb.
  - apply eq_None_not_Some. intros [k' [Hk' [[? _]|[_ Hl]]]%Hflag]; [done|]. rewrite Hk in Hl. injection Hl as <-. lia.
Qed.

Lemma unflagged_stays c history history' : ph_flagged_components history !! c = None -> passes_unflagged c history history' ->
  ph_flagged_components history' !! c = None.
Proof.
  intros Hnone (between & selected & outcome & universe & _ & Hfb & Hc & ->). apply eq_None_not_Some.
  intros [k [_ [[? _]|[_ Hk]]]%recorded_flag]; [done|]. congruence.
Qed.

Lemma flag_life c n history history' age : flag_age c history age -> nsteps (passes_unflagged c) n history history' ->
  is_Some (ph_flagged_components history' !! c) <-> age + N.of_nat n < FLAGGED_POOL_PASSES.
Proof.
  revert history age. induction n as [|n IH]; intros history age Hage Hsteps.
  { inversion Hsteps; subst. destruct Hage as (k & Hk & _ & _ & _ & Hlt). rewrite Hk. split; [lia|by eexists]. }
  inversion Hsteps as [|? ? history1 ? Hstep Hrest]; subst.
  pose proof (flag_ages _ _ _ _ Hage Hstep) as Hnext. case_decide as Hlt.
  - rewrite (IH _ _ Hnext Hrest). lia.
  - assert (ph_flagged_components history' !! c = None) as ->.
    { clear - Hnext Hrest. induction Hrest as [|? ? ? ? Hstep _ IH]; [done|]. by apply IH, (unflagged_stays _ _ _ Hnext). }
    split; [by intros [? ?]|lia].
Qed.

(** ** Spacing *)

Section compute.
Context `{TychoGas} `{!Messages} `{!TychoSwaps} `{NodeGraph (EdgeData ())} (decimals : Token -> N) (integer_decode : f64 -> N * Z).
Context (spot_price : ProtocolSim -> Token -> Token -> result string f64).
Context (show_address : Address -> string) (show_algorithm_error : AlgorithmError -> string) (fresh_order_id : string).
Context (show_join_error : string) (walk_order : gset Address -> list Address).
Implicit Types (self : TokenGasPriceComputation) (history : PassHistory) (store : DerivedData).

#[local] Abbreviation solve := (solve_token_prices decimals integer_decode spot_price show_address
  show_algorithm_error fresh_order_id show_join_error walk_order).
#[local] Abbreviation update_prices := (update_prices decimals integer_decode spot_price show_address
  show_algorithm_error fresh_order_id show_join_error walk_order).
#[local] Abbreviation seed_all_prices := (seed_all_prices decimals integer_decode spot_price show_address
  show_algorithm_error fresh_order_id show_join_error walk_order).
#[local] Abbreviation compute := (TokenGasPriceComputation_compute decimals integer_decode spot_price show_address
  show_algorithm_error fresh_order_id show_join_error walk_order).

(** When the last whole pass started, and on which block. *)
Definition last_whole history : option N * option N := (ph_last_pass_started history, ph_last_pass_block history).

Lemma solve_last self history env changed priority scope max_tokens :
  last_whole (solve self history env changed priority scope max_tokens).1 = last_whole history.
Proof.
  unfold solve_token_prices. destruct (select_pass_tokens _ _ _ _ _ _); [done|]. destruct (pricing_algorithm self); [|done].
  destruct (pricing_context _ _ _ _ _); [|done]. by destruct (run_pass _ _ _ _ _ _ _ _ _ _ _ _ _ _).
Qed.

Lemma update_last self history env store changed scope :
  last_whole (update_prices self history env store changed scope).1.2 = last_whole history.
Proof.
  unfold TokenPrices.update_prices. destruct (token_prices_deps store); [|done]. destruct (token_prices store); [|done].
  cbn [pass_priority]. destruct (_ && _); [done|].
  match goal with |- context [solve self ?h env ?c ?p scope ?m] => pose proof (solve_last self h env c p scope m) as Hl;
    destruct (solve self h env c p scope m) as [h' [solved|e]] end; [|done].
  destruct (token_prices_deps _); [|done]. by destruct (edit_token_prices_deps _ _ _).
Qed.

Lemma seed_last self history env store : last_whole (seed_all_prices self history env store).1.2 = last_whole history.
Proof.
  unfold TokenPrices.seed_all_prices. cbn [pass_priority].
  match goal with |- context [solve self ?h env ?c ?p ?s ?m] => pose proof (solve_last self h env c p s m) as Hl;
    destruct (solve self h env c p s m) as [h' [solved|e]] end; done.
Qed.

Definition slot_of self history (env : ComputeEnv) (changed : ChangedComponents) : PassHistory * PassSlot :=
  start_pass self history (ce_now env) (block_of (ce_block env) 0)
    (negb (bool_decide (added (without_left_out_arrivals (ce_arrivals env) changed) = ∅))).

Lemma compute_last self env history store changed :
  last_whole (compute self env history store changed).1.2 = last_whole (slot_of self history env changed).1.
Proof.
  unfold TokenGasPriceComputation_compute. fold (slot_of self history env changed).
  destruct (slot_of self history env changed) as [h slot]. cbn [fst].
  assert (forall scope, last_whole (match update_prices self h (ce_update env) store
      (without_left_out_arrivals (ce_arrivals env) changed) scope with
    | (store, history, Err error) => (store, history, Err error)
    | (store, history, Ok (Some result)) => (store, history, Ok result)
    | (store, history, Ok None) => seed_all_prices self history (ce_seed env) store
    end).1.2 = last_whole h) as Hrun.
  { intros scope. pose proof (update_last self h (ce_update env) store (without_left_out_arrivals (ce_arrivals env) changed) scope) as Hu.
    destruct (update_prices _ _ _ _ _ _) as [[s h'] [[r|]|e]]; [done| |done]. by rewrite seed_last. }
  destruct slot; [apply Hrun|apply Hrun|]. destruct (token_prices store); [done|apply seed_last].
Qed.

(** The whole passes granted by successive calls, with their times and blocks; the clock does not go
    back, and the store and the market change as they like between calls. *)
Inductive granted self : N -> PassHistory -> list (N * N) -> Prop :=
| granted_none now history : granted self now history []
| granted_call now history env store changed grants :
    now <= ce_now env ->
    granted self (ce_now env) (compute self env history store changed).1.2 grants ->
    granted self now history
      (match (slot_of self history env changed).2 with
       | Due => (ce_now env, block_of (ce_block env) 0) :: grants
       | ArrivalsSlot | Deferred => grants
       end).

Lemma start_due self history now block arrivals : (start_pass self history now block arrivals).2 = Due ->
  last_whole (start_pass self history now block arrivals).1 = (Some now, Some block) /\
  match ph_last_pass_started history with Some started => tg_min_pass_interval self <= now - started | None => True end /\
  (tg_min_pass_interval self = 0 \/ ph_last_pass_block history <> Some block).
Proof.
  unfold start_pass. destruct (_ && _) eqn:Hdue; [|by destruct arrivals]. intros _. split; [done|].
  apply andb_true_iff in Hdue as [Hint Hblock]. split.
  - destruct (ph_last_pass_started history); [by apply N.leb_le|done].
  - apply orb_true_iff in Hblock as [?%N.eqb_eq|Hblock]; [by left|right].
    destruct (ph_last_pass_block history) as [b|]; [|done]. apply negb_true_iff, N.eqb_neq in Hblock. congruence.
Qed.

Lemma start_not_due self history now block arrivals : (start_pass self history now block arrivals).2 <> Due ->
  (start_pass self history now block arrivals).1 = history.
Proof. unfold start_pass. by destruct (_ && _). Qed.

(** The first grant after a history keeps its distance to the last one of the history. *)
Definition apart self (before : option N * option N) (grant : N * N) : Prop :=
  match before.1 with Some started => tg_min_pass_interval self <= grant.1 - started | None => True end /\
  (tg_min_pass_interval self = 0 \/ before.2 <> Some grant.2).

Lemma granted_apart self now history grants : granted self now history grants ->
  Forall (fun grant => now <= grant.1) grants /\
  (forall grant, head grants = Some grant -> apart self (last_whole history) grant) /\
  forall i before after, grants !! i = Some before -> grants !! S i = Some after ->
    apart self (Some before.1, Some before.2) after.
Proof.
  induction 1 as [|now history env store changed grants Hnow _ (Hafter & Hhead & Hpairs)]; [by split_and!|].
  rewrite compute_last in Hhead. unfold slot_of in *.
  set (arrivals := negb _) in *. set (block := block_of _ 0) in *.
  assert (Forall (fun grant => now <= grant.1) grants) as Hlater by (eapply Forall_impl; [exact Hafter|]; cbn; lia).
  assert ((start_pass self history (ce_now env) block arrivals).2 = Due \/
    (start_pass self history (ce_now env) block arrivals).2 <> Due) as [Hdue|Hnot]
    by (destruct (start_pass self history (ce_now env) block arrivals).2; [by left|by right..]).
  - rewrite Hdue. destruct (start_due _ _ _ _ _ Hdue) as (Hlast & Hint & Hb). rewrite Hlast in Hhead. split; [|split].
    + by constructor.
    + intros grant [= <-]. by split.
    + intros [|i] before after; cbn; [|by apply Hpairs]. intros [= <-] Ha. apply Hhead. by destruct grants.
  - rewrite (start_not_due _ _ _ _ _ Hnot) in Hhead.
    destruct (start_pass self history (ce_now env) block arrivals).2; [done| |]; by split_and!.
Qed.

(** ** The stored prices *)

Lemma delete_all_lookup {V} (m : gmap Address V) dropped k :
  delete_all m dropped !! k = if decide (k ∈ dropped) then None else m !! k.
Proof.
  unfold delete_all. revert m. induction dropped as [|t dropped IH]; intros m; cbn [fold_left].
  { by rewrite decide_False by apply not_elem_of_nil. }
  rewrite IH. destruct (decide (k ∈ dropped)) as [Hin|Hout].
  - by rewrite decide_True by by right.
  - destruct (decide (k = t)) as [->|Hne].
    + by rewrite lookup_delete_eq, decide_True by left.
    + rewrite lookup_delete_ne by done. rewrite decide_False; [done|]. by intros [?|?]%elem_of_cons.
Qed.

Lemma delete_all_fmap {V W} (f : V -> W) (m : gmap Address V) dropped : f <$> delete_all m dropped = delete_all (f <$> m) dropped.
Proof. apply map_eq. intros k. rewrite lookup_fmap, !delete_all_lookup, lookup_fmap. by case_decide. Qed.

(** An entry after a pass: the new one, the old one of what was not attempted and of the gas token. *)
Definition entry_after self (solved : PricingPassOutcome) (deps : TokenPricesWithDeps) (token : Address) : option TokenPriceEntry :=
  match po_prices solved !! token with
  | Some entry => Some entry
  | None => if decide (token ∈ po_unattempted solved \/ token = gt_address (tg_gas_token_config self)) then deps !! token else None
  end.

Lemma edit_deps_lookup self solved deps token : edit_deps self solved deps !! token = entry_after self solved deps token.
Proof.
  unfold edit_deps, entry_after. rewrite delete_all_lookup.
  assert (token ∈ dropped_tokens self solved (po_prices solved ∪ deps) <->
    token <> gt_address (tg_gas_token_config self) /\ po_prices solved !! token = None /\ (token ∉ po_unattempted solved)
    /\ is_Some (deps !! token)) as Hdrop.
  { unfold dropped_tokens. rewrite list_elem_of_fmap. split.
    - intros ([t e] & -> & [Hl (? & Hnone & ?)]%elem_of_map_to_list%map_lookup_filter_Some). cbn in *. split_and!; try done.
      apply lookup_union_Some_raw in Hl as [?|[_ ?]]; [congruence|by eexists].
    - intros (? & Hnone & ? & [e He]). exists (token, e). split; [done|]. apply elem_of_map_to_list, map_lookup_filter_Some.
      split; [|done]. apply lookup_union_Some_raw. by right. }
  case_decide as Hin.
  - apply Hdrop in Hin as (? & -> & ? & _). rewrite decide_False; [done|]. tauto.
  - destruct (po_prices solved !! token) as [e|] eqn:Hp; [by apply lookup_union_Some_l|].
    rewrite lookup_union_r by done. case_decide as Hkeep; [done|].
    destruct (deps !! token) as [e|] eqn:He; [|done]. exfalso. apply Hin, Hdrop. split_and!; [tauto|done|tauto|by eexists].
Qed.

Lemma edit_prices_agree self solved deps : edit_prices self solved deps (tpe_price <$> deps) = tpe_price <$> edit_deps self solved deps.
Proof. unfold edit_prices, edit_deps. by rewrite delete_all_fmap, map_fmap_union. Qed.

(** A seeded entry. *)
Lemma seeded_lookup self solved previous token : (forall t, t ∈ po_unattempted solved -> po_prices solved !! t = None) ->
  seeded_deps self solved previous !! token =
  if decide (token = gt_address (tg_gas_token_config self)) then Some (gas_token_entry self)
  else match po_prices solved !! token with
       | Some entry => Some entry
       | None => if decide (token ∈ po_unattempted solved) then default ∅ previous !! token else None
       end.
Proof.
  intros Hdisj. unfold seeded_deps. case_decide as Hgas; [by subst; rewrite lookup_insert_eq|]. rewrite lookup_insert_ne by done.
  destruct (decide (token ∈ po_unattempted solved)) as [Hun|Hatt].
  - rewrite (Hdisj _ Hun). destruct (default ∅ previous !! token) as [e|] eqn:He.
    + apply lookup_union_Some_l, map_lookup_filter_Some. done.
    + rewrite lookup_union_r by (apply map_lookup_filter_None_2; by left). by apply Hdisj.
  - rewrite lookup_union_r by (apply map_lookup_filter_None_2; right; by intros ? _). by destruct (po_prices solved !! token).
Qed.

Section stored.
Context (parse_address : string -> option Address).
Context (Hparse : forall a, parse_address (show_address a) = Some a).
Context (Hwalk : forall tokens, walk_order tokens ≡ₚ elements tokens).

(** What a store keeps true of its token prices. *)
Record prices_ok self store : Prop := {
  po_agree : forall prices deps, token_prices store = Some prices -> token_prices_deps store = Some deps ->
    prices = tpe_price <$> cv_data deps;
  po_gas : forall deps, token_prices_deps store = Some deps ->
    cv_data deps !! gt_address (tg_gas_token_config self) = Some (gas_token_entry self);
  po_nonzero : forall deps token entry, token_prices_deps store = Some deps -> cv_data deps !! token = Some entry ->
    price_ok (tpe_price entry);
  po_failures : forall prices token, token_prices store = Some prices -> is_Some (token_prices_failed store !! token) ->
    prices !! token = None;
}.

(** Other tasks leave the dependencies alone while a pass runs, or clear them. *)
Definition leaves_deps (env : PassEnv) : Prop := forall store,
  token_prices_deps (pe_store_meanwhile env store) = token_prices_deps store \/
  token_prices_deps (pe_store_meanwhile env store) = None.

(** What a call returns agrees with the dependencies it leaves. *)
Record output_ok self store (output : ComputationOutput) : Prop := {
  oo_deps : forall deps, token_prices_deps store = Some deps ->
    co_data output = OutTokenPrices (tpe_price <$> cv_data deps) /\
    cv_data deps !! gt_address (tg_gas_token_config self) = Some (gas_token_entry self) /\
    forall token entry, cv_data deps !! token = Some entry -> price_ok (tpe_price entry);
  oo_failed : exists prices failed, co_data output = OutTokenPrices prices /\
    co_failed_items output = (fun item : Address * string =>
      {| fi_key := show_address item.1; fi_error := MissingSellRoute item.2 |}) <$> failed /\
    forall token, token ∈ failed.*1 -> prices !! token = None;
}.

Lemma collect_failures_keys block (failed : list (Address * string)) token :
  is_Some (collect_failures parse_address block ((fun item : Address * string =>
      {| fi_key := show_address item.1; fi_error := MissingSellRoute item.2 |}) <$> failed) !! token) -> token ∈ failed.*1.
Proof.
  unfold collect_failures. assert (forall m : FailureMap Address, is_Some (fold_left (fun m f => match parse_address (fi_key f) with
      | Some k => <[k := (block, fi_error f)]> m | None => m end) ((fun item : Address * string =>
      {| fi_key := show_address item.1; fi_error := MissingSellRoute item.2 |}) <$> failed) m !! token) ->
    token ∈ failed.*1 \/ is_Some (m !! token)) as Hall.
  { induction failed as [|[t msg] failed IH]; intros m; cbn [fmap list_fmap fold_left]; [by right|].
    intros Ht. destruct (IH _ Ht) as [?|Hm]; [left; by right|]. cbn in Hm. rewrite Hparse in Hm.
    apply lookup_insert_is_Some' in Hm as [->|?]; [left; by left|by right]. }
  intros Ht. destruct (Hall ∅ Ht) as [?|[? []%lookup_empty_Some]]; done.
Qed.

Lemma persist_ok self store output block now : output_ok self store output ->
  prices_ok self (token_price_persist parse_address now store output block).
Proof.
  intros [Hdeps (prices & failed & Hdata & Hitems & Hnone)]. unfold token_price_persist. rewrite Hdata.
  assert (forall p, token_prices (set_token_prices parse_address store prices (co_failed_items output) block now) = Some p -> p = prices) as Hp.
  { intros p. unfold token_prices, set_token_prices. cbn. rewrite lookup_insert_eq. cbn. by intros [= <-]. }
  split.
  - intros p deps Htp%Hp Hd. subst p. cbn in Hd. destruct (Hdeps _ Hd) as [Heq _]. rewrite Hdata in Heq. by injection Heq.
  - intros deps Hd. cbn in Hd. by apply Hdeps.
  - intros deps token entry Hd. cbn in Hd. destruct (Hdeps _ Hd) as (_ & _ & Hall). apply Hall.
  - intros p token Htp%Hp Hf. subst p. cbn in Hf. unfold merge_failures in Hf.
    apply lookup_union_is_Some in Hf as [Hf|[e [_ He]%map_lookup_filter_Some]]; [|done].
    rewrite Hitems in Hf. by apply Hnone, (collect_failures_keys block).
Qed.

(** What the stored prices need of a solved pass. *)
Record solved_ok self (solved : PricingPassOutcome) (failed : list (Address * string)) : Prop := {
  sd_prices : forall token entry, po_prices solved !! token = Some entry ->
    price_ok (tpe_price entry) /\ token <> gt_address (tg_gas_token_config self);
  sd_unattempted : forall token, token ∈ po_unattempted solved -> po_prices solved !! token = None;
  sd_items : po_failed_items solved = (fun item : Address * string =>
      {| fi_key := show_address item.1; fi_error := MissingSellRoute item.2 |}) <$> failed;
  sd_failed : forall token, token ∈ failed.*1 -> po_prices solved !! token = None /\ (token ∉ po_unattempted solved) /\
    token <> gt_address (tg_gas_token_config self);
}.

Context (self : TokenGasPriceComputation) (Hhops : tg_max_hops self <> O) (Hgas : gas_token_ok (tg_gas_token_config self)).
#[local] Abbreviation gas_address := (gt_address (tg_gas_token_config self)).

Lemma solve_ok history env changed priority scope max_tokens : (forall i, keyed (pe_snapshot env i)) ->
  exists history' solved failed, solve self history env changed priority scope max_tokens = (history', Ok solved) /\
    solved_ok self solved failed.
Proof.
  intros Hkeyed.
  destruct (solve_spec decimals integer_decode spot_price show_address show_algorithm_error fresh_order_id show_join_error walk_order Hwalk
    self history env changed priority scope max_tokens Hhops Hkeyed) as [[-> _]|(algorithm & ctx & outcome & failed & _ & _ & Hres & ->)].
  - exists history, (nothing_attempted (universe_of self env) (block_of (pe_topology env) 0)), []. split; [done|]. split; cbn.
    + intros token entry. by rewrite lookup_empty.
    + intros token _. by rewrite lookup_empty.
    + done.
    + by intros token ?%elem_of_nil.
  - set (ordered := select_pass_tokens _ _ _ _ _ _) in *.
    pose proof (selection_gas walk_order Hwalk self env changed priority scope max_tokens) as Hnogas.
    fold ordered in Hnogas. rewrite Forall_forall in Hnogas.
    eexists _, _, failed. split; [done|]. split; cbn.
    + intros token entry Hentry. destruct (ps_prices _ _ _ _ _ _ _ _ _ _ _ _ _ Hres token entry Hentry) as [Hin Hok].
      split; [by apply Hok|by apply Hnogas].
    + intros token [Hun|[_ Hout]%elem_of_difference]%elem_of_union; [by apply (ps_unattempted _ _ _ _ _ _ _ _ _ _ _ _ _ Hres)|].
      destruct (po_prices outcome !! token) as [entry|] eqn:Hentry; [|done].
      destruct (ps_prices _ _ _ _ _ _ _ _ _ _ _ _ _ Hres token entry Hentry) as [Hin _].
      exfalso. by apply Hout, elem_of_list_to_set.
    + apply (ps_items _ _ _ _ _ _ _ _ _ _ _ _ _ Hres).
    + intros token Hf. destruct (ps_failed _ _ _ _ _ _ _ _ _ _ _ _ _ Hres token Hf) as (Hin & Hnone & Hun).
      split; [done|]. split; [|by apply Hnogas]. intros [?|[_ Hout]%elem_of_difference]%elem_of_union; [done|].
      by apply Hout, elem_of_list_to_set.
Qed.

Lemma edited_output_ok store' solved failed deps block : solved_ok self solved failed ->
  cv_data deps !! gas_address = Some (gas_token_entry self) ->
  (forall token entry, cv_data deps !! token = Some entry -> price_ok (tpe_price entry)) ->
  token_prices_deps store' = Some {| cv_data := edit_deps self solved (cv_data deps); cv_block := block |} ->
  output_ok self store' (with_failures (edit_prices self solved (cv_data deps) (tpe_price <$> cv_data deps)) (po_failed_items solved)).
Proof.
  intros Hs Hdgas Hnz Hdeps. rewrite edit_prices_agree. split.
  - intros d Hd. rewrite Hdeps in Hd. injection Hd as <-. cbn. split; [done|]. split.
    + rewrite edit_deps_lookup. unfold entry_after. destruct (po_prices solved !! _) as [e|] eqn:He.
      { by destruct (sd_prices _ _ _ Hs _ _ He). }
      rewrite decide_True; [done|by right].
    + intros token entry. rewrite edit_deps_lookup. unfold entry_after. destruct (po_prices solved !! token) as [e|] eqn:He.
      { intros [= <-]. by apply (sd_prices _ _ _ Hs _ _ He). }
      case_decide; [apply Hnz|done].
  - eexists _, failed. split; [done|]. split; [apply (sd_items _ _ _ Hs)|]. intros token Hf.
    destruct (sd_failed _ _ _ Hs token Hf) as (Hnone & Hun & Hne). rewrite lookup_fmap, edit_deps_lookup. unfold entry_after.
    rewrite Hnone, decide_False; [done|]. tauto.
Qed.

(** The stored dependencies hold no zero price. *)
Definition deps_nonzero store : Prop := forall deps token entry, token_prices_deps store = Some deps ->
  cv_data deps !! token = Some entry -> price_ok (tpe_price entry).

Lemma unchanged_output_ok store prices : prices_ok self store -> token_prices store = Some prices ->
  output_ok self store (with_failures prices []).
Proof.
  intros Hok Hp. split.
  - intros deps Hd. rewrite (po_agree _ _ Hok _ _ Hp Hd). split; [done|]. split; [by apply (po_gas _ _ Hok)|].
    intros token entry. by apply (po_nonzero _ _ Hok).
  - exists prices, []. split; [done|]. split; [done|]. by intros token ?%elem_of_nil.
Qed.

Lemma update_ok history env store changed scope : (forall i, keyed (pe_snapshot env i)) -> leaves_deps env -> prices_ok self store ->
  exists store' history' r, update_prices self history env store changed scope = (store', history', Ok r) /\
    match r with Some output => output_ok self store' output | None => deps_nonzero store' end.
Proof.
  intros Hkeyed Hleaves Hok. unfold TokenPrices.update_prices.
  destruct (token_prices_deps store) as [deps|] eqn:Hdeps.
  2: { eexists _, _, _. split; [done|]. intros d token entry. congruence. }
  destruct (token_prices store) as [prices|] eqn:Hprices.
  2: { eexists _, _, _. split; [done|]. intros d token entry. apply (po_nonzero _ _ Hok). }
  cbn [pass_priority]. destruct (_ && _).
  { eexists _, _, _. split; [done|]. by apply unchanged_output_ok. }
  match goal with |- context [solve self ?h env ?c ?p scope ?m] => destruct (solve_ok h env c p scope m Hkeyed) as (h' & solved & failed & -> & Hs) end.
  assert (token_prices_deps (drop_stale_failures (pe_store_meanwhile env store) solved) = token_prices_deps (pe_store_meanwhile env store))
    as Hdrop by done.
  rewrite Hdrop. destruct (Hleaves store) as [Hsame|Hgone].
  - rewrite Hsame, Hdeps. unfold edit_token_prices_deps. rewrite Hdrop, Hsame, Hdeps. eexists _, _, _. split; [done|].
    rewrite (po_agree _ _ Hok _ _ Hprices Hdeps). apply (edited_output_ok _ _ failed deps (po_block solved) Hs); [| |done].
    + by apply (po_gas _ _ Hok).
    + intros token entry. by apply (po_nonzero _ _ Hok).
  - rewrite Hgone. eexists _, _, _. split; [done|]. intros d token entry. rewrite Hdrop, Hgone. done.
Qed.

Lemma seed_ok history env store : (forall i, keyed (pe_snapshot env i)) -> leaves_deps env -> deps_nonzero store ->
  exists store' history' output, seed_all_prices self history env store = (store', history', Ok output) /\ output_ok self store' output.
Proof.
  intros Hkeyed Hleaves Hnz. unfold TokenPrices.seed_all_prices. cbn [pass_priority].
  match goal with |- context [solve self ?h env ?c ?p ?sc ?m] => destruct (solve_ok h env c p sc m Hkeyed) as (h' & solved & failed & -> & Hs) end.
  eexists _, _, _. split; [done|].
  assert (token_prices_deps (drop_stale_failures (pe_store_meanwhile env store) solved) = token_prices_deps (pe_store_meanwhile env store))
    as Hdrop by done.
  rewrite Hdrop. set (previous := cv_data <$> _). 
  pose proof (fun token => seeded_lookup self solved previous token (sd_unattempted _ _ _ Hs)) as Hseed.
  assert (forall token entry, default ∅ previous !! token = Some entry -> price_ok (tpe_price entry)) as Hprev.
  { intros token entry. unfold previous. destruct (Hleaves store) as [->| ->]; [|cbn; by rewrite lookup_empty].
    destruct (token_prices_deps store) as [d|] eqn:Hd; cbn; [by apply Hnz|by rewrite lookup_empty]. }
  split.
  - intros d [= <-]. cbn. split; [done|]. split; [rewrite Hseed; by rewrite decide_True|].
    intros token entry. rewrite Hseed. case_decide; [intros [= <-]; apply (gk_scale _ Hgas)|].
    destruct (po_prices solved !! token) as [e|] eqn:He; [intros [= <-]; by apply (sd_prices _ _ _ Hs _ _ He)|].
    case_decide; [apply Hprev|done].
  - eexists _, failed. split; [done|]. split; [apply (sd_items _ _ _ Hs)|]. intros token Hf.
    destruct (sd_failed _ _ _ Hs token Hf) as (Hnone & Hun & Hne). rewrite lookup_fmap, Hseed, Hnone.
    by rewrite !decide_False.
Qed.

Lemma compute_ok history env store changed : (forall i, keyed (pe_snapshot (ce_update env) i)) -> (forall i, keyed (pe_snapshot (ce_seed env) i)) ->
  leaves_deps (ce_update env) -> leaves_deps (ce_seed env) -> prices_ok self store ->
  exists store' history' output, compute self env history store changed = (store', history', Ok output) /\ output_ok self store' output.
Proof.
  intros Hk1 Hk2 Hl1 Hl2 Hok. unfold TokenGasPriceComputation_compute. destruct (start_pass _ _ _ _ _) as [h slot].
  assert (deps_nonzero store) as Hnz by (intros d token entry; apply (po_nonzero _ _ Hok)).
  assert (forall scope, exists store' history' output, match update_prices self h (ce_update env) store
      (without_left_out_arrivals (ce_arrivals env) changed) scope with
    | (store, history, Err error) => (store, history, Err error)
    | (store, history, Ok (Some result)) => (store, history, Ok result)
    | (store, history, Ok None) => seed_all_prices self history (ce_seed env) store
    end = (store', history', Ok output) /\ output_ok self store' output) as Hrun.
  { intros scope. destruct (update_ok h (ce_update env) store (without_left_out_arrivals (ce_arrivals env) changed) scope Hk1 Hl1 Hok)
      as (s & h' & [output|] & -> & Hr); [by eexists _, _, _|by apply seed_ok]. }
  destruct slot; [apply Hrun|apply Hrun|]. destruct (token_prices store) as [prices|] eqn:Hp; [|by apply seed_ok].
  eexists _, _, _. split; [done|]. by apply unchanged_output_ok.
Qed.
End stored.
End compute.

(** ** As a registered computation *)

(** Computing writes no slot when the tasks beside it write none: the manager may rely on the
    computation as on the others. *)
Section registered.
Context `{TychoGas} `{!Messages} `{!TychoSwaps} `{NodeGraph (EdgeData ())} (decimals : Token -> N) (integer_decode : f64 -> N * Z).
Context (spot_price : ProtocolSim -> Token -> Token -> result string f64).
Context (show_address : Address -> string) (show_algorithm_error : AlgorithmError -> string) (fresh_order_id : string).
Context (show_join_error : string) (walk_order : gset Address -> list Address).

Definition writes_no_slot (env : PassEnv) : Prop := forall store, slots (pe_store_meanwhile env store) = slots store.

Lemma seed_slots self history env store : writes_no_slot env ->
  slots (seed_all_prices decimals integer_decode spot_price show_address show_algorithm_error fresh_order_id show_join_error walk_order
    self history env store).1.1 = slots store.
Proof.
  intros Hslots. unfold seed_all_prices. cbn [pass_priority]. destruct (solve_token_prices _ _ _ _ _ _ _ _ _ _ _ _ _ _ _) as [h [solved|e]];
    [apply Hslots|done].
Qed.

Lemma update_slots self history env store changed scope : writes_no_slot env ->
  slots (update_prices decimals integer_decode spot_price show_address show_algorithm_error fresh_order_id show_join_error walk_order
    self history env store changed scope).1.1 = slots store.
Proof.
  intros Hslots. unfold update_prices. destruct (token_prices_deps store); [|done]. destruct (token_prices store); [|done].
  cbn [pass_priority]. destruct (_ && _); [done|]. destruct (solve_token_prices _ _ _ _ _ _ _ _ _ _ _ _ _ _ _) as [h [solved|e]]; [|done].
  unfold edit_token_prices_deps. destruct (token_prices_deps _); apply Hslots.
Qed.

Lemma token_prices_persist_own_slot parse_address now self env history :
  writes_no_slot (ce_update env) -> writes_no_slot (ce_seed env) ->
  PersistsOwnSlot (token_price_computation decimals integer_decode spot_price show_address show_algorithm_error
    fresh_order_id show_join_error walk_order parse_address now self env history).
Proof.
  intros Hu Hs. apply token_price_persists_own_slot. intros store changed.
  unfold TokenGasPriceComputation_compute. destruct (start_pass _ _ _ _ _) as [h slot].
  assert (forall scope, slots (match update_prices decimals integer_decode spot_price show_address show_algorithm_error fresh_order_id
      show_join_error walk_order self h (ce_update env) store (without_left_out_arrivals (ce_arrivals env) changed) scope with
    | (store, history, Err error) => (store, history, Err error)
    | (store, history, Ok (Some result)) => (store, history, Ok result)
    | (store, history, Ok None) => seed_all_prices decimals integer_decode spot_price show_address show_algorithm_error fresh_order_id
        show_join_error walk_order self history (ce_seed env) store
    end).1.1 = slots store) as Hrun.
  { intros scope. pose proof (update_slots self h (ce_update env) store (without_left_out_arrivals (ce_arrivals env) changed) scope Hu) as Hs'.
    destruct (update_prices _ _ _ _ _ _ _ _ _ _ _ _ _ _) as [[s h'] [[r|]|e]]; [done| |done]. by rewrite seed_slots. }
  destruct slot.
  - specialize (Hrun Whole). by destruct (update_prices _ _ _ _ _ _ _ _ _ _ _ _ _ _) as [[s h'] [[r|]|e]];
      [|destruct (seed_all_prices _ _ _ _ _ _ _ _ _ _ _ _) as [[? ?] ?]|].
  - specialize (Hrun ArrivalsOnly). by destruct (update_prices _ _ _ _ _ _ _ _ _ _ _ _ _ _) as [[s h'] [[r|]|e]];
      [|destruct (seed_all_prices _ _ _ _ _ _ _ _ _ _ _ _) as [[? ?] ?]|].
  - destruct (token_prices store); [done|]. pose proof (seed_slots self h (ce_seed env) store Hs) as Hs'.
    by destruct (seed_all_prices _ _ _ _ _ _ _ _ _ _ _ _) as [[? ?] ?].
Qed.
End registered.

(** ** Properties *)

Section properties.
Context `{TychoGas} `{!Messages} `{!TychoSwaps} `{NodeGraph (EdgeData ())} (decimals : Token -> N) (integer_decode : f64 -> N * Z).
Context (spot_price : ProtocolSim -> Token -> Token -> result string f64).
Context (show_address : Address -> string) (show_algorithm_error : AlgorithmError -> string) (fresh_order_id : string).
Context (show_join_error : string) (walk_order : gset Address -> list Address).
Implicit Types (self : TokenGasPriceComputation) (history : PassHistory) (env : PassEnv).

#[local] Abbreviation solve_token_prices := (solve_token_prices decimals integer_decode spot_price show_address
  show_algorithm_error fresh_order_id show_join_error walk_order).
#[local] Abbreviation compute := (TokenGasPriceComputation_compute decimals integer_decode spot_price show_address
  show_algorithm_error fresh_order_id show_join_error walk_order).


(** C22: a pricing pass never panics and accounts for every token of the market it prices, the gas token
    aside. A token the cap leaves out is unattempted; a selected token is priced, or reported once
    as failed for lack of a way to sell it, or unattempted, or cannot be reached, and never two of
    these. No more tokens are selected than the cap allows, and no more fail than sell solves
    are allowed. When neither a deadline, a timeout nor the cap on sell solves is met, every
    selected token is attempted. *)
Theorem pricing_pass_accounts self history env changed priority scope max_tokens :
  (forall tokens, walk_order tokens ≡ₚ elements tokens) ->
  tg_max_hops self <> O -> (forall i, keyed (pe_snapshot env i)) ->
  let selected := select_pass_tokens walk_order (universe_of self env) changed priority scope max_tokens in
  NoDup selected /\ (length selected <= N.to_nat max_tokens)%nat /\
  exists history' outcome failed, solve_token_prices self history env changed priority scope max_tokens = (history', Ok outcome) /\
    dom (po_prices outcome) ⊆ list_to_set selected /\ list_to_set failed.*1 ⊆ (list_to_set selected : gset Address) /\
    po_unattempted outcome ⊆ universe_of self env /\ universe_of self env ∖ list_to_set selected ⊆ po_unattempted outcome /\
    dom (po_prices outcome) ## po_unattempted outcome /\ dom (po_prices outcome) ## list_to_set failed.*1 /\
    list_to_set failed.*1 ## po_unattempted outcome /\
    po_failed_items outcome = (fun item : Address * string =>
      {| fi_key := show_address item.1; fi_error := MissingSellRoute item.2 |}) <$> failed /\
    NoDup failed.*1 /\ (length failed <= tg_max_sell_solves_per_pass self)%nat /\
    (forall algorithm ctx, pricing_algorithm self = Ok algorithm ->
       pricing_context self algorithm (graph_of env) env (list_to_set selected) = Some ctx -> selected <> [] ->
       unhurried (PricingPassState_new algorithm (graph_of env) ctx self (read_flagged_components history)).1 (pe_clock env) selected ->
       po_unattempted outcome = universe_of self env ∖ list_to_set selected).
Proof.
  intros Hwalk Hhops Hkeyed. cbn zeta.
  pose proof (solve_spec decimals integer_decode spot_price show_address show_algorithm_error fresh_order_id show_join_error walk_order Hwalk
    self history env changed priority scope max_tokens Hhops Hkeyed) as Hspec. cbn zeta in Hspec.
  split; [by apply selection_NoDup|]. split; [by apply selection_length|].
  assert (list_to_set (select_pass_tokens walk_order (universe_of self env) changed priority scope max_tokens) ⊆ universe_of self env) as Hsub.
  { intros t Ht%elem_of_list_to_set. by apply (selection_elem _ Hwalk) in Ht as [? _]. }
  destruct Hspec as [[-> Hnone]|(algorithm & ctx & outcome & failed & Halg & Hctx & Hres & ->)].
  - eexists _, _, []. split; [done|].
    cbn [nothing_attempted po_prices po_unattempted po_failed_items fmap list_fmap list_to_set]. set (selected := select_pass_tokens _ _ _ _ _ _) in *.
    rewrite dom_empty_L. split_and!; try done; try apply empty_subseteq; try (by intros t ?%elem_of_empty);
      [by apply subseteq_difference_l|constructor|cbn; lia|].
    intros algorithm ctx Halg Hctx Hne. destruct Hnone as [|(algorithm' & Halg' & Hnone)]; [done|]. congruence.
  - eexists _, _, failed. split; [done|].
    cbn [extend_unattempted po_prices po_unattempted po_failed_items]. set (selected := select_pass_tokens _ _ _ _ _ _) in *.
    destruct Hres as [_ _ Hprices Hitems Honce Hfew Hfailed Hun Hall]. split_and!; try done.
    + intros t [e He]%elem_of_dom. apply elem_of_list_to_set. by apply Hprices in He as [? _].
    + intros t Ht%elem_of_list_to_set. apply elem_of_list_to_set. by apply Hfailed.
    + apply union_subseteq. split; [|apply subseteq_difference_l; done].
      intros t Ht. apply Hsub, elem_of_list_to_set. by apply Hun.
    + apply union_subseteq_r.
    + intros t [e He]%elem_of_dom [Ht|[_ Ht]%elem_of_difference]%elem_of_union; [destruct (Hun t Ht); congruence|].
      by apply Ht, elem_of_list_to_set, (Hprices t e).
    + intros t [e He]%elem_of_dom Ht%elem_of_list_to_set. destruct (Hfailed t Ht) as (_ & ? & _). congruence.
    + intros t Ht%elem_of_list_to_set [Ht'|[_ Ht']%elem_of_difference]%elem_of_union; destruct (Hfailed t Ht) as (Hin & _ & ?); [done|].
      by apply Ht', elem_of_list_to_set.
    + intros algorithm' ctx' Halg' Hctx' _ Hu. assert (algorithm' = algorithm) as -> by congruence.
      assert (ctx' = ctx) as -> by congruence. rewrite (Hall Hu). by rewrite union_empty_l_L.
Qed.

(** C23: the cap rotates over the tokens instead of starving some. Take a token the market keeps,
    and passes that attempt all they select, over whatever markets, prices and arrivals, with any calls
    between them that record no pass; a whole pass may always select the token, because it has no
    price, a change points at it or its price is stale; a pass for arrivals only need not. What a whole
    pass's cap leaves after the arrived tokens, which come first, is its room. Once the passes'
    rooms add up to the tokens of the first market and those that entered since, the token has been
    attempted, whatever other tokens they ranked higher. Arrivals that fill the cap at every pass leave no room,
    and can starve a token ([arrivals_starve]). *)
Theorem rotation_reaches_every_token universe cap token room entering n history history' :
  (forall tokens, walk_order tokens ≡ₚ elements tokens) -> token ∈ universe ->
  stamps_past history -> ph_passes history + N.of_nat n <= u64_MAX ->
  (size universe + entering <= room)%nat ->
  rotation walk_order cap token universe history room entering n history' ->
  exists pass, ph_last_attempted history' !! token = Some pass /\ ph_passes history < pass.
Proof. intros Hwalk Hin Hpast Hmax Hroom Hrot. by apply (rotation_reaches walk_order Hwalk cap token universe history room entering n). Qed.

(** Whole passes keep their distance. Through any calls, whatever the market, the store and the
    arrivals between them and however long a pass takes, two whole passes in a row start at least the
    minimum interval apart and, unless the interval is off, on different blocks; passes for
    arriving components do not restart the interval. *)
Theorem whole_passes_spaced self now history grants i before after :
  granted decimals integer_decode spot_price show_address show_algorithm_error fresh_order_id show_join_error walk_order
    self now history grants ->
  grants !! i = Some before -> grants !! S i = Some after ->
  tg_min_pass_interval self <= after.1 - before.1 /\ (tg_min_pass_interval self = 0 \/ before.2 <> after.2).
Proof.
  intros Hg Hb Ha. destruct (granted_apart _ _ _ _ _ _ _ _ _ _ _ _ Hg) as (_ & _ & Hpairs).
  destruct (Hpairs i before after Hb Ha) as [Hint Hblock]. split; [done|]. destruct Hblock as [?|Hne]; [by left|right].
  intros Heq. apply Hne. cbn. by rewrite Heq.
Qed.

(** A flag lasts exactly as many passes as the code says, also when the count of passes wraps around.
    After the pass that flagged a pool, and while no later pass flags it again, the pool is left
    out of the first buy pass of each of the next 100 passes and of no pass after them. *)
Theorem flags_expire c selected outcome universe n history flagged later :
  c ∈ po_new_flagged_components outcome -> flagged = record_pass history selected outcome universe ->
  nsteps (passes_unflagged c) n flagged later ->
  c ∈ read_flagged_components later <-> N.of_nat n < FLAGGED_POOL_PASSES.
Proof.
  intros Hc -> Hsteps. unfold read_flagged_components. rewrite elem_of_dom.
  rewrite (flag_life c n (record_pass history selected outcome universe) later 0); [by rewrite N.add_0_l| |done].
  exists (wrapping_succ (ph_passes history)). cbn [record_pass ph_passes].
  pose proof (pass_succ_bound (ph_passes history)). split_and!; [|done|done|apply wrapping_sub_self|done].
  apply recorded_flag. rewrite wrapping_sub_self. split; [done|by left].
Qed.

(** C21: a call to compute token prices always succeeds and keeps the store consistent, whatever the market
    and the history, and also when other tasks clear the dependencies while a pass runs. Once
    its output is stored, the stored prices are exactly those of the stored dependencies, the gas token is
    among them at its own rate, no price is zero, and no token has both a price and a failure. *)
Theorem token_prices_stay_consistent self (env : ComputeEnv) history store (changed : ChangedComponents) parse_address block now :
  (forall tokens, walk_order tokens ≡ₚ elements tokens) -> (forall a, parse_address (show_address a) = Some a) ->
  tg_max_hops self <> O -> gas_token_ok (tg_gas_token_config self) ->
  (forall i, keyed (pe_snapshot (ce_update env) i)) -> (forall i, keyed (pe_snapshot (ce_seed env) i)) ->
  leaves_deps (ce_update env) -> leaves_deps (ce_seed env) -> prices_ok self store ->
  exists store' history' output, compute self env history store changed = (store', history', Ok output) /\
    prices_ok self (token_price_persist parse_address now store' output block).
Proof.
  intros Hwalk Hparse Hhops Hgas Hk1 Hk2 Hl1 Hl2 Hok.
  destruct (compute_ok decimals integer_decode spot_price show_address show_algorithm_error fresh_order_id show_join_error walk_order
    Hwalk self Hhops Hgas history env store changed Hk1 Hk2 Hl1 Hl2 Hok) as (store' & history' & output & Hc & Ho).
  exists store', history', output. split; [done|]. by apply (persist_ok show_address parse_address Hparse).
Qed.
End properties.

(** ** Samples and witnesses *)

Module PricingSample.
#[local] Open Scope string_scope.
#[local] Existing Instances MarketSample.tycho MarketSample.tycho_market MostLiquidSample.gas MostLiquidSample.messages.
#[local] Existing Instances BellmanFordSample.graph BellmanFordSample.node_graph.

(** Every pool pays 98 for 100, but what buys the gas token with L, which pays a tenth. *)
Definition swaps : TychoSwaps := {|
  get_amount_out := fun (state : ProtocolSim) amount token_in token_out =>
    let paid := if decide ((token_in : string, token_out : string) = ("L", Sample.A)) then 10 else 98 in
    Ret (Ok (@Build_GetAmountOutResult MarketSample.tycho (amount * paid / 100)%N 0 state));
  PANIC_MESSAGE := "panic" |}.
#[local] Existing Instance swaps.

(** The gas token's pools with F and G answer no spot price. *)
Definition spot_price (sim : ProtocolSim) (token_in token_out : Token) : result string f64 :=
  if decide ((token_in : string) ∈ ["F"; "G"] /\ (token_out : string) = Sample.A
             \/ (token_out : string) ∈ ["F"; "G"] /\ (token_in : string) = Sample.A)
  then Err "no spot price" else Ok F64.one.

(** A to B, F, G and L; B also to F. *)
Definition pools : BellmanFordSample.listing :=
  [BellmanFordSample.pair "ab" Sample.A Sample.B; BellmanFordSample.pair "af" Sample.A "F"; BellmanFordSample.pair "bf" Sample.B "F";
   BellmanFordSample.pair "ag" Sample.A "G"; BellmanFordSample.pair "al" Sample.A "L"].

Definition computation : TokenGasPriceComputation := {|
  tg_gas_token_config := {| gt_address := Sample.A; gt_probe_amount := 10000;
                            gt_routable_per_native_unit := {| price_numerator := 1; price_denominator := 1000 |} |};
  tg_max_hops := 2; tg_pass_budget := 100; tg_max_tokens_per_pass := 3; tg_max_sell_solves_per_pass := 2;
  tg_min_pass_interval := 50; tg_min_sell_out_bps := 5000 |}.

Definition idle_clock : PassClock := {|
  pc_reverse_sell := fun _ => 0; pc_second_buy_pass := 0; pc_sell_solve := fun _ => 0; pc_run := fun _ _ => 0 |}.

Definition env : PassEnv := {|
  pe_topology := BellmanFordSample.market pools;
  pe_snapshot := fun _ => BellmanFordSample.market pools;
  pe_clock := idle_clock;
  pe_store_meanwhile := fun store => store |}.

Definition show_error (e : AlgorithmError) : string := "no route".

Definition walk (tokens : gset Address) : list Address := elements tokens.

Definition nothing_known : PassPriority := {|
  pq_arrived := ∅; pq_priced := ∅; pq_last_attempted := ∅; pq_passes := 0 |}.

Definition solved (max_tokens : N) : PassHistory * result ComputationError PricingPassOutcome :=
  solve_token_prices BellmanFordSample.decimals BellmanFordSample.decode spot_price (fun a => a) show_error "order" "join" walk
    computation PassHistory_default env None nothing_known Whole max_tokens.

Definition prices_of (r : PassHistory * result ComputationError PricingPassOutcome) : list (Address * (N * N) * list ComponentId) :=
  match r.2 with
  | Ok outcome => (fun kv => (kv.1, (price_numerator (tpe_price kv.2), price_denominator (tpe_price kv.2)),
                              elements (tpe_path_components kv.2))) <$> map_to_list (po_prices outcome)
  | Err _ => []
  end.
End PricingSample.

Section witnesses.
Import PricingSample.
#[local] Open Scope string_scope.
#[local] Existing Instances MarketSample.tycho MarketSample.tycho_market MostLiquidSample.gas MostLiquidSample.messages.
#[local] Existing Instances BellmanFordSample.graph BellmanFordSample.node_graph PricingSample.swaps.

(** B is priced by its reverse sale; L, whose reverse sale pays too little, by a sell solve; F on its
    second route; and G, which only a flagged pool trades, at the rate of its sale. *)
Example prices_of_a_pass : prices_of (solved 9) =
  [("G", (9800, 9604000), ["ag"]); ("F", (184608088, 184440000000), ["ab"; "bf"]);
   ("B", (192119200, 192080000000), ["ab"]); ("L", (107604000, 19600000000), ["al"])].
Proof. by vm_compute. Qed.

Lemma pools_keyed : keyed (BellmanFordSample.market pools).
Proof. apply map_Forall_to_list. by vm_compute; repeat constructor. Qed.

Lemma sample_gas_ok : gas_token_ok (tg_gas_token_config computation).
Proof. by split. Qed.


Lemma pricing_pass_accounts_witness : exists history' outcome failed, solved 2 = (history', Ok outcome) /\
  po_failed_items outcome = (fun item : Address * string => {| fi_key := item.1; fi_error := MissingSellRoute item.2 |}) <$> failed /\
  dom (po_prices outcome) ## po_unattempted outcome /\ (length failed <= 2)%nat.
Proof.
  destruct (pricing_pass_accounts BellmanFordSample.decimals BellmanFordSample.decode spot_price (fun a => a) show_error "order" "join"
    walk computation PassHistory_default env None nothing_known Whole 2) as
    (_ & _ & history' & outcome & failed & Hsolve & _ & _ & _ & _ & Hdisj & _ & _ & Hitems & _ & Hfew & _);
    [done|done|intros i; exact pools_keyed|].
  exists history', outcome, failed. split; [exact Hsolve|]. by split_and!.
Defined.

Definition sample_universe : gset Address := {[ "B"; "F"; "G" ]}.

(** A pass over three tokens, capped at two, that attempts what it selects; an arrived token takes a place. *)
Definition sample_turn (arrived : gset Address) (scope : PassScope) : Turn := {|
  tn_universe := sample_universe; tn_arrived := arrived; tn_changed := None; tn_priced := ∅; tn_scope := scope |}.

Definition sample_pass (turn : Turn) (history : PassHistory) : PassHistory :=
  let ordered : gset Address := list_to_set (turn_selection walk 2 history turn) in
  record_pass (pass_priority history (tn_arrived turn) (tn_priced turn)).1 ordered (nothing_attempted (tn_universe turn ∖ ordered) 0)
    (tn_universe turn).

Definition some_arrived : Turn := sample_turn {[ "B" ]} Whole.
Definition arrivals_only : Turn := sample_turn {[ "F" ]} ArrivalsOnly.

Lemma sample_rotates history turn universe room entering n history' :
  bool_decide ("G" ∈ tn_universe turn) = true -> bool_decide (turn_selection walk 2 history turn <> []) = true ->
  match tn_scope turn with
  | Whole => bool_decide (is_Some (rank (tn_changed turn) (turn_priority history turn) Whole "G"))
  | ArrivalsOnly => true
  end = true ->
  rotation walk 2 "G" (tn_universe turn) (sample_pass turn history) room entering n history' ->
  rotation walk 2 "G" universe history (spare 2 history turn + room) (size (tn_universe turn ∖ universe) + entering) (S n) history'.
Proof.
  intros Hin%bool_decide_eq_true Hsel%bool_decide_eq_true Hr Hrest.
  apply (rotation_pass _ _ _ _ history history turn (sample_pass turn history)); [done| | |exact Hrest].
  - split; [done|]. intros Hscope. rewrite Hscope in Hr. by apply bool_decide_eq_true in Hr.
  - split; [done|]. exists (nothing_attempted (tn_universe turn ∖ list_to_set (turn_selection walk 2 history turn)) 0). by split.
Qed.

(** Three whole passes, each of which has one arrival, leave room for all; a pass for arrivals only leaves none. *)
Lemma rotation_reaches_every_token_witness : exists pass,
  ph_last_attempted (sample_pass some_arrived (sample_pass arrivals_only (sample_pass some_arrived (sample_pass some_arrived
    PassHistory_default)))) !! ("G" : Address) = Some pass /\ 0 < pass.
Proof.
  set (h1 := sample_pass some_arrived PassHistory_default). set (h2 := sample_pass some_arrived h1).
  set (h3 := sample_pass arrivals_only h2). set (h4 := sample_pass some_arrived h3).
  apply (rotation_reaches_every_token walk sample_universe 2 "G" 3 0 4 PassHistory_default h4).
  - done.
  - by apply (bool_decide_unpack _).
  - intros u s Hs. cbn in Hs. by rewrite lookup_empty in Hs.
  - by vm_compute.
  - by apply (bool_decide_unpack _).
  - change (rotation walk 2 "G" sample_universe PassHistory_default
      (1 + (1 + (0 + (1 + 0)))) (0 + (0 + (0 + (0 + 0)))) 4 h4).
    apply (sample_rotates PassHistory_default some_arrived); [by vm_compute..|].
    apply (sample_rotates h1 some_arrived); [by vm_compute..|].
    apply (sample_rotates h2 arrivals_only); [by vm_compute..|].
    apply (sample_rotates h3 some_arrived); [by vm_compute..|]. apply rotation_done.
Defined.

(** Where as many tokens arrive at every pass as the cap allows, no other is selected. *)
Example arrivals_starve :
  let full := sample_turn {[ "B"; "F" ]} Whole in
  let history := sample_pass full (sample_pass full (sample_pass full PassHistory_default)) in
  spare 2 history full = 0%nat /\ ph_last_attempted history !! ("G" : Address) = None.
Proof. by vm_compute. Qed.

Definition quiet : ChangedComponents := {| added := ∅; removed := []; updated := [] |}.

Definition call_at (now : N) (market : MarketState) : ComputeEnv := {|
  ce_arrivals := market; ce_block := market; ce_now := now; ce_update := env; ce_seed := env |}.

Lemma whole_passes_spaced_witness : exists grants,
  granted BellmanFordSample.decimals BellmanFordSample.decode spot_price (fun a => a) show_error "order" "join" walk
    computation 0 PassHistory_default grants /\
  grants !! 0%nat = Some (10, 0) /\ grants !! 1%nat = Some (70, 100) /\ 50 <= 70 - 10 /\ (50 = 0 \/ 0 <> 100).
Proof.
  assert (exists grants, granted BellmanFordSample.decimals BellmanFordSample.decode spot_price (fun a => a) show_error "order" "join" walk
    computation 0 PassHistory_default grants /\ grants !! 0%nat = Some (10, 0) /\ grants !! 1%nat = Some (70, 100)) as (grants & Hg & H0 & H1).
  { eexists. split.
    - apply (granted_call _ _ _ _ _ _ _ _ _ _ _ (call_at 10 (BellmanFordSample.market pools)) DerivedData_new quiet); [done|].
      apply (granted_call _ _ _ _ _ _ _ _ _ _ _ (call_at 70 MarketSample.market) DerivedData_new quiet); [done|apply granted_none].
    - split; by vm_compute. }
  exists grants. split; [exact Hg|]. split; [exact H0|]. split; [exact H1|].
  exact (whole_passes_spaced _ _ _ _ _ _ _ _ _ _ _ _ 0%nat _ _ Hg H0 H1).
Defined.

Lemma flags_expire_witness :
  let flagging := {| po_prices := ∅; po_routes := ∅; po_block := 0; po_failed_items := []; po_unattempted := ∅;
                     po_new_flagged_components := {[ "af" ]} |} in
  let flagged := record_pass PassHistory_default ∅ flagging ∅ in
  "af" ∈ read_flagged_components (record_pass flagged ∅ (nothing_attempted ∅ 0) ∅) <-> 1 < FLAGGED_POOL_PASSES.
Proof.
  cbn zeta. eapply (flags_expire "af" ∅ {| po_prices := ∅; po_routes := ∅; po_block := 0; po_failed_items := []; po_unattempted := ∅;
    po_new_flagged_components := {[ "af" ]} |} ∅ 1 PassHistory_default); [cbn; by apply elem_of_singleton|reflexivity|].
  apply nsteps_once. eexists _, ∅, (nothing_attempted ∅ 0), ∅. split; [done|]. split; [done|]. split; [apply not_elem_of_empty|reflexivity].
Defined.

Lemma token_prices_stay_consistent_witness : exists store' history' output,
  TokenGasPriceComputation_compute BellmanFordSample.decimals BellmanFordSample.decode spot_price (fun a => a) show_error "order" "join" walk
    computation (call_at 10 (BellmanFordSample.market pools)) PassHistory_default DerivedData_new quiet = (store', history', Ok output) /\
  prices_ok computation (token_price_persist (fun a => Some a) 7 store' output 5).
Proof.
  apply (token_prices_stay_consistent BellmanFordSample.decimals BellmanFordSample.decode spot_price (fun a => a) show_error "order" "join"
    walk computation (call_at 10 (BellmanFordSample.market pools)) PassHistory_default DerivedData_new quiet (fun a => Some a) 5 7);
    [done|done|done|exact sample_gas_ok|intros i; exact pools_keyed|intros i; exact pools_keyed|intros store; by left|intros store; by left|].
  by split.
Defined.
End witnesses.
